(* ===== verification/_CoqProject ===== *)
-Q . S2P
Prelude.v
CppNum.v
Values.v
Rows.v
Page.v
PageStore.v
BufferPool.v
HeapFile.v
RowHeap.v
IndexKey.v
BTree.v
Transactions.v
LockManager.v
Expr.v
Evaluator.v
Partition.v
Table.v
TableSpec.v
TableMaint.v
TableProps.v
Operators.v
Lexer.v
Ast.v
Parser.v
ParserSafe.v
ParserRound.v
SelectAnalysis.v
Grouping.v
Windows.v
Planner.v
Scan.v
FileSystem.v
Auth.v
Sessions.v
Catalogs.v
Wal.v
TableFiles.v
PartitionCatalog.v
DbState.v
Queries.v
QueryProps.v
Dml.v
Ddl.v
Explain.v
Dispatch.v
Statements.v
Protocol.v
Shards.v
Coordinator.v
Server.v
Cluster.v
Backup.v
Cli.v
ThreadPool.v
