(* ===== verification/Prelude.v ===== *)
(** * NoBugDB: a verification development

    NoBugDB is a SQL engine in C++17 with a TCP server.  The text of a statement is split into
    tokens and parsed (src/parser), checked against the rights of the session and dispatched
    by [Database] (src/core/database.cc) to executors (src/executor), which plan (src/planner)
    and evaluate it over tables (src/core/table.cc).  Rows live in heap files of slotted
    pages behind a buffer pool (src/storage), are found through in-memory B-trees
    (src/core/btree_index.cc), are isolated by snapshots and locks (src/core/
    transaction_manager.cc, lock_manager.cc) and are spread over child tables by partitions
    (src/core/partition.cc).  Catalogs of views, routines and triggers, table files, a
    write-ahead log and backups keep the state on disk.  Servers answer clients over a text
    protocol, and a coordinator sends statements to the workers of a cluster (src/network).
    This library models that code as Rocq functions and proves what makes it correct.

    ** Conventions

    A member function that can throw or touch memory is a function into [res]
    (below): [Ok], [Throw] with the exception object, or [UB] where the C++ standard
    defines nothing.  Member functions on an object are in the state monad [ST], in
    which an exception keeps the state reached so far.  Machine integers are [Z]
    with their wrap-around written out ([u_wrap], [s_wrap]); signed overflow is [UB]
    ([s_checked]).  Buffers are lists of bytes, and numbers in them little-endian.
    Doubles are the [spec_float] of the Standard Library at binary64.  Unordered
    maps and sets are [gmap] and [gset]; where the C++ iterates over one, the result
    is proved or by construction independent of the order, or the order is an argument.
    A [std::map] is an association list in the order of its keys.  A statement that has to
    wait for a lock has no outcome until another session moves, which is [UB] too.
    What the operating system lets the program do with a file (open, write, rename, remove) is
    part of the state, and the code runs on with whatever it does about a failure.

    Theorems about comparing, sorting and indexing values are about columns of one [kind]
    (Values.v): INT, STRING, BOOL, or FLOATs that pairwise differ by 1e-9 or more.  The code
    takes closer FLOATs for equal, which is no equivalence relation, and compares INT with
    FLOAT but hashes them apart; examples show what goes wrong there.

    ** Files

    Foundations.
    - Prelude.v: outcomes and monads, fixed-width integers, byte images, lists,
      the hint database [nobug] and the tactics of the library.
    - CppNum.v: the numeric and string parts of the C++ library the code calls.
    - Values.v, Rows.v: [DataType], [Value], [TypeConverter] (src/types), [Row], [Column] and
      the tuple image (src/core/row.cc, column.cc, src/storage/page_format.cc).

    Storage.
    - Page.v: the slotted page of 8 KiB, byte by byte (src/storage/page.cc).
    - PageStore.v: page stores in memory and in a file (page_store.cc), and the class of
      stores the pool is written against.
    - BufferPool.v: frames, clock eviction, pins, write-back (buffer_pool.cc).
    - HeapFile.v: heap files over the pool (heap_file.cc); RowHeap.v: the interface
      of a heap to tables, with its laws.
    - FileSystem.v: files by path, with calls that can fail; Wal.v: the write-ahead log and
      recovery (wal_manager.cc); TableFiles.v: table files of all versions
      (persistence_manager.cc); Backup.v: backup and restore (backup_service.cc).

    Tables, indexes and transactions.
    - IndexKey.v, BTree.v: composite keys and the B-tree (src/core/index_key.cc,
      btree_index.cc).
    - Transactions.v: transaction ids, snapshots, visibility (transaction_manager.cc), vacuum
      and freezing; LockManager.v: locks and the cycle test (lock_manager.cc) as a step
      relation on the sessions of a system.
    - Expr.v, Evaluator.v: expressions, scalar functions, correlation frames, CHECK and the
      evaluator (src/executor/select_expression_evaluator.cc, scalar_function.cc), over the
      state its subquery callbacks run on: the database, in the executors.
    - Partition.v: index predicates, partition metadata, routing and pruning; PartitionCatalog.v:
      the partition file.
    - Table.v: tables with constraints and index maintenance (src/core/table.cc); TableSpec.v,
      TableMaint.v, TableProps.v: tables as the list of their rows.

    Statements.
    - Lexer.v, Ast.v, Parser.v: tokens, statements and the recursive-descent parser
      (src/parser); ParserSafe.v: it terminates without undefined behaviour;
      ParserRound.v: printed predicates are read back.
    - Operators.v, SelectAnalysis.v, Grouping.v, Windows.v: the operators of the SELECT
      pipeline, hash join, set operations, GROUP BY with its aggregates, window functions.
    - Planner.v, Explain.v, Scan.v: statistics, costs, access paths, join order, EXPLAIN, and
      how the rows of a WHERE condition are found.
    - Auth.v, Sessions.v, Catalogs.v: SHA-256 and users, sessions, the plan cache and rights,
      the catalogs of views, routines and triggers with their files.
    - DbState.v: the members of [Database], tables behind addresses; Queries.v: SELECT over
      tables, joins, views and subqueries; QueryProps.v: queries change nothing; Dml.v:
      INSERT, UPDATE, DELETE with foreign keys, triggers and procedures; Ddl.v: CREATE,
      ALTER, DROP; Dispatch.v: [Database::execute_query] and what it dispatches to;
      Statements.v: theorems on whole statements, and sessions run from an empty database.

    Servers.
    - ThreadPool.v: the pool and its queue (src/threading) as a step relation.
    - Protocol.v: requests and responses as text (src/network/protocol.cc).
    - Shards.v: the shard map and its file, routing and merging (src/core/shard_map.cc,
      shard_router.cc, src/network/result_merger.cc); Coordinator.v: the statements of a
      coordinator (coordinator_query_router.cc) over the class [IRpcClient].
    - Server.v: the requests of a connection (server.cc), the RPC client over TCP; Cluster.v:
      coordinator and workers together, which instantiate the interfaces.
    - Cli.v: command lines of the server, the backup tool and the client, and the client's
      batch and interactive modes.

    ** What the theorems show

    Storage: histories of operations on pages, page stores, pools and heap files get
    the replies of their abstract counterparts; flushing is durable, a heap file reopens with
    its rows; recovery of the log after a crash installs all tables of a flush or none; a
    restored backup is the data.  Indexes: lookups return exactly the rows inserted under
    matching keys.  Tables: a table is the list of its row versions, its keys stay unique under
    the statements of transactions, its rows satisfy NOT NULL and CHECK.  Transactions: reads
    are repeatable and a rolled back transaction is never read, as long as writers do not
    overwrite the deletions of others and vacuum keeps what a snapshot needs, which the code
    does not see to.  Locks: exclusion in every reachable state, no unnoticed deadlock.
    Expressions: frames are balanced through the subqueries run on the live database, CHECK
    follows three-valued logic, functions terminate under a ranking.  Text: the
    lexer and the parser end on every 7-bit text; tokens, predicates, views, partitions, users
    and results on the wire are read back as they were written.  Queries: every access path
    returns the rows of a full scan; hash join and the join loops are the relational joins;
    GROUP BY, windows, ORDER BY and set operations have their meaning; queries change nothing.
    Rights: exactly the statements a reader is let through with, and a client without
    credentials changes nothing.  Clusters: rows are on the shards that are asked, a transaction
    stays on one shard.  Pool: shutting down loses no task of the queue.  The doc comment of a
    theorem names the conditions it holds on, and where the code needs one that it does not
    check, an example shows what happens without it.  These, and a last group of theorems that
    exhibit inputs on which the code does not do what it means to, are the findings of the
    project manifest.

    ** Fuel and bounds

    The B-tree functions take the height of the tree as fuel, and the theorems show
    it is enough for every tree that inserts build.  The cycle test runs on the
    number of nodes with an edge plus one, enough for every graph.  The lexer runs on the
    length of the text plus one, the parser on the number of tokens left plus one, and
    [parse_text_total] shows that they end; routine bodies run on the length of their text.
    Evaluation of an expression is structural; only calls of user-defined functions consume
    [depth], whose exhaustion is a stack overflow ([UB]), and [functions_terminate] says when
    it does not matter.  Nested SELECTs and statements that dispatch statements (EXECUTE, CALL,
    triggers) take [query_fuel] and [fuel], arguments of the theorems, since the code nests
    them without a bound but the stack; views nest eight deep and triggers sixteen as in the
    code.  Reading a log runs on its number of bytes, cascades of foreign keys on the number of
    tables plus two, a generated CHECK name on the number of checks plus one
    ([allocated_check_name_is_free]), a command line on the number of its arguments
    ([parse_args_fuel]).  Clock eviction makes two rounds, as in the code.

    ** Not modelled

    Sockets and processes (src/platform), the accept loop and the threads of connections, the
    thread of the background vacuum (its work, vacuum of all tables, is modelled), the logger
    and usage texts are input and output.  A send that fails and a reply that arrives in more
    than one piece are not modelled beyond the size of the buffers.  The token cursor of the
    lexer and [PersistenceManager::save_database], which nothing calls, are left out.
    Statements of one database run one after the other, as under its mutex; interleavings are
    modelled in LockManager.v, Transactions.v and ThreadPool.v. *)

From Stdlib Require Import ZArith Lia.
From stdpp Require Export base option list_numbers gmap strings pretty numbers list.

#[global] Open Scope Z_scope.

(** ** Outcomes of C++ code

    [Throw] is a C++ exception that leaves the call, [UB] an operation whose
    behaviour the C++ standard leaves undefined (an access outside a buffer,
    a signed overflow): a theorem that a call yields [Ok] or [Throw] is at the
    same time a memory-safety statement. *)

(** The exception classes of include/utils/exceptions.h, and the classes of
    the C++ standard library the engine throws or catches. *)
Inductive exn : Type :=
  | DatabaseException (message : string)
  | ParseException (message : string)
  | ConstraintException (message : string)
  | TypeException (message : string)
  | NotFoundException (message : string)
  | InvalidOperationException (message : string)
  | StorageException (message : string)
  | NetworkException (message : string)
  | DeadlockException (message : string)
  | std_out_of_range (message : string)
  | std_invalid_argument (message : string)
  | std_runtime_error (message : string).

(** [what()] of each class: the prefix its constructor adds. *)
Definition what (e : exn) : string :=
  match e with
  | DatabaseException m => m
  | ParseException m => "Parse Error: " +:+ m
  | ConstraintException m => "Constraint Error: " +:+ m
  | TypeException m => "Type Error: " +:+ m
  | NotFoundException m => "Not Found: " +:+ m
  | InvalidOperationException m => "Invalid Operation: " +:+ m
  | StorageException m => "Storage Error: " +:+ m
  | NetworkException m => "Network Error: " +:+ m
  | DeadlockException m => "Deadlock Error: " +:+ m
  | std_out_of_range m | std_invalid_argument m | std_runtime_error m => m
  end.

Inductive res (A : Type) : Type :=
  | Ok (a : A)
  | Throw (e : exn)
  | UB.
Arguments Ok {A} a.
Arguments Throw {A} e.
Arguments UB {A}.

#[export] Instance res_ret : MRet res := @Ok.
#[export] Instance res_bind : MBind res := λ A B f m,
  match m with Ok a => f a | Throw e => Throw e | UB => UB end.
#[export] Instance res_fmap : FMap res := λ A B f m,
  match m with Ok a => Ok (f a) | Throw e => Throw e | UB => UB end.

(** [try body catch (...) handler]: undefined behaviour is never caught. *)
Definition try_catch {A} (body : res A) (handler : exn → res A) : res A :=
  match body with Throw e => handler e | r => r end.

Definition defined {A} (r : res A) : Prop := r ≠ UB.

#[export] Instance exn_eq_dec : EqDecision exn.
Proof. solve_decision. Defined.
#[export] Instance res_eq_dec `{EqDecision A} : EqDecision (res A).
Proof. solve_decision. Defined.

(** A loop over a vector whose body may throw. *)
Fixpoint res_map {A B} (f : A → res B) (l : list A) : res (list B) :=
  match l with
  | [] => Ok []
  | x :: l => y ← f x; ys ← res_map f l; mret (y :: ys)
  end.

Fixpoint res_fold {A B} (f : B → A → res B) (acc : B) (l : list A) : res B :=
  match l with
  | [] => Ok acc
  | x :: l => acc' ← f acc x; res_fold f acc' l
  end.

(** ** Operations on an object, with exceptions

    [ST S A] is a member function on an object of state [S]: an exception
    leaves the object in the state it had when it was thrown. *)
Definition ST (S A : Type) : Type := S → S * res A.

#[export] Instance ST_ret S : MRet (ST S) := λ A a s, (s, Ok a).
#[export] Instance ST_bind S : MBind (ST S) := λ A B f m s,
  match m s with
  | (s', Ok a) => f a s'
  | (s', Throw e) => (s', Throw e)
  | (s', UB) => (s', UB)
  end.

Lemma ST_bind_eq {S A B} (m : ST S A) (f : A → ST S B) s :
  (m ≫= f) s = match m s with
               | (s', Ok a) => f a s'
               | (s', Throw e) => (s', Throw e)
               | (s', UB) => (s', UB)
               end.
Proof. reflexivity. Qed.

Definition st_get {S} : ST S S := λ s, (s, Ok s).
Definition st_put {S} (s : S) : ST S unit := λ _, (s, Ok tt).
Definition st_modify {S} (f : S → S) : ST S unit := λ s, (f s, Ok tt).
Definition st_throw {S A} (e : exn) : ST S A := λ s, (s, Throw e).
Definition st_lift {S A} (r : res A) : ST S A := λ s, (s, r).

(** [try body catch (...) handler] around a member function. *)
Definition st_catch {S A} (body : ST S A) (handler : exn → ST S A) : ST S A :=
  λ s, match body s with
       | (s', Throw e) => handler e s'
       | r => r
       end.

(** Loops over a vector whose body is a member function. *)
Fixpoint st_fold {S A B} (f : B → A → ST S B) (acc : B) (l : list A) : ST S B :=
  match l with
  | [] => mret acc
  | x :: l => acc' ← f acc x; st_fold f acc' l
  end.
Definition st_iter {S A} (f : A → ST S unit) (l : list A) : ST S unit :=
  st_fold (λ _ x, f x) tt l.
Fixpoint st_map {S A B} (f : A → ST S B) (l : list A) : ST S (list B) :=
  match l with
  | [] => mret []
  | x :: l => y ← f x; ys ← st_map f l; mret (y :: ys)
  end.
(** [for (x : l) if (f(x)) return true; return false;] *)
Fixpoint st_any {S A} (f : A → ST S bool) (l : list A) : ST S bool :=
  match l with
  | [] => mret false
  | x :: l => b ← f x; if (b : bool) then mret true else st_any f l
  end.
(** The indices a test keeps, in order. *)
Definition st_filter {S A} (f : A → ST S bool) (l : list A) : ST S (list A) :=
  st_fold (λ acc x, b ← f x; mret (if (b : bool) then acc ++ [x] else acc)) [] l.

(** ** Fixed-width integers *)

Definition u_wrap (w z : Z) : Z := z mod 2 ^ w.
Definition is_u (w z : Z) : Prop := 0 ≤ z < 2 ^ w.
Definition is_s (w z : Z) : Prop := - 2 ^ (w - 1) ≤ z < 2 ^ (w - 1).
(** Conversion to a signed type: two's complement. *)
Definition s_wrap (w z : Z) : Z :=
  let u := z mod 2 ^ w in if u <? 2 ^ (w - 1) then u else u - 2 ^ w.

Abbreviation is_u8 := (is_u 8).
Abbreviation is_u16 := (is_u 16).
Abbreviation is_u32 := (is_u 32).
Abbreviation is_u64 := (is_u 64).
Abbreviation is_i64 := (is_s 64).

(** Signed arithmetic: a result outside the type is undefined behaviour. *)
Definition s_checked (w z : Z) : res Z :=
  if (- 2 ^ (w - 1) <=? z) && (z <? 2 ^ (w - 1)) then Ok z else UB.

(** ** Little-endian byte images *)

(** Byte [i] of [v]: [(v >> (8 * i)) & 0xFF]. *)
Definition byte_at (v : Z) (i : nat) : Z := Z.land (Z.shiftr v (8 * Z.of_nat i)) 255.
Definition le_bytes (n : nat) (v : Z) : list Z := byte_at v <$> seq 0 n.

(** [acc | (b << (8 * i))] over the bytes, [i] counting up from [i0]. *)
Fixpoint le_value_from (i0 : nat) (bs : list Z) : Z :=
  match bs with
  | [] => 0
  | b :: bs => Z.lor (Z.shiftl b (8 * Z.of_nat i0)) (le_value_from (S i0) bs)
  end.
Definition le_value (bs : list Z) : Z := le_value_from 0 bs.

(** ** Strings as the byte sequences of std::string *)

Definition bytes_of_string (s : string) : list Z :=
  (λ c, Z.of_N (Ascii.N_of_ascii c)) <$> String.list_ascii_of_string s.
Definition string_of_bytes (bs : list Z) : string :=
  String.string_of_list_ascii ((λ b, Ascii.ascii_of_N (Z.to_N b)) <$> bs).

(** ** Sub-ranges of buffers *)

(** [memcpy] of [bs] to offset [off] of [buf]. *)
Definition splice {A} (off : nat) (bs buf : list A) : list A :=
  take off buf ++ bs ++ drop (off + length bs) buf.
Definition slice {A} (off len : nat) (buf : list A) : list A :=
  take len (drop off buf).

(** ** Proof automation *)

Create HintDb nobug.
#[export] Hint Constants Opaque : nobug.
#[export] Hint Variables Opaque : nobug.

(** Splits the binds of a computation that is known to succeed. *)
Ltac inv_res :=
  repeat match goal with
  | H : Ok _ = Ok _ |- _ => injection H as H; try subst
  | H : Throw _ = Throw _ |- _ => injection H as H; try subst
  | H : mret _ = Ok _ |- _ => change (Ok _ = Ok _) in H
  | H : Throw _ = Ok _ |- _ => discriminate H
  | H : UB = Ok _ |- _ => discriminate H
  | H : mbind _ ?m = Ok _ |- _ =>
      let E := fresh "E" in
      destruct m eqn:E; cbn [mbind res_bind] in H; [ | discriminate H | discriminate H ]
  | H : match ?m with Ok _ => _ | Throw _ => _ | UB => _ end = Ok _ |- _ =>
      let E := fresh "E" in
      destruct m eqn:E; [ | discriminate H | discriminate H ]
  end.

(** Turns boolean tests of the code into propositions. *)
Ltac bool_prop :=
  repeat match goal with
  | H : _ && _ = true |- _ => apply andb_true_iff in H as [? ?]
  | H : _ || _ = false |- _ => apply orb_false_iff in H as [? ?]
  | H : negb _ = true |- _ => apply negb_true_iff in H
  | H : negb _ = false |- _ => apply negb_false_iff in H
  | H : (_ <? _)%Z = true |- _ => apply Z.ltb_lt in H
  | H : (_ <? _)%Z = false |- _ => apply Z.ltb_ge in H
  | H : (_ <=? _)%Z = true |- _ => apply Z.leb_le in H
  | H : (_ <=? _)%Z = false |- _ => apply Z.leb_gt in H
  | H : (_ =? _)%Z = true |- _ => apply Z.eqb_eq in H
  | H : (_ =? _)%Z = false |- _ => apply Z.eqb_neq in H
  | H : (_ <? _)%nat = true |- _ => apply Nat.ltb_lt in H
  | H : (_ <? _)%nat = false |- _ => apply Nat.ltb_ge in H
  | H : (_ <=? _)%nat = true |- _ => apply Nat.leb_le in H
  | H : (_ <=? _)%nat = false |- _ => apply Nat.leb_gt in H
  | H : (_ =? _)%nat = true |- _ => apply Nat.eqb_eq in H
  | H : (_ =? _)%nat = false |- _ => apply Nat.eqb_neq in H
  | H : bool_decide _ = true |- _ => apply bool_decide_eq_true in H
  | H : bool_decide _ = false |- _ => apply bool_decide_eq_false in H
  end.

(** ** Bytes and little-endian images *)

Lemma byte_at_range v i : is_u8 (byte_at v i).
Proof.
  unfold is_u, byte_at. change 255 with (Z.ones 8).
  rewrite Z.land_ones by lia. apply Z.mod_pos_bound; lia.
Qed.

Lemma length_le_bytes n v : length (le_bytes n v) = n.
Proof. unfold le_bytes. by rewrite length_fmap, length_seq. Qed.

Lemma le_bytes_range n v : Forall is_u8 (le_bytes n v).
Proof. apply Forall_fmap, Forall_forall; intros i _. apply byte_at_range. Qed.
#[export] Hint Resolve byte_at_range le_bytes_range : nobug.

Lemma byte_at_testbit v i k :
  0 ≤ k → Z.testbit (byte_at v i) k = (k <? 8) && Z.testbit v (k + 8 * Z.of_nat i).
Proof.
  intros Hk. unfold byte_at. change 255 with (Z.ones 8).
  rewrite Z.land_spec, Z.shiftr_spec by lia.
  rewrite Z.testbit_ones_nonneg by lia. apply andb_comm.
Qed.

Lemma le_value_from_bytes_testbit v n : ∀ i0 k, 0 ≤ k →
  Z.testbit (le_value_from i0 (byte_at v <$> seq i0 n)) k =
  (8 * Z.of_nat i0 <=? k) && (k <? 8 * Z.of_nat (i0 + n)) && Z.testbit v k.
Proof.
  induction n as [|n IH]; intros i0 k Hk; cbn [seq fmap list_fmap le_value_from].
  { rewrite Z.bits_0.
    destruct (Z.leb_spec (8 * Z.of_nat i0) k), (Z.ltb_spec k (8 * Z.of_nat (i0 + 0)));
      try reflexivity; lia. }
  rewrite Z.lor_spec, Z.shiftl_spec by lia. fold (byte_at v <$> seq (S i0) n).
  rewrite IH by lia.
  destruct (Z.leb_spec (8 * Z.of_nat i0) k) as [Hle|Hgt].
  2:{ rewrite Z.testbit_neg_r by lia.
      destruct (Z.leb_spec (8 * Z.of_nat (S i0)) k); [lia|reflexivity]. }
  rewrite byte_at_testbit by lia.
  replace (k - 8 * Z.of_nat i0 + 8 * Z.of_nat i0) with k by lia.
  destruct (Z.ltb_spec (k - 8 * Z.of_nat i0) 8),
    (Z.leb_spec (8 * Z.of_nat (S i0)) k),
    (Z.ltb_spec k (8 * Z.of_nat (S i0 + n))),
    (Z.ltb_spec k (8 * Z.of_nat (i0 + S n))); try lia;
    by destruct (Z.testbit v k).
Qed.

(** Reading back a little-endian image gives the value modulo its width. *)
Lemma le_value_le_bytes n v : le_value (le_bytes n v) = v mod 2 ^ (8 * Z.of_nat n).
Proof.
  rewrite <- Z.land_ones by lia. apply Z.bits_inj'; intros k Hk.
  unfold le_value, le_bytes. rewrite le_value_from_bytes_testbit by lia.
  rewrite Z.land_spec, Z.testbit_ones_nonneg by lia.
  change (0 + n)%nat with n. rewrite (proj2 (Z.leb_le _ _)) by lia.
  by rewrite andb_true_l, andb_comm.
Qed.

Lemma le_value_le_bytes_small n v :
  is_u (8 * Z.of_nat n) v → le_value (le_bytes n v) = v.
Proof. intros H. rewrite le_value_le_bytes. by apply Z.mod_small. Qed.

Lemma s_wrap_mod w z : 0 < w → is_s w z → s_wrap w (z mod 2 ^ w) = z.
Proof.
  intros Hw Hz. unfold s_wrap, is_s in *.
  assert (Hp : 2 ^ w = 2 * 2 ^ (w - 1)) by (rewrite <- Z.pow_succ_r by lia; f_equal; lia).
  assert (0 < 2 ^ (w - 1)) by (apply Z.pow_pos_nonneg; lia).
  rewrite Z.mod_mod by lia.
  destruct (Z.leb_spec 0 z).
  - rewrite Z.mod_small by lia. destruct (Z.ltb_spec z (2 ^ (w - 1))); lia.
  - replace (z mod 2 ^ w) with (z + 2 ^ w)
      by (rewrite <- (Z.mod_add z 1) by lia; rewrite Z.mod_small; lia).
    destruct (Z.ltb_spec (z + 2 ^ w) (2 ^ (w - 1))); lia.
Qed.

Lemma le_value_from_range bs : ∀ i0, Forall is_u8 bs →
  is_u (8 * Z.of_nat (i0 + length bs)) (le_value_from i0 bs).
Proof.
  induction bs as [|b bs IH]; intros i0 Hbs; cbn [le_value_from length].
  { split; [done|]. apply Z.pow_pos_nonneg; lia. }
  apply Forall_cons_iff in Hbs as [Hb Hbs]. specialize (IH (S i0) Hbs).
  unfold is_u in *. replace (i0 + S (length bs))%nat with (S i0 + length bs)%nat by lia.
  set (N := 8 * Z.of_nat (S i0 + length bs)) in *.
  assert (0 ≤ Z.shiftl b (8 * Z.of_nat i0)) by (apply Z.shiftl_nonneg; lia).
  split; [apply Z.lor_nonneg; lia|].
  assert (Hs : Z.shiftl b (8 * Z.of_nat i0) < 2 ^ N).
  { rewrite Z.shiftl_mul_pow2 by lia.
    apply Z.lt_le_trans with (2 ^ 8 * 2 ^ (8 * Z.of_nat i0)).
    - apply Z.mul_lt_mono_pos_r; [apply Z.pow_pos_nonneg|]; lia.
    - rewrite <- Z.pow_add_r by lia. apply Z.pow_le_mono_r; lia. }
  destruct (Z.eq_dec (Z.lor (Z.shiftl b (8 * Z.of_nat i0)) (le_value_from (S i0) bs)) 0)
    as [->|Hn]; [apply Z.pow_pos_nonneg; lia|].
  apply Z.log2_lt_pow2; [|rewrite Z.log2_lor by lia; apply Z.max_lub_lt].
  - assert (0 ≤ Z.lor (Z.shiftl b (8 * Z.of_nat i0)) (le_value_from (S i0) bs))
      by (apply Z.lor_nonneg; lia). lia.
  - destruct (Z.eq_dec (Z.shiftl b (8 * Z.of_nat i0)) 0) as [->|]; [cbn; lia|].
    apply Z.log2_lt_pow2; lia.
  - destruct (Z.eq_dec (le_value_from (S i0) bs) 0) as [->|]; [cbn; lia|].
    apply Z.log2_lt_pow2; lia.
Qed.

Lemma le_value_range bs : Forall is_u8 bs → is_u (8 * Z.of_nat (length bs)) (le_value bs).
Proof. apply (le_value_from_range bs 0). Qed.

(** ** Strings *)

Lemma string_of_bytes_of_string s : string_of_bytes (bytes_of_string s) = s.
Proof.
  unfold string_of_bytes, bytes_of_string. rewrite <- list_fmap_compose.
  rewrite (list_fmap_ext _ id).
  - rewrite list_fmap_id. apply String.string_of_list_ascii_of_string.
  - intros i c _. cbn. rewrite N2Z.id. apply Ascii.ascii_N_embedding.
Qed.

Lemma bytes_of_string_range s : Forall is_u8 (bytes_of_string s).
Proof.
  apply Forall_fmap, Forall_forall; intros c _. cbn. unfold is_u.
  pose proof (Ascii.N_ascii_bounded c). lia.
Qed.

Lemma length_bytes_of_string s : length (bytes_of_string s) = String.length s.
Proof.
  unfold bytes_of_string. rewrite length_fmap.
  induction s; cbn; [done|by f_equal].
Qed.
#[export] Hint Resolve bytes_of_string_range : nobug.

(** ** Buffers *)

Section buffers.
Context {A : Type}.
Implicit Types buf bs : list A.

Lemma length_splice off bs buf :
    (off + length bs ≤ length buf)%nat → length (splice off bs buf) = length buf.
Proof. intros. unfold splice. rewrite !length_app, length_take, length_drop. lia. Qed.

Lemma length_slice off len buf :
    (off + len ≤ length buf)%nat → length (slice off len buf) = len.
Proof. intros. unfold slice. rewrite length_take, length_drop. lia. Qed.

Lemma lookup_slice off len buf i :
    slice off len buf !! i = if decide (i < len)%nat then buf !! (off + i)%nat else None.
Proof.
    unfold slice. case_decide.
    - by rewrite lookup_take_lt, lookup_drop by lia.
    - by rewrite lookup_take_ge by lia.
Qed.

Lemma lookup_splice off bs buf i :
    (off + length bs ≤ length buf)%nat →
    splice off bs buf !! i =
      if decide (off ≤ i < off + length bs)%nat then bs !! (i - off)%nat else buf !! i.
Proof.
    intros Hle. unfold splice. case_decide as Hi.
    - rewrite lookup_app_r by (rewrite length_take; lia).
      rewrite length_take, Nat.min_l by lia. by rewrite lookup_app_l by lia.
    - destruct (decide (i < off)%nat).
      + rewrite lookup_app_l by (rewrite length_take; lia).
        by rewrite lookup_take_lt by lia.
      + rewrite lookup_app_r by (rewrite length_take; lia).
        rewrite length_take, Nat.min_l by lia.
        rewrite lookup_app_r by lia. rewrite lookup_drop. f_equal; lia.
Qed.

(** What was copied is read back. *)
Lemma slice_splice_same off bs buf :
    (off + length bs ≤ length buf)%nat →
    slice off (length bs) (splice off bs buf) = bs.
Proof.
    intros. apply list_eq; intros i. rewrite lookup_slice, lookup_splice by done.
    case_decide; [|symmetry; apply lookup_ge_None; lia].
    rewrite decide_True by lia. f_equal; lia.
Qed.

(** A read that does not meet the copied range is unchanged. *)
Lemma slice_splice_other off bs buf off' len' :
    (off + length bs ≤ length buf)%nat →
    (off' + len' ≤ off ∨ off + length bs ≤ off')%nat →
    slice off' len' (splice off bs buf) = slice off' len' buf.
Proof.
    intros. apply list_eq; intros i. rewrite !lookup_slice, lookup_splice by done.
    repeat case_decide; try done; lia.
Qed.

Lemma Forall_splice (P : A → Prop) off bs buf :
    Forall P bs → Forall P buf → Forall P (splice off bs buf).
Proof.
    intros. unfold splice. rewrite !Forall_app.
    eauto using Forall_take, Forall_drop.
Qed.

Lemma Forall_slice (P : A → Prop) off len buf :
    Forall P buf → Forall P (slice off len buf).
Proof. intros. unfold slice. eauto using Forall_take, Forall_drop. Qed.

Lemma take_app_exact (l1 l2 : list A) : take (length l1) (l1 ++ l2) = l1.
Proof. apply take_app_length. Qed.
Lemma drop_app_exact (l1 l2 : list A) : drop (length l1) (l1 ++ l2) = l2.
Proof. apply drop_app_length. Qed.
End buffers.
#[export] Hint Resolve Forall_splice Forall_slice : nobug.

Lemma filter_ext_Forall {A} (P Q : A → Prop) `{!∀ x, Decision (P x)} `{!∀ x, Decision (Q x)} l :
  Forall (λ x, P x ↔ Q x) l → filter P l = filter Q l.
Proof.
  induction 1 as [|x l Hx _ IH]; [done|]. rewrite !filter_cons, IH.
  destruct (decide (P x)), (decide (Q x)); naive_solver.
Qed.

Lemma filter_none {A} (P : A → Prop) `{!∀ x, Decision (P x)} (l : list A) :
  (∀ x, x ∈ l → ¬ P x) → filter P l = [].
Proof.
  induction l as [|x l IH]; intros Hl; [done|]. rewrite filter_cons, decide_False by (apply Hl; set_solver).
  apply IH. intros y Hy. apply Hl. set_solver.
Qed.

Lemma filter_all {A} (P : A → Prop) `{∀ x, Decision (P x)} (l : list A) :
  (∀ x, x ∈ l → P x) → filter P l = l.
Proof.
  induction l as [|x l IH]; intros Hl; [done|].
  rewrite filter_cons_True by (apply Hl; left). f_equal. apply IH. intros. apply Hl. by right.
Qed.

(** A loop that keeps some results. *)
Lemma foldl_omap {A B} (f : A → option B) l : ∀ acc,
  foldl (λ acc x, match f x with Some y => acc ++ [y] | None => acc end) acc l = acc ++ omap f l.
Proof.
  induction l as [|x l IH]; intros acc; cbn [foldl omap list_omap]; [by rewrite app_nil_r|].
  rewrite IH. destruct (f x); [by rewrite <- app_assoc|done].
Qed.

Lemma foldl_filter {A} (g : A → bool) l : ∀ acc,
  foldl (λ acc x, if g x then acc ++ [x] else acc) acc l = acc ++ filter (λ x, g x = true) l.
Proof.
  induction l as [|x l IH]; intros acc; cbn [foldl]; [by rewrite app_nil_r|]. rewrite IH. destruct (g x) eqn:Eg.
  - rewrite filter_cons_True by done. by rewrite <- app_assoc.
  - by rewrite filter_cons_False by congruence.
Qed.
