(* ===== verification/CppNum.v ===== *)
(** * Numbers and text of the C++ standard library

    What the engine uses of [double], [std::to_string], [std::stoll],
    [std::stod], [operator<<] on a [double], [std::toupper], [std::tolower]
    and [std::isspace].  A [double] is a [spec_float] at binary64 precision:
    the IEEE operations are those of the standard library's executable
    specification.  Signs and payloads of NaN are not distinguished. *)

From Stdlib Require Import ZArith Lia Ascii SpecFloat.
From S2P Require Import Prelude.

(** ** Doubles *)

Abbreviation double := spec_float.
Definition prec : Z := 53.
Definition emax : Z := 1024.

Definition d_add : double → double → double := SFadd prec emax.
Definition d_sub : double → double → double := SFsub prec emax.
Definition d_mul : double → double → double := SFmul prec emax.
Definition d_div : double → double → double := SFdiv prec emax.
Definition d_abs : double → double := SFabs.
Definition d_lt : double → double → bool := SFltb.
Definition d_eq : double → double → bool := SFeqb.

(** [static_cast<double>(n)] of a 64-bit integer, rounded to nearest even. *)
Definition d_of_Z (n : Z) : double := binary_normalize prec emax n 0 false.

Definition d_zero : double := S754_zero false.
(** The literal [1e-9]: the double nearest to it. *)
Definition d_1e_9 : double := S754_finite false 4835703278458517 (-82).

(** [static_cast<int64_t>(d)]: truncation, undefined outside the range. *)
Definition d_to_int64 (d : double) : res Z :=
  match d with
  | S754_zero _ => Ok 0
  | S754_infinity _ | S754_nan => UB
  | S754_finite s m e =>
      let a := if 0 <=? e then Z.pos m * 2 ^ e else Z.pos m / 2 ^ (- e) in
      s_checked 64 (if s then - a else a)
  end.

(** The 64-bit image of a double and back. *)
Definition d_to_bits (d : double) : Z :=
  match d with
  | S754_zero s => if s then 2 ^ 63 else 0
  | S754_infinity s => (if s then 2 ^ 63 else 0) + 2047 * 2 ^ 52
  | S754_nan => 4095 * 2 ^ 51
  | S754_finite s m e =>
      (if s then 2 ^ 63 else 0) +
      (if Z.pos m <? 2 ^ 52 then Z.pos m else (e + 1075) * 2 ^ 52 + (Z.pos m - 2 ^ 52))
  end.

Definition d_of_bits (b : Z) : double :=
  let s := 2 ^ 63 <=? b in
  let r := if s then b - 2 ^ 63 else b in
  let ex := r / 2 ^ 52 in
  let fr := r mod 2 ^ 52 in
  if ex =? 2047 then (if fr =? 0 then S754_infinity s else S754_nan)
  else match (if ex =? 0 then fr else fr + 2 ^ 52) with
       | Z.pos m => S754_finite s m (if ex =? 0 then -1074 else ex - 1075)
       | _ => S754_zero s
       end.

Definition valid_double (d : double) : Prop := valid_binary prec emax d = true.

(** ** Characters *)

Definition char_code (c : Ascii.ascii) : Z := Z.of_N (Ascii.N_of_ascii c).
Definition char_of (z : Z) : Ascii.ascii := Ascii.ascii_of_N (Z.to_N z).
Definition in_range (c : Ascii.ascii) (lo hi : Z) : bool :=
  (lo <=? char_code c) && (char_code c <=? hi).

Definition is_digit (c : Ascii.ascii) : bool := in_range c 48 57.
Definition is_upper (c : Ascii.ascii) : bool := in_range c 65 90.
Definition is_lower (c : Ascii.ascii) : bool := in_range c 97 122.
(** [std::isspace] in the "C" locale. *)
Definition is_space (c : Ascii.ascii) : bool := (char_code c =? 32) || in_range c 9 13.

Definition toupper (c : Ascii.ascii) : Ascii.ascii :=
  if is_lower c then char_of (char_code c - 32) else c.
Definition tolower (c : Ascii.ascii) : Ascii.ascii :=
  if is_upper c then char_of (char_code c + 32) else c.

Fixpoint string_map (f : Ascii.ascii → Ascii.ascii) (s : string) : string :=
  match s with
  | EmptyString => EmptyString
  | String c s => String (f c) (string_map f s)
  end.
Definition str_upper : string → string := string_map toupper.
Definition str_lower : string → string := string_map tolower.

(** [operator<] of [std::string]: lexicographic on unsigned characters. *)
Fixpoint str_lt (a b : string) : bool :=
  match a, b with
  | _, EmptyString => false
  | EmptyString, String _ _ => true
  | String x a, String y b =>
      if char_code x <? char_code y then true
      else if char_code y <? char_code x then false
      else str_lt a b
  end.

(** ** Integers and text *)

Definition std_to_string (n : Z) : string := pretty n.

Definition skip_space (s : list Ascii.ascii) : list Ascii.ascii :=
  (fix go l := match l with
               | c :: l' => if is_space c then go l' else l
               | [] => []
               end) s.

(** An optional sign. *)
Definition split_sign (s : list Ascii.ascii) : bool * list Ascii.ascii :=
  match s with
  | c :: s' => if Ascii.eqb c "-"%char then (true, s')
               else if Ascii.eqb c "+"%char then (false, s') else (false, s)
  | [] => (false, [])
  end.

(** Value of a digit in bases up to 16. *)
Definition digit_value (c : Ascii.ascii) : option Z :=
  if is_digit c then Some (char_code c - 48)
  else if in_range c 97 102 then Some (char_code c - 87)
  else if in_range c 65 70 then Some (char_code c - 55)
  else None.

(** The longest run of base-[b] digits: value, number of digits, rest. *)
Fixpoint digits (b : Z) (acc : Z) (n : nat) (s : list Ascii.ascii)
    : Z * nat * list Ascii.ascii :=
  match s with
  | c :: s' =>
      match digit_value c with
      | Some d => if d <? b then digits b (acc * b + d) (S n) s' else (acc, n, s)
      | None => (acc, n, s)
      end
  | [] => (acc, n, [])
  end.

(** [std::stoll]: leading white space and sign, then digits; what follows the
    digits is ignored. *)
Definition std_stoll (s : string) : res Z :=
  let '(neg, r) := split_sign (skip_space (String.list_ascii_of_string s)) in
  let '(v, n, _) := digits 10 0 0 r in
  if (n =? 0)%nat then Throw (std_invalid_argument "stoll")
  else
    let z := if neg then - v else v in
    if (- 2 ^ 63 <=? z) && (z <? 2 ^ 63) then Ok z
    else Throw (std_out_of_range "stoll").

(** ** Doubles and text *)

(** The double nearest to [n / d]: the quotient is kept to more bits than the
    precision with a sticky bit below them, then rounded once. *)
Definition d_of_ratio (neg : bool) (n d : Z) : double * bool :=
  if n =? 0 then (S754_zero neg, true)
  else
    let s := Z.max 0 (60 + Z.log2 d - Z.log2 n) in
    let q := Z.shiftl n s / d in
    let r := Z.shiftl n s mod d in
    let q' := 2 * q + (if r =? 0 then 0 else 1) in
    let v := binary_normalize prec emax (if neg then - q' else q') (- s - 1) neg in
    (v, match v with
        | S754_finite _ m e =>
            if 0 <=? e then n =? Z.pos m * 2 ^ e * d
            else n * 2 ^ (- e) =? Z.pos m * d
        | _ => false
        end).

Definition starts_with_ci (p : string) (s : list Ascii.ascii) : bool :=
  bool_decide (take (String.length p) (tolower <$> s) = String.list_ascii_of_string p).

(** An optional exponent introduced by [mark]. *)
Definition split_exp (mark : Ascii.ascii) (s : list Ascii.ascii) : Z :=
  match s with
  | c :: s' =>
      if Ascii.eqb (tolower c) mark then
        let '(neg, r) := split_sign s' in
        let '(v, n, _) := digits 10 0 0 r in
        if (n =? 0)%nat then 0 else if neg then - v else v
      else 0
  | [] => 0
  end.

(** A mantissa with an optional point in base [b], and its exponent: the
    number of digits, the mantissa, the digits after the point and the
    exponent. *)
Definition scan_mantissa (b : Z) (mark : Ascii.ascii) (s : list Ascii.ascii)
    : nat * Z * nat * Z :=
  let '(v, n, r) := digits b 0 0 s in
  match r with
  | c :: r' =>
      if Ascii.eqb c "."%char then
        let '(v', n', r'') := digits b v 0 r' in
        ((n + n')%nat, v', n', split_exp mark r'')
      else (n, v, 0%nat, split_exp mark r)
  | [] => (n, v, 0%nat, 0)
  end.

Definition d_is_finite (d : double) : bool :=
  match d with S754_zero _ | S754_finite _ _ _ => true | _ => false end.
(** Below the least normal number. *)
Definition d_is_tiny (d : double) : bool :=
  match d with S754_zero _ => true | S754_finite _ m _ => Z.pos m <? 2 ^ 52 | _ => false end.

(** [ERANGE] of [strtod]: overflow, or an inexact result below the least
    normal number. *)
Definition stod_range (v : double * bool) : res double :=
  if d_is_finite (fst v) && negb (d_is_tiny (fst v) && negb (snd v)) then Ok (fst v)
  else Throw (std_out_of_range "stod").

Definition std_stod (s : string) : res double :=
  let '(neg, r) := split_sign (skip_space (String.list_ascii_of_string s)) in
  if starts_with_ci "inf" r then Ok (S754_infinity neg)
  else if starts_with_ci "nan" r then Ok S754_nan
  else
    let hex := if starts_with_ci "0x" r then scan_mantissa 16 "p"%char (drop 2 r) else (0%nat, 0, 0%nat, 0) in
    match hex with
    | (S _, v, k, e) =>
        let e' := e - 4 * Z.of_nat k in
        stod_range (if 0 <=? e' then d_of_ratio neg (v * 2 ^ e') 1
                    else d_of_ratio neg v (2 ^ (- e')))
    | _ =>
        match scan_mantissa 10 "e"%char r with
        | (0%nat, _, _, _) => Throw (std_invalid_argument "stod")
        | (_, v, k, e) =>
            let e' := e - Z.of_nat k in
            stod_range (if 0 <=? e' then d_of_ratio neg (v * 10 ^ e') 1
                        else d_of_ratio neg v (10 ^ (- e')))
        end
    end.

(** *** [operator<<] on a [double]: "%g" with six significant digits *)

Definition round_half_even (n d : Z) : Z :=
  let q := n / d in
  let r := n mod d in
  if 2 * r <? d then q else if d <? 2 * r then q + 1 else q + (q mod 2).

(** [n/d * 10^(-k)] as a fraction. *)
Definition scale10 (n d k : Z) : Z * Z :=
  if 0 <=? k then (n, d * 10 ^ k) else (n * 10 ^ (- k), d).

(** The decimal exponent of [n/d > 0]: the [x] with [10^x ≤ n/d < 10^(x+1)]. *)
Definition dec_exponent (n d : Z) : Z :=
  let x0 := (Z.log2 n - Z.log2 d - 1) * 30103 / 100000 in
  let ge k := let '(a, b) := scale10 n d k in b <=? a in
  if ge (x0 + 2) then x0 + 2 else if ge (x0 + 1) then x0 + 1
  else if ge x0 then x0 else x0 - 1.

Fixpoint strip_zeros (l : list Ascii.ascii) : list Ascii.ascii :=
  match l with
  | c :: l' => if Ascii.eqb c "0"%char then strip_zeros l' else l
  | [] => []
  end.

(** Integer part, and the fractional digits without trailing zeros. *)
Definition with_point (ip fp : list Ascii.ascii) : list Ascii.ascii :=
  let fp' := rev (strip_zeros (rev fp)) in
  match fp' with [] => ip | _ => ip ++ "."%char :: fp' end.

Definition pad2 (n : Z) : list Ascii.ascii :=
  (if n <? 10 then ["0"%char] else []) ++ String.list_ascii_of_string (pretty n).

Definition format_g (n d : Z) : list Ascii.ascii :=
  let x := dec_exponent n d in
  let '(a, b) := scale10 n d (x - 5) in
  let m := round_half_even a b in
  let '(m, x) := if m =? 10 ^ 6 then (10 ^ 5, x + 1) else (m, x) in
  let ds := String.list_ascii_of_string (pretty m) in
  if (-4 <=? x) && (x <? 6) then
    if 0 <=? x then with_point (take (Z.to_nat (x + 1)) ds) (drop (Z.to_nat (x + 1)) ds)
    else with_point ["0"%char] (replicate (Z.to_nat (- x - 1)) "0"%char ++ ds)
  else
    with_point (take 1 ds) (drop 1 ds) ++ "e"%char ::
    (if x <? 0 then "-"%char else "+"%char) :: pad2 (Z.abs x).

Definition d_to_string (d : double) : string :=
  let sign (s : bool) := if s then "-"%string else ""%string in
  match d with
  | S754_zero s => sign s +:+ "0"
  | S754_infinity s => sign s +:+ "inf"
  | S754_nan => "nan"
  | S754_finite s m e =>
      sign s +:+ String.string_of_list_ascii
        (if 0 <=? e then format_g (Z.pos m * 2 ^ e) 1 else format_g (Z.pos m) (2 ^ (- e)))
  end.

Example d_to_string_tenth :
  (d_to_string (d_of_bits 4591870180066957722), d_to_string (d_of_Z 1234567),
   d_to_string (d_div (d_of_Z 1) (d_of_Z 3)), d_to_string d_1e_9,
   d_to_string (d_div (d_of_Z (-5)) (d_of_Z 2)), d_to_string (d_of_Z 100000))
  = ("0.1", "1.23457e+06", "0.333333", "1e-09", "-2.5", "100000")%string.
Proof. vm_compute. reflexivity. Qed.

Example stod_tenth :
  (d_to_bits <$> std_stod "0.1", d_to_bits <$> std_stod " -2.5e3xyz",
   std_stod "1e-9", std_stod "abc", d_to_bits <$> std_stod "0x1.8p1", std_stod "1e999")
  = (Ok 4591870180066957722, Ok 13881088010067378176, Ok d_1e_9,
     Throw (std_invalid_argument "stod"), Ok 4613937818241073152,
     Throw (std_out_of_range "stod")).
Proof. vm_compute. reflexivity. Qed.
