(* ===== verification/Values.v ===== *)
(** * Values and their conversions

    [DataType] (include/types/data_type.h), [Value] (src/types/value.cc) and
    [TypeConverter] (src/types/type_converter.cc). *)

From Stdlib Require Import ZArith Lia Ascii SpecFloat.
From S2P Require Import Prelude CppNum.

(** ** Data types *)

Inductive DataType : Type := INT | FLOAT | STRING | BOOLEAN | DATE | UUID.
#[export] Instance DataType_eq_dec : EqDecision DataType.
Proof. solve_decision. Defined.

Definition data_type_to_string (t : DataType) : string :=
  match t with
  | INT => "INT" | FLOAT => "FLOAT" | STRING => "STRING"
  | BOOLEAN => "BOOLEAN" | DATE => "DATE" | UUID => "UUID"
  end.

Definition string_to_data_type (str : string) : res DataType :=
  let upper := str_upper str in
  if bool_decide (upper ∈ ["INT"; "INTEGER"]%string) then Ok INT
  else if bool_decide (upper ∈ ["FLOAT"; "REAL"; "DOUBLE"]%string) then Ok FLOAT
  else if bool_decide (upper ∈ ["STRING"; "TEXT"; "VARCHAR"]%string) then Ok STRING
  else if bool_decide (upper ∈ ["BOOLEAN"; "BOOL"]%string) then Ok BOOLEAN
  else if bool_decide (upper = "DATE"%string) then Ok DATE
  else if bool_decide (upper = "UUID"%string) then Ok UUID
  else Throw (std_invalid_argument ("Unknown data type: " +:+ str)).

Definition get_type_size (t : DataType) : Z :=
  match t with
  | INT => 8 | FLOAT => 8 | STRING => 0 | BOOLEAN => 1 | DATE => 10 | UUID => 36
  end.

(** The number the compiler gives the enumerator. *)
Definition data_type_tag (t : DataType) : Z :=
  match t with INT => 0 | FLOAT => 1 | STRING => 2 | BOOLEAN => 3 | DATE => 4 | UUID => 5 end.

(** ** Values: [std::variant<monostate, int64_t, double, string, bool>] *)

Inductive value : Type :=
  | VNull
  | VInt (z : Z)
  | VFloat (d : double)
  | VString (s : string)
  | VBool (b : bool).

#[export] Instance spec_float_eq_dec : EqDecision spec_float.
Proof. solve_decision. Defined.
#[export] Instance value_eq_dec : EqDecision value.
Proof. solve_decision. Defined.
#[export] Instance value_inhabited : Inhabited value := populate VNull.

(** The C++ representation invariant: 64-bit integers, canonical doubles. *)
Definition valid_value (v : value) : Prop :=
  match v with
  | VInt z => is_i64 z
  | VFloat d => valid_double d
  | _ => True
  end.

Definition is_null (v : value) : bool := match v with VNull => true | _ => false end.
Definition is_int (v : value) : bool := match v with VInt _ => true | _ => false end.
Definition is_float (v : value) : bool := match v with VFloat _ => true | _ => false end.
Definition is_string (v : value) : bool := match v with VString _ => true | _ => false end.
Definition is_bool (v : value) : bool := match v with VBool _ => true | _ => false end.

Definition to_string (v : value) : string :=
  match v with
  | VNull => "NULL"
  | VInt z => std_to_string z
  | VFloat d => d_to_string d
  | VString s => s
  | VBool b => if b then "true" else "false"
  end.

Definition as_int (v : value) : res Z :=
  match v with
  | VInt z => Ok z
  | VFloat d => d_to_int64 d
  | VString s =>
      try_catch (std_stoll s)
        (λ _, Throw (TypeException ("Cannot convert string to int: " +:+ s)))
  | VBool b => Ok (if b then 1 else 0)
  | VNull => Throw (TypeException "Cannot convert NULL to int")
  end.

Definition as_float (v : value) : res double :=
  match v with
  | VFloat d => Ok d
  | VInt z => Ok (d_of_Z z)
  | VString s =>
      try_catch (std_stod s)
        (λ _, Throw (TypeException ("Cannot convert string to float: " +:+ s)))
  | VBool b => Ok (d_of_Z (if b then 1 else 0))
  | VNull => Throw (TypeException "Cannot convert NULL to float")
  end.

Definition as_string (v : value) : string :=
  match v with VString s => s | _ => to_string v end.

Definition as_bool (v : value) : res bool :=
  match v with
  | VBool b => Ok b
  | VInt z => Ok (negb (z =? 0))
  | VFloat d => Ok (negb (d_eq d d_zero))
  | VString s => Ok (bool_decide (s ≠ "") && bool_decide (s ≠ "0") && bool_decide (s ≠ "false"))
  | VNull => Throw (TypeException "Cannot convert NULL to bool")
  end.

Definition get_type (v : value) : DataType :=
  match v with
  | VInt _ => INT | VFloat _ => FLOAT | VString _ => STRING | VBool _ => BOOLEAN
  | VNull => STRING
  end.

Definition get_type_string (v : value) : string := data_type_to_string (get_type v).

(** [as_float()] of a value that holds an int or a float. *)
Definition num (v : value) : double :=
  match v with VInt z => d_of_Z z | VFloat d => d | _ => d_zero end.

(** [std::abs(a - b) < 1e-9]. *)
Definition d_close (a b : double) : bool := d_lt (d_abs (d_sub a b)) d_1e_9.

(** *** Comparison operators *)

Definition value_eq (a b : value) : bool :=
  match a, b with
  | VNull, VNull => true
  | VNull, _ | _, VNull => false
  | VInt x, VInt y => x =? y
  | VFloat x, VFloat y => d_close x y
  | VString x, VString y => bool_decide (x = y)
  | VBool x, VBool y => Bool.eqb x y
  | VInt _, VFloat _ | VFloat _, VInt _ => d_close (num a) (num b)
  | _, _ => false
  end.

Definition value_ne (a b : value) : bool := negb (value_eq a b).

Definition value_lt (a b : value) : bool :=
  match a, b with
  | VNull, VNull => false
  | VNull, _ => true
  | _, VNull => false
  | VInt x, VInt y => x <? y
  | VFloat x, VFloat y => d_lt x y
  | VString x, VString y => str_lt x y
  | VInt _, VFloat _ | VFloat _, VInt _ => d_lt (num a) (num b)
  | _, _ => str_lt (to_string a) (to_string b)
  end.

Definition value_le (a b : value) : bool := value_lt a b || value_eq a b.
Definition value_gt (a b : value) : bool := negb (value_le a b).
Definition value_ge (a b : value) : bool := negb (value_lt a b).

(** *** Arithmetic *)

Definition is_numeric (v : value) : bool := is_int v || is_float v.

Definition value_add (a b : value) : res value :=
  match a, b with
  | VInt x, VInt y => VInt <$> s_checked 64 (x + y)
  | _, _ =>
      if is_numeric a && is_numeric b then Ok (VFloat (d_add (num a) (num b)))
      else if is_string a || is_string b then Ok (VString (as_string a +:+ as_string b))
      else Throw (TypeException "Cannot add these types")
  end.

Definition value_sub (a b : value) : res value :=
  match a, b with
  | VInt x, VInt y => VInt <$> s_checked 64 (x - y)
  | _, _ =>
      if is_numeric a && is_numeric b then Ok (VFloat (d_sub (num a) (num b)))
      else Throw (TypeException "Cannot subtract these types")
  end.

Definition value_mul (a b : value) : res value :=
  match a, b with
  | VInt x, VInt y => VInt <$> s_checked 64 (x * y)
  | _, _ =>
      if is_numeric a && is_numeric b then Ok (VFloat (d_mul (num a) (num b)))
      else Throw (TypeException "Cannot multiply these types")
  end.

Definition value_div (a b : value) : res value :=
  if is_numeric a && is_numeric b then
    if d_lt (d_abs (num b)) d_1e_9 then Throw (TypeException "Division by zero")
    else Ok (VFloat (d_div (num a) (num b)))
  else Throw (TypeException "Cannot divide these types").

(** ** TypeConverter *)

Definition is_trim_char (c : Ascii.ascii) : bool :=
  bool_decide (c ∈ [" "; "009"; "010"; "013"]%char).

Fixpoint drop_trim (l : list Ascii.ascii) : list Ascii.ascii :=
  match l with
  | c :: l' => if is_trim_char c then drop_trim l' else l
  | [] => []
  end.

Definition trim_whitespace (str : string) : string :=
  String.string_of_list_ascii
    (rev (drop_trim (rev (drop_trim (String.list_ascii_of_string str))))).

Definition is_hex (c : Ascii.ascii) : bool :=
  is_digit c || in_range c 97 102 || in_range c 65 70.

(** The regular expressions of the dates and the UUIDs, one class of
    characters per position. *)
Definition date_shape : list (Ascii.ascii → bool) :=
  let d := is_digit in let m := Ascii.eqb "-" in
  [d; d; d; d; m; d; d; m; d; d].
Definition uuid_shape : list (Ascii.ascii → bool) :=
  let m := Ascii.eqb "-" in
  replicate 8 is_hex ++ [m] ++ replicate 4 is_hex ++ [m] ++ replicate 4 is_hex ++
  [m] ++ replicate 4 is_hex ++ [m] ++ replicate 12 is_hex.

Fixpoint matches_shape (shape : list (Ascii.ascii → bool)) (l : list Ascii.ascii) : bool :=
  match shape, l with
  | [], [] => true
  | p :: shape, c :: l => p c && matches_shape shape l
  | _, _ => false
  end.

Definition decimal (l : list Ascii.ascii) : Z := fst (fst (digits 10 0 0 l)).

Definition is_valid_date_format (str : string) : bool :=
  let l := String.list_ascii_of_string str in
  if negb (matches_shape date_shape l) then false
  else
    let year := decimal (take 4 l) in
    let month := decimal (take 2 (drop 5 l)) in
    let day := decimal (take 2 (drop 8 l)) in
    if year <? 1 then false
    else if (month <? 1) || (12 <? month) then false
    else if (day <? 1) || (31 <? day) then false
    else true.

Definition is_valid_uuid_format (str : string) : bool :=
  matches_shape uuid_shape (String.list_ascii_of_string str).

Definition string_to_int (str : string) : res Z :=
  try_catch (std_stoll str) (λ _, Throw (TypeException ("Cannot convert to integer: " +:+ str))).

Definition string_to_float (str : string) : res double :=
  try_catch (std_stod str) (λ _, Throw (TypeException ("Cannot convert to float: " +:+ str))).

Definition string_to_bool (str : string) : res bool :=
  let lower := str_lower str in
  if bool_decide (lower ∈ ["true"; "1"; "yes"]%string) then Ok true
  else if bool_decide (lower ∈ ["false"; "0"; "no"]%string) then Ok false
  else Throw (TypeException ("Cannot convert to boolean: " +:+ str)).

Definition string_to_value (str : string) (type : DataType) : res value :=
  if bool_decide (str = "NULL"%string) || bool_decide (str = ""%string) then Ok VNull
  else
    let trimmed := trim_whitespace str in
    match type with
    | INT => VInt <$> string_to_int trimmed
    | FLOAT => VFloat <$> string_to_float trimmed
    | STRING => Ok (VString trimmed)
    | BOOLEAN => VBool <$> string_to_bool trimmed
    | DATE =>
        if is_valid_date_format trimmed then Ok (VString trimmed)
        else Throw (TypeException ("Invalid date format: " +:+ trimmed +:+ ". Expected YYYY-MM-DD"))
    | UUID =>
        if is_valid_uuid_format trimmed then Ok (VString trimmed)
        else Throw (TypeException ("Invalid UUID format: " +:+ trimmed))
    end.

Definition is_ok {A} (r : res A) : bool := match r with Ok _ => true | _ => false end.

Definition is_valid_value (str : string) (type : DataType) : bool :=
  if bool_decide (str = "NULL"%string) then true
  else
    let trimmed := trim_whitespace str in
    if bool_decide (trimmed = ""%string) then false
    else match type with
    | INT => is_ok (string_to_int trimmed)
    | FLOAT => is_ok (string_to_float trimmed)
    | STRING => true
    | BOOLEAN =>
        bool_decide (trimmed ∈ ["true"; "false"; "TRUE"; "FALSE"; "1"; "0"]%string)
    | DATE => is_valid_date_format trimmed
    | UUID => is_valid_uuid_format trimmed
    end.

Definition int_to_string (v : Z) : string := std_to_string v.
Definition float_to_string (v : double) : string := d_to_string v.
Definition bool_to_string (v : bool) : string := if v then "true" else "false".

(** *** Binary images *)

Definition serialize_value (v : value) : list Z :=
  match v with
  | VNull => [255]
  | VInt z => 0 :: le_bytes 8 z
  | VFloat d => 1 :: le_bytes 8 (d_to_bits d)
  | VString s =>
      let len := u_wrap 32 (Z.of_nat (String.length s)) in
      2 :: le_bytes 4 len ++ bytes_of_string s
  | VBool b => [3; if b then 1 else 0]
  end.

(** The string case compares against [5 + len] computed in [uint32_t]; the
    range it then copies is undefined when it leaves the vector. *)
Definition deserialize_string (bytes : list Z) : option (res value) :=
  let len := le_value (slice 1 4 bytes) in
  if u_wrap 32 (5 + len) <=? Z.of_nat (length bytes) then
    Some (if 5 + len <=? Z.of_nat (length bytes)
          then Ok (VString (string_of_bytes (slice 5 (Z.to_nat len) bytes)))
          else UB)
  else None.

Definition deserialize_value (bytes : list Z) (type : DataType) : res value :=
  let size := Z.of_nat (length bytes) in
  match bytes with
  | [] => Ok VNull
  | marker :: _ =>
      if marker =? 255 then Ok VNull
      else if (marker =? 0) && (9 <=? size) then
        Ok (VInt (s_wrap 64 (le_value (slice 1 8 bytes))))
      else if (marker =? 1) && (9 <=? size) then
        Ok (VFloat (d_of_bits (le_value (slice 1 8 bytes))))
      else match (if (marker =? 2) && (5 <=? size) then deserialize_string bytes else None) with
      | Some r => r
      | None =>
          if (marker =? 3) && (2 <=? size) then
            match bytes !! 1%nat with
            | Some b => Ok (VBool (negb (b =? 0)))
            | None => UB
            end
          else Throw (TypeException "Invalid serialized value")
      end
  end.

(** ** Doubles survive their 64-bit image *)

Lemma digits2_pos_log2 m : Z.pos (digits2_pos m) = Z.log2 (Z.pos m) + 1.
Proof.
  induction m as [m IH|m IH|]; cbn [digits2_pos]; [| |reflexivity].
  - rewrite Pos2Z.inj_succ, IH, (Pos2Z.inj_xI m), Z.log2_succ_double by lia. lia.
  - rewrite Pos2Z.inj_succ, IH, (Pos2Z.inj_xO m), Z.log2_double by lia. lia.
Qed.

(** A canonical finite double: normal, or subnormal with the least exponent. *)
Lemma valid_finite_cases s m e :
  valid_double (S754_finite s m e) →
  (2 ^ 52 ≤ Z.pos m < 2 ^ 53 ∧ -1074 ≤ e ≤ 971) ∨ (Z.pos m < 2 ^ 52 ∧ e = -1074).
Proof.
  unfold valid_double, valid_binary, bounded, canonical_mantissa. intros H.
  apply andb_true_iff in H as [H1 H2]. apply Z.leb_le in H2.
  apply Z.eqb_eq in H1. unfold fexp, emin, prec, emax in *.
  rewrite digits2_pos_log2 in H1.
  destruct (Z.max_spec (Z.log2 (Z.pos m) + 1 + e - 53) (3 - 1024 - 53)) as [[Hm HM]|[Hm HM]];
    rewrite HM in H1.
  - assert (e = -1074) as -> by lia.
    destruct (Z.ltb_spec (Z.pos m) (2 ^ 52)); [right; done|].
    left. split; [|lia]. split; [done|].
    apply Z.log2_lt_cancel. rewrite Z.log2_pow2 by lia. lia.
  - assert (Z.log2 (Z.pos m) = 52) as Hl by lia.
    pose proof (Z.log2_spec (Z.pos m) ltac:(lia)) as Hs. rewrite Hl in Hs.
    left. change (Z.succ 52) with 53 in Hs. lia.
Qed.

Lemma div_mod_offset a b c : 0 ≤ b < c → (a * c + b) / c = a ∧ (a * c + b) mod c = b.
Proof.
  intros H. split.
  - rewrite Z.add_comm, Z.div_add by lia. rewrite Z.div_small; lia.
  - rewrite Z.add_comm, Z.mod_add by lia. by apply Z.mod_small.
Qed.

Lemma d_of_bits_shape (s : bool) ex fr :
  0 ≤ ex < 2047 → 0 ≤ fr < 2 ^ 52 →
  d_of_bits ((if s then 2 ^ 63 else 0) + (ex * 2 ^ 52 + fr)) =
  match (if ex =? 0 then fr else fr + 2 ^ 52) with
  | Z.pos m => S754_finite s m (if ex =? 0 then -1074 else ex - 1075)
  | _ => S754_zero s
  end.
Proof.
  intros Hex Hfr. unfold d_of_bits.
  assert (Hs : (2 ^ 63 <=? (if s then 2 ^ 63 else 0) + (ex * 2 ^ 52 + fr)) = s).
  { destruct s; [apply Z.leb_le|apply Z.leb_gt]; lia. }
  rewrite Hs.
  replace (if s then (if s then 2 ^ 63 else 0) + (ex * 2 ^ 52 + fr) - 2 ^ 63
           else (if s then 2 ^ 63 else 0) + (ex * 2 ^ 52 + fr))
    with (ex * 2 ^ 52 + fr) by (destruct s; lia).
  destruct (div_mod_offset ex fr (2 ^ 52) Hfr) as [-> ->].
  by rewrite (proj2 (Z.eqb_neq ex 2047)) by lia.
Qed.

Lemma d_of_bits_to_bits d : valid_double d → d_of_bits (d_to_bits d) = d.
Proof.
  destruct d as [s|s| |s m e]; intros Hv; [by destruct s|by destruct s|done|].
  unfold d_to_bits.
  destruct (valid_finite_cases s m e Hv) as [[Hm He]|[Hm ->]].
  - rewrite (proj2 (Z.ltb_ge _ _)) by lia.
    rewrite d_of_bits_shape by lia.
    rewrite (proj2 (Z.eqb_neq _ _)) by lia.
    replace (Z.pos m - 2 ^ 52 + 2 ^ 52) with (Z.pos m) by lia. cbn beta iota. f_equal; lia.
  - rewrite (proj2 (Z.ltb_lt _ _)) by lia.
    change (Z.pos m) with (0 * 2 ^ 52 + Z.pos m) at 1.
    rewrite d_of_bits_shape by lia. done.
Qed.

Lemma d_to_bits_range d : valid_double d → is_u64 (d_to_bits d).
Proof.
  unfold is_u. destruct d as [s|s| |s m e]; intros Hv;
    [destruct s; cbn; lia|destruct s; cbn; lia|cbn; lia|].
  unfold d_to_bits.
  destruct (valid_finite_cases s m e Hv) as [[Hm He]|[Hm ->]].
  - rewrite (proj2 (Z.ltb_ge _ _)) by lia. destruct s; lia.
  - rewrite (proj2 (Z.ltb_lt _ _)) by lia. destruct s; lia.
Qed.

(** ** The binary image of a value *)

(** What [serialize_value] can represent: a string's length must leave room
    for the [5 + len] the reader computes in 32 bits. *)
Definition storable (v : value) : Prop :=
  valid_value v ∧
  match v with VString s => Z.of_nat (String.length s) + 5 < 2 ^ 32 | _ => True end.

Lemma deserialize_string_ok s rest :
  Z.of_nat (String.length s) + 5 < 2 ^ 32 →
  deserialize_string
    (2 :: le_bytes 4 (u_wrap 32 (Z.of_nat (String.length s))) ++ bytes_of_string s ++ rest)
  = Some (Ok (VString s)).
Proof.
  intros Hs. unfold deserialize_string.
  set (n := Z.of_nat (String.length s)) in *.
  set (hd := le_bytes 4 (u_wrap 32 n)).
  assert (Hhd : length hd = 4%nat) by apply length_le_bytes.
  change (slice 1 4 (2 :: ?l)) with (take 4 l).
  change (slice 5 ?k (2 :: ?l)) with (take k (drop 4 l)).
  rewrite (take_app_length' hd), (drop_app_length' hd) by done.
  assert (Hn : le_value hd = n).
  { unfold hd, u_wrap. rewrite Z.mod_small by lia. apply le_value_le_bytes_small. red; lia. }
  assert (Hlen : Z.of_nat (length (2 :: hd ++ bytes_of_string s ++ rest)) =
                 5 + n + Z.of_nat (length rest)).
  { cbn [length]. rewrite !length_app, Hhd, length_bytes_of_string. lia. }
  rewrite Hn, Hlen. unfold u_wrap. rewrite Z.mod_small by lia.
  rewrite (proj2 (Z.leb_le _ _)) by lia. do 3 f_equal.
  rewrite take_app_length' by (rewrite length_bytes_of_string; lia).
  apply string_of_bytes_of_string.
Qed.

Lemma slice_1_8 n v rest : slice 1 8 (n :: le_bytes 8 v ++ rest) = le_bytes 8 v.
Proof. reflexivity. Qed.

Lemma deserialize_serialize_value v t :
  storable v → deserialize_value (serialize_value v) t = Ok v.
Proof.
  intros [Hv Hs]. destruct v as [|z|d|s|b]; cbn [serialize_value] in *.
  - done.
  - rewrite <- (app_nil_r (le_bytes 8 z)). unfold deserialize_value.
    rewrite slice_1_8. cbn -[le_value le_bytes s_wrap].
    rewrite le_value_le_bytes. do 2 f_equal. by apply s_wrap_mod.
  - rewrite <- (app_nil_r (le_bytes 8 _)). unfold deserialize_value.
    rewrite slice_1_8. cbn -[le_value le_bytes d_of_bits d_to_bits].
    rewrite le_value_le_bytes_small by (by apply d_to_bits_range).
    by rewrite d_of_bits_to_bits.
  - unfold deserialize_value.
    rewrite <- (app_nil_r (bytes_of_string s)).
    rewrite deserialize_string_ok by done.
    set (l := le_bytes 4 _ ++ _).
    assert (Hl : (4 ≤ length l)%nat) by (unfold l; rewrite length_app, length_le_bytes; lia).
    assert (H5 : (5 <=? Z.of_nat (length (2 :: l))) = true)
      by (apply Z.leb_le; cbn [length]; lia).
    rewrite H5. reflexivity.
  - by destruct b.
Qed.

(** ** Ordering

    Values of one kind: the domains on which [operator<] and [operator==] together form a
    total order.  [operator==] takes doubles for equal that are less than 1e-9 apart, which
    is not transitive, so that a kind of doubles is a list of doubles none of which
    [operator==] confuses with another ([spread]: finite, one zero, at least 1e-9 apart). *)

Definition spread (fs : list double) : bool :=
  forallb (λ a, forallb (λ b,
    if bool_decide (a = b) then d_close a b else negb (d_close a b) && (d_lt a b || d_lt b a)) fs) fs.

Inductive kind : Type := KInt | KString | KBool | KFloat (fs : list double).

Definition has_kind (k : kind) (v : value) : Prop :=
  match k, v with
  | KInt, VInt _ | KString, VString _ | KBool, VBool _ => True
  | KFloat fs, VFloat d => d ∈ fs ∧ spread fs = true
  | _, _ => False
  end.

Lemma spread_elem fs a b : a ∈ fs → b ∈ fs → spread fs = true →
  (if bool_decide (a = b) then d_close a b else negb (d_close a b) && (d_lt a b || d_lt b a)) = true.
Proof.
  unfold spread. rewrite forallb_forall. intros Ha Hb Hs. specialize (Hs a (proj1 (list_elem_of_In _ _) Ha)).
  rewrite forallb_forall in Hs. by apply Hs, list_elem_of_In.
Qed.

Lemma d_lt_irrefl a : d_lt a a = false.
Proof.
  unfold d_lt, SFltb. destruct a as [[]|[]| |[] m e]; cbn; try done; rewrite Z.compare_refl.
  all: change (Pos.compare_cont Eq m m) with (Pos.compare m m); by rewrite Pos.compare_refl.
Qed.

(** Of two doubles of one sign the smaller has the smaller exponent, then the smaller
    mantissa. *)
Definition magnitude_lt (m : positive) (e : Z) (m' : positive) (e' : Z) : Prop :=
  e < e' ∨ (e = e' ∧ (m < m')%positive).
Lemma d_lt_finite s m e s' m' e' :
  d_lt (S754_finite s m e) (S754_finite s' m' e') = true ↔
  match s, s' with
  | false, false => magnitude_lt m e m' e'
  | true, true => magnitude_lt m' e' m e
  | s, s' => s = true ∧ s' = false
  end.
Proof.
  unfold d_lt, SFltb, magnitude_lt. destruct s, s'; cbn; try naive_solver.
  all: change (Pos.compare_cont Eq m m') with (Pos.compare m m').
  all: destruct (Z.compare_spec e e'), (Pos.compare_spec m m'); cbn; split; try done; intros; lia.
Qed.

Lemma d_lt_trans a b c : d_lt a b = true → d_lt b c = true → d_lt a c = true.
Proof.
  destruct a as [[]|[]| |sa ma ea], b as [[]|[]| |sb mb eb], c as [[]|[]| |sc mc ec]; try done.
  all: rewrite ?d_lt_finite; try (destruct sa); try (destruct sb); try (destruct sc); try done.
  all: unfold magnitude_lt; try (intros; lia).
Qed.

Lemma str_lt_irrefl s : str_lt s s = false.
Proof. induction s as [|c s IH]; cbn; [done|]. by rewrite Z.ltb_irrefl. Qed.

Lemma char_code_inj c c' : char_code c = char_code c' → c = c'.
Proof.
  unfold char_code. intros H. apply N2Z.inj in H.
  rewrite <- (Ascii.ascii_N_embedding c), H. apply Ascii.ascii_N_embedding.
Qed.

Lemma str_lt_trans a : ∀ b c, str_lt a b = true → str_lt b c = true → str_lt a c = true.
Proof.
  induction a as [|x a IH]; intros [|y b] [|z c]; cbn; try done.
  destruct (Z.ltb_spec (char_code x) (char_code y)), (Z.ltb_spec (char_code y) (char_code x)),
    (Z.ltb_spec (char_code y) (char_code z)), (Z.ltb_spec (char_code z) (char_code y)),
    (Z.ltb_spec (char_code x) (char_code z)), (Z.ltb_spec (char_code z) (char_code x));
    try done; try lia; eauto.
Qed.

Lemma str_lt_total a : ∀ b, str_lt a b = false → str_lt b a = false → a = b.
Proof.
  induction a as [|x a IH]; intros [|y b]; cbn; try done.
  destruct (Z.ltb_spec (char_code x) (char_code y)), (Z.ltb_spec (char_code y) (char_code x));
    try done; intros. f_equal; [apply char_code_inj; lia|eauto].
Qed.

Section same_kind.
Context (k : kind).
Implicit Types a b c : value.

Lemma value_lt_irrefl a : has_kind k a → value_lt a a = false.
Proof.
    destruct k, a; try done; intros _; cbn; [apply Z.ltb_irrefl|apply str_lt_irrefl|apply str_lt_irrefl|].
    apply d_lt_irrefl.
Qed.

Lemma value_lt_trans a b c : has_kind k a → has_kind k b → has_kind k c →
    value_lt a b = true → value_lt b c = true → value_lt a c = true.
Proof.
    destruct k, a, b, c; try done; intros _ _ _; unfold value_lt; eauto using str_lt_trans, d_lt_trans.
    rewrite !Z.ltb_lt. lia.
Qed.

Lemma value_lt_total a b : has_kind k a → has_kind k b →
    value_lt a b = false → value_lt b a = false → a = b.
Proof.
    destruct k as [| | |fs], a as [| |x| |[]], b as [| |y| |[]]; try done; cbn.
    - intros _ _. rewrite !Z.ltb_ge. intros. f_equal. lia.
    - intros _ _ ??. f_equal. eauto using str_lt_total.
    - intros [Hx Hs] [Hy _] Hxy Hyx. pose proof (spread_elem fs x y Hx Hy Hs) as Hc.
      rewrite Hxy, Hyx, andb_false_r in Hc. case_bool_decide; congruence.
Qed.

Lemma value_eq_iff a b : has_kind k a → has_kind k b → value_eq a b = true ↔ a = b.
Proof.
    destruct k as [| | |fs], a as [| |x| |], b as [| |y| |]; try done; cbn.
    - intros _ _. rewrite Z.eqb_eq. naive_solver.
    - intros _ _. rewrite bool_decide_eq_true. naive_solver.
    - intros _ _. rewrite Bool.eqb_true_iff. naive_solver.
    - intros [Hx Hs] [Hy _]. pose proof (spread_elem fs x y Hx Hy Hs) as Hc.
      case_bool_decide as E; [naive_solver|]. apply andb_true_iff in Hc as [Hc%negb_true_iff _].
      rewrite Hc. naive_solver.
Qed.
End same_kind.

(** Tenths are a kind; [operator==] confuses the neighbours of 0, 6e-10, 1.2e-9. *)
Definition tenth (z : Z) : double := d_div (d_of_Z z) (d_of_Z 10).
Example spread_tenths :
  spread (tenth <$> [-5; 0; 1; 2; 3; 10]) = true ∧
  spread [d_zero; d_div (d_of_Z 6) (d_of_Z (10 ^ 10)); d_div (d_of_Z 12) (d_of_Z (10 ^ 10))] = false.
Proof. vm_compute. split; reflexivity. Qed.
