(* ===== verification/Rows.v ===== *)
(** * Rows, columns and their stored form

    [Row] (src/core/row.cc), [Column] (src/core/column.cc) and the tuple
    format of src/storage/page_format.cc. *)

From Stdlib Require Import ZArith Lia.
From S2P Require Import Prelude CppNum Values.

(** ** Rows *)

Record Row : Type := mkRow {
  row_values : list value;
  row_xmin : Z;
  row_xmax : Z
}.
#[export] Instance Row_eq_dec : EqDecision Row.
Proof. solve_decision. Defined.

Definition row_of_values (vs : list value) : Row := mkRow vs 0 0.
Definition empty_row : Row := row_of_values [].

Definition row_out_of_range : exn := std_out_of_range "Row index out of range".

Definition add_value (r : Row) (v : value) : Row :=
  mkRow (row_values r ++ [v]) (row_xmin r) (row_xmax r).

Definition set_value (r : Row) (index : nat) (v : value) : res Row :=
  if (length (row_values r) <=? index)%nat then Throw row_out_of_range
  else Ok (mkRow (<[index := v]> (row_values r)) (row_xmin r) (row_xmax r)).

Definition remove_value (r : Row) (index : nat) : res Row :=
  if (length (row_values r) <=? index)%nat then Throw row_out_of_range
  else Ok (mkRow (delete index (row_values r)) (row_xmin r) (row_xmax r)).

Definition get_value (r : Row) (index : nat) : res value :=
  match row_values r !! index with
  | Some v => Ok v
  | None => Throw row_out_of_range
  end.

Definition get_column_count (r : Row) : nat := length (row_values r).
Definition row_is_empty (r : Row) : bool := (get_column_count r =? 0)%nat.
Definition set_xmin (r : Row) (xmin : Z) : Row := mkRow (row_values r) xmin (row_xmax r).
Definition set_xmax (r : Row) (xmax : Z) : Row := mkRow (row_values r) (row_xmin r) xmax.

(** [operator==]: the values, not the versions. *)
Fixpoint values_eq (a b : list value) : bool :=
  match a, b with
  | [], [] => true
  | x :: a, y :: b => if value_ne x y then false else values_eq a b
  | _, _ => false
  end.
Definition row_eq (a b : Row) : bool := values_eq (row_values a) (row_values b).

Definition row_to_string (r : Row) : string :=
  "Row(" +:+ String.concat ", " (to_string <$> row_values r) +:+ ")".

(** ** Columns *)

Record Column : Type := mkColumn {
  col_name : string;
  col_type : DataType;
  col_nullable : bool;
  col_primary_key : bool;
  col_unique : bool;
  col_default : option value
}.
#[export] Instance Column_eq_dec : EqDecision Column.
Proof. solve_decision. Defined.

Definition pk_nullable_error : exn := ConstraintException "Primary key column cannot be nullable".

Definition new_Column (name : string) (type : DataType) (nullable pk unique : bool) : res Column :=
  if pk && nullable then Throw pk_nullable_error
  else Ok (mkColumn name type nullable pk unique None).

Definition col_set_name (c : Column) (name : string) : Column :=
  mkColumn name (col_type c) (col_nullable c) (col_primary_key c) (col_unique c) (col_default c).

Definition col_set_nullable (c : Column) (nullable : bool) : res Column :=
  if col_primary_key c && nullable then Throw pk_nullable_error
  else Ok (mkColumn (col_name c) (col_type c) nullable (col_primary_key c) (col_unique c) (col_default c)).

Definition col_set_primary_key (c : Column) (pk : bool) : Column :=
  mkColumn (col_name c) (col_type c) (if pk then false else col_nullable c) pk
    (col_unique c) (col_default c).

Definition col_set_unique (c : Column) (u : bool) : Column :=
  mkColumn (col_name c) (col_type c) (col_nullable c) (col_primary_key c) u (col_default c).

Definition col_set_default_value (c : Column) (v : value) : Column :=
  mkColumn (col_name c) (col_type c) (col_nullable c) (col_primary_key c) (col_unique c) (Some v).

Definition col_clear_default_value (c : Column) : Column :=
  mkColumn (col_name c) (col_type c) (col_nullable c) (col_primary_key c) (col_unique c) None.

Definition col_to_string (c : Column) : string :=
  col_name c +:+ " " +:+ data_type_to_string (col_type c)
  +:+ (if col_nullable c then "" else " NOT NULL")
  +:+ (if col_primary_key c then " PRIMARY KEY" else "")
  +:+ (if col_unique c then " UNIQUE" else "")
  +:+ (match col_default c with Some v => " DEFAULT " +:+ to_string v | None => "" end).

Definition col_eq (a b : Column) : bool :=
  bool_decide (col_name a = col_name b) && bool_decide (col_type a = col_type b).

(** The invariant of [Column]: a primary key column is never nullable. *)
Definition column_ok (c : Column) : Prop := col_primary_key c = true → col_nullable c = false.

(** The mutators a column offers, as one step. *)
Inductive column_step : Column → Column → Prop :=
  | cs_name c n : column_step c (col_set_name c n)
  | cs_nullable c b c' : col_set_nullable c b = Ok c' → column_step c c'
  | cs_primary_key c b : column_step c (col_set_primary_key c b)
  | cs_unique c b : column_step c (col_set_unique c b)
  | cs_default c v : column_step c (col_set_default_value c v)
  | cs_clear_default c : column_step c (col_clear_default_value c).

Lemma column_step_ok c c' : column_ok c → column_step c c' → column_ok c'.
Proof.
  unfold column_ok. intros Hok Hstep.
  destruct Hstep as [c n|c b c' H|c b|c b|c v|c]; cbn; auto; [|by intros ->].
  unfold col_set_nullable in H. destruct (col_primary_key c) eqn:E, b; cbn in H; by inv_res.
Qed.

(** ** Tuples *)

Definition append_u32 (out : list Z) (v : Z) : list Z := out ++ le_bytes 4 v.
Definition append_u64 (out : list Z) (v : Z) : list Z := out ++ le_bytes 8 v.

(** Readers over [data] at [offset], with the advanced offset. *)
Definition read_u32 (data : list Z) (offset : nat) : res (Z * nat) :=
  if (length data <? offset + 4)%nat
  then Throw (StorageException "Truncated tuple while reading u32")
  else Ok (le_value (slice offset 4 data), (offset + 4)%nat).

Definition read_u64 (data : list Z) (offset : nat) : res (Z * nat) :=
  if (length data <? offset + 8)%nat
  then Throw (StorageException "Truncated tuple while reading u64")
  else Ok (le_value (slice offset 8 data), (offset + 8)%nat).

Definition append_column (out : list Z) (v : value) : list Z :=
  let blob := serialize_value v in
  append_u32 out (u_wrap 32 (Z.of_nat (length blob))) ++ blob.

Definition serialize_tuple (row : Row) : list Z :=
  foldl append_column
    (append_u64 (append_u64 [] (row_xmin row)) (row_xmax row)) (row_values row).

Definition measure_tuple_size (row : Row) : nat :=
  foldl (λ size v, size + (4 + length (serialize_value v)))%nat 16%nat (row_values row).

(** The loop over the column types. *)
Fixpoint read_columns (data : list Z) (offset : nat) (row : Row) (types : list DataType)
    : res Row :=
  match types with
  | [] => Ok row
  | t :: types =>
      '(value_len, offset) ← read_u32 data offset;
      let value_len := Z.to_nat value_len in
      if (length data <? offset + value_len)%nat
      then Throw (StorageException "Truncated tuple column payload")
      else
        v ← deserialize_value (slice offset value_len data) t;
        read_columns data (offset + value_len)%nat (add_value row v) types
  end.

Definition deserialize_tuple (data : list Z) (types : list DataType) : res Row :=
  '(xmin, offset) ← read_u64 data 0;
  '(xmax, offset) ← read_u64 data offset;
  read_columns data offset (mkRow [] xmin xmax) types.

(** *** Round trip *)

(** A row the tuple format can hold. *)
Definition storable_row (row : Row) : Prop :=
  is_u64 (row_xmin row) ∧ is_u64 (row_xmax row) ∧
  Forall (λ v, storable v ∧ Z.of_nat (length (serialize_value v)) < 2 ^ 32) (row_values row).

Definition column_bytes (v : value) : list Z :=
  le_bytes 4 (u_wrap 32 (Z.of_nat (length (serialize_value v)))) ++ serialize_value v.

Lemma foldl_append_column vs : ∀ out,
  foldl append_column out vs = out ++ concat (column_bytes <$> vs).
Proof.
  induction vs as [|v vs IH]; intros out; cbn; [by rewrite app_nil_r|].
  rewrite IH. unfold append_column, append_u32, column_bytes. by rewrite <- !app_assoc.
Qed.

Lemma serialize_tuple_eq row :
  serialize_tuple row =
  le_bytes 8 (row_xmin row) ++ le_bytes 8 (row_xmax row) ++ concat (column_bytes <$> row_values row).
Proof.
  unfold serialize_tuple. rewrite foldl_append_column. unfold append_u64.
  by rewrite <- !app_assoc.
Qed.

Lemma length_column_bytes v : length (column_bytes v) = (4 + length (serialize_value v))%nat.
Proof. unfold column_bytes. by rewrite length_app, length_le_bytes. Qed.

Lemma slice_middle {A} (pre mid post : list A) :
  slice (length pre) (length mid) (pre ++ mid ++ post) = mid.
Proof. unfold slice. by rewrite drop_app_length, take_app_length. Qed.

Lemma slice_middle' {A} (off len : nat) (pre mid post : list A) :
  length pre = off → length mid = len → slice off len (pre ++ mid ++ post) = mid.
Proof. intros <- <-. apply slice_middle. Qed.

Lemma read_u32_ok pre v post :
  is_u32 v →
  read_u32 (pre ++ le_bytes 4 v ++ post) (length pre) = Ok (v, (length pre + 4)%nat).
Proof.
  intros Hv. unfold read_u32.
  rewrite (slice_middle' _ _ pre (le_bytes 4 v)) by (by rewrite ?length_le_bytes).
  rewrite le_value_le_bytes_small by done.
  rewrite !length_app, length_le_bytes.
  by rewrite (proj2 (Nat.ltb_ge _ _)) by lia.
Qed.

Lemma read_u64_ok pre v post :
  is_u64 v →
  read_u64 (pre ++ le_bytes 8 v ++ post) (length pre) = Ok (v, (length pre + 8)%nat).
Proof.
  intros Hv. unfold read_u64.
  rewrite (slice_middle' _ _ pre (le_bytes 8 v)) by (by rewrite ?length_le_bytes).
  rewrite le_value_le_bytes_small by done.
  rewrite !length_app, length_le_bytes.
  by rewrite (proj2 (Nat.ltb_ge _ _)) by lia.
Qed.

Lemma read_columns_ok vs : ∀ pre row types,
  length types = length vs →
  Forall (λ v, storable v ∧ Z.of_nat (length (serialize_value v)) < 2 ^ 32) vs →
  read_columns (pre ++ concat (column_bytes <$> vs)) (length pre) row types =
  Ok (mkRow (row_values row ++ vs) (row_xmin row) (row_xmax row)).
Proof.
  induction vs as [|v vs IH]; intros pre row [|t types] Hlen Hvs; try done.
  { cbn. rewrite app_nil_r. by destruct row. }
  apply Forall_cons_iff in Hvs as [[Hst Hsz] Hvs]. injection Hlen as Hlen.
  cbn [fmap list_fmap concat read_columns]. fold (column_bytes <$> vs).
  set (blob := serialize_value v) in *.
  assert (Hcb : column_bytes v = le_bytes 4 (Z.of_nat (length blob)) ++ blob)
    by (unfold column_bytes, u_wrap; fold blob; by rewrite Z.mod_small by lia).
  rewrite Hcb, <- app_assoc, read_u32_ok by (red; lia). cbn [mbind res_bind].
  rewrite Nat2Z.id.
  set (pre' := pre ++ le_bytes 4 (Z.of_nat (length blob))).
  assert (Hpre' : (length pre + 4)%nat = length pre')
    by (unfold pre'; by rewrite length_app, length_le_bytes).
  rewrite Hpre', (app_assoc pre). fold pre'.
  rewrite (proj2 (Nat.ltb_ge _ _)) by (rewrite !length_app; lia).
  assert (Hd : deserialize_value blob t = Ok v) by (by apply deserialize_serialize_value).
  rewrite slice_middle, Hd. cbn [mbind res_bind].
  rewrite app_assoc, <- length_app, IH by done.
  cbn. by rewrite <- app_assoc.
Qed.

Lemma deserialize_serialize_tuple row types :
  storable_row row → length types = length (row_values row) →
  deserialize_tuple (serialize_tuple row) types = Ok row.
Proof.
  intros (Hmin & Hmax & Hvs) Hlen. unfold deserialize_tuple. rewrite serialize_tuple_eq.
  pose proof (read_u64_ok [] (row_xmin row)
    (le_bytes 8 (row_xmax row) ++ concat (column_bytes <$> row_values row)) Hmin) as H0.
  rewrite app_nil_l in H0. change (@length Z []) with 0%nat in H0. rewrite H0.
  cbn [mbind res_bind Nat.add].
  replace 8%nat with (length (le_bytes 8 (row_xmin row))) at 3 by apply length_le_bytes.
  rewrite (read_u64_ok (le_bytes 8 (row_xmin row))) by done. cbn [mbind res_bind].
  rewrite app_assoc.
  replace (length (le_bytes 8 (row_xmin row)) + 8)%nat
    with (length (le_bytes 8 (row_xmin row) ++ le_bytes 8 (row_xmax row)))
    by (by rewrite length_app, !length_le_bytes).
  rewrite read_columns_ok by done. by destruct row.
Qed.

Lemma measure_tuple_size_fold vs : ∀ n,
  foldl (λ size v, size + (4 + length (serialize_value v)))%nat n vs =
  (n + length (concat (column_bytes <$> vs)))%nat.
Proof.
  induction vs as [|v vs IH]; intros n; [cbn; lia|].
  rewrite fmap_cons. cbn [foldl concat]. rewrite IH, length_app, length_column_bytes. lia.
Qed.

Lemma measure_tuple_size_ok row : measure_tuple_size row = length (serialize_tuple row).
Proof.
  unfold measure_tuple_size. rewrite measure_tuple_size_fold, serialize_tuple_eq.
  rewrite !length_app, !length_le_bytes. lia.
Qed.

Lemma length_serialize_tuple row : (16 ≤ length (serialize_tuple row))%nat.
Proof. rewrite serialize_tuple_eq, !length_app, !length_le_bytes. lia. Qed.

Lemma serialize_value_bytes v : Forall is_u8 (serialize_value v).
Proof.
  destruct v as [|z|d|s|b]; cbn [serialize_value].
  - repeat constructor; done.
  - constructor; [done|apply le_bytes_range].
  - constructor; [done|apply le_bytes_range].
  - constructor; [done|]. apply Forall_app. split; [apply le_bytes_range|apply bytes_of_string_range].
  - destruct b; repeat constructor; done.
Qed.

Lemma serialize_tuple_bytes row : Forall is_u8 (serialize_tuple row).
Proof.
  rewrite serialize_tuple_eq. repeat (apply Forall_app; split); try apply le_bytes_range.
  apply Forall_concat, Forall_fmap, Forall_true. intros v. unfold compose, column_bytes.
  apply Forall_app. split; [apply le_bytes_range|apply serialize_value_bytes].
Qed.
