(* ===== verification/Page.v ===== *)
(** * Slotted pages

    [Page] (src/storage/page.cc, include/storage/page_format.h): an 8 KiB
    buffer with a packed header, tuples that grow upwards from it and a slot
    directory that grows downwards from the end.  The header and the slots are
    the little-endian images a little-endian target gives the packed structs.
    Every access to the buffer through an offset read from the buffer itself
    is checked: outside the buffer it is [UB]. *)

From Stdlib Require Import ZArith Lia.
From S2P Require Import Prelude.

(** ** Layout *)

Definition kPageSize : Z := 8192.
Definition sizeof_PageHeader : Z := 12.
Definition sizeof_SlotEntry : Z := 4.

Abbreviation page := (list Z).

Definition get_u16 (p : page) (off : nat) : Z := le_value (slice off 2 p).
Definition put_u16 (p : page) (off : nat) (v : Z) : page := splice off (le_bytes 2 v) p.

Definition hdr_page_id (p : page) : Z := le_value (slice 0 4 p).
Definition hdr_slot_count (p : page) : Z := get_u16 p 4.
Definition hdr_lower (p : page) : Z := get_u16 p 6.
Definition hdr_upper (p : page) : Z := get_u16 p 8.

(** [memcpy] from and to a buffer, undefined outside it. *)
Definition read_buf (p : list Z) (off len : Z) : res (list Z) :=
  if (0 <=? off) && (off + len <=? Z.of_nat (length p))
  then Ok (slice (Z.to_nat off) (Z.to_nat len) p) else UB.
Definition write_buf (p : list Z) (off : Z) (bs : list Z) : res (list Z) :=
  if (0 <=? off) && (off + Z.of_nat (length bs) <=? Z.of_nat (length p))
  then Ok (splice (Z.to_nat off) bs p) else UB.

(** ** Operations *)

(** [initialize]: a cleared buffer, then the header fields. *)
Definition initialize (page_id : Z) : page :=
  let p := replicate (Z.to_nat kPageSize) 0 in
  let p := splice 0 (le_bytes 4 page_id) p in
  let p := put_u16 p 4 0 in
  let p := put_u16 p 6 sizeof_PageHeader in
  let p := put_u16 p 8 kPageSize in
  put_u16 p 10 0.

(** [Page::from_bytes]: the first [kPageSize] bytes of the source. *)
Definition from_bytes (raw : option (list Z)) : res page :=
  match raw with
  | None => Throw (StorageException "Null page bytes")
  | Some raw => src ← read_buf raw 0 kPageSize; write_buf (initialize 0) 0 src
  end.

Definition get_free_space (p : page) : Z :=
  if hdr_upper p <? hdr_lower p then 0 else hdr_upper p - hdr_lower p.

(** [slot_at]: the offset of a slot entry. *)
Definition slot_at (p : page) (index : Z) : Z :=
  hdr_upper p + (hdr_slot_count p - 1 - index) * sizeof_SlotEntry.

(** The entry: offset and length. *)
Definition read_slot (p : page) (index : Z) : res (Z * Z) :=
  e ← read_buf p (slot_at p index) 4;
  mret (le_value (slice 0 2 e), le_value (slice 2 2 e)).

Definition insert_tuple (p : page) (tuple_bytes : option (list Z)) (tuple_length : Z)
    : res (page * Z) :=
  match tuple_bytes with
  | None => Throw (StorageException "Null tuple bytes")
  | Some tuple =>
      let needed := tuple_length + sizeof_SlotEntry in
      if get_free_space p <? needed then Throw (StorageException "Tuple does not fit on page")
      else
        let offset := hdr_lower p in
        src ← read_buf tuple 0 tuple_length;
        p ← write_buf p offset src;
        let p := put_u16 p 6 (u_wrap 16 (hdr_lower p + tuple_length)) in
        let p := put_u16 p 8 (u_wrap 16 (hdr_upper p - sizeof_SlotEntry)) in
        let slot := hdr_upper p in
        p ← write_buf p slot (le_bytes 2 offset);
        p ← write_buf p (slot + 2) (le_bytes 2 tuple_length);
        let slot_index := hdr_slot_count p in
        let p := put_u16 p 4 (u_wrap 16 (slot_index + 1)) in
        mret (p, slot_index)
  end.

Definition is_slot_live (p : page) (slot : Z) : res bool :=
  if hdr_slot_count p <=? slot then Ok false
  else
    '(offset, len) ← read_slot p slot;
    mret (negb (offset =? 0) && negb (len =? 0)).

Definition read_tuple (p : page) (slot : Z) : res (option (list Z)) :=
  live ← is_slot_live p slot;
  if negb live then mret None
  else
    '(offset, len) ← read_slot p slot;
    t ← read_buf p offset len;
    mret (Some t).

Definition delete_tuple (p : page) (slot : Z) : res page :=
  if hdr_slot_count p <=? slot then Throw (StorageException "Invalid slot index")
  else
    let base := slot_at p slot in
    p ← write_buf p base (le_bytes 2 0);
    write_buf p (base + 2) (le_bytes 2 0).

Definition update_tuple_in_place (p : page) (slot : Z) (tuple_bytes : option (list Z))
    (tuple_length : Z) : res (page * bool) :=
  match tuple_bytes with
  | None => mret (p, false)
  | Some tuple =>
      live ← is_slot_live p slot;
      if negb live then mret (p, false)
      else
        '(offset, len) ← read_slot p slot;
        if negb (len =? tuple_length) then mret (p, false)
        else
          src ← read_buf tuple 0 tuple_length;
          p ← write_buf p offset src;
          mret (p, true)
  end.

(** ** The invariant of a page

    [slots] are the directory entries in slot order and [lower] the end of the
    tuple area.  Entry [i] always lies [4 * (i + 1)] bytes before the end. *)

Definition entry_live (e : Z * Z) : bool := negb (e.1 =? 0) && negb (e.2 =? 0).
Definition entry_pos (i : nat) : nat := Z.to_nat (8192 - 4 * (Z.of_nat i + 1)).

Record page_ok (p : page) (id : Z) (slots : list (Z * Z)) (lower : Z) : Prop := {
  ok_length : Z.of_nat (length p) = 8192;
  ok_bytes : Forall is_u8 p;
  ok_id : hdr_page_id p = id;
  ok_count : hdr_slot_count p = Z.of_nat (length slots);
  ok_lower : hdr_lower p = lower;
  ok_upper : hdr_upper p = 8192 - 4 * Z.of_nat (length slots);
  ok_order : 12 ≤ lower ≤ 8192 - 4 * Z.of_nat (length slots);
  ok_entry : ∀ i e, slots !! i = Some e →
    le_value (slice (entry_pos i) 2 p) = e.1 ∧ le_value (slice (entry_pos i + 2) 2 p) = e.2;
  ok_range : ∀ i e, slots !! i = Some e → 0 ≤ e.1 ∧ 0 ≤ e.2 ∧
    (entry_live e = true → 12 ≤ e.1 ∧ e.1 + e.2 ≤ lower);
  ok_disjoint : ∀ i j a b, slots !! i = Some a → slots !! j = Some b → i ≠ j →
    entry_live a = true → entry_live b = true → a.1 + a.2 ≤ b.1 ∨ b.1 + b.2 ≤ a.1
}.

(** The tuple an entry points to. *)
Definition entry_tuple (p : page) (e : Z * Z) : option (list Z) :=
  if entry_live e then Some (slice (Z.to_nat e.1) (Z.to_nat e.2) p) else None.

(** A slot that holds no bytes counts as unused. *)
Definition stored (t : list Z) : option (list Z) := match t with [] => None | _ => Some t end.

(** What a page stores: the tuples by slot number. *)
Definition page_rep (p : page) (id : Z) (ts : list (option (list Z))) : Prop :=
  ∃ slots lower, page_ok p id slots lower ∧ ts = entry_tuple p <$> slots.

(** *** Reading fields after writes *)

Lemma get_u16_put_same p off v :
  (off + 2 ≤ length p)%nat → is_u16 v → get_u16 (put_u16 p off v) off = v.
Proof.
  intros Hl Hv. unfold get_u16, put_u16.
  pose proof (slice_splice_same off (le_bytes 2 v) p) as H.
  rewrite length_le_bytes in H. rewrite H by lia. by apply le_value_le_bytes_small.
Qed.

Lemma get_u16_splice_other p off bs off' :
  (off + length bs ≤ length p)%nat → (off' + 2 ≤ off ∨ off + length bs ≤ off')%nat →
  get_u16 (splice off bs p) off' = get_u16 p off'.
Proof. intros. unfold get_u16. by rewrite slice_splice_other by lia. Qed.

Lemma get_u16_put_other p off v off' :
  (off + 2 ≤ length p)%nat → (off' + 2 ≤ off ∨ off + 2 ≤ off')%nat →
  get_u16 (put_u16 p off v) off' = get_u16 p off'.
Proof. intros. unfold put_u16. apply get_u16_splice_other; rewrite length_le_bytes; lia. Qed.

Lemma slice_put_other p off v off' len' :
  (off + 2 ≤ length p)%nat → (off' + len' ≤ off ∨ off + 2 ≤ off')%nat →
  slice off' len' (put_u16 p off v) = slice off' len' p.
Proof. intros. unfold put_u16. apply slice_splice_other; rewrite length_le_bytes; lia. Qed.

Lemma length_put_u16 p off v : (off + 2 ≤ length p)%nat → length (put_u16 p off v) = length p.
Proof. intros. unfold put_u16. apply length_splice. rewrite length_le_bytes; lia. Qed.

Lemma Forall_put_u16 p off v : Forall is_u8 p → Forall is_u8 (put_u16 p off v).
Proof. unfold put_u16. auto with nobug. Qed.
#[export] Hint Resolve Forall_put_u16 : nobug.

Lemma read_buf_ok p off len :
  0 ≤ off → off + len ≤ Z.of_nat (length p) →
  read_buf p off len = Ok (slice (Z.to_nat off) (Z.to_nat len) p).
Proof.
  intros. unfold read_buf. by rewrite !(proj2 (Z.leb_le _ _)) by lia.
Qed.

Lemma write_buf_ok p off bs :
  0 ≤ off → off + Z.of_nat (length bs) ≤ Z.of_nat (length p) →
  write_buf p off bs = Ok (splice (Z.to_nat off) bs p).
Proof.
  intros. unfold write_buf. by rewrite !(proj2 (Z.leb_le _ _)) by lia.
Qed.

Lemma slice_slice {A} (p : list A) off len i n :
  (i + n ≤ len)%nat → slice i n (slice off len p) = slice (off + i) n p.
Proof.
  intros. apply list_eq; intros k. rewrite !lookup_slice. repeat case_decide; try done; try lia.
  f_equal; lia.
Qed.

(** *** Reading a well-formed page *)

Section reading.
Context (p : page) (id : Z) (slots : list (Z * Z)) (lower : Z).
Context (Hok : page_ok p id slots lower).

Lemma slot_bound i e : slots !! i = Some e → (i < length slots)%nat.
Proof. apply lookup_lt_Some. Qed.

Lemma slot_at_eq i : slot_at p (Z.of_nat i) = 8192 - 4 * (Z.of_nat i + 1).
Proof.
    unfold slot_at, sizeof_SlotEntry. rewrite (ok_upper _ _ _ _ Hok), (ok_count _ _ _ _ Hok). lia.
Qed.

Lemma read_slot_ok i e : slots !! i = Some e → read_slot p (Z.of_nat i) = Ok e.
Proof.
    intros Hi. pose proof (slot_bound _ _ Hi). pose proof (ok_order _ _ _ _ Hok).
    pose proof (ok_length _ _ _ _ Hok).
    unfold read_slot. rewrite slot_at_eq, read_buf_ok by lia. cbn [mbind res_bind].
    destruct (ok_entry _ _ _ _ Hok i e Hi) as [Ea Eb]. fold (entry_pos i).
    change (Z.to_nat 4) with 4%nat. rewrite !slice_slice by lia.
    rewrite Nat.add_0_r, Ea, Eb. by destruct e.
Qed.

Lemma is_slot_live_ok i :
    is_slot_live p (Z.of_nat i) = Ok (from_option entry_live false (slots !! i)).
Proof.
    unfold is_slot_live. rewrite (ok_count _ _ _ _ Hok).
    destruct (slots !! i) as [e|] eqn:Hi.
    - pose proof (slot_bound _ _ Hi). rewrite (proj2 (Z.leb_gt _ _)) by lia.
      rewrite (read_slot_ok _ _ Hi). by destruct e.
    - apply lookup_ge_None in Hi. by rewrite (proj2 (Z.leb_le _ _)) by lia.
Qed.

Lemma read_tuple_ok i :
    read_tuple p (Z.of_nat i) = Ok (slots !! i ≫= entry_tuple p).
Proof.
    unfold read_tuple. rewrite is_slot_live_ok. cbn [mbind res_bind].
    destruct (slots !! i) as [e|] eqn:Hi; [|done]. cbn [mbind option_bind from_option].
    unfold entry_tuple. destruct (entry_live e) eqn:Hlive; [|done]. cbn [negb].
    rewrite (read_slot_ok _ _ Hi). destruct e as [off len]. cbn [mbind res_bind].
    destruct (ok_range _ _ _ _ Hok i _ Hi) as (? & ? & H). specialize (H Hlive). cbn [fst snd] in *.
    pose proof (ok_order _ _ _ _ Hok). pose proof (ok_length _ _ _ _ Hok).
    rewrite read_buf_ok by lia. done.
Qed.
End reading.

(** *** Changing a well-formed page *)

(** A page that agrees with a well-formed one outside the free area. *)
Lemma entry_tuple_agree p p' e lower :
  (entry_live e = true → 12 ≤ e.1 ∧ 0 ≤ e.2 ∧ e.1 + e.2 ≤ lower) →
  (∀ off len, (12 ≤ off)%nat → Z.of_nat (off + len) ≤ lower → slice off len p' = slice off len p) →
  entry_tuple p' e = entry_tuple p e.
Proof.
  intros He Hagree. unfold entry_tuple. destruct (entry_live e) eqn:Hl; [|done].
  specialize (He eq_refl). f_equal. apply Hagree; lia.
Qed.

(** Fields and ranges read through a stack of overwrites; the side conditions
    compare offsets with the length of the buffer, which no overwrite changes. *)
Ltac page_side :=
  unfold is_u;
  repeat first
    [ rewrite length_put_u16 by page_side
    | rewrite length_splice by page_side
    | rewrite length_le_bytes ];
  lia.
Ltac page_rw :=
  repeat first
    [ rewrite get_u16_put_same by page_side
    | rewrite get_u16_put_other by page_side
    | rewrite slice_put_other by page_side
    | rewrite length_put_u16 by page_side
    | rewrite length_splice by page_side
    | rewrite get_u16_splice_other by page_side
    | rewrite slice_splice_other by page_side ].

(** The bytes [insert_tuple] leaves behind. *)
Definition inserted (p : page) (tuple : list Z) (lower upper count : Z) : page :=
  let n := Z.of_nat (length tuple) in
  put_u16 (put_u16 (put_u16 (put_u16 (put_u16 (splice (Z.to_nat lower) tuple p)
    6 (lower + n)) 8 (upper - 4))
    (Z.to_nat (upper - 4)) lower) (Z.to_nat (upper - 2)) n) 4 (count + 1).

Lemma insert_tuple_eq p id slots lower tuple :
  page_ok p id slots lower →
  Z.of_nat (length tuple) + 4 ≤ get_free_space p →
  insert_tuple p (Some tuple) (Z.of_nat (length tuple)) =
  Ok (inserted p tuple lower (8192 - 4 * Z.of_nat (length slots)) (Z.of_nat (length slots)),
      Z.of_nat (length slots)).
Proof.
  intros Hok Hfit. unfold insert_tuple, inserted.
  destruct Hok as [HL _ _ Hcnt Hlow Hup Hord _ _ _].
  remember (Z.of_nat (length tuple)) as n eqn:Hn.
  remember (Z.of_nat (length slots)) as k eqn:Hk.
  unfold sizeof_SlotEntry. rewrite (proj2 (Z.ltb_ge _ _)) by lia.
  unfold get_free_space in Hfit. rewrite Hup, Hlow in Hfit.
  rewrite (proj2 (Z.ltb_ge _ _)) in Hfit by lia.
  rewrite read_buf_ok by lia. cbn [mbind res_bind]. change (Z.to_nat 0) with 0%nat.
  replace (slice 0 (Z.to_nat n) tuple) with tuple
    by (unfold slice; cbn; by rewrite Hn, Nat2Z.id, firstn_all).
  rewrite Hlow, write_buf_ok by lia. cbn [mbind res_bind].
  unfold hdr_slot_count, hdr_lower, hdr_upper in *.
  page_rw. rewrite Hlow. unfold u_wrap. rewrite (Z.mod_small (lower + n)) by lia.
  assert (E2 : get_u16 (put_u16 (splice (Z.to_nat lower) tuple p) 6 (lower + n)) 8 = 8192 - 4 * k)
    by (page_rw; done).
  rewrite E2. rewrite (Z.mod_small (8192 - 4 * k - 4)) by lia.
  page_rw. rewrite write_buf_ok by page_side.
  cbn [mbind res_bind]. rewrite write_buf_ok by page_side.
  cbn [mbind res_bind]. fold (put_u16 (put_u16 (put_u16 (splice (Z.to_nat lower) tuple p) 6 (lower + n)) 8
    (8192 - 4 * k - 4)) (Z.to_nat (8192 - 4 * k - 4)) lower).
  replace (8192 - 4 * k - 4 + 2) with (8192 - 4 * k - 2) by lia.
  unfold put_u16 at 2 7. page_rw. rewrite Hcnt.
  rewrite (Z.mod_small (k + 1)) by lia. done.
Qed.

Section inserting.
Context (p : page) (id : Z) (slots : list (Z * Z)) (lower : Z) (tuple : list Z).
Context (Hok : page_ok p id slots lower).
Let n := Z.of_nat (length tuple).
Let k := Z.of_nat (length slots).
Context (Hfit : n + 4 ≤ 8192 - 4 * k - lower).
Let p' := inserted p tuple lower (8192 - 4 * k) k.

Local Lemma numbers :
    Z.of_nat (length p) = 8192 ∧ 12 ≤ lower ≤ 8192 - 4 * k ∧
    n = Z.of_nat (length tuple) ∧ k = Z.of_nat (length slots) ∧ n + 4 ≤ 8192 - 4 * k - lower.
Proof using Hok Hfit.
    pose proof (ok_length _ _ _ _ Hok). pose proof (ok_order _ _ _ _ Hok). unfold n, k in *. lia.
Qed.

Lemma length_inserted : Z.of_nat (length p') = 8192.
Proof using Hok Hfit.
    destruct numbers as (? & ? & ? & ? & ?). unfold p', inserted. fold n. page_rw. done.
Qed.

(** The tuple area below [lower] and the directory above it are kept. *)
Lemma inserted_slice_low off len :
    (12 ≤ off)%nat → Z.of_nat (off + len) ≤ lower → slice off len p' = slice off len p.
Proof using Hok Hfit.
    intros. destruct numbers as (? & ? & ? & ? & ?). unfold p', inserted. fold n. page_rw. done.
Qed.

Lemma inserted_slice_high off len :
    8192 - 4 * k ≤ Z.of_nat off → slice off len p' = slice off len p.
Proof using Hok Hfit.
    intros. destruct numbers as (? & ? & ? & ? & ?). unfold p', inserted. fold n. page_rw. done.
Qed.

Lemma inserted_tuple : slice (Z.to_nat lower) (Z.to_nat n) p' = tuple.
Proof using Hok Hfit.
    destruct numbers as (? & ? & ? & ? & ?). unfold p', inserted. fold n. page_rw.
    replace (Z.to_nat n) with (length tuple) by lia. apply slice_splice_same. lia.
Qed.

Lemma inserted_header :
    hdr_page_id p' = hdr_page_id p ∧ hdr_slot_count p' = k + 1 ∧ hdr_lower p' = lower + n ∧
    hdr_upper p' = 8192 - 4 * (k + 1) ∧ get_u16 p' (entry_pos (length slots)) = lower ∧
    get_u16 p' (entry_pos (length slots) + 2) = n.
Proof using Hok Hfit.
    destruct numbers as (? & ? & ? & ? & ?).
    unfold hdr_page_id, hdr_slot_count, hdr_lower, hdr_upper, entry_pos.
    replace (Z.to_nat (8192 - 4 * (Z.of_nat (length slots) + 1)))
      with (Z.to_nat (8192 - 4 * k - 4)) by lia.
    replace (Z.to_nat (8192 - 4 * k - 4) + 2)%nat with (Z.to_nat (8192 - 4 * k - 2)) by lia.
    unfold p', inserted. fold n. repeat split; page_rw; lia || done.
Qed.

Lemma inserted_bytes : Forall is_u8 tuple → Forall is_u8 p'.
Proof using Hok.
    intros. pose proof (ok_bytes _ _ _ _ Hok). unfold p', inserted. auto 10 with nobug.
Qed.

Lemma inserted_ok :
    Forall is_u8 tuple → page_ok p' id (slots ++ [(lower, n)]) (lower + n).
Proof using Hok Hfit.
    intros Hbytes. destruct numbers as (? & ? & Hn & Hk & ?).
    destruct inserted_header as (Hid & Hcnt & Hlo & Hup & He1 & He2).
    split; rewrite ?length_app; cbn [length].
    - apply length_inserted.
    - by apply inserted_bytes.
    - rewrite Hid. apply (ok_id _ _ _ _ Hok).
    - lia.
    - done.
    - lia.
    - lia.
    - intros i e Hi. apply lookup_app_Some in Hi as [Hi|[Hge Hi]].
      + pose proof (lookup_lt_Some _ _ _ Hi).
        rewrite !inserted_slice_high by (unfold entry_pos; lia).
        by apply (ok_entry _ _ _ _ Hok).
      + apply list_lookup_singleton_Some in Hi as [Hi <-].
        replace i with (length slots) by lia. done.
    - intros i e Hi. apply lookup_app_Some in Hi as [Hi|[Hge Hi]].
      + destruct (ok_range _ _ _ _ Hok i e Hi) as (? & ? & H').
        split_and!; [done..|]. intros Hl. specialize (H' Hl). lia.
      + apply list_lookup_singleton_Some in Hi as [Hi <-]. cbn. lia.
    - intros i j a b Hi Hj Hij Ha Hb.
      apply lookup_app_Some in Hi as [Hi|[Hgei Hi]], Hj as [Hj|[Hgej Hj]].
      + by apply (ok_disjoint _ _ _ _ Hok i j).
      + apply list_lookup_singleton_Some in Hj as [_ <-].
        destruct (ok_range _ _ _ _ Hok i a Hi) as (_ & _ & H'). specialize (H' Ha). cbn. lia.
      + apply list_lookup_singleton_Some in Hi as [_ <-].
        destruct (ok_range _ _ _ _ Hok j b Hj) as (_ & _ & H'). specialize (H' Hb). cbn. lia.
      + apply list_lookup_singleton_Some in Hi as [? _], Hj as [? _]. lia.
Qed.

Lemma inserted_entry : entry_tuple p' (lower, n) = stored tuple.
Proof using Hok Hfit.
    unfold entry_tuple, entry_live. cbn [fst snd]. rewrite inserted_tuple.
    destruct numbers as (? & ? & Hn & Hk & ?).
    rewrite (proj2 (Z.eqb_neq lower 0)) by lia. rewrite Hn.
    destruct tuple; [done|]. by rewrite (proj2 (Z.eqb_neq _ 0)) by (cbn [length]; lia).
Qed.

Lemma inserted_rep :
    Forall is_u8 tuple → page_rep p' id ((entry_tuple p <$> slots) ++ [stored tuple]).
Proof using Hok Hfit.
    intros Hbytes. exists (slots ++ [(lower, n)]), (lower + n).
    split; [by apply inserted_ok|]. rewrite fmap_app. f_equal.
    - apply list_fmap_ext. intros i e Hi. symmetry. apply (entry_tuple_agree _ _ _ lower).
      + intros Hl. destruct (ok_range _ _ _ _ Hok i e Hi) as (? & ? & H').
        specialize (H' Hl). lia.
      + apply inserted_slice_low.
    - cbn [fmap list_fmap]. by rewrite inserted_entry.
Qed.
End inserting.

(** *** Deleting *)

Section deleting.
Context (p : page) (id : Z) (slots : list (Z * Z)) (lower : Z) (i : nat).
Context (Hok : page_ok p id slots lower) (Hi : (i < length slots)%nat).
Let p' := put_u16 (put_u16 p (entry_pos i) 0) (entry_pos i + 2) 0.

Local Lemma del_numbers :
    Z.of_nat (length p) = 8192 ∧ 12 ≤ lower ≤ 8192 - 4 * Z.of_nat (length slots) ∧
    Z.of_nat (entry_pos i) = 8192 - 4 * (Z.of_nat i + 1).
Proof using Hok Hi.
    pose proof (ok_length _ _ _ _ Hok). pose proof (ok_order _ _ _ _ Hok).
    unfold entry_pos. lia.
Qed.

Lemma delete_tuple_eq : delete_tuple p (Z.of_nat i) = Ok p'.
Proof using Hok Hi.
    destruct del_numbers as (? & ? & Hpos). unfold delete_tuple.
    rewrite (ok_count _ _ _ _ Hok), (proj2 (Z.leb_gt _ _)) by lia.
    rewrite (slot_at_eq _ _ _ _ Hok). rewrite write_buf_ok by page_side.
    cbn [mbind res_bind]. rewrite write_buf_ok by page_side.
    replace (Z.to_nat (8192 - 4 * (Z.of_nat i + 1) + 2)) with (entry_pos i + 2)%nat by lia.
    done.
Qed.

Lemma deleted_slice_low off len :
    Z.of_nat (off + len) ≤ lower → slice off len p' = slice off len p.
Proof using Hok Hi. intros. destruct del_numbers as (? & ? & ?). unfold p'. by page_rw. Qed.

Lemma deleted_entry j : (j < length slots)%nat → j ≠ i →
    get_u16 p' (entry_pos j) = get_u16 p (entry_pos j) ∧
    get_u16 p' (entry_pos j + 2) = get_u16 p (entry_pos j + 2).
Proof using Hok Hi.
    intros. destruct del_numbers as (? & ? & ?).
    assert (Z.of_nat (entry_pos j) = 8192 - 4 * (Z.of_nat j + 1)) by (unfold entry_pos; lia).
    unfold p'. split; by page_rw.
Qed.

Lemma deleted_ok : page_ok p' id (<[i := (0, 0)]> slots) lower.
Proof using Hok Hi.
    destruct del_numbers as (HL & Hord & Hpos).
    split; rewrite ?length_insert.
    - unfold p'. by page_rw.
    - pose proof (ok_bytes _ _ _ _ Hok). unfold p'. auto with nobug.
    - unfold hdr_page_id. rewrite deleted_slice_low by lia. apply (ok_id _ _ _ _ Hok).
    - unfold hdr_slot_count, p'. page_rw. apply (ok_count _ _ _ _ Hok).
    - unfold hdr_lower, p'. page_rw. apply (ok_lower _ _ _ _ Hok).
    - unfold hdr_upper, p'. page_rw. apply (ok_upper _ _ _ _ Hok).
    - done.
    - intros j e Hj. destruct (decide (j = i)) as [->|Hne].
      + rewrite list_lookup_insert_eq in Hj by done. injection Hj as <-.
        fold (get_u16 p' (entry_pos i)) (get_u16 p' (entry_pos i + 2)).
        unfold p'. split; by page_rw.
      + rewrite list_lookup_insert_ne in Hj by done.
        destruct (deleted_entry j (lookup_lt_Some _ _ _ Hj) Hne) as [E1 E2].
        unfold get_u16 in E1, E2. rewrite E1, E2. by apply (ok_entry _ _ _ _ Hok).
    - intros j e Hj. apply list_lookup_insert_Some in Hj as [(_ & <- & _)|[_ Hj]]; [done|].
      by apply (ok_range _ _ _ _ Hok j).
    - intros j1 j2 a b Ha Hb Hne La Lb.
      apply list_lookup_insert_Some in Ha as [(_ & <- & _)|[_ Ha]]; [done|].
      apply list_lookup_insert_Some in Hb as [(_ & <- & _)|[_ Hb]]; [done|].
      by apply (ok_disjoint _ _ _ _ Hok j1 j2).
Qed.

Lemma deleted_rep : page_rep p' id (<[i := None]> (entry_tuple p <$> slots)).
Proof using Hok Hi.
    exists (<[i := (0, 0)]> slots), lower. split; [apply deleted_ok|].
    change None with (entry_tuple p' (0, 0)). rewrite list_fmap_insert. f_equal.
    apply list_fmap_ext. intros j e Hj. symmetry. apply (entry_tuple_agree _ _ _ lower).
    - intros Hl. destruct (ok_range _ _ _ _ Hok j e Hj) as (? & ? & H').
      specialize (H' Hl). lia.
    - intros. by apply deleted_slice_low.
Qed.
End deleting.

(** *** Updating in place *)

Section updating.
Context (p : page) (id : Z) (slots : list (Z * Z)) (lower : Z) (i : nat) (tuple : list Z).
Context (e : Z * Z) (Hok : page_ok p id slots lower) (Hi : slots !! i = Some e).
Context (Hlive : entry_live e = true) (Hlen : e.2 = Z.of_nat (length tuple)).
Let p' := splice (Z.to_nat e.1) tuple p.

Local Lemma upd_numbers :
    Z.of_nat (length p) = 8192 ∧ 12 ≤ lower ≤ 8192 - 4 * Z.of_nat (length slots) ∧
    12 ≤ e.1 ∧ e.1 + Z.of_nat (length tuple) ≤ lower.
Proof using Hok Hi Hlive Hlen.
    pose proof (ok_length _ _ _ _ Hok). pose proof (ok_order _ _ _ _ Hok).
    destruct (ok_range _ _ _ _ Hok i e Hi) as (_ & _ & H'). specialize (H' Hlive). lia.
Qed.

Lemma update_tuple_eq :
    update_tuple_in_place p (Z.of_nat i) (Some tuple) (Z.of_nat (length tuple)) = Ok (p', true).
Proof using Hok Hi Hlive Hlen.
    destruct upd_numbers as (? & ? & ? & ?). unfold update_tuple_in_place.
    rewrite (is_slot_live_ok _ _ _ _ Hok), Hi. cbn [mbind res_bind from_option].
    rewrite Hlive, (read_slot_ok _ _ _ _ Hok _ _ Hi). destruct e as [off len].
    cbn [negb mbind res_bind fst snd] in *. rewrite Hlen, Z.eqb_refl. cbn [negb].
    rewrite read_buf_ok by lia. cbn [mbind res_bind]. change (Z.to_nat 0) with 0%nat.
    replace (slice 0 _ tuple) with tuple by (unfold slice; cbn; by rewrite Nat2Z.id, firstn_all).
    rewrite write_buf_ok by lia. done.
Qed.

Lemma updated_ok : Forall is_u8 tuple → page_ok p' id slots lower.
Proof using Hok Hi Hlive Hlen.
    intros Hb. destruct upd_numbers as (? & ? & ? & ?).
    destruct Hok as [HL HB Hid Hc Hlo Hup Hord Hent Hr Hd].
    split; try done; unfold p', hdr_page_id, hdr_slot_count, hdr_lower, hdr_upper in *.
    - by page_rw.
    - auto with nobug.
    - by page_rw.
    - by page_rw.
    - by page_rw.
    - by page_rw.
    - intros j a Hj. pose proof (lookup_lt_Some _ _ _ Hj).
      assert (Z.of_nat (entry_pos j) = 8192 - 4 * (Z.of_nat j + 1)) by (unfold entry_pos; lia).
      page_rw. by apply Hent.
Qed.

Lemma updated_rep :
    Forall is_u8 tuple → page_rep p' id (<[i := Some tuple]> (entry_tuple p <$> slots)).
Proof using Hok Hi Hlive Hlen.
    intros Hb. exists slots, lower. split; [by apply updated_ok|].
    destruct upd_numbers as (? & ? & ? & ?).
    apply list_eq. intros j. rewrite list_lookup_fmap.
    destruct (decide (j = i)) as [->|Hne].
    - rewrite list_lookup_insert_eq
        by (rewrite length_fmap; by eapply lookup_lt_Some).
      rewrite Hi. cbn. unfold entry_tuple. rewrite Hlive. do 2 f_equal.
      rewrite Hlen, Nat2Z.id. symmetry. apply slice_splice_same. lia.
    - rewrite list_lookup_insert_ne, list_lookup_fmap by done.
      destruct (slots !! j) as [a|] eqn:Hj; [cbn|done]. f_equal.
      unfold entry_tuple. destruct (entry_live a) eqn:Ha; [|done]. f_equal. unfold p'.
      destruct (ok_range _ _ _ _ Hok j a Hj) as (? & ? & H'). specialize (H' Ha).
      destruct (ok_disjoint _ _ _ _ Hok i j e a Hi Hj ltac:(done) Hlive Ha);
        by rewrite slice_splice_other by lia.
Qed.
End updating.

(** *** A fresh page *)

Lemma initialize_ok page_id : is_u32 page_id → page_ok (initialize page_id) page_id [] 12.
Proof.
  intros Hid.
  assert (HL : ∀ l : list Z, length l = Z.to_nat kPageSize → Z.of_nat (length l) = 8192)
    by (intros l ->; reflexivity).
  assert (H0 := HL _ (length_replicate (Z.to_nat kPageSize) 0)).
  unfold initialize. set (z := replicate (Z.to_nat kPageSize) 0) in *.
  assert (Hz : Forall is_u8 z) by (apply Forall_replicate; by red; lia).
  clearbody z. set (q := splice 0 (le_bytes 4 page_id) z).
  assert (Hq : Z.of_nat (length q) = 8192) by (unfold q; by page_rw).
  split; unfold hdr_page_id, hdr_slot_count, hdr_lower, hdr_upper, sizeof_PageHeader, kPageSize.
  - by page_rw.
  - unfold q. auto 10 with nobug.
  - page_rw. unfold q. pose proof (slice_splice_same 0 (le_bytes 4 page_id) z) as Hs.
    rewrite length_le_bytes in Hs. rewrite Hs by lia. by apply le_value_le_bytes_small.
  - by page_rw.
  - by page_rw.
  - by page_rw.
  - cbn; lia.
  - done.
  - done.
  - done.
Qed.

(** ** Specification: an array of tuples with a byte budget *)

Lemma page_rep_free p id ts :
  page_rep p id ts → ∃ lower, get_free_space p = 8192 - 4 * Z.of_nat (length ts) - lower ∧
  12 ≤ lower ≤ 8192 - 4 * Z.of_nat (length ts).
Proof.
  intros (slots & lower & Hok & ->). exists lower. rewrite length_fmap.
  pose proof (ok_order _ _ _ _ Hok). unfold get_free_space.
  rewrite (ok_lower _ _ _ _ Hok), (ok_upper _ _ _ _ Hok), (proj2 (Z.ltb_ge _ _)) by lia.
  split; [lia|done].
Qed.

Lemma page_rep_count p id ts : page_rep p id ts → hdr_slot_count p = Z.of_nat (length ts).
Proof.
  intros (slots & lower & Hok & ->). rewrite length_fmap. apply (ok_count _ _ _ _ Hok).
Qed.

Lemma page_rep_length p id ts : page_rep p id ts → Z.of_nat (length p) = 8192.
Proof. intros (slots & lower & Hok & _). apply (ok_length _ _ _ _ Hok). Qed.

Lemma page_rep_init id : is_u32 id → page_rep (initialize id) id [].
Proof. intros. exists [], 12. split; [by apply initialize_ok|done]. Qed.

Lemma page_rep_read p id ts i :
  page_rep p id ts → read_tuple p (Z.of_nat i) = Ok (mjoin (ts !! i)).
Proof.
  intros (slots & lower & Hok & ->). rewrite (read_tuple_ok _ _ _ _ Hok), list_lookup_fmap.
  by destruct (slots !! i).
Qed.

Lemma page_rep_live p id ts i :
  page_rep p id ts → is_slot_live p (Z.of_nat i) = Ok (bool_decide (is_Some (mjoin (ts !! i)))).
Proof.
  intros (slots & lower & Hok & ->). rewrite (is_slot_live_ok _ _ _ _ Hok), list_lookup_fmap.
  destruct (slots !! i) as [e|]; [|done]. cbn. unfold entry_tuple. by destruct (entry_live e).
Qed.

Lemma page_rep_insert p id ts t :
  page_rep p id ts → Forall is_u8 t →
  if get_free_space p <? Z.of_nat (length t) + 4
  then insert_tuple p (Some t) (Z.of_nat (length t)) =
       Throw (StorageException "Tuple does not fit on page")
  else ∃ p', insert_tuple p (Some t) (Z.of_nat (length t)) = Ok (p', Z.of_nat (length ts)) ∧
       page_rep p' id (ts ++ [stored t]) ∧
       get_free_space p' = get_free_space p - (Z.of_nat (length t) + 4).
Proof.
  intros Hrep Ht. pose proof (page_rep_free _ _ _ Hrep) as (lower' & Hfree & _).
  destruct Hrep as (slots & lower & Hok & ->). rewrite length_fmap in *.
  destruct (Z.ltb_spec (get_free_space p) (Z.of_nat (length t) + 4)) as [Hlt|Hge].
  { unfold insert_tuple, sizeof_SlotEntry. by rewrite (proj2 (Z.ltb_lt _ _)) by lia. }
  pose proof (ok_order _ _ _ _ Hok).
  assert (lower' = lower) as ->.
  { unfold get_free_space in Hfree.
    rewrite (ok_lower _ _ _ _ Hok), (ok_upper _ _ _ _ Hok), (proj2 (Z.ltb_ge _ _)) in Hfree by lia.
    lia. }
  rewrite Hfree in Hge.
  eexists. split; [by apply (insert_tuple_eq p id slots lower); [|lia]|].
  split; [by apply inserted_rep; [|lia|]|].
  destruct (inserted_header p id slots lower t Hok ltac:(lia)) as (_ & _ & Hlo & Hup & _ & _).
  unfold get_free_space at 1. rewrite Hlo, Hup, (proj2 (Z.ltb_ge _ _)) by lia. lia.
Qed.

Lemma page_rep_delete p id ts i :
  page_rep p id ts → (i < length ts)%nat →
  ∃ p', delete_tuple p (Z.of_nat i) = Ok p' ∧ page_rep p' id (<[i := None]> ts) ∧
        get_free_space p' = get_free_space p.
Proof.
  intros (slots & lower & Hok & ->) Hi. rewrite length_fmap in Hi.
  eexists. split; [by eapply delete_tuple_eq|]. split; [by eapply deleted_rep|].
  pose proof (deleted_ok _ _ _ _ _ Hok Hi) as Hok'. unfold get_free_space.
  rewrite (ok_lower _ _ _ _ Hok), (ok_upper _ _ _ _ Hok), (ok_lower _ _ _ _ Hok'),
    (ok_upper _ _ _ _ Hok'). by rewrite length_insert.
Qed.

Lemma delete_tuple_invalid p id ts i :
  page_rep p id ts → (length ts ≤ i)%nat →
  delete_tuple p (Z.of_nat i) = Throw (StorageException "Invalid slot index").
Proof.
  intros Hrep Hi. unfold delete_tuple. rewrite (page_rep_count _ _ _ Hrep).
  by rewrite (proj2 (Z.leb_le _ _)) by lia.
Qed.

(** The entry of a live slot has the length of its tuple. *)
Lemma page_slot_length p id ts i t :
  page_rep p id ts → mjoin (ts !! i) = Some t →
  ∃ off, is_slot_live p (Z.of_nat i) = Ok true ∧
    read_slot p (Z.of_nat i) = Ok (off, Z.of_nat (length t)).
Proof.
  intros (slots & lower & Hok & ->). rewrite list_lookup_fmap.
  destruct (slots !! i) as [e|] eqn:Hi; cbn [fmap option_fmap option_map mjoin option_join]; [|done].
  unfold entry_tuple. destruct (entry_live e) eqn:Hlive; [|done]. intros [= <-].
  destruct (ok_range _ _ _ _ Hok i e Hi) as (? & ? & Hr). specialize (Hr Hlive).
  pose proof (ok_order _ _ _ _ Hok). pose proof (ok_length _ _ _ _ Hok).
  exists e.1. rewrite (is_slot_live_ok _ _ _ _ Hok), Hi, (read_slot_ok _ _ _ _ Hok i e Hi). cbn.
  split; [by rewrite Hlive|]. rewrite length_slice by lia. destruct e. cbn in *. f_equal. f_equal. lia.
Qed.

(** Does slot [i] hold a tuple of the length of [t]? *)
Definition same_size (ts : list (option (list Z))) (i : nat) (t : list Z) : bool :=
  match mjoin (ts !! i) with Some u => (length u =? length t)%nat | None => false end.

Lemma page_rep_update p id ts i t :
  page_rep p id ts → Forall is_u8 t →
  if same_size ts i t
  then ∃ p', update_tuple_in_place p (Z.of_nat i) (Some t) (Z.of_nat (length t)) = Ok (p', true) ∧
       page_rep p' id (<[i := Some t]> ts) ∧ get_free_space p' = get_free_space p
  else update_tuple_in_place p (Z.of_nat i) (Some t) (Z.of_nat (length t)) = Ok (p, false).
Proof.
  intros (slots & lower & Hok & ->) Ht. unfold same_size. rewrite list_lookup_fmap.
  destruct (slots !! i) as [e|] eqn:Hi; cbn [fmap option_fmap option_map mjoin option_join].
  2:{ unfold update_tuple_in_place. by rewrite (is_slot_live_ok _ _ _ _ Hok), Hi. }
  unfold entry_tuple at 1. destruct (entry_live e) eqn:Hlive.
  2:{ unfold update_tuple_in_place. rewrite (is_slot_live_ok _ _ _ _ Hok), Hi. cbn. by rewrite Hlive. }
  destruct (ok_range _ _ _ _ Hok i e Hi) as (? & ? & Hr). specialize (Hr Hlive).
  pose proof (ok_order _ _ _ _ Hok). pose proof (ok_length _ _ _ _ Hok).
  rewrite length_slice by lia. destruct (Nat.eqb_spec (Z.to_nat e.2) (length t)) as [Heq|Hne].
  - assert (Hlen : e.2 = Z.of_nat (length t)) by lia.
    eexists. split; [by eapply update_tuple_eq|]. split; [by eapply updated_rep|].
    pose proof (updated_ok _ _ _ _ _ _ _ Hok Hi Hlive Hlen Ht) as Hok'. unfold get_free_space.
    by rewrite (ok_lower _ _ _ _ Hok), (ok_upper _ _ _ _ Hok), (ok_lower _ _ _ _ Hok'),
      (ok_upper _ _ _ _ Hok').
  - unfold update_tuple_in_place. rewrite (is_slot_live_ok _ _ _ _ Hok), Hi.
    cbn [mbind res_bind from_option]. rewrite Hlive, (read_slot_ok _ _ _ _ Hok _ _ Hi).
    destruct e as [off len]. cbn [negb mbind res_bind fst snd] in *.
    by rewrite (proj2 (Z.eqb_neq _ _)) by lia.
Qed.

(** ** Histories of a page *)

Inductive page_op : Type :=
  | PInsert (t : list Z)
  | PDelete (i : nat)
  | PUpdate (i : nat) (t : list Z)
  | PRead (i : nat)
  | PFree.

Inductive page_reply : Type :=
  | RSlot (r : res Z)
  | RDone (r : res unit)
  | RUpdated (r : res bool)
  | RTuple (r : res (option (list Z)))
  | RFree (n : Z).

(** One call on the page; an exception leaves the page as it was. *)
Definition page_step (p : page) (op : page_op) : page * page_reply :=
  match op with
  | PInsert t =>
      match insert_tuple p (Some t) (Z.of_nat (length t)) with
      | Ok (p', slot) => (p', RSlot (Ok slot))
      | Throw e => (p, RSlot (Throw e)) | UB => (p, RSlot UB)
      end
  | PDelete i =>
      match delete_tuple p (Z.of_nat i) with
      | Ok p' => (p', RDone (Ok tt))
      | Throw e => (p, RDone (Throw e)) | UB => (p, RDone UB)
      end
  | PUpdate i t =>
      match update_tuple_in_place p (Z.of_nat i) (Some t) (Z.of_nat (length t)) with
      | Ok (p', b) => (p', RUpdated (Ok b))
      | Throw e => (p, RUpdated (Throw e)) | UB => (p, RUpdated UB)
      end
  | PRead i => (p, RTuple (read_tuple p (Z.of_nat i)))
  | PFree => (p, RFree (get_free_space p))
  end.

(** The specification: an array of tuples and the bytes left. *)
Definition spec_step (s : list (option (list Z)) * Z) (op : page_op)
    : (list (option (list Z)) * Z) * page_reply :=
  let '(ts, free) := s in
  match op with
  | PInsert t =>
      let need := Z.of_nat (length t) + 4 in
      if free <? need then (s, RSlot (Throw (StorageException "Tuple does not fit on page")))
      else ((ts ++ [stored t], free - need), RSlot (Ok (Z.of_nat (length ts))))
  | PDelete i =>
      if (i <? length ts)%nat then ((<[i := None]> ts, free), RDone (Ok tt))
      else (s, RDone (Throw (StorageException "Invalid slot index")))
  | PUpdate i t =>
      if same_size ts i t then ((<[i := Some t]> ts, free), RUpdated (Ok true))
      else (s, RUpdated (Ok false))
  | PRead i => (s, RTuple (Ok (mjoin (ts !! i))))
  | PFree => (s, RFree free)
  end.

Fixpoint run {S Op Reply} (step : S → Op → S * Reply) (s : S) (ops : list Op) : list Reply :=
  match ops with
  | [] => []
  | op :: ops => let '(s', r) := step s op in r :: run step s' ops
  end.

(** Two machines related by a simulation answer alike. *)
Lemma run_sim {S T Op Reply} (f : S → Op → S * Reply) (g : T → Op → T * Reply)
    (R : S → T → Prop) (P : Op → Prop) :
  (∀ s t op, R s t → P op → (f s op).2 = (g t op).2 ∧ R (f s op).1 (g t op).1) →
  ∀ ops s t, R s t → Forall P ops → run f s ops = run g t ops.
Proof.
  intros Hstep ops. induction ops as [|op ops IH]; intros s t HR HP; [done|].
  apply Forall_cons_iff in HP as [Hp HP]. cbn. specialize (Hstep s t op HR Hp).
  destruct (f s op), (g t op). cbn in Hstep. destruct Hstep as [-> HR']. f_equal. by apply IH.
Qed.

Definition op_bytes (op : page_op) : Prop :=
  match op with PInsert t | PUpdate _ t => Forall is_u8 t | _ => True end.

Definition page_sim (id : Z) (p : page) (s : list (option (list Z)) * Z) : Prop :=
  page_rep p id s.1 ∧ get_free_space p = s.2.

Lemma page_step_sim id p s op :
  page_sim id p s → op_bytes op →
  (page_step p op).2 = (spec_step s op).2 ∧ page_sim id (page_step p op).1 (spec_step s op).1.
Proof.
  intros [Hrep Hfree] Hop. destruct s as [ts free]. cbn [fst snd] in *. subst free.
  unfold page_sim. destruct op as [t|i|i t|i|]; cbn [page_step spec_step].
  - pose proof (page_rep_insert _ _ _ t Hrep Hop) as H.
    destruct (_ <? _); [by rewrite H|]. destruct H as (p' & -> & ? & ?). done.
  - destruct (Nat.ltb_spec i (length ts)) as [Hi|Hi].
    + destruct (page_rep_delete _ _ _ _ Hrep Hi) as (p' & -> & ? & ?). done.
    + by rewrite (delete_tuple_invalid _ _ _ _ Hrep Hi).
  - pose proof (page_rep_update _ _ _ i t Hrep Hop) as H.
    destruct (same_size ts i t); [|by rewrite H]. destruct H as (p' & -> & ? & ?). done.
  - by rewrite (page_rep_read _ _ _ _ Hrep).
  - done.
Qed.

(** C3. every history of calls on a page created by [Page(page_id)] is
    answered exactly as by an array of tuples with a budget of 8180 bytes, in
    which a tuple takes its length and four bytes: inserted tuples are read
    back whole, a deletion or an in-place update touches no other slot, calls
    fail exactly when the array's would, and no call leaves the buffer. *)
Theorem page_history_refines id ops :
  is_u32 id → Forall op_bytes ops →
  run page_step (initialize id) ops = run spec_step ([], 8180) ops.
Proof.
  intros Hid Hops.
  assert (Hsim : page_sim id (initialize id) ([], 8180)).
  { split; [by apply page_rep_init|]. pose proof (initialize_ok id Hid) as Hok.
    unfold get_free_space. by rewrite (ok_lower _ _ _ _ Hok), (ok_upper _ _ _ _ Hok). }
  revert Hsim. generalize (initialize id) as p, (([], 8180) : list (option (list Z)) * Z) as s.
  induction Hops as [|op ops Hop Hops IH]; intros p s Hsim; cbn [run]; [done|].
  destruct (page_step_sim id p s op Hsim Hop) as [H1 H2].
  destruct (page_step p op) as [p' r], (spec_step s op) as [s' r']. cbn in *. subst r'.
  f_equal. by apply IH.
Qed.

Lemma page_history_refines_witness :
  run page_step (initialize 3)
    [PInsert [1; 2; 3]; PInsert [9]; PUpdate 0 [4; 5; 6]; PUpdate 1 [4; 5]; PDelete 1;
     PRead 0; PRead 1; PDelete 7; PFree]
  = [RSlot (Ok 0); RSlot (Ok 1); RUpdated (Ok true); RUpdated (Ok false); RDone (Ok tt);
     RTuple (Ok (Some [4; 5; 6])); RTuple (Ok None);
     RDone (Throw (StorageException "Invalid slot index")); RFree 8168].
Proof.
  rewrite page_history_refines; [vm_compute; reflexivity|split; [done|reflexivity]|].
  repeat constructor; cbn; done.
Defined.
