(* ===== verification/PageStore.v ===== *)
(** * Page stores

    The [IPageStore] interface (include/storage/page_store.h) as a class with
    the contract its clients rely on, and the two implementations of
    src/storage/page_store.cc: [MemoryPageStore], a vector of pages, and
    [FilePageStore], the page region of a file after a byte offset.  The file
    is an optional byte sequence; what the operating system lets the store do with it
    (make directories, create, open for reading and for writing, store bytes) is a
    state of the disk, and a write stores all of its bytes or none. *)

From Stdlib Require Import ZArith Lia Ascii.
From S2P Require Import Prelude Page.

Definition page_size : nat := Z.to_nat kPageSize.
Definition zero_page : page := replicate page_size 0.
Definition is_page (p : page) : Prop := length p = page_size.
#[export] Instance is_page_dec p : Decision (is_page p).
Proof. unfold is_page. apply _. Defined.

Lemma is_page_zero : is_page zero_page.
Proof. apply length_replicate. Qed.

Lemma Z_page_size : Z.of_nat page_size = 8192.
Proof. reflexivity. Qed.
#[global] Opaque page_size.

Lemma is_page_Z p : is_page p ↔ Z.of_nat (length p) = kPageSize.
Proof. unfold is_page, kPageSize. pose proof Z_page_size. lia. Qed.

Definition bad_page_id : exn := StorageException "Page id out of range".
Definition bad_page_size : exn := StorageException "Invalid page size in replace_pages".

(** ** The interface *)

Class PageStore (S : Type) : Type := {
  ps_read_page : S → Z → res page;
  ps_write_page : S → Z → page → S * res unit;
  ps_allocate_page : S → S * res Z;
  ps_page_count : S → Z;
  ps_replace_pages : S → list page → S * res unit;
  ps_export_pages : S → res (list page)
}.

(** The contract: a store in a valid state is a list of pages of full size,
    fewer than 2^32 of them, and the operations act on that list. *)
Class PageStoreSpec (S : Type) {PS : PageStore S} : Type := {
  ps_ok : S → Prop;
  ps_pages : S → list page;
  ps_ok_pages s : ps_ok s → Forall is_page (ps_pages s) ∧ Z.of_nat (length (ps_pages s)) < 2 ^ 32;
  ps_page_count_ok s : ps_ok s → ps_page_count s = Z.of_nat (length (ps_pages s));
  ps_read_page_ok s i : ps_ok s →
    ps_read_page s (Z.of_nat i) =
    match ps_pages s !! i with Some p => Ok p | None => Throw bad_page_id end;
  ps_write_page_ok s i p : ps_ok s → is_page p → (i < length (ps_pages s))%nat →
    ∃ s', ps_write_page s (Z.of_nat i) p = (s', Ok tt) ∧ ps_ok s' ∧ ps_pages s' = <[i := p]> (ps_pages s);
  ps_write_page_bad s i p : ps_ok s → (length (ps_pages s) ≤ i)%nat →
    ps_write_page s (Z.of_nat i) p = (s, Throw bad_page_id);
  ps_allocate_page_ok s : ps_ok s → Z.of_nat (length (ps_pages s)) + 1 < 2 ^ 32 →
    ∃ s', ps_allocate_page s = (s', Ok (Z.of_nat (length (ps_pages s)))) ∧ ps_ok s' ∧
          ps_pages s' = ps_pages s ++ [zero_page];
  ps_replace_pages_ok s ps : ps_ok s → Forall is_page ps → Z.of_nat (length ps) < 2 ^ 32 →
    ∃ s', ps_replace_pages s ps = (s', Ok tt) ∧ ps_ok s' ∧ ps_pages s' = ps;
  ps_export_pages_ok s : ps_ok s → ps_export_pages s = Ok (ps_pages s)
}.

(** ** In memory *)

Module MemoryPageStore.
Abbreviation t := (list page).

Definition read_page (s : t) (page_id : Z) : res page :=
    match s !! Z.to_nat page_id with
    | None => Throw bad_page_id
    | Some p => read_buf p 0 kPageSize
    end.

Definition write_page (s : t) (page_id : Z) (bytes : page) : t * res unit :=
    match s !! Z.to_nat page_id with
    | None => (s, Throw bad_page_id)
    | Some p =>
        match (src ← read_buf bytes 0 kPageSize; write_buf p 0 src) with
        | Ok p' => (<[Z.to_nat page_id := p']> s, Ok tt)
        | Throw e => (s, Throw e)
        | UB => (s, UB)
        end
    end.

Definition allocate_page (s : t) : t * res Z :=
    (s ++ [zero_page], Ok (u_wrap 32 (Z.of_nat (length s)))).

Definition page_count (s : t) : Z := u_wrap 32 (Z.of_nat (length s)).

(** The pages pushed before a page of the wrong size stay in the store. *)
Fixpoint push_pages (s : t) (ps : list page) : t * res unit :=
    match ps with
    | [] => (s, Ok tt)
    | p :: ps => if bool_decide (is_page p) then push_pages (s ++ [p]) ps else (s, Throw bad_page_size)
    end.
Definition replace_pages (s : t) (ps : list page) : t * res unit := push_pages [] ps.

Definition export_pages (s : t) : res (list page) := Ok s.

#[global] Instance store : PageStore t := {|
    ps_read_page := read_page; ps_write_page := write_page;
    ps_allocate_page := allocate_page; ps_page_count := page_count;
    ps_replace_pages := replace_pages; ps_export_pages := export_pages
  |}.

Definition ok (s : t) : Prop := Forall is_page s ∧ Z.of_nat (length s) < 2 ^ 32.

Lemma read_whole p : is_page p → read_buf p 0 kPageSize = Ok p.
Proof.
    intros Hp%is_page_Z. rewrite read_buf_ok by lia. f_equal.
    unfold slice. change (Z.to_nat 0) with 0%nat. cbn [drop]. apply take_ge. lia.
Qed.

Lemma write_whole p q : is_page p → is_page q → write_buf p 0 q = Ok q.
Proof.
    intros Hp%is_page_Z Hq%is_page_Z. rewrite write_buf_ok by lia. f_equal. unfold splice.
    change (Z.to_nat 0) with 0%nat. cbn [take app]. rewrite drop_ge, app_nil_r; [done|]. lia.
Qed.

Lemma push_pages_ok ps : ∀ s, Forall is_page ps → push_pages s ps = (s ++ ps, Ok tt).
Proof.
    induction ps as [|p ps IH]; intros s Hps; cbn; [by rewrite app_nil_r|].
    apply Forall_cons_iff in Hps as [Hp Hps]. rewrite bool_decide_eq_true_2 by done.
    rewrite IH by done. by rewrite <- app_assoc.
Qed.

#[global] Program Instance spec : PageStoreSpec t := {|
    ps_ok := ok; ps_pages := λ s, s
  |}.
  Next Obligation. done. Qed.
  Next Obligation. intros s [_ Hlen]. cbn. unfold page_count, u_wrap. apply Z.mod_small. lia. Qed.
  Next Obligation.
    intros s i [Hs _]. cbn. unfold read_page. rewrite Nat2Z.id.
    destruct (s !! i) as [p|] eqn:Hi; [|done]. apply read_whole.
    rewrite Forall_lookup in Hs. eauto.
Qed.
  Next Obligation.
    intros s i p [Hs Hlen] Hp Hi. cbn in *. unfold write_page in *. rewrite Nat2Z.id.
    apply lookup_lt_is_Some in Hi as [q Hq]. rewrite Hq, read_whole by done.
    cbn [mbind res_bind]. rewrite write_whole by (rewrite Forall_lookup in Hs; eauto).
    eexists. split; [done|]. split; [|done].
    split; [by apply Forall_insert|by rewrite length_insert].
Qed.
  Next Obligation.
    intros s i p _ Hi. cbn in *. unfold write_page in *. rewrite Nat2Z.id.
    by rewrite (proj2 (lookup_ge_None _ _)).
Qed.
  Next Obligation.
    intros s [Hs Hlen] Hl. cbn in *. unfold allocate_page in *. eexists. split.
    { unfold u_wrap. rewrite Z.mod_small by lia. done. }
    split; [|done]. split.
    - apply Forall_app. split; [done|]. constructor; [apply is_page_zero|constructor].
    - rewrite length_app. cbn. lia.
Qed.
  Next Obligation.
    intros s ps _ Hps Hlen. cbn. unfold replace_pages. rewrite push_pages_ok by done.
    eexists. done.
Qed.
  Next Obligation. done. Qed.
End MemoryPageStore.

(** ** In a file *)

Module FilePageStore.
(** What works on the disk. *)
Record Disk : Type := mkDisk {
    makes_directories : bool;
    creates : bool;
    opens_to_read : bool;
    opens_to_update : bool;
    stores_bytes : bool
  }.
Definition working : Disk := mkDisk true true true true true.

Record t : Type := mk {
    path : string;
    file : option (list Z);
    pages_offset : Z;
    page_count_ : Z;
    disk : Disk
  }.

(** [seekp] and [write]: the file grows with zero bytes up to the offset. *)
Definition file_write (content : list Z) (off : nat) (bs : list Z) : list Z :=
    take off (content ++ replicate (off - length content) 0) ++ bs ++ drop (off + length bs) content.

Definition page_offset (s : t) (page_id : Z) : Z := pages_offset s + page_id * kPageSize.

Definition set_content (s : t) (content : list Z) : t :=
    mk (path s) (Some content) (pages_offset s) (page_count_ s) (disk s).
Definition set_count (s : t) (n : Z) : t := mk (path s) (file s) (pages_offset s) n (disk s).

(** [fs::path(path_).parent_path()] is not empty. *)
Definition has_parent (p : string) : bool := existsb (Ascii.eqb "/"%char) (String.list_ascii_of_string p).

(** [std::ifstream file(path_)], [std::fstream file(path_, in | out)]. *)
Definition open_to_read (s : t) : option (list Z) := if opens_to_read (disk s) then file s else None.
Definition open_to_update (s : t) : option (list Z) := if opens_to_update (disk s) then file s else None.
(** A write to an open file; on a disk that stores nothing it leaves the file alone. *)
Definition written (s : t) (content : list Z) (off : Z) (bs : list Z) : t :=
    set_content s (if stores_bytes (disk s) then file_write content (Z.to_nat off) bs else content).

(** A file that cannot be opened is created, or emptied; then it is extended, unchecked. *)
Definition ensure_file_size (s : t) (min_pages : Z) : t * res unit :=
    let needed := pages_offset s + min_pages * kPageSize in
    if has_parent (path s) && negb (makes_directories (disk s)) then
      (s, Throw (std_runtime_error ("filesystem error: cannot create directories: " +:+ path s)))
    else
      let extend s content :=
        (if Z.of_nat (length content) <? needed then written s content (needed - 1) [0] else s, Ok tt) in
      match open_to_update s with
      | Some content => extend s content
      | None =>
          if negb (creates (disk s)) then (s, Throw (StorageException ("Cannot create page file: " +:+ path s)))
          else
            let s := set_content s [] in
            match open_to_update s with
            | Some content => extend s content
            | None => (s, Throw (StorageException ("Cannot open page file: " +:+ path s)))
            end
      end.

Definition read_at (content : list Z) (off : Z) (error : exn) : res page :=
    if Z.of_nat (length content) <? off + kPageSize then Throw error
    else Ok (slice (Z.to_nat off) page_size content).

Definition read_page (s : t) (page_id : Z) : res page :=
    if page_count_ s <=? page_id then Throw bad_page_id
    else match open_to_read s with
    | None => Throw (StorageException ("Cannot open page file for read: " +:+ path s))
    | Some content =>
        read_at content (page_offset s page_id) (StorageException ("Failed to read page from " +:+ path s))
    end.

(** The page written through a stream that is opened for it. *)
Definition write_content (s : t) (page_id : Z) (bytes : page) (error : string) : res t :=
    match open_to_update s with
    | None => Throw (StorageException (error +:+ path s))
    | Some content =>
        src ← read_buf bytes 0 kPageSize;
        mret (written s content (page_offset s page_id) src)
    end.

Definition write_page (s : t) (page_id : Z) (bytes : page) : t * res unit :=
    if page_count_ s <=? page_id then (s, Throw bad_page_id)
    else
      match ensure_file_size s (page_count_ s) with
      | (s, Ok _) =>
          match write_content s page_id bytes "Cannot open page file for write: " with
          | Ok s' =>
              (s', if stores_bytes (disk s') then Ok tt else Throw (StorageException ("Failed to write page to " +:+ path s')))
          | Throw e => (s, Throw e)
          | UB => (s, UB)
          end
      | r => r
      end.

(** The count is raised first, and the write is not checked. *)
Definition allocate_page (s : t) : t * res Z :=
    let id := page_count_ s in
    let s := set_count s (u_wrap 32 (id + 1)) in
    match ensure_file_size s (page_count_ s) with
    | (s, Ok _) =>
        match write_content s id zero_page "Cannot open page file to allocate: " with
        | Ok s' => (s', Ok id)
        | Throw e => (s, Throw e)
        | UB => (s, UB)
        end
    | (s, Throw e) => (s, Throw e)
    | (s, UB) => (s, UB)
    end.

Definition page_count (s : t) : Z := page_count_ s.

Fixpoint write_pages (s : t) (i : Z) (ps : list page) : t * res unit :=
    match ps with
    | [] => (s, Ok tt)
    | p :: ps =>
        if bool_decide (is_page p) then
          match write_content s i p "Cannot open page file for replace: " with
          | Ok s' => write_pages s' (i + 1) ps
          | Throw e => (s, Throw e)
          | UB => (s, UB)
          end
        else (s, Throw bad_page_size)
    end.

Definition replace_pages (s : t) (ps : list page) : t * res unit :=
    let s := set_count s (u_wrap 32 (Z.of_nat (length ps))) in
    match ensure_file_size s (page_count_ s) with
    | (s, Ok _) =>
        match open_to_update s with
        | None => (s, Throw (StorageException ("Cannot open page file for replace: " +:+ path s)))
        | Some _ => write_pages s 0 (take (Z.to_nat (page_count_ s)) ps)
        end
    | r => r
    end.

Definition export_pages (s : t) : res (list page) :=
    match open_to_read s with
    | None => Throw (StorageException ("Cannot open page file for export: " +:+ path s))
    | Some content =>
        res_map (λ i, read_at content (page_offset s (Z.of_nat i))
                   (StorageException ("Failed to export page from " +:+ path s)))
          (seq 0 (Z.to_nat (page_count_ s)))
    end.

#[global] Instance store : PageStore t := {|
    ps_read_page := read_page; ps_write_page := write_page;
    ps_allocate_page := allocate_page; ps_page_count := page_count;
    ps_replace_pages := replace_pages; ps_export_pages := export_pages
  |}.

(** The disk works, and the file holds the whole page region. *)
Definition ok (s : t) : Prop :=
    disk s = working ∧
    match file s with
    | Some content =>
        0 ≤ pages_offset s ∧ 0 ≤ page_count_ s < 2 ^ 32 ∧
        pages_offset s + page_count_ s * kPageSize ≤ Z.of_nat (length content)
    | None => False
    end.

Definition page_of (content : list Z) (offset : Z) (i : nat) : page :=
    slice (Z.to_nat (offset + Z.of_nat i * kPageSize)) page_size content.
Definition pages (s : t) : list page :=
    page_of (default [] (file s)) (pages_offset s) <$> seq 0 (Z.to_nat (page_count_ s)).

Lemma file_write_splice content off bs :
    (off + length bs ≤ length content)%nat → file_write content off bs = splice off bs content.
Proof.
    intros H. unfold file_write, splice. rewrite take_app_le by lia. done.
Qed.

Lemma file_write_extend content off :
    (length content ≤ off)%nat →
    file_write content off [0] = content ++ replicate (off - length content) 0 ++ [0].
Proof.
    intros H. unfold file_write. rewrite take_ge by (rewrite length_app, length_replicate; lia).
    rewrite (drop_ge content) by (cbn; lia). by rewrite <- app_assoc.
Qed.

Lemma set_content_self s content : file s = Some content → set_content s content = s.
Proof. destruct s. cbn. by intros ->. Qed.

Lemma ensure_file_size_ok s content n :
    disk s = working → file s = Some content → 0 ≤ pages_offset s → 0 ≤ n →
    ∃ extra, ensure_file_size s n = (set_content s (content ++ extra), Ok tt) ∧
      pages_offset s + n * kPageSize ≤ Z.of_nat (length (content ++ extra)) ∧
      (pages_offset s + n * kPageSize ≤ Z.of_nat (length content) → extra = []).
Proof.
    intros Hd Hf Ho Hn. unfold ensure_file_size, open_to_update, written, kPageSize in *. rewrite Hd, Hf, andb_false_r.
    cbn [working opens_to_update stores_bytes].
    destruct (Z.ltb_spec (Z.of_nat (length content)) (pages_offset s + n * 8192)).
    - rewrite file_write_extend by lia. eexists. split; [done|].
      rewrite !length_app, length_replicate. cbn [length]. lia.
    - exists []. rewrite app_nil_r, set_content_self by done. done.
Qed.

Lemma page_of_app content extra offset i :
    0 ≤ offset → offset + (Z.of_nat i + 1) * kPageSize ≤ Z.of_nat (length content) →
    page_of (content ++ extra) offset i = page_of content offset i.
Proof.
    intros. pose proof Z_page_size. unfold kPageSize, page_of, slice in *.
    unfold kPageSize. rewrite drop_app_le by lia. rewrite take_app_le; [done|].
    rewrite length_drop. lia.
Qed.

Lemma is_page_of content offset i :
    0 ≤ offset → offset + (Z.of_nat i + 1) * kPageSize ≤ Z.of_nat (length content) →
    is_page (page_of content offset i).
Proof.
    intros. unfold is_page, page_of. apply length_slice.
    pose proof Z_page_size. unfold kPageSize in *. lia.
Qed.

Lemma page_of_splice content offset i j p :
    0 ≤ offset → is_page p → offset + (Z.of_nat i + 1) * kPageSize ≤ Z.of_nat (length content) →
    page_of (splice (Z.to_nat (offset + Z.of_nat i * kPageSize)) p content) offset j =
    if decide (j = i) then p else page_of content offset j.
Proof.
    intros Ho Hp Hc. pose proof Z_page_size. unfold is_page, kPageSize in *. case_decide as Hj.
    - subst j. unfold page_of, kPageSize. rewrite <- Hp. apply slice_splice_same. lia.
    - unfold page_of, kPageSize. apply slice_splice_other; lia.
Qed.

Lemma write_content_ok s content i p msg :
    disk s = working → file s = Some content → 0 ≤ pages_offset s → is_page p →
    pages_offset s + (Z.of_nat i + 1) * kPageSize ≤ Z.of_nat (length content) →
    write_content s (Z.of_nat i) p msg =
    Ok (set_content s (splice (Z.to_nat (pages_offset s + Z.of_nat i * kPageSize)) p content)).
Proof.
    intros Hd Hf Ho Hp Hc. unfold write_content, open_to_update, written. rewrite Hd, Hf, MemoryPageStore.read_whole by done.
    cbn [mbind res_bind working opens_to_update stores_bytes]. unfold page_offset. rewrite file_write_splice; [done|].
    apply is_page_Z in Hp. unfold kPageSize in *. lia.
Qed.

Lemma length_pages s : length (pages s) = Z.to_nat (page_count_ s).
Proof. unfold pages. by rewrite length_fmap, length_seq. Qed.

Lemma lookup_pages s i :
    pages s !! i = if decide (i < Z.to_nat (page_count_ s))%nat
                   then Some (page_of (default [] (file s)) (pages_offset s) i) else None.
Proof.
    unfold pages. rewrite list_lookup_fmap. case_decide.
    - by rewrite lookup_seq_lt by lia.
    - by rewrite lookup_seq_ge by lia.
Qed.

Lemma write_pages_ok ps : ∀ s i content,
    disk s = working → file s = Some content → 0 ≤ pages_offset s → Forall is_page ps →
    pages_offset s + (Z.of_nat i + Z.of_nat (length ps)) * kPageSize ≤ Z.of_nat (length content) →
    ∃ content', write_pages s (Z.of_nat i) ps = (set_content s content', Ok tt) ∧
      length content' = length content ∧
      ∀ j, page_of content' (pages_offset s) j =
        if decide (i ≤ j)%nat then default (page_of content (pages_offset s) j) (ps !! (j - i)%nat)
        else page_of content (pages_offset s) j.
Proof.
    induction ps as [|p ps IH]; intros s i content Hd Hf Ho Hps Hc; cbn [write_pages].
    { exists content. split; [destruct s; cbn in *; by subst|]. split; [done|].
      intros j. by case_decide. }
    apply Forall_cons_iff in Hps as [Hp Hps]. rewrite bool_decide_eq_true_2 by done.
    cbn [length] in Hc. assert (HpZ : Z.of_nat (length p) = kPageSize) by (by apply is_page_Z).
    assert (Hc1 : pages_offset s + (Z.of_nat i + 1) * kPageSize ≤ Z.of_nat (length content))
      by (unfold kPageSize in *; lia).
    rewrite (write_content_ok s content) by done.
    replace (Z.of_nat i + 1) with (Z.of_nat (S i)) by lia.
    set (content1 := splice _ p content).
    assert (Hl1 : length content1 = length content)
      by (apply length_splice; unfold kPageSize in *; lia).
    destruct (IH (set_content s content1) (S i) content1) as (c' & -> & Hl & Hj); try done.
    { cbn. rewrite Hl1. unfold kPageSize in *. lia. }
    exists c'. split; [done|]. split; [lia|]. intros j. rewrite Hj. cbn [pages_offset set_content].
    unfold content1. rewrite page_of_splice by done.
    destruct (decide (S i ≤ j)%nat), (decide (i ≤ j)%nat); try lia.
    - rewrite decide_False by lia. by replace (j - i)%nat with (S (j - S i)) by lia.
    - rewrite decide_True by lia. by replace (j - i)%nat with 0%nat by lia.
    - by rewrite decide_False by lia.
Qed.

Lemma ok_page_bound s content i :
    file s = Some content → ok s → (i < Z.to_nat (page_count_ s))%nat →
    0 ≤ pages_offset s ∧ pages_offset s + (Z.of_nat i + 1) * kPageSize ≤ Z.of_nat (length content).
Proof.
    intros Hf [_ Hok] Hi. rewrite Hf in Hok. unfold kPageSize in *. lia.
Qed.

Lemma read_at_ok s content i error :
    file s = Some content → ok s → (i < Z.to_nat (page_count_ s))%nat →
    read_at content (page_offset s (Z.of_nat i)) error = Ok (page_of content (pages_offset s) i).
Proof.
    intros Hf Hok Hi. destruct (ok_page_bound _ _ _ Hf Hok Hi). unfold read_at, page_offset.
    by rewrite (proj2 (Z.ltb_ge _ _)) by (unfold kPageSize in *; lia).
Qed.

(** A valid store has its file. *)
Lemma ok_file s : ok s → ∃ content, disk s = working ∧ file s = Some content ∧ 0 ≤ pages_offset s ∧
    0 ≤ page_count_ s < 2 ^ 32 ∧ pages_offset s + page_count_ s * kPageSize ≤ Z.of_nat (length content).
Proof. intros [Hd Hok]. destruct (file s) as [content|]; [|done]. by exists content. Qed.

Lemma write_ok s i p :
    ok s → is_page p → (i < Z.to_nat (page_count_ s))%nat →
    ∃ s', write_page s (Z.of_nat i) p = (s', Ok tt) ∧ ok s' ∧ pages s' = <[i := p]> (pages s).
Proof.
    intros Hok Hp Hi. destruct (ok_file s Hok) as (content & Hd & Hf & _ & Hcnt & Hlen).
    destruct (ok_page_bound _ _ _ Hf Hok Hi) as [Ho Hb].
    unfold write_page. rewrite (proj2 (Z.leb_gt _ _)) by lia.
    destruct (ensure_file_size_ok s content (page_count_ s)) as (extra & -> & _ & Hx); [done..|lia|].
    rewrite (Hx Hlen), app_nil_r, set_content_self by done.
    rewrite (write_content_ok s content) by done.
    cbn [disk set_content]. rewrite Hd. cbn [working stores_bytes]. eexists. split; [done|].
    assert (HpZ : Z.of_nat (length p) = kPageSize) by (by apply is_page_Z).
    split.
    { unfold ok. cbn. split; [done|]. rewrite length_splice by (unfold kPageSize in *; lia). done. }
    apply list_eq. intros j. rewrite lookup_pages. cbn [page_count_ set_content file default from_option id pages_offset].
    rewrite list_lookup_insert, length_pages, lookup_pages. rewrite Hf. cbn [default from_option id].
    rewrite page_of_splice by done. repeat case_decide; try done; try lia; naive_solver.
Qed.

Lemma allocate_ok s :
    ok s → page_count_ s + 1 < 2 ^ 32 →
    ∃ s', allocate_page s = (s', Ok (page_count_ s)) ∧ ok s' ∧ pages s' = pages s ++ [zero_page].
Proof.
    intros Hok Hlt. destruct (ok_file s Hok) as (content & Hd & Hf & Ho & Hcnt & Hlen).
    unfold allocate_page, u_wrap. rewrite Z.mod_small by lia.
    destruct (ensure_file_size_ok (set_count s (page_count_ s + 1)) content (page_count_ s + 1))
      as (extra & He & Hle & _); [done..|lia|].
    cbn [page_count_ set_count pages_offset file] in *. rewrite He.
    set (s1 := set_content _ (content ++ extra)).
    pose proof (write_content_ok s1 (content ++ extra) (Z.to_nat (page_count_ s)) zero_page
      "Cannot open page file to allocate: " Hd eq_refl Ho is_page_zero) as Hw.
    rewrite Z2Nat.id in Hw by lia. rewrite Hw by (cbn; unfold kPageSize in *; lia). clear Hw.
    eexists. split; [done|].
    pose proof (proj1 (is_page_Z _) is_page_zero) as Hz. split.
    { unfold ok. cbn. split; [done|]. rewrite length_splice by (unfold kPageSize in *; lia).
      unfold kPageSize in *. lia. }
    apply list_eq. intros j. rewrite lookup_pages. unfold s1.
    cbn [page_count_ set_content set_count file default from_option id pages_offset].
    replace (page_count_ s * kPageSize) with (Z.of_nat (Z.to_nat (page_count_ s)) * kPageSize) by lia.
    rewrite page_of_splice by (try done; try apply is_page_zero; unfold kPageSize in *; lia).
    destruct (decide (j < Z.to_nat (page_count_ s))%nat).
    - rewrite decide_True, decide_False by lia.
      rewrite lookup_app_l by (rewrite length_pages; lia).
      rewrite lookup_pages, decide_True, Hf by lia. cbn [default from_option id].
      f_equal. apply page_of_app; [done|]. unfold kPageSize in *. lia.
    - rewrite lookup_app_r by (rewrite length_pages; lia). rewrite length_pages.
      case_decide.
      + rewrite decide_True by lia. by replace (j - _)%nat with 0%nat by lia.
      + symmetry. apply lookup_ge_None. cbn. lia.
Qed.

Lemma replace_ok s ps :
    ok s → Forall is_page ps → Z.of_nat (length ps) < 2 ^ 32 →
    ∃ s', replace_pages s ps = (s', Ok tt) ∧ ok s' ∧ pages s' = ps.
Proof.
    intros Hok Hps Hlt. destruct (ok_file s Hok) as (content & Hd & Hf & Ho & Hcnt & Hlen).
    unfold replace_pages, u_wrap. rewrite Z.mod_small by lia.
    destruct (ensure_file_size_ok (set_count s (Z.of_nat (length ps))) content (Z.of_nat (length ps)))
      as (extra & He & Hle & _); [done..|lia|].
    cbn [page_count_ set_count pages_offset file] in *. rewrite He.
    unfold open_to_update. cbn [disk set_content set_count file page_count_]. rewrite Hd. cbn [working opens_to_update].
    rewrite firstn_all2 by lia.
    destruct (write_pages_ok ps (set_content (set_count s (Z.of_nat (length ps))) (content ++ extra))
      0 (content ++ extra)) as (c' & Hw & Hl & Hj); try done.
    change (Z.of_nat 0) with 0 in Hw. rewrite Hw. eexists. split; [done|]. split.
    { unfold ok. cbn. split; [done|]. rewrite Hl. lia. }
    apply list_eq. intros j. rewrite lookup_pages.
    cbn [page_count_ set_content set_count file default from_option id pages_offset] in *.
    rewrite Nat2Z.id, Hj. case_decide as Hlt'.
    - apply lookup_lt_is_Some in Hlt' as [q Hq].
      rewrite decide_True, Nat.sub_0_r by lia. by rewrite Hq.
    - symmetry. apply lookup_ge_None. lia.
Qed.

Lemma res_map_ok {A B} (f : A → res B) (g : A → B) l :
    Forall (λ x, f x = Ok (g x)) l → res_map f l = Ok (g <$> l).
Proof. induction 1 as [|x l Hx Hl IH]; cbn; [done|]. by rewrite Hx, IH. Qed.

Lemma export_ok s : ok s → export_pages s = Ok (pages s).
Proof.
    intros Hok. destruct (ok_file s Hok) as (content & Hd & Hf & _).
    unfold export_pages, open_to_read, pages. rewrite Hd, Hf. cbn [working opens_to_read default from_option id].
    apply res_map_ok, Forall_forall. intros i Hi%elem_of_seq. by apply read_at_ok; [| |lia].
Qed.

#[global] Program Instance spec : PageStoreSpec t := {| ps_ok := ok; ps_pages := pages |}.
  Next Obligation.
    intros s Hok. cbn. rewrite length_pages. destruct (ok_file s Hok) as (content & _ & Hf & ? & ? & ?). split; [|lia].
    apply Forall_lookup. intros i p. rewrite lookup_pages, Hf. case_decide as Hi; [|done].
    intros [= <-]. destruct (ok_page_bound _ _ _ Hf Hok Hi). by apply is_page_of.
Qed.
  Next Obligation.
    intros s Hok. cbn. rewrite length_pages. destruct (ok_file s Hok) as (content & _ & _ & _ & ? & _).
    unfold page_count. lia.
Qed.
  Next Obligation.
    intros s i Hok. cbn. rewrite lookup_pages. unfold read_page, open_to_read.
    destruct (ok_file s Hok) as (content & Hd & Hf & _ & ? & _). rewrite Hd, Hf. cbn [working opens_to_read]. case_decide.
    - rewrite (proj2 (Z.leb_gt _ _)) by lia. by apply read_at_ok.
    - by rewrite (proj2 (Z.leb_le _ _)) by lia.
Qed.
  Next Obligation. intros s i p Hok Hp Hi. cbn in *. rewrite length_pages in Hi. by apply write_ok. Qed.
  Next Obligation.
    intros s i p Hok Hi. cbn in *. rewrite length_pages in Hi. unfold write_page.
    destruct (ok_file s Hok) as (content & _ & _ & _ & ? & _). by rewrite (proj2 (Z.leb_le _ _)) by lia.
Qed.
  Next Obligation.
    intros s Hok Hlt. cbn in *. rewrite length_pages in *. destruct (ok_file s Hok) as (content & _ & _ & _ & ? & _).
    rewrite Z2Nat.id in * by lia. by apply allocate_ok.
Qed.
  Next Obligation. apply replace_ok. Qed.
  Next Obligation. apply export_ok. Qed.
End FilePageStore.

(** ** Histories of a store *)

Inductive store_op : Type :=
  | SRead (i : nat)
  | SWrite (i : nat) (p : page)
  | SAllocate
  | SCount
  | SReplace (ps : list page)
  | SExport.

Inductive store_reply : Type :=
  | SRPage (r : res page)
  | SRDone (r : res unit)
  | SRId (r : res Z)
  | SRCount (n : Z)
  | SRPages (r : res (list page)).

Definition store_step {S} `{PageStore S} (s : S) (op : store_op) : S * store_reply :=
  match op with
  | SRead i => (s, SRPage (ps_read_page s (Z.of_nat i)))
  | SWrite i p => let '(s', r) := ps_write_page s (Z.of_nat i) p in (s', SRDone r)
  | SAllocate => let '(s', r) := ps_allocate_page s in (s', SRId r)
  | SCount => (s, SRCount (ps_page_count s))
  | SReplace ps => let '(s', r) := ps_replace_pages s ps in (s', SRDone r)
  | SExport => (s, SRPages (ps_export_pages s))
  end.

(** Calls with full-size pages that keep the number of pages, [n] at first,
    within 32 bits. *)
Fixpoint store_ops_ok (n : Z) (ops : list store_op) : Prop :=
  match ops with
  | [] => True
  | SWrite _ p :: ops => is_page p ∧ store_ops_ok n ops
  | SAllocate :: ops => n + 1 < 2 ^ 32 ∧ store_ops_ok (n + 1) ops
  | SReplace ps :: ops =>
      Forall is_page ps ∧ Z.of_nat (length ps) < 2 ^ 32 ∧ store_ops_ok (Z.of_nat (length ps)) ops
  | _ :: ops => store_ops_ok n ops
  end.

(** Two implementations of the contract that hold the same pages cannot be
    told apart. *)
Lemma stores_indistinguishable {S T} `{PageStoreSpec S} `{PageStoreSpec T} ops :
  ∀ (s : S) (t : T), ps_ok s → ps_ok t → ps_pages s = ps_pages t →
  store_ops_ok (Z.of_nat (length (ps_pages s))) ops →
  run store_step s ops = run store_step t ops.
Proof.
  induction ops as [|op ops IH]; intros s t Hs Ht Heq Hops; [done|].
  destruct op as [i|i p| | |ps|]; cbn [run store_step store_ops_ok] in *.
  - rewrite !ps_read_page_ok, Heq by done. f_equal. by apply IH.
  - destruct Hops as [Hp Hops]. destruct (decide (i < length (ps_pages s))%nat) as [Hi|Hi].
    + destruct (ps_write_page_ok s i p Hs Hp Hi) as (s' & -> & Hs' & Es).
      destruct (ps_write_page_ok t i p Ht Hp) as (t' & -> & Ht' & Et); [by rewrite <- Heq|].
      f_equal. apply IH; [done..| |]; rewrite Es; [by rewrite Et, Heq|by rewrite length_insert].
    + rewrite !ps_write_page_bad by (try done; rewrite <- ?Heq; lia). f_equal. by apply IH.
  - destruct Hops as [Hn Hops]. destruct (ps_allocate_page_ok s Hs Hn) as (s' & -> & Hs' & Es).
    rewrite Heq in Hn. destruct (ps_allocate_page_ok t Ht Hn) as (t' & -> & Ht' & Et).
    rewrite Heq. f_equal. apply IH; [done..| |]; rewrite Es.
    + by rewrite Et, Heq.
    + rewrite length_app. cbn [length]. by rewrite Nat2Z.inj_add.
  - rewrite !ps_page_count_ok, Heq by done. f_equal. by apply IH.
  - destruct Hops as (Hps & Hn & Hops).
    destruct (ps_replace_pages_ok s ps Hs Hps Hn) as (s' & -> & Hs' & Es).
    destruct (ps_replace_pages_ok t ps Ht Hps Hn) as (t' & -> & Ht' & Et).
    f_equal. apply IH; [done..| |]; rewrite Es; [by rewrite Et|done].
  - rewrite !ps_export_pages_ok, Heq by done. f_equal. by apply IH.
Qed.

(** C19. On a working disk a [FilePageStore] opened on a file with an empty page region
    answers every history of calls that pass pages of full size, and keep their number below
    [2^32], exactly as an empty [MemoryPageStore] does: pages written are read back,
    allocation appends a zeroed page, a page id beyond the count is refused, and the bytes
    before the region and the growth of the file are never visible. *)
Theorem file_store_behaves_as_memory path header offset ops :
  0 ≤ offset ≤ Z.of_nat (length header) → store_ops_ok 0 ops →
  run store_step (FilePageStore.mk path (Some header) offset 0 FilePageStore.working) ops =
  run store_step ([] : MemoryPageStore.t) ops.
Proof.
  intros Ho Hops. apply stores_indistinguishable; [|by split|done|done].
  unfold ps_ok. cbn. unfold FilePageStore.ok. cbn. unfold kPageSize. split; [done|lia].
Qed.

Lemma file_store_behaves_as_memory_witness :
  run store_step (FilePageStore.mk "t.db" (Some [7; 7; 7]) 2 0 FilePageStore.working)
    [SAllocate; SAllocate; SWrite 1 (initialize 1); SRead 1; SRead 2; SCount]
  = [SRId (Ok 0); SRId (Ok 1); SRDone (Ok tt); SRPage (Ok (initialize 1));
     SRPage (Throw bad_page_id); SRCount 2].
Proof.
  rewrite file_store_behaves_as_memory.
  - vm_compute. reflexivity.
  - cbn. lia.
  - cbn. repeat split; try lia.
Defined.

(** ** Where the stores differ *)

(** A page of the wrong size: the store in memory keeps the pages before it, the store in
    the file has as many pages as were given. *)
Example replace_with_short_page :
  let ops := [SReplace [initialize 1; [0]]; SCount] in
  run store_step (FilePageStore.mk "t.db" (Some []) 0 0 FilePageStore.working) ops =
    [SRDone (Throw bad_page_size); SRCount 2] ∧
  run store_step ([] : MemoryPageStore.t) ops = [SRDone (Throw bad_page_size); SRCount 1].
Proof. vm_compute. split; reflexivity. Qed.

(** On a disk that stores nothing [allocate_page] and [replace_pages] report success, and
    the pages cannot be read; [write_page] reports the failure. *)
Example full_disk_goes_unnoticed :
  let full := FilePageStore.mkDisk true true true true false in
  run store_step (FilePageStore.mk "t.db" (Some []) 0 0 full)
    [SAllocate; SCount; SRead 0; SWrite 0 (initialize 1); SReplace [initialize 1]; SRead 0] =
  [SRId (Ok 0); SRCount 1; SRPage (Throw (StorageException "Failed to read page from t.db"));
   SRDone (Throw (StorageException "Failed to write page to t.db")); SRDone (Ok tt);
   SRPage (Throw (StorageException "Failed to read page from t.db"))].
Proof. vm_compute. reflexivity. Qed.

(** A file that cannot be created: the count is raised before the failure. *)
Example failed_allocation_counts :
  let locked := FilePageStore.mkDisk true false true true true in
  run store_step (FilePageStore.mk "t.db" None 0 0 locked) [SAllocate; SCount] =
  [SRId (Throw (StorageException "Cannot create page file: t.db")); SRCount 1].
Proof. vm_compute. reflexivity. Qed.
