(* ===== verification/BufferPool.v ===== *)
(** * Buffer pool

    [BufferPool] (src/storage/buffer_pool.cc): a fixed number of frames with
    clock eviction and write-back of dirty pages, over registered page stores.
    The pool refers to a store by address, so the world is the pool together
    with the store objects; a [Page &] into a frame is the frame's index. *)

From Stdlib Require Import ZArith Lia.
From S2P Require Import Prelude Page PageStore.

Section pool.
Context {St : Type} {PS : PageStore St}.

(** ** State *)

Record Frame : Type := mkFrame {
  f_page : page;
  f_file : Z;
  f_pid : Z;
  f_pin : Z;
  f_dirty : bool;
  f_ref : bool;
  f_occ : bool
}.

Definition f_key (fr : Frame) : Z * Z := (f_file fr, f_pid fr).

Record World : Type := mkWorld {
  frames : list Frame;
  clock_hand : nat;
  page_table : gmap (Z * Z) nat;
  stores : gmap Z nat;
  objs : gmap nat St
}.

Definition set_frame (w : World) (i : nat) (fr : Frame) : World :=
  mkWorld (<[i := fr]> (frames w)) (clock_hand w) (page_table w) (stores w) (objs w).
Definition set_obj (w : World) (ptr : nat) (s : St) : World :=
  mkWorld (frames w) (clock_hand w) (page_table w) (stores w) (<[ptr := s]> (objs w)).
Definition set_table (w : World) (t : gmap (Z * Z) nat) : World :=
  mkWorld (frames w) (clock_hand w) t (stores w) (objs w).
Definition set_stores (w : World) (t : gmap Z nat) : World :=
  mkWorld (frames w) (clock_hand w) (page_table w) t (objs w).

Definition frame0 : Frame := mkFrame (initialize 0) 0 0 0 false false false.

(** The constructor. *)
Definition new_BufferPool (frame_count : nat) (heap : gmap nat St) : res World :=
  if (frame_count =? 0)%nat then Throw (StorageException "Buffer pool must have at least one frame")
  else Ok (mkWorld (replicate frame_count frame0) 0 ∅ ∅ heap).

(** ** Operations *)

Definition register_store (w : World) (file_id : Z) (store : option nat) : World * res unit :=
  match store with
  | None => (w, Throw (StorageException "Null page store"))
  | Some ptr => (set_stores w (<[file_id := ptr]> (stores w)), Ok tt)
  end.

Definition require_store (w : World) (file_id : Z) : res nat :=
  match stores w !! file_id with
  | None => Throw (StorageException "No page store registered for file")
  | Some ptr => Ok ptr
  end.

Definition clean (fr : Frame) : Frame :=
  mkFrame (f_page fr) (f_file fr) (f_pid fr) (f_pin fr) false (f_ref fr) (f_occ fr).

Definition write_frame_if_dirty (w : World) (i : nat) : World * res unit :=
  match frames w !! i with
  | None => (w, UB)
  | Some fr =>
      if negb (f_occ fr) || negb (f_dirty fr) then (w, Ok tt)
      else match require_store w (f_file fr) with
      | Throw e => (w, Throw e)
      | UB => (w, UB)
      | Ok ptr =>
          match objs w !! ptr with
          | None => (w, UB)
          | Some s =>
              let '(s', r) := ps_write_page s (f_pid fr) (f_page fr) in
              let w := set_obj w ptr s' in
              match r with
              | Ok _ => (set_frame w i (clean fr), Ok tt)
              | Throw e => (w, Throw e)
              | UB => (w, UB)
              end
          end
      end
  end.

(** The fields [evict_frame] resets after the write-back. *)
Definition vacate (fr : Frame) : Frame :=
  mkFrame (f_page fr) (f_file fr) (f_pid fr) 0 (f_dirty fr) false false.

Definition evict_frame (w : World) (i : nat) : World * res unit :=
  match frames w !! i with
  | None => (w, UB)
  | Some fr =>
      if negb (f_occ fr) then (w, Ok tt)
      else match write_frame_if_dirty w i with
      | (w, Ok _) =>
          match frames w !! i with
          | None => (w, UB)
          | Some fr =>
              (set_frame (set_table w (delete (f_key fr) (page_table w))) i (vacate fr), Ok tt)
          end
      | (w, Throw e) => (w, Throw e)
      | (w, UB) => (w, UB)
      end
  end.

Definition unreference (fr : Frame) : Frame :=
  mkFrame (f_page fr) (f_file fr) (f_pid fr) (f_pin fr) (f_dirty fr) false (f_occ fr).

(** The clock: [n] frames may still be examined. *)
Fixpoint clock (n : nat) (fs : list Frame) (hand : nat) : list Frame * nat * option nat :=
  match n with
  | O => (fs, hand, None)
  | S n =>
      match fs !! hand with
      | None => (fs, hand, None)
      | Some fr =>
          let next := ((hand + 1) mod length fs)%nat in
          if negb (f_occ fr) then (fs, next, Some hand)
          else if 0 <? f_pin fr then clock n fs next
          else if f_ref fr then clock n (<[hand := unreference fr]> fs) next
          else (fs, next, Some hand)
      end
  end.

Definition all_pinned : exn := StorageException "No free buffer frame available (all pinned)".

Definition find_victim_frame (w : World) : World * res nat :=
  let '(fs, hand, v) := clock (length (frames w) * 2) (frames w) (clock_hand w) in
  let w := mkWorld fs hand (page_table w) (stores w) (objs w) in
  match v with
  | Some i => (w, Ok i)
  | None => (w, Throw all_pinned)
  end.

(** [pin_count] is an [int]: counting beyond [2^31 - 1] is undefined. *)
Definition repin (fr : Frame) : res Frame :=
  n ← s_checked 32 (f_pin fr + 1);
  Ok (mkFrame (f_page fr) (f_file fr) (f_pid fr) n (f_dirty fr) true (f_occ fr)).

(** The load half of [pin], into a frame that has been evicted. *)
Definition load_frame (w : World) (i : nat) (file_id page_id : Z) : World * res nat :=
  match require_store w file_id with
  | Throw e => (w, Throw e)
  | UB => (w, UB)
  | Ok ptr =>
      match objs w !! ptr with
      | None => (w, UB)
      | Some s =>
          match (raw ← ps_read_page s page_id; from_bytes (Some raw)) with
          | Throw e => (w, Throw e)
          | UB => (w, UB)
          | Ok p =>
              let fr := mkFrame p file_id page_id 1 false true true in
              let w := set_frame w i fr in
              (set_table w (<[(file_id, page_id) := i]> (page_table w)), Ok i)
          end
      end
  end.

Definition pin (w : World) (file_id page_id : Z) : World * res nat :=
  match page_table w !! (file_id, page_id) with
  | Some i =>
      match frames w !! i with
      | None => (w, UB)
      | Some fr =>
          match repin fr with
          | Ok fr => (set_frame w i fr, Ok i)
          | Throw e => (w, Throw e)
          | UB => (w, UB)
          end
      end
  | None =>
      match find_victim_frame w with
      | (w, Throw e) => (w, Throw e)
      | (w, UB) => (w, UB)
      | (w, Ok i) =>
          match evict_frame w i with
          | (w, Throw e) => (w, Throw e)
          | (w, UB) => (w, UB)
          | (w, Ok _) => load_frame w i file_id page_id
          end
      end
  end.

Definition unpinned (fr : Frame) (is_dirty : bool) : Frame :=
  mkFrame (f_page fr) (f_file fr) (f_pid fr) (f_pin fr - 1)
    (if is_dirty then true else f_dirty fr) (f_ref fr) (f_occ fr).

Definition unpin (w : World) (file_id page_id : Z) (is_dirty : bool) : World * res unit :=
  match page_table w !! (file_id, page_id) with
  | None => (w, Throw (StorageException "Unpin of page not in pool"))
  | Some i =>
      match frames w !! i with
      | None => (w, UB)
      | Some fr =>
          if f_pin fr <=? 0 then (w, Throw (StorageException "Unpin with zero pin count"))
          else (set_frame w i (unpinned fr is_dirty), Ok tt)
      end
  end.

(** A loop over the frame indices that an exception leaves. *)
Fixpoint for_frames (body : World → nat → World * res unit) (w : World) (idx : list nat)
    : World * res unit :=
  match idx with
  | [] => (w, Ok tt)
  | i :: idx =>
      match body w i with
      | (w, Ok _) => for_frames body w idx
      | r => r
      end
  end.

Definition frame_indices (w : World) : list nat := seq 0 (length (frames w)).

Definition flush_all (w : World) : World * res unit :=
  for_frames write_frame_if_dirty w (frame_indices w).

Definition flush_file (w : World) (file_id : Z) : World * res unit :=
  for_frames (λ w i,
    match frames w !! i with
    | None => (w, UB)
    | Some fr =>
        if f_occ fr && (f_file fr =? file_id) then write_frame_if_dirty w i else (w, Ok tt)
    end) w (frame_indices w).

(** The loop body of [unregister_store]: the pin count is kept. *)
Definition release (fr : Frame) : Frame :=
  mkFrame (f_page fr) (f_file fr) (f_pid fr) (f_pin fr) false false false.

Definition unregister_frame (file_id : Z) (w : World) (i : nat) : World * res unit :=
  match frames w !! i with
  | None => (w, UB)
  | Some fr =>
      if negb (f_occ fr) || negb (f_file fr =? file_id) then (w, Ok tt)
      else if 0 <? f_pin fr then
        (w, Throw (StorageException "Cannot unregister store with pinned pages"))
      else match write_frame_if_dirty w i with
      | (w, Ok _) =>
          match frames w !! i with
          | None => (w, UB)
          | Some fr =>
              (set_frame (set_table w (delete (f_key fr) (page_table w))) i (release fr), Ok tt)
          end
      | r => r
      end
  end.

Definition unregister_store (w : World) (file_id : Z) : World * res unit :=
  match for_frames (unregister_frame file_id) w (frame_indices w) with
  | (w, Ok _) => (set_stores w (delete file_id (stores w)), Ok tt)
  | r => r
  end.

(** The page a reference into frame [i] denotes, and an assignment through it. *)
Definition page_at (w : World) (i : nat) : option page := f_page <$> frames w !! i.
Definition assign_page (w : World) (i : nat) (p : page) : World :=
  match frames w !! i with
  | None => w
  | Some fr =>
      set_frame w i (mkFrame p (f_file fr) (f_pid fr) (f_pin fr) (f_dirty fr) (f_ref fr) (f_occ fr))
  end.
End pool.

Arguments World St : clear implicits.

(** ** The clock *)

(** A frame the clock may take. *)
Definition evictable (fr : Frame) : bool := negb (f_occ fr) || (f_pin fr <=? 0).

(** The same frame up to its reference bit. *)
Definition same_but_ref (fr fr' : Frame) : Prop := unreference fr = unreference fr'.

#[export] Instance same_but_ref_equiv : Equivalence same_but_ref.
Proof. split; red; unfold same_but_ref; congruence. Qed.

Lemma same_but_ref_unreference fr : same_but_ref (unreference fr) fr.
Proof. done. Qed.

Lemma same_but_ref_fields fr fr' : same_but_ref fr fr' →
  f_page fr = f_page fr' ∧ f_key fr = f_key fr' ∧ f_pin fr = f_pin fr' ∧
  f_dirty fr = f_dirty fr' ∧ f_occ fr = f_occ fr'.
Proof. destruct fr, fr'. unfold same_but_ref, unreference, f_key. cbn. intros [=]. by subst. Qed.

Lemma evictable_same fr fr' : same_but_ref fr fr' → evictable fr = evictable fr'.
Proof. intros H. destruct (same_but_ref_fields _ _ H) as (_ & _ & E1 & _ & E2).
  unfold evictable. by rewrite E1, E2. Qed.

(** Frames from the hand to [j], going round. *)
Definition distance (len hand j : nat) : nat :=
  if (hand <=? j)%nat then (j - hand)%nat else (j + len - hand)%nat.

Lemma clock_next len hand : (hand < len)%nat →
  ((hand + 1) mod len < len)%nat ∧
  ((hand + 1) mod len = if (hand + 1 =? len)%nat then 0 else hand + 1)%nat.
Proof.
  intros H. destruct (Nat.eqb_spec (hand + 1) len) as [->|Hne].
  - rewrite Nat.Div0.mod_same. lia.
  - rewrite Nat.mod_small; lia.
Qed.

(** With enough turns left to reach an evictable frame twice, the clock
    returns a frame. *)
Lemma clock_finds n : ∀ fs hand j fr,
  (hand < length fs)%nat → fs !! j = Some fr → evictable fr = true →
  (distance (length fs) hand j + (if f_ref fr then length fs else 0) < n)%nat →
  ∃ i, (clock n fs hand).2 = Some i.
Proof.
  induction n as [|n IH]; intros fs hand j fr Hh Hj Hev Hd; [lia|]. cbn [clock].
  pose proof (lookup_lt_Some _ _ _ Hj) as Hjl.
  destruct (clock_next (length fs) hand Hh) as [Hnext Hval].
  destruct (lookup_lt_is_Some_2 fs hand Hh) as [g Hg]. rewrite Hg.
  destruct (negb (f_occ g)) eqn:Hocc; [eexists; done|].
  assert (Hstep : hand ≠ j → (distance (length fs) ((hand + 1) mod length fs) j + 1 =
                   distance (length fs) hand j)%nat).
  { intros Hne. rewrite Hval. unfold distance.
    destruct (Nat.eqb_spec (hand + 1) (length fs)), (Nat.leb_spec hand j);
      repeat match goal with |- context [Nat.leb ?a ?b] => destruct (Nat.leb_spec a b) end; lia. }
  destruct (Z.ltb_spec 0 (f_pin g)) as [Hpin|Hpin].
  { assert (hand ≠ j).
    { intros ->. assert (g = fr) as -> by congruence. unfold evictable in Hev.
      rewrite Hocc in Hev. bool_prop. cbn in Hev. bool_prop. lia. }
    apply (IH _ _ j fr); try done. specialize (Hstep ltac:(done)). lia. }
  destruct (f_ref g) eqn:Href; [|eexists; done].
  destruct (decide (hand = j)) as [->|Hne].
  - assert (g = fr) as -> by congruence.
    apply (IH _ _ j (unreference fr)); rewrite ?length_insert; try done.
    + by rewrite list_lookup_insert_eq.
    + rewrite Href in Hd. cbn. rewrite Hval. unfold distance in *.
      rewrite Nat.leb_refl in Hd.
      destruct (Nat.eqb_spec (j + 1) (length fs));
        repeat match goal with |- context [Nat.leb ?a ?b] => destruct (Nat.leb_spec a b) end; lia.
  - specialize (Hstep Hne).
    apply (IH _ _ j fr); rewrite ?length_insert; try done.
    + by rewrite list_lookup_insert_ne.
    + lia.
Qed.

(** What the clock returns is evictable, and it changes nothing but reference
    bits. *)
Lemma clock_result n : ∀ fs hand, (hand < length fs)%nat →
  let '(fs', hand', v) := clock n fs hand in
  Forall2 same_but_ref fs' fs ∧ (hand' < length fs)%nat ∧
  ∀ i, v = Some i → ∃ fr, fs' !! i = Some fr ∧ evictable fr = true.
Proof.
  induction n as [|n IH]; intros fs hand Hh; cbn [clock].
  { split_and!; [reflexivity|done|done]. }
  destruct (lookup_lt_is_Some_2 fs hand Hh) as [g Hg]. rewrite Hg.
  destruct (clock_next (length fs) hand Hh) as [Hnext _].
  destruct (negb (f_occ g)) eqn:Hocc.
  { split_and!; [reflexivity|done|]. intros i [= <-]. exists g. split; [done|].
    unfold evictable. by rewrite Hocc. }
  destruct (Z.ltb_spec 0 (f_pin g)) as [Hpin|Hpin]; [by apply IH|].
  destruct (f_ref g) eqn:Href.
  - specialize (IH (<[hand := unreference g]> fs) ((hand + 1) mod length fs)%nat).
    rewrite length_insert in IH. specialize (IH Hnext).
    destruct (clock n _ _) as [[fs' hand'] v]. destruct IH as (H1 & H2 & H3).
    split_and!; [|done|done]. etrans; [exact H1|].
    rewrite <- (list_insert_id fs hand g Hg) at 2. apply Forall2_insert; reflexivity.
  - split_and!; [reflexivity|done|]. intros i [= <-]. exists g. split; [done|].
    unfold evictable. rewrite (proj2 (Z.leb_le _ _)) by lia. by rewrite orb_true_r.
Qed.

(** ** The invariant *)

Section invariant.
Context {St : Type} {PS : PageStore St} {SP : PageStoreSpec St}.
Implicit Types (w : World St) (fr : Frame) (k : Z * Z).

(** The page as the store has it, and the number of pages of a store. *)
Definition store_page w (f pid : Z) : option page :=
  if pid <? 0 then None
  else ptr ← stores w !! f; s ← objs w !! ptr; ps_pages s !! Z.to_nat pid.
Definition store_len w (f : Z) : option nat :=
  ptr ← stores w !! f; s ← objs w !! ptr; Some (length (ps_pages s)).

(** The page as a client of the pool sees it. *)
Definition view w k : option page :=
  match page_table w !! k with
  | Some i => page_at w i
  | None => store_page w k.1 k.2
  end.

Record pool_ok w : Prop := {
  po_hand : (clock_hand w < length (frames w))%nat;
  po_table k i : page_table w !! k = Some i ↔
    ∃ fr, frames w !! i = Some fr ∧ f_occ fr = true ∧ f_key fr = k;
  po_pin i fr : frames w !! i = Some fr → 0 ≤ f_pin fr ∧ (f_occ fr = false → f_pin fr = 0);
  po_coherent i fr : frames w !! i = Some fr → f_occ fr = true →
    0 ≤ f_pid fr ∧ is_page (f_page fr) ∧
    ∃ q, store_page w (f_file fr) (f_pid fr) = Some q ∧ (f_dirty fr = false → q = f_page fr);
  po_stores f ptr : stores w !! f = Some ptr → ∃ s, objs w !! ptr = Some s ∧ ps_ok s;
  po_distinct f f' ptr : stores w !! f = Some ptr → stores w !! f' = Some ptr → f = f'
}.

(** A change of frames that no client can see: pages, keys and occupancy stay,
    dirty frames stay dirty. *)
Definition frame_like fr' fr : Prop :=
  f_page fr' = f_page fr ∧ f_key fr' = f_key fr ∧ f_occ fr' = f_occ fr ∧
  (f_dirty fr = true → f_dirty fr' = true) ∧ 0 ≤ f_pin fr' ∧ (f_occ fr = false → f_pin fr' = 0).

Lemma pool_ok_frames w fs' hand' :
  pool_ok w → Forall2 frame_like fs' (frames w) → (hand' < length (frames w))%nat →
  let w' := mkWorld fs' hand' (page_table w) (stores w) (objs w) in
  pool_ok w' ∧ ∀ k, view w' k = view w k.
Proof.
  intros Hok Hfs Hh w'. pose proof (Forall2_length _ _ _ Hfs) as Hlen.
  rewrite Forall2_lookup in Hfs.
  assert (Hto : ∀ i fr', fs' !! i = Some fr' → ∃ fr, frames w !! i = Some fr ∧ frame_like fr' fr).
  { intros i fr' Hi. specialize (Hfs i). rewrite Hi in Hfs. inversion Hfs; subst. eauto. }
  assert (Hfrom : ∀ i fr, frames w !! i = Some fr → ∃ fr', fs' !! i = Some fr' ∧ frame_like fr' fr).
  { intros i fr Hi. specialize (Hfs i). rewrite Hi in Hfs. inversion Hfs; subst. eauto. }
  split; [split; cbn|].
  - lia.
  - intros k i. rewrite (po_table _ Hok). split.
    + intros (fr & Hi & Ho & Hk). destruct (Hfrom i fr Hi) as (fr' & ? & _ & E1 & E2 & _).
      exists fr'. split_and!; congruence.
    + intros (fr' & Hi & Ho & Hk). destruct (Hto i fr' Hi) as (fr & ? & _ & E1 & E2 & _).
      exists fr. split_and!; congruence.
  - intros i fr' Hi. destruct (Hto i fr' Hi) as (fr & ? & _ & _ & E & _ & E1 & E2).
    split; [done|]. rewrite E. done.
  - intros i fr' Hi Ho. destruct (Hto i fr' Hi) as (fr & Hw & E1 & E2 & E3 & E4 & _).
    injection E2 as E2a E2b.
    destruct (po_coherent _ Hok i fr Hw) as (Hp & Hpg & q & Hq & Hd); [congruence|].
    rewrite E1, E2a, E2b. split_and!; [done|done|]. exists q. split; [done|].
    intros Hd'. apply Hd. destruct (f_dirty fr); [|done]. rewrite E4 in Hd'; done.
  - apply (po_stores _ Hok).
  - apply (po_distinct _ Hok).
  - intros k. unfold view, page_at. cbn. destruct (page_table w !! k) as [i|]; [|done].
    specialize (Hfs i). destruct (frames w !! i) as [fr|] eqn:Hi.
    + destruct (Hfrom i fr Hi) as (fr' & -> & E & _). cbn. by rewrite E.
    + inversion Hfs; subst; done.
Qed.

Lemma frame_like_refl w i fr : pool_ok w → frames w !! i = Some fr → frame_like fr fr.
Proof. intros Hok Hi. destruct (po_pin _ Hok i fr Hi). by split_and!. Qed.

Lemma Forall2_frame_like w : pool_ok w → Forall2 frame_like (frames w) (frames w).
Proof.
  intros Hok. apply Forall2_lookup. intros i. destruct (frames w !! i) eqn:Hi; constructor.
  by eapply frame_like_refl.
Qed.

Lemma pool_ok_set_frame w i fr fr' :
  pool_ok w → frames w !! i = Some fr → frame_like fr' fr →
  pool_ok (set_frame w i fr') ∧ ∀ k, view (set_frame w i fr') k = view w k.
Proof.
  intros Hok Hi Hl. apply pool_ok_frames; [done| |apply (po_hand _ Hok)].
  rewrite <- (list_insert_id (frames w) i fr Hi) at 2.
  apply Forall2_insert; [by apply Forall2_frame_like|done].
Qed.

(** *** Write-back *)

Lemma store_page_set_obj w f0 ptr s s' pid0 p :
  pool_ok w → stores w !! f0 = Some ptr → objs w !! ptr = Some s → 0 ≤ pid0 →
  ps_pages s' = <[Z.to_nat pid0 := p]> (ps_pages s) → (Z.to_nat pid0 < length (ps_pages s))%nat →
  ∀ f pid, store_page (set_obj w ptr s') f pid =
    if decide ((f, pid) = (f0, pid0)) then Some p else store_page w f pid.
Proof.
  intros Hok Hf0 Hs H0 Hp Hlt f pid. unfold store_page. cbn [stores set_obj objs].
  destruct (Z.ltb_spec pid 0) as [Hneg|Hpos].
  { rewrite decide_False; [done|]. intros [=]. lia. }
  destruct (stores w !! f) as [ptr'|] eqn:Hf; cbn [mbind option_bind].
  2:{ rewrite decide_False; [done|]. intros [=]. congruence. }
  destruct (decide (f = f0)) as [->|Hne].
  - assert (ptr' = ptr) as -> by congruence.
    rewrite lookup_insert_eq, Hs. cbn [mbind option_bind]. rewrite Hp.
    destruct (decide (pid = pid0)) as [->|Hne'].
    + rewrite decide_True by done. by apply list_lookup_insert_eq.
    + rewrite decide_False by congruence. apply list_lookup_insert_ne. lia.
  - rewrite decide_False by congruence. rewrite lookup_insert_ne; [done|].
    intros ->. apply Hne. symmetry. by eapply (po_distinct _ Hok).
Qed.

Lemma store_len_set_obj w f0 ptr s s' :
  pool_ok w → stores w !! f0 = Some ptr → objs w !! ptr = Some s →
  length (ps_pages s') = length (ps_pages s) →
  ∀ f, store_len (set_obj w ptr s') f = store_len w f.
Proof.
  intros Hok Hf0 Hs Hl f. unfold store_len. cbn.
  destruct (stores w !! f) as [ptr'|] eqn:Hf; cbn [mbind option_bind]; [|done].
  destruct (decide (ptr = ptr')) as [<-|Hne].
  - rewrite lookup_insert_eq, Hs. cbn [mbind option_bind]. by rewrite Hl.
  - by rewrite lookup_insert_ne.
Qed.

(** [w'] differs from [w] by the write-back of some dirty pages: clients see
    the same pages, the pool keeps its frames up to their dirty bits, the stores
    keep their lengths. *)
Record written_back w w' : Prop := {
  wb_ok : pool_ok w';
  wb_view k : view w' k = view w k;
  wb_table : page_table w' = page_table w;
  wb_stores : stores w' = stores w;
  wb_len f : store_len w' f = store_len w f;
  wb_frames : Forall2 (λ fr' fr, fr' = fr ∨ fr' = clean fr) (frames w') (frames w)
}.

Lemma require_store_page w f pid q :
  pool_ok w → store_page w f pid = Some q →
  ∃ ptr s, stores w !! f = Some ptr ∧ objs w !! ptr = Some s ∧ ps_ok s ∧
    0 ≤ pid ∧ ps_pages s !! Z.to_nat pid = Some q.
Proof.
  intros Hok Hq. unfold store_page in Hq. destruct (Z.ltb_spec pid 0); [done|].
  destruct (stores w !! f) as [ptr|] eqn:Hf; [|done]. cbn [mbind option_bind] in Hq.
  destruct (po_stores _ Hok f ptr Hf) as (s & Hs & Hsok). rewrite Hs in Hq. cbn in Hq. eauto 10.
Qed.

Lemma write_back_pool_ok w i fr ptr s s' :
  pool_ok w → frames w !! i = Some fr → f_occ fr = true →
  stores w !! f_file fr = Some ptr → objs w !! ptr = Some s → ps_ok s' →
  ps_pages s' = <[Z.to_nat (f_pid fr) := f_page fr]> (ps_pages s) →
  (Z.to_nat (f_pid fr) < length (ps_pages s))%nat → 0 ≤ f_pid fr →
  pool_ok (set_frame (set_obj w ptr s') i (clean fr)).
Proof.
  intros Hok Hi Hocc Hf Hs Hs' Hp Hlt H0. set (w' := set_frame (set_obj w ptr s') i (clean fr)).
  assert (Hsp : ∀ f pid, store_page w' f pid =
    if decide ((f, pid) = (f_file fr, f_pid fr)) then Some (f_page fr) else store_page w f pid).
  { intros. by apply (store_page_set_obj w (f_file fr) ptr s s' (f_pid fr) (f_page fr)). }
  assert (Hfr : ∀ j g', frames w' !! j = Some g' → ∃ g, frames w !! j = Some g ∧
    (g' = g ∨ g' = clean g) ∧ (j = i → g' = clean g)).
  { intros j g' Hj. unfold w' in Hj. cbn in Hj.
    apply list_lookup_insert_Some in Hj as [(<- & <- & _)|[Hne Hj]]; naive_solver. }
  split.
  + cbn. rewrite length_insert. apply (po_hand _ Hok).
  + intros k j. cbn. rewrite (po_table _ Hok). split.
    * intros (g & Hj & ? & ?). destruct (decide (j = i)) as [->|Hne].
      -- exists (clean fr). rewrite list_lookup_insert_eq by (by eapply lookup_lt_Some).
         assert (g = fr) as -> by congruence. done.
      -- exists g. rewrite list_lookup_insert_ne by done. done.
    * intros (g' & Hj & Ho & Hk). destruct (Hfr j g' Hj) as (g & ? & [->| ->] & _); eauto.
  + intros j g' Hj. destruct (Hfr j g' Hj) as (g & Hg & [->| ->] & _);
      by apply (po_pin _ Hok j g).
  + intros j g' Hj Ho. destruct (Hfr j g' Hj) as (g & Hg & Hc & Hji).
    assert (Hog : f_occ g = true) by (by destruct Hc as [->| ->]).
    destruct (po_coherent _ Hok j g Hg Hog) as (Hpid & Hpg & q & Hq & Hd).
    assert (f_page g' = f_page g ∧ f_file g' = f_file g ∧ f_pid g' = f_pid g) as (-> & -> & ->)
      by (by destruct Hc as [->| ->]).
    split_and!; [done|done|]. rewrite Hsp. case_decide as Hk.
    * assert (j = i) as ->.
      { assert (page_table w !! f_key g = Some j) as E1 by (apply (po_table _ Hok); eauto).
        assert (page_table w !! f_key fr = Some i) as E2 by (apply (po_table _ Hok); eauto).
        unfold f_key in *. congruence. }
      assert (g = fr) as -> by congruence. eauto.
    * exists q. split; [done|]. intros Hd'. apply Hd.
      destruct Hc as [->| ->]; [done|]. destruct (decide (j = i)) as [->|Hne].
      { assert (g = fr) as -> by congruence. done. }
      cbn in Hj. rewrite list_lookup_insert_ne in Hj by done.
      assert (g = clean g) as -> by congruence. done.
  + intros f p' Hf'. cbn in *. destruct (decide (ptr = p')) as [<-|Hne].
    * rewrite lookup_insert_eq. eauto.
    * rewrite lookup_insert_ne by done. by apply (po_stores _ Hok f).
  + apply (po_distinct _ Hok).
Qed.

(** The world after a dirty frame has been written back. *)
Lemma write_back_ok w i fr ptr s s' :
  pool_ok w → frames w !! i = Some fr → f_occ fr = true →
  stores w !! f_file fr = Some ptr → objs w !! ptr = Some s → ps_ok s' →
  ps_pages s' = <[Z.to_nat (f_pid fr) := f_page fr]> (ps_pages s) →
  (Z.to_nat (f_pid fr) < length (ps_pages s))%nat → 0 ≤ f_pid fr →
  let w' := set_frame (set_obj w ptr s') i (clean fr) in
  written_back w w' ∧ store_page w' (f_file fr) (f_pid fr) = Some (f_page fr).
Proof.
  intros Hok Hi Hocc Hf Hs Hs' Hp Hlt H0 w'.
  assert (Hsp : ∀ f pid, store_page w' f pid =
    if decide ((f, pid) = (f_file fr, f_pid fr)) then Some (f_page fr) else store_page w f pid).
  { intros. by apply (store_page_set_obj w (f_file fr) ptr s s' (f_pid fr) (f_page fr)). }
  split; [split|].
  - by apply (write_back_pool_ok w i fr ptr s).
  - intros k. unfold view. cbn [page_table w' set_frame set_obj].
    destruct (page_table w !! k) as [j|] eqn:Hk.
    + unfold page_at. cbn. destruct (decide (j = i)) as [->|Hne].
      * rewrite list_lookup_insert_eq by (by eapply lookup_lt_Some). by rewrite Hi.
      * by rewrite list_lookup_insert_ne.
    + rewrite Hsp. rewrite decide_False; [done|]. intros E. destruct k as [f pid]. cbn in E.
      assert (page_table w !! f_key fr = Some i) as E2 by (apply (po_table _ Hok); eauto).
      unfold f_key in E2. congruence.
  - done.
  - done.
  - intros f. rewrite <- (store_len_set_obj w (f_file fr) ptr s s' Hok Hf Hs); [done|].
    by rewrite Hp, length_insert.
  - cbn. rewrite <- (list_insert_id (frames w) i fr Hi) at 2.
    apply Forall2_insert; [|by right]. apply Forall2_lookup. intros j.
    destruct (frames w !! j); constructor. by left.
  - rewrite Hsp. by rewrite decide_True.
Qed.

Lemma written_back_refl w : pool_ok w → written_back w w.
Proof.
  intros Hok. split; try done. apply Forall2_lookup. intros i.
  destruct (frames w !! i); constructor. by left.
Qed.

(** [write_frame_if_dirty] never fails on a pool in a valid state. *)
Lemma write_frame_if_dirty_ok w i fr :
  pool_ok w → frames w !! i = Some fr →
  ∃ w', write_frame_if_dirty w i = (w', Ok tt) ∧ written_back w w' ∧
    ∃ fr', frames w' !! i = Some fr' ∧ (fr' = fr ∨ fr' = clean fr) ∧
      (f_occ fr = true → store_page w' (f_file fr) (f_pid fr) = Some (f_page fr) ∧ f_dirty fr' = false).
Proof.
  intros Hok Hi. unfold write_frame_if_dirty. rewrite Hi.
  destruct (f_occ fr) eqn:Hocc; cbn [negb orb].
  2:{ exists w. split_and!; [done|by apply written_back_refl|]. exists fr. naive_solver. }
  destruct (po_coherent _ Hok i fr Hi Hocc) as (H0 & Hpg & q & Hq & Hd).
  destruct (f_dirty fr) eqn:Hdirty; cbn [negb].
  2:{ exists w. split_and!; [done|by apply written_back_refl|]. exists fr.
      rewrite Hq, Hd by done. eauto. }
  destruct (require_store_page _ _ _ _ Hok Hq) as (ptr & s & Hf & Hs & Hsok & _ & Hl).
  unfold require_store. rewrite Hf, Hs.
  pose proof (lookup_lt_Some _ _ _ Hl) as Hlt.
  destruct (ps_write_page_ok s (Z.to_nat (f_pid fr)) (f_page fr) Hsok Hpg Hlt) as (s' & E & Hs' & Hp).
  rewrite Z2Nat.id in E by done. rewrite E.
  destruct (write_back_ok w i fr ptr s s') as [Hw Hpage]; try done.
  eexists. split; [reflexivity|]. split; [exact Hw|]. exists (clean fr). split_and!.
  - cbn. apply list_lookup_insert_eq. by eapply lookup_lt_Some.
  - by right.
  - done.
Qed.

(** *** Pins, and steps of the pool as its clients see them *)

(** How often a page is pinned. *)
Definition pins w k : Z :=
  match page_table w !! k with
  | Some i => match frames w !! i with Some fr => f_pin fr | None => 0 end
  | None => 0
  end.

(** [w'] comes from [w] by a step after which clients see the pages [v] and the
    pin counts have grown by [d]; pages that were pinned are still in the frame
    they were in, so references to them stay good. *)
Record pool_moves w w' (v : Z * Z → option page) (d : Z * Z → Z) : Prop := {
  pm_ok : pool_ok w';
  pm_view k : view w' k = v k;
  pm_pins k : pins w' k = pins w k + d k;
  pm_held k i : page_table w !! k = Some i → 0 < pins w k → page_table w' !! k = Some i;
  pm_stores : stores w' = stores w;
  pm_len f : store_len w' f = store_len w f;
  pm_frames : length (frames w') = length (frames w)
}.

(** A step no client notices. *)
Abbreviation pool_quiet w w' := (pool_moves w w' (view w) (λ _, 0)).

Lemma pool_moves_quiet_l w w1 w2 v d :
  pool_quiet w w1 → pool_moves w1 w2 v d → pool_moves w w2 v d.
Proof.
  intros H1 H2. split.
  - apply H2.
  - apply H2.
  - intros k. rewrite (pm_pins _ _ _ _ H2), (pm_pins _ _ _ _ H1). lia.
  - intros k i Hk Hp. eapply (pm_held _ _ _ _ H2); [by eapply (pm_held _ _ _ _ H1)|].
    rewrite (pm_pins _ _ _ _ H1). lia.
  - by rewrite (pm_stores _ _ _ _ H2), (pm_stores _ _ _ _ H1).
  - intros f. by rewrite (pm_len _ _ _ _ H2), (pm_len _ _ _ _ H1).
  - by rewrite (pm_frames _ _ _ _ H2), (pm_frames _ _ _ _ H1).
Qed.

Lemma pool_moves_view w w' v v' d d' :
  pool_moves w w' v d → (∀ k, v k = v' k) → (∀ k, d k = d' k) → pool_moves w w' v' d'.
Proof.
  intros [] Hv Hd. split; try done; intros k.
  - by rewrite <- Hv.
  - by rewrite <- Hd.
Qed.

Lemma pool_quiet_trans w w1 w2 : pool_quiet w w1 → pool_quiet w1 w2 → pool_quiet w w2.
Proof.
  intros H1 H2. eapply pool_moves_view; [by eapply pool_moves_quiet_l| |done].
  apply (pm_view _ _ _ _ H1).
Qed.

Lemma written_back_pins w w' : written_back w w' → ∀ k, pins w' k = pins w k.
Proof.
  intros H k. unfold pins. rewrite (wb_table _ _ H). destruct (page_table w !! k) as [i|]; [|done].
  pose proof (wb_frames _ _ H) as HF. rewrite Forall2_lookup in HF. specialize (HF i).
  inversion HF as [?? [->| ->]|]; done.
Qed.

Lemma written_back_quiet w w' : written_back w w' → pool_quiet w w'.
Proof.
  intros H. split; try apply H.
  - intros k. rewrite (written_back_pins _ _ H). lia.
  - intros. by rewrite (wb_table _ _ H).
  - apply (Forall2_length _ _ _ (wb_frames _ _ H)).
Qed.

Lemma written_back_trans w w1 w2 : written_back w w1 → written_back w1 w2 → written_back w w2.
Proof.
  intros H1 H2. split.
  - apply H2.
  - intros k. by rewrite (wb_view _ _ H2), (wb_view _ _ H1).
  - by rewrite (wb_table _ _ H2), (wb_table _ _ H1).
  - by rewrite (wb_stores _ _ H2), (wb_stores _ _ H1).
  - intros f. by rewrite (wb_len _ _ H2), (wb_len _ _ H1).
  - pose proof (wb_frames _ _ H1) as F1. pose proof (wb_frames _ _ H2) as F2.
    rewrite Forall2_lookup in F1, F2 |- *. intros i. specialize (F1 i). specialize (F2 i).
    destruct (frames w2 !! i), (frames w1 !! i), (frames w !! i);
      inversion F1; inversion F2; constructor. naive_solver.
Qed.

Lemma page_table_key w k i : pool_ok w → page_table w !! k = Some i →
  ∃ fr, frames w !! i = Some fr ∧ f_occ fr = true ∧ f_key fr = k ∧ pins w k = f_pin fr ∧
        view w k = Some (f_page fr).
Proof.
  intros Hok Hk. apply (po_table _ Hok) in Hk as Hk'. destruct Hk' as (fr & Hi & Ho & Hkey).
  exists fr. unfold pins, view, page_at. rewrite Hk, Hi. done.
Qed.

Lemma frame_key_unique w i j fr g : pool_ok w →
  frames w !! i = Some fr → frames w !! j = Some g → f_occ fr = true → f_occ g = true →
  f_key fr = f_key g → i = j.
Proof.
  intros Hok Hi Hj Ho Ho' E.
  assert (page_table w !! f_key fr = Some i) as E1 by (apply (po_table _ Hok); eauto).
  assert (page_table w !! f_key g = Some j) as E2 by (apply (po_table _ Hok); eauto). congruence.
Qed.

(** Taking a clean frame out of the pool. *)
Lemma drop_frame_ok w i fr fr' :
  pool_ok w → frames w !! i = Some fr → f_occ fr = true → f_pin fr = 0 →
  store_page w (f_file fr) (f_pid fr) = Some (f_page fr) →
  f_occ fr' = false → f_pin fr' = 0 →
  pool_quiet w (set_frame (set_table w (delete (f_key fr) (page_table w))) i fr').
Proof.
  intros Hok Hi Hocc Hpin Hst Ho' Hp'. pose proof (lookup_lt_Some _ _ _ Hi) as Hlt.
  assert (Hkey : page_table w !! f_key fr = Some i) by (apply (po_table _ Hok); eauto).
  assert (Hin : ∀ k, k ≠ f_key fr → page_table w !! k ≠ Some i).
  { intros k Hne Hk. apply (po_table _ Hok) in Hk as (g & ? & ? & ?). congruence. }
  split; [split| | | | | |]; cbn.
  - rewrite length_insert. apply (po_hand _ Hok).
  - intros k j. rewrite lookup_delete_Some, (po_table _ Hok). split.
    + intros (Hne & g & Hj & Ho & Hk). exists g. rewrite list_lookup_insert_ne; [done|]. congruence.
    + intros (g & Hj & Ho & Hk). apply list_lookup_insert_Some in Hj as [(<- & <- & _)|[Hne Hj]].
      { congruence. }
      split; [|eauto]. intros E. apply Hne. eapply frame_key_unique; eauto. congruence.
  - intros j g Hj. apply list_lookup_insert_Some in Hj as [(<- & <- & _)|[Hne Hj]].
    + by rewrite Hp'.
    + by apply (po_pin _ Hok j).
  - intros j g Hj Ho. apply list_lookup_insert_Some in Hj as [(<- & <- & _)|[Hne Hj]]; [congruence|].
    by apply (po_coherent _ Hok j).
  - apply (po_stores _ Hok).
  - apply (po_distinct _ Hok).
  - intros k. unfold view. cbn. destruct (decide (k = f_key fr)) as [->|Hne].
    + rewrite lookup_delete_eq, Hkey. unfold page_at. rewrite Hi. done.
    + rewrite lookup_delete_ne by done. destruct (page_table w !! k) as [j|] eqn:Hk; [|done].
      unfold page_at. cbn. rewrite list_lookup_insert_ne; [done|]. intros <-. by eapply Hin.
  - intros k. rewrite Z.add_0_r. unfold pins. cbn. destruct (decide (k = f_key fr)) as [->|Hne].
    + rewrite lookup_delete_eq, Hkey, Hi. done.
    + rewrite lookup_delete_ne by done. destruct (page_table w !! k) as [j|] eqn:Hk; [|done].
      rewrite list_lookup_insert_ne; [done|]. intros <-. by eapply Hin.
  - intros k j Hk Hp. rewrite lookup_delete_ne; [done|]. intros E. subst k.
    destruct (page_table_key w _ j Hok Hk) as (g & Hj & _ & _ & E & _). rewrite E in Hp.
    assert (j = i) as -> by congruence. assert (g = fr) as -> by congruence. lia.
  - done.
  - done.
  - apply length_insert.
Qed.

Lemma evict_frame_ok w i fr :
  pool_ok w → frames w !! i = Some fr → evictable fr = true →
  ∃ w', evict_frame w i = (w', Ok tt) ∧ pool_quiet w w' ∧
    (∃ fr', frames w' !! i = Some fr' ∧ f_occ fr' = false) ∧
    ∀ k, page_table w !! k = None → page_table w' !! k = None.
Proof.
  intros Hok Hi Hev. unfold evict_frame. rewrite Hi.
  destruct (f_occ fr) eqn:Hocc; cbn [negb].
  2:{ exists w. split_and!; [done|by apply written_back_quiet, written_back_refl|by exists fr|done]. }
  assert (Hpin : f_pin fr = 0).
  { unfold evictable in Hev. rewrite Hocc in Hev. cbn in Hev. bool_prop.
    pose proof (po_pin _ Hok i fr Hi). lia. }
  destruct (write_frame_if_dirty_ok w i fr Hok Hi) as (w1 & -> & Hwb & fr1 & Hi1 & Hfr1 & Hst).
  rewrite Hi1. destruct (Hst Hocc) as [Hsp Hd].
  assert (f_page fr1 = f_page fr ∧ f_file fr1 = f_file fr ∧ f_pid fr1 = f_pid fr ∧
          f_occ fr1 = true ∧ f_pin fr1 = 0) as (E1 & E2 & E3 & E4 & E5)
    by (by destruct Hfr1 as [->| ->]).
  eexists. split; [reflexivity|]. split_and!.
  - eapply pool_quiet_trans; [by apply written_back_quiet|].
    apply (drop_frame_ok w1 i fr1); try done; [apply Hwb|congruence].
  - exists (vacate fr1). split; [|done]. cbn. apply list_lookup_insert_eq.
    by eapply lookup_lt_Some.
  - intros k Hk. cbn. rewrite (wb_table _ _ Hwb). apply lookup_delete_None. by right.
Qed.

(** *** Pin and unpin *)

Lemma is_page_initialize id : is_u32 id → is_page (initialize id).
Proof. intros H. apply is_page_Z. apply (initialize_ok id H). Qed.

Lemma from_bytes_ok p : is_page p → from_bytes (Some p) = Ok p.
Proof.
  intros Hp. unfold from_bytes. rewrite MemoryPageStore.read_whole by done.
  cbn [mbind res_bind]. apply MemoryPageStore.write_whole; [|done].
  apply is_page_initialize. done.
Qed.

Definition at_key k (n : Z) : Z * Z → Z := λ k', if decide (k' = k) then n else 0.

Definition has_room w : Prop := ∃ i fr, frames w !! i = Some fr ∧ evictable fr = true.

Lemma set_frame_moves w i fr fr' :
  pool_ok w → frames w !! i = Some fr → f_occ fr = true → frame_like fr' fr →
  pool_moves w (set_frame w i fr') (view w) (at_key (f_key fr) (f_pin fr' - f_pin fr)).
Proof.
  intros Hok Hi Ho Hl. destruct (pool_ok_set_frame w i fr fr' Hok Hi Hl) as [Hok' Hview].
  assert (Hkey : page_table w !! f_key fr = Some i) by (apply (po_table _ Hok); eauto).
  split; try done.
  - intros k. unfold pins, at_key. cbn. case_decide as Hk.
    + subst k. rewrite Hkey, Hi, list_lookup_insert_eq by (by eapply lookup_lt_Some). lia.
    + destruct (page_table w !! k) as [j|] eqn:Hj; [|lia].
      rewrite list_lookup_insert_ne; [lia|]. intros <-.
      apply (po_table _ Hok) in Hj as (g & ? & ? & ?). congruence.
  - apply length_insert.
Qed.

Lemma find_victim_frame_quiet w : pool_ok w →
  pool_quiet w (find_victim_frame w).1 ∧ page_table (find_victim_frame w).1 = page_table w ∧
  (∀ i, (find_victim_frame w).2 = Ok i →
    ∃ fr, frames (find_victim_frame w).1 !! i = Some fr ∧ evictable fr = true) ∧
  ((find_victim_frame w).2 = Throw all_pinned ∨ ∃ i, (find_victim_frame w).2 = Ok i).
Proof.
  intros Hok. unfold find_victim_frame.
  pose proof (clock_result (length (frames w) * 2) (frames w) (clock_hand w) (po_hand _ Hok)) as Hc.
  destruct (clock _ _ _) as [[fs hand] v]. destruct Hc as (HF & Hh & Hv).
  set (w1 := mkWorld fs hand _ _ _).
  assert (HL : Forall2 frame_like fs (frames w)).
  { rewrite Forall2_lookup in HF |- *. intros i. specialize (HF i).
    destruct (frames w !! i) as [fr|] eqn:Hi; inversion HF as [g ? Hs Eg|]; subst; constructor.
    destruct (same_but_ref_fields _ _ Hs) as (E1 & E2 & E3 & E4 & E5).
    destruct (po_pin _ Hok i fr Hi). unfold frame_like. rewrite E1, E2, E3, E4, E5. done. }
  destruct (pool_ok_frames w fs hand Hok HL Hh) as [Hok1 Hview].
  assert (Hq : pool_quiet w w1).
  { split; try done.
    - intros k. rewrite Z.add_0_r. unfold pins. cbn. destruct (page_table w !! k) as [i|]; [|done].
      rewrite Forall2_lookup in HF. specialize (HF i).
      inversion HF as [g ? Hs|]; [|done]. by destruct (same_but_ref_fields _ _ Hs) as (_ & _ & -> & _).
    - by apply (Forall2_length _ _ _ HF). }
  destruct v as [i|]; cbn [fst snd]; split_and!; try done; [|by right; exists i|by left].
  intros i' [= <-]. by apply Hv.
Qed.

(** The clock finds a frame exactly when one is free or unpinned. *)
Lemma find_victim_frame_finds w : pool_ok w → has_room w → ∃ i, (find_victim_frame w).2 = Ok i.
Proof.
  intros Hok (j & fr & Hj & Hev). unfold find_victim_frame.
  assert (Hd : (distance (length (frames w)) (clock_hand w) j +
                (if f_ref fr then length (frames w) else 0) < length (frames w) * 2)%nat).
  { pose proof (lookup_lt_Some _ _ _ Hj). pose proof (po_hand _ Hok). unfold distance.
    destruct (Nat.leb_spec (clock_hand w) j), (f_ref fr); lia. }
  destruct (clock_finds _ (frames w) (clock_hand w) j fr (po_hand _ Hok) Hj Hev Hd) as [i Hi].
  destruct (clock _ _ _) as [[fs hand] v]. cbn in Hi. subst v. by exists i.
Qed.

Lemma find_victim_frame_full w : pool_ok w → ¬ has_room w →
  (find_victim_frame w).2 = Throw all_pinned.
Proof.
  intros Hok Hno. unfold find_victim_frame.
  pose proof (clock_result (length (frames w) * 2) (frames w) (clock_hand w) (po_hand _ Hok)) as Hc.
  destruct (clock _ _ _) as [[fs hand] [i|]]; [|done]. destruct Hc as (HF & _ & Hv).
  destruct (Hv i eq_refl) as (fr & Hi & Hev). exfalso. apply Hno.
  rewrite Forall2_lookup in HF. specialize (HF i). rewrite Hi in HF.
  inversion HF as [? g Hs E1 E2|]; subst. exists i, g. split; [done|].
  by rewrite <- (evictable_same _ _ Hs).
Qed.

Lemma load_frame_ok w i fr0 f pid p :
  pool_ok w → frames w !! i = Some fr0 → f_occ fr0 = false → page_table w !! (f, pid) = None →
  store_page w f pid = Some p →
  ∃ w', load_frame w i f pid = (w', Ok i) ∧ pool_moves w w' (view w) (at_key (f, pid) 1) ∧
    page_table w' !! (f, pid) = Some i.
Proof.
  intros Hok Hi Hocc Hnone Hp.
  destruct (require_store_page _ _ _ _ Hok Hp) as (ptr & s & Hf & Hs & Hsok & H0 & Hl).
  unfold load_frame, require_store. rewrite Hf, Hs.
  pose proof (ps_read_page_ok s (Z.to_nat pid) Hsok) as Hrd. rewrite Z2Nat.id, Hl in Hrd by done.
  rewrite Hrd.
  assert (Hpg : is_page p).
  { destruct (ps_ok_pages s Hsok) as [HF _]. rewrite Forall_lookup in HF. by eapply HF. }
  cbn [mbind res_bind]. rewrite (from_bytes_ok p Hpg).
  pose proof (lookup_lt_Some _ _ _ Hi) as Hlt.
  assert (Hni : ∀ k, page_table w !! k ≠ Some i).
  { intros k Hk. apply (po_table _ Hok) in Hk as (g & ? & ? & ?). congruence. }
  eexists. split; [reflexivity|]. split; [|cbn; apply lookup_insert_eq].
  split; [split| | | | | |]; cbn.
  - rewrite length_insert. apply (po_hand _ Hok).
  - intros k j. rewrite lookup_insert_Some, (po_table _ Hok). split.
    + intros [[<- <-]|(Hne & g & Hj & Ho & Hk)].
      * eexists. rewrite list_lookup_insert_eq by done. by split_and!.
      * exists g. rewrite list_lookup_insert_ne; [done|]. congruence.
    + intros (g & Hj & Ho & Hk). apply list_lookup_insert_Some in Hj as [(<- & <- & _)|[Hne Hj]].
      * left. by rewrite <- Hk.
      * right. split; [|eauto]. intros E.
        assert (page_table w !! k = Some j) by (apply (po_table _ Hok); eauto). congruence.
  - intros j g Hj. apply list_lookup_insert_Some in Hj as [(<- & <- & _)|[Hne Hj]].
    + cbn. lia.
    + by apply (po_pin _ Hok j).
  - intros j g Hj Ho. apply list_lookup_insert_Some in Hj as [(<- & <- & _)|[Hne Hj]].
    + cbn. split_and!; [done|done|]. exists p. done.
    + by apply (po_coherent _ Hok j).
  - apply (po_stores _ Hok).
  - apply (po_distinct _ Hok).
  - intros k. unfold view. cbn. destruct (decide (k = (f, pid))) as [->|Hne].
    + rewrite lookup_insert_eq, Hnone. unfold page_at. cbn. by rewrite list_lookup_insert_eq.
    + rewrite lookup_insert_ne by done. destruct (page_table w !! k) as [j|] eqn:Hk; [|done].
      unfold page_at. cbn. rewrite list_lookup_insert_ne; [done|]. intros <-. by eapply Hni.
  - intros k. unfold pins, at_key. cbn. case_decide as Hk.
    + subst k. rewrite lookup_insert_eq, Hnone, list_lookup_insert_eq by done. done.
    + rewrite lookup_insert_ne by done. destruct (page_table w !! k) as [j|] eqn:Hj; [|done].
      rewrite list_lookup_insert_ne; [lia|]. intros <-. by eapply Hni.
  - intros k j Hk Hpin. rewrite lookup_insert_ne; [done|]. congruence.
  - done.
  - done.
  - apply length_insert.
Qed.

(** What [pin] throws when the page does not exist. *)
Definition missing_page w (f : Z) : exn :=
  match stores w !! f with
  | None => StorageException "No page store registered for file"
  | Some _ => bad_page_id
  end.

Lemma load_frame_missing w i f pid : pool_ok w → 0 ≤ pid → store_page w f pid = None →
  load_frame w i f pid = (w, Throw (missing_page w f)).
Proof.
  intros Hok H0 Hn. unfold load_frame, require_store, missing_page, store_page in *.
  rewrite (proj2 (Z.ltb_ge _ _) H0) in Hn.
  destruct (stores w !! f) as [ptr|] eqn:Hf; [|done].
  destruct (po_stores _ Hok f ptr Hf) as (s & Hs & Hsok).
  cbn [mbind option_bind] in Hn. rewrite Hs in Hn |- *. cbn [mbind option_bind] in Hn. pose proof (ps_read_page_ok s (Z.to_nat pid) Hsok) as E.
  rewrite Z2Nat.id, Hn in E by done. by rewrite E.
Qed.

Lemma pin_hit w k i : pool_ok w → page_table w !! k = Some i → pins w k < 2 ^ 31 - 1 →
  ∃ w', pin w k.1 k.2 = (w', Ok i) ∧ pool_moves w w' (view w) (at_key k 1) ∧
    page_table w' !! k = Some i.
Proof.
  intros Hok Hk Hlt. destruct (page_table_key w k i Hok Hk) as (fr & Hi & Ho & <- & Hp & _). rewrite Hp in Hlt.
  destruct (po_pin _ Hok i fr Hi).
  unfold pin, f_key. cbn [fst snd]. unfold f_key in Hk. rewrite Hk, Hi. unfold repin, s_checked.
  replace ((- 2 ^ (32 - 1) <=? f_pin fr + 1) && (f_pin fr + 1 <? 2 ^ (32 - 1))) with true by lia. cbn [mbind res_bind].
  eexists. split; [reflexivity|]. split; [|done].
  eapply pool_moves_view;
    [eapply (set_frame_moves w i fr _ Hok Hi Ho)| |]; try done.
  - split_and!; try done; cbn; [lia|congruence].
  - intros k. unfold at_key, f_key. cbn. case_decide; lia.
Qed.

Lemma pin_overflow w k i : pool_ok w → page_table w !! k = Some i → 2 ^ 31 - 1 ≤ pins w k →
  pin w k.1 k.2 = (w, UB).
Proof.
  intros Hok Hk Hge. destruct (page_table_key w k i Hok Hk) as (fr & Hi & Ho & <- & Hp & _). rewrite Hp in Hge.
  unfold pin, f_key. cbn [fst snd]. unfold f_key in Hk. rewrite Hk, Hi. unfold repin, s_checked.
  by replace ((- 2 ^ (32 - 1) <=? f_pin fr + 1) && (f_pin fr + 1 <? 2 ^ (32 - 1))) with false by lia.
Qed.

Lemma pin_miss w k : pool_ok w → page_table w !! k = None → has_room w → 0 ≤ k.2 →
  match view w k with
  | Some p => ∃ w' i, pin w k.1 k.2 = (w', Ok i) ∧ pool_moves w w' (view w) (at_key k 1) ∧
                page_table w' !! k = Some i
  | None => ∃ w', pin w k.1 k.2 = (w', Throw (missing_page w k.1)) ∧ pool_quiet w w'
  end.
Proof.
  destruct k as [f pid]. cbn [fst snd]. intros Hok Hk Hroom H0. unfold pin. rewrite Hk.
  destruct (find_victim_frame_quiet w Hok) as (Hq & Ht & Hev & _).
  destruct (find_victim_frame_finds w Hok Hroom) as [i Hi].
  destruct (find_victim_frame w) as [w1 r]. cbn [fst snd] in *. subst r.
  destruct (Hev i eq_refl) as (fr & Hfr & Hevt).
  destruct (evict_frame_ok w1 i fr (pm_ok _ _ _ _ Hq) Hfr Hevt) as (w2 & -> & Hq2 & (fr2 & Hi2 & Ho2) & Hn).
  rewrite Ht in Hn. specialize (Hn _ Hk).
  pose proof (pool_quiet_trans _ _ _ Hq Hq2) as Hq12.
  rewrite <- (pm_view _ _ _ _ Hq12 (f, pid)). unfold view at 1. rewrite Hn. cbn [fst snd].
  destruct (store_page w2 f pid) as [p|] eqn:Hp.
  - destruct (load_frame_ok w2 i fr2 f pid p) as (w3 & -> & Hm & Ht3); try done.
    { apply Hq12. }
    exists w3, i. split_and!; try done.
    eapply pool_moves_view; [by eapply pool_moves_quiet_l| |done]. apply (pm_view _ _ _ _ Hq12).
  - exists w2. rewrite load_frame_missing; [|apply Hq12|done|done]. split; [|done].
    unfold missing_page. by rewrite (pm_stores _ _ _ _ Hq12).
Qed.

Lemma pin_full w k : pool_ok w → page_table w !! k = None → ¬ has_room w →
  ∃ w', pin w k.1 k.2 = (w', Throw all_pinned) ∧ pool_quiet w w'.
Proof.
  intros Hok Hk Hno. unfold pin. rewrite <- surjective_pairing, Hk.
  destruct (find_victim_frame_quiet w Hok) as (Hq & _).
  pose proof (find_victim_frame_full w Hok Hno) as E.
  destruct (find_victim_frame w) as [w1 r]. cbn [fst snd] in *. subst r. eauto.
Qed.

Lemma pins_nonneg w k : pool_ok w → 0 ≤ pins w k.
Proof.
  intros Hok. unfold pins. destruct (page_table w !! k) as [i|]; [|done].
  destruct (frames w !! i) as [fr|] eqn:Hi; [|done]. apply (po_pin _ Hok i fr Hi).
Qed.

Lemma pinned_frame w k : pool_ok w → 0 < pins w k →
  ∃ i fr, page_table w !! k = Some i ∧ frames w !! i = Some fr ∧ f_occ fr = true ∧
    f_key fr = k ∧ pins w k = f_pin fr ∧ view w k = Some (f_page fr).
Proof.
  intros Hok Hp. destruct (page_table w !! k) as [i|] eqn:Hk.
  - destruct (page_table_key w k i Hok Hk) as (fr & ?). exists i, fr. done.
  - unfold pins in Hp. rewrite Hk in Hp. lia.
Qed.

Lemma unpin_ok w k b : pool_ok w → 0 < pins w k →
  ∃ w', unpin w k.1 k.2 b = (w', Ok tt) ∧ pool_moves w w' (view w) (at_key k (-1)) ∧
    page_table w' = page_table w.
Proof.
  intros Hok Hp. destruct (pinned_frame w k Hok Hp) as (i & fr & Hk & Hi & Ho & <- & E & _).
  unfold unpin, f_key. cbn [fst snd]. unfold f_key in Hk. rewrite Hk, Hi.
  rewrite (proj2 (Z.leb_gt _ _)) by lia. eexists. split; [reflexivity|]. split; [|done].
  eapply pool_moves_view; [apply (set_frame_moves w i fr (unpinned fr b) Hok Hi Ho)|done|].
  - split_and!; try done; cbn; [|lia|congruence]. destruct b; [done|auto].
  - intros k. unfold at_key, f_key. cbn. case_decide; lia.
Qed.

(** [unpin] of a page nobody has pinned is refused. *)
Lemma unpin_refused w k b : pool_ok w → pins w k = 0 →
  ∃ msg, unpin w k.1 k.2 b = (w, Throw (StorageException msg)).
Proof.
  intros Hok Hp. unfold unpin. rewrite <- surjective_pairing.
  destruct (page_table w !! k) as [i|] eqn:Hk; [|eauto].
  destruct (page_table_key w k i Hok Hk) as (fr & Hi & _ & _ & E & _). rewrite Hi.
  rewrite (proj2 (Z.leb_le _ _)) by lia. eauto.
Qed.

(** Writing through a reference to a pinned page, and unpinning it as dirty. *)
Lemma write_unpin_ok w k i p : pool_ok w → page_table w !! k = Some i → 0 < pins w k → is_page p →
  ∃ w', unpin (assign_page w i p) k.1 k.2 true = (w', Ok tt) ∧
    pool_moves w w' (λ k', if decide (k' = k) then Some p else view w k') (at_key k (-1)) ∧
    page_table w' = page_table w.
Proof.
  intros Hok Hk Hp Hpg. destruct (page_table_key w k i Hok Hk) as (fr & Hi & Ho & <- & E & _).
  pose proof (lookup_lt_Some _ _ _ Hi) as Hlt.
  unfold unpin, assign_page, f_key. cbn [fst snd]. rewrite Hi. cbn [page_table set_frame frames].
  unfold f_key in Hk. rewrite Hk, list_lookup_insert_eq by done. cbn [f_pin].
  rewrite (proj2 (Z.leb_gt _ _)) by lia. eexists. split; [reflexivity|]. split; [|done].
  unfold set_frame. cbn [frames clock_hand page_table stores objs]. rewrite list_insert_insert_eq.
  unfold unpinned. cbn [f_page f_file f_pid f_pin f_dirty f_ref f_occ].
  destruct (po_coherent _ Hok i fr Hi Ho) as (H0 & _ & q & Hq & _).
  split; [split| | | | | |]; cbn.
  - rewrite length_insert. apply (po_hand _ Hok).
  - intros k j. rewrite (po_table _ Hok). split.
    + intros (g & Hj & Hog & Hgk). destruct (decide (j = i)) as [->|Hne].
      * eexists. rewrite list_lookup_insert_eq by done. split_and!; [done|done|]. unfold f_key in *.
        cbn. congruence.
      * exists g. by rewrite list_lookup_insert_ne.
    + intros (g & Hj & Hog & Hgk). apply list_lookup_insert_Some in Hj as [(<- & <- & _)|[Hne Hj]];
        eauto.
  - intros j g Hj. apply list_lookup_insert_Some in Hj as [(<- & <- & _)|[Hne Hj]].
    + cbn. split; [lia|congruence].
    + by apply (po_pin _ Hok j).
  - intros j g Hj Hog. apply list_lookup_insert_Some in Hj as [(<- & <- & _)|[Hne Hj]].
    + cbn. split_and!; [done|done|]. by exists q.
    + by apply (po_coherent _ Hok j).
  - apply (po_stores _ Hok).
  - apply (po_distinct _ Hok).
  - intros k. unfold view, page_at. cbn. case_decide as Hkey.
    + subst k. rewrite Hk. by rewrite list_lookup_insert_eq.
    + destruct (page_table w !! k) as [j|] eqn:Hj; [|done].
      rewrite list_lookup_insert_ne; [done|]. intros <-.
      apply (po_table _ Hok) in Hj as (g & ? & ? & ?). unfold f_key in *. congruence.
  - intros k. unfold pins, at_key. cbn. case_decide as Hkey.
    + subst k. rewrite Hk, Hi, list_lookup_insert_eq by done. cbn. lia.
    + destruct (page_table w !! k) as [j|] eqn:Hj; [|done].
      rewrite list_lookup_insert_ne; [lia|]. intros <-.
      apply (po_table _ Hok) in Hj as (g & ? & ? & ?). unfold f_key in *. congruence.
  - done.
  - done.
  - done.
  - apply length_insert.
Qed.

(** *** Flushing *)

Definition flushed w (i : nat) : Prop :=
  ∀ fr, frames w !! i = Some fr → f_occ fr = true → f_dirty fr = false.

Lemma written_back_flushed w w' i : written_back w w' → flushed w i → flushed w' i.
Proof.
  intros H Hf fr' Hi Ho. pose proof (wb_frames _ _ H) as HF. rewrite Forall2_lookup in HF.
  specialize (HF i). rewrite Hi in HF. inversion HF as [g fr Hc E1 E2|]; subst.
  destruct Hc as [->| ->]; [|done]. by apply (Hf fr).
Qed.

Lemma for_frames_flush (body : World St → nat → World St * res unit) (P : nat → Frame → Prop) idx :
  (∀ w i fr, pool_ok w → frames w !! i = Some fr →
    ∃ w', body w i = (w', Ok tt) ∧ written_back w w' ∧ (P i fr → flushed w' i)) →
  (∀ i fr, P i fr → P i (clean fr)) →
  ∀ w, pool_ok w → Forall (λ i, i < length (frames w))%nat idx →
  ∃ w', for_frames body w idx = (w', Ok tt) ∧ written_back w w' ∧
    ∀ i fr, i ∈ idx → frames w !! i = Some fr → P i fr → flushed w' i.
Proof.
  intros Hbody HP. induction idx as [|i idx IH]; intros w Hok Hidx; cbn.
  { exists w. split_and!; [done|by apply written_back_refl|]. intros ? ? ?%elem_of_nil. done. }
  apply Forall_cons_iff in Hidx as [Hi Hidx].
  destruct (lookup_lt_is_Some_2 _ _ Hi) as [fr Hfr].
  destruct (Hbody w i fr Hok Hfr) as (w1 & -> & Hwb & Hfl).
  assert (Hlen : length (frames w1) = length (frames w)) by apply (Forall2_length _ _ _ (wb_frames _ _ Hwb)).
  destruct (IH w1) as (w2 & -> & Hwb2 & Hfl2); [apply Hwb|by rewrite Hlen|].
  exists w2. split_and!; [done|by eapply written_back_trans|].
  intros j g [->|Hj]%elem_of_cons Hg Hp.
  - eapply written_back_flushed; [done|]. apply Hfl. by assert (fr = g) as -> by congruence.
  - pose proof (wb_frames _ _ Hwb) as HF. rewrite Forall2_lookup in HF. specialize (HF j).
    rewrite Hg in HF. inversion HF as [g' ? Hg' E|]; subst. apply (Hfl2 j g'); [done|done|].
    destruct Hg' as [->| ->]; [done|by apply HP].
Qed.

Lemma frame_indices_lt w : Forall (λ i, i < length (frames w))%nat (frame_indices w).
Proof. apply Forall_seq. lia. Qed.

Lemma write_frame_flushes w i fr : pool_ok w → frames w !! i = Some fr →
  ∃ w', write_frame_if_dirty w i = (w', Ok tt) ∧ written_back w w' ∧ flushed w' i.
Proof.
  intros Hok Hi. destruct (write_frame_if_dirty_ok w i fr Hok Hi) as (w' & -> & Hwb & fr' & Hi' & Hc & Hd).
  exists w'. split_and!; [done|done|]. intros g Hg Ho. assert (g = fr') as -> by congruence.
  apply Hd. by destruct Hc as [->| ->].
Qed.

(** A page whose frame is flushed is in the store as clients see it. *)
Lemma flushed_store w k : pool_ok w →
  (∀ i, page_table w !! k = Some i → flushed w i) → store_page w k.1 k.2 = view w k.
Proof.
  intros Hok Hfl. unfold view. destruct (page_table w !! k) as [i|] eqn:Hk; [|done].
  destruct (page_table_key w k i Hok Hk) as (fr & Hi & Ho & <- & _).
  destruct (po_coherent _ Hok i fr Hi Ho) as (_ & _ & q & Hq & Hd).
  unfold page_at. rewrite Hi. cbn. rewrite Hq, Hd; [done|]. by eapply Hfl.
Qed.

Lemma flush_all_ok w : pool_ok w →
  ∃ w', flush_all w = (w', Ok tt) ∧ written_back w w' ∧
    ∀ k, store_page w' k.1 k.2 = view w k.
Proof.
  intros Hok.
  destruct (for_frames_flush write_frame_if_dirty (λ _ _, True) (frame_indices w)) with (w := w)
    as (w' & E & Hwb & Hfl); try done.
  { intros w0 i fr H1 H2. destruct (write_frame_flushes w0 i fr H1 H2) as (w' & ? & ? & ?). eauto. }
  { apply frame_indices_lt. }
  exists w'. split_and!; [done|done|]. intros k. rewrite <- (wb_view _ _ Hwb).
  apply flushed_store; [apply Hwb|]. intros i Hi.
  rewrite (wb_table _ _ Hwb) in Hi. destruct (page_table_key w k i Hok Hi) as (fr & Hfr & _).
  apply (Hfl i fr); [|done|done]. apply elem_of_seq. apply lookup_lt_Some in Hfr. lia.
Qed.

Lemma flush_file_ok w f : pool_ok w →
  ∃ w', flush_file w f = (w', Ok tt) ∧ written_back w w' ∧
    ∀ pid, store_page w' f pid = view w (f, pid).
Proof.
  intros Hok. unfold flush_file.
  destruct (for_frames_flush (λ w i,
    match frames w !! i with
    | None => (w, UB)
    | Some fr =>
        if f_occ fr && (f_file fr =? f) then write_frame_if_dirty w i else (w, Ok tt)
    end) (λ _ fr, f_file fr = f) (frame_indices w)) with (w := w) as (w' & -> & Hwb & Hfl); try done.
  { intros w0 i fr H1 H2. rewrite H2.
    destruct (f_occ fr) eqn:Ho; [destruct (Z.eqb_spec (f_file fr) f) as [<-|Hne]|]; cbn [andb].
    - destruct (write_frame_flushes w0 i fr H1 H2) as (w' & ? & ? & ?). eauto.
    - exists w0. split_and!; [done|by apply written_back_refl|done].
    - exists w0. split_and!; [done|by apply written_back_refl|]. intros _ g Hg Hog. congruence. }
  { apply frame_indices_lt. }
  exists w'. split_and!; [done|done|]. intros pid. rewrite <- (wb_view _ _ Hwb).
  apply (flushed_store w' (f, pid)); [apply Hwb|]. intros i Hi.
  rewrite (wb_table _ _ Hwb) in Hi.
  destruct (page_table_key w _ i Hok Hi) as (fr & Hfr & _ & [=Hf _] & _).
  apply (Hfl i fr); [|done|done]. apply elem_of_seq. apply lookup_lt_Some in Hfr. lia.
Qed.

(** *** Registering and unregistering *)

(** No frame holds a page of the file. *)
Definition gone w (f : Z) (i : nat) : Prop :=
  ∀ fr, frames w !! i = Some fr → f_occ fr = true → f_file fr ≠ f.

Lemma unregister_frame_ok w f i fr :
  pool_ok w → frames w !! i = Some fr → (∀ pid, pins w (f, pid) = 0) →
  ∃ w', unregister_frame f w i = (w', Ok tt) ∧ pool_quiet w w' ∧ gone w' f i ∧
    ∀ j, gone w f j → gone w' f j.
Proof.
  intros Hok Hi Hp. unfold unregister_frame. rewrite Hi.
  assert (Hself : pool_quiet w w) by by apply written_back_quiet, written_back_refl.
  destruct (f_occ fr) eqn:Ho; cbn [negb orb].
  2:{ exists w. split_and!; [done|done| |done]. intros g Hg Hog. congruence. }
  destruct (Z.eqb_spec (f_file fr) f) as [Hf|Hne]; cbn [negb].
  2:{ exists w. split_and!; [done|done| |done]. intros g Hg Hog. congruence. }
  assert (Hpin : f_pin fr = 0).
  { specialize (Hp (f_pid fr)). rewrite <- Hf in Hp. unfold pins in Hp.
    assert (page_table w !! (f_file fr, f_pid fr) = Some i) as E by (apply (po_table _ Hok); eauto).
    by rewrite E, Hi in Hp. }
  rewrite (proj2 (Z.ltb_ge _ _)) by lia.
  destruct (write_frame_if_dirty_ok w i fr Hok Hi) as (w1 & -> & Hwb & fr1 & Hi1 & Hfr1 & Hst).
  rewrite Hi1. destruct (Hst Ho) as [Hsp Hd].
  assert (f_page fr1 = f_page fr ∧ f_file fr1 = f_file fr ∧ f_pid fr1 = f_pid fr ∧
          f_occ fr1 = true ∧ f_pin fr1 = 0) as (E1 & E2 & E3 & E4 & E5)
    by (by destruct Hfr1 as [->| ->]).
  pose proof (lookup_lt_Some _ _ _ Hi1) as Hlt.
  eexists. split; [reflexivity|]. split_and!.
  - eapply pool_quiet_trans; [by apply written_back_quiet|].
    apply (drop_frame_ok w1 i fr1); try done; [apply Hwb|congruence].
  - intros g Hg. cbn in Hg. rewrite list_lookup_insert_eq in Hg by done. by injection Hg as <-.
  - intros j Hj g Hg. cbn in Hg.
    apply list_lookup_insert_Some in Hg as [(<- & <- & _)|[Hne Hg]]; [done|].
    pose proof (wb_frames _ _ Hwb) as HF. rewrite Forall2_lookup in HF. specialize (HF j).
    rewrite Hg in HF. inversion HF as [? g0 Hc X1 X2|]; subst. symmetry in X2.
    destruct Hc as [->| ->]; exact (Hj g0 X2).
Qed.

Lemma unregister_frames_ok f idx : ∀ w,
  pool_ok w → Forall (λ i, i < length (frames w))%nat idx → (∀ pid, pins w (f, pid) = 0) →
  ∃ w', for_frames (unregister_frame f) w idx = (w', Ok tt) ∧ pool_quiet w w' ∧
    (∀ i, i ∈ idx → gone w' f i) ∧ ∀ j, gone w f j → gone w' f j.
Proof.
  induction idx as [|i idx IH]; intros w Hok Hidx Hp; cbn.
  { exists w. split_and!; try done; [by apply written_back_quiet, written_back_refl|].
    intros i ?%elem_of_nil. done. }
  apply Forall_cons_iff in Hidx as [Hi Hidx]. destruct (lookup_lt_is_Some_2 _ _ Hi) as [fr Hfr].
  destruct (unregister_frame_ok w f i fr Hok Hfr Hp) as (w1 & -> & Hq & Hg & Hk).
  destruct (IH w1) as (w2 & -> & Hq2 & Hg2 & Hk2).
  { apply Hq. }
  { by rewrite (pm_frames _ _ _ _ Hq). }
  { intros pid. rewrite (pm_pins _ _ _ _ Hq), Hp. done. }
  exists w2. split_and!; [done|by eapply pool_quiet_trans| |].
  - intros j [->|Hj]%elem_of_cons; eauto.
  - eauto.
Qed.

Lemma store_page_other w t f pid : stores w !! f = t !! f →
  store_page (set_stores w t) f pid = store_page w f pid.
Proof. intros E. unfold store_page. cbn. by rewrite E. Qed.

(** A change of the registration of a file that has no page in the pool. *)
Lemma set_stores_ok w t f :
  pool_ok w → (∀ i, gone w f i) → (∀ f', f' ≠ f → t !! f' = stores w !! f') →
  (∀ ptr, t !! f = Some ptr → (∃ s, objs w !! ptr = Some s ∧ ps_ok s) ∧
    ∀ f', f' ≠ f → stores w !! f' ≠ Some ptr) →
  pool_ok (set_stores w t) ∧ (∀ k, k.1 ≠ f → view (set_stores w t) k = view w k) ∧
  (∀ pid, view (set_stores w t) (f, pid) = store_page (set_stores w t) f pid).
Proof.
  intros Hok Hgone Hother Hnew. split_and!; [split| |].
  - apply (po_hand _ Hok).
  - apply (po_table _ Hok).
  - apply (po_pin _ Hok).
  - intros i fr Hi Ho. rewrite store_page_other; [by apply (po_coherent _ Hok i)|].
    symmetry. apply Hother. by eapply Hgone.
  - intros f' ptr Hf. cbn in Hf |- *. destruct (decide (f' = f)) as [->|Hne].
    + by apply Hnew.
    + rewrite Hother in Hf by done. by apply (po_stores _ Hok f').
  - intros f1 f2 ptr H1 H2. cbn in H1, H2.
    destruct (decide (f1 = f)) as [->|N1], (decide (f2 = f)) as [->|N2]; [done| | |].
    + rewrite Hother in H2 by done. destruct (Hnew ptr H1) as [_ Hc]. by destruct (Hc f2).
    + rewrite Hother in H1 by done. destruct (Hnew ptr H2) as [_ Hc]. by destruct (Hc f1).
    + rewrite Hother in H1, H2 by done. by eapply (po_distinct _ Hok).
  - intros k Hk. unfold view. cbn. destruct (page_table w !! k); [done|].
    apply store_page_other. symmetry. by apply Hother.
  - intros pid. unfold view. cbn. destruct (page_table w !! (f, pid)) as [i|] eqn:Hi; [|done].
    apply (po_table _ Hok) in Hi as (fr & Hfr & Ho & [=E _]). by destruct (Hgone i fr Hfr Ho).
Qed.

(** [unregister_store] of a file with no pinned page: its pages are all in the
    store, other files are not disturbed. *)
Lemma unregister_store_ok w f ptr :
  pool_ok w → stores w !! f = Some ptr → (∀ pid, pins w (f, pid) = 0) →
  ∃ w' s, unregister_store w f = (w', Ok tt) ∧ pool_ok w' ∧ stores w' = delete f (stores w) ∧
    objs w' !! ptr = Some s ∧ ps_ok s ∧ store_len w f = Some (length (ps_pages s)) ∧
    (∀ pid, view w (f, Z.of_nat pid) = ps_pages s !! pid) ∧
    (∀ i, gone w' f i) ∧ (∀ k, k.1 ≠ f → view w' k = view w k) ∧ (∀ k, pins w' k = pins w k) ∧
    length (frames w') = length (frames w).
Proof.
  intros Hok Hf Hp. unfold unregister_store.
  destruct (unregister_frames_ok f (frame_indices w) w Hok (frame_indices_lt w) Hp)
    as (w1 & -> & Hq & Hg & _).
  assert (Hgone : ∀ i, gone w1 f i).
  { intros i fr Hfr. apply (Hg i); [|done]. apply elem_of_seq. apply lookup_lt_Some in Hfr.
    rewrite (pm_frames _ _ _ _ Hq) in Hfr. lia. }
  assert (Hst : stores w1 !! f = Some ptr) by (by rewrite (pm_stores _ _ _ _ Hq)).
  destruct (po_stores _ (pm_ok _ _ _ _ Hq) f ptr Hst) as (s & Hs & Hsok).
  destruct (set_stores_ok w1 (delete f (stores w1)) f (pm_ok _ _ _ _ Hq) Hgone) as (H1 & H2 & _).
  { intros f' Hne. by rewrite lookup_delete_ne. }
  { intros p. by rewrite lookup_delete_eq. }
  exists (set_stores w1 (delete f (stores w1))), s. split_and!; try done.
  - cbn. by rewrite (pm_stores _ _ _ _ Hq).
  - rewrite <- (pm_len _ _ _ _ Hq). unfold store_len. rewrite Hst. cbn. by rewrite Hs.
  - intros pid. rewrite <- (pm_view _ _ _ _ Hq). unfold view.
    destruct (page_table w1 !! (f, Z.of_nat pid)) as [i|] eqn:Hi.
    { apply (po_table _ (pm_ok _ _ _ _ Hq)) in Hi as (fr & Hfr & Ho & [=E _]).
      by destruct (Hgone i fr Hfr Ho). }
    unfold store_page. cbn. rewrite (proj2 (Z.ltb_ge _ _)) by lia. rewrite Hst. cbn. rewrite Hs.
    cbn. by rewrite Nat2Z.id.
  - intros k Hk. rewrite H2 by done. apply (pm_view _ _ _ _ Hq).
  - intros k. rewrite <- (Z.add_0_r (pins w k)). apply (pm_pins _ _ _ _ Hq).
  - apply (pm_frames _ _ _ _ Hq).
Qed.

(** [register_store] of a valid store under a free file id. *)
Lemma register_store_ok w f ptr s :
  pool_ok w → (∀ i, gone w f i) → objs w !! ptr = Some s → ps_ok s →
  (∀ f', f' ≠ f → stores w !! f' ≠ Some ptr) →
  ∃ w', register_store w f (Some ptr) = (w', Ok tt) ∧ pool_ok w' ∧
    stores w' !! f = Some ptr ∧ store_len w' f = Some (length (ps_pages s)) ∧
    (∀ pid, view w' (f, Z.of_nat pid) = ps_pages s !! pid) ∧
    (∀ k, k.1 ≠ f → view w' k = view w k) ∧ (∀ k, pins w' k = pins w k).
Proof.
  intros Hok Hg Hs Hsok Hd. unfold register_store.
  destruct (set_stores_ok w (<[f := ptr]> (stores w)) f Hok Hg) as (H1 & H2 & H3).
  { intros f' Hne. by rewrite lookup_insert_ne. }
  { intros p. rewrite lookup_insert_eq. intros [= <-]. eauto. }
  eexists. split; [reflexivity|]. split_and!; try done.
  - cbn. apply lookup_insert_eq.
  - unfold store_len. cbn. rewrite lookup_insert_eq. cbn. by rewrite Hs.
  - intros pid. rewrite H3. unfold store_page. rewrite (proj2 (Z.ltb_ge _ _)) by lia. cbn.
    rewrite lookup_insert_eq. cbn. rewrite Hs. cbn. by rewrite Nat2Z.id.
Qed.

Lemma new_BufferPool_ok n heap : (0 < n)%nat →
  ∃ w, new_BufferPool n heap = Ok w ∧ pool_ok w ∧ (∀ k, pins w k = 0) ∧ (∀ f i, gone w f i) ∧
    stores w = ∅ ∧ objs w = heap ∧ length (frames w) = n.
Proof.
  intros Hn. unfold new_BufferPool. rewrite (proj2 (Nat.eqb_neq _ _)) by lia.
  assert (Hf : ∀ i fr, replicate n frame0 !! i = Some fr → fr = frame0).
  { intros i fr H. by apply lookup_replicate in H as [-> _]. }
  eexists. split; [reflexivity|]. split_and!; try done; [split; cbn| |].
  - rewrite length_replicate. lia.
  - intros k i. rewrite lookup_empty. split; [done|]. intros (fr & ->%Hf & ? & _). done.
  - intros i fr ->%Hf. done.
  - intros i fr ->%Hf. done.
  - intros f ptr. by rewrite lookup_empty.
  - intros f f' ptr. by rewrite lookup_empty.
  - intros f i fr ->%Hf. done.
  - cbn. apply length_replicate.
Qed.

(** *** Histories of clients *)

(** What a client does with the pool: it pins pages and keeps the references
    [pin] returned, reads through them, releases them, either as they are or
    after assigning a new page, and asks for flushes. *)
Inductive pool_op : Type :=
  | OpPin (k : Z * Z)
  | OpRead (k : Z * Z)
  | OpUnpin (k : Z * Z)
  | OpWrite (k : Z * Z) (p : page)
  | OpFlush
  | OpFlushFile (f : Z).

Inductive pool_reply : Type :=
  | RPage (p : option page)
  | RDone (r : res unit)
  | RError (e : exn)
  | RUndefined
  | RNotHeld.

(** The references a client holds, with the number of pins behind each. *)
Abbreviation refs := (gmap (Z * Z) (nat * Z)).

Definition release_ref (h : refs) (k : Z * Z) (i : nat) (n : Z) : refs :=
  if n =? 1 then delete k h else <[k := (i, n - 1)]> h.

Definition pool_client (st : World St * refs) (op : pool_op) : (World St * refs) * pool_reply :=
  let '(w, h) := st in
  match op with
  | OpPin k =>
      match pin w k.1 k.2 with
      | (w', Ok i) =>
          let n := match h !! k with Some (_, n) => n | None => 0 end in
          ((w', <[k := (i, n + 1)]> h), RPage (page_at w' i))
      | (w', Throw e) => ((w', h), RError e)
      | (w', UB) => ((w', h), RUndefined)
      end
  | OpRead k =>
      match h !! k with
      | Some (i, _) => ((w, h), RPage (page_at w i))
      | None => ((w, h), RNotHeld)
      end
  | OpUnpin k =>
      match h !! k with
      | Some (i, n) =>
          let '(w', r) := unpin w k.1 k.2 false in ((w', release_ref h k i n), RDone r)
      | None => ((w, h), RNotHeld)
      end
  | OpWrite k p =>
      match h !! k with
      | Some (i, n) =>
          let '(w', r) := unpin (assign_page w i p) k.1 k.2 true in
          ((w', release_ref h k i n), RDone r)
      | None => ((w, h), RNotHeld)
      end
  | OpFlush => let '(w', r) := flush_all w in ((w', h), RDone r)
  | OpFlushFile f => let '(w', r) := flush_file w f in ((w', h), RDone r)
  end.

(** The abstract pool: the pages, and a bounded number of pinned pages. *)
Record abs_pool : Type := mkAbs {
  ab_page : Z * Z → option page;
  ab_pins : gmap (Z * Z) Z;
  ab_capacity : nat;
  ab_missing : Z → exn
}.

Definition ab_set_pins (a : abs_pool) (m : gmap (Z * Z) Z) : abs_pool :=
  mkAbs (ab_page a) m (ab_capacity a) (ab_missing a).

Definition ab_release (m : gmap (Z * Z) Z) (k : Z * Z) (n : Z) : gmap (Z * Z) Z :=
  if n =? 1 then delete k m else <[k := n - 1]> m.

Definition abs_step (a : abs_pool) (op : pool_op) : abs_pool * pool_reply :=
  match op with
  | OpPin k =>
      match ab_pins a !! k with
      | Some n =>
          if n <? 2 ^ 31 - 1 then (ab_set_pins a (<[k := n + 1]> (ab_pins a)), RPage (ab_page a k))
          else (a, RUndefined)
      | None =>
          if (ab_capacity a <=? size (ab_pins a))%nat then (a, RError all_pinned)
          else match ab_page a k with
          | Some p => (ab_set_pins a (<[k := 1]> (ab_pins a)), RPage (Some p))
          | None => (a, RError (ab_missing a k.1))
          end
      end
  | OpRead k =>
      match ab_pins a !! k with
      | Some _ => (a, RPage (ab_page a k))
      | None => (a, RNotHeld)
      end
  | OpUnpin k =>
      match ab_pins a !! k with
      | Some n => (ab_set_pins a (ab_release (ab_pins a) k n), RDone (Ok tt))
      | None => (a, RNotHeld)
      end
  | OpWrite k p =>
      match ab_pins a !! k with
      | Some n =>
          (mkAbs (λ k', if decide (k' = k) then Some p else ab_page a k')
             (ab_release (ab_pins a) k n) (ab_capacity a) (ab_missing a), RDone (Ok tt))
      | None => (a, RNotHeld)
      end
  | OpFlush => (a, RDone (Ok tt))
  | OpFlushFile _ => (a, RDone (Ok tt))
  end.

Definition op_ok (op : pool_op) : Prop :=
  match op with
  | OpPin k => 0 ≤ k.2
  | OpWrite _ p => is_page p
  | _ => True
  end.

(** The references a client holds are those of the pinned pages. *)
Definition refs_ok w (h : refs) : Prop :=
  ∀ k i n, h !! k = Some (i, n) ↔ page_table w !! k = Some i ∧ pins w k = n ∧ 0 < n.

Lemma room_count w h : pool_ok w → refs_ok w h →
  (has_room w ↔ (size h < length (frames w))%nat).
Proof.
  intros Hok Hh. set (L := (λ x : (Z * Z) * (nat * Z), x.2.1) <$> map_to_list h).
  assert (HL : ∀ i, i ∈ L ↔ ∃ k n, page_table w !! k = Some i ∧ pins w k = n ∧ 0 < n).
  { intros i. unfold L. rewrite list_elem_of_fmap. split.
    - intros ([k [i' n]] & -> & Hin%elem_of_map_to_list). apply Hh in Hin. eauto.
    - intros (k & n & Hk). exists (k, (i, n)). split; [done|]. by apply elem_of_map_to_list, Hh. }
  assert (HND : NoDup L).
  { apply NoDup_fmap_2_strong; [|apply NoDup_map_to_list].
    intros [k [i n]] [k' [i' n']] H1%elem_of_map_to_list H2%elem_of_map_to_list. cbn. intros <-.
    apply Hh in H1 as (H1 & <- & _), H2 as (H2 & <- & _).
    apply (po_table _ Hok) in H1 as (fr & E1 & _ & <-), H2 as (fr' & E2 & _ & <-).
    by assert (fr = fr') as -> by congruence. }
  assert (Hsize : size h = length L) by (unfold L; by rewrite length_fmap, length_map_to_list).
  assert (Hpin : ∀ i, i ∈ L ↔ ∃ fr, frames w !! i = Some fr ∧ evictable fr = false).
  { intros i. rewrite HL. split.
    - intros (k & n & Hk & <- & Hn). destruct (page_table_key w k i Hok Hk) as (fr & Hi & Ho & _ & E & _).
      exists fr. split; [done|]. unfold evictable. rewrite Ho. cbn. apply Z.leb_gt. lia.
    - intros (fr & Hi & Hev). unfold evictable in Hev. apply orb_false_iff in Hev as [Ho%negb_false_iff Hp%Z.leb_gt].
      assert (Hk : page_table w !! f_key fr = Some i) by (apply (po_table _ Hok); eauto).
      exists (f_key fr), (f_pin fr). unfold pins. by rewrite Hk, Hi. }
  rewrite Hsize. split.
  - intros (j & fr & Hj & Hev).
    assert (Hsub : j :: L ⊆+ seq 0 (length (frames w))).
    { apply NoDup_submseteq.
      - apply NoDup_cons. split; [|done]. rewrite Hpin. intros (g & Hg & Hev'). congruence.
      - intros i [->|Hi]%elem_of_cons.
        + apply elem_of_seq. apply lookup_lt_Some in Hj. lia.
        + apply Hpin in Hi as (g & Hg & _). apply elem_of_seq. apply lookup_lt_Some in Hg. lia. }
    apply submseteq_length in Hsub. rewrite length_seq in Hsub. cbn in Hsub. lia.
  - intros Hlt. destruct (decide (Forall (λ i, i ∈ L) (seq 0 (length (frames w))))) as [HF|HF].
    + assert (Hsub : seq 0 (length (frames w)) ⊆+ L).
      { apply NoDup_submseteq; [apply NoDup_seq|]. by rewrite <- Forall_forall. }
      apply submseteq_length in Hsub. rewrite length_seq in Hsub. lia.
    + apply not_Forall_Exists in HF; [|apply _]. apply Exists_exists in HF as (j & Hj & Hn).
      apply elem_of_seq in Hj. destruct (lookup_lt_is_Some_2 (frames w) j) as [fr Hfr]; [lia|].
      exists j, fr. split; [done|]. destruct (evictable fr) eqn:Hev; [done|].
      destruct Hn. apply Hpin. eauto.
Qed.

Lemma refs_moves_at w w' v d h k : pool_moves w w' v d → refs_ok w h → d k = 0 →
  ∀ i n, h !! k = Some (i, n) ↔ page_table w' !! k = Some i ∧ pins w' k = n ∧ 0 < n.
Proof.
  intros Hm Hh Hd i n. pose proof (pm_pins _ _ _ _ Hm k) as Hp. rewrite Hd, Z.add_0_r in Hp.
  rewrite (Hh k i n), Hp. split.
  - intros (Hk & <- & Hn). split_and!; [by apply (pm_held _ _ _ _ Hm)|done|done].
  - intros (Hk & <- & Hn). split_and!; [|done|done].
    destruct (page_table w !! k) as [j|] eqn:Hj.
    + rewrite (pm_held _ _ _ _ Hm k j Hj) in Hk by done. done.
    + unfold pins in Hn. rewrite Hj in Hn. lia.
Qed.

Lemma refs_quiet w w' h : pool_quiet w w' → refs_ok w h → refs_ok w' h.
Proof. intros Hm Hh k. by apply (refs_moves_at w w' (view w) (λ _, 0)). Qed.

(** The number of pins a client has on a page. *)
Lemma refs_count w h k : pool_ok w → refs_ok w h →
  pins w k = match h !! k with Some (_, n) => n | None => 0 end.
Proof.
  intros Hok Hh. destruct (h !! k) as [[i n]|] eqn:Hk.
  - by apply Hh in Hk as (_ & ? & _).
  - pose proof (pins_nonneg w k Hok). destruct (decide (0 < pins w k)) as [Hp|]; [|lia].
    destruct (pinned_frame w k Hok Hp) as (i & fr & Hi & _).
    assert (h !! k = Some (i, pins w k)) by by apply Hh. congruence.
Qed.

Lemma refs_pin w w' v h k i : pool_ok w → pool_moves w w' v (at_key k 1) → refs_ok w h →
  page_table w' !! k = Some i → refs_ok w' (<[k := (i, pins w k + 1)]> h).
Proof.
  intros Hok Hm Hh Hk k' j n. pose proof (pins_nonneg w k Hok).
  pose proof (pm_pins _ _ _ _ Hm k) as Hp. unfold at_key in Hp. rewrite decide_True in Hp by done.
  destruct (decide (k' = k)) as [->|Hne].
  - rewrite lookup_insert_eq, Hk, Hp. split.
    + intros [= <- <-]. split_and!; [done|done|lia].
    + intros ([= <-] & <- & _). done.
  - rewrite lookup_insert_ne by done. eapply refs_moves_at; [done|done|].
    unfold at_key. by rewrite decide_False.
Qed.

Lemma refs_unpin w w' v h k i n : pool_moves w w' v (at_key k (-1)) → refs_ok w h →
  page_table w' = page_table w → h !! k = Some (i, n) → refs_ok w' (release_ref h k i n).
Proof.
  intros Hm Hh Ht Hk k' j m. apply Hh in Hk as (Hk & Hn & Hpos).
  pose proof (pm_pins _ _ _ _ Hm k) as Hp. unfold at_key in Hp. rewrite decide_True in Hp by done.
  unfold release_ref. destruct (decide (k' = k)) as [->|Hne].
  - rewrite Ht, Hk, Hp, Hn. destruct (Z.eqb_spec n 1) as [->|].
    + rewrite lookup_delete_eq. split; [done|]. intros (_ & ? & ?). lia.
    + rewrite lookup_insert_eq. split.
      * intros [= <- <-]. split_and!; [done|lia|lia].
      * intros ([= <-] & <- & _). repeat f_equal; lia.
  - assert (E : (if n =? 1 then delete k h else <[k := (i, n - 1)]> h) !! k' = h !! k').
    { destruct (n =? 1); [by rewrite lookup_delete_ne|by rewrite lookup_insert_ne]. }
    rewrite E. eapply refs_moves_at; [done|done|]. unfold at_key. by rewrite decide_False.
Qed.

Record client_sim (st : World St * refs) (a : abs_pool) : Prop := {
  cs_ok : pool_ok st.1;
  cs_refs : refs_ok st.1 st.2;
  cs_view k : view st.1 k = ab_page a k;
  cs_pins : ab_pins a = snd <$> st.2;
  cs_capacity : length (frames st.1) = ab_capacity a;
  cs_missing f : missing_page st.1 f = ab_missing a f
}.

(** Moves of the pool, matched by the abstract pool. *)
Lemma client_sim_moves w h a w' h' v v' d m :
  client_sim (w, h) a → pool_moves w w' v d → (∀ k, v k = v' k) → refs_ok w' h' → m = snd <$> h' →
  client_sim (w', h') (mkAbs v' m (ab_capacity a) (ab_missing a)).
Proof.
  intros [] Hm Hv Hh ->. cbn in *. split; cbn; try done.
  - apply Hm.
  - intros k. rewrite <- Hv. apply Hm.
  - by rewrite (pm_frames _ _ _ _ Hm).
  - intros f. rewrite <- cs_missing0. unfold missing_page. by rewrite (pm_stores _ _ _ _ Hm).
Qed.

Lemma client_sim_quiet w h a w' : client_sim (w, h) a → pool_quiet w w' → client_sim (w', h) a.
Proof.
  intros Hs Hm. assert (Hh : refs_ok w' h) by (eapply refs_quiet; [done|apply Hs]).
  destruct a as [v m c e]. eapply client_sim_moves in Hs as Hs'; [exact Hs'|done| |done|].
  - apply (cs_view _ _ Hs).
  - apply (cs_pins _ _ Hs).
Qed.

Lemma fmap_release h k i n : snd <$> release_ref h k i n = ab_release (snd <$> h) k n.
Proof.
  unfold release_ref, ab_release. destruct (n =? 1); [apply fmap_delete|by rewrite fmap_insert].
Qed.

Lemma client_sim_pin w h a k : client_sim (w, h) a → 0 ≤ k.2 →
  (pool_client (w, h) (OpPin k)).2 = (abs_step a (OpPin k)).2 ∧
  client_sim (pool_client (w, h) (OpPin k)).1 (abs_step a (OpPin k)).1.
Proof.
  intros Hs Hk0. pose proof (cs_ok _ _ Hs) as Hok. pose proof (cs_refs _ _ Hs) as Hh. cbn in Hok, Hh.
  pose proof (cs_pins _ _ Hs) as Hpm. cbn [snd] in Hpm.
  assert (Hdone : ∀ w' i, pin w k.1 k.2 = (w', Ok i) → pool_moves w w' (view w) (at_key k 1) →
    page_table w' !! k = Some i →
    (pool_client (w, h) (OpPin k)).2 = RPage (ab_page a k) ∧
    client_sim (pool_client (w, h) (OpPin k)).1
      (ab_set_pins a (<[k := pins w k + 1]> (ab_pins a)))).
  { intros w' i E Hm Hi. cbn [pool_client]. rewrite E. rewrite <- (refs_count w h k Hok Hh).
    cbn [fst snd]. split.
    - f_equal. rewrite <- (cs_view _ _ Hs k). cbn [fst]. rewrite <- (pm_view _ _ _ _ Hm k).
      unfold view. by rewrite Hi.
    - eapply client_sim_moves; [done|done|apply (cs_view _ _ Hs)|by eapply refs_pin|].
      by rewrite fmap_insert, Hpm. }
  assert (Hl : ab_pins a !! k = snd <$> h !! k) by (by rewrite Hpm, lookup_fmap).
  destruct (h !! k) as [[i n]|] eqn:Hhk; cbn in Hl; cbn [abs_step]; rewrite Hl.
  - apply Hh in Hhk as (Hi & Hn & _). destruct (Z.ltb_spec n (2 ^ 31 - 1)).
    + destruct (pin_hit w k i Hok Hi) as (w' & E & Hm & Ht); [lia|].
      destruct (Hdone w' i E Hm Ht) as [E1 E2]. rewrite Hn in E2. done.
    + cbn [pool_client]. rewrite (pin_overflow w k i) by (done || lia). done.
  - rewrite Hpm, map_size_fmap, <- (cs_capacity _ _ Hs). cbn [fst]. rewrite <- Hpm.
    assert (Hz : pins w k = 0) by (rewrite (refs_count w h k Hok Hh), Hhk; done).
    assert (Hroom := room_count w h Hok Hh).
    destruct (page_table w !! k) as [i|] eqn:Hi.
    + (* cached but not pinned *)
      destruct (page_table_key w k i Hok Hi) as (fr & Hfr & Ho & _ & Ep & Ev).
      assert (has_room w).
      { exists i, fr. split; [done|]. unfold evictable. rewrite (proj2 (Z.leb_le _ _)) by lia.
        apply orb_true_r. }
      rewrite (proj2 (Nat.leb_gt _ _)) by (by apply Hroom). rewrite <- (cs_view _ _ Hs k). cbn [fst].
      rewrite Ev. destruct (pin_hit w k i Hok Hi) as (w' & E & Hm & Ht); [lia|].
      destruct (Hdone w' i E Hm Ht) as [E1 E2]. rewrite <- (cs_view _ _ Hs k) in E1. cbn [fst] in E1.
      rewrite Ev in E1. rewrite Hz in E2. done.
    + destruct (Nat.leb_spec (length (frames w)) (size h)) as [Hfull|Hfree].
      * destruct (pin_full w k Hok Hi) as (w' & E & Hq).
        { rewrite Hroom. lia. }
        cbn [pool_client]. rewrite E. split; [done|]. by eapply client_sim_quiet.
      * pose proof (pin_miss w k Hok Hi (proj2 Hroom Hfree) Hk0) as Hmiss.
        pose proof (cs_view _ _ Hs k) as Ev. cbn [fst] in Ev. rewrite Ev in Hmiss.
        destruct (ab_page a k) as [p|] eqn:Ea.
        -- destruct Hmiss as (w' & i & E & Hm & Ht). destruct (Hdone w' i E Hm Ht) as [E1 E2].
           rewrite Hz in E2. done.
        -- destruct Hmiss as (w' & E & Hq). cbn [pool_client]. rewrite E. cbn [fst snd].
           split; [f_equal; apply (cs_missing _ _ Hs)|]. by eapply client_sim_quiet.
Qed.

Lemma client_sim_step st a op : client_sim st a → op_ok op →
  (pool_client st op).2 = (abs_step a op).2 ∧ client_sim (pool_client st op).1 (abs_step a op).1.
Proof.
  destruct st as [w h]. intros Hs Hop.
  pose proof (cs_ok _ _ Hs) as Hok. pose proof (cs_refs _ _ Hs) as Hh. cbn in Hok, Hh.
  assert (Hheld : ∀ k, match h !! k with
    | Some (i, n) => ab_pins a !! k = Some n ∧ page_table w !! k = Some i ∧ 0 < pins w k
    | None => ab_pins a !! k = None end).
  { intros k. rewrite (cs_pins _ _ Hs), lookup_fmap. cbn [snd].
    destruct (h !! k) as [[i n]|] eqn:E; [|done]. apply Hh in E as (? & <- & ?). done. }
  destruct op as [k|k|k|k p| |f]; [by apply client_sim_pin|..]; cbn [pool_client abs_step].
  1-3: specialize (Hheld k); destruct (h !! k) as [[i n]|] eqn:Hk; [|rewrite Hheld; done];
    destruct Hheld as (-> & Hi & Hp).
  - split; [|done]. cbn. f_equal. rewrite <- (cs_view _ _ Hs). unfold view. cbn. by rewrite Hi.
  - destruct (unpin_ok w k false Hok Hp) as (w' & -> & Hm & Ht). split; [done|]. cbn [fst].
    eapply client_sim_moves; [done|done|apply (cs_view _ _ Hs)|by eapply refs_unpin|].
    by rewrite fmap_release, (cs_pins _ _ Hs).
  - destruct (write_unpin_ok w k i p Hok Hi Hp Hop) as (w' & -> & Hm & Ht). split; [done|]. cbn [fst].
    eapply client_sim_moves; [done|done| |by eapply refs_unpin|].
    + intros k'. cbn. case_decide; [done|]. apply (cs_view _ _ Hs).
    + by rewrite fmap_release, (cs_pins _ _ Hs).
  - destruct (flush_all_ok w Hok) as (w' & -> & Hwb & _). split; [done|].
    eapply client_sim_quiet; [done|by apply written_back_quiet].
  - destruct (flush_file_ok w f Hok) as (w' & -> & Hwb & _). split; [done|].
    eapply client_sim_quiet; [done|by apply written_back_quiet].
Qed.
End invariant.

(** C2. A buffer pool of any size over any stores is transparent: every
    history of pins, reads through references, unpins, writes and flushes gets
    the replies of the abstract pool, which has no frames and no cache, only
    pages and a bound on the number of distinct pages pinned at once. In
    particular a reference stays valid while its page is pinned, no write is
    lost by eviction, and [pin] fails exactly when every frame is pinned or the
    page does not exist.  A pin count is an [int]: the [2^31]-th pin of a page that is
    still pinned is undefined, in both. *)
Theorem pool_history_refines {St} `{PageStoreSpec St} (w : World St) ops :
  pool_ok w → (∀ k, pins w k = 0) → Forall op_ok ops →
  run pool_client (w, ∅) ops =
  run abs_step (mkAbs (view w) ∅ (length (frames w)) (missing_page w)) ops.
Proof.
  intros Hok Hidle Hops. apply (run_sim _ _ client_sim op_ok); [|split; try done|done].
  - intros st a op Hs Hop. by apply client_sim_step.
  - intros k i n. cbn. rewrite lookup_empty. split; [done|]. intros (_ & Hn & ?).
    rewrite Hidle in Hn. lia.
Qed.

(** A fresh pool of [n] frames with one registered file. *)
Definition fresh_pool {St} (n : nat) (f : Z) (s : St) : World St :=
  mkWorld (replicate n frame0) 0 ∅ {[f := 0%nat]} {[0%nat := s]}.

Lemma fresh_pool_ok {St} `{PageStoreSpec St} n f (s : St) : (0 < n)%nat → ps_ok s →
  pool_ok (fresh_pool n f s) ∧ (∀ k, pins (fresh_pool n f s) k = 0) ∧
  (∀ pid, view (fresh_pool n f s) (f, Z.of_nat pid) = ps_pages s !! pid) ∧
  store_len (fresh_pool n f s) f = Some (length (ps_pages s)).
Proof.
  intros Hn Hs. destruct (new_BufferPool_ok n {[0%nat := s]} Hn) as (w & Ew & Hok & Hp & Hg & Hst & Ho & _).
  destruct (register_store_ok w f 0 s Hok (Hg f)) as (w' & E & Hok' & _ & Hl & Hv & _ & Hp').
  { rewrite Ho. apply lookup_insert_eq. }
  { done. }
  { intros f' _. by rewrite Hst, lookup_empty. }
  unfold new_BufferPool in Ew. rewrite (proj2 (Nat.eqb_neq _ _)) in Ew by lia.
  injection Ew as <-. injection E as <-. split_and!; try done.
Qed.

Lemma pool_history_refines_witness :
  let w := fresh_pool 1 7 [initialize 0; initialize 1] in
  let ops := [OpPin (7, 0); OpPin (7, 1); OpWrite (7, 0) (initialize 9); OpPin (7, 1); OpUnpin (7, 1);
              OpPin (7, 0); OpRead (7, 0); OpUnpin (7, 0); OpPin (7, 2)] in
  Forall op_ok ops ∧
  run pool_client (w, ∅) ops = [RPage (Some (initialize 0)); RError all_pinned; RDone (Ok tt);
    RPage (Some (initialize 1)); RDone (Ok tt); RPage (Some (initialize 9)); RPage (Some (initialize 9));
    RDone (Ok tt); RError bad_page_id].
Proof.
  intros w ops.
  assert (Hops : Forall op_ok ops).
  { repeat constructor; cbn; try lia; try done. }
  split; [done|].
  destruct (fresh_pool_ok 1 7 [initialize 0; initialize 1]) as (H1 & H2 & _); [lia| |].
  { split; [|done]. repeat constructor; by apply is_page_initialize. }
  rewrite (pool_history_refines w ops H1 H2 Hops).
  vm_compute. reflexivity.
Defined.

(** [flush_all] on a pool in a valid state succeeds, leaves every page in
    its store as the clients see it, and changes nothing a client can see. *)
Theorem flush_all_durable {St} `{PageStoreSpec St} (w : World St) :
  pool_ok w →
  ∃ w', flush_all w = (w', Ok tt) ∧ pool_ok w' ∧
    (∀ k, view w' k = view w k) ∧ (∀ f pid, store_page w' f pid = view w (f, pid)).
Proof.
  intros Hok. destruct (flush_all_ok w Hok) as (w' & E & Hwb & Hst).
  exists w'. split_and!; [done|apply Hwb|apply Hwb|]. intros f pid. apply (Hst (f, pid)).
Qed.

Lemma flush_all_durable_witness :
  ∃ w', flush_all (fresh_pool 2 7 [initialize 0]) = (w', Ok tt) ∧
    store_page w' 7 0 = Some (initialize 0).
Proof.
  destruct (fresh_pool_ok 2 7 [initialize 0]) as (H1 & _ & H3 & _); [lia| |].
  { split; [|done]. repeat constructor; by apply is_page_initialize. }
  destruct (flush_all_durable _ H1) as (w' & E & _ & _ & Hst). exists w'. split; [done|].
  rewrite Hst. apply (H3 0%nat).
Defined.
