(* ===== verification/HeapFile.v ===== *)
(** * Heap files

    [HeapFile] (src/storage/heap_file.cc): variable-length rows in slotted
    pages, reached through the buffer pool.  The object holds references to the
    pool and to its page store: both live in the [World] of the pool. *)

From Stdlib Require Import ZArith Lia.
From S2P Require Import Prelude Values Rows Page PageStore BufferPool.

Section heap.
Context {St : Type} {PS : PageStore St}.

(** ** State *)

Record HeapFile : Type := mkHeap {
  file_id : Z;
  page_store : nat;                 (* the address of the store *)
  column_types : list DataType;
  insert_page_id : Z;
  has_insert_page : bool
}.

Abbreviation HS := (World St * HeapFile)%type.

Definition set_insert_page (h : HeapFile) (pid : Z) (has : bool) : HeapFile :=
  mkHeap (file_id h) (page_store h) (column_types h) pid has.

(** Calls on the pool and on the page store of the file. *)
Definition call_pool {A} (f : World St → World St * res A) : ST HS A :=
  λ '(w, h), let '(w', r) := f w in ((w', h), r).
Definition call_store {A} (f : St → St * res A) : ST HS A :=
  λ '(w, h),
    match objs w !! page_store h with
    | None => ((w, h), UB)
    | Some s => let '(s', r) := f s in ((set_obj w (page_store h) s', h), r)
    end.

Definition the_heap : ST HS HeapFile := λ '(w, h), ((w, h), Ok h).
Definition set_cursor (pid : Z) (has : bool) : ST HS unit :=
  λ '(w, h), ((w, set_insert_page h pid has), Ok tt).

(** The page behind the reference [pin] returned, and a write to it. *)
Definition frame_page (i : nat) : ST HS page :=
  λ '(w, h), match page_at w i with Some p => ((w, h), Ok p) | None => ((w, h), UB) end.
Definition set_frame_page (i : nat) (p : page) : ST HS unit :=
  λ '(w, h), ((assign_page w i p, h), Ok tt).

Definition pin_page (pid : Z) : ST HS nat :=
  h ← the_heap; call_pool (λ w, pin w (file_id h) pid).
Definition unpin_page (pid : Z) (dirty : bool) : ST HS unit :=
  h ← the_heap; call_pool (λ w, unpin w (file_id h) pid dirty).

(** ** Operations *)

(** The constructor. *)
Definition new_HeapFile (w : World St) (f : Z) (store : nat) (types : list DataType)
    : World St * res HeapFile :=
  match register_store w f (Some store) with
  | (w, Ok _) =>
      match objs w !! store with
      | None => (w, UB)
      | Some s =>
          if 0 <? ps_page_count s then (w, Ok (mkHeap f store types (ps_page_count s - 1) true))
          else (w, Ok (mkHeap f store types 0 false))
      end
  | (w, Throw e) => (w, Throw e)
  | (w, UB) => (w, UB)
  end.

(** [try body catch (...) { unpin; throw; }] around the use of a pinned page. *)
Definition or_unpin {A} (pid : Z) (body : ST HS A) : ST HS A :=
  st_catch body (λ e, unpin_page pid false;; st_throw e).

Definition allocate_and_init_page : ST HS Z :=
  page_id ← call_store ps_allocate_page;
  call_store (λ s, ps_write_page s page_id (initialize page_id));;
  mret page_id.

Definition ensure_initialized : ST HS unit :=
  h ← the_heap;
  if has_insert_page h then mret tt
  else
    pid ← allocate_and_init_page;
    set_cursor pid true.

Definition insert_into_page (page_id : Z) (bytes : list Z) : ST HS (Z * Z) :=
  i ← pin_page page_id;
  or_unpin page_id (
    p ← frame_page i;
    '(p', slot) ← st_lift (insert_tuple p (Some bytes) (u_wrap 16 (Z.of_nat (length bytes))));
    set_frame_page i p';;
    unpin_page page_id true;;
    mret (page_id, slot)).

Definition row_too_large : exn := StorageException "Row does not fit in a single page".

Definition oversized (row : Row) : bool :=
  kPageSize <? Z.of_nat (length (serialize_tuple row)) + sizeof_SlotEntry + sizeof_PageHeader.

Definition insert_row (row : Row) : ST HS (Z * Z) :=
  let bytes := serialize_tuple row in
  if oversized row then st_throw row_too_large
  else
    ensure_initialized;;
    h ← the_heap;
    st_catch (insert_into_page (insert_page_id h) bytes)
      (λ e, match e with
            | StorageException _ =>
                pid ← allocate_and_init_page;
                set_cursor pid (has_insert_page h);;
                insert_into_page pid bytes
            | _ => st_throw e
            end).

Definition slot_is_empty : exn := StorageException "Tuple slot is empty".

Definition get_row (pointer : Z * Z) : ST HS Row :=
  i ← pin_page pointer.1;
  bytes ← or_unpin pointer.1 (p ← frame_page i; st_lift (read_tuple p pointer.2));
  unpin_page pointer.1 false;;
  match bytes with
  | None => st_throw slot_is_empty
  | Some bytes => h ← the_heap; st_lift (deserialize_tuple bytes (column_types h))
  end.

Definition delete_slot (pointer : Z * Z) : ST HS unit :=
  i ← pin_page pointer.1;
  or_unpin pointer.1 (
    p ← frame_page i;
    p' ← st_lift (delete_tuple p pointer.2);
    set_frame_page i p';;
    unpin_page pointer.1 true).

Definition update_row (pointer : Z * Z) (row : Row) : ST HS (Z * Z) :=
  let bytes := serialize_tuple row in
  i ← pin_page pointer.1;
  updated ← or_unpin pointer.1 (
    p ← frame_page i;
    '(p', updated) ← st_lift
      (update_tuple_in_place p pointer.2 (Some bytes) (u_wrap 16 (Z.of_nat (length bytes))));
    set_frame_page i p';;
    unpin_page pointer.1 updated;;
    mret updated);
  if updated : bool then mret pointer
  else delete_slot pointer;; insert_row row.

(** [scan]: the visitor is a state transformer that may throw. *)
Section scan.
Context {V : Type} (visitor : V → Z * Z → Row → V * res unit).

Definition visit_slot (types : list DataType) (p : page) (page_id : Z) (v : V) (slot : Z)
    : V * res unit :=
  match is_slot_live p slot with
  | Ok false => (v, Ok tt)
  | Ok true =>
      match read_tuple p slot with
      | Ok None => (v, Ok tt)
      | Ok (Some bytes) =>
          match deserialize_tuple bytes types with
          | Ok row => visitor v (page_id, slot) row
          | Throw e => (v, Throw e) | UB => (v, UB)
          end
      | Throw e => (v, Throw e) | UB => (v, UB)
      end
  | Throw e => (v, Throw e) | UB => (v, UB)
  end.

Fixpoint visit_slots (types : list DataType) (p : page) (page_id : Z) (v : V) (slots : list Z)
    : V * res unit :=
  match slots with
  | [] => (v, Ok tt)
  | slot :: slots =>
      match visit_slot types p page_id v slot with
      | (v, Ok _) => visit_slots types p page_id v slots
      | r => r
      end
  end.

Definition slots_of (p : page) : list Z := Z.of_nat <$> seq 0 (Z.to_nat (hdr_slot_count p)).

(** The state of the visitor travels with the heap's. *)
Fixpoint scan_pages (pids : list Z) (v : V) : ST HS V :=
  match pids with
  | [] => mret v
  | page_id :: pids =>
      h ← the_heap;
      i ← pin_page page_id;
      v ← or_unpin page_id (
        p ← frame_page i;
        let '(v, r) := visit_slots (column_types h) p page_id v (slots_of p) in
        st_lift r;; unpin_page page_id false;; mret v);
      scan_pages pids v
  end.

Definition scan (v : V) : ST HS V :=
  count ← call_store (λ s, (s, Ok (ps_page_count s)));
  scan_pages (Z.of_nat <$> seq 0 (Z.to_nat count)) v.
End scan.

Definition replace_pages (pages : list page) : ST HS unit :=
  h ← the_heap;
  call_pool (λ w, unregister_store w (file_id h));;
  call_store (λ s, ps_replace_pages s pages);;
  call_pool (λ w, register_store w (file_id h) (Some (page_store h)));;
  match pages with
  | [] => set_cursor 0 false
  | _ => set_cursor (u_wrap 32 (Z.of_nat (length pages) - 1)) true
  end.

Definition clear : ST HS unit := replace_pages [].

(** The destructor swallows every exception. *)
Definition destroy : ST HS unit :=
  st_catch
    (h ← the_heap;
     call_pool (λ w, flush_file w (file_id h));;
     call_pool (λ w, unregister_store w (file_id h)))
    (λ _, mret tt).
End heap.

Arguments HeapFile : clear implicits.

(** ** The abstract heap

    A heap is a list of pages, a page a list of slots, a slot a row or empty.
    Pointers never move and slots are never reused. *)

Abbreviation heap := (list (list (option Row))).

Definition row_at (ps : heap) (pointer : Z * Z) : option Row :=
  if (pointer.1 <? 0) || (pointer.2 <? 0) then None
  else ts ← ps !! Z.to_nat pointer.1; mjoin (ts !! Z.to_nat pointer.2).

(** Rows the file can hold: they fit the page and the column types. *)
Definition row_ok (types : list DataType) (row : Row) : Prop :=
  storable_row row ∧ length types = length (row_values row).

(** The entries in scan order. *)
Definition page_entries (i : nat) (ts : list (option Row)) (slots : list nat) : list ((Z * Z) * Row) :=
  omap (λ s, (λ r, ((Z.of_nat i, Z.of_nat s), r)) <$> mjoin (ts !! s)) slots.
Fixpoint entries_from (i : nat) (ps : heap) : list ((Z * Z) * Row) :=
  match ps with
  | [] => []
  | ts :: ps => page_entries i ts (seq 0 (length ts)) ++ entries_from (S i) ps
  end.
Definition entries (ps : heap) : list ((Z * Z) * Row) := entries_from 0 ps.

Section proofs.
Context {St : Type} {PS : PageStore St} {SP : PageStoreSpec St}.
Implicit Types (w : World St) (h : HeapFile).

Definition idle w : Prop := ∀ k, pins w k = 0.

(** A step from an idle pool to an idle pool, after which clients see [v]. *)
Record idle_moves w w' (v : Z * Z → option page) : Prop := {
  im_ok : pool_ok w';
  im_idle : idle w';
  im_view k : view w' k = v k;
  im_stores : stores w' = stores w;
  im_len f : store_len w' f = store_len w f
}.

Abbreviation idle_quiet w w' := (idle_moves w w' (view w)).

Lemma quiet_idle w w' : idle w → pool_moves w w' (view w) (λ _, 0) → idle_quiet w w'.
Proof.
  intros Hi Hq. split; try apply Hq. intros k. rewrite (pm_pins _ _ _ _ Hq), Hi. done.
Qed.

Lemma idle_moves_quiet_l w w1 w2 v : idle_quiet w w1 → idle_moves w1 w2 v → idle_moves w w2 v.
Proof.
  intros H1 H2. split; try apply H2.
  - by rewrite (im_stores _ _ _ H2), (im_stores _ _ _ H1).
  - intros f. by rewrite (im_len _ _ _ H2), (im_len _ _ _ H1).
Qed.

Lemma idle_quiet_trans w w1 w2 : idle_quiet w w1 → idle_quiet w1 w2 → idle_quiet w w2.
Proof.
  intros H1 H2. destruct (idle_moves_quiet_l _ _ _ _ H1 H2). split; try done.
  intros k. by rewrite im_view0, (im_view _ _ _ H1).
Qed.

Lemma idle_has_room w : pool_ok w → idle w → has_room w.
Proof.
  intros Hok Hi. pose proof (po_hand _ Hok) as Hl.
  destruct (lookup_lt_is_Some_2 (frames w) (clock_hand w) Hl) as [fr Hfr].
  exists (clock_hand w), fr. split; [done|]. unfold evictable. destruct (f_occ fr) eqn:Ho; [|done].
  assert (page_table w !! f_key fr = Some (clock_hand w)) as E by (apply (po_table _ Hok); eauto).
  specialize (Hi (f_key fr)). unfold pins in Hi. rewrite E, Hfr in Hi. by rewrite Hi.
Qed.

(** Pinning a page of an idle pool. *)
Lemma pin_idle w k p : pool_ok w → idle w → 0 ≤ k.2 → view w k = Some p →
  ∃ w1 i, pin w k.1 k.2 = (w1, Ok i) ∧ page_at w1 i = Some p ∧ pool_ok w1 ∧
    page_table w1 !! k = Some i ∧ 0 < pins w1 k ∧ (∀ k', view w1 k' = view w k') ∧
    ∀ w2 v, pool_moves w1 w2 v (at_key k (-1)) → idle_moves w w2 v.
Proof.
  intros Hok Hi H0 Hv.
  assert (∃ w1 i, pin w k.1 k.2 = (w1, Ok i) ∧ pool_moves w w1 (view w) (at_key k 1) ∧
    page_table w1 !! k = Some i) as (w1 & i & E & Hm & Ht).
  { destruct (page_table w !! k) as [i|] eqn:Hk.
    - destruct (pin_hit w k i Hok Hk) as (w1 & ?); [rewrite Hi; lia|]. by exists w1, i.
    - pose proof (pin_miss w k Hok Hk (idle_has_room w Hok Hi) H0) as H. by rewrite Hv in H. }
  exists w1, i. split_and!; try done.
  - rewrite <- Hv, <- (pm_view _ _ _ _ Hm k). unfold view. by rewrite Ht.
  - apply Hm.
  - rewrite (pm_pins _ _ _ _ Hm), Hi. unfold at_key. by rewrite decide_True.
  - apply Hm.
  - intros w2 v Hm2. split; try apply Hm2.
    + intros k'. rewrite (pm_pins _ _ _ _ Hm2), (pm_pins _ _ _ _ Hm), Hi.
      unfold at_key. case_decide; lia.
    + by rewrite (pm_stores _ _ _ _ Hm2), (pm_stores _ _ _ _ Hm).
    + intros f. by rewrite (pm_len _ _ _ _ Hm2), (pm_len _ _ _ _ Hm).
Qed.

(** The two ways a pinned page is released. *)
Lemma pin_unpin w k p b : pool_ok w → idle w → 0 ≤ k.2 → view w k = Some p →
  ∃ w1 i w2, pin w k.1 k.2 = (w1, Ok i) ∧ page_at w1 i = Some p ∧ assign_page w1 i p = w1 ∧
    unpin w1 k.1 k.2 b = (w2, Ok tt) ∧ idle_quiet w w2.
Proof.
  intros Hok Hi H0 Hv.
  destruct (pin_idle w k p Hok Hi H0 Hv) as (w1 & i & E & Hp & Hok1 & Ht & Hpin & Hv1 & Hm).
  destruct (unpin_ok w1 k b Hok1 Hpin) as (w2 & E2 & Hm2 & _). exists w1, i, w2. split_and!; try done.
  - unfold page_at in Hp. unfold assign_page. destruct (frames w1 !! i) as [fr|] eqn:Hfr; [|done].
    injection Hp as <-. destruct w1, fr. unfold set_frame. cbn in *. f_equal. by apply list_insert_id.
  - apply Hm in Hm2 as Hm3. split; try apply Hm3. intros k'. by rewrite (im_view _ _ _ Hm3).
Qed.

Definition set_view (v : Z * Z → option page) (k : Z * Z) (p : page) : Z * Z → option page :=
  λ k', if decide (k' = k) then Some p else v k'.

Lemma pin_write w k p p' : pool_ok w → idle w → 0 ≤ k.2 → view w k = Some p → is_page p' →
  ∃ w1 i w2, pin w k.1 k.2 = (w1, Ok i) ∧ page_at w1 i = Some p ∧
    unpin (assign_page w1 i p') k.1 k.2 true = (w2, Ok tt) ∧
    idle_moves w w2 (set_view (view w) k p').
Proof.
  intros Hok Hi H0 Hv Hpg.
  destruct (pin_idle w k p Hok Hi H0 Hv) as (w1 & i & E & Hp & Hok1 & Ht & Hpin & Hv1 & Hm).
  destruct (write_unpin_ok w1 k i p' Hok1 Ht Hpin Hpg) as (w2 & E2 & Hm2 & _).
  exists w1, i, w2. split_and!; try done. apply Hm in Hm2 as Hm3. split; try apply Hm3.
  intros k'. rewrite (im_view _ _ _ Hm3). unfold set_view. case_decide; [done|]. apply Hv1.
Qed.

(** A page that does not exist cannot be pinned. *)
Lemma pin_absent w k : pool_ok w → idle w → 0 ≤ k.2 → view w k = None →
  ∃ w1, pin w k.1 k.2 = (w1, Throw (missing_page w k.1)) ∧ idle_quiet w w1.
Proof.
  intros Hok Hi H0 Hv. destruct (page_table w !! k) as [i|] eqn:Hk.
  { destruct (page_table_key w k i Hok Hk) as (fr & _ & _ & _ & _ & E). congruence. }
  pose proof (pin_miss w k Hok Hk (idle_has_room w Hok Hi) H0) as H. rewrite Hv in H.
  destruct H as (w1 & E & Hq). exists w1. split; [done|]. by apply quiet_idle.
Qed.

(** *** Representation *)

Definition slots_bytes (ts : list (option Row)) : list (option (list Z)) :=
  option_map serialize_tuple <$> ts.

(** The heap file [h] in the world [w] holds the abstract heap [ps]. *)
Record heap_rep w h (ps : heap) : Prop := {
  hr_pool : pool_ok w;
  hr_idle : idle w;
  hr_store : stores w !! file_id h = Some (page_store h);
  hr_len : store_len w (file_id h) = Some (length ps);
  hr_pages i ts : ps !! i = Some ts →
    ∃ p id, view w (file_id h, Z.of_nat i) = Some p ∧ page_rep p id (slots_bytes ts);
  hr_rows i ts s row : ps !! i = Some ts → ts !! s = Some (Some row) → row_ok (column_types h) row;
  hr_cursor : has_insert_page h = bool_decide (ps ≠ []);
  hr_insert : ps ≠ [] → insert_page_id h = Z.of_nat (length ps) - 1
}.

Lemma is_page_rep p id ts : page_rep p id ts → is_page p.
Proof. intros H. apply is_page_Z. by rewrite (page_rep_length _ _ _ H). Qed.

Lemma heap_view_none w h ps pid :
  heap_rep w h ps → Z.of_nat (length ps) ≤ pid → view w (file_id h, pid) = None.
Proof.
  intros H Hp. unfold view. destruct (page_table w !! (file_id h, pid)) as [i|] eqn:Hk.
  - destruct (page_table_key w _ i (hr_pool _ _ _ H) Hk) as (fr & Hi & Ho & [= E1 E2] & _).
    destruct (po_coherent _ (hr_pool _ _ _ H) i fr Hi Ho) as (_ & _ & q & Hq & _).
    pose proof (hr_len _ _ _ H) as Hl. unfold store_page in Hq. unfold store_len in Hl.
    rewrite E1, E2 in Hq. destruct (pid <? 0); [done|].
    destruct (stores w !! file_id h) as [ptr|]; [|done]. cbn [mbind option_bind] in Hq, Hl.
    destruct (objs w !! ptr); [|done]. cbn in Hq, Hl. injection Hl as Hl.
    apply lookup_lt_Some in Hq. lia.
  - pose proof (hr_len _ _ _ H) as Hl. unfold store_page, store_len in *. cbn [fst snd].
    destruct (Z.ltb_spec pid 0); [done|].
    destruct (stores w !! file_id h) as [ptr|]; [|done]. cbn [mbind option_bind] in Hl |- *.
    destruct (objs w !! ptr); [|done]. cbn in Hl |- *. injection Hl as Hl.
    apply lookup_ge_None. lia.
Qed.

(** A quiet step keeps the heap. *)
Lemma heap_rep_quiet w w' h ps : heap_rep w h ps → idle_quiet w w' → heap_rep w' h ps.
Proof.
  intros [] Hq. split; try done; try apply Hq.
  - by rewrite (im_stores _ _ _ Hq).
  - by rewrite (im_len _ _ _ Hq).
  - intros i ts Hi. rewrite (im_view _ _ _ Hq). by apply hr_pages0.
Qed.

(** A page of the heap is rewritten. *)
Lemma heap_rep_write w w' h ps i ts ts' p id :
  heap_rep w h ps → idle_moves w w' (set_view (view w) (file_id h, Z.of_nat i) p) →
  ps !! i = Some ts → page_rep p id (slots_bytes ts') →
  (∀ s row, ts' !! s = Some (Some row) → row_ok (column_types h) row) →
  heap_rep w' h (<[i := ts']> ps).
Proof.
  intros H Hm Hi Hp Hrows. pose proof (lookup_lt_Some _ _ _ Hi) as Hlt.
  assert (Hne : (<[i := ts']> ps ≠ []) ↔ ps ≠ []).
  { destruct ps; [done|]. destruct i; done. }
  destruct H. split; try apply Hm.
  - by rewrite (im_stores _ _ _ Hm).
  - by rewrite (im_len _ _ _ Hm), length_insert.
  - intros j ts1 Hj. rewrite (im_view _ _ _ Hm). unfold set_view.
    apply list_lookup_insert_Some in Hj as [(<- & <- & _)|[Hn Hj]].
    + rewrite decide_True by done. eauto.
    + rewrite decide_False by (intros [=]; lia). by apply hr_pages0.
  - intros j ts1 s row Hj Hs.
    apply list_lookup_insert_Some in Hj as [(<- & <- & _)|[Hn Hj]]; eauto.
  - rewrite hr_cursor0. apply bool_decide_ext. by rewrite Hne.
  - rewrite Hne, length_insert. done.
Qed.

(** *** Functional behaviour of the operations *)

Lemma pin_page_eq pid w h :
  pin_page pid (w, h) = let '(w', r) := pin w (file_id h) pid in ((w', h), r).
Proof. reflexivity. Qed.
Lemma unpin_page_eq pid b w h :
  unpin_page pid b (w, h) = let '(w', r) := unpin w (file_id h) pid b in ((w', h), r).
Proof. reflexivity. Qed.
Lemma or_unpin_eq {A} pid (body : ST (World St * HeapFile) A) s :
  or_unpin pid body s =
  match body s with
  | (s', Throw e) => (unpin_page pid false;; st_throw e) s'
  | r => r
  end.
Proof. reflexivity. Qed.

Ltac heap_cbn :=
  repeat first
    [ rewrite ST_bind_eq | rewrite pin_page_eq | rewrite unpin_page_eq | rewrite or_unpin_eq
    | progress (cbn [mret ST_ret the_heap call_pool st_catch st_lift st_throw set_frame_page
                     set_cursor fst snd]) ].

Lemma frame_page_eq w h i p : page_at w i = Some p → frame_page i (w, h) = ((w, h), Ok p).
Proof. intros E. unfold frame_page. by rewrite E. Qed.

Lemma row_at_slots ps i s ts : ps !! i = Some ts →
  row_at ps (Z.of_nat i, Z.of_nat s) = mjoin (ts !! s).
Proof.
  intros Hi. unfold row_at. cbn [fst snd].
  rewrite (proj2 (Z.ltb_ge _ _)), (proj2 (Z.ltb_ge (Z.of_nat s) _)) by lia. cbn [orb].
  rewrite !Nat2Z.id, Hi. done.
Qed.

Lemma slots_bytes_at ts s :
  mjoin (slots_bytes ts !! s) = serialize_tuple <$> mjoin (ts !! s).
Proof. unfold slots_bytes. rewrite list_lookup_fmap. by destruct (ts !! s) as [[]|]. Qed.

Lemma get_row_ok w h ps i s :
  heap_rep w h ps →
  ∃ w', get_row (Z.of_nat i, Z.of_nat s) (w, h) =
    ((w', h), match ps !! i with
              | None => Throw bad_page_id
              | Some ts => match mjoin (ts !! s) with
                           | Some row => Ok row
                           | None => Throw slot_is_empty
                           end
              end) ∧ heap_rep w' h ps.
Proof.
  intros H. unfold get_row. destruct (ps !! i) as [ts|] eqn:Hi.
  - destruct (hr_pages _ _ _ H i ts Hi) as (p & id & Hv & Hp).
    destruct (pin_unpin w (file_id h, Z.of_nat i) p false (hr_pool _ _ _ H) (hr_idle _ _ _ H))
      as (w1 & f & w2 & E1 & E2 & _ & E3 & Hq); [cbn; lia|done|]. cbn [fst snd] in E1, E3.
    heap_cbn. rewrite E1. heap_cbn. rewrite (frame_page_eq _ _ _ _ E2). heap_cbn.
    rewrite (page_rep_read _ _ _ s Hp), slots_bytes_at. heap_cbn. rewrite E3. heap_cbn.
    exists w2. split; [|by eapply heap_rep_quiet].
    destruct (ts !! s) as [[row|]|] eqn:Hs;
      cbn [mjoin option_join fmap option_fmap option_map]; heap_cbn; [|done|done].
    destruct (hr_rows _ _ _ H i ts s row Hi Hs) as [Hr Hl].
    by rewrite deserialize_serialize_tuple.
  - apply lookup_ge_None in Hi.
    destruct (pin_absent w (file_id h, Z.of_nat i) (hr_pool _ _ _ H) (hr_idle _ _ _ H))
      as (w1 & E1 & Hq).
    { cbn. lia. }
    { eapply heap_view_none; [done|lia]. }
    cbn [fst snd] in E1. exists w1. heap_cbn. rewrite E1. split; [|by eapply heap_rep_quiet].
    unfold missing_page. by rewrite (hr_store _ _ _ H).
Qed.

Lemma slots_bytes_insert ts s o :
  slots_bytes (<[s := o]> ts) = <[s := option_map serialize_tuple o]> (slots_bytes ts).
Proof. apply list_fmap_insert. Qed.

Lemma delete_slot_ok w h ps i s ts :
  heap_rep w h ps → ps !! i = Some ts →
  ∃ w', if (s <? length ts)%nat
    then delete_slot (Z.of_nat i, Z.of_nat s) (w, h) = ((w', h), Ok tt) ∧
         heap_rep w' h (<[i := <[s := None]> ts]> ps)
    else delete_slot (Z.of_nat i, Z.of_nat s) (w, h) =
           ((w', h), Throw (StorageException "Invalid slot index")) ∧ heap_rep w' h ps.
Proof.
  intros H Hi. unfold delete_slot. destruct (hr_pages _ _ _ H i ts Hi) as (p & id & Hv & Hp).
  assert (Hl : length (slots_bytes ts) = length ts) by apply length_fmap.
  destruct (Nat.ltb_spec s (length ts)) as [Hlt|Hge].
  - destruct (page_rep_delete p id (slots_bytes ts) s Hp) as (p' & Ed & Hp' & _); [lia|].
    destruct (pin_write w (file_id h, Z.of_nat i) p p' (hr_pool _ _ _ H) (hr_idle _ _ _ H))
      as (w1 & f & w2 & E1 & E2 & E3 & Hm); [cbn; lia|done|by eapply is_page_rep|].
    cbn [fst snd] in E1, E3. heap_cbn. rewrite E1. heap_cbn. rewrite (frame_page_eq _ _ _ _ E2).
    heap_cbn. rewrite Ed. heap_cbn. rewrite E3. exists w2. split; [done|].
    eapply heap_rep_write; [done|done|done| |].
    + rewrite slots_bytes_insert. exact Hp'.
    + intros s' row Hs. apply list_lookup_insert_Some in Hs as [(_ & ? & _)|[_ Hs]]; [done|].
      by eapply (hr_rows _ _ _ H).
  - destruct (pin_unpin w (file_id h, Z.of_nat i) p false (hr_pool _ _ _ H) (hr_idle _ _ _ H))
      as (w1 & f & w2 & E1 & E2 & _ & E3 & Hq); [cbn; lia|done|]. cbn [fst snd] in E1, E3.
    heap_cbn. rewrite E1. heap_cbn. rewrite (frame_page_eq _ _ _ _ E2). heap_cbn.
    rewrite (delete_tuple_invalid p id (slots_bytes ts) s Hp) by lia. heap_cbn. rewrite E3.
    exists w2. split; [done|]. by eapply heap_rep_quiet.
Qed.

(** [insert_into_page]: the row goes to the next slot of the page, or nothing
    changes. *)
Lemma u_wrap_16_small n : Z.of_nat n < 2 ^ 16 → u_wrap 16 (Z.of_nat n) = Z.of_nat n.
Proof. intros. unfold u_wrap. apply Z.mod_small. lia. Qed.


Definition does_not_fit : exn := StorageException "Tuple does not fit on page".

Lemma insert_into_page_ok w h ps i ts row :
  heap_rep w h ps → ps !! i = Some ts → row_ok (column_types h) row →
  Z.of_nat (length (serialize_tuple row)) < 2 ^ 16 →
  ∃ w',
    (insert_into_page (Z.of_nat i) (serialize_tuple row) (w, h) =
       ((w', h), Ok (Z.of_nat i, Z.of_nat (length ts))) ∧
     heap_rep w' h (<[i := ts ++ [Some row]]> ps)) ∨
    (insert_into_page (Z.of_nat i) (serialize_tuple row) (w, h) = ((w', h), Throw does_not_fit) ∧
     heap_rep w' h ps ∧
     ∃ p id, view w (file_id h, Z.of_nat i) = Some p ∧ page_rep p id (slots_bytes ts) ∧
       get_free_space p < Z.of_nat (length (serialize_tuple row)) + 4).
Proof.
  intros H Hi Hrow Hlen. unfold insert_into_page.
  destruct (hr_pages _ _ _ H i ts Hi) as (p & id & Hv & Hp).
  pose proof (page_rep_insert p id _ _ Hp (serialize_tuple_bytes row)) as Hins.
  destruct (Z.ltb_spec (get_free_space p) (Z.of_nat (length (serialize_tuple row)) + 4)) as [Hlt|Hge].
  - destruct (pin_unpin w (file_id h, Z.of_nat i) p false (hr_pool _ _ _ H) (hr_idle _ _ _ H))
      as (w1 & f & w2 & E1 & E2 & _ & E3 & Hq); [cbn; lia|done|]. cbn [fst snd] in E1, E3.
    heap_cbn. rewrite E1. heap_cbn. rewrite (frame_page_eq _ _ _ _ E2). heap_cbn.
    rewrite u_wrap_16_small, Hins by done. heap_cbn. rewrite E3. exists w2. right.
    split_and!; [done|by eapply heap_rep_quiet|]. eauto.
  - destruct Hins as (p' & Ei & Hp' & _).
    destruct (pin_write w (file_id h, Z.of_nat i) p p' (hr_pool _ _ _ H) (hr_idle _ _ _ H))
      as (w1 & f & w2 & E1 & E2 & E3 & Hm); [cbn; lia|done|by eapply is_page_rep|].
    cbn [fst snd] in E1, E3. heap_cbn. rewrite E1. heap_cbn. rewrite (frame_page_eq _ _ _ _ E2).
    heap_cbn. rewrite u_wrap_16_small, Ei by done. heap_cbn. rewrite E3. exists w2. left. split.
    { cbn. unfold slots_bytes. by rewrite length_fmap. }
    eapply heap_rep_write; [done|done|done| |].
    + unfold slots_bytes. rewrite fmap_app. cbn.
      pose proof (length_serialize_tuple row). unfold stored in Hp'.
      destruct (serialize_tuple row); [cbn in *; lia|done].
    + intros s r Hs. apply lookup_app_Some in Hs as [Hs|[_ Hs]].
      * by eapply (hr_rows _ _ _ H).
      * destruct (s - length ts)%nat as [|n]; cbn in Hs; [by injection Hs as <-|done].
Qed.

(** A fresh page goes to the end of the file. *)
Lemma view_len w f n : pool_ok w → store_len w f = Some n → view w (f, Z.of_nat n) = None.
Proof.
  intros Hok Hl. unfold view. destruct (page_table w !! (f, Z.of_nat n)) as [i|] eqn:Hk.
  - destruct (page_table_key w _ i Hok Hk) as (fr & Hi & Ho & [= E1 E2] & _).
    destruct (po_coherent _ Hok i fr Hi Ho) as (_ & _ & q & Hq & _).
    unfold store_page, store_len in *. rewrite E1, E2 in Hq.
    rewrite (proj2 (Z.ltb_ge _ _)) in Hq by lia.
    destruct (stores w !! f) as [ptr|]; [|done]. cbn [mbind option_bind] in Hq, Hl.
    destruct (objs w !! ptr); [|done]. cbn in Hq, Hl. injection Hl as Hl.
    apply lookup_lt_Some in Hq. lia.
  - unfold store_page, store_len in *. cbn [fst snd]. rewrite (proj2 (Z.ltb_ge _ _)) by lia.
    destruct (stores w !! f) as [ptr|]; [|done]. cbn [mbind option_bind] in Hl |- *.
    destruct (objs w !! ptr); [|done]. cbn in Hl |- *. injection Hl as Hl.
    apply lookup_ge_None. lia.
Qed.

(** Appending a page to a registered store, behind the pool's back. *)
Lemma append_page_ok w f ptr s s' p :
  pool_ok w → idle w → stores w !! f = Some ptr → objs w !! ptr = Some s → ps_ok s' →
  ps_pages s' = ps_pages s ++ [p] →
  let w' := set_obj w ptr s' in
  pool_ok w' ∧ idle w' ∧ store_len w' f = Some (length (ps_pages s) + 1)%nat ∧
  (∀ k, k ≠ (f, Z.of_nat (length (ps_pages s))) → view w' k = view w k) ∧
  view w' (f, Z.of_nat (length (ps_pages s))) = Some p.
Proof.
  intros Hok Hi Hf Hs Hs' Hp w'.
  assert (Hsp : ∀ f' pid, (f', pid) ≠ (f, Z.of_nat (length (ps_pages s))) →
    store_page w' f' pid = store_page w f' pid).
  { intros f' pid Hne. unfold store_page, w'. cbn [stores set_obj objs].
    destruct (Z.ltb_spec pid 0); [done|].
    destruct (stores w !! f') as [ptr'|] eqn:Hf'; cbn [mbind option_bind]; [|done].
    destruct (decide (ptr' = ptr)) as [->|Hn]; [|by rewrite lookup_insert_ne].
    assert (f' = f) as -> by (by eapply (po_distinct _ Hok)).
    rewrite lookup_insert_eq, Hs. cbn [mbind option_bind]. rewrite Hp.
    assert (pid ≠ Z.of_nat (length (ps_pages s))) by congruence.
    destruct (decide (Z.to_nat pid < length (ps_pages s))%nat).
    - by apply lookup_app_l.
    - rewrite lookup_app_r by lia. rewrite (lookup_ge_None_2 (ps_pages s)) by lia.
      apply lookup_ge_None. cbn. lia. }
  assert (Hl : store_len w f = Some (length (ps_pages s))).
  { unfold store_len. rewrite Hf. cbn. by rewrite Hs. }
  assert (Hnone := view_len w f _ Hok Hl).
  assert (Htab : page_table w !! (f, Z.of_nat (length (ps_pages s))) = None).
  { destruct (page_table w !! _) as [i|] eqn:Hk; [|done].
    destruct (page_table_key w _ i Hok Hk) as (fr & _ & _ & _ & _ & E). congruence. }
  split_and!; [split| | | |].
  - apply (po_hand _ Hok).
  - apply (po_table _ Hok).
  - apply (po_pin _ Hok).
  - intros i fr Hfr Ho. rewrite Hsp; [by apply (po_coherent _ Hok i)|].
    intros E. assert (page_table w !! f_key fr = Some i) as E2 by (apply (po_table _ Hok); eauto).
    unfold f_key in E2. congruence.
  - intros f' ptr' Hf'. cbn in Hf' |- *. destruct (decide (ptr' = ptr)) as [->|Hn].
    + rewrite lookup_insert_eq. eauto.
    + rewrite lookup_insert_ne by done. by apply (po_stores _ Hok f').
  - apply (po_distinct _ Hok).
  - apply Hi.
  - unfold store_len. cbn. rewrite Hf. cbn. rewrite lookup_insert_eq. cbn.
    by rewrite Hp, length_app.
  - intros k Hne. unfold view. cbn. destruct (page_table w !! k); [done|].
    apply Hsp. by destruct k.
  - unfold view. cbn [page_table w' set_obj]. rewrite Htab. unfold store_page. cbn.
    rewrite (proj2 (Z.ltb_ge _ _)) by lia. rewrite Hf. cbn. rewrite lookup_insert_eq. cbn.
    rewrite Hp, Nat2Z.id, lookup_app_r by lia. by rewrite Nat.sub_diag.
Qed.

Lemma alloc_page_ok w h ps :
  heap_rep w h ps → Z.of_nat (length ps) + 1 < 2 ^ 32 →
  let n := Z.of_nat (length ps) in
  ∃ w', allocate_and_init_page (w, h) = ((w', h), Ok n) ∧
    (∀ b, b = true → heap_rep w' (set_insert_page h n b) (ps ++ [[]])) ∧
    view w' (file_id h, n) = Some (initialize n).
Proof.
  intros H Hn n. pose proof (hr_store _ _ _ H) as Hf. pose proof (hr_len _ _ _ H) as Hl.
  destruct (po_stores _ (hr_pool _ _ _ H) _ _ Hf) as (s & Hs & Hsok).
  unfold store_len in Hl. rewrite Hf in Hl. cbn [mbind option_bind] in Hl. rewrite Hs in Hl.
  cbn in Hl. injection Hl as Hl.
  destruct (ps_allocate_page_ok s Hsok) as (s1 & E1 & Hs1 & Hp1); [lia|].
  destruct (ps_write_page_ok s1 (length ps) (initialize n) Hs1) as (s2 & E2 & Hs2 & Hp2).
  { apply is_page_initialize. red. lia. }
  { rewrite Hp1, length_app. cbn. lia. }
  rewrite Hl in E1. fold n in E1, E2.
  assert (Hp : ps_pages s2 = ps_pages s ++ [initialize n]).
  { rewrite Hp2, Hp1, <- Hl, insert_app_r_alt by lia. by rewrite Nat.sub_diag. }
  destruct (append_page_ok w (file_id h) (page_store h) s s2 (initialize n))
    as (Hok' & Hidle' & Hlen' & Hother & Hnew); try done; try apply H.
  exists (set_obj w (page_store h) s2). split_and!.
  - unfold allocate_and_init_page. rewrite ST_bind_eq. unfold call_store at 1. rewrite Hs, E1.
    rewrite ST_bind_eq. unfold call_store. cbn [objs set_obj]. rewrite lookup_insert_eq, E2.
    cbn. unfold set_obj. cbn. by rewrite insert_insert_eq.
  - intros b ->. destruct H. split; try done.
    + cbn [file_id set_insert_page]. rewrite Hlen', length_app. cbn. by rewrite Hl.
    + intros i ts Hi. cbn [file_id set_insert_page].
      apply lookup_app_Some in Hi as [Hi|[Hge Hi]].
      * apply lookup_lt_Some in Hi as Hlt. rewrite Hother by (intros [=]; lia). by apply hr_pages0.
      * destruct (i - length ps)%nat as [|k] eqn:Hk; [|done]. injection Hi as <-.
        assert (i = length ps) as -> by lia. rewrite <- Hl. rewrite Hnew.
        exists (initialize n), n. split; [done|]. apply page_rep_init. red. lia.
    + intros i ts s0 row Hi Hr. apply lookup_app_Some in Hi as [Hi|[Hge Hi]]; [by eapply hr_rows0|].
      destruct (i - length ps)%nat as [|k]; [|done]. injection Hi as <-. done.
    + cbn. symmetry. apply bool_decide_eq_true. by destruct ps.
    + intros _. cbn. rewrite length_app. cbn. lia.
  - rewrite <- Hnew. unfold n. by rewrite Hl.
Qed.

Lemma free_space_initialize id : is_u32 id → get_free_space (initialize id) = 8180.
Proof.
  intros Hid. pose proof (initialize_ok id Hid) as Hok. unfold get_free_space.
  by rewrite (ok_lower _ _ _ _ Hok), (ok_upper _ _ _ _ Hok).
Qed.

Lemma not_oversized row : oversized row = false →
  Z.of_nat (length (serialize_tuple row)) + 4 ≤ 8180.
Proof.
  unfold oversized, kPageSize, sizeof_SlotEntry, sizeof_PageHeader. intros H%Z.ltb_ge. lia.
Qed.

(** Inserting into a page that has just been initialised. *)
Lemma insert_fresh_ok w h ps row :
  heap_rep w h (ps ++ [[]]) → row_ok (column_types h) row → oversized row = false →
  Z.of_nat (length ps) + 1 < 2 ^ 32 →
  view w (file_id h, Z.of_nat (length ps)) = Some (initialize (Z.of_nat (length ps))) →
  ∃ w', insert_into_page (Z.of_nat (length ps)) (serialize_tuple row) (w, h) =
      ((w', h), Ok (Z.of_nat (length ps), 0)) ∧
    heap_rep w' h (ps ++ [[Some row]]).
Proof.
  intros H Hrow Ho Hn Hv. pose proof (not_oversized row Ho) as Hsz.
  destruct (insert_into_page_ok w h (ps ++ [[]]) (length ps) [] row H) as (w' & [[E Hr]|[_ [_ Hfull]]]);
    try done.
  - rewrite lookup_app_r by lia. by rewrite Nat.sub_diag.
  - lia.
  - exists w'. split; [done|]. rewrite insert_app_r_alt, Nat.sub_diag in Hr by lia. done.
  - destruct Hfull as (p & id & Hv' & _ & Hlt). rewrite Hv in Hv'. injection Hv' as <-.
    rewrite free_space_initialize in Hlt by (red; lia). lia.
Qed.

(** *** The heap as a map from pointers to rows *)

Lemma row_at_Some ps ptr row : row_at ps ptr = Some row ↔
  ∃ i s ts, ptr = (Z.of_nat i, Z.of_nat s) ∧ ps !! i = Some ts ∧ ts !! s = Some (Some row).
Proof.
  split.
  - unfold row_at. destruct ptr as [a b]. cbn [fst snd].
    destruct (Z.ltb_spec a 0), (Z.ltb_spec b 0); cbn [orb]; try done.
    destruct (ps !! Z.to_nat a) as [ts|] eqn:Ha; [|done]. cbn [mbind option_bind].
    destruct (ts !! Z.to_nat b) as [[r|]|] eqn:Hb; try done. intros [= ->].
    exists (Z.to_nat a), (Z.to_nat b), ts. split_and!; try done. f_equal; lia.
  - intros (i & s & ts & -> & Hi & Hs). rewrite (row_at_slots ps i s ts Hi), Hs. done.
Qed.

(** One slot of the heap changes. *)
Definition set_row (m : Z * Z → option Row) (ptr : Z * Z) (o : option Row) : Z * Z → option Row :=
  λ q, if decide (q = ptr) then o else m q.

Lemma option_ext {A} (o1 o2 : option A) : (∀ x, o1 = Some x ↔ o2 = Some x) → o1 = o2.
Proof.
  intros H. destruct o1 as [x|].
  - symmetry. by apply H.
  - destruct o2 as [y|]; [|done]. by apply H.
Qed.

Lemma row_at_update ps i ts s o :
  ps !! i = Some ts → (s < length ts)%nat → ∀ q,
  row_at (<[i := <[s := o]> ts]> ps) q = set_row (row_at ps) (Z.of_nat i, Z.of_nat s) o q.
Proof.
  intros Hi Hs q. unfold set_row. pose proof (lookup_lt_Some _ _ _ Hi) as Hlt. case_decide as Hq.
  - subst q. rewrite (row_at_slots _ i s (<[s := o]> ts)) by (by apply list_lookup_insert_eq).
    rewrite list_lookup_insert_eq by done. by destruct o.
  - apply option_ext. intros row. rewrite !row_at_Some. split.
    + intros (j & s' & ts' & -> & Hj & Hs').
      apply list_lookup_insert_Some in Hj as [(<- & <- & _)|[Hne Hj]]; [|eauto 10].
      rewrite list_lookup_insert_ne in Hs' by congruence. eauto 10.
    + intros (j & s' & ts' & -> & Hj & Hs'). destruct (decide (j = i)) as [->|Hne].
      * assert (ts' = ts) as -> by congruence. exists i, s', (<[s := o]> ts).
        rewrite list_lookup_insert_eq, list_lookup_insert_ne by congruence. done.
      * exists j, s', ts'. by rewrite list_lookup_insert_ne.
Qed.

Lemma row_at_append ps i ts row :
  ps !! i = Some ts → ∀ q,
  row_at (<[i := ts ++ [Some row]]> ps) q =
  set_row (row_at ps) (Z.of_nat i, Z.of_nat (length ts)) (Some row) q.
Proof.
  intros Hi q. pose proof (lookup_lt_Some _ _ _ Hi) as Hlt.
  assert (E : ∀ q, row_at (<[i := ts ++ [None]]> ps) q = row_at ps q).
  { intros q'. apply option_ext. intros r. rewrite !row_at_Some. split.
    - intros (j & s' & ts' & -> & Hj & Hs').
      apply list_lookup_insert_Some in Hj as [(<- & <- & _)|[Hne Hj]]; [|eauto 10].
      apply lookup_app_Some in Hs' as [Hs'|[_ Hs']]; [eauto 10|].
      by destruct (s' - length ts)%nat.
    - intros (j & s' & ts' & -> & Hj & Hs'). destruct (decide (j = i)) as [->|Hne].
      + assert (ts' = ts) as -> by congruence. exists i, s', (ts ++ [None]).
        rewrite list_lookup_insert_eq by done. rewrite lookup_app_l by (by eapply lookup_lt_Some). done.
      + exists j, s', ts'. by rewrite list_lookup_insert_ne. }
  pose proof (row_at_update (<[i := ts ++ [None]]> ps) i (ts ++ [None]) (length ts) (Some row)) as U.
  rewrite list_lookup_insert_eq in U by done. specialize (U eq_refl).
  rewrite length_app in U. specialize (U ltac:(cbn; lia) q).
  rewrite list_insert_insert_eq, insert_app_r_alt, Nat.sub_diag in U by lia. cbn in U. rewrite U.
  unfold set_row. case_decide; [done|apply E].
Qed.

Lemma row_at_new_page ps q : row_at (ps ++ [[]]) q = row_at ps q.
Proof.
  apply option_ext. intros row. rewrite !row_at_Some. split.
  - intros (j & s' & ts' & -> & Hj & Hs'). apply lookup_app_Some in Hj as [Hj|[_ Hj]]; [eauto 10|].
    destruct (j - length ps)%nat; [|done]. by injection Hj as <-.
  - intros (j & s' & ts' & -> & Hj & Hs'). exists j, s', ts'.
    rewrite lookup_app_l by (by eapply lookup_lt_Some). done.
Qed.

Lemma row_at_fresh_page ps row q :
  row_at (ps ++ [[Some row]]) q = set_row (row_at ps) (Z.of_nat (length ps), 0) (Some row) q.
Proof.
  pose proof (row_at_append (ps ++ [[]]) (length ps) [] row) as U.
  rewrite lookup_app_r, Nat.sub_diag in U by lia. specialize (U eq_refl q).
  rewrite insert_app_r_alt, Nat.sub_diag in U by lia. etrans; [exact U|]. unfold set_row.
  change (Z.of_nat (length [])) with 0. case_decide; [done|apply row_at_new_page].
Qed.

Lemma row_at_end ps i ts : ps !! i = Some ts → row_at ps (Z.of_nat i, Z.of_nat (length ts)) = None.
Proof. intros Hi. rewrite (row_at_slots _ _ _ _ Hi). by rewrite (lookup_ge_None_2 ts) by lia. Qed.

(** [h'] is the heap file [h] with its insertion cursor moved. *)
Definition same_file h h' : Prop :=
  file_id h' = file_id h ∧ page_store h' = page_store h ∧ column_types h' = column_types h.

Lemma insert_row_ok w h ps row :
  heap_rep w h ps → row_ok (column_types h) row → oversized row = false →
  Z.of_nat (length ps) + 1 < 2 ^ 32 →
  ∃ w' h' ps' ptr, insert_row row (w, h) = ((w', h'), Ok ptr) ∧ heap_rep w' h' ps' ∧
    same_file h h' ∧ (length ps' ≤ length ps + 1)%nat ∧ row_at ps ptr = None ∧
    ∀ q, row_at ps' q = set_row (row_at ps) ptr (Some row) q.
Proof.
  intros H Hrow Ho Hn. unfold insert_row. rewrite Ho.
  assert (Hfresh : ∀ q, row_at ps (Z.of_nat (length ps), q) = None).
  { intros q. apply eq_None_not_Some. intros [r (i & s & ts & [= Hi _] & Hl & _)%row_at_Some].
    apply lookup_lt_Some in Hl. lia. }
  destruct (has_insert_page h) eqn:Hhas.
  - (* the cursor is on the last page *)
    rewrite ST_bind_eq. unfold ensure_initialized. rewrite ST_bind_eq. cbn [the_heap].
    rewrite Hhas. cbn [mret ST_ret]. rewrite ST_bind_eq. cbn [the_heap]. unfold st_catch.
    rewrite (hr_cursor _ _ _ H) in Hhas. apply bool_decide_eq_true in Hhas.
    rewrite (hr_insert _ _ _ H Hhas).
    assert (Hlen : (0 < length ps)%nat) by (destruct ps; [done|cbn; lia]).
    replace (Z.of_nat (length ps) - 1) with (Z.of_nat (length ps - 1)) by lia.
    destruct (lookup_lt_is_Some_2 ps (length ps - 1)) as [ts Hts]; [lia|].
    pose proof (not_oversized row Ho).
    destruct (insert_into_page_ok w h ps _ ts row H Hts Hrow) as (w' & [[E Hr]|[E [Hr _]]]); [lia| |].
    + rewrite E. exists w', h. eexists _, _. split; [reflexivity|].
      split_and!; [done|done| | |].
      * rewrite length_insert. lia.
      * by apply row_at_end.
      * by apply row_at_append.
    + rewrite E. unfold does_not_fit. rewrite ST_bind_eq.
      destruct (alloc_page_ok w' h ps Hr Hn) as (w1 & -> & Hrep & Hv). rewrite ST_bind_eq. cbn [set_cursor].
      rewrite (hr_cursor _ _ _ H), bool_decide_eq_true_2 by done.
      specialize (Hrep true eq_refl).
      destruct (insert_fresh_ok w1 _ ps row Hrep Hrow Ho Hn Hv) as (w2 & -> & Hr2).
      eexists _, _, _, _. split; [reflexivity|]. split_and!; [done|done|..].
      * rewrite length_app. cbn. lia.
      * apply Hfresh.
      * apply row_at_fresh_page.
  - rewrite ST_bind_eq. unfold ensure_initialized. rewrite ST_bind_eq. cbn [the_heap]. rewrite Hhas.
    rewrite ST_bind_eq. destruct (alloc_page_ok w h ps H Hn) as (w1 & -> & Hrep & Hv).
    cbn [set_cursor]. rewrite ST_bind_eq. cbn [the_heap]. unfold st_catch.
    specialize (Hrep true eq_refl). cbn [insert_page_id set_insert_page].
    destruct (insert_fresh_ok w1 _ ps row Hrep Hrow Ho Hn Hv) as (w2 & -> & Hr2).
    eexists _, _, _, _. split; [reflexivity|]. split_and!; [done|done|..].
    + rewrite length_app. cbn. lia.
    + apply Hfresh.
    + apply row_at_fresh_page.
Qed.

(** The in-place half of [update_row]. *)
Lemma update_in_place_ok w h ps i s ts row old :
  heap_rep w h ps → ps !! i = Some ts → ts !! s = Some (Some old) →
  row_ok (column_types h) row → Z.of_nat (length (serialize_tuple row)) < 2 ^ 16 →
  length (serialize_tuple row) = length (serialize_tuple old) →
  ∃ w', update_row (Z.of_nat i, Z.of_nat s) row (w, h) = ((w', h), Ok (Z.of_nat i, Z.of_nat s)) ∧
    heap_rep w' h (<[i := <[s := Some row]> ts]> ps).
Proof.
  intros H Hi Hs Hrow Hlen Heq. unfold update_row.
  destruct (hr_pages _ _ _ H i ts Hi) as (p & id & Hv & Hp).
  pose proof (page_rep_update p id _ s _ Hp (serialize_tuple_bytes row)) as Hu.
  unfold same_size in Hu. rewrite slots_bytes_at, Hs in Hu.
  cbn [fmap option_fmap option_map mjoin option_join] in Hu. rewrite <- Heq, Nat.eqb_refl in Hu.
  destruct Hu as (p' & Eu & Hp' & _).
  destruct (pin_write w (file_id h, Z.of_nat i) p p' (hr_pool _ _ _ H) (hr_idle _ _ _ H))
    as (w1 & f & w2 & E1 & E2 & E3 & Hm); [cbn; lia|done|by eapply is_page_rep|].
  cbn [fst snd] in E1, E3. heap_cbn. rewrite E1. heap_cbn. rewrite (frame_page_eq _ _ _ _ E2).
  heap_cbn. rewrite u_wrap_16_small, Eu by done. heap_cbn. rewrite E3. heap_cbn.
  exists w2. split; [done|]. eapply heap_rep_write; [done|done|done| |].
  - rewrite slots_bytes_insert. exact Hp'.
  - intros s' r Hs'. apply list_lookup_insert_Some in Hs' as [(_ & [= <-] & _)|[_ Hs']]; [done|].
    by eapply (hr_rows _ _ _ H).
Qed.

(** When the sizes differ, the old slot is deleted before anything else. *)
Lemma update_moves w h ps i s ts row old :
  heap_rep w h ps → ps !! i = Some ts → ts !! s = Some (Some old) →
  u_wrap 16 (Z.of_nat (length (serialize_tuple row))) ≠ Z.of_nat (length (serialize_tuple old)) →
  ∃ w', update_row (Z.of_nat i, Z.of_nat s) row (w, h) = insert_row row (w', h) ∧
    heap_rep w' h (<[i := <[s := None]> ts]> ps).
Proof.
  intros H Hi Hs Hne. unfold update_row.
  destruct (hr_pages _ _ _ H i ts Hi) as (p & id & Hv & Hp).
  assert (Eu : update_tuple_in_place p (Z.of_nat s) (Some (serialize_tuple row))
    (u_wrap 16 (Z.of_nat (length (serialize_tuple row)))) = Ok (p, false)).
  { destruct (page_slot_length p id _ s (serialize_tuple old) Hp) as (off & El & Er).
    { rewrite slots_bytes_at, Hs. reflexivity. }
    unfold update_tuple_in_place. rewrite El. cbn [mbind res_bind negb]. rewrite Er.
    cbn [mbind res_bind]. rewrite (proj2 (Z.eqb_neq _ _)) by done. done. }
  destruct (pin_unpin w (file_id h, Z.of_nat i) p false (hr_pool _ _ _ H) (hr_idle _ _ _ H))
    as (w1 & f & w2 & E1 & E2 & E2' & E3 & Hq); [cbn; lia|done|]. cbn [fst snd] in E1, E3.
  heap_cbn. rewrite E1. heap_cbn. rewrite (frame_page_eq _ _ _ _ E2). heap_cbn. rewrite Eu.
  heap_cbn. rewrite E2', E3. heap_cbn.
  destruct (delete_slot_ok w2 h ps i s ts) as (w3 & Hd); [by eapply heap_rep_quiet|done|].
  apply lookup_lt_Some in Hs as Hlt. rewrite (proj2 (Nat.ltb_lt _ _)) in Hd by done.
  destruct Hd as [-> Hr]. eauto.
Qed.

(** *** Scans *)

Section visit.
Context {V : Type} (g : V → Z * Z → Row → V).
Let visitor : V → Z * Z → Row → V * res unit := λ v ptr row, (g v ptr row, Ok tt).
Definition fold_entries (v : V) (es : list ((Z * Z) * Row)) : V := foldl (λ v e, g v e.1 e.2) v es.

Lemma visit_slots_ok types p id ts i slots : ∀ v,
  page_rep p id (slots_bytes ts) →
  (∀ s row, ts !! s = Some (Some row) → row_ok types row) →
  visit_slots visitor types p (Z.of_nat i) v (Z.of_nat <$> slots) =
  (fold_entries v (page_entries i ts slots), Ok tt).
Proof.
  induction slots as [|s slots IH]; intros v Hp Hrows; [done|].
  cbn [fmap list_fmap visit_slots]. unfold visit_slot.
  rewrite (page_rep_live _ _ _ s Hp), (page_rep_read _ _ _ s Hp), slots_bytes_at.
  unfold page_entries. cbn [omap list_omap]. fold (page_entries i ts slots).
  destruct (ts !! s) as [[row|]|] eqn:Hs; cbn [mjoin option_join fmap option_fmap option_map];
    [|by rewrite bool_decide_eq_false_2 by (intros [? ?]; done); apply IH..].
  rewrite bool_decide_eq_true_2 by done. destruct (Hrows s row Hs) as [Hst Hl].
  rewrite deserialize_serialize_tuple by done. cbn. by apply IH.
Qed.

Lemma scan_pages_ok ps0 h : ∀ ps i w v, heap_rep w h ps0 → drop i ps0 = ps →
  ∃ w', scan_pages visitor (Z.of_nat <$> seq i (length ps)) v (w, h) =
    ((w', h), Ok (fold_entries v (entries_from i ps))) ∧ heap_rep w' h ps0.
Proof.
  induction ps as [|ts ps IH]; intros i w v H Hd; [by exists w|].
  assert (Hi : ps0 !! i = Some ts) by (rewrite <- (Nat.add_0_r i), <- lookup_drop, Hd; done).
  assert (Hd' : drop (S i) ps0 = ps).
  { replace (S i) with (i + 1)%nat by lia. by rewrite <- drop_drop, Hd. }
  destruct (hr_pages _ _ _ H i ts Hi) as (p & id & Hv & Hp).
  destruct (pin_unpin w (file_id h, Z.of_nat i) p false (hr_pool _ _ _ H) (hr_idle _ _ _ H))
    as (w1 & f & w2 & E1 & E2 & _ & E3 & Hq); [cbn; lia|done|]. cbn [fst snd] in E1, E3.
  cbn [length seq fmap list_fmap scan_pages]. heap_cbn. rewrite E1. heap_cbn.
  rewrite (frame_page_eq _ _ _ _ E2). heap_cbn. unfold slots_of.
  rewrite (page_rep_count _ _ _ Hp), Nat2Z.id. unfold slots_bytes at 1. rewrite length_fmap.
  rewrite (visit_slots_ok _ p id ts i) by (done || (intros; by eapply (hr_rows _ _ _ H))).
  heap_cbn. rewrite E3. heap_cbn.
  destruct (IH (S i) w2 (fold_entries v (page_entries i ts (seq 0 (length ts))))) as (w3 & E & Hr);
    [by eapply heap_rep_quiet|done|].
  exists w3. split; [|done]. etrans; [exact E|]. cbn [entries_from]. unfold fold_entries.
  by rewrite foldl_app.
Qed.

Lemma scan_ok w h ps v : heap_rep w h ps →
  ∃ w', scan visitor v (w, h) = ((w', h), Ok (fold_entries v (entries ps))) ∧ heap_rep w' h ps.
Proof.
  intros H. unfold scan. rewrite ST_bind_eq. unfold call_store.
  pose proof (hr_store _ _ _ H) as Hf. pose proof (hr_len _ _ _ H) as Hl.
  destruct (po_stores _ (hr_pool _ _ _ H) _ _ Hf) as (s & Hs & Hsok).
  unfold store_len in Hl. rewrite Hf in Hl. cbn [mbind option_bind] in Hl. rewrite Hs in Hl.
  cbn in Hl. injection Hl as Hl. rewrite Hs, (ps_page_count_ok s Hsok), Nat2Z.id, Hl.
  assert (Hw : set_obj w (page_store h) s = w).
  { destruct w. unfold set_obj. cbn in *. f_equal. by apply insert_id. }
  rewrite Hw. by apply (scan_pages_ok ps h ps 0 w v H).
Qed.
End visit.

(** The entries of a scan are the rows of the heap, each once. *)
Lemma elem_of_entries ptr row : ∀ ps i0,
  (ptr, row) ∈ entries_from i0 ps ↔
  ∃ i s ts, ptr = (Z.of_nat (i0 + i), Z.of_nat s) ∧ ps !! i = Some ts ∧ ts !! s = Some (Some row).
Proof.
  intros ps. induction ps as [|ts ps IH]; intros i0; cbn [entries_from].
  { rewrite elem_of_nil. split; [done|]. intros (i & s & ts & _ & ? & _). done. }
  rewrite elem_of_app, IH. unfold page_entries. rewrite list_elem_of_omap. split.
  - intros [(s & Hs & E)|(i & s & ts' & -> & Hi & Hs)].
    + destruct (ts !! s) as [[r|]|] eqn:Hr; cbn in E; try done. injection E as <- <-.
      exists 0%nat, s, ts. by rewrite Nat.add_0_r.
    + exists (S i), s, ts'. split_and!; [|done|done]. f_equal. lia.
  - intros (i & s & ts' & -> & Hi & Hs). destruct i as [|i]; cbn in Hi.
    + injection Hi as <-. left. exists s. split; [|by rewrite Hs, Nat.add_0_r].
      apply elem_of_seq. apply lookup_lt_Some in Hs. lia.
    + right. exists i, s, ts'. split_and!; [|done|done]. f_equal. lia.
Qed.

Lemma elem_of_heap_entries ps ptr row : (ptr, row) ∈ entries ps ↔ row_at ps ptr = Some row.
Proof. unfold entries. rewrite elem_of_entries, row_at_Some. done. Qed.

Lemma page_entries_keys i ts slots :
  ∀ x, x ∈ (page_entries i ts slots).*1 → ∃ s, x = (Z.of_nat i, Z.of_nat s) ∧ s ∈ slots.
Proof.
  intros x (e & -> & He)%list_elem_of_fmap. unfold page_entries in He.
  apply list_elem_of_omap in He as (s & Hs & E). destruct (mjoin (ts !! s)); [|done].
  injection E as <-. eauto.
Qed.

Lemma NoDup_page_entries i ts slots : NoDup slots → NoDup (page_entries i ts slots).*1.
Proof.
  induction slots as [|s slots IH]; intros Hnd; [constructor|].
  apply NoDup_cons in Hnd as [Hn Hnd]. unfold page_entries. cbn [omap list_omap].
  fold (page_entries i ts slots). destruct (mjoin (ts !! s)); cbn; [|by apply IH].
  apply NoDup_cons. split; [|by apply IH].
  intros (s' & [= E%Nat2Z.inj] & Hs)%page_entries_keys. by subst.
Qed.

Lemma NoDup_entries ps : NoDup (entries ps).*1.
Proof.
  unfold entries. generalize 0%nat as i0. induction ps as [|ts ps IH]; intros i0; [constructor|].
  cbn [entries_from]. rewrite fmap_app. apply NoDup_app. split_and!; [|..|apply IH].
  - apply NoDup_page_entries, NoDup_seq.
  - intros x (s & -> & _)%page_entries_keys (e & E & He)%list_elem_of_fmap.
    destruct e as [ptr row]. cbn in E. subst ptr.
    apply elem_of_entries in He as (i & s' & ts' & [= E1 _] & _). lia.
Qed.

(** *** Histories *)

(** Updating a slot that holds no row: the call throws, or inserts. *)
Lemma update_dead_ok w h ps i s row :
  heap_rep w h ps → row_at ps (Z.of_nat i, Z.of_nat s) = None →
  Z.of_nat (length (serialize_tuple row)) < 2 ^ 16 →
  ∃ w', (∃ e, update_row (Z.of_nat i, Z.of_nat s) row (w, h) = ((w', h), Throw e) ∧ heap_rep w' h ps) ∨
    ∃ ps', update_row (Z.of_nat i, Z.of_nat s) row (w, h) = insert_row row (w', h) ∧
      heap_rep w' h ps' ∧ length ps' = length ps ∧ ∀ q, row_at ps' q = row_at ps q.
Proof.
  intros H Hdead Hlen. unfold update_row. destruct (ps !! i) as [ts|] eqn:Hi.
  - rewrite (row_at_slots ps i s ts Hi) in Hdead.
    destruct (hr_pages _ _ _ H i ts Hi) as (p & id & Hv & Hp).
    pose proof (page_rep_update p id _ s _ Hp (serialize_tuple_bytes row)) as Eu.
    unfold same_size in Eu. rewrite slots_bytes_at, Hdead in Eu. cbn [fmap option_fmap option_map] in Eu.
    destruct (pin_unpin w (file_id h, Z.of_nat i) p false (hr_pool _ _ _ H) (hr_idle _ _ _ H))
      as (w1 & f & w2 & E1 & E2 & E2' & E3 & Hq); [cbn; lia|done|]. cbn [fst snd] in E1, E3.
    heap_cbn. rewrite E1. heap_cbn. rewrite (frame_page_eq _ _ _ _ E2). heap_cbn.
    rewrite u_wrap_16_small, Eu by done. heap_cbn. rewrite E2', E3. heap_cbn.
    destruct (delete_slot_ok w2 h ps i s ts) as (w3 & Hd); [by eapply heap_rep_quiet|done|].
    exists w3. destruct (Nat.ltb_spec s (length ts)) as [Hlt|Hge]; destruct Hd as [-> Hr]; [right|left; eauto].
    eexists. split_and!; [done|done|apply length_insert|]. intros q.
    rewrite (row_at_update ps i ts s None Hi Hlt q). unfold set_row. case_decide as Eq; [|done].
    subst q. by rewrite (row_at_slots ps i s ts Hi).
  - apply lookup_ge_None in Hi.
    destruct (pin_absent w (file_id h, Z.of_nat i) (hr_pool _ _ _ H) (hr_idle _ _ _ H))
      as (w1 & E1 & Hq).
    { cbn. lia. }
    { eapply heap_view_none; [done|lia]. }
    cbn [fst snd] in E1. exists w1. left. heap_cbn. rewrite E1. eexists. split; [done|].
    by eapply heap_rep_quiet.
Qed.

Inductive heap_op : Type :=
  | HInsert (row : Row)
  | HGet (ptr : Z * Z)
  | HUpdate (ptr : Z * Z) (row : Row)
  | HDelete (ptr : Z * Z)
  | HScan.

Inductive heap_reply : Type :=
  | HPointer (r : res (Z * Z))
  | HRow (r : res Row)
  | HDone (r : res unit)
  | HRows (r : res (list ((Z * Z) * Row))).

(** The visitor of [HScan] collects what it sees. *)
Definition collect (acc : list ((Z * Z) * Row)) (ptr : Z * Z) (row : Row)
    : list ((Z * Z) * Row) * res unit := (acc ++ [(ptr, row)], Ok tt).

Definition heap_step (s : World St * HeapFile) (op : heap_op) : (World St * HeapFile) * heap_reply :=
  match op with
  | HInsert row => let '(s', r) := insert_row row s in (s', HPointer r)
  | HGet ptr => let '(s', r) := get_row ptr s in (s', HRow r)
  | HUpdate ptr row => let '(s', r) := update_row ptr row s in (s', HPointer r)
  | HDelete ptr => let '(s', r) := delete_slot ptr s in (s', HDone r)
  | HScan => let '(s', r) := scan collect [] s in (s', HRows r)
  end.

(** The specification: a map from pointers to rows. *)
Inductive map_step (m : gmap (Z * Z) Row) : heap_op → gmap (Z * Z) Row → heap_reply → Prop :=
  | map_insert row ptr : oversized row = false → m !! ptr = None →
      map_step m (HInsert row) (<[ptr := row]> m) (HPointer (Ok ptr))
  | map_insert_refused row : oversized row = true →
      map_step m (HInsert row) m (HPointer (Throw row_too_large))
  | map_get ptr row : m !! ptr = Some row → map_step m (HGet ptr) m (HRow (Ok row))
  | map_get_none ptr e : m !! ptr = None → e = slot_is_empty ∨ e = bad_page_id →
      map_step m (HGet ptr) m (HRow (Throw e))
  | map_update ptr old row : m !! ptr = Some old →
      length (serialize_tuple row) = length (serialize_tuple old) →
      map_step m (HUpdate ptr row) (<[ptr := row]> m) (HPointer (Ok ptr))
  | map_update_move ptr old row ptr' : m !! ptr = Some old → oversized row = false →
      delete ptr m !! ptr' = None →
      map_step m (HUpdate ptr row) (<[ptr' := row]> (delete ptr m)) (HPointer (Ok ptr'))
  | map_update_lost ptr old row : m !! ptr = Some old → oversized row = true →
      map_step m (HUpdate ptr row) (delete ptr m) (HPointer (Throw row_too_large))
  | map_update_dead_throws ptr row e : m !! ptr = None →
      map_step m (HUpdate ptr row) m (HPointer (Throw e))
  | map_update_dead_inserts ptr row ptr' : m !! ptr = None → oversized row = false → m !! ptr' = None →
      map_step m (HUpdate ptr row) (<[ptr' := row]> m) (HPointer (Ok ptr'))
  | map_delete ptr row : m !! ptr = Some row →
      map_step m (HDelete ptr) (delete ptr m) (HDone (Ok tt))
  | map_delete_dead ptr r : m !! ptr = None → r ≠ UB → map_step m (HDelete ptr) m (HDone r)
  | map_scan es : es ≡ₚ map_to_list m → map_step m HScan m (HRows (Ok es)).

(** The replies of a history are ones the specification allows. *)
Fixpoint map_run (m : gmap (Z * Z) Row) (ops : list heap_op) (rs : list heap_reply) : Prop :=
  match ops, rs with
  | [], [] => True
  | op :: ops, r :: rs => ∃ m', map_step m op m' r ∧ map_run m' ops rs
  | _, _ => False
  end.

(** Rows of the columns' types, pointers of unsigned numbers, and no update to a row of
    64 KiB or more, whose length [update_row] would cut off ([update_truncates_large_row]). *)
Definition heap_op_ok (types : list DataType) (op : heap_op) : Prop :=
  let pointer_ok (ptr : Z * Z) := 0 ≤ ptr.1 ∧ 0 ≤ ptr.2 in
  match op with
  | HInsert row => row_ok types row
  | HUpdate ptr row => pointer_ok ptr ∧ row_ok types row ∧ Z.of_nat (length (serialize_tuple row)) < 2 ^ 16
  | HGet ptr | HDelete ptr => pointer_ok ptr
  | HScan => True
  end.

(** [m] is the content of the heap file, which has at most [n] pages. *)
Definition heap_holds (n : nat) (types : list DataType) (s : World St * HeapFile)
    (m : gmap (Z * Z) Row) : Prop :=
  ∃ ps, heap_rep s.1 s.2 ps ∧ column_types s.2 = types ∧ (length ps ≤ n)%nat ∧
    ∀ q, m !! q = row_at ps q.

Lemma pointer_nat (ptr : Z * Z) : 0 ≤ ptr.1 ∧ 0 ≤ ptr.2 →
  ∃ i s, ptr = (Z.of_nat i, Z.of_nat s).
Proof.
  destruct ptr as [a b]. cbn. intros [Ha Hb]. exists (Z.to_nat a), (Z.to_nat b). f_equal; lia.
Qed.

Lemma insert_row_refused w h row : oversized row = true →
  insert_row row (w, h) = ((w, h), Throw row_too_large).
Proof. intros E. unfold insert_row. by rewrite E. Qed.

Lemma insert_row_map n types w h m row :
  heap_holds n types (w, h) m → row_ok types row → Z.of_nat n + 1 < 2 ^ 32 → oversized row = false →
  ∃ s' ptr, insert_row row (w, h) = (s', Ok ptr) ∧ m !! ptr = None ∧
    heap_holds (n + 1) types s' (<[ptr := row]> m).
Proof.
  intros (ps & H & Ht & Hl & Hm) Hrow Hn Ho. cbn [fst snd] in *. rewrite <- Ht in Hrow.
  destruct (insert_row_ok w h ps row H Hrow Ho) as (w' & h' & ps' & ptr & E & H' & Hs & Hl' & Hf & Hr);
    [lia|].
  exists (w', h'), ptr. split_and!; [done|by rewrite Hm|]. exists ps'. cbn [fst snd]. split_and!.
  - done.
  - destruct Hs as (_ & _ & ->). done.
  - lia.
  - intros q. rewrite Hr. unfold set_row. case_decide as Eq.
    + subst q. apply lookup_insert_eq.
    + by rewrite lookup_insert_ne.
Qed.

Lemma heap_holds_rep n types w w' h m ps ps' :
  heap_rep w h ps → column_types h = types → (length ps ≤ n)%nat →
  heap_rep w' h ps' → length ps' = length ps → (∀ q, m !! q = row_at ps' q) →
  heap_holds n types (w', h) m.
Proof. intros ???? Hl ?. exists ps'. cbn. split_and!; try done. by rewrite Hl. Qed.

Lemma foldl_collect (es acc : list ((Z * Z) * Row)) :
  fold_entries (λ acc ptr row, acc ++ [(ptr, row)]) acc es = acc ++ es.
Proof.
  revert acc. induction es as [|[ptr row] es IH]; intros acc; cbn; [by rewrite app_nil_r|].
  unfold fold_entries in IH. rewrite IH. by rewrite <- app_assoc.
Qed.

Lemma entries_map (ps : heap) (m : gmap (Z * Z) Row) : (∀ q, m !! q = row_at ps q) →
  entries ps ≡ₚ map_to_list m.
Proof.
  intros Hm. apply NoDup_Permutation.
  - eapply NoDup_fmap_1, NoDup_entries.
  - apply NoDup_map_to_list.
  - intros [ptr row]. by rewrite elem_of_heap_entries, elem_of_map_to_list, Hm.
Qed.

Lemma row_at_no_page (ps : heap) i s : ps !! i = None → row_at ps (Z.of_nat i, Z.of_nat s) = None.
Proof.
  intros Hi. apply eq_None_not_Some.
  intros [r (i' & s' & ts & [= Ei%Nat2Z.inj _] & Hi' & _)%row_at_Some]. congruence.
Qed.

Lemma set_row_delete (ps ps' : heap) (m : gmap (Z * Z) Row) ptr :
  (∀ q, m !! q = row_at ps q) → (∀ q, row_at ps' q = set_row (row_at ps) ptr None q) →
  ∀ q, delete ptr m !! q = row_at ps' q.
Proof.
  intros Hm Hr q. rewrite Hr. unfold set_row. case_decide as Eq.
  - subst q. apply lookup_delete_eq.
  - by rewrite lookup_delete_ne.
Qed.

Lemma set_row_insert (ps ps' : heap) (m : gmap (Z * Z) Row) ptr row :
  (∀ q, m !! q = row_at ps q) → (∀ q, row_at ps' q = set_row (row_at ps) ptr (Some row) q) →
  ∀ q, <[ptr := row]> m !! q = row_at ps' q.
Proof.
  intros Hm Hr q. rewrite Hr. unfold set_row. case_decide as Eq.
  - subst q. apply lookup_insert_eq.
  - by rewrite lookup_insert_ne.
Qed.

Lemma heap_holds_le n n' types s m : heap_holds n types s m → (n ≤ n')%nat → heap_holds n' types s m.
Proof. intros (ps & ? & ? & ? & ?) ?. exists ps. split_and!; try done. lia. Qed.

Lemma heap_get_step n types s m ptr : heap_holds n types s m → heap_op_ok types (HGet ptr) →
  ∃ m', map_step m (HGet ptr) m' (heap_step s (HGet ptr)).2 ∧
    heap_holds (n + 1) types (heap_step s (HGet ptr)).1 m'.
Proof.
  destruct s as [w h]. intros (ps & H & Ht & Hl & Hm) Hop. cbn [fst snd] in *.
  destruct (pointer_nat ptr Hop) as (i & s & ->). cbn [heap_step].
  destruct (get_row_ok w h ps i s H) as (w' & -> & H'). exists m. cbn [fst snd]. split.
  - destruct (ps !! i) as [ts|] eqn:Hi; [destruct (mjoin (ts !! s)) as [row|] eqn:Hs|].
    + apply map_get. by rewrite Hm, (row_at_slots ps i s ts Hi).
    + apply map_get_none; [|by left]. by rewrite Hm, (row_at_slots ps i s ts Hi).
    + apply map_get_none; [|by right]. rewrite Hm. by apply row_at_no_page.
  - eapply heap_holds_le; [by eapply heap_holds_rep|lia].
Qed.

Lemma heap_delete_step n types s m ptr : heap_holds n types s m → heap_op_ok types (HDelete ptr) →
  ∃ m', map_step m (HDelete ptr) m' (heap_step s (HDelete ptr)).2 ∧
    heap_holds (n + 1) types (heap_step s (HDelete ptr)).1 m'.
Proof.
  destruct s as [w h]. intros (ps & H & Ht & Hl & Hm) Hop. cbn [fst snd] in *.
  destruct (pointer_nat ptr Hop) as (i & s & ->). cbn [heap_step].
  assert (Hle : (length ps ≤ n + 1)%nat) by lia.
  destruct (ps !! i) as [ts|] eqn:Hi.
  - destruct (delete_slot_ok w h ps i s ts H Hi) as (w' & Hd).
    destruct (Nat.ltb_spec s (length ts)) as [Hlt|Hge]; destruct Hd as [-> H']; cbn [fst snd].
    + pose proof (row_at_update ps i ts s None Hi Hlt) as Hr. exists (delete (Z.of_nat i, Z.of_nat s) m).
      split; [|eapply heap_holds_rep; [exact H|done|done|exact H'|apply length_insert|]; by eapply set_row_delete].
      destruct (m !! (Z.of_nat i, Z.of_nat s)) as [row|] eqn:Em; [by eapply map_delete|].
      rewrite delete_id by done. by apply map_delete_dead.
    + exists m. split; [|by eapply heap_holds_rep]. apply map_delete_dead; [|done].
      rewrite Hm, (row_at_slots ps i s ts Hi). by rewrite (lookup_ge_None_2 ts) by lia.
  - apply lookup_ge_None in Hi as Hge. unfold delete_slot.
    destruct (pin_absent w (file_id h, Z.of_nat i) (hr_pool _ _ _ H) (hr_idle _ _ _ H))
      as (w1 & E1 & Hq).
    { cbn. lia. }
    { eapply heap_view_none; [done|lia]. }
    cbn [fst snd] in E1. heap_cbn. rewrite E1. cbn [fst snd]. exists m. split.
    + apply map_delete_dead; [|done]. rewrite Hm. by apply row_at_no_page.
    + eapply heap_holds_rep; try done. by eapply heap_rep_quiet.
Qed.

Lemma heap_update_step n types s m ptr row :
  heap_holds n types s m → heap_op_ok types (HUpdate ptr row) → Z.of_nat n + 1 < 2 ^ 32 →
  ∃ m', map_step m (HUpdate ptr row) m' (heap_step s (HUpdate ptr row)).2 ∧
    heap_holds (n + 1) types (heap_step s (HUpdate ptr row)).1 m'.
Proof.
  destruct s as [w h]. intros (ps & H & Ht & Hl & Hm) (Hptr & Hrow & Hlen) Hn. cbn [fst snd] in *.
  destruct (pointer_nat ptr Hptr) as (i & s & ->). cbn [heap_step].
  assert (Hle : (length ps ≤ n + 1)%nat) by lia.
  destruct (m !! (Z.of_nat i, Z.of_nat s)) as [old|] eqn:Em.
  - pose proof Em as Ero. rewrite Hm in Ero.
    apply row_at_Some in Ero as (i' & s' & ts & [= <-%Nat2Z.inj <-%Nat2Z.inj] & Hi & Hs).
    apply lookup_lt_Some in Hs as Hlt.
    destruct (decide (length (serialize_tuple row) = length (serialize_tuple old))) as [Heq|Hne].
    + destruct (update_in_place_ok w h ps i s ts row old) as (w' & -> & H'); try done.
      { by rewrite Ht. }
      cbn [fst snd]. eexists. split; [by eapply map_update|].
      eapply heap_holds_rep; [exact H|done|done|exact H'|apply length_insert|].
      eapply set_row_insert; [done|by apply row_at_update].
    + destruct (update_moves w h ps i s ts row old H Hi Hs) as (w' & -> & H').
      { rewrite u_wrap_16_small by done. lia. }
      assert (Hh : heap_holds n types (w', h) (delete (Z.of_nat i, Z.of_nat s) m)).
      { eapply heap_holds_rep; [exact H|done|done|exact H'|apply length_insert|].
        eapply set_row_delete; [done|by apply row_at_update]. }
      destruct (oversized row) eqn:Ho.
      * rewrite insert_row_refused by done. cbn [fst snd]. eexists.
        split; [by eapply map_update_lost|]. eapply heap_holds_le; [done|lia].
      * destruct (insert_row_map n types w' h _ row Hh Hrow Hn Ho) as (s' & ptr & -> & Hf & Hh').
        cbn [fst snd]. eexists. split; [by eapply map_update_move|done].
  - pose proof Em as Ero. rewrite Hm in Ero.
    destruct (update_dead_ok w h ps i s row H Ero Hlen) as (w' & [(e & -> & H')|(ps' & -> & H' & Hl' & Hr)]).
    + cbn [fst snd]. exists m. split; [by apply map_update_dead_throws|by eapply heap_holds_rep].
    + assert (Hh : heap_holds n types (w', h) m).
      { eapply heap_holds_rep; [exact H|done|done|exact H'|done|]. intros q. by rewrite Hr. }
      destruct (oversized row) eqn:Ho.
      * rewrite insert_row_refused by done. cbn [fst snd]. eexists.
        split; [by eapply map_update_dead_throws|]. eapply heap_holds_le; [done|lia].
      * destruct (insert_row_map n types w' h _ row Hh Hrow Hn Ho) as (s' & ptr & -> & Hf & Hh').
        cbn [fst snd]. eexists. split; [by eapply map_update_dead_inserts|done].
Qed.

Lemma heap_step_ok n types s m op :
  heap_holds n types s m → heap_op_ok types op → Z.of_nat n + 1 < 2 ^ 32 →
  ∃ m', map_step m op m' (heap_step s op).2 ∧ heap_holds (n + 1) types (heap_step s op).1 m'.
Proof.
  intros Hh Hop Hn. destruct op as [row|ptr|ptr row|ptr|].
  - destruct s as [w h]. rename Hop into Hrow. cbn [heap_op_ok] in Hrow. cbn [heap_step]. destruct (oversized row) eqn:Ho.
    + rewrite insert_row_refused by done. exists m. cbn [fst snd].
      split; [by apply map_insert_refused|]. eapply heap_holds_le; [done|lia].
    + destruct (insert_row_map n types w h m row Hh Hrow Hn Ho) as (s' & ptr & -> & Hf & Hh').
      cbn [fst snd]. eexists. split; [by apply map_insert|done].
  - by apply heap_get_step.
  - by apply heap_update_step.
  - by apply heap_delete_step.
  - destruct s as [w h]. destruct Hh as (ps & H & Ht & Hl & Hm). cbn [fst snd heap_step] in *.
    destruct (scan_ok (λ acc ptr row, acc ++ [(ptr, row)]) w h ps [] H) as (w' & E & H').
    change (λ v ptr row, (v ++ [(ptr, row)], Ok tt)) with collect in E. rewrite E.
    rewrite foldl_collect. cbn [fst snd app]. exists m. split; [by apply map_scan, entries_map|].
    eapply heap_holds_le; [by eapply heap_holds_rep|lia].
Qed.
(** *** Opening and closing *)

(** The pages of a store hold the heap [ps]. *)
Definition pages_hold (types : list DataType) (pages : list page) (ps : heap) : Prop :=
  length pages = length ps ∧
  (∀ i ts, ps !! i = Some ts → ∃ p id, pages !! i = Some p ∧ page_rep p id (slots_bytes ts)) ∧
  (∀ i ts s row, ps !! i = Some ts → ts !! s = Some (Some row) → row_ok types row).

Lemma register_rep w f ptr s types ps pid :
  pool_ok w → idle w → (∀ i, gone w f i) → objs w !! ptr = Some s → ps_ok s →
  (∀ f', f' ≠ f → stores w !! f' ≠ Some ptr) → pages_hold types (ps_pages s) ps →
  (ps ≠ [] → pid = Z.of_nat (length ps) - 1) →
  ∃ w', register_store w f (Some ptr) = (w', Ok tt) ∧ objs w' = objs w ∧
    heap_rep w' (mkHeap f ptr types pid (bool_decide (ps ≠ []))) ps.
Proof.
  intros Hok Hi Hg Hs Hsok Hd (Hl & Hp & Hr) Hpid.
  destruct (register_store_ok w f ptr s Hok Hg Hs Hsok Hd) as (w' & E & Hok' & Hst & Hlen & Hv & _ & Hpins).
  exists w'. split_and!; [done|by injection E as <-|]. split; cbn; try done.
  - intros k. by rewrite Hpins.
  - by rewrite Hlen, Hl.
  - intros i ts Hts. rewrite Hv. by apply Hp.
Qed.

Lemma new_HeapFile_ok w f ptr s types ps :
  pool_ok w → idle w → (∀ i, gone w f i) → objs w !! ptr = Some s → ps_ok s →
  (∀ f', f' ≠ f → stores w !! f' ≠ Some ptr) → pages_hold types (ps_pages s) ps →
  ∃ w' h, new_HeapFile w f ptr types = (w', Ok h) ∧ heap_rep w' h ps ∧ column_types h = types.
Proof.
  intros Hok Hi Hg Hs Hsok Hd Hh. pose proof Hh as (Hl & _).
  destruct (register_rep w f ptr s types ps (Z.of_nat (length ps) - 1) Hok Hi Hg Hs Hsok Hd Hh)
    as (w' & E & Ho & Hrep); [done|].
  unfold new_HeapFile. rewrite E, Ho, Hs, (ps_page_count_ok s Hsok), Hl.
  destruct (Z.ltb_spec 0 (Z.of_nat (length ps))) as [Hpos|Hz].
  - rewrite bool_decide_eq_true_2 in Hrep by (intros ->; done). eauto.
  - destruct ps; [|cbn in Hz; lia]. eexists _, _. split_and!; [done| |done].
    destruct Hrep. by split.
Qed.

(** Unregistering leaves the heap in the store. *)
Lemma unregister_rep w h ps : heap_rep w h ps →
  ∃ w' s, unregister_store w (file_id h) = (w', Ok tt) ∧ pool_ok w' ∧ idle w' ∧
    (∀ i, gone w' (file_id h) i) ∧ objs w' !! page_store h = Some s ∧ ps_ok s ∧
    (∀ f, stores w' !! f ≠ Some (page_store h)) ∧ pages_hold (column_types h) (ps_pages s) ps.
Proof.
  intros H. destruct (unregister_store_ok w (file_id h) (page_store h))
    as (w' & s & E & Hok & Hst & Hs & Hsok & Hlen & Hv & Hg & _ & Hpins & _); try apply H.
  { intros pid. apply (hr_idle _ _ _ H). }
  exists w', s. split_and!; try done.
  - intros k. rewrite Hpins. apply (hr_idle _ _ _ H).
  - intros f. rewrite Hst, lookup_delete_Some. intros [Hne Hf].
    apply Hne. eapply (po_distinct _ (hr_pool _ _ _ H)); [apply H|done].
  - rewrite (hr_len _ _ _ H) in Hlen. injection Hlen as Hlen. split_and!; [done| |apply H].
    intros i ts Hi. rewrite <- Hv. by apply (hr_pages _ _ _ H).
Qed.

Lemma clear_ok w h ps : heap_rep w h ps →
  ∃ w', clear (w, h) = ((w', set_insert_page h 0 false), Ok tt) ∧
    heap_rep w' (set_insert_page h 0 false) [].
Proof.
  intros H. destruct (unregister_rep w h ps H) as (w1 & s & E1 & Hok & Hi & Hg & Hs & Hsok & Hd & _).
  destruct (ps_replace_pages_ok s [] Hsok) as (s' & E2 & Hsok' & Hp); [done|done|].
  unfold clear, replace_pages. rewrite ST_bind_eq. cbn [the_heap]. rewrite ST_bind_eq.
  cbn [call_pool]. rewrite E1. rewrite ST_bind_eq. unfold call_store. rewrite Hs, E2.
  rewrite ST_bind_eq. cbn [call_pool].
  assert (Hok2 : pool_ok (set_obj w1 (page_store h) s')).
  { split; [apply (po_hand _ Hok)|apply (po_table _ Hok)|apply (po_pin _ Hok)|
      | |apply (po_distinct _ Hok)].
    - intros i fr Hfr Ho. destruct (po_coherent _ Hok i fr Hfr Ho) as (? & ? & q & Hq & ?).
      split_and!; [done|done|]. exists q. split; [|done]. unfold store_page in *.
      cbn [stores set_obj objs]. destruct (f_pid fr <? 0); [done|].
      destruct (stores w1 !! f_file fr) as [ptr|] eqn:Hf; [|done]. cbn [mbind option_bind] in *.
      rewrite lookup_insert_ne; [done|]. intros E. subst ptr. by eapply Hd.
    - intros f ptr Hf. cbn in Hf |- *. destruct (decide (page_store h = ptr)) as [<-|Hne].
      + rewrite lookup_insert_eq. eauto.
      + rewrite lookup_insert_ne by done. by apply (po_stores _ Hok f). }
  destruct (register_rep (set_obj w1 (page_store h) s') (file_id h) (page_store h) s'
    (column_types h) [] 0 Hok2 Hi Hg) as (w2 & E3 & _ & Hrep).
  { cbn. apply lookup_insert_eq. }
  { done. }
  { intros f _. apply Hd. }
  { rewrite Hp. split_and!; done. }
  { done. }
  rewrite E3. exists w2. split; [done|]. exact Hrep.
Qed.

Lemma destroy_ok w h ps : heap_rep w h ps →
  ∃ w' s, destroy (w, h) = ((w', h), Ok tt) ∧ pool_ok w' ∧ idle w' ∧
    (∀ i, gone w' (file_id h) i) ∧ objs w' !! page_store h = Some s ∧ ps_ok s ∧
    (∀ f, stores w' !! f ≠ Some (page_store h)) ∧ pages_hold (column_types h) (ps_pages s) ps.
Proof.
  intros H. destruct (flush_file_ok w (file_id h) (hr_pool _ _ _ H)) as (w1 & E1 & Hwb & _).
  assert (H1 : heap_rep w1 h ps).
  { eapply heap_rep_quiet; [done|]. apply quiet_idle; [apply H|]. by apply written_back_quiet. }
  destruct (unregister_rep w1 h ps H1) as (w2 & s & E2 & Hrest). exists w2, s. split; [|done].
  unfold destroy, st_catch. rewrite ST_bind_eq. cbn [the_heap]. rewrite ST_bind_eq. cbn [call_pool].
  rewrite E1. cbn [call_pool]. by rewrite E2.
Qed.
End proofs.

(** C1. A heap file is a map from item pointers to rows: for every history of
    inserts, reads, updates, deletes and scans of rows of the columns' types, in which no
    update gives a row of 64 KiB or more and which stays below [2^32] pages, over any page
    store that meets its contract, any pool size and any eviction the pool decides on, the
    replies are ones the map specification allows. A row that was inserted is read back until it is
    deleted or updated, a new pointer never names a live row, and a scan
    enumerates exactly the live rows. The specification records the one
    surprise of the code on such histories: an update to a row that fits no page throws
    after the old row has been deleted ([map_update_lost]). *)
Theorem heap_file_is_a_map {St} `{PageStoreSpec St} n types (s : World St * HeapFile) m ops :
  heap_holds n types s m → Forall (heap_op_ok types) ops →
  Z.of_nat n + Z.of_nat (length ops) < 2 ^ 32 →
  map_run m ops (run heap_step s ops).
Proof.
  revert n s m. induction ops as [|op ops IH]; intros n s m Hh Hops Hn; [done|].
  apply Forall_cons_iff in Hops as [Hop Hops]. cbn [length] in Hn.
  destruct (heap_step_ok n types s m op Hh Hop) as (m' & Hm & Hh'); [lia|].
  cbn [run]. destruct (heap_step s op) as [s' r]. exists m'. split; [done|].
  apply (IH (n + 1)%nat); try done. lia.
Qed.

(** An empty heap file on a fresh pool of [n] frames. *)
Lemma fresh_heap_holds {St} `{PageStoreSpec St} n f types (s : St) :
  (0 < n)%nat → ps_ok s → ps_pages s = [] →
  heap_holds 0 types (fresh_pool n f s, mkHeap f 0 types 0 false) ∅.
Proof.
  intros Hn Hs Hp. destruct (fresh_pool_ok n f s Hn Hs) as (Hok & Hi & _ & Hl).
  exists []. cbn [fst snd]. split_and!; [|done|done|].
  - split; try done.
    + apply lookup_insert_eq.
    + cbn [file_id]. by rewrite Hl, Hp.
  - intros q. rewrite lookup_empty. unfold row_at. by destruct (_ || _).
Qed.

Definition example_row (a : Z) (b : string) : Row := mkRow [VInt a; VString b] 1 0.
Definition example_heap : World (list page) * HeapFile :=
  (fresh_pool 1 7 ([] : list page), mkHeap 7 0 [INT; STRING] 0 false).

Lemma example_row_fits a b : is_i64 a → Z.of_nat (String.length b) < 60000 →
  row_ok [INT; STRING] (example_row a b) ∧
  Z.of_nat (length (serialize_tuple (example_row a b))) < 2 ^ 16.
Proof.
  intros Ha Hb. pose proof (length_bytes_of_string b) as Hl. split; [split; [split_and!|done]|].
  - red. cbn. lia.
  - red. cbn. lia.
  - constructor; [|constructor; [|constructor]]; (split; [split; [done|]|]); [done| | |].
    + cbn [serialize_value length]. rewrite length_le_bytes. lia.
    + lia.
    + cbn [serialize_value length]. rewrite length_app, length_le_bytes, Hl. lia.
  - unfold example_row. rewrite serialize_tuple_eq. cbn [row_values fmap list_fmap concat].
    rewrite !length_app, !length_le_bytes, !length_column_bytes. cbn [serialize_value length].
    rewrite !length_app, !length_le_bytes, Hl. lia.
Qed.

Lemma heap_file_is_a_map_witness :
  map_run ∅ [HInsert (example_row 1 "ada"); HInsert (example_row 2 "bob"); HUpdate (0, 0) (example_row 3 "eve");
             HDelete (0, 1); HScan]
    (run heap_step example_heap
       [HInsert (example_row 1 "ada"); HInsert (example_row 2 "bob"); HUpdate (0, 0) (example_row 3 "eve");
        HDelete (0, 1); HScan]) ∧
  run heap_step example_heap
       [HInsert (example_row 1 "ada"); HInsert (example_row 2 "bob"); HUpdate (0, 0) (example_row 3 "eve");
        HDelete (0, 1); HScan]
  = [HPointer (Ok (0, 0)); HPointer (Ok (0, 1)); HPointer (Ok (0, 0)); HDone (Ok tt);
     HRows (Ok [((0, 0), example_row 3 "eve")])].
Proof.
  split; [|vm_compute; reflexivity].
  apply (heap_file_is_a_map 0 [INT; STRING]).
  - apply fresh_heap_holds; [lia|by split|done].
  - repeat constructor; cbn; try lia; apply example_row_fits; cbn; try lia; red; cbn; lia.
  - cbn. lia.
Defined.



(** [update_row] is not atomic: when the new row is too large for a page
    the call throws, but the old row is already gone. *)
Theorem update_row_loses_old_row {St} `{PageStoreSpec St} n types (s : World St * HeapFile) m ptr old row :
  heap_holds n types s m → heap_op_ok types (HUpdate ptr row) → Z.of_nat n + 1 < 2 ^ 32 →
  m !! ptr = Some old → oversized row = true → oversized old = false →
  ∃ s', update_row ptr row s = (s', Throw row_too_large) ∧
    heap_holds (n + 1) types s' (delete ptr m).
Proof.
  intros Hh Hop Hn Hold Hbig Hfit.
  destruct (heap_update_step n types s m ptr row Hh Hop Hn) as (m' & Hstep & Hh').
  cbn [heap_step] in *. destruct (update_row ptr row s) as [s' r]. cbn [fst snd] in *. exists s'.
  inversion Hstep; subst; try congruence; try done.
  unfold oversized in *. assert (old0 = old) as -> by congruence. congruence.
Qed.

Definition long_name : string := string_of_bytes (replicate (Z.to_nat 9000) 120).

Lemma update_row_loses_old_row_witness :
  ∃ s m ptr old row s', heap_holds 1 [INT; STRING] (St := list page) s m ∧ m !! ptr = Some old ∧
    update_row ptr row s = (s', Throw row_too_large) ∧
    heap_holds 2 [INT; STRING] s' (delete ptr m).
Proof.
  assert (H0 : heap_holds 0 [INT; STRING] example_heap ∅)
    by (apply fresh_heap_holds; [lia|by split|done]).
  assert (H1 : is_i64 1) by (red; cbn; lia).
  destruct (insert_row_map 0 [INT; STRING] example_heap.1 example_heap.2 ∅ (example_row 1 "ada") H0)
    as (s & ptr & _ & _ & Hs).
  { by apply example_row_fits. }
  { done. }
  { vm_compute. reflexivity. }
  assert (Hptr : 0 ≤ ptr.1 ∧ 0 ≤ ptr.2).
  { destruct Hs as (ps & _ & _ & _ & Hm). specialize (Hm ptr). rewrite lookup_insert_eq in Hm.
    symmetry in Hm. apply row_at_Some in Hm as (i & j & ts & -> & _). cbn. lia. }
  destruct (update_row_loses_old_row 1 [INT; STRING] s _ ptr (example_row 1 "ada")
    (example_row 1 long_name) Hs) as (s' & E & Hs').
  { split; [done|]. apply example_row_fits; [done|]. vm_compute. reflexivity. }
  { done. }
  { apply lookup_insert_eq. }
  { vm_compute. reflexivity. }
  { vm_compute. reflexivity. }
  eexists s, _, ptr, _, _, s'. split_and!; [exact Hs|apply lookup_insert_eq|exact E|exact Hs'].
Defined.

(** [update_row] takes the length of the new row modulo [2^16]: a row of [2^16 + n] bytes
    over a live row of [n] bytes is written in place, cut off; the update reports success,
    and reading the row throws. *)
Example update_truncates_large_row :
  let huge := example_row 2 (string_of_bytes (replicate (Z.to_nat (2 ^ 16 + 3)) 120)) in
  run heap_step example_heap [HInsert (example_row 1 "ada"); HUpdate (0, 0) huge; HGet (0, 0)] =
  [HPointer (Ok (0, 0)); HPointer (Ok (0, 0)); HRow (Throw (StorageException "Truncated tuple column payload"))].
Proof. vm_compute. reflexivity. Qed.
