(* ===== verification/RowHeap.v ===== *)
(** * The row store a table is written against

    [Table] (src/core/table.cc) keeps its rows in a [HeapFile] and calls it
    through seven operations.  [RowHeap] is that interface, [RowHeapSpec] what
    the file promises: a finite map from item pointers to rows.  The heap files
    of HeapFile.v, over any page store and pool, are an instance. *)

From Stdlib Require Import ZArith Lia.
From S2P Require Import Prelude Values Rows Page PageStore BufferPool HeapFile.

Class RowHeap (H : Type) : Type := {
  rh_insert_row : Row → ST H (Z * Z);
  rh_get_row : Z * Z → ST H Row;
  rh_update_row : Z * Z → Row → ST H (Z * Z);
  rh_delete_slot : Z * Z → ST H unit;
  rh_clear : ST H unit;
  rh_set_column_types : list DataType → ST H unit;
  (** [scan] with a visitor that collects the pointers. *)
  rh_scan_pointers : ST H (list (Z * Z))
}.

Class RowHeapSpec (H : Type) `{RowHeap H} : Type := {
  (** [rh_holds n types h m]: the file holds [m] in at most [n] pages. *)
  rh_holds : nat → list DataType → H → gmap (Z * Z) Row → Prop;
  (** Rows that can be written, and rows that fit a page. *)
  rh_row_ok : list DataType → Row → Prop;
  rh_fits : Row → bool;
  rh_too_large : exn;
  rh_holds_le n n' types h m : rh_holds n types h m → (n ≤ n')%nat → rh_holds n' types h m;
  rh_row_ok_length types row : rh_row_ok types row → length (row_values row) = length types;
  rh_row_ok_version types row xmin xmax : rh_row_ok types row → is_u64 xmin → is_u64 xmax →
    rh_row_ok types (set_xmax (set_xmin row xmin) xmax);
  rh_row_ok_u64 types row : rh_row_ok types row → is_u64 (row_xmin row) ∧ is_u64 (row_xmax row);
  rh_fits_version row xmin xmax : rh_fits (set_xmax (set_xmin row xmin) xmax) = rh_fits row;
  rh_insert_ok n types h m row :
    rh_holds n types h m → rh_row_ok types row → Z.of_nat n + 1 < 2 ^ 32 → rh_fits row = true →
    ∃ h' ptr, rh_insert_row row h = (h', Ok ptr) ∧ m !! ptr = None ∧
      rh_holds (n + 1) types h' (<[ptr := row]> m);
  rh_insert_refused n types h m row :
    rh_holds n types h m → rh_fits row = false →
    rh_insert_row row h = (h, Throw rh_too_large);
  rh_get_ok n types h m ptr row :
    rh_holds n types h m → m !! ptr = Some row →
    ∃ h', rh_get_row ptr h = (h', Ok row) ∧ rh_holds n types h' m;
  rh_update_ok n types h m ptr old row :
    rh_holds n types h m → rh_row_ok types row → Z.of_nat n + 1 < 2 ^ 32 → rh_fits row = true →
    m !! ptr = Some old →
    ∃ h' ptr', rh_update_row ptr row h = (h', Ok ptr') ∧ delete ptr m !! ptr' = None ∧
      rh_holds (n + 1) types h' (<[ptr' := row]> (delete ptr m));
  rh_delete_ok n types h m ptr row :
    rh_holds n types h m → m !! ptr = Some row →
    ∃ h', rh_delete_slot ptr h = (h', Ok tt) ∧ rh_holds (n + 1) types h' (delete ptr m);
  rh_clear_ok n types h m : rh_holds n types h m →
    ∃ h', rh_clear h = (h', Ok tt) ∧ rh_holds 0 types h' ∅;
  rh_types_ok n types types' h : rh_holds n types h ∅ →
    ∃ h', rh_set_column_types types' h = (h', Ok tt) ∧ rh_holds n types' h' ∅;
  rh_types_same n types h m : rh_holds n types h m →
    ∃ h', rh_set_column_types types h = (h', Ok tt) ∧ rh_holds n types h' m;
  rh_scan_ok n types h m : rh_holds n types h m →
    ∃ h' ptrs, rh_scan_pointers h = (h', Ok ptrs) ∧ rh_holds n types h' m ∧
      ptrs ≡ₚ (map_to_list m).*1
}.

(** ** Heap files *)

Section instance.
Context {St : Type} {PS : PageStore St} {SP : PageStoreSpec St}.
Abbreviation HS := (World St * HeapFile.HeapFile)%type.

Definition set_column_types (types : list DataType) : ST HS unit :=
  λ '(w, h), ((w, mkHeap (file_id h) (page_store h) types (insert_page_id h) (has_insert_page h)), Ok tt).

#[export] Instance heap_file_row_heap : RowHeap HS := {
  rh_insert_row := HeapFile.insert_row;
  rh_get_row := HeapFile.get_row;
  rh_update_row := HeapFile.update_row;
  rh_delete_slot := HeapFile.delete_slot;
  rh_clear := HeapFile.clear;
  rh_set_column_types := set_column_types;
  rh_scan_pointers := HeapFile.scan (λ acc ptr _, (acc ++ [ptr], Ok tt)) []
}.

Lemma serialize_length_version row xmin xmax :
  length (serialize_tuple (set_xmax (set_xmin row xmin) xmax)) = length (serialize_tuple row).
Proof. rewrite !serialize_tuple_eq, !length_app, !length_le_bytes. done. Qed.

Lemma live_pointer n types (s : HS) m ptr row :
  heap_holds n types s m → m !! ptr = Some row → 0 ≤ ptr.1 ∧ 0 ≤ ptr.2.
Proof.
  intros (ps & _ & _ & _ & Hm) Hrow. rewrite Hm in Hrow.
  apply row_at_Some in Hrow as (i & j & ts & -> & _). cbn. lia.
Qed.

Lemma heap_get_ok n types (s : HS) m ptr row :
  heap_holds n types s m → m !! ptr = Some row →
  ∃ s', HeapFile.get_row ptr s = (s', Ok row) ∧ heap_holds n types s' m.
Proof.
  intros Hh Hrow. pose proof Hh as (ps & H & Ht & Hl & Hm). destruct s as [w h]. cbn [fst snd] in *.
  rewrite Hm in Hrow. apply row_at_Some in Hrow as (i & j & ts & -> & Hi & Hj).
  destruct (get_row_ok w h ps i j H) as (w' & E & H'). rewrite Hi, Hj in E.
  exists (w', h). split; [done|]. by eapply heap_holds_rep.
Qed.

Lemma heap_update_ok n types (s : HS) m ptr old row :
  heap_holds n types s m → row_ok types row → Z.of_nat n + 1 < 2 ^ 32 → oversized row = false →
  m !! ptr = Some old →
  ∃ s' ptr', HeapFile.update_row ptr row s = (s', Ok ptr') ∧ delete ptr m !! ptr' = None ∧
    heap_holds (n + 1) types s' (<[ptr' := row]> (delete ptr m)).
Proof.
  intros Hh Hrow Hn Hfit Hold. pose proof (live_pointer _ _ _ _ _ _ Hh Hold) as Hptr.
  assert (Z.of_nat (length (serialize_tuple row)) < 2 ^ 16) as Hlen.
  { unfold oversized, kPageSize, sizeof_SlotEntry, sizeof_PageHeader in Hfit. apply Z.ltb_ge in Hfit. lia. }
  destruct (heap_update_step n types s m ptr row Hh) as (m' & Hm & Hh'); [split; [done|by split]|done|].
  cbn [heap_step] in *. destruct (HeapFile.update_row ptr row s) as [s' r]. cbn [fst snd] in *.
  inversion Hm; subst; try congruence.
  - eexists s', _. split_and!; [done|apply lookup_delete_eq|]. by rewrite insert_delete_eq.
  - eexists s', _. by split_and!.
Qed.

Lemma heap_types_ok n types types' (s : HS) :
  heap_holds n types s ∅ →
  ∃ s', set_column_types types' s = (s', Ok tt) ∧ heap_holds n types' s' ∅.
Proof.
  destruct s as [w h]. intros (ps & H & Ht & Hl & Hm). eexists. split; [done|].
  exists ps. cbn [fst snd] in *. split_and!; try done. destruct H. split; try done.
  cbn. intros i ts s row Hi Hs. exfalso.
  assert (row_at ps (Z.of_nat i, Z.of_nat s) = Some row) as E.
  { apply row_at_Some. by exists i, s, ts. }
  by rewrite <- Hm in E.
Qed.

#[export, refine] Instance heap_file_row_heap_spec : RowHeapSpec HS := {
  rh_holds := heap_holds;
  rh_row_ok := row_ok;
  rh_fits row := negb (oversized row);
  rh_too_large := row_too_large
}.
Proof.
  - apply heap_holds_le.
  - by intros types row [_ ->].
  - intros types row xmin xmax [(H1 & H2 & H3) Hl] Hx Hy.
    split; [split_and!; done|done].
  - by intros types row [(H1 & H2 & _) _].
  - intros row xmin xmax. unfold oversized. by rewrite serialize_length_version.
  - intros n types [w h] m row Hh Hrow Hn Hf. apply negb_true_iff in Hf.
    by apply insert_row_map.
  - intros n types [w h] m row _ Hf. apply negb_false_iff in Hf. by apply insert_row_refused.
  - apply heap_get_ok.
  - intros n types s m ptr old row Hh Hr Hn Hf%negb_true_iff. by apply heap_update_ok.
  - intros n types s m ptr row Hh Hrow.
    destruct (heap_delete_step n types s m ptr Hh (live_pointer _ _ _ _ _ _ Hh Hrow)) as (m' & Hm & Hh').
    cbn [heap_step] in *. cbn [rh_delete_slot heap_file_row_heap].
    destruct (HeapFile.delete_slot ptr s) as [s' r]. cbn [fst snd] in *. exists s'.
    inversion Hm; subst; [done|congruence].
  - intros n types [w h] m (ps & H & Ht & _). cbn [fst snd] in *.
    destruct (clear_ok w h ps H) as (w' & E & H'). eexists. split; [done|].
    exists []. cbn [fst snd]. split_and!; [done|done|done|].
    intros q. rewrite lookup_empty. unfold row_at. by destruct (_ || _).
  - apply heap_types_ok.
  - intros n types [w h] m (ps & H & Ht & Hl & Hm). eexists. split; [done|]. exists ps.
    cbn [fst snd] in *. subst types. by destruct h.
  - intros n types [w h] m (ps & H & Ht & Hl & Hm). cbn [fst snd] in *.
    destruct (scan_ok (λ acc ptr (_ : Row), acc ++ [ptr]) w h ps [] H) as (w' & E & H').
    eexists _, _. split_and!; [exact E|by eapply heap_holds_rep|].
    rewrite <- (entries_map ps m Hm). clear. generalize (entries ps) as es. intros es.
    assert (∀ acc, fold_entries (λ acc ptr (_ : Row), acc ++ [ptr]) acc es = acc ++ es.*1) as ->; [|done].
    unfold fold_entries. induction es as [|e es IH]; intros acc; cbn; [by rewrite app_nil_r|].
    rewrite IH. by rewrite <- app_assoc.
Defined.
End instance.
