(* ===== verification/IndexKey.v ===== *)
(** * Index keys

    [IndexKey] (src/core/index_key.cc): composite keys compared component by
    component.  The order is only as good as the order of the values, so the
    laws are stated for keys whose components have fixed kinds. *)

From Stdlib Require Import ZArith Lia.
From S2P Require Import Prelude Values Rows.

Abbreviation IndexKey := (list value).

(** ** Operations *)

Definition key_of_value (single : value) : IndexKey := [single].

Definition key_has_null (key : IndexKey) : bool := existsb is_null key.
Definition key_empty (key : IndexKey) : bool := match key with [] => true | _ => false end.

Fixpoint starts_with (key prefix : IndexKey) : bool :=
  match prefix, key with
  | [], _ => true
  | _ :: _, [] => false
  | p :: prefix, x :: key => if value_ne x p then false else starts_with key prefix
  end.

Definition key_eq (a b : IndexKey) : bool := values_eq a b.

(** [operator<]: the loop over the common length, then the sizes. *)
Fixpoint key_lt (a b : IndexKey) : bool :=
  match a, b with
  | x :: a, y :: b =>
      if value_lt x y then true
      else if value_lt y x then false
      else key_lt a b
  | [], _ :: _ => true
  | _, [] => false
  end.

Definition key_le (a b : IndexKey) : bool := negb (key_lt b a).
Definition key_gt (a b : IndexKey) : bool := key_lt b a.
Definition key_ge (a b : IndexKey) : bool := negb (key_lt a b).

Definition key_to_string (key : IndexKey) : string :=
  "(" +:+ String.concat ", " (to_string <$> key) +:+ ")".

(** ** The interface of a key order

    What an ordered container needs of its keys: on a domain of keys the
    comparison is a strict total order whose equality is [key_eq]. *)

Class KeyDomain (D : IndexKey → Prop) : Prop := {
  kd_irrefl a : D a → key_lt a a = false;
  kd_trans a b c : D a → D b → D c → key_lt a b = true → key_lt b c = true → key_lt a c = true;
  kd_total a b : D a → D b → key_lt a b = false → key_lt b a = false → a = b;
  kd_eq a b : D a → D b → key_eq a b = true ↔ a = b
}.

Section domain.
Context (D : IndexKey → Prop) {KD : KeyDomain D}.

Lemma kd_asym a b : D a → D b → key_lt a b = true → key_lt b a = false.
Proof.
  intros Ha Hb Hab. destruct (key_lt b a) eqn:Hba; [|done].
  pose proof (kd_trans a b a Ha Hb Ha Hab Hba). rewrite kd_irrefl in *; done.
Qed.

Lemma kd_lt_ne a b : D a → D b → key_lt a b = true → a ≠ b.
Proof. intros Ha Hb Hlt ->. by rewrite kd_irrefl in Hlt. Qed.

Lemma kd_neq a b : D a → D b → a ≠ b → key_eq a b = false.
Proof.
  intros Ha Hb Hne. destruct (key_eq a b) eqn:E; [|done]. by apply kd_eq in E.
Qed.

Lemma kd_eq_refl a : D a → key_eq a a = true.
Proof. intros Ha. by apply kd_eq. Qed.
End domain.

(** ** Typed keys *)

(** Keys over columns of the kinds [ks]; a shorter key, a bound or a prefix,
    covers the first columns. *)
Fixpoint typed_key (ks : list kind) (key : IndexKey) : Prop :=
  match ks, key with
  | _, [] => True
  | [], _ :: _ => False
  | k :: ks, x :: key => has_kind k x ∧ typed_key ks key
  end.

Lemma values_eq_iff ks : ∀ a b, typed_key ks a → typed_key ks b → key_eq a b = true ↔ a = b.
Proof.
  unfold key_eq. induction ks as [|k ks IH]; intros [|x a] [|y b] Ha Hb; try done.
  cbn [values_eq]. destruct Ha as [Hx Ha], Hb as [Hy Hb]. unfold value_ne.
  specialize (IH a b Ha Hb). pose proof (value_eq_iff k x y Hx Hy) as Hxy.
  destruct (value_eq x y); cbn.
  - rewrite IH. split; [intros ->; f_equal; by apply Hxy|by intros [=]].
  - split; [done|]. intros [= E _]. destruct Hxy as [_ Hxy]. by specialize (Hxy E).
Qed.

#[export] Instance typed_key_domain ks : KeyDomain (typed_key ks).
Proof.
  split.
  - induction ks as [|k ks IH]; intros [|x a] Ha; try done. cbn. destruct Ha as [Hx Ha].
    rewrite (value_lt_irrefl k x Hx). by apply IH.
  - induction ks as [|k ks IH]; intros [|x a] [|y b] [|z c] Ha Hb Hc; try done.
    destruct Ha as [Hx Ha], Hb as [Hy Hb], Hc as [Hz Hc]. cbn.
    destruct (value_lt x y) eqn:Hxy.
    + intros _. destruct (value_lt y z) eqn:Hyz.
      * intros _. by rewrite (value_lt_trans k x y z Hx Hy Hz Hxy Hyz).
      * destruct (value_lt z y) eqn:Hzy; [done|].
        assert (y = z) as -> by (by eapply value_lt_total). by rewrite Hxy.
    + destruct (value_lt y x) eqn:Hyx; [done|].
      assert (x = y) as -> by (by eapply value_lt_total). intros Hab.
      destruct (value_lt y z); [done|]. destruct (value_lt z y); [done|]. by apply IH.
  - induction ks as [|k ks IH]; intros [|x a] [|y b] Ha Hb; try done.
    destruct Ha as [Hx Ha], Hb as [Hy Hb]. cbn.
    destruct (value_lt x y) eqn:Hxy; [done|]. destruct (value_lt y x) eqn:Hyx; [done|].
    intros H1 H2. assert (x = y) as -> by (by eapply value_lt_total). f_equal. by apply IH.
  - intros a b. apply values_eq_iff.
Qed.

Lemma starts_with_iff ks : ∀ key p, typed_key ks key → typed_key ks p →
  starts_with key p = true ↔ ∃ rest, key = p ++ rest.
Proof.
  induction ks as [|k ks IH]; intros [|x key] [|y p] Hk Hp; try done; cbn.
  - split; [eauto|done].
  - split; [eauto|done].
  - split; [done|]. intros [rest ?]. done.
  - split; [eauto|done].
  - destruct Hk as [Hx Hk], Hp as [Hy Hp]. pose proof (value_eq_iff k x y Hx Hy) as Hxy.
    unfold value_ne. destruct (value_eq x y); cbn.
    + rewrite (IH key p Hk Hp). assert (x = y) as -> by by apply Hxy.
      split; [intros [rest ->]|intros [rest [=]]]; eauto.
    + split; [done|]. intros [rest [= E _]]. destruct Hxy as [_ Hxy]. by specialize (Hxy E).
Qed.

(** The key is past the prefix: at the first component that differs it is
    larger.  This is what the loop in [collect_prefix] computes. *)
Fixpoint prefix_exceeded (prefix key : IndexKey) : bool :=
  match prefix, key with
  | p :: prefix, x :: key =>
      if value_lt p x then true
      else if value_lt x p then false
      else prefix_exceeded prefix key
  | _, _ => false
  end.

(** Past a key that exceeds the prefix no key has the prefix. *)
Lemma prefix_exceeded_monotone ks : ∀ p key key',
  typed_key ks p → typed_key ks key → typed_key ks key' →
  prefix_exceeded p key = true → key_lt key key' = true → starts_with key' p = false.
Proof.
  induction ks as [|k ks IH]; intros [|y p] [|x key] [|z key'] Hp Hk Hk'; try done.
  destruct Hp as [Hy Hp], Hk as [Hx Hk], Hk' as [Hz Hk']. cbn. unfold value_ne.
  destruct (value_eq z y) eqn:Ez; [|done]. cbn.
  assert (z = y) as -> by by apply (value_eq_iff k).
  destruct (value_lt y x) eqn:Hyx.
  - intros _. destruct (value_lt x y) eqn:Hxy; [|done].
    pose proof (value_lt_trans k x y x Hx Hy Hx Hxy Hyx) as E.
    by rewrite (value_lt_irrefl k x Hx) in E.
  - destruct (value_lt x y) eqn:Hxy; [done|]. by apply IH.
Qed.
