(* ===== verification/BTree.v ===== *)
(** * The B-tree index

    [BTreeIndex] (src/core/btree_index.cc): an in-memory B-tree of minimum
    degree 16 from index keys to lists of row indices.  Indexing outside a
    vector is undefined behaviour, so each access is checked; the recursions
    take the height of the tree as fuel, and the theorems show that neither
    the fuel nor a check ever fails on a tree the operations have built. *)

From Stdlib Require Import ZArith Lia Sorted.
From S2P Require Import Prelude Values Rows IndexKey.

(** ** State *)

Definition kMinDegree : nat := 16.
Definition kMaxKeys : nat := 2 * kMinDegree - 1.

Inductive node : Type :=
  | Node (is_leaf : bool) (keys : list IndexKey) (row_lists : list (list Z)) (children : list node).

Definition n_leaf (n : node) : bool := match n with Node l _ _ _ => l end.
Definition n_keys (n : node) : list IndexKey := match n with Node _ ks _ _ => ks end.
Definition n_rows (n : node) : list (list Z) := match n with Node _ _ rs _ => rs end.
Definition n_children (n : node) : list node := match n with Node _ _ _ cs => cs end.

Abbreviation index := (option node).

(** The depth of the leftmost leaf. *)
Fixpoint height (n : node) : nat :=
  match n with Node _ _ _ cs => match cs with [] => 0%nat | c :: _ => S (height c) end end.

(** ** Vectors *)

Definition or_ub {A} (o : option A) : res A := match o with Some a => Ok a | None => UB end.

(** [v.insert(v.begin() + i, x)] *)
Definition insert_at {A} (i : nat) (x : A) (l : list A) : list A := take i l ++ x :: drop i l.
Definition vec_insert {A} (i : nat) (x : A) (l : list A) : res (list A) :=
  if (i <=? length l)%nat then Ok (insert_at i x l) else UB.
(** [v.erase(v.begin() + i)] *)
Definition vec_erase {A} (i : nat) (l : list A) : res (list A) :=
  if (i <? length l)%nat then Ok (take i l ++ drop (S i) l) else UB.

(** ** Operations *)

(** The [while] loop that opens most of them. *)
Fixpoint slot (keys : list IndexKey) (key : IndexKey) : nat :=
  match keys with
  | [] => 0
  | k :: keys => if key_lt k key then S (slot keys key) else 0
  end.

Definition passes_lower (key : IndexKey) (lower : option IndexKey) (inclusive : bool) : bool :=
  match lower with
  | None => true
  | Some lower => if inclusive then negb (key_lt key lower) else key_lt lower key
  end.

Definition passes_upper (key : IndexKey) (upper : option IndexKey) (inclusive : bool) : bool :=
  match upper with
  | None => true
  | Some upper => if inclusive then negb (key_lt upper key) else key_lt key upper
  end.

Definition split_child (parent : node) (child_index : nat) : res node :=
  let '(Node leaf ks rs cs) := parent in
  full ← or_ub (cs !! child_index);
  let '(Node fleaf fks frs fcs) := full in
  let mid := (kMinDegree - 1)%nat in
  mid_key ← or_ub (fks !! mid);
  mid_rows ← or_ub (frs !! mid);
  if negb fleaf && (length fcs <? mid + 1)%nat then UB
  else
    let new_child := Node fleaf (drop (mid + 1) fks) (drop (mid + 1) frs)
                       (if fleaf then [] else drop (mid + 1) fcs) in
    let full' := Node fleaf (take mid fks) (take mid frs)
                   (if fleaf then fcs else take (mid + 1) fcs) in
    ks' ← vec_insert child_index mid_key ks;
    rs' ← vec_insert child_index mid_rows rs;
    cs' ← vec_insert (child_index + 1) new_child (<[child_index := full']> cs);
    mret (Node leaf ks' rs' cs').

(** [node->row_lists[i].push_back(row_index)] *)
Definition push_row (n : node) (i : nat) (row_index : Z) : res node :=
  let '(Node leaf ks rs cs) := n in
  rows ← or_ub (rs !! i);
  mret (Node leaf ks (<[i := rows ++ [row_index]]> rs) cs).

(** A call on [node->children[i]], which it updates. *)
Definition in_child (n : node) (i : nat) (f : node → res node) : res node :=
  let '(Node leaf ks rs cs) := n in
  c ← or_ub (cs !! i);
  c' ← f c;
  mret (Node leaf ks rs (<[i := c']> cs)).

Definition is_key (keys : list IndexKey) (i : nat) (key : IndexKey) : bool :=
  match keys !! i with Some k => key_eq k key | None => false end.

Fixpoint insert_non_full (fuel : nat) (n : node) (key : IndexKey) (row_index : Z) : res node :=
  match fuel with
  | O => UB
  | S fuel =>
      let '(Node leaf ks rs cs) := n in
      let i := slot ks key in
      if is_key ks i key then push_row n i row_index
      else if leaf then
        ks' ← vec_insert i key ks;
        rs' ← vec_insert i [row_index] rs;
        mret (Node leaf ks' rs' cs)
      else
        c ← or_ub (cs !! i);
        if (length (n_keys c) =? kMaxKeys)%nat then
          n ← split_child n i;
          k ← or_ub (n_keys n !! i);
          if key_lt k key then in_child n (i + 1) (λ c, insert_non_full fuel c key row_index)
          else if key_eq k key then push_row n i row_index
          else in_child n i (λ c, insert_non_full fuel c key row_index)
        else in_child n i (λ c, insert_non_full fuel c key row_index)
  end.

Definition new_leaf : node := Node true [] [] [].
Definition ensure_root (t : index) : node := match t with Some n => n | None => new_leaf end.

Definition insert (t : index) (key : IndexKey) (row_index : Z) : res index :=
  if key_has_null key || key_empty key then Ok t
  else
    let root := ensure_root t in
    if (length (n_keys root) =? kMaxKeys)%nat then
      root ← split_child (Node false [] [] [root]) 0;
      root ← insert_non_full (S (height root)) root key row_index;
      mret (Some root)
    else
      root ← insert_non_full (S (height root)) root key row_index;
      mret (Some root).

Fixpoint remove_from_node (fuel : nat) (n : node) (key : IndexKey) (row_index : Z)
    : res (node * bool) :=
  match fuel with
  | O => UB
  | S fuel =>
      let '(Node leaf ks rs cs) := n in
      let i := slot ks key in
      if is_key ks i key then
        rows ← or_ub (rs !! i);
        let rows := filter (λ r, r ≠ row_index) rows in
        if negb (length rows =? 0)%nat then mret (Node leaf ks (<[i := rows]> rs) cs, true)
        else
          ks' ← vec_erase i ks;
          rs' ← vec_erase i (<[i := rows]> rs);
          mret (Node leaf ks' rs' cs, true)
      else if leaf then mret (n, false)
      else
        c ← or_ub (cs !! i);
        '(c', b) ← remove_from_node fuel c key row_index;
        mret (Node leaf ks rs (<[i := c']> cs), b)
  end.

(** The root is replaced by its only child, an empty leaf by nothing. *)
Definition shrink_root (root : node) : index :=
  let root :=
    match root with
    | Node false [] _ [c] => c
    | _ => root
    end in
  match root with
  | Node true [] _ _ => None
  | _ => Some root
  end.

Definition remove (t : index) (key : IndexKey) (row_index : Z) : res index :=
  match t with
  | None => Ok None
  | Some root =>
      if key_has_null key || key_empty key then Ok t
      else
        '(root, _) ← remove_from_node (S (height root)) root key row_index;
        mret (shrink_root root)
  end.

Fixpoint collect_equal (fuel : nat) (n : node) (key : IndexKey) : res (list Z) :=
  match fuel with
  | O => UB
  | S fuel =>
      let '(Node leaf ks rs cs) := n in
      let i := slot ks key in
      if is_key ks i key then or_ub (rs !! i)
      else if leaf then mret []
      else c ← or_ub (cs !! i); collect_equal fuel c key
  end.

Definition find_equal (t : index) (key : IndexKey) : res (list Z) :=
  match t with
  | None => Ok []
  | Some root =>
      if key_has_null key || key_empty key then Ok []
      else collect_equal (S (height root)) root key
  end.

(** The loops of [collect_prefix] and [collect_range]: the rows of the children
    and keys from index [i] on; [stop] ends the loop, and the call. *)
Section collect.
Context (rec : node → res (list Z)) (take_key stop : IndexKey → bool).

Fixpoint collect_loop (leaf : bool) (cs : list node) (i : nat) (ks : list IndexKey)
    (rs : list (list Z)) : res (list Z) :=
  match ks with
  | [] => if leaf then mret [] else c ← or_ub (last cs); rec c
  | k :: ks =>
      below ← (if leaf then mret [] else c ← or_ub (cs !! i); rec c);
      if take_key k then
        rows ← or_ub (head rs);
        above ← collect_loop leaf cs (S i) ks (tail rs);
        mret (below ++ rows ++ above)
      else if stop k then mret below
      else
        above ← collect_loop leaf cs (S i) ks (tail rs);
        mret (below ++ above)
  end.
End collect.

Fixpoint collect_keys (take_key stop : IndexKey → bool) (fuel : nat) (n : node) : res (list Z) :=
  match fuel with
  | O => UB
  | S fuel =>
      let '(Node leaf ks rs cs) := n in
      collect_loop (collect_keys take_key stop fuel) take_key stop leaf cs 0 ks rs
  end.

Definition collect_prefix (prefix : IndexKey) : nat → node → res (list Z) :=
  collect_keys (λ k, starts_with k prefix)
    (λ k, key_lt prefix k && negb (starts_with k prefix) &&
          (prefix_exceeded prefix k && negb (starts_with k prefix))).

Definition find_prefix (t : index) (prefix : IndexKey) : res (list Z) :=
  match t with
  | None => Ok []
  | Some root =>
      if key_has_null prefix || key_empty prefix then Ok []
      else collect_prefix prefix (S (height root)) root
  end.

Definition in_range (lower : option IndexKey) (li : bool) (upper : option IndexKey) (ui : bool)
    (k : IndexKey) : bool := passes_lower k lower li && passes_upper k upper ui.
Definition beyond (upper : option IndexKey) (k : IndexKey) : bool :=
  match upper with Some u => key_lt u k | None => false end.

Definition collect_range (lower : option IndexKey) (li : bool) (upper : option IndexKey) (ui : bool)
    : nat → node → res (list Z) :=
  collect_keys (in_range lower li upper ui) (beyond upper).

Definition find_range (t : index) (lower : option IndexKey) (li : bool) (upper : option IndexKey)
    (ui : bool) : res (list Z) :=
  match t with
  | None => Ok []
  | Some root => collect_range lower li upper ui (S (height root)) root
  end.

Definition clear : index := None.
Definition empty (t : index) : bool := match t with None => true | Some _ => false end.

(** ** The abstract index: a sorted association list *)

Abbreviation entry := (IndexKey * list Z)%type.

Fixpoint al_insert (key : IndexKey) (r : Z) (l : list entry) : list entry :=
  match l with
  | [] => [(key, [r])]
  | (k, rs) :: l =>
      if key_lt k key then (k, rs) :: al_insert key r l
      else if key_eq k key then (k, rs ++ [r]) :: l
      else (key, [r]) :: (k, rs) :: l
  end.

Fixpoint al_find (key : IndexKey) (l : list entry) : list Z :=
  match l with
  | [] => []
  | (k, rs) :: l => if key_eq k key then rs else al_find key l
  end.

(** The rows of the keys that pass a test. *)
Definition al_collect (test : IndexKey → bool) (l : list entry) : list Z :=
  mjoin ((λ e : entry, if test e.1 then e.2 else []) <$> l).

(** ** In-order traversal *)

Fixpoint interleave (es : list entry) (fs : list (list entry)) : list entry :=
  match fs, es with
  | [], _ => es
  | f :: _, [] => f
  | f :: fs, e :: es => f ++ e :: interleave es fs
  end.

Fixpoint flatten (n : node) : list entry :=
  match n with Node _ ks rs cs => interleave (zip ks rs) (flatten <$> cs) end.

Definition flatten_index (t : index) : list entry :=
  match t with None => [] | Some n => flatten n end.

(** All leaves at depth [h], vectors of matching lengths, at most 31 keys. *)
Fixpoint shaped (h : nat) (n : node) : Prop :=
  match n with
  | Node leaf ks rs cs =>
      length rs = length ks ∧ (length ks ≤ kMaxKeys)%nat ∧
      match h with
      | O => leaf = true ∧ cs = []
      | S h => leaf = false ∧ length cs = S (length ks) ∧ Forall (shaped h) cs
      end
  end.

Lemma shaped_eq h leaf ks rs cs : shaped h (Node leaf ks rs cs) ↔
  length rs = length ks ∧ (length ks ≤ kMaxKeys)%nat ∧
  match h with
  | O => leaf = true ∧ cs = []
  | S h => leaf = false ∧ length cs = S (length ks) ∧ Forall (shaped h) cs
  end.
Proof. by destruct h. Qed.

Lemma shaped_height h : ∀ n, shaped h n → height n = h.
Proof.
  induction h as [|h IH]; intros [leaf ks rs cs] (_ & _ & H); cbn.
  - by destruct H as [_ ->].
  - destruct H as (_ & Hl & Hf). destruct cs as [|c cs]; [done|].
    apply Forall_cons_iff in Hf as [Hc _]. by rewrite (IH c Hc).
Qed.

(** *** Cutting a traversal at a child, and at a key *)

Lemma interleave_child i : ∀ es fs f, length fs = S (length es) → fs !! i = Some f →
  ∃ A B, interleave es fs = A ++ f ++ B ∧
    (∀ f', interleave es (<[i := f']> fs) = A ++ f' ++ B) ∧
    (∀ e g1 g2, interleave (insert_at i e es) (insert_at (S i) g2 (<[i := g1]> fs)) =
       A ++ g1 ++ e :: g2 ++ B) ∧
    ((i = 0%nat ∧ A = []) ∨ ∃ A' e j, i = S j ∧ A = A' ++ [e] ∧ es !! j = Some e) ∧
    (B = [] ∨ ∃ B' e, B = e :: B' ∧ es !! i = Some e).
Proof.
  induction i as [|i IH]; intros es fs f Hl Hf; destruct fs as [|f0 fs]; try done.
  - injection Hf as ->. destruct es as [|e es]; cbn in Hl.
    + destruct fs; [|done]. exists [], []. cbn. rewrite app_nil_r. split_and!.
      * done.
      * intros. by rewrite app_nil_r.
      * intros. by rewrite !app_nil_r.
      * by left.
      * by left.
    + exists [], (e :: interleave es fs). split_and!; [done|done|done|by left|].
      right. by exists (interleave es fs), e.
  - destruct es as [|e es]; [cbn in *; destruct fs; done|]. cbn in Hl, Hf.
    destruct (IH es fs f) as (A & B & E1 & E2 & E3 & HA & HB); [lia|done|].
    exists (f0 ++ e :: A), B. split_and!.
    + cbn. by rewrite E1, <- app_assoc.
    + intros f'. cbn. by rewrite E2, <- app_assoc.
    + intros e' g1 g2.
      change (f0 ++ e :: interleave (insert_at i e' es) (insert_at (S i) g2 (<[i := g1]> fs)) =
              (f0 ++ e :: A) ++ g1 ++ e' :: g2 ++ B).
      by rewrite E3, <- app_assoc.
    + right. destruct HA as [[-> ->]|(A' & e' & j & -> & -> & He)].
      * exists f0, e, 0%nat. done.
      * exists (f0 ++ e :: A'), e', (S j). split_and!; [done|by rewrite <- app_assoc|done].
    + destruct HB as [->|(B' & e' & -> & He)]; [by left|right]. eauto.
Qed.

Lemma interleave_nil es : interleave es [] = es.
Proof. by destruct es. Qed.

Lemma interleave_key i : ∀ es fs e, (fs = [] ∨ length fs = S (length es)) → es !! i = Some e →
  ∃ A B, interleave es fs = A ++ e :: B ∧ ∀ e', interleave (<[i := e']> es) fs = A ++ e' :: B.
Proof.
  induction i as [|i IH]; intros es fs e Hl He; destruct es as [|e0 es]; try done; cbn in He.
  - injection He as ->. destruct fs as [|f fs].
    + exists [], es. done.
    + exists f, (interleave es fs). done.
  - destruct fs as [|f fs].
    + destruct (IH es [] e) as (A & B & E1 & E2); [by left|done|].
      exists (e0 :: A), B. rewrite interleave_nil in *. split.
      * by rewrite E1.
      * intros e'. specialize (E2 e'). rewrite interleave_nil in *.
        change (e0 :: <[i := e']> es = e0 :: A ++ e' :: B). by rewrite E2.
    + destruct (IH es fs e) as (A & B & E1 & E2); [right; destruct Hl; [done|cbn in *; lia]|done|].
      exists (f ++ e0 :: A), B. cbn. split; [by rewrite E1, <- app_assoc|].
      intros e'. by rewrite E2, <- app_assoc.
Qed.

(** Cutting a full child in two around its middle key. *)
Lemma interleave_cut m : ∀ es fs e, length fs = S (length es) → es !! m = Some e →
  interleave es fs =
  interleave (take m es) (take (S m) fs) ++ e :: interleave (drop (S m) es) (drop (S m) fs).
Proof.
  induction m as [|m IH]; intros es fs e Hl He; destruct es as [|e0 es]; try done;
    destruct fs as [|f fs]; try done; cbn in He, Hl.
  - injection He as ->. reflexivity.
  - rewrite !firstn_cons, !skipn_cons. cbn [interleave].
    rewrite (IH es fs e) by (done || lia). by rewrite <- app_assoc.
Qed.

(** ** Order *)

Definition e_lt (a b : entry) : Prop := key_lt a.1 b.1 = true.

Lemma sorted_app (l1 l2 : list entry) :
  StronglySorted e_lt (l1 ++ l2) ↔
  StronglySorted e_lt l1 ∧ StronglySorted e_lt l2 ∧ ∀ a b, a ∈ l1 → b ∈ l2 → e_lt a b.
Proof.
  induction l1 as [|x l1 IH]; cbn.
  - split; [|by intros (_ & ? & _)]. intros H. split_and!; [constructor|done|].
    intros a b ?%elem_of_nil. done.
  - split.
    + intros H. apply StronglySorted_inv in H as [H1 H2]. apply IH in H1 as (H1 & H3 & H4).
      apply Forall_app in H2 as [H2 H5]. split_and!; [by constructor|done|].
      intros a b [->|Ha]%elem_of_cons Hb; [|by apply H4]. rewrite Forall_forall in H5. by apply H5.
    + intros (H1 & H2 & H3). apply StronglySorted_inv in H1 as [H1 H4].
      constructor; [apply IH; split_and!; try done; intros; apply H3; set_solver|].
      apply Forall_app. split; [done|]. apply Forall_forall. intros b Hb. apply H3; set_solver.
Qed.

Section correct.
Context (D : IndexKey → Prop) {KD : KeyDomain D}.

(** The entries of an index: increasing keys of the domain. *)
Definition ordered (l : list entry) : Prop :=
  StronglySorted e_lt l ∧ Forall (λ e : entry, D e.1) l.

Lemma ordered_app l1 l2 : ordered (l1 ++ l2) ↔
  ordered l1 ∧ ordered l2 ∧ ∀ a b, a ∈ l1 → b ∈ l2 → e_lt a b.
Proof. unfold ordered. rewrite sorted_app, Forall_app. naive_solver. Qed.

Lemma ordered_cons e l : ordered (e :: l) ↔ D e.1 ∧ ordered l ∧ ∀ b, b ∈ l → e_lt e b.
Proof.
  change (e :: l) with ([e] ++ l). rewrite ordered_app. split.
  - intros ([_ He] & H & Hlt). apply Forall_cons_iff in He as [He _]. split_and!; [done|done|].
    intros b Hb. apply Hlt; set_solver.
  - intros (He & H & Hlt). split_and!; [|done|].
    + split; [repeat constructor|]. by apply Forall_cons_iff.
    + intros a b ->%list_elem_of_singleton Hb. by apply Hlt.
Qed.

(** All keys of [l] lie below, respectively above, [key]. *)
Definition below (key : IndexKey) (l : list entry) : Prop := ∀ e, e ∈ l → key_lt e.1 key = true.
Definition above (key : IndexKey) (l : list entry) : Prop :=
  ∀ e, e ∈ l → key_lt e.1 key = false ∧ key_eq e.1 key = false.

Lemma below_last key A e : ordered (A ++ [e]) → D key → key_lt e.1 key = true → below key (A ++ [e]).
Proof.
  intros (HA & He & Hlt)%ordered_app Hk Hek x Hx. apply ordered_cons in He as (He & _).
  apply elem_of_app in Hx as [Hx|Hx]; [|by apply list_elem_of_singleton in Hx as ->].
  destruct HA as [_ HA]. rewrite Forall_forall in HA.
  apply (kd_trans x.1 e.1 key); [by apply HA|done|done| |done]. apply Hlt; set_solver.
Qed.

Lemma above_head key B e : ordered (e :: B) → D key →
  key_lt e.1 key = false → key_eq e.1 key = false → above key (e :: B).
Proof.
  intros (He & HB & Hlt)%ordered_cons Hk Hl Heq x [->|Hx]%elem_of_cons; [done|].
  destruct HB as [_ HB]. rewrite Forall_forall in HB. specialize (HB x Hx). specialize (Hlt x Hx).
  assert (Hke : key_lt key e.1 = true).
  { destruct (key_lt key e.1) eqn:E; [done|]. pose proof (kd_total e.1 key He Hk Hl E) as Ee.
    rewrite Ee in Heq. by rewrite (kd_eq_refl D) in Heq. }
  pose proof (kd_trans key e.1 x.1 Hk He HB Hke Hlt) as Hkx. split.
  - by apply (kd_asym D).
  - apply (kd_neq D); [done|done|]. symmetry. by apply (kd_lt_ne D).
Qed.

Lemma al_insert_below key r A M : below key A → al_insert key r (A ++ M) = A ++ al_insert key r M.
Proof.
  induction A as [|[k rs] A IH]; intros HA; [done|]. cbn.
  assert (key_lt k key = true) as -> by (apply (HA (k, rs)); set_solver). rewrite IH; [done|]. intros e He. apply HA. set_solver.
Qed.

Lemma al_insert_above key r M B : above key B → al_insert key r (M ++ B) = al_insert key r M ++ B.
Proof.
  intros HB. induction M as [|[k rs] M IH]; cbn.
  - destruct B as [|[k rs] B]; [done|]. cbn.
    destruct (HB (k, rs)) as [E1 E2]; [set_solver|]. cbn [fst] in E1, E2. by rewrite E1, E2.
  - destruct (key_lt k key); [by rewrite IH|]. by destruct (key_eq k key).
Qed.

Lemma al_insert_cut key r A M B : below key A → above key B →
  al_insert key r (A ++ M ++ B) = A ++ al_insert key r M ++ B.
Proof. intros HA HB. by rewrite al_insert_below, al_insert_above. Qed.

Lemma al_find_cut key A M B : below key A → above key B → ordered (A ++ M ++ B) → D key →
  al_find key (A ++ M ++ B) = al_find key M.
Proof.
  intros HA HB Ho Hk. induction A as [|[k rs] A IH]; cbn.
  - induction M as [|[k rs] M IHM]; cbn.
    + clear Ho. induction B as [|[k rs] B IHB]; [done|]. cbn.
      destruct (HB (k, rs)) as [_ E]; [set_solver|]. cbn [fst] in E. rewrite E. apply IHB.
      intros e He. apply HB. set_solver.
    + destruct (key_eq k key); [done|]. apply IHM. by apply ordered_cons in Ho as (_ & ? & _).
  - apply ordered_cons in Ho as (He & Ho & _). cbn in He.
    assert (Hlt : key_lt k key = true) by (apply (HA (k, rs)); set_solver).
    rewrite (kd_neq D k key He Hk) by (by apply (kd_lt_ne D)).
    apply IH; [|done]. intros e He'. apply HA. set_solver.
Qed.

Lemma al_find_here key k rows A B : ordered (A ++ (k, rows) :: B) → D key → key_eq k key = true →
  rows = al_find key (A ++ (k, rows) :: B).
Proof.
  intros (HA & HB & Hlt)%ordered_app Hk Heq. pose proof HB as (Dk & _ & _)%ordered_cons. cbn in Dk.
  assert (k = key) as -> by (by apply (kd_eq k key)).
  induction A as [|[k' rs'] A IH]; cbn; [by rewrite Heq|].
  apply ordered_cons in HA as (Dk' & HA & _). cbn in Dk'.
  assert (Hl : e_lt (k', rs') (key, rows)) by (apply Hlt; set_solver). red in Hl. cbn [fst] in Hl.
  rewrite (kd_neq D k' key Dk' Hk) by (by apply (kd_lt_ne D)).
  apply IH; [done|]. intros a b Ha Hb. apply Hlt; [set_solver|done].
Qed.

(** Inserting keeps the order. *)
Lemma al_insert_elem key r l e : e ∈ al_insert key r l → e.1 = key ∨ ∃ e', e' ∈ l ∧ e'.1 = e.1.
Proof.
  induction l as [|[k rs] l IH]; cbn.
  - intros ->%list_elem_of_singleton. by left.
  - destruct (key_lt k key); [|destruct (key_eq k key)].
    + intros [->|He]%elem_of_cons; [right; exists (k, rs); set_solver|].
      destruct (IH He) as [?|(e' & ? & ?)]; [by left|right; exists e'; set_solver].
    + intros [->|He]%elem_of_cons; right; [exists (k, rs)|exists e]; set_solver.
    + intros [->|He]%elem_of_cons; [by left|right; exists e; set_solver].
Qed.

Lemma al_insert_ordered key r l : ordered l → D key → ordered (al_insert key r l).
Proof.
  intros Ho Hk. induction l as [|[k rs] l IH]; cbn.
  - apply ordered_cons. split_and!; [done|by split; constructor|]. intros b ?%elem_of_nil. done.
  - pose proof Ho as (Hd & Hl & Hlt)%ordered_cons. cbn in Hd.
    destruct (key_lt k key) eqn:E1; [|destruct (key_eq k key) eqn:E2].
    + apply ordered_cons. split_and!; [done|by apply IH|]. intros b Hb.
      destruct (al_insert_elem key r l b Hb) as [Eb|(e' & He' & Eb)].
      * red. cbn. by rewrite Eb.
      * specialize (Hlt e' He'). red in Hlt |- *. by rewrite <- Eb.
    + apply ordered_cons. done.
    + apply ordered_cons. split_and!; [done|done|]. intros b Hb.
      pose proof (above_head key l (k, rs) Ho Hk E1 E2 b Hb) as [F1 F2].
      assert (Db : D b.1) by (destruct Ho as [_ Ho]; rewrite Forall_forall in Ho; by apply Ho).
      red. cbn. destruct (key_lt key b.1) eqn:E; [done|].
      pose proof (kd_total b.1 key Db Hk F1 E) as Eb. rewrite Eb in F2. by rewrite (kd_eq_refl D) in F2.
Qed.

(** *** Slots *)

Lemma slot_below ks key : ∀ j k, (j < slot ks key)%nat → ks !! j = Some k → key_lt k key = true.
Proof.
  induction ks as [|k0 ks IH]; intros j k Hj Hk; [done|]. cbn in Hj.
  destruct (key_lt k0 key) eqn:E; [|lia]. destruct j as [|j]; cbn in Hk; [congruence|].
  eapply IH; [|done]. lia.
Qed.

Lemma slot_at_key ks key k : ks !! slot ks key = Some k → key_lt k key = false.
Proof.
  induction ks as [|k0 ks IH]; [done|]. cbn. destruct (key_lt k0 key) eqn:E; [apply IH|].
  intros [= <-]. done.
Qed.

Lemma slot_le ks key : (slot ks key ≤ length ks)%nat.
Proof. induction ks as [|k0 ks IH]; cbn; [lia|]. destruct (key_lt k0 key); lia. Qed.

(** The keys before position [i] are below [key], the one at [i] is above. *)
Definition routes (ks : list IndexKey) (i : nat) (key : IndexKey) : Prop :=
  (∀ j k, (j < i)%nat → ks !! j = Some k → key_lt k key = true) ∧
  (∀ k, ks !! i = Some k → key_lt k key = false ∧ key_eq k key = false).

Lemma slot_routes ks key : is_key ks (slot ks key) key = false → routes ks (slot ks key) key.
Proof.
  intros H. split; [apply slot_below|]. intros k Hk. split; [by apply (slot_at_key ks)|].
  unfold is_key in H. by rewrite Hk in H.
Qed.

Lemma zip_lookup_key {A B} (ks : list A) (rs : list B) i e :
  zip ks rs !! i = Some e → ks !! i = Some e.1 ∧ rs !! i = Some e.2.
Proof. intros (x & y & -> & ? & ?)%lookup_zip_with_Some. done. Qed.

Lemma zip_insert_at {A B} i (k : A) (r : B) ks rs : length rs = length ks →
  zip (insert_at i k ks) (insert_at i r rs) = insert_at i (k, r) (zip ks rs).
Proof.
  intros Hl. unfold insert_at. rewrite zip_with_app by (rewrite !length_take; lia).
  cbn. by rewrite zip_with_take, zip_with_drop.
Qed.

Lemma length_insert_at {A} i (x : A) l : length (insert_at i x l) = S (length l).
Proof. unfold insert_at. rewrite length_app. cbn. rewrite length_take, length_drop. lia. Qed.

Lemma vec_insert_ok {A} i (x : A) l : (i ≤ length l)%nat → vec_insert i x l = Ok (insert_at i x l).
Proof. intros H. unfold vec_insert. by rewrite (proj2 (Nat.leb_le _ _)). Qed.

Lemma lookup_insert_at {A} i j (x : A) l : (i ≤ length l)%nat →
  insert_at i x l !! j =
  if (j <? i)%nat then l !! j else if (j =? i)%nat then Some x else l !! (j - 1)%nat.
Proof.
  intros Hi. unfold insert_at. destruct (Nat.ltb_spec j i).
  - rewrite lookup_app_l by (rewrite length_take; lia). by apply lookup_take_lt.
  - rewrite lookup_app_r by (rewrite length_take; lia). rewrite length_take.
    replace (i `min` length l)%nat with i by lia.
    destruct (Nat.eqb_spec j i) as [->|]; [by rewrite Nat.sub_diag|].
    destruct (j - i)%nat as [|m] eqn:E; [lia|].
    change ((x :: drop i l) !! S m) with (drop i l !! m). rewrite lookup_drop. f_equal. lia.
Qed.

(** *** The traversal around a child *)

(** A child is cut out of a node's traversal at a position the key routes to. *)
Lemma flatten_child h leaf ks rs cs i c key :
  shaped (S h) (Node leaf ks rs cs) → ordered (flatten (Node leaf ks rs cs)) → D key →
  routes ks i key → cs !! i = Some c →
  ∃ A B, flatten (Node leaf ks rs cs) = A ++ flatten c ++ B ∧ below key A ∧ above key B ∧
    (∀ c', flatten (Node leaf ks rs (<[i := c']> cs)) = A ++ flatten c' ++ B).
Proof.
  intros (Hr & _ & _ & Hc & _) Ho Hk [Hlt Hge] Hi. cbn [flatten] in *.
  assert (Hz : length (zip ks rs) = length ks) by (rewrite length_zip_with; lia).
  destruct (interleave_child i (zip ks rs) (flatten <$> cs) (flatten c)) as (A & B & E & Eu & _ & HA & HB).
  { rewrite length_fmap, Hz. done. }
  { rewrite list_lookup_fmap, Hi. done. }
  rewrite E in Ho. exists A, B. split_and!; [done| | |].
  - destruct HA as [[_ ->]|(A' & e & j & -> & -> & He)].
    { intros x ?%elem_of_nil. done. }
    apply zip_lookup_key in He as [He _]. apply below_last; [|done|eapply Hlt; [|exact He]; lia].
    by apply ordered_app in Ho as (? & _).
  - destruct HB as [->|(B' & e & -> & He)].
    { intros x ?%elem_of_nil. done. }
    apply zip_lookup_key in He as [He _]. destruct (Hge _ He) as [F1 F2].
    apply above_head; try done. apply ordered_app in Ho as (_ & Ho & _).
    by apply ordered_app in Ho as (_ & ? & _).
  - intros c'. by rewrite list_fmap_insert, Eu.
Qed.

Lemma flatten_child_ordered h leaf ks rs cs i c key :
  shaped (S h) (Node leaf ks rs cs) → ordered (flatten (Node leaf ks rs cs)) → D key →
  routes ks i key → cs !! i = Some c → ordered (flatten c).
Proof.
  intros Hs Ho Hk Hr Hi. destruct (flatten_child h leaf ks rs cs i c key Hs Ho Hk Hr Hi) as (A & B & E & _).
  rewrite E in Ho. apply ordered_app in Ho as (_ & Ho & _). by apply ordered_app in Ho as (? & _).
Qed.

(** A recursive call that inserts into the child inserts into the node. *)
Lemma in_child_ok h leaf ks rs cs i c key r f c' :
  shaped (S h) (Node leaf ks rs cs) → ordered (flatten (Node leaf ks rs cs)) → D key →
  routes ks i key → cs !! i = Some c →
  f c = Ok c' → shaped h c' → flatten c' = al_insert key r (flatten c) →
  ∃ n', in_child (Node leaf ks rs cs) i f = Ok n' ∧ shaped (S h) n' ∧
    flatten n' = al_insert key r (flatten (Node leaf ks rs cs)).
Proof.
  intros Hs Ho Hk Hr Hi Hf Hc' Ec.
  destruct (flatten_child h leaf ks rs cs i c key Hs Ho Hk Hr Hi) as (A & B & E & HA & HB & Eu).
  unfold in_child. rewrite Hi. cbn [or_ub mbind res_bind]. rewrite Hf. cbn [mbind res_bind].
  eexists. split; [reflexivity|]. split.
  - destruct Hs as (H1 & H2 & H3 & H4 & H5). cbn. split_and!; try done.
    + by rewrite length_insert.
    + by apply Forall_insert.
  - rewrite Eu, E, Ec. by rewrite al_insert_cut.
Qed.

(** Pushing a row to the list of a key of the node. *)
Lemma push_row_ok h leaf ks rs cs i key r k :
  shaped h (Node leaf ks rs cs) → ordered (flatten (Node leaf ks rs cs)) → D key →
  ks !! i = Some k → key_lt k key = false → key_eq k key = true →
  ∃ n', push_row (Node leaf ks rs cs) i r = Ok n' ∧ shaped h n' ∧
    flatten n' = al_insert key r (flatten (Node leaf ks rs cs)).
Proof.
  intros Hs Ho Hk Hi Hlt Heq. pose proof Hs as (Hr & Hmax & Hc)%shaped_eq.
  destruct (lookup_lt_is_Some_2 rs i) as [rows Hrows].
  { apply lookup_lt_Some in Hi. lia. }
  assert (Hz : length (zip ks rs) = length ks) by (rewrite length_zip_with; lia).
  assert (He : zip ks rs !! i = Some (k, rows)) by (apply lookup_zip_with_Some; eauto).
  destruct (interleave_key i (zip ks rs) (flatten <$> cs) (k, rows)) as (A & B & E & Eu); [|done|].
  { rewrite length_fmap, Hz. destruct h; cbn in Hc; [left; by rewrite (proj2 Hc)|right; lia]. }
  unfold push_row. rewrite Hrows. cbn [or_ub mbind res_bind]. eexists. split; [reflexivity|]. split.
  - apply shaped_eq. by rewrite length_insert.
  - cbn [flatten] in *. rewrite E in Ho |- *.
    rewrite <- (list_insert_id ks i k Hi) at 1. rewrite <- insert_zip_with, Eu.
    apply ordered_app in Ho as (HoA & HoB & Hlt'). pose proof HoB as (Dk & _)%ordered_cons. cbn in Dk.
    assert (k = key) as -> by (by apply (kd_eq k key)).
    rewrite al_insert_below.
    + cbn [al_insert]. rewrite Hlt, Heq. done.
    + intros e Hin. assert (H : e_lt e (key, rows)) by (apply Hlt'; set_solver). done.
Qed.

Lemma shaped_keys h n : shaped h n → (length (n_keys n) ≤ kMaxKeys)%nat.
Proof. destruct n. by intros (_ & ? & _)%shaped_eq. Qed.

Lemma shaped_leaf h leaf ks rs cs : shaped h (Node leaf ks rs cs) → leaf = (h =? 0)%nat.
Proof. destruct h; intros (_ & _ & H); by destruct H as [-> _]. Qed.

(** *** Splitting *)

Lemma split_node_ok h c : shaped h c → length (n_keys c) = kMaxKeys →
  ∃ k rows c1 c2, shaped h c1 ∧ shaped h c2 ∧ (length (n_keys c1) < kMaxKeys)%nat ∧
    (length (n_keys c2) < kMaxKeys)%nat ∧ flatten c = flatten c1 ++ (k, rows) :: flatten c2 ∧
    ∀ leaf ks rs cs i, cs !! i = Some c → (i ≤ length ks)%nat → length rs = length ks →
      split_child (Node leaf ks rs cs) i =
      Ok (Node leaf (insert_at i k ks) (insert_at i rows rs) (insert_at (i + 1) c2 (<[i := c1]> cs))).
Proof.
  destruct c as [fleaf fks frs fcs]. intros Hs Hfull. cbn [n_keys] in Hfull.
  pose proof Hs as (Hr & Hmax & Hc)%shaped_eq. unfold kMaxKeys, kMinDegree in *.
  destruct (lookup_lt_is_Some_2 fks 15) as [k Hk]; [lia|].
  destruct (lookup_lt_is_Some_2 frs 15) as [rows Hrows]; [lia|].
  exists k, rows, (Node fleaf (take 15 fks) (take 15 frs) (if fleaf then fcs else take 16 fcs)),
    (Node fleaf (drop 16 fks) (drop 16 frs) (if fleaf then [] else drop 16 fcs)).
  split_and!.
  - apply shaped_eq. rewrite !length_take. unfold kMaxKeys, kMinDegree. split_and!; [lia|lia|].
    destruct h; cbn in Hc; destruct Hc as [-> Hc]; [done|]. destruct Hc as [Hlen Hf].
    split_and!; [done|rewrite length_take; lia|by apply Forall_take].
  - apply shaped_eq. rewrite !length_drop. unfold kMaxKeys, kMinDegree. split_and!; [lia|lia|].
    destruct h; cbn in Hc; destruct Hc as [-> Hc]; [done|]. destruct Hc as [Hlen Hf].
    split_and!; [done|rewrite length_drop; lia|by apply Forall_drop].
  - cbn [n_keys]. rewrite length_take. lia.
  - cbn [n_keys]. rewrite length_drop. lia.
  - assert (He : zip fks frs !! 15%nat = Some (k, rows)) by (apply lookup_zip_with_Some; eauto).
    cbn [flatten]. rewrite <- zip_with_take, <- zip_with_drop.
    destruct h; cbn in Hc; destruct Hc as [-> Hc].
    + subst fcs. change (flatten <$> []) with (@nil (list entry)). rewrite !interleave_nil.
      symmetry. by apply take_drop_middle.
    + rewrite fmap_take, fmap_drop. apply (interleave_cut 15); [|done].
      rewrite length_fmap, length_zip_with. lia.
  - intros leaf ks rs cs i Hi Hle Hrs. unfold split_child, kMinDegree. rewrite Hi.
    cbn [or_ub mbind res_bind]. change (16 - 1)%nat with 15%nat. change (15 + 1)%nat with 16%nat.
    rewrite Hk, Hrows. cbn [or_ub mbind res_bind].
    assert (negb fleaf && (length fcs <? 16)%nat = false) as ->.
    { destruct h; cbn in Hc; destruct Hc as [-> Hc]; [done|]. cbn [negb andb]. apply Nat.ltb_ge. lia. }
    apply lookup_lt_Some in Hi. rewrite !vec_insert_ok; [done|..]; rewrite ?length_insert; lia.
Qed.

(** After the split of child [i] the node has the same entries. *)
Lemma split_child_ok h leaf ks rs cs i c :
  shaped (S h) (Node leaf ks rs cs) → (length ks < kMaxKeys)%nat → cs !! i = Some c →
  length (n_keys c) = kMaxKeys →
  ∃ k rows c1 c2, let n' := Node leaf (insert_at i k ks) (insert_at i rows rs)
                              (insert_at (i + 1) c2 (<[i := c1]> cs)) in
    split_child (Node leaf ks rs cs) i = Ok n' ∧ shaped (S h) n' ∧
    flatten n' = flatten (Node leaf ks rs cs) ∧ (i ≤ length ks)%nat ∧
    (length (n_keys c1) < kMaxKeys)%nat ∧ (length (n_keys c2) < kMaxKeys)%nat ∧
    shaped h c1 ∧ shaped h c2.
Proof.
  intros Hs Hlt Hi Hfull. pose proof Hs as (Hr & _ & Hleaf & Hc & Hf).
  pose proof (lookup_lt_Some _ _ _ Hi) as Hil.
  assert (Hcs : shaped h c) by (rewrite Forall_lookup in Hf; by eapply Hf).
  destruct (split_node_ok h c Hcs Hfull) as (k & rows & c1 & c2 & H1 & H2 & L1 & L2 & E & Hsp).
  exists k, rows, c1, c2. cbv zeta. split_and!; try done; try lia.
  - apply Hsp; [done|lia|done].
  - apply shaped_eq. rewrite !length_insert_at, length_insert. split_and!; [lia|lia|done|lia|].
    unfold insert_at. apply Forall_app. split; [by apply Forall_take, Forall_insert|].
    constructor; [done|]. by apply Forall_drop, Forall_insert.
  - cbn [flatten]. rewrite zip_insert_at by done.
    destruct (interleave_child i (zip ks rs) (flatten <$> cs) (flatten c)) as (A & B & Ef & _ & Ecut & _).
    { rewrite length_fmap, length_zip_with. lia. }
    { rewrite list_lookup_fmap, Hi. done. }
    rewrite Ef, E. unfold insert_at at 2. rewrite fmap_app, fmap_take. cbn [fmap list_fmap].
    rewrite fmap_drop, list_fmap_insert. specialize (Ecut (k, rows) (flatten c1) (flatten c2)).
    unfold insert_at at 2 in Ecut. rewrite Nat.add_1_r. etrans; [exact Ecut|].
    by rewrite <- app_assoc.
Qed.

(** *** Insertion *)

Lemma is_key_true ks i key : is_key ks i key = true → ∃ k, ks !! i = Some k ∧ key_eq k key = true.
Proof. unfold is_key. destruct (ks !! i) as [k|]; [|done]. eauto. Qed.

Lemma routes_cut (ks : list IndexKey) (rs : list (list Z)) i key :
  ordered (zip ks rs) → D key → routes ks i key →
  below key (take i (zip ks rs)) ∧ above key (drop i (zip ks rs)).
Proof.
  intros Ho Hk [Hlt Hge]. set (es := zip ks rs) in *. split.
  - intros e (j & He)%list_elem_of_lookup. apply lookup_take_Some in He as [He Hj].
    apply zip_lookup_key in He as [He _]. by eapply Hlt.
  - rewrite <- (take_drop i es) in Ho. apply ordered_app in Ho as (_ & Ho & _).
    destruct (drop i es) as [|e B] eqn:Ed.
    { intros x ?%elem_of_nil. done. }
    assert (He : es !! i = Some e) by (rewrite <- (Nat.add_0_r i), <- lookup_drop, Ed; done).
    apply zip_lookup_key in He as [He _]. destruct (Hge _ He). by apply above_head.
Qed.

Lemma leaf_insert_ok ks rs i key r :
  shaped 0 (Node true ks rs []) → ordered (flatten (Node true ks rs [])) → D key →
  routes ks i key →
  flatten (Node true (insert_at i key ks) (insert_at i [r] rs) []) =
  al_insert key r (flatten (Node true ks rs [])).
Proof.
  intros (Hr & _ & _) Ho Hk Hroutes. cbn [flatten fmap list_fmap] in *.
  rewrite !interleave_nil in *. rewrite zip_insert_at by done. unfold insert_at.
  destruct (routes_cut ks rs i key Ho Hk Hroutes) as [HA HB].
  pose proof (al_insert_cut key r (take i (zip ks rs)) [] (drop i (zip ks rs)) HA HB) as Hcut.
  cbn [app] in Hcut. rewrite take_drop in Hcut. by rewrite Hcut.
Qed.

(** After a split the key is routed to the left or to the right of the key that
    moved up. *)
Lemma routes_split_right ks i k key :
  (i ≤ length ks)%nat → routes ks i key → key_lt k key = true → routes (insert_at i k ks) (i + 1) key.
Proof.
  intros Hi [Hlt Hge] Hkk. split; [intros j k' Hj|intros k']; rewrite lookup_insert_at by done;
    repeat match goal with |- context [Nat.ltb ?a ?b] => destruct (Nat.ltb_spec a b)
           | |- context [Nat.eqb ?a ?b] => destruct (Nat.eqb_spec a b) end; try lia.
  - intros Hk'. eapply Hlt; [|done]. lia.
  - congruence.
  - replace (i + 1 - 1)%nat with i by lia. apply Hge.
Qed.

Lemma routes_split_left ks i k key :
  (i ≤ length ks)%nat → routes ks i key → key_lt k key = false → key_eq k key = false →
  routes (insert_at i k ks) i key.
Proof.
  intros Hi [Hlt Hge] Hkk Hke. split; [intros j k' Hj|intros k']; rewrite lookup_insert_at by done;
    repeat match goal with |- context [Nat.ltb ?a ?b] => destruct (Nat.ltb_spec a b)
           | |- context [Nat.eqb ?a ?b] => destruct (Nat.eqb_spec a b) end; try lia.
  - intros Hk'. eapply Hlt; [|done]. lia.
  - intros [= <-]. done.
Qed.

Lemma insert_non_full_ok h : ∀ n key r,
  shaped h n → (length (n_keys n) < kMaxKeys)%nat → ordered (flatten n) → D key →
  ∃ n', insert_non_full (S h) n key r = Ok n' ∧ shaped h n' ∧ flatten n' = al_insert key r (flatten n).
Proof.
  induction h as [|h IH]; intros [leaf ks rs cs] key r Hs Hlen Ho Hk;
    cbn [insert_non_full n_keys] in *; set (i := slot ks key) in *;
    pose proof (slot_le ks key) as Hi; fold i in Hi;
    (destruct (is_key ks i key) eqn:Hkey;
     [destruct (is_key_true _ _ _ Hkey) as (k & Hki & Heq);
      eapply push_row_ok; try done; by apply (slot_at_key ks)|]);
    pose proof (slot_routes ks key Hkey) as Hroutes; fold i in Hroutes.
  - pose proof Hs as (Hr & Hmax & -> & ->). rewrite !vec_insert_ok by lia. cbn [mbind res_bind].
    eexists. split; [reflexivity|]. split; [|by apply leaf_insert_ok].
    cbn. rewrite !length_insert_at. split_and!; [lia| |done|done]. unfold kMaxKeys, kMinDegree in *. lia.
  - pose proof Hs as (Hr & Hmax & -> & Hcs & Hf).
    destruct (lookup_lt_is_Some_2 cs i) as [c Hc]; [lia|].
    assert (Hshc : shaped h c) by (rewrite Forall_lookup in Hf; by eapply Hf).
    rewrite Hc. cbn [or_ub mbind res_bind].
    destruct (Nat.eqb_spec (length (n_keys c)) kMaxKeys) as [Hfull|Hnf].
    + destruct (split_child_ok h false ks rs cs i c Hs Hlen Hc Hfull)
        as (k & rows & c1 & c2 & Esp & Hs' & Efl & _ & L1 & L2 & Hc1 & Hc2). cbv zeta in *.
      rewrite Esp. cbn [mbind res_bind n_keys].
      rewrite (lookup_insert_at i i k ks) by done. rewrite Nat.ltb_irrefl, Nat.eqb_refl.
      cbn [or_ub mbind res_bind]. rewrite <- Efl in Ho |- *.
      pose proof (lookup_lt_Some _ _ _ Hc) as Hcl.
      assert (Hlc : (i + 1 ≤ length (<[i := c1]> cs))%nat) by (rewrite length_insert; lia).
      destruct (key_lt k key) eqn:Hkk; [|destruct (key_eq k key) eqn:Hke].
      * pose proof (routes_split_right ks i k key Hi Hroutes Hkk) as Hrt.
        assert (Hci : insert_at (i + 1) c2 (<[i := c1]> cs) !! (i + 1)%nat = Some c2).
        { rewrite lookup_insert_at by done. by rewrite Nat.ltb_irrefl, Nat.eqb_refl. }
        pose proof (flatten_child_ordered h _ _ _ _ _ _ key Hs' Ho Hk Hrt Hci) as Hoc.
        destruct (IH c2 key r Hc2 L2 Hoc Hk) as (c' & Ec & Hshc' & Efc).
        by eapply in_child_ok.
      * eapply push_row_ok; try done. rewrite lookup_insert_at by done.
        by rewrite Nat.ltb_irrefl, Nat.eqb_refl.
      * pose proof (routes_split_left ks i k key Hi Hroutes Hkk Hke) as Hrt.
        assert (Hci : insert_at (i + 1) c2 (<[i := c1]> cs) !! i = Some c1).
        { rewrite lookup_insert_at by done. rewrite (proj2 (Nat.ltb_lt _ _)) by lia.
          by apply list_lookup_insert_eq. }
        pose proof (flatten_child_ordered h _ _ _ _ _ _ key Hs' Ho Hk Hrt Hci) as Hoc.
        destruct (IH c1 key r Hc1 L1 Hoc Hk) as (c' & Ec & Hshc' & Efc).
        by eapply in_child_ok.
    + pose proof (flatten_child_ordered h _ _ _ _ _ _ key Hs Ho Hk Hroutes Hc) as Hoc.
      pose proof (shaped_keys h c Hshc).
      destruct (IH c key r Hshc ltac:(lia) Hoc Hk) as (c' & Ec & Hshc' & Efc).
      by eapply in_child_ok.
Qed.

(** The tree represents the association list [l]. *)
Definition represents (t : index) (l : list entry) : Prop :=
  match t with
  | None => l = []
  | Some n => ∃ h, shaped h n ∧ flatten n = l
  end.

Lemma insert_ok t l key r :
  represents t l → ordered l → D key → key_has_null key = false → key_empty key = false →
  ∃ t', insert t key r = Ok t' ∧ represents t' (al_insert key r l).
Proof.
  intros Ht Ho Hk Hn He. unfold insert. rewrite Hn, He. cbn [orb].
  assert (∃ h, shaped h (ensure_root t) ∧ flatten (ensure_root t) = l) as (h & Hs & Hf).
  { destruct t as [n|]; cbn in Ht; [done|]. exists 0%nat. cbn. split_and!; try done.
    unfold kMaxKeys, kMinDegree. lia. }
  set (root := ensure_root t) in *. clearbody root. pose proof (shaped_keys h root Hs) as Hmax.
  destruct (Nat.eqb_spec (length (n_keys root)) kMaxKeys) as [Hfull|Hnf].
  - destruct (split_child_ok h false [] [] [root] 0 root) as
      (k & rows & c1 & c2 & Esp & Hs' & Efl & _); try done.
    { cbn. split_and!; try done; [unfold kMaxKeys, kMinDegree; lia|]. by repeat constructor. }
    { cbn. unfold kMaxKeys, kMinDegree. lia. }
    cbv zeta in *. rewrite Esp. cbn [mbind res_bind]. rewrite (shaped_height (S h) _ Hs').
    assert (Hfl : flatten (Node false [] [] [root]) = l) by (rewrite <- Hf; reflexivity).
    destruct (insert_non_full_ok (S h) _ key r Hs') as (n' & -> & Hs2 & Ef2); [| |done|].
    + cbn [n_keys]. rewrite length_insert_at. cbn. unfold kMaxKeys, kMinDegree. lia.
    + by rewrite Efl, Hfl.
    + eexists. split; [reflexivity|]. exists (S h). by rewrite Ef2, Efl, Hfl.
  - rewrite (shaped_height h _ Hs).
    destruct (insert_non_full_ok h root key r Hs) as (n' & -> & Hs2 & Ef2); [lia|by rewrite Hf|done|].
    eexists. split; [reflexivity|]. exists h. by rewrite Ef2, Hf.
Qed.

(** *** Lookup *)

Lemma collect_equal_ok h : ∀ n key, shaped h n → ordered (flatten n) → D key →
  collect_equal (S h) n key = Ok (al_find key (flatten n)).
Proof.
  induction h as [|h IH]; intros [leaf ks rs cs] key Hs Ho Hk; cbn [collect_equal];
    set (i := slot ks key) in *;
    (destruct (is_key ks i key) eqn:Hkey;
     [destruct (is_key_true _ _ _ Hkey) as (k & Hki & Heq)
     |pose proof (slot_routes ks key Hkey) as Hroutes; fold i in Hroutes]).
  1,3: pose proof Hs as (Hr & _ & Hc)%shaped_eq;
    destruct (lookup_lt_is_Some_2 rs i) as [rows Hrows];
    [apply lookup_lt_Some in Hki; lia|]; rewrite Hrows; cbn [or_ub]; f_equal;
    assert (He : zip ks rs !! i = Some (k, rows)) by (apply lookup_zip_with_Some; eauto);
    destruct (interleave_key i (zip ks rs) (flatten <$> cs) (k, rows)) as (A & B & E & _);
    [rewrite length_fmap, length_zip_with; cbn in Hc;
     first [left; by rewrite (proj2 Hc)|right; lia]|done|];
    cbn [flatten] in *; rewrite E in Ho |- *; by apply al_find_here.
  - pose proof Hs as (Hr & _ & -> & ->). f_equal. cbn [flatten fmap list_fmap] in *.
    rewrite interleave_nil in *.
    destruct (routes_cut ks rs i key Ho Hk Hroutes) as [HA HB].
    rewrite <- (take_drop i (zip ks rs)) in Ho |- *.
    pose proof (al_find_cut key (take i (zip ks rs)) [] (drop i (zip ks rs)) HA HB Ho Hk) as E.
    symmetry. exact E.
  - pose proof Hs as (Hr & _ & -> & Hcs & Hf). pose proof (slot_le ks key) as Hi. fold i in Hi.
    destruct (lookup_lt_is_Some_2 cs i) as [c Hc]; [lia|]. rewrite Hc. cbn [or_ub mbind res_bind].
    destruct (flatten_child h false ks rs cs i c key Hs Ho Hk Hroutes Hc) as (A & B & E & HA & HB & _).
    rewrite E in Ho |- *. rewrite al_find_cut by done. apply IH; [|by apply ordered_app in Ho as (_ & (? & _)%ordered_app & _)|done].
    rewrite Forall_lookup in Hf. by eapply Hf.
Qed.

(** *** Range and prefix scans *)

Lemma al_collect_app test l1 l2 : al_collect test (l1 ++ l2) = al_collect test l1 ++ al_collect test l2.
Proof. unfold al_collect. by rewrite fmap_app, join_app. Qed.

Lemma al_collect_cons test e l :
  al_collect test (e :: l) = (if test e.1 then e.2 else []) ++ al_collect test l.
Proof. done. Qed.

Lemma al_collect_none test l : (∀ e, e ∈ l → test e.1 = false) → al_collect test l = [].
Proof.
  induction l as [|e l IH]; intros H; [done|]. rewrite al_collect_cons, H by set_solver.
  apply IH. intros x Hx. apply H. set_solver.
Qed.

Section scans.
Context (take_key stop : IndexKey → bool).
(** Beyond a key that stops the scan no key is taken. *)
Hypothesis stop_ok : ∀ k k', D k → D k' → stop k = true → key_lt k k' = true → take_key k' = false.

Lemma after_stop k rows l : ordered ((k, rows) :: l) → stop k = true → al_collect take_key l = [].
Proof.
  intros (Dk & [_ Hl] & Hlt)%ordered_cons Hs. apply al_collect_none. intros e He.
  rewrite Forall_forall in Hl. apply (stop_ok k); [done|by apply Hl|done|]. by apply (Hlt e).
Qed.

Lemma collect_loop_leaf rec i : ∀ ks rs, length rs = length ks → ordered (zip ks rs) →
  collect_loop rec take_key stop true [] i ks rs = Ok (al_collect take_key (zip ks rs)).
Proof.
  intros ks. revert i. induction ks as [|k ks IH]; intros i [|rows rs] Hl Ho; try done.
  cbn [collect_loop zip zip_with mbind res_bind mret res_ret head tail or_ub] in *.
  pose proof Ho as (_ & Ho' & _)%ordered_cons. rewrite al_collect_cons. cbn [fst snd].
  destruct (take_key k).
  - by rewrite IH by (done || (cbn in Hl; lia)).
  - destruct (stop k) eqn:Hs.
    + by rewrite (after_stop k rows _ Ho Hs).
    + by rewrite IH by (done || (cbn in Hl; lia)).
Qed.

Lemma collect_loop_inner (rec : node → res (list Z)) cs : ∀ ks rs i cs',
  drop i cs = cs' → length cs' = S (length ks) → length rs = length ks →
  (∀ c, c ∈ cs' → ordered (flatten c) → rec c = Ok (al_collect take_key (flatten c))) →
  ordered (interleave (zip ks rs) (flatten <$> cs')) →
  collect_loop rec take_key stop false cs i ks rs =
  Ok (al_collect take_key (interleave (zip ks rs) (flatten <$> cs'))).
Proof.
  intros ks. induction ks as [|k ks IH]; intros rs i cs' Hd Hlen Hrs Hrec Ho.
  - destruct cs' as [|c [|? ?]]; try done. destruct rs; [|done]. cbn in Ho |- *.
    assert (last cs = Some c) as ->.
    { rewrite <- (take_drop i cs), Hd, last_app. done. }
    cbn. apply Hrec; [set_solver|done].
  - destruct cs' as [|c cs']; [done|]. destruct rs as [|rows rs]; [done|].
    assert (Hci : cs !! i = Some c) by (rewrite <- (Nat.add_0_r i), <- lookup_drop, Hd; done).
    assert (Hd' : drop (S i) cs = cs').
    { replace (S i) with (i + 1)%nat by lia. by rewrite <- drop_drop, Hd. }
    cbn [zip zip_with fmap list_fmap interleave] in Ho |- *. cbn [collect_loop].
    apply ordered_app in Ho as (Hoc & Ho & _). pose proof Ho as (_ & Ho' & _)%ordered_cons.
    rewrite Hci. cbn [or_ub mbind res_bind]. rewrite Hrec by (set_solver || done).
    cbn [mbind res_bind head tail or_ub mret res_ret].
    rewrite al_collect_app, al_collect_cons. cbn [fst snd].
    assert (Hrest : collect_loop rec take_key stop false cs (S i) ks rs =
      Ok (al_collect take_key (interleave (zip ks rs) (flatten <$> cs')))).
    { apply IH; try done; cbn in *; [lia|lia|]. intros c' Hc'. apply Hrec. set_solver. }
    destruct (take_key k).
    + by rewrite Hrest.
    + destruct (stop k) eqn:Hs.
      * by rewrite (after_stop k rows _ Ho Hs), app_nil_r.
      * by rewrite Hrest.
Qed.

Lemma collect_keys_ok h : ∀ n, shaped h n → ordered (flatten n) →
  collect_keys take_key stop (S h) n = Ok (al_collect take_key (flatten n)).
Proof.
  induction h as [|h IH]; intros [leaf ks rs cs] Hs Ho.
  - pose proof Hs as (Hr & _ & -> & ->). cbn [collect_keys flatten fmap list_fmap] in *.
    rewrite interleave_nil in *. by apply collect_loop_leaf.
  - pose proof Hs as (Hr & _ & -> & Hcs & Hf).
    change (collect_loop (collect_keys take_key stop (S h)) take_key stop false cs 0 ks rs =
            Ok (al_collect take_key (interleave (zip ks rs) (flatten <$> cs)))).
    apply collect_loop_inner; try done. intros c Hc Hoc. apply IH; [|done].
    rewrite Forall_forall in Hf. by apply Hf.
Qed.
End scans.

Lemma find_equal_ok t l key : represents t l → ordered l → D key →
  key_has_null key = false → key_empty key = false → find_equal t key = Ok (al_find key l).
Proof.
  intros Ht Ho Hk Hn He. destruct t as [n|]; cbn in Ht; [|by subst]. destruct Ht as (h & Hs & <-).
  unfold find_equal. rewrite Hn, He. cbn [orb]. rewrite (shaped_height h n Hs).
  by apply collect_equal_ok.
Qed.

Lemma find_range_ok t l lower li upper ui : represents t l → ordered l →
  (∀ u, upper = Some u → D u) →
  find_range t lower li upper ui = Ok (al_collect (in_range lower li upper ui) l).
Proof.
  intros Ht Ho Hu. destruct t as [n|]; cbn in Ht; [|by subst]. destruct Ht as (h & Hs & <-).
  unfold find_range. rewrite (shaped_height h n Hs). apply collect_keys_ok; [|done|done].
  intros k k' Dk Dk' Hb Hlt. unfold in_range, beyond in *. destruct upper as [u|]; [|done].
  specialize (Hu u eq_refl). pose proof (kd_trans u k k' Hu Dk Dk' Hb Hlt) as Huk.
  unfold passes_upper. rewrite Huk, (kd_asym D u k' Hu Dk' Huk). destruct ui; by rewrite andb_false_r.
Qed.

(** *** Removal *)

(** The keys of the internal nodes. *)
Fixpoint inner_keys (n : node) : list IndexKey :=
  match n with Node leaf ks _ cs => if leaf then [] else ks ++ mjoin (inner_keys <$> cs) end.

Definition other_rows (r : Z) (rows : list Z) : list Z := filter (λ r', r' ≠ r) rows.

Definition al_drop (r : Z) (e : entry) : list entry :=
  match other_rows r e.2 with [] => [] | rows => [(e.1, rows)] end.

Fixpoint al_remove (key : IndexKey) (r : Z) (l : list entry) : list entry :=
  match l with
  | [] => []
  | e :: l => if key_eq e.1 key then al_drop r e ++ l else e :: al_remove key r l
  end.

Lemma al_remove_above key r l : above key l → al_remove key r l = l.
Proof.
  induction l as [|e l IH]; intros H; [done|]. cbn. destruct (H e) as [_ ->]; [set_solver|].
  rewrite IH; [done|]. intros x Hx. apply H. set_solver.
Qed.

Lemma al_remove_below key r A M : ordered A → D key → below key A →
  al_remove key r (A ++ M) = A ++ al_remove key r M.
Proof.
  induction A as [|e A IH]; intros Ho Hk HA; [done|]. apply ordered_cons in Ho as (De & Ho & _). cbn.
  assert (key_lt e.1 key = true) by (apply HA; set_solver).
  rewrite (kd_neq D e.1 key De Hk) by (by apply (kd_lt_ne D)).
  rewrite IH; [done|done|done|]. intros x Hx. apply HA. set_solver.
Qed.

Lemma al_remove_cut key r A M B : ordered (A ++ M ++ B) → D key → below key A → above key B →
  al_remove key r (A ++ M ++ B) = A ++ al_remove key r M ++ B.
Proof.
  intros Ho Hk HA HB. rewrite al_remove_below; [|by apply ordered_app in Ho as (? & _)|done|done].
  f_equal. induction M as [|e M IH]; cbn; [by apply al_remove_above|].
  destruct (key_eq e.1 key); [by rewrite app_assoc|]. cbn [app]. f_equal. apply IH.
  apply ordered_app in Ho as (HoA & Ho & Hlt). apply ordered_app. split_and!; [done| |].
  - by apply ordered_cons in Ho as (_ & ? & _).
  - intros a b Ha Hb. apply Hlt; [done|]. cbn. set_solver.
Qed.

Lemma al_remove_here key r A k rows B : ordered (A ++ (k, rows) :: B) → D key → key_eq k key = true →
  al_remove key r (A ++ (k, rows) :: B) = A ++ al_drop r (k, rows) ++ B.
Proof.
  intros Ho Hk Heq. pose proof Ho as (HoA & HoB & Hlt)%ordered_app.
  pose proof HoB as (Dk & _ & _)%ordered_cons. cbn in Dk.
  assert (k = key) as -> by (by apply (kd_eq k key)).
  rewrite al_remove_below; [cbn [al_remove fst]; by rewrite Heq|done|done|].
  intros e He. assert (H : e_lt e (key, rows)) by (apply Hlt; set_solver). done.
Qed.

Lemma zip_erase (ks : list IndexKey) (rs : list (list Z)) i k rows :
  length rs = length ks → zip ks rs !! i = Some (k, rows) →
  zip (take i ks ++ drop (S i) ks) (take i rs ++ drop (S i) rs) =
  take i (zip ks rs) ++ drop (S i) (zip ks rs).
Proof.
  intros Hl _. rewrite zip_with_app by (rewrite !length_take; lia).
  by rewrite zip_with_take, zip_with_drop.
Qed.

(** The rows of a key of the node go, and others remain. *)
Lemma remove_rows_ok h leaf ks rs cs i key r k rows :
  shaped h (Node leaf ks rs cs) → ordered (flatten (Node leaf ks rs cs)) → D key →
  ks !! i = Some k → key_eq k key = true → rs !! i = Some rows → other_rows r rows ≠ [] →
  shaped h (Node leaf ks (<[i := other_rows r rows]> rs) cs) ∧
  flatten (Node leaf ks (<[i := other_rows r rows]> rs) cs) =
  al_remove key r (flatten (Node leaf ks rs cs)).
Proof.
  intros Hs Ho Hk Hi Heq Hrows Hne. pose proof Hs as (Hr & Hmax & Hc)%shaped_eq. split.
  { apply shaped_eq. by rewrite length_insert. }
  assert (He : zip ks rs !! i = Some (k, rows)) by (apply lookup_zip_with_Some; eauto).
  destruct (interleave_key i (zip ks rs) (flatten <$> cs) (k, rows)) as (A & B & E & Eu); [|done|].
  { rewrite length_fmap, length_zip_with. destruct h; cbn in Hc; [left; by rewrite (proj2 Hc)|right; lia]. }
  cbn [flatten] in *. rewrite E in Ho |- *. rewrite al_remove_here by done.
  rewrite <- (list_insert_id ks i k Hi) at 1. rewrite <- insert_zip_with, Eu.
  unfold al_drop. cbn [fst snd]. by destruct (other_rows r rows).
Qed.

(** A key of a leaf goes with its last row. *)
Lemma remove_leaf_key_ok ks rs i key r k rows :
  shaped 0 (Node true ks rs []) → ordered (flatten (Node true ks rs [])) → D key →
  ks !! i = Some k → key_eq k key = true → rs !! i = Some rows → other_rows r rows = [] →
  let n' := Node true (take i ks ++ drop (S i) ks) (take i rs ++ drop (S i) rs) [] in
  shaped 0 n' ∧ flatten n' = al_remove key r (flatten (Node true ks rs [])).
Proof.
  intros Hs Ho Hk Hi Heq Hrows Hnil n'. pose proof Hs as (Hr & Hmax & _). split.
  { apply shaped_eq. rewrite !length_app, !length_take, !length_drop. split_and!; try done; lia. }
  assert (He : zip ks rs !! i = Some (k, rows)) by (apply lookup_zip_with_Some; eauto).
  unfold n'. cbn [flatten fmap list_fmap] in *. rewrite !interleave_nil in *.
  rewrite (zip_erase ks rs i k rows Hr He).
  rewrite <- (take_drop_middle _ _ _ He) in Ho |- * at 3.
  rewrite al_remove_here by done. unfold al_drop. cbn [snd]. by rewrite Hnil.
Qed.

Lemma vec_erase_ok {A} i (l : list A) : (i < length l)%nat →
  vec_erase i l = Ok (take i l ++ drop (S i) l).
Proof. intros H. unfold vec_erase. by rewrite (proj2 (Nat.ltb_lt _ _)). Qed.

Lemma erase_insert {A} i (x : A) (l : list A) :
  take i (<[i := x]> l) ++ drop (S i) (<[i := x]> l) = take i l ++ drop (S i) l.
Proof. rewrite take_insert_ge, drop_insert_lt by lia. done. Qed.

Lemma remove_from_node_S fuel leaf ks rs cs key r :
  remove_from_node (S fuel) (Node leaf ks rs cs) key r =
  if is_key ks (slot ks key) key then
    rows ← or_ub (rs !! slot ks key);
    let rows := filter (λ r', r' ≠ r) rows in
    if negb (length rows =? 0)%nat then mret (Node leaf ks (<[slot ks key := rows]> rs) cs, true)
    else
      ks' ← vec_erase (slot ks key) ks;
      rs' ← vec_erase (slot ks key) (<[slot ks key := rows]> rs);
      mret (Node leaf ks' rs' cs, true)
  else if leaf then mret (Node leaf ks rs cs, false)
  else
    c ← or_ub (cs !! slot ks key);
    '(c', b) ← remove_from_node fuel c key r;
    mret (Node leaf ks rs (<[slot ks key := c']> cs), b).
Proof. reflexivity. Qed.

Lemma remove_from_node_ok h : ∀ n key r,
  shaped h n → ordered (flatten n) → D key →
  (key ∈ inner_keys n → other_rows r (al_find key (flatten n)) ≠ []) →
  ∃ n' b, remove_from_node (S h) n key r = Ok (n', b) ∧ shaped h n' ∧
    flatten n' = al_remove key r (flatten n).
Proof.
  induction h as [|h IH]; intros [leaf ks rs cs] key r Hs Ho Hk Hin; rewrite remove_from_node_S;
    set (i := slot ks key) in *;
    (destruct (is_key ks i key) eqn:Hkey;
     [destruct (is_key_true _ _ _ Hkey) as (k & Hki & Heq);
      pose proof (lookup_lt_Some _ _ _ Hki) as Hil;
      pose proof Hs as (Hr & _ & Hc)%shaped_eq;
      destruct (lookup_lt_is_Some_2 rs i) as [rows Hrows]; [lia|];
      rewrite Hrows; cbn [or_ub mbind res_bind]; fold (other_rows r rows)
     |pose proof (slot_routes ks key Hkey) as Hroutes; fold i in Hroutes]).
  - destruct Hc as [-> ->]. destruct (other_rows r rows) as [|r0 rest] eqn:Hrest; cbn [length Nat.eqb negb].
    + rewrite !vec_erase_ok by (rewrite ?length_insert; lia). cbn [mbind res_bind].
      rewrite erase_insert. eexists _, _. split; [reflexivity|]. by eapply remove_leaf_key_ok.
    + eexists _, _. split; [reflexivity|]. rewrite <- Hrest. eapply remove_rows_ok; try done.
      by rewrite Hrest.
  - pose proof Hs as (Hr & _ & -> & ->). eexists _, _. split; [reflexivity|]. split; [done|].
    cbn [flatten fmap list_fmap] in *. rewrite interleave_nil in *.
    destruct (routes_cut ks rs i key Ho Hk Hroutes) as [HA HB].
    pose proof (al_remove_cut key r (take i (zip ks rs)) [] (drop i (zip ks rs))) as E.
    cbn [app al_remove] in E. rewrite take_drop in E. by rewrite E.
  - destruct Hc as (-> & Hcs & Hf).
    assert (Hne : other_rows r rows ≠ []).
    { assert (k = key) as ->.
      { apply (kd_eq k key); [|done|done]. destruct Ho as [_ Ho]. rewrite Forall_forall in Ho.
        assert (He : zip ks rs !! i = Some (k, rows)) by (apply lookup_zip_with_Some; eauto).
        destruct (interleave_key i (zip ks rs) (flatten <$> cs) (k, rows)) as (A & B & E & _); [|done|].
        { right. rewrite length_fmap, length_zip_with. lia. }
        apply (Ho (k, rows)). cbn [flatten]. rewrite E. set_solver. }
      assert (He : zip ks rs !! i = Some (key, rows)) by (apply lookup_zip_with_Some; eauto).
      destruct (interleave_key i (zip ks rs) (flatten <$> cs) (key, rows)) as (A & B & E & _); [|done|].
      { right. rewrite length_fmap, length_zip_with. lia. }
      cbn [flatten] in *. rewrite E in Ho. rewrite E in Hin. rewrite <- (al_find_here key key rows A B Ho Hk Heq) in Hin.
      apply Hin. cbn [inner_keys]. apply elem_of_app. left. by eapply list_elem_of_lookup_2. }
    destruct (other_rows r rows) as [|r0 rest] eqn:Hrest; [done|]. cbn [length Nat.eqb negb].
    eexists _, _. split; [reflexivity|]. rewrite <- Hrest. eapply remove_rows_ok; try done. by rewrite Hrest.
  - pose proof Hs as (Hr & Hmax & -> & Hcs & Hf). pose proof (slot_le ks key) as Hi. fold i in Hi.
    destruct (lookup_lt_is_Some_2 cs i) as [c Hc]; [lia|]. rewrite Hc. cbn [or_ub mbind res_bind].
    assert (Hshc : shaped h c) by (rewrite Forall_lookup in Hf; by eapply Hf).
    destruct (flatten_child h false ks rs cs i c key Hs Ho Hk Hroutes Hc) as (A & B & E & HA & HB & Eu).
    pose proof (flatten_child_ordered h _ _ _ _ _ _ key Hs Ho Hk Hroutes Hc) as Hoc.
    destruct (IH c key r Hshc Hoc Hk) as (c' & b & Ec & Hshc' & Efc).
    { intros Hkc. rewrite E in Ho, Hin. rewrite al_find_cut in Hin by done. apply Hin.
      cbn [inner_keys]. apply elem_of_app. right. apply list_elem_of_join. exists (inner_keys c).
      split; [done|]. apply list_elem_of_fmap. exists c. split; [done|]. by eapply list_elem_of_lookup_2. }
    rewrite Ec. cbn [mbind res_bind]. eexists _, _. split; [reflexivity|]. split.
    + apply shaped_eq. rewrite length_insert. split_and!; try done. by apply Forall_insert.
    + rewrite Eu, Efc. rewrite E in Ho |- *. by rewrite al_remove_cut.
Qed.

Lemma shrink_root_ok h n : shaped h n → represents (shrink_root n) (flatten n).
Proof.
  intros Hs. destruct n as [leaf ks rs cs]. pose proof Hs as (Hr & Hmax & Hc)%shaped_eq.
  assert (Hself : represents (Some (Node leaf ks rs cs)) (flatten (Node leaf ks rs cs))).
  { exists h. done. }
  destruct h as [|h].
  - destruct Hc as [-> ->]. destruct ks as [|k ks]; [|exact Hself]. by destruct rs.
  - destruct Hc as (-> & Hlen & Hf). destruct ks as [|k ks]; [|exact Hself].
    destruct rs; [|done]. destruct cs as [|c [|? ?]]; try done.
    apply Forall_cons_iff in Hf as [Hc _].
    change (flatten (Node false [] [] [c])) with (flatten c). unfold shrink_root.
    destruct c as [leaf' ks' rs' cs']. pose proof Hc as (Hr' & _ & Hc')%shaped_eq.
    destruct leaf'; [destruct ks' as [|k' ks']|].
    + destruct h; [destruct Hc' as [_ ->]|destruct Hc' as [? _]; done].
      by destruct rs'.
    + exists h. done.
    + exists h. done.
Qed.

Lemma remove_ok t l key r :
  represents t l → ordered l → D key → key_has_null key = false → key_empty key = false →
  (∀ n, t = Some n → key ∈ inner_keys n → other_rows r (al_find key l) ≠ []) →
  ∃ t', remove t key r = Ok t' ∧ represents t' (al_remove key r l).
Proof.
  intros Ht Ho Hk Hn He Hin. destruct t as [n|]; cbn in Ht; [|subst l; by exists None].
  destruct Ht as (h & Hs & <-). unfold remove. rewrite Hn, He. cbn [orb]. rewrite (shaped_height h n Hs).
  destruct (remove_from_node_ok h n key r Hs Ho Hk) as (n' & b & -> & Hs' & Ef); [by apply Hin|].
  cbn [mbind res_bind]. eexists. split; [reflexivity|]. rewrite <- Ef. by eapply shrink_root_ok.
Qed.

Lemma al_remove_elem key r l e : e ∈ al_remove key r l → ∃ e', e' ∈ l ∧ e'.1 = e.1.
Proof.
  induction l as [|x l IH]; cbn; [by intros ?%elem_of_nil|].
  destruct (key_eq x.1 key).
  - unfold al_drop. destruct (other_rows r x.2); cbn.
    + intros He. exists e. set_solver.
    + intros [->|He]%elem_of_cons; [exists x|exists e]; set_solver.
  - intros [->|He]%elem_of_cons; [exists x; set_solver|].
    destruct (IH He) as (e' & ? & ?). exists e'. set_solver.
Qed.

Lemma al_remove_ordered key r l : ordered l → ordered (al_remove key r l).
Proof.
  induction l as [|x l IH]; [done|]. intros (Dx & Hl & Hlt)%ordered_cons. cbn.
  destruct (key_eq x.1 key).
  - unfold al_drop. destruct (other_rows r x.2); [done|]. by apply ordered_cons.
  - apply ordered_cons. split_and!; [done|by apply IH|]. intros b Hb.
    apply al_remove_elem in Hb as (e' & He' & Ee). specialize (Hlt e' He'). red in Hlt |- *.
    by rewrite <- Ee.
Qed.

Lemma al_find_absent k l : ordered l → D k → (∀ e, e ∈ l → key_lt k e.1 = true) → al_find k l = [].
Proof.
  intros Ho Hk. induction l as [|[k0 rs] l IH]; intros H; [done|].
  apply ordered_cons in Ho as (D0 & Ho & _). cbn [al_find]. cbn [fst] in D0.
  assert (Hlt : key_lt k k0 = true) by (apply (H (k0, rs)); set_solver).
  rewrite (kd_neq D k0 k D0 Hk) by (symmetry; by apply (kd_lt_ne D)).
  apply IH; [done|]. intros e He. apply H. set_solver.
Qed.

Lemma al_find_remove k key r l : ordered l → D k → D key →
  al_find k (al_remove key r l) = if key_eq key k then other_rows r (al_find k l) else al_find k l.
Proof.
  intros Ho Hk Hkey. induction l as [|[k0 rs] l IH]; [by destruct (key_eq key k)|].
  pose proof Ho as (D0 & Hl & Hlt)%ordered_cons. cbn [fst] in D0. specialize (IH Hl).
  cbn [al_remove al_find fst]. destruct (key_eq k0 key) eqn:E1.
  - assert (k0 = key) as <- by (by apply (kd_eq k0 key)). unfold al_drop. cbn [fst snd].
    destruct (key_eq k0 k) eqn:E2.
    + assert (k0 = k) as <- by (by apply (kd_eq k0 k)).
      destruct (other_rows r rs) eqn:Hr; cbn [app al_find]; [|by rewrite E2].
      apply al_find_absent; [done|done|]. intros e He. by apply (Hlt e).
    + destruct (other_rows r rs); cbn [app al_find]; [done|]. by rewrite E2.
  - cbn [al_find]. rewrite IH. destruct (key_eq k0 k) eqn:E2; [|done].
    assert (k0 = k) as <- by (by apply (kd_eq k0 k)).
    rewrite (kd_neq D key k0); [done|done|done|]. intros ->. by rewrite (kd_eq_refl D) in E1.
Qed.

(** *** What the association list holds after a sequence of insertions *)

Lemma al_find_insert k key r l : ordered l → D k → D key →
  al_find k (al_insert key r l) = al_find k l ++ (if key_eq key k then [r] else []).
Proof.
  intros Ho Hk Hkey. induction l as [|[k0 rs] l IH]; [done|].
  pose proof Ho as (Dk0 & Hl & Hlt)%ordered_cons. cbn [fst] in Dk0. specialize (IH Hl).
  cbn [al_insert]. destruct (key_lt k0 key) eqn:E1; [|destruct (key_eq k0 key) eqn:E2].
  - cbn [al_find]. rewrite IH. destruct (key_eq k0 k) eqn:E3; [|done].
    assert (k0 = k) as <- by (by apply (kd_eq k0 k)).
    rewrite (kd_neq D key k0), app_nil_r; [done|done|done|]. symmetry. by apply (kd_lt_ne D).
  - assert (k0 = key) as <- by (by apply (kd_eq k0 key)). cbn [al_find].
    destruct (key_eq k0 k); [done|]. by rewrite app_nil_r.
  - cbn [al_find]. destruct (key_eq key k) eqn:E3; [|by rewrite app_nil_r].
    assert (key = k) as <- by (by apply (kd_eq key k)).
    assert (Habs : al_find key ((k0, rs) :: l) = []).
    { pose proof (al_find_cut key [] [] ((k0, rs) :: l)) as E. cbn [app] in E. rewrite E; try done.
      - intros e ?%elem_of_nil. done.
      - by apply above_head. }
    cbn [al_find] in Habs. by rewrite Habs.
Qed.

Lemma al_collect_insert test key r l : ordered l → D key →
  al_collect test (al_insert key r l) ≡ₚ (if test key then [r] else []) ++ al_collect test l.
Proof.
  intros Ho Hkey. induction l as [|[k0 rs] l IH]; [done|].
  pose proof Ho as (Dk0 & Hl & _)%ordered_cons. cbn [fst] in Dk0.
  cbn [al_insert]. destruct (key_lt k0 key) eqn:E1; [|destruct (key_eq k0 key) eqn:E2].
  - rewrite !al_collect_cons, (IH Hl). cbn [fst snd]. rewrite !app_assoc. f_equiv. apply Permutation_app_comm.
  - assert (k0 = key) as -> by (by apply (kd_eq k0 key)). rewrite !al_collect_cons. cbn [fst snd].
    destruct (test key); [|done]. rewrite app_assoc. f_equiv. apply Permutation_app_comm.
  - by rewrite al_collect_cons.
Qed.
End correct.

(** *** Histories of insertions *)

Definition al_build (kvs : list (IndexKey * Z)) : list entry :=
  foldl (λ l kv, al_insert kv.1 kv.2 l) [] kvs.

Definition build (kvs : list (IndexKey * Z)) : res index :=
  res_fold (λ t kv, insert t kv.1 kv.2) None kvs.

(** The rows inserted under the keys that pass a test, in insertion order. *)
Definition rows_where (test : IndexKey → bool) (kvs : list (IndexKey * Z)) : list Z :=
  omap (λ kv : IndexKey * Z, if test kv.1 then Some kv.2 else None) kvs.

Lemma rows_where_app test l1 l2 : rows_where test (l1 ++ l2) = rows_where test l1 ++ rows_where test l2.
Proof. apply omap_app. Qed.

(** A key a table indexes: one value of the right kind per column, at least one. *)
Definition index_key (ks : list kind) (key : IndexKey) : Prop := typed_key ks key ∧ key ≠ [].

Lemma typed_no_null ks : ∀ key, typed_key ks key → key_has_null key = false.
Proof.
  induction ks as [|k ks IH]; intros [|x key] H; try done. destruct H as [Hx H].
  change (is_null x || key_has_null key = false). rewrite (IH key H), orb_false_r. by destruct k, x.
Qed.

Lemma index_key_empty ks key : index_key ks key → key_empty key = false.
Proof. intros [_ Hne]. by destruct key. Qed.

Section build.
Context (ks : list kind).
Let D := typed_key ks.

Lemma build_ok kvs : Forall (λ kv, index_key ks kv.1) kvs →
  ∃ t, build kvs = Ok t ∧ represents t (al_build kvs) ∧ ordered D (al_build kvs).
Proof.
  induction kvs as [|[key r] kvs IH] using rev_ind; intros Hkvs.
  { exists None. split_and!; [done|done|]. split; constructor. }
  apply Forall_app in Hkvs as [Hkvs Hkey%Forall_cons_iff]. destruct Hkey as [Hkey _]. cbn in Hkey.
  destruct (IH Hkvs) as (t & Eb & Ht & Ho).
  destruct (insert_ok D t (al_build kvs) key r) as (t' & Ei & Ht'); try done.
  { apply Hkey. }
  { eapply typed_no_null, Hkey. }
  { by eapply index_key_empty. }
  exists t'. split_and!.
  - unfold build in *.
    assert (Happ : ∀ l acc l2, res_fold (λ t kv, insert t kv.1 kv.2) acc (l ++ l2) =
      res_fold (λ t kv, insert t kv.1 kv.2) acc l ≫= λ acc, res_fold (λ t (kv : IndexKey * Z), insert t kv.1 kv.2) acc l2).
    { induction l as [|x l IHl]; intros acc l2; [done|]. cbn. destruct (insert acc x.1 x.2); [|done|done].
      apply IHl. }
    rewrite Happ, Eb. cbn. by rewrite Ei.
  - unfold al_build. by rewrite foldl_app.
  - unfold al_build. rewrite foldl_app. cbn. apply al_insert_ordered; [apply _|done|apply Hkey].
Qed.

Lemma al_build_find kvs key : Forall (λ kv, index_key ks kv.1) kvs → D key →
  al_find key (al_build kvs) = rows_where (λ k, key_eq k key) kvs.
Proof.
  intros Hkvs Hkey. induction kvs as [|[k r] kvs IH] using rev_ind; [done|].
  apply Forall_app in Hkvs as [Hkvs Hk%Forall_cons_iff]. destruct Hk as [Hk _]. cbn in Hk.
  destruct (build_ok kvs Hkvs) as (_ & _ & _ & Ho).
  rewrite rows_where_app, <- (IH Hkvs). unfold al_build. rewrite foldl_app. cbn [foldl fst snd].
  rewrite (al_find_insert D) by (done || apply Hk). unfold rows_where.
  cbn [omap list_omap fst snd]. by destruct (key_eq k key).
Qed.

Lemma al_build_collect kvs test : Forall (λ kv, index_key ks kv.1) kvs →
  al_collect test (al_build kvs) ≡ₚ rows_where test kvs.
Proof.
  intros Hkvs. induction kvs as [|[k r] kvs IH] using rev_ind; [done|].
  apply Forall_app in Hkvs as [Hkvs Hk%Forall_cons_iff]. destruct Hk as [Hk _]. cbn in Hk.
  destruct (build_ok kvs Hkvs) as (_ & _ & _ & Ho).
  rewrite rows_where_app, <- (IH Hkvs). unfold al_build. rewrite foldl_app. cbn [foldl fst snd].
  rewrite (al_collect_insert D) by (done || apply Hk). rewrite Permutation_app_comm. f_equiv.
  unfold rows_where. cbn. by destruct (test k).
Qed.

Lemma find_prefix_ok t l prefix : represents t l → ordered D l → index_key ks prefix →
  find_prefix t prefix = Ok (al_collect (λ k, starts_with k prefix) l).
Proof.
  intros Ht Ho Hp. destruct t as [n|]; cbn in Ht; [|by subst]. destruct Ht as (h & Hs & <-).
  unfold find_prefix. rewrite (typed_no_null ks) by apply Hp. rewrite (index_key_empty ks) by done.
  cbn [orb]. rewrite (shaped_height h n Hs). apply (collect_keys_ok D); [|done|done].
  intros k k' Dk Dk' Hb Hlt. apply andb_true_iff in Hb as [_ [He _]%andb_true_iff].
  apply (prefix_exceeded_monotone ks prefix k k'); try done. apply Hp.
Qed.
End build.


Definition int_key (n : Z) : IndexKey := [VInt n].


(** C23. Range scans: after any insertions of keys as in [btree_find_equal] (nonempty,
    without NULL, of one kind per column, FLOATs pairwise 1e-9 or more apart), [find_range]
    with any combination of open, inclusive and exclusive bounds, the upper one of the kinds
    of the keys, returns the rows of the keys within the bounds, each exactly once, in
    increasing key order and within a key in insertion order. *)
Theorem btree_find_range ks kvs :
  Forall (λ kv, index_key ks kv.1) kvs →
  ∃ t l, build kvs = Ok t ∧ StronglySorted e_lt l ∧
    (∀ key, index_key ks key → al_find key l = rows_where (λ k, key_eq k key) kvs) ∧
    ∀ lower li upper ui, (∀ u, upper = Some u → typed_key ks u) →
      find_range t lower li upper ui = Ok (al_collect (in_range lower li upper ui) l) ∧
      al_collect (in_range lower li upper ui) l ≡ₚ rows_where (in_range lower li upper ui) kvs.
Proof.
  intros Hkvs. destruct (build_ok ks kvs Hkvs) as (t & E & Ht & Ho).
  exists t, (al_build kvs). split_and!; [done|apply Ho| |].
  - intros key [Hkey _]. by apply (al_build_find ks).
  - intros lower li upper ui Hu. split; [by apply (find_range_ok (typed_key ks))|].
    by apply (al_build_collect ks).
Qed.

Lemma btree_find_range_witness :
  ∃ t, build [(int_key 3, 0); (int_key 1, 1); (int_key 2, 2); (int_key 3, 3)] = Ok t ∧
    ∃ out, find_range t (Some (int_key 1)) false (Some (int_key 3)) true = Ok out ∧
      out ≡ₚ [0; 2; 3].
Proof.
  destruct (btree_find_range [KInt] [(int_key 3, 0); (int_key 1, 1); (int_key 2, 2); (int_key 3, 3)])
    as (t & l & E & _ & _ & H).
  { repeat constructor; done. }
  exists t. split; [done|]. destruct (H (Some (int_key 1)) false (Some (int_key 3)) true) as [H1 H2].
  { intros u [= <-]. done. }
  eexists. split; [exact H1|]. exact H2.
Defined.

(** Prefix scans over composite keys: [find_prefix] returns exactly the
    rows whose key starts with the given components, in increasing key order;
    the early exit from a node never cuts off a match. *)
Theorem btree_find_prefix ks kvs :
  Forall (λ kv, index_key ks kv.1) kvs →
  ∃ t, build kvs = Ok t ∧
    ∀ prefix, index_key ks prefix →
      ∃ out, find_prefix t prefix = Ok out ∧ out ≡ₚ rows_where (λ k, starts_with k prefix) kvs.
Proof.
  intros Hkvs. destruct (build_ok ks kvs Hkvs) as (t & E & Ht & Ho). exists t. split; [done|].
  intros prefix Hp. eexists. split; [by apply (find_prefix_ok ks)|]. by apply (al_build_collect ks).
Qed.

Lemma btree_find_prefix_witness :
  ∃ t, build [([VInt 1; VString "b"], 0); ([VInt 2; VString "a"], 1); ([VInt 1; VString "a"], 2)] = Ok t ∧
    ∃ out, find_prefix t (int_key 1) = Ok out ∧ out ≡ₚ [0; 2].
Proof.
  destruct (btree_find_prefix [KInt; KString]
    [([VInt 1; VString "b"], 0); ([VInt 2; VString "a"], 1); ([VInt 1; VString "a"], 2)]) as (t & E & H).
  { repeat constructor; done. }
  exists t. split; [done|]. apply (H (int_key 1)). split; done.
Defined.

(** Removal from a leaf, or of one row among several of a key, is correct:
    the tree stays a valid index, the row is gone, and every other key keeps its
    rows. (The remaining case is [btree_remove_loses_keys].) *)
Theorem btree_remove_safe ks t l key r :
  represents t l → ordered (typed_key ks) l → index_key ks key →
  (∀ n, t = Some n → key ∈ inner_keys n → other_rows r (al_find key l) ≠ []) →
  ∃ t' l', remove t key r = Ok t' ∧ represents t' l' ∧ ordered (typed_key ks) l' ∧
    ∀ key', index_key ks key' → find_equal t' key' =
      Ok (if key_eq key key' then other_rows r (al_find key' l) else al_find key' l).
Proof.
  intros Ht Ho Hk Hin. pose proof (typed_no_null ks) as Hnull.
  destruct (remove_ok (typed_key ks) t l key r Ht Ho) as (t' & E & Ht'); try done.
  { apply Hk. }
  { apply Hnull, Hk. }
  { by eapply index_key_empty. }
  pose proof (al_remove_ordered (typed_key ks) key r l Ho) as Ho'.
  exists t', (al_remove key r l). split_and!; [done|done|done|]. intros key' Hk'.
  rewrite (find_equal_ok (typed_key ks) t' _ key' Ht' Ho'); [|apply Hk'|apply Hnull, Hk'|by eapply index_key_empty].
  f_equal. apply (al_find_remove (typed_key ks)); [done|apply Hk'|apply Hk].
Qed.

Lemma btree_remove_safe_witness :
  ∃ t' l', remove (Some (Node true [int_key 1; int_key 2] [[5; 6]; [7]] [])) (int_key 1) 5 = Ok t' ∧
    represents t' l' ∧ find_equal t' (int_key 1) = Ok [6].
Proof.
  destruct (btree_remove_safe [KInt] (Some (Node true [int_key 1; int_key 2] [[5; 6]; [7]] []))
    [(int_key 1, [5; 6]); (int_key 2, [7])] (int_key 1) 5) as (t' & l' & E & Hr & _ & Hf).
  - exists 0%nat. split; [|done]. cbn. split_and!; try done. unfold kMaxKeys, kMinDegree. lia.
  - split; repeat constructor; done.
  - split; done.
  - intros n [= <-]. cbn. by intros ?%elem_of_nil.
  - exists t', l'. split_and!; [done|done|]. by rewrite (Hf (int_key 1)) by (split; done).
Defined.

Definition from_ok (r : res index) : index := match r with Ok t => t | _ => None end.
Definition full_index : index :=
  from_ok (build ((λ n, (int_key (Z.of_nat n), Z.of_nat n)) <$> seq 0 32)).
Definition holed_index : index := from_ok (remove full_index (int_key 15) 15).

(** Removing the last row of a key that sits in an internal node erases
    the key but none of the children: after the keys 0 to 31 have been inserted
    and 15 has been removed, point lookups no longer find the keys above 15 and
    a range scan no longer finds the keys below it. *)
Theorem btree_remove_loses_keys :
  build ((λ n, (int_key (Z.of_nat n), Z.of_nat n)) <$> seq 0 32) = Ok full_index ∧
  remove full_index (int_key 15) 15 = Ok holed_index ∧
  find_equal full_index (int_key 20) = Ok [20] ∧
  find_equal holed_index (int_key 20) = Ok [] ∧
  find_range holed_index (Some (int_key 10)) true None true = Ok (Z.of_nat <$> seq 16 16).
Proof. split_and!; vm_compute; reflexivity. Qed.
