(* ===== verification/Transactions.v ===== *)
(** * Transactions and row visibility

    [TransactionManager] (src/core/transaction_manager.cc), the version
    housekeeping of [Table] (src/core/table.cc: vacuum and freeze) and the
    work the BEGIN, COMMIT and ROLLBACK handlers of [Database]
    (src/core/database.cc) do on the versions of one table.  A table is here the list of row versions its row
    directory names: the heap file underneath is a map (HeapFile.v), and the
    indexes are rebuilt from the versions. *)

From Stdlib Require Import ZArith Lia.
From S2P Require Import Prelude Values Rows.

(** ** State *)

Inductive TransactionStatus : Type := InProgress | Committed | Aborted.
#[export] Instance TransactionStatus_eq_dec : EqDecision TransactionStatus.
Proof. solve_decision. Defined.

Record TransactionSnapshot : Type := mkSnapshot {
  snap_xmax : Z;
  snap_active : gset Z
}.

Record TransactionManager : Type := mkTM {
  next_xid : Z;
  statuses : gmap Z TransactionStatus;
  active_xids : gset Z;
  active_snapshots : gmap Z TransactionSnapshot
}.

Definition new_TransactionManager : TransactionManager := mkTM 1 ∅ ∅ ∅.

(** ** Operations of the manager *)

Definition beginTransaction (tm : TransactionManager) : TransactionManager * Z :=
  let xid := next_xid tm in
  (mkTM (u_wrap 64 (next_xid tm + 1)) (<[xid := InProgress]> (statuses tm))
     ({[xid]} ∪ active_xids tm) (active_snapshots tm), xid).

Definition captureSnapshot (tm : TransactionManager) : TransactionSnapshot :=
  mkSnapshot (next_xid tm) (active_xids tm).

Definition registerSnapshot (tm : TransactionManager) (xid : Z) (s : TransactionSnapshot)
    : TransactionManager :=
  mkTM (next_xid tm) (statuses tm) (active_xids tm) (<[xid := s]> (active_snapshots tm)).

Definition finish (st : TransactionStatus) (tm : TransactionManager) (xid : Z) : TransactionManager :=
  mkTM (next_xid tm) (<[xid := st]> (statuses tm)) (active_xids tm ∖ {[xid]})
    (delete xid (active_snapshots tm)).
Definition commitTransaction : TransactionManager → Z → TransactionManager := finish Committed.
Definition abortTransaction : TransactionManager → Z → TransactionManager := finish Aborted.

Definition isCommitted (tm : TransactionManager) (xid : Z) : bool :=
  if xid =? 0 then true else bool_decide (statuses tm !! xid = Some Committed).
Definition isAborted (tm : TransactionManager) (xid : Z) : bool :=
  if xid =? 0 then false else bool_decide (statuses tm !! xid = Some Aborted).

Definition getVacuumHorizon (tm : TransactionManager) : Z :=
  if decide (active_snapshots tm = ∅) then next_xid tm
  else map_fold (λ _ s horizon, if snap_xmax s <? horizon then snap_xmax s else horizon)
         (2 ^ 64 - 1) (active_snapshots tm).

(** The snapshot does not see the transaction. *)
Definition unseen (s : TransactionSnapshot) (xid : Z) : bool :=
  (snap_xmax s <=? xid) || bool_decide (xid ∈ snap_active s).

Definition canFreezeCommitted (tm : TransactionManager) (xid : Z) : bool :=
  if xid =? 0 then false
  else bool_decide (map_Forall (λ _ s, unseen s xid = false) (active_snapshots tm)).

Definition isVisible (tm : TransactionManager) (xmin xmax reader_xid : Z)
    (snapshot : option TransactionSnapshot) : bool :=
  if xmin =? 0 then
    if xmax =? 0 then true
    else if xmax =? reader_xid then false
    else match snapshot with
    | None => negb (isCommitted tm xmax)
    | Some s => if unseen s xmax then true else negb (isCommitted tm xmax)
    end
  else if xmin =? reader_xid then negb (xmax =? reader_xid)
  else match snapshot with
  | None =>
      if negb (isCommitted tm xmin) then false
      else if xmax =? 0 then true
      else if xmax =? reader_xid then false
      else negb (isCommitted tm xmax)
  | Some s =>
      if unseen s xmin then false
      else if negb (isCommitted tm xmin) then false
      else if xmax =? 0 then true
      else if xmax =? reader_xid then false
      else if unseen s xmax then true
      else negb (isCommitted tm xmax)
  end.

(** ** Versions of a table *)

Definition get_visible_rows (tm : TransactionManager) (rows : list Row) (reader_xid : Z)
    (snapshot : option TransactionSnapshot) : list Row :=
  filter (λ r, isVisible tm (row_xmin r) (row_xmax r) reader_xid snapshot = true) rows.

(** What [insert_row_versioned] appends once the row has passed the schema and
    constraint checks of [insert_row], and what [update_row_versioned] does after
    its own: those checks read the row and change no version. *)
Definition insert_row_versioned_core (rows : list Row) (row : Row) (xmin : Z) : list Row :=
  rows ++ [set_xmax (set_xmin row xmin) 0].

Definition delete_row_versioned (rows : list Row) (index : nat) (xid : Z) : res (list Row) :=
  match rows !! index with
  | None => Throw (std_out_of_range "Row index out of range")
  | Some row => Ok (<[index := set_xmax row xid]> rows)
  end.

Definition update_row_versioned_core (rows : list Row) (index : nat) (new_row : Row) (xid : Z)
    : res (list Row) :=
  match rows !! index with
  | None => Throw (std_out_of_range "Row index out of range")
  | Some old => Ok (<[index := set_xmax old xid]> rows ++ [set_xmax (set_xmin new_row xid) 0])
  end.

(** The loop body of [freeze_committed_versions]; [None] drops the version. *)
Definition freeze_row (xid : Z) (row : Row) : option Row :=
  if row_xmax row =? xid then None
  else if row_xmin row =? xid then Some (set_xmin row 0)
  else Some row.

Definition freeze_committed_versions (xid : Z) (rows : list Row) : list Row :=
  if xid =? 0 then rows else omap (freeze_row xid) rows.

(** The loop body of [vacuum_versions]. *)
Definition vacuum_row (tm : TransactionManager) (vacuum_horizon : Z) (row : Row) : option Row :=
  if isAborted tm (row_xmin row) then None
  else
    let row := if negb (row_xmax row =? 0) && isAborted tm (row_xmax row) then set_xmax row 0 else row in
    if negb (row_xmax row =? 0) && isCommitted tm (row_xmax row) && (row_xmax row <? vacuum_horizon)
    then None else Some row.

Definition vacuum_versions_to (tm : TransactionManager) (vacuum_horizon : Z) (rows : list Row)
    : list Row := omap (vacuum_row tm vacuum_horizon) rows.
Definition vacuum_versions (tm : TransactionManager) (rows : list Row) : list Row :=
  vacuum_versions_to tm (getVacuumHorizon tm) rows.

(** ** The transaction handlers *)

Record DB : Type := mkDB {
  txn_manager : TransactionManager;
  versions : list Row
}.

(** The version side of BEGIN, COMMIT and ROLLBACK, past the guard on the session:
    BEGIN yields the transaction id and the snapshot the session keeps. *)
Definition execute_begin_core (db : DB) : DB * (Z * TransactionSnapshot) :=
  let '(tm, xid) := beginTransaction (txn_manager db) in
  let s := captureSnapshot tm in
  (mkDB (registerSnapshot tm xid s) (versions db), (xid, s)).

Definition execute_commit_core (db : DB) (xid : Z) : DB :=
  let tm := commitTransaction (txn_manager db) xid in
  let rows := vacuum_versions tm (versions db) in
  let rows := if canFreezeCommitted tm xid then freeze_committed_versions xid rows else rows in
  mkDB tm rows.

Definition execute_rollback_core (db : DB) (xid : Z) : DB :=
  let tm := abortTransaction (txn_manager db) xid in
  mkDB tm (vacuum_versions tm (versions db)).

(** What survives a restart: the versions, but no transaction status. *)
Definition restart (db : DB) : DB := mkDB new_TransactionManager (versions db).

(** ** Specification of visibility *)

(** The snapshot sees the effects of [xid]. *)
Definition sees (tm : TransactionManager) (reader : Z) (s : TransactionSnapshot) (xid : Z) : bool :=
  (xid =? reader) || (negb (unseen s xid) && isCommitted tm xid).

(** A version is visible when its creation is seen and its deletion is not. *)
Definition visible_spec (tm : TransactionManager) (reader : Z) (s : TransactionSnapshot) (row : Row) : bool :=
  ((row_xmin row =? 0) || sees tm reader s (row_xmin row)) &&
  negb (negb (row_xmax row =? 0) && sees tm reader s (row_xmax row)).

(** The stamps of a version: its creator, while still running, is the only one
    that may have deleted it. *)
Definition stamps_ok (tm : TransactionManager) (row : Row) : Prop :=
  row_xmin row ∈ active_xids tm → row_xmax row = 0 ∨ row_xmax row = row_xmin row.

Record tm_ok (tm : TransactionManager) : Prop := {
  ok_next : 0 < next_xid tm;
  ok_known y st : statuses tm !! y = Some st → 0 < y < next_xid tm;
  ok_active y : y ∈ active_xids tm ↔ statuses tm !! y = Some InProgress;
  ok_owner x s : active_snapshots tm !! x = Some s → x ∈ active_xids tm;
  ok_xmax x s : active_snapshots tm !! x = Some s → snap_xmax s ≤ next_xid tm;
  ok_snapshot x s y : active_snapshots tm !! x = Some s → y ∈ active_xids tm → unseen s y = true
}.

Lemma active_not_committed tm y : tm_ok tm → y ∈ active_xids tm →
  y ≠ 0 ∧ isCommitted tm y = false ∧ isAborted tm y = false.
Proof.
  intros Hok Hy. apply (ok_active _ Hok) in Hy. pose proof (ok_known _ Hok _ _ Hy).
  unfold isCommitted, isAborted. rewrite (proj2 (Z.eqb_neq _ _)) by lia.
  rewrite Hy. split_and!; [lia|by apply bool_decide_eq_false_2..].
Qed.

Lemma isVisible_sees tm row reader s :
  tm_ok tm → stamps_ok tm row → active_snapshots tm !! reader = Some s →
  isVisible tm (row_xmin row) (row_xmax row) reader (Some s) = visible_spec tm reader s row.
Proof.
  intros Hok Hst Hs. pose proof (ok_owner _ Hok _ _ Hs) as Hact.
  destruct (active_not_committed tm reader Hok Hact) as (Hr0 & Hrc & _).
  unfold isVisible, visible_spec, sees.
  destruct (Z.eqb_spec (row_xmin row) 0) as [E0|N0]; cbn [orb].
  - destruct (Z.eqb_spec (row_xmax row) 0); [done|].
    destruct (Z.eqb_spec (row_xmax row) reader); [done|].
    destruct (unseen s (row_xmax row)); [done|]. by destruct (isCommitted tm (row_xmax row)).
  - destruct (Z.eqb_spec (row_xmin row) reader) as [Er|Nr]; cbn [orb andb].
    + rewrite <- Er in Hact. destruct (Hst Hact) as [E|E]; rewrite E.
      * rewrite (proj2 (Z.eqb_neq 0 reader)) by lia. done.
      * rewrite Er, Z.eqb_refl, (proj2 (Z.eqb_neq reader 0)) by lia. done.
    + destruct (unseen s (row_xmin row)); [done|]. cbn [negb andb].
      destruct (isCommitted tm (row_xmin row)); [|done]. cbn [negb andb].
      destruct (Z.eqb_spec (row_xmax row) 0); [done|].
      destruct (Z.eqb_spec (row_xmax row) reader); [done|].
      destruct (unseen s (row_xmax row)); [done|]. by destruct (isCommitted tm (row_xmax row)).
Qed.

(** ** The invariant is kept *)

Lemma new_tm_ok : tm_ok new_TransactionManager.
Proof. split; cbn; try done; set_solver. Qed.

Lemma finish_ok st tm y : tm_ok tm → st ≠ InProgress → y ∈ active_xids tm → tm_ok (finish st tm y).
Proof.
  intros Hok Hst Hy. split; cbn.
  - apply (ok_next _ Hok).
  - intros z st' [[<- _]|[_ H]]%lookup_insert_Some; [|by eapply (ok_known _ Hok)].
    apply (ok_active _ Hok) in Hy. by eapply (ok_known _ Hok).
  - intros z. rewrite elem_of_difference, not_elem_of_singleton, lookup_insert_Some, (ok_active _ Hok).
    naive_solver.
  - intros x s [Hne Hs]%lookup_delete_Some. apply (ok_owner _ Hok) in Hs. set_solver.
  - intros x s [_ Hs]%lookup_delete_Some. by apply (ok_xmax _ Hok x).
  - intros x s z [_ Hs]%lookup_delete_Some Hz. apply (ok_snapshot _ Hok x); [done|set_solver].
Qed.

Lemma isCommitted_insert tm y st xid tm' : statuses tm' = <[y := st]> (statuses tm) → xid ≠ y →
  isCommitted tm' xid = isCommitted tm xid ∧ isAborted tm' xid = isAborted tm xid.
Proof.
  intros E Hne. unfold isCommitted, isAborted. rewrite E, lookup_insert_ne by done. done.
Qed.

(** What a registered snapshot sees does not change when another transaction
    that it does not see changes status. *)
Lemma sees_stable tm tm' x s y st :
  statuses tm' = <[y := st]> (statuses tm) → unseen s y = true → y ≠ x →
  ∀ xid, sees tm' x s xid = sees tm x s xid.
Proof.
  intros E Hu Hne xid. unfold sees. destruct (decide (xid = y)) as [->|N].
  - rewrite Hu. done.
  - by destruct (isCommitted_insert tm y st xid tm' E N) as [-> _].
Qed.

Lemma visible_stable tm tm' x s y st row :
  statuses tm' = <[y := st]> (statuses tm) → unseen s y = true → y ≠ x →
  visible_spec tm' x s row = visible_spec tm x s row.
Proof.
  intros E Hu Hne. unfold visible_spec. by rewrite !(sees_stable tm tm' x s y st E Hu Hne).
Qed.

(** BEGIN *)
Lemma begin_ok tm : tm_ok tm → next_xid tm + 1 < 2 ^ 64 →
  let tm1 := (beginTransaction tm).1 in let x := next_xid tm in
  let s := captureSnapshot tm1 in
  tm_ok (registerSnapshot tm1 x s) ∧ x ∉ active_xids tm ∧
  (∀ z s', active_snapshots tm !! z = Some s' → unseen s' x = true ∧ z ≠ x).
Proof.
  intros Hok Hn tm1 x s.
  assert (Hnext : next_xid tm1 = x + 1).
  { unfold tm1, beginTransaction. cbn. unfold u_wrap. pose proof (ok_next _ Hok).
    rewrite Z.mod_small; [done|lia]. }
  assert (Hx : x ∉ active_xids tm).
  { intros Hx. apply (ok_active _ Hok) in Hx. apply (ok_known _ Hok) in Hx. unfold x in Hx. lia. }
  assert (Hun : ∀ z s', active_snapshots tm !! z = Some s' → unseen s' x = true ∧ z ≠ x).
  { intros z s' Hz. pose proof (ok_xmax _ Hok z s' Hz). split.
    - unfold unseen. rewrite (proj2 (Z.leb_le _ _)); [done|]. unfold x. lia.
    - intros ->. by apply (ok_owner _ Hok) in Hz. }
  split_and!; [|done|done]. pose proof (ok_next _ Hok) as H0.
  assert (Est : statuses tm1 = <[x := InProgress]> (statuses tm)) by done.
  assert (Eact : active_xids tm1 = {[x]} ∪ active_xids tm) by done.
  assert (Esn : active_snapshots tm1 = active_snapshots tm) by done.
  unfold s. clearbody tm1. clear s. fold x in H0.
  assert (Hlt : ∀ z st, statuses tm !! z = Some st → 0 < z < x) by apply (ok_known _ Hok).
  assert (Hxm : ∀ z s', active_snapshots tm !! z = Some s' → snap_xmax s' ≤ x) by apply (ok_xmax _ Hok).
  clearbody x. split; cbn; rewrite ?Hnext, ?Est, ?Eact, ?Esn.
  - lia.
  - intros z st [[<- _]|[_ Hz]]%lookup_insert_Some; [lia|]. apply Hlt in Hz. lia.
  - intros z. rewrite elem_of_union, elem_of_singleton, lookup_insert_Some, (ok_active _ Hok).
    split; [|naive_solver]. intros [->|Hz]; [by left|]. destruct (decide (x = z)) as [<-|]; [by left|by right].
  - intros z s' [[<- _]|[Hne Hz]]%lookup_insert_Some; [set_solver|].
    apply (ok_owner _ Hok) in Hz. set_solver.
  - intros z s' [[<- <-]|[Hne Hz]]%lookup_insert_Some.
    + cbn. lia.
    + apply Hxm in Hz. lia.
  - intros z s' y [[<- <-]|[Hne Hz]]%lookup_insert_Some Hy.
    + unfold unseen. cbn. rewrite Eact, bool_decide_eq_true_2 by done. apply orb_true_r.
    + apply elem_of_union in Hy as [->%elem_of_singleton|Hy]; [by apply (Hun z)|].
      by apply (ok_snapshot _ Hok z).
Qed.

(** ** Housekeeping keeps what snapshots see *)

(** What a reader sees: the values of the visible versions, in order. *)
Definition reads (tm : TransactionManager) (rows : list Row) (x : Z) (s : TransactionSnapshot)
    : list (list value) :=
  row_values <$> get_visible_rows tm rows x (Some s).

(** The values of the versions that pass a test. *)
Definition view (p : Row → bool) (rows : list Row) : list (list value) :=
  omap (λ r, if p r then Some (row_values r) else None) rows.

Definition reads_spec (tm : TransactionManager) (rows : list Row) (x : Z) (s : TransactionSnapshot)
    : list (list value) := view (visible_spec tm x s) rows.

Lemma view_filter (p : Row → bool) rows : row_values <$> filter (λ r, p r = true) rows = view p rows.
Proof.
  induction rows as [|r rows IH]; [done|]. rewrite filter_cons. unfold view in *. cbn [omap list_omap].
  destruct (p r) eqn:E.
  - rewrite decide_True by done. cbn [fmap list_fmap]. by f_equal.
  - rewrite decide_False by congruence. exact IH.
Qed.

Lemma view_ext (p q : Row → bool) rows : (∀ r, r ∈ rows → p r = q r) → view p rows = view q rows.
Proof.
  induction rows as [|r rows IH]; intros H; [done|]. unfold view in *. cbn [omap list_omap].
  rewrite (H r) by set_solver. by rewrite IH by (intros; apply H; set_solver).
Qed.

Lemma view_app p rows rows' : view p (rows ++ rows') = view p rows ++ view p rows'.
Proof. apply omap_app. Qed.

(** A rewriting of versions that drops some that fail the test and keeps the
    values and the outcome for the rest. *)
Lemma view_omap p (f : Row → option Row) rows :
  (∀ r, r ∈ rows → match f r with
    | None => p r = false
    | Some r' => row_values r' = row_values r ∧ p r' = p r
    end) →
  view p (omap f rows) = view p rows.
Proof.
  induction rows as [|r rows IH]; intros H; [done|]. unfold view in *. cbn [omap list_omap].
  assert (Hr := H r ltac:(set_solver)). rewrite <- IH by (intros r' Hr'; apply H; set_solver).
  destruct (f r) as [r'|].
  - destruct Hr as [Ev Es]. cbn [omap list_omap]. by rewrite Es, Ev.
  - by rewrite Hr.
Qed.

Lemma view_update (p : Row → bool) rows i r r' : rows !! i = Some r → row_values r' = row_values r →
  p r' = p r → view p (<[i := r']> rows) = view p rows.
Proof.
  intros Hi Ev Es. pose proof (lookup_lt_Some _ _ _ Hi) as Hlt.
  rewrite (insert_take_drop rows i r' Hlt). rewrite <- (take_drop_middle rows i r Hi) at 3.
  rewrite !view_app. f_equal. unfold view. cbn [omap list_omap]. by rewrite Es, Ev.
Qed.

Lemma reads_eq tm rows x s :
  tm_ok tm → Forall (stamps_ok tm) rows → active_snapshots tm !! x = Some s →
  reads tm rows x s = reads_spec tm rows x s.
Proof.
  intros Hok Hst Hs. unfold reads, get_visible_rows, reads_spec. rewrite Forall_forall in Hst.
  rewrite (view_filter (λ r, isVisible tm (row_xmin r) (row_xmax r) x (Some s))).
  apply view_ext. intros r Hr. apply isVisible_sees; auto.
Qed.

Lemma sees_zero_aborted tm x s y : tm_ok tm → active_snapshots tm !! x = Some s →
  isAborted tm y = true → sees tm x s y = false.
Proof.
  intros Hok Hs Hy. pose proof (ok_owner _ Hok _ _ Hs) as Hact.
  destruct (active_not_committed tm x Hok Hact) as (_ & _ & Hxa). unfold sees.
  rewrite (proj2 (Z.eqb_neq _ _)) by congruence. cbn. unfold isAborted, isCommitted in *.
  destruct (y =? 0); [done|]. apply bool_decide_eq_true in Hy. rewrite Hy. apply andb_false_r.
Qed.

(** The horizon the vacuum needs: every registered snapshot sees each deletion
    it collects. *)
Definition vacuum_safe (tm : TransactionManager) (horizon : Z) (rows : list Row) : Prop :=
  ∀ r x s, r ∈ rows → row_xmax r ≠ 0 → isCommitted tm (row_xmax r) = true → row_xmax r < horizon →
    active_snapshots tm !! x = Some s → unseen s (row_xmax r) = false.

Lemma vacuum_reads tm horizon rows x s :
  tm_ok tm → active_snapshots tm !! x = Some s → vacuum_safe tm horizon rows →
  reads_spec tm (vacuum_versions_to tm horizon rows) x s = reads_spec tm rows x s.
Proof.
  intros Hok Hs Hsafe. apply view_omap. intros r Hr. unfold vacuum_row.
  destruct (isAborted tm (row_xmin r)) eqn:Ha.
  - unfold visible_spec. rewrite (sees_zero_aborted tm x s _ Hok Hs Ha).
    destruct (Z.eqb_spec (row_xmin r) 0) as [E|]; [|done]. rewrite E in Ha. done.
  - destruct (negb (row_xmax r =? 0) && isAborted tm (row_xmax r)) eqn:Hx.
    + cbn [row_xmax set_xmax]. apply andb_true_iff in Hx as [Hx0 Hxa]. split; [done|].
      unfold visible_spec. cbn. rewrite (sees_zero_aborted tm x s _ Hok Hs Hxa), andb_false_r. done.
    + destruct (negb (row_xmax r =? 0) && isCommitted tm (row_xmax r) && (row_xmax r <? horizon)) eqn:Hd;
        [|done].
      apply andb_true_iff in Hd as [[Hd0 Hdc]%andb_true_iff Hdh].
      apply negb_true_iff, Z.eqb_neq in Hd0. apply Z.ltb_lt in Hdh.
      unfold visible_spec, sees. rewrite (Hsafe r x s Hr Hd0 Hdc Hdh Hs), Hdc.
      rewrite (proj2 (Z.eqb_neq _ _) Hd0), orb_true_r. apply andb_false_r.
Qed.

Lemma freeze_reads tm rows x s y :
  tm_ok tm → active_snapshots tm !! x = Some s → isCommitted tm y = true →
  canFreezeCommitted tm y = true →
  reads_spec tm (freeze_committed_versions y rows) x s = reads_spec tm rows x s.
Proof.
  intros Hok Hs Hc Hf. unfold canFreezeCommitted in Hf. unfold freeze_committed_versions.
  destruct (Z.eqb_spec y 0) as [->|Hy0]; [done|]. apply bool_decide_eq_true in Hf.
  assert (Hsee : sees tm x s y = true).
  { unfold sees. rewrite (Hf x s Hs), Hc. apply orb_true_r. }
  apply view_omap. intros r Hr. unfold freeze_row.
  destruct (Z.eqb_spec (row_xmax r) y) as [E|N].
  - unfold visible_spec. rewrite E, Hsee, (proj2 (Z.eqb_neq _ _) Hy0). apply andb_false_r.
  - destruct (Z.eqb_spec (row_xmin r) y) as [E|N']; [|done]. split; [done|].
    unfold visible_spec. cbn. rewrite E, Hsee, (proj2 (Z.eqb_neq _ _) Hy0). done.
Qed.

(** Stamps after housekeeping. *)
Lemma Forall_omap {A B} (f : A → option B) (P : A → Prop) (Q : B → Prop) l :
  Forall P l → (∀ a b, P a → f a = Some b → Q b) → Forall Q (omap f l).
Proof.
  intros HP H. induction HP as [|a l Ha _ IH]; [constructor|]. cbn. destruct (f a) eqn:E; [|done].
  constructor; eauto.
Qed.

(** Stamps are 0 or ids that have been handed out. *)
Definition issued (tm : TransactionManager) (row : Row) : Prop :=
  0 ≤ row_xmin row < next_xid tm ∧ 0 ≤ row_xmax row < next_xid tm.

Record db_ok (db : DB) : Prop := {
  db_tm : tm_ok (txn_manager db);
  db_stamps : Forall (stamps_ok (txn_manager db)) (versions db);
  db_issued : Forall (issued (txn_manager db)) (versions db)
}.

Lemma vacuum_row_stamps tm horizon (P : Row → Prop) r r' :
  P r → (∀ r, P r → P (set_xmax r 0)) → vacuum_row tm horizon r = Some r' → P r'.
Proof.
  intros Hr HP. unfold vacuum_row. destruct (isAborted tm (row_xmin r)); [done|].
  destruct (negb (row_xmax r =? 0) && isAborted tm (row_xmax r));
    match goal with |- context [if ?b then _ else _] => destruct b end; intros [= <-]; auto.
Qed.

Lemma vacuum_stamps tm horizon (P : Row → Prop) rows :
  Forall P rows → (∀ r, P r → P (set_xmax r 0)) → Forall P (vacuum_versions_to tm horizon rows).
Proof.
  intros H HP. eapply Forall_omap; [done|]. intros r r' Hr. by apply vacuum_row_stamps.
Qed.

Lemma freeze_stamps y (P : Row → Prop) rows :
  Forall P rows → (∀ r, P r → P (set_xmin r 0)) → Forall P (freeze_committed_versions y rows).
Proof.
  intros H HP. unfold freeze_committed_versions. destruct (y =? 0); [done|].
  eapply Forall_omap; [done|]. intros r r' Hr. unfold freeze_row.
  destruct (row_xmax r =? y); [done|]. destruct (row_xmin r =? y); intros [= <-]; auto.
Qed.

(** ** Histories *)

(** Nobody else has deleted the version: what a first-updater-wins check would
    test before a write. *)
Definition unconflicted (tm : TransactionManager) (r : Row) : Prop :=
  row_xmax r = 0 ∨ isAborted tm (row_xmax r) = true.

(** A step of transaction [x]. A write goes to a version [x] sees. *)
Inductive txn_step (x : Z) (db : DB) : DB → Prop :=
  | step_begin : x = next_xid (txn_manager db) → x + 1 < 2 ^ 64 →
      txn_step x db (execute_begin_core db).1
  | step_insert row : x ∈ active_xids (txn_manager db) →
      txn_step x db (mkDB (txn_manager db) (insert_row_versioned_core (versions db) row x))
  | step_delete s i r rows' : active_snapshots (txn_manager db) !! x = Some s →
      versions db !! i = Some r → unconflicted (txn_manager db) r →
      isVisible (txn_manager db) (row_xmin r) (row_xmax r) x (Some s) = true →
      delete_row_versioned (versions db) i x = Ok rows' →
      txn_step x db (mkDB (txn_manager db) rows')
  | step_update s i r new_row rows' : active_snapshots (txn_manager db) !! x = Some s →
      versions db !! i = Some r → unconflicted (txn_manager db) r →
      isVisible (txn_manager db) (row_xmin r) (row_xmax r) x (Some s) = true →
      update_row_versioned_core (versions db) i new_row x = Ok rows' →
      txn_step x db (mkDB (txn_manager db) rows')
  | step_commit : x ∈ active_xids (txn_manager db) →
      (let tm := commitTransaction (txn_manager db) x in
       vacuum_safe tm (getVacuumHorizon tm) (versions db)) →
      txn_step x db (execute_commit_core db x)
  | step_rollback : x ∈ active_xids (txn_manager db) →
      (let tm := abortTransaction (txn_manager db) x in
       vacuum_safe tm (getVacuumHorizon tm) (versions db)) →
      txn_step x db (execute_rollback_core db x).

(** Deleting an unconflicted version does not disturb other readers. *)
Lemma delete_reads tm x z sz r :
  tm_ok tm → active_snapshots tm !! z = Some sz → x ∈ active_xids tm → x ≠ z → unconflicted tm r →
  visible_spec tm z sz (set_xmax r x) = visible_spec tm z sz r.
Proof.
  intros Hok Hz Hx Hne Hc. unfold visible_spec. cbn. f_equal. f_equal.
  pose proof (ok_snapshot _ Hok z sz x Hz Hx) as Hu.
  assert (sees tm z sz x = false) as ->.
  { unfold sees. rewrite Hu, (proj2 (Z.eqb_neq _ _)) by done. done. }
  rewrite andb_false_r. destruct Hc as [->|Ha]; [done|].
  by rewrite (sees_zero_aborted tm z sz _ Hok Hz Ha), andb_false_r.
Qed.

(** The version created by [x] is not seen by others. *)
Lemma own_row_unseen tm x z sz row :
  tm_ok tm → active_snapshots tm !! z = Some sz → x ∈ active_xids tm → x ≠ z →
  view (visible_spec tm z sz) [set_xmax (set_xmin row x) 0] = [].
Proof.
  intros Hok Hz Hx Hne. destruct (active_not_committed tm x Hok Hx) as (H0 & _).
  unfold view, visible_spec, sees. cbn.
  rewrite (proj2 (Z.eqb_neq _ _) H0), (proj2 (Z.eqb_neq _ _) Hne).
  by rewrite (ok_snapshot _ Hok z sz x Hz Hx).
Qed.

Lemma visible_active_own tm x s r : tm_ok tm → stamps_ok tm r → active_snapshots tm !! x = Some s →
  isVisible tm (row_xmin r) (row_xmax r) x (Some s) = true → row_xmin r ∈ active_xids tm →
  row_xmin r = x.
Proof.
  intros Hok Hst Hs Hv Hact. rewrite (isVisible_sees tm r x s Hok Hst Hs) in Hv.
  destruct (active_not_committed tm _ Hok Hact) as (H0 & Hc & _).
  unfold visible_spec, sees in Hv. apply andb_true_iff in Hv as [Hv _].
  rewrite (proj2 (Z.eqb_neq _ _) H0), Hc, andb_false_r, orb_false_r in Hv. cbn in Hv.
  by apply Z.eqb_eq.
Qed.

Lemma deleted_stamps tm x s r : tm_ok tm → stamps_ok tm r → issued tm r →
  active_snapshots tm !! x = Some s →
  isVisible tm (row_xmin r) (row_xmax r) x (Some s) = true →
  stamps_ok tm (set_xmax r x) ∧ issued tm (set_xmax r x).
Proof.
  intros Hok Hst Hi Hs Hv. pose proof (ok_owner _ Hok _ _ Hs) as Hact. split.
  - intros H. right. cbn in H |- *. symmetry. by eapply visible_active_own.
  - split; [apply Hi|]. cbn. apply (ok_active _ Hok) in Hact. apply (ok_known _ Hok) in Hact. lia.
Qed.

Lemma new_stamps tm x row : tm_ok tm → x ∈ active_xids tm →
  stamps_ok tm (set_xmax (set_xmin row x) 0) ∧ issued tm (set_xmax (set_xmin row x) 0).
Proof.
  intros Hok Hx. apply (ok_active _ Hok) in Hx. apply (ok_known _ Hok) in Hx.
  pose proof (ok_next _ Hok). split; [by left|]. split; cbn; lia.
Qed.

(** Finishing a transaction, then vacuuming: the invariant and the reads. *)
Lemma finish_vacuum_ok st db x : db_ok db → st ≠ InProgress → x ∈ active_xids (txn_manager db) →
  let tm := finish st (txn_manager db) x in db_ok (mkDB tm (vacuum_versions tm (versions db))).
Proof.
  intros [Hok Hst Hi] Hne Hx tm. split; cbn; [by apply finish_ok| |].
  - apply vacuum_stamps; [|intros r _ _; by left].
    eapply Forall_impl; [exact Hst|]. intros r Hr Hact. apply Hr. unfold tm in Hact. cbn in Hact. set_solver.
  - apply vacuum_stamps; [done|]. intros r [H1 H2]. split; cbn in *; [done|]. lia.
Qed.

Lemma finish_vacuum st db x : db_ok db → st ≠ InProgress → x ∈ active_xids (txn_manager db) →
  let tm := finish st (txn_manager db) x in
  let rows := vacuum_versions tm (versions db) in
  vacuum_safe tm (getVacuumHorizon tm) (versions db) →
  db_ok (mkDB tm rows) ∧
  ∀ z s, z ≠ x → active_snapshots (txn_manager db) !! z = Some s →
    active_snapshots tm !! z = Some s ∧
    reads_spec tm rows z s = reads_spec (txn_manager db) (versions db) z s.
Proof.
  intros Hdb Hne Hx tm rows Hsafe. pose proof Hdb as [Hok Hst Hi].
  assert (Hok' : tm_ok tm) by by apply finish_ok. split; [by apply finish_vacuum_ok|].
  intros z s Hzx Hz.
  assert (Hz' : active_snapshots tm !! z = Some s) by (cbn; by rewrite lookup_delete_ne).
  split; [done|]. unfold rows, vacuum_versions. rewrite vacuum_reads by done.
  apply view_ext. intros r _.
  apply (visible_stable (txn_manager db) tm z s x st); [done| |done].
  by apply (ok_snapshot _ Hok z).
Qed.

(** BEGIN leaves the versions and what others read alone. *)
Lemma begin_step_ok db : db_ok db → next_xid (txn_manager db) + 1 < 2 ^ 64 →
  db_ok (execute_begin_core db).1 ∧
  ∀ z s, active_snapshots (txn_manager db) !! z = Some s →
    active_snapshots (txn_manager (execute_begin_core db).1) !! z = Some s ∧
    reads_spec (txn_manager (execute_begin_core db).1) (versions db) z s =
    reads_spec (txn_manager db) (versions db) z s.
Proof.
  intros [Hok Hst Hi] Hn. destruct (begin_ok (txn_manager db) Hok Hn) as (Hok' & Hnx & Hun).
  pose proof (ok_next _ Hok) as H0. split.
  - split; [exact Hok'| |].
    + apply Forall_forall. intros r Hr Hact. rewrite Forall_forall in Hst, Hi.
      cbn in Hact. apply elem_of_union in Hact as [Hact%elem_of_singleton|Hact]; [|by apply (Hst r)].
      destruct (Hi r Hr) as [? _]. lia.
    + eapply Forall_impl; [exact Hi|]. intros r [H1 H2]. unfold issued. cbn. unfold u_wrap.
      rewrite Z.mod_small by lia. lia.
  - intros z s Hz. destruct (Hun z s Hz) as [Hu Hne]. split.
    + cbn. by rewrite lookup_insert_ne.
    + apply view_ext. intros r _.
      by apply (visible_stable (txn_manager db) _ z s (next_xid (txn_manager db)) InProgress).
Qed.

Lemma delete_row_versioned_ok rows i x rows' r : rows !! i = Some r →
  delete_row_versioned rows i x = Ok rows' → rows' = <[i := set_xmax r x]> rows.
Proof. intros Hr. unfold delete_row_versioned. rewrite Hr. by intros [= <-]. Qed.

Lemma update_row_versioned_ok rows i nr x rows' r : rows !! i = Some r →
  update_row_versioned_core rows i nr x = Ok rows' →
  rows' = <[i := set_xmax r x]> rows ++ [set_xmax (set_xmin nr x) 0].
Proof. intros Hr. unfold update_row_versioned_core. rewrite Hr. by intros [= <-]. Qed.

Lemma insert_step_ok db x row : db_ok db → x ∈ active_xids (txn_manager db) →
  db_ok (mkDB (txn_manager db) (versions db ++ [set_xmax (set_xmin row x) 0])) ∧
  ∀ z s, z ≠ x → active_snapshots (txn_manager db) !! z = Some s →
    reads_spec (txn_manager db) (versions db ++ [set_xmax (set_xmin row x) 0]) z s =
    reads_spec (txn_manager db) (versions db) z s.
Proof.
  intros [Hok Hst Hi] Hx. destruct (new_stamps _ x row Hok Hx). split.
  - split; [done| |]; cbn; (apply Forall_app; split; [done|by apply Forall_singleton]).
  - intros z s Hne Hz. unfold reads_spec. rewrite view_app, (own_row_unseen _ x z) by done. apply app_nil_r.
Qed.

Lemma delete_step_keeps db x s i r : db_ok db → active_snapshots (txn_manager db) !! x = Some s →
  versions db !! i = Some r →
  isVisible (txn_manager db) (row_xmin r) (row_xmax r) x (Some s) = true →
  db_ok (mkDB (txn_manager db) (<[i := set_xmax r x]> (versions db))).
Proof.
  intros [Hok Hst Hi] Hs Hr Hv.
  assert (Hr1 : stamps_ok (txn_manager db) r) by (rewrite Forall_lookup in Hst; by eapply Hst).
  assert (Hr2 : issued (txn_manager db) r) by (rewrite Forall_lookup in Hi; by eapply Hi).
  destruct (deleted_stamps _ x s r Hok Hr1 Hr2 Hs Hv) as [H1 H2].
  split; [done| |]; cbn; by apply Forall_insert.
Qed.

Lemma delete_step_ok db x s i r : db_ok db → active_snapshots (txn_manager db) !! x = Some s →
  versions db !! i = Some r → unconflicted (txn_manager db) r →
  isVisible (txn_manager db) (row_xmin r) (row_xmax r) x (Some s) = true →
  db_ok (mkDB (txn_manager db) (<[i := set_xmax r x]> (versions db))) ∧
  ∀ z s, z ≠ x → active_snapshots (txn_manager db) !! z = Some s →
    reads_spec (txn_manager db) (<[i := set_xmax r x]> (versions db)) z s =
    reads_spec (txn_manager db) (versions db) z s.
Proof.
  intros Hdb Hs Hr Hc Hv. pose proof Hdb as [Hok Hst Hi]. split.
  - by eapply delete_step_keeps.
  - intros z sz Hne Hz. eapply view_update; [done|done|].
    apply (delete_reads _ x z sz r Hok Hz); [by eapply (ok_owner _ Hok)|done|done].
Qed.

(** Any step of another transaction leaves a reader's view alone. *)
Lemma txn_step_ok x db db' : db_ok db → txn_step x db db' →
  db_ok db' ∧
  ∀ z s, z ≠ x → active_snapshots (txn_manager db) !! z = Some s →
    active_snapshots (txn_manager db') !! z = Some s ∧
    reads_spec (txn_manager db') (versions db') z s = reads_spec (txn_manager db) (versions db) z s.
Proof.
  intros Hdb Hstep. pose proof Hdb as [Hok Hst Hi].
  destruct Hstep as [Hx Hn|row Hx|s i r rows' Hs Hr Hc Hv Hd|s i r nr rows' Hs Hr Hc Hv Hd|Hx Hsafe|Hx Hsafe].
  - subst x. destruct (begin_step_ok db Hdb Hn) as [H1 H2]. split; [done|]. eauto.
  - destruct (insert_step_ok db x row Hdb Hx) as [H1 H2]. split; [done|]. eauto.
  - apply (delete_row_versioned_ok _ _ _ _ r) in Hd as ->; [|done].
    destruct (delete_step_ok db x s i r Hdb Hs Hr Hc Hv) as [H1 H2]. split; [done|]. eauto.
  - apply (update_row_versioned_ok _ _ _ _ _ r) in Hd as ->; [|done].
    destruct (delete_step_ok db x s i r Hdb Hs Hr Hc Hv) as [H1 H2].
    destruct (insert_step_ok _ x nr H1) as [H3 H4]; [by eapply (ok_owner _ Hok)|]. split; [done|].
    intros z sz Hne Hz. split; [done|]. rewrite <- (H2 z sz Hne Hz). exact (H4 z sz Hne Hz).
  - destruct (finish_vacuum Committed db x Hdb ltac:(done) Hx Hsafe) as [H1 H2].
    unfold execute_commit_core. fold (finish Committed (txn_manager db) x) in *.
    set (tm := commitTransaction (txn_manager db) x) in *.
    destruct (canFreezeCommitted tm x) eqn:Hf; [|done].
    assert (Hc : isCommitted tm x = true).
    { unfold isCommitted. cbn. rewrite lookup_insert_eq. by destruct (x =? 0). }
    pose proof H1 as [Hok' Hst' Hi']. cbn [txn_manager versions] in *. split.
    + split; cbn [txn_manager versions]; [done| |].
      * apply freeze_stamps; [done|]. intros r Hr Hact. cbn [row_xmin set_xmin] in Hact.
        apply (ok_active _ Hok') in Hact. apply (ok_known _ Hok') in Hact. lia.
      * apply freeze_stamps; [done|]. intros r [? ?]. split; cbn; [|done]. pose proof (ok_next _ Hok). lia.
    + intros z s Hne Hz. destruct (H2 z s Hne Hz) as [H3 H4]. split; [done|].
      rewrite freeze_reads by done. exact H4.
  - exact (finish_vacuum Aborted db x Hdb ltac:(done) Hx Hsafe).
Qed.

(** ** Theorems *)

(** [isVisible] decides snapshot visibility: a reader with a registered snapshot sees a
    version exactly when its creation is visible to it (frozen, its own, or committed before
    the snapshot) and its deletion is not. *)
Theorem isVisible_is_snapshot_visibility db row reader s :
  db_ok db → row ∈ versions db → active_snapshots (txn_manager db) !! reader = Some s →
  isVisible (txn_manager db) (row_xmin row) (row_xmax row) reader (Some s) =
  visible_spec (txn_manager db) reader s row.
Proof.
  intros [Hok Hst _] Hrow Hs. apply isVisible_sees; [done| |done].
  rewrite Forall_forall in Hst. by apply Hst.
Qed.

Definition example_row (n : Z) : Row := row_of_values [VInt n].
Definition start_db (rows : list Row) : DB := mkDB new_TransactionManager rows.

Lemma start_db_ok rows : Forall (λ r, row_xmin r = 0 ∧ row_xmax r = 0) rows → db_ok (start_db rows).
Proof.
  intros H. split; cbn; [apply new_tm_ok| |].
  - eapply Forall_impl; [exact H|]. intros r [_ Hr]. by left.
  - eapply Forall_impl; [exact H|]. intros r [H1 H2]. unfold issued. rewrite H1, H2. cbn. lia.
Qed.

Lemma isVisible_is_snapshot_visibility_witness :
  let db := (execute_begin_core (start_db [example_row 1])).1 in
  isVisible (txn_manager db) 0 0 1 (Some (mkSnapshot 2 {[1]})) =
  visible_spec (txn_manager db) 1 (mkSnapshot 2 {[1]}) (example_row 1).
Proof.
  intros db. apply (isVisible_is_snapshot_visibility db (example_row 1) 1 (mkSnapshot 2 {[1]})).
  - destruct (begin_step_ok (start_db [example_row 1])) as [H _]; [|done|exact H].
    apply start_db_ok. by repeat constructor.
  - cbn. set_solver.
  - vm_compute. reflexivity.
Defined.

(** Steps of transactions other than [x]. *)
Definition others_step (x : Z) (db db' : DB) : Prop := ∃ y, y ≠ x ∧ txn_step y db db'.

(** C5. Reads are repeatable: whatever other transactions begin, insert,
    delete, update, commit or roll back, vacuum and freeze included, a
    transaction reads the same rows from its snapshot. The steps are those of
    the handlers, on two conditions the code does not check: a write hits a
    version nobody else has deleted, and the vacuum collects only deletions
    every registered snapshot sees. *)
Theorem snapshot_reads_are_repeatable x s db db' :
  db_ok db → active_snapshots (txn_manager db) !! x = Some s → rtc (others_step x) db db' →
  reads (txn_manager db') (versions db') x s = reads (txn_manager db) (versions db) x s.
Proof.
  intros Hdb Hs Hsteps. induction Hsteps as [|db db1 db2 (y & Hne & Hstep) _ IH]; [done|].
  destruct (txn_step_ok y db db1 Hdb Hstep) as [Hdb1 Hr].
  destruct (Hr x s ltac:(done) Hs) as [Hs1 E]. rewrite IH by done.
  destruct Hdb, Hdb1. by rewrite !reads_eq.
Qed.

Lemma snapshot_reads_are_repeatable_witness :
  let db := (execute_begin_core (start_db [example_row 1])).1 in
  let s := mkSnapshot 2 {[1]} in
  let db1 := (execute_begin_core db).1 in
  let db2 := mkDB (txn_manager db1) (insert_row_versioned_core (versions db1) (example_row 5) 2) in
  rtc (others_step 1) db (execute_commit_core db2 2) ∧
  reads (txn_manager (execute_commit_core db2 2)) (versions (execute_commit_core db2 2)) 1 s = [[VInt 1]].
Proof.
  intros db s db1 db2.
  assert (Hdb : db_ok db).
  { destruct (begin_step_ok (start_db [example_row 1])) as [H _]; [|done|exact H].
    apply start_db_ok. by repeat constructor. }
  assert (Hsteps : rtc (others_step 1) db (execute_commit_core db2 2)).
  { eapply rtc_l; [exists 2; split; [done|]; by apply step_begin|].
    eapply rtc_l; [exists 2; split; [done|]; apply step_insert; vm_compute; done|].
    apply rtc_once. exists 2. split; [done|]. apply step_commit; [vm_compute; done|].
    cbv zeta. intros r x0 s0 Hr Hx. exfalso. apply Hx. revert Hr. cbn. set_solver. }
  split; [done|].
  rewrite (snapshot_reads_are_repeatable 1 s db (execute_commit_core db2 2) Hdb); [|vm_compute; reflexivity|done].
  vm_compute. reflexivity.
Defined.

(** What a fresh snapshot sees of the ids handed out before it. *)
Lemma begin_sees tm y : tm_ok tm → next_xid tm + 1 < 2 ^ 64 → 0 < y < next_xid tm →
  let tm1 := (beginTransaction tm).1 in let s := captureSnapshot tm1 in
  sees (registerSnapshot tm1 (next_xid tm) s) (next_xid tm) s y = isCommitted tm y.
Proof.
  intros Hok Hn Hy tm1 s. unfold sees. rewrite (proj2 (Z.eqb_neq _ _)) by lia. cbn [orb].
  assert (Hc : isCommitted (registerSnapshot tm1 (next_xid tm) s) y = isCommitted tm y).
  { eapply (isCommitted_insert tm (next_xid tm) InProgress); [done|lia]. }
  rewrite Hc. destruct (isCommitted tm y) eqn:E; [|apply andb_false_r]. rewrite andb_true_r.
  unfold unseen. cbn. unfold u_wrap. rewrite Z.mod_small by lia.
  rewrite (proj2 (Z.leb_gt _ _)) by lia. cbn. apply negb_true_iff, bool_decide_eq_false.
  intros [Ey%elem_of_singleton|Hact]%elem_of_union; [lia|].
  destruct (active_not_committed tm y Hok Hact) as (_ & Ef & _). congruence.
Qed.

Lemma begin_committed_state db :
  db_ok db → next_xid (txn_manager db) + 1 < 2 ^ 64 →
  let '(db', (x, s)) := execute_begin_core db in
  get_visible_rows (txn_manager db') (versions db') x (Some s) =
  filter (λ r, isCommitted (txn_manager db) (row_xmin r) = true ∧
               (row_xmax r = 0 ∨ isCommitted (txn_manager db) (row_xmax r) = false)) (versions db).
Proof.
  intros Hdb Hn. destruct (begin_step_ok db Hdb Hn) as [[Hok Hst _] _]. destruct Hdb as [Hok0 _ Hi].
  unfold execute_begin_core in *. cbn in Hok, Hst |- *. apply filter_ext_Forall.
  apply Forall_forall. intros r Hr. rewrite Forall_forall in Hst, Hi.
  rewrite isVisible_sees; [|done|by apply Hst|cbn; apply lookup_insert_eq].
  destruct (Hi r Hr) as [H1 H2]. unfold visible_spec.
  pose proof (begin_sees (txn_manager db) (row_xmin r) Hok0 Hn) as E1.
  pose proof (begin_sees (txn_manager db) (row_xmax r) Hok0 Hn) as E2. cbn in E1, E2.
  destruct (Z.eqb_spec (row_xmin r) 0) as [Z1|Z1], (Z.eqb_spec (row_xmax r) 0) as [Z2|Z2].
  - rewrite Z1. cbn. naive_solver.
  - rewrite E2, Z1 by lia. cbn. destruct (isCommitted (txn_manager db) (row_xmax r)); naive_solver.
  - rewrite E1, Z2 by lia. cbn. rewrite andb_true_r. naive_solver.
  - rewrite E1, E2 by lia. cbn.
    destruct (isCommitted (txn_manager db) (row_xmin r)), (isCommitted (txn_manager db) (row_xmax r)); naive_solver.
Qed.

(** A new transaction reads the committed state: right after BEGIN the
    visible versions are those created by committed transactions (or frozen)
    and not deleted by one. *)
Theorem begin_reads_committed_state db :
  db_ok db → next_xid (txn_manager db) + 1 < 2 ^ 64 →
  let '(db', (x, s)) := execute_begin_core db in
  get_visible_rows (txn_manager db') (versions db') x (Some s) =
  filter (λ r, isCommitted (txn_manager db) (row_xmin r) = true ∧
               (row_xmax r = 0 ∨ isCommitted (txn_manager db) (row_xmax r) = false)) (versions db).
Proof. exact (begin_committed_state db). Qed.

Lemma begin_reads_committed_state_witness :
  let '(db', (x, s)) := execute_begin_core (start_db [example_row 1; example_row 2]) in
  get_visible_rows (txn_manager db') (versions db') x (Some s) = [example_row 1; example_row 2].
Proof.
  pose proof (begin_reads_committed_state (start_db [example_row 1; example_row 2])) as H.
  destruct (execute_begin_core (start_db [example_row 1; example_row 2])) as [db' [x s]]. rewrite H.
  - vm_compute. reflexivity.
  - apply start_db_ok. by repeat constructor.
  - done.
Defined.

(** Shorthands of the examples. *)
Definition or_same (rows : list Row) (r : res (list Row)) : list Row :=
  match r with Ok rows' => rows' | _ => rows end.
Definition delete_at (db : DB) (i : nat) (x : Z) : DB :=
  mkDB (txn_manager db) (or_same (versions db) (delete_row_versioned (versions db) i x)).
Definition begun (db : DB) : DB := (execute_begin_core db).1.
Definition snapshot_of (db : DB) (x : Z) : TransactionSnapshot :=
  default (mkSnapshot 0 ∅) (active_snapshots (txn_manager db) !! x).

(** ** What rolled back transactions leave *)

(** What a transaction reads that begins now. *)
Definition next_reads (db : DB) : list (list value) :=
  let '(db', (x, s)) := execute_begin_core db in reads (txn_manager db') (versions db') x s.

(** The committed state: created by a committed transaction, not deleted by one. *)
Definition current (tm : TransactionManager) (r : Row) : bool :=
  isCommitted tm (row_xmin r) && ((row_xmax r =? 0) || negb (isCommitted tm (row_xmax r))).

Lemma next_reads_current db : db_ok db → next_xid (txn_manager db) + 1 < 2 ^ 64 →
  next_reads db = view (current (txn_manager db)) (versions db).
Proof.
  intros Hdb Hn. pose proof (begin_committed_state db Hdb Hn) as H. unfold next_reads.
  destruct (execute_begin_core db) as [db' [x s]]. unfold reads. rewrite H, <- view_filter. f_equal.
  apply filter_ext_Forall, Forall_true. intros r. unfold current.
  rewrite andb_true_iff, orb_true_iff, negb_true_iff, Z.eqb_eq. done.
Qed.

Lemma committed_aborted tm y : isAborted tm y = true → isCommitted tm y = false.
Proof.
  unfold isAborted, isCommitted. destruct (y =? 0); [done|]. rewrite bool_decide_eq_true. intros ->. done.
Qed.

(** The vacuum leaves the committed state alone, whatever its horizon. *)
Lemma vacuum_current tm horizon rows :
  view (current tm) (vacuum_versions_to tm horizon rows) = view (current tm) rows.
Proof.
  apply view_omap. intros r _. unfold vacuum_row, current.
  destruct (isAborted tm (row_xmin r)) eqn:Ea; [by rewrite (committed_aborted _ _ Ea)|].
  destruct (negb (row_xmax r =? 0) && isAborted tm (row_xmax r)) eqn:Ex.
  - apply andb_true_iff in Ex as [E0%negb_true_iff Ex]. cbn. split; [done|].
    by rewrite E0, (committed_aborted _ _ Ex).
  - destruct (negb (row_xmax r =? 0) && isCommitted tm (row_xmax r) && (row_xmax r <? horizon)) eqn:Ed; [|done].
    apply andb_true_iff in Ed as [[E0%negb_true_iff Ec]%andb_true_iff _]. rewrite E0, Ec. apply andb_false_r.
Qed.

(** A transaction that changes to a status other than committed changes no
    committed row. *)
Lemma current_status tm tm' x st : statuses tm' = <[x := st]> (statuses tm) → st ≠ Committed →
  isCommitted tm x = false → ∀ r, current tm' r = current tm r.
Proof.
  intros E Hst Hx r.
  assert (H : ∀ y, isCommitted tm' y = isCommitted tm y).
  { intros y. destruct (decide (y = x)) as [->|N]; [|by destruct (isCommitted_insert tm x st y tm' E N)].
    rewrite Hx. unfold isCommitted in *. rewrite E, lookup_insert_eq. destruct (x =? 0); [done|].
    apply bool_decide_eq_false_2. congruence. }
  unfold current. by rewrite !H.
Qed.

(** The step of some transaction that does not commit.  A write goes to a version
    the transaction sees and whose deletion is not committed; the vacuum of
    ROLLBACK may collect what it likes. *)
Inductive uncommitted_step (db : DB) : DB → Prop :=
  | un_begin : next_xid (txn_manager db) + 1 < 2 ^ 64 → uncommitted_step db (execute_begin_core db).1
  | un_insert x row : x ∈ active_xids (txn_manager db) →
      uncommitted_step db (mkDB (txn_manager db) (insert_row_versioned_core (versions db) row x))
  | un_delete x s i r rows' : active_snapshots (txn_manager db) !! x = Some s →
      versions db !! i = Some r → row_xmax r = 0 ∨ isCommitted (txn_manager db) (row_xmax r) = false →
      isVisible (txn_manager db) (row_xmin r) (row_xmax r) x (Some s) = true →
      delete_row_versioned (versions db) i x = Ok rows' →
      uncommitted_step db (mkDB (txn_manager db) rows')
  | un_update x s i r new_row rows' : active_snapshots (txn_manager db) !! x = Some s →
      versions db !! i = Some r → row_xmax r = 0 ∨ isCommitted (txn_manager db) (row_xmax r) = false →
      isVisible (txn_manager db) (row_xmin r) (row_xmax r) x (Some s) = true →
      update_row_versioned_core (versions db) i new_row x = Ok rows' →
      uncommitted_step db (mkDB (txn_manager db) rows')
  | un_rollback x : x ∈ active_xids (txn_manager db) → uncommitted_step db (execute_rollback_core db x).

Lemma active_delete_current tm x r : tm_ok tm → x ∈ active_xids tm →
  row_xmax r = 0 ∨ isCommitted tm (row_xmax r) = false → current tm (set_xmax r x) = current tm r.
Proof.
  intros Hok Hx Hr. destruct (active_not_committed tm x Hok Hx) as (H0 & Hc & _).
  unfold current. cbn. rewrite Hc, orb_true_r. f_equal. destruct Hr as [->| ->]; [done|].
  by rewrite orb_true_r.
Qed.

Lemma active_insert_current tm x row : tm_ok tm → x ∈ active_xids tm →
  view (current tm) [set_xmax (set_xmin row x) 0] = [].
Proof.
  intros Hok Hx. destruct (active_not_committed tm x Hok Hx) as (_ & Hc & _).
  unfold view, current. cbn. by rewrite Hc.
Qed.

Lemma rollback_current db x : db_ok db → x ∈ active_xids (txn_manager db) →
  db_ok (execute_rollback_core db x) ∧
  view (current (txn_manager (execute_rollback_core db x))) (versions (execute_rollback_core db x)) =
  view (current (txn_manager db)) (versions db).
Proof.
  intros Hdb Hx. destruct (active_not_committed _ x (db_tm _ Hdb) Hx) as (_ & Hc & _).
  split; [by apply finish_vacuum_ok|]. unfold execute_rollback_core, vacuum_versions. cbn [txn_manager versions].
  rewrite vacuum_current. apply view_ext. intros r _. by apply (current_status _ _ x Aborted).
Qed.

Lemma uncommitted_step_current db db' : db_ok db → uncommitted_step db db' →
  db_ok db' ∧ view (current (txn_manager db')) (versions db') = view (current (txn_manager db)) (versions db).
Proof.
  intros Hdb Hstep. pose proof Hdb as [Hok _ Hi].
  destruct Hstep as [Hn|x row Hx|x s i r rows' Hs Hr Hc Hv Hd|x s i r nr rows' Hs Hr Hc Hv Hd|x Hx].
  - split; [by apply begin_step_ok|]. apply view_ext. intros r _.
    apply (current_status _ _ (next_xid (txn_manager db)) InProgress); [done|done|].
    unfold isCommitted. pose proof (ok_next _ Hok). rewrite (proj2 (Z.eqb_neq _ _)) by lia.
    apply bool_decide_eq_false_2. intros Hk. apply (ok_known _ Hok) in Hk. lia.
  - split; [by apply insert_step_ok|]. cbn [txn_manager versions]. unfold insert_row_versioned_core.
    rewrite view_app, active_insert_current by done. apply app_nil_r.
  - apply (delete_row_versioned_ok _ _ _ _ r) in Hd as ->; [|done].
    split; [by eapply delete_step_keeps|]. cbn [txn_manager versions]. eapply view_update; [done|done|].
    apply active_delete_current; [done|by eapply ok_owner|done].
  - apply (update_row_versioned_ok _ _ _ _ _ r) in Hd as ->; [|done].
    assert (Hx : x ∈ active_xids (txn_manager db)) by by eapply ok_owner.
    pose proof (delete_step_keeps db x s i r Hdb Hs Hr Hv) as Hdb1.
    split; [exact (proj1 (insert_step_ok _ x nr Hdb1 Hx))|]. cbn [txn_manager versions].
    rewrite view_app, active_insert_current, app_nil_r by done. eapply view_update; [done|done|].
    by apply active_delete_current.
  - by apply rollback_current.
Qed.

Lemma rollback_erases db x : db_ok db → x ∈ active_xids (txn_manager db) →
  Forall (λ r, row_xmin r ≠ x ∧ row_xmax r ≠ x) (versions (execute_rollback_core db x)).
Proof.
  intros [Hok _ _] Hx. destruct (active_not_committed _ x Hok Hx) as (H0 & _ & _).
  unfold execute_rollback_core, vacuum_versions, vacuum_versions_to. cbn [versions].
  set (tm := abortTransaction (txn_manager db) x).
  assert (Ha : isAborted tm x = true).
  { unfold isAborted. rewrite (proj2 (Z.eqb_neq _ _) H0). cbn. rewrite lookup_insert_eq. done. }
  eapply Forall_omap with (P := λ _, True); [by apply Forall_true|]. intros r r' _. unfold vacuum_row.
  destruct (isAborted tm (row_xmin r)) eqn:E1; [done|].
  destruct (negb (row_xmax r =? 0) && isAborted tm (row_xmax r)) eqn:E2.
  - destruct (_ && _ && _); intros [= <-]. cbn. split; [congruence|lia].
  - destruct (_ && _ && _); intros [= <-]. split; [congruence|]. intros E. rewrite E, Ha in E2.
    rewrite (proj2 (Z.eqb_neq _ _) H0) in E2. done.
Qed.

(** C20. A rolled back transaction is never read.  From any consistent state let
    transactions begin, insert, delete, update and roll back in any order, none
    committing, and then roll [x] back: no version bears the id of [x] any more,
    neither as creator nor as deleter, and a transaction that begins now reads
    exactly what one would have read that had begun at the start.  Condition on
    the writes, which the code does not check (see
    [rollback_undoes_committed_delete]): they go to versions the writer sees and
    whose deletion has not been committed.  The ids stay below 2^64. *)
Theorem rollback_erases_transaction db db' x :
  db_ok db → rtc uncommitted_step db db' → x ∈ active_xids (txn_manager db') →
  next_xid (txn_manager db) + 1 < 2 ^ 64 → next_xid (txn_manager db') + 1 < 2 ^ 64 →
  Forall (λ r, row_xmin r ≠ x ∧ row_xmax r ≠ x) (versions (execute_rollback_core db' x)) ∧
  next_reads (execute_rollback_core db' x) = next_reads db.
Proof.
  intros Hdb Hsteps Hx Hn Hn'.
  assert (H : db_ok db' ∧ view (current (txn_manager db')) (versions db') =
    view (current (txn_manager db)) (versions db)).
  { clear Hx Hn Hn'. induction Hsteps as [|db db1 db2 Hstep _ IH]; [done|].
    destruct (uncommitted_step_current db db1 Hdb Hstep) as [Hdb1 <-]. by apply IH. }
  destruct H as [Hdb' E]. split; [by apply rollback_erases|].
  destruct (rollback_current db' x Hdb' Hx) as [Hok Er].
  rewrite !next_reads_current by done. by rewrite Er.
Qed.

(** Transaction 1 inserts a row, 2 updates row 0 and rolls back. *)
Lemma rollback_erases_transaction_witness :
  let db := start_db [example_row 1] in
  let db1 := begun (begun db) in
  let db2 := mkDB (txn_manager db1) (insert_row_versioned_core (versions db1) (example_row 5) 1) in
  let db3 := mkDB (txn_manager db2)
    (or_same (versions db2) (update_row_versioned_core (versions db2) 0 (example_row 6) 2)) in
  length (versions db3) = 3%nat ∧
  Forall (λ r, row_xmin r ≠ 2 ∧ row_xmax r ≠ 2) (versions (execute_rollback_core db3 2)) ∧
  next_reads (execute_rollback_core db3 2) = [[VInt 1]].
Proof.
  intros db db1 db2 db3. split; [vm_compute; reflexivity|].
  destruct (rollback_erases_transaction db db3 2) as [H1 H2].
  - apply start_db_ok. by repeat constructor.
  - eapply rtc_l; [by apply un_begin|]. eapply rtc_l; [by apply un_begin|].
    eapply rtc_l; [apply (un_insert _ 1 (example_row 5)); vm_compute; done|].
    apply rtc_once. apply (un_update _ 2 (snapshot_of db2 2) 0 (example_row 1) (example_row 6));
      [vm_compute; reflexivity|vm_compute; reflexivity|by left|vm_compute; reflexivity|vm_compute; reflexivity].
  - vm_compute. done.
  - done.
  - vm_compute. done.
  - split; [exact H1|]. rewrite H2. vm_compute. reflexivity.
Defined.

(** ** Where the code does not meet the specification *)

(** The vacuum horizon is not a safe cutoff: transaction 2 begins while 1
    is running, 1 deletes a row and commits, and the vacuum inside COMMIT
    removes the version that 2 still has to see. *)
Theorem vacuum_breaks_snapshot :
  let db := begun (begun (start_db [example_row 7])) in
  let db' := execute_commit_core (delete_at db 0 1) 1 in
  reads (txn_manager db) (versions db) 2 (snapshot_of db 2) = [[VInt 7]] ∧
  snapshot_of db' 2 = snapshot_of db 2 ∧
  reads (txn_manager db') (versions db') 2 (snapshot_of db' 2) = [].
Proof. vm_compute. split_and!; reflexivity. Qed.

(** Writes are not checked for conflicts: transaction 1 has an old
    snapshot, 2 deletes a row and commits, 1 deletes the same row and rolls
    back: the committed deletion is undone, and later transactions read the row
    again. *)
Theorem rollback_undoes_committed_delete :
  let db := execute_commit_core (delete_at (begun (begun (start_db [example_row 7]))) 0 2) 2 in
  let db1 := begun db in
  let db2 := begun (execute_rollback_core (delete_at db 0 1) 1) in
  reads (txn_manager db1) (versions db1) 3 (snapshot_of db1 3) = [] ∧
  reads (txn_manager db2) (versions db2) 3 (snapshot_of db2 3) = [[VInt 7]].
Proof. vm_compute. split; reflexivity. Qed.

(** A commit that could not be frozen does not survive a restart: while an
    older transaction is open, COMMIT keeps the creator's id in the versions, and
    the statuses that make the id committed are only in memory. *)
Theorem restart_loses_unfrozen_commit :
  let db := begun (begun (start_db [])) in
  let db' := mkDB (txn_manager db) (insert_row_versioned_core (versions db) (example_row 7) 2) in
  let committed := execute_rollback_core (execute_commit_core db' 2) 1 in
  let before := begun committed in
  let after := begun (restart committed) in
  reads (txn_manager before) (versions before) 3 (snapshot_of before 3) = [[VInt 7]] ∧
  reads (txn_manager after) (versions after) 1 (snapshot_of after 1) = [].
Proof. vm_compute. split; reflexivity. Qed.
