(* ===== verification/LockManager.v ===== *)
(** * The lock manager

    [LockManager] (src/core/lock_manager.cc): shared and exclusive locks on table
    and row keys, the wait-for graph and its cycle test.  Each call runs under the
    manager's mutex except while it sleeps on the condition variable, so a call
    to [acquire] is cut at [cv_.wait] into atomic steps: [acquire_enter] up to the
    first wait, [acquire_iteration] for each turn of the loop after a wake-up. *)

From Stdlib Require Import ZArith Lia.
From stdpp Require Import relations.
From S2P Require Import Prelude.

(** ** State *)

Inductive LockMode : Type := Shared | Exclusive.
#[export] Instance LockMode_eq_dec : EqDecision LockMode.
Proof. solve_decision. Defined.

Record LockRequest : Type := mkReq {
  req_txn : Z;
  req_mode : LockMode;
  req_granted : bool
}.
#[export] Instance LockRequest_eq_dec : EqDecision LockRequest.
Proof. solve_decision. Defined.

Record LockManager : Type := mkLM {
  tables : gmap string (list LockRequest);
  txn_tables : gmap Z (gset string);
  wait_for : gmap Z (gset Z)
}.

Definition new_LockManager : LockManager := mkLM ∅ ∅ ∅.

(** ** Operations *)

Definition make_row_lock_key (table_name : string) (row_index : Z) : string :=
  table_name +:+ ":#" +:+ pretty row_index.

Definition is_exclusive (m : LockMode) : bool :=
  match m with Exclusive => true | Shared => false end.

(** [std::unordered_map::operator[]] on a table's queue. *)
Definition queue_of (tbls : gmap string (list LockRequest)) (key : string) : list LockRequest :=
  default [] (tbls !! key).

Fixpoint can_grant (queue : list LockRequest) (txn_id : Z) (mode : LockMode) : bool :=
  match queue with
  | [] => true
  | req :: queue =>
      if negb (req_granted req) then can_grant queue txn_id mode
      else if req_txn req =? txn_id then
        if negb (is_exclusive mode) || is_exclusive (req_mode req) then true
        else can_grant queue txn_id mode
      else if is_exclusive mode || is_exclusive (req_mode req) then false
      else can_grant queue txn_id mode
  end.

(** The depth-first search of [has_cycle] on its two sets; [None] when the fuel
    ran out.  A [true] answer leaves all the nested calls at once.  [successors]
    is the loop over the nodes one node waits for. *)
Definition search : Type := option (bool * gset Z * gset Z).

Fixpoint successors (visit : Z → gset Z → gset Z → search) (nexts : list Z)
    (visiting visited : gset Z) : search :=
  match nexts with
  | [] => Some (false, visiting, visited)
  | next :: nexts =>
      match visit next visiting visited with
      | Some (false, visiting, visited) => successors visit nexts visiting visited
      | r => r
      end
  end.

Fixpoint dfs (graph : gmap Z (gset Z)) (fuel : nat) (node : Z) (visiting visited : gset Z)
    : search :=
  match fuel with
  | O => None
  | S fuel =>
      if decide (node ∈ visiting) then Some (true, visiting, visited)
      else if decide (node ∈ visited) then Some (false, visiting, visited)
      else
        match successors (dfs graph fuel) (elements (default ∅ (graph !! node)))
                ({[node]} ∪ visiting) visited with
        | Some (false, visiting, visited) => Some (false, visiting ∖ {[node]}, {[node]} ∪ visited)
        | r => r
        end
  end.

(** The recursion is no deeper than the number of nodes with an edge. *)
Definition has_cycle (graph : gmap Z (gset Z)) (start : Z) : bool :=
  match dfs graph (S (size (dom graph))) start ∅ ∅ with
  | Some (b, _, _) => b
  | None => false
  end.

Definition holders (queue : list LockRequest) : gset Z :=
  list_to_set (req_txn <$> filter (λ r, req_granted r = true) queue).

Definition add_edge (waiter holder : Z) (graph : gmap Z (gset Z)) : gmap Z (gset Z) :=
  if holder =? waiter then graph
  else <[waiter := {[holder]} ∪ default ∅ (graph !! waiter)]> graph.

(** The edges one queue adds. *)
Definition queue_edges (queue : list LockRequest) (graph : gmap Z (gset Z)) : gmap Z (gset Z) :=
  foldl (λ graph req,
    if req_granted req then graph
    else foldl (λ graph holder, add_edge (req_txn req) holder graph) graph (elements (holders queue)))
    graph queue.

Definition wait_edges (tbls : gmap string (list LockRequest)) : gmap Z (gset Z) :=
  foldl (λ graph queue, queue_edges queue graph) ∅ (map_to_list tbls).*2.

Definition rebuild_wait_edges_locked (lm : LockManager) : LockManager :=
  mkLM (tables lm) (txn_tables lm) (wait_edges (tables lm)).

Definition add_txn_table (lm : LockManager) (txn_id : Z) (key : string) : LockManager :=
  mkLM (tables lm) (<[txn_id := {[key]} ∪ default ∅ (txn_tables lm !! txn_id)]> (txn_tables lm))
    (wait_for lm).

Definition set_queue (lm : LockManager) (key : string) (queue : list LockRequest) : LockManager :=
  mkLM (<[key := queue]> (tables lm)) (txn_tables lm) (wait_for lm).

(** Grants the first request of the transaction that is not granted. *)
Fixpoint grant_first (queue : list LockRequest) (txn_id : Z) (mode : LockMode) : list LockRequest :=
  match queue with
  | [] => []
  | req :: queue =>
      if (req_txn req =? txn_id) && negb (req_granted req)
      then mkReq (req_txn req) (if is_exclusive mode then Exclusive else req_mode req) true :: queue
      else req :: grant_first queue txn_id mode
  end.

Definition own_ungranted (txn_id : Z) (r : LockRequest) : Prop :=
  req_txn r = txn_id ∧ req_granted r = false.
#[export] Instance own_ungranted_dec txn_id r : Decision (own_ungranted txn_id r).
Proof. unfold own_ungranted. apply _. Defined.

(** How a step of [acquire] ends: it returns, it throws, or it sleeps. *)
Inductive outcome : Type := Granted | Deadlocked (e : exn) | Waiting.
#[export] Instance outcome_eq_dec : EqDecision outcome.
Proof. solve_decision. Defined.

(** One turn of the loop of [acquire]. *)
Definition acquire_iteration (lm : LockManager) (txn_id : Z) (key : string) (mode : LockMode)
    : LockManager * outcome :=
  let queue := queue_of (tables lm) key in
  if can_grant queue txn_id mode then
    let lm := set_queue lm key (grant_first queue txn_id mode) in
    let lm := add_txn_table lm txn_id key in
    (rebuild_wait_edges_locked lm, Granted)
  else
    let lm := rebuild_wait_edges_locked lm in
    if has_cycle (wait_for lm) txn_id then
      let lm := set_queue lm key (filter (λ r, ¬ own_ungranted txn_id r) queue) in
      (rebuild_wait_edges_locked lm, Deadlocked (DeadlockException "deadlock detected"))
    else (lm, Waiting).

(** The transaction already holds a lock that covers the request. *)
Definition covers (txn_id : Z) (mode : LockMode) (r : LockRequest) : bool :=
  req_granted r && (req_txn r =? txn_id) && (is_exclusive (req_mode r) || negb (is_exclusive mode)).

Definition acquire_enter (lm : LockManager) (txn_id : Z) (key : string) (mode : LockMode)
    : LockManager * outcome :=
  let queue := queue_of (tables lm) key in
  if existsb (covers txn_id mode) queue
  then (add_txn_table (set_queue lm key queue) txn_id key, Granted)
  else acquire_iteration (set_queue lm key (queue ++ [mkReq txn_id mode false])) txn_id key mode.

(** The loop body of [release_all]. *)
Definition release_table (txn_id : Z) (tbls : gmap string (list LockRequest)) (key : string)
    : gmap string (list LockRequest) :=
  match tbls !! key with
  | None => tbls
  | Some queue =>
      match filter (λ r, req_txn r ≠ txn_id) queue with
      | [] => delete key tbls
      | queue => <[key := queue]> tbls
      end
  end.

Definition release_all (lm : LockManager) (txn_id : Z) : LockManager :=
  let lm :=
    match txn_tables lm !! txn_id with
    | None => lm
    | Some held =>
        mkLM (foldl (release_table txn_id) (tables lm) (elements held))
          (delete txn_id (txn_tables lm)) (wait_for lm)
    end in
  rebuild_wait_edges_locked lm.

(** ** The cycle test *)

Definition edge (graph : gmap Z (gset Z)) (a b : Z) : Prop := b ∈ default ∅ (graph !! a).

(** No infinite walk starts at the node. *)
Definition grounded (graph : gmap Z (gset Z)) (n : Z) : Prop := Acc (λ b a, edge graph a b) n.

Lemma grounded_no_cycle graph n :
  grounded graph n → ∀ m, rtc (edge graph) n m → ¬ tc (edge graph) m m.
Proof.
  intros Hn. assert (∀ m, rtc (edge graph) n m → grounded graph m) as Hreach.
  { intros m Hm. revert Hn. induction Hm as [|a b c Hab Hbc IH]; [done|].
    intros [Ha]. apply IH, Ha, Hab. }
  intros m Hm%Hreach. clear n Hn Hreach.
  induction Hm as [m _ IH]. intros Hcycle.
  inversion Hcycle as [? ? Hmm|? k ? Hmk Hkm]; subst.
  - by apply (IH m Hmm), tc_once.
  - apply (IH k Hmk). eapply tc_r; [exact Hkm|exact Hmk].
Qed.

Section dfs.
Context (graph : gmap Z (gset Z)).

(** What one search guarantees: a cycle was reached, or the node and all the
    nodes it marked are grounded and the stack is as before. *)
Definition search_ok (node : Z) (visiting visited : gset Z) (r : search) : Prop :=
  match r with
  | None => False
  | Some (true, _, _) => ∃ m, rtc (edge graph) node m ∧ tc (edge graph) m m
  | Some (false, visiting', visited') =>
      visiting' = visiting ∧ visited ⊆ visited' ∧ node ∈ visited' ∧
      set_Forall (grounded graph) visited'
  end.

Lemma successors_ok visit nexts node visiting visited :
  (∀ next visited, next ∈ nexts → set_Forall (grounded graph) visited →
     search_ok next visiting visited (visit next visiting visited)) →
  (∀ next, next ∈ nexts → edge graph node next) →
  set_Forall (grounded graph) visited →
  match successors visit nexts visiting visited with
  | None => False
  | Some (true, _, _) => ∃ m, rtc (edge graph) node m ∧ tc (edge graph) m m
  | Some (false, visiting', visited') =>
      visiting' = visiting ∧ visited ⊆ visited' ∧ (∀ next, next ∈ nexts → next ∈ visited') ∧
      set_Forall (grounded graph) visited'
  end.
Proof.
  revert visited. induction nexts as [|next nexts IH]; intros visited Hvisit Hedge Hsafe; cbn [successors].
  { split_and!; [done|done| |done]. intros ? Hin. by apply not_elem_of_nil in Hin. }
  pose proof (Hvisit next visited ltac:(left) Hsafe) as Hnext.
  destruct (visit next visiting visited) as [[[[] visiting'] visited']|]; cbn [search_ok] in Hnext; [| |done].
  { destruct Hnext as (m & Hm & Hcycle). exists m. split; [|done].
    eapply rtc_l; [|exact Hm]. apply Hedge. left. }
  destruct Hnext as (-> & Hsub & Hin & Hsafe').
  specialize (IH visited'). 
  destruct (successors visit nexts visiting visited') as [[[[] visiting''] visited'']|].
  - apply IH; [|intros; apply Hedge; by right|done]. intros. apply Hvisit; [by right|done].
  - destruct IH as (-> & Hsub' & Hin' & Hsafe''); [intros; apply Hvisit; [by right|done]|intros; apply Hedge; by right|done|].
    split_and!; [done|set_solver| |done].
    intros n Hn. apply elem_of_cons in Hn as [->|Hn]; [set_solver|by apply Hin'].
  - apply IH; [|intros; apply Hedge; by right|done]. intros. apply Hvisit; [by right|done].
Qed.

Lemma dfs_ok fuel node visiting visited :
  (size (dom graph ∖ visiting) < fuel)%nat →
  (∀ v, v ∈ visiting → tc (edge graph) v node) →
  set_Forall (grounded graph) visited →
  search_ok node visiting visited (dfs graph fuel node visiting visited).
Proof.
  revert node visiting visited. induction fuel as [|fuel IH]; intros node visiting visited Hfuel Hstack Hsafe; [lia|].
  cbn [dfs]. case_decide as Hv; [cbn [search_ok]; exists node; split; [done|by apply Hstack]|].
  case_decide as Hd; [cbn [search_ok]; done|].
  pose proof (successors_ok (dfs graph fuel) (elements (default ∅ (graph !! node))) node
    ({[node]} ∪ visiting) visited) as Hs.
  destruct (successors _ _ _ _) as [[[[] visiting'] visited']|]; cbn [search_ok].
  1,3: apply Hs; [|intros next; apply elem_of_elements|done].
  3: destruct Hs as (-> & Hsub & Hin & Hsafe'); [|intros next; apply elem_of_elements|done|].
  1-3: intros next visited0 Hnext%elem_of_elements Hsafe0; apply IH; [|
      intros v [->%elem_of_singleton|Hv']%elem_of_union;
      [by apply tc_once|eapply tc_r; [by apply Hstack|exact Hnext]]|done].
  1-3: assert (node ∈ dom graph) as Hdom by
      (apply elem_of_dom; destruct (graph !! node) eqn:E; [done|];
       unfold edge in *; rewrite ?E in Hnext; cbn in Hnext; set_solver).
  1-3: assert (dom graph ∖ ({[node]} ∪ visiting) ⊂ dom graph ∖ visiting) as Hlt%subset_size by set_solver; lia.
  split_and!; [set_solver|set_solver|set_solver|].
  apply set_Forall_union; [|done]. apply set_Forall_singleton.
  constructor. intros next Hnext. apply Hsafe', Hin, elem_of_elements, Hnext.
Qed.

Lemma has_cycle_spec start :
  has_cycle graph start = true ↔ ∃ m, rtc (edge graph) start m ∧ tc (edge graph) m m.
Proof.
  unfold has_cycle.
  pose proof (dfs_ok (S (size (dom graph))) start ∅ ∅) as H.
  assert ((size (dom graph ∖ ∅) < S (size (dom graph)))%nat) as Hsz by (rewrite difference_empty_L; lia).
  specialize (H Hsz ltac:(set_solver) ltac:(apply set_Forall_empty)).
  destruct (dfs _ _ _ _ _) as [[[[] vg] vd]|]; cbn [search_ok] in H; [done| |done].
  destruct H as (_ & _ & Hin & Hsafe). split; [done|]. intros (m & Hm & Hc).
  exfalso. eapply grounded_no_cycle; [apply Hsafe, Hin|exact Hm|exact Hc].
Qed.
End dfs.

(** ** The wait-for graph *)

(** What an edge means: [a] has a request that is not granted on a key some other
    transaction [b] holds. *)
Definition waits_in (queue : list LockRequest) (a b : Z) : Prop :=
  a ≠ b ∧ (∃ r, r ∈ queue ∧ own_ungranted a r) ∧
  (∃ g, g ∈ queue ∧ req_granted g = true ∧ req_txn g = b).

Definition waits (tbls : gmap string (list LockRequest)) (a b : Z) : Prop :=
  ∃ key queue, tbls !! key = Some queue ∧ waits_in queue a b.

Lemma edge_add_edge graph w h a b :
  edge (add_edge w h graph) a b ↔ edge graph a b ∨ (a = w ∧ b = h ∧ w ≠ h).
Proof.
  unfold edge, add_edge. destruct (Z.eqb_spec h w) as [->|Hne]; [naive_solver|].
  destruct (decide (a = w)) as [->|Ha].
  - rewrite lookup_insert_eq. simpl. rewrite elem_of_union, elem_of_singleton. naive_solver.
  - rewrite lookup_insert_ne by done. naive_solver.
Qed.

Lemma edge_add_edges graph w hs a b :
  edge (foldl (λ graph holder, add_edge w holder graph) graph hs) a b ↔
  edge graph a b ∨ (a = w ∧ b ∈ hs ∧ w ≠ b).
Proof.
  revert graph. induction hs as [|h hs IH]; intros graph; cbn [foldl].
  - split; [by left|]. intros [?|(_ & ?%not_elem_of_nil & _)]; done.
  - rewrite IH, edge_add_edge, elem_of_cons. naive_solver.
Qed.

Lemma elem_of_holders queue h :
  h ∈ holders queue ↔ ∃ g, g ∈ queue ∧ req_granted g = true ∧ req_txn g = h.
Proof.
  unfold holders. rewrite elem_of_list_to_set, list_elem_of_fmap.
  setoid_rewrite list_elem_of_filter. naive_solver.
Qed.

Lemma edge_queue_edges queue graph a b :
  edge (queue_edges queue graph) a b ↔ edge graph a b ∨ waits_in queue a b.
Proof.
  unfold queue_edges, waits_in. setoid_rewrite <- elem_of_holders.
  generalize (holders queue) as hs. intros hs. revert graph.
  induction queue as [|r queue IH]; intros graph; cbn [foldl].
  - split; [by left|]. intros [?|(_ & (r & ?%not_elem_of_nil & _) & _)]; done.
  - rewrite IH. clear IH. unfold own_ungranted. setoid_rewrite elem_of_cons.
    destruct (req_granted r) eqn:E.
    + naive_solver congruence.
    + rewrite edge_add_edges, elem_of_elements. naive_solver.
Qed.

Lemma edge_wait_edges tbls a b : edge (wait_edges tbls) a b ↔ waits tbls a b.
Proof.
  unfold wait_edges, waits.
  transitivity (∃ queue, queue ∈ (map_to_list tbls).*2 ∧ waits_in queue a b).
  - enough (∀ qs graph, edge (foldl (λ graph queue, queue_edges queue graph) graph qs) a b ↔
      edge graph a b ∨ ∃ queue, queue ∈ qs ∧ waits_in queue a b) as ->.
    { unfold edge at 1. rewrite lookup_empty. set_solver. }
    induction qs as [|q qs IH]; intros graph; cbn [foldl].
    + split; [by left|]. intros [?|(? & ?%not_elem_of_nil & _)]; done.
    + rewrite IH, edge_queue_edges. setoid_rewrite elem_of_cons. naive_solver.
  - setoid_rewrite list_elem_of_fmap. split.
    + intros (q & ([k q'] & -> & Hin%elem_of_map_to_list) & Hw). eauto.
    + intros (k & q & Hk & Hw). exists q. split; [|done].
      exists (k, q). split; [done|]. by apply elem_of_map_to_list.
Qed.

(** ** Granting *)

(** The lock a transaction would get is compatible with what others hold. *)
Definition compatible_with_others (queue : list LockRequest) (t : Z) (m : LockMode) : Prop :=
  ∀ g, g ∈ queue → req_granted g = true → req_txn g ≠ t → m = Shared ∧ req_mode g = Shared.

Definition exclusion (queue : list LockRequest) : Prop :=
  ∀ g g', g ∈ queue → g' ∈ queue → req_granted g = true → req_granted g' = true →
    req_txn g ≠ req_txn g' → req_mode g = Shared ∧ req_mode g' = Shared.

(** A transaction holds a lock at least as strong. *)
Definition covered (queue : list LockRequest) (t : Z) (m : LockMode) : Prop :=
  ∃ g, g ∈ queue ∧ covers t m g = true.

Lemma covers_true t m g :
  covers t m g = true ↔
  req_granted g = true ∧ req_txn g = t ∧ (req_mode g = Exclusive ∨ m = Shared).
Proof.
  unfold covers. rewrite !andb_true_iff, orb_true_iff, Z.eqb_eq.
  destruct (req_mode g), m; cbn [is_exclusive negb]; naive_solver.
Qed.

Lemma exclusion_cons r queue : exclusion (r :: queue) → exclusion queue.
Proof. intros H g g' Hg Hg'. apply H; by right. Qed.

Lemma exclusion_covered queue t m :
  exclusion queue → covered queue t m → compatible_with_others queue t m.
Proof.
  intros He (h & Hh & Hc) g Hg Hgr Hne. apply covers_true in Hc as (Hhg & Ht & Hm).
  assert (req_txn g ≠ req_txn h) as Hne' by congruence.
  destruct (He g h Hg Hh Hgr Hhg Hne') as [H1 H2]. naive_solver congruence.
Qed.

(** The early return on a lock of its own is harmless: exclusion makes it imply
    compatibility with all the others. *)
Lemma can_grant_spec queue t m :
  exclusion queue → can_grant queue t m = true ↔ compatible_with_others queue t m.
Proof.
  induction queue as [|r queue IH]; intros He; cbn [can_grant].
  { split; [|done]. intros _ g Hg. by apply not_elem_of_nil in Hg. }
  specialize (IH (exclusion_cons _ _ He)).
  assert (compatible_with_others (r :: queue) t m ↔
    (req_granted r = true → req_txn r ≠ t → m = Shared ∧ req_mode r = Shared) ∧
    compatible_with_others queue t m) as Hsplit.
  { unfold compatible_with_others. setoid_rewrite elem_of_cons. naive_solver. }
  destruct (req_granted r) eqn:Eg; cbn [negb]; [|rewrite Hsplit, IH; naive_solver].
  destruct (Z.eqb_spec (req_txn r) t) as [Et|Et].
  - destruct (negb (is_exclusive m) || is_exclusive (req_mode r)) eqn:Ec;
      [|rewrite Hsplit, IH; naive_solver].
    split; [|done]. intros _. apply exclusion_covered; [done|].
    exists r. split; [left|]. apply covers_true. split_and!; [done|done|].
    destruct m, (req_mode r); cbn in Ec; naive_solver.
  - rewrite Hsplit. destruct m, (req_mode r) eqn:Em; cbn [is_exclusive orb]; rewrite ?IH; naive_solver.
Qed.

Lemma can_grant_false_holder queue t m :
  can_grant queue t m = false → ∃ g, g ∈ queue ∧ req_granted g = true ∧ req_txn g ≠ t.
Proof.
  induction queue as [|r queue IH]; cbn [can_grant]; [done|]. intros H.
  assert (can_grant queue t m = false → ∃ g, g ∈ r :: queue ∧ req_granted g = true ∧ req_txn g ≠ t) as Hrec.
  { intros (g & Hg & ?)%IH. exists g. split; [by right|done]. }
  destruct (req_granted r) eqn:Eg; cbn [negb] in H; [|by apply Hrec].
  destruct (Z.eqb_spec (req_txn r) t).
  - destruct (_ || _) in H; [done|by apply Hrec].
  - destruct (_ || _) in H; [|by apply Hrec]. exists r. split; [left|done].
Qed.

(** ** The system of sessions

    Each transaction is served by one session, so it makes one call at a time: a
    transaction is either running or asleep inside one [acquire]. *)

Record System : Type := mkSys {
  manager : LockManager;
  asleep : gmap Z (string * LockMode)
}.

Definition settle (t : Z) (key : string) (m : LockMode) (r : LockManager * outcome)
    (w : gmap Z (string * LockMode)) : System :=
  match r.2 with
  | Waiting => mkSys r.1 (<[t := (key, m)]> w)
  | _ => mkSys r.1 (delete t w)
  end.

Inductive step (s : System) : System → Prop :=
  | step_acquire t key m :
      asleep s !! t = None →
      step s (settle t key m (acquire_enter (manager s) t key m) (asleep s))
  | step_wake t key m :
      asleep s !! t = Some (key, m) →
      step s (settle t key m (acquire_iteration (manager s) t key m) (asleep s))
  | step_release t :
      asleep s !! t = None →
      step s (mkSys (release_all (manager s) t) (asleep s)).

Definition init : System := mkSys new_LockManager ∅.

(** The requests of [t] that are not granted in the queue of [key]. *)
Definition pending (w : gmap Z (string * LockMode)) (t : Z) (key : string) : list LockRequest :=
  match w !! t with
  | Some (key', m) => if decide (key' = key) then [mkReq t m false] else []
  | None => []
  end.

Definition acyclic (R : Z → Z → Prop) : Prop := ∀ n, ¬ tc R n n.

(** Everything but the graph: locks exclude each other, the ungranted requests
    are those of the sleepers, and [txn_tables] lists every lock held. *)
Record locks_ok (tbls : gmap string (list LockRequest)) (held : gmap Z (gset string))
    (w : gmap Z (string * LockMode)) : Prop := {
  ok_exclusion key : exclusion (queue_of tbls key);
  ok_pending key t : filter (own_ungranted t) (queue_of tbls key) = pending w t key;
  ok_held key r : r ∈ queue_of tbls key → req_granted r = true →
    key ∈ default ∅ (held !! req_txn r)
}.

Record sys_ok (s : System) : Prop := {
  ok_locks : locks_ok (tables (manager s)) (txn_tables (manager s)) (asleep s);
  ok_graph : wait_for (manager s) = wait_edges (tables (manager s));
  ok_acyclic : acyclic (waits (tables (manager s)))
}.

Lemma waits_queue tbls a b : waits tbls a b ↔ ∃ key, waits_in (queue_of tbls key) a b.
Proof.
  unfold waits, queue_of. split.
  - intros (key & q & Hk & Hw). exists key. by rewrite Hk.
  - intros (key & Hw). destruct (tbls !! key) as [q|] eqn:E; [by exists key, q|].
    destruct Hw as (_ & (r & Hr & _) & _). by apply not_elem_of_nil in Hr.
Qed.

Lemma queue_of_insert_eq tbls key q : queue_of (<[key := q]> tbls) key = q.
Proof. unfold queue_of. by rewrite lookup_insert_eq. Qed.
Lemma queue_of_insert_ne tbls key key' q :
  key ≠ key' → queue_of (<[key := q]> tbls) key' = queue_of tbls key'.
Proof. intros. unfold queue_of. by rewrite lookup_insert_ne. Qed.

(** A property of every queue after one of them was replaced. *)
Lemma queue_of_insert_forall (P : string → list LockRequest → Prop) tbls key q :
  P key q → (∀ key', key ≠ key' → P key' (queue_of tbls key')) →
  ∀ key', P key' (queue_of (<[key := q]> tbls) key').
Proof.
  intros Hq Hother key'. destruct (decide (key = key')) as [<-|Hne].
  - by rewrite queue_of_insert_eq.
  - rewrite queue_of_insert_ne by done. by apply Hother.
Qed.

Section queues.
Context (w : gmap Z (string * LockMode)).

Lemma pending_eq t key m : w !! t = Some (key, m) → pending w t key = [mkReq t m false].
Proof. unfold pending. intros ->. by rewrite decide_True. Qed.
Lemma pending_ne t key key' m : w !! t = Some (key, m) → key ≠ key' → pending w t key' = [].
Proof. unfold pending. intros ->. by intros; rewrite decide_False. Qed.
Lemma pending_none t key : w !! t = None → pending w t key = [].
Proof. unfold pending. by intros ->. Qed.
Lemma pending_insert t key m key' :
  pending (<[t := (key, m)]> w) t key' = if decide (key = key') then [mkReq t m false] else [].
Proof. unfold pending. by rewrite lookup_insert_eq. Qed.
Lemma pending_insert_ne t t' key m key' :
  t ≠ t' → pending (<[t := (key, m)]> w) t' key' = pending w t' key'.
Proof. intros. unfold pending. by rewrite lookup_insert_ne. Qed.
Lemma pending_delete t key : pending (delete t w) t key = [].
Proof. unfold pending. by rewrite lookup_delete_eq. Qed.
Lemma pending_delete_ne t t' key : t ≠ t' → pending (delete t w) t' key = pending w t' key.
Proof. intros. unfold pending. by rewrite lookup_delete_ne. Qed.
End queues.

Lemma ungranted_in_filter (q : list LockRequest) t r : r ∈ q → own_ungranted t r → r ∈ filter (own_ungranted t) q.
Proof. intros. by apply list_elem_of_filter. Qed.

Lemma no_pending_no_edge tbls t :
  (∀ key, filter (own_ungranted t) (queue_of tbls key) = []) → ∀ b, ¬ waits tbls t b.
Proof.
  intros Hnone b (key & _ & (r & Hr & Ho) & _)%waits_queue.
  pose proof (ungranted_in_filter _ _ _ Hr Ho) as Hin. rewrite Hnone in Hin.
  by apply not_elem_of_nil in Hin.
Qed.

(** [grant_first] on a queue with one ungranted request of the transaction. *)
Lemma grant_first_split (q : list LockRequest) t m :
  filter (own_ungranted t) q = [mkReq t m false] →
  ∃ q1 q2, q = q1 ++ mkReq t m false :: q2 ∧ grant_first q t m = q1 ++ mkReq t m true :: q2 ∧
    filter (own_ungranted t) q1 = [] ∧ filter (own_ungranted t) q2 = [].
Proof.
  induction q as [|r q IH]; [done|]. rewrite filter_cons. cbn [grant_first].
  case_decide as Ho.
  - intros [= -> Hq]. exists [], q. cbn [req_txn req_granted req_mode].
    rewrite Z.eqb_refl. cbn [andb negb app]. split_and!; [done| |done|done].
    by destruct m.
  - intros Hq. destruct (IH Hq) as (q1 & q2 & -> & Hg & H1 & H2).
    exists (r :: q1), q2. assert ((req_txn r =? t) && negb (req_granted r) = false) as ->.
    { apply not_true_is_false. rewrite andb_true_iff, Z.eqb_eq, negb_true_iff.
      intros [? ?]. by apply Ho. }
    rewrite Hg, filter_cons, decide_False by done. done.
Qed.

(** ** Cycles under a change of the graph *)

Lemma tc_sub (R R' : Z → Z → Prop) a b : (∀ x y, R x y → R' x y) → tc R a b → tc R' a b.
Proof. intros Hsub. induction 1; [by apply tc_once, Hsub|]. eapply tc_l; [by apply Hsub|done]. Qed.

Section cycles.
Context (R R' : Z → Z → Prop) (t : Z).

(** The new edges leave [t]: a cycle that is not an old one passes through [t]. *)
Lemma cycle_through n :
  acyclic R → (∀ a b, R' a b → a ≠ t → R a b) → tc R' n n → tc R' t t.
Proof.
  intros HR Hsub Hn.
  assert (∀ a b, tc R' a b → tc R a b ∨ (rtc R' a t ∧ tc R' t b)) as Hsplit.
  { induction 1 as [a b Hab|a b c Hab Hbc IH].
    - destruct (decide (a = t)) as [->|Ha]; [right; by split; [|apply tc_once]|].
      left. by apply tc_once, Hsub.
    - destruct (decide (a = t)) as [->|Ha]; [right; split; [done|by eapply tc_l]|].
      destruct IH as [IH|[IH1 IH2]].
      + left. eapply tc_l; [by apply Hsub|done].
      + right. split; [by eapply rtc_l|done]. }
  destruct (Hsplit n n Hn) as [Hold|[Hnt Htn]]; [by apply HR in Hold|].
  by eapply tc_rtc_r.
Qed.

(** The new edges enter [t], which has no edge of its own. *)
Lemma acyclic_add_in :
  acyclic R → (∀ a b, R' a b → b ≠ t → R a b) → (∀ b, ¬ R' t b) → acyclic R'.
Proof.
  intros HR Hsub Ht n Hn.
  assert (∀ a b, tc R' a b → b ≠ t → tc R a b) as Hold.
  { induction 1 as [a b Hab|a b c Hab Hbc IH]; intros Hne; [by apply tc_once, Hsub|].
    eapply tc_l; [apply Hsub; [done|]|by apply IH]. intros ->.
    by inversion Hbc; subst; eapply Ht. }
  assert (n ≠ t) by (intros ->; inversion Hn; subst; by eapply Ht).
  by eapply HR, Hold.
Qed.
End cycles.

Lemma acyclic_sub (R R' : Z → Z → Prop) : acyclic R → (∀ a b, R' a b → R a b) → acyclic R'.
Proof. intros HR Hsub n Hn. apply (HR n). eapply tc_sub; [exact Hsub|exact Hn]. Qed.

Lemma has_cycle_waits tbls t :
  has_cycle (wait_edges tbls) t = true ↔ ∃ m, rtc (waits tbls) t m ∧ tc (waits tbls) m m.
Proof.
  rewrite has_cycle_spec. split; intros (m & H1 & H2); exists m; split.
  - eapply rtc_subrel; [|exact H1]. intros ??. apply edge_wait_edges.
  - eapply tc_sub; [|exact H2]. intros ??. apply edge_wait_edges.
  - eapply rtc_subrel; [|exact H1]. intros ??. apply edge_wait_edges.
  - eapply tc_sub; [|exact H2]. intros ??. apply edge_wait_edges.
Qed.

(** ** One turn of the acquire loop *)

(** The state in which a turn starts: the call of [t] has queued its request, and
    any cycle there is uses an edge of [t]. *)
Record turn_ok (lm : LockManager) (w : gmap Z (string * LockMode)) (t : Z) (key : string)
    (m : LockMode) : Prop := {
  turn_locks : locks_ok (tables lm) (txn_tables lm) w;
  turn_asleep : w !! t = Some (key, m);
  turn_acyclic : acyclic (λ a b, a ≠ t ∧ waits (tables lm) a b)
}.

Section turn.
Context (lm : LockManager) (w : gmap Z (string * LockMode)) (t : Z) (key : string) (m : LockMode).
Context (Hok : turn_ok lm w t key m).
Let queue := queue_of (tables lm) key.
Let Hlocks := turn_locks _ _ _ _ _ Hok.

(** The queue before the grant, around the request. *)
Lemma turn_split :
  ∃ q1 q2, queue = q1 ++ mkReq t m false :: q2 ∧ grant_first queue t m = q1 ++ mkReq t m true :: q2 ∧
    filter (own_ungranted t) q1 = [] ∧ filter (own_ungranted t) q2 = [].
Proof.
  apply grant_first_split. unfold queue. rewrite (ok_pending _ _ _ Hlocks).
  apply pending_eq, (turn_asleep _ _ _ _ _ Hok).
Qed.

Lemma elem_of_granted r :
  r ∈ grant_first queue t m ↔ (r ∈ queue ∧ r ≠ mkReq t m false) ∨ r = mkReq t m true.
Proof.
  destruct turn_split as (q1 & q2 & -> & -> & H1 & H2).
  rewrite !elem_of_app, !elem_of_cons.
  assert (∀ q, filter (own_ungranted t) q = [] → r ∈ q → r ≠ mkReq t m false) as Hq.
  { intros q Hq Hr ->. apply (ungranted_in_filter _ t) in Hr; [|done]. rewrite Hq in Hr.
    by apply not_elem_of_nil in Hr. }
  split.
  - intros [Hr|[->|Hr]]; [left|by right|left]; split; [by left|by apply (Hq q1)|by do 2 right|by apply (Hq q2)].
  - intros [[[Hr|[->|Hr]] Hne]| ->]; [by left|done|by do 2 right|by right; left].
Qed.

Lemma filter_granted t' :
  filter (own_ungranted t') (grant_first queue t m) =
  if decide (t = t') then [] else filter (own_ungranted t') queue.
Proof.
  destruct turn_split as (q1 & q2 & -> & -> & H1 & H2).
  rewrite !filter_app, filter_cons_False by (by intros []).
  destruct (decide (t = t')) as [<-|Ht].
  - by rewrite H1, H2.
  - rewrite filter_cons_False; [done|]. by intros [].
Qed.

Lemma granted_locks_ok :
  can_grant queue t m = true →
  locks_ok (<[key := grant_first queue t m]> (tables lm))
    (<[t := {[key]} ∪ default ∅ (txn_tables lm !! t)]> (txn_tables lm)) (delete t w).
Proof.
  intros Hc. apply can_grant_spec in Hc; [|apply (ok_exclusion _ _ _ Hlocks)]. split.
  - apply (queue_of_insert_forall (λ _, exclusion)); [|intros; apply (ok_exclusion _ _ _ Hlocks)].
    intros g g' Hg Hg' Hgr Hgr' Hne.
    apply elem_of_granted in Hg as [[Hg _]| ->], Hg' as [[Hg' _]| ->]; cbn [req_txn req_mode] in *.
    + by apply (ok_exclusion _ _ _ Hlocks key).
    + destruct (Hc g Hg Hgr Hne). naive_solver.
    + destruct (Hc g' Hg' Hgr'); [congruence|]. naive_solver.
    + done.
  - intros k t'. revert k.
    apply (queue_of_insert_forall (λ k q, filter (own_ungranted t') q = pending (delete t w) t' k)).
    + rewrite filter_granted. case_decide as Ht; [subst; by rewrite pending_delete|].
      rewrite pending_delete_ne by done. apply (ok_pending _ _ _ Hlocks).
    + intros k Hk. rewrite (ok_pending _ _ _ Hlocks).
      destruct (decide (t = t')) as [<-|Ht]; [|by rewrite pending_delete_ne].
      rewrite pending_delete. eapply pending_ne; [apply (turn_asleep _ _ _ _ _ Hok)|done].
  - intros k r. revert k.
    assert (∀ k, k ∈ default ∅ (txn_tables lm !! req_txn r) →
      k ∈ default ∅ (<[t := {[key]} ∪ default ∅ (txn_tables lm !! t)]> (txn_tables lm) !! req_txn r)) as Hmono.
    { intros k Hk. destruct (decide (t = req_txn r)) as [->|Hne];
        [rewrite lookup_insert_eq; simpl; apply elem_of_union; by right|by rewrite lookup_insert_ne]. }
    apply (queue_of_insert_forall (λ k q, r ∈ q → req_granted r = true → k ∈ default ∅ (_ !! req_txn r))).
    + intros [[Hr _]| ->]%elem_of_granted Hgr; [by apply Hmono, (ok_held _ _ _ Hlocks)|].
      cbn [req_txn]. rewrite lookup_insert_eq. simpl. apply elem_of_union. left. by apply elem_of_singleton.
    + intros k Hk Hr Hgr. by apply Hmono, (ok_held _ _ _ Hlocks).
Qed.

Lemma granted_no_edge b : ¬ waits (<[key := grant_first queue t m]> (tables lm)) t b.
Proof.
  apply no_pending_no_edge.
  apply (queue_of_insert_forall (λ k q, filter (own_ungranted t) q = [])).
  - rewrite filter_granted. by rewrite decide_True.
  - intros k Hk. rewrite (ok_pending _ _ _ Hlocks).
    eapply pending_ne; [apply (turn_asleep _ _ _ _ _ Hok)|done].
Qed.

Lemma granted_acyclic : acyclic (waits (<[key := grant_first queue t m]> (tables lm))).
Proof.
  apply (acyclic_add_in (λ a b, a ≠ t ∧ waits (tables lm) a b) _ t);
    [apply (turn_acyclic _ _ _ _ _ Hok)| |intros b; apply granted_no_edge].
  intros a b Hw Hb. split; [intros ->; by eapply granted_no_edge|].
  apply waits_queue in Hw as (k & Hw). apply waits_queue.
  destruct (decide (key = k)) as [<-|Hk]; [|rewrite queue_of_insert_ne in Hw by done; by exists k].
  rewrite queue_of_insert_eq in Hw. exists key.
  destruct Hw as (Hab & (r & [[Hr _]| ->]%elem_of_granted & Ho) & (g & [[Hg _]| ->]%elem_of_granted & Hgr & Hgt)).
  - split_and!; eauto.
  - cbn [req_txn] in Hgt. congruence.
  - by destruct Ho.
  - by destruct Ho.
Qed.

(** The victim's request is taken out of the queue again. *)
Let withdrawn := <[key := filter (λ r, ¬ own_ungranted t r) queue]> (tables lm).

Lemma withdrawn_locks_ok : locks_ok withdrawn (txn_tables lm) (delete t w).
Proof.
  split.
  - apply (queue_of_insert_forall (λ _, exclusion)); [|intros; apply (ok_exclusion _ _ _ Hlocks)].
    intros g g' [_ Hg]%list_elem_of_filter [_ Hg']%list_elem_of_filter.
    by apply (ok_exclusion _ _ _ Hlocks key).
  - intros k t'. revert k.
    apply (queue_of_insert_forall (λ k q, filter (own_ungranted t') q = pending (delete t w) t' k)).
    + rewrite list_filter_filter. destruct (decide (t = t')) as [<-|Ht].
      * rewrite pending_delete. apply filter_none. naive_solver.
      * rewrite pending_delete_ne by done. rewrite <- (ok_pending _ _ _ Hlocks).
        apply list_filter_iff. unfold own_ungranted. naive_solver.
    + intros k Hk. rewrite (ok_pending _ _ _ Hlocks).
      destruct (decide (t = t')) as [<-|Ht]; [|by rewrite pending_delete_ne].
      rewrite pending_delete. eapply pending_ne; [apply (turn_asleep _ _ _ _ _ Hok)|done].
  - intros k r. revert k.
    apply (queue_of_insert_forall (λ k q, r ∈ q → req_granted r = true → k ∈ default ∅ (_ !! req_txn r))).
    + intros [_ Hr]%list_elem_of_filter. by apply (ok_held _ _ _ Hlocks).
    + intros k Hk Hr. by apply (ok_held _ _ _ Hlocks).
Qed.

Lemma withdrawn_acyclic : acyclic (waits withdrawn).
Proof.
  eapply acyclic_sub; [apply (turn_acyclic _ _ _ _ _ Hok)|]. intros a b Hw. split.
  - intros ->. revert Hw. apply no_pending_no_edge. intros k.
    rewrite (ok_pending _ _ _ withdrawn_locks_ok). apply pending_delete.
  - apply waits_queue in Hw as (k & Hw). apply waits_queue. exists k. unfold withdrawn in Hw.
    destruct (decide (key = k)) as [<-|Hk]; [|by rewrite queue_of_insert_ne in Hw].
    rewrite queue_of_insert_eq in Hw.
    destruct Hw as (Hab & (r & [_ Hr]%list_elem_of_filter & Ho) & (g & [_ Hg]%list_elem_of_filter & Hgr)).
    split_and!; eauto.
Qed.

Lemma iteration_ok : sys_ok (settle t key m (acquire_iteration lm t key m) w).
Proof.
  unfold acquire_iteration, settle. cbv zeta. fold queue.
  destruct (can_grant queue t m) eqn:Ec.
  { cbn. split; cbn; [by apply granted_locks_ok|done|apply granted_acyclic]. }
  cbn [wait_for rebuild_wait_edges_locked].
  destruct (has_cycle (wait_edges (tables lm)) t) eqn:Eh; cbn.
  { split; cbn; [apply withdrawn_locks_ok|done|apply withdrawn_acyclic]. }
  split; cbn; [|done|].
  - rewrite insert_id by apply (turn_asleep _ _ _ _ _ Hok). apply Hlocks.
  - intros n Hn. apply (cycle_through _ _ t _ (turn_acyclic _ _ _ _ _ Hok)) in Hn; [|done].
    apply not_true_iff_false in Eh. apply Eh, has_cycle_waits. by exists t.
Qed.
End turn.

(** ** The calls preserve the invariant *)

Lemma settle_insert t key m r w : settle t key m r (<[t := (key, m)]> w) = settle t key m r w.
Proof.
  unfold settle. destruct r as [lm []]; cbn [fst snd].
  - f_equal. apply delete_insert_eq.
  - f_equal. apply delete_insert_eq.
  - f_equal. apply insert_insert_eq.
Qed.

Lemma exclusion_push q t m : exclusion q → exclusion (q ++ [mkReq t m false]).
Proof.
  intros He g g' [Hg|Hg%list_elem_of_singleton]%elem_of_app [Hg'|Hg'%list_elem_of_singleton]%elem_of_app;
    subst; try done. by apply He.
Qed.

Lemma enter_turn s t key m :
  sys_ok s → asleep s !! t = None →
  turn_ok (set_queue (manager s) key (queue_of (tables (manager s)) key ++ [mkReq t m false]))
    (<[t := (key, m)]> (asleep s)) t key m.
Proof.
  intros [Hlocks _ Hacyclic] Hrun. split; cbn [tables txn_tables set_queue]; [| apply lookup_insert_eq|].
  - split.
    + apply (queue_of_insert_forall (λ _, exclusion)); [|intros; apply (ok_exclusion _ _ _ Hlocks)].
      apply exclusion_push, (ok_exclusion _ _ _ Hlocks).
    + intros k t'. revert k. apply (queue_of_insert_forall (λ k q, filter (own_ungranted t') q = pending _ t' k)).
      * rewrite filter_app, (ok_pending _ _ _ Hlocks). destruct (decide (t = t')) as [<-|Ht].
        -- rewrite pending_none, pending_insert, decide_True by done. by rewrite filter_cons_True.
        -- rewrite pending_insert_ne by done. rewrite filter_cons_False by (by intros []). by rewrite app_nil_r.
      * intros k Hk. rewrite (ok_pending _ _ _ Hlocks). destruct (decide (t = t')) as [<-|Ht].
        -- by rewrite pending_none, pending_insert, decide_False.
        -- by rewrite pending_insert_ne.
    + intros k r. revert k. apply (queue_of_insert_forall (λ k q, r ∈ q → _ → k ∈ default ∅ (_ !! req_txn r))).
      * intros [Hr| ->%list_elem_of_singleton]%elem_of_app; [|done]. by apply (ok_held _ _ _ Hlocks).
      * intros k Hk. apply (ok_held _ _ _ Hlocks).
  - eapply acyclic_sub; [exact Hacyclic|]. intros a b [Ha (k & Hw)%waits_queue]. apply waits_queue.
    exists k. revert Hw. revert k.
    apply (queue_of_insert_forall (λ k q, waits_in q a b → waits_in (queue_of _ k) a b)); [|done].
    intros (Hab & (r & [Hr| ->%list_elem_of_singleton]%elem_of_app & Ho) &
      (g & [Hg| ->%list_elem_of_singleton]%elem_of_app & Hgr & Hgt)); try done; [split_and!; eauto|].
    by destruct Ho.
Qed.

Lemma enter_ok s t key m :
  sys_ok s → asleep s !! t = None →
  sys_ok (settle t key m (acquire_enter (manager s) t key m) (asleep s)).
Proof.
  intros Hs Hrun. unfold acquire_enter. cbv zeta. destruct (existsb _ _) eqn:Ec.
  2:{ rewrite <- settle_insert. by apply iteration_ok, enter_turn. }
  destruct Hs as [Hlocks Hgraph Hacyclic].
  assert (set_queue (manager s) key (queue_of (tables (manager s)) key) = manager s) as ->.
  { unfold set_queue, queue_of. destruct (manager s) as [tbls held graph]; cbn [tables] in *.
    f_equal. unfold queue_of in Ec. destruct (tbls !! key) eqn:E; [|done]. by apply insert_id. }
  unfold settle; cbn [fst snd]. rewrite delete_id by done. split; cbn; [|done|done].
  split; [apply Hlocks|apply Hlocks|]. intros k r Hr Hg.
  pose proof (ok_held _ _ _ Hlocks k r Hr Hg) as Hin.
  destruct (decide (t = req_txn r)) as [->|Hne]; [|by rewrite lookup_insert_ne].
  rewrite lookup_insert_eq. simpl. apply elem_of_union. by right.
Qed.

Lemma queue_of_release_table t tbls k key :
  queue_of (release_table t tbls k) key =
  if decide (k = key) then filter (λ r, req_txn r ≠ t) (queue_of tbls key) else queue_of tbls key.
Proof.
  unfold release_table. destruct (tbls !! k) as [q|] eqn:E.
  - destruct (filter _ q) as [|r q'] eqn:F; case_decide as Hk; subst; unfold queue_of.
    + by rewrite lookup_delete_eq, E.
    + by rewrite lookup_delete_ne.
    + by rewrite lookup_insert_eq, E.
    + by rewrite lookup_insert_ne.
  - case_decide as Hk; [|done]. subst. unfold queue_of. by rewrite E.
Qed.

Lemma queue_of_release t ks tbls key :
  queue_of (foldl (release_table t) tbls ks) key =
  if decide (key ∈ ks) then filter (λ r, req_txn r ≠ t) (queue_of tbls key) else queue_of tbls key.
Proof.
  revert tbls. induction ks as [|k ks IH]; intros tbls; cbn [foldl]; [done|].
  rewrite IH, queue_of_release_table.
  destruct (decide (k = key)) as [<-|Hk]; destruct (decide (_ ∈ ks)) as [Hin|Hin].
  - rewrite decide_True by left. rewrite list_filter_filter. apply list_filter_iff. naive_solver.
  - by rewrite decide_True by left.
  - by rewrite decide_True by (by right).
  - rewrite decide_False; [done|]. rewrite elem_of_cons. naive_solver.
Qed.

(** A running transaction holds nothing after [release_all], and the requests of
    the others stand as they were. *)
Lemma release_all_queue s t key :
  sys_ok s → asleep s !! t = None →
  queue_of (tables (release_all (manager s) t)) key =
  filter (λ r, req_txn r ≠ t) (queue_of (tables (manager s)) key).
Proof.
  intros [Hlocks _ _] Hrun.
  assert (key ∉ default ∅ (txn_tables (manager s) !! t) →
    filter (λ r, req_txn r ≠ t) (queue_of (tables (manager s)) key) =
    queue_of (tables (manager s)) key) as Hnone.
  { intros Hk. apply filter_all. intros r Hr Ht. destruct (req_granted r) eqn:Eg.
    - apply Hk. rewrite <- Ht. by apply (ok_held _ _ _ Hlocks).
    - apply (ungranted_in_filter _ t) in Hr; [|done]. rewrite (ok_pending _ _ _ Hlocks) in Hr.
      rewrite pending_none in Hr by done. by apply not_elem_of_nil in Hr. }
  unfold release_all. destruct (txn_tables (manager s) !! t) as [held|] eqn:E; cbn.
  - rewrite queue_of_release. case_decide as Hin; [done|].
    symmetry. apply Hnone. simpl. by rewrite elem_of_elements in Hin.
  - symmetry. by apply Hnone.
Qed.

Lemma release_ok s t :
  sys_ok s → asleep s !! t = None → sys_ok (mkSys (release_all (manager s) t) (asleep s)).
Proof.
  intros Hs Hrun. pose proof Hs as [Hlocks _ Hacyclic].
  assert (∀ key, queue_of (tables (release_all (manager s) t)) key =
    filter (λ r, req_txn r ≠ t) (queue_of (tables (manager s)) key)) as Hq
    by (intros; by apply release_all_queue).
  split; cbn [manager asleep].
  - split.
    + intros key. rewrite Hq. intros g g' [_ Hg]%list_elem_of_filter [_ Hg']%list_elem_of_filter.
      by apply (ok_exclusion _ _ _ Hlocks key).
    + intros key t'. rewrite Hq, list_filter_filter, <- (ok_pending _ _ _ Hlocks).
      destruct (decide (t = t')) as [<-|Ht].
      * rewrite (ok_pending _ _ _ Hlocks), pending_none by done.
        apply filter_none. intros r _ [[Hr _] Hne]. done.
      * apply list_filter_iff. unfold own_ungranted. naive_solver.
    + intros key r. rewrite Hq. intros [Hne Hr]%list_elem_of_filter Hg.
      pose proof (ok_held _ _ _ Hlocks key r Hr Hg) as Hin.
      unfold release_all. destruct (txn_tables (manager s) !! t); cbn [txn_tables rebuild_wait_edges_locked]; [|done].
      by rewrite lookup_delete_ne.
  - unfold release_all. by destruct (txn_tables (manager s) !! t).
  - eapply acyclic_sub; [exact Hacyclic|]. intros a b (key & Hw)%waits_queue.
    apply waits_queue. exists key. rewrite Hq in Hw.
    destruct Hw as (Hab & (r & [_ Hr]%list_elem_of_filter & Ho) & (g & [_ Hg]%list_elem_of_filter & Hgr)).
    split_and!; eauto.
Qed.

Lemma step_ok s s' : sys_ok s → step s s' → sys_ok s'.
Proof.
  intros Hs [t key m Hrun|t key m Hw|t Hrun].
  - by apply enter_ok.
  - apply iteration_ok. destruct Hs as [Hlocks _ Hacyclic]. split; [done|done|].
    eapply acyclic_sub; [exact Hacyclic|]. by intros a b [_ ?].
  - by apply release_ok.
Qed.

Lemma init_ok : sys_ok init.
Proof.
  split; [split| |].
  - intros key g g' Hg. by apply not_elem_of_nil in Hg.
  - done.
  - intros key r Hr. by apply not_elem_of_nil in Hr.
  - done.
  - assert (∀ a b, ¬ waits (tables new_LockManager) a b) as Hno.
    { intros a b (key & q & Hq & _). cbn [tables new_LockManager] in Hq. by rewrite lookup_empty in Hq. }
    intros n Hn. inversion Hn; subst; by eapply Hno.
Qed.

Definition reachable (s : System) : Prop := rtc step init s.

Lemma reachable_ok s : reachable s → sys_ok s.
Proof.
  intros Hr. unfold reachable in Hr. revert Hr. generalize init_ok. generalize init as s0.
  induction 2 as [|a b c Hab _ IH]; [done|]. by eapply IH, step_ok.
Qed.

(** ** Progress *)

Lemma acyclic_grounded graph n : acyclic (edge graph) → grounded graph n.
Proof.
  intros Ha. pose proof (dfs_ok graph (S (size (dom graph))) n ∅ ∅) as H.
  specialize (H ltac:(rewrite difference_empty_L; lia) ltac:(set_solver) ltac:(apply set_Forall_empty)).
  destruct (dfs _ _ _ _ _) as [[[[] vg] vd]|]; cbn [search_ok] in H; [|by destruct H as (_ & _ & Hin & Hs); apply Hs|done].
  destruct H as (m & _ & Hc). by apply Ha in Hc.
Qed.

(** A sleeper that could not be granted its lock waits for somebody. *)
Lemma blocked_waits s t key m :
  sys_ok s → asleep s !! t = Some (key, m) → can_grant (queue_of (tables (manager s)) key) t m = false →
  ∃ u, waits (tables (manager s)) t u.
Proof.
  intros [Hlocks _ _] Hw (g & Hg & Hgr & Hne)%can_grant_false_holder.
  exists (req_txn g). apply waits_queue. exists key. split_and!; [done| |by exists g].
  assert (mkReq t m false ∈ filter (own_ungranted t) (queue_of (tables (manager s)) key)) as
    [Ho Hin]%list_elem_of_filter; [|eauto].
  rewrite (ok_pending _ _ _ Hlocks), (pending_eq _ _ _ _ Hw). by left.
Qed.

(** ** Effect of the calls *)

Lemma existsb_covered queue t m : existsb (covers t m) queue = true → covered queue t m.
Proof. intros (g & Hg & Hc)%existsb_exists. exists g. split; [by apply list_elem_of_In|done]. Qed.

Lemma compatible_push queue t m t' m' :
  compatible_with_others (queue ++ [mkReq t' m' false]) t m ↔ compatible_with_others queue t m.
Proof.
  unfold compatible_with_others. setoid_rewrite elem_of_app. setoid_rewrite list_elem_of_singleton.
  split; intros H g; [naive_solver|]. intros [Hg| ->]; [by apply H|done].
Qed.

Lemma running_filter s t key :
  sys_ok s → asleep s !! t = None →
  filter (λ r, ¬ own_ungranted t r) (queue_of (tables (manager s)) key) = queue_of (tables (manager s)) key.
Proof.
  intros [Hlocks _ _] Hrun. apply filter_all. intros r Hr Ho.
  apply (ungranted_in_filter _ _ _ Hr) in Ho. rewrite (ok_pending _ _ _ Hlocks) in Ho.
  rewrite pending_none in Ho by done. by apply not_elem_of_nil in Ho.
Qed.

(** What one call of [acquire] has done when it returns, throws or first sleeps. *)
Definition acquire_spec (old new : gmap string (list LockRequest)) (t : Z) (key : string) (m : LockMode)
    (o : outcome) : Prop :=
  let request := mkReq t m false in
  match o with
  | Granted =>
      covered (queue_of new key) t m ∧ compatible_with_others (queue_of old key) t m
  | Waiting =>
      queue_of new key = queue_of old key ++ [request] ∧
      ¬ compatible_with_others (queue_of old key) t m
  | Deadlocked e =>
      e = DeadlockException "deadlock detected" ∧
      (∀ k, queue_of new k = queue_of old k) ∧
      ¬ compatible_with_others (queue_of old key) t m ∧
      tc (waits (<[key := queue_of old key ++ [request]]> old)) t t
  end.

Lemma enter_spec s t key m :
  sys_ok s → asleep s !! t = None →
  acquire_spec (tables (manager s)) (tables (acquire_enter (manager s) t key m).1) t key m
    (acquire_enter (manager s) t key m).2.
Proof.
  intros Hs Hrun. pose proof Hs as [Hlocks _ Hacyclic].
  pose proof (enter_turn s t key m Hs Hrun) as Hturn.
  pose proof (ok_exclusion _ _ _ Hlocks key) as Hex.
  unfold acquire_enter, acquire_iteration. cbv zeta. cbn [tables set_queue].
  rewrite queue_of_insert_eq. destruct (existsb _ _) eqn:Ec.
  { apply existsb_covered in Ec. cbn. rewrite queue_of_insert_eq. split; [done|by apply exclusion_covered]. }
  pose proof (can_grant_spec (queue_of (tables (manager s)) key ++ [mkReq t m false]) t m
    (exclusion_push _ _ _ Hex)) as Hgrant. rewrite compatible_push in Hgrant.
  destruct (can_grant _ t m) eqn:Eg; cbn.
  - split; [|by apply Hgrant]. rewrite queue_of_insert_eq. exists (mkReq t m true).
    split; [|apply covers_true; cbn; by destruct m; naive_solver].
    pose proof (elem_of_granted _ _ _ _ _ Hturn (mkReq t m true)) as Hin.
    cbn [tables set_queue] in Hin. rewrite queue_of_insert_eq in Hin. apply Hin. by right.
  - assert (¬ compatible_with_others (queue_of (tables (manager s)) key) t m) as Hnc
      by (rewrite <- Hgrant; done).
    destruct (has_cycle _ t) eqn:Eh; cbn; [|by rewrite queue_of_insert_eq].
    split_and!; [done| |done|].
    + intros k. rewrite insert_insert_eq, filter_app, running_filter, filter_cons_False, app_nil_r by
        (done || by intros Hn; apply Hn).
      destruct (decide (key = k)) as [<-|Hk]; [by rewrite queue_of_insert_eq|by rewrite queue_of_insert_ne].
    + apply has_cycle_waits in Eh as (n & _ & Hn). revert Hn.
      by apply cycle_through with (R := λ a b, a ≠ t ∧ waits (tables (set_queue (manager s) key
        (queue_of (tables (manager s)) key ++ [mkReq t m false]))) a b); [apply Hturn|].
Qed.

(** ** Properties *)

(** C31. Locks exclude each other: in every state a system of sessions reaches, two
    transactions that both hold a lock on one key hold it in shared mode. *)
Theorem locks_exclude s key g g' :
  reachable s →
  g ∈ queue_of (tables (manager s)) key → g' ∈ queue_of (tables (manager s)) key →
  req_granted g = true → req_granted g' = true → req_txn g ≠ req_txn g' →
  req_mode g = Shared ∧ req_mode g' = Shared.
Proof. intros Hr%reachable_ok. apply (ok_exclusion _ _ _ (ok_locks _ Hr)). Qed.

(** C6. No deadlock goes unnoticed: in every reachable state each sleeping
    transaction is at the start of a chain of waits that ends in a transaction
    that is running, or that gets its lock when it is next woken. *)
Theorem sleepers_make_progress s t :
  reachable s → is_Some (asleep s !! t) →
  ∃ u, rtc (waits (tables (manager s))) t u ∧
    match asleep s !! u with
    | None => True
    | Some (key, m) => can_grant (queue_of (tables (manager s)) key) u m = true
    end.
Proof.
  intros Hr%reachable_ok _.
  assert (grounded (wait_edges (tables (manager s))) t) as Hg.
  { apply acyclic_grounded. eapply acyclic_sub; [apply (ok_acyclic _ Hr)|].
    intros a b. apply edge_wait_edges. }
  induction Hg as [t _ IH].
  destruct (asleep s !! t) as [[key m]|] eqn:Et; [|by exists t; rewrite Et].
  destruct (can_grant (queue_of (tables (manager s)) key) t m) eqn:Ec; [by exists t; rewrite Et|].
  destruct (blocked_waits s t key m Hr Et Ec) as (u & Hu).
  destruct (IH u) as (v & Hv & Hend); [by apply edge_wait_edges|].
  exists v. split; [by eapply rtc_l|done].
Qed.

(** The effect of [acquire]: it returns holding a lock that covers the request
    and was compatible with the locks of others; or it sleeps with its request
    queued behind an incompatible lock; or it throws, the queues are as before,
    and its request would have closed a cycle of waits through it. *)
Theorem acquire_outcome s t key m lm' o :
  reachable s → asleep s !! t = None →
  acquire_enter (manager s) t key m = (lm', o) →
  acquire_spec (tables (manager s)) (tables lm') t key m o.
Proof.
  intros Hr%reachable_ok Hrun E. pose proof (enter_spec s t key m Hr Hrun) as H.
  by rewrite E in H.
Qed.

(** [release_all] of a running transaction takes all its requests out of every
    queue and no others, forgets its keys, and nobody waits for it any more. *)
Theorem release_all_frees s t :
  reachable s → asleep s !! t = None →
  let lm' := release_all (manager s) t in
  (∀ key, queue_of (tables lm') key = filter (λ r, req_txn r ≠ t) (queue_of (tables (manager s)) key)) ∧
  txn_tables lm' !! t = None ∧
  (∀ a, t ∉ default ∅ (wait_for lm' !! a)).
Proof.
  intros Hr%reachable_ok Hrun lm'. split_and!.
  - intros key. by apply release_all_queue.
  - unfold lm', release_all. destruct (txn_tables (manager s) !! t) eqn:E; cbn; [apply lookup_delete_eq|done].
  - intros a Hin. pose proof (release_ok s t Hr Hrun) as Hr'.
    pose proof (ok_graph _ Hr') as Hgraph. cbn [manager] in Hgraph. unfold lm' in Hin.
    rewrite Hgraph in Hin. apply edge_wait_edges, waits_queue in Hin as (key & _ & _ & g & Hg & _ & Ht).
    cbn [manager] in Hg. rewrite release_all_queue in Hg by done.
    by apply list_elem_of_filter in Hg as [? _].
Qed.

(** The depth-first search decides reachability of a cycle in any graph: it
    answers [true] exactly when some node reachable from the start reaches itself. *)
Theorem has_cycle_correct graph start :
  has_cycle graph start = true ↔ ∃ m, rtc (edge graph) start m ∧ tc (edge graph) m m.
Proof. apply has_cycle_spec. Qed.

(** ** Runs *)

(** Transactions 1 and 2: 1 takes "a", 2 takes "b" and goes to sleep on "a". *)
Definition blocked : System :=
  let s := settle 1 "a" Exclusive (acquire_enter (manager init) 1 "a" Exclusive) (asleep init) in
  let s := settle 2 "b" Exclusive (acquire_enter (manager s) 2 "b" Exclusive) (asleep s) in
  settle 2 "a" Shared (acquire_enter (manager s) 2 "a" Shared) (asleep s).

Lemma blocked_reachable : reachable blocked.
Proof.
  eapply rtc_l; [apply (step_acquire init 1 "a" Exclusive); reflexivity|].
  eapply rtc_l; [apply (step_acquire _ 2 "b" Exclusive); vm_compute; reflexivity|].
  apply rtc_once. apply (step_acquire _ 2 "a" Shared). vm_compute. reflexivity.
Qed.

(** Then 1 releases its locks, and 3 takes "a" before 2 has run again. *)
Definition overtaken : System :=
  let s := mkSys (release_all (manager blocked) 1) (asleep blocked) in
  settle 3 "a" Shared (acquire_enter (manager s) 3 "a" Shared) (asleep s).

Lemma overtaken_reachable : reachable overtaken.
Proof.
  eapply rtc_r; [|apply (step_acquire (mkSys (release_all (manager blocked) 1) (asleep blocked)) 3 "a" Shared); vm_compute; reflexivity].
  eapply rtc_r; [apply blocked_reachable|]. apply step_release. vm_compute. reflexivity.
Qed.

Lemma locks_exclude_witness :
  ∃ g g', g ≠ g' ∧ req_mode g = Shared ∧ req_mode g' = Shared.
Proof.
  set (s := settle 2 "a" Shared (acquire_iteration (manager overtaken) 2 "a" Shared) (asleep overtaken)).
  exists (mkReq 2 Shared true), (mkReq 3 Shared true). split; [done|].
  apply (locks_exclude s "a"); [|by vm_compute; left|by vm_compute; right; left|done|done|done].
  eapply rtc_r; [apply overtaken_reachable|]. apply step_wake. vm_compute. reflexivity.
Defined.

Lemma sleepers_make_progress_witness :
  ∃ u, rtc (waits (tables (manager blocked))) 2 u.
Proof.
  destruct (sleepers_make_progress blocked 2) as (u & Hu & _); [apply blocked_reachable|by eexists; vm_compute|].
  by exists u.
Defined.

Lemma acquire_outcome_witness :
  tc (waits (<[ "b" := [mkReq 2 Exclusive true; mkReq 1 Shared false] ]> (tables (manager blocked)))) 1 1.
Proof.
  eapply (acquire_outcome blocked 1 "b" Shared _ (Deadlocked (DeadlockException "deadlock detected")));
    [apply blocked_reachable|vm_compute; reflexivity|vm_compute; reflexivity].
Defined.

Lemma release_all_frees_witness :
  queue_of (tables (release_all (manager blocked) 1)) "a" = [mkReq 2 Shared false].
Proof.
  destruct (release_all_frees blocked 1) as (H & _); [apply blocked_reachable|vm_compute; reflexivity|].
  rewrite (H "a"). vm_compute. reflexivity.
Defined.

(** The wait-for graph ignores lock modes: a transaction can be thrown out as
    the victim of a deadlock while the transaction it would wait for can already
    be granted its lock. *)
Theorem deadlock_can_be_spurious :
  reachable overtaken ∧ asleep overtaken !! 2 = Some ("a", Shared) ∧
  can_grant (queue_of (tables (manager overtaken)) "a") 2 Shared = true ∧
  (acquire_enter (manager overtaken) 3 "b" Shared).2 =
    Deadlocked (DeadlockException "deadlock detected").
Proof.
  split; [apply overtaken_reachable|]. split_and!; vm_compute; reflexivity.
Qed.
