(* ===== verification/Expr.v ===== *)
(** * Expressions and what they are evaluated against

    The expression classes of include/parser/ast.h, the built-in scalar functions
    (src/executor/scalar_function.cc), bind parameters (src/core/bind_context.cc),
    the frames of enclosing queries (src/core/correlation_context.cc), and the test
    a CHECK predicate has to pass (src/core/check_constraint.cc).

    A subquery is carried by an expression but run by others, so the type [Q] of
    SELECT statements is a parameter of the syntax. *)

From Stdlib Require Import ZArith Lia Ascii.
From S2P Require Import Prelude CppNum Values Rows.

(** ** Syntax *)

Inductive BinaryOp : Type :=
  | EQ | NE | LT | LE | GT | GE | AND | OR | PLUS | MINUS | MUL | DIV | MOD.
Inductive UnaryOp : Type := NOT | NEG.
#[export] Instance BinaryOp_eq_dec : EqDecision BinaryOp.
Proof. solve_decision. Defined.

Inductive expr {Q : Type} : Type :=
  | Literal (v : value)
  | Identifier (name : string)
  | ColumnRef (table column : string)
  | Parameter_ (index : nat)
  | BinaryOpE (left : expr) (op : BinaryOp) (right : expr)
  | UnaryOpE (op : UnaryOp) (e : expr)
  | FunctionCall (name : string) (args : list expr) (window : option (list expr * list (expr * bool)))
  | Cast (e : expr) (target : DataType)
  | Case (when_then : list (expr * expr)) (else_ : option expr)
  | InList (left : expr) (values : list expr) (is_not : bool)
  | InSubquery (left : expr) (subquery : Q) (is_not : bool)
  | Exists (select : Q) (is_not : bool)
  | Subquery (select : Q).
Arguments expr : clear implicits.

(** ** Bind parameters *)

Definition bind_get_value (values : list value) (index : nat) : res value :=
  match values !! index with
  | Some v => Ok v
  | None => Throw (InvalidOperationException "Bind parameter index out of range")
  end.

(** ** Frames of enclosing queries *)

Record SelectColumnBinding : Type := mkBinding {
  alias : string;
  physical_table : string;
  column_name : string
}.

Record Frame : Type := mkFrame {
  by_qualified : gmap string value;
  by_column : gmap string value
}.

Definition bind_column (frame : Frame) (b : SelectColumnBinding) (v : value) : Frame :=
  let q := by_qualified frame in
  let q := if bool_decide (alias b = "") then q
           else <[alias b +:+ "." +:+ column_name b := v]> q in
  let q := if bool_decide (physical_table b = "") then q
           else <[physical_table b +:+ "." +:+ column_name b := v]> q in
  mkFrame q (<[column_name b := v]> (by_column frame)).

Fixpoint bind_columns (frame : Frame) (bs : list SelectColumnBinding) (vs : list value) : Frame :=
  match bs, vs with
  | b :: bs, v :: vs => bind_columns (bind_column frame b v) bs vs
  | _, _ => frame
  end.

(** The frames, the innermost last as in the vector. *)
Definition pushFrame (frames : list Frame) (bs : list SelectColumnBinding) (row : Row) : list Frame :=
  frames ++ [bind_columns (mkFrame ∅ ∅) bs (row_values row)].

Definition popFrame (frames : list Frame) : list Frame := removelast frames.

Definition frame_lookup (table column : string) (frame : Frame) : option value :=
  if bool_decide (table = "") then by_column frame !! column
  else by_qualified frame !! (table +:+ "." +:+ column).

Fixpoint first_found (table column : string) (frames : list Frame) : option value :=
  match frames with
  | [] => None
  | f :: frames =>
      match frame_lookup table column f with
      | Some v => Some v
      | None => first_found table column frames
      end
  end.

Definition correlation_lookup (frames : list Frame) (table column : string) : option value :=
  first_found table column (rev frames).

Lemma pop_push frames bs row : popFrame (pushFrame frames bs row) = frames.
Proof. apply removelast_last. Qed.

(** ** Scalar functions *)

(** A result, and the message [error_msg] is given if there is one. *)
Abbreviation scalar_result := (value * option string)%type.

Definition str_drop (n : nat) (s : string) : string := String.substring n (String.length s - n) s.

Definition upper_fn (args : list value) : scalar_result :=
  match args with
  | a :: _ => (if is_null a then VNull else VString (str_upper (as_string a)), None)
  | [] => (VNull, None)
  end.

Definition lower_fn (args : list value) : scalar_result :=
  match args with
  | a :: _ => (if is_null a then VNull else VString (str_lower (as_string a)), None)
  | [] => (VNull, None)
  end.

Definition length_fn (args : list value) : scalar_result :=
  match args with
  | a :: _ => (if is_null a then VNull else VInt (Z.of_nat (String.length (as_string a))), None)
  | [] => (VNull, None)
  end.

Fixpoint coalesce_fn (args : list value) : scalar_result :=
  match args with
  | [] => (VNull, None)
  | a :: args => if is_null a then coalesce_fn args else (a, None)
  end.

Definition nullif_fn (args : list value) : scalar_result :=
  match args with
  | a :: b :: _ => (if value_eq a b then VNull else a, None)
  | _ => (VNull, None)
  end.

Definition substring_fn (args : list value) : scalar_result :=
  match args with
  | a :: b :: rest =>
      if is_null a || is_null b then (VNull, None)
      else match b with
      | VInt start =>
          let source := as_string a in
          let start := if start <? 1 then 1 else start in
          let start_index := u_wrap 64 (start - 1) in
          if Z.of_nat (String.length source) <=? start_index then (VString "", None)
          else
            let tail := str_drop (Z.to_nat start_index) source in
            match rest with
            | [] => (VString tail, None)
            | VNull :: _ => (VNull, None)
            | VInt length :: _ =>
                let length := if length <? 0 then 0 else length in
                let count := Z.min length (Z.of_nat (String.length tail)) in
                (VString (String.substring 0 (Z.to_nat count) tail), None)
            | _ => (VNull, Some "SUBSTRING length must be INT"%string)
            end
      | _ => (VNull, Some "SUBSTRING start must be INT"%string)
      end
  | _ => (VNull, None)
  end.

(** [today] is what the clock gives CURRENT_DATE, as [%Y-%m-%d]. *)
Definition current_date_fn (today : string) (args : list value) : scalar_result := (VString today, None).

Record ScalarFunction : Type := mkScalar {
  fn_name : string;
  fn_min_arity : nat;
  fn_max_arity : nat;
  fn_evaluate : list value → scalar_result
}.

(** [registerDefaults]. *)
Definition builtins (today : string) : list ScalarFunction :=
  [mkScalar "upper" 1 1 upper_fn; mkScalar "lower" 1 1 lower_fn; mkScalar "length" 1 1 length_fn;
   mkScalar "coalesce" 1 64 coalesce_fn; mkScalar "nullif" 2 2 nullif_fn;
   mkScalar "substring" 2 3 substring_fn; mkScalar "substr" 2 3 substring_fn;
   mkScalar "current_date" 0 0 (current_date_fn today)].

Definition find_builtin (today name : string) : option ScalarFunction :=
  snd <$> list_find (λ f, fn_name f = str_lower name) (builtins today).

Definition hasFunction (today name : string) : bool := bool_decide (is_Some (find_builtin today name)).

Definition evaluate_builtin (today name : string) (args : list value) : scalar_result :=
  match find_builtin today name with
  | None => (VNull, Some ("Unknown function: " +:+ name))
  | Some fn =>
      let argc := length args in
      if (argc <? fn_min_arity fn)%nat || (fn_max_arity fn <? argc)%nat
      then (VNull, Some ("Wrong number of arguments for function " +:+ fn_name fn))
      else fn_evaluate fn args
  end.

(** ** CHECK predicates *)

Definition is_aggregate_name (name : string) : bool :=
  bool_decide (str_upper name ∈ ["COUNT"; "SUM"; "AVG"; "MIN"; "MAX"]%string).

Section check.
Context {Q : Type}.

Fixpoint is_check_expression_allowed (predicate : expr Q) : bool :=
  let fix all (es : list (expr Q)) : bool :=
    match es with [] => true | e :: es => is_check_expression_allowed e && all es end in
  match predicate with
  | Exists _ _ | Subquery _ | InSubquery _ _ _ => false
  | InList e values _ => is_check_expression_allowed e && all values
  | FunctionCall name args _ => negb (is_aggregate_name name) && all args
  | BinaryOpE l _ r => is_check_expression_allowed l && is_check_expression_allowed r
  | UnaryOpE _ e => is_check_expression_allowed e
  | Case when_then else_ =>
      (fix all_pairs (ps : list (expr Q * expr Q)) : bool :=
         match ps with
         | [] => true
         | (w, t) :: ps => is_check_expression_allowed w && is_check_expression_allowed t && all_pairs ps
         end) when_then &&
      match else_ with Some e => is_check_expression_allowed e | None => true end
  | _ => true
  end.
End check.
