(* ===== verification/Evaluator.v ===== *)
(** * Expression evaluation

    [SelectExpressionEvaluator] (src/executor/select_expression_evaluator.cc).  An
    evaluation runs on the frames of the database's correlation context, on the
    string behind [error_msg] and on what the callbacks run on, the [world] (the
    database itself, in the executors); it may throw, and an exception leaves all three
    as they were when it was thrown.  The three subquery callbacks are members of the
    evaluator, so they are fields of its record. *)

From Stdlib Require Import ZArith Lia Ascii SpecFloat.
From S2P Require Import Prelude CppNum Values Rows Expr.

Section state.
Context {W : Type}.

Record St : Type := mkSt {
  frames : list Frame;
  err_msg : string;
  world : W
}.

Definition set_frames (f : list Frame → list Frame) : ST St unit :=
  st_modify (λ s, mkSt (f (frames s)) (err_msg s) (world s)).

(** [if (error_msg) *error_msg = msg]. *)
Definition set_error (has_err : bool) (msg : string) : ST St unit :=
  if has_err then st_modify (λ s, mkSt (frames s) msg (world s)) else mret tt.

(** A callback whose own error string is a local of the caller. *)
Definition on_frames {A} (m : ST (list Frame * W) A) : ST St A := λ s,
  let '((fs, w), r) := m (frames s, world s) in (mkSt fs (err_msg s) w, r).
End state.
Arguments St : clear implicits.

Section evaluator.
Context {Q W : Type}.
Abbreviation St := (St W).

Record FunctionDefinition : Type := mkFunction {
  fd_name : string;
  fd_params : list string;
  fd_body : expr Q
}.

(** [functions_] in the order of its keys. *)
Abbreviation RoutineCatalog := (list (string * FunctionDefinition)).

Record Evaluator : Type := mkEvaluator {
  bindings : list SelectColumnBinding;
  scalar_subquery_fn : option (bool → Q → ST St value);
  in_subquery_fn : option (value → Q → bool → ST (list Frame * W) bool);
  exists_subquery_fn : option (Q → ST (list Frame * W) bool);
  correlation : bool;
  bind_context : option (list value);
  routine_catalog : option RoutineCatalog;
  local_variables : gmap string value;
  today : string
}.

Definition getFunction (catalog : RoutineCatalog) (name : string) : option FunctionDefinition :=
  match list_find (λ d, d.1 = name) catalog with
  | Some (_, (_, d)) => Some d
  | None => (λ p, p.2.2) <$> list_find (λ d, str_lower d.1 = str_lower name) catalog
  end.

(** ** Column references *)

Definition column_ref_to_string (table column : string) : string :=
  if bool_decide (table = "") then column else table +:+ "." +:+ column.

Definition binding_matches (table column : string) (b : SelectColumnBinding) : bool :=
  if bool_decide (table = "") then bool_decide (column_name b = column)
  else
    ((bool_decide (alias b = table) || bool_decide (physical_table b = table)) &&
     bool_decide (column_name b = column)) ||
    bool_decide (column_name b = table +:+ "." +:+ column).

(** The positions of the bindings that match, in order. *)
Fixpoint matches_from (i : nat) (table column : string) (bs : list SelectColumnBinding) : list nat :=
  match bs with
  | [] => []
  | b :: bs =>
      if binding_matches table column b then i :: matches_from (S i) table column bs
      else matches_from (S i) table column bs
  end.

Definition resolve_column_index (bs : list SelectColumnBinding) (table column : string)
    : nat + string :=
  match matches_from 0 table column bs with
  | [] => inr ("Unknown column '" +:+ column_ref_to_string table column +:+ "'")
  | i :: rest =>
      if negb (bool_decide (rest = [])) && bool_decide (table = "")
      then inr ("Ambiguous column '" +:+ column +:+ "'")
      else inl i
  end.

Definition lookup_correlated (ev : Evaluator) (fs : list Frame) (table column : string) : option value :=
  if correlation ev then correlation_lookup fs table column else None.

Definition evaluate_column (ev : Evaluator) (has_err : bool) (row : Row) (table column : string)
    : ST St value :=
  match (if bool_decide (table = "") then local_variables ev !! column else None) with
  | Some v => mret v
  | None =>
      match resolve_column_index (bindings ev) table column with
      | inr err =>
          s ← st_get;
          match lookup_correlated ev (frames s) table column with
          | Some v => mret v
          | None => set_error has_err err;; mret VNull
          end
      | inl idx =>
          if (idx <? get_column_count row)%nat then st_lift (get_value row idx) else mret VNull
      end
  end.

(** ** Predicates with subqueries and lists *)

(** Three-valued IN; [None] is UNKNOWN. *)
Fixpoint match_in_values (lhs : value) (saw_null : bool) (values : list value) : option bool :=
  match values with
  | [] => if saw_null then None else Some false
  | c :: values =>
      if is_null c then match_in_values lhs true values
      else if value_eq c lhs then Some true
      else match_in_values lhs saw_null values
  end.
Definition match_in_list (lhs : value) (values : list value) : option bool :=
  if is_null lhs then None else match_in_values lhs false values.

(** Runs a subquery with the current row pushed as the innermost frame. *)
Definition with_frame {A} (ev : Evaluator) (row : Row) (m : ST St A) : ST St A :=
  if correlation ev then
    set_frames (λ fs, pushFrame fs (bindings ev) row);;
    a ← m;
    set_frames popFrame;;
    mret a
  else m.

Definition eval_all (eval : expr Q → ST St value) : list (expr Q) → ST St (list value) :=
  fix go es :=
    match es with
    | [] => mret []
    | e :: es => v ← eval e; vs ← go es; mret (v :: vs)
    end.

(** The arguments of a call; [None] once one has reported an error. *)
Definition eval_args (has_err : bool) (eval : expr Q → ST St value)
    : list (expr Q) → ST St (option (list value)) :=
  fix go es :=
    match es with
    | [] => mret (Some [])
    | e :: es =>
        v ← eval e;
        s ← st_get;
        if has_err && negb (bool_decide (err_msg s = "")) then mret None
        else vs ← go es; mret (cons v <$> vs)
    end.

Definition evaluate_in_list (eval : expr Q → ST St value) (lhs : expr Q) (values : list (expr Q))
    (is_not : bool) : ST St bool :=
  lv ← eval lhs;
  vs ← eval_all eval values;
  mret (match match_in_list lv vs with
        | None => false
        | Some matched => if is_not then negb matched else matched
        end).

Definition evaluate_in_subquery (ev : Evaluator) (row : Row) (eval : expr Q → ST St value)
    (lhs : expr Q) (sub : Q) (is_not : bool) : ST St bool :=
  lv ← eval lhs;
  match in_subquery_fn ev with
  | None => mret false
  | Some f => with_frame ev row (on_frames (f lv sub is_not))
  end.

Definition evaluate_exists_predicate (ev : Evaluator) (row : Row) (sub : Q) (is_not : bool) : ST St bool :=
  match exists_subquery_fn ev with
  | None => mret false
  | Some f => b ← with_frame ev row (on_frames (f sub)); mret (if is_not then negb b else b)
  end.

(** ** Operators *)

Definition i64_rem (x y : Z) : res Z :=
  if (y =? 0) || ((x =? - 2 ^ 63) && (y =? -1)) then UB else Ok (Z.rem x y).

Definition binary_op (op : BinaryOp) (l r : value) : res value :=
  match op with
  | PLUS => value_add l r
  | MINUS => value_sub l r
  | MUL => value_mul l r
  | DIV => value_div l r
  | MOD => match l, r with VInt x, VInt y => VInt <$> i64_rem x y | _, _ => Ok VNull end
  | _ => Ok VNull
  end.

Definition unary_op (op : UnaryOp) (v : value) : res value :=
  match op with
  | NOT => if is_null v then Ok VNull else (λ b, VBool (negb b)) <$> as_bool v
  | NEG =>
      match v with
      | VInt z => VInt <$> s_checked 64 (- z)
      | VFloat d => Ok (VFloat (SFopp d))
      | _ => Ok VNull
      end
  end.

Definition cast_value (has_err : bool) (v : value) (target : DataType) : ST St value :=
  if is_null v then mret VNull
  else match string_to_value (to_string v) target with
  | Throw e => set_error has_err (what e);; mret VNull
  | r => st_lift r
  end.

Definition is_aggregate_call (name : string) : bool :=
  bool_decide (name ∈ ["count"; "sum"; "avg"; "min"; "max"]%string).

Definition call_builtin (today : string) (has_err : bool) (name : string) (args : list value) : ST St value :=
  let '(v, err) := evaluate_builtin today name args in
  match err with Some msg => set_error has_err msg;; mret v | None => mret v end.

(** The evaluator a user-defined function's body runs in. *)
Definition body_evaluator (catalog : RoutineCatalog) (params : list string) (args : list value)
    (today : string) : Evaluator :=
  mkEvaluator [] None None None false None (Some catalog)
    (foldl (λ m p, <[p.1 := p.2]> m) ∅ (zip params args)) today.

Definition find_udf (ev : Evaluator) (name : string) : option (RoutineCatalog * FunctionDefinition) :=
  catalog ← routine_catalog ev;
  match getFunction catalog (str_lower name) with
  | Some d => Some (catalog, d)
  | None => pair catalog <$> getFunction catalog name
  end.

(** ** Evaluation

    Recursion follows the expression, except into the body of a user-defined
    function, which [call] runs. *)
Definition evaluate_with (call : RoutineCatalog → FunctionDefinition → list value → bool → ST St value)
    (ev : Evaluator) (row : Row) : bool → expr Q → ST St value :=
  fix eval (has_err : bool) (e : expr Q) {struct e} : ST St value :=
    match e with
    | Literal v => mret v
    | Subquery q =>
        match scalar_subquery_fn ev with
        | None => set_error has_err "Subquery evaluation not available";; mret VNull
        | Some f => with_frame ev row (f has_err q)
        end
    | InList l vs is_not => b ← evaluate_in_list (eval false) l vs is_not; mret (VBool b)
    | InSubquery l q is_not => b ← evaluate_in_subquery ev row (eval false) l q is_not; mret (VBool b)
    | Exists q is_not => b ← evaluate_exists_predicate ev row q is_not; mret (VBool b)
    | Parameter_ i =>
        match bind_context ev with
        | None => set_error has_err "Bind parameter used without EXECUTE args";; mret VNull
        | Some values =>
            match bind_get_value values i with
            | Throw x => set_error has_err (what x);; mret VNull
            | r => st_lift r
            end
        end
    | ColumnRef t c => evaluate_column ev has_err row t c
    | Identifier n => evaluate_column ev has_err row "" n
    | BinaryOpE l op r =>
        lv ← eval has_err l; rv ← eval has_err r; st_lift (binary_op op lv rv)
    | UnaryOpE op e => v ← eval has_err e; st_lift (unary_op op v)
    | Cast e target => v ← eval has_err e; cast_value has_err v target
    | FunctionCall name args window =>
        match window with
        | Some _ => mret VNull
        | None =>
            if is_aggregate_call (str_lower name) then
              set_error has_err "Aggregate functions require GROUP BY or grouping context";; mret VNull
            else
              values ← eval_args has_err (eval has_err) args;
              match values with
              | None => mret VNull
              | Some values =>
                  if hasFunction (today ev) (str_lower name)
                  then call_builtin (today ev) has_err (str_lower name) values
                  else match find_udf ev name with
                  | Some (catalog, udf) =>
                      if negb (length values =? length (fd_params udf))%nat then
                        set_error has_err ("Wrong number of arguments for function " +:+ fd_name udf);;
                        mret VNull
                      else call catalog udf values has_err
                  | None => set_error has_err ("Unknown function: " +:+ str_lower name);; mret VNull
                  end
              end
        end
    | Case _ _ => mret VNull
    end.

(** [depth] bounds how deep the calls of user-defined functions nest: beyond it
    the stack is exhausted. *)
Fixpoint evaluate_expression (depth : nat) (ev : Evaluator) (row : Row) : bool → expr Q → ST St value :=
  evaluate_with (λ catalog udf values has_err,
    match depth with
    | O => st_lift UB
    | S depth =>
        evaluate_expression depth (body_evaluator catalog (fd_params udf) values (today ev))
          empty_row has_err (fd_body udf)
    end) ev row.

Definition compare (op : BinaryOp) (l r : value) : option bool :=
  match op with
  | EQ => Some (value_eq l r)
  | NE => Some (value_ne l r)
  | LT => Some (value_lt l r)
  | LE => Some (value_le l r)
  | GT => Some (value_gt l r)
  | GE => Some (value_ge l r)
  | _ => None
  end.

(** WHERE, ON and HAVING; the null pointer is handled by the caller below. *)
Fixpoint condition_holds (depth : nat) (ev : Evaluator) (row : Row) (c : expr Q) : ST St bool :=
  let eval := evaluate_expression depth ev row false in
  match c with
  | InList l vs is_not => evaluate_in_list eval l vs is_not
  | InSubquery l q is_not => evaluate_in_subquery ev row eval l q is_not
  | Exists q is_not => evaluate_exists_predicate ev row q is_not
  | BinaryOpE l op r =>
      lv ← eval l; rv ← eval r;
      match op with
      | AND => a ← condition_holds depth ev row l;
               if (a : bool) then condition_holds depth ev row r else mret false
      | OR => a ← condition_holds depth ev row l;
              if (a : bool) then mret true else condition_holds depth ev row r
      | _ => mret (default true (compare op lv rv))
      end
  | UnaryOpE NOT e => b ← condition_holds depth ev row e; mret (negb b)
  | _ => mret true
  end.

Definition evaluate_condition (depth : nat) (ev : Evaluator) (row : Row) (c : option (expr Q)) : ST St bool :=
  match c with None => mret true | Some c => condition_holds depth ev row c end.

(** ** Validation: every column reference that can be reached resolves *)

Definition first_error (check : expr Q → option string) : list (expr Q) → option string :=
  fix go es :=
    match es with
    | [] => None
    | e :: es => match check e with Some msg => Some msg | None => go es end
    end.

Definition first_pair_error (check : expr Q → option string) : list (expr Q * expr Q) → option string :=
  fix go ps :=
    match ps with
    | [] => None
    | (w, t) :: ps =>
        match check w with
        | Some msg => Some msg
        | None => match check t with Some msg => Some msg | None => go ps end
        end
    end.

Fixpoint validate_inner (ev : Evaluator) (fs : list Frame) (e : expr Q) : option string :=
  match e with
  | ColumnRef t c =>
      match resolve_column_index (bindings ev) t c with
      | inl _ => None
      | inr err => match lookup_correlated ev fs t c with Some _ => None | None => Some err end
      end
  | BinaryOpE l _ r =>
      match validate_inner ev fs l with Some msg => Some msg | None => validate_inner ev fs r end
  | UnaryOpE _ e => validate_inner ev fs e
  | InSubquery l _ _ => validate_inner ev fs l
  | InList l vs _ =>
      match validate_inner ev fs l with
      | Some msg => Some msg
      | None => first_error (validate_inner ev fs) vs
      end
  | FunctionCall _ args _ => first_error (validate_inner ev fs) args
  | Cast e _ => validate_inner ev fs e
  | Case pairs els =>
      match first_pair_error (validate_inner ev fs) pairs with
      | Some msg => Some msg
      | None => match els with Some e => validate_inner ev fs e | None => None end
      end
  | _ => None
  end.

(** ** CHECK conditions *)

Inductive TriBool : Type := TFalse | TTrue | TUnknown.
#[global] Instance TriBool_eq_dec : EqDecision TriBool.
Proof. solve_decision. Defined.

Definition tri_of (b : bool) : TriBool := if b then TTrue else TFalse.

Fixpoint check_tri (depth : nat) (ev : Evaluator) (row : Row) (c : expr Q) : ST St TriBool :=
  let eval := evaluate_expression depth ev row false in
  match c with
  | BinaryOpE l AND r =>
      a ← check_tri depth ev row l;
      match a with
      | TFalse => mret TFalse
      | _ =>
          b ← check_tri depth ev row r;
          mret (match b with
                | TFalse => TFalse
                | _ => if bool_decide (a = TUnknown) || bool_decide (b = TUnknown) then TUnknown else TTrue
                end)
      end
  | BinaryOpE l OR r =>
      a ← check_tri depth ev row l;
      match a with
      | TTrue => mret TTrue
      | _ =>
          b ← check_tri depth ev row r;
          mret (match b with
                | TTrue => TTrue
                | _ => if bool_decide (a = TUnknown) || bool_decide (b = TUnknown) then TUnknown else TFalse
                end)
      end
  | BinaryOpE l op r =>
      lv ← eval l; rv ← eval r;
      if is_null lv || is_null rv then mret TUnknown
      else mret (match compare op lv rv with Some b => tri_of b | None => TTrue end)
  | UnaryOpE NOT e =>
      b ← check_tri depth ev row e;
      mret (match b with TUnknown => TUnknown | TTrue => TFalse | TFalse => TTrue end)
  | InList l vs is_not => b ← evaluate_in_list eval l vs is_not; mret (tri_of b)
  | InSubquery l q is_not => b ← evaluate_in_subquery ev row eval l q is_not; mret (tri_of b)
  | _ => mret TTrue
  end.

Definition evaluate_check_condition (depth : nat) (ev : Evaluator) (row : Row) (c : option (expr Q))
    : ST St bool :=
  match c with
  | None => mret true
  | Some c => t ← check_tri depth ev row c; mret (negb (bool_decide (t = TFalse)))
  end.

(** ** Induction over expressions *)

Lemma expr_nested_ind (P : expr Q → Prop) :
  (∀ v, P (Literal v)) → (∀ n, P (Identifier n)) → (∀ t c, P (ColumnRef t c)) →
  (∀ i, P (Parameter_ i)) → (∀ l op r, P l → P r → P (BinaryOpE l op r)) →
  (∀ op e, P e → P (UnaryOpE op e)) →
  (∀ n args w, Forall P args → P (FunctionCall n args w)) →
  (∀ e t, P e → P (Cast e t)) → (∀ ps els, P (Case ps els)) →
  (∀ l vs b, P l → Forall P vs → P (InList l vs b)) →
  (∀ l q b, P l → P (InSubquery l q b)) → (∀ q b, P (Exists q b)) → (∀ q, P (Subquery q)) →
  ∀ e, P e.
Proof.
  intros Hlit Hid Hcol Hpar Hbin Hun Hfun Hcast Hcase Hin Hsub Hex Hq.
  fix IH 1. intros [].
  - apply Hlit.
  - apply Hid.
  - apply Hcol.
  - apply Hpar.
  - apply Hbin; apply IH.
  - apply Hun; apply IH.
  - apply Hfun. induction args; constructor; [apply IH|assumption].
  - apply Hcast; apply IH.
  - apply Hcase.
  - apply Hin; [apply IH|]. induction values; constructor; [apply IH|assumption].
  - apply Hsub; apply IH.
  - apply Hex.
  - apply Hq.
Qed.

(** ** What every evaluation respects

    A predicate on computations that the steps of the evaluator respect holds of whole
    evaluations once it holds of the callbacks. *)

Section respects.
Context (P : ∀ A, ST St A → Prop).

Record respected : Prop := {
  p_ret A (a : A) : P A (mret a);
  p_lift A (r : res A) : P A (st_lift r);
  p_get : P St st_get;
  p_set_error b msg : P unit (set_error b msg);
  p_bind A B (m : ST St A) (f : A → ST St B) : P A m → (∀ a, P B (f a)) → P B (m ≫= f);
  p_with_frame A ev row (m : ST St A) : P A m → P A (with_frame ev row m)
}.
(** The callbacks of an evaluator respect it. *)
Definition callbacks_respect (ev : Evaluator) : Prop :=
  (∀ f b q, scalar_subquery_fn ev = Some f → P value (f b q)) ∧
  (∀ f v q b, in_subquery_fn ev = Some f → P bool (on_frames (f v q b))) ∧
  (∀ f q, exists_subquery_fn ev = Some f → P bool (on_frames (f q))).

Context (HP : respected).
#[local] Hint Resolve p_ret p_lift p_get p_set_error : core.

Lemma respects_all eval es : Forall (λ e, P _ (eval e)) es → P _ (eval_all eval es).
Proof. induction 1 as [|e es He _ IH]; cbn [eval_all]; [auto|]. repeat (apply p_bind; auto; intros). Qed.

Lemma respects_args b eval es : Forall (λ e, P _ (eval e)) es → P _ (eval_args b eval es).
Proof.
  induction 1 as [|e es He _ IH]; cbn [eval_args]; [auto|]. repeat (apply p_bind; auto; intros).
  destruct (_ && _); [auto|]. apply p_bind; auto.
Qed.

Lemma respects_in_list eval l vs b :
  P _ (eval l) → Forall (λ e, P _ (eval e)) vs → P _ (evaluate_in_list eval l vs b).
Proof. intros Hl Hvs. repeat (apply p_bind; auto using respects_all; intros). Qed.

Lemma respects_error_null b msg : P _ (set_error b msg;; mret VNull).
Proof. apply p_bind; auto. Qed.
#[local] Hint Resolve respects_error_null : core.

Lemma respects_column ev b row t c : P _ (evaluate_column ev b row t c).
Proof.
  unfold evaluate_column. destruct (if bool_decide _ then _ else _); [auto|].
  destruct (resolve_column_index _ _ _); [case_match; auto|].
  apply p_bind; auto. intros ?. destruct (lookup_correlated _ _ _ _); auto.
Qed.

Section callbacks.
Context (ev : Evaluator) (Hev : callbacks_respect ev).

Lemma respects_in_subquery row eval l q b : P _ (eval l) → P _ (evaluate_in_subquery ev row eval l q b).
Proof.
  intros Hl. apply p_bind; [done|done|]. intros v. destruct (in_subquery_fn ev) as [f|] eqn:E; [|auto].
  apply p_with_frame; [done|]. destruct Hev as (_ & H & _). by apply H.
Qed.

Lemma respects_exists row q b : P _ (evaluate_exists_predicate ev row q b).
Proof.
  unfold evaluate_exists_predicate. destruct (exists_subquery_fn ev) as [f|] eqn:E; [|auto].
  apply p_bind; auto. apply p_with_frame; [done|]. destruct Hev as (_ & _ & H). by apply H.
Qed.

Lemma respects_evaluate_with call row :
  (∀ c u vs b, P _ (call c u vs b)) → ∀ e b, P _ (evaluate_with call ev row b e).
Proof.
  intros Hcall e.
  induction e as [v|n|t c|i|l op r IHl IHr|op e IHe|n args w IHa|e t IHe|ps els|l vs nt IHl IHv|l q nt IHl|q nt|q]
    using expr_nested_ind; intros b; cbn [evaluate_with]; auto using respects_column.
  - destruct (bind_context ev); [|auto]. unfold bind_get_value. destruct (_ !! _); auto.
  - repeat (apply p_bind; auto; intros).
  - apply p_bind; auto.
  - destruct w; [auto|]. destruct (is_aggregate_call _); [auto|].
    apply p_bind; [done|apply respects_args; eapply Forall_impl; [exact IHa|]; intros e He; apply He|].
    intros [values|]; [|auto]. destruct (hasFunction _ _).
    + unfold call_builtin. destruct (evaluate_builtin _ _ _) as [v [msg|]]; [|auto]. apply p_bind; auto.
    + destruct (find_udf ev n) as [[catalog udf]|]; [|auto]. destruct (negb _); auto.
  - apply p_bind; auto. intros v. unfold cast_value. destruct (is_null v); [auto|].
    destruct (string_to_value _ _); auto.
  - apply p_bind; auto. apply respects_in_list; [apply IHl|]. eapply Forall_impl; [exact IHv|]. intros e He. apply He.
  - apply p_bind; auto using respects_in_subquery.
  - apply p_bind; auto using respects_exists.
  - destruct (scalar_subquery_fn ev) as [f|] eqn:E; [|auto].
    apply p_with_frame; [done|]. destruct Hev as (H & _). by apply H.
Qed.
End callbacks.

Lemma respects_expression depth : ∀ ev row b e,
  callbacks_respect ev → P _ (evaluate_expression depth ev row b e).
Proof.
  induction depth as [|depth IH]; intros ev row b e Hev; cbn [evaluate_expression];
    apply respects_evaluate_with; [done| |done|]; intros catalog udf values b'; [auto|]. by apply IH.
Qed.

Lemma respects_condition depth ev row c :
  callbacks_respect ev → P _ (evaluate_condition depth ev row c).
Proof.
  intros Hev. assert (∀ e, P _ (evaluate_expression depth ev row false e)) as Heval
    by (intros; by apply respects_expression).
  destruct c as [c|]; cbn [evaluate_condition]; [|auto].
  induction c as [v|n|t c|i|l op r IHl IHr|op e IHe|n args w IHa|e t IHe|ps els|l vs nt IHl IHv|l q nt IHl|q nt|q]
    using expr_nested_ind; cbn [condition_holds]; auto using respects_in_subquery, respects_exists.
  - apply p_bind; auto. intros lv. apply p_bind; auto. intros rv.
    destruct op; auto; (apply p_bind; auto; intros []; auto).
  - destruct op; [|auto]. apply p_bind; auto.
  - apply respects_in_list; [done|]. apply Forall_forall. intros; apply Heval.
Qed.
End respects.

(** ** Nesting of user-defined functions *)

(** The functions an expression calls. *)
Fixpoint calls (e : expr Q) : list string :=
  match e with
  | BinaryOpE l _ r => calls l ++ calls r
  | UnaryOpE _ e | Cast e _ => calls e
  | FunctionCall name args _ => name :: flat_map calls args
  | InList l vs _ => calls l ++ flat_map calls vs
  | InSubquery l _ _ => calls l
  | _ => []
  end.

Lemma bind_ext {A B} (m m' : ST St A) (f f' : A → ST St B) s :
  m s = m' s → (∀ a s, f a s = f' a s) → (m ≫= f) s = (m' ≫= f') s.
Proof. intros Hm Hf. rewrite !ST_bind_eq, Hm. destruct (m' s) as [s' []]; [apply Hf|done|done]. Qed.

Lemma all_ext (f g : expr Q → ST St value) es s :
  Forall (λ e, ∀ s, f e s = g e s) es → eval_all f es s = eval_all g es s.
Proof.
  intros Hes. revert s. induction Hes as [|e es He _ IH]; intros s; [done|].
  apply bind_ext; [apply He|]. intros v s1. apply bind_ext; [apply IH|done].
Qed.

Lemma args_ext b (f g : expr Q → ST St value) es s :
  Forall (λ e, ∀ s, f e s = g e s) es → eval_args b f es s = eval_args b g es s.
Proof.
  intros Hes. revert s. induction Hes as [|e es He _ IH]; intros s; [done|].
  apply bind_ext; [apply He|]. intros v s1. apply bind_ext; [done|]. intros s2 s3.
  destruct (_ && _); [done|]. apply bind_ext; [apply IH|done].
Qed.

Lemma in_flat_map_calls e es name : e ∈ es → name ∈ calls e → name ∈ flat_map calls es.
Proof.
  intros He Hn. apply list_elem_of_In, in_flat_map. exists e.
  split; by apply list_elem_of_In.
Qed.

Section ext.
Context (call1 call2 : RoutineCatalog → FunctionDefinition → list value → bool → ST St value).
Context (ev : Evaluator) (row : Row).

(** Evaluation depends on the calls the expression makes only. *)
Definition same_calls (e : expr Q) : Prop :=
  ∀ name catalog udf, name ∈ calls e → find_udf ev name = Some (catalog, udf) →
    ∀ vs b s, call1 catalog udf vs b s = call2 catalog udf vs b s.

Lemma evaluate_with_ext e : same_calls e → ∀ b s,
  evaluate_with call1 ev row b e s = evaluate_with call2 ev row b e s.
Proof.
  assert (∀ es (P : expr Q → Prop), Forall (λ e, same_calls e → P e) es →
    (∀ name catalog udf, name ∈ flat_map calls es → find_udf ev name = Some (catalog, udf) →
      ∀ vs b s, call1 catalog udf vs b s = call2 catalog udf vs b s) → Forall P es) as Hargs.
  { intros es P Hes Hsame. apply Forall_forall. intros x Hx. rewrite Forall_forall in Hes.
    apply Hes; [done|]. intros name catalog udf Hn. apply Hsame. by eapply in_flat_map_calls. }
  induction e as [v|n|t c|i|l op r IHl IHr|op e0 IHe|n args w IHa|e0 t IHe|ps els|l vs nt IHl IHv|l q nt IHl|q nt|q]
    using expr_nested_ind; intros Hsame b s; cbn [evaluate_with]; try done.
  - apply bind_ext; [apply IHl|]; [|intros lv s1; apply bind_ext; [apply IHr|done]];
      intros name ? ? ?; apply Hsame; cbn [calls]; apply elem_of_app; auto.
  - apply bind_ext; [by apply IHe|done].
  - destruct w; [done|]. destruct (is_aggregate_call _); [done|].
    apply bind_ext.
    + apply args_ext. eapply Forall_impl; [apply (Hargs args (λ e, ∀ b s, evaluate_with call1 ev row b e s = evaluate_with call2 ev row b e s)); [exact IHa|]|].
      * intros name ? ? ?. apply Hsame. by right.
      * intros x Hx s1. apply Hx.
    + intros [values|] s1; [|done]. destruct (hasFunction _ _); [done|].
      destruct (find_udf ev n) as [[catalog udf]|] eqn:E; [|done].
      destruct (negb _); [done|]. eapply Hsame; [left|exact E].
  - apply bind_ext; [by apply IHe|done].
  - apply bind_ext; [|done]. apply bind_ext.
    + apply IHl. intros name ? ? ?. apply Hsame. cbn [calls]. apply elem_of_app. by left.
    + intros lv s1. apply bind_ext; [|done]. apply all_ext.
      eapply Forall_impl; [apply (Hargs vs (λ e, ∀ b s, evaluate_with call1 ev row b e s = evaluate_with call2 ev row b e s)); [exact IHv|]|].
      * intros name ? ? ?. apply Hsame. cbn [calls]. apply elem_of_app. by right.
      * intros x Hx s2. apply Hx.
  - apply bind_ext; [|done]. apply bind_ext; [by apply IHl|done].
Qed.
End ext.

(** A ranking under which no function reaches itself. *)
Definition ranked (rank : FunctionDefinition → nat) (catalog : RoutineCatalog) : Prop :=
  ∀ udf name udf', udf ∈ catalog.*2 → name ∈ calls (fd_body udf) →
    find_udf (body_evaluator catalog [] [] "") name = Some (catalog, udf') →
    (rank udf' < rank udf)%nat.

Lemma find_udf_catalog ev catalog catalog' udf name :
  routine_catalog ev = Some catalog → find_udf ev name = Some (catalog', udf) →
  catalog' = catalog ∧ udf ∈ catalog.*2.
Proof.
  intros Hc. unfold find_udf. rewrite Hc. cbn [mbind option_bind].
  assert (∀ n d, getFunction catalog n = Some d → d ∈ catalog.*2) as Hin.
  { intros n d. unfold getFunction. destruct (list_find _ catalog) as [[i [k d']]|] eqn:E1.
    - intros [= <-]. apply list_find_Some in E1 as (Hi & _). apply list_elem_of_lookup. exists i.
      by rewrite list_lookup_fmap, Hi.
    - destruct (list_find (λ d, str_lower d.1 = _) catalog) as [[i [k d']]|] eqn:E2; [|done].
      intros [= <-]. apply list_find_Some in E2 as (Hi & _). apply list_elem_of_lookup. exists i.
      by rewrite list_lookup_fmap, Hi. }
  destruct (getFunction catalog (str_lower name)) as [d|] eqn:E1.
  - intros [= <- <-]. eauto.
  - destruct (getFunction catalog name) as [d|] eqn:E2; [|done]. intros [= <- <-]. eauto.
Qed.

Lemma find_udf_same ev ev' name :
  routine_catalog ev = routine_catalog ev' → find_udf ev name = find_udf ev' name.
Proof. unfold find_udf. by intros ->. Qed.

Lemma depth_enough rank catalog n : ranked rank catalog → ∀ ev row e d d' b s,
  routine_catalog ev = Some catalog →
  (∀ name udf, name ∈ calls e → find_udf ev name = Some (catalog, udf) → (rank udf < n)%nat) →
  (n ≤ d)%nat → (n ≤ d')%nat →
  evaluate_expression d ev row b e s = evaluate_expression d' ev row b e s.
Proof.
  intros Hranked. induction n as [|n IH]; intros ev row e d d' b s Hcat Hcalls Hd Hd'.
  all: destruct d as [|d], d' as [|d']; cbn [evaluate_expression]; apply evaluate_with_ext;
    intros name catalog' udf Hname Hfind vs b' s';
    destruct (find_udf_catalog _ _ _ _ _ Hcat Hfind) as [-> Hudf];
    pose proof (Hcalls name udf Hname Hfind) as Hrank; try lia.
  apply IH; [done| |lia|lia].
  intros name' udf' Hname' Hfind'. pose proof (Hranked udf name' udf' Hudf Hname') as Hlt.
  rewrite (find_udf_same _ (body_evaluator catalog (fd_params udf) vs (today ev))) in Hlt by done.
  specialize (Hlt Hfind'). lia.
Qed.

(** ** WHERE and CHECK *)

(** Kleene's connectives. *)
Definition tri_and (a b : TriBool) : TriBool :=
  match a, b with
  | TFalse, _ | _, TFalse => TFalse
  | TTrue, TTrue => TTrue
  | _, _ => TUnknown
  end.
Definition tri_not (a : TriBool) : TriBool :=
  match a with TTrue => TFalse | TFalse => TTrue | TUnknown => TUnknown end.
Definition tri_or (a b : TriBool) : TriBool := tri_not (tri_and (tri_not a) (tri_not b)).

Section logic.
Context (depth : nat) (ev : Evaluator) (row : Row) (s : St) (val : expr Q → value).

(** The operand evaluates to [val e] and changes nothing. *)
Definition quiet (e : expr Q) : Prop :=
  evaluate_expression depth ev row false e s = (s, Ok (val e)).

(** A condition built by AND, OR and NOT from comparisons of quiet operands. *)
Fixpoint logical (c : expr Q) : Prop :=
  match c with
  | BinaryOpE l op r =>
      match op with
      | AND | OR => logical l ∧ logical r
      | PLUS | MINUS | MUL | DIV | MOD => False
      | _ => quiet l ∧ quiet r
      end
  | UnaryOpE NOT e => logical e
  | _ => False
  end.

(** Its value in three-valued logic. *)
Fixpoint kleene (c : expr Q) : TriBool :=
  match c with
  | BinaryOpE l AND r => tri_and (kleene l) (kleene r)
  | BinaryOpE l OR r => tri_or (kleene l) (kleene r)
  | BinaryOpE l op r =>
      if is_null (val l) || is_null (val r) then TUnknown
      else match compare op (val l) (val r) with Some b => tri_of b | None => TTrue end
  | UnaryOpE NOT e => tri_not (kleene e)
  | _ => TTrue
  end.

Lemma bind_quiet {A B} (m : ST St A) (f : A → ST St B) a : m s = (s, Ok a) → (m ≫= f) s = f a s.
Proof. intros Hm. by rewrite ST_bind_eq, Hm. Qed.

Lemma check_tri_kleene c : logical c → check_tri depth ev row c s = (s, Ok (kleene c)).
Proof.
  induction c as [| | | |l IHl op r IHr|op e IHe| | | | | | |]; try done; cbn [logical].
  - destruct op; try done; intros [Hl Hr]; cbn [check_tri kleene].
    7,8: rewrite (bind_quiet _ _ _ (IHl Hl)); specialize (IHr Hr);
         destruct (kleene l); try done; rewrite (bind_quiet _ _ _ IHr); by destruct (kleene r).
    all: rewrite (bind_quiet _ _ _ Hl), (bind_quiet _ _ _ Hr); by destruct (is_null _ || is_null _).
  - destruct op; [|done]. intros He. cbn [check_tri kleene]. by rewrite (bind_quiet _ _ _ (IHe He)).
Qed.

(** Taken as an expression such a condition is NULL. *)
Lemma logical_quiet c : logical c → evaluate_expression depth ev row false c s = (s, Ok VNull).
Proof.
  assert (∀ l op r lv rv, evaluate_expression depth ev row false l s = (s, Ok lv) →
    evaluate_expression depth ev row false r s = (s, Ok rv) →
    evaluate_expression depth ev row false (BinaryOpE l op r) s = (s, binary_op op lv rv)) as Hbin.
  { intros l op r lv rv Hl Hr. destruct depth; cbn [evaluate_expression evaluate_with] in *.
    all: by rewrite (bind_quiet _ _ _ Hl), (bind_quiet _ _ _ Hr). }
  assert (∀ e, evaluate_expression depth ev row false e s = (s, Ok VNull) →
    evaluate_expression depth ev row false (UnaryOpE NOT e) s = (s, Ok VNull)) as Hun.
  { intros e He. destruct depth; cbn [evaluate_expression evaluate_with] in *; by rewrite (bind_quiet _ _ _ He). }
  induction c as [| | | |l IHl op r IHr|op e IHe| | | | | | |]; try done; cbn [logical].
  - destruct op; try done; intros [Hl Hr].
    7,8: by rewrite (Hbin _ _ _ _ _ (IHl Hl) (IHr Hr)).
    all: by rewrite (Hbin _ _ _ _ _ Hl Hr).
  - destruct op; [|done]. intros He. by apply Hun, IHe.
Qed.

(** Every operand that is compared is non-null. *)
Fixpoint no_nulls (c : expr Q) : Prop :=
  match c with
  | BinaryOpE l op r =>
      match op with
      | AND | OR => no_nulls l ∧ no_nulls r
      | _ => is_null (val l) = false ∧ is_null (val r) = false
      end
  | UnaryOpE _ e => no_nulls e
  | _ => True
  end.

Lemma condition_kleene c : logical c → no_nulls c →
  ∃ b, kleene c = tri_of b ∧ condition_holds depth ev row c s = (s, Ok b).
Proof.
  induction c as [| | | |l IHl op r IHr|op e IHe| | | | | | |]; try done; cbn [logical no_nulls].
  - destruct op; try done; intros [Hl Hr] [Nl Nr]; cbn [condition_holds kleene].
    7,8: destruct (IHl Hl Nl) as (a & -> & Ha), (IHr Hr Nr) as (b & -> & Hb);
         rewrite (bind_quiet _ _ _ (logical_quiet _ Hl)), (bind_quiet _ _ _ (logical_quiet _ Hr));
         rewrite (bind_quiet _ _ _ Ha); destruct a; rewrite ?Hb; destruct b; ((by exists true) || (by exists false)).
    all: rewrite (bind_quiet _ _ _ Hl), (bind_quiet _ _ _ Hr), Nl, Nr; eauto.
  - destruct op; [|done]. intros He Ne. destruct (IHe He Ne) as (b & Hk & Hb).
    exists (negb b). cbn [condition_holds kleene]. rewrite Hk, (bind_quiet _ _ _ Hb). by destruct b.
Qed.
End logic.

(** ** Properties *)

(** C22. CHECK conditions built by AND, OR and NOT from comparisons, whose operands have
    values and leave the state alone, follow three-valued logic: a row passes exactly when
    the value of the condition in Kleene's logic is not FALSE. (IN and bare boolean columns
    are outside: the code gives them two values only.) *)
Theorem check_is_three_valued depth ev row s val c :
  logical depth ev row s val c →
  evaluate_check_condition depth ev row (Some c) s =
    (s, Ok (negb (bool_decide (kleene val c = TFalse)))).
Proof.
  intros Hc. unfold evaluate_check_condition.
  by rewrite (bind_quiet _ _ _ _ (check_tri_kleene _ _ _ _ _ _ Hc)).
Qed.

(** Where no operand is NULL, WHERE and CHECK agree, and both compute the
    Boolean value of the condition. *)
Theorem where_agrees_with_check depth ev row s val c :
  logical depth ev row s val c → no_nulls val c →
  ∃ b, kleene val c = tri_of b ∧
    evaluate_condition depth ev row (Some c) s = (s, Ok b) ∧
    evaluate_check_condition depth ev row (Some c) s = (s, Ok b).
Proof.
  intros Hc Hn. destruct (condition_kleene _ _ _ _ _ _ Hc Hn) as (b & Hk & Hb).
  exists b. split_and!; [done|done|]. unfold evaluate_check_condition.
  rewrite (bind_quiet _ _ _ _ (check_tri_kleene _ _ _ _ _ _ Hc)), Hk. by destruct b.
Qed.

(** How deep user-defined functions nest is bounded by any ranking of the
    catalog in which a function calls functions of lower rank only: above the rank
    of the functions an expression calls, the depth does not change its value. *)
Theorem functions_terminate rank catalog n ev row e d d' b s :
  ranked rank catalog → routine_catalog ev = Some catalog →
  (∀ name udf, name ∈ calls e → find_udf ev name = Some (catalog, udf) → (rank udf < n)%nat) →
  (n ≤ d)%nat → (n ≤ d')%nat →
  evaluate_expression d ev row b e s = evaluate_expression d' ev row b e s.
Proof. intros. by eapply depth_enough. Qed.
End evaluator.
Arguments FunctionDefinition : clear implicits.
Arguments Evaluator : clear implicits.

(** ** Runs *)

(** A table [t(x, y)], evaluated with the correlation context attached. *)
Definition t_bindings : list SelectColumnBinding :=
  [mkBinding "t" "t" "x"; mkBinding "t" "t" "y"].
Definition t_evaluator (scalar : option (bool → unit → ST (St unit) value)) : Evaluator unit unit :=
  mkEvaluator t_bindings scalar None None true None None ∅ "2024-01-01".
Definition start : St unit := mkSt [] "" tt.
Definition row_xy (x y : value) : Row := row_of_values [x; y].

(** [x < 5 AND NOT (y = 2)] *)
Definition sample_condition : expr unit :=
  BinaryOpE (BinaryOpE (ColumnRef "" "x") LT (Literal (VInt 5))) AND
            (UnaryOpE NOT (BinaryOpE (ColumnRef "" "y") EQ (Literal (VInt 2)))).
Definition sample_value (x y : value) (e : expr unit) : value :=
  match e with
  | Literal v => v
  | ColumnRef _ c => if bool_decide (c = "x"%string) then x else y
  | _ => VNull
  end.

Lemma check_is_three_valued_witness :
  evaluate_check_condition 0 (t_evaluator None) (row_xy VNull (VInt 3)) (Some sample_condition) start =
    (start, Ok true).
Proof.
  rewrite (check_is_three_valued _ _ _ _ (sample_value VNull (VInt 3))); [reflexivity|].
  split; split; vm_compute; reflexivity.
Defined.

Lemma where_agrees_with_check_witness :
  ∃ b, evaluate_condition 0 (t_evaluator None) (row_xy (VInt 1) (VInt 3)) (Some sample_condition) start =
    (start, Ok b).
Proof.
  destruct (where_agrees_with_check 0 (t_evaluator None) (row_xy (VInt 1) (VInt 3)) start
    (sample_value (VInt 1) (VInt 3)) sample_condition) as (b & _ & Hb & _).
  - split; split; vm_compute; reflexivity.
  - split; split; reflexivity.
  - by exists b.
Defined.

(** A catalog with [inc(n) = n + 1] and [twice(n) = inc(inc(n))]. *)
Definition inc_fn : FunctionDefinition unit :=
  mkFunction "inc" ["n"%string] (BinaryOpE (ColumnRef "" "n") PLUS (Literal (VInt 1))).
Definition twice_fn : FunctionDefinition unit :=
  mkFunction "twice" ["n"%string]
    (FunctionCall "inc" [FunctionCall "inc" [ColumnRef "" "n"] None] None).
Definition sample_catalog : list (string * FunctionDefinition unit) :=
  [("inc", inc_fn); ("twice", twice_fn)]%string.
Definition udf_evaluator : Evaluator unit unit :=
  mkEvaluator [] None None None false None (Some sample_catalog) ∅ "2024-01-01".

Definition sample_rank (d : FunctionDefinition unit) : nat := length (calls (fd_body d)).

Lemma sample_ranked : ranked (W := unit) sample_rank sample_catalog.
Proof.
  intros udf name udf' Hudf Hname Hfind. vm_compute in Hudf.
  apply elem_of_cons in Hudf as [->|Hudf]; [by apply not_elem_of_nil in Hname|].
  apply list_elem_of_singleton in Hudf as ->.
  assert (name = "inc"%string) as ->.
  { cbn in Hname. apply elem_of_cons in Hname as [->|Hname]; [done|].
    by apply list_elem_of_singleton in Hname. }
  vm_compute in Hfind. injection Hfind as <-. vm_compute. lia.
Qed.

Lemma functions_terminate_witness :
  evaluate_expression 3 udf_evaluator empty_row true (FunctionCall "TWICE" [Literal (VInt 40)] None) start =
  evaluate_expression 100 udf_evaluator empty_row true (FunctionCall "TWICE" [Literal (VInt 40)] None) start.
Proof.
  apply (functions_terminate sample_rank sample_catalog 3); [apply sample_ranked|reflexivity| |lia|lia].
  intros name udf Hname Hfind. apply list_elem_of_singleton in Hname as ->.
  vm_compute in Hfind. injection Hfind as <-. vm_compute. lia.
Defined.

Example twice_40 :
  (evaluate_expression 3 udf_evaluator empty_row true (FunctionCall "TWICE" [Literal (VInt 40)] None) start).2 =
    Ok (VInt 42).
Proof. vm_compute. reflexivity. Qed.

(** ** Where the code departs from its contracts *)

(** An exception thrown inside a subquery leaves its frame on the correlation
    context: the next statement, over a table without the column, gets a value of
    the earlier statement's row instead of an unknown-column error. *)
Theorem throwing_subquery_leaks_frame :
  let throws := t_evaluator (Some (λ _ _, st_throw (TypeException "Division by zero"))) in
  let next := mkEvaluator (Q := unit) (W := unit) [mkBinding "u" "u" "z"] None None None true None None ∅ "2024-01-01" in
  let '(s, r) := evaluate_expression 0 throws (row_xy (VInt 1) (VInt 2)) false (Subquery ()) start in
  r = Throw (TypeException "Division by zero") ∧
  length (frames s) = 1%nat ∧
  evaluate_expression 0 next (row_of_values [VInt 3]) true (ColumnRef "" "x") s = (s, Ok (VInt 1)) ∧
  (evaluate_expression 0 next (row_of_values [VInt 3]) true (ColumnRef "" "x") start).1 =
    mkSt [] "Unknown column 'x'" tt.
Proof. vm_compute. split_and!; reflexivity. Qed.

(** In WHERE a comparison with NULL is not UNKNOWN: a row whose [x] is NULL
    satisfies [x < 5], which CHECK evaluates to UNKNOWN. *)
Theorem where_selects_null_rows :
  let c := BinaryOpE (ColumnRef "" "x") LT (Literal (VInt 5)) in
  evaluate_condition 0 (t_evaluator None) (row_xy VNull (VInt 2)) (Some c) start = (start, Ok true) ∧
  check_tri 0 (t_evaluator None) (row_xy VNull (VInt 2)) c start = (start, Ok TUnknown).
Proof. vm_compute. split; reflexivity. Qed.

(** [%] is evaluated without a test of the divisor: by zero, and for the
    smallest integer by -1, it is undefined. *)
Theorem modulo_is_undefined depth (ev : Evaluator unit unit) row s (x : Z) :
  (evaluate_expression (Q := unit) depth ev row true
     (BinaryOpE (Literal (VInt x)) MOD (Literal (VInt 0))) s).2 = UB ∧
  (evaluate_expression depth ev row true
     (BinaryOpE (Literal (VInt (- 2 ^ 63))) MOD (Literal (VInt (-1)))) s).2 = UB.
Proof. by destruct depth. Qed.

(** The test that keeps subqueries out of CHECK predicates does not look below
    CAST. *)
Theorem check_allows_subquery_under_cast :
  is_check_expression_allowed (BinaryOpE (Cast (Subquery ()) INT) GT (Literal (VInt 0))) = true ∧
  is_check_expression_allowed (BinaryOpE (Subquery ()) GT (Literal (VInt 0))) = false.
Proof. split; reflexivity. Qed.
