(* ===== verification/Partition.v ===== *)
(** * Partitions and predicates

    Sargable predicates (src/executor/index_predicate.cc), partition metadata and
    routers (src/core/partition.cc) and the pruning request built from a WHERE
    clause (src/executor/partition_prune.cc). *)

From Stdlib Require Import ZArith Lia.
From S2P Require Import Prelude CppNum Values Rows Expr Evaluator.

(** ** Index predicates *)

Inductive IndexCompareOp : Type := Equal | Less | LessEqual | Greater | GreaterEqual.

Record IndexColumnPredicate : Type := mkPred {
  pred_column : string;
  pred_table : string;
  pred_op : IndexCompareOp;
  pred_literal : value;
  pred_has_upper : bool;
  pred_upper_literal : value;
  pred_lower_inclusive : bool;
  pred_upper_inclusive : bool
}.

Section predicates.
Context {Q : Type}.

(** The column and its table qualifier; an empty column for anything else. *)
Definition column_name_of (e : expr Q) : string * string :=
  match e with
  | ColumnRef t c => (c, t)
  | Identifier n => (n, "")
  | _ => ("", "")
  end.

Definition is_literal (e : expr Q) : option value :=
  match e with Literal v => Some v | _ => None end.

Definition new_predicate (col table : string) (lit : value) (op : IndexCompareOp) : IndexColumnPredicate :=
  mkPred col table op lit false VNull true true.

Definition direct_op (op : BinaryOp) : option IndexCompareOp :=
  match op with
  | EQ => Some Equal | LT => Some Less | LE => Some LessEqual
  | GT => Some Greater | GE => Some GreaterEqual | _ => None
  end.
Definition flipped_op (op : BinaryOp) : option IndexCompareOp :=
  match op with
  | EQ => Some Equal | LT => Some Greater | LE => Some GreaterEqual
  | GT => Some Less | GE => Some LessEqual | _ => None
  end.

(** A column on one side and a literal on the other. *)
Definition column_literal (c l : expr Q) : option (string * string * value) :=
  let '(col, table) := column_name_of c in
  if bool_decide (col = "") then None else (λ v, (col, table, v)) <$> is_literal l.

Definition try_comparison (e : expr Q) : option IndexColumnPredicate :=
  match e with
  | BinaryOpE l op r =>
      match column_literal l r with
      | Some (col, table, lit) => new_predicate col table lit <$> direct_op op
      | None =>
          match column_literal r l with
          | Some (col, table, lit) => new_predicate col table lit <$> flipped_op op
          | None => None
          end
      end
  | _ => None
  end.

Fixpoint collect_predicates (e : expr Q) : option (list IndexColumnPredicate) :=
  match e with
  | BinaryOpE l AND r =>
      ls ← collect_predicates l; rs ← collect_predicates r; Some (ls ++ rs)
  | BinaryOpE _ OR _ => None
  | _ => (λ p, [p]) <$> try_comparison e
  end.

Definition extract_index_predicates (e : option (expr Q)) : option (list IndexColumnPredicate) :=
  match e with None => Some [] | Some e => collect_predicates e end.

(** The columns of a simple equi-join: left table and column, right table and column. *)
Definition try_extract_equi_join_columns (on_expr : expr Q)
    : option (string * string * (string * string)) :=
  match on_expr with
  | BinaryOpE l EQ r =>
      let '(lc, lt) := column_name_of l in
      let '(rc, rt) := column_name_of r in
      if bool_decide (lc = "") || bool_decide (rc = "") then None else Some (lt, lc, (rt, rc))
  | _ => None
  end.
End predicates.

(** ** Partition bounds and constraints *)

Inductive PartitionKind : Type := Range | Hash.

Record RangePartitionBound : Type := mkRange { minInclusive : value; maxExclusive : value }.
Record HashPartitionBound : Type := mkHash { modulus : Z; remainder : Z }.
Record PartitionBound : Type := mkBound {
  b_range : option RangePartitionBound;
  b_hash : option HashPartitionBound
}.
Record PartitionDescriptor : Type := mkPartition {
  childTableName : string;
  p_bound : PartitionBound
}.

Inductive PruneOp : Type := PEqual | PLess | PLessEqual | PGreater | PGreaterEqual | PBetween.
Record PartitionPruneConstraint : Type := mkConstraint {
  c_op : PruneOp;
  c_lower : value;
  c_upper : value;
  c_lowerInclusive : bool;
  c_upperInclusive : bool
}.
Abbreviation PartitionPruneRequest := (list PartitionPruneConstraint).

Definition rangesOverlap (a b : RangePartitionBound) : bool :=
  value_lt (minInclusive a) (maxExclusive b) && value_lt (minInclusive b) (maxExclusive a).

Definition rangeContains (b : RangePartitionBound) (key : value) : bool :=
  value_le (minInclusive b) key && value_lt key (maxExclusive b).

Definition rangeIntersectsConstraint (b : RangePartitionBound) (c : PartitionPruneConstraint) : bool :=
  match c_op c with
  | PEqual => rangeContains b (c_lower c)
  | PLess =>
      if negb (c_upperInclusive c) then value_lt (minInclusive b) (c_upper c)
      else value_le (minInclusive b) (c_upper c)
  | PLessEqual => value_le (minInclusive b) (c_upper c)
  | PGreater =>
      if c_lowerInclusive c then value_gt (maxExclusive b) (c_lower c)
      else value_gt (maxExclusive b) (c_lower c) && negb (value_le (maxExclusive b) (c_lower c))
  | PGreaterEqual => value_gt (maxExclusive b) (c_lower c)
  | PBetween =>
      if c_lowerInclusive c && c_upperInclusive c then
        value_le (minInclusive b) (c_upper c) && value_lt (c_lower c) (maxExclusive b)
      else if c_lowerInclusive c && negb (c_upperInclusive c) then
        value_lt (minInclusive b) (c_upper c) && value_lt (c_lower c) (maxExclusive b)
      else if negb (c_lowerInclusive c) && c_upperInclusive c then
        value_le (minInclusive b) (c_upper c) && value_lt (c_lower c) (maxExclusive b) &&
        negb (value_le (maxExclusive b) (c_lower c))
      else value_lt (minInclusive b) (c_upper c) && value_lt (c_lower c) (maxExclusive b)
  end.

(** ** Hashing: FNV-1a over the type tag and the bytes of the value *)

Definition kFnvOffset : Z := 14695981039346656037.
Definition kFnvPrime : Z := 1099511628211.

Definition mixBytes (hash : Z) (data : list Z) : Z :=
  foldl (λ hash byte, u_wrap 64 (Z.lxor hash byte * kFnvPrime)) hash data.

(** The object representation of a number is little-endian. *)
Definition computePartitionHash (v : value) : Z :=
  let hash := mixBytes kFnvOffset [data_type_tag (get_type v)] in
  match v with
  | VNull => hash
  | VInt z => mixBytes hash (le_bytes 8 z)
  | VFloat d => mixBytes hash (le_bytes 8 (d_to_bits d))
  | VBool b => mixBytes hash [if b then 1 else 0]
  | VString s => mixBytes hash (bytes_of_string s)
  end.

(** ** Routers *)

Fixpoint first_child (test : PartitionDescriptor → bool) (ps : list PartitionDescriptor) : option string :=
  match ps with
  | [] => None
  | p :: ps => if test p then Some (childTableName p) else first_child test ps
  end.

Definition range_holds (key : value) (p : PartitionDescriptor) : bool :=
  match b_range (p_bound p) with None => false | Some b => rangeContains b key end.

Definition hash_holds (key : value) (p : PartitionDescriptor) : bool :=
  match b_hash (p_bound p) with
  | None => false
  | Some b =>
      if modulus b <=? 0 then false
      else s_wrap 64 (computePartitionHash key mod u_wrap 64 (modulus b)) =? remainder b
  end.

(** What the routers promise (IPartitionRouter). *)
Record PartitionRouter : Type := mkRouter {
  resolveChild : value → option string;
  prune : PartitionPruneRequest → list string
}.

Definition range_included (request : PartitionPruneRequest) (p : PartitionDescriptor) : bool :=
  match b_range (p_bound p) with
  | None => false
  | Some b => forallb (rangeIntersectsConstraint b) request
  end.

Definition RangePartitionRouter (ps : list PartitionDescriptor) : PartitionRouter := {|
  resolveChild key := if is_null key then None else first_child (range_holds key) ps;
  prune request := childTableName <$> filter (λ p, range_included request p = true) ps
|}.

Definition hash_resolve (ps : list PartitionDescriptor) (key : value) : option string :=
  if is_null key || bool_decide (ps = []) then None else first_child (hash_holds key) ps.

(** The literal of the first equality on the key. *)
Fixpoint equal_key (request : PartitionPruneRequest) : option value :=
  match request with
  | [] => None
  | c :: request => match c_op c with PEqual => Some (c_lower c) | _ => equal_key request end
  end.

Definition HashPartitionRouter (ps : list PartitionDescriptor) : PartitionRouter := {|
  resolveChild := hash_resolve ps;
  prune request :=
    match equal_key request with
    | None => childTableName <$> ps
    | Some key => match hash_resolve ps key with None => [] | Some child => [child] end
    end
|}.

(** ** Metadata of a partitioned table *)

Record PartitionedTableMetadata : Type := mkMeta {
  kind_ : PartitionKind;
  key_column : string;
  partitions : list PartitionDescriptor
}.

Definition new_metadata (kd : PartitionKind) (keyColumn : string) : PartitionedTableMetadata :=
  mkMeta kd keyColumn [].

Definition hasChild (md : PartitionedTableMetadata) (name : string) : bool :=
  existsb (λ p, bool_decide (childTableName p = name)) (partitions md).

(** The first partition the new range overlaps. *)
Fixpoint first_overlap (b : RangePartitionBound) (ps : list PartitionDescriptor) : option string :=
  match ps with
  | [] => None
  | p :: ps =>
      match b_range (p_bound p) with
      | Some e => if rangesOverlap b e
                  then Some ("RANGE partition overlaps existing partition '" +:+ childTableName p +:+ "'")
                  else first_overlap b ps
      | None => first_overlap b ps
      end
  end.

Fixpoint first_hash_clash (b : HashPartitionBound) (ps : list PartitionDescriptor) : option string :=
  match ps with
  | [] => None
  | p :: ps =>
      match b_hash (p_bound p) with
      | None => first_hash_clash b ps
      | Some e =>
          if negb (modulus e =? modulus b) then Some "HASH MODULUS must match existing partitions"%string
          else if remainder e =? remainder b
          then Some ("HASH REMAINDER already used by '" +:+ childTableName p +:+ "'")
          else first_hash_clash b ps
      end
  end.

(** The error, if the bound is refused. *)
Definition validateNewBound (md : PartitionedTableMetadata) (bound : PartitionBound) : option string :=
  match kind_ md with
  | Range =>
      match b_range bound, b_hash bound with
      | Some r, None =>
          if negb (value_lt (minInclusive r) (maxExclusive r))
          then Some "RANGE bound requires min < max"%string
          else first_overlap r (partitions md)
      | _, _ => Some "RANGE partition requires FROM/TO bounds"%string
      end
  | Hash =>
      match b_hash bound, b_range bound with
      | Some h, None =>
          if modulus h <=? 0 then Some "HASH MODULUS must be positive"%string
          else if (remainder h <? 0) || (modulus h <=? remainder h)
          then Some "HASH REMAINDER must be in [0, MODULUS)"%string
          else first_hash_clash h (partitions md)
      | _, _ => Some "HASH partition requires MODULUS/REMAINDER"%string
      end
  end.

(** The metadata after the call, and the error of a call that returns [false]. *)
Definition addPartition (md : PartitionedTableMetadata) (p : PartitionDescriptor)
    : PartitionedTableMetadata * option string :=
  if bool_decide (childTableName p = "") then (md, Some "Partition child name is empty"%string)
  else if hasChild md (childTableName p)
  then (md, Some ("Partition '" +:+ childTableName p +:+ "' already exists"))
  else match validateNewBound md (p_bound p) with
  | Some e => (md, Some e)
  | None => (mkMeta (kind_ md) (key_column md) (partitions md ++ [p]), None)
  end.

Fixpoint erase_child (name : string) (ps : list PartitionDescriptor) : option (list PartitionDescriptor) :=
  match ps with
  | [] => None
  | p :: ps =>
      if bool_decide (childTableName p = name) then Some ps else cons p <$> erase_child name ps
  end.

Definition removePartition (md : PartitionedTableMetadata) (name : string)
    : PartitionedTableMetadata * bool :=
  match erase_child name (partitions md) with
  | None => (md, false)
  | Some ps => (mkMeta (kind_ md) (key_column md) ps, true)
  end.

Definition createRouter (md : PartitionedTableMetadata) : PartitionRouter :=
  match kind_ md with
  | Range => RangePartitionRouter (partitions md)
  | Hash => HashPartitionRouter (partitions md)
  end.

(** ** Pruning requests *)

Definition constraint_of (p : IndexColumnPredicate) : PartitionPruneConstraint :=
  let lit := pred_literal p in
  if pred_has_upper p
  then mkConstraint PBetween lit (pred_upper_literal p) (pred_lower_inclusive p) (pred_upper_inclusive p)
  else match pred_op p with
  | Equal => mkConstraint PEqual lit VNull true true
  | Less => mkConstraint PLess VNull lit true false
  | LessEqual => mkConstraint PLessEqual VNull lit true true
  | Greater => mkConstraint PGreater lit VNull false true
  | GreaterEqual => mkConstraint PGreaterEqual lit VNull true true
  end.

Definition buildPartitionPruneRequest {Q} (keyColumn : string) (whereExpr : option (expr Q))
    : PartitionPruneRequest :=
  match extract_index_predicates whereExpr with
  | None => []
  | Some preds => constraint_of <$> filter (λ p, pred_column p = keyColumn) preds
  end.

(** ** The order of the values of one kind *)

Section order.
Context (k : kind).
Implicit Types a b c : value.

Lemma value_le_lt a b : has_kind k a → has_kind k b → value_le a b = negb (value_lt b a).
Proof.
  intros Ha Hb. unfold value_le. destruct (value_lt a b) eqn:Hab, (value_lt b a) eqn:Hba; cbn [orb negb].
  - pose proof (value_lt_trans k a b a Ha Hb Ha Hab Hba) as E. by rewrite (value_lt_irrefl k) in E.
  - done.
  - destruct (value_eq a b) eqn:E; [|done]. apply (value_eq_iff k) in E as ->; [|done..].
    by rewrite (value_lt_irrefl k) in Hba.
  - apply (value_eq_iff k); [done..|]. by eapply value_lt_total.
Qed.

Lemma value_gt_lt a b : has_kind k a → has_kind k b → value_gt a b = value_lt b a.
Proof. intros Ha Hb. unfold value_gt. rewrite value_le_lt by done. apply negb_involutive. Qed.

Lemma value_eq_sym a b : has_kind k a → has_kind k b → value_eq a b = value_eq b a.
Proof.
  intros Ha Hb. apply eq_iff_eq_true. rewrite !(value_eq_iff k) by done. naive_solver.
Qed.

(** [a ≤ b < c] and [a < b ≤ c]. *)
Lemma value_le_lt_trans a b c : has_kind k a → has_kind k b → has_kind k c →
  value_lt b a = false → value_lt b c = true → value_lt a c = true.
Proof.
  intros Ha Hb Hc Hba Hbc. destruct (value_lt a b) eqn:Hab; [by apply (value_lt_trans k a b c)|].
  by rewrite (value_lt_total k a b Ha Hb Hab Hba).
Qed.
Lemma value_lt_le_trans a b c : has_kind k a → has_kind k b → has_kind k c →
  value_lt a b = true → value_lt c b = false → value_lt a c = true.
Proof.
  intros Ha Hb Hc Hab Hcb. destruct (value_lt b c) eqn:Hbc; [by apply (value_lt_trans k a b c)|].
  by rewrite <- (value_lt_total k b c Hb Hc Hbc Hcb).
Qed.
Lemma value_le_le_trans a b c : has_kind k a → has_kind k b → has_kind k c →
  value_lt b a = false → value_lt c b = false → value_lt c a = false.
Proof.
  intros Ha Hb Hc Hba Hcb. destruct (value_lt c a) eqn:Hca; [|done].
  pose proof (value_lt_le_trans c a b Hc Ha Hb Hca Hba). congruence.
Qed.
End order.

(** ** Predicates mean what the condition means *)

Definition pred_holds (p : IndexColumnPredicate) (v : value) : bool :=
  match pred_op p with
  | Equal => value_eq v (pred_literal p)
  | Less => value_lt v (pred_literal p)
  | LessEqual => value_le v (pred_literal p)
  | Greater => value_gt v (pred_literal p)
  | GreaterEqual => value_ge v (pred_literal p)
  end.

Section extraction.
Context {Q W : Type} (depth : nat) (ev : Evaluator Q W) (row : Row) (s : St W).

(** The value a column reference has in the row. *)
Definition column_value (table column : string) : value :=
  match (evaluate_column ev false row table column s).2 with Ok v => v | _ => VNull end.

Lemma column_quiet table column :
  evaluate_column ev false row table column s = (s, Ok (column_value table column)).
Proof.
  unfold column_value, evaluate_column. destruct (if bool_decide _ then _ else _); [done|].
  destruct (resolve_column_index _ _ _) as [i|err].
  - destruct (Nat.ltb_spec i (get_column_count row)) as [Hi|Hi]; [|done].
    unfold st_lift, get_value, get_column_count in *. cbn [fst snd].
    by destruct (lookup_lt_is_Some_2 _ _ Hi) as [v ->].
  - unfold mbind, ST_bind, st_get. cbn [fst snd]. by destruct (lookup_correlated ev (frames s) table column).
Qed.

(** The operands of a comparison are of one kind, or the column is NULL. *)
Definition pred_typed (p : IndexColumnPredicate) : Prop :=
  ∃ k, (column_value (pred_table p) (pred_column p) = VNull ∨ has_kind k (column_value (pred_table p) (pred_column p)))
    ∧ has_kind k (pred_literal p).

Lemma column_literal_eval c l col table lit :
  column_literal c l = Some (col, table, lit) →
  l = Literal lit ∧
  evaluate_expression depth ev row false c s = (s, Ok (column_value table col)).
Proof.
  unfold column_literal. destruct (column_name_of c) as [col' table'] eqn:Ec.
  case_bool_decide; [done|]. destruct l; try done. intros [= -> -> ->]. split; [done|].
  destruct c; try (by injection Ec as <- _); injection Ec as <- <-;
    destruct depth; apply column_quiet.
Qed.

Lemma literal_eval v : evaluate_expression depth ev row false (Literal v) s = (s, Ok v).
Proof. by destruct depth. Qed.

Lemma direct_op_compare op iop col table lit v :
  direct_op op = Some iop → compare op v lit = Some (pred_holds (new_predicate col table lit iop) v).
Proof. by destruct op; intros [= <-]. Qed.

Lemma flipped_op_compare k op iop col table lit v :
  v = VNull ∨ has_kind k v → has_kind k lit → flipped_op op = Some iop →
  compare op lit v = Some (pred_holds (new_predicate col table lit iop) v).
Proof.
  intros [->|Hv] Hl; [destruct op; try done; intros [= <-]; by destruct k, lit|]. destruct op; intros [= <-]; cbn [compare pred_holds new_predicate pred_op pred_literal]; f_equal.
  - by apply (value_eq_sym k).
  - by rewrite (value_gt_lt k).
  - unfold value_ge. by rewrite (value_le_lt k).
  - by rewrite (value_gt_lt k).
  - unfold value_ge. by rewrite (value_le_lt k).
Qed.

Definition row_pred (p : IndexColumnPredicate) : bool :=
  pred_holds p (column_value (pred_table p) (pred_column p)).

Lemma comparison_eval l op r p :
  try_comparison (BinaryOpE l op r) = Some p → pred_typed p →
  ∃ lv rv, evaluate_expression depth ev row false l s = (s, Ok lv) ∧
    evaluate_expression depth ev row false r s = (s, Ok rv) ∧ compare op lv rv = Some (row_pred p).
Proof.
  unfold row_pred. cbn [try_comparison]. destruct (column_literal l r) as [[[col table] lit]|] eqn:E1.
  - apply column_literal_eval in E1 as [-> Hl]. destruct (direct_op op) as [iop|] eqn:Eo; [|done].
    intros [= <-] _. eexists _, _. split_and!; [exact Hl|apply literal_eval|]. by apply direct_op_compare.
  - destruct (column_literal r l) as [[[col table] lit]|] eqn:E2; [|done].
    apply column_literal_eval in E2 as [-> Hr]. destruct (flipped_op op) as [iop|] eqn:Eo; [|done].
    intros [= <-] (k & Hk & Hlit). eexists _, _. split_and!; [apply literal_eval|exact Hr|].
    by eapply (flipped_op_compare k).
Qed.

Lemma collect_evaluates c preds :
  collect_predicates c = Some preds → Forall pred_typed preds →
  (∃ v, evaluate_expression depth ev row false c s = (s, Ok v)) ∧
  condition_holds depth ev row c s = (s, Ok (forallb row_pred preds)).
Proof.
  assert (∀ l op r p, try_comparison (BinaryOpE l op r) = Some p → pred_typed p →
    (∃ v, evaluate_expression depth ev row false (BinaryOpE l op r) s = (s, Ok v)) ∧
    condition_holds depth ev row (BinaryOpE l op r) s = (s, Ok (row_pred p))) as Hcmp.
  { intros l op r p Hp Ht. destruct (comparison_eval l op r p Hp Ht) as (lv & rv & Hl & Hr & Hc). split.
    - assert (binary_op op lv rv = Ok VNull) as Hb by (by destruct op).
      exists VNull. destruct depth; cbn [evaluate_expression evaluate_with] in *;
        by rewrite (bind_quiet _ _ _ _ Hl), (bind_quiet _ _ _ _ Hr), Hb.
    - cbn [condition_holds]. rewrite (bind_quiet _ _ _ _ Hl), (bind_quiet _ _ _ _ Hr), Hc.
      by destruct op. }
  revert preds. induction c as [| | | |l IHl op r IHr| | | | | | | |]; intros preds; try done.
  destruct (decide (op = AND)) as [->|Hop].
  - cbn [collect_predicates]. destruct (collect_predicates l) as [ls|]; [|done].
    destruct (collect_predicates r) as [rs|]; [|done]. cbn [mbind option_bind]. intros [= <-] [Tl Tr]%Forall_app.
    destruct (IHl ls eq_refl Tl) as [[lv Hl] Cl], (IHr rs eq_refl Tr) as [[rv Hr] Cr]. split.
    + exists VNull. destruct depth; cbn [evaluate_expression evaluate_with] in *;
        by rewrite (bind_quiet _ _ _ _ Hl), (bind_quiet _ _ _ _ Hr).
    + cbn [condition_holds]. rewrite forallb_app, (bind_quiet _ _ _ _ Hl), (bind_quiet _ _ _ _ Hr), (bind_quiet _ _ _ _ Cl).
      by destruct (forallb row_pred ls).
  - intros Hc Ht. assert (∃ p, try_comparison (BinaryOpE l op r) = Some p ∧ preds = [p]) as (p & Hp & ->).
    { destruct op; try done; cbn [collect_predicates] in Hc;
        (destruct (try_comparison _) as [p|]; [|done]; injection Hc as <-; eauto). }
    rewrite Forall_singleton in Ht. destruct (Hcmp _ _ _ _ Hp Ht) as [Hv Hcond]. split; [done|].
    rewrite Hcond. cbn [forallb]. by rewrite andb_true_r.
Qed.
End extraction.

(** ** Metadata that the operations build *)

Inductive built : PartitionedTableMetadata → Prop :=
  | built_new kd key : built (new_metadata kd key)
  | built_add md p : built md → built (addPartition md p).1
  | built_remove md name : built md → built (removePartition md name).1.

Definition range_of (p : PartitionDescriptor) : RangePartitionBound :=
  default (mkRange VNull VNull) (b_range (p_bound p)).
Definition hash_of (p : PartitionDescriptor) : HashPartitionBound :=
  default (mkHash 0 0) (b_hash (p_bound p)).

Definition range_partition (p : PartitionDescriptor) : Prop :=
  p_bound p = mkBound (Some (range_of p)) None ∧
  value_lt (minInclusive (range_of p)) (maxExclusive (range_of p)) = true.

Definition hash_partition (p : PartitionDescriptor) : Prop :=
  p_bound p = mkBound None (Some (hash_of p)) ∧
  0 < modulus (hash_of p) ∧ 0 ≤ remainder (hash_of p) < modulus (hash_of p).

(** Two partitions that may stand side by side; the first was added earlier. *)
Definition range_apart (p q : PartitionDescriptor) : Prop :=
  rangesOverlap (range_of q) (range_of p) = false.
Definition hash_apart (p q : PartitionDescriptor) : Prop :=
  modulus (hash_of p) = modulus (hash_of q) ∧ remainder (hash_of p) ≠ remainder (hash_of q).

Definition metadata_ok (md : PartitionedTableMetadata) : Prop :=
  match kind_ md with
  | Range => Forall range_partition (partitions md) ∧ ForallOrdPairs range_apart (partitions md)
  | Hash => Forall hash_partition (partitions md) ∧ ForallOrdPairs hash_apart (partitions md)
  end.

Lemma pairs_snoc {A} (R : A → A → Prop) l x :
  ForallOrdPairs R l → Forall (λ y, R y x) l → ForallOrdPairs R (l ++ [x]).
Proof.
  induction 1 as [|y l Hy Hl IH]; intros Hx; cbn; [by repeat constructor|].
  apply Forall_cons_iff in Hx as [Hyx Hx]. constructor; [|by apply IH].
  apply Forall_app. split; [done|]. by constructor.
Qed.

Lemma erase_child_Some name ps ps' :
  erase_child name ps = Some ps' → ∃ l p r, ps = l ++ p :: r ∧ ps' = l ++ r.
Proof.
  revert ps'. induction ps as [|p ps IH]; intros ps'; cbn; [done|]. case_bool_decide.
  - intros [= <-]. by exists [], p, ps.
  - destruct (erase_child name ps) as [r|]; [|done]. intros [= <-].
    destruct (IH r eq_refl) as (l & q & r' & -> & ->). by exists (p :: l), q, r'.
Qed.

Lemma pairs_erase {A} (R : A → A → Prop) l x r :
  ForallOrdPairs R (l ++ x :: r) → ForallOrdPairs R (l ++ r).
Proof.
  induction l as [|y l IH]; cbn; inversion 1 as [|? ? Hy Hl]; subst; [done|].
  constructor; [|by apply IH]. apply Forall_app in Hy as [H1 H2]. apply Forall_app. split; [done|].
  by apply Forall_cons_iff in H2 as [_ ?].
Qed.

Lemma pairs_lookup {A} (R : A → A → Prop) l x y :
  ForallOrdPairs R l → x ∈ l → y ∈ l → x = y ∨ R x y ∨ R y x.
Proof.
  induction 1 as [|z l Hz Hl IH]; intros Hx Hy; [by apply not_elem_of_nil in Hx|].
  rewrite Forall_forall in Hz.
  apply elem_of_cons in Hx as [->|Hx], Hy as [->|Hy]; auto.
Qed.

Lemma first_overlap_None b ps :
  first_overlap b ps = None → Forall range_partition ps →
  Forall (λ p, rangesOverlap b (range_of p) = false) ps.
Proof.
  induction ps as [|p ps IH]; intros Hno Hps; [done|]. apply Forall_cons_iff in Hps as [[Hp _] Hps].
  cbn [first_overlap] in Hno. rewrite Hp in Hno. cbn [b_range] in Hno.
  destruct (rangesOverlap b (range_of p)) eqn:E; [done|]. constructor; [done|by apply IH].
Qed.

Lemma first_hash_clash_None b ps :
  first_hash_clash b ps = None → Forall hash_partition ps →
  Forall (λ p, modulus (hash_of p) = modulus b ∧ remainder (hash_of p) ≠ remainder b) ps.
Proof.
  induction ps as [|p ps IH]; intros Hno Hps; [done|]. apply Forall_cons_iff in Hps as [[Hp _] Hps].
  cbn [first_hash_clash] in Hno. rewrite Hp in Hno. cbn [b_hash] in Hno.
  destruct (Z.eqb_spec (modulus (hash_of p)) (modulus b)); [|done]. cbn [negb] in Hno.
  destruct (Z.eqb_spec (remainder (hash_of p)) (remainder b)); [done|]. constructor; [done|by apply IH].
Qed.

Lemma valid_bound_ok md p :
  metadata_ok md → validateNewBound md (p_bound p) = None →
  metadata_ok (mkMeta (kind_ md) (key_column md) (partitions md ++ [p])).
Proof.
  unfold metadata_ok, validateNewBound. cbn [kind_ partitions]. destruct p as [name [rg hs]]; cbn [p_bound b_range b_hash].
  destruct (kind_ md); intros [Hps Hap].
  - destruct rg as [b|]; [|done]. destruct hs; [done|].
    destruct (value_lt _ _) eqn:Elt; [|done]. cbn [negb]. intros Hno%first_overlap_None; [|done].
    split; [apply Forall_app; split; [done|]; by repeat constructor|by apply pairs_snoc].
  - destruct hs as [b|]; [|done]. destruct rg; [done|].
    destruct (Z.leb_spec (modulus b) 0); [done|].
    destruct (_ || _) eqn:Er; [done|]. apply orb_false_iff in Er as [E1%Z.ltb_ge E2%Z.leb_gt].
    intros Hno%first_hash_clash_None; [|done].
    split; [apply Forall_app; split; [done|]; by repeat constructor|]. by apply pairs_snoc.
Qed.

Lemma built_ok md : built md → metadata_ok md.
Proof.
  induction 1 as [kd key|md p _ IH|md name _ IH].
  - destruct kd; split; constructor.
  - unfold addPartition. case_bool_decide; [done|]. destruct (hasChild _ _); [done|].
    destruct (validateNewBound md (p_bound p)) eqn:E; [done|]. by apply valid_bound_ok.
  - unfold removePartition. destruct (erase_child name (partitions md)) as [ps|] eqn:E; [|done].
    apply erase_child_Some in E as (l & p & r & Hps & ->). unfold metadata_ok in *. cbn [fst kind_ partitions].
    rewrite Hps in IH. destruct (kind_ md); destruct IH as [H1 H2]; (split; [|by eapply pairs_erase]);
      apply Forall_app in H1 as [H1 [_ H3]%Forall_cons_iff]; by apply Forall_app.
Qed.

(** ** Routing *)

(** The partition a key belongs to. *)
Definition owns (md : PartitionedTableMetadata) (p : PartitionDescriptor) (key : value) : bool :=
  match kind_ md with Range => range_holds key p | Hash => hash_holds key p end.

Definition range_typed (k : kind) (p : PartitionDescriptor) : Prop :=
  has_kind k (minInclusive (range_of p)) ∧ has_kind k (maxExclusive (range_of p)).

(** The bounds of a range partitioned table have the kind of its key. *)
Definition bounds_typed (k : kind) (md : PartitionedTableMetadata) : Prop :=
  kind_ md = Range → Forall (range_typed k) (partitions md).

Lemma range_holds_spec k key p :
  range_partition p → range_typed k p → has_kind k key →
  range_holds key p = true ↔
  value_lt key (minInclusive (range_of p)) = false ∧ value_lt key (maxExclusive (range_of p)) = true.
Proof.
  intros [Hp _] [Hmin Hmax] Hk. unfold range_holds. rewrite Hp. cbn [b_range]. unfold rangeContains.
  rewrite (value_le_lt k) by done. by rewrite andb_true_iff, negb_true_iff.
Qed.

Lemma range_apart_exclusive k key p q :
  range_partition p → range_partition q → range_typed k p → range_typed k q → has_kind k key →
  range_apart p q → range_holds key p = true → range_holds key q = true → False.
Proof.
  intros Hp Hq Tp Tq Hk Hap Hkp%(range_holds_spec k) Hkq%(range_holds_spec k); [|done..].
  destruct Hkp as [P1 P2], Hkq as [Q1 Q2], Tp as [Tp1 Tp2], Tq as [Tq1 Tq2].
  unfold range_apart, rangesOverlap in Hap.
  rewrite (value_le_lt_trans k _ key) in Hap by done.
  by rewrite (value_le_lt_trans k _ key) in Hap.
Qed.

Lemma hash_holds_spec key p :
  hash_partition p → hash_holds key p = true ↔
  s_wrap 64 (computePartitionHash key mod u_wrap 64 (modulus (hash_of p))) = remainder (hash_of p).
Proof.
  intros (Hp & Hm & _). unfold hash_holds. rewrite Hp. cbn [b_hash].
  destruct (Z.leb_spec (modulus (hash_of p)) 0); [lia|]. apply Z.eqb_eq.
Qed.

Lemma owner_unique md k key p q :
  metadata_ok md → bounds_typed k md → has_kind k key →
  p ∈ partitions md → q ∈ partitions md → owns md p key = true → owns md q key = true → p = q.
Proof.
  unfold metadata_ok, bounds_typed, owns. intros Hmd Ht Hk Hp Hq.
  destruct (kind_ md); destruct Hmd as [Hps Hap]; intros Op Oq; rewrite Forall_forall in Hps.
  - specialize (Ht eq_refl). rewrite Forall_forall in Ht.
    destruct (pairs_lookup _ _ p q Hap Hp Hq) as [->|[H|H]]; [done| |]; exfalso.
    + by eapply (range_apart_exclusive k key p q); eauto.
    + by eapply (range_apart_exclusive k key q p); eauto.
  - apply hash_holds_spec in Op, Oq; eauto.
    destruct (pairs_lookup _ _ p q Hap Hp Hq) as [->|[[H1 H2]|[H1 H2]]]; [done| |]; congruence.
Qed.

Lemma first_child_Some test ps name :
  first_child test ps = Some name → ∃ p, p ∈ ps ∧ test p = true ∧ childTableName p = name.
Proof.
  induction ps as [|p ps IH]; cbn; [done|]. destruct (test p) eqn:E.
  - intros [= <-]. exists p. split; [left|done].
  - intros (q & Hq & ?)%IH. exists q. split; [by right|done].
Qed.

Lemma first_child_is_Some test ps p : p ∈ ps → test p = true → is_Some (first_child test ps).
Proof.
  induction ps as [|q ps IH]; intros Hp Ht; [by apply not_elem_of_nil in Hp|]. cbn.
  destruct (test q) eqn:E; [done|]. apply elem_of_cons in Hp as [->|Hp]; [congruence|by apply IH].
Qed.

Lemma has_kind_not_null k v : has_kind k v → is_null v = false.
Proof. by destruct k, v. Qed.

Lemma resolve_first md key :
  is_null key = false → resolveChild (createRouter md) key = first_child (λ p, owns md p key) (partitions md).
Proof.
  intros Hn. unfold createRouter, owns. destruct (kind_ md); cbn [resolveChild RangePartitionRouter HashPartitionRouter].
  - by rewrite Hn.
  - unfold hash_resolve. rewrite Hn. cbn [orb]. case_bool_decide as E; [by rewrite E|done].
Qed.

(** ** Pruning *)

(** A pruning constraint built from a predicate the key satisfies keeps the range
    the key lies in. *)
Lemma range_kept k key p pred :
  range_partition p → range_typed k p → has_kind k key → has_kind k (pred_literal pred) →
  pred_has_upper pred = false → range_holds key p = true → pred_holds pred key = true →
  rangeIntersectsConstraint (range_of p) (constraint_of pred) = true.
Proof.
  intros Hp Tp Hk Hl Hu Hkp Hpred. apply (range_holds_spec k) in Hkp as [H1 H2]; [|done..].
  destruct Tp as [T1 T2]. unfold constraint_of, pred_holds in *. rewrite Hu.
  destruct (pred_op pred); cbn [rangeIntersectsConstraint c_op c_lower c_upper c_lowerInclusive c_upperInclusive negb].
  - apply (value_eq_iff k) in Hpred as <-; [|done..]. unfold rangeContains.
    by rewrite (value_le_lt k), H1, H2.
  - by eapply (value_le_lt_trans k _ key).
  - rewrite (value_le_lt k) in Hpred |- * by done. apply negb_true_iff in Hpred. apply negb_true_iff.
    by eapply (value_le_le_trans k _ key).
  - rewrite (value_gt_lt k) in Hpred by done. rewrite (value_gt_lt k), (value_le_lt k), negb_involutive by done.
    by rewrite (value_lt_trans k _ key).
  - unfold value_ge in Hpred. apply negb_true_iff in Hpred. rewrite (value_gt_lt k) by done.
    by eapply (value_le_lt_trans k _ key).
Qed.

Lemma extracted_no_upper {Q} (c : expr Q) preds :
  collect_predicates c = Some preds → Forall (λ p, pred_has_upper p = false) preds.
Proof.
  assert (∀ (e : expr Q) p, try_comparison e = Some p → pred_has_upper p = false) as Htry.
  { intros [] p; try done. cbn. destruct (column_literal _ _) as [[[]]|]; [destruct (direct_op _)|
      destruct (column_literal _ _) as [[[]]|]; [destruct (flipped_op _)|]]; by intros [= <-]. }
  assert (∀ (e : expr Q) ps, (λ p, [p]) <$> try_comparison e = Some ps →
    Forall (λ p, pred_has_upper p = false) ps) as Hone.
  { intros e ps. destruct (try_comparison e) as [p|] eqn:E; [|done]. intros [= <-].
    constructor; [by eapply Htry|constructor]. }
  revert preds. induction c as [| | | |l IHl op r IHr| | | | | | | |]; intros preds; cbn [collect_predicates];
    try (apply Hone).
  destruct op; try (apply Hone); [|done].
  destruct (collect_predicates l) as [ls|]; [|done]. destruct (collect_predicates r) as [rs|]; [|done].
  intros [= <-]. apply Forall_app. split; [by apply IHl|by apply IHr].
Qed.

(** Constraints a key satisfies, given as predicates, keep its partition. *)
Lemma prune_keeps md k key preds child :
  metadata_ok md → bounds_typed k md → has_kind k key →
  Forall (λ p, has_kind k (pred_literal p) ∧ pred_has_upper p = false ∧ pred_holds p key = true) preds →
  resolveChild (createRouter md) key = Some child →
  child ∈ prune (createRouter md) (constraint_of <$> preds).
Proof.
  intros Hmd Ht Hk Hpreds Hres. pose proof Hres as Hres'.
  rewrite resolve_first in Hres by (by eapply has_kind_not_null).
  apply first_child_Some in Hres as (p & Hp & Hown & <-).
  unfold createRouter, owns, metadata_ok, bounds_typed in *.
  destruct (kind_ md); destruct Hmd as [Hps _]; rewrite Forall_forall in Hps;
    cbn [prune RangePartitionRouter HashPartitionRouter].
  - specialize (Ht eq_refl). rewrite Forall_forall in Ht.
    apply list_elem_of_fmap. exists p. split; [done|]. apply list_elem_of_filter. split; [|done].
    unfold range_included. destruct (Hps p Hp) as [Hb _]. rewrite Hb. cbn [b_range].
    apply forallb_forall. intros c Hc%list_elem_of_In. apply list_elem_of_fmap in Hc as (pred & -> & Hpred).
    rewrite Forall_forall in Hpreds. destruct (Hpreds pred Hpred) as (Hl & Hu & Hh).
    apply (range_kept k key); [by apply Hps|by apply Ht|done..].
  - assert (∀ v, equal_key (constraint_of <$> preds) = Some v → v = key) as Hkey.
    { clear -Hpreds Hk. induction Hpreds as [|pred preds (Hl & Hu & Hh) _ IH]; intros v; cbn; [done|].
      unfold constraint_of, pred_holds in *. rewrite Hu.
      destruct (pred_op pred); cbn [c_op]; try apply IH. intros [= <-].
      symmetry. by apply (value_eq_iff k). }
    destruct (equal_key _) as [v|]; [|apply list_elem_of_fmap; eauto].
    rewrite (Hkey v eq_refl). cbn [resolveChild HashPartitionRouter] in Hres'. rewrite Hres'.
    by apply list_elem_of_singleton.
Qed.

(** A row that satisfies the condition is in a child the request keeps. *)
Lemma pruned_row_kept {Q W} depth (ev : Evaluator Q W) row s c md k key child :
  built md → bounds_typed k md → has_kind k key →
  (∀ preds, extract_index_predicates (Some c) = Some preds →
     Forall (λ p, pred_typed ev row s p ∧ (pred_column p = key_column md →
       column_value ev row s (pred_table p) (pred_column p) = key ∧ has_kind k (pred_literal p))) preds) →
  evaluate_condition depth ev row (Some c) s = (s, Ok true) →
  resolveChild (createRouter md) key = Some child →
  child ∈ prune (createRouter md) (buildPartitionPruneRequest (key_column md) (Some c)).
Proof.
  intros Hmd%built_ok Ht Hk Hpreds Hc Hres. unfold buildPartitionPruneRequest.
  destruct (extract_index_predicates (Some c)) as [preds|] eqn:E.
  2:{ by apply (prune_keeps md k key []). }
  specialize (Hpreds preds eq_refl). apply (prune_keeps md k key); [done..| |done].
  assert (forallb (row_pred ev row s) preds = true) as Hall.
  { destruct (collect_evaluates depth ev row s c preds E) as [_ H].
    - eapply Forall_impl; [exact Hpreds|]. by intros ? [? _].
    - cbn [evaluate_condition] in Hc. rewrite H in Hc. by injection Hc. }
  pose proof (extracted_no_upper c preds E) as Hu.
  apply Forall_forall. intros p [Hcol Hp]%list_elem_of_filter.
  rewrite Forall_forall in Hpreds, Hu. destruct (Hpreds p Hp) as [_ Hkey].
  rewrite forallb_forall in Hall. specialize (Hall p ltac:(by apply list_elem_of_In)).
  destruct (Hkey Hcol) as [Hv Hl]. unfold row_pred in Hall. rewrite Hv in Hall. auto.
Qed.

(** ** Properties *)

(** Extraction is exact: when a WHERE condition is split into index predicates,
    the condition holds of a row exactly when every predicate holds of its column,
    also for those written with the literal first. *)
Theorem extraction_is_exact {Q W} depth (ev : Evaluator Q W) row s c preds :
  extract_index_predicates (Some c) = Some preds →
  Forall (pred_typed ev row s) preds →
  evaluate_condition depth ev row (Some c) s = (s, Ok (forallb (row_pred ev row s) preds)).
Proof. intros Hc Ht. by apply (collect_evaluates depth ev row s c preds). Qed.

(** Pruning loses no row: if a row satisfies the WHERE condition and its key is
    routed to some child table, that child is among the tables the pruned scan
    reads, for range and for hash partitions. *)
Theorem pruning_loses_no_row {Q W} depth (ev : Evaluator Q W) row s c md k key child :
  built md → bounds_typed k md → has_kind k key →
  (∀ preds, extract_index_predicates (Some c) = Some preds →
     Forall (λ p, pred_typed ev row s p ∧ (pred_column p = key_column md →
       column_value ev row s (pred_table p) (pred_column p) = key ∧ has_kind k (pred_literal p))) preds) →
  evaluate_condition depth ev row (Some c) s = (s, Ok true) →
  resolveChild (createRouter md) key = Some child →
  child ∈ prune (createRouter md) (buildPartitionPruneRequest (key_column md) (Some c)).
Proof. apply pruned_row_kept. Qed.

(** Every key has one owner: in metadata built by adding and removing
    partitions a key that lies in a partition is routed to that partition,
    whatever the order in which they were added. *)
Theorem routing_finds_the_owner md k key p :
  built md → bounds_typed k md → has_kind k key →
  p ∈ partitions md → owns md p key = true →
  resolveChild (createRouter md) key = Some (childTableName p).
Proof.
  intros Hmd%built_ok Ht Hk Hp Hown. rewrite resolve_first by (by eapply has_kind_not_null).
  destruct (first_child_is_Some (λ p, owns md p key) (partitions md) p Hp Hown) as [name Hname].
  rewrite Hname. apply first_child_Some in Hname as (q & Hq & Hown' & <-).
  by rewrite (owner_unique md k key p q).
Qed.

(** Hash partitions cover the keys: once every remainder of the modulus has a
    partition, each non-null key is routed to some child. *)
Theorem full_hash_partitions_cover md key m :
  kind_ md = Hash → is_null key = false → 0 < m < 2 ^ 63 →
  (∀ r, 0 ≤ r < m → ∃ p, p ∈ partitions md ∧ b_hash (p_bound p) = Some (mkHash m r)) →
  is_Some (resolveChild (createRouter md) key).
Proof.
  intros Hkind Hn Hm Hall. rewrite resolve_first by done. unfold owns. rewrite Hkind.
  pose proof (Z.mod_pos_bound (computePartitionHash key) m ltac:(lia)) as Hr.
  destruct (Hall _ Hr) as (p & Hp & Hb). eapply first_child_is_Some; [exact Hp|].
  unfold hash_holds. rewrite Hb. cbn [modulus remainder].
  destruct (Z.leb_spec m 0); [lia|]. apply Z.eqb_eq. unfold u_wrap.
  rewrite (Z.mod_small m) by lia. unfold s_wrap.
  rewrite (Z.mod_small (computePartitionHash key mod m)) by lia.
  destruct (Z.ltb_spec (computePartitionHash key mod m) (2 ^ (64 - 1))); [done|lia].
Qed.

(** ** Runs *)

Definition add_all (md : PartitionedTableMetadata) (ps : list PartitionDescriptor)
    : PartitionedTableMetadata := foldl (λ md p, (addPartition md p).1) md ps.

Lemma built_add_all md ps : built md → built (add_all md ps).
Proof. unfold add_all. revert md. induction ps as [|p ps IH]; intros md Hmd; [done|]. by apply IH, built_add. Qed.

(** [PARTITION BY RANGE (x)]: [0, 10) and [10, 20). *)
Definition range_md : PartitionedTableMetadata :=
  add_all (new_metadata Range "x")
    [mkPartition "low" (mkBound (Some (mkRange (VInt 0) (VInt 10))) None);
     mkPartition "high" (mkBound (Some (mkRange (VInt 10) (VInt 20))) None)].

(** [PARTITION BY HASH (x)] with modulus 4. *)
Definition hash_md : PartitionedTableMetadata :=
  add_all (new_metadata Hash "x")
    [mkPartition "h0" (mkBound None (Some (mkHash 4 0))); mkPartition "h1" (mkBound None (Some (mkHash 4 1)));
     mkPartition "h2" (mkBound None (Some (mkHash 4 2))); mkPartition "h3" (mkBound None (Some (mkHash 4 3)))].

Lemma range_md_built : built range_md.
Proof. apply built_add_all, built_new. Qed.
Lemma hash_md_built : built hash_md.
Proof. apply built_add_all, built_new. Qed.
Lemma range_md_typed : bounds_typed KInt range_md.
Proof. intros _. vm_compute. by repeat constructor. Qed.

(** [12 <= x] *)
Definition prune_condition : expr unit := BinaryOpE (Literal (VInt 12)) LE (ColumnRef "" "x").
Definition prune_pred : IndexColumnPredicate := new_predicate "x" "" (VInt 12) GreaterEqual.
Definition row_15 : Row := row_xy (VInt 15) (VInt 0).

Lemma prune_pred_typed : pred_typed (t_evaluator None) row_15 start prune_pred.
Proof. exists KInt. split; [right|]; vm_compute; done. Qed.

Lemma extraction_is_exact_witness :
  evaluate_condition 0 (t_evaluator None) row_15 (Some prune_condition) start = (start, Ok true).
Proof.
  rewrite (extraction_is_exact 0 (t_evaluator None) row_15 start prune_condition [prune_pred]);
    [vm_compute; reflexivity|reflexivity|].
  constructor; [apply prune_pred_typed|constructor].
Defined.

Lemma pruning_loses_no_row_witness :
  "high"%string ∈ prune (createRouter range_md) (buildPartitionPruneRequest "x" (Some prune_condition)).
Proof.
  apply (pruning_loses_no_row 0 (t_evaluator None) row_15 start prune_condition range_md KInt (VInt 15));
    [apply range_md_built|apply range_md_typed|exact I| |vm_compute; reflexivity|vm_compute; reflexivity].
  intros preds [= <-]. constructor; [|constructor]. split; [apply prune_pred_typed|].
  intros _. vm_compute. split; [reflexivity|exact I].
Defined.

Lemma routing_finds_the_owner_witness :
  resolveChild (createRouter range_md) (VInt 10) = Some "high"%string.
Proof.
  apply (routing_finds_the_owner range_md KInt (VInt 10)
    (mkPartition "high" (mkBound (Some (mkRange (VInt 10) (VInt 20))) None)));
    [apply range_md_built|apply range_md_typed|exact I| |vm_compute; reflexivity].
  vm_compute. right. left.
Defined.

Lemma full_hash_partitions_cover_witness :
  is_Some (resolveChild (createRouter hash_md) (VString "key")).
Proof.
  apply (full_hash_partitions_cover hash_md (VString "key") 4); [reflexivity|reflexivity|lia|].
  intros r Hr. assert (r = 0 ∨ r = 1 ∨ r = 2 ∨ r = 3) as [->|[->|[->| ->]]] by lia.
  - exists (mkPartition "h0" (mkBound None (Some (mkHash 4 0)))). split; [|done]. vm_compute. left.
  - exists (mkPartition "h1" (mkBound None (Some (mkHash 4 1)))). split; [|done]. vm_compute. do 1 right. left.
  - exists (mkPartition "h2" (mkBound None (Some (mkHash 4 2)))). split; [|done]. vm_compute. do 2 right. left.
  - exists (mkPartition "h3" (mkBound None (Some (mkHash 4 3)))). split; [|done]. vm_compute. do 3 right. left.
Defined.

(** Hash pruning takes the literal for the key, but values that compare equal
    can hash apart: the row with [x = 1] satisfies [x = 1.0], and the pruned scan
    for that condition does not read the child the row is stored in. *)
Theorem hash_pruning_loses_rows :
  let c : expr unit := BinaryOpE (ColumnRef "" "x") EQ (Literal (VFloat (d_of_Z 1))) in
  let row := row_xy (VInt 1) (VInt 0) in
  evaluate_condition 0 (t_evaluator None) row (Some c) start = (start, Ok true) ∧
  resolveChild (createRouter hash_md) (VInt 1) = Some "h2"%string ∧
  prune (createRouter hash_md) (buildPartitionPruneRequest "x" (Some c)) = ["h1"%string].
Proof. cbv zeta. split_and!; vm_compute; reflexivity. Qed.
