(* ===== verification/Table.v ===== *)
(** * Tables

    [Table] (src/core/table.cc, include/core/table.h): a schema with its
    constraints, the rows in a heap file behind a directory of item pointers,
    and B-tree indexes over the positions of the directory.  The heap is any
    [RowHeap] (RowHeap.v); every call on it, reads included, may change the state
    of its buffer pool, so that the operations below thread the whole table. *)

From Stdlib Require Import ZArith Lia Ascii Sorted.
From S2P Require Import Prelude CppNum Values Rows IndexKey BTree Transactions Expr Evaluator Partition RowHeap.

(** ** [std::map] with string keys: entries in the order of their keys *)

Abbreviation smap A := (list (string * A)).

Fixpoint sm_find {A} (key : string) (m : smap A) : option A :=
  match m with
  | [] => None
  | (k, a) :: m => if bool_decide (k = key) then Some a else sm_find key m
  end.
Fixpoint sm_set {A} (key : string) (a : A) (m : smap A) : smap A :=
  match m with
  | [] => [(key, a)]
  | (k, b) :: m' =>
      if bool_decide (k = key) then (key, a) :: m'
      else if str_lt key k then (key, a) :: m
      else (k, b) :: sm_set key a m'
  end.
Definition sm_erase {A} (key : string) (m : smap A) : smap A :=
  filter (λ e, e.1 ≠ key) m.
Definition sm_has {A} (key : string) (m : smap A) : bool :=
  match sm_find key m with Some _ => true | None => false end.

Section smap.
Context {A : Type}.
Implicit Types m : smap A.

Lemma sm_find_set_eq k a m : sm_find k (sm_set k a m) = Some a.
Proof.
  induction m as [|[k' b] m IH]; cbn [sm_set sm_find]; [by rewrite bool_decide_true|].
  case_bool_decide as E; [cbn; by rewrite bool_decide_true|].
  destruct (str_lt k k'); cbn [sm_find]; [by rewrite bool_decide_true|].
  by rewrite bool_decide_false.
Qed.

Lemma sm_find_set_ne k k' a m : k' ≠ k → sm_find k' (sm_set k a m) = sm_find k' m.
Proof.
  intros Hne. induction m as [|[k0 b] m IH]; cbn [sm_set sm_find].
  { by rewrite bool_decide_false by done. }
  case_bool_decide as E.
  - subst k0. cbn [sm_find]. by rewrite !bool_decide_false by done.
  - destruct (str_lt k k0); cbn [sm_find]; [by rewrite (bool_decide_false (k = k')) by done|].
    by rewrite IH.
Qed.

Lemma sm_find_elem k a m : sm_find k m = Some a → (k, a) ∈ m.
Proof.
  induction m as [|[k' b] m IH]; cbn [sm_find]; [done|]. case_bool_decide.
  - intros [= ->]. subst. left.
  - intros H'. right. by apply IH.
Qed.

Lemma sm_find_erase_ne k k' m : k' ≠ k → sm_find k' (sm_erase k m) = sm_find k' m.
Proof.
  intros Hne. unfold sm_erase. induction m as [|[k0 b] m IH]; [done|].
  destruct (decide (k0 = k)) as [->|Hk].
  - rewrite filter_cons_False by (cbn; congruence). cbn [sm_find]. by rewrite bool_decide_false by done.
  - rewrite filter_cons_True by done. cbn [sm_find]. by rewrite IH.
Qed.

Lemma sm_find_erase_eq k m : sm_find k (sm_erase k m) = None.
Proof.
  unfold sm_erase. induction m as [|[k0 b] m IH]; [done|].
  destruct (decide (k0 = k)) as [->|Hk].
  - by rewrite filter_cons_False by (cbn; congruence).
  - rewrite filter_cons_True by done. cbn [sm_find]. by rewrite bool_decide_false.
Qed.

(** The keys stay in order, so that no key occurs twice. *)
Definition sm_sorted m : Prop := StronglySorted (λ x y, str_lt x.1 y.1 = true) m.

Lemma sm_sorted_set k a m : sm_sorted m → sm_sorted (sm_set k a m).
Proof.
  unfold sm_sorted. induction 1 as [|[k' b] m Hm IH Hall]; cbn [sm_set]; [repeat constructor|].
  case_bool_decide as E; [subst; by constructor|]. destruct (str_lt k k') eqn:El.
  - constructor; [by constructor|]. constructor; [done|]. eapply Forall_impl; [done|].
    intros [k2 b2] H2. by apply (str_lt_trans k k' k2).
  - constructor; [done|]. apply Forall_forall. intros [k2 b2] Hin. cbn.
    assert (Hin2 : (k2, b2) = (k, a) ∨ (k2, b2) ∈ m).
    { clear -Hin. induction m as [|[k0 b0] m IHm]; cbn [sm_set] in Hin; [set_solver|].
      case_bool_decide; [set_solver|]. destruct (str_lt k k0); set_solver. }
    destruct Hin2 as [[= -> ->]|Hin2].
    + destruct (str_lt k' k) eqn:E2; [done|]. by destruct E; apply str_lt_total.
    + rewrite Forall_forall in Hall. by apply (Hall (k2, b2)).
Qed.

Lemma sm_elem_find k a m : sm_sorted m → (k, a) ∈ m → sm_find k m = Some a.
Proof.
  unfold sm_sorted. induction 1 as [|[k' b] m Hm IH Hall]; cbn [sm_find]; [by intros ?%not_elem_of_nil|].
  intros [[= -> ->]|Hin]%elem_of_cons; [by rewrite bool_decide_true|]. rewrite bool_decide_false; [by apply IH|].
  intros ->. rewrite Forall_forall in Hall. specialize (Hall _ Hin). cbn in Hall. by rewrite str_lt_irrefl in Hall.
Qed.
End smap.

(** ** Constraints *)

Record CheckConstraintDefinition {Q : Type} : Type := mkCheck {
  ck_name : string;
  ck_text : string;
  ck_predicate : option (expr Q)
}.
Arguments CheckConstraintDefinition : clear implicits.

Record UniqueConstraintDefinition : Type := mkUnique {
  uq_name : string;
  uq_columns : list string
}.

Inductive ReferentialAction : Type := Restrict | Cascade | SetNull | SetDefault.
Record ForeignKeyDefinition : Type := mkForeignKey {
  fk_child_columns : list string;
  fk_parent_table : string;
  fk_parent_columns : list string;
  fk_on_delete : ReferentialAction;
  fk_on_update : ReferentialAction
}.

Definition newline_char : Ascii.ascii := "010"%char.

Module Table.
Section table.
Context {H : Type} {RH : RowHeap H} {Q : Type}.

Record Table : Type := mkTable {
  table_name : string;
  columns : list Column;
  heap : H;
  row_directory : list (Z * Z);
  column_indices : smap index;
  named_indices : smap index;
  secondary_indexes : smap (list string);
  foreign_keys : list ForeignKeyDefinition;
  checks : list (CheckConstraintDefinition Q);
  primary_key_columns : list string;
  unique_constraints : list UniqueConstraintDefinition;
  constraint_indexes : smap (list string);
  partition_meta : option PartitionedTableMetadata;
  dirty : bool;
  (** The date the scalar functions of a CHECK read from the clock. *)
  clock : string
}.

(** Assignments to single fields. *)
Definition with_heap (h : H) (t : Table) : Table :=
  mkTable (table_name t) (columns t) h (row_directory t) (column_indices t) (named_indices t)
    (secondary_indexes t) (foreign_keys t) (checks t) (primary_key_columns t)
    (unique_constraints t) (constraint_indexes t) (partition_meta t) (dirty t) (clock t).
Definition with_columns (cs : list Column) (t : Table) : Table :=
  mkTable (table_name t) cs (heap t) (row_directory t) (column_indices t) (named_indices t)
    (secondary_indexes t) (foreign_keys t) (checks t) (primary_key_columns t)
    (unique_constraints t) (constraint_indexes t) (partition_meta t) (dirty t) (clock t).
Definition with_directory (d : list (Z * Z)) (t : Table) : Table :=
  mkTable (table_name t) (columns t) (heap t) d (column_indices t) (named_indices t)
    (secondary_indexes t) (foreign_keys t) (checks t) (primary_key_columns t)
    (unique_constraints t) (constraint_indexes t) (partition_meta t) (dirty t) (clock t).
Definition with_indices (ci ni : smap index) (t : Table) : Table :=
  mkTable (table_name t) (columns t) (heap t) (row_directory t) ci ni
    (secondary_indexes t) (foreign_keys t) (checks t) (primary_key_columns t)
    (unique_constraints t) (constraint_indexes t) (partition_meta t) (dirty t) (clock t).
Definition with_secondary (s : smap (list string)) (t : Table) : Table :=
  mkTable (table_name t) (columns t) (heap t) (row_directory t) (column_indices t)
    (named_indices t) s (foreign_keys t) (checks t) (primary_key_columns t)
    (unique_constraints t) (constraint_indexes t) (partition_meta t) (dirty t) (clock t).
Definition with_keys (pk : list string) (uq : list UniqueConstraintDefinition)
    (ci : smap (list string)) (t : Table) : Table :=
  mkTable (table_name t) (columns t) (heap t) (row_directory t) (column_indices t)
    (named_indices t) (secondary_indexes t) (foreign_keys t) (checks t) pk uq ci
    (partition_meta t) (dirty t) (clock t).
Definition with_rules (fks : list ForeignKeyDefinition) (cks : list (CheckConstraintDefinition Q))
    (t : Table) : Table :=
  mkTable (table_name t) (columns t) (heap t) (row_directory t) (column_indices t)
    (named_indices t) (secondary_indexes t) fks cks (primary_key_columns t)
    (unique_constraints t) (constraint_indexes t) (partition_meta t) (dirty t) (clock t).
Definition with_meta (name : string) (pm : option PartitionedTableMetadata) (d : bool) (t : Table) : Table :=
  mkTable name (columns t) (heap t) (row_directory t) (column_indices t)
    (named_indices t) (secondary_indexes t) (foreign_keys t) (checks t) (primary_key_columns t)
    (unique_constraints t) (constraint_indexes t) pm d (clock t).

Abbreviation TM := (ST Table).

Definition gets {A} (f : Table → A) : TM A := λ t, (t, Ok (f t)).
Definition on_heap {A} (m : ST H A) : TM A := λ t,
  let '(h, r) := m (heap t) in (with_heap h t, r).
Definition mark_dirty : TM unit := st_modify (λ t, with_meta (table_name t) (partition_meta t) true t).
Definition clear_dirty : TM unit := st_modify (λ t, with_meta (table_name t) (partition_meta t) false t).
Definition is_dirty (t : Table) : bool := dirty t.
Definition set_name (name : string) : TM unit :=
  st_modify (λ t, with_meta name (partition_meta t) (dirty t) t).
Definition set_partition_metadata (pm : option PartitionedTableMetadata) : TM unit :=
  st_modify (λ t, with_meta (table_name t) pm (dirty t) t).
Definition isPartitioned (t : Table) : bool :=
  match partition_meta t with Some _ => true | None => false end.

(** ** Columns *)

Definition not_found (column : string) : exn := NotFoundException ("Column '" +:+ column +:+ "' not found").

(** [None] is the -1 of the code. *)
Fixpoint column_index_in (name : string) (cs : list Column) : option nat :=
  match cs with
  | [] => None
  | c :: cs => if bool_decide (col_name c = name) then Some 0%nat else S <$> column_index_in name cs
  end.
Definition get_column_index (t : Table) (name : string) : option nat := column_index_in name (columns t).

Definition get_column_at (t : Table) (i : nat) : res Column :=
  match columns t !! i with
  | Some c => Ok c
  | None => Throw (NotFoundException ("Column index " +:+ std_to_string (Z.of_nat i) +:+ " not found"))
  end.
Definition get_column (t : Table) (name : string) : res Column :=
  match column_index_in name (columns t) with
  | Some i => match columns t !! i with Some c => Ok c | None => UB end
  | None => Throw (not_found name)
  end.

Definition collect_column_types (t : Table) : list DataType := col_type <$> columns t.
Definition sync_heap_column_types : TM unit :=
  types ← gets collect_column_types; on_heap (rh_set_column_types types).

Definition get_primary_key_index (t : Table) : option nat :=
  fst <$> list_find (λ c, col_primary_key c = true) (columns t).

(** ** Rows *)

Definition get_row_count (t : Table) : nat := length (row_directory t).
Definition positions (t : Table) : list nat := seq 0 (length (row_directory t)).

Definition get_row (i : nat) : TM Row :=
  d ← gets row_directory;
  match d !! i with
  | None => st_throw (std_out_of_range ("Row index " +:+ std_to_string (Z.of_nat i) +:+ " out of range"))
  | Some ptr => on_heap (rh_get_row ptr)
  end.

Definition get_all_rows : TM (list Row) :=
  d ← gets row_directory; st_map (λ ptr, on_heap (rh_get_row ptr)) d.

Definition get_visible_row_indices (tm : TransactionManager) (reader_xid : Z)
    (snapshot : option TransactionSnapshot) : TM (list nat) :=
  ps ← gets positions;
  st_filter (λ i, row ← get_row i;
                  mret (isVisible tm (row_xmin row) (row_xmax row) reader_xid snapshot)) ps.
Definition get_visible_rows (tm : TransactionManager) (reader_xid : Z)
    (snapshot : option TransactionSnapshot) : TM (list Row) :=
  idxs ← get_visible_row_indices tm reader_xid snapshot; st_map get_row idxs.

(** ** Keys and indexes *)

Definition build_index_key (t : Table) (row : Row) (column_names : list string) : res IndexKey :=
  res_map (λ name, match get_column_index t name with
                   | None => Throw (not_found name)
                   | Some i => get_value row i
                   end) column_names.

(** [insert_into_indexes] and [remove_from_indexes] differ in the call they
    make on every index that is there. *)
Section each_index.
Context (call : index → IndexKey → res index).

Definition set_column_index (name : string) (idx : index) (t : Table) : Table :=
  with_indices (sm_set name idx (column_indices t)) (named_indices t) t.
Definition set_named_index (name : string) (idx : index) (t : Table) : Table :=
  with_indices (column_indices t) (sm_set name idx (named_indices t)) t.

Definition call_column (row : Row) (ic : nat * Column) : TM unit :=
  ixs ← gets column_indices;
  match sm_find (col_name ic.2) ixs with
  | None => mret tt
  | Some idx =>
      v ← st_lift (get_value row ic.1);
      idx' ← st_lift (call idx (key_of_value v));
      st_modify (set_column_index (col_name ic.2) idx')
  end.
Definition call_named (row : Row) (def : string * list string) : TM unit :=
  ixs ← gets named_indices;
  match sm_find def.1 ixs with
  | None => mret tt
  | Some idx =>
      t ← st_get;
      key ← st_lift (build_index_key t row def.2);
      idx' ← st_lift (call idx key);
      st_modify (set_named_index def.1 idx')
  end.
Definition each_index (row : Row) : TM unit :=
  cs ← gets columns;
  st_iter (call_column row) (imap pair cs);;
  sec ← gets secondary_indexes;
  st_iter (call_named row) sec;;
  cons ← gets constraint_indexes;
  st_iter (call_named row) cons.
End each_index.

Definition insert_into_indexes (row : Row) (row_index : nat) : TM unit :=
  each_index (λ idx key, BTree.insert idx key (Z.of_nat row_index)) row.
Definition remove_from_indexes (row : Row) (row_index : nat) : TM unit :=
  each_index (λ idx key, BTree.remove idx key (Z.of_nat row_index)) row.

(** A fresh index over all rows. *)
Definition fill_index (key_of : Row → res IndexKey) : TM index :=
  ps ← gets positions;
  st_fold (λ idx i, row ← get_row i; key ← st_lift (key_of row);
                    st_lift (BTree.insert idx key (Z.of_nat i))) None ps.

Definition build_index (name : string) : TM unit :=
  t ← st_get;
  match get_column_index t name with
  | None => st_throw (not_found name)
  | Some ci =>
      idx ← fill_index (λ row, key_of_value <$> get_value row ci);
      st_modify (set_column_index name idx)
  end.
Definition ensure_index_for_column : string → TM unit := build_index.
Definition drop_index (name : string) : TM unit :=
  st_modify (λ t, with_indices (sm_erase name (column_indices t)) (named_indices t) t).

Definition build_from (defs : smap (list string)) (name : string) : TM unit :=
  match sm_find name defs with
  | None => mret tt
  | Some cols =>
      t ← st_get;
      idx ← fill_index (λ row, build_index_key t row cols);
      st_modify (set_named_index name idx)
  end.
Definition build_named_index (name : string) : TM unit :=
  defs ← gets secondary_indexes; build_from defs name.
Definition build_constraint_index (name : string) : TM unit :=
  defs ← gets constraint_indexes; build_from defs name.

Definition ensure_constraint_index (name : string) (cols : list string) : TM unit :=
  st_modify (λ t, with_keys (primary_key_columns t) (unique_constraints t)
                    (sm_set name cols (constraint_indexes t)) t);;
  build_constraint_index name.
Definition drop_constraint_index (name : string) : TM unit :=
  st_modify (λ t, with_indices (column_indices t) (sm_erase name (named_indices t))
    (with_keys (primary_key_columns t) (unique_constraints t) (sm_erase name (constraint_indexes t)) t)).

Definition primary_key_index_name : string := "__pk".
Definition unique_constraint_index_name (uq : UniqueConstraintDefinition) : string :=
  if bool_decide (uq_name uq ≠ "") then "__uq_" +:+ uq_name uq
  else foldl (λ name col, name +:+ "_" +:+ col) "__uq"%string (uq_columns uq).

Definition sync_key_metadata_from_column_flags : TM unit :=
  st_modify (λ t,
    match primary_key_columns t with
    | [] => with_keys (col_name <$> filter (λ c, col_primary_key c = true) (columns t))
              (unique_constraints t) (constraint_indexes t) t
    | _ => t
    end).

Definition rebuild_indexes : TM unit :=
  st_modify (with_indices [] []);;
  sync_key_metadata_from_column_flags;;
  cs ← gets columns;
  st_iter (λ c, if col_primary_key c || col_unique c then build_index (col_name c) else mret tt) cs;;
  sec ← gets secondary_indexes;
  st_iter (λ d, build_named_index d.1) sec;;
  cons ← gets constraint_indexes;
  st_iter (λ d, build_constraint_index d.1) cons;;
  pk ← gets primary_key_columns;
  cons ← gets constraint_indexes;
  (if negb (bool_decide (pk = [])) && negb (sm_has primary_key_index_name cons)
   then ensure_constraint_index primary_key_index_name pk else mret tt);;
  uqs ← gets unique_constraints;
  st_iter (λ uq,
    cons ← gets constraint_indexes;
    if sm_has (unique_constraint_index_name uq) cons then mret tt
    else ensure_constraint_index (unique_constraint_index_name uq) (uq_columns uq)) uqs.

(** One index emptied and filled again, a row at a time. *)
Definition refill_column (name : string) : TM unit :=
  st_modify (set_column_index name None);;
  t ← st_get;
  match get_column_index t name with
  | None => mret tt
  | Some ci =>
      st_iter (λ i, row ← get_row i;
                    v ← st_lift (get_value row ci);
                    ixs ← gets column_indices;
                    idx ← st_lift (or_ub (sm_find name ixs));
                    idx' ← st_lift (BTree.insert idx (key_of_value v) (Z.of_nat i));
                    st_modify (set_column_index name idx')) (positions t)
  end.
Definition refill_named (def : string * list string) : TM unit :=
  ixs ← gets named_indices;
  match sm_find def.1 ixs with
  | None => mret tt
  | Some _ =>
      st_modify (set_named_index def.1 None);;
      t ← st_get;
      st_iter (λ i, row ← get_row i;
                    key ← st_lift (build_index_key t row def.2);
                    ixs ← gets named_indices;
                    idx ← st_lift (or_ub (sm_find def.1 ixs));
                    idx' ← st_lift (BTree.insert idx key (Z.of_nat i));
                    st_modify (set_named_index def.1 idx')) (positions t)
  end.
Definition reindex_after_delete : TM unit :=
  ixs ← gets column_indices;
  st_iter (λ e, refill_column e.1) ixs;;
  sec ← gets secondary_indexes;
  st_iter refill_named sec;;
  cons ← gets constraint_indexes;
  st_iter refill_named cons.

(** ** Lookups *)

Definition has_index (t : Table) (name : string) : bool :=
  sm_has name (column_indices t) ||
  existsb (λ d, match d.2 with c :: _ => bool_decide (c = name) | [] => false end) (secondary_indexes t).

Definition get_named_index (t : Table) (name : string) : option index := sm_find name (named_indices t).
Definition get_index (t : Table) (name : string) : option index :=
  match sm_find name (column_indices t) with
  | Some idx => Some idx
  | None =>
      match list_find (λ d, d.2 = [name]) (secondary_indexes t) with
      | Some (_, d) => get_named_index t d.1
      | None => None
      end
  end.

(** The first named index whose first column is [name]. *)
Fixpoint leading_index (t : Table) (name : string) (defs : smap (list string))
    : option (list string * index) :=
  match defs with
  | [] => None
  | (iname, cols) :: defs =>
      match cols with
      | c :: _ =>
          if bool_decide (c = name) then
            match sm_find iname (named_indices t) with
            | Some idx => Some (cols, idx)
            | None => leading_index t name defs
            end
          else leading_index t name defs
      | [] => leading_index t name defs
      end
  end.

Definition find_rows_by_value (name : string) (v : value) : TM (list Z) :=
  t ← st_get;
  match get_column_index t name with
  | None => st_throw (not_found name)
  | Some ci =>
      match sm_find name (column_indices t) with
      | Some idx => st_lift (find_equal idx (key_of_value v))
      | None =>
          match leading_index t name (secondary_indexes t) with
          | Some ([_], idx) => st_lift (find_equal idx (key_of_value v))
          | Some (_, idx) => st_lift (find_prefix idx (key_of_value v))
          | None =>
              is' ← st_filter (λ i, row ← get_row i; w ← st_lift (get_value row ci);
                                    mret (value_eq w v)) (positions t);
              mret (Z.of_nat <$> is')
          end
      end
  end.

Definition in_bounds (v : value) (lower : option value) (li : bool) (upper : option value) (ui : bool) : bool :=
  negb (is_null v) &&
  (match lower with Some l => if li then negb (value_lt v l) else value_lt l v | None => true end) &&
  (match upper with Some u => if ui then negb (value_lt u v) else value_lt v u | None => true end).

Definition find_rows_by_range (name : string) (lower : option value) (li : bool)
    (upper : option value) (ui : bool) : TM (list Z) :=
  t ← st_get;
  match get_column_index t name with
  | None => st_throw (not_found name)
  | Some ci =>
      let by_index idx := st_lift (find_range idx (key_of_value <$> lower) li (key_of_value <$> upper) ui) in
      match sm_find name (column_indices t) with
      | Some idx => by_index idx
      | None =>
          match leading_index t name (filter (λ d, length d.2 = 1%nat) (secondary_indexes t)) with
          | Some (_, idx) => by_index idx
          | None =>
              is' ← st_filter (λ i, row ← get_row i; v ← st_lift (get_value row ci);
                                    mret (in_bounds v lower li upper ui)) (positions t);
              mret (Z.of_nat <$> is')
          end
      end
  end.

Definition find_rows_by_predicate (predicate : Row → bool) : TM (list nat) :=
  ps ← gets positions;
  st_filter (λ i, row ← get_row i; mret (predicate row)) ps.

Definition find_rows_by_index_key (iname : string) (key : IndexKey) : TM (list Z) :=
  t ← st_get;
  match sm_find iname (named_indices t), sm_find iname (secondary_indexes t) with
  | Some idx, Some cols =>
      if (length key =? length cols)%nat then st_lift (find_equal idx key)
      else if (length key <? length cols)%nat then st_lift (find_prefix idx key)
      else mret []
  | _, _ => mret []
  end.

(** The longest index whose columns start with [prefix]; the first of them. *)
Definition find_matching_secondary_index (t : Table) (prefix : list string) : option string :=
  match prefix with
  | [] => None
  | _ =>
      fst <$> foldl (λ best d,
        if bool_decide (prefix `prefix_of` d.2) then
          match best with
          | Some (_, best_len) => if (best_len <? length d.2)%nat then Some (d.1, length d.2) else best
          | None => Some (d.1, length d.2)
          end
        else best) None (secondary_indexes t)
  end.

(** ** Validation *)

(** [static_cast<size_t>(-1)]: no row is excluded. *)
Definition no_row : Z := 2 ^ 64 - 1.

(** [idx != exclude_row_index && get_row(idx).get_xmax() == 0]. *)
Definition live_other (exclude : Z) (i : Z) : TM bool :=
  if i =? exclude then mret false
  else row ← get_row (Z.to_nat i); mret (row_xmax row =? 0).

(** A live row other than the excluded one with the key, by a scan. *)
Definition scan_for_key (t : Table) (key : IndexKey) (exclude : Z) (cols : list string) : TM bool :=
  st_any (λ i, if Z.of_nat i =? exclude then mret false
               else row ← get_row i;
                    if negb (row_xmax row =? 0) then mret false
                    else key' ← st_lift (build_index_key t row cols);
                         mret (key_eq key' key)) (positions t).

Definition rows_share_key (key : IndexKey) (exclude : Z) (iname : string) (cols : list string) : TM bool :=
  t ← st_get;
  match sm_find iname (named_indices t) with
  | Some idx => rows ← st_lift (find_equal idx key); st_any (live_other exclude) rows
  | None =>
      match cols with
      | [c] =>
          if has_index t c then
            v ← st_lift (or_ub (head key));
            rows ← find_rows_by_value c v; st_any (live_other exclude) rows
          else scan_for_key t key exclude cols
      | _ => scan_for_key t key exclude cols
      end
  end.

Definition validate_primary_key_uniqueness (row : Row) (exclude : Z) : TM bool :=
  t ← st_get;
  let pk :=
    match primary_key_columns t with
    | [] => match get_primary_key_index t with
            | None => None
            | Some i => (λ c, [col_name c]) <$> columns t !! i
            end
    | cs => Some cs
    end in
  match pk with
  | None => mret true
  | Some cs =>
      key ← st_lift (build_index_key t row cs);
      if key_has_null key then mret false
      else b ← rows_share_key key exclude primary_key_index_name cs; mret (negb b)
  end.

(** The column flag UNIQUE: does another live row hold the value? *)
Definition column_conflict (row : Row) (exclude : Z) (ic : nat * Column) : TM bool :=
  t ← st_get;
  let name := col_name ic.2 in
  if negb (col_unique ic.2) then mret false
  else if existsb (λ uq, bool_decide (uq_columns uq = [name])) (unique_constraints t) then mret false
  else
    v ← st_lift (get_value row ic.1);
    if is_null v then mret false
    else if has_index t name then
      rows ← find_rows_by_value name v; st_any (live_other exclude) rows
    else
      st_any (λ j, if Z.of_nat j =? exclude then mret false
                   else row' ← get_row j;
                        if negb (row_xmax row' =? 0) then mret false
                        else w ← st_lift (get_value row' ic.1); mret (value_eq w v)) (positions t).

Definition constraint_conflict (row : Row) (exclude : Z) (uq : UniqueConstraintDefinition) : TM bool :=
  t ← st_get;
  key ← st_lift (build_index_key t row (uq_columns uq));
  if key_has_null key then mret false
  else rows_share_key key exclude (unique_constraint_index_name uq) (uq_columns uq).

Definition validate_unique_constraint (row : Row) (exclude : Z) : TM bool :=
  t ← st_get;
  b ← st_any (column_conflict row exclude) (imap pair (columns t));
  if (b : bool) then mret false
  else b' ← st_any (constraint_conflict row exclude) (unique_constraints t); mret (negb b').

(** [make_table_check_evaluator]. *)
Definition check_evaluator (t : Table) : Evaluator Q unit :=
  mkEvaluator (Q := Q) ((λ c, mkBinding (table_name t) (table_name t) (col_name c)) <$> columns t)
    None None None false None None ∅ (clock t).

Fixpoint first_violated (t : Table) (row : Row) (cks : list (CheckConstraintDefinition Q))
    : res (option string) :=
  match cks with
  | [] => Ok None
  | ck :: cks =>
      match ck_predicate ck with
      | None => first_violated t row cks
      | Some p =>
          b ← snd (evaluate_check_condition 0 (check_evaluator t) row (Some p) (mkSt [] "" tt));
          if (b : bool) then first_violated t row cks else Ok (Some (ck_name ck))
      end
  end.
Definition find_violated_check (row : Row) : TM (option string) :=
  t ← st_get; st_lift (first_violated t row (checks t)).
Definition validate_check_constraints (row : Row) : TM bool :=
  v ← find_violated_check row; mret (match v with None => true | Some _ => false end).

Definition null_allowed (row : Row) (ic : nat * Column) : res bool :=
  if col_nullable ic.2 then Ok true else (λ v, negb (is_null v)) <$> get_value row ic.1.

Definition validate_row (row : Row) (exclude : Z) : TM bool :=
  t ← st_get;
  if negb (length (row_values row) =? length (columns t))%nat then mret false
  else
    nulls ← st_lift (res_map (null_allowed row) (imap pair (columns t)));
    if negb (forallb id nulls) then mret false
    else
      u ← validate_unique_constraint row exclude;
      if negb u then mret false
      else
        p ← validate_primary_key_uniqueness row exclude;
        if negb p then mret false
        else validate_check_constraints row.

Definition schema_mismatch : exn := InvalidOperationException "Row column count does not match table schema".
Definition validate_schema (row : Row) : TM unit :=
  t ← st_get;
  if negb (length (row_values row) =? length (columns t))%nat then st_throw schema_mismatch else mret tt.

Definition check_violated (name : string) : exn :=
  ConstraintException ("CHECK constraint '" +:+ name +:+ "' violated").
Definition row_refused : exn := ConstraintException "Row does not satisfy table constraints".
Definition update_refused : exn := ConstraintException "Updated row does not satisfy table constraints".
Definition bad_row_index : exn := std_out_of_range "Row index out of range".

(** The tests before a row is stored. *)
Definition accept_row (row : Row) (exclude : Z) (refused : exn) : TM unit :=
  validate_schema row;;
  violated ← find_violated_check row;
  match violated with
  | Some name => st_throw (check_violated name)
  | None =>
      ok ← validate_row row exclude;
      if (ok : bool) then mret tt else st_throw refused
  end.

(** ** Changing rows *)

Definition push_row (row : Row) : TM unit :=
  ptr ← on_heap (rh_insert_row row);
  st_modify (λ t, with_directory (row_directory t ++ [ptr]) t).

Definition insert_row (row : Row) : TM unit :=
  accept_row row no_row row_refused;;
  push_row row;;
  t ← st_get;
  insert_into_indexes row (length (row_directory t) - 1);;
  mark_dirty.

Definition insert_row_versioned (row : Row) (xmin : Z) : TM unit :=
  insert_row (set_xmax (set_xmin row xmin) 0).

Definition replace_row (i : nat) (row : Row) : TM unit :=
  d ← gets row_directory;
  match d !! i with
  | None => st_lift UB
  | Some ptr =>
      ptr' ← on_heap (rh_update_row ptr row);
      st_modify (λ t, with_directory (<[i := ptr']> (row_directory t)) t)
  end.

Definition check_row_index (i : nat) : TM unit :=
  d ← gets row_directory;
  if (length d <=? i)%nat then st_throw bad_row_index else mret tt.

Definition update_row (i : nat) (row : Row) : TM unit :=
  check_row_index i;;
  accept_row row (Z.of_nat i) update_refused;;
  old ← get_row i;
  remove_from_indexes old i;;
  let stored := set_xmax (set_xmin row (row_xmin old)) (row_xmax old) in
  replace_row i stored;;
  insert_into_indexes stored i;;
  mark_dirty.

Definition update_row_versioned (i : nat) (new_row : Row) (xid : Z) : TM unit :=
  check_row_index i;;
  accept_row new_row (Z.of_nat i) update_refused;;
  old ← get_row i;
  replace_row i (set_xmax old xid);;
  let new_row := set_xmax (set_xmin new_row xid) 0 in
  push_row new_row;;
  t ← st_get;
  insert_into_indexes new_row (length (row_directory t) - 1);;
  mark_dirty.

Definition delete_row (i : nat) : TM unit :=
  check_row_index i;;
  d ← gets row_directory;
  ptr ← st_lift (or_ub (d !! i));
  on_heap (rh_delete_slot ptr);;
  st_modify (λ t, with_directory (delete i (row_directory t)) t);;
  reindex_after_delete;;
  mark_dirty.

Definition delete_row_versioned (i : nat) (xid : Z) : TM unit :=
  check_row_index i;;
  row ← get_row i;
  replace_row i (set_xmax row xid);;
  mark_dirty.

(** The heap emptied and filled with [rows]. *)
Definition store_rows (rows : list Row) : TM unit :=
  on_heap rh_clear;;
  st_modify (with_directory []);;
  sync_heap_column_types;;
  st_iter push_row rows.

Definition freeze_committed_versions (xid : Z) : TM unit :=
  if xid =? 0 then mret tt
  else
    rows ← get_all_rows;
    if negb (existsb (λ r, (row_xmax r =? xid) || (row_xmin r =? xid)) rows) then mret tt
    else
      store_rows (omap (freeze_row xid) rows);;
      rebuild_indexes;;
      mark_dirty.

Definition vacuum_versions_to (tm : TransactionManager) (horizon : Z) : TM unit :=
  rows ← get_all_rows;
  store_rows (omap (vacuum_row tm horizon) rows);;
  rebuild_indexes;;
  mark_dirty.
Definition vacuum_versions (tm : TransactionManager) : TM unit :=
  vacuum_versions_to tm (getVacuumHorizon tm).

Definition delete_all : TM unit :=
  on_heap rh_clear;;
  st_modify (with_directory []);;
  st_modify (λ t, with_indices ((λ e, (e.1, None)) <$> column_indices t)
                               ((λ e, (e.1, None)) <$> named_indices t) t);;
  mark_dirty.

Definition rebuild_row_directory : TM unit :=
  st_modify (with_directory []);;
  ptrs ← on_heap rh_scan_pointers;
  st_modify (with_directory ptrs).

(** ** Changing the schema *)

Definition column_exists (name : string) : exn := ConstraintException ("Column '" +:+ name +:+ "' already exists").
Definition not_null_added (name : string) : exn :=
  ConstraintException ("Cannot add NOT NULL column '" +:+ name
                       +:+ "' to a non-empty table without a default value").

Definition add_column (c : Column) : TM unit :=
  t ← st_get;
  if existsb (λ c', bool_decide (col_name c' = col_name c)) (columns t)
  then st_throw (column_exists (col_name c))
  else if negb (col_nullable c) && negb (bool_decide (row_directory t = []))
  then st_throw (not_null_added (col_name c))
  else
    existing ← get_all_rows;
    st_modify (λ t, with_columns (columns t ++ [c]) t);;
    store_rows ((λ r, add_value r VNull) <$> existing);;
    (if col_primary_key c || col_unique c then build_index (col_name c) else mret tt);;
    mark_dirty.

Definition mentions (name : string) (cols : list string) : bool := existsb (λ c, bool_decide (c = name)) cols.

Definition drop_column (name : string) : TM unit :=
  t ← st_get;
  match get_column_index t name with
  | None => st_throw (not_found name)
  | Some ci =>
      if (length (columns t) <=? 1)%nat
      then st_throw (InvalidOperationException "Cannot drop the last column of a table")
      else
        drop_index name;;
        st_iter (λ d : string * list string,
          if mentions name d.2 then
            st_modify (λ t, with_indices (column_indices t) (sm_erase d.1 (named_indices t))
                              (with_secondary (sm_erase d.1 (secondary_indexes t)) t))
          else mret tt) (secondary_indexes t);;
        st_iter (λ d : string * list string,
          if mentions name d.2 then drop_constraint_index d.1 else mret tt) (constraint_indexes t);;
        st_modify (λ t, with_keys (filter (λ c, c ≠ name) (primary_key_columns t))
          (filter (λ uq, mentions name (uq_columns uq) = false) (unique_constraints t))
          (constraint_indexes t) t);;
        existing ← get_all_rows;
        st_modify (λ t, with_columns (delete ci (columns t)) t);;
        (on_heap rh_clear;;
         st_modify (with_directory []);;
         sync_heap_column_types;;
         st_iter (λ row, row' ← st_lift (remove_value row ci); push_row row') existing);;
        rebuild_indexes;;
        mark_dirty
  end.

Definition rename_in (old_name new_name : string) (cols : list string) : list string :=
  (λ c, if bool_decide (c = old_name) then new_name else c) <$> cols.

Definition rename_column (old_name new_name : string) : TM unit :=
  if bool_decide (old_name = new_name) then mret tt
  else
    t ← st_get;
    match get_column_index t old_name with
    | None => st_throw (not_found old_name)
    | Some ci =>
        if bool_decide (is_Some (get_column_index t new_name)) then st_throw (column_exists new_name)
        else
          st_modify (λ t, with_columns (alter (λ c, col_set_name c new_name) ci (columns t)) t);;
          st_modify (λ t, match sm_find old_name (column_indices t) with
                          | None => t
                          | Some idx =>
                              with_indices (sm_set new_name idx (sm_erase old_name (column_indices t)))
                                (named_indices t) t
                          end);;
          st_modify (λ t, with_secondary
            ((λ d, (d.1, rename_in old_name new_name d.2)) <$> secondary_indexes t) t);;
          mark_dirty
    end.

(** ** Secondary indexes *)

Definition all_columns_found (t : Table) (cols : list string) : res unit :=
  res_fold (λ _ c, match get_column_index t c with None => Throw (not_found c) | Some _ => Ok tt end) tt cols.

Definition create_secondary_index (iname : string) (cols : list string) : TM unit :=
  t ← st_get;
  if sm_has iname (secondary_indexes t)
  then st_throw (ConstraintException ("Index '" +:+ iname +:+ "' already exists"))
  else if bool_decide (cols = [])
  then st_throw (InvalidOperationException "Index must include at least one column")
  else
    st_lift (all_columns_found t cols);;
    st_modify (λ t, with_secondary (sm_set iname cols (secondary_indexes t)) t);;
    build_named_index iname;;
    mark_dirty.

Definition is_column_still_indexed (t : Table) (name : string) : bool :=
  existsb (λ c, bool_decide (col_name c = name) && (col_primary_key c || col_unique c)) (columns t) ||
  existsb (λ d, bool_decide (d.2 = [name])) (secondary_indexes t).

Definition drop_secondary_index (iname : string) : TM bool :=
  t ← st_get;
  match sm_find iname (secondary_indexes t) with
  | None => mret false
  | Some cols =>
      st_modify (λ t, with_indices (column_indices t) (sm_erase iname (named_indices t))
                        (with_secondary (sm_erase iname (secondary_indexes t)) t));;
      t ← st_get;
      match cols with
      | [c] => if negb (is_column_still_indexed t c) then drop_index c else mret tt
      | _ => mret tt
      end;;
      mark_dirty;;
      mret true
  end.
Definition has_secondary_index (t : Table) (iname : string) : bool := sm_has iname (secondary_indexes t).

(** ** Constraints *)

Definition add_foreign_key (fk : ForeignKeyDefinition) : TM unit :=
  st_modify (λ t, with_rules (foreign_keys t ++ [fk]) (checks t) t);; mark_dirty.

Definition add_check (ck : CheckConstraintDefinition Q) : TM unit :=
  t ← st_get;
  if existsb (λ e, bool_decide (ck_name e = ck_name ck)) (checks t)
  then st_throw (ConstraintException ("CHECK constraint '" +:+ ck_name ck +:+ "' already exists"))
  else st_modify (λ t, with_rules (foreign_keys t) (checks t ++ [ck]) t);; mark_dirty.

Definition drop_check (name : string) : TM bool :=
  t ← st_get;
  match list_find (λ e, ck_name e = name) (checks t) with
  | None => mret false
  | Some (i, _) =>
      st_modify (λ t, with_rules (foreign_keys t) (delete i (checks t)) t);; mark_dirty;; mret true
  end.

(** [get_mutable_column(get_column_index(name))] and an assignment to it. *)
Definition alter_column (name : string) (f : Column → Column) : TM unit :=
  st_modify (λ t, match get_column_index t name with
                  | None => t
                  | Some i => with_columns (alter f i (columns t)) t
                  end).

Definition apply_primary_key (cols : list string) : TM unit :=
  if bool_decide (cols = [])
  then st_throw (InvalidOperationException "PRIMARY KEY must include at least one column")
  else
    sync_key_metadata_from_column_flags;;
    t ← st_get;
    if negb (bool_decide (primary_key_columns t = []))
    then st_throw (ConstraintException "Table already has a primary key")
    else
      st_lift (all_columns_found t cols);;
      st_iter (λ c, alter_column c (λ c, col_set_primary_key c true)) cols;;
      st_modify (λ t, with_keys cols (unique_constraints t) (constraint_indexes t) t);;
      ensure_constraint_index primary_key_index_name cols;;
      match cols with [c] => ensure_index_for_column c | _ => mret tt end;;
      mark_dirty.

Definition drop_primary_key : TM bool :=
  sync_key_metadata_from_column_flags;;
  t ← st_get;
  if bool_decide (primary_key_columns t = []) then mret false
  else
    drop_constraint_index primary_key_index_name;;
    st_iter (λ name,
      t ← st_get;
      match get_column_index t name with
      | None => mret tt
      | Some _ =>
          alter_column name (λ c, col_set_primary_key c false);;
          t ← st_get;
          c ← st_lift (get_column t name);
          if negb (col_unique c) then drop_index name else mret tt
      end) (primary_key_columns t);;
    st_modify (λ t, with_keys [] (unique_constraints t) (constraint_indexes t) t);;
    mark_dirty;;
    mret true.

(** A clash with a constraint that is there already. *)
Fixpoint unique_clash (uq : UniqueConstraintDefinition) (existing : list UniqueConstraintDefinition) : option exn :=
  match existing with
  | [] => None
  | e :: existing =>
      if bool_decide (uq_columns e = uq_columns uq)
      then Some (ConstraintException "UNIQUE constraint already exists on columns")
      else if bool_decide (uq_name uq ≠ "") && bool_decide (uq_name e = uq_name uq)
      then Some (ConstraintException ("UNIQUE constraint '" +:+ uq_name uq +:+ "' already exists"))
      else unique_clash uq existing
  end.

Definition apply_unique_constraint (uq : UniqueConstraintDefinition) : TM unit :=
  t ← st_get;
  if bool_decide (uq_columns uq = [])
  then st_throw (InvalidOperationException "UNIQUE must include at least one column")
  else
    st_lift (all_columns_found t (uq_columns uq));;
    match unique_clash uq (unique_constraints t) with
    | Some e => st_throw e
    | None =>
        let stored :=
          if bool_decide (uq_name uq = "")
          then mkUnique (foldl (λ name col, name +:+ "_" +:+ col) "uq"%string (uq_columns uq)) (uq_columns uq)
          else uq in
        st_modify (λ t, with_keys (primary_key_columns t) (unique_constraints t ++ [stored])
                          (constraint_indexes t) t);;
        match uq_columns stored with
        | [c] => alter_column c (λ c, col_set_unique c true);; ensure_index_for_column c
        | _ => mret tt
        end;;
        ensure_constraint_index (unique_constraint_index_name stored) (uq_columns stored);;
        mark_dirty
    end.

(** The column flag dropped with its index. *)
Definition clear_unique_flag (name : string) : TM unit :=
  alter_column name (λ c, col_set_unique c false);;
  t ← st_get;
  c ← st_lift (get_column t name);
  if negb (col_primary_key c) then drop_index name else mret tt.

Definition drop_unique_constraint (cols : list string) : TM bool :=
  t ← st_get;
  match list_find (λ uq, uq_columns uq = cols) (unique_constraints t) with
  | Some (i, uq) =>
      drop_constraint_index (unique_constraint_index_name uq);;
      match cols with
      | [c] => match get_column_index t c with Some _ => clear_unique_flag c | None => mret tt end
      | _ => mret tt
      end;;
      st_modify (λ t, with_keys (primary_key_columns t) (delete i (unique_constraints t))
                        (constraint_indexes t) t);;
      mark_dirty;;
      mret true
  | None =>
      match cols with
      | [name] =>
          match get_column_index t name with
          | None => mret false
          | Some _ =>
              c ← st_lift (get_column t name);
              if negb (col_unique c) then mret false
              else clear_unique_flag name;; mark_dirty;; mret true
          end
      | _ => mret false
      end
  end.

(** ** Construction *)

Definition new_Table (name : string) (h : H) (today : string) : Table :=
  mkTable name [] h [] [] [] [] [] [] [] [] [] None false today.

(** The partitions added one by one to fresh metadata; an error is ignored. *)
Definition clone_metadata (pm : PartitionedTableMetadata) : PartitionedTableMetadata :=
  foldl (λ md p, fst (addPartition md p)) (new_metadata (kind_ pm) (key_column pm)) (partitions pm).

(** [clone]: [h] is the heap of the new object, empty.  The copy comes second. *)
Definition clone (h : H) : TM Table := λ t,
  match get_all_rows t with
  | (t', Ok rows) =>
      let build : TM unit :=
        st_modify (with_columns (columns t));;
        sync_heap_column_types;;
        st_iter push_row rows;;
        st_modify (λ c, mkTable (table_name c) (columns c) (heap c) (row_directory c) (column_indices c)
          (named_indices c) (secondary_indexes t) (foreign_keys t) (checks t) (primary_key_columns t)
          (unique_constraints t) (constraint_indexes t) (clone_metadata <$> partition_meta t)
          (dirty c) (clock c));;
        rebuild_indexes;;
        st_modify (λ c, with_meta (table_name c) (partition_meta c) (dirty t) c) in
      match build (new_Table (table_name t) h (clock t)) with
      | (c, Ok _) => (t', Ok c)
      | (_, Throw e) => (t', Throw e)
      | (_, UB) => (t', UB)
      end
  | (t', Throw e) => (t', Throw e)
  | (t', UB) => (t', UB)
  end.

Definition table_to_string (t : Table) : string :=
  "Table: " +:+ table_name t +:+ String newline_char "Columns:" +:+ String newline_char ""
  +:+ foldr (λ c s, "  " +:+ col_to_string c +:+ String newline_char s) ""%string (columns t)
  +:+ "Rows: " +:+ std_to_string (Z.of_nat (length (row_directory t))) +:+ String newline_char "".
End table.
Arguments Table : clear implicits.
End Table.
