(* ===== verification/TableSpec.v ===== *)
(** * What tables promise

    The operations of Table.v against a table that is the list of its rows: the
    heap, the directory and the indexes disappear, and the uniqueness tests
    become scans. *)

From Stdlib Require Import ZArith Lia.
From S2P Require Import Prelude CppNum Values Rows IndexKey BTree Transactions Expr Evaluator Partition RowHeap Table.
Import Table.

(** ** Running code that only reads *)

Section spec.
Context {H : Type} {RH : RowHeap H} {RS : RowHeapSpec H} {Q : Type}.
Implicit Types (t : Table H Q) (h : H) (rows : list Row) (n : nat).

(** The heap and the directory hold [rows], in order. *)
Record holds_rows n t rows : Prop := {
  hr_map : ∃ m, rh_holds n (collect_column_types t) (heap t) m
    ∧ Forall2 (λ ptr row, m !! ptr = Some row) (row_directory t) rows ∧ NoDup (row_directory t);
  hr_ok : Forall (rh_row_ok (collect_column_types t)) rows;
  hr_fit : Forall (λ r, rh_fits r = true) rows
}.

(** [m] has the outcome [r] on the table [t], whatever the state of the heap
    that holds [rows], and changes nothing but that state. *)
Definition runs {A} n t rows (m : ST (Table H Q) A) (r : res A) : Prop :=
  ∀ h, holds_rows n (with_heap h t) rows →
  ∃ h', m (with_heap h t) = (with_heap h' t, r) ∧ holds_rows n (with_heap h' t) rows.

Section runs.
Context (n : nat) (t : Table H Q) (rows : list Row).
Abbreviation runs := (runs n t rows).

Lemma runs_ret {A} (a : A) : runs (mret a) (Ok a).
Proof. intros h Hh. by exists h. Qed.
Lemma runs_lift {A} (r : res A) : runs (st_lift r) r.
Proof. intros h Hh. by exists h. Qed.
Lemma runs_throw {A} e : runs (st_throw (A := A) e) (Throw e).
Proof. intros h Hh. by exists h. Qed.
Lemma runs_bind {A B} (m : ST _ A) (f : A → ST _ B) a r :
  runs m (Ok a) → runs (f a) r → runs (m ≫= f) r.
Proof.
  intros Hm Hf h Hh. destruct (Hm h Hh) as (h1 & E & Hh1). rewrite ST_bind_eq, E. by apply Hf.
Qed.
Lemma runs_bind_throw {A B} (m : ST _ A) (f : A → ST _ B) e :
  runs m (Throw e) → runs (m ≫= f) (Throw e).
Proof.
  intros Hm h Hh. destruct (Hm h Hh) as (h1 & E & Hh1). rewrite ST_bind_eq, E. eauto.
Qed.
Lemma runs_bind_res {A B} (ra : res A) (f : A → ST _ B) r :
  match ra with Ok a => runs (f a) r | Throw e => r = Throw e | UB => r = UB end →
  runs (st_lift ra ≫= f) r.
Proof.
  intros Hf h Hh. rewrite ST_bind_eq. cbn [st_lift]. destruct ra; [by apply Hf|subst; by exists h..].
Qed.
Lemma runs_get {B} (f : Table H Q → ST _ B) r : (∀ h, runs (f (with_heap h t)) r) → runs (st_get ≫= f) r.
Proof. intros Hf h Hh. rewrite ST_bind_eq. cbn [st_get]. by apply (Hf h). Qed.
Lemma runs_gets {A B} (g : Table H Q → A) (f : A → ST _ B) r :
  (∀ h, runs (f (g (with_heap h t))) r) → runs (gets g ≫= f) r.
Proof. intros Hf h Hh. rewrite ST_bind_eq. cbn [gets]. by apply (Hf h). Qed.

Lemma runs_any {A} (f : A → ST _ bool) (g : A → bool) l :
  (∀ x, x ∈ l → runs (f x) (Ok (g x))) → runs (st_any f l) (Ok (existsb g l)).
Proof.
  induction l as [|x l IH]; intros Hl; cbn [st_any existsb]; [apply runs_ret|].
  eapply runs_bind; [apply Hl; left|]. destruct (g x); [apply runs_ret|].
  apply IH. intros y Hy. apply Hl. by right.
Qed.

Lemma runs_fold {A B} (f : B → A → ST _ B) (g : B → A → B) l : ∀ acc,
  (∀ x acc, x ∈ l → runs (f acc x) (Ok (g acc x))) → runs (st_fold f acc l) (Ok (foldl g acc l)).
Proof.
  induction l as [|x l IH]; intros acc Hl; cbn [st_fold foldl]; [apply runs_ret|].
  eapply runs_bind; [apply Hl; left|]. apply IH. intros y acc' Hy. apply Hl. by right.
Qed.

Lemma runs_filter {A} (f : A → ST _ bool) (g : A → bool) l :
  (∀ x, x ∈ l → runs (f x) (Ok (g x))) → runs (st_filter f l) (Ok (filter (λ x, g x = true) l)).
Proof.
  intros Hl. unfold st_filter. rewrite <- (app_nil_l (filter _ l)), <- foldl_filter.
  apply (runs_fold _ (λ acc x, if g x then acc ++ [x] else acc)). intros x acc Hx.
  eapply runs_bind; [by apply Hl|]. apply runs_ret.
Qed.

Lemma runs_map {A B} (f : A → ST _ B) (g : A → B) l :
  (∀ x, x ∈ l → runs (f x) (Ok (g x))) → runs (st_map f l) (Ok (g <$> l)).
Proof.
  induction l as [|x l IH]; intros Hl; cbn [st_map]; [apply runs_ret|].
  eapply runs_bind; [apply Hl; left|].
  eapply runs_bind; [apply IH; intros y Hy; apply Hl; by right|]. apply runs_ret.
Qed.

(** Reading a pointer of the directory. *)
Lemma runs_get_ptr i ptr row :
  row_directory t !! i = Some ptr → rows !! i = Some row → runs (on_heap (rh_get_row ptr)) (Ok row).
Proof.
  intros Hptr Hi h Hh. pose proof Hh as [(m & Hm & Hd & Hnd) Hok Hfit].
  destruct (Forall2_lookup_r _ _ _ _ _ Hd Hi) as (ptr' & Hptr' & Hrow).
  cbn [row_directory with_heap] in *. simplify_eq.
  destruct (rh_get_ok _ _ _ _ _ _ Hm Hrow) as (h' & E & Hm').
  unfold on_heap. cbn [heap with_heap] in *. rewrite E. exists h'. split; [done|].
  split; [|done|done]. by exists m.
Qed.

Lemma holds_length h : holds_rows n (with_heap h t) rows → length (row_directory t) = length rows.
Proof. intros [(m & _ & Hd & _) _ _]. cbn in Hd. by apply Forall2_length in Hd. Qed.

Lemma runs_get_row i row : rows !! i = Some row → runs (get_row i) (Ok row).
Proof.
  intros Hi. apply runs_gets. intros h0. cbn [row_directory with_heap].
  destruct (row_directory t !! i) as [ptr|] eqn:Hptr; [by eapply runs_get_ptr|].
  intros h Hh. apply holds_length in Hh. apply lookup_ge_None in Hptr. apply lookup_lt_Some in Hi. lia.
Qed.

Lemma runs_get_row_bad i : rows !! i = None →
  runs (get_row i) (Throw (std_out_of_range ("Row index " +:+ std_to_string (Z.of_nat i) +:+ " out of range"))).
Proof.
  intros Hi h Hh. pose proof (holds_length _ Hh) as Hl. exists h. split; [|done].
  unfold get_row. rewrite ST_bind_eq. cbn [gets row_directory with_heap].
  rewrite (lookup_ge_None_2 (row_directory t)); [done|]. apply lookup_ge_None in Hi. lia.
Qed.

Lemma runs_get_all_rows : length (row_directory t) = length rows → runs get_all_rows (Ok rows).
Proof.
  intros Hl. apply runs_gets. intros h0. cbn [row_directory with_heap].
  assert (∀ d rs k, drop k (row_directory t) = d → drop k rows = rs →
    runs (st_map (λ ptr, on_heap (rh_get_row ptr)) d) (Ok rs)) as Hgo; [|by apply (Hgo _ _ 0%nat)].
  induction d as [|ptr d IH]; intros rs k Hd Hrs.
  - assert (rs = []) as ->; [|apply runs_ret].
    apply nil_length_inv. rewrite <- Hrs, length_drop, <- Hl. apply (f_equal length) in Hd.
    rewrite length_drop in Hd. cbn in Hd. lia.
  - assert (row_directory t !! k = Some ptr) as Hk.
    { rewrite <- (Nat.add_0_r k), <- lookup_drop, Hd. done. }
    destruct (lookup_lt_is_Some_2 rows k) as [row Hrow].
    { rewrite <- Hl. by eapply lookup_lt_Some. }
    rewrite (drop_S rows row k Hrow) in Hrs. subst rs. cbn [st_map].
    eapply runs_bind; [by eapply runs_get_ptr|].
    eapply runs_bind; [apply (IH _ (S k)); [|done]|apply runs_ret].
    rewrite (drop_S _ _ _ Hk) in Hd. by injection Hd.
Qed.
End runs.

(** ** Keys *)

(** A column of a kind holds values of the kind, or NULL. *)
Definition vtyped (o : option kind) (v : value) : Prop :=
  v = VNull ∨ match o with Some k => has_kind k v | None => True end.
Definition typed_values (ks : list (option kind)) (row : Row) : Prop := Forall2 vtyped ks (row_values row).

(** The kinds of the columns of an index. *)
Definition cols_kinds t (ks : list (option kind)) (cols : list string) : option (list kind) :=
  mapM (λ c, i ← get_column_index t c; mjoin (ks !! i)) cols.
(** Columns that can be indexed. *)
Definition indexable t ks (cols : list string) : Prop := cols ≠ [] ∧ is_Some (cols_kinds t ks cols).

Definition row_key t (cols : list string) (row : Row) : IndexKey :=
  match build_index_key t row cols with Ok k => k | _ => [] end.

Lemma build_index_key_ok t ks cols kk row :
  typed_values ks row → cols_kinds t ks cols = Some kk →
  ∃ key, build_index_key t row cols = Ok key ∧ length key = length cols ∧
    (key_has_null key = false → typed_key kk key).
Proof.
  intros Hty Hk. apply mapM_Some in Hk. unfold build_index_key.
  induction Hk as [|c k cols kk Hc _ IH]; [by exists []|].
  cbn [res_map]. destruct (get_column_index t c) as [i|]; [|done]. cbn [mbind option_bind] in Hc.
  destruct (ks !! i) as [o|] eqn:Hi; [|done]. cbn in Hc. subst o.
  destruct (Forall2_lookup_l _ _ _ _ _ Hty Hi) as (v & Hv & Hvt).
  assert (get_value row i = Ok v) as -> by (unfold get_value; by rewrite Hv).
  cbn [mbind res_bind]. destruct IH as (key & -> & Hl & Hkey). cbn [mbind res_bind].
  exists (v :: key). split; [done|]. split; [cbn; lia|]. cbn [key_has_null existsb].
  intros [Hn Hns]%orb_false_iff. split; [|by apply Hkey]. destruct Hvt as [->|]; done.
Qed.

Lemma row_key_build t ks cols row :
  typed_values ks row → indexable t ks cols → build_index_key t row cols = Ok (row_key t cols row).
Proof.
  intros Hty [_ [kk Hk]]. destruct (build_index_key_ok _ _ _ _ _ Hty Hk) as (key & E & _).
  unfold row_key. by rewrite E.
Qed.

(** The keys of the rows with their positions, and those an index keeps. *)
Definition key_pairs t cols rows : list (IndexKey * Z) :=
  imap (λ i row, (row_key t cols row, Z.of_nat i)) rows.
Definition solid (kvs : list (IndexKey * Z)) : list (IndexKey * Z) :=
  filter (λ kv, key_has_null kv.1 || key_empty kv.1 = false) kvs.

(** The index holds the position of every row under its key. *)
Definition agrees t cols rows (idx : index) : Prop := represents idx (al_build (solid (key_pairs t cols rows))).

Lemma row_key_typed t ks cols kk row :
  typed_values ks row → cols_kinds t ks cols = Some kk →
  key_has_null (row_key t cols row) || key_empty (row_key t cols row) = false →
  index_key kk (row_key t cols row).
Proof.
  intros Hty Hk [Hn He]%orb_false_iff. destruct (build_index_key_ok _ _ _ _ _ Hty Hk) as (key & E & _ & Hkey).
  unfold row_key in *. rewrite E in *. split; [by apply Hkey|]. by destruct key.
Qed.

Lemma solid_typed t ks cols kk rows :
  Forall (typed_values ks) rows → cols_kinds t ks cols = Some kk →
  Forall (λ kv, index_key kk kv.1) (solid (key_pairs t cols rows)).
Proof.
  intros Hty Hk. apply Forall_forall. intros [key i] [Hs Hin]%list_elem_of_filter.
  unfold key_pairs in Hin. apply elem_of_lookup_imap in Hin as (j & row & [= -> ->] & Hrow).
  cbn [fst] in *. eapply row_key_typed; [|done|done]. rewrite Forall_forall in Hty.
  eapply Hty, list_elem_of_lookup_2, Hrow.
Qed.

Lemma key_pairs_snoc t cols rows row :
  key_pairs t cols (rows ++ [row]) = key_pairs t cols rows ++ [(row_key t cols row, Z.of_nat (length rows))].
Proof. unfold key_pairs. rewrite imap_app. cbn. by rewrite Nat.add_0_r. Qed.

Lemma agrees_empty t cols : agrees t cols [] None.
Proof. done. Qed.

(** Inserting the key of the next row. *)
Lemma agrees_insert t ks cols rows row idx :
  Forall (typed_values ks) rows → typed_values ks row → indexable t ks cols → agrees t cols rows idx →
  ∃ idx', BTree.insert idx (row_key t cols row) (Z.of_nat (length rows)) = Ok idx' ∧
    agrees t cols (rows ++ [row]) idx'.
Proof.
  intros Hty Hrow [_ [kk Hk]] Hag. unfold agrees in *. rewrite key_pairs_snoc. unfold solid in *.
  rewrite filter_app.
  destruct (key_has_null (row_key t cols row) || key_empty (row_key t cols row)) eqn:E.
  - rewrite filter_cons_False by (cbn [fst]; by rewrite E). rewrite filter_nil, app_nil_r.
    exists idx. unfold BTree.insert. by rewrite E.
  - rewrite filter_cons_True by done. rewrite filter_nil.
    pose proof (row_key_typed t ks cols kk row Hrow Hk E) as Hkey.
    pose proof (solid_typed t ks cols kk rows Hty Hk) as Hs.
    destruct (build_ok kk _ Hs) as (_ & _ & _ & Ho). unfold solid in Ho.
    apply orb_false_iff in E as [E1 E2].
    destruct (insert_ok (typed_key kk) idx _ (row_key t cols row) (Z.of_nat (length rows)) Hag Ho)
      as (idx' & Ei & Hr); [apply Hkey|done|done|].
    exists idx'. split; [done|]. unfold al_build. by rewrite foldl_app.
Qed.

Lemma key_eq_solid kk key k : key_eq k key = true → index_key kk key →
  key_has_null k || key_empty k = false.
Proof.
  intros He [Hty Hne]. revert k kk Hty Hne He.
  assert (∀ key k kk, typed_key kk key → values_eq k key = true → key_has_null k = false) as Hn.
  { clear. induction key as [|x key IH]; intros [|y k] [|kd kk] Hty He; try done.
    cbn [values_eq] in He. destruct Hty as [Hx Hty]. unfold value_ne in He.
    destruct (value_eq y x) eqn:E; [|done]. cbn [negb] in He.
    change (is_null y || key_has_null k = false). rewrite (IH k kk Hty He), orb_false_r.
    destruct y; [|done..]. by destruct kd, x. }
  intros k kk Hty Hne He. rewrite (Hn key k kk Hty He). destruct k; [by destruct key|done].
Qed.

(** Point lookups find the rows with the key. *)
Definition rows_with_key t cols rows (key : IndexKey) : list Z :=
  rows_where (λ k, key_eq k key) (key_pairs t cols rows).

Lemma agrees_find t ks cols kk rows idx key :
  Forall (typed_values ks) rows → cols_kinds t ks cols = Some kk → agrees t cols rows idx →
  index_key kk key → find_equal idx key = Ok (rows_with_key t cols rows key).
Proof.
  intros Hty Hk Hag Hkey. pose proof (solid_typed t ks cols kk rows Hty Hk) as Hs.
  destruct (build_ok kk _ Hs) as (_ & _ & _ & Ho).
  rewrite (find_equal_ok (typed_key kk) idx _ key Hag Ho); [|apply Hkey|by eapply typed_no_null, Hkey|by eapply index_key_empty].
  rewrite (al_build_find kk) by (done || apply Hkey). f_equal. unfold rows_with_key, rows_where.
  generalize (key_pairs t cols rows) as kvs. intros kvs. unfold solid.
  induction kvs as [|[k i] kvs IH]; [done|]. cbn [fst snd].
  destruct (key_eq k key) eqn:E.
  - rewrite filter_cons_True by (cbn [fst]; by eapply key_eq_solid).
    cbn [omap list_omap fst snd]. rewrite E. by rewrite IH.
  - destruct (key_has_null k || key_empty k) eqn:Es.
    + rewrite filter_cons_False by (cbn [fst]; by rewrite Es). cbn [omap list_omap fst snd]. rewrite E. apply IH.
    + rewrite filter_cons_True by done. cbn [omap list_omap fst snd]. rewrite E. apply IH.
Qed.

(** ** The reference tests *)

(** A live row other than the excluded one has the key. *)
Definition live_conflict t rows (cols : list string) (exclude : Z) (key : IndexKey) : bool :=
  existsb (λ i, match rows !! i with
                | Some r => negb (Z.of_nat i =? exclude) && (row_xmax r =? 0) && key_eq (row_key t cols r) key
                | None => false
                end) (seq 0 (length rows)).

Lemma live_conflict_iff t rows cols exclude key :
  live_conflict t rows cols exclude key = true ↔
  ∃ j row, rows !! j = Some row ∧ Z.of_nat j ≠ exclude ∧ row_xmax row = 0 ∧
    key_eq (row_key t cols row) key = true.
Proof.
  unfold live_conflict. rewrite existsb_exists. split.
  - intros (j & _ & E). destruct (rows !! j) as [row|] eqn:Hrow; [|done]. bool_prop. eauto 10.
  - intros (j & row & Hrow & Hne & Hx & Ek). exists j. split.
    + apply in_seq. apply lookup_lt_Some in Hrow. lia.
    + rewrite Hrow, Ek, Hx. rewrite (proj2 (Z.eqb_neq _ _) Hne). done.
Qed.

Definition pk_columns t : option (list string) :=
  match primary_key_columns t with
  | [] => match get_primary_key_index t with
          | None => None
          | Some i => (λ c, [col_name c]) <$> columns t !! i
          end
  | cs => Some cs
  end.

Definition nulls_ok t (row : Row) : bool :=
  forallb (λ '(c, v), col_nullable c || negb (is_null v)) (zip (columns t) (row_values row)).

(** The columns whose UNIQUE flag counts: not covered by a constraint on them alone. *)
Definition flagged t (c : Column) : bool :=
  col_unique c && negb (existsb (λ uq, bool_decide (uq_columns uq = [col_name c])) (unique_constraints t)).

Definition key_free t rows (row : Row) (exclude : Z) (cols : list string) : bool :=
  key_has_null (row_key t cols row) || negb (live_conflict t rows cols exclude (row_key t cols row)).

Definition unique_ok t rows row exclude : bool :=
  forallb (λ c, negb (flagged t c) || key_free t rows row exclude [col_name c]) (columns t) &&
  forallb (λ uq, key_free t rows row exclude (uq_columns uq)) (unique_constraints t).

Definition pk_ok t rows row exclude : bool :=
  match pk_columns t with
  | None => true
  | Some cs => negb (key_has_null (row_key t cs row)) &&
               negb (live_conflict t rows cs exclude (row_key t cs row))
  end.

(** What becomes of a row offered to the table. *)
Definition admission t rows (row : Row) (exclude : Z) (refused : exn) : res unit :=
  if negb (length (row_values row) =? length (columns t))%nat then Throw schema_mismatch
  else match first_violated t row (checks t) with
  | Throw e => Throw e
  | UB => UB
  | Ok (Some name) => Throw (check_violated name)
  | Ok None =>
      if nulls_ok t row && unique_ok t rows row exclude && pk_ok t rows row exclude
      then Ok tt else Throw refused
  end.

(** CHECK predicates read the name of the table, its columns and the clock only. *)
Lemma first_violated_same t t' row cks :
  check_evaluator t = check_evaluator t' → first_violated t row cks = first_violated t' row cks.
Proof.
  intros E. induction cks as [|ck cks IH]; [done|]. cbn [first_violated].
  destruct (ck_predicate ck); [|done]. rewrite E. by destruct (snd _) as [[]| |].
Qed.

(** ** Well-formed tables *)

(** The index a uniqueness test consults covers the columns of the key. *)
Definition lookup_ok t (iname : string) (cols : list string) : Prop :=
  (∀ cs, (iname, cs) ∈ constraint_indexes t → cs = cols) ∧
  iname ∉ (secondary_indexes t).*1 ∧
  (is_Some (sm_find iname (named_indices t)) ∨
   ∀ c, cols = [c] → is_Some (sm_find c (column_indices t)) ∨ has_index t c = false).

Record schema_ok (ks : list (option kind)) t : Prop := {
  so_names : NoDup (col_name <$> columns t);
  so_kinds : length ks = length (columns t);
  so_column name : is_Some (sm_find name (column_indices t)) → indexable t ks [name];
  so_secondary d : d ∈ secondary_indexes t → indexable t ks d.2;
  so_constraint d : d ∈ constraint_indexes t → indexable t ks d.2;
  so_defs : NoDup ((secondary_indexes t).*1 ++ (constraint_indexes t).*1);
  so_named name : is_Some (sm_find name (named_indices t)) →
    name ∈ (secondary_indexes t).*1 ++ (constraint_indexes t).*1;
  so_pk cs : pk_columns t = Some cs → indexable t ks cs ∧ lookup_ok t primary_key_index_name cs;
  so_uq uq : uq ∈ unique_constraints t →
    indexable t ks (uq_columns uq) ∧ lookup_ok t (unique_constraint_index_name uq) (uq_columns uq);
  so_flag c : c ∈ columns t → flagged t c = true → indexable t ks [col_name c] ∧
    (is_Some (sm_find (col_name c) (column_indices t)) ∨ has_index t (col_name c) = false)
}.

Record indexes_ok t rows : Prop := {
  io_column name idx : sm_find name (column_indices t) = Some idx → agrees t [name] rows idx;
  io_named d idx : d ∈ secondary_indexes t ++ constraint_indexes t →
    sm_find d.1 (named_indices t) = Some idx → agrees t d.2 rows idx
}.

Record table_ok n ks t rows : Prop := {
  to_holds : holds_rows n t rows;
  to_schema : schema_ok ks t;
  to_typed : Forall (typed_values ks) rows;
  to_indexes : indexes_ok t rows
}.

(** ** The tests of the code are the reference tests *)

Section validate.
Context (n : nat) (ks : list (option kind)) (t : Table H Q) (rows : list Row).
Context (Hlen : length (row_directory t) = length rows) (Hs : schema_ok ks t)
  (Hty : Forall (typed_values ks) rows) (Hix : indexes_ok t rows).
Abbreviation runs := (runs n t rows).

Lemma typed_at i row : rows !! i = Some row → typed_values ks row.
Proof. intros Hi. rewrite Forall_forall in Hty. by eapply Hty, list_elem_of_lookup_2. Qed.

Lemma elem_rows_with_key cols key i :
  i ∈ rows_with_key t cols rows key ↔
  ∃ j row, i = Z.of_nat j ∧ rows !! j = Some row ∧ key_eq (row_key t cols row) key = true.
Proof.
  unfold rows_with_key, rows_where, key_pairs. rewrite list_elem_of_omap. split.
  - intros ([k j] & Hin & E). apply elem_of_lookup_imap in Hin as (j' & row & [= -> ->] & Hrow).
    cbn [fst snd] in E. destruct (key_eq (row_key t cols row) key) eqn:Ek; [|done]. simplify_eq. eauto.
  - intros (j & row & -> & Hrow & Ek). exists (row_key t cols row, Z.of_nat j). cbn [fst snd].
    rewrite Ek. split; [|done]. apply elem_of_lookup_imap. eauto.
Qed.

(** The loop over the rows an index or a scan has found. *)
Lemma runs_live_others cols exclude key ids :
  (∀ i, i ∈ ids ↔ i ∈ rows_with_key t cols rows key) →
  runs (st_any (live_other exclude) ids) (Ok (live_conflict t rows cols exclude key)).
Proof.
  intros Hids.
  assert (live_conflict t rows cols exclude key =
    existsb (λ i, match rows !! Z.to_nat i with
                  | Some r => negb (i =? exclude) && (row_xmax r =? 0) | None => false end) ids) as ->.
  { apply eq_iff_eq_true. rewrite live_conflict_iff, existsb_exists. split.
    - intros (j & row & Hrow & Hne & Hx & Ek). exists (Z.of_nat j). split.
      + apply list_elem_of_In, Hids, elem_rows_with_key. eauto.
      + rewrite Nat2Z.id, Hrow, Hx. by rewrite (proj2 (Z.eqb_neq _ _) Hne).
    - intros (i & Hin%list_elem_of_In & E). apply Hids, elem_rows_with_key in Hin as (j & row & -> & Hrow & Ek).
      rewrite Nat2Z.id, Hrow in E. bool_prop. eauto 10. }
  apply runs_any. intros i Hi. apply Hids, elem_rows_with_key in Hi as (j & row & -> & Hrow & _).
  unfold live_other. rewrite Nat2Z.id, Hrow. destruct (Z.of_nat j =? exclude); [apply runs_ret|].
  eapply runs_bind; [by apply runs_get_row|]. apply runs_ret.
Qed.

Lemma runs_scan_for_key cols exclude key h0 :
  indexable t ks cols →
  runs (scan_for_key (with_heap h0 t) key exclude cols) (Ok (live_conflict t rows cols exclude key)).
Proof.
  intros Hc. unfold scan_for_key, positions. cbn [row_directory with_heap]. rewrite Hlen.
  apply (runs_any n t rows _ (λ i, match rows !! i with
    | Some r => negb (Z.of_nat i =? exclude) && (row_xmax r =? 0) && key_eq (row_key t cols r) key
    | None => false end)).
  intros i [_ Hi]%elem_of_seq. destruct (lookup_lt_is_Some_2 rows i) as [row Hrow]; [lia|]. rewrite Hrow.
  destruct (Z.of_nat i =? exclude); [apply runs_ret|].
  eapply runs_bind; [by apply runs_get_row|]. destruct (row_xmax row =? 0); [|apply runs_ret].
  change (build_index_key (with_heap h0 t) row cols) with (build_index_key t row cols).
  rewrite (row_key_build t ks) by (done || by eapply typed_at).
  eapply runs_bind; [apply runs_lift|]. apply runs_ret.
Qed.

Lemma runs_column_lookup name v kk idx :
  sm_find name (column_indices t) = Some idx → cols_kinds t ks [name] = Some kk → index_key kk [v] →
  runs (find_rows_by_value name v) (Ok (rows_with_key t [name] rows [v])).
Proof.
  intros Hidx Hk Hkey. apply runs_get. intros h0.
  change (get_column_index (with_heap h0 t) name) with (get_column_index t name).
  destruct (get_column_index t name) as [ci|] eqn:Hci.
  2:{ apply mapM_Some in Hk. inversion Hk as [|? ? ? ? E]; subst. by rewrite Hci in E. }
  cbn [column_indices with_heap]. rewrite Hidx. unfold key_of_value.
  rewrite (agrees_find t ks [name] kk rows idx [v]); [apply runs_lift|done|done|by apply (io_column _ _ Hix)|done].
Qed.

Lemma runs_rows_share_key iname cols kk exclude key :
  lookup_ok t iname cols → cols ≠ [] → cols_kinds t ks cols = Some kk → index_key kk key →
  length key = length cols →
  runs (rows_share_key key exclude iname cols) (Ok (live_conflict t rows cols exclude key)).
Proof.
  intros (Hcs & Hns & Hl) Hne Hk Hkey Hlk. assert (Hc : indexable t ks cols) by (split; eauto).
  apply runs_get. intros h0. cbn [named_indices with_heap].
  destruct (sm_find iname (named_indices t)) as [idx|] eqn:Hidx.
  - assert (agrees t cols rows idx) as Hag.
    { pose proof (so_named _ _ Hs iname (ex_intro _ idx Hidx)) as [?|Hin]%elem_of_app; [done|].
      apply list_elem_of_fmap in Hin as ([nm cs] & -> & Hin). cbn in Hcs, Hidx.
      rewrite <- (Hcs cs Hin). eapply (io_named _ _ Hix (nm, cs)); [apply elem_of_app; by right|done]. }
    rewrite (agrees_find t ks cols kk rows idx key) by done.
    eapply runs_bind; [apply runs_lift|]. by apply runs_live_others.
  - destruct cols as [|c [|c' cols]]; [done| |by apply runs_scan_for_key].
    change (has_index (with_heap h0 t) c) with (has_index t c).
    destruct (has_index t c) eqn:Hh; [|by apply runs_scan_for_key].
    destruct Hl as [[? ?]|Hl]; [congruence|]. destruct (Hl c eq_refl) as [[idx' Hidx']|?]; [|congruence].
    destruct key as [|v [|]]; [done| |done]. cbn [head or_ub].
    eapply runs_bind; [apply runs_lift|].
    eapply runs_bind; [by eapply runs_column_lookup|]. by apply runs_live_others.
Qed.

Lemma column_index_lookup cs i c :
  NoDup (col_name <$> cs) → cs !! i = Some c → column_index_in (col_name c) cs = Some i.
Proof.
  clear. revert i. induction cs as [|c' cs IH]; intros i Hnd Hi; [done|].
  apply NoDup_cons in Hnd as [Hn Hnd]. destruct i as [|i]; cbn in Hi.
  - simplify_eq. cbn. by rewrite bool_decide_true.
  - cbn [column_index_in]. rewrite bool_decide_false; [by rewrite (IH i Hnd Hi)|].
    intros E. apply Hn. rewrite E. by eapply list_elem_of_fmap_2, list_elem_of_lookup_2.
Qed.

Lemma single_key i c v row :
  columns t !! i = Some c → get_value row i = Ok v → row_key t [col_name c] row = [v].
Proof.
  intros Hi Hv. unfold row_key, build_index_key, get_column_index. cbn [res_map].
  rewrite (column_index_lookup _ _ _ (so_names _ _ Hs) Hi), Hv. done.
Qed.

Lemma typed_get_value row i c : typed_values ks row → columns t !! i = Some c →
  ∃ v, get_value row i = Ok v ∧ row_values row !! i = Some v.
Proof.
  intros Hr Hi. apply lookup_lt_Some in Hi. rewrite <- (so_kinds _ _ Hs) in Hi.
  rewrite (Forall2_length _ _ _ Hr) in Hi. destruct (lookup_lt_is_Some_2 _ _ Hi) as [v Hv].
  exists v. unfold get_value. by rewrite Hv.
Qed.

Section row.
Context (row : Row) (Hrow : typed_values ks row) (exclude : Z).

Lemma row_index_key cols kk : cols ≠ [] → cols_kinds t ks cols = Some kk →
  key_has_null (row_key t cols row) = false →
  index_key kk (row_key t cols row) ∧ length (row_key t cols row) = length cols.
Proof.
  intros Hne Hk Hn. destruct (build_index_key_ok t ks cols kk row Hrow Hk) as (key & E & Hl & Hkey).
  unfold row_key in *. rewrite E in *. split; [|done]. split; [by apply Hkey|].
  intros ->. by destruct cols.
Qed.

Lemma runs_column_conflict i c : columns t !! i = Some c →
  runs (column_conflict row exclude (i, c))
    (Ok (flagged t c && negb (key_free t rows row exclude [col_name c]))).
Proof.
  intros Hi. apply runs_get. intros h0. cbn [fst snd unique_constraints with_heap].
  unfold flagged at 1. destruct (col_unique c) eqn:Hu; cbn [negb andb]; [|apply runs_ret].
  destruct (existsb _ (unique_constraints t)) eqn:Hcov; cbn [negb andb]; [apply runs_ret|].
  assert (flagged t c = true) as Hf by (unfold flagged; rewrite Hu, Hcov; done).
  destruct (so_flag _ _ Hs c (list_elem_of_lookup_2 _ _ _ Hi) Hf) as [[Hne [kk Hk]] Hl].
  destruct (typed_get_value row i c Hrow Hi) as (v & Hv & _).
  rewrite Hv. eapply runs_bind; [apply runs_lift|].
  pose proof (single_key i c v row Hi Hv) as Hkey. unfold key_free. rewrite Hkey.
  assert (key_has_null [v] = is_null v) as -> by apply orb_false_r.
  destruct (is_null v) eqn:Hnull; [apply runs_ret|]. cbn [orb]. rewrite negb_involutive.
  destruct (row_index_key [col_name c] kk) as [Hik _]; [done|done| |].
  { rewrite Hkey. cbn. by rewrite Hnull. }
  rewrite Hkey in Hik. change (has_index (with_heap h0 t) (col_name c)) with (has_index t (col_name c)).
  destruct (has_index t (col_name c)) eqn:Hh.
  - destruct Hl as [[idx Hidx]|?]; [|done].
    eapply runs_bind; [by eapply runs_column_lookup|]. by apply runs_live_others.
  - unfold positions. cbn [row_directory with_heap]. rewrite Hlen.
    apply (runs_any n t rows _ (λ j, match rows !! j with
      | Some r => negb (Z.of_nat j =? exclude) && (row_xmax r =? 0) && key_eq (row_key t [col_name c] r) [v]
      | None => false end)).
    intros j [_ Hj]%elem_of_seq. destruct (lookup_lt_is_Some_2 rows j) as [r Hr]; [lia|]. rewrite Hr.
    destruct (Z.of_nat j =? exclude); [apply runs_ret|].
    eapply runs_bind; [by apply runs_get_row|]. destruct (row_xmax r =? 0); [|apply runs_ret].
    cbn [negb andb]. destruct (typed_get_value r i c (typed_at _ _ Hr) Hi) as (w & Hw & _).
    rewrite (single_key i c w r Hi Hw), Hw. eapply runs_bind; [apply runs_lift|].
    assert (key_eq [w] [v] = value_eq w v) as ->; [|apply runs_ret].
    unfold key_eq. cbn [values_eq]. unfold value_ne. by destruct (value_eq w v).
Qed.

Lemma runs_constraint_conflict uq : uq ∈ unique_constraints t →
  runs (constraint_conflict row exclude uq) (Ok (negb (key_free t rows row exclude (uq_columns uq)))).
Proof.
  intros Huq. destruct (so_uq _ _ Hs uq Huq) as [[Hne [kk Hk]] Hl]. apply runs_get. intros h0.
  change (build_index_key (with_heap h0 t) row (uq_columns uq)) with (build_index_key t row (uq_columns uq)).
  rewrite (row_key_build t ks) by (done || by split; eauto). eapply runs_bind; [apply runs_lift|].
  unfold key_free. destruct (key_has_null (row_key t (uq_columns uq) row)) eqn:Hn; [apply runs_ret|].
  cbn [orb]. rewrite negb_involutive. destruct (row_index_key _ kk Hne Hk Hn). by eapply runs_rows_share_key.
Qed.

Lemma existsb_imap_pair {A} (f : A → bool) (l : list A) :
  existsb (λ ic : nat * A, f ic.2) (imap pair l) = existsb f l.
Proof.
  clear. change (imap pair l) with (imap (λ i, pair (0 + i)%nat) l). generalize 0%nat as k.
  induction l as [|x l IH]; intros k; [done|]. cbn [imap existsb snd]. f_equal.
  rewrite <- (IH (S k)). f_equal. apply imap_ext. intros i y _. cbn. f_equal. lia.
Qed.

Lemma existsb_same {A} (f g : A → bool) l : (∀ x, f x = g x) → existsb f l = existsb g l.
Proof. clear. intros Hfg. induction l as [|x l IH]; [done|]. cbn. by rewrite Hfg, IH. Qed.

Lemma existsb_negb {A} (f : A → bool) l : existsb (λ x, negb (f x)) l = negb (forallb f l).
Proof. clear. induction l as [|x l IH]; [done|]. cbn. rewrite IH. by destruct (f x). Qed.

Lemma runs_validate_unique :
  runs (validate_unique_constraint row exclude) (Ok (unique_ok t rows row exclude)).
Proof.
  apply runs_get. intros h0. cbn [columns unique_constraints with_heap].
  eapply runs_bind.
  { apply (runs_any n t rows _ (λ ic, flagged t ic.2 && negb (key_free t rows row exclude [col_name ic.2]))).
    intros [i c] Hin. apply elem_of_lookup_imap in Hin as (j & c' & [= -> ->] & Hj).
    by apply runs_column_conflict. }
  rewrite (existsb_imap_pair (λ c, flagged t c && negb (key_free t rows row exclude [col_name c]))).
  unfold unique_ok. rewrite <- (negb_involutive (forallb _ (columns t))), <- existsb_negb.
  assert (existsb (λ c, negb (negb (flagged t c) || key_free t rows row exclude [col_name c])) (columns t)
    = existsb (λ c, flagged t c && negb (key_free t rows row exclude [col_name c])) (columns t)) as ->
    by (apply existsb_same; intros c; by rewrite negb_orb, negb_involutive).
  destruct (existsb _ (columns t)); cbn [negb andb]; [apply runs_ret|].
  eapply runs_bind; [apply (runs_any n t rows _ (λ uq, negb (key_free t rows row exclude (uq_columns uq))));
    intros uq Huq; by apply runs_constraint_conflict|].
  rewrite existsb_negb, negb_involutive. apply runs_ret.
Qed.

Lemma runs_validate_pk :
  runs (validate_primary_key_uniqueness row exclude) (Ok (pk_ok t rows row exclude)).
Proof.
  apply runs_get. intros h0. change (match primary_key_columns (with_heap h0 t) with
    | [] => match get_primary_key_index (with_heap h0 t) with
            | None => None
            | Some i => (λ c, [col_name c]) <$> columns (with_heap h0 t) !! i
            end
    | cs => Some cs
    end) with (pk_columns t).
  unfold pk_ok. destruct (pk_columns t) as [cs|] eqn:Hpk; [|apply runs_ret].
  destruct (so_pk _ _ Hs cs Hpk) as [[Hne [kk Hk]] Hl].
  change (build_index_key (with_heap h0 t) row cs) with (build_index_key t row cs).
  rewrite (row_key_build t ks) by (done || by split; eauto). eapply runs_bind; [apply runs_lift|].
  destruct (key_has_null (row_key t cs row)) eqn:Hn; [apply runs_ret|]. cbn [negb andb].
  destruct (row_index_key _ kk Hne Hk Hn).
  eapply runs_bind; [by eapply runs_rows_share_key|]. apply runs_ret.
Qed.

Lemma nulls_loop :
  forallb id <$> res_map (null_allowed row) (imap pair (columns t)) = Ok (nulls_ok t row).
Proof.
  unfold nulls_ok.
  assert (∀ cs vs k, length cs = length vs → drop k (row_values row) = vs →
    forallb id <$> res_map (null_allowed row) (imap (λ i, pair (k + i)%nat) cs) =
    Ok (forallb (λ '(c, v), col_nullable c || negb (is_null v)) (zip cs vs))) as Hgo.
  2:{ apply (Hgo _ _ 0%nat); [|done]. rewrite <- (so_kinds _ _ Hs). by eapply Forall2_length. }
  clear. induction cs as [|c cs IH]; intros [|v vs] k Hl Hd; try done.
  cbn [imap res_map zip forallb].
  assert (row_values row !! k = Some v) as Hk by (rewrite <- (Nat.add_0_r k), <- lookup_drop, Hd; done).
  rewrite (drop_S _ _ _ Hk) in Hd. injection Hd as Hd. cbn in Hl.
  specialize (IH vs (S k) ltac:(lia) Hd).
  assert (imap ((λ i, pair (k + i)%nat) ∘ S) cs = imap (λ i, pair (S k + i)%nat) cs) as ->.
  { apply imap_ext. intros i y _. cbn. f_equal. lia. }
  assert (null_allowed row ((k + 0)%nat, c) = Ok (col_nullable c || negb (is_null v))) as ->.
  { unfold null_allowed, get_value. cbn [fst snd]. rewrite Nat.add_0_r, Hk. by destruct (col_nullable c). }
  cbn [mbind res_bind]. destruct (res_map _ _) as [bs| |]; cbn [fmap res_fmap] in IH; [|done..].
  injection IH as IH. cbn. by rewrite <- IH.
Qed.

Lemma runs_accept_row refused :
  runs (accept_row row exclude refused) (admission t rows row exclude refused).
Proof.
  assert (Hw : length (row_values row) = length (columns t)).
  { rewrite <- (so_kinds _ _ Hs). symmetry. by eapply Forall2_length. }
  unfold accept_row, admission. rewrite Hw, Nat.eqb_refl. cbn [negb].
  eapply runs_bind.
  { apply runs_get. intros h0. cbn [columns with_heap]. rewrite Hw, Nat.eqb_refl. apply runs_ret. }
  assert (Hck : runs (find_violated_check row) (first_violated t row (checks t))).
  { apply runs_get. intros h0. rewrite (first_violated_same (with_heap h0 t) t) by done. apply runs_lift. }
  destruct (first_violated t row (checks t)) as [[name|]|e|] eqn:Hfv.
  - eapply runs_bind; [done|]. apply runs_throw.
  - eapply runs_bind; [done|]. eapply (runs_bind _ _ _ _ _ (nulls_ok t row && unique_ok t rows row exclude && pk_ok t rows row exclude)).
    2:{ destruct (_ && _); [apply runs_ret|apply runs_throw]. }
    apply runs_get. intros h0. cbn [columns with_heap]. rewrite Hw, Nat.eqb_refl. cbn [negb].
    pose proof nulls_loop as Hn. destruct (res_map _ _) as [bs| |]; cbn [fmap res_fmap] in Hn; [|done..].
    injection Hn as <-. eapply runs_bind; [apply runs_lift|].
    destruct (forallb id bs); cbn [negb andb]; [|apply runs_ret].
    eapply runs_bind; [apply runs_validate_unique|].
    destruct (unique_ok _ _ _ _); cbn [negb andb]; [|apply runs_ret].
    eapply runs_bind; [apply runs_validate_pk|]. destruct (pk_ok _ _ _ _); cbn [negb]; [|apply runs_ret].
    eapply runs_bind; [done|]. apply runs_ret.
  - by apply runs_bind_throw.
  - intros h Hh. destruct (Hck h Hh) as (h1 & E & Hh1). exists h1. rewrite ST_bind_eq, E. done.
Qed.
End row.

Lemma runs_accept_width row exclude refused :
  length (row_values row) ≠ length (columns t) →
  runs (accept_row row exclude refused) (Throw schema_mismatch).
Proof.
  intros Hw%Nat.eqb_neq. apply runs_bind_throw, runs_get. intros h0. cbn [columns with_heap].
  rewrite Hw. apply runs_throw.
Qed.
End validate.

(** ** Entering a row into the indexes *)

Lemma st_iter_cons {S A} (f : A → ST S unit) x l s :
  st_iter f (x :: l) s = (f x ≫= λ _, st_iter f l) s.
Proof. unfold st_iter. cbn [st_fold]. rewrite !ST_bind_eq. by destruct (f x s) as [s' [[]| |]]. Qed.

Section grow.
Context (ks : list (option kind)) (t : Table H Q) (rows : list Row) (row : Row).
Context (Hs : schema_ok ks t) (Hty : Forall (typed_values ks) rows) (Hrow : typed_values ks row).
Let ins (idx : index) (key : IndexKey) : res index := BTree.insert idx key (Z.of_nat (length rows)).

(** The index under [name], if there, has taken in the new row. *)
Definition grown (m m' : smap index) (name : string) (cols : list string) : Prop :=
  match sm_find name m with
  | None => sm_find name m' = None
  | Some _ => ∃ idx, sm_find name m' = Some idx ∧ agrees t cols (rows ++ [row]) idx
  end.

Lemma call_column_ok ci ni i c :
  columns t !! i = Some c →
  (∀ idx, sm_find (col_name c) ci = Some idx → indexable t ks [col_name c] ∧ agrees t [col_name c] rows idx) →
  ∃ ci', call_column ins row (i, c) (with_indices ci ni t) = (with_indices ci' ni t, Ok tt) ∧
    grown ci ci' (col_name c) [col_name c] ∧ ∀ name, name ≠ col_name c → sm_find name ci' = sm_find name ci.
Proof.
  intros Hi Hag. unfold call_column, grown. rewrite ST_bind_eq. cbn [gets column_indices with_indices snd fst].
  destruct (sm_find (col_name c) ci) as [idx|] eqn:Hidx; [|by exists ci; rewrite Hidx].
  destruct (Hag idx eq_refl) as [Hc Ha].
  destruct (typed_get_value ks t Hs row i c Hrow Hi) as (v & Hv & _).
  rewrite ST_bind_eq. cbn [st_lift]. rewrite Hv, ST_bind_eq. cbn [st_lift]. unfold key_of_value.
  rewrite <- (single_key ks t Hs i c v row Hi Hv).
  destruct (agrees_insert t ks [col_name c] rows row idx Hty Hrow Hc Ha) as (idx' & E & Ha').
  unfold ins. rewrite E. eexists. split; [reflexivity|]. split.
  - exists idx'. split; [apply sm_find_set_eq|done].
  - intros name Hne. by apply sm_find_set_ne.
Qed.

Lemma each_column_ok ni l : ∀ ci,
  (∀ ic, ic ∈ l → columns t !! ic.1 = Some ic.2) → NoDup ((λ ic, col_name ic.2) <$> l) →
  (∀ ic idx, ic ∈ l → sm_find (col_name ic.2) ci = Some idx →
     indexable t ks [col_name ic.2] ∧ agrees t [col_name ic.2] rows idx) →
  ∃ ci', st_iter (call_column ins row) l (with_indices ci ni t) = (with_indices ci' ni t, Ok tt) ∧
    (∀ ic, ic ∈ l → grown ci ci' (col_name ic.2) [col_name ic.2]) ∧
    ∀ name, name ∉ (λ ic, col_name ic.2) <$> l → sm_find name ci' = sm_find name ci.
Proof.
  induction l as [|[i c] l IH]; intros ci Hl Hnd Hag.
  { exists ci. split; [done|]. split; [|done]. intros ic Hic. exfalso; by eapply not_elem_of_nil. }
  apply NoDup_cons in Hnd as [Hn Hnd]. cbn [snd] in Hn.
  destruct (call_column_ok ci ni i c) as (ci1 & E1 & Hg1 & Ho1).
  { apply (Hl (i, c)). left. }
  { intros idx Hidx. apply (Hag (i, c)); [left|done]. }
  destruct (IH ci1) as (ci2 & E2 & Hg2 & Ho2); [|done| |].
  { intros ic Hic. apply Hl. by right. }
  { intros ic idx Hic Hidx. rewrite Ho1 in Hidx; [apply Hag; [by right|done]|].
    intros E. apply Hn. rewrite <- E. by apply (list_elem_of_fmap_2 (λ ic, col_name ic.2)). }
  exists ci2. rewrite st_iter_cons, ST_bind_eq, E1. split; [done|]. split.
  - intros ic [->|Hic]%elem_of_cons; cbn [snd].
    + unfold grown in *. rewrite (Ho2 (col_name c)) by done. done.
    + specialize (Hg2 ic Hic). unfold grown in *. rewrite Ho1 in Hg2; [done|].
      intros E. apply Hn. rewrite <- E. by apply (list_elem_of_fmap_2 (λ ic, col_name ic.2)).
  - intros name Hname. rewrite fmap_cons, not_elem_of_cons in Hname. destruct Hname as [Hne Hname].
    rewrite Ho2 by done. by apply Ho1.
Qed.

Lemma call_named_ok ci ni d :
  (∀ idx, sm_find d.1 ni = Some idx → indexable t ks d.2 ∧ agrees t d.2 rows idx) →
  ∃ ni', call_named ins row d (with_indices ci ni t) = (with_indices ci ni' t, Ok tt) ∧
    grown ni ni' d.1 d.2 ∧ ∀ name, name ≠ d.1 → sm_find name ni' = sm_find name ni.
Proof.
  intros Hag. unfold call_named, grown. rewrite ST_bind_eq. cbn [gets named_indices with_indices].
  destruct (sm_find d.1 ni) as [idx|] eqn:Hidx; [|by exists ni; rewrite Hidx].
  destruct (Hag idx eq_refl) as [Hc Ha]. rewrite ST_bind_eq. cbn [st_get].
  change (build_index_key (with_indices ci ni t) row d.2) with (build_index_key t row d.2).
  rewrite (row_key_build t ks) by done. rewrite !ST_bind_eq. cbn [st_lift].
  destruct (agrees_insert t ks d.2 rows row idx Hty Hrow Hc Ha) as (idx' & E & Ha').
  rewrite ST_bind_eq. unfold ins. cbn [st_lift]. rewrite E. eexists. split; [reflexivity|]. split.
  - exists idx'. split; [apply sm_find_set_eq|done].
  - intros name Hne. by apply sm_find_set_ne.
Qed.

Lemma each_named_ok ci l : ∀ ni,
  NoDup l.*1 →
  (∀ d idx, d ∈ l → sm_find d.1 ni = Some idx → indexable t ks d.2 ∧ agrees t d.2 rows idx) →
  ∃ ni', st_iter (call_named ins row) l (with_indices ci ni t) = (with_indices ci ni' t, Ok tt) ∧
    (∀ d, d ∈ l → grown ni ni' d.1 d.2) ∧ ∀ name, name ∉ l.*1 → sm_find name ni' = sm_find name ni.
Proof.
  induction l as [|d l IH]; intros ni Hnd Hag.
  { exists ni. split; [done|]. split; [|done]. intros d Hd. exfalso; by eapply not_elem_of_nil. }
  apply NoDup_cons in Hnd as [Hn Hnd].
  destruct (call_named_ok ci ni d) as (ni1 & E1 & Hg1 & Ho1).
  { intros idx Hidx. apply Hag; [left|done]. }
  assert (Hdiff : ∀ d', d' ∈ l → d'.1 ≠ d.1).
  { intros d' Hd' E. apply Hn. rewrite <- E. by apply (list_elem_of_fmap_2 fst). }
  destruct (IH ni1) as (ni2 & E2 & Hg2 & Ho2); [done| |].
  { intros d' idx Hd' Hidx. rewrite Ho1 in Hidx by auto. apply Hag; [by right|done]. }
  exists ni2. rewrite st_iter_cons, ST_bind_eq, E1. split; [done|]. split.
  - intros d' [->|Hd']%elem_of_cons.
    + unfold grown in *. by rewrite (Ho2 d.1).
    + specialize (Hg2 d' Hd'). unfold grown in *. rewrite Ho1 in Hg2 by auto. done.
  - intros name Hname. rewrite fmap_cons, not_elem_of_cons in Hname. destruct Hname as [Hne Hname].
    rewrite Ho2 by done. by apply Ho1.
Qed.

Lemma with_indices_id : with_indices (column_indices t) (named_indices t) t = t.
Proof. by destruct t. Qed.

Lemma imap_pair_names (cs : list Column) : (λ ic, col_name ic.2) <$> imap pair cs = col_name <$> cs.
Proof.
  clear. change (imap pair cs) with (imap (λ i, pair (0 + i)%nat) cs). generalize 0%nat as k.
  induction cs as [|c cs IH]; intros k; [done|]. cbn. f_equal. rewrite <- (IH (S k)). f_equal.
  apply imap_ext. intros i y _. cbn. f_equal. lia.
Qed.

Lemma column_index_name name i : get_column_index t name = Some i → name ∈ col_name <$> columns t.
Proof.
  unfold get_column_index. revert i. induction (columns t) as [|c cs IH]; intros i; [done|].
  cbn [column_index_in fmap list_fmap]. case_bool_decide; [subst; left|].
  destruct (column_index_in name cs); [|done]. intros _. right. by eapply IH.
Qed.

(** All indexes take in the new row. *)
Lemma insert_into_indexes_ok :
  indexes_ok t rows →
  ∃ ci ni, insert_into_indexes row (length rows) t = (with_indices ci ni t, Ok tt) ∧
    indexes_ok (with_indices ci ni t) (rows ++ [row]) ∧
    (∀ name, is_Some (sm_find name ci) ↔ is_Some (sm_find name (column_indices t))) ∧
    (∀ name, is_Some (sm_find name ni) ↔ is_Some (sm_find name (named_indices t))).
Proof.
  intros Hix. unfold insert_into_indexes, each_index. fold ins.
  destruct (each_column_ok (named_indices t) (imap pair (columns t)) (column_indices t)) as (ci & E1 & Hg1 & Ho1).
  { intros ic Hic. apply elem_of_lookup_imap in Hic as (j & c & -> & Hj). done. }
  { rewrite imap_pair_names. apply Hs. }
  { intros ic idx _ Hidx. split; [apply (so_column _ _ Hs); eauto|by apply (io_column _ _ Hix)]. }
  pose proof (so_defs _ _ Hs) as Hnd. apply NoDup_app in Hnd as (Hnd1 & Hdisj & Hnd2).
  destruct (each_named_ok ci (secondary_indexes t) (named_indices t) Hnd1) as (ni1 & E2 & Hg2 & Ho2).
  { intros d idx Hd Hidx. split; [by apply (so_secondary _ _ Hs)|].
    apply (io_named _ _ Hix); [apply elem_of_app; by left|done]. }
  assert (Hnot : ∀ d, d ∈ constraint_indexes t → d.1 ∉ (secondary_indexes t).*1).
  { intros d Hd Hin. apply (Hdisj _ Hin). by apply (list_elem_of_fmap_2 fst). }
  destruct (each_named_ok ci (constraint_indexes t) ni1 Hnd2) as (ni & E3 & Hg3 & Ho3).
  { intros d idx Hd Hidx. split; [by apply (so_constraint _ _ Hs)|].
    rewrite Ho2 in Hidx by auto. apply (io_named _ _ Hix); [apply elem_of_app; by right|done]. }
  exists ci, ni. split_and!.
  - rewrite ST_bind_eq. cbn [gets]. rewrite ST_bind_eq. rewrite with_indices_id in E1. rewrite E1.
    rewrite ST_bind_eq. cbn [gets secondary_indexes with_indices]. rewrite ST_bind_eq, E2.
    rewrite ST_bind_eq. cbn [gets constraint_indexes with_indices]. exact E3.
  - split; cbn [column_indices named_indices secondary_indexes constraint_indexes with_indices].
    + intros name idx Hidx. destruct (decide (name ∈ col_name <$> columns t)) as [Hin|Hout].
      * rewrite <- imap_pair_names in Hin. apply list_elem_of_fmap in Hin as (ic & -> & Hic).
        specialize (Hg1 ic Hic). unfold grown in Hg1.
        destruct (sm_find (col_name ic.2) (column_indices t)); [|congruence].
        destruct Hg1 as (idx' & Hidx' & Ha). by simplify_eq.
      * rewrite Ho1 in Hidx by (by rewrite imap_pair_names).
        destruct (so_column _ _ Hs name) as [_ [kk Hk]]; [eauto|]. exfalso. apply Hout.
        apply mapM_Some in Hk. inversion Hk as [|? ? ? ? Hc]; subst.
        destruct (get_column_index t name) eqn:Hci; [|done]. by eapply column_index_name.
    + intros d idx [Hd|Hd]%elem_of_app Hidx.
      * specialize (Hg2 d Hd). rewrite Ho3 in Hidx.
        2:{ apply Hdisj. by apply (list_elem_of_fmap_2 fst). }
        unfold grown in Hg2. destruct (sm_find d.1 (named_indices t)); [|congruence].
        destruct Hg2 as (idx' & Hidx' & Ha). by simplify_eq.
      * specialize (Hg3 d Hd). unfold grown in Hg3. destruct (sm_find d.1 ni1); [|congruence].
        destruct Hg3 as (idx' & Hidx' & Ha). by simplify_eq.
  - intros name. destruct (decide (name ∈ (λ ic, col_name ic.2) <$> imap pair (columns t))) as [Hin|Hout].
    + apply list_elem_of_fmap in Hin as (ic & -> & Hic). specialize (Hg1 ic Hic). unfold grown in Hg1.
      destruct (sm_find (col_name ic.2) (column_indices t)); [|by rewrite Hg1].
      destruct Hg1 as (idx' & -> & _). split; eauto.
    + by rewrite Ho1.
  - intros name. destruct (decide (name ∈ (constraint_indexes t).*1)) as [Hin|Hout].
    + apply list_elem_of_fmap in Hin as (d & -> & Hd). specialize (Hg3 d Hd). unfold grown in Hg3.
      rewrite Ho2 in Hg3 by auto.
      destruct (sm_find d.1 (named_indices t)); [|by rewrite Hg3]. destruct Hg3 as (idx' & -> & _). split; eauto.
    + rewrite Ho3 by done. destruct (decide (name ∈ (secondary_indexes t).*1)) as [Hin|Hout2]; [|by rewrite Ho2].
      apply list_elem_of_fmap in Hin as (d & -> & Hd). specialize (Hg2 d Hd). unfold grown in Hg2.
      destruct (sm_find d.1 (named_indices t)); [|by rewrite Hg2]. destruct Hg2 as (idx' & -> & _). split; eauto.
Qed.
End grow.

(** ** Tables that differ in their rows only *)

Record same_schema t t' : Prop := {
  ss_name : table_name t' = table_name t;
  ss_columns : columns t' = columns t;
  ss_secondary : secondary_indexes t' = secondary_indexes t;
  ss_constraint : constraint_indexes t' = constraint_indexes t;
  ss_pk : primary_key_columns t' = primary_key_columns t;
  ss_uq : unique_constraints t' = unique_constraints t;
  ss_checks : checks t' = checks t;
  ss_clock : clock t' = clock t;
  ss_column_indices name : is_Some (sm_find name (column_indices t')) ↔ is_Some (sm_find name (column_indices t));
  ss_named_indices name : is_Some (sm_find name (named_indices t')) ↔ is_Some (sm_find name (named_indices t))
}.

#[export] Instance same_schema_refl : Reflexive same_schema.
Proof. by intros t. Qed.
#[export] Instance same_schema_trans : Transitive same_schema.
Proof.
  intros t1 t2 t3 [] []. split; try congruence; intros name; etrans; eauto.
Qed.

Lemma ss_column_index t t' name : same_schema t t' → get_column_index t' name = get_column_index t name.
Proof. intros E. unfold get_column_index. by rewrite (ss_columns _ _ E). Qed.

Lemma ss_indexable t t' ks cols : same_schema t t' → indexable t' ks cols ↔ indexable t ks cols.
Proof.
  intros E. unfold indexable, cols_kinds.
  assert (mapM (λ c, i ← get_column_index t' c; mjoin (ks !! i)) cols =
          mapM (λ c, i ← get_column_index t c; mjoin (ks !! i)) cols) as ->; [|done].
  induction cols as [|c cols IH]; [done|]. cbn [mapM]. by rewrite (ss_column_index t t' c E), IH.
Qed.

Lemma ss_has_index t t' name : same_schema t t' → has_index t' name = has_index t name.
Proof.
  intros E. unfold has_index, sm_has. rewrite (ss_secondary _ _ E). f_equal.
  pose proof (ss_column_indices _ _ E name) as Hi.
  destruct (sm_find name (column_indices t')), (sm_find name (column_indices t)); try done.
  - destruct Hi as [[? Hi] _]; [eauto|done].
  - destruct Hi as [_ [? Hi]]; [eauto|done].
Qed.

Lemma ss_lookup_ok t t' iname cols : same_schema t t' → lookup_ok t iname cols → lookup_ok t' iname cols.
Proof.
  intros E (H1 & H2 & H3). unfold lookup_ok. rewrite (ss_constraint _ _ E), (ss_secondary _ _ E).
  split; [done|]. split; [done|]. rewrite (ss_named_indices _ _ E).
  destruct H3 as [?|H3]; [by left|right]. intros c Hc.
  rewrite (ss_column_indices _ _ E), (ss_has_index t t' c E). auto.
Qed.

Lemma ss_pk_columns t t' : same_schema t t' → pk_columns t' = pk_columns t.
Proof.
  intros E. unfold pk_columns, get_primary_key_index. by rewrite (ss_pk _ _ E), (ss_columns _ _ E).
Qed.

Lemma ss_flagged t t' c : same_schema t t' → flagged t' c = flagged t c.
Proof. intros E. unfold flagged. by rewrite (ss_uq _ _ E). Qed.

Lemma ss_schema_ok t t' ks : same_schema t t' → schema_ok ks t → schema_ok ks t'.
Proof.
  intros E [H1 H2 H3 H4 H5 H6 H7 H8 H9 H10].
  split; rewrite ?(ss_columns _ _ E), ?(ss_secondary _ _ E), ?(ss_constraint _ _ E), ?(ss_uq _ _ E),
    ?(ss_pk_columns _ _ E); try done.
  - intros name Hn. apply (ss_indexable t t'), H3; [done|]. by apply (ss_column_indices _ _ E).
  - intros d Hd. by apply (ss_indexable t t'), H4.
  - intros d Hd. by apply (ss_indexable t t'), H5.
  - intros name Hn. apply H7. by apply (ss_named_indices _ _ E).
  - intros cs Hcs. destruct (H8 cs Hcs). split; [by apply (ss_indexable t t')|by eapply ss_lookup_ok].
  - intros uq Huq. destruct (H9 uq Huq). split; [by apply (ss_indexable t t')|by eapply ss_lookup_ok].
  - intros c Hc. rewrite (ss_flagged t t' c E). intros Hf. destruct (H10 c Hc Hf) as [Hi Hl].
    split; [by apply (ss_indexable t t')|].
    by rewrite (ss_column_indices _ _ E), (ss_has_index t t' _ E).
Qed.

Lemma ss_row_key t t' cols row : same_schema t t' → row_key t' cols row = row_key t cols row.
Proof.
  intros E. unfold row_key, build_index_key.
  assert (res_map (λ name, match get_column_index t' name with
     | Some i => get_value row i | None => Throw (not_found name) end) cols =
    res_map (λ name, match get_column_index t name with
     | Some i => get_value row i | None => Throw (not_found name) end) cols) as ->; [|done].
  induction cols as [|c cols IH]; [done|]. cbn [res_map]. by rewrite (ss_column_index t t' c E), IH.
Qed.

Lemma ss_live_conflict t t' rows cols exclude key :
  same_schema t t' → live_conflict t' rows cols exclude key = live_conflict t rows cols exclude key.
Proof.
  intros E. unfold live_conflict. apply existsb_same. intros i. destruct (rows !! i); [|done].
  by rewrite (ss_row_key t t').
Qed.

Lemma forallb_same {A} (f g : A → bool) l : (∀ x, f x = g x) → forallb f l = forallb g l.
Proof. intros Hfg. induction l as [|x l IH]; [done|]. cbn. by rewrite Hfg, IH. Qed.

Lemma ss_admission t t' rows row exclude refused :
  same_schema t t' → admission t' rows row exclude refused = admission t rows row exclude refused.
Proof.
  intros E. unfold admission, nulls_ok, unique_ok, pk_ok.
  rewrite (ss_columns _ _ E), (ss_checks _ _ E), (ss_uq _ _ E), (ss_pk_columns _ _ E).
  rewrite (first_violated_same t' t).
  2:{ unfold check_evaluator. by rewrite (ss_columns _ _ E), (ss_name _ _ E), (ss_clock _ _ E). }
  assert (Hf : ∀ cols, key_free t' rows row exclude cols = key_free t rows row exclude cols).
  { intros cols. unfold key_free. by rewrite (ss_row_key t t'), (ss_live_conflict t t'). }
  destruct (negb _); [done|]. destruct (first_violated _ _ _) as [[]| |]; try done.
  rewrite (forallb_same (λ uq, key_free t' rows row exclude (uq_columns uq)) (λ uq, key_free t rows row exclude (uq_columns uq))) by auto.
  rewrite (forallb_same (λ c, negb (flagged t' c) || key_free t' rows row exclude [col_name c])
    (λ c, negb (flagged t c) || key_free t rows row exclude [col_name c]))
    by (intros c; by rewrite (ss_flagged t t'), Hf).
  destruct (pk_columns t); [|done]. by rewrite (ss_row_key t t'), (ss_live_conflict t t').
Qed.

Lemma ss_agrees t t' cols rows idx : same_schema t t' → agrees t cols rows idx → agrees t' cols rows idx.
Proof.
  intros E. unfold agrees. assert (key_pairs t' cols rows = key_pairs t cols rows) as ->; [|done].
  apply imap_ext. intros i r _. by rewrite (ss_row_key t t').
Qed.

(** ** The operations on rows *)

Lemma with_heap_id t : with_heap (heap t) t = t.
Proof. by destruct t. Qed.

Lemma runs_at {A} n t rows (m : ST (Table H Q) A) r :
  runs n t rows m r → holds_rows n t rows →
  ∃ h, m t = (with_heap h t, r) ∧ holds_rows n (with_heap h t) rows.
Proof. intros Hm Hh. specialize (Hm (heap t)). rewrite with_heap_id in Hm. by apply Hm. Qed.

Lemma table_push_ok n t rows row :
  holds_rows n t rows → rh_row_ok (collect_column_types t) row → rh_fits row = true →
  Z.of_nat n + 1 < 2 ^ 32 →
  ∃ h ptr, push_row row t = (with_directory (row_directory t ++ [ptr]) (with_heap h t), Ok tt) ∧
    holds_rows (n + 1) (with_directory (row_directory t ++ [ptr]) (with_heap h t)) (rows ++ [row]).
Proof.
  intros [(m & Hm & Hd & Hnd) Hok Hfit] Hrow Hf Hn.
  destruct (rh_insert_ok _ _ _ _ _ Hm Hrow Hn Hf) as (h & ptr & E & Hfresh & Hm').
  exists h, ptr. unfold push_row. rewrite ST_bind_eq. unfold on_heap. rewrite E. split; [done|].
  assert (Hnew : ptr ∉ row_directory t).
  { intros (i & Hi)%list_elem_of_lookup. destruct (Forall2_lookup_l _ _ _ _ _ Hd Hi) as (r & _ & Hp). congruence. }
  split; cbn [row_directory with_directory].
  - exists (<[ptr := row]> m). split; [done|]. split.
    + apply Forall2_app; [|constructor; [apply lookup_insert_eq|constructor]].
      apply Forall2_same_length_lookup. apply Forall2_same_length_lookup in Hd as [Hl Hd]. split; [done|].
      intros i p r Hp Hr. rewrite lookup_insert_ne; [by eapply Hd|]. intros ->. apply Hnew.
      by eapply list_elem_of_lookup_2.
    + apply NoDup_app. split; [done|]. split; [|apply NoDup_singleton].
      intros p Hp ->%list_elem_of_singleton. done.
  - apply Forall_app. split; [done|]. by apply Forall_singleton.
  - apply Forall_app. split; [done|]. by apply Forall_singleton.
Qed.

Lemma push_row_refused n t rows row :
  holds_rows n t rows → rh_fits row = false → push_row row t = (t, Throw rh_too_large).
Proof.
  intros [(m & Hm & _ & _) _ _] Hf. unfold push_row. rewrite ST_bind_eq. unfold on_heap.
  rewrite (rh_insert_refused _ _ _ _ _ Hm Hf). by rewrite with_heap_id.
Qed.

Lemma replace_row_ok n t rows i old row :
  holds_rows n t rows → rows !! i = Some old → rh_row_ok (collect_column_types t) row →
  rh_fits row = true → Z.of_nat n + 1 < 2 ^ 32 →
  ∃ h ptr, replace_row i row t = (with_directory (<[i := ptr]> (row_directory t)) (with_heap h t), Ok tt) ∧
    holds_rows (n + 1) (with_directory (<[i := ptr]> (row_directory t)) (with_heap h t)) (<[i := row]> rows).
Proof.
  intros [(m & Hm & Hd & Hnd) Hok Hfit] Hi Hrow Hf Hn.
  destruct (Forall2_lookup_r _ _ _ _ _ Hd Hi) as (ptr & Hptr & Hold).
  destruct (rh_update_ok _ _ _ _ _ _ _ Hm Hrow Hn Hf Hold) as (h & ptr' & E & Hfresh & Hm').
  exists h, ptr'. unfold replace_row. rewrite ST_bind_eq. cbn [gets]. rewrite Hptr, ST_bind_eq.
  unfold on_heap. rewrite E. split; [done|].
  apply Forall2_same_length_lookup in Hd as [Hl Hd].
  assert (Hother : ∀ j p, j ≠ i → row_directory t !! j = Some p → p ≠ ptr ∧ p ≠ ptr').
  { intros j p Hj Hp. destruct (lookup_lt_is_Some_2 rows j) as [r Hr].
    { rewrite <- Hl. by eapply lookup_lt_Some. }
    assert (Hne : p ≠ ptr) by (intros ->; apply Hj; by eapply NoDup_lookup).
    split; [done|]. intros ->. rewrite lookup_delete_ne in Hfresh by done.
    by rewrite (Hd _ _ _ Hp Hr) in Hfresh. }
  split; cbn [row_directory with_directory].
  - exists (<[ptr' := row]> (delete ptr m)). split; [done|]. split.
    + apply Forall2_same_length_lookup. split; [by rewrite !length_insert|].
      intros j p r Hp Hr. apply list_lookup_insert_Some in Hp as [(<- & <- & _)|[Hj Hp]].
      * rewrite list_lookup_insert_eq in Hr by (by eapply lookup_lt_Some). simplify_eq. apply lookup_insert_eq.
      * rewrite list_lookup_insert_ne in Hr by done. destruct (Hother j p) as [H1 H2]; [done|done|].
        rewrite lookup_insert_ne by done. rewrite lookup_delete_ne by done. by eapply Hd.
    + apply NoDup_alt. intros j k p Hj Hk.
      apply list_lookup_insert_Some in Hj as [(<- & <- & _)|[Hji Hj]];
      apply list_lookup_insert_Some in Hk as [(<- & E2 & _)|[Hki Hk]]; try done.
      * destruct (Hother k ptr') as [_ ?]; done.
      * subst p. destruct (Hother j ptr') as [_ ?]; done.
      * by eapply NoDup_lookup.
  - by apply Forall_insert.
  - by apply Forall_insert.
Qed.

(** Keys read the values of a row, not its versions. *)
Lemma row_key_values t cols r r' : row_values r' = row_values r → row_key t cols r' = row_key t cols r.
Proof. destruct r, r'. cbn. by intros ->. Qed.

Lemma key_pairs_keys t cols rows rows' :
  row_values <$> rows' = row_values <$> rows → key_pairs t cols rows' = key_pairs t cols rows.
Proof.
  intros E. unfold key_pairs. apply list_eq. intros i. rewrite !list_lookup_imap.
  assert (row_values <$> rows' !! i = row_values <$> rows !! i) as Ei by (by rewrite <- !list_lookup_fmap, E).
  destruct (rows' !! i) as [r'|], (rows !! i) as [r|]; cbn in *; try done.
  injection Ei as Ei. f_equal. f_equal. by apply row_key_values.
Qed.

Lemma holds_rows_same n t t' rows :
  holds_rows n t rows → columns t' = columns t → heap t' = heap t → row_directory t' = row_directory t →
  holds_rows n t' rows.
Proof.
  intros [Hm Hok Hfit] Ec Eh Ed.
  assert (collect_column_types t' = collect_column_types t) as Et by (unfold collect_column_types; by rewrite Ec).
  split; rewrite ?Et, ?Eh, ?Ed; done.
Qed.

Lemma indexes_ok_same t t' rows :
  same_schema t t' → column_indices t' = column_indices t → named_indices t' = named_indices t →
  indexes_ok t rows → indexes_ok t' rows.
Proof.
  intros E Ec En [H1 H2]. split; rewrite ?Ec, ?En, ?(ss_secondary _ _ E), ?(ss_constraint _ _ E).
  - intros name idx Hi. eapply ss_agrees; [done|]. by apply H1.
  - intros d idx Hd Hi. eapply ss_agrees; [done|]. by apply H2.
Qed.

Lemma indexes_ok_values t rows rows' :
  row_values <$> rows' = row_values <$> rows → indexes_ok t rows → indexes_ok t rows'.
Proof.
  intros E [H1 H2]. split; unfold agrees in *.
  - intros name idx Hi. rewrite (key_pairs_keys _ _ _ _ E). by apply H1.
  - intros d idx Hd Hi. rewrite (key_pairs_keys _ _ _ _ E). by apply H2.
Qed.

(** A step that leaves the indexes and the schema alone. *)
Lemma table_ok_rows n n' ks t t' rows rows' :
  table_ok n ks t rows → same_schema t t' → column_indices t' = column_indices t →
  named_indices t' = named_indices t → holds_rows n' t' rows' → row_values <$> rows' = row_values <$> rows →
  table_ok n' ks t' rows'.
Proof.
  intros [Hh Hs Hty Hix] E Ec En Hh' Hv. split; [done|by eapply ss_schema_ok| |].
  - apply Forall_forall. intros r' (i & Hi)%list_elem_of_lookup.
    assert (row_values <$> rows' !! i = row_values <$> rows !! i) as Ei by (by rewrite <- !list_lookup_fmap, Hv).
    rewrite Hi in Ei. destruct (rows !! i) as [r|] eqn:Hr; [|done]. cbn in Ei. injection Ei as Ei.
    rewrite Forall_forall in Hty. unfold typed_values. rewrite Ei. by eapply Hty, list_elem_of_lookup_2.
  - eapply indexes_ok_values; [done|]. by eapply indexes_ok_same.
Qed.

(** The row the statement offers: of the width and the kinds of the table, and
    storable; or of another width. *)
Definition offered ks t (row : Row) : Prop :=
  length (row_values row) ≠ length (columns t) ∨
  typed_values ks row ∧ rh_row_ok (collect_column_types t) row.

Lemma accept_row_ok n ks t rows row exclude refused :
  table_ok n ks t rows → offered ks t row →
  ∃ h, accept_row row exclude refused t = (with_heap h t, admission t rows row exclude refused) ∧
    holds_rows n (with_heap h t) rows.
Proof.
  intros [Hh Hs Hty Hix] Hoff. apply runs_at; [|done].
  assert (Hl : length (row_directory t) = length rows).
  { destruct Hh as [(m & _ & Hd & _) _ _]. by eapply Forall2_length. }
  destruct Hoff as [Hw|[Hrow _]]; [|by eapply runs_accept_row].
  apply Nat.eqb_neq in Hw as Hw'. unfold admission. rewrite Hw'. by apply runs_accept_width.
Qed.

Lemma admission_width t rows row exclude refused :
  admission t rows row exclude refused = Ok tt → length (row_values row) = length (columns t).
Proof. unfold admission. intros Ha. apply Nat.eqb_eq. by destruct (_ =? _)%nat. Qed.

Lemma admission_defined t rows row exclude refused : admission t rows row exclude refused = UB →
  first_violated t row (checks t) = UB.
Proof.
  unfold admission. destruct (negb _); [done|]. destruct (first_violated _ _ _) as [[]| |]; try done.
  by destruct (_ && _).
Qed.

(** Storing a row at the end, with its index entries. *)
Definition append_row (row : Row) : ST (Table H Q) unit :=
  push_row row;; t ← st_get; insert_into_indexes row (length (row_directory t) - 1);; mark_dirty.

Lemma append_row_ok n ks t rows row :
  table_ok n ks t rows → typed_values ks row → rh_row_ok (collect_column_types t) row →
  rh_fits row = true → Z.of_nat n + 1 < 2 ^ 32 →
  ∃ t', append_row row t = (t', Ok tt) ∧ table_ok (n + 1) ks t' (rows ++ [row]) ∧ same_schema t t'.
Proof.
  intros [Hh Hs Hty Hix] Hrow Hrok Hf Hn.
  destruct (table_push_ok n t rows row Hh Hrok Hf Hn) as (h & ptr & E & Hh1). unfold append_row.
  rewrite ST_bind_eq, E. rewrite ST_bind_eq. cbn [st_get].
  set (t1 := with_directory (row_directory t ++ [ptr]) (with_heap h t)) in *.
  assert (Hss1 : same_schema t t1) by done.
  assert (Hlen : (length (row_directory t1) - 1 = length rows)%nat).
  { destruct Hh1 as [(m & _ & Hd & _) _ _]. apply Forall2_length in Hd. rewrite Hd, length_app. cbn. lia. }
  rewrite Hlen.
  destruct (insert_into_indexes_ok ks t1 rows row) as (ci & ni & E2 & Hix2 & Hc & Hnm); [|done|done| |].
  { by eapply ss_schema_ok. }
  { by eapply indexes_ok_same. }
  rewrite ST_bind_eq, E2. eexists. split; [reflexivity|].
  assert (Hss2 : same_schema t (with_indices ci ni t1)) by (split; done).
  split; [|by split].
  split; [by eapply holds_rows_same| | |].
  - eapply ss_schema_ok; [|done]. by split.
  - apply Forall_app. split; [done|]. by apply Forall_singleton.
  - eapply indexes_ok_same; [| | |exact Hix2]; done.
Qed.

Lemma append_row_refused n t rows row :
  holds_rows n t rows → rh_fits row = false → append_row row t = (t, Throw rh_too_large).
Proof. intros Hh Hf. unfold append_row. rewrite ST_bind_eq. by erewrite push_row_refused. Qed.

Lemma insert_row_eq row t :
  insert_row row t = (accept_row row no_row row_refused ≫= λ _, append_row row) t.
Proof. reflexivity. Qed.

(** *** What the operations do to the list of rows *)

Definition spec_append rows (row : Row) : list Row * res unit :=
  if rh_fits row then (rows ++ [row], Ok tt) else (rows, Throw rh_too_large).

Definition spec_insert t rows (row : Row) : list Row * res unit :=
  match admission t rows row no_row row_refused with
  | Ok _ => spec_append rows row
  | Throw e => (rows, Throw e)
  | UB => (rows, UB)
  end.

Definition spec_delete_versioned rows (i : nat) (xid : Z) : list Row * res unit :=
  match rows !! i with
  | None => (rows, Throw bad_row_index)
  | Some old => (<[i := set_xmax old xid]> rows, Ok tt)
  end.

Definition spec_update_versioned t rows (i : nat) (row : Row) (xid : Z) : list Row * res unit :=
  match rows !! i with
  | None => (rows, Throw bad_row_index)
  | Some old =>
      match admission t rows row (Z.of_nat i) update_refused with
      | Ok _ => spec_append (<[i := set_xmax old xid]> rows) (set_xmax (set_xmin row xid) 0)
      | Throw e => (rows, Throw e)
      | UB => (rows, UB)
      end
  end.

Lemma table_ok_heap n ks t h rows :
  table_ok n ks t rows → holds_rows n (with_heap h t) rows → table_ok n ks (with_heap h t) rows.
Proof. intros Ht Hh. by eapply (table_ok_rows n n ks t). Qed.

Lemma table_ok_le n n' ks t rows : table_ok n ks t rows → (n ≤ n')%nat → table_ok n' ks t rows.
Proof.
  intros [[(m & Hm & Hd) Hok Hf] Hs Hty Hix] Hle. split; [|done..]. split; [|done..].
  exists m. split; [by eapply rh_holds_le|done].
Qed.

Lemma table_insert_ok n ks t rows row :
  table_ok n ks t rows → offered ks t row → Z.of_nat n + 1 < 2 ^ 32 →
  ∃ t', insert_row row t = (t', (spec_insert t rows row).2) ∧
    table_ok (n + 1) ks t' (spec_insert t rows row).1 ∧ same_schema t t'.
Proof.
  intros Ht Hoff Hn. destruct (accept_row_ok n ks t rows row no_row row_refused Ht Hoff) as (h & E & Hh).
  rewrite insert_row_eq, ST_bind_eq, E. unfold spec_insert.
  pose proof (table_ok_heap _ _ _ _ _ Ht Hh) as Ht1.
  destruct (admission t rows row no_row row_refused) as [[]|e|] eqn:Ha.
  - destruct Hoff as [Hw|[Hrow Hrok]]; [by apply admission_width in Ha|]. unfold spec_append.
    destruct (rh_fits row) eqn:Hf; cbn [fst snd].
    + destruct (append_row_ok n ks (with_heap h t) rows row Ht1) as (t' & E' & Ht' & Hss); try done.
      exists t'. split; [done|]. split; [done|]. by etrans; [|exact Hss].
    + eexists. erewrite append_row_refused by done. split; [reflexivity|].
      split; [eapply table_ok_le; [done|lia]|done].
  - eexists. split; [reflexivity|]. split; [eapply table_ok_le; [done|lia]|done].
  - eexists. split; [reflexivity|]. split; [eapply table_ok_le; [done|lia]|done].
Qed.

Lemma runs_check_row_index n t rows i : length (row_directory t) = length rows →
  runs n t rows (check_row_index i) (match rows !! i with Some _ => Ok tt | None => Throw bad_row_index end).
Proof.
  intros Hl. apply runs_gets. intros h0. cbn [row_directory with_heap]. rewrite Hl.
  destruct (rows !! i) as [r|] eqn:Hi.
  - apply lookup_lt_Some in Hi. rewrite (proj2 (Nat.leb_gt _ _)) by lia. apply runs_ret.
  - apply lookup_ge_None in Hi. rewrite (proj2 (Nat.leb_le _ _)) by lia. apply runs_throw.
Qed.

Lemma holds_dir n t rows : holds_rows n t rows → length (row_directory t) = length rows.
Proof. intros [(m & _ & Hd & _) _ _]. by eapply Forall2_length. Qed.

Lemma fmap_set_xmax rows i old xid : rows !! i = Some old →
  row_values <$> <[i := set_xmax old xid]> rows = row_values <$> rows.
Proof.
  intros Hi. rewrite list_fmap_insert. apply list_insert_id. by rewrite list_lookup_fmap, Hi.
Qed.

(** Marking the version at [i] as deleted. *)
Lemma mark_deleted_ok n ks t rows i old xid :
  table_ok n ks t rows → rows !! i = Some old → is_u64 xid → Z.of_nat n + 1 < 2 ^ 32 →
  ∃ t', replace_row i (set_xmax old xid) t = (t', Ok tt) ∧
    table_ok (n + 1) ks t' (<[i := set_xmax old xid]> rows) ∧ same_schema t t'.
Proof.
  intros Ht Hi Hx Hn. pose proof (to_holds _ _ _ _ Ht) as Hh.
  assert (Hok : rh_row_ok (collect_column_types t) old ∧ rh_fits old = true).
  { destruct Hh as [_ Hok Hfit]. rewrite Forall_forall in Hok, Hfit.
    split; [by eapply Hok, list_elem_of_lookup_2|by eapply Hfit, list_elem_of_lookup_2]. }
  destruct Hok as [Hok Hfit]. pose proof (rh_row_ok_u64 _ _ Hok) as [Hmin _].
  pose proof (rh_row_ok_version _ _ (row_xmin old) xid Hok Hmin Hx) as Hok'.
  pose proof (rh_fits_version old (row_xmin old) xid) as Hfit'.
  assert (set_xmax (set_xmin old (row_xmin old)) xid = set_xmax old xid) as Eold by by destruct old.
  rewrite Eold in *. rewrite Hfit in Hfit'.
  destruct (replace_row_ok n t rows i old (set_xmax old xid) Hh Hi Hok' Hfit' Hn) as (h & ptr & E & Hh').
  eexists. split; [exact E|]. split; [|done]. eapply table_ok_rows; try done. by apply fmap_set_xmax.
Qed.

Lemma mark_dirty_ok n ks t rows : table_ok n ks t rows →
  ∃ t', mark_dirty t = (t', Ok tt) ∧ table_ok n ks t' rows ∧ same_schema t t'.
Proof.
  intros Ht. eexists. split; [reflexivity|]. split; [|done].
  eapply table_ok_rows; try done. eapply holds_rows_same; [apply Ht|done..].
Qed.

Lemma table_delete_versioned_ok n ks t rows i xid :
  table_ok n ks t rows → is_u64 xid → Z.of_nat n + 1 < 2 ^ 32 →
  ∃ t', delete_row_versioned i xid t = (t', (spec_delete_versioned rows i xid).2) ∧
    table_ok (n + 1) ks t' (spec_delete_versioned rows i xid).1 ∧ same_schema t t'.
Proof.
  intros Ht Hx Hn. pose proof (to_holds _ _ _ _ Ht) as Hh. unfold spec_delete_versioned, delete_row_versioned.
  destruct (runs_at _ _ _ _ _ (runs_check_row_index n t rows i (holds_dir _ _ _ Hh)) Hh) as (h & E & Hh1).
  rewrite ST_bind_eq, E. pose proof (table_ok_heap _ _ _ _ _ Ht Hh1) as Ht1.
  destruct (rows !! i) as [old|] eqn:Hi; cbn [fst snd].
  2:{ eexists. split; [reflexivity|]. split; [eapply table_ok_le; [done|lia]|done]. }
  destruct (runs_at _ _ _ _ _ (runs_get_row n (with_heap h t) rows i old Hi) Hh1) as (h2 & E2 & Hh2).
  rewrite ST_bind_eq, E2. pose proof (table_ok_heap _ _ _ _ _ Ht1 Hh2) as Ht2.
  destruct (mark_deleted_ok n ks _ rows i old xid Ht2 Hi Hx Hn) as (t3 & E3 & Ht3 & Hss3).
  rewrite ST_bind_eq, E3. destruct (mark_dirty_ok _ _ _ _ Ht3) as (t4 & E4 & Ht4 & Hss4).
  exists t4. split; [done|]. split; [done|]. etrans; [|exact Hss4]. etrans; [|exact Hss3]. done.
Qed.

Lemma update_row_versioned_eq i row xid t :
  update_row_versioned i row xid t =
  (check_row_index i;; accept_row row (Z.of_nat i) update_refused;; old ← get_row i;
   replace_row i (set_xmax old xid);; append_row (set_xmax (set_xmin row xid) 0)) t.
Proof. reflexivity. Qed.

Lemma table_update_versioned_ok n ks t rows i row xid :
  table_ok n ks t rows → offered ks t row → is_u64 xid → Z.of_nat n + 2 < 2 ^ 32 →
  ∃ t', update_row_versioned i row xid t = (t', (spec_update_versioned t rows i row xid).2) ∧
    table_ok (n + 2) ks t' (spec_update_versioned t rows i row xid).1 ∧ same_schema t t'.
Proof.
  intros Ht Hoff Hx Hn. pose proof (to_holds _ _ _ _ Ht) as Hh. unfold spec_update_versioned.
  rewrite update_row_versioned_eq.
  destruct (runs_at _ _ _ _ _ (runs_check_row_index n t rows i (holds_dir _ _ _ Hh)) Hh) as (h & E & Hh1).
  rewrite ST_bind_eq, E. pose proof (table_ok_heap _ _ _ _ _ Ht Hh1) as Ht1.
  destruct (rows !! i) as [old|] eqn:Hi.
  2:{ eexists. split; [reflexivity|]. split; [eapply table_ok_le; [done|lia]|done]. }
  destruct (accept_row_ok n ks (with_heap h t) rows row (Z.of_nat i) update_refused Ht1 Hoff) as (h2 & E2 & Hh2).
  rewrite ST_bind_eq, E2. rewrite (ss_admission t (with_heap h t)) by done.
  pose proof (table_ok_heap _ _ _ _ _ Ht1 Hh2) as Ht2.
  destruct (admission t rows row (Z.of_nat i) update_refused) as [[]|e|] eqn:Ha.
  2,3: eexists; (split; [reflexivity|]); (split; [eapply table_ok_le; [done|lia]|done]).
  destruct (runs_at _ _ _ _ _ (runs_get_row n _ rows i old Hi) Hh2) as (h3 & E3 & Hh3).
  rewrite ST_bind_eq, E3. pose proof (table_ok_heap _ _ _ _ _ Ht2 Hh3) as Ht3.
  destruct (mark_deleted_ok n ks _ rows i old xid Ht3 Hi Hx) as (t4 & E4 & Ht4 & Hss4); [lia|].
  rewrite ST_bind_eq, E4. destruct Hoff as [Hw|[Hrow Hrok]]; [by apply admission_width in Ha|].
  assert (Hss : same_schema t t4) by (etrans; [|exact Hss4]; done).
  unfold spec_append. rewrite rh_fits_version. destruct (rh_fits row) eqn:Hf; cbn [fst snd].
  - destruct (append_row_ok (n + 1) ks t4 (<[i := set_xmax old xid]> rows) (set_xmax (set_xmin row xid) 0))
      as (t5 & E5 & Ht5 & Hss5); [done|done| |by rewrite rh_fits_version|lia|].
    { unfold collect_column_types. rewrite (ss_columns _ _ Hss). apply rh_row_ok_version; [done|done|].
      split; [done|]. lia. }
    exists t5. split; [done|]. split; [eapply table_ok_le; [done|lia]|]. by etrans.
  - eexists. erewrite append_row_refused; [|apply Ht4|by rewrite rh_fits_version].
    split; [reflexivity|]. split; [eapply table_ok_le; [done|lia]|done].
Qed.
End spec.
