(* ===== verification/TableMaint.v ===== *)
(** * Rebuilding tables

    Index construction from scratch, the deletion of a row, and the rewriting of
    all rows by freeze and vacuum ([Table::rebuild_indexes], [delete_row],
    [freeze_committed_versions], [vacuum_versions] of src/core/table.cc). *)

From Stdlib Require Import ZArith Lia.
From S2P Require Import Prelude CppNum Values Rows IndexKey BTree Transactions Expr Evaluator Partition RowHeap Table TableSpec.
Import Table.

Section maint.
Context {H : Type} {RH : RowHeap H} {RS : RowHeapSpec H} {Q : Type}.
Implicit Types (t : Table H Q) (h : H) (rows : list Row) (n : nat).

(** ** Storing all rows anew *)

Lemma push_rows_ok n t rows more :
  holds_rows n t rows → Forall (rh_row_ok (collect_column_types t)) more →
  Forall (λ r, rh_fits r = true) more → Z.of_nat (n + length more) + 1 < 2 ^ 32 →
  ∃ h d, st_iter push_row more t = (with_directory d (with_heap h t), Ok tt) ∧
    holds_rows (n + length more) (with_directory d (with_heap h t)) (rows ++ more).
Proof.
  revert n t rows. induction more as [|r more IH]; intros n t rows Hh Hok Hfit Hn.
  { exists (heap t), (row_directory t). rewrite app_nil_r, Nat.add_0_r. destruct t. by split. }
  apply Forall_cons_iff in Hok as [Hr Hok]. apply Forall_cons_iff in Hfit as [Hf Hfit]. cbn [length] in Hn.
  destruct (table_push_ok n t rows r Hh Hr Hf) as (h & ptr & E & Hh1); [lia|].
  rewrite st_iter_cons, ST_bind_eq, E.
  destruct (IH _ _ _ Hh1 Hok Hfit) as (h2 & d & E2 & Hh2); [lia|]. exists h2, d.
  split; [exact E2|]. rewrite <- app_assoc in Hh2. cbn [length].
  replace (n + S (length more))%nat with (n + 1 + length more)%nat by lia. exact Hh2.
Qed.

Lemma store_rows_ok n t rows more :
  holds_rows n t rows → Forall (rh_row_ok (collect_column_types t)) more →
  Forall (λ r, rh_fits r = true) more → Z.of_nat (length more) + 1 < 2 ^ 32 →
  ∃ h d, store_rows more t = (with_directory d (with_heap h t), Ok tt) ∧
    holds_rows (length more) (with_directory d (with_heap h t)) more.
Proof.
  intros [(m & Hm & _ & _) _ _] Hok Hfit Hn. unfold store_rows. rewrite ST_bind_eq. unfold on_heap at 1.
  destruct (rh_clear_ok _ _ _ _ Hm) as (h1 & -> & Hm1). rewrite ST_bind_eq. cbn [st_modify].
  rewrite ST_bind_eq. unfold sync_heap_column_types. rewrite ST_bind_eq. cbn [gets]. unfold on_heap.
  change (heap (with_directory [] (with_heap h1 t))) with h1.
  change (collect_column_types (with_directory [] (with_heap h1 t))) with (collect_column_types t).
  destruct (rh_types_same _ _ _ _ Hm1) as (h2 & -> & Hm2).
  destruct (push_rows_ok 0 (with_heap h2 (with_directory [] (with_heap h1 t))) [] more)
    as (h3 & d & E & Hh3); [|done|done|done|].
  { split; [|done|done]. exists ∅. split; [done|]. split; constructor. }
  exists h3, d. done.
Qed.

(** ** Building an index *)

Lemma runs_fill_index n ks t rows cols (key_of : Row → res IndexKey) :
  length (row_directory t) = length rows → Forall (typed_values ks) rows → indexable t ks cols →
  (∀ row, typed_values ks row → key_of row = Ok (row_key t cols row)) →
  ∃ idx, runs n t rows (fill_index key_of) (Ok idx) ∧ agrees t cols rows idx.
Proof.
  intros Hl Hty Hc Hkey.
  assert (∀ k idx, (k ≤ length rows)%nat → agrees t cols (take (length rows - k) rows) idx →
    ∃ idx', runs n t rows (st_fold (λ idx i, row ← get_row i; key ← st_lift (key_of row);
                    st_lift (BTree.insert idx key (Z.of_nat i))) idx (seq (length rows - k) k)) (Ok idx') ∧
      agrees t cols rows idx') as Hgo.
  { induction k as [|k IH]; intros idx Hk Hag.
    - exists idx. rewrite Nat.sub_0_r, firstn_all in Hag. split; [apply runs_ret|done].
    - destruct (lookup_lt_is_Some_2 rows (length rows - S k)) as [row Hrow]; [lia|].
      assert (Htr : typed_values ks row).
      { rewrite Forall_forall in Hty. by eapply Hty, list_elem_of_lookup_2. }
      destruct (agrees_insert t ks cols (take (length rows - S k) rows) row idx) as (idx1 & E & Hag1);
        [by apply Forall_take|done|done|done|].
      rewrite length_take, Nat.min_l in E by lia.
      replace (length rows - k)%nat with (S (length rows - S k)) in IH by lia.
      rewrite <- (take_S_r _ _ _ Hrow) in Hag1.
      destruct (IH idx1) as (idx2 & Hr & Hag2); [lia|done|].
      exists idx2. split; [|done]. cbn [seq st_fold]. eapply runs_bind; [|exact Hr].
      eapply runs_bind; [by apply runs_get_row|]. rewrite Hkey by done.
      eapply runs_bind; [apply runs_lift|]. rewrite E. apply runs_lift. }
  destruct (Hgo (length rows) None) as (idx & Hr & Hag); [lia|by rewrite Nat.sub_diag|].
  exists idx. split; [|done]. apply runs_gets. intros h0. unfold positions. cbn [row_directory with_heap].
  rewrite Hl. by rewrite Nat.sub_diag in Hr.
Qed.

(** States of a rebuild: only the heap and the indexes move. *)
Abbreviation at_indices t h ci ni := (with_indices ci ni (with_heap h t)).

Section rebuild.
Context (n : nat) (ks : list (option kind)) (t : Table H Q) (rows : list Row).
Context (Hs : schema_ok ks t) (Hty : Forall (typed_values ks) rows).
Abbreviation holds h ci ni := (holds_rows n (at_indices t h ci ni) rows).

Lemma build_index_ok h ci ni name :
  holds h ci ni → indexable t ks [name] →
  ∃ h' idx, build_index name (at_indices t h ci ni) = (at_indices t h' (sm_set name idx ci) ni, Ok tt) ∧
    holds h' (sm_set name idx ci) ni ∧ agrees t [name] rows idx.
Proof.
  intros Hh Hc. unfold build_index. rewrite ST_bind_eq. cbn [st_get].
  change (get_column_index (at_indices t h ci ni) name) with (get_column_index t name).
  destruct (get_column_index t name) as [i|] eqn:Hi.
  2:{ destruct Hc as [_ [kk Hk%mapM_Some]]. inversion Hk as [|? ? ? ? E]; subst. by rewrite Hi in E. }
  destruct (runs_fill_index n ks (at_indices t h ci ni) rows [name] (λ row, key_of_value <$> get_value row i))
    as (idx & Hr & Hag); [by eapply holds_dir|done|done| |].
  { intros row Hrow. pose proof (row_key_build t ks [name] row Hrow Hc) as E.
    unfold row_key in *. change (build_index_key (at_indices t h ci ni) row [name]) with (build_index_key t row [name]).
    unfold build_index_key in *. cbn [res_map] in *. rewrite Hi in *.
    destruct (get_value row i); [done|done|done]. }
  destruct (runs_at _ _ _ _ _ Hr Hh) as (h' & E & Hh'). rewrite ST_bind_eq, E.
  exists h', idx. split; [done|]. split; [|done]. by eapply holds_rows_same.
Qed.

Lemma build_from_ok h ci ni defs name cols :
  holds h ci ni → sm_find name defs = Some cols → indexable t ks cols →
  ∃ h' idx, build_from defs name (at_indices t h ci ni) = (at_indices t h' ci (sm_set name idx ni), Ok tt) ∧
    holds h' ci (sm_set name idx ni) ∧ agrees t cols rows idx.
Proof.
  intros Hh Hd Hc. unfold build_from. rewrite Hd, ST_bind_eq. cbn [st_get].
  destruct (runs_fill_index n ks (at_indices t h ci ni) rows cols
    (λ row, build_index_key (at_indices t h ci ni) row cols)) as (idx & Hr & Hag);
    [by eapply holds_dir|done|done| |].
  { intros row Hrow. exact (row_key_build t ks cols row Hrow Hc). }
  destruct (runs_at _ _ _ _ _ Hr Hh) as (h' & E & Hh'). rewrite ST_bind_eq, E.
  exists h', idx. split; [done|]. split; [|done]. by eapply holds_rows_same.
Qed.

(** Every index built so far agrees with the rows. *)
Definition columns_agree (ci : smap index) : Prop := ∀ name idx, sm_find name ci = Some idx → agrees t [name] rows idx.

Definition keyed (c : Column) : bool := col_primary_key c || col_unique c.

Lemma build_columns_ok cs ni : ∀ h ci,
  holds h ci ni → columns_agree ci → (∀ c, c ∈ cs → keyed c = true → indexable t ks [col_name c]) →
  ∃ h' ci', st_iter (λ c, if col_primary_key c || col_unique c then build_index (col_name c) else mret tt) cs
      (at_indices t h ci ni) = (at_indices t h' ci' ni, Ok tt) ∧
    holds h' ci' ni ∧ columns_agree ci' ∧
    ∀ name, is_Some (sm_find name ci') ↔
      is_Some (sm_find name ci) ∨ ∃ c, c ∈ cs ∧ keyed c = true ∧ col_name c = name.
Proof.
  induction cs as [|c cs IH]; intros h ci Hh Hag Hc.
  { exists h, ci. split; [done|]. split; [done|]. split; [done|]. intros name. split; [by left|].
    intros [?|(c & Hin & _)]; [done|]. exfalso; by eapply not_elem_of_nil. }
  rewrite st_iter_cons, ST_bind_eq. fold (keyed c). destruct (keyed c) eqn:Hk.
  - destruct (build_index_ok h ci ni (col_name c) Hh) as (h1 & idx & E & Hh1 & Ha); [apply Hc; [left|done]|].
    rewrite E. destruct (IH h1 (sm_set (col_name c) idx ci) Hh1) as (h2 & ci2 & E2 & Hh2 & Hag2 & Hd).
    { intros name idx' Hf. destruct (decide (name = col_name c)) as [->|Hne].
      - rewrite sm_find_set_eq in Hf. by simplify_eq.
      - rewrite sm_find_set_ne in Hf by done. by apply Hag. }
    { intros c' Hc'. apply Hc. by right. }
    exists h2, ci2. split; [done|]. split; [done|]. split; [done|]. intros name. rewrite Hd.
    destruct (decide (name = col_name c)) as [->|Hne].
    + rewrite sm_find_set_eq. split; [intros _; right; exists c; split; [left|done]|]. left; eauto.
    + rewrite sm_find_set_ne by done. split.
      * intros [?|(c' & Hin & ?)]; [by left|]. right. exists c'. split; [by right|done].
      * intros [?|(c' & [->|Hin]%elem_of_cons & Hk' & <-)]; [by left|done|]. right. eauto.
  - destruct (IH h ci Hh Hag) as (h2 & ci2 & E2 & Hh2 & Hag2 & Hd); [intros c' Hc'; apply Hc; by right|].
    exists h2, ci2. split; [done|]. split; [done|]. split; [done|]. intros name. rewrite Hd. split.
    + intros [?|(c' & Hin & ?)]; [by left|]. right. exists c'. split; [by right|done].
    + intros [?|(c' & [->|Hin]%elem_of_cons & Hk' & <-)]; [by left|congruence|]. right. eauto.
Qed.

(** Named indexes agree with their definitions. *)
Definition named_agree (defs : smap (list string)) (ni : smap index) : Prop :=
  ∀ d idx, d ∈ defs → sm_find d.1 ni = Some idx → agrees t d.2 rows idx.

Lemma build_defs_ok (f : string → ST (Table H Q) unit) defs l ci : ∀ h ni,
  (∀ h ni name, f name (at_indices t h ci ni) = build_from defs name (at_indices t h ci ni)) →
  holds h ci ni → (∀ d, d ∈ l → sm_find d.1 defs = Some d.2 ∧ indexable t ks d.2) → NoDup l.*1 →
  ∃ h' ni', st_iter (λ d, f d.1) l (at_indices t h ci ni) = (at_indices t h' ci ni', Ok tt) ∧
    holds h' ci ni' ∧ named_agree l ni' ∧
    (∀ name, name ∉ l.*1 → sm_find name ni' = sm_find name ni) ∧
    ∀ name, name ∈ l.*1 → is_Some (sm_find name ni').
Proof.
  induction l as [|d l IH]; intros h ni Hf Hh Hl Hnd.
  { exists h, ni. split; [done|]. split; [done|]. split; [intros d idx Hd; exfalso; by eapply not_elem_of_nil|].
    split; [done|]. intros name Hn. exfalso; by eapply not_elem_of_nil. }
  apply NoDup_cons in Hnd as [Hn Hnd]. rewrite st_iter_cons, ST_bind_eq, Hf.
  destruct (Hl d) as [Hfind Hc]; [left|].
  destruct (build_from_ok h ci ni defs d.1 d.2 Hh Hfind Hc) as (h1 & idx & -> & Hh1 & Ha).
  destruct (IH h1 (sm_set d.1 idx ni) Hf Hh1) as (h2 & ni2 & E2 & Hh2 & Hag2 & Ho2 & Hin2); [|done|].
  { intros d' Hd'. apply Hl. by right. }
  exists h2, ni2. split; [done|]. split; [done|]. split_and!.
  - intros d' idx' [->|Hd']%elem_of_cons Hidx; [|by apply Hag2].
    rewrite Ho2, sm_find_set_eq in Hidx by done. by simplify_eq.
  - intros name Hname. rewrite fmap_cons, not_elem_of_cons in Hname. destruct Hname as [Hne Hname].
    rewrite Ho2 by done. by apply sm_find_set_ne.
  - intros name [->|Hname]%elem_of_cons; [|by apply Hin2]. rewrite Ho2 by done. rewrite sm_find_set_eq. eauto.
Qed.
End rebuild.

Lemma sm_find_nodup {A} (m : smap A) d : NoDup m.*1 → d ∈ m → sm_find d.1 m = Some d.2.
Proof.
  induction m as [|[k a] m IH]; intros Hnd Hd; [exfalso; by eapply not_elem_of_nil|].
  apply NoDup_cons in Hnd as [Hn Hnd]. apply elem_of_cons in Hd as [->|Hd]; cbn [sm_find].
  - by rewrite bool_decide_true.
  - rewrite bool_decide_false; [by apply IH|]. intros E. apply Hn. cbn. rewrite E.
    by apply (list_elem_of_fmap_2 fst).
Qed.

(** ** Tables whose indexes are the ones a rebuild makes *)

Record built t : Prop := {
  bt_column name : is_Some (sm_find name (column_indices t)) ↔
    ∃ c, c ∈ columns t ∧ keyed c = true ∧ col_name c = name;
  bt_named name : is_Some (sm_find name (named_indices t)) ↔
    name ∈ (secondary_indexes t).*1 ++ (constraint_indexes t).*1;
  bt_flags : primary_key_columns t = [] → filter (λ c, col_primary_key c = true) (columns t) = [];
  bt_pk : primary_key_columns t ≠ [] → sm_has primary_key_index_name (constraint_indexes t) = true;
  bt_uq uq : uq ∈ unique_constraints t →
    sm_has (unique_constraint_index_name uq) (constraint_indexes t) = true
}.

Lemma ss_built t t' : same_schema t t' → built t → built t'.
Proof.
  intros E [H1 H2 H3 H4 H5].
  split; rewrite ?(ss_columns _ _ E), ?(ss_secondary _ _ E), ?(ss_constraint _ _ E), ?(ss_pk _ _ E),
    ?(ss_uq _ _ E); try done.
  - intros name. by rewrite (ss_column_indices _ _ E).
  - intros name. by rewrite (ss_named_indices _ _ E).
Qed.

Lemma same_schema_heap h t : same_schema t (with_heap h t).
Proof. done. Qed.

Lemma sync_keys_noop t : (primary_key_columns t = [] → filter (λ c, col_primary_key c = true) (columns t) = []) →
  sync_key_metadata_from_column_flags t = (t, Ok tt).
Proof.
  intros Hf. unfold sync_key_metadata_from_column_flags, st_modify.
  destruct (primary_key_columns t) eqn:Hpk; [|done]. rewrite Hf by done. destruct t. cbn in *. by subst.
Qed.

Lemma keep_uniques_noop t uqs :
  (∀ uq, uq ∈ uqs → sm_has (unique_constraint_index_name uq) (constraint_indexes t) = true) →
  st_iter (λ uq,
    cons ← gets constraint_indexes;
    if sm_has (unique_constraint_index_name uq) cons then mret tt
    else ensure_constraint_index (unique_constraint_index_name uq) (uq_columns uq)) uqs t = (t, Ok tt).
Proof.
  induction uqs as [|uq uqs IH]; intros Hu; [done|]. rewrite st_iter_cons, !ST_bind_eq. cbn [gets].
  rewrite Hu by left. cbn [mret ST_ret]. apply IH. intros uq' Hin. apply Hu. by right.
Qed.

(** Rebuilding gives indexes that agree with the rows, and keeps the schema. *)
Lemma rebuild_indexes_ok n ks t rows :
  holds_rows n t rows → schema_ok ks t → built t → Forall (typed_values ks) rows →
  ∃ t', rebuild_indexes t = (t', Ok tt) ∧ table_ok n ks t' rows ∧ same_schema t t'.
Proof.
  intros Hh Hs Hb Hty. unfold rebuild_indexes. rewrite ST_bind_eq. cbn [st_modify].
  rewrite ST_bind_eq. rewrite sync_keys_noop by apply (bt_flags _ Hb).
  rewrite ST_bind_eq. cbn [gets]. rewrite ST_bind_eq. cbn [columns with_indices].
  destruct (build_columns_ok n ks t rows Hty (columns t) [] (heap t) []) as (h1 & ci & E1 & Hh1 & Hag1 & Hd1).
  { by eapply holds_rows_same. }
  { by intros name idx ?. }
  { intros c Hc Hk. apply (so_column _ _ Hs), (bt_column _ Hb). eauto. }
  rewrite with_heap_id in E1. rewrite E1. rewrite ST_bind_eq. cbn [gets secondary_indexes with_indices with_heap].
  rewrite ST_bind_eq. pose proof (so_defs _ _ Hs) as Hnd. apply NoDup_app in Hnd as (Hnd1 & Hdisj & Hnd2).
  destruct (build_defs_ok n ks t rows Hty build_named_index (secondary_indexes t) (secondary_indexes t) ci h1 [])
    as (h2 & ni1 & E2 & Hh2 & Hag2 & Ho2 & Hin2); [done|done| |done|].
  { intros d Hd. split; [by apply sm_find_nodup|by apply (so_secondary _ _ Hs)]. }
  rewrite E2. rewrite ST_bind_eq. cbn [gets constraint_indexes with_indices with_heap].
  rewrite ST_bind_eq.
  destruct (build_defs_ok n ks t rows Hty build_constraint_index (constraint_indexes t) (constraint_indexes t) ci h2 ni1)
    as (h3 & ni2 & E3 & Hh3 & Hag3 & Ho3 & Hin3); [done|done| |done|].
  { intros d Hd. split; [by apply sm_find_nodup|by apply (so_constraint _ _ Hs)]. }
  rewrite E3. rewrite ST_bind_eq. cbn [gets primary_key_columns with_indices with_heap].
  rewrite ST_bind_eq. cbn [gets constraint_indexes with_indices with_heap]. rewrite ST_bind_eq.
  assert (negb (bool_decide (primary_key_columns t = [])) &&
    negb (sm_has primary_key_index_name (constraint_indexes t)) = false) as ->.
  { case_bool_decide as E; [done|]. by rewrite (bt_pk _ Hb E). }
  cbn [mret ST_ret]. rewrite ST_bind_eq. cbn [gets unique_constraints with_indices with_heap].
  rewrite keep_uniques_noop by apply (bt_uq _ Hb). eexists. split; [reflexivity|].
  assert (Hss : same_schema t (with_indices ci ni2 (with_heap h3 t))).
  { split; try done; intros name; cbn [column_indices named_indices with_indices].
    - rewrite Hd1, (bt_column _ Hb). split; [intros [[? ?]|?]; done|by right].
    - rewrite (bt_named _ Hb), elem_of_app.
      destruct (decide (name ∈ (constraint_indexes t).*1)) as [Hin|Hout].
      + split; [by right|]. intros _. by apply Hin3.
      + rewrite Ho3 by done. destruct (decide (name ∈ (secondary_indexes t).*1)) as [Hin|Hout2].
        * split; [by left|]. intros _. by apply Hin2.
        * rewrite Ho2 by done. split; [intros [? ?]; done|]. by intros [?|?]. }
  split; [|done]. split; [done|by eapply ss_schema_ok|done|].
  split; cbn [column_indices named_indices secondary_indexes constraint_indexes with_indices with_heap].
  - apply Hag1.
  - intros d idx [Hd|Hd]%elem_of_app Hidx; [|by apply Hag3].
    rewrite Ho3 in Hidx; [by apply Hag2|]. apply Hdisj. by apply (list_elem_of_fmap_2 fst).
Qed.

(** ** Freeze and vacuum *)

Lemma rewrite_rows_ok n ks t rows kept :
  table_ok n ks t rows → built t → Forall (typed_values ks) kept →
  Forall (rh_row_ok (collect_column_types t)) kept → Forall (λ r, rh_fits r = true) kept →
  Z.of_nat (length kept) + 1 < 2 ^ 32 →
  ∃ t', (store_rows kept;; rebuild_indexes;; mark_dirty) t = (t', Ok tt) ∧
    table_ok (length kept) ks t' kept ∧ same_schema t t'.
Proof.
  intros Ht Hb Hty Hok Hfit Hn. destruct (store_rows_ok n t rows kept (to_holds _ _ _ _ Ht) Hok Hfit Hn)
    as (h & d & E & Hh). rewrite ST_bind_eq, E.
  set (t1 := with_directory d (with_heap h t)) in *. assert (Hss1 : same_schema t t1) by done.
  destruct (rebuild_indexes_ok (length kept) ks t1 kept Hh) as (t2 & E2 & Ht2 & Hss2); [|by eapply ss_built|done|].
  { eapply ss_schema_ok; [done|apply Ht]. }
  rewrite ST_bind_eq, E2. destruct (mark_dirty_ok _ _ _ _ Ht2) as (t3 & E3 & Ht3 & Hss3).
  exists t3. split; [done|]. split; [done|]. etrans; [exact Hss1|]. by etrans.
Qed.

(** Rows that differ from stored ones in their versions only can be stored. *)
Definition reversioned (r r' : Row) : Prop :=
  ∃ xmin xmax, is_u64 xmin ∧ is_u64 xmax ∧ r' = set_xmax (set_xmin r xmin) xmax.

Lemma kept_rows_ok n ks t rows (f : Row → option Row) :
  table_ok n ks t rows →
  (∀ r r', is_u64 (row_xmin r) → is_u64 (row_xmax r) → f r = Some r' → reversioned r r') →
  Forall (typed_values ks) (omap f rows) ∧ Forall (rh_row_ok (collect_column_types t)) (omap f rows) ∧
  Forall (λ r, rh_fits r = true) (omap f rows) ∧ (length (omap f rows) ≤ length rows)%nat.
Proof.
  intros [[_ Hok Hfit] _ Hty _] Hf. induction rows as [|r rows IH]; [done|].
  apply Forall_cons_iff in Hok as [Hr Hok]. apply Forall_cons_iff in Hfit as [Hrf Hfit].
  apply Forall_cons_iff in Hty as [Hrt Hty]. destruct (IH Hok Hfit Hty) as (I1 & I2 & I3 & I4).
  cbn [omap list_omap]. destruct (f r) as [r'|] eqn:E; [|cbn; split_and!; try done; lia].
  destruct (rh_row_ok_u64 _ _ Hr) as [Hu1 Hu2].
  destruct (Hf r r' Hu1 Hu2 E) as (xmin & xmax & Hx & Hy & ->).
  split_and!; try (apply Forall_cons_iff; split; [|done]).
  - done.
  - by apply rh_row_ok_version.
  - by rewrite rh_fits_version.
  - cbn. lia.
Qed.

Lemma freeze_reversioned xid r r' :
  is_u64 (row_xmin r) → is_u64 (row_xmax r) → freeze_row xid r = Some r' → reversioned r r'.
Proof.
  intros Hmin Hmax. unfold freeze_row. destruct (row_xmax r =? xid); [done|].
  destruct (row_xmin r =? xid); intros [= <-].
  - exists 0, (row_xmax r). split; [split; done|]. split; [done|]. by destruct r.
  - exists (row_xmin r), (row_xmax r). split; [done|]. split; [done|]. by destruct r.
Qed.

Lemma vacuum_reversioned tm horizon r r' :
  is_u64 (row_xmin r) → is_u64 (row_xmax r) → vacuum_row tm horizon r = Some r' → reversioned r r'.
Proof.
  intros Hmin Hmax. unfold vacuum_row. destruct (isAborted tm (row_xmin r)); [done|].
  destruct (_ && isAborted tm (row_xmax r)); (case_match; [done|]); intros [= <-].
  - exists (row_xmin r), 0. split; [done|]. split; [split; done|]. by destruct r.
  - exists (row_xmin r), (row_xmax r). split; [done|]. split; [done|]. by destruct r.
Qed.

Lemma freeze_unchanged xid rows :
  existsb (λ r, (row_xmax r =? xid) || (row_xmin r =? xid)) rows = false → omap (freeze_row xid) rows = rows.
Proof.
  induction rows as [|r rows IH]; [done|]. cbn [existsb]. intros [[E1 E2]%orb_false_iff E]%orb_false_iff.
  cbn [omap list_omap]. unfold freeze_row at 1. rewrite E1, E2. by rewrite IH.
Qed.

Lemma freeze_ok n ks t rows xid :
  table_ok n ks t rows → built t → Z.of_nat (length rows) + 1 < 2 ^ 32 →
  ∃ t', freeze_committed_versions xid t = (t', Ok tt) ∧
    table_ok (Nat.max n (length rows)) ks t' (Transactions.freeze_committed_versions xid rows) ∧ same_schema t t'.
Proof.
  intros Ht Hb Hn. unfold freeze_committed_versions, Transactions.freeze_committed_versions.
  destruct (xid =? 0).
  { exists t. split; [done|]. split; [eapply table_ok_le; [done|lia]|done]. }
  pose proof (to_holds _ _ _ _ Ht) as Hh.
  destruct (runs_at _ _ _ _ _ (runs_get_all_rows n t rows (holds_dir _ _ _ Hh)) Hh) as (h & E & Hh1).
  rewrite ST_bind_eq, E. pose proof (table_ok_heap _ _ _ _ _ Ht Hh1) as Ht1.
  destruct (existsb _ rows) eqn:Ex; cbn [negb].
  - destruct (kept_rows_ok n ks _ rows (freeze_row xid) Ht1 (freeze_reversioned xid)) as (K1 & K2 & K3 & K4).
    destruct (rewrite_rows_ok n ks _ rows _ Ht1 (ss_built t _ (same_schema_heap h t) Hb) K1 K2 K3) as (t' & E' & Ht' & Hss); [lia|].
    exists t'. split; [done|]. split; [eapply table_ok_le; [done|lia]|]. by etrans; [|exact Hss].
  - rewrite freeze_unchanged by done. eexists. split; [reflexivity|].
    split; [eapply table_ok_le; [done|lia]|done].
Qed.

Lemma vacuum_ok n ks t rows tm :
  table_ok n ks t rows → built t → Z.of_nat (length rows) + 1 < 2 ^ 32 →
  ∃ t', vacuum_versions tm t = (t', Ok tt) ∧
    table_ok (Nat.max n (length rows)) ks t' (Transactions.vacuum_versions tm rows) ∧ same_schema t t'.
Proof.
  intros Ht Hb Hn. unfold vacuum_versions, vacuum_versions_to, Transactions.vacuum_versions,
    Transactions.vacuum_versions_to.
  pose proof (to_holds _ _ _ _ Ht) as Hh.
  destruct (runs_at _ _ _ _ _ (runs_get_all_rows n t rows (holds_dir _ _ _ Hh)) Hh) as (h & E & Hh1).
  rewrite ST_bind_eq, E. pose proof (table_ok_heap _ _ _ _ _ Ht Hh1) as Ht1.
  destruct (kept_rows_ok n ks _ rows (vacuum_row tm (getVacuumHorizon tm)) Ht1 (vacuum_reversioned tm _))
    as (K1 & K2 & K3 & K4).
  destruct (rewrite_rows_ok n ks _ rows _ Ht1 (ss_built t _ (same_schema_heap h t) Hb) K1 K2 K3) as (t' & E' & Ht' & Hss); [lia|].
  exists t'. split; [done|]. split; [eapply table_ok_le; [done|lia]|]. by etrans; [|exact Hss].
Qed.

(** ** Deleting a row *)

(** A loop over all rows that enters each into the index under [name]; [get] and
    [put] are the access to the map the index is in. *)
Lemma refill_loop n ks t rows cols name (step : nat → ST (Table H Q) unit)
    (at_map : H → smap index → Table H Q) :
  Forall (typed_values ks) rows → indexable t ks cols →
  (∀ h m i row idx idx', holds_rows n (at_map h m) rows → rows !! i = Some row → sm_find name m = Some idx →
     BTree.insert idx (row_key t cols row) (Z.of_nat i) = Ok idx' →
     ∃ h', step i (at_map h m) = (at_map h' (sm_set name idx' m), Ok tt) ∧
       holds_rows n (at_map h' (sm_set name idx' m)) rows) →
  ∀ h m, holds_rows n (at_map h m) rows → sm_find name m = Some None →
  ∃ h' m' idx, st_iter step (seq 0 (length rows)) (at_map h m) = (at_map h' m', Ok tt) ∧
    holds_rows n (at_map h' m') rows ∧ sm_find name m' = Some idx ∧ agrees t cols rows idx ∧
    ∀ name', name' ≠ name → sm_find name' m' = sm_find name' m.
Proof.
  intros Hty Hc Hstep h m Hh Hm.
  assert (∀ k idx h m, (k ≤ length rows)%nat → holds_rows n (at_map h m) rows → sm_find name m = Some idx →
    agrees t cols (take (length rows - k) rows) idx →
    ∃ h' m' idx', st_iter step (seq (length rows - k) k) (at_map h m) = (at_map h' m', Ok tt) ∧
      holds_rows n (at_map h' m') rows ∧ sm_find name m' = Some idx' ∧ agrees t cols rows idx' ∧
      ∀ name', name' ≠ name → sm_find name' m' = sm_find name' m) as Hgo.
  { clear h m Hh Hm. induction k as [|k IH]; intros idx h m Hk Hh Hm Hag.
    - exists h, m, idx. rewrite Nat.sub_0_r, firstn_all in Hag. done.
    - destruct (lookup_lt_is_Some_2 rows (length rows - S k)) as [row Hrow]; [lia|].
      assert (Htr : typed_values ks row).
      { rewrite Forall_forall in Hty. by eapply Hty, list_elem_of_lookup_2. }
      destruct (agrees_insert t ks cols (take (length rows - S k) rows) row idx) as (idx1 & E & Hag1);
        [by apply Forall_take|done|done|done|].
      rewrite length_take, Nat.min_l in E by lia.
      replace (length rows - k)%nat with (S (length rows - S k)) in IH by lia.
      rewrite <- (take_S_r _ _ _ Hrow) in Hag1.
      destruct (Hstep h m _ row idx idx1 Hh Hrow Hm E) as (h1 & E1 & Hh1).
      destruct (IH idx1 h1 (sm_set name idx1 m)) as (h2 & m2 & idx2 & E2 & Hh2 & Hf2 & Hag2 & Ho2);
        [lia|done|apply sm_find_set_eq|done|].
      exists h2, m2, idx2. cbn [seq]. rewrite st_iter_cons, ST_bind_eq, E1. split_and!; try done.
      intros name' Hne. rewrite Ho2 by done. by apply sm_find_set_ne. }
  destruct (Hgo (length rows) None h m) as (h' & m' & idx & Hrest); [lia|done|done|by rewrite Nat.sub_diag|].
  rewrite Nat.sub_diag in Hrest. by exists h', m', idx.
Qed.

Section refill.
Context (n : nat) (ks : list (option kind)) (t : Table H Q) (rows : list Row).
Context (Hs : schema_ok ks t) (Hty : Forall (typed_values ks) rows).
Abbreviation holds h ci ni := (holds_rows n (at_indices t h ci ni) rows).

Lemma refill_column_ok h ci ni name :
  holds h ci ni → indexable t ks [name] →
  ∃ h' ci' idx, refill_column name (at_indices t h ci ni) = (at_indices t h' ci' ni, Ok tt) ∧
    holds h' ci' ni ∧ sm_find name ci' = Some idx ∧ agrees t [name] rows idx ∧
    ∀ name', name' ≠ name → sm_find name' ci' = sm_find name' ci.
Proof.
  intros Hh Hc. unfold refill_column. rewrite ST_bind_eq. cbn [st_modify]. rewrite ST_bind_eq. cbn [st_get].
  change (set_column_index name None (at_indices t h ci ni)) with (at_indices t h (sm_set name None ci) ni).
  assert (Hh0 : holds h (sm_set name None ci) ni) by by eapply holds_rows_same.
  change (get_column_index (at_indices t h (sm_set name None ci) ni) name) with (get_column_index t name).
  destruct (get_column_index t name) as [i|] eqn:Hi.
  2:{ destruct Hc as [_ [kk Hk%mapM_Some]]. inversion Hk as [|? ? ? ? E]; subst. by rewrite Hi in E. }
  unfold positions. rewrite (holds_dir _ _ _ Hh0).
  destruct (refill_loop n ks t rows [name] name
    (λ i0, row ← get_row i0; v ← st_lift (get_value row i); ixs ← gets column_indices;
           idx ← st_lift (or_ub (sm_find name ixs));
           idx' ← st_lift (BTree.insert idx (key_of_value v) (Z.of_nat i0));
           st_modify (set_column_index name idx')) (λ h ci, at_indices t h ci ni) Hty Hc)
    with (h := h) (m := sm_set name None ci) as (h' & m' & idx & E & Hh' & Hf & Hag & Ho);
    [|done|apply sm_find_set_eq|].
  - intros h1 m j row idx idx' Hh1 Hrow Hidx Hins.
    destruct (runs_at _ _ _ _ _ (runs_get_row n (at_indices t h1 m ni) rows j row Hrow) Hh1) as (h2 & E & Hh2).
    rewrite ST_bind_eq, E. rewrite ST_bind_eq. cbn [st_lift].
    assert (Htr : typed_values ks row).
    { rewrite Forall_forall in Hty. by eapply Hty, list_elem_of_lookup_2. }
    pose proof (row_key_build t ks [name] row Htr Hc) as Ek.
    assert (∃ v, get_value row i = Ok v ∧ row_key t [name] row = [v]) as (v & Hv & Hkey).
    { unfold row_key, build_index_key in *. cbn [res_map] in *. rewrite Hi in *.
      destruct (get_value row i); cbn in *; [eauto|done..]. }
    rewrite Hv, ST_bind_eq. cbn [gets]. change (column_indices (with_heap h2 (at_indices t h1 m ni))) with m.
    rewrite Hidx, ST_bind_eq. cbn [or_ub st_lift]. rewrite ST_bind_eq. cbn [st_lift].
    unfold key_of_value. rewrite Hkey in Hins. rewrite Hins. exists h2. split; [done|].
    by eapply holds_rows_same.
  - exists h', m', idx. split; [done|]. split; [done|]. split; [done|]. split; [done|].
    intros name' Hne. rewrite Ho by done. by apply sm_find_set_ne.
Qed.

Lemma refill_named_ok h ci ni d :
  holds h ci ni → indexable t ks d.2 →
  ∃ h' ni', refill_named d (at_indices t h ci ni) = (at_indices t h' ci ni', Ok tt) ∧
    holds h' ci ni' ∧
    (∀ idx, sm_find d.1 ni' = Some idx → agrees t d.2 rows idx) ∧
    (is_Some (sm_find d.1 ni') ↔ is_Some (sm_find d.1 ni)) ∧
    ∀ name', name' ≠ d.1 → sm_find name' ni' = sm_find name' ni.
Proof.
  intros Hh Hc. unfold refill_named. rewrite ST_bind_eq. cbn [gets].
  change (named_indices (at_indices t h ci ni)) with ni.
  destruct (sm_find d.1 ni) as [idx0|] eqn:Hidx0.
  2:{ exists h, ni. split; [done|]. split; [done|]. rewrite Hidx0. split; done. }
  rewrite ST_bind_eq. cbn [st_modify]. rewrite ST_bind_eq. cbn [st_get].
  change (set_named_index d.1 None (at_indices t h ci ni)) with (at_indices t h ci (sm_set d.1 None ni)).
  assert (Hh0 : holds h ci (sm_set d.1 None ni)) by by eapply holds_rows_same.
  unfold positions. rewrite (holds_dir _ _ _ Hh0).
  set (t1 := at_indices t h ci (sm_set d.1 None ni)) in *.
  destruct (refill_loop n ks t rows d.2 d.1
    (λ i, row ← get_row i; key ← st_lift (build_index_key t1 row d.2); ixs ← gets named_indices;
          idx ← st_lift (or_ub (sm_find d.1 ixs));
          idx' ← st_lift (BTree.insert idx key (Z.of_nat i));
          st_modify (set_named_index d.1 idx')) (λ h ni, at_indices t h ci ni) Hty Hc)
    with (h := h) (m := sm_set d.1 None ni) as (h' & m' & idx & E & Hh' & Hf & Hag & Ho);
    [|done|apply sm_find_set_eq|].
  - intros h1 m j row idx idx' Hh1 Hrow Hidx Hins.
    destruct (runs_at _ _ _ _ _ (runs_get_row n (at_indices t h1 ci m) rows j row Hrow) Hh1) as (h2 & E & Hh2).
    rewrite ST_bind_eq, E. rewrite ST_bind_eq. cbn [st_lift].
    assert (Htr : typed_values ks row).
    { rewrite Forall_forall in Hty. by eapply Hty, list_elem_of_lookup_2. }
    change (build_index_key t1 row d.2) with (build_index_key t row d.2).
    rewrite (row_key_build t ks) by done. rewrite ST_bind_eq. cbn [gets].
    change (named_indices (with_heap h2 (at_indices t h1 ci m))) with m.
    rewrite Hidx, ST_bind_eq. cbn [or_ub st_lift]. rewrite ST_bind_eq. cbn [st_lift]. rewrite Hins.
    exists h2. split; [done|]. by eapply holds_rows_same.
  - exists h', m'. split; [done|]. split; [done|]. split; [intros idx'; rewrite Hf; by intros [= <-]|].
    split; [rewrite Hf; split; eauto|]. intros name' Hne. rewrite Ho by done. by apply sm_find_set_ne.
Qed.

Lemma refill_columns_ok ni l : ∀ h ci,
  holds h ci ni → (∀ e, e ∈ l → indexable t ks [e.1]) →
  ∃ h' ci', st_iter (λ e : string * index, refill_column e.1) l (at_indices t h ci ni) = (at_indices t h' ci' ni, Ok tt) ∧
    holds h' ci' ni ∧
    (∀ name, name ∈ l.*1 → ∃ idx, sm_find name ci' = Some idx ∧ agrees t [name] rows idx) ∧
    ∀ name, name ∉ l.*1 → sm_find name ci' = sm_find name ci.
Proof.
  induction l as [|e l IH]; intros h ci Hh Hl.
  { exists h, ci. split; [done|]. split; [done|]. split; [|done]. intros ? ?. exfalso; by eapply not_elem_of_nil. }
  destruct (refill_column_ok h ci ni e.1 Hh) as (h1 & ci1 & idx & E1 & Hh1 & Hf1 & Ha1 & Ho1); [apply Hl; left|].
  destruct (IH h1 ci1 Hh1) as (h2 & ci2 & E2 & Hh2 & Hg2 & Ho2); [intros; apply Hl; by right|].
  exists h2, ci2. rewrite st_iter_cons, ST_bind_eq, E1. split; [done|]. split; [done|]. split.
  - intros name [->|Hin]%elem_of_cons; [|by apply Hg2].
    destruct (decide (e.1 ∈ l.*1)) as [Hin|Hout]; [by apply Hg2|]. exists idx. by rewrite Ho2.
  - intros name Hname. rewrite fmap_cons, not_elem_of_cons in Hname. destruct Hname as [Hne Hname].
    rewrite Ho2 by done. by apply Ho1.
Qed.

Lemma refill_defs_ok ci l : ∀ h ni,
  holds h ci ni → (∀ d, d ∈ l → indexable t ks d.2) → NoDup l.*1 →
  ∃ h' ni', st_iter refill_named l (at_indices t h ci ni) = (at_indices t h' ci ni', Ok tt) ∧
    holds h' ci ni' ∧ named_agree t rows l ni' ∧
    (∀ name, is_Some (sm_find name ni') ↔ is_Some (sm_find name ni)) ∧
    ∀ name, name ∉ l.*1 → sm_find name ni' = sm_find name ni.
Proof.
  induction l as [|d l IH]; intros h ni Hh Hl Hnd.
  { exists h, ni. split; [done|]. split; [done|]. split; [|done]. intros ? ? ?. exfalso; by eapply not_elem_of_nil. }
  apply NoDup_cons in Hnd as [Hn Hnd].
  destruct (refill_named_ok h ci ni d Hh) as (h1 & ni1 & E1 & Hh1 & Ha1 & Hs1 & Ho1); [apply Hl; left|].
  destruct (IH h1 ni1 Hh1) as (h2 & ni2 & E2 & Hh2 & Hg2 & Hs2 & Ho2); [intros; apply Hl; by right|done|].
  exists h2, ni2. rewrite st_iter_cons, ST_bind_eq, E1. split; [done|]. split; [done|]. split_and!.
  - intros d' idx [->|Hd']%elem_of_cons Hidx; [|by apply Hg2]. rewrite Ho2 in Hidx by done. by apply Ha1.
  - intros name. rewrite Hs2. destruct (decide (name = d.1)) as [->|Hne]; [done|]. by rewrite Ho1.
  - intros name Hname. rewrite fmap_cons, not_elem_of_cons in Hname. destruct Hname as [Hne Hname].
    rewrite Ho2 by done. by apply Ho1.
Qed.
End refill.

Lemma indices_eta t : with_indices (column_indices t) (named_indices t) t = t.
Proof. by destruct t. Qed.

Lemma elem_sm_find {A} (e : string * A) m : e ∈ m → is_Some (sm_find e.1 m).
Proof.
  induction m as [|[k a] m IH]; intros He; [exfalso; by eapply not_elem_of_nil|]. cbn [sm_find].
  case_bool_decide; [eauto|]. apply elem_of_cons in He as [->|He]; [done|]. by apply IH.
Qed.

Lemma reindex_ok n ks t rows :
  holds_rows n t rows → schema_ok ks t → Forall (typed_values ks) rows →
  ∃ t', reindex_after_delete t = (t', Ok tt) ∧ table_ok n ks t' rows ∧ same_schema t t'.
Proof.
  intros Hh Hs Hty. unfold reindex_after_delete. rewrite ST_bind_eq. cbn [gets]. rewrite ST_bind_eq.
  destruct (refill_columns_ok n ks t rows Hty (named_indices t) (column_indices t) (heap t) (column_indices t))
    as (h1 & ci & E1 & Hh1 & Hg1 & Ho1).
  { by eapply holds_rows_same. }
  { intros e He. apply (so_column _ _ Hs). by apply elem_sm_find. }
  rewrite with_heap_id, indices_eta in E1. rewrite E1.
  rewrite ST_bind_eq. cbn [gets secondary_indexes with_indices with_heap]. rewrite ST_bind_eq.
  pose proof (so_defs _ _ Hs) as Hnd. apply NoDup_app in Hnd as (Hnd1 & Hdisj & Hnd2).
  destruct (refill_defs_ok n ks t rows Hty ci (secondary_indexes t) h1 (named_indices t) Hh1)
    as (h2 & ni1 & E2 & Hh2 & Hg2 & Hs2 & Ho2); [apply Hs|done|].
  rewrite E2. rewrite ST_bind_eq. cbn [gets constraint_indexes with_indices with_heap].
  destruct (refill_defs_ok n ks t rows Hty ci (constraint_indexes t) h2 ni1 Hh2)
    as (h3 & ni2 & E3 & Hh3 & Hg3 & Hs3 & Ho3); [apply Hs|done|].
  eexists. split; [exact E3|].
  assert (Hcols : ∀ name, is_Some (sm_find name ci) ↔ is_Some (sm_find name (column_indices t))).
  { intros name. destruct (decide (name ∈ (column_indices t).*1)) as [Hin|Hout]; [|by rewrite Ho1].
    destruct (Hg1 name Hin) as (idx & -> & _). split; [|eauto]. intros _.
    apply list_elem_of_fmap in Hin as (e & -> & He). by apply elem_sm_find. }
  assert (Hss : same_schema t (with_indices ci ni2 (with_heap h3 t))).
  { split; try done; intros name; cbn [column_indices named_indices with_indices]. by rewrite Hs3, Hs2. }
  split; [|done]. split; [done|by eapply ss_schema_ok|done|].
  split; cbn [column_indices named_indices secondary_indexes constraint_indexes with_indices with_heap].
  - intros name idx Hidx. destruct (decide (name ∈ (column_indices t).*1)) as [Hin|Hout].
    + destruct (Hg1 name Hin) as (idx' & Hf & Ha). by simplify_eq.
    + exfalso. apply Hout. assert (is_Some (sm_find name (column_indices t))) as [a Ha] by (apply Hcols; eauto).
      apply sm_find_elem in Ha. by apply (list_elem_of_fmap_2 fst) in Ha.
  - intros d idx [Hd|Hd]%elem_of_app Hidx; [|by apply Hg3].
    rewrite Ho3 in Hidx; [by apply Hg2|]. apply Hdisj. by apply (list_elem_of_fmap_2 fst).
Qed.

Definition spec_delete rows (i : nat) : list Row * res unit :=
  match rows !! i with None => (rows, Throw bad_row_index) | Some _ => (delete i rows, Ok tt) end.

Lemma Forall_delete_at {A} (P : A → Prop) (l : list A) i : Forall P l → Forall P (delete i l).
Proof.
  intros Hl. apply Forall_forall. intros x Hx. rewrite Forall_forall in Hl. apply Hl.
  eapply elem_of_sublist; [done|apply sublist_delete].
Qed.

Lemma NoDup_delete_at {A} (l : list A) i : NoDup l → NoDup (delete i l).
Proof. intros Hl. eapply sublist_NoDup; [done|apply sublist_delete]. Qed.

Lemma delete_slot_at n t rows i ptr row :
  holds_rows n t rows → rows !! i = Some row → row_directory t !! i = Some ptr →
  ∃ h, rh_delete_slot ptr (heap t) = (h, Ok tt) ∧
    holds_rows (n + 1) (with_directory (delete i (row_directory t)) (with_heap h t)) (delete i rows).
Proof.
  intros [(m & Hm & Hd & Hnd) Hok Hfit] Hi Hp. apply Forall2_same_length_lookup in Hd as [Hl Hd].
  pose proof (Hd _ _ _ Hp Hi) as Hrow. destruct (rh_delete_ok _ _ _ _ _ _ Hm Hrow) as (h & E & Hm').
  exists h. split; [done|]. split; cbn [row_directory with_directory].
  - exists (delete ptr m). split; [done|]. split; [|by apply NoDup_delete_at].
    apply Forall2_same_length_lookup. split.
    { rewrite !length_delete by eauto. by rewrite Hl. }
    intros j p r Hj Hr.
    assert (∃ j', j' ≠ i ∧ row_directory t !! j' = Some p ∧ rows !! j' = Some r) as (j' & Hne & Hj' & Hr').
    { destruct (decide (j < i)%nat).
      - rewrite list_lookup_delete_lt in Hj by done. rewrite list_lookup_delete_lt in Hr by done. exists j. split; [lia|done].
      - rewrite list_lookup_delete_ge in Hj by lia. rewrite list_lookup_delete_ge in Hr by lia. exists (S j). split; [lia|done]. }
    rewrite lookup_delete_ne; [by eapply Hd|]. intros <-. apply Hne. by eapply NoDup_lookup.
  - by apply Forall_delete_at.
  - by apply Forall_delete_at.
Qed.

Lemma delete_row_ok n ks t rows i :
  table_ok n ks t rows →
  ∃ t', delete_row i t = (t', (spec_delete rows i).2) ∧
    table_ok (n + 1) ks t' (spec_delete rows i).1 ∧ same_schema t t'.
Proof.
  intros Ht. pose proof (to_holds _ _ _ _ Ht) as Hh. unfold delete_row, spec_delete.
  destruct (runs_at _ _ _ _ _ (runs_check_row_index n t rows i (holds_dir _ _ _ Hh)) Hh) as (h & E & Hh1).
  rewrite ST_bind_eq, E. pose proof (table_ok_heap _ _ _ _ _ Ht Hh1) as Ht1.
  destruct (rows !! i) as [row|] eqn:Hi; cbn [fst snd].
  2:{ eexists. split; [reflexivity|]. split; [eapply table_ok_le; [done|lia]|done]. }
  destruct (lookup_lt_is_Some_2 (row_directory t) i) as [ptr Hptr].
  { rewrite (holds_dir _ _ _ Hh). by eapply lookup_lt_Some. }
  rewrite ST_bind_eq. cbn [gets row_directory with_heap]. rewrite Hptr, ST_bind_eq. cbn [or_ub st_lift].
  destruct (delete_slot_at n (with_heap h t) rows i ptr row Hh1 Hi Hptr) as (h2 & E2 & Hh2).
  rewrite ST_bind_eq. unfold on_heap. rewrite E2, ST_bind_eq. cbn [st_modify].
  set (t2 := with_directory _ _) in Hh2.
  change (with_directory _ (with_heap h2 (with_heap h t))) with t2.
  destruct (reindex_ok (n + 1) ks t2 (delete i rows) Hh2) as (t3 & E3 & Ht3 & Hss3).
  { eapply ss_schema_ok; [|apply Ht]. done. }
  { apply Forall_delete_at, Ht. }
  rewrite ST_bind_eq, E3. destruct (mark_dirty_ok _ _ _ _ Ht3) as (t4 & E4 & Ht4 & Hss4).
  exists t4. split; [done|]. split; [done|]. etrans; [|exact Hss4]. etrans; [|exact Hss3]. done.
Qed.
End maint.
