(* ===== verification/TableProps.v ===== *)
(** * The contract of tables

    A table behaves as the list of its row versions: the heap behind it, its
    buffer pool, the directory and the indexes are invisible to its clients.  The
    keys of its live rows stay unique, and its rows satisfy NOT NULL and CHECK. *)

From Stdlib Require Import ZArith Lia.
From S2P Require Import Prelude CppNum Values Rows Page PageStore BufferPool HeapFile IndexKey BTree Transactions Expr Evaluator Partition RowHeap Table TableSpec TableMaint.
Import Table.

(** ** Histories *)

Inductive table_op : Type :=
  | TInsert (row : Row) (xmin : Z)
  | TUpdate (i : nat) (row : Row) (xid : Z)
  | TDelete (i : nat) (xid : Z)
  | TErase (i : nat)
  | TFreeze (xid : Z)
  | TVacuum (tm : TransactionManager)
  | TGet (i : nat)
  | TVisible (tm : TransactionManager) (xid : Z) (snapshot : option TransactionSnapshot).

Definition op_ok {H Q} `{RowHeapSpec H} (ks : list (option kind)) (t : Table H Q) (op : table_op) : Prop :=
  match op with
  | TInsert row xmin => offered ks t row ∧ is_u64 xmin
  | TUpdate i row xid => offered ks t row ∧ is_u64 xid
  | TDelete i xid => is_u64 xid
  | _ => True
  end.

Section histories.
Context {H : Type} {RH : RowHeap H} {RS : RowHeapSpec H} {Q : Type}.
Implicit Types (t : Table H Q) (rows : list Row).

Definition no_rows {S} (m : ST S unit) : ST S (list Row) := m;; mret [].

Definition table_step (op : table_op) : ST (Table H Q) (list Row) :=
  match op with
  | TInsert row xmin => no_rows (insert_row_versioned row xmin)
  | TUpdate i row xid => no_rows (update_row_versioned i row xid)
  | TDelete i xid => no_rows (delete_row_versioned i xid)
  | TErase i => no_rows (delete_row i)
  | TFreeze xid => no_rows (freeze_committed_versions xid)
  | TVacuum tm => no_rows (vacuum_versions tm)
  | TGet i => row ← get_row i; mret [row]
  | TVisible tm xid snapshot => get_visible_rows tm xid snapshot
  end.

Definition no_row_of (p : list Row * res unit) : list Row * res (list Row) := (p.1, (λ _, []) <$> p.2).

(** The same operations on a list of row versions; [t] gives the schema. *)
Definition rows_step t rows (op : table_op) : list Row * res (list Row) :=
  match op with
  | TInsert row xmin => no_row_of (spec_insert t rows (set_xmax (set_xmin row xmin) 0))
  | TUpdate i row xid => no_row_of (spec_update_versioned t rows i row xid)
  | TDelete i xid => no_row_of (spec_delete_versioned rows i xid)
  | TErase i => no_row_of (spec_delete rows i)
  | TFreeze xid => (Transactions.freeze_committed_versions xid rows, Ok [])
  | TVacuum tm => (Transactions.vacuum_versions tm rows, Ok [])
  | TGet i => (rows, match rows !! i with
                     | Some row => Ok [row]
                     | None => Throw (std_out_of_range ("Row index " +:+ std_to_string (Z.of_nat i) +:+ " out of range"))
                     end)
  | TVisible tm xid snapshot => (rows, Ok (Transactions.get_visible_rows tm rows xid snapshot))
  end.

Fixpoint table_run (ops : list table_op) t : Table H Q * list (res (list Row)) :=
  match ops with
  | [] => (t, [])
  | op :: ops => let '(t', r) := table_step op t in let '(t'', rs) := table_run ops t' in (t'', r :: rs)
  end.
Fixpoint rows_run t (ops : list table_op) rows : list Row * list (res (list Row)) :=
  match ops with
  | [] => (rows, [])
  | op :: ops => let '(rows', r) := rows_step t rows op in
                 let '(rows'', rs) := rows_run t ops rows' in (rows'', r :: rs)
  end.

Lemma offered_version ks t row xmin xmax :
  offered ks t row → is_u64 xmin → is_u64 xmax → offered ks t (set_xmax (set_xmin row xmin) xmax).
Proof.
  intros [Hw|[Hty Hok]] ? ?; [by left|right]. split; [done|]. by apply rh_row_ok_version.
Qed.

Lemma no_rows_eq {S} (m : ST S unit) s s' r : m s = (s', r) → no_rows m s = (s', (λ _, []) <$> r).
Proof. intros E. unfold no_rows. rewrite ST_bind_eq, E. by destruct r. Qed.

Lemma runs_visible n t rows tm xid snapshot : length (row_directory t) = length rows →
  runs n t rows (get_visible_rows tm xid snapshot) (Ok (Transactions.get_visible_rows tm rows xid snapshot)).
Proof.
  intros Hl. set (vis := λ r : Row, isVisible tm (row_xmin r) (row_xmax r) xid snapshot).
  set (test := λ i, match rows !! i with Some r => vis r | None => false end).
  eapply runs_bind.
  { apply runs_gets. intros h0. unfold positions. cbn [row_directory with_heap]. rewrite Hl.
    apply (runs_filter n t rows _ test). intros i [_ Hi]%elem_of_seq.
    destruct (lookup_lt_is_Some_2 rows i) as [row Hrow]; [lia|]. unfold test. rewrite Hrow.
    eapply runs_bind; [by apply runs_get_row|]. apply runs_ret. }
  assert (Transactions.get_visible_rows tm rows xid snapshot =
    (λ i, default empty_row (rows !! i)) <$> filter (λ i, test i = true) (seq 0 (length rows))) as ->.
  { unfold Transactions.get_visible_rows.
    assert (∀ l k, drop k rows = l → filter (λ r, vis r = true) l =
      (λ i, default empty_row (rows !! i)) <$> filter (λ i, test i = true) (seq k (length l))) as Hgo;
      [|by apply (Hgo rows 0%nat)].
    induction l as [|r l IH]; intros k Hk; [done|].
    assert (rows !! k = Some r) as Hr by (rewrite <- (Nat.add_0_r k), <- lookup_drop, Hk; done).
    assert (drop (S k) rows = l) as Hk' by (rewrite (drop_S _ _ _ Hr) in Hk; by injection Hk).
    assert (Htk : test k = vis r) by (unfold test; by rewrite Hr).
    cbn [length seq]. destruct (vis r) eqn:Ev.
    - rewrite filter_cons_True by done. rewrite filter_cons_True by congruence.
      rewrite fmap_cons, Hr, (IH _ Hk'). done.
    - rewrite filter_cons_False by congruence. rewrite filter_cons_False by congruence. by apply IH. }
  apply runs_map. intros i [Ht _]%list_elem_of_filter. unfold test in Ht.
  destruct (rows !! i) as [row|] eqn:Hi; [|done]. by apply runs_get_row.
Qed.

Lemma table_step_ok n ks t t0 rows op :
  table_ok n ks t rows → built t → same_schema t0 t → op_ok ks t0 op → (length rows ≤ n)%nat →
  Z.of_nat n + 2 < 2 ^ 32 →
  ∃ t', table_step op t = (t', (rows_step t0 rows op).2) ∧
    table_ok (n + 2) ks t' (rows_step t0 rows op).1 ∧ same_schema t t' ∧
    (length (rows_step t0 rows op).1 ≤ n + 2)%nat.
Proof.
  intros Ht Hb Hss Hop Hlen Hn.
  assert (Hoff : ∀ row, offered ks t0 row → offered ks t row).
  { intros row. unfold offered, collect_column_types. by rewrite (ss_columns _ _ Hss). }
  pose proof (to_holds _ _ _ _ Ht) as Hh.
  destruct op as [row xmin|i row xid|i xid|i|xid|tm|i|tm xid snapshot]; cbn [table_step rows_step op_ok] in *.
  - destruct Hop as [Ho Hx]. assert (H0 : is_u64 0) by (split; done).
    destruct (table_insert_ok n ks t rows (set_xmax (set_xmin row xmin) 0) Ht) as (t' & E & Ht' & Hss');
      [by apply offered_version; auto|lia|].
    unfold spec_insert in *. rewrite (ss_admission t0 t) in * by done.
    exists t'. split; [by apply no_rows_eq|]. split; [eapply table_ok_le; [done|lia]|]. split; [done|].
    cbn [fst no_row_of]. unfold spec_append. repeat case_match; cbn [fst]; rewrite ?length_app; cbn; lia.
  - destruct Hop as [Ho Hx]. destruct (table_update_versioned_ok n ks t rows i row xid Ht) as (t' & E & Ht' & Hss');
      [auto|done|lia|].
    unfold spec_update_versioned in *. rewrite (ss_admission t0 t) in * by done.
    exists t'. split; [by apply no_rows_eq|]. split; [done|]. split; [done|].
    cbn [fst no_row_of]. unfold spec_append.
    repeat case_match; cbn [fst]; rewrite ?length_app, ?length_insert; cbn; lia.
  - destruct (table_delete_versioned_ok n ks t rows i xid Ht) as (t' & E & Ht' & Hss'); [done|lia|].
    exists t'. split; [by apply no_rows_eq|]. split; [eapply table_ok_le; [done|lia]|]. split; [done|].
    cbn [fst no_row_of]. unfold spec_delete_versioned. case_match; cbn [fst]; rewrite ?length_insert; lia.
  - destruct (delete_row_ok n ks t rows i Ht) as (t' & E & Ht' & Hss').
    exists t'. split; [by apply no_rows_eq|]. split; [eapply table_ok_le; [done|lia]|]. split; [done|].
    cbn [fst no_row_of]. unfold spec_delete. case_match eqn:Ei; cbn [fst]; [|lia].
    rewrite length_delete by eauto. lia.
  - destruct (freeze_ok n ks t rows xid Ht Hb) as (t' & E & Ht' & Hss'); [lia|].
    exists t'. split; [by apply (no_rows_eq _ _ _ (Ok tt))|]. cbn [fst]. split; [eapply table_ok_le; [done|lia]|].
    split; [done|]. unfold Transactions.freeze_committed_versions. case_match; [lia|].
    destruct (kept_rows_ok n ks _ rows (freeze_row xid) Ht (freeze_reversioned xid)) as (_ & _ & _ & ?). lia.
  - destruct (vacuum_ok n ks t rows tm Ht Hb) as (t' & E & Ht' & Hss'); [lia|].
    exists t'. split; [by apply (no_rows_eq _ _ _ (Ok tt))|]. cbn [fst]. split; [eapply table_ok_le; [done|lia]|].
    split; [done|]. unfold Transactions.vacuum_versions, Transactions.vacuum_versions_to.
    destruct (kept_rows_ok n ks _ rows (vacuum_row tm (getVacuumHorizon tm)) Ht (vacuum_reversioned tm _))
      as (_ & _ & _ & ?). lia.
  - assert (runs n t rows (row ← get_row i; mret [row]) (match rows !! i with
      | Some row => Ok [row]
      | None => Throw (std_out_of_range ("Row index " +:+ std_to_string (Z.of_nat i) +:+ " out of range")) end)) as Hr.
    { destruct (rows !! i) as [row|] eqn:Hi.
      - eapply runs_bind; [by apply runs_get_row|]. apply runs_ret.
      - apply runs_bind_throw. by apply runs_get_row_bad. }
    destruct (runs_at _ _ _ _ _ Hr Hh) as (h & E & Hh'). eexists. split; [exact E|]. cbn [fst].
    split; [eapply table_ok_le; [by apply table_ok_heap|lia]|]. split; [done|lia].
  - destruct (runs_at _ _ _ _ _ (runs_visible n t rows tm xid snapshot (holds_dir _ _ _ Hh)) Hh) as (h & E & Hh').
    eexists. split; [exact E|]. cbn [fst].
    split; [eapply table_ok_le; [by apply table_ok_heap|lia]|]. split; [done|lia].
Qed.

Lemma table_run_ok n ks t t0 rows ops :
  table_ok n ks t rows → built t → same_schema t0 t → Forall (op_ok ks t0) ops → (length rows ≤ n)%nat →
  Z.of_nat n + 2 * Z.of_nat (length ops) < 2 ^ 32 →
  (table_run ops t).2 = (rows_run t0 ops rows).2 ∧
  table_ok (n + 2 * length ops) ks (table_run ops t).1 (rows_run t0 ops rows).1 ∧
  built (table_run ops t).1.
Proof.
  revert n t rows. induction ops as [|op ops IH]; intros n t rows Ht Hb Hss Hops Hlen Hn.
  { cbn. rewrite Nat.add_0_r. done. }
  apply Forall_cons_iff in Hops as [Hop Hops]. cbn [length] in Hn.
  destruct (table_step_ok n ks t t0 rows op Ht Hb Hss Hop Hlen) as (t' & E & Ht' & Hss' & Hlen'); [lia|].
  cbn [table_run rows_run]. rewrite E. destruct (rows_step t0 rows op) as [rows' r]. cbn [fst snd] in *.
  destruct (IH (n + 2)%nat t' rows') as (IH1 & IH2 & IH3); try done; [by eapply ss_built|by etrans|lia|].
  destruct (table_run ops t') as [t'' rs], (rows_run t0 ops rows') as [rows'' rs']. cbn [fst snd] in *.
  split; [by rewrite IH1|]. split; [|done]. cbn [length].
  replace (n + 2 * S (length ops))%nat with (n + 2 + 2 * length ops)%nat by lia. done.
Qed.
End histories.

(** ** Keys and types of the rows *)

Lemma length_omap_le {A B} (f : A → option B) (l : list A) : (length (omap f l) ≤ length l)%nat.
Proof. induction l as [|x l IH]; [done|]. cbn. destruct (f x); cbn; lia. Qed.

Section invariants.
Context {H : Type} {RH : RowHeap H} {RS : RowHeapSpec H} {Q : Type}.
Context (ks : list (option kind)) (t : Table H Q) (Hs : schema_ok ks t).
Implicit Types rows : list Row.

(** The keys of the table: PRIMARY KEY, UNIQUE constraints and UNIQUE columns. *)
Definition is_key (cols : list string) : Prop :=
  pk_columns t = Some cols ∨ (∃ uq, uq ∈ unique_constraints t ∧ uq_columns uq = cols) ∨
  ∃ c, c ∈ columns t ∧ flagged t c = true ∧ cols = [col_name c].

(** The key of a row no transaction has deleted, unless it has a NULL. *)
Definition live_key (cols : list string) (r : Row) : option IndexKey :=
  if (row_xmax r =? 0) && negb (key_has_null (row_key t cols r)) then Some (row_key t cols r) else None.
Definition live_keys (cols : list string) (rows : list Row) : list IndexKey := omap (live_key cols) rows.

Definition unique_keys rows : Prop := ∀ cols, is_key cols → NoDup (live_keys cols rows).
Definition well_typed rows : Prop := Forall (λ r, typed_values ks r ∧ nulls_ok t r = true) rows.

Lemma key_indexable cols : is_key cols → indexable t ks cols.
Proof.
  intros [Hpk|[(uq & Huq & <-)|(c & Hc & Hf & ->)]].
  - by apply (so_pk _ _ Hs).
  - by apply (so_uq _ _ Hs).
  - by apply (so_flag _ _ Hs).
Qed.

Lemma row_key_refl cols r : typed_values ks r → indexable t ks cols → key_has_null (row_key t cols r) = false →
  key_eq (row_key t cols r) (row_key t cols r) = true.
Proof.
  intros Hty [_ [kk Hk]] Hn. destruct (build_index_key_ok t ks cols kk r Hty Hk) as (key & E & _ & Hkey).
  unfold row_key in *. rewrite E in *. apply (kd_eq_refl (typed_key kk) _). by apply Hkey.
Qed.

(** A key that meets no live row is new. *)
Lemma no_conflict_fresh rows cols exclude key :
  Forall (typed_values ks) rows → indexable t ks cols → live_conflict t rows cols exclude key = false →
  ∀ i r, rows !! i = Some r → Z.of_nat i ≠ exclude → live_key cols r ≠ Some key.
Proof.
  intros Hty Hc Hconf i r Hi Hne Hk. unfold live_key in Hk.
  destruct (row_xmax r =? 0) eqn:Hx; [|done]. destruct (key_has_null (row_key t cols r)) eqn:Hn; [done|].
  injection Hk as <-. apply Z.eqb_eq in Hx.
  assert (live_conflict t rows cols exclude (row_key t cols r) = true) as E; [|congruence].
  apply live_conflict_iff. exists i, r. split; [done|]. split; [done|]. split; [done|].
  apply row_key_refl; [|done|done]. rewrite Forall_forall in Hty. by eapply Hty, list_elem_of_lookup_2.
Qed.

(** What a row that is let in satisfies. *)
Lemma admitted rows row exclude refused :
  admission t rows row exclude refused = Ok tt →
  nulls_ok t row = true ∧
  ∀ cols, is_key cols → key_has_null (row_key t cols row) = true ∨
    live_conflict t rows cols exclude (row_key t cols row) = false.
Proof.
  unfold admission. destruct (negb _); [done|]. destruct (first_violated t row (checks t)) as [[]| |]; [done| |done|done].
  destruct (nulls_ok t row); [|done]. destruct (unique_ok t rows row exclude) eqn:Hu; [|done].
  destruct (pk_ok t rows row exclude) eqn:Hp; [|done]. intros _. split; [done|].
  unfold unique_ok in Hu. apply andb_true_iff in Hu as [Hf Hu].
  rewrite forallb_forall in Hf. rewrite forallb_forall in Hu.
  assert (Hfree : ∀ cols, key_free t rows row exclude cols = true →
    key_has_null (row_key t cols row) = true ∨ live_conflict t rows cols exclude (row_key t cols row) = false).
  { intros cols. unfold key_free. intros [?|?%negb_true_iff]%orb_true_iff; auto. }
  intros cols [Hpk|[(uq & Huq & <-)|(c & Hc & Hfl & ->)]].
  - unfold pk_ok in Hp. rewrite Hpk in Hp. bool_prop. by right.
  - apply Hfree, Hu. by apply list_elem_of_In.
  - apply Hfree. specialize (Hf c). rewrite Hfl in Hf. apply Hf. by apply list_elem_of_In.
Qed.

Lemma live_key_version cols r x : live_key cols (set_xmin r x) = live_key cols r.
Proof. unfold live_key. rewrite (row_key_values t cols r (set_xmin r x)) by done. done. Qed.

Lemma live_key_new cols row xmin : live_key cols (set_xmax (set_xmin row xmin) 0) =
  if key_has_null (row_key t cols row) then None else Some (row_key t cols row).
Proof.
  unfold live_key. rewrite (row_key_values t cols row) by done. cbn [row_xmax set_xmax].
  change (0 =? 0) with true. by destruct (key_has_null _).
Qed.

Lemma live_key_dead cols r x : x ≠ 0 → live_key cols (set_xmax r x) = None.
Proof. intros Hx%Z.eqb_neq. unfold live_key. cbn [row_xmax set_xmax]. by rewrite Hx. Qed.

(** Rows are appended with a key that is new among the rows kept. *)
Lemma unique_append rows kept row xid exclude refused :
  Forall (typed_values ks) rows → admission t rows row exclude refused = Ok tt → unique_keys kept →
  (∀ i r, kept !! i = Some r → row_xmax r = 0 → Z.of_nat i ≠ exclude ∧ rows !! i = Some r) →
  unique_keys (kept ++ [set_xmax (set_xmin row xid) 0]).
Proof.
  intros Hty Ha Hu Hkept cols Hc. destruct (admitted _ _ _ _ Ha) as [_ Hfree].
  unfold live_keys. rewrite omap_app. cbn [omap list_omap]. rewrite live_key_new.
  destruct (key_has_null (row_key t cols row)) eqn:Hn; [rewrite app_nil_r; by apply Hu|].
  destruct (Hfree cols Hc) as [?|Hconf]; [congruence|].
  apply NoDup_app. split; [by apply Hu|]. split; [|apply NoDup_singleton].
  intros key (r & Hr & Hk)%list_elem_of_omap ->%list_elem_of_singleton.
  apply list_elem_of_lookup in Hr as [i Hi].
  assert (row_xmax r = 0) as Hx.
  { unfold live_key in Hk. destruct (row_xmax r =? 0) eqn:E; [lia|done]. }
  destruct (Hkept i r Hi Hx) as [Hne Hi'].
  exact (no_conflict_fresh rows cols exclude _ Hty (key_indexable cols Hc) Hconf i r Hi' Hne Hk).
Qed.

Lemma unique_sublist rows rows' :
  (∀ cols, live_keys cols rows' `sublist_of` live_keys cols rows) → unique_keys rows → unique_keys rows'.
Proof. intros Hsub Hu cols Hc. eapply sublist_NoDup; [by apply Hu|apply Hsub]. Qed.

Lemma live_keys_mark cols rows i old x : rows !! i = Some old → x ≠ 0 →
  live_keys cols (<[i := set_xmax old x]> rows) `sublist_of` live_keys cols rows.
Proof.
  unfold live_keys. revert i. induction rows as [|r rows IH]; intros i Hi Hx; [done|].
  destruct i as [|i]; cbn in Hi.
  - simplify_eq. cbn [base.insert list_insert omap list_omap]. rewrite live_key_dead by done.
    destruct (live_key cols old); [by apply sublist_cons|done].
  - cbn [base.insert list_insert omap list_omap]. destruct (live_key cols r); [apply sublist_skip|]; by apply IH.
Qed.

Lemma live_keys_erase cols rows i : live_keys cols (delete i rows) `sublist_of` live_keys cols rows.
Proof.
  unfold live_keys. revert i. induction rows as [|r rows IH]; intros [|i]; cbn [delete list_delete omap list_omap]; try done.
  - destruct (live_key cols r); [by apply sublist_cons|done].
  - destruct (live_key cols r); [apply sublist_skip|]; apply IH.
Qed.

Lemma live_keys_freeze cols rows xid :
  live_keys cols (Transactions.freeze_committed_versions xid rows) `sublist_of` live_keys cols rows.
Proof.
  unfold Transactions.freeze_committed_versions, live_keys. destruct (xid =? 0); [done|].
  induction rows as [|r rows IH]; [done|]. cbn [omap list_omap]. unfold freeze_row at 1.
  destruct (row_xmax r =? xid); [destruct (live_key cols r); [by apply sublist_cons|done]|].
  destruct (row_xmin r =? xid); cbn [omap list_omap]; rewrite ?live_key_version;
    (destruct (live_key cols r); [by apply sublist_skip|done]).
Qed.

(** Statements of transactions: they have an id, and VACUUM is not among them. *)
Definition in_transaction (op : table_op) : Prop :=
  match op with
  | TUpdate _ _ xid | TDelete _ xid => xid ≠ 0
  | TVacuum _ => False
  | _ => True
  end.

Lemma offered_typed rows row exclude refused :
  offered ks t row → admission t rows row exclude refused = Ok tt → typed_values ks row.
Proof. intros [Hw|[? _]] Ha; [|done]. by apply admission_width in Ha. Qed.

Lemma typed_of rows : well_typed rows → Forall (typed_values ks) rows.
Proof. intros Hw. eapply Forall_impl; [done|]. by intros r [? _]. Qed.

Lemma admission_version rows row exclude refused xmin xmax :
  admission t rows (set_xmax (set_xmin row xmin) xmax) exclude refused = Ok tt →
  ∀ cols, is_key cols → key_has_null (row_key t cols row) = true ∨
    live_conflict t rows cols exclude (row_key t cols row) = false.
Proof.
  intros Ha cols Hc. destruct (admitted _ _ _ _ Ha) as [_ Hf]. specialize (Hf cols Hc).
  by rewrite (row_key_values t cols row (set_xmax (set_xmin row xmin) xmax)) in Hf by done.
Qed.

(** What depends on the values of a row only and holds of every row that is let in
    holds of all rows. *)
Lemma rows_step_keeps (P : Row → Prop) rows op :
  (∀ r r', row_values r' = row_values r → P r → P r') →
  (∀ rows row exclude refused, offered ks t row → admission t rows row exclude refused = Ok tt → P row) →
  op_ok ks t op → Forall P rows → Forall P (rows_step t rows op).1.
Proof.
  intros Hval Hadm Hop HP. pose proof HP as HP'. rewrite Forall_forall in HP'.
  assert (Hmark : ∀ i old x, rows !! i = Some old → Forall P (<[i := set_xmax old x]> rows)).
  { intros i old x Hi. apply Forall_insert; [done|]. apply (Hval old); [done|]. by eapply HP', list_elem_of_lookup_2. }
  assert (Hsame : ∀ rows', (∀ r', r' ∈ rows' → ∃ r, r ∈ rows ∧ row_values r' = row_values r) → Forall P rows').
  { intros rows' H'. apply Forall_forall. intros r' Hr'. destruct (H' r' Hr') as (r & Hr & E). apply (Hval r); [done|]. by apply HP'. }
  destruct op as [row xmin|i row xid|i xid|i|xid|tm|i|tm xid snapshot]; cbn [rows_step op_ok] in *.
  - unfold spec_insert. destruct (admission _ _ _ _ _) as [[]|e|] eqn:Ha; [|done|done].
    unfold spec_append. destruct (rh_fits _); [|done]. destruct Hop as [Ho Hx].
    apply Forall_app. split; [done|]. apply Forall_singleton. eapply Hadm; [|done].
    apply offered_version; [done|done|split; done].
  - unfold spec_update_versioned. destruct (rows !! i) as [old|] eqn:Hi; [|done].
    destruct (admission _ _ _ _ _) as [[]|e|] eqn:Ha; [|done|done]. destruct Hop as [Ho Hx].
    unfold spec_append. destruct (rh_fits _); [|by apply Hmark].
    apply Forall_app. split; [by apply Hmark|]. apply Forall_singleton. apply (Hval row); [done|]. by eapply Hadm.
  - unfold spec_delete_versioned. destruct (rows !! i) as [old|] eqn:Hi; [|done]. by apply Hmark.
  - unfold spec_delete. destruct (rows !! i); [|done]. by apply Forall_delete_at.
  - apply Hsame. intros r' Hr'. cbn [fst] in Hr'.
    unfold Transactions.freeze_committed_versions in Hr'. destruct (xid =? 0); [eauto|].
    apply list_elem_of_omap in Hr' as (r & Hr & E). exists r. split; [done|]. unfold freeze_row in E.
    destruct (row_xmax r =? xid); [done|]. destruct (row_xmin r =? xid); by injection E as <-.
  - apply Hsame. intros r' Hr'. cbn [fst] in Hr'.
    apply list_elem_of_omap in Hr' as (r & Hr & E). exists r. split; [done|]. unfold vacuum_row in E.
    destruct (isAborted tm (row_xmin r)); [done|].
    destruct (_ && isAborted tm (row_xmax r)); (case_match; [done|]); by injection E as <-.
  - done.
  - done.
Qed.

Lemma rows_step_typed rows op : op_ok ks t op → well_typed rows → well_typed (rows_step t rows op).1.
Proof.
  apply rows_step_keeps.
  - intros r r' E. unfold typed_values, nulls_ok. by rewrite E.
  - intros rows0 row exclude refused Ho Ha. split; [by eapply offered_typed|].
    by destruct (admitted _ _ _ _ Ha).
Qed.

(** The constraints a row satisfies on its own: one value per column, no NULL in a NOT
    NULL column or in the primary key, and values that passed every CHECK. *)
Record constraints_hold (r : Row) : Prop := {
  ch_width : length (row_values r) = length (columns t);
  ch_nulls i c v : columns t !! i = Some c → row_values r !! i = Some v → col_nullable c = false → v ≠ VNull;
  ch_key cs : pk_columns t = Some cs → key_has_null (row_key t cs r) = false;
  ch_checks : ∃ r0, row_values r0 = row_values r ∧ ∀ ck p, ck ∈ checks t → ck_predicate ck = Some p →
    (evaluate_check_condition 0 (check_evaluator t) r0 (Some p) (mkSt [] "" tt)).2 = Ok true
}.

Lemma none_violated row cks : first_violated t row cks = Ok None → ∀ ck p, ck ∈ cks → ck_predicate ck = Some p →
  (evaluate_check_condition 0 (check_evaluator t) row (Some p) (mkSt [] "" tt)).2 = Ok true.
Proof.
  induction cks as [|ck0 cks IH]; intros Hf ck p Hck Hp; [by apply not_elem_of_nil in Hck|]. cbn [first_violated] in Hf.
  apply elem_of_cons in Hck as [->|Hck].
  - rewrite Hp in Hf. destruct (evaluate_check_condition _ _ _ _ _).2 as [[]| |]; try done.
  - apply (IH ltac:(destruct (ck_predicate ck0); [|done];
      destruct (evaluate_check_condition _ _ _ _ _).2 as [[]| |]; done) ck p Hck Hp).
Qed.

Lemma admitted_constraints rows row exclude refused :
  admission t rows row exclude refused = Ok tt → constraints_hold row.
Proof.
  intros Ha. pose proof (admission_width _ _ _ _ _ Ha) as Hw. unfold admission in Ha. destruct (negb _); [done|].
  destruct (first_violated t row (checks t)) as [[]| |] eqn:Hf; try done.
  destruct (nulls_ok t row) eqn:Hn; [|done]. destruct (unique_ok _ _ _ _); [|done].
  destruct (pk_ok t rows row exclude) eqn:Hp; [|done]. split; [done| | |].
  - intros i c v Hc Hv Hnn ->. unfold nulls_ok in Hn. rewrite forallb_forall in Hn.
    specialize (Hn (c, VNull)). cbn in Hn. rewrite Hnn in Hn. discriminate Hn.
    apply list_elem_of_In, (list_elem_of_lookup_2 _ i). by rewrite lookup_zip_with, Hc, Hv.
  - intros cs Hcs. unfold pk_ok in Hp. rewrite Hcs in Hp. by bool_prop.
  - exists row. split; [done|]. by apply none_violated.
Qed.

Lemma constraints_hold_values r r' : row_values r' = row_values r → constraints_hold r → constraints_hold r'.
Proof.
  intros E [H1 H2 H3 (r0 & E0 & H4)]. split.
  - by rewrite E.
  - intros i c v Hc. rewrite E. by apply H2.
  - intros cs Hcs. rewrite (row_key_values t cs r r') by done. by apply H3.
  - exists r0. split; [congruence|done].
Qed.

Lemma rows_run_constraints rows ops : Forall (op_ok ks t) ops → Forall constraints_hold rows →
  Forall constraints_hold (rows_run t ops rows).1.
Proof.
  intros Hops. revert rows. induction Hops as [|op ops Hop _ IH]; intros rows Hw; [done|]. cbn [rows_run].
  assert (Forall constraints_hold (rows_step t rows op).1) as Hw'.
  { apply rows_step_keeps; [apply constraints_hold_values| |done|done]. intros * _. apply admitted_constraints. }
  destruct (rows_step t rows op) as [rows' r]. specialize (IH rows' Hw'). by destruct (rows_run t ops rows').
Qed.

Lemma rows_step_length rows op : (length (rows_step t rows op).1 ≤ length rows + 1)%nat.
Proof.
  destruct op as [row xmin|i row xid|i xid|i|xid|tm|i|tm xid snapshot]; cbn [rows_step];
    unfold no_row_of, spec_insert, spec_update_versioned, spec_delete_versioned, spec_delete, spec_append,
      Transactions.freeze_committed_versions, Transactions.vacuum_versions, Transactions.vacuum_versions_to; cbn [fst].
  - repeat case_match; cbn [fst]; rewrite ?length_app; cbn; lia.
  - repeat case_match; cbn [fst]; rewrite ?length_app, ?length_insert; cbn; lia.
  - case_match; cbn [fst]; rewrite ?length_insert; lia.
  - case_match eqn:E; cbn [fst]; [rewrite length_delete by eauto|]; lia.
  - case_match; [lia|]. rewrite length_omap_le. lia.
  - rewrite length_omap_le. lia.
  - lia.
  - lia.
Qed.

Lemma rows_step_unique rows op :
  op_ok ks t op → in_transaction op → Forall (typed_values ks) rows →
  Z.of_nat (length rows) < 2 ^ 64 - 1 → unique_keys rows → unique_keys (rows_step t rows op).1.
Proof.
  intros Hop Htr Hty Hlen Hu.
  destruct op as [row xmin|i row xid|i xid|i|xid|tm|i|tm xid snapshot]; cbn [rows_step op_ok in_transaction] in *.
  - unfold spec_insert. destruct (admission _ _ _ _ _) as [[]|e|] eqn:Ha; [|done|done].
    unfold spec_append. destruct (rh_fits _); [|done].
    replace (set_xmax (set_xmin row xmin) 0) with (set_xmax (set_xmin (set_xmax (set_xmin row xmin) 0) xmin) 0) at 1
      by done.
    eapply (unique_append rows rows _ xmin no_row row_refused); try done.
    intros j r Hj _. split; [|done]. apply lookup_lt_Some in Hj. unfold no_row. lia.
  - unfold spec_update_versioned. destruct (rows !! i) as [old|] eqn:Hi; [|done].
    destruct (admission _ _ _ _ _) as [[]|e|] eqn:Ha; [|done|done].
    assert (Hm : unique_keys (<[i := set_xmax old xid]> rows)).
    { eapply unique_sublist; [|done]. intros cols. by apply live_keys_mark. }
    unfold spec_append. destruct (rh_fits _); [|done].
    eapply (unique_append rows _ row xid (Z.of_nat i) update_refused); try done.
    intros j r Hj Hx. apply list_lookup_insert_Some in Hj as [(<- & <- & _)|[Hne Hj]]; [done|].
    split; [lia|done].
  - unfold spec_delete_versioned. destruct (rows !! i) as [old|] eqn:Hi; [|done].
    eapply unique_sublist; [|done]. intros cols. by apply live_keys_mark.
  - unfold spec_delete. destruct (rows !! i); [|done].
    eapply unique_sublist; [|done]. intros cols. apply live_keys_erase.
  - cbn [fst]. eapply unique_sublist; [|done]. intros cols. apply live_keys_freeze.
  - done.
  - done.
  - done.
Qed.
End invariants.

(** ** A table of users *)

Definition users_columns : list Column :=
  [mkColumn "id" INT false true false None; mkColumn "name" STRING true false false None].
Definition users_kinds : list (option kind) := [Some KInt; Some KString].
Definition users : Table (World (list page) * HeapFile) unit :=
  mkTable "users" users_columns (fresh_pool 8 7 ([] : list page), mkHeap 7 0 [INT; STRING] 0 false) []
    [("id"%string, None)] [("__pk"%string, None); ("by_name"%string, None)]
    [("by_name"%string, ["name"%string])] [] [] ["id"%string] []
    [("__pk"%string, ["id"%string])] None false "2024-01-01".

Lemma users_ok : table_ok 0 users_kinds users [].
Proof.
  split; [|split|done|split].
  - split; [|done..]. exists ∅. split; [|split; constructor].
    exact (fresh_heap_holds 8 7 [INT; STRING] ([] : list page) ltac:(lia) ltac:(by split) eq_refl).
  - apply (bool_decide_unpack _). vm_compute. exact I.
  - done.
  - intros name [idx Hi]. apply sm_find_elem in Hi. apply list_elem_of_singleton in Hi. injection Hi as -> _.
    split; [done|]. by eexists.
  - intros d ->%list_elem_of_singleton. split; [done|]. by eexists.
  - intros d ->%list_elem_of_singleton. split; [done|]. by eexists.
  - apply (bool_decide_unpack _). vm_compute. exact I.
  - intros name [idx Hi]. apply sm_find_elem in Hi. apply (list_elem_of_fmap_2 fst) in Hi.
    cbn in Hi |- *. set_solver.
  - intros cs [= <-]. split; [split; [done|by eexists]|]. split; [|split].
    + intros cs Hin%list_elem_of_singleton. by injection Hin.
    + apply (bool_decide_unpack _). vm_compute. exact I.
    + left. by eexists.
  - intros uq Huq. destruct (not_elem_of_nil uq Huq).
  - intros c Hc Hf. exfalso. cbn in Hc. apply elem_of_cons in Hc as [->|Hc%list_elem_of_singleton]; [done|].
    by subst.
  - intros name idx Hi. apply sm_find_elem, list_elem_of_singleton in Hi. by injection Hi as -> ->.
  - intros d idx Hd Hi. apply sm_find_elem in Hi. cbn in Hi.
    rewrite !elem_of_cons, elem_of_nil in Hi. destruct_or?; by simplify_eq.
Qed.

Lemma users_built : built users.
Proof.
  split.
  - intros name. cbn [column_indices users sm_find]. case_bool_decide as E.
    + split; [|eauto]. intros _. exists (mkColumn "id" INT false true false None). split; [left|done].
    + split; [by intros [? ?]|]. intros (c & Hc & Hk & <-). cbn in Hc.
      apply elem_of_cons in Hc as [->|Hc%list_elem_of_singleton]; [done|by subst].
  - intros name. cbn [named_indices users sm_find]. cbn [secondary_indexes constraint_indexes users fmap list_fmap app fst].
    repeat case_bool_decide; subst.
    + split; [set_solver|eauto].
    + split; [set_solver|eauto].
    + split; [by intros [? ?]|]. set_solver.
  - done.
  - done.
  - intros uq Huq. destruct (not_elem_of_nil uq Huq).
Qed.

Lemma users_row a b : is_i64 a → Z.of_nat (String.length b) < 60000 → offered users_kinds users (HeapFile.example_row a b).
Proof.
  intros Ha Hb. right. split; [|by apply HeapFile.example_row_fits].
  repeat constructor; cbn; right; done.
Qed.

Definition users_history : list table_op :=
  [TInsert (HeapFile.example_row 1 "ada") 5; TInsert (HeapFile.example_row 2 "bob") 5; TInsert (HeapFile.example_row 1 "eve") 6;
   TUpdate 1 (HeapFile.example_row 2 "bea") 6; TDelete 0 7; TInsert (HeapFile.example_row 1 "eve") 7; TFreeze 6; TGet 2].

Lemma small_u64 z : 0 ≤ z < 100 → is_u64 z.
Proof. unfold is_u. lia. Qed.
Lemma users_small_row a b : 0 ≤ a < 100 → (String.length b < 100)%nat →
  offered users_kinds users (HeapFile.example_row a b).
Proof. intros Ha Hb. apply users_row; [unfold is_s|]; lia. Qed.
Ltac small_row := apply users_small_row; [lia|cbn [String.length]; lia].

Lemma users_history_ok : Forall (op_ok users_kinds users) users_history.
Proof.
  unfold users_history.
  repeat (apply Forall_cons_2; [cbn [op_ok]; first [exact I | apply small_u64; lia
    | split; [small_row|apply small_u64; lia]]|]). apply Forall_nil_2.
Qed.

(** ** Properties *)

(** C7. A table is the list of its row versions: for every history of inserts, versioned
    updates and deletes, erasures, freezes, vacuums, reads by position and reads of the
    visible rows, over any row store, the replies (errors included) are those of the
    operations on the list, in which constraints are checked by scanning and there are
    neither pages nor indexes. After the history heap, directory and every index again agree
    with the list. The history has no index lookups (see [composite_index_loses_rows] for
    one that misses rows). Rows offered with the width of the table have the types of its
    columns, and in columns with a key or an index they hold NULLs and values of one kind:
    INT, STRING, BOOL, or FLOATs pairwise 1e-9 or more apart; pages stay below [2^32]. *)
Theorem table_is_its_rows {H Q} `{RowHeapSpec H} n ks (t : Table H Q) rows ops :
  table_ok n ks t rows → built t → Forall (op_ok ks t) ops → (length rows ≤ n)%nat →
  Z.of_nat n + 2 * Z.of_nat (length ops) < 2 ^ 32 →
  (table_run ops t).2 = (rows_run t ops rows).2 ∧
  table_ok (n + 2 * length ops) ks (table_run ops t).1 (rows_run t ops rows).1.
Proof.
  intros Ht Hb Hops Hlen Hn. destruct (table_run_ok n ks t t rows ops Ht Hb) as (E & Hok & _); done.
Qed.

Lemma table_is_its_rows_witness :
  (table_run users_history users).2 = (rows_run users users_history []).2 ∧
  (rows_run users users_history []).2 =
    [Ok []; Ok []; Throw row_refused; Ok []; Ok []; Ok []; Ok [];
     Ok [mkRow [VInt 1; VString "eve"] 7 0]].
Proof.
  split; [|vm_compute; reflexivity].
  apply (table_is_its_rows 0 users_kinds users []); [apply users_ok|apply users_built|apply users_history_ok|done|].
  vm_compute. reflexivity.
Defined.

(** C8. Keys stay unique under the statements of transactions: after a history of inserts,
    updates and deletes under a transaction id, erasures, freezes and reads on a table whose
    live rows had distinct keys, no two live rows of the table agree on a PRIMARY KEY, a
    UNIQUE constraint or a UNIQUE column without a NULL. VACUUM and updates and deletes
    outside a transaction are left out, because they break it ([vacuum_duplicates_key],
    [update_admits_duplicate_keys]); the rows are typed as in [table_is_its_rows]. *)
Theorem table_keys_stay_unique {H Q} `{RowHeapSpec H} n ks (t : Table H Q) rows ops :
  table_ok n ks t rows → built t → Forall (op_ok ks t) ops → Forall in_transaction ops →
  (length rows ≤ n)%nat → Z.of_nat n + 2 * Z.of_nat (length ops) < 2 ^ 32 →
  well_typed ks t rows → unique_keys t rows →
  ∃ rows', (get_all_rows (table_run ops t).1).2 = Ok rows' ∧ unique_keys t rows'.
Proof.
  intros Ht Hb Hops Htr Hlen Hn Hw Hu.
  destruct (table_run_ok n ks t t rows ops Ht Hb) as (_ & Hok & _); [done..|].
  exists (rows_run t ops rows).1. split.
  { destruct Hok as [Hh _ _ _].
    destruct (runs_at _ _ _ _ _ (runs_get_all_rows _ _ _ (holds_dir _ _ _ Hh)) Hh) as (h & E & _). by rewrite E. }
  assert (Hs : schema_ok ks t) by apply Ht. clear Ht Hok Hb.
  revert n rows Hlen Hn Hw Hu. induction ops as [|op ops IH]; intros n rows Hlen Hn Hw Hu; [done|].
  apply Forall_cons_iff in Hops as [Hop Hops]. apply Forall_cons_iff in Htr as [Ht1 Htr].
  cbn [rows_run length] in *.
  pose proof (rows_step_typed ks t rows op Hop Hw) as Hw'.
  pose proof (rows_step_unique ks t Hs rows op Hop Ht1 (typed_of ks t rows Hw)) as Hu'.
  assert (Hl' : (length (rows_step t rows op).1 ≤ n + 2)%nat) by (etrans; [apply rows_step_length|lia]).
  destruct (rows_step t rows op) as [rows' r]. cbn [fst] in *.
  specialize (IH Hops Htr (n + 2)%nat rows' Hl' ltac:(lia) Hw' (Hu' ltac:(lia) Hu)).
  by destruct (rows_run t ops rows').
Qed.

Lemma users_well_typed : well_typed users_kinds users [].
Proof. apply Forall_nil_2. Qed.
Lemma users_unique : unique_keys users [].
Proof. intros cols _. apply NoDup_nil_2. Qed.

Lemma table_keys_stay_unique_witness :
  ∃ rows', (get_all_rows (table_run users_history users).1).2 = Ok rows' ∧ unique_keys users rows'.
Proof.
  apply (table_keys_stay_unique 0 users_kinds users []);
    [apply users_ok|apply users_built|apply users_history_ok| |done|vm_compute; reflexivity
    |apply users_well_typed|apply users_unique].
  unfold users_history. repeat (apply Forall_cons_2; [cbn [in_transaction]; first [exact I | lia]|]). apply Forall_nil_2.
Defined.

(** C24. Constraints are enforced: after any history of inserts, versioned updates and
    deletes, erasures, freezes, vacuums and reads, every stored row has one value per column,
    no NULL in a NOT NULL column or in the primary key, and values on which each CHECK of the
    table was evaluated and not found FALSE, if that was so of the rows at the start.  The
    rows offered are typed as in [table_is_its_rows], or of another width, and are then
    refused. *)
Theorem stored_rows_satisfy_constraints {H Q} `{RowHeapSpec H} n ks (t : Table H Q) rows ops :
  table_ok n ks t rows → built t → Forall (op_ok ks t) ops → (length rows ≤ n)%nat →
  Z.of_nat n + 2 * Z.of_nat (length ops) < 2 ^ 32 → Forall (constraints_hold t) rows →
  ∃ rows', (get_all_rows (table_run ops t).1).2 = Ok rows' ∧ Forall (constraints_hold t) rows'.
Proof.
  intros Ht Hb Hops Hlen Hn Hw.
  destruct (table_run_ok n ks t t rows ops Ht Hb) as (_ & Hok & _); [done..|].
  exists (rows_run t ops rows).1. split; [|by apply (rows_run_constraints ks)].
  destruct Hok as [Hh _ _ _].
  destruct (runs_at _ _ _ _ _ (runs_get_all_rows _ _ _ (holds_dir _ _ _ Hh)) Hh) as (h & E & _). by rewrite E.
Qed.

Lemma stored_rows_satisfy_constraints_witness :
  ∃ rows', (get_all_rows (table_run users_history users).1).2 = Ok rows' ∧ Forall (constraints_hold users) rows'.
Proof.
  apply (stored_rows_satisfy_constraints 0 users_kinds users []);
    [apply users_ok|apply users_built|apply users_history_ok|done|vm_compute; reflexivity|apply Forall_nil_2].
Defined.

(** ** Where tables do not keep their promises *)

Abbreviation UT := (ST (Table (World (list page) * HeapFile) unit)).

Definition blank : Table (World (list page) * HeapFile) unit :=
  new_Table "t" (fresh_pool 8 7 ([] : list page), mkHeap 7 0 [] 0 false) "2024-01-01".
Definition user (id : Z) (name : string) : Row := mkRow [VInt id; VString name] 0 0.

(** Renaming a column leaves it under its old name in the primary key and
    its index: afterwards every INSERT throws. *)
Theorem rename_breaks_primary_key :
  (insert_row (user 1 "ada") users).2 = Ok tt ∧
  ((rename_column "id" "uid";; insert_row (user 1 "ada")) users).2 = Throw (not_found "id").
Proof. vm_compute. split; reflexivity. Qed.

(** A deleted row does not hold its key while the deletion is undecided: a
    second row takes the key, the deleting transaction aborts, and VACUUM makes
    both live. *)
Theorem vacuum_duplicates_key :
  let tm := mkTM 7 {[5 := Aborted; 6 := Committed]} ∅ ∅ in
  (get_all_rows (table_run [TInsert (user 1 "ada") 0; TDelete 0 5; TInsert (user 1 "eve") 6; TVacuum tm] users).1).2
  = Ok [mkRow [VInt 1; VString "ada"] 0 0; mkRow [VInt 1; VString "eve"] 6 0].
Proof. vm_compute. reflexivity. Qed.

(** A composite index skips rows with a NULL in any of its columns, but is
    consulted for its first column alone: the row is not found. *)
Theorem composite_index_loses_rows :
  let rows : UT unit :=
    add_column (mkColumn "a" INT true false false None);;
    add_column (mkColumn "b" INT true false false None);;
    create_secondary_index "ab" ["a"%string; "b"%string];;
    insert_row (mkRow [VInt 1; VNull] 0 0) in
  ((rows;; find_rows_by_value "a" (VInt 1)) blank).2 = Ok [] ∧
  ((rows;; find_rows_by_predicate (λ r, bool_decide (row_values r !! 0%nat = Some (VInt 1)))) blank).2 = Ok [0%nat].
Proof. vm_compute. split; reflexivity. Qed.

Definition fill_users (n : nat) : UT unit :=
  st_iter (λ i, insert_row (user (Z.of_nat i) "x")) (seq 0 n).

(** UPDATE outside a transaction removes the old keys from the indexes, and
    removal from an inner node of the tree loses other keys: after the name of
    user 15 of 32 has changed, a second user 20 gets in. *)
Theorem update_admits_duplicate_keys :
  ((fill_users 32;; insert_row (user 20 "z")) users).2 = Throw row_refused ∧
  ((fill_users 32;; update_row 15 (user 15 "y");; insert_row (user 20 "z")) users).2 = Ok tt.
Proof. vm_compute. split; reflexivity. Qed.

(** A row that fills its page. *)
Definition full_row : Row := mkRow [VString (string_of_bytes (replicate (Z.to_nat 8151) 120))] 0 0.

(** ALTER TABLE ADD COLUMN empties the heap before it stores the widened
    rows: when one of them no longer fits a page the statement throws, and the
    rows are gone. *)
Theorem add_column_loses_rows :
  let fill : UT unit := add_column (mkColumn "a" STRING true false false None);; insert_row full_row in
  let widened := add_column (mkColumn "b" INT true false false None) (fill blank).1 in
  (length <$> (get_all_rows (fill blank).1).2, widened.2, length <$> (get_all_rows widened.1).2)
  = (Ok 1%nat, Throw row_too_large, Ok 0%nat).
Proof. vm_compute. reflexivity. Qed.
