(* ===== verification/Operators.v ===== *)
(** * Relational operators

    The operators a SELECT runs on its result rows (src/executor: row_key.cc,
    distinct_operator.cc, sort_operator.cc, limit_offset_operator.cc,
    select_pipeline.cc), the set operations (set_operation_operator.cc) and the hash
    join (hash_join_executor.cc).

    [std::hash] is a parameter of the model: nothing is assumed of it.  A hash
    container finds an element when its hash and [operator==] both agree; the order
    in which it lists equal keys is the order of insertion here, and the theorems
    that depend on it are stated up to permutation. *)

From Stdlib Require Import ZArith Lia SpecFloat.
From S2P Require Import Prelude CppNum Values Rows Expr Evaluator Partition.

Abbreviation vrow := (list value).

Record QueryResult : Type := mkResult {
  success : bool;
  message : string;
  column_names : list string;
  rows : list vrow;
  affected_rows : Z
}.

Definition success_result (msg : string) : QueryResult := mkResult true msg [] [] 0.
Definition error_result (msg : string) : QueryResult := mkResult false msg [] [] 0.
Definition set_rows (r : QueryResult) (rs : list vrow) : QueryResult :=
  mkResult (success r) (message r) (column_names r) rs (s_wrap 32 (Z.of_nat (length rs))).

(** ** Row keys *)

Fixpoint isRowEqual (l r : vrow) : bool :=
  match l, r with
  | [], [] => true
  | x :: l, y :: r => if value_ne x y then false else isRowEqual l r
  | _, _ => false
  end.

Fixpoint isRowLess (l r : vrow) : bool :=
  match l, r with
  | x :: l, y :: r => if value_ne x y then value_lt x y else isRowLess l r
  | [], _ :: _ => true
  | _, _ => false
  end.

(** The hash functions of the standard library. *)
Record StdHash : Type := mkStdHash {
  hash_int : Z → Z;
  hash_double : double → Z;
  hash_string : string → Z;
  hash_bool : bool → Z
}.

Definition hashValue (H : StdHash) (v : value) : Z :=
  match v with
  | VNull => 0
  | VInt z => hash_int H z
  | VFloat d => hash_double H d
  | VString s => hash_string H s
  | VBool b => hash_bool H b
  end.

Definition mixHash (seed v : Z) : Z :=
  Z.lxor seed
    (u_wrap 64 (v + 0x9e3779b97f4a7c15 + u_wrap 64 (Z.shiftl seed 6) + Z.shiftr seed 2)).

Definition hash_row (H : StdHash) (r : vrow) : Z := foldl (λ seed v, mixHash seed (hashValue H v)) 0 r.

(** ** Sorting

    [std::sort] and [std::stable_sort] with a comparison that may throw. *)

Section sorting.
Context {A : Type} (less : A → A → res bool).

Fixpoint insert_by (x : A) (l : list A) : res (list A) :=
  match l with
  | [] => Ok [x]
  | y :: l =>
      b ← less y x;
      if (b : bool) then cons y <$> insert_by x l else Ok (x :: y :: l)
  end.

Fixpoint sort_by (l : list A) : res (list A) :=
  match l with
  | [] => Ok []
  | x :: l => l' ← sort_by l; insert_by x l'
  end.
End sorting.

(** [std::unique]: drops an element equal to the last one kept. *)
Fixpoint unique_from {A} (eq : A → A → bool) (x : A) (l : list A) : list A :=
  match l with
  | [] => [x]
  | y :: l => if eq x y then unique_from eq x l else x :: unique_from eq y l
  end.
Definition unique {A} (eq : A → A → bool) (l : list A) : list A :=
  match l with [] => [] | x :: l => unique_from eq x l end.

(** ** The pipeline *)

(** What the operators read of the SELECT statement. *)
Record Statement {Q : Type} : Type := mkStatement {
  st_distinct : bool;
  st_order_by : list (expr Q * bool);
  st_limit : Z;
  st_offset : Z
}.
Arguments Statement : clear implicits.

Definition distinct_apply {Q} (input : QueryResult) (st : option (Statement Q)) : res QueryResult :=
  if negb (success input) then Ok input
  else match st with
  | Some st =>
      if negb (st_distinct st) then Ok input
      else
        sorted ← sort_by (λ a b, Ok (isRowLess a b)) (rows input);
        Ok (set_rows input (unique isRowEqual sorted))
  | None => Ok input
  end.

Definition compare_order_values (a b : value) (ascending : bool) : Z :=
  if is_null a && is_null b then 0
  else if is_null a then 1
  else if is_null b then -1
  else if value_eq a b then 0
  else if ascending then (if value_lt a b then -1 else 1)
  else (if value_gt a b then -1 else 1).

Definition evaluator_for_result_columns {Q} (names : list string) : Evaluator Q unit :=
  mkEvaluator (mkBinding "" "" <$> names) None None None false None None ∅ "".

(** The evaluator of result columns has no context to read or to leave behind. *)
Definition order_value {Q} (names : list string) (r : vrow) (e : expr Q) : res value :=
  (evaluate_expression 0 (evaluator_for_result_columns names) (row_of_values r) false e (mkSt [] "" tt)).2.

Fixpoint order_less {Q} (names : list string) (order_by : list (expr Q * bool)) (ra rb : vrow) : res bool :=
  match order_by with
  | [] => Ok false
  | (e, ascending) :: order_by =>
      va ← order_value names ra e;
      vb ← order_value names rb e;
      let cmp := compare_order_values va vb ascending in
      if negb (cmp =? 0) then Ok (cmp <? 0) else order_less names order_by ra rb
  end.

Definition sort_apply {Q} (input : QueryResult) (st : option (Statement Q)) : res QueryResult :=
  if negb (success input) then Ok input
  else match st with
  | Some st =>
      if bool_decide (length (st_order_by st) = 0%nat) then Ok input
      else
        sorted ← sort_by (order_less (column_names input) (st_order_by st)) (rows input);
        Ok (mkResult (success input) (message input) (column_names input) sorted (affected_rows input))
  | None => Ok input
  end.

Definition limit_offset_apply {Q} (input : QueryResult) (st : option (Statement Q)) : QueryResult :=
  if negb (success input) then input
  else match st with
  | None => input
  | Some st =>
      let offset := st_offset st in
      let limit := st_limit st in
      if (offset <=? 0) && (limit <? 0) then input
      else
        let rs :=
          if 0 <? offset then
            if Z.of_nat (length (rows input)) <=? offset then [] else drop (Z.to_nat offset) (rows input)
          else rows input in
        let rs :=
          if limit =? 0 then []
          else if (0 <? limit) && (limit <? Z.of_nat (length rs)) then take (Z.to_nat limit) rs
          else rs in
        set_rows input rs
  end.

(** ** Set operations *)

Inductive SetOperationKind : Type := Union | Intersect | Except.

Definition makeArityError (l r : nat) : QueryResult :=
  error_result ("Set operation column count mismatch: left has " +:+ std_to_string (Z.of_nat l) +:+
    ", right has " +:+ std_to_string (Z.of_nat r)).

Definition makeTypeError (i : nat) (l r : DataType) : QueryResult :=
  error_result ("Set operation type mismatch at column " +:+ std_to_string (Z.of_nat i) +:+ ": " +:+
    data_type_to_string l +:+ " vs " +:+ data_type_to_string r).

(** The columns of the first rows; [right[i]] is not checked against its width. *)
Fixpoint validate_row_types (i : nat) (l r : vrow) : res (option QueryResult) :=
  match l, r with
  | [], _ => Ok None
  | x :: l, [] => if is_null x then validate_row_types (S i) l [] else UB
  | x :: l, y :: r =>
      if is_null x || is_null y then validate_row_types (S i) l r
      else if decide (get_type x = get_type y) then validate_row_types (S i) l r
      else Ok (Some (makeTypeError i (get_type x) (get_type y)))
  end.

Definition validateColumnTypes (l r : QueryResult) : res (option QueryResult) :=
  match rows l, rows r with
  | lr :: _, rr :: _ => validate_row_types 0 lr rr
  | _, _ => Ok None
  end.

Section hashing.
Context (H : StdHash).

(** Membership in an [unordered_set<RowKey>]. *)
Definition key_in (r : vrow) (keys : list vrow) : bool :=
  existsb (λ k, (hash_row H k =? hash_row H r) && isRowEqual k r) keys.

Definition buildSuccessResult (l : QueryResult) (rs : list vrow) : QueryResult :=
  mkResult true "OK" (column_names l) rs (s_wrap 32 (Z.of_nat (length rs))).

(** The rows that are emitted once, in the order of the source: the set [seen]
    grows with each row that passes [keep] and is not in it. *)
Fixpoint append_unique (keep : vrow → bool) (seen : list vrow) (source : list vrow) : list vrow :=
  match source with
  | [] => []
  | r :: source =>
      if keep r && negb (key_in r seen) then r :: append_unique keep (r :: seen) source
      else append_unique keep seen source
  end.

Definition executeUnionAll (l r : QueryResult) : QueryResult :=
  buildSuccessResult l (rows l ++ rows r).
Definition executeUnionDistinct (l r : QueryResult) : QueryResult :=
  buildSuccessResult l (append_unique (λ _, true) [] (rows l ++ rows r)).
Definition executeIntersect (l r : QueryResult) : QueryResult :=
  buildSuccessResult l (append_unique (λ x, key_in x (rows r)) [] (rows l)).
Definition executeExcept (l r : QueryResult) : QueryResult :=
  buildSuccessResult l (append_unique (λ x, negb (key_in x (rows r))) [] (rows l)).

Definition execute_set_operation (l r : QueryResult) (kind : SetOperationKind) (isAll : bool)
    : res QueryResult :=
  if negb (success l) then Ok l
  else if negb (success r) then Ok r
  else if negb (length (column_names l) =? length (column_names r))%nat
  then Ok (makeArityError (length (column_names l)) (length (column_names r)))
  else
    err ← validateColumnTypes l r;
    match err with
    | Some e => Ok e
    | None =>
        Ok (match kind with
            | Union => if isAll then executeUnionAll l r else executeUnionDistinct l r
            | Intersect => executeIntersect l r
            | Except => executeExcept l r
            end)
    end.

(** ** Hash join *)

(** The multimap from keys to build rows, in order of insertion. *)
Definition buildHashTable (rs : list vrow) (key_index : nat) : list (value * vrow) :=
  omap (λ r : vrow,
    match r !! key_index with
    | Some key => if is_null key then None else Some (key, r)
    | None => None
    end) rs.

Definition equal_range (table : list (value * vrow)) (key : value) : list vrow :=
  snd <$> filter (λ e, (hashValue H e.1 =? hashValue H key) && value_eq e.1 key = true) table.

Definition probeAndEmit (table : list (value * vrow)) (probe_rows : list vrow) (probe_key_index : nat)
    (probe_is_left : bool) : list vrow :=
  flat_map (λ p : vrow,
    match p !! probe_key_index with
    | Some key =>
        if is_null key then []
        else (λ b, if probe_is_left then p ++ b else b ++ p) <$> equal_range table key
    | None => []
    end) probe_rows.

Definition executeInnerEqui (left_rows right_rows : list vrow) (left_key_index right_key_index : nat)
    (build_on_left : bool) : list vrow :=
  if build_on_left
  then probeAndEmit (buildHashTable left_rows left_key_index) right_rows right_key_index false
  else probeAndEmit (buildHashTable right_rows right_key_index) left_rows left_key_index true.
End hashing.

(** ** Typed rows *)

Definition nullable (k : kind) (v : value) : Prop := v = VNull ∨ has_kind k v.
Definition typed_row (ks : list kind) (r : vrow) : Prop := Forall2 nullable ks r.

Lemma nullable_eq_iff k a b : nullable k a → nullable k b → value_eq a b = true ↔ a = b.
Proof.
  intros [->|Ha] [->|Hb]; [done| | |by apply (value_eq_iff k)].
  - destruct b; try done; by destruct k.
  - destruct a; try done; by destruct k.
Qed.

Lemma isRowEqual_iff ks a b : typed_row ks a → typed_row ks b → isRowEqual a b = true ↔ a = b.
Proof.
  intros Ha. revert b. induction Ha as [|k x ks a Hx _ IH]; intros b Hb; inversion Hb as [|? y ? b' Hy Hb']; subst; [done|].
  cbn [isRowEqual]. unfold value_ne. specialize (IH b' Hb'). pose proof (nullable_eq_iff k x y Hx Hy) as Hxy.
  destruct (value_eq x y); cbn [negb].
  - rewrite IH. split; [intros ->; f_equal; by apply Hxy|by intros [=]].
  - split; [done|]. intros [= -> _]. by apply Hxy.
Qed.

(** ** Set operations *)

(** The rows of a list, each where it occurs first. *)
Fixpoint firsts (l : list vrow) : list vrow :=
  match l with
  | [] => []
  | x :: l => x :: filter (λ y, y ≠ x) (firsts l)
  end.

Lemma elem_of_firsts x l : x ∈ firsts l ↔ x ∈ l.
Proof.
  induction l as [|y l IH]; [done|]. cbn [firsts]. rewrite !elem_of_cons, list_elem_of_filter, IH.
  destruct (decide (x = y)); naive_solver.
Qed.

Lemma NoDup_firsts l : NoDup (firsts l).
Proof.
  induction l as [|y l IH]; cbn [firsts]; constructor.
  - rewrite list_elem_of_filter. naive_solver.
  - by apply NoDup_filter.
Qed.

Lemma firsts_app l r : firsts (l ++ r) = firsts l ++ filter (λ x, x ∉ l) (firsts r).
Proof.
  induction l as [|y l IH]; cbn [firsts app].
  - symmetry. apply filter_all. intros x _. apply not_elem_of_nil.
  - f_equal. rewrite IH, filter_app, list_filter_filter. f_equal.
    apply list_filter_iff. intros x. by rewrite not_elem_of_cons.
Qed.

Section set_semantics.
Context (H : StdHash) (ks : list kind).

Lemma key_in_typed r keys :
  typed_row ks r → Forall (typed_row ks) keys → key_in H r keys = true ↔ r ∈ keys.
Proof.
  intros Hr Hkeys. rewrite Forall_forall in Hkeys. unfold key_in. rewrite existsb_exists. split.
  - intros (k & Hk%list_elem_of_In & Heq). apply andb_true_iff in Heq as [_ Heq].
    apply (isRowEqual_iff ks) in Heq as ->; [done|by apply Hkeys|done].
  - intros Hin. exists r. split; [by apply list_elem_of_In|]. rewrite Z.eqb_refl. cbn [andb].
    by apply (isRowEqual_iff ks).
Qed.

Lemma append_unique_firsts keep seen source :
  Forall (typed_row ks) seen → Forall (typed_row ks) source →
  append_unique H keep seen source = filter (λ r, keep r = true ∧ r ∉ seen) (firsts source).
Proof.
  revert seen. induction source as [|x source IH]; intros seen Hseen Hsrc; [done|].
  apply Forall_cons_iff in Hsrc as [Hx Hsrc]. pose proof (key_in_typed x seen Hx Hseen) as Hin.
  cbn [append_unique firsts]. rewrite filter_cons, list_filter_filter.
  destruct (decide (keep x = true ∧ x ∉ seen)) as [[Hk Hn]|Hn].
  - assert (key_in H x seen = false) as -> by (rewrite <- Hin in Hn; by destruct (key_in H x seen)).
    rewrite Hk. cbn [andb negb]. f_equal. rewrite IH; [|by constructor|done].
    apply list_filter_iff. intros r. rewrite not_elem_of_cons. naive_solver.
  - assert (keep x && negb (key_in H x seen) = false) as ->.
    { destruct (keep x), (key_in H x seen); try done. destruct Hn. split; [done|]. by rewrite <- Hin. }
    rewrite IH by done. apply list_filter_iff. intros r. split; [|naive_solver].
    intros Hr. split; [done|]. by intros ->.
Qed.
End set_semantics.

(** ** Hash join *)

Section join.
Context (H : StdHash) (k : kind).

(** The pairs a nested loop over both inputs would keep. *)
Definition join_matches (i j : nat) (a b : vrow) : bool :=
  match a !! i, b !! j with
  | Some x, Some y => negb (is_null x) && negb (is_null y) && value_eq x y
  | _, _ => false
  end.
Definition emit (i j : nat) (a b : vrow) : list vrow := if join_matches i j a b then [a ++ b] else [].
Definition nested_loop_join (ls rs : list vrow) (i j : nat) : list vrow :=
  flat_map (λ a, flat_map (emit i j a) rs) ls.

(** The key column of the rows holds values of the kind, or NULL. *)
Definition key_typed (i : nat) (r : vrow) : Prop := ∀ v, r !! i = Some v → nullable k v.

Lemma flat_map_ext_in {A B} (f g : A → list B) l :
  (∀ x, x ∈ l → f x = g x) → flat_map f l = flat_map g l.
Proof.
  induction l as [|x l IH]; intros Hfg; cbn; [done|]. rewrite (Hfg x) by left.
  f_equal. apply IH. intros. apply Hfg. by right.
Qed.

Lemma flat_map_nil {A B} (l : list A) : flat_map (λ _, @nil B) l = [].
Proof. by induction l. Qed.

Lemma flat_map_app_fn {A B} (f g : A → list B) l :
  flat_map (λ x, f x ++ g x) l ≡ₚ flat_map f l ++ flat_map g l.
Proof.
  induction l as [|x l IH]; cbn; [done|]. rewrite IH, !app_assoc.
  apply Permutation_app_tail. rewrite <- !app_assoc. apply Permutation_app_head. apply Permutation_app_comm.
Qed.

Lemma flat_map_swap {A B C} (f : A → B → list C) l l' :
  flat_map (λ b, flat_map (λ a, f a b) l) l' ≡ₚ flat_map (λ a, flat_map (f a) l') l.
Proof.
  induction l as [|a l IH]; cbn; [by rewrite flat_map_nil|].
  rewrite flat_map_app_fn, IH. done.
Qed.

(** A probe finds the build rows whose key equals its own. *)
Lemma probe_row_emits rs i key (f : vrow → vrow) :
  has_kind k key → Forall (key_typed i) rs →
  f <$> equal_range H (buildHashTable rs i) key =
  flat_map (λ r : vrow, match r !! i with
    | Some x => if negb (is_null x) && value_eq x key then [f r] else []
    | None => []
    end) rs.
Proof.
  intros Hk Hrs. unfold equal_range, buildHashTable.
  induction Hrs as [|r rs Hr _ IH]; [done|]. cbn [omap list_omap flat_map].
  destruct (r !! i) as [x|] eqn:E; [|apply IH].
  destruct (is_null x) eqn:En; [apply IH|]. cbn [negb andb].
  assert (has_kind k x) as Hx by (destruct (Hr x E) as [->|]; done).
  rewrite filter_cons. cbn [fst]. destruct (value_eq x key) eqn:Eq.
  - apply (value_eq_iff k) in Eq as ->; [|done..]. rewrite Z.eqb_refl, decide_True by done.
    cbn [fmap list_fmap app]. f_equal. apply IH.
  - rewrite andb_false_r, decide_False by done. apply IH.
Qed.

Lemma join_build_right ls rs i j :
  Forall (key_typed i) ls → Forall (key_typed j) rs →
  executeInnerEqui H ls rs i j false = nested_loop_join ls rs i j.
Proof.
  intros Hls Hrs. unfold executeInnerEqui, probeAndEmit, nested_loop_join.
  apply flat_map_ext_in. intros a Ha. rewrite Forall_forall in Hls.
  unfold emit, join_matches. destruct (a !! i) as [x|] eqn:E; [|by rewrite flat_map_nil].
  destruct (is_null x) eqn:En; cbn [negb andb].
  { rewrite (flat_map_ext_in _ (λ _, [])), flat_map_nil; [done|]. intros b _. by destruct (b !! j). }
  assert (has_kind k x) as Hx by (destruct (Hls a Ha x E) as [->|]; done).
  rewrite (probe_row_emits rs j x (λ b, a ++ b)) by done. apply flat_map_ext_in. intros b Hb.
  rewrite Forall_forall in Hrs. destruct (b !! j) as [y|] eqn:Ey; [|done].
  destruct (is_null y) eqn:Eny; cbn [negb andb]; [done|].
  assert (has_kind k y) as Hy by (destruct (Hrs b Hb y Ey) as [->|]; done).
  by rewrite (value_eq_sym k y x).
Qed.

Lemma join_build_left ls rs i j :
  Forall (key_typed i) ls → Forall (key_typed j) rs →
  executeInnerEqui H ls rs i j true ≡ₚ nested_loop_join ls rs i j.
Proof.
  intros Hls Hrs. unfold executeInnerEqui, probeAndEmit, nested_loop_join.
  rewrite <- flat_map_swap. erewrite flat_map_ext_in; [done|]. intros b Hb. rewrite Forall_forall in Hrs.
  unfold emit, join_matches. destruct (b !! j) as [y|] eqn:E.
  2:{ rewrite (flat_map_ext_in _ (λ _, [])), flat_map_nil; [done|]. intros a _. by destruct (a !! i). }
  destruct (is_null y) eqn:En; cbn [negb andb].
  { rewrite (flat_map_ext_in _ (λ _, [])), flat_map_nil; [done|]. intros a _.
    destruct (a !! i) as [x|]; [|done]. by rewrite andb_false_r. }
  assert (has_kind k y) as Hy by (destruct (Hrs b Hb y E) as [->|]; done).
  rewrite (probe_row_emits ls i y (λ a, a ++ b)) by done. apply flat_map_ext_in. intros a Ha.
  destruct (a !! i) as [x|] eqn:Ex; [|done]. by rewrite andb_true_r.
Qed.
End join.

(** ** Sorting *)

Section isort.
Context {A : Type} (lt : A → A → bool).

Fixpoint insert_pure (x : A) (l : list A) : list A :=
  match l with
  | [] => [x]
  | y :: l => if lt y x then y :: insert_pure x l else x :: y :: l
  end.
Definition isort (l : list A) : list A := foldr insert_pure [] l.

Lemma insert_perm x l : insert_pure x l ≡ₚ x :: l.
Proof.
  induction l as [|y l IH]; cbn; [done|]. destruct (lt y x); [|done].
  rewrite IH. apply perm_swap.
Qed.
Lemma isort_perm l : isort l ≡ₚ l.
Proof. induction l as [|x l IH]; cbn; [done|]. by rewrite insert_perm, IH. Qed.

(** The code's sort is the pure one when no comparison throws. *)
Lemma sort_by_pure less l :
  (∀ x y, x ∈ l → y ∈ l → less x y = Ok (lt x y)) → sort_by less l = Ok (isort l).
Proof.
  induction l as [|x l IH]; intros Hl; [done|]. cbn [sort_by isort foldr].
  rewrite IH by (intros; apply Hl; by right). cbn [mbind res_bind]. fold (isort l).
  assert (∀ y, y ∈ isort l → less y x = Ok (lt y x)) as Hx.
  { intros y Hy. rewrite isort_perm in Hy. apply Hl; [by right|left]. }
  clear IH Hl. induction (isort l) as [|y l' IHl]; [done|]. cbn [insert_by insert_pure].
  rewrite Hx by left. cbn [mbind res_bind]. destruct (lt y x); [|done].
  rewrite IHl by (intros; apply Hx; by right). done.
Qed.

(** A strict weak order on a domain. *)
Record weak_order (D : A → Prop) : Prop := {
  wo_asym a b : D a → D b → lt a b = true → lt b a = false;
  wo_negtrans a b c : D a → D b → D c → lt a b = false → lt b c = false → lt a c = false
}.

Context (D : A → Prop) (Hwo : weak_order D).

Definition ordered_by (l : list A) : Prop := ForallOrdPairs (λ a b, lt b a = false) l.

Lemma insert_ordered x l : D x → Forall D l → ordered_by l → ordered_by (insert_pure x l).
Proof.
  intros Hx Hl Hord. induction Hord as [|y l Hy Hord IH]; [by repeat constructor|].
  apply Forall_cons_iff in Hl as [Hdy Hl]. cbn [insert_pure]. destruct (lt y x) eqn:E.
  - constructor; [|by apply IH]. rewrite (insert_perm x l). constructor; [|done].
    by apply (wo_asym _ Hwo).
  - constructor; [|by constructor]. constructor; [done|].
    rewrite Forall_forall in Hy, Hl |- *. intros z Hz.
    apply (wo_negtrans _ Hwo z y x); auto.
Qed.

Lemma isort_ordered l : Forall D l → ordered_by (isort l).
Proof.
  induction l as [|x l IH]; intros Hl; [constructor|]. apply Forall_cons_iff in Hl as [Hx Hl].
  apply insert_ordered; [done|by rewrite isort_perm|by apply IH].
Qed.

(** Stability: equivalent elements keep their order. *)
Definition equivalent (a b : A) : bool := negb (lt a b) && negb (lt b a).

Lemma insert_stable x l z : D x → D z → Forall D l →
  filter (λ y, equivalent z y = true) (insert_pure x l) = filter (λ y, equivalent z y = true) (x :: l).
Proof.
  intros Hx Hz. induction l as [|y l IH]; intros Hl; [done|]. apply Forall_cons_iff in Hl as [Hy Hl].
  cbn [insert_pure]. destruct (lt y x) eqn:E; [|done].
  rewrite filter_cons, IH, !filter_cons by done. unfold equivalent.
  destruct (decide (negb (lt z y) && negb (lt y z) = true)) as [E1|E1],
    (decide (negb (lt z x) && negb (lt x z) = true)) as [E2|E2]; try done.
  apply andb_true_iff in E1 as [_ H1%negb_true_iff], E2 as [H2%negb_true_iff _].
  by rewrite (wo_negtrans _ Hwo y z x Hy Hz Hx H1 H2) in E.
Qed.

Lemma isort_stable l z : D z → Forall D l →
  filter (λ y, equivalent z y = true) (isort l) = filter (λ y, equivalent z y = true) l.
Proof.
  intros Hz. induction l as [|x l IH]; intros Hl; [done|]. apply Forall_cons_iff in Hl as [Hx Hl].
  change (isort (x :: l)) with (insert_pure x (isort l)).
  rewrite insert_stable by (done || by rewrite isort_perm). rewrite !filter_cons. by rewrite IH.
Qed.
End isort.

(** ** Lexicographic orders *)

(** A strict total order on a domain. *)
Record total_order {A} (D : A → Prop) (lt : A → A → bool) : Prop := {
  to_irrefl a : D a → lt a a = false;
  to_trans a b c : D a → D b → D c → lt a b = true → lt b c = true → lt a c = true;
  to_total a b : D a → D b → lt a b = false → lt b a = false → a = b
}.

Lemma total_asym {A} (D : A → Prop) lt a b :
  total_order D lt → D a → D b → lt a b = true → lt b a = false.
Proof.
  intros Ho Ha Hb Hab. destruct (lt b a) eqn:E; [|done].
  pose proof (to_trans _ _ Ho a b a Ha Hb Ha Hab E) as Haa. by rewrite (to_irrefl _ _ Ho) in Haa.
Qed.

Lemma total_weak {A} (D : A → Prop) lt : total_order D lt → weak_order lt D.
Proof.
  intros Ho. split.
  - intros a b Ha Hb. by apply (total_asym D).
  - intros a b c Ha Hb Hc Hab Hbc. destruct (lt b a) eqn:E1.
    + destruct (lt a c) eqn:E2; [|done]. by rewrite (to_trans _ _ Ho b a c) in Hbc.
    + by rewrite (to_total _ _ Ho a b).
Qed.

(** The image of a total order under a key. *)
Lemma weak_key {A B} (D : B → Prop) lt (f : A → B) (E : A → Prop) :
  total_order D lt → (∀ a, E a → D (f a)) → weak_order (λ a b, lt (f a) (f b)) E.
Proof.
  intros Ho Hf. pose proof (total_weak D lt Ho) as [H1 H2]. split.
  - intros a b Ha Hb. apply H1; auto.
  - intros a b c Ha Hb Hc. apply H2; auto.
Qed.

Fixpoint lex (lts : list (value → value → bool)) (a b : vrow) : bool :=
  match lts, a, b with
  | lt :: lts, x :: a, y :: b => if lt x y then true else if lt y x then false else lex lts a b
  | _, _, _ => false
  end.

Lemma lex_total Ds lts :
  Forall2 total_order Ds lts → total_order (Forall2 (λ D v, D v) Ds) (lex lts).
Proof.
  induction 1 as [|D lt Ds lts Ho _ IH].
  { split; [by intros [] |by intros [] [] []|]. intros a b Ha Hb. by inversion Ha; inversion Hb. }
  split.
  - intros a Ha. inversion Ha as [|? x ? a' Hx Ha']; subst. cbn.
    rewrite (to_irrefl _ _ Ho x Hx). by apply (to_irrefl _ _ IH).
  - intros a b c Ha Hb Hc. inversion Ha as [|? x ? a' Hx Ha']; inversion Hb as [|? y ? b' Hy Hb'];
      inversion Hc as [|? z ? c' Hz Hc']; subst. cbn.
    destruct (lt x y) eqn:Exy.
    + intros _. destruct (lt y z) eqn:Eyz; [by rewrite (to_trans _ _ Ho x y z)|].
      destruct (lt z y) eqn:Ezy; [done|]. by rewrite <- (to_total _ _ Ho y z), Exy.
    + destruct (lt y x) eqn:Eyx; [done|]. rewrite (to_total _ _ Ho x y) by done. intros Hab.
      destruct (lt y z); [done|]. destruct (lt z y); [done|]. by apply (to_trans _ _ IH a' b' c').
  - intros a b Ha Hb. inversion Ha as [|? x ? a' Hx Ha']; inversion Hb as [|? y ? b' Hy Hb']; subst. cbn.
    destruct (lt x y) eqn:Exy; [done|]. destruct (lt y x) eqn:Eyx; [done|]. intros H1 H2.
    f_equal; [by apply (to_total _ _ Ho)|by apply (to_total _ _ IH)].
Qed.

(** NULL first, as [operator<] has it; NULL last, as ORDER BY has it. *)
Lemma nullable_first_total k : total_order (nullable k) value_lt.
Proof.
  assert (∀ v, has_kind k v → value_lt VNull v = true ∧ value_lt v VNull = false) as Hn by (by intros [] ?; destruct k).
  split.
  - intros a [->|Ha]; [done|by apply (value_lt_irrefl k)].
  - intros a b c [->|Ha] [->|Hb] [->|Hc]; try done; try (by intros; apply Hn).
    + by rewrite (proj2 (Hn b Hb)).
    + by rewrite (proj2 (Hn a Ha)).
    + by rewrite (proj2 (Hn b Hb)).
    + by apply (value_lt_trans k).
  - intros a b [->|Ha] [->|Hb]; [done| | |by apply (value_lt_total k)].
    + by rewrite (proj1 (Hn b Hb)).
    + by rewrite (proj1 (Hn a Ha)).
Qed.

Definition order_lt (ascending : bool) (a b : value) : bool := compare_order_values a b ascending =? -1.

(** What [compare_order_values] computes on non-null values. *)
Lemma compare_typed k a b asc : has_kind k a → has_kind k b →
  compare_order_values a b asc =
  if value_eq a b then 0 else if value_lt (if asc then a else b) (if asc then b else a) then -1 else 1.
Proof.
  intros Ha Hb. unfold compare_order_values. rewrite (has_kind_not_null k a Ha), (has_kind_not_null k b Hb).
  cbn [andb]. destruct asc; [done|]. by rewrite (value_gt_lt k).
Qed.

Lemma order_lt_typed k a b asc : has_kind k a → has_kind k b →
  order_lt asc a b = if asc then value_lt a b else value_lt b a.
Proof.
  intros Ha Hb. unfold order_lt. rewrite (compare_typed k) by done.
  destruct (value_eq a b) eqn:E.
  - apply (value_eq_iff k) in E as ->; [|done..]. rewrite (value_lt_irrefl k) by done. by destruct asc.
  - destruct asc; by destruct (value_lt _ _).
Qed.

Lemma nullable_last_total k asc : total_order (nullable k) (order_lt asc).
Proof.
  assert (∀ v, has_kind k v → order_lt asc VNull v = false ∧ order_lt asc v VNull = true) as Hn
    by (by intros [] ?; destruct k).
  split.
  - intros a [->|Ha]; [done|]. rewrite (order_lt_typed k) by done. destruct asc; by apply (value_lt_irrefl k).
  - intros a b c [->|Ha] [->|Hb] [->|Hc]; try done; try (by intros; apply Hn).
    + by rewrite (proj1 (Hn b Hb)).
    + by rewrite (proj1 (Hn b Hb)).
    + by rewrite (proj1 (Hn c Hc)).
    + rewrite !(order_lt_typed k) by done. destruct asc; intros; by eapply (value_lt_trans k _ b).
  - intros a b [->|Ha] [->|Hb]; [done| | |].
    + by rewrite (proj2 (Hn b Hb)).
    + by rewrite (proj2 (Hn a Ha)).
    + rewrite !(order_lt_typed k) by done. destruct asc; intros; by apply (value_lt_total k).
Qed.

(** ** ORDER BY *)

Lemma compare_cases k a b asc : nullable k a → nullable k b →
  let c := compare_order_values a b asc in
  (c = -1 ∧ order_lt asc a b = true) ∨
  (c = 0 ∧ order_lt asc a b = false ∧ order_lt asc b a = false) ∨
  (c = 1 ∧ order_lt asc a b = false ∧ order_lt asc b a = true).
Proof.
  intros [->|Ha] [->|Hb]; cbv zeta.
  - right. left. done.
  - right. right. destruct k, b; done.
  - left. destruct k, a; done.
  - rewrite !(order_lt_typed k), (compare_typed k) by done. destruct (value_eq a b) eqn:E.
    + apply (value_eq_iff k) in E as ->; [|done..]. right. left. rewrite (value_lt_irrefl k) by done.
      by destruct asc.
    + assert (a ≠ b) as Hne by (intros ->; rewrite (proj2 (value_eq_iff k b b Hb Hb) eq_refl) in E; done).
      destruct asc; destruct (value_lt _ _) eqn:E1; [by left| |by left|]; right; right; (split_and!; [done|done|]).
      * destruct (value_lt b a) eqn:E2; [done|]. by apply (value_lt_total k) in E1.
      * destruct (value_lt a b) eqn:E2; [done|]. by apply (value_lt_total k) in E2.
Qed.

Section order_by.
Context {Q : Type} (names : list string) (ks : list kind).

(** The values of the ORDER BY expressions on a row. *)
Definition order_keys (order_by : list (expr Q * bool)) (r key : vrow) : Prop :=
  Forall2 (λ p v, order_value names r p.1 = Ok v) order_by key.
Definition order_lts (order_by : list (expr Q * bool)) : list (value → value → bool) :=
  (λ p, order_lt p.2) <$> order_by.

Lemma order_less_lex order_by ra rb ka kb :
  order_keys order_by ra ka → order_keys order_by rb kb →
  Forall2 nullable ks ka → Forall2 nullable ks kb →
  order_less names order_by ra rb = Ok (lex (order_lts order_by) ka kb).
Proof.
  intros Ha. revert kb ks. induction Ha as [|[e asc] va ob ka Hva _ IH]; intros kb kinds Hb Tka Tkb; [done|].
  inversion Hb as [|? vb ? kb' Hvb Hb']; subst. inversion Tka as [|k ? ks' ? Tva Tka']; subst.
  inversion Tkb as [|? ? ? ? Tvb Tkb']; subst. cbn [order_less fst order_lts fmap list_fmap lex].
  cbn [fst] in Hva, Hvb. rewrite Hva, Hvb. cbn [mbind res_bind snd].
  destruct (compare_cases k va vb asc Tva Tvb) as [[-> ->]|[(-> & -> & ->)|(-> & -> & ->)]]; [done| |done].
  by apply (IH kb' ks').
Qed.

Lemma order_lts_total order_by : length order_by = length ks →
  Forall2 total_order (nullable <$> ks) (order_lts order_by).
Proof.
  intros Hlen. apply Forall2_fmap. apply Forall2_same_length_lookup. split; [done|].
  intros i k p _ _. apply nullable_last_total.
Qed.
End order_by.

Lemma typed_row_domain ks r : typed_row ks r → Forall2 (λ D v, D v) (nullable <$> ks) r.
Proof. intros Hr. by apply Forall2_fmap_l. Qed.

(** ** DISTINCT *)

Lemma isRowLess_lex ks a b : typed_row ks a → typed_row ks b →
  isRowLess a b = lex ((λ _, value_lt) <$> ks) a b.
Proof.
  intros Ha. revert b. induction Ha as [|k x ks a Hx _ IH]; intros b Hb; inversion Hb as [|? y ? b' Hy Hb']; subst; [done|].
  cbn [isRowLess fmap list_fmap lex]. unfold value_ne. pose proof (nullable_first_total k) as Ho.
  destruct (value_eq x y) eqn:E; cbn [negb].
  - apply (nullable_eq_iff k) in E as ->; [|done..]. rewrite (to_irrefl _ _ Ho y Hy). by apply IH.
  - destruct (value_lt x y) eqn:E1; [done|]. destruct (value_lt y x) eqn:E2; [done|].
    rewrite (to_total _ _ Ho x y) in E by done. by rewrite (proj2 (nullable_eq_iff k y y Hy Hy)) in E.
Qed.

Lemma row_order_total ks : total_order (typed_row ks) isRowLess.
Proof.
  assert (total_order (Forall2 (λ D v, D v) (nullable <$> ks)) (lex ((λ _, value_lt) <$> ks))) as Ho.
  { apply lex_total. apply Forall2_fmap. apply Forall2_same_length_lookup. split; [done|].
    intros i k p _ _. apply nullable_first_total. }
  split.
  - intros a Ha. rewrite (isRowLess_lex ks) by done. by apply (to_irrefl _ _ Ho), typed_row_domain.
  - intros a b c Ha Hb Hc. rewrite !(isRowLess_lex ks) by done. by apply (to_trans _ _ Ho); apply typed_row_domain.
  - intros a b Ha Hb. rewrite !(isRowLess_lex ks) by done. by apply (to_total _ _ Ho); apply typed_row_domain.
Qed.

Section unique.
Context {A : Type} (D : A → Prop) (lt eq : A → A → bool).
Context (Ho : total_order D lt) (Heq : ∀ a b, D a → D b → eq a b = true ↔ a = b).

Lemma unique_from_spec l : ∀ x, D x → Forall D l → ordered_by lt (x :: l) →
  NoDup (unique_from eq x l) ∧ (∀ z, z ∈ unique_from eq x l ↔ z ∈ x :: l).
Proof.
  induction l as [|y l IH]; intros x Hx Hl Hord; cbn [unique_from].
  { split; [apply NoDup_singleton|done]. }
  apply Forall_cons_iff in Hl as [Hy Hl]. inversion Hord as [|? ? Hxs Hord']; subst.
  inversion Hord' as [|? ? Hys Hord'']; subst. apply Forall_cons_iff in Hxs as [Hyx Hxs].
  destruct (eq x y) eqn:E.
  - apply Heq in E as ->; [|done..]. destruct (IH y Hy Hl Hord') as [Hnd Hmem].
    split; [done|]. intros z. rewrite Hmem, !elem_of_cons. naive_solver.
  - destruct (IH y Hy Hl Hord') as [Hnd Hmem]. split.
    + constructor; [|done]. rewrite Hmem. intros [->|Hin]%elem_of_cons.
      * by rewrite (proj2 (Heq y y Hy Hy) eq_refl) in E.
      * rewrite Forall_forall in Hys. specialize (Hys x Hin).
        rewrite (to_total _ _ Ho x y Hx Hy Hys Hyx) in E.
        by rewrite (proj2 (Heq y y Hy Hy) eq_refl) in E.
    + intros z. by rewrite !elem_of_cons, Hmem, !elem_of_cons.
Qed.

Lemma unique_spec l : Forall D l → ordered_by lt l →
  NoDup (unique eq l) ∧ (∀ z, z ∈ unique eq l ↔ z ∈ l).
Proof.
  destruct l as [|x l]; intros Hl Hord; [split; [constructor|done]|].
  apply Forall_cons_iff in Hl as [Hx Hl]. by apply unique_from_spec.
Qed.
End unique.

Lemma validate_typed_rows ks l r i : typed_row ks l → typed_row ks r → validate_row_types i l r = Ok None.
Proof.
  intros Hl. revert r i. induction Hl as [|k x ks l Hx _ IH]; intros r i Hr; inversion Hr as [|? y ? r' Hy Hr']; subst; [done|].
  cbn [validate_row_types]. destruct (is_null x) eqn:Ex; [by apply IH|].
  destruct (is_null y) eqn:Ey; [by apply IH|]. cbn [orb].
  assert (get_type x = get_type y) as Ht.
  { destruct Hx as [->|Hx]; [done|]. destruct Hy as [->|Hy]; [done|]. by destruct k, x, y. }
  rewrite decide_True by done. by apply IH.
Qed.

(** ** Properties *)

(** C28. The hash join computes the nested-loop join: whichever side the table is built on,
    and whatever the hash functions are, its output is a permutation of the concatenations
    of the pairs with equal non-null keys, when the key columns of both sides hold NULLs and
    values of one and the same kind: INT, STRING, BOOL, or FLOATs pairwise 1e-9 or more
    apart. (Keys of different numeric types are missed: [hash_join_misses_mixed_keys].) *)
Theorem hash_join_is_nested_loop_join H k ls rs i j build_on_left :
  Forall (key_typed k i) ls → Forall (key_typed k j) rs →
  executeInnerEqui H ls rs i j build_on_left ≡ₚ nested_loop_join ls rs i j.
Proof.
  intros Hl Hr. destruct build_on_left; [by apply (join_build_left H k)|].
  by rewrite (join_build_right H k).
Qed.

(** C30. ORDER BY sorts: on rows whose sort expressions evaluate to NULLs and values of one
    kind per sort column (INT, STRING, BOOL, or FLOATs pairwise 1e-9 or more apart, since
    closer ones compare equal and not transitively), the result is a permutation of the
    rows, ordered lexicographically with NULLs last in either direction, in which rows with
    equal keys keep their order. *)
Theorem order_by_sorts {Q} (input : QueryResult) (st : Statement Q) (ks : list kind) (key : vrow → vrow) :
  success input = true → st_order_by st ≠ [] →
  (∀ r, r ∈ rows input →
     order_keys (column_names input) (st_order_by st) r (key r) ∧ Forall2 nullable ks (key r)) →
  let lt a b := lex (order_lts (st_order_by st)) (key a) (key b) in
  ∃ sorted, sort_apply input (Some st) =
      Ok (mkResult true (message input) (column_names input) sorted (affected_rows input)) ∧
    sorted ≡ₚ rows input ∧ ordered_by lt sorted ∧
    (∀ z, z ∈ rows input →
       filter (λ r, equivalent lt z r = true) sorted = filter (λ r, equivalent lt z r = true) (rows input)).
Proof.
  intros Hs Hob Hkeys lt. exists (isort lt (rows input)).
  assert (weak_order lt (λ r, r ∈ rows input)) as Hwo.
  { destruct (rows input) as [|r0 rs] eqn:E; [split; intros a b; intros; exfalso; by eapply not_elem_of_nil|]. rewrite <- E in *.
    apply (weak_key (Forall2 (λ D v, D v) (nullable <$> ks)) (lex (order_lts (st_order_by st))) key);
      [apply lex_total, (order_lts_total ks)|].
    - destruct (Hkeys r0 ltac:(rewrite E; left)) as [H1 H2].
      by rewrite (Forall2_length _ _ _ H1), (Forall2_length _ _ _ H2).
    - intros r Hr. apply typed_row_domain, Hkeys, Hr. }
  assert (Forall (λ r, r ∈ rows input) (rows input)) as Hall by (by apply Forall_forall).
  split_and!.
  - unfold sort_apply. rewrite Hs. cbn [negb]. rewrite bool_decide_false by (by destruct (st_order_by st)).
    rewrite (sort_by_pure lt); [done|]. intros x y [Hx Tx]%Hkeys [Hy Ty]%Hkeys.
    by apply (order_less_lex _ ks).
  - apply isort_perm.
  - by apply (isort_ordered lt (λ r, r ∈ rows input)).
  - intros z Hz. by apply (isort_stable lt (λ r, r ∈ rows input)).
Qed.

(** DISTINCT keeps one copy of each row: on typed rows the result has no
    duplicates and the same rows as the input. *)
Theorem distinct_removes_duplicates {Q} (input : QueryResult) (st : Statement Q) (ks : list kind) :
  success input = true → st_distinct st = true → Forall (typed_row ks) (rows input) →
  ∃ out, distinct_apply input (Some st) = Ok out ∧
    column_names out = column_names input ∧ NoDup (rows out) ∧ (∀ r, r ∈ rows out ↔ r ∈ rows input).
Proof.
  intros Hs Hd Ht. unfold distinct_apply. rewrite Hs, Hd. cbn [negb].
  rewrite (sort_by_pure isRowLess) by done. cbn [mbind res_bind]. eexists. split; [done|].
  cbn [column_names set_rows rows]. split; [done|].
  pose proof (row_order_total ks) as Ho.
  destruct (unique_spec (typed_row ks) isRowLess isRowEqual Ho) with (l := isort isRowLess (rows input)) as [Hnd Hmem].
  - intros a b. apply isRowEqual_iff.
  - by rewrite isort_perm.
  - apply (isort_ordered isRowLess (typed_row ks)); [by apply total_weak|done].
  - split; [done|]. intros r. by rewrite Hmem, isort_perm.
Qed.

(** What each set operation contains. *)
Definition set_operation_member (kind : SetOperationKind) (l r : list vrow) (x : vrow) : Prop :=
  match kind with
  | Union => x ∈ l ∨ x ∈ r
  | Intersect => x ∈ l ∧ x ∈ r
  | Except => x ∈ l ∧ x ∉ r
  end.
#[export] Instance set_operation_member_dec kind l r x : Decision (set_operation_member kind l r x).
Proof. destruct kind; apply _. Defined.

(** The set as a list: its members in the order of their first occurrence in the
    rows of the left input followed by those of the right one. *)
Definition set_operation_rows (kind : SetOperationKind) (l r : list vrow) : list vrow :=
  filter (set_operation_member kind l r) (firsts (l ++ r)).

Lemma set_operation_rows_spec kind l r :
  NoDup (set_operation_rows kind l r) ∧
  ∀ x, x ∈ set_operation_rows kind l r ↔ set_operation_member kind l r x.
Proof.
  split; [apply NoDup_filter, NoDup_firsts|]. intros x. unfold set_operation_rows.
  rewrite list_elem_of_filter, elem_of_firsts, elem_of_app. destruct kind; cbn; naive_solver.
Qed.

(** INTERSECT and EXCEPT look at the left rows only. *)
Lemma set_operation_rows_left kind l r : kind ≠ Union →
  set_operation_rows kind l r = filter (set_operation_member kind l r) (firsts l).
Proof.
  intros Hk. unfold set_operation_rows. rewrite firsts_app, filter_app, list_filter_filter.
  rewrite (filter_none (λ x, set_operation_member kind l r x ∧ x ∉ l)); [apply app_nil_r|].
  intros x _. destruct kind; cbn; naive_solver.
Qed.

(** C29. UNION, INTERSECT and EXCEPT have set semantics: on inputs of equal width
    and column types they succeed, and the rows of the result are, each once and
    in the order of their first occurrence in the left rows followed by the right
    ones, the rows that belong to the set. Each column holds NULLs and values of
    one kind: INT, STRING, BOOL, or FLOATs that pairwise differ by 1e-9 or more. *)
Theorem set_operations_have_set_semantics H (l r : QueryResult) kind ks :
  success l = true → success r = true → length (column_names l) = length (column_names r) →
  Forall (typed_row ks) (rows l) → Forall (typed_row ks) (rows r) →
  ∃ out, execute_set_operation H l r kind false = Ok out ∧
    success out = true ∧ column_names out = column_names l ∧
    rows out = set_operation_rows kind (rows l) (rows r) ∧
    NoDup (rows out) ∧
    ∀ x, x ∈ rows out ↔ set_operation_member kind (rows l) (rows r) x.
Proof.
  intros Hl Hr Hlen Tl Tr. unfold execute_set_operation. rewrite Hl, Hr, Hlen, Nat.eqb_refl. cbn [negb].
  assert (validateColumnTypes l r = Ok None) as ->.
  { unfold validateColumnTypes. destruct (rows l) as [|x xs]; [done|]. destruct (rows r) as [|y ys]; [done|].
    apply Forall_cons_iff in Tl as [Tx _], Tr as [Ty _]. by apply (validate_typed_rows ks). }
  cbn [mbind res_bind]. eexists. split; [done|].
  assert (∀ x, x ∈ firsts (rows l) → key_in H x (rows r) = true ↔ x ∈ rows r) as Hin.
  { intros x Hx. rewrite elem_of_firsts in Hx. rewrite Forall_forall in Tl. apply (key_in_typed H ks); [by apply Tl|done]. }
  match goal with |- _ ∧ _ ∧ rows ?out = _ ∧ _ => assert (rows out = set_operation_rows kind (rows l) (rows r)) as -> end.
  { destruct kind; cbn [rows executeUnionDistinct executeIntersect executeExcept buildSuccessResult].
    - rewrite (append_unique_firsts H ks); [|constructor|by apply Forall_app]. apply filter_ext_Forall.
      apply Forall_forall. intros x Hx. rewrite elem_of_firsts, elem_of_app in Hx. cbn. pose proof (not_elem_of_nil x). naive_solver.
    - rewrite (append_unique_firsts H ks), set_operation_rows_left by (done || constructor). apply filter_ext_Forall.
      apply Forall_forall. intros x Hx. cbn. rewrite (Hin x Hx). rewrite elem_of_firsts in Hx.
      pose proof (not_elem_of_nil x). naive_solver.
    - rewrite (append_unique_firsts H ks), set_operation_rows_left by (done || constructor). apply filter_ext_Forall.
      apply Forall_forall. intros x Hx. cbn. rewrite negb_true_iff, <- not_true_iff_false, (Hin x Hx).
      rewrite elem_of_firsts in Hx. pose proof (not_elem_of_nil x). naive_solver. }
  pose proof (set_operation_rows_spec kind (rows l) (rows r)) as [Hnd Hmem].
  destruct kind; split_and!; done.
Qed.

(** LIMIT and OFFSET: the rows after the first [offset], [limit] of them at most
    unless it is negative. *)
Lemma limit_offset_rows {Q} (input : QueryResult) (st : Statement Q) :
  success input = true →
  rows (limit_offset_apply input (Some st)) =
  (if st_limit st <? 0 then id else take (Z.to_nat (st_limit st)))
    (drop (Z.to_nat (st_offset st)) (rows input)).
Proof.
  intros Hs. unfold limit_offset_apply. rewrite Hs. cbn [negb].
  destruct (Z.leb_spec (st_offset st) 0) as [Ho|Ho].
  - assert (Z.to_nat (st_offset st) = 0%nat) as -> by lia.
    destruct (Z.ltb_spec (st_limit st) 0) as [Hl|Hl]; cbn [andb]; [done|].
    destruct (Z.ltb_spec 0 (st_offset st)); [lia|]. cbn [rows set_rows]. rewrite drop_0.
    destruct (Z.eqb_spec (st_limit st) 0) as [->|Hz]; [done|].
    destruct (Z.ltb_spec 0 (st_limit st)); [|lia]. cbn [andb].
    destruct (Z.ltb_spec (st_limit st) (Z.of_nat (length (rows input)))); [done|].
    rewrite take_ge by lia. done.
  - cbn [andb]. destruct (Z.ltb_spec 0 (st_offset st)); [|lia]. cbn [rows set_rows].
    assert ((if Z.of_nat (length (rows input)) <=? st_offset st then [] else drop (Z.to_nat (st_offset st)) (rows input))
      = drop (Z.to_nat (st_offset st)) (rows input)) as ->.
    { destruct (Z.leb_spec (Z.of_nat (length (rows input))) (st_offset st)); [|done]. by rewrite drop_ge by lia. }
    destruct (Z.eqb_spec (st_limit st) 0) as [->|Hz]; [done|].
    destruct (Z.ltb_spec (st_limit st) 0); [destruct (Z.ltb_spec 0 (st_limit st)); [lia|done]|].
    destruct (Z.ltb_spec 0 (st_limit st)); [|lia]. cbn [andb].
    destruct (Z.ltb_spec (st_limit st) (Z.of_nat (length (drop (Z.to_nat (st_offset st)) (rows input))))); [done|].
    rewrite take_ge by lia. done.
Qed.

(** ** Runs *)

Definition zero_hash : StdHash := mkStdHash (λ _, 0) (λ _, 0) (λ _, 0) (λ _, 0).
Definition identity_hash : StdHash := mkStdHash id (λ d, d_to_bits d) (λ s, Z.of_nat (String.length s)) (λ b, if b then 1 else 0).

Definition left_sample : list vrow := [[VInt 1; VString "a"]; [VInt 2; VString "b"]; [VNull; VString "c"]].
Definition right_sample : list vrow := [[VInt 2; VBool true]; [VInt 1; VBool false]; [VInt 2; VBool false]].

Lemma left_sample_typed : Forall (key_typed KInt 0) left_sample.
Proof.
  unfold left_sample. rewrite !Forall_cons, Forall_nil.
  split_and!; [..|done]; intros v [= <-]; [by right|by right|by left].
Qed.
Lemma right_sample_typed : Forall (key_typed KInt 0) right_sample.
Proof.
  unfold right_sample. rewrite !Forall_cons, Forall_nil. split_and!; [..|done]; intros v [= <-]; by right.
Qed.

Lemma hash_join_is_nested_loop_join_witness :
  executeInnerEqui zero_hash left_sample right_sample 0 0 true ≡ₚ
    [[VInt 1; VString "a"; VInt 1; VBool false]; [VInt 2; VString "b"; VInt 2; VBool true];
     [VInt 2; VString "b"; VInt 2; VBool false]].
Proof.
  rewrite (hash_join_is_nested_loop_join zero_hash KInt left_sample right_sample 0 0 true);
    [vm_compute; reflexivity|apply left_sample_typed|apply right_sample_typed].
Defined.

Definition sample_input : QueryResult :=
  mkResult true "OK" ["n"%string] [[VInt 2]; [VNull]; [VInt 1]; [VInt 2]] 4.
Definition sample_statement : Statement unit := mkStatement _ true [(ColumnRef "" "n", false)] (-1) 0.

Lemma sample_typed : Forall (typed_row [KInt]) (rows sample_input).
Proof.
  cbn [rows sample_input]. unfold typed_row. rewrite !Forall_cons, Forall_nil.
  split_and!; [..|done]; (constructor; [((by right) || (by left))|constructor]).
Qed.

Lemma order_by_sorts_witness :
  ∃ out, sort_apply sample_input (Some sample_statement) = Ok out ∧ rows out ≡ₚ rows sample_input.
Proof.
  destruct (order_by_sorts sample_input sample_statement [KInt] id) as (sorted & Heq & Hp & _); [done|done| |].
  - intros r Hr. pose proof sample_typed as Ht. rewrite Forall_forall in Ht. split; [|by apply Ht].
    repeat (apply elem_of_cons in Hr as [->|Hr]; [constructor; [vm_compute; reflexivity|constructor]|]).
    by apply not_elem_of_nil in Hr.
  - eexists. split; [exact Heq|exact Hp].
Defined.

Lemma distinct_removes_duplicates_witness :
  ∃ out, distinct_apply sample_input (Some sample_statement) = Ok out ∧ NoDup (rows out).
Proof.
  destruct (distinct_removes_duplicates sample_input sample_statement [KInt]) as (out & Heq & _ & Hnd & _);
    [done|done|apply sample_typed|]. by exists out.
Defined.

Lemma set_operations_have_set_semantics_witness :
  ∃ out, execute_set_operation zero_hash sample_input sample_input Except false = Ok out ∧
    NoDup (rows out) ∧ [VInt 2] ∉ rows out.
Proof.
  destruct (set_operations_have_set_semantics zero_hash sample_input sample_input Except [KInt])
    as (out & Heq & _ & _ & _ & Hnd & Hmem); [done|done|done|apply sample_typed|apply sample_typed|].
  exists out. split_and!; [done|done|]. rewrite Hmem. intros [_ Hn]. apply Hn. left.
Defined.

(** [equal_range] goes by the hash, and an INT and a FLOAT that compare equal hash
    apart: the hash join misses a pair the nested-loop join finds. *)
Example hash_join_misses_mixed_keys :
  executeInnerEqui identity_hash [[VInt 1]] [[VFloat (d_of_Z 1)]] 0 0 false = [] ∧
  nested_loop_join [[VInt 1]] [[VFloat (d_of_Z 1)]] 0 0 = [[VInt 1; VFloat (d_of_Z 1)]].
Proof. split; vm_compute; reflexivity. Qed.
