(* ===== verification/Lexer.v ===== *)
(** * Tokens and the lexer

    [Token] (src/parser/token.cc, include/parser/token.h) and [Lexer]
    (src/parser/lexer.cc).  A lexer is what is left of its input from [pos_]
    on, with the line and the column; [pos_--] after a character puts that
    character back.  [line_] and [column_] are unbounded here: [tokenize_bounds]
    gives the inputs on which an [int] holds them. *)

From Stdlib Require Import ZArith Lia Ascii.
From S2P Require Import Prelude CppNum.

(** ** Tokens *)

Module TokenType.
Inductive t : Type :=
  | SELECT | INSERT | UPDATE | DELETE | CREATE | DROP | ALTER | ADD | COLUMN | RENAME
  | TO | CONSTRAINT | PRIMARY | KEY | UNIQUE | BETWEEN | TABLE | VIEW | IF | FROM
  | WHERE | AND | OR | NOT | JOIN | INNER | LEFT | RIGHT | FULL | OUTER | CROSS | ON
  | GROUP | BY | HAVING | ORDER | ASC | DESC | VALUES | SET | NULL_KW | TRUE_KW
  | FALSE_KW | AS | DISTINCT | INDEX | REFERENCES | FOREIGN | CASCADE | RESTRICT
  | BEGIN | COMMIT | ROLLBACK | PREPARE | EXECUTE | DEALLOCATE | IN | EXISTS
  | DEFAULT | VACUUM | EXPLAIN | CHECK | UNION | INTERSECT | EXCEPT | ALL | OVER
  | PARTITION | RANGE | HASH | OF | FOR | WITH | MODULUS | REMAINDER | FUNCTION
  | RETURNS | RETURN | PROCEDURE | CALL | TRIGGER | BEFORE | AFTER | EACH | ROW
  | COUNT | SUM | AVG | MIN | MAX | EQUAL | NOT_EQUAL | LESS | LESS_EQUAL | GREATER
  | GREATER_EQUAL | PLUS | MINUS | MULTIPLY | DIVIDE | MODULO | LPAREN | RPAREN
  | COMMA | DOT | SEMICOLON | ASTERISK | PARAMETER | IDENTIFIER | NUMBER | STRING
  | DOLLAR_QUOTED_STRING | END_OF_INPUT | UNKNOWN.
(** The number of the enumerator. *)
Definition tag (x : t) : N :=
  match x with
  | SELECT => 0 | INSERT => 1 | UPDATE => 2 | DELETE => 3 | CREATE => 4 | DROP => 5
  | ALTER => 6 | ADD => 7 | COLUMN => 8 | RENAME => 9 | TO => 10 | CONSTRAINT => 11
  | PRIMARY => 12 | KEY => 13 | UNIQUE => 14 | BETWEEN => 15 | TABLE => 16
  | VIEW => 17 | IF => 18 | FROM => 19 | WHERE => 20 | AND => 21 | OR => 22
  | NOT => 23 | JOIN => 24 | INNER => 25 | LEFT => 26 | RIGHT => 27 | FULL => 28
  | OUTER => 29 | CROSS => 30 | ON => 31 | GROUP => 32 | BY => 33 | HAVING => 34
  | ORDER => 35 | ASC => 36 | DESC => 37 | VALUES => 38 | SET => 39 | NULL_KW => 40
  | TRUE_KW => 41 | FALSE_KW => 42 | AS => 43 | DISTINCT => 44 | INDEX => 45
  | REFERENCES => 46 | FOREIGN => 47 | CASCADE => 48 | RESTRICT => 49 | BEGIN => 50
  | COMMIT => 51 | ROLLBACK => 52 | PREPARE => 53 | EXECUTE => 54 | DEALLOCATE => 55
  | IN => 56 | EXISTS => 57 | DEFAULT => 58 | VACUUM => 59 | EXPLAIN => 60
  | CHECK => 61 | UNION => 62 | INTERSECT => 63 | EXCEPT => 64 | ALL => 65
  | OVER => 66 | PARTITION => 67 | RANGE => 68 | HASH => 69 | OF => 70 | FOR => 71
  | WITH => 72 | MODULUS => 73 | REMAINDER => 74 | FUNCTION => 75 | RETURNS => 76
  | RETURN => 77 | PROCEDURE => 78 | CALL => 79 | TRIGGER => 80 | BEFORE => 81
  | AFTER => 82 | EACH => 83 | ROW => 84 | COUNT => 85 | SUM => 86 | AVG => 87
  | MIN => 88 | MAX => 89 | EQUAL => 90 | NOT_EQUAL => 91 | LESS => 92
  | LESS_EQUAL => 93 | GREATER => 94 | GREATER_EQUAL => 95 | PLUS => 96 | MINUS => 97
  | MULTIPLY => 98 | DIVIDE => 99 | MODULO => 100 | LPAREN => 101 | RPAREN => 102
  | COMMA => 103 | DOT => 104 | SEMICOLON => 105 | ASTERISK => 106 | PARAMETER => 107
  | IDENTIFIER => 108 | NUMBER => 109 | STRING => 110 | DOLLAR_QUOTED_STRING => 111
  | END_OF_INPUT => 112 | UNKNOWN => 113
  end.
Definition all : list t := [
  SELECT; INSERT; UPDATE; DELETE; CREATE; DROP; ALTER; ADD; COLUMN; RENAME; TO;
  CONSTRAINT; PRIMARY; KEY; UNIQUE; BETWEEN; TABLE; VIEW; IF; FROM; WHERE; AND; OR;
  NOT; JOIN; INNER; LEFT; RIGHT; FULL; OUTER; CROSS; ON; GROUP; BY; HAVING; ORDER;
  ASC; DESC; VALUES; SET; NULL_KW; TRUE_KW; FALSE_KW; AS; DISTINCT; INDEX;
  REFERENCES; FOREIGN; CASCADE; RESTRICT; BEGIN; COMMIT; ROLLBACK; PREPARE; EXECUTE;
  DEALLOCATE; IN; EXISTS; DEFAULT; VACUUM; EXPLAIN; CHECK; UNION; INTERSECT; EXCEPT;
  ALL; OVER; PARTITION; RANGE; HASH; OF; FOR; WITH; MODULUS; REMAINDER; FUNCTION;
  RETURNS; RETURN; PROCEDURE; CALL; TRIGGER; BEFORE; AFTER; EACH; ROW; COUNT; SUM;
  AVG; MIN; MAX; EQUAL; NOT_EQUAL; LESS; LESS_EQUAL; GREATER; GREATER_EQUAL; PLUS;
  MINUS; MULTIPLY; DIVIDE; MODULO; LPAREN; RPAREN; COMMA; DOT; SEMICOLON; ASTERISK;
  PARAMETER; IDENTIFIER; NUMBER; STRING; DOLLAR_QUOTED_STRING; END_OF_INPUT; UNKNOWN].
Lemma tag_lookup x : all !! N.to_nat (tag x) = Some x.
Proof. by destruct x. Qed.
#[global] Instance t_eq_dec : EqDecision t.
Proof.
  refine (λ x y, cast_if (decide (tag x = tag y))); [|congruence].
  abstract (pose proof (tag_lookup x); pose proof (tag_lookup y); congruence).
Defined.
End TokenType.
Abbreviation TokenType := TokenType.t.

Record Token : Type := mkToken {
  tok_type : TokenType;
  tok_lexeme : string;
  tok_line : Z;
  tok_column : Z
}.
#[export] Instance Token_eq_dec : EqDecision Token.
Proof. solve_decision. Defined.

Section token_names.
Import TokenType.
Definition token_type_to_string (type : TokenType) : string :=
  match type with
  | SELECT => "SELECT" | INSERT => "INSERT" | UPDATE => "UPDATE" | DELETE => "DELETE"
  | CREATE => "CREATE" | DROP => "DROP" | ALTER => "ALTER" | ADD => "ADD"
  | COLUMN => "COLUMN" | RENAME => "RENAME" | TO => "TO" | CONSTRAINT => "CONSTRAINT"
  | PRIMARY => "PRIMARY" | KEY => "KEY" | UNIQUE => "UNIQUE" | BETWEEN => "BETWEEN"
  | TABLE => "TABLE" | VIEW => "VIEW" | IF => "IF" | FROM => "FROM"
  | WHERE => "WHERE" | AND => "AND" | OR => "OR" | NOT => "NOT" | JOIN => "JOIN"
  | INNER => "INNER" | LEFT => "LEFT" | RIGHT => "RIGHT" | FULL => "FULL"
  | OUTER => "OUTER" | CROSS => "CROSS" | ON => "ON" | GROUP => "GROUP" | BY => "BY"
  | HAVING => "HAVING" | ORDER => "ORDER" | ASC => "ASC" | DESC => "DESC"
  | VALUES => "VALUES" | SET => "SET" | NULL_KW => "NULL" | TRUE_KW => "TRUE"
  | FALSE_KW => "FALSE" | AS => "AS" | DISTINCT => "DISTINCT" | INDEX => "INDEX"
  | REFERENCES => "REFERENCES" | FOREIGN => "FOREIGN" | CASCADE => "CASCADE"
  | RESTRICT => "RESTRICT" | BEGIN => "BEGIN" | COMMIT => "COMMIT"
  | ROLLBACK => "ROLLBACK" | PREPARE => "PREPARE" | EXECUTE => "EXECUTE"
  | DEALLOCATE => "DEALLOCATE" | IN => "IN" | EXISTS => "EXISTS"
  | DEFAULT => "DEFAULT" | VACUUM => "VACUUM" | EXPLAIN => "EXPLAIN"
  | CHECK => "CHECK" | UNION => "UNION" | INTERSECT => "INTERSECT"
  | EXCEPT => "EXCEPT" | ALL => "ALL" | OVER => "OVER" | PARTITION => "PARTITION"
  | RANGE => "RANGE" | HASH => "HASH" | OF => "OF" | FOR => "FOR" | WITH => "WITH"
  | MODULUS => "MODULUS" | REMAINDER => "REMAINDER" | FUNCTION => "FUNCTION"
  | RETURNS => "RETURNS" | RETURN => "RETURN" | PROCEDURE => "PROCEDURE"
  | CALL => "CALL" | TRIGGER => "TRIGGER" | BEFORE => "BEFORE" | AFTER => "AFTER"
  | EACH => "EACH" | ROW => "ROW" | COUNT => "COUNT" | SUM => "SUM" | AVG => "AVG"
  | MIN => "MIN" | MAX => "MAX" | EQUAL => "=" | NOT_EQUAL => "!=" | LESS => "<"
  | LESS_EQUAL => "<=" | GREATER => ">" | GREATER_EQUAL => ">=" | PLUS => "+"
  | MINUS => "-" | MULTIPLY => "*" | DIVIDE => "/" | MODULO => "%" | LPAREN => "("
  | RPAREN => ")" | COMMA => "," | DOT => "." | SEMICOLON => ";" | ASTERISK => "*"
  | PARAMETER => "PARAMETER" | IDENTIFIER => "IDENTIFIER" | NUMBER => "NUMBER"
  | STRING => "STRING" | DOLLAR_QUOTED_STRING => "DOLLAR_QUOTED_STRING"
  | END_OF_INPUT => "EOF" | UNKNOWN => "UNKNOWN"
  end.

(** The keywords, in the order of the tests. *)
Definition keywords : list (string * TokenType) := [
  ("SELECT", SELECT); ("INSERT", INSERT); ("UPDATE", UPDATE); ("DELETE", DELETE);
  ("CREATE", CREATE); ("DROP", DROP); ("ALTER", ALTER); ("ADD", ADD);
  ("COLUMN", COLUMN); ("RENAME", RENAME); ("TO", TO); ("CONSTRAINT", CONSTRAINT);
  ("PRIMARY", PRIMARY); ("KEY", KEY); ("UNIQUE", UNIQUE); ("BETWEEN", BETWEEN);
  ("TABLE", TABLE); ("VIEW", VIEW); ("IF", IF); ("FROM", FROM); ("WHERE", WHERE);
  ("AND", AND); ("OR", OR); ("NOT", NOT); ("JOIN", JOIN); ("INNER", INNER);
  ("LEFT", LEFT); ("RIGHT", RIGHT); ("FULL", FULL); ("OUTER", OUTER);
  ("CROSS", CROSS); ("ON", ON); ("GROUP", GROUP); ("BY", BY); ("HAVING", HAVING);
  ("ORDER", ORDER); ("ASC", ASC); ("DESC", DESC); ("VALUES", VALUES); ("SET", SET);
  ("NULL", NULL_KW); ("TRUE", TRUE_KW); ("FALSE", FALSE_KW); ("AS", AS);
  ("DISTINCT", DISTINCT); ("INDEX", INDEX); ("REFERENCES", REFERENCES);
  ("FOREIGN", FOREIGN); ("CASCADE", CASCADE); ("RESTRICT", RESTRICT);
  ("BEGIN", BEGIN); ("COMMIT", COMMIT); ("ROLLBACK", ROLLBACK); ("PREPARE", PREPARE);
  ("EXECUTE", EXECUTE); ("DEALLOCATE", DEALLOCATE); ("IN", IN); ("EXISTS", EXISTS);
  ("DEFAULT", DEFAULT); ("VACUUM", VACUUM); ("EXPLAIN", EXPLAIN); ("CHECK", CHECK);
  ("UNION", UNION); ("INTERSECT", INTERSECT); ("EXCEPT", EXCEPT); ("ALL", ALL);
  ("OVER", OVER); ("PARTITION", PARTITION); ("RANGE", RANGE); ("HASH", HASH);
  ("OF", OF); ("FOR", FOR); ("WITH", WITH); ("MODULUS", MODULUS);
  ("REMAINDER", REMAINDER); ("FUNCTION", FUNCTION); ("RETURNS", RETURNS);
  ("RETURN", RETURN); ("PROCEDURE", PROCEDURE); ("CALL", CALL); ("TRIGGER", TRIGGER);
  ("BEFORE", BEFORE); ("AFTER", AFTER); ("EACH", EACH); ("ROW", ROW);
  ("COUNT", COUNT); ("SUM", SUM); ("AVG", AVG); ("MIN", MIN); ("MAX", MAX)]%string.
End token_names.

Definition token_to_string (t : Token) : string :=
  token_type_to_string (tok_type t) +:+ " '" +:+ tok_lexeme t +:+ "'".

Fixpoint assoc_find {A} (key : string) (l : list (string * A)) : option A :=
  match l with
  | [] => None
  | (k, a) :: l => if bool_decide (key = k) then Some a else assoc_find key l
  end.

Definition get_keyword_token_type (keyword : string) : TokenType :=
  default TokenType.IDENTIFIER (assoc_find (str_upper keyword) keywords).

(** ** The lexer *)

Abbreviation chars := (list Ascii.ascii).

Record lexer : Type := mkLexer {
  lx_rest : chars;
  lx_line : Z;
  lx_column : Z
}.

Definition nul : Ascii.ascii := "000"%char.
Definition newline : Ascii.ascii := "010"%char.
Definition backslash : Ascii.ascii := "\"%char.
Definition squote : Ascii.ascii := "'"%char.
Definition dquote : Ascii.ascii := "034"%char.

Definition is_at_end (s : lexer) : bool := match lx_rest s with [] => true | _ => false end.
Definition peek_char (offset : nat) (s : lexer) : Ascii.ascii :=
  default nul (lx_rest s !! offset).
Definition current_char (s : lexer) : Ascii.ascii := peek_char 0 s.

Definition is_alpha (c : Ascii.ascii) : bool :=
  is_lower c || is_upper c || Ascii.eqb c "_".
Definition is_alpha_numeric (c : Ascii.ascii) : bool := is_alpha c || is_digit c.

(** The line and the column after a character. *)
Definition step_pos (c : Ascii.ascii) (line column : Z) : Z * Z :=
  if Ascii.eqb c newline then (line + 1, 1) else (line, column + 1).

Definition advance (s : lexer) : lexer :=
  match lx_rest s with
  | [] => s
  | c :: rest =>
      let '(line, column) := step_pos c (lx_line s) (lx_column s) in
      mkLexer rest line column
  end.

(** [pos_--] over the character [c] just read. *)
Definition back_up (c : Ascii.ascii) (s : lexer) : lexer :=
  mkLexer (c :: lx_rest s) (lx_line s) (lx_column s).

Definition make_token (type : TokenType) (lexeme : string) (s : lexer) : Token :=
  mkToken type lexeme (lx_line s) (lx_column s - Z.of_nat (String.length lexeme)).

(** [while (!is_at_end() && p(current_char())) { acc += current_char(); advance(); }] *)
Fixpoint take_while (p : Ascii.ascii → bool) (rest : chars) (line column : Z)
    : string * lexer :=
  match rest with
  | c :: rest' =>
      if p c then
        let '(line', column') := step_pos c line column in
        let '(w, s) := take_while p rest' line' column' in
        (String c w, s)
      else (EmptyString, mkLexer rest line column)
  | [] => (EmptyString, mkLexer [] line column)
  end.
Definition scan_while (p : Ascii.ascii → bool) (s : lexer) : string * lexer :=
  take_while p (lx_rest s) (lx_line s) (lx_column s).

(** [std::isspace] is called with a plain [char]: undefined for a negative one. *)
Fixpoint skip_space_from (rest : chars) (line column : Z) : res lexer :=
  match rest with
  | c :: rest' =>
      if 127 <? char_code c then UB
      else if is_space c then
        let '(line', column') := step_pos c line column in
        skip_space_from rest' line' column'
      else Ok (mkLexer rest line column)
  | [] => Ok (mkLexer [] line column)
  end.
Definition skip_whitespace (s : lexer) : res lexer :=
  skip_space_from (lx_rest s) (lx_line s) (lx_column s).

Definition skip_comment (s : lexer) : lexer :=
  snd (scan_while (λ c, negb (Ascii.eqb c newline)) s).

(** What a backslash and [c] stand for in a string. *)
Definition unescape (c : Ascii.ascii) : Ascii.ascii :=
  if Ascii.eqb c "n" then newline
  else if Ascii.eqb c "t" then "009"%char
  else if Ascii.eqb c "r" then "013"%char
  else c.

Definition prepend (c : Ascii.ascii) (r : string * lexer) : string * lexer :=
  (String c (fst r), snd r).

(** The loop of [scan_string]: a newline counts once by itself and once more
    in [advance]. *)
Fixpoint string_body (quote : Ascii.ascii) (rest : chars) (line column : Z)
    : string * lexer :=
  match rest with
  | [] => (EmptyString, mkLexer [] line column)
  | c :: rest1 =>
      if Ascii.eqb c quote then
        let '(line1, column1) := step_pos c line column in
        match rest1 with
        | c2 :: rest2 =>
            if Ascii.eqb c2 quote then
              let '(line2, column2) := step_pos c2 line1 column1 in
              prepend quote (string_body quote rest2 line2 column2)
            else (EmptyString, mkLexer rest1 line1 column1)
        | [] => (EmptyString, mkLexer [] line1 column1)
        end
      else if Ascii.eqb c backslash then
        let '(line1, column1) := step_pos c line column in
        match rest1 with
        | c2 :: rest2 =>
            let '(line2, column2) := step_pos c2 line1 column1 in
            prepend (unescape c2) (string_body quote rest2 line2 column2)
        | [] => (EmptyString, mkLexer [] line1 column1)
        end
      else
        let '(line0, column0) :=
          if Ascii.eqb c newline then (line + 1, 0) else (line, column) in
        let '(line1, column1) := step_pos c line0 column0 in
        prepend c (string_body quote rest1 line1 column1)
  end.

Definition scan_string (quote : Ascii.ascii) (s : lexer) : Token * lexer :=
  let '(v, s') := string_body quote (lx_rest s) (lx_line s) (lx_column s) in
  (mkToken TokenType.STRING v (lx_line s) (lx_column s), s').

(** One character taken into the token when the test holds. *)
Definition scan_if (p : bool) (s : lexer) : string * lexer :=
  if p then (String (current_char s) EmptyString, advance s) else (EmptyString, s).

Definition scan_number (s : lexer) : Token * lexer :=
  let '(n1, s1) := scan_while is_digit s in
  let '(n2, s2) :=
    if negb (is_at_end s1) && Ascii.eqb (current_char s1) "." && is_digit (peek_char 1 s1)
    then
      let '(d, s1') := scan_while is_digit (advance s1) in
      (String (current_char s1) d, s1')
    else (EmptyString, s1) in
  let '(n3, s3) :=
    if negb (is_at_end s2)
       && (Ascii.eqb (current_char s2) "e" || Ascii.eqb (current_char s2) "E")
    then
      let s2a := advance s2 in
      let '(sg, s2b) :=
        scan_if (negb (is_at_end s2a)
                 && (Ascii.eqb (current_char s2a) "+" || Ascii.eqb (current_char s2a) "-")) s2a in
      let '(d, s2c) := scan_while is_digit s2b in
      (String (current_char s2) (sg +:+ d), s2c)
    else (EmptyString, s2) in
  (mkToken TokenType.NUMBER (n1 +:+ n2 +:+ n3) (lx_line s3) (lx_column s), s3).

Definition scan_identifier (s : lexer) : Token * lexer :=
  let '(w, s') := scan_while is_alpha_numeric s in
  (mkToken (get_keyword_token_type w) w (lx_line s') (lx_column s), s').

(** The body of [$$ ... $$]; [None] when the input ends first. *)
Fixpoint dollar_body (rest : chars) (line column : Z) : option (string * lexer) :=
  match rest with
  | [] => None
  | c :: rest1 =>
      let plain (_ : unit) :=
        let '(line0, column0) :=
          if Ascii.eqb c newline then (line + 1, 0) else (line, column) in
        let '(line1, column1) := step_pos c line0 column0 in
        prepend c <$> dollar_body rest1 line1 column1 in
      if Ascii.eqb c "$" then
        let '(line1, column1) := step_pos c line column in
        match rest1 with
        | c2 :: rest2 =>
            if Ascii.eqb c2 "$" then
              let '(line2, column2) := step_pos c2 line1 column1 in
              Some (EmptyString, mkLexer rest2 line2 column2)
            else plain ()
        | [] => plain ()
        end
      else plain ()
  end.

Definition unclosed_dollar (line : Z) : exn :=
  ParseException ("Unclosed dollar-quoted string starting at line " +:+ std_to_string line).

Definition scan_dollar (s : lexer) : res (Token * lexer) :=
  if negb (is_at_end s) && Ascii.eqb (current_char s) "$" then
    let s1 := advance s in
    match dollar_body (lx_rest s1) (lx_line s1) (lx_column s1) with
    | Some (v, s2) =>
        Ok (mkToken TokenType.DOLLAR_QUOTED_STRING v (lx_line s1) (lx_column s1 - 2), s2)
    | None => Throw (unclosed_dollar (lx_line s1))
    end
  else if negb (is_digit (current_char s)) then
    Ok (mkToken TokenType.UNKNOWN "$" (lx_line s) (lx_column s), s)
  else
    let '(d, s1) := scan_while is_digit s in
    Ok (mkToken TokenType.PARAMETER (String "$" d) (lx_line s1) (lx_column s - 1), s1).

Definition unknown_token (c : Ascii.ascii) (s : lexer) : Token :=
  mkToken TokenType.UNKNOWN (String c EmptyString) (lx_line s) (lx_column s).

(** The [switch] over the operators and delimiters; [s] is past [c]. *)
Definition scan_operator (c : Ascii.ascii) (s : lexer) : res (Token * lexer) :=
  let one type := Ok (make_token type (String c EmptyString) s, s) in
  let two type :=
    let s' := advance s in
    Ok (make_token type (String c (String (current_char s) EmptyString)) s', s') in
  if Ascii.eqb c "=" then one TokenType.EQUAL
  else if Ascii.eqb c "<" then
    if Ascii.eqb (current_char s) "=" then two TokenType.LESS_EQUAL
    else if Ascii.eqb (current_char s) ">" then two TokenType.NOT_EQUAL
    else one TokenType.LESS
  else if Ascii.eqb c ">" then
    if Ascii.eqb (current_char s) "=" then two TokenType.GREATER_EQUAL
    else one TokenType.GREATER
  else if Ascii.eqb c "!" then
    if Ascii.eqb (current_char s) "=" then two TokenType.NOT_EQUAL
    else Ok (unknown_token c s, s)
  else if Ascii.eqb c "+" then one TokenType.PLUS
  else if Ascii.eqb c "-" then one TokenType.MINUS
  else if Ascii.eqb c "*" then one TokenType.ASTERISK
  else if Ascii.eqb c "/" then one TokenType.DIVIDE
  else if Ascii.eqb c "%" then one TokenType.MODULO
  else if Ascii.eqb c "(" then one TokenType.LPAREN
  else if Ascii.eqb c ")" then one TokenType.RPAREN
  else if Ascii.eqb c "," then one TokenType.COMMA
  else if Ascii.eqb c "." then one TokenType.DOT
  else if Ascii.eqb c ";" then one TokenType.SEMICOLON
  else if Ascii.eqb c "?" then one TokenType.PARAMETER
  else if Ascii.eqb c "$" then scan_dollar s
  else Ok (unknown_token c s, s).

Definition scan_token (s0 : lexer) : res (Token * lexer) :=
  let c := current_char s0 in
  let s := advance s0 in
  if Ascii.eqb c squote || Ascii.eqb c dquote then Ok (scan_string c s)
  else if is_digit c then Ok (scan_number (back_up c s))
  else if is_alpha c || Ascii.eqb c "_" then Ok (scan_identifier (back_up c s))
  else scan_operator c s.

(** The loop of [tokenize]; running out of fuel would be a loop that does
    not end. *)
Fixpoint tokenize_loop (fuel : nat) (s : lexer) (tokens : list Token)
    : res (list Token * lexer) :=
  match fuel with
  | O => UB
  | S fuel =>
      if is_at_end s then Ok (tokens, s)
      else
        s1 ← skip_whitespace s;
        if is_at_end s1 then Ok (tokens, s1)
        else if Ascii.eqb (current_char s1) "-" && Ascii.eqb (peek_char 1 s1) "-"
        then tokenize_loop fuel (skip_comment s1) tokens
        else
          '(token, s2) ← scan_token s1;
          tokenize_loop fuel s2
            (if bool_decide (tok_type token ≠ TokenType.UNKNOWN)
                || bool_decide (tok_lexeme token ≠ EmptyString)
             then tokens ++ [token] else tokens)
  end.

Definition new_lexer (input : chars) : lexer := mkLexer input 1 1.

Definition tokenize (input : string) : res (list Token) :=
  let l := String.list_ascii_of_string input in
  '(tokens, s) ← tokenize_loop (S (length l)) (new_lexer l) [];
  Ok (tokens ++ [mkToken TokenType.END_OF_INPUT EmptyString (lx_line s) (lx_column s)]).

Definition types_and_lexemes (ts : list Token) : list (TokenType * string) :=
  (λ t, (tok_type t, tok_lexeme t)) <$> ts.


Lemma shorter_ind (P : chars → Prop) :
  (∀ l, (∀ l', (length l' < length l)%nat → P l') → P l) → ∀ l, P l.
Proof.
  intros H l. remember (length l) as n eqn:Hn. revert l Hn.
  induction n as [n IH] using lt_wf_ind. intros l ->. apply H. intros l' Hl'. by eapply IH.
Qed.

(** ** Progress and positions *)

Lemma take_while_shorter p rest line column :
  (length (lx_rest (snd (take_while p rest line column))) ≤ length rest)%nat.
Proof.
  revert line column. induction rest as [|c rest IH]; intros line column; cbn [take_while]; [done|].
  destruct (p c); [|done]. destruct (step_pos c line column) as [line' column'].
  specialize (IH line' column'). destruct (take_while p rest line' column'). cbn in *. lia.
Qed.

Section positions.
(** What is known of the characters of the input. *)
Context (P : Ascii.ascii → Prop).

(** Twice the characters read bound the line and the column: a newline in a
    string counts twice for the line, and a character that is put back twice
    for the column. *)
Record lex_inv (B : Z) (n : nat) (s : lexer) : Prop := {
  inv_len : (length (lx_rest s) ≤ n)%nat;
  inv_line : 1 ≤ lx_line s ≤ B - 2 * Z.of_nat (length (lx_rest s));
  inv_column : 1 ≤ lx_column s ≤ B - 2 * Z.of_nat (length (lx_rest s));
  inv_chars : Forall P (lx_rest s)
}.

Definition tok_inv (B : Z) (t : Token) : Prop :=
  1 ≤ tok_line t ≤ B ∧ 1 ≤ tok_column t ≤ B.

Ltac lex_solve :=
  repeat match goal with
  | H : lex_inv _ _ _ |- _ => destruct H as [? [? ?] [? ?] ?]
  end;
  cbn [lx_rest lx_line lx_column length tok_line tok_column tok_type tok_lexeme fst snd
    unknown_token] in *;
  repeat match goal with
  | H : Forall _ (_ :: _) |- _ => apply Forall_cons_iff in H as [? ?]
  | |- lex_inv _ _ _ => split
  | |- _ ∧ _ => split
  | |- _ ≤ _ < _ => split
  end;
  cbn [lx_rest lx_line lx_column length tok_line tok_column tok_type tok_lexeme fst snd
    unknown_token] in *; try lia; try done.

Lemma step_pos_inv B n c rest line column :
  lex_inv B n (mkLexer (c :: rest) line column) →
  let '(line', column') := step_pos c line column in
  lex_inv B (length rest) (mkLexer rest line' column').
Proof. unfold step_pos. intros H. destruct (Ascii.eqb c newline); lex_solve. Qed.

Lemma lex_inv_weaken B n m s : lex_inv B n s → (n ≤ m)%nat → lex_inv B m s.
Proof. intros [] ?. split; auto. lia. Qed.

Lemma take_while_inv B p rest : ∀ n line column,
  lex_inv B n (mkLexer rest line column) →
  lex_inv B n (snd (take_while p rest line column)).
Proof.
  induction rest as [|c rest IH]; intros n line column H; cbn [take_while]; [done|].
  destruct (p c); [|done].
  pose proof (step_pos_inv _ _ _ _ _ _ H) as H'.
  destruct (step_pos c line column) as [line' column'].
  specialize (IH _ _ _ H'). destruct (take_while p rest line' column') as [w s].
  eapply lex_inv_weaken; [done|]. destruct H as [H _ _ _]; cbn in H; lia.
Qed.

Lemma scan_while_inv B n p s : lex_inv B n s → lex_inv B n (snd (scan_while p s)).
Proof. destruct s. apply take_while_inv. Qed.

Lemma advance_inv B n s : lex_inv B n s → lex_inv B n (advance s).
Proof.
  destruct s as [[|c rest] line column]; [done|]. intros H.
  pose proof (step_pos_inv _ _ _ _ _ _ H) as H'. unfold advance; cbn [lx_rest lx_line lx_column].
  destruct (step_pos c line column). eapply lex_inv_weaken; [done|].
  destruct H as [H _ _ _]; cbn in H; lia.
Qed.

(** The newline of a string or of a dollar-quoted body: two lines. *)
Lemma body_pos_inv B n c rest line column :
  lex_inv B n (mkLexer (c :: rest) line column) →
  let '(line0, column0) := if Ascii.eqb c newline then (line + 1, 0) else (line, column) in
  let '(line1, column1) := step_pos c line0 column0 in
  lex_inv B (length rest) (mkLexer rest line1 column1).
Proof. unfold step_pos. intros H. destruct (Ascii.eqb c newline); lex_solve. Qed.

(** Splits a position step whose invariant is known. *)
Ltac step_inv H :=
  let H' := fresh "Hs" in
  pose proof (step_pos_inv _ _ _ _ _ _ H) as H';
  match type of H' with
  | match step_pos ?c ?l ?k with _ => _ end => destruct (step_pos c l k) as [? ?]
  end.
Ltac weaken_inv :=
  eapply lex_inv_weaken; [eassumption|];
  repeat match goal with H : lex_inv _ _ _ |- _ => destruct H as [H _ _ _]; cbn in H end; cbn; lia.

Lemma string_body_inv B q rest : ∀ n line column,
  lex_inv B n (mkLexer rest line column) →
  lex_inv B n (snd (string_body q rest line column)).
Proof.
  induction rest as [[|c rest1] IH] using shorter_ind; intros n line column H; [done|].
  cbn [string_body]. destruct (Ascii.eqb c q); [|destruct (Ascii.eqb c backslash)].
  - step_inv H. destruct rest1 as [|c2 rest2]; [weaken_inv|].
    destruct (Ascii.eqb c2 q); [|weaken_inv]. step_inv Hs.
    eapply lex_inv_weaken; [apply IH; [cbn; lia|done]|]. destruct H as [H _ _ _]; cbn in H; lia.
  - step_inv H. destruct rest1 as [|c2 rest2]; [weaken_inv|]. step_inv Hs.
    eapply lex_inv_weaken; [apply IH; [cbn; lia|done]|]. destruct H as [H _ _ _]; cbn in H; lia.
  - pose proof (body_pos_inv _ _ _ _ _ _ H) as H'.
    destruct (if Ascii.eqb c newline then _ else _) as [line0 column0].
    destruct (step_pos c line0 column0) as [line1 column1].
    eapply lex_inv_weaken; [apply IH; [cbn; lia|done]|]. destruct H as [H _ _ _]; cbn in H; lia.
Qed.

Lemma dollar_body_inv B rest : ∀ n line column v s,
  lex_inv B n (mkLexer rest line column) →
  dollar_body rest line column = Some (v, s) → lex_inv B n s.
Proof.
  induction rest as [|c rest1 IH]; intros n line column v s H; cbn [dollar_body]; [done|].
  pose proof (body_pos_inv _ _ _ _ _ _ H) as H'.
  destruct (if Ascii.eqb c newline then _ else _) as [line0 column0].
  destruct (step_pos c line0 column0) as [line1 column1].
  assert (Hplain : prepend c <$> dollar_body rest1 line1 column1 = Some (v, s) →
    lex_inv B n s).
  { intros ([v' s'] & Hb & [= -> ->])%fmap_Some.
    eapply lex_inv_weaken; [by eapply IH|]. destruct H as [H _ _ _]; cbn in H; lia. }
  destruct (Ascii.eqb c "$"); [|done]. step_inv H.
  destruct rest1 as [|c2 rest2]; [done|]. destruct (Ascii.eqb c2 "$"); [|done].
  step_inv Hs. intros [= <- <-]. weaken_inv.
Qed.

(** A character that is put back is read again by the scan that follows. *)
Lemma back_up_while_inv B p c rest line column :
  lex_inv B (S (length rest)) (mkLexer (c :: rest) line column) →
  p c = true → c ≠ newline →
  lex_inv B (length rest) (snd (scan_while p (back_up c (advance (mkLexer (c :: rest) line column))))).
Proof.
  intros H Hp Hc%Ascii.eqb_neq. unfold advance, step_pos, scan_while, back_up.
  cbn [lx_rest lx_line lx_column]. rewrite Hc.
  cbn [lx_rest lx_line lx_column take_while]. rewrite Hp. unfold step_pos. rewrite Hc.
  match goal with |- context [take_while p rest ?l ?k] =>
    pose proof (take_while_inv B p rest (length rest) l k) as Hw;
    destruct (take_while p rest l k) as [w s'] end.
  apply Hw. lex_solve.
Qed.

Lemma scan_if_inv B n p s : lex_inv B n s → lex_inv B n (snd (scan_if p s)).
Proof. unfold scan_if. destruct p; cbn [snd]; auto using advance_inv. Qed.

(** Past its first digit, [scan_number] only reads on. *)
Lemma scan_number_inv B n s :
  lex_inv B n (snd (scan_while is_digit s)) →
  lex_inv B n (snd (scan_number s)) ∧
  tok_line (fst (scan_number s)) = lx_line (snd (scan_number s)) ∧
  tok_column (fst (scan_number s)) = lx_column s.
Proof.
  intros H. unfold scan_number. destruct (scan_while is_digit s) as [n1 s1]. cbn [snd] in H.
  match goal with |- context [let '(_, _) := ?m in _] =>
    assert (H2 : lex_inv B n (snd m)); [|destruct m as [n2 s2]; cbn [snd] in H2] end.
  { case_match; [|done]. pose proof (scan_while_inv B n is_digit (advance s1)) as Hw.
    destruct (scan_while is_digit (advance s1)). auto using advance_inv. }
  match goal with |- context [let '(_, _) := ?m in _] =>
    assert (H3 : lex_inv B n (snd m)); [|by destruct m as [n3 s3]] end.
  case_match; [|done]. cbn zeta.
  match goal with |- context [scan_if ?b ?t] =>
    pose proof (scan_if_inv B n b t) as Hi; destruct (scan_if b t) as [sg s2b] end.
  pose proof (scan_while_inv B n is_digit s2b) as Hw.
  destruct (scan_while is_digit s2b). auto using advance_inv.
Qed.

Lemma digit_not_newline c : is_digit c = true → c ≠ newline.
Proof. by intros ? ->. Qed.
Lemma alpha_not_newline c : is_alpha c || Ascii.eqb c "_" = true → c ≠ newline.
Proof. by intros ? ->. Qed.

(** One token: at least one character is read, the positions stay in range,
    and the exception is the one of an unclosed dollar quote. *)
Definition scan_post (B : Z) (n : nat) (r : res (Token * lexer)) : Prop :=
  match r with
  | Ok (t, s) => lex_inv B n s ∧ tok_inv B t ∧ tok_type t ≠ TokenType.END_OF_INPUT
                 ∧ (tok_type t ≠ TokenType.UNKNOWN ∨ tok_lexeme t ≠ EmptyString)
  | Throw e => ∃ line, e = unclosed_dollar line
  | UB => False
  end.

Lemma keyword_types w :
  get_keyword_token_type w ≠ TokenType.END_OF_INPUT ∧
  get_keyword_token_type w ≠ TokenType.UNKNOWN ∧ get_keyword_token_type w ≠ TokenType.STRING ∧
  get_keyword_token_type w ≠ TokenType.DOLLAR_QUOTED_STRING.
Proof.
  unfold get_keyword_token_type. generalize (str_upper w) as u. intros u.
  assert (Hk : Forall (λ e, e.2 ≠ TokenType.END_OF_INPUT ∧ e.2 ≠ TokenType.UNKNOWN
      ∧ e.2 ≠ TokenType.STRING ∧ e.2 ≠ TokenType.DOLLAR_QUOTED_STRING) keywords)
    by (apply (bool_decide_unpack _); vm_compute; done).
  induction Hk as [|[k a] l Ha _ IH]; cbn [assoc_find]; [done|]. by case_bool_decide.
Qed.

Ltac type_solve := cbn [tok_type tok_lexeme]; split; [done | first [left; done | right; done]].

Lemma scan_dollar_post B s :
  lex_inv B (length (lx_rest s)) s →
  2 ≤ lx_column s → scan_post B (length (lx_rest s)) (scan_dollar s).
Proof.
  intros H Hc. unfold scan_dollar.
  destruct (negb _ && _) eqn:E1.
  { destruct s as [[|c rest] l k]; [done|]. cbn in E1.
    apply Ascii.eqb_eq in E1 as ->. cbn [advance lx_rest lx_line lx_column step_pos].
    change (step_pos "$" l k) with (l, k + 1). cbn [lx_rest lx_line lx_column].
    destruct (dollar_body rest l (k + 1)) as [[v s2]|] eqn:Ed; cbn [scan_post]; [|eauto].
    split; [eapply dollar_body_inv; [|done]; lex_solve|]. split; [|type_solve].
    unfold tok_inv. lex_solve. }
  destruct (negb (is_digit (current_char s))).
  { cbn [scan_post]. split; [done|]. split; [|type_solve]. unfold tok_inv. lex_solve. }
  pose proof (scan_while_inv B _ is_digit s H) as Hw.
  destruct (scan_while is_digit s) as [d s1]. cbn [snd scan_post] in *.
  split; [done|]. split; [|type_solve]. unfold tok_inv. lex_solve.
Qed.

Lemma scan_operator_post B c s :
  lex_inv B (length (lx_rest s)) s → 2 ≤ lx_column s →
  scan_post B (length (lx_rest s)) (scan_operator c s).
Proof.
  intros H Hc. pose proof (advance_inv _ _ _ H) as Ha.
  assert (Hone : ∀ ty, ty ≠ TokenType.END_OF_INPUT → ty ≠ TokenType.UNKNOWN →
    scan_post B (length (lx_rest s)) (Ok (make_token ty (String c EmptyString) s, s))).
  { intros ty ? ?. cbn [scan_post]. split; [done|]. split; [|type_solve].
    unfold tok_inv, make_token. cbn [String.length]. lex_solve. }
  assert (Htwo : ∀ ty, ty ≠ TokenType.END_OF_INPUT → ty ≠ TokenType.UNKNOWN →
    current_char s ≠ nul → current_char s ≠ newline →
    scan_post B (length (lx_rest s)) (Ok (make_token ty
      (String c (String (current_char s) EmptyString)) (advance s), advance s))).
  { intros ty ? ? Hnul Hnl. cbn [scan_post]. split; [done|]. split; [|type_solve].
    unfold tok_inv, make_token. cbn [String.length].
    destruct s as [[|x rest] l k]; [done|]. revert Ha Hnl.
    unfold advance, step_pos, current_char, peek_char. cbn [lx_rest lx_line lx_column].
    change (default nul ((x :: rest) !! 0%nat)) with x. intros Ha Hnl%Ascii.eqb_neq.
    revert Ha. rewrite Hnl. lex_solve. }
  assert (Hunk : scan_post B (length (lx_rest s)) (Ok (unknown_token c s, s))).
  { cbn [scan_post]. split; [done|]. split; [|type_solve]. unfold tok_inv. lex_solve. }
  unfold scan_operator.
  repeat match goal with
  | |- context [if Ascii.eqb (current_char s) ?x then _ else _] =>
      destruct (Ascii.eqb_spec (current_char s) x) as [E|]; [apply Htwo; rewrite ?E; done|]
  | |- context [if Ascii.eqb c ?x then _ else _] => destruct (Ascii.eqb c x)
  | |- _ => first [done | by apply Hone | by apply scan_dollar_post]
  end.
Qed.

Lemma scan_token_post B s :
  lex_inv B (length (lx_rest s)) s → lx_rest s ≠ [] →
  scan_post B (length (lx_rest s) - 1) (scan_token s).
Proof.
  destruct s as [[|c rest] l k]; [done|]. intros H _. unfold scan_token.
  change (current_char _) with c. cbn [lx_rest length]. rewrite Nat.sub_1_r, Nat.pred_succ.
  set (s0 := mkLexer (c :: rest) l k) in *.
  assert (Hs0 : lex_inv B (length rest) (advance s0)).
  { subst s0. pose proof (step_pos_inv _ _ _ _ _ _ H) as Hs.
    unfold advance. cbn [lx_rest lx_line lx_column]. by destruct (step_pos c l k). }
  assert (Hrest : lx_rest (advance s0) = rest).
  { subst s0. unfold advance. cbn [lx_rest lx_line lx_column]. by destruct (step_pos c l k). }
  assert (Hcol : c ≠ newline → lx_column (advance s0) = k + 1).
  { intros Hc%Ascii.eqb_neq. subst s0. unfold advance, step_pos. cbn. by rewrite Hc. }
  destruct (Ascii.eqb c squote || Ascii.eqb c dquote) eqn:Eq.
  { cbn [scan_post]. unfold scan_string.
    destruct (advance s0) as [r1 l1 k1] eqn:Ea; cbn [lx_rest lx_line lx_column] in *.
    pose proof (string_body_inv B c r1 _ _ _ Hs0) as Hb.
    destruct (string_body c r1 l1 k1) as [v s']. split; [done|]. split; [|type_solve].
    unfold tok_inv. lex_solve. }
  destruct (is_digit c) eqn:Ed.
  { assert (Hc := digit_not_newline _ Ed). specialize (Hcol Hc).
    pose proof (back_up_while_inv B is_digit c rest l k H Ed Hc) as Hw. fold s0 in Hw.
    pose proof (scan_number_inv B _ _ Hw) as (Hn & Hl & Hk).
    assert (Hty : tok_type (fst (scan_number (back_up c (advance s0)))) = TokenType.NUMBER).
    { unfold scan_number. by repeat case_match. }
    cbn [scan_post]. destruct (scan_number _) as [t s'].
    split; [done|]. cbn [fst snd] in *. split; [|rewrite Hty; type_solve].
    unfold tok_inv. rewrite Hl, Hk. cbn [back_up lx_column]. rewrite Hcol. lex_solve. }
  destruct (is_alpha c || Ascii.eqb c "_") eqn:El.
  { assert (Hc := alpha_not_newline _ El). specialize (Hcol Hc).
    assert (Han : is_alpha_numeric c = true).
    { unfold is_alpha_numeric. apply orb_true_iff in El as [->| ->%Ascii.eqb_eq]; done. }
    pose proof (back_up_while_inv B is_alpha_numeric c rest l k H Han Hc) as Hw. fold s0 in Hw.
    cbn [scan_post]. unfold scan_identifier. destruct (scan_while _ _) as [w s'].
    cbn [fst snd] in *. split; [done|].
    split; [|split; [apply keyword_types|left; apply keyword_types]].
    unfold tok_inv. cbn [tok_line tok_column back_up lx_column]. rewrite Hcol. lex_solve. }
  rewrite <- Hrest. destruct (decide (c = newline)) as [->|Hc].
  - cbn [scan_post]. rewrite Hrest. split; [done|]. split; [|type_solve].
    unfold tok_inv, unknown_token. lex_solve.
  - apply scan_operator_post; [by rewrite Hrest|]. rewrite Hcol by done.
    destruct H as [_ _ [Hk _] _]. cbn in Hk. lia.
Qed.

Lemma skip_space_from_post B rest : ∀ n line column,
  lex_inv B n (mkLexer rest line column) →
  match skip_space_from rest line column with
  | Ok s => lex_inv B n s
  | Throw _ => False
  | UB => Exists (λ c, 127 < char_code c) rest
  end.
Proof.
  induction rest as [|c rest IH]; intros n line column H; cbn [skip_space_from]; [done|].
  destruct (127 <? char_code c) eqn:E; [left; lia|].
  destruct (is_space c); [|done]. step_inv H.
  specialize (IH _ _ _ Hs). destruct (skip_space_from rest _ _) as [s| |]; [|done|by right].
  weaken_inv.
Qed.

Lemma skip_comment_inv B n s : lex_inv B n s → lex_inv B n (skip_comment s).
Proof. apply scan_while_inv. Qed.

Lemma skip_comment_shorter s :
  current_char s ≠ newline → (1 ≤ length (lx_rest s))%nat →
  (length (lx_rest (skip_comment s)) < length (lx_rest s))%nat.
Proof.
  destruct s as [[|c rest] l k]; [cbn; lia|]. change (current_char _) with c.
  intros Hc%Ascii.eqb_neq _. unfold skip_comment, scan_while. cbn [lx_rest lx_line lx_column take_while].
  rewrite Hc. cbn [negb]. destruct (step_pos c l k) as [l' k'].
  match goal with |- context [take_while ?p rest l' k'] =>
    pose proof (take_while_shorter p rest l' k'); destruct (take_while p rest l' k') end.
  cbn [lx_rest snd length] in *. lia.
Qed.

(** What a dollar-quoted token holds is a part of the input without the four
    dollar signs around it. *)
Definition quoted_inv (B : Z) (t : Token) : Prop :=
  tok_type t = TokenType.DOLLAR_QUOTED_STRING →
  Forall P (String.list_ascii_of_string (tok_lexeme t))
  ∧ 2 * Z.of_nat (String.length (tok_lexeme t)) < B - 1.

Lemma dollar_body_part rest : ∀ line column v s,
  Forall P rest → dollar_body rest line column = Some (v, s) →
  Forall P (String.list_ascii_of_string v) ∧ (String.length v ≤ length rest)%nat.
Proof.
  induction rest as [|c rest IH]; intros line column v s HP; cbn [dollar_body]; [done|].
  apply Forall_cons_iff in HP as [Hc HP].
  destruct (if Ascii.eqb c newline then _ else _) as [l0 k0]. destruct (step_pos c l0 k0) as [l1 k1].
  assert (Hplain : prepend c <$> dollar_body rest l1 k1 = Some (v, s) →
    Forall P (String.list_ascii_of_string v) ∧ (String.length v ≤ length (c :: rest))%nat).
  { destruct (dollar_body rest l1 k1) as [[v' s']|] eqn:E; cbn; [|done]. intros [= <- <-].
    destruct (IH _ _ _ _ HP E) as [Hv Hl]. cbn. split; [by constructor|lia]. }
  destruct (Ascii.eqb c "$"); [|done]. destruct (step_pos c line column) as [l2 k2].
  destruct rest as [|c2 rest2]; [done|]. destruct (Ascii.eqb c2 "$"); [|done].
  destruct (step_pos c2 l2 k2). intros [= <- <-]. cbn. split; [constructor|lia].
Qed.

Lemma scan_token_quoted B n s t s' :
  lex_inv B n s → scan_token s = Ok (t, s') → quoted_inv B t.
Proof.
  intros H E Hty. destruct s as [[|c rest] l k].
  { by revert E; cbv; intros [= <- <-]. }
  unfold scan_token in E. change (current_char _) with c in E.
  unfold advance in E. cbn [lx_rest lx_line lx_column] in E. destruct (step_pos c l k) as [l1 k1].
  destruct (Ascii.eqb c squote || _).
  { unfold scan_string in E. cbn [lx_rest lx_line lx_column] in E.
    destruct (string_body c rest l1 k1). by simplify_eq. }
  destruct (is_digit c).
  { unfold scan_number in E. repeat case_match; by simplify_eq. }
  destruct (is_alpha c || _).
  { unfold scan_identifier in E. destruct (scan_while _ _) as [w ?]. simplify_eq.
    cbn [tok_type] in Hty. by apply keyword_types in Hty. }
  unfold scan_operator in E. cbn zeta in E.
  repeat match type of E with
  | (if _ then _ else _) = _ => case_match; [try (unfold make_token in E; by simplify_eq)|]
  end; try (unfold unknown_token in E; by simplify_eq).
  unfold scan_dollar in E. case_match; [|case_match].
  - destruct rest as [|c1 rest]; [done|]. unfold advance in E. cbn [lx_rest lx_line lx_column] in E.
    destruct (step_pos c1 l1 k1) as [l2 k2]. cbn [lx_rest lx_line lx_column] in E.
    destruct (dollar_body rest l2 k2) as [[v s2]|] eqn:Ed; [|done]. simplify_eq.
    destruct H as [_ [? ?] _ HP]. cbn [lx_rest lx_line length] in *.
    apply Forall_cons_iff in HP as [_ HP]. apply Forall_cons_iff in HP as [_ HP].
    apply dollar_body_part in Ed as [Hv Hl]; [|done]. cbn [tok_lexeme]. split; [done|lia].
  - by simplify_eq.
  - destruct (scan_while _ _). by simplify_eq.
Qed.

Definition loop_post (B : Z) (n : nat) (r : res (list Token * lexer)) : Prop :=
  match r with
  | Ok (ts, s) => lex_inv B n s ∧ Forall (λ t, tok_inv B t ∧ tok_type t ≠ TokenType.END_OF_INPUT ∧ quoted_inv B t) ts
  | Throw e => ∃ line, e = unclosed_dollar line
  | UB => ∃ c, P c ∧ 127 < char_code c
  end.

(** The fuel is enough, since every iteration reads a character. *)
Lemma tokenize_loop_post B fuel : ∀ n s tokens,
  lex_inv B n s → (length (lx_rest s) < fuel)%nat →
  Forall (λ t, tok_inv B t ∧ tok_type t ≠ TokenType.END_OF_INPUT ∧ quoted_inv B t) tokens →
  loop_post B n (tokenize_loop fuel s tokens).
Proof.
  induction fuel as [|fuel IH]; intros n s tokens H Hf Ht; [lia|]. cbn [tokenize_loop].
  destruct (is_at_end s); [done|].
  assert (Hn : lex_inv B (length (lx_rest s)) s) by (destruct H; split; auto).
  assert (Hle : (length (lx_rest s) ≤ n)%nat) by by destruct H.
  pose proof (skip_space_from_post B (lx_rest s) (length (lx_rest s)) (lx_line s) (lx_column s)) as Hsk.
  unfold skip_whitespace. destruct s as [rest l k]. cbn [lx_rest lx_line lx_column] in *.
  specialize (Hsk Hn). destruct (skip_space_from rest l k) as [s1|e|] eqn:Es; [|done|].
  2:{ cbn. apply Exists_exists in Hsk as (c & Hin & Hc). exists c.
      destruct H as [_ _ _ HP]. rewrite Forall_forall in HP. auto. }
  cbn [mbind res_bind]. destruct (is_at_end s1) eqn:E1; [split; [|done]; by eapply lex_inv_weaken|].
  assert (Hnn : lx_rest s1 ≠ []) by (unfold is_at_end in E1; by destruct (lx_rest s1)).
  assert (Hne : (1 ≤ length (lx_rest s1))%nat) by (destruct (lx_rest s1); [done|cbn; lia]).
  assert (Hs1 : (length (lx_rest s1) ≤ length rest)%nat) by by destruct Hsk.
  assert (Hinv1 : lex_inv B (length (lx_rest s1)) s1) by (destruct Hsk; split; auto).
  destruct (_ && _) eqn:Ec.
  - bool_prop. destruct (Ascii.eqb_spec (current_char s1) "-") as [Hd|]; [|done].
    pose proof (skip_comment_shorter s1) as Hc. rewrite Hd in Hc. specialize (Hc ltac:(done) Hne).
    apply IH; [|lia|done]. eapply lex_inv_weaken; [by apply skip_comment_inv|]. lia.
  - pose proof (scan_token_post B s1 Hinv1 Hnn) as Hp.
    destruct (scan_token s1) as [[t s2]|e|] eqn:Et; cbn [mbind res_bind scan_post] in *; [|done..].
    destruct Hp as (Hi & Hti & Hty & Hlex). pose proof (scan_token_quoted _ _ _ _ _ Hinv1 Et) as Hq.
    apply IH; [eapply lex_inv_weaken; [done|lia]|destruct Hi; lia|].
    case_match; [|done]. apply Forall_app. auto.
Qed.
End positions.

(** The 7-bit characters: those [std::isspace] is defined for. *)
Definition ascii7 (input : string) : Prop :=
  Forall (λ c, char_code c ≤ 127) (String.list_ascii_of_string input).

Lemma new_lexer_inv (P : Ascii.ascii → Prop) (l : chars) :
  Forall P l → lex_inv P (2 * Z.of_nat (length l) + 1) (length l) (new_lexer l).
Proof. intros. split; cbn [new_lexer lx_rest lx_line lx_column]; [lia..|done]. Qed.

Lemma tokenize_post (P : Ascii.ascii → Prop) input :
  Forall P (String.list_ascii_of_string input) →
  let B := 2 * Z.of_nat (length (String.list_ascii_of_string input)) + 1 in
  match tokenize input with
  | Ok ts => ∃ l eof, ts = l ++ [eof] ∧ tok_type eof = TokenType.END_OF_INPUT
               ∧ Forall (λ t, tok_type t ≠ TokenType.END_OF_INPUT) l
               ∧ Forall (tok_inv B) ts ∧ Forall (quoted_inv P B) ts
  | Throw e => ∃ line, e = unclosed_dollar line
  | UB => ∃ c, P c ∧ 127 < char_code c
  end.
Proof.
  intros HP B. pose proof (new_lexer_inv _ _ HP) as Hi. fold B in Hi. unfold tokenize.
  set (l := String.list_ascii_of_string input) in *.
  pose proof (tokenize_loop_post P B (S (length l)) _ _ [] Hi) as Hp.
  destruct (tokenize_loop _ _ _) as [[ts s]|e|]; cbn [mbind res_bind loop_post] in *;
    [|by apply Hp; [cbn; lia|]..].
  destruct Hp as [Hs Hts]; [cbn; lia|done|]. apply Forall_and in Hts as [Hts [Hty Hq]%Forall_and].
  eexists ts, _. split; [done|]. split; [done|]. split; [done|].
  split; apply Forall_app; (split; [done|]); apply Forall_singleton; [|done].
  destruct Hs. unfold tok_inv. cbn. lia.
Qed.

(** Lexing terminates on every text of 7-bit characters without undefined
    behaviour: it returns tokens that end in the only END_OF_INPUT, or throws
    the error of an unclosed dollar quote. *)
Theorem tokenize_total input :
  ascii7 input →
  (∃ l eof, tokenize input = Ok (l ++ [eof]) ∧ tok_type eof = TokenType.END_OF_INPUT
     ∧ Forall (λ t, tok_type t ≠ TokenType.END_OF_INPUT) l)
  ∨ ∃ line, tokenize input = Throw (unclosed_dollar line).
Proof.
  intros H7. pose proof (tokenize_post _ _ H7) as Hp. cbn zeta in Hp.
  destruct (tokenize input) as [ts|e|].
  - left. destruct Hp as (l & eof & -> & ? & ? & _). eauto.
  - right. destruct Hp as [line ->]. eauto.
  - destruct Hp as (c & ? & ?). lia.
Qed.

Lemma tokenize_total_witness :
  ∃ l eof, tokenize "SELECT 'a$$b' -- c" = Ok (l ++ [eof]) ∧ length l = 2%nat.
Proof.
  destruct (tokenize_total "SELECT 'a$$b' -- c") as [(l & eof & H & _)|[line H]];
    [apply (bool_decide_unpack _); vm_compute; exact I| |vm_compute in H; discriminate H].
  exists l, eof. split; [done|]. apply (f_equal (λ r, match r with Ok ts => length ts | _ => 0%nat end)) in H.
  vm_compute in H. fold (@length Token) in H. rewrite length_app in H. cbn in H. lia.
Defined.

(** Every position a token of an n-character text reports is between 1 and
    2n+1, so that the [int] line and column of a text of less than 2^30
    characters never overflow. *)
Theorem tokenize_bounds input ts :
  tokenize input = Ok ts → Z.of_nat (String.length input) < 2 ^ 30 →
  Forall (λ t, 1 ≤ tok_line t ≤ 2 * Z.of_nat (String.length input) + 1
               ∧ 1 ≤ tok_column t ≤ 2 * Z.of_nat (String.length input) + 1
               ∧ is_s 32 (tok_line t) ∧ is_s 32 (tok_column t)) ts.
Proof.
  intros Ht Hn. pose proof (tokenize_post (λ _, True) input) as Hp. cbn zeta in Hp. rewrite Ht in Hp.
  destruct Hp as (l & eof & _ & _ & _ & Hb & _); [by apply Forall_true|].
  replace (length (String.list_ascii_of_string input)) with (String.length input) in Hb
    by (clear; induction input; cbn; auto).
  eapply Forall_impl; [done|]. intros t [[? ?] [? ?]]. unfold is_s. change (2 ^ (32 - 1)) with (2 * 2 ^ 30). lia.
Qed.

Lemma tokenize_bounds_witness :
  ∃ ts, tokenize "a 12" = Ok ts ∧ Forall (λ t, is_s 32 (tok_column t)) ts.
Proof.
  eexists. split; [vm_compute; reflexivity|].
  eapply Forall_impl; [apply (tokenize_bounds "a 12"); [vm_compute; reflexivity|cbn; lia]|].
  cbn. intros t H. apply H.
Defined.

(** ** Writing tokens

    The text of a token: string literals in single quotes, with quotes doubled
    and backslashes escaped, every other token as its lexeme. *)

Definition quote_char (c : Ascii.ascii) : chars :=
  if Ascii.eqb c squote then [squote; squote]
  else if Ascii.eqb c backslash then [backslash; backslash]
  else [c].
Fixpoint quote_chars (l : chars) : chars :=
  match l with [] => [] | c :: l => quote_char c ++ quote_chars l end.
Definition quote_string (v : string) : chars :=
  squote :: quote_chars (String.list_ascii_of_string v) ++ [squote].

Definition write_token (t : TokenType * string) : chars :=
  if bool_decide (t.1 = TokenType.STRING) then quote_string t.2
  else String.list_ascii_of_string t.2.

Fixpoint write_text (ts : list (TokenType * string)) : chars :=
  match ts with [] => [] | t :: ts => " "%char :: write_token t ++ write_text ts end.
Definition write_tokens (ts : list (TokenType * string)) : string :=
  String.string_of_list_ascii (write_text ts).

Section writable.
Import TokenType.
Definition operator_lexemes : list (TokenType * string) := [
  (EQUAL, "="); (LESS_EQUAL, "<="); (NOT_EQUAL, "<>"); (LESS, "<"); (GREATER_EQUAL, ">=");
  (GREATER, ">"); (NOT_EQUAL, "!="); (PLUS, "+"); (MINUS, "-"); (ASTERISK, "*");
  (DIVIDE, "/"); (MODULO, "%"); (LPAREN, "("); (RPAREN, ")"); (COMMA, ","); (DOT, ".");
  (SEMICOLON, ";"); (PARAMETER, "?")]%string.

Definition all_chars (p : Ascii.ascii → bool) (s : string) : bool :=
  forallb p (String.list_ascii_of_string s).

(** The tokens a text can hold. *)
Inductive writable : TokenType * string → Prop :=
  | w_word c s : is_alpha c = true → all_chars is_alpha_numeric s = true →
      writable (get_keyword_token_type (String c s), String c s)
  | w_int c s : is_digit c = true → all_chars is_digit s = true →
      writable (NUMBER, String c s)
  | w_decimal c s d f : is_digit c = true → all_chars is_digit s = true →
      is_digit d = true → all_chars is_digit f = true →
      writable (NUMBER, String c (s +:+ String "." (String d f)))
  | w_string s : writable (STRING, s)
  | w_parameter c s : is_digit c = true → all_chars is_digit s = true →
      writable (PARAMETER, String "$" (String c s))
  | w_operator t : t ∈ operator_lexemes → writable t.
End writable.

(** The rest of a text after a token: its end, a space, or a character that
    belongs to no longer token. *)
Definition separators : list Ascii.ascii := [" "; ")"; ","; "("]%char.
Definition sep (rest : chars) : Prop := ∀ c r, rest = c :: r → c ∈ separators.

(** The cases of a separator. *)
Ltac sep_cases H :=
  match type of H with
  | sep ?rest =>
      let c := fresh "c" in let r := fresh "r" in let Hc := fresh "Hc" in
      destruct rest as [|c r];
      [clear H
      |assert (Hc := H c r eq_refl); clear H; unfold separators in Hc;
       rewrite !elem_of_cons, elem_of_nil in Hc;
       destruct Hc as [->|[->|[->|[->|[]]]]]]
  end.

Lemma take_while_app p w rest : ∀ line column,
  forallb p w = true → (∀ c r, rest = c :: r → p c = false) →
  ∃ line' column', take_while p (w ++ rest) line column =
    (String.string_of_list_ascii w, mkLexer rest line' column').
Proof.
  induction w as [|c w IH]; intros line column Hw Hr; cbn [app take_while forallb] in *.
  - destruct rest as [|c rest]; [by eexists _, _|]. cbn [take_while].
    rewrite (Hr c rest) by done. by eexists _, _.
  - apply andb_true_iff in Hw as [-> Hw]. destruct (step_pos c line column) as [l k].
    destruct (IH l k Hw Hr) as (l' & k' & ->). by eexists _, _.
Qed.

Lemma sep_head p rest : forallb (negb ∘ p) separators = true → sep rest → ∀ c r, rest = c :: r → p c = false.
Proof.
  intros Hp H c r E. specialize (H c r E). rewrite forallb_forall in Hp.
  apply negb_true_iff, Hp. by apply list_elem_of_In.
Qed.

Lemma list_ascii_app a b : String.list_ascii_of_string (a +:+ b) =
  String.list_ascii_of_string a ++ String.list_ascii_of_string b.
Proof. induction a as [|c a IH]; [done|]. change (c :: String.list_ascii_of_string (a +:+ b) = c :: (String.list_ascii_of_string a ++ String.list_ascii_of_string b)). by rewrite IH. Qed.

Lemma string_body_quoted l rest : ∀ line column,
  (∀ c r, rest = c :: r → c ≠ squote) →
  ∃ line' column',
    string_body squote (quote_chars l ++ squote :: rest) line column =
    (String.string_of_list_ascii l, mkLexer rest line' column').
Proof.
  induction l as [|c l IH]; intros line column Hr.
  - cbn [quote_chars app string_body]. rewrite Ascii.eqb_refl.
    destruct (step_pos squote line column) as [l1 k1]. destruct rest as [|c2 rest]; [by eexists _, _|].
    destruct (Ascii.eqb_spec c2 squote) as [->|]; [|by eexists _, _]. by destruct (Hr squote rest).
  - cbn [quote_chars]. rewrite <- app_assoc. unfold quote_char at 1.
    destruct (Ascii.eqb_spec c squote) as [->|Hq]; [|destruct (Ascii.eqb_spec c backslash) as [->|Hb]].
    + cbn [app string_body]. rewrite Ascii.eqb_refl.
      destruct (step_pos squote line column) as [l1 k1]. destruct (step_pos squote l1 k1) as [l2 k2].
      destruct (IH l2 k2 Hr) as (l' & k' & ->). by eexists _, _.
    + cbn [app string_body].
      change (Ascii.eqb backslash squote) with false. rewrite Ascii.eqb_refl.
      destruct (step_pos backslash line column) as [l1 k1].
      destruct (step_pos backslash l1 k1) as [l2 k2].
      destruct (IH l2 k2 Hr) as (l' & k' & ->). by eexists _, _.
    + cbn [app string_body]. apply Ascii.eqb_neq in Hq as ->. apply Ascii.eqb_neq in Hb as ->.
      destruct (if Ascii.eqb c newline then _ else _) as [l0 k0].
      destruct (step_pos c l0 k0) as [l1 k1].
      destruct (IH l1 k1 Hr) as (l' & k' & ->). by eexists _, _.
Qed.

(** Scanning the text of a token gives the token and stops at the separator. *)
Definition reads (w : chars) (t : TokenType * string) : Prop :=
  ∀ rest line column, sep rest → ∃ tok line' column',
    scan_token (mkLexer (w ++ rest) line column) = Ok (tok, mkLexer rest line' column')
    ∧ (tok_type tok, tok_lexeme tok) = t.

Lemma back_up_advance c r line column :
  c ≠ newline → back_up c (advance (mkLexer (c :: r) line column)) = mkLexer (c :: r) line (column + 1).
Proof. intros Hc%Ascii.eqb_neq. unfold back_up, advance, step_pos. cbn. by rewrite Hc. Qed.

Lemma digit_not_quote c : is_digit c = true → Ascii.eqb c squote || Ascii.eqb c dquote = false.
Proof. intros H. destruct c as [[] [] [] [] [] [] [] []]; first [discriminate H | reflexivity]. Qed.
Lemma alpha_class c : is_alpha c = true →
  Ascii.eqb c squote || Ascii.eqb c dquote = false ∧ is_digit c = false ∧ is_alpha_numeric c = true.
Proof. intros H. destruct c as [[] [] [] [] [] [] [] []]; first [discriminate H | by auto]. Qed.

Lemma reads_word c s :
  is_alpha c = true → all_chars is_alpha_numeric s = true →
  reads (String.list_ascii_of_string (String c s)) (get_keyword_token_type (String c s), String c s).
Proof.
  intros Hc Hs rest line column Hsep. pose proof (alpha_class c Hc) as (Hq & Hd & Han).
  unfold scan_token. cbn [String.list_ascii_of_string app]. change (current_char _) with c.
  rewrite Hq, Hd, Hc. cbn [orb].
  rewrite back_up_advance by (apply alpha_not_newline; by rewrite Hc).
  unfold scan_identifier, scan_while. cbn [lx_rest lx_line lx_column].
  destruct (take_while_app is_alpha_numeric (c :: String.list_ascii_of_string s) rest line (column + 1))
    as (l' & k' & E); [by cbn; rewrite Han|by apply sep_head|].
  cbn [app] in E. rewrite E.
  change (String.string_of_list_ascii (c :: String.list_ascii_of_string s))
    with (String c (String.string_of_list_ascii (String.list_ascii_of_string s))).
  rewrite String.string_of_list_ascii_of_string. by eexists _, _, _.
Qed.

Lemma reads_string s : reads (quote_string s) (TokenType.STRING, s).
Proof.
  intros rest line column Hsep. unfold scan_token, quote_string.
  cbn [app]. change (current_char _) with squote. rewrite Ascii.eqb_refl. cbn [orb].
  unfold advance. cbn [lx_rest lx_line lx_column]. change (step_pos squote line column) with (line, column + 1).
  unfold scan_string. cbn [lx_rest lx_line lx_column]. rewrite <- app_assoc. cbn [app].
  destruct (string_body_quoted (String.list_ascii_of_string s) rest line (column + 1))
    as (l' & k' & ->).
  { sep_cases Hsep; [done|..]; by intros c' r' [= <- <-]. }
  rewrite String.string_of_list_ascii_of_string. by eexists _, _, _.
Qed.

Lemma digits_app c s rest line column :
  is_digit c = true → all_chars is_digit s = true → (∀ d r, rest = d :: r → is_digit d = false) →
  ∃ line' column',
    scan_while is_digit (mkLexer (c :: String.list_ascii_of_string s ++ rest) line column) =
    (String c s, mkLexer rest line' column').
Proof.
  intros Hc Hs Hr.
  destruct (take_while_app is_digit (c :: String.list_ascii_of_string s) rest line column)
    as (l' & k' & E); [by cbn; rewrite Hc|done|].
  exists l', k'. unfold scan_while. cbn [lx_rest lx_line lx_column]. cbn [app] in E. rewrite E.
  change (String.string_of_list_ascii (c :: String.list_ascii_of_string s))
    with (String c (String.string_of_list_ascii (String.list_ascii_of_string s))).
  by rewrite String.string_of_list_ascii_of_string.
Qed.

Lemma string_app_nil (s : string) : s +:+ "" = s.
Proof. induction s as [|c s IH]; [done|]. change (String c (s +:+ "") = String c s). by rewrite IH. Qed.

Lemma reads_number c s w :
  is_digit c = true →
  (∀ rest line column, sep rest → ∃ tok line' column',
    scan_number (mkLexer (c :: w ++ rest) line column) = (tok, mkLexer rest line' column')
    ∧ (tok_type tok, tok_lexeme tok) = (TokenType.NUMBER, s)) →
  reads (c :: w) (TokenType.NUMBER, s).
Proof.
  intros Hc Hn rest line column Hsep. unfold scan_token. cbn [app].
  change (current_char _) with c. rewrite (digit_not_quote c Hc), Hc.
  rewrite back_up_advance by by apply digit_not_newline.
  destruct (Hn rest line (column + 1) Hsep) as (tok & l' & k' & -> & Ht). by eexists _, _, _.
Qed.

(** After the digits of a number, a separator ends it. *)
Lemma number_tail rest line column : sep rest →
  negb (is_at_end (mkLexer rest line column)) &&
    (Ascii.eqb (current_char (mkLexer rest line column)) "e"
     || Ascii.eqb (current_char (mkLexer rest line column)) "E") = false.
Proof. intros H. by sep_cases H. Qed.

Lemma reads_int c s :
  is_digit c = true → all_chars is_digit s = true →
  reads (String.list_ascii_of_string (String c s)) (TokenType.NUMBER, String c s).
Proof.
  intros Hc Hs. cbn [String.list_ascii_of_string]. apply reads_number; [done|].
  intros rest line column Hsep. unfold scan_number.
  destruct (digits_app c s rest line column) as (l1 & k1 & ->); [done|done|by apply sep_head|].
  assert (Hdot : negb (is_at_end (mkLexer rest l1 k1)) && Ascii.eqb (current_char (mkLexer rest l1 k1)) "."
    && is_digit (peek_char 1 (mkLexer rest l1 k1)) = false) by (clear -Hsep; by sep_cases Hsep).
  rewrite Hdot, number_tail by done. eexists _, _, _. split; [done|]. cbn [tok_type tok_lexeme].
  by rewrite !string_app_nil.
Qed.

Lemma reads_decimal c s d f :
  is_digit c = true → all_chars is_digit s = true → is_digit d = true → all_chars is_digit f = true →
  reads (String.list_ascii_of_string (String c (s +:+ String "." (String d f))))
    (TokenType.NUMBER, String c (s +:+ String "." (String d f))).
Proof.
  intros Hc Hs Hd Hf. cbn [String.list_ascii_of_string]. apply reads_number; [done|].
  intros rest line column Hsep. unfold scan_number. rewrite list_ascii_app, <- app_assoc.
  cbn [String.list_ascii_of_string app].
  destruct (digits_app c s ("."%char :: d :: String.list_ascii_of_string f ++ rest) line column)
    as (l1 & k1 & ->); [done|done|by intros d' r [= <- <-]|].
  set (s1 := mkLexer ("."%char :: _) l1 k1). change (is_at_end s1) with false.
  change (current_char s1) with "."%char. change (peek_char 1 s1) with d. subst s1.
  rewrite Hd, Ascii.eqb_refl. cbn [negb andb].
  unfold advance. cbn [lx_rest lx_line lx_column]. change (step_pos "." l1 k1) with (l1, k1 + 1).
  destruct (digits_app d f rest l1 (k1 + 1)) as (l2 & k2 & ->); [done|done|by apply sep_head|].
  rewrite number_tail by done. eexists _, _, _. split; [done|]. cbn [tok_type tok_lexeme].
  by rewrite !string_app_nil.
Qed.

Lemma reads_parameter c s :
  is_digit c = true → all_chars is_digit s = true →
  reads (String.list_ascii_of_string (String "$" (String c s)))
    (TokenType.PARAMETER, String "$" (String c s)).
Proof.
  intros Hc Hs rest line column Hsep. unfold scan_token. cbn [String.list_ascii_of_string app].
  change (current_char _) with "$"%char.
  change (scan_operator "$" ?x) with (scan_dollar x).
  change (Ascii.eqb "$" squote || Ascii.eqb "$" dquote) with false.
  change (is_digit "$") with false. change (is_alpha "$" || Ascii.eqb "$" "_") with false. cbn [andb].
  unfold advance. cbn [lx_rest lx_line lx_column]. change (step_pos "$" line column) with (line, column + 1).
  change (scan_operator "$" ?x) with (scan_dollar x). unfold scan_dollar.
  set (s1 := mkLexer _ _ _) in *. change (current_char s1) with c. rewrite Hc.
  assert (Ascii.eqb c "$" = false) as -> by (apply Ascii.eqb_neq; by intros ->).
  rewrite andb_false_r. cbn [negb]. subst s1.
  destruct (digits_app c s rest line (column + 1)) as (l2 & k2 & ->); [done|done|by apply sep_head|].
  by eexists _, _, _.
Qed.

Lemma reads_operator t : t ∈ operator_lexemes → reads (String.list_ascii_of_string t.2) t.
Proof.
  intros Ht. unfold operator_lexemes in Ht. rewrite !elem_of_cons, elem_of_nil in Ht.
  destruct_or?; subst; try done; intros rest line column Hsep; sep_cases Hsep; by eexists _, _, _.
Qed.

Lemma reads_writable t : writable t → reads (write_token t) t.
Proof.
  intros [c s Hc Hs|c s Hc Hs|c s d f Hc Hs Hd Hf|s|c s Hc Hs|t' Ht]; unfold write_token; cbn [fst snd].
  - rewrite bool_decide_eq_false_2; [by apply reads_word|]. apply keyword_types.
  - by apply reads_int.
  - by apply reads_decimal.
  - apply reads_string.
  - by apply reads_parameter.
  - rewrite bool_decide_eq_false_2; [by apply reads_operator|].
    unfold operator_lexemes in Ht. rewrite !elem_of_cons, elem_of_nil in Ht.
    by destruct_or?; subst.
Qed.

Definition token_start (c : Ascii.ascii) : bool :=
  (char_code c <=? 127) && negb (is_space c) && negb (Ascii.eqb c "-").
Lemma token_start_class c : is_alpha c || is_digit c = true → token_start c = true.
Proof. intros H. destruct c as [[] [] [] [] [] [] [] []]; first [discriminate H | reflexivity]. Qed.

(** A written token starts neither a comment nor white space. *)
Lemma write_head t : writable t →
  (∃ c w, write_token t = c :: w ∧ token_start c = true) ∨ write_token t = ["-"%char].
Proof.
  intros [c s Hc Hs|c s Hc Hs|c s d f Hc Hs Hd Hf|s|c s Hc Hs|t' Ht]; unfold write_token; cbn [fst snd].
  - left. rewrite bool_decide_eq_false_2 by apply keyword_types. eexists _, _.
    split; [done|]. apply token_start_class. by rewrite Hc.
  - left. eexists _, _. split; [done|]. apply token_start_class. by rewrite Hc, orb_true_r.
  - left. eexists _, _. split; [done|]. apply token_start_class. by rewrite Hc, orb_true_r.
  - left. by eexists _, _.
  - left. by eexists _, _.
  - unfold operator_lexemes in Ht. rewrite !elem_of_cons, elem_of_nil in Ht.
    destruct_or?; subst; first [done | by right | left; by eexists _, _].
Qed.

Lemma writable_pushed t : writable t →
  bool_decide (t.1 ≠ TokenType.UNKNOWN) || bool_decide (t.2 ≠ EmptyString) = true.
Proof.
  intros [c s Hc Hs|c s Hc Hs|c s d f Hc Hs Hd Hf|s|c s Hc Hs|t' Ht]; try done.
  - rewrite orb_true_iff, !bool_decide_eq_true. by right.
  - unfold operator_lexemes in Ht. rewrite !elem_of_cons, elem_of_nil in Ht. by destruct_or?; subst.
Qed.

Lemma write_text_sep ts : sep (write_text ts).
Proof. destruct ts; intros c r; [done|]. cbn [write_text]. intros [= <- <-]. set_solver. Qed.

Lemma tokenize_loop_written ts : ∀ fuel line column acc,
  Forall writable ts → (length (write_text ts) < fuel)%nat →
  ∃ toks s, tokenize_loop fuel (mkLexer (write_text ts) line column) acc = Ok (acc ++ toks, s)
    ∧ types_and_lexemes toks = ts.
Proof.
  induction ts as [|t ts IH]; intros fuel line column acc Hw Hf.
  { destruct fuel; [cbn in Hf; lia|]. exists [], (mkLexer [] line column). by rewrite app_nil_r. }
  apply Forall_cons_iff in Hw as [Ht Hw]. destruct fuel as [|fuel]; [lia|].
  assert (Hlen : (length (write_text ts) < fuel)%nat) by (cbn [write_text length] in Hf; rewrite length_app in Hf; lia).
  pose proof (write_head t Ht) as Hhd.
  destruct (reads_writable t Ht (write_text ts) line (column + 1) (write_text_sep ts))
    as (tok & l' & k' & Hscan & Htok).
  cbn [tokenize_loop is_at_end lx_rest write_text].
  assert (Hskip : skip_whitespace (mkLexer (" "%char :: write_token t ++ write_text ts) line column) =
    Ok (mkLexer (write_token t ++ write_text ts) line (column + 1))).
  { unfold skip_whitespace. cbn [lx_rest lx_line lx_column skip_space_from].
    change (127 <? char_code " ") with false. change (is_space " ") with true.
    change (step_pos " " line column) with (line, column + 1).
    destruct Hhd as [(c & w & -> & Hc)| ->]; [|done]. cbn [app skip_space_from].
    unfold token_start in Hc. bool_prop.
    assert ((127 <? char_code c) = false) as -> by lia. by rewrite H1. }
  rewrite Hskip. cbn [mbind res_bind].
  set (s1 := mkLexer (write_token t ++ write_text ts) line (column + 1)) in *.
  assert (Hend : is_at_end s1 = false) by by destruct Hhd as [(c & w & E & Hc)|E]; subst s1; rewrite E.
  assert (Hcom : Ascii.eqb (current_char s1) "-" && Ascii.eqb (peek_char 1 s1) "-" = false).
  { destruct Hhd as [(c & w & E & Hc)|E]; subst s1; rewrite E.
    - change (current_char _) with c. unfold token_start in Hc. bool_prop. by rewrite H0.
    - pose proof (write_text_sep ts) as Hsep. by sep_cases Hsep. }
  rewrite Hend, Hcom, Hscan. cbn [mbind res_bind].
  pose proof (writable_pushed t Ht) as Hp. rewrite <- Htok in Hp. cbn [fst snd] in Hp. rewrite Hp.
  destruct (IH fuel l' k' (acc ++ [tok]) Hw Hlen) as (toks & s & -> & Hts).
  exists (tok :: toks), s. rewrite <- app_assoc. split; [done|].
  unfold types_and_lexemes in *. cbn. by rewrite Htok, <- Hts.
Qed.

(** C11. Writing tokens as text (string literals quoted, with quotes doubled and
    backslashes escaped) and lexing the text gives the tokens back: no string
    literal can end early or swallow what follows it. *)
Theorem tokenize_write_tokens ts :
  Forall writable ts →
  types_and_lexemes <$> tokenize (write_tokens ts) = Ok (ts ++ [(TokenType.END_OF_INPUT, EmptyString)]).
Proof.
  intros Hw. unfold tokenize, write_tokens. rewrite String.list_ascii_of_string_of_list_ascii.
  destruct (tokenize_loop_written ts (S (length (write_text ts))) 1 1 [] Hw) as (toks & s & E & Hts);
    [lia|]. unfold new_lexer. rewrite E. cbn [mbind res_bind fmap res_fmap app].
  f_equal. unfold types_and_lexemes in *. by rewrite fmap_app, Hts.
Qed.

Lemma tokenize_write_tokens_witness :
  types_and_lexemes <$> tokenize (write_tokens [(TokenType.SELECT, "select"%string); (TokenType.STRING, "it's \' -- $$"%string)])
  = Ok [(TokenType.SELECT, "select"%string); (TokenType.STRING, "it's \' -- $$"%string);
        (TokenType.END_OF_INPUT, EmptyString)].
Proof.
  apply (tokenize_write_tokens [(TokenType.SELECT, "select"%string); (TokenType.STRING, "it's \' -- $$"%string)]).
  apply Forall_cons; split; [apply (w_word "s" "elect"); reflexivity|].
  apply Forall_cons; split; [apply w_string|apply Forall_nil; exact I].
Defined.

(** The name of every keyword, in any mixture of cases, lexes to that
    keyword: the table of names and the table of keywords agree. *)
Lemma keyword_roundtrip w type :
  (token_type_to_string type, type) ∈ keywords → str_upper w = token_type_to_string type →
  get_keyword_token_type w = type.
Proof.
  intros Hin Hw. unfold get_keyword_token_type. rewrite Hw. clear w Hw.
  assert (H : Forall (λ e, assoc_find e.1 keywords = Some e.2) keywords)
    by (apply (bool_decide_unpack _); vm_compute; exact I).
  rewrite Forall_forall in H. specialize (H _ Hin). cbn [fst snd] in H. by rewrite H.
Qed.

(** A newline inside a string literal moves the line on by two. *)
Example newline_in_string_counts_twice :
  match tokenize (String squote (String newline (String squote "x"))) with
  | Ok ts => tok_line <$> ts | _ => [] end = [1; 3; 3].
Proof. vm_compute. reflexivity. Qed.

(** A string literal may lack its closing quote. *)
Example unterminated_string_accepted :
  types_and_lexemes <$> tokenize "'abc" =
  Ok [(TokenType.STRING, "abc"%string); (TokenType.END_OF_INPUT, EmptyString)].
Proof. vm_compute. reflexivity. Qed.
