(* ===== verification/Ast.v ===== *)
(** * Statements

    The statement classes of include/parser/ast.h and their [to_string]
    (src/parser/ast.cc), and the variant [ParsedStatement] of
    include/parser/parser.h.  The expression classes are in Expr.v, where the
    SELECT statements of subqueries are a type parameter: here it is
    [SelectStatement]. *)

From Stdlib Require Import ZArith Lia Ascii.
From S2P Require Import Prelude CppNum Values Rows Expr Evaluator Partition Table Operators.

(** ** Text of expressions *)

(** [for (i ...) { if (i > 0) oss << ", "; oss << l[i]; }] *)
Fixpoint comma_sep (l : list string) : string :=
  match l with
  | [] => ""
  | [s] => s
  | s :: l => s +:+ ", " +:+ comma_sep l
  end.

Definition binary_op_to_string (op : BinaryOp) : string :=
  match op with
  | EQ => "=" | NE => "!=" | LT => "<" | LE => "<=" | GT => ">" | GE => ">="
  | AND => "AND" | OR => "OR" | PLUS => "+" | MINUS => "-" | MUL => "*" | DIV => "/"
  | MOD => "%"
  end.

Definition order_to_string (o : string * bool) : string :=
  o.1 +:+ (if o.2 then " ASC" else " DESC").

(** [WindowSpec::to_string] on the texts of its expressions. *)
Definition window_to_string (partition_by : list string) (order_by : list (string * bool)) : string :=
  "(" +:+
  (if bool_decide (partition_by = []) then "" else "PARTITION BY " +:+ comma_sep partition_by) +:+
  (if bool_decide (order_by = []) then ""
   else (if bool_decide (partition_by = []) then "" else " ") +:+
        "ORDER BY " +:+ comma_sep (order_to_string <$> order_by)) +:+ ")".

Section expr_text.
Context {Q : Type} (select_text : Q → string).

Fixpoint expr_to_string (e : expr Q) : string :=
  match e with
  | Literal v => Values.to_string v
  | Identifier name => name
  | ColumnRef table column => if bool_decide (table = "") then column else table +:+ "." +:+ column
  | Parameter_ _ => "?"
  | BinaryOpE l op r =>
      "(" +:+ expr_to_string l +:+ " " +:+ binary_op_to_string op +:+ " " +:+ expr_to_string r +:+ ")"
  | UnaryOpE op e => "(" +:+ (match op with NOT => "NOT" | NEG => "-" end) +:+ " " +:+ expr_to_string e +:+ ")"
  | FunctionCall name args window =>
      name +:+ "(" +:+ comma_sep (map expr_to_string args) +:+ ")" +:+
      match window with
      | None => ""
      | Some (partition_by, order_by) =>
          " OVER " +:+ window_to_string (map expr_to_string partition_by)
            (map (λ o, (expr_to_string o.1, o.2)) order_by)
      end
  | Cast e target => "CAST(" +:+ expr_to_string e +:+ " AS " +:+ data_type_to_string target +:+ ")"
  | Case when_then else_ =>
      "CASE" +:+ foldr (λ s t, s +:+ t) ""
        (map (λ wt, " WHEN " +:+ expr_to_string wt.1 +:+ " THEN " +:+ expr_to_string wt.2) when_then) +:+
      match else_ with None => "" | Some e => " ELSE " +:+ expr_to_string e end +:+ " END"
  | InList l values is_not =>
      expr_to_string l +:+ (if is_not then " NOT IN (" else " IN (") +:+
      comma_sep (map expr_to_string values) +:+ ")"
  | InSubquery l q is_not =>
      expr_to_string l +:+ (if is_not then " NOT IN (" else " IN (") +:+ "(" +:+ select_text q +:+ "))"
  | Exists q is_not => (if is_not then "NOT EXISTS (" else "EXISTS (") +:+ select_text q +:+ ")"
  | Subquery q => "(" +:+ select_text q +:+ ")"
  end.
End expr_text.

(** ** SELECT *)

Inductive SelectStatement : Type := mkSelect {
  select_columns : list (expr SelectStatement * string);
  from_table : string;
  from_alias : string;
  where_condition : option (expr SelectStatement);
  group_by_columns : list (expr SelectStatement);
  having_condition : option (expr SelectStatement);
  order_by_columns : list (expr SelectStatement * bool);
  joins : list (string * string * string * option (expr SelectStatement));
  distinct : bool;
  limit : Z;
  offset : Z
}.
Abbreviation Expression := (expr SelectStatement).

Definition nonempty_text (prefix : string) (l : list string) : string :=
  if bool_decide (l = []) then "" else prefix +:+ comma_sep l.
Definition limit_text (limit offset : Z) : string :=
  (if 0 <=? limit then " LIMIT " +:+ std_to_string limit else "") +:+
  (if 0 <? offset then " OFFSET " +:+ std_to_string offset else "").

Fixpoint select_to_string (s : SelectStatement) : string :=
  match s with
  | mkSelect columns from from_alias where_ groups having orders joins distinct limit offset =>
      "SELECT " +:+ (if distinct then "DISTINCT " else "") +:+
      comma_sep (map (λ c, expr_to_string select_to_string c.1 +:+
        (if bool_decide (c.2 = "") then "" else " AS " +:+ c.2)) columns) +:+
      (if bool_decide (from = "") then ""
       else " FROM " +:+ from +:+ (if bool_decide (from_alias = from) then "" else " " +:+ from_alias)) +:+
      foldr (λ s t, s +:+ t) ""
        (map (λ j, let '(type, tname, alias, condition) := j in
          " " +:+ type +:+ " JOIN " +:+ tname +:+
          (if bool_decide (alias = tname) then "" else " " +:+ alias) +:+
          match condition with None => "" | Some e => " ON " +:+ expr_to_string select_to_string e end) joins) +:+
      match where_ with None => "" | Some e => " WHERE " +:+ expr_to_string select_to_string e end +:+
      nonempty_text " GROUP BY " (map (expr_to_string select_to_string) groups) +:+
      match having with None => "" | Some e => " HAVING " +:+ expr_to_string select_to_string e end +:+
      nonempty_text " ORDER BY "
        (map (λ o, order_to_string (expr_to_string select_to_string o.1, o.2)) orders) +:+
      limit_text limit offset
  end.

Definition expression_to_string : Expression → string := expr_to_string select_to_string.

(** [SelectStatement()]. *)
Definition new_select : SelectStatement := mkSelect [] "" "" None [] None [] [] false (-1) 0.

(** ** Set operations *)

Inductive Operand : Type :=
  | SelectOperand (s : SelectStatement)
  | SetOperand (s : SetOperationStatement)
with SetOperationStatement : Type :=
  | SetOperation (left : Operand) (kind : SetOperationKind) (right : Operand) (is_all : bool)
      (order_by : list (Expression * bool)) (limit offset : Z).

Definition set_operation_kind_to_string (kind : SetOperationKind) (is_all : bool) : string :=
  match kind with
  | Union => if is_all then "UNION ALL" else "UNION"
  | Intersect => "INTERSECT"
  | Except => "EXCEPT"
  end.

Fixpoint query_operand_to_string (o : Operand) : string :=
  match o with
  | SelectOperand s => select_to_string s
  | SetOperand s => set_operation_to_string s
  end
with set_operation_to_string (s : SetOperationStatement) : string :=
  match s with
  | SetOperation l kind r is_all orders limit offset =>
      query_operand_to_string l +:+ " " +:+ set_operation_kind_to_string kind is_all +:+ " " +:+
      query_operand_to_string r +:+
      nonempty_text " ORDER BY " (map (λ o, order_to_string (expression_to_string o.1, o.2)) orders) +:+
      limit_text limit offset
  end.

(** ** INSERT, UPDATE, DELETE *)

Record InsertStatement : Type := mkInsert {
  ins_table : string;
  ins_columns : list string;
  ins_values : list (list Expression)
}.
Definition parens (s : string) : string := "(" +:+ s +:+ ")".
Definition insert_to_string (s : InsertStatement) : string :=
  "INSERT INTO " +:+ ins_table s +:+ " (" +:+ comma_sep (ins_columns s) +:+ ") VALUES " +:+
  comma_sep ((λ row, parens (comma_sep (expression_to_string <$> row))) <$> ins_values s).

Record UpdateStatement : Type := mkUpdate {
  upd_table : string;
  upd_set_clauses : list (string * Expression);
  upd_where : option Expression
}.
Definition where_text (e : option Expression) : string :=
  match e with None => "" | Some e => " WHERE " +:+ expression_to_string e end.
Definition update_to_string (s : UpdateStatement) : string :=
  "UPDATE " +:+ upd_table s +:+ " SET " +:+
  comma_sep ((λ c, c.1 +:+ " = " +:+ expression_to_string c.2) <$> upd_set_clauses s) +:+
  where_text (upd_where s).

Record DeleteStatement : Type := mkDelete {
  del_table : string;
  del_where : option Expression
}.
Definition delete_to_string (s : DeleteStatement) : string :=
  "DELETE FROM " +:+ del_table s +:+ where_text (del_where s).

(** ** CREATE TABLE and ALTER TABLE *)

Record ColumnDefinition : Type := mkColumnDefinition {
  cd_name : string;
  cd_type : string;
  cd_not_null : bool;
  cd_primary_key : bool;
  cd_unique : bool;
  cd_default : option value;
  cd_references_table : string;
  cd_references_column : string;
  cd_on_delete : ReferentialAction;
  cd_on_update : ReferentialAction;
  cd_check : option Expression
}.
Definition new_column_definition (name type : string) : ColumnDefinition :=
  mkColumnDefinition name type false false false None "" "" Restrict Restrict None.
Definition has_references (c : ColumnDefinition) : bool := negb (bool_decide (cd_references_table c = "")).

Definition column_definition_to_string (c : ColumnDefinition) : string :=
  cd_name c +:+ " " +:+ cd_type c +:+
  (if cd_not_null c then " NOT NULL" else "") +:+
  (if cd_primary_key c then " PRIMARY KEY" else "") +:+
  (if cd_unique c then " UNIQUE" else "") +:+
  match cd_default c with None => "" | Some v => " DEFAULT " +:+ Values.to_string v end +:+
  (if has_references c
   then " REFERENCES " +:+ cd_references_table c +:+ parens (cd_references_column c) else "") +:+
  match cd_check c with None => "" | Some e => " CHECK " +:+ parens (expression_to_string e) end.

Record CreateTableStatement : Type := mkCreateTable {
  ct_name : string;
  ct_columns : list ColumnDefinition;
  ct_foreign_keys : list ForeignKeyDefinition;
  ct_checks : list (CheckConstraintDefinition SelectStatement);
  ct_primary_key : list string;
  ct_uniques : list (string * list string);
  ct_partition_by : option (PartitionKind * string);
  ct_partition_of : option (string * PartitionBound)
}.
Definition new_create_table (name : string) : CreateTableStatement :=
  mkCreateTable name [] [] [] [] [] None None.

Definition foreign_key_to_string (fk : ForeignKeyDefinition) : string :=
  ", FOREIGN KEY " +:+ parens (comma_sep (fk_child_columns fk)) +:+
  " REFERENCES " +:+ fk_parent_table fk +:+ " " +:+ parens (comma_sep (fk_parent_columns fk)).
Definition unique_to_string (uq : string * list string) : string :=
  ", " +:+ (if bool_decide (uq.1 = "") then "" else "CONSTRAINT " +:+ uq.1 +:+ " ") +:+
  "UNIQUE " +:+ parens (comma_sep uq.2).
Definition create_table_to_string (s : CreateTableStatement) : string :=
  "CREATE TABLE " +:+ ct_name s +:+
  match ct_partition_of s with
  | Some (parent, _) => " PARTITION OF " +:+ parent
  | None =>
      " (" +:+ comma_sep (column_definition_to_string <$> ct_columns s) +:+
      (if bool_decide (ct_primary_key s = []) then ""
       else ", PRIMARY KEY " +:+ parens (comma_sep (ct_primary_key s))) +:+
      foldr (λ s t, s +:+ t) "" (unique_to_string <$> ct_uniques s) +:+
      foldr (λ s t, s +:+ t) "" (foreign_key_to_string <$> ct_foreign_keys s) +:+ ")" +:+
      match ct_partition_by s with
      | None => ""
      | Some (kind, column) =>
          " PARTITION BY " +:+ (match kind with Range => "RANGE" | Hash => "HASH" end) +:+
          " (" +:+ column +:+ ")"
      end
  end.

Inductive AlterTableActionType : Type :=
  | AddColumn | DropColumn | RenameTable | RenameColumn | AddPrimaryKey | AddUnique | SetNotNull
  | DropPrimaryKey | DropUnique | DropNotNull | AddCheck | DropCheck.
Record AlterTableAction : Type := mkAction {
  aa_type : AlterTableActionType;
  aa_column_def : ColumnDefinition;
  aa_name : string;
  aa_new_name : string;
  aa_check_name : string;
  aa_check : option Expression;
  aa_columns : list string
}.
Record AlterTableStatement : Type := mkAlterTable { at_name : string; at_action : AlterTableAction }.

(** ** Routines and triggers *)

Record RoutineParamAst : Type := mkRoutineParam { rp_name : string; rp_type_name : string }.
Inductive TriggerTiming : Type := Before | After.
Inductive TriggerEvent : Type := OnInsert | OnUpdate | OnDelete.

(** ** The variant *)

Inductive ParsedStatement : Type :=
  | SSelect (s : SelectStatement)
  | SSetOperation (s : SetOperationStatement)
  | SInsert (s : InsertStatement)
  | SUpdate (s : UpdateStatement)
  | SDelete (s : DeleteStatement)
  | SCreateTable (s : CreateTableStatement)
  | SDropTable (table_name : string)
  | SAlterTable (s : AlterTableStatement)
  | SCreateIndex (index_name table_name : string) (column_names : list string)
  | SDropIndex (index_name : string)
  | SCreateView (view_name select_sql : string) (select : SelectStatement)
  | SDropView (view_name : string) (if_exists : bool)
  | SCreateFunction (name : string) (params : list RoutineParamAst) (return_type : string)
      (body : Expression) (source_sql : string)
  | SDropFunction (name : string) (if_exists : bool)
  | SCreateProcedure (name : string) (params : list RoutineParamAst) (statement_sqls : list string)
      (source_sql : string)
  | SDropProcedure (name : string) (if_exists : bool)
  | SCall (name : string) (arguments : list Expression)
  | SCreateTrigger (name table_name : string) (timing : TriggerTiming) (event : TriggerEvent)
      (statement_sqls : list string) (source_sql : string)
  | SDropTrigger (name : string) (if_exists : bool)
  | SSetNew (column_name : string) (v : Expression)
  | SBegin
  | SCommit
  | SRollback
  | SPrepare (name sql : string)
  | SExecute (name : string) (arguments : list value)
  | SDeallocate (name : string)
  | SVacuum (table_name : string)
  | SExplain (inner : ParsedStatement).

Definition drop_to_string (what name : string) (if_exists : bool) : string :=
  "DROP " +:+ what +:+ (if if_exists then " IF EXISTS " else " ") +:+ name.
(** The text a routine was created from, when there is one. *)
Definition source_or (source_sql what name : string) : string :=
  if bool_decide (source_sql = "") then "CREATE " +:+ what +:+ " " +:+ name else source_sql.

Definition statement_to_string (s : ParsedStatement) : string :=
  match s with
  | SSelect s => select_to_string s
  | SSetOperation s => set_operation_to_string s
  | SInsert s => insert_to_string s
  | SUpdate s => update_to_string s
  | SDelete s => delete_to_string s
  | SCreateTable s => create_table_to_string s
  | SDropTable name => "DROP TABLE " +:+ name
  | SAlterTable s => "ALTER TABLE " +:+ at_name s
  | SCreateIndex name table columns =>
      "CREATE INDEX " +:+ name +:+ " ON " +:+ table +:+ parens (comma_sep columns)
  | SDropIndex name => "DROP INDEX " +:+ name
  | SCreateView name sql _ => "CREATE VIEW " +:+ name +:+ " AS " +:+ sql
  | SDropView name if_exists => drop_to_string "VIEW" name if_exists
  | SCreateFunction name _ _ _ source => source_or source "FUNCTION" name
  | SDropFunction name if_exists => drop_to_string "FUNCTION" name if_exists
  | SCreateProcedure name _ _ source => source_or source "PROCEDURE" name
  | SDropProcedure name if_exists => drop_to_string "PROCEDURE" name if_exists
  | SCall name args => "CALL " +:+ name +:+ parens (comma_sep (expression_to_string <$> args))
  | SCreateTrigger name _ _ _ _ source => source_or source "TRIGGER" name
  | SDropTrigger name if_exists => drop_to_string "TRIGGER" name if_exists
  | SSetNew column e => "SET NEW." +:+ column +:+ " = " +:+ expression_to_string e
  | SBegin => "BEGIN"
  | SCommit => "COMMIT"
  | SRollback => "ROLLBACK"
  | SPrepare name sql => "PREPARE " +:+ name +:+ " AS " +:+ sql
  | SExecute name _ => "EXECUTE " +:+ name
  | SDeallocate name => "DEALLOCATE PREPARE " +:+ name
  | SVacuum name => if bool_decide (name = "") then "VACUUM" else "VACUUM " +:+ name
  | SExplain _ => "UNKNOWN"
  end.
Definition explain_to_string (inner : ParsedStatement) : string := "EXPLAIN " +:+ statement_to_string inner.
