(* ===== verification/Parser.v ===== *)
(** * The SQL parser

    src/parser/parser.cc: a recursive-descent parser over the tokens of the
    lexer, one token of lookahead for most decisions.  [parse_text] is
    [Parser(sql).parse_statement()], [parse_standalone_text] is
    [Parser(sql).parse_standalone_expression()].

    The loops and the recursion of the C++ code run on fuel.  A loop gets one
    more than the tokens that remain (every turn of every loop takes one), the
    mutual recursion of expressions and subqueries the same (every level takes a
    parenthesis or a keyword), the texts of routine bodies one more than the
    length of the text.  ParserSafe.v shows that this is enough: the outcome
    [UB] for exhausted fuel does not occur. *)

From Stdlib Require Import ZArith Lia Ascii.
From S2P Require Import Prelude CppNum Values Rows Expr Evaluator Partition Table Operators Lexer Ast.

Module T := TokenType.

(** ** Numbers *)

Definition std_stoi (s : string) : res Z :=
  let '(neg, r) := split_sign (skip_space (String.list_ascii_of_string s)) in
  let '(v, n, _) := digits 10 0 0 r in
  if (n =? 0)%nat then Throw (std_invalid_argument "stoi")
  else
    let z := if neg then - v else v in
    if (- 2 ^ 31 <=? z) && (z <? 2 ^ 31) then Ok z
    else Throw (std_out_of_range "stoi").

Definition std_stoull (s : string) : res Z :=
  let '(neg, r) := split_sign (skip_space (String.list_ascii_of_string s)) in
  let '(v, n, _) := digits 10 0 0 r in
  if (n =? 0)%nat then Throw (std_invalid_argument "stoull")
  else if 2 ^ 64 <=? v then Throw (std_out_of_range "stoull")
  else Ok (if neg then u_wrap 64 (- v) else v).

(** [find('.') != npos] decides between [std::stod] and [std::stoll]. *)
Definition has_dot (s : string) : bool :=
  existsb (λ c, Ascii.eqb c ".") (String.list_ascii_of_string s).
Definition number_value (lexeme : string) : res value :=
  if has_dot lexeme then VFloat <$> std_stod lexeme else VInt <$> std_stoll lexeme.

(** ** The token cursor *)

Inductive ParameterStyle : Type := StyleNone | Question | Dollar.
#[export] Instance ParameterStyle_eq_dec : EqDecision ParameterStyle.
Proof. solve_decision. Defined.

Record parser : Type := mkParser {
  tokens_ : list Token;
  current_ : nat;
  original_sql_ : string;
  parameter_style_ : ParameterStyle;
  next_parameter_index_ : nat;
  max_dollar_index_ : Z;
  dollar_indices_ : gset Z
}.
Definition new_parser (sql : string) (tokens : list Token) : parser :=
  mkParser tokens 0 sql StyleNone 0 0 ∅.
Definition set_current (i : nat) (s : parser) : parser :=
  mkParser (tokens_ s) i (original_sql_ s) (parameter_style_ s) (next_parameter_index_ s)
    (max_dollar_index_ s) (dollar_indices_ s).
Definition set_parameters (style : ParameterStyle) (next : nat) (max : Z) (seen : gset Z) (s : parser) : parser :=
  mkParser (tokens_ s) (current_ s) (original_sql_ s) style next max seen.

Abbreviation P A := (ST parser A).

Definition end_token : Token := mkToken T.END_OF_INPUT "" 0 0.

Definition is_at_end (s : parser) : bool :=
  match tokens_ s !! current_ s with
  | None => true
  | Some t => bool_decide (tok_type t = T.END_OF_INPUT)
  end.
Definition peek (s : parser) : Token :=
  if is_at_end s then end_token else default end_token (tokens_ s !! current_ s).
Definition peek_ahead (k : nat) (s : parser) : Token := default end_token (tokens_ s !! (current_ s + k)%nat).

Definition advance : P Token := λ s,
  let s := if is_at_end s then s else set_current (S (current_ s)) s in
  match current_ s with
  | O => (s, UB)
  | S i => (s, match tokens_ s !! i with Some t => Ok t | None => UB end)
  end.

Definition check (type : TokenType) (s : parser) : bool :=
  if is_at_end s then false else bool_decide (tok_type (peek s) = type).
Definition match_ (type : TokenType) : P bool := λ s,
  if check type s then (advance;; mret true) s else (s, Ok false).

Definition get_error_message (message : string) (s : parser) : string :=
  message +:+ " at line " +:+ std_to_string (tok_line (peek s)) +:+ ", column " +:+
  std_to_string (tok_column (peek s)) +:+ " (token: '" +:+ tok_lexeme (peek s) +:+ "')".
Definition throw_at {A} (message : string) : P A := λ s,
  (s, Throw (ParseException (get_error_message message s))).

Definition consume (type : TokenType) (message : string) : P Token := λ s,
  if check type s then advance s else throw_at message s.

(** [consume(...).get_lexeme()] and [advance().get_lexeme()]. *)
Definition lexeme (type : TokenType) (message : string) : P string :=
  t ← consume type message; mret (tok_lexeme t).
Definition identifier : string → P string := lexeme T.IDENTIFIER.
Definition next_lexeme : P string := t ← advance; mret (tok_lexeme t).

Definition checks (type : TokenType) : P bool := λ s, (s, Ok (check type s)).

(** ** Loops *)

Definition remaining (s : parser) : nat := (length (tokens_ s) - current_ s)%nat.

Fixpoint loop {A} (fuel : nat) (body : A → P (option A)) (acc : A) : P A :=
  match fuel with
  | O => λ s, (s, UB)
  | S fuel =>
      next ← body acc;
      match next with Some acc => loop fuel body acc | None => mret acc end
  end.
Definition while_ {A} (body : A → P (option A)) (acc : A) : P A := λ s,
  loop (S (remaining s)) body acc s.

(** [do { step } while (match(COMMA));] *)
Definition comma_loop {A} (step : A → P A) (acc : A) : P A :=
  acc ← step acc;
  while_ (λ acc, more ← match_ T.COMMA;
                 if (more : bool) then acc ← step acc; mret (Some acc) else mret None) acc.
Definition comma_list {A} (item : P A) : P (list A) :=
  comma_loop (λ acc, x ← item; mret (acc ++ [x])) [].
Definition identifier_list (message : string) : P (list string) := comma_list (identifier message).

(** The first of the operators that matches. *)
Fixpoint match_op (ops : list (TokenType * BinaryOp)) : P (option BinaryOp) :=
  match ops with
  | [] => mret None
  | (type, op) :: ops =>
      found ← match_ type;
      if (found : bool) then mret (Some op) else match_op ops
  end.

(** [while (match(op)) expr = BinaryOp(expr, op, operand());] *)
Definition left_assoc (ops : list (TokenType * BinaryOp)) (operand : P Expression) : P Expression :=
  e ← operand;
  while_ (λ e, op ← match_op ops;
               match op with
               | None => mret None
               | Some op => r ← operand; mret (Some (BinaryOpE e op r))
               end) e.

(** ** Bind parameters *)

Definition mixed_parameters : string := "Cannot mix ? and $n bind parameters".

Definition parse_parameter_expression : P Expression :=
  text ← next_lexeme;
  s ← st_get;
  if bool_decide (text = "?") then
    if bool_decide (parameter_style_ s = Dollar) then throw_at mixed_parameters
    else
      st_put (set_parameters Question (S (next_parameter_index_ s)) (max_dollar_index_ s) (dollar_indices_ s) s);;
      mret (Parameter_ (next_parameter_index_ s))
  else match text with
  | String c digits =>
      if bool_decide (digits = "") || negb (Ascii.eqb c "$") then throw_at "Invalid bind parameter"
      else if bool_decide (parameter_style_ s = Question) then throw_at mixed_parameters
      else
        st_put (set_parameters Dollar (next_parameter_index_ s) (max_dollar_index_ s) (dollar_indices_ s) s);;
        one_based ← st_lift (std_stoull digits);
        if one_based =? 0 then throw_at "Bind parameters start at $1"
        else
          st_modify (set_parameters Dollar (next_parameter_index_ s)
            (if max_dollar_index_ s <? one_based then one_based else max_dollar_index_ s)
            ({[one_based]} ∪ dollar_indices_ s));;
          mret (Parameter_ (Z.to_nat (one_based - 1)))
  | EmptyString => throw_at "Invalid bind parameter"
  end.

Definition get_parameter_count (s : parser) : Z :=
  if bool_decide (parameter_style_ s = Dollar) then max_dollar_index_ s
  else Z.of_nat (next_parameter_index_ s).

(** The loop of [validate_dollar_parameters]: it stops at the first gap. *)
Fixpoint dense_from (fuel : nat) (i max : Z) (seen : gset Z) : res unit :=
  match fuel with
  | O => UB
  | S fuel =>
      if max <? i then Ok tt
      else if bool_decide (i ∈ seen) then dense_from fuel (i + 1) max seen
      else Throw (ParseException "Dollar parameters must be dense from $1 without gaps")
  end.
Definition validate_dollar_parameters : P unit := λ s,
  if bool_decide (parameter_style_ s = Dollar) && negb (max_dollar_index_ s =? 0)
  then (s, dense_from (S (size (dollar_indices_ s))) 1 (max_dollar_index_ s) (dollar_indices_ s))
  else (s, Ok tt).

(** ** Expressions

    [parse_expression_] and [parse_select_] are the recursive calls. *)

(** [ORDER BY] items. *)
Definition order_item (parse_expression_ : P Expression) : P (Expression * bool) :=
  e ← parse_expression_;
  desc ← match_ T.DESC;
  if (desc : bool) then mret (e, false) else match_ T.ASC;; mret (e, true).

Section expressions.
Context (parse_expression_ : P Expression) (parse_select_ : P SelectStatement).

Definition parse_window_spec : P (list Expression * list (Expression * bool)) :=
  consume T.LPAREN "Expected ( after OVER";;
  has_partition ← match_ T.PARTITION;
  partition_by ← (if (has_partition : bool)
                  then consume T.BY "Expected BY after PARTITION";; comma_list parse_expression_
                  else mret []);
  has_order ← match_ T.ORDER;
  if negb (has_order : bool) then throw_at "Window OVER requires ORDER BY in v1"
  else
    consume T.BY "Expected BY after ORDER";;
    order_by ← comma_list (order_item parse_expression_);
    consume T.RPAREN "Expected ) after window specification";;
    mret (partition_by, order_by).

(** The arguments between parentheses, the left one consumed. *)
Definition parse_arguments : P (list Expression) :=
  empty ← checks T.RPAREN;
  args ← (if (empty : bool) then mret [] else comma_list parse_expression_);
  consume T.RPAREN "Expected )";;
  mret args.

Definition parse_cast : P Expression :=
  inner ← parse_expression_;
  consume T.AS "Expected AS in CAST";;
  type_name ← identifier "Expected type in CAST";
  consume T.RPAREN "Expected ) after CAST";;
  st_catch (type ← st_lift (string_to_data_type type_name); mret (Cast inner type))
    (λ ex, throw_at (what ex)).

Definition parse_identifier_or_function : P Expression :=
  name ← next_lexeme;
  let upper_name := str_upper name in
  is_cast ← (if bool_decide (upper_name = "CAST") then match_ T.LPAREN else mret false);
  if (is_cast : bool) then parse_cast
  else
    call ← checks T.LPAREN;
    if bool_decide (upper_name = "CURRENT_DATE") && negb (call : bool)
    then mret (FunctionCall "current_date" [] None)
    else if (call : bool) then
      advance;;
      args ← parse_arguments;
      over ← match_ T.OVER;
      if (over : bool) then w ← parse_window_spec; mret (FunctionCall name args (Some w))
      else mret (FunctionCall name args None)
    else
      dot ← match_ T.DOT;
      if (dot : bool) then column ← next_lexeme; mret (ColumnRef name column)
      else if bool_decide (name = "*") then mret (Identifier "*")
      else mret (ColumnRef "" name).

(** [( SELECT ... )], the left parenthesis not yet consumed. *)
Definition parse_exists (is_not : bool) : P Expression :=
  consume T.LPAREN "Expected ( after EXISTS";;
  select ← parse_select_;
  consume T.RPAREN "Expected ) after EXISTS subquery";;
  mret (Exists select is_not).

Definition parse_parenthesized : P Expression :=
  is_select ← checks T.SELECT;
  if (is_select : bool) then
    select ← parse_select_; consume T.RPAREN "Expected )";; mret (Subquery select)
  else
    e ← parse_expression_; consume T.RPAREN "Expected )";; mret e.

Definition parse_primary_expression : P Expression :=
  is_null ← match_ T.NULL_KW;
  if (is_null : bool) then mret (Literal VNull) else
  is_true ← match_ T.TRUE_KW;
  if (is_true : bool) then mret (Literal (VBool true)) else
  is_false ← match_ T.FALSE_KW;
  if (is_false : bool) then mret (Literal (VBool false)) else
  is_parameter ← checks T.PARAMETER;
  if (is_parameter : bool) then parse_parameter_expression else
  is_exists ← match_ T.EXISTS;
  if (is_exists : bool) then parse_exists false else
  is_number ← checks T.NUMBER;
  if (is_number : bool) then
    text ← next_lexeme; v ← st_lift (number_value text); mret (Literal v) else
  is_str ← checks T.STRING;
  if (is_str : bool) then text ← next_lexeme; mret (Literal (VString text)) else
  is_paren ← match_ T.LPAREN;
  if (is_paren : bool) then parse_parenthesized else
  s ← st_get;
  if existsb (λ type, check type s) [T.COUNT; T.SUM; T.AVG; T.MIN; T.MAX; T.IDENTIFIER; T.ASTERISK]
  then parse_identifier_or_function
  else st_throw (ParseException "Expected expression").

Fixpoint unary_from (fuel : nat) : P Expression :=
  match fuel with
  | O => λ s, (s, UB)
  | S fuel =>
      minus ← match_ T.MINUS;
      if (minus : bool) then e ← unary_from fuel; mret (UnaryOpE NEG e)
      else parse_primary_expression
  end.
Definition parse_unary_expression : P Expression := λ s, unary_from (S (remaining s)) s.

Definition parse_multiplicative_expression : P Expression :=
  left_assoc [(T.MULTIPLY, MUL); (T.ASTERISK, MUL); (T.DIVIDE, DIV); (T.MODULO, MOD)]
    parse_unary_expression.
Definition parse_additive_expression : P Expression :=
  left_assoc [(T.PLUS, PLUS); (T.MINUS, MINUS)] parse_multiplicative_expression.

Definition parse_in_predicate (l : Expression) (is_not : bool) : P Expression :=
  consume T.LPAREN "Expected ( after IN";;
  is_select ← checks T.SELECT;
  if (is_select : bool) then
    select ← parse_select_;
    consume T.RPAREN "Expected ) after subquery";;
    mret (InSubquery l select is_not)
  else
    values ← comma_list parse_expression_;
    consume T.RPAREN "Expected ) after IN list";;
    if bool_decide (values = []) then throw_at "IN list must not be empty"
    else mret (InList l values is_not).

Definition comparison_ops : list (TokenType * BinaryOp) := [
  (T.EQUAL, EQ); (T.NOT_EQUAL, NE); (T.LESS, LT); (T.LESS_EQUAL, LE); (T.GREATER, GT);
  (T.GREATER_EQUAL, GE)].

(** A [NOT] that is not followed by [IN] is consumed all the same. *)
Definition parse_comparison_expression : P Expression :=
  e ← parse_additive_expression;
  between ← match_ T.BETWEEN;
  if (between : bool) then
    lower ← parse_additive_expression;
    consume T.AND "Expected AND in BETWEEN";;
    upper ← parse_additive_expression;
    mret (BinaryOpE (BinaryOpE e GE lower) AND (BinaryOpE e LE upper)) else
  is_in ← match_ T.IN;
  if (is_in : bool) then parse_in_predicate e false else
  is_not ← match_ T.NOT;
  not_in ← (if (is_not : bool) then checks T.IN else mret false);
  if (not_in : bool) then advance;; parse_in_predicate e true else
  op ← match_op comparison_ops;
  match op with
  | Some op => r ← parse_additive_expression; mret (BinaryOpE e op r)
  | None => mret e
  end.

Fixpoint not_from (fuel : nat) : P Expression :=
  match fuel with
  | O => λ s, (s, UB)
  | S fuel =>
      is_not ← match_ T.NOT;
      if (is_not : bool) then
        is_exists ← match_ T.EXISTS;
        if (is_exists : bool) then parse_exists true
        else e ← not_from fuel; mret (UnaryOpE NOT e)
      else parse_comparison_expression
  end.
Definition parse_not_expression : P Expression := λ s, not_from (S (remaining s)) s.

Definition parse_and_expression : P Expression := left_assoc [(T.AND, AND)] parse_not_expression.
Definition parse_or_expression : P Expression := left_assoc [(T.OR, OR)] parse_and_expression.
End expressions.

(** ** SELECT *)

Section select.
Context (parse_expression_ : P Expression).

Definition parse_optional_table_alias (default_alias : string) : P string :=
  has_as ← match_ T.AS;
  if (has_as : bool) then identifier "Expected alias" else
  s ← st_get;
  if negb (check T.IDENTIFIER s) then mret default_alias
  else
    let upper := str_upper (tok_lexeme (peek s)) in
    if bool_decide (upper = "LIMIT") || bool_decide (upper = "OFFSET") then mret default_alias
    else next_lexeme.

Definition parse_join_type : P string :=
  cross ← match_ T.CROSS;
  if (cross : bool) then consume T.JOIN "Expected JOIN";; mret "CROSS"%string else
  full ← match_ T.FULL;
  if (full : bool) then match_ T.OUTER;; consume T.JOIN "Expected JOIN";; mret "FULL"%string else
  inner ← match_ T.INNER;
  type ← (if (inner : bool) then mret "INNER"%string else
    l ← match_ T.LEFT;
    if (l : bool) then match_ T.OUTER;; mret "LEFT"%string else
    r ← match_ T.RIGHT;
    if (r : bool) then match_ T.OUTER;; mret "RIGHT"%string else mret "INNER"%string);
  consume T.JOIN "Expected JOIN";; mret type.

Definition parse_join : P (string * string * string * option Expression) :=
  type ← parse_join_type;
  table ← identifier "Expected table name";
  alias ← parse_optional_table_alias table;
  condition ←
    (if bool_decide (type = "CROSS") then
       on ← match_ T.ON;
       if (on : bool) then throw_at "CROSS JOIN cannot have ON clause" else mret None
     else if bool_decide (type = "FULL") then
       consume T.ON "Expected ON clause for FULL JOIN";; e ← parse_expression_; mret (Some e)
     else
       on ← match_ T.ON;
       if (on : bool) then e ← parse_expression_; mret (Some e) else mret None);
  mret (type, table, alias, condition).

Definition parse_joins : P (list (string * string * string * option Expression)) :=
  while_ (λ acc, s ← st_get;
    if existsb (λ type, check type s) [T.INNER; T.LEFT; T.RIGHT; T.JOIN; T.FULL; T.CROSS]
    then j ← parse_join; mret (Some (acc ++ [j]))
    else mret None) [].

(** A clause introduced by a keyword. *)
Definition optional_clause (type : TokenType) : P (option Expression) :=
  found ← match_ type;
  if (found : bool) then e ← parse_expression_; mret (Some e) else mret None.

Definition select_column : P (Expression * string) :=
  e ← parse_expression_;
  has_as ← match_ T.AS;
  if (has_as : bool) then alias ← identifier "Expected identifier"; mret (e, alias)
  else mret (e, ""%string).

Definition parse_select_core : P SelectStatement :=
  consume T.SELECT "Expected SELECT";;
  distinct ← match_ T.DISTINCT;
  columns ← comma_list select_column;
  has_from ← match_ T.FROM;
  '(from, alias, joins) ←
    (if (has_from : bool) then
       table ← identifier "Expected table name";
       alias ← parse_optional_table_alias table;
       joins ← parse_joins;
       mret (table, if bool_decide (alias = "") then table else alias, joins)
     else mret (""%string, ""%string, []));
  where_ ← optional_clause T.WHERE;
  has_group ← match_ T.GROUP;
  groups ← (if (has_group : bool) then consume T.BY "Expected BY";; comma_list parse_expression_ else mret []);
  having ← optional_clause T.HAVING;
  mret (mkSelect columns from alias where_ groups having [] joins distinct (-1) 0).

(** LIMIT and OFFSET are identifiers, recognised in upper case only. *)
Definition parse_count (keyword : string) (absent : Z) : P Z :=
  s ← st_get;
  if check T.IDENTIFIER s && bool_decide (tok_lexeme (peek s) = keyword) then
    advance;;
    is_number ← checks T.NUMBER;
    if (is_number : bool) then text ← next_lexeme; st_lift (std_stoi text) else mret absent
  else mret absent.

Definition parse_order_limit : P (list (Expression * bool) * Z * Z) :=
  has_order ← match_ T.ORDER;
  orders ← (if (has_order : bool)
            then consume T.BY "Expected BY";; comma_list (order_item parse_expression_) else mret []);
  limit ← parse_count "LIMIT" (-1);
  offset ← parse_count "OFFSET" 0;
  mret (orders, limit, offset).

Definition with_order_limit (s : SelectStatement) (orders : list (Expression * bool)) (limit offset : Z)
    : SelectStatement :=
  mkSelect (select_columns s) (from_table s) (from_alias s) (where_condition s) (group_by_columns s)
    (having_condition s) orders (joins s) (distinct s) limit offset.

Definition parse_select_body : P SelectStatement :=
  stmt ← parse_select_core;
  '(orders, limit, offset) ← parse_order_limit;
  mret (with_order_limit stmt orders limit offset).
End select.

(** ** Tying the knot *)

Fixpoint expression_from (fuel : nat) (s : parser) : parser * res Expression :=
  match fuel with
  | O => (s, UB)
  | S fuel => parse_or_expression (expression_from fuel) (select_from fuel) s
  end
with select_from (fuel : nat) (s : parser) : parser * res SelectStatement :=
  match fuel with
  | O => (s, UB)
  | S fuel => parse_select_body (expression_from fuel) s
  end.

Definition parse_expression : P Expression := λ s, expression_from (S (remaining s)) s.
Definition parse_select_statement : P SelectStatement := parse_select_body parse_expression.

Definition parse_standalone_expression : P Expression :=
  e ← parse_expression;
  match_ T.SEMICOLON;;
  s ← st_get;
  if is_at_end s then mret e else throw_at "Unexpected tokens after expression".

Definition run_parser {A} (p : P A) (sql : string) : res A :=
  tokens ← tokenize sql; snd (p (new_parser sql tokens)).
Definition parse_standalone_text : string → res Expression := run_parser parse_standalone_expression.

(** ** Queries *)

Definition parse_set_order_limit (s : SetOperationStatement) : P SetOperationStatement :=
  '(orders, limit, offset) ← parse_order_limit parse_expression;
  match s with
  | SetOperation l kind r is_all _ _ _ => mret (SetOperation l kind r is_all orders limit offset)
  end.

Definition match_set_operation : P (option (SetOperationKind * bool)) :=
  union ← match_ T.UNION;
  if (union : bool) then all ← match_ T.ALL; mret (Some (Union, all)) else
  intersect ← match_ T.INTERSECT;
  if (intersect : bool) then
    all ← match_ T.ALL;
    if (all : bool) then throw_at "INTERSECT ALL is not supported" else mret (Some (Intersect, false)) else
  except ← match_ T.EXCEPT;
  if (except : bool) then
    all ← match_ T.ALL;
    if (all : bool) then throw_at "EXCEPT ALL is not supported" else mret (Some (Except, false))
  else mret None.

Section query.
Context (parse_query_inner_ : P Operand).
Definition parse_query_primary : P Operand :=
  paren ← match_ T.LPAREN;
  if (paren : bool) then
    inner ← parse_query_inner_; consume T.RPAREN "Expected )";; mret inner
  else s ← parse_select_core parse_expression; mret (SelectOperand s).

Definition parse_query_chain : P Operand :=
  l ← parse_query_primary;
  while_ (λ l, op ← match_set_operation;
    match op with
    | None => mret None
    | Some (kind, is_all) =>
        r ← parse_query_primary;
        mret (Some (SetOperand (SetOperation l kind r is_all [] (-1) 0)))
    end) l.
End query.

Fixpoint query_from (fuel : nat) (s : parser) : parser * res Operand :=
  match fuel with
  | O => (s, UB)
  | S fuel => parse_query_chain (query_from fuel) s
  end.
Definition parse_query_inner : P Operand := λ s, query_from (S (remaining s)) s.

Definition parse_query_statement : P ParsedStatement :=
  root ← parse_query_inner;
  match root with
  | SelectOperand s =>
      '(orders, limit, offset) ← parse_order_limit parse_expression;
      mret (SSelect (with_order_limit s orders limit offset))
  | SetOperand s => s ← parse_set_order_limit s; mret (SSetOperation s)
  end.

(** ** INSERT, UPDATE, DELETE *)

Definition parenthesized_values : P (list Expression) :=
  consume T.LPAREN "Expected (";;
  values ← comma_list parse_expression;
  consume T.RPAREN "Expected )";;
  mret values.

(** Any identifier stands for INTO. *)
Definition parse_insert_statement : P ParsedStatement :=
  consume T.INSERT "Expected INSERT";;
  consume T.IDENTIFIER "Expected INTO";;
  table ← identifier "Expected table name";
  has_columns ← match_ T.LPAREN;
  columns ← (if (has_columns : bool) then
               cs ← identifier_list "Expected column name"; consume T.RPAREN "Expected )";; mret cs
             else mret []);
  consume T.VALUES "Expected VALUES";;
  rows ← comma_list parenthesized_values;
  mret (SInsert (mkInsert table columns rows)).

Definition set_clause : P (string * Expression) :=
  column ← identifier "Expected column name";
  consume T.EQUAL "Expected =";;
  e ← parse_expression;
  mret (column, e).

Definition parse_update_statement : P ParsedStatement :=
  consume T.UPDATE "Expected UPDATE";;
  table ← identifier "Expected table name";
  consume T.SET "Expected SET";;
  clauses ← comma_list set_clause;
  where_ ← optional_clause parse_expression T.WHERE;
  mret (SUpdate (mkUpdate table clauses where_)).

Definition parse_delete_statement : P ParsedStatement :=
  consume T.DELETE "Expected DELETE";;
  consume T.FROM "Expected FROM";;
  table ← identifier "Expected table name";
  where_ ← optional_clause parse_expression T.WHERE;
  mret (SDelete (mkDelete table where_)).

(** ** CREATE TABLE *)

Definition parse_referential_action : P ReferentialAction :=
  cascade ← match_ T.CASCADE;
  if (cascade : bool) then mret Cascade else
  restrict ← match_ T.RESTRICT;
  if (restrict : bool) then mret Restrict else
  set ← match_ T.SET;
  if (set : bool) then
    null ← match_ T.NULL_KW;
    if (null : bool) then mret SetNull else
    def ← match_ T.DEFAULT;
    if (def : bool) then mret SetDefault else throw_at "Expected NULL or DEFAULT after SET"
  else throw_at "Expected CASCADE, RESTRICT, SET NULL, or SET DEFAULT".

Definition parse_referential_actions (actions : ReferentialAction * ReferentialAction)
    : P (ReferentialAction * ReferentialAction) :=
  while_ (λ actions, on ← match_ T.ON;
    if negb (on : bool) then mret None else
    delete ← match_ T.DELETE;
    if (delete : bool) then a ← parse_referential_action; mret (Some (a, actions.2)) else
    update ← match_ T.UPDATE;
    if (update : bool) then a ← parse_referential_action; mret (Some (actions.1, a))
    else throw_at "Expected DELETE or UPDATE after ON") actions.

(** The literal after DEFAULT. *)
Definition parse_default : P value :=
  null ← match_ T.NULL_KW;
  if (null : bool) then mret VNull else
  is_number ← checks T.NUMBER;
  if (is_number : bool) then text ← next_lexeme; st_lift (number_value text) else
  is_str ← checks T.STRING;
  if (is_str : bool) then text ← next_lexeme; mret (VString text)
  else throw_at "Expected literal after DEFAULT".

Definition parenthesized (p : P Expression) : P Expression :=
  consume T.LPAREN "Expected (";; e ← p; consume T.RPAREN "Expected )";; mret e.

Definition set_flags (c : ColumnDefinition) (not_null primary_key unique : bool) : ColumnDefinition :=
  mkColumnDefinition (cd_name c) (cd_type c) not_null primary_key unique (cd_default c)
    (cd_references_table c) (cd_references_column c) (cd_on_delete c) (cd_on_update c) (cd_check c).
Definition set_default (c : ColumnDefinition) (v : value) : ColumnDefinition :=
  mkColumnDefinition (cd_name c) (cd_type c) (cd_not_null c) (cd_primary_key c) (cd_unique c) (Some v)
    (cd_references_table c) (cd_references_column c) (cd_on_delete c) (cd_on_update c) (cd_check c).
Definition set_references (c : ColumnDefinition) (table column : string)
    (actions : ReferentialAction * ReferentialAction) : ColumnDefinition :=
  mkColumnDefinition (cd_name c) (cd_type c) (cd_not_null c) (cd_primary_key c) (cd_unique c)
    (cd_default c) table column actions.1 actions.2 (cd_check c).
Definition set_check (c : ColumnDefinition) (e : Expression) : ColumnDefinition :=
  mkColumnDefinition (cd_name c) (cd_type c) (cd_not_null c) (cd_primary_key c) (cd_unique c)
    (cd_default c) (cd_references_table c) (cd_references_column c) (cd_on_delete c) (cd_on_update c) (Some e).

(** One column constraint, if there is one. *)
Definition column_constraint (c : ColumnDefinition) : P (option ColumnDefinition) :=
  is_not ← match_ T.NOT;
  if (is_not : bool) then
    consume T.NULL_KW "Expected NULL";;
    mret (Some (set_flags c true (cd_primary_key c) (cd_unique c))) else
  is_primary ← match_ T.PRIMARY;
  if (is_primary : bool) then
    consume T.KEY "Expected KEY";;
    mret (Some (set_flags c (cd_not_null c) true (cd_unique c))) else
  is_unique ← match_ T.UNIQUE;
  if (is_unique : bool) then
    mret (Some (set_flags c (cd_not_null c) (cd_primary_key c) true)) else
  is_default ← match_ T.DEFAULT;
  if (is_default : bool) then v ← parse_default; mret (Some (set_default c v)) else
  is_check ← match_ T.CHECK;
  if (is_check : bool) then e ← parenthesized parse_expression; mret (Some (set_check c e)) else
  is_references ← match_ T.REFERENCES;
  if (is_references : bool) then
    table ← identifier "Expected parent table";
    consume T.LPAREN "Expected (";;
    column ← identifier "Expected parent column";
    consume T.RPAREN "Expected )";;
    actions ← parse_referential_actions (cd_on_delete c, cd_on_update c);
    mret (Some (set_references c table column actions))
  else mret None.

(** References without a table name are not stored. *)
Definition parse_column_definition : P ColumnDefinition :=
  name ← identifier "Expected column name";
  type ← identifier "Expected type";
  c ← while_ column_constraint (new_column_definition name type);
  mret (if has_references c then c else set_references c "" "" (Restrict, Restrict)).

Definition parenthesized_columns (message : string) : P (list string) :=
  consume T.LPAREN "Expected (";;
  columns ← identifier_list message;
  consume T.RPAREN "Expected )";;
  mret columns.

Definition parse_table_foreign_key : P ForeignKeyDefinition :=
  consume T.FOREIGN "Expected FOREIGN";;
  consume T.KEY "Expected KEY";;
  child ← parenthesized_columns "Expected column name";
  consume T.REFERENCES "Expected REFERENCES";;
  table ← identifier "Expected parent table";
  parent ← parenthesized_columns "Expected parent column";
  if negb (length child =? length parent)%nat
  then throw_at "FOREIGN KEY child and parent column counts must match"
  else
    '(on_delete, on_update) ← parse_referential_actions (Restrict, Restrict);
    mret (mkForeignKey child table parent on_delete on_update).

Definition parse_table_check_constraint (constraint_name : string)
    : P (CheckConstraintDefinition SelectStatement) :=
  consume T.CHECK "Expected CHECK";;
  consume T.LPAREN "Expected (";;
  e ← parse_expression;
  consume T.RPAREN "Expected )";;
  mret (mkCheck SelectStatement constraint_name (expression_to_string e) (Some e)).

Definition literal_of (e : Expression) : option value :=
  match e with Literal v => Some v | _ => None end.

(** A literal, or an error. *)
Definition parse_literal (test : value → bool) (message : string) : P value :=
  e ← parse_expression;
  match literal_of e with
  | Some v => if test v then mret v else throw_at message
  | None => throw_at message
  end.
Definition int_of (v : value) : Z := match v with VInt z => z | _ => 0 end.

Definition parse_partition_bound : P PartitionBound :=
  from ← match_ T.FROM;
  if (from : bool) then
    consume T.LPAREN "Expected ( after FROM";;
    lower ← parse_literal (λ _, true) "Expected literal in FROM (...)";
    consume T.RPAREN "Expected ) after FROM value";;
    consume T.TO "Expected TO";;
    consume T.LPAREN "Expected ( after TO";;
    upper ← parse_literal (λ _, true) "Expected literal in TO (...)";
    consume T.RPAREN "Expected ) after TO value";;
    mret (mkBound (Some (mkRange lower upper)) None) else
  with_ ← match_ T.WITH;
  if (with_ : bool) then
    consume T.LPAREN "Expected ( after WITH";;
    consume T.MODULUS "Expected MODULUS";;
    m ← parse_literal is_int "Expected integer MODULUS";
    consume T.COMMA "Expected comma after MODULUS";;
    consume T.REMAINDER "Expected REMAINDER";;
    r ← parse_literal is_int "Expected integer REMAINDER";
    consume T.RPAREN "Expected ) after REMAINDER";;
    mret (mkBound None (Some (mkHash (int_of m) (int_of r))))
  else throw_at "Expected FROM or WITH after FOR VALUES".

(** [check(type) || (check(CONSTRAINT) && identifier && type)]. *)
Definition starts_constraint (type : TokenType) (s : parser) : bool :=
  check type s ||
  (check T.CONSTRAINT s && bool_decide (tok_type (peek_ahead 1 s) = T.IDENTIFIER) &&
   bool_decide (tok_type (peek_ahead 2 s) = type)).
(** The name of a constraint, empty when there is none. *)
Definition constraint_name : P string :=
  named ← match_ T.CONSTRAINT;
  if (named : bool) then identifier "Expected constraint name" else mret ""%string.

Definition add_table_part (s : CreateTableStatement) (cs : list ColumnDefinition)
    (fks : list ForeignKeyDefinition) (cks : list (CheckConstraintDefinition SelectStatement))
    (uqs : list (string * list string)) : CreateTableStatement :=
  mkCreateTable (ct_name s) (ct_columns s ++ cs) (ct_foreign_keys s ++ fks) (ct_checks s ++ cks)
    (ct_primary_key s) (ct_uniques s ++ uqs) (ct_partition_by s) (ct_partition_of s).
Definition set_primary_key (s : CreateTableStatement) (columns : list string) : CreateTableStatement :=
  mkCreateTable (ct_name s) (ct_columns s) (ct_foreign_keys s) (ct_checks s) columns (ct_uniques s)
    (ct_partition_by s) (ct_partition_of s).
Definition set_partition (s : CreateTableStatement) (by_ : option (PartitionKind * string))
    (part_of : option (string * PartitionBound)) : CreateTableStatement :=
  mkCreateTable (ct_name s) (ct_columns s) (ct_foreign_keys s) (ct_checks s) (ct_primary_key s)
    (ct_uniques s) by_ part_of.

Definition column_part (s : CreateTableStatement) : P CreateTableStatement :=
  c ← parse_column_definition;
  mret (add_table_part s [c]
    (if has_references c
     then [mkForeignKey [cd_name c] (cd_references_table c) [cd_references_column c] (cd_on_delete c) (cd_on_update c)]
     else [])
    match cd_check c with
    | Some e => [mkCheck SelectStatement "" (expression_to_string e) (Some e)]
    | None => []
    end []).

Definition table_element (stmt : CreateTableStatement) : P CreateTableStatement :=
  s ← st_get;
  if starts_constraint T.CHECK s then
    name ← constraint_name;
    ck ← parse_table_check_constraint name;
    mret (add_table_part stmt [] [] [ck] [])
  else if starts_constraint T.FOREIGN s then
    constraint_name;;
    fk ← parse_table_foreign_key;
    mret (add_table_part stmt [] [fk] [] [])
  else if starts_constraint T.PRIMARY s then
    constraint_name;;
    consume T.PRIMARY "Expected PRIMARY";;
    consume T.KEY "Expected KEY";;
    if negb (bool_decide (ct_primary_key stmt = [])) then throw_at "Multiple PRIMARY KEY definitions"
    else
      columns ← parenthesized_columns "Expected column name";
      if bool_decide (columns = []) then throw_at "PRIMARY KEY must list at least one column"
      else mret (set_primary_key stmt columns)
  else if starts_constraint T.UNIQUE s then
    name ← constraint_name;
    consume T.UNIQUE "Expected UNIQUE";;
    columns ← parenthesized_columns "Expected column name";
    if bool_decide (columns = []) then throw_at "UNIQUE must list at least one column"
    else mret (add_table_part stmt [] [] [] [(name, columns)])
  else column_part stmt.

Definition parse_partition_by : P (PartitionKind * string) :=
  consume T.BY "Expected BY after PARTITION";;
  range ← match_ T.RANGE;
  kind ← (if (range : bool) then mret Range else
    hash ← match_ T.HASH;
    if (hash : bool) then mret Hash else throw_at "Expected RANGE or HASH after PARTITION BY");
  consume T.LPAREN "Expected ( after partition kind";;
  column ← identifier "Expected partition key column";
  consume T.RPAREN "Expected ) after partition key";;
  mret (kind, column).

Definition parse_create_table_statement : P ParsedStatement :=
  consume T.CREATE "Expected CREATE";;
  consume T.TABLE "Expected TABLE";;
  table ← identifier "Expected table name";
  let stmt := new_create_table table in
  is_partition ← match_ T.PARTITION;
  if (is_partition : bool) then
    consume T.OF "Expected OF after PARTITION";;
    parent ← identifier "Expected parent table name";
    consume T.FOR "Expected FOR";;
    consume T.VALUES "Expected VALUES";;
    bound ← parse_partition_bound;
    match_ T.SEMICOLON;;
    mret (SCreateTable (set_partition stmt None (Some (parent, bound))))
  else
    consume T.LPAREN "Expected (";;
    stmt ← comma_loop table_element stmt;
    consume T.RPAREN "Expected )";;
    partitioned ← match_ T.PARTITION;
    by_ ← (if (partitioned : bool) then p ← parse_partition_by; mret (Some p) else mret None);
    match_ T.SEMICOLON;;
    mret (SCreateTable (set_partition stmt by_ None)).

(** ** Views, indexes, prepared statements *)

(** The passes over the text need characters of 7 bits: [::toupper] of another
    [char] is undefined. *)
Definition is_ascii (s : string) : bool :=
  forallb (λ c, char_code c <=? 127) (String.list_ascii_of_string s).

Fixpoint drop_while (p : Ascii.ascii → bool) (l : list Ascii.ascii) : list Ascii.ascii :=
  match l with
  | c :: rest => if p c then drop_while p rest else l
  | [] => []
  end.
Definition trim_end (p : Ascii.ascii → bool) (s : string) : string :=
  String.string_of_list_ascii (rev (drop_while p (rev (String.list_ascii_of_string s)))).

Definition trim_trailing_sql : string → string := trim_end (λ c, Ascii.eqb c ";" || is_space c).

Definition extract_sql_after_as (original_sql : string) : res string :=
  if bool_decide (original_sql = "") then Throw (ParseException "Statement requires original SQL text")
  else if negb (is_ascii original_sql) then UB
  else match String.index 0 " AS " (str_upper original_sql) with
  | None => Throw (ParseException "Expected AS clause")
  | Some as_pos => Ok (trim_trailing_sql (str_drop (as_pos + 4) original_sql))
  end.

Definition parse_create_index_statement : P ParsedStatement :=
  consume T.CREATE "Expected CREATE";;
  consume T.INDEX "Expected INDEX";;
  index_name ← identifier "Expected index name";
  consume T.ON "Expected ON";;
  table_name ← identifier "Expected table name";
  columns ← parenthesized_columns "Expected column name";
  match_ T.SEMICOLON;;
  mret (SCreateIndex index_name table_name columns).

Definition parse_create_view_statement : P ParsedStatement :=
  consume T.CREATE "Expected CREATE";;
  consume T.VIEW "Expected VIEW";;
  view_name ← identifier "Expected view name";
  consume T.AS "Expected AS";;
  s ← st_get;
  select_sql ← st_lift (extract_sql_after_as (original_sql_ s));
  select ← parse_select_statement;
  match_ T.SEMICOLON;;
  mret (SCreateView view_name select_sql select).

Definition parse_if_exists : P bool :=
  found ← match_ T.IF;
  if (found : bool) then consume T.EXISTS "Expected EXISTS after IF";; mret true else mret false.

(** [DROP <type> [IF EXISTS] name]. *)
Definition parse_drop (type : TokenType) (type_message name_message : string) : P (string * bool) :=
  consume T.DROP "Expected DROP";;
  consume type type_message;;
  if_exists ← parse_if_exists;
  name ← identifier name_message;
  match_ T.SEMICOLON;;
  mret (name, if_exists).
Definition parse_drop_view_statement : P ParsedStatement :=
  '(name, if_exists) ← parse_drop T.VIEW "Expected VIEW" "Expected view name"; mret (SDropView name if_exists).
Definition parse_drop_function_statement : P ParsedStatement :=
  '(name, if_exists) ← parse_drop T.FUNCTION "Expected FUNCTION" "Expected function name";
  mret (SDropFunction name if_exists).
Definition parse_drop_procedure_statement : P ParsedStatement :=
  '(name, if_exists) ← parse_drop T.PROCEDURE "Expected PROCEDURE" "Expected procedure name";
  mret (SDropProcedure name if_exists).
Definition parse_drop_trigger_statement : P ParsedStatement :=
  '(name, if_exists) ← parse_drop T.TRIGGER "Expected TRIGGER" "Expected trigger name";
  mret (SDropTrigger name if_exists).

Definition parse_drop_table_statement : P ParsedStatement :=
  consume T.DROP "Expected DROP";;
  consume T.TABLE "Expected TABLE";;
  table ← identifier "Expected table name";
  match_ T.SEMICOLON;;
  mret (SDropTable table).
Definition parse_drop_index_statement : P ParsedStatement :=
  consume T.DROP "Expected DROP";;
  consume T.INDEX "Expected INDEX";;
  index_name ← identifier "Expected index name";
  match_ T.SEMICOLON;;
  mret (SDropIndex index_name).

Definition parse_begin_statement : P ParsedStatement :=
  consume T.BEGIN "Expected BEGIN";; match_ T.SEMICOLON;; mret SBegin.
Definition parse_commit_statement : P ParsedStatement :=
  consume T.COMMIT "Expected COMMIT";; match_ T.SEMICOLON;; mret SCommit.
Definition parse_rollback_statement : P ParsedStatement :=
  consume T.ROLLBACK "Expected ROLLBACK";; match_ T.SEMICOLON;; mret SRollback.

(** [while (!END_OF_INPUT) advance();] *)
Definition skip_to_end : P unit :=
  while_ (λ _, s ← st_get;
    if is_at_end s then mret None else advance;; mret (Some tt)) tt.

Definition parse_prepare_statement : P ParsedStatement :=
  consume T.PREPARE "Expected PREPARE";;
  name ← identifier "Expected statement name";
  consume T.AS "Expected AS";;
  s ← st_get;
  if bool_decide (original_sql_ s = "") then st_throw (ParseException "PREPARE requires original SQL text")
  else
    sql ← st_lift (extract_sql_after_as (original_sql_ s));
    skip_to_end;;
    mret (SPrepare name sql).

Definition bind_argument : P value :=
  null ← match_ T.NULL_KW;
  if (null : bool) then mret VNull else
  is_true ← match_ T.TRUE_KW;
  if (is_true : bool) then mret (VBool true) else
  is_false ← match_ T.FALSE_KW;
  if (is_false : bool) then mret (VBool false) else
  is_number ← checks T.NUMBER;
  if (is_number : bool) then text ← next_lexeme; st_lift (number_value text) else
  is_str ← checks T.STRING;
  if (is_str : bool) then text ← next_lexeme; mret (VString text)
  else throw_at "Expected literal bind argument".

Definition parse_execute_statement : P ParsedStatement :=
  consume T.EXECUTE "Expected EXECUTE";;
  name ← identifier "Expected statement name";
  paren ← match_ T.LPAREN;
  arguments ← (if (paren : bool) then
      empty ← checks T.RPAREN;
      args ← (if (empty : bool) then mret [] else comma_list bind_argument);
      consume T.RPAREN "Expected )";; mret args
    else mret []);
  match_ T.SEMICOLON;;
  mret (SExecute name arguments).

Definition parse_deallocate_statement : P ParsedStatement :=
  consume T.DEALLOCATE "Expected DEALLOCATE";;
  match_ T.PREPARE;;
  name ← identifier "Expected statement name";
  match_ T.SEMICOLON;;
  mret (SDeallocate name).

Definition parse_vacuum_statement : P ParsedStatement :=
  consume T.VACUUM "Expected VACUUM";;
  named ← checks T.IDENTIFIER;
  table_name ← (if (named : bool) then next_lexeme else mret ""%string);
  match_ T.SEMICOLON;;
  mret (SVacuum table_name).

(** ** ALTER TABLE *)

Definition named_action (type : AlterTableActionType) (name new_name : string) (columns : list string)
    : AlterTableAction :=
  mkAction type (new_column_definition "" "") name new_name "" None columns.
Definition check_action (name : string) (e : Expression) : AlterTableAction :=
  mkAction AddCheck (new_column_definition "" "") "" "" name (Some e) [].

(** A parenthesized list of columns, the first of which names the action. *)
Definition key_action (type : AlterTableActionType) (empty_message : string) : P AlterTableAction :=
  columns ← parenthesized_columns "Expected column name";
  match columns with
  | [] => throw_at empty_message
  | c :: _ => mret (named_action type c "" columns)
  end.
Definition no_pk_columns : string := "PRIMARY KEY must list at least one column".
Definition no_unique_columns : string := "UNIQUE must list at least one column".

Definition parse_alter_add : P AlterTableAction :=
  column ← match_ T.COLUMN;
  if (column : bool) then c ← parse_column_definition; mret (mkAction AddColumn c "" "" "" None []) else
  constraint ← match_ T.CONSTRAINT;
  if (constraint : bool) then
    name ← identifier "Expected constraint name";
    consume T.CHECK "Expected CHECK";;
    e ← parenthesized parse_expression; mret (check_action name e) else
  ck ← match_ T.CHECK;
  if (ck : bool) then e ← parenthesized parse_expression; mret (check_action "" e) else
  primary ← match_ T.PRIMARY;
  if (primary : bool) then consume T.KEY "Expected KEY";; key_action AddPrimaryKey no_pk_columns else
  unique ← match_ T.UNIQUE;
  if (unique : bool) then key_action AddUnique no_unique_columns
  else throw_at "Expected COLUMN, CHECK, PRIMARY KEY, or UNIQUE after ADD".

Definition parse_alter_drop : P AlterTableAction :=
  column ← match_ T.COLUMN;
  if (column : bool) then name ← identifier "Expected column name"; mret (named_action DropColumn name "" []) else
  ck ← match_ T.CHECK;
  if (ck : bool) then
    name ← identifier "Expected CHECK constraint name"; mret (named_action DropCheck name "" []) else
  primary ← match_ T.PRIMARY;
  if (primary : bool) then consume T.KEY "Expected KEY";; mret (named_action DropPrimaryKey "" "" []) else
  unique ← match_ T.UNIQUE;
  if (unique : bool) then key_action DropUnique no_unique_columns
  else throw_at "Expected COLUMN, CHECK, PRIMARY KEY, or UNIQUE after DROP".

Definition parse_alter_rename : P AlterTableAction :=
  to ← match_ T.TO;
  if (to : bool) then name ← identifier "Expected new table name"; mret (named_action RenameTable "" name []) else
  column ← match_ T.COLUMN;
  if (column : bool) then
    name ← identifier "Expected column name";
    consume T.TO "Expected TO";;
    new_name ← identifier "Expected new column name";
    mret (named_action RenameColumn name new_name [])
  else throw_at "Expected TO or COLUMN after RENAME".

Definition parse_alter_column : P AlterTableAction :=
  consume T.COLUMN "Expected COLUMN";;
  name ← identifier "Expected column name";
  set ← match_ T.SET;
  if (set : bool) then
    consume T.NOT "Expected NOT";; consume T.NULL_KW "Expected NULL";; mret (named_action SetNotNull name "" []) else
  drop ← match_ T.DROP;
  if (drop : bool) then
    consume T.NOT "Expected NOT";; consume T.NULL_KW "Expected NULL";; mret (named_action DropNotNull name "" [])
  else throw_at "Expected SET NOT NULL or DROP NOT NULL".

Definition parse_alter_table_statement : P ParsedStatement :=
  consume T.ALTER "Expected ALTER";;
  consume T.TABLE "Expected TABLE";;
  table ← identifier "Expected table name";
  add ← match_ T.ADD;
  action ← (if (add : bool) then parse_alter_add else
    drop ← match_ T.DROP;
    if (drop : bool) then parse_alter_drop else
    rename ← match_ T.RENAME;
    if (rename : bool) then parse_alter_rename else
    alter ← match_ T.ALTER;
    if (alter : bool) then parse_alter_column else throw_at "Invalid ALTER TABLE action");
  match_ T.SEMICOLON;;
  mret (SAlterTable (mkAlterTable table action)).

(** ** Routines *)

Definition routine_param : P RoutineParamAst :=
  name ← identifier "Expected parameter name";
  type ← identifier "Expected parameter type";
  mret (mkRoutineParam name type).
Definition parse_routine_param_list : P (list RoutineParamAst) :=
  consume T.LPAREN "Expected (";;
  empty ← checks T.RPAREN;
  params ← (if (empty : bool) then mret [] else comma_list routine_param);
  consume T.RPAREN "Expected )";;
  mret params.

Definition parse_function_body_expression : P Expression :=
  match_ T.RETURN;;
  body ← parse_expression;
  match_ T.SEMICOLON;;
  mret body.

Definition trim_space (l : list Ascii.ascii) : string :=
  trim_end is_space (String.string_of_list_ascii (drop_while is_space l)).
(** The statement collected so far, in reverse, unless it is blank. *)
Definition flush_statement (current : list Ascii.ascii) : list string :=
  let text := trim_space (rev current) in if bool_decide (text = "") then [] else [text].

(** The loop of [split_sql_statements]: semicolons outside parentheses and
    strings separate statements.  [depth] is an [int]; a text would need 2^31
    parentheses to leave its range. *)
Fixpoint split_from (in_string : bool) (depth : Z) (current rest : list Ascii.ascii) : list string :=
  match rest with
  | [] => flush_statement current
  | c :: rest =>
      if in_string then
        if Ascii.eqb c squote then
          match rest with
          | c2 :: rest2 =>
              if Ascii.eqb c2 squote then split_from true depth (c2 :: c :: current) rest2
              else split_from false depth (c :: current) rest
          | [] => split_from false depth (c :: current) rest
          end
        else split_from true depth (c :: current) rest
      else if Ascii.eqb c squote then split_from true depth (c :: current) rest
      else
        let depth := if Ascii.eqb c "(" then depth + 1 else if Ascii.eqb c ")" then depth - 1 else depth in
        if Ascii.eqb c ";" && (depth =? 0) then flush_statement current ++ split_from false depth [] rest
        else split_from false depth (c :: current) rest
  end.
Definition split_sql_statements (body : string) : list string :=
  split_from false 0 [] (String.list_ascii_of_string body).

Definition trim_original_sql (s : parser) : string :=
  trim_end (λ c, Ascii.eqb c "010" || Ascii.eqb c "013" || Ascii.eqb c " " || Ascii.eqb c "009")
    (original_sql_ s).

(** [try { string_to_data_type(...) } catch (ex) { throw ParseException }] *)
Definition check_types (types : list string) : P unit :=
  st_catch (st_iter (λ t, st_lift (string_to_data_type t);; mret tt) types) (λ ex, throw_at (what ex)).

Definition parse_create_function_statement : P ParsedStatement :=
  consume T.CREATE "Expected CREATE";;
  consume T.FUNCTION "Expected FUNCTION";;
  name ← identifier "Expected function name";
  params ← parse_routine_param_list;
  consume T.RETURNS "Expected RETURNS";;
  return_type ← identifier "Expected return type";
  consume T.AS "Expected AS";;
  quoted ← checks T.DOLLAR_QUOTED_STRING;
  body ← (if (quoted : bool) then
            text ← next_lexeme; st_lift (run_parser parse_function_body_expression text)
          else parse_expression);
  match_ T.SEMICOLON;;
  check_types (return_type :: (rp_type_name <$> params));;
  s ← st_get;
  mret (SCreateFunction name params return_type body (trim_original_sql s)).

Definition parse_call_statement : P ParsedStatement :=
  consume T.CALL "Expected CALL";;
  name ← identifier "Expected procedure name";
  consume T.LPAREN "Expected (";;
  args ← parse_arguments parse_expression;
  match_ T.SEMICOLON;;
  mret (SCall name args).

Definition parse_set_new_statement : P ParsedStatement :=
  consume T.SET "Expected SET";;
  new_lexeme ← identifier "Expected NEW after SET";
  if negb (bool_decide (str_upper new_lexeme = "NEW")) then throw_at "Expected NEW after SET"
  else
    consume T.DOT "Expected . after NEW";;
    column_name ← identifier "Expected column name";
    consume T.EQUAL "Expected =";;
    e ← parse_expression;
    match_ T.SEMICOLON;;
    mret (SSetNew column_name e).

Section statements.
(** [Parser(text).parse_statement()] of the statements of a body. *)
Context (parse_nested : string → res ParsedStatement).

(** The statements of a $$ body, each of which has to parse. *)
Definition parse_body (quoted_message empty_message : string) : P (list string) :=
  quoted ← checks T.DOLLAR_QUOTED_STRING;
  if negb (quoted : bool) then throw_at quoted_message
  else
    text ← next_lexeme;
    let statements := split_sql_statements text in
    if bool_decide (statements = []) then throw_at empty_message
    else
      st_iter (λ sql, st_lift (parse_nested sql);; mret tt) statements;;
      mret statements.

Definition parse_create_procedure_statement : P ParsedStatement :=
  consume T.CREATE "Expected CREATE";;
  consume T.PROCEDURE "Expected PROCEDURE";;
  name ← identifier "Expected procedure name";
  params ← parse_routine_param_list;
  consume T.AS "Expected AS";;
  statements ← parse_body "Expected $$ ... $$ body for CREATE PROCEDURE" "Procedure body is empty";
  match_ T.SEMICOLON;;
  check_types (rp_type_name <$> params);;
  s ← st_get;
  mret (SCreateProcedure name params statements (trim_original_sql s)).

Definition parse_trigger_timing : P TriggerTiming :=
  before ← match_ T.BEFORE;
  if (before : bool) then mret Before else
  after ← match_ T.AFTER;
  if (after : bool) then mret After else throw_at "Expected BEFORE or AFTER".
Definition parse_trigger_event : P TriggerEvent :=
  ins ← match_ T.INSERT;
  if (ins : bool) then mret OnInsert else
  upd ← match_ T.UPDATE;
  if (upd : bool) then mret OnUpdate else
  del ← match_ T.DELETE;
  if (del : bool) then mret OnDelete else throw_at "Expected INSERT, UPDATE, or DELETE".

Definition parse_create_trigger_statement : P ParsedStatement :=
  consume T.CREATE "Expected CREATE";;
  consume T.TRIGGER "Expected TRIGGER";;
  name ← identifier "Expected trigger name";
  timing ← parse_trigger_timing;
  event ← parse_trigger_event;
  consume T.ON "Expected ON";;
  table_name ← identifier "Expected table name";
  consume T.FOR "Expected FOR";;
  consume T.EACH "Expected EACH";;
  consume T.ROW "Expected ROW";;
  consume T.EXECUTE "Expected EXECUTE";;
  statements ← parse_body "Expected $$ ... $$ body for CREATE TRIGGER" "Trigger body is empty";
  match_ T.SEMICOLON;;
  s ← st_get;
  mret (SCreateTrigger name table_name timing event statements (trim_original_sql s)).

(** ** Dispatch *)

(** The first alternative whose token type is the given one. *)
Fixpoint by_type (type : TokenType) (alternatives : list (TokenType * P ParsedStatement))
    (otherwise : P ParsedStatement) : P ParsedStatement :=
  match alternatives with
  | [] => otherwise
  | (t, p) :: rest => if bool_decide (type = t) then p else by_type type rest otherwise
  end.

Definition parse_create : P ParsedStatement := λ s,
  by_type (tok_type (peek_ahead 1 s)) [
    (T.INDEX, parse_create_index_statement); (T.VIEW, parse_create_view_statement);
    (T.FUNCTION, parse_create_function_statement); (T.PROCEDURE, parse_create_procedure_statement);
    (T.TRIGGER, parse_create_trigger_statement)] parse_create_table_statement s.
Definition parse_drop_object : P ParsedStatement := λ s,
  by_type (tok_type (peek_ahead 1 s)) [
    (T.INDEX, parse_drop_index_statement); (T.VIEW, parse_drop_view_statement);
    (T.FUNCTION, parse_drop_function_statement); (T.PROCEDURE, parse_drop_procedure_statement);
    (T.TRIGGER, parse_drop_trigger_statement)] parse_drop_table_statement s.

Definition parse_inner_statement : P ParsedStatement := λ s,
  by_type (tok_type (peek s)) [
    (T.SELECT, parse_query_statement); (T.LPAREN, parse_query_statement);
    (T.INSERT, parse_insert_statement); (T.UPDATE, parse_update_statement);
    (T.DELETE, parse_delete_statement); (T.CREATE, parse_create); (T.DROP, parse_drop_object);
    (T.CALL, parse_call_statement); (T.SET, parse_set_new_statement);
    (T.ALTER, parse_alter_table_statement); (T.BEGIN, parse_begin_statement);
    (T.COMMIT, parse_commit_statement); (T.ROLLBACK, parse_rollback_statement);
    (T.PREPARE, parse_prepare_statement); (T.EXECUTE, parse_execute_statement);
    (T.DEALLOCATE, parse_deallocate_statement); (T.VACUUM, parse_vacuum_statement)]
    (st_throw (ParseException "Unknown statement")) s.

Definition parse_explain_statement : P ParsedStatement :=
  consume T.EXPLAIN "Expected EXPLAIN";;
  s ← st_get;
  if check T.EXPLAIN s then st_throw (ParseException "Nested EXPLAIN is not allowed")
  else if is_at_end s then st_throw (ParseException "Expected statement after EXPLAIN")
  else
    inner ← parse_inner_statement;
    validate_dollar_parameters;;
    mret (SExplain inner).

Definition parse_statement : P ParsedStatement := λ s,
  if check T.EXPLAIN s then parse_explain_statement s
  else (result ← parse_inner_statement; validate_dollar_parameters;; mret result) s.
End statements.

Fixpoint parse_text_from (fuel : nat) (sql : string) : res ParsedStatement :=
  match fuel with
  | O => UB
  | S fuel => run_parser (parse_statement (parse_text_from fuel)) sql
  end.
Definition parse_text (sql : string) : res ParsedStatement := parse_text_from (S (String.length sql)) sql.

(** ** CHECK constraints (src/core/check_constraint.cc) *)

Definition parse_check_expression (expression_text : string) : res Expression :=
  try_catch (parse_standalone_text expression_text)
    (λ e, Throw (ParseException ("Invalid CHECK expression: " +:+ what e))).
