(* ===== verification/ParserSafe.v ===== *)
(** * The parser terminates

    [safe n k c p]: started in a state that satisfies [c], with at most [n] tokens
    left, [p] ends without undefined behaviour, throws nothing but what a parser
    throws, and takes at least [k] tokens when it returns.  The rules below follow
    the structure of the parser, so that each function has a short proof; the fuel
    of every loop and of every recursion is shown to be enough on the way. *)

From Stdlib Require Import ZArith Lia Ascii.
From S2P Require Import Prelude CppNum Values Rows Expr Evaluator Partition Table Operators Lexer Ast Parser.

(** What a parser throws: its own errors, and those of the number conversions. *)
Definition parse_error (e : exn) : Prop :=
  match e with
  | ParseException _ | std_out_of_range _ | std_invalid_argument _ => True
  | _ => False
  end.

Definition res_safe {A} (r : res A) : Prop :=
  match r with Ok _ => True | Throw e => parse_error e | UB => False end.

Lemma ST_bind_assoc {S A B C} (m : ST S A) (g : A → ST S B) (f : B → ST S C) s :
  ((m ≫= g) ≫= f) s = (m ≫= λ a, g a ≫= f) s.
Proof. rewrite !ST_bind_eq. by destruct (m s) as [s' [a|e|]]. Qed.

Section safe.
(** The text and its tokens, which no operation changes. *)
Context (sql : string) (toks : list Token).

Definition wf (s : parser) : Prop :=
  tokens_ s = toks ∧ original_sql_ s = sql ∧ (current_ s ≤ length toks)%nat.

Definition any (s : parser) : Prop := True.
Definition live (s : parser) : Prop := is_at_end s = false.
Definition exactly (s0 s : parser) : Prop := s = s0.

Definition safe {A} (n k : nat) (c : parser → Prop) (p : P A) : Prop :=
  ∀ s, wf s → c s → (remaining s ≤ n)%nat →
    wf (fst (p s)) ∧
    match snd (p s) with
    | Ok _ => (remaining (fst (p s)) + k ≤ remaining s)%nat
    | Throw e => parse_error e
    | UB => False
    end.

Lemma safe_weaken {A} n n' k k' (c c' : parser → Prop) (p : P A) :
  safe n k c p → (n' ≤ n)%nat → (k' ≤ k)%nat → (∀ s, c' s → c s) → safe n' k' c' p.
Proof.
  intros H Hn Hk Hc s Hw Hs Hr. destruct (H s Hw (Hc _ Hs)) as [? Hp]; [lia|]. split; [done|].
  case_match; [lia|done..].
Qed.

Lemma safe_loose {A} n c (p : P A) : safe n 1 c p → safe n 0 c p.
Proof. intros H. eapply safe_weaken; [done|lia..|done]. Qed.
Lemma safe_any {A} n k c (p : P A) : safe n k any p → safe n k c p.
Proof. intros H. by eapply safe_weaken. Qed.

Lemma safe_bind {A B} n k j c (p : P A) (f : A → P B) :
  safe n k c p → (∀ a, safe (n - k) j any (f a)) → safe n (k + j) c (p ≫= f).
Proof.
  intros Hp Hf s Hw Hs Hr. destruct (Hp s Hw Hs Hr) as [Hw' Ho]. rewrite ST_bind_eq.
  destruct (p s) as [s' [a|e|]]; cbn [fst snd] in *; [|done..].
  destruct (Hf a s' Hw' I) as [? Hq]; [lia|]. split; [done|]. case_match; [lia|done..].
Qed.

Lemma safe_bind1 {A B} n k c (p : P A) (f : A → P B) :
  safe n 1 c p → ((1 ≤ n)%nat → ∀ a, safe (n - 1) 0 any (f a)) → (k ≤ 1)%nat → safe n k c (p ≫= f).
Proof.
  intros Hp Hf Hk s Hw Hs Hr. destruct (Hp s Hw Hs Hr) as [Hw' Ho]. rewrite ST_bind_eq.
  destruct (p s) as [s' [a|e|]]; cbn [fst snd] in *; [|done..].
  destruct (Hf ltac:(lia) a s' Hw' I) as [? Hq]; [lia|]. split; [done|]. case_match; [lia|done..].
Qed.
Lemma safe_bind0 {A B} n k c (p : P A) (f : A → P B) :
  safe n 0 c p → (∀ a, safe n k any (f a)) → safe n k c (p ≫= f).
Proof. intros Hp Hf. apply (safe_bind n 0 k); [done|]. intros a. by rewrite Nat.sub_0_r. Qed.

Lemma safe_ret {A} n c (a : A) : safe n 0 c (mret a).
Proof. intros s Hw _ _. split; [done|]. cbn. lia. Qed.
Lemma safe_lift {A} n c (r : res A) : res_safe r → safe n 0 c (st_lift r).
Proof. intros Hr s Hw _ _. split; [done|]. cbn. destruct r; [cbn; lia|done..]. Qed.
Lemma safe_throw {A} n k c e : parse_error e → safe n k c (st_throw e : P A).
Proof. intros He s Hw _ _. by split. Qed.
Lemma safe_throw_at {A} n k c m : safe n k c (throw_at m : P A).
Proof. intros s Hw _ _. by split. Qed.

Lemma safe_ret_bind {A B} n k c (a : A) (f : A → P B) : safe n k c (f a) → safe n k c (mret a ≫= f).
Proof. by intros H. Qed.

Lemma safe_get {B} n k c (f : parser → P B) :
  (∀ s0, wf s0 → c s0 → safe n k (exactly s0) (f s0)) → safe n k c (st_get ≫= f).
Proof. intros H s Hw Hs Hr. by apply (H s). Qed.

Lemma check_live type s : check type s = true → live s.
Proof. unfold check, live. by destruct (is_at_end s). Qed.

Lemma safe_advance n (c : parser → Prop) : (∀ s, c s → live s) → safe n 1 c advance.
Proof.
  intros Hc s (Ht & Ho & Hl) Hs Hr. specialize (Hc _ Hs). unfold live in Hc.
  unfold advance. rewrite Hc. cbn [set_current current_ tokens_ fst snd].
  unfold is_at_end in Hc. destruct (tokens_ s !! current_ s) as [t|] eqn:E; [|done].
  apply lookup_lt_Some in E. split; [split; cbn; [done|]; split; [done|]; rewrite <- Ht; lia|].
  unfold remaining. cbn. lia.
Qed.

(** Past the first token, [advance] is defined even at the end. *)
Definition moved (s : parser) : Prop := (1 ≤ current_ s)%nat.
Lemma safe_advance_moved n : safe n 0 moved advance.
Proof.
  intros s Hw Hs Hr. destruct (is_at_end s) eqn:E.
  - destruct Hw as (Ht & Ho & Hl). unfold advance. rewrite E. unfold moved in Hs.
    destruct (current_ s) as [|i] eqn:Ec; [lia|]. cbn [fst snd].
    destruct (lookup_lt_is_Some_2 (tokens_ s) i) as [t ->]; [rewrite Ht; lia|].
    split; [by repeat split; [..|rewrite Ec]|lia].
  - destruct (safe_advance n (exactly s)) with s as [Hw' Ha]; [by intros ? ->|done..|].
    split; [done|]. case_match; [lia|done..].
Qed.
Lemma safe_next_moved n : safe n 0 moved next_lexeme.
Proof. apply safe_bind0; [apply safe_advance_moved|intros; apply safe_ret]. Qed.
Lemma safe_match_moved {B} n k c type (f : bool → P B) :
  ((1 ≤ n)%nat → safe (n - 1) 0 moved (f true)) → safe n k c (f false) → (k ≤ 1)%nat →
  safe n k c (match_ type ≫= f).
Proof.
  intros Ht Hf Hk s Hw Hs Hr. rewrite ST_bind_eq. unfold match_. destruct (check type s) eqn:E.
  - destruct (safe_advance n (exactly s)) with s as [Hw' Ha]; [by intros ? ->; eapply check_live|done..|].
    assert (Hm : moved (fst (advance s))).
    { unfold advance. rewrite (check_live _ _ E). unfold moved. cbn. lia. }
    rewrite ST_bind_eq. destruct (advance s) as [s' [t|e|]]; cbn [fst snd] in *; [|done..].
    change ((mret true : P bool) s') with (s', Ok true). cbn [fst snd].
    destruct (Ht ltac:(lia) s' Hw' Hm) as [? Hq]; [lia|]. split; [done|]. case_match; [lia|done..].
  - by apply Hf.
Qed.

Lemma safe_match {B} n k c type (f : bool → P B) :
  ((1 ≤ n)%nat → safe (n - 1) 0 any (f true)) → safe n k c (f false) → (k ≤ 1)%nat →
  safe n k c (match_ type ≫= f).
Proof.
  intros Ht Hf Hk. apply safe_match_moved; [|done..]. intros Hn.
  eapply safe_weaken; [by apply Ht|done..].
Qed.

Lemma safe_checks {B} n k c type (f : bool → P B) :
  safe n k (λ s, c s ∧ check type s = true) (f true) → safe n k c (f false) → safe n k c (checks type ≫= f).
Proof.
  intros Ht Hf s Hw Hs Hr. rewrite ST_bind_eq. cbn [checks]. destruct (check type s) eqn:E.
  - by apply Ht.
  - by apply Hf.
Qed.

Lemma safe_match_ n c type : safe n 0 c (match_ type).
Proof.
  intros s Hw Hs Hr. unfold match_. destruct (check type s) eqn:E; [|split; [done|cbn; lia]].
  destruct (safe_advance n (exactly s)) with s as [Hw' Ha]; [by intros ? ->; eapply check_live|done..|].
  rewrite ST_bind_eq. destruct (advance s) as [s' [t|e|]]; cbn in *; [|done..]. split; [done|]. lia.
Qed.

Lemma safe_consume n c type m : safe n 1 c (consume type m).
Proof.
  intros s Hw Hs Hr. unfold consume. destruct (check type s) eqn:E; [|by apply (safe_throw_at n 1 any)].
  apply (safe_advance n (exactly s)); [|done..]. intros ? ->. by eapply check_live.
Qed.
Lemma safe_next_lexeme n (c : parser → Prop) : (∀ s, c s → live s) → safe n 1 c next_lexeme.
Proof. intros Hc. apply safe_bind1; [by apply safe_advance|intros; apply safe_ret|done]. Qed.
Lemma safe_identifier n c m : safe n 1 c (identifier m).
Proof. apply safe_bind1; [apply safe_consume|intros; apply safe_ret|done]. Qed.

Lemma safe_put n s0 s1 :
  tokens_ s1 = tokens_ s0 → original_sql_ s1 = original_sql_ s0 → current_ s1 = current_ s0 →
  safe n 0 (exactly s0) (st_put s1).
Proof.
  intros Ht Ho Hc s (Et & Eo & El) -> Hr. cbn. unfold wf, remaining. rewrite Ht, Ho, Hc. split; [done|lia].
Qed.
Lemma safe_modify n c style next mx seen : safe n 0 c (st_modify (set_parameters style next mx seen)).
Proof. intros s Hw _ _. split; [done|]. cbn. unfold remaining. cbn. lia. Qed.
Lemma safe_catch {A} n k c (p : P A) m :
  safe n k c p → safe n k c (st_catch p (λ ex, throw_at (m ex))).
Proof.
  intros Hp s Hw Hs Hr. unfold st_catch. destruct (Hp s Hw Hs Hr) as [Hw' Ho].
  by destruct (p s) as [s' [a|e|]].
Qed.

(** Loops. *)
Lemma safe_loop {A} (body : A → P (option A)) n : ∀ fuel acc,
  (n < fuel)%nat →
  (∀ m acc, (m ≤ n)%nat → ∀ s, wf s → (remaining s ≤ m)%nat →
     wf (fst (body acc s)) ∧
     match snd (body acc s) with
     | Ok (Some _) => (remaining (fst (body acc s)) < remaining s)%nat
     | Ok None => (remaining (fst (body acc s)) ≤ remaining s)%nat
     | Throw e => parse_error e
     | UB => False
     end) → safe n 0 any (loop fuel body acc).
Proof.
  induction n as [n IH] using lt_wf_ind. intros fuel acc Hf Hb. destruct fuel as [|fuel]; [lia|].
  intros s Hw _ Hr. cbn [loop]. rewrite ST_bind_eq.
  destruct (Hb n acc (le_n _) s Hw Hr) as [Hw' Ho].
  destruct (body acc s) as [s' [[acc'|]|e|]]; cbn [fst snd] in *; [| |done..]; [|split; [done|cbn; lia]].
  destruct (IH (remaining s') ltac:(lia) fuel acc') with s' as [? Hq]; [lia| |done..|].
  { intros m a Hm. apply (Hb m a). lia. }
  split; [done|]. case_match; [lia|done..].
Qed.

(** [turns n body]: a turn of a loop that goes on takes a token. *)
Definition turns {A} (n : nat) (body : P (option A)) : Prop :=
  ∀ s, wf s → (remaining s ≤ n)%nat →
    wf (fst (body s)) ∧
    match snd (body s) with
    | Ok (Some _) => (remaining (fst (body s)) < remaining s)%nat
    | Ok None => (remaining (fst (body s)) ≤ remaining s)%nat
    | Throw e => parse_error e
    | UB => False
    end.

Lemma safe_while {A} (body : A → P (option A)) n acc :
  (∀ m acc, (m ≤ n)%nat → turns m (body acc)) → safe n 0 any (while_ body acc).
Proof.
  intros Hb s Hw _ Hr. unfold while_.
  apply (safe_loop body (remaining s)); [lia| |done..].
  intros m a Hm. apply Hb. lia.
Qed.

Lemma turns_none {A} n : turns n (mret None : P (option A)).
Proof. intros s Hw _. split; [done|]. cbn. lia. Qed.
Lemma turns_safe {A} n (p : P (option A)) : safe n 1 any p → turns n p.
Proof.
  intros Hp s Hw Hr. destruct (Hp s Hw I Hr) as [? Ho]. split; [done|].
  destruct (snd (p s)) as [[a|]|e|]; [lia..|done|done].
Qed.
Lemma turns_match {A} n type (f : bool → P (option A)) :
  ((1 ≤ n)%nat → safe (n - 1) 0 any (f true)) → turns n (f false) → turns n (match_ type ≫= f).
Proof.
  intros Ht Hf s Hw Hr. rewrite ST_bind_eq. unfold match_. destruct (check type s) eqn:E; [|by apply Hf].
  destruct (safe_advance n (exactly s)) with s as [Hw' Ha]; [by intros ? ->; eapply check_live|done..|].
  rewrite ST_bind_eq. destruct (advance s) as [s' [t|e|]]; cbn [fst snd] in *; [|done..].
  destruct (Ht ltac:(lia) s' Hw' I) as [? Hq]; [lia|]. split; [done|].
  change ((mret true : P bool) s') with (s', Ok true). cbn [snd fst].
  destruct (snd (f true s')) as [[a|]|e|]; [lia..|done|done].
Qed.
Lemma turns_bind {A B} n (p : P A) (f : A → P (option B)) :
  safe n 1 any p → ((1 ≤ n)%nat → ∀ a, safe (n - 1) 0 any (f a)) → turns n (p ≫= f).
Proof. intros Hp Hf. apply turns_safe. by apply safe_bind1. Qed.

Lemma safe_comma_loop {A} n (step : A → P A) acc :
  (∀ m acc, (m ≤ n)%nat → safe m 1 any (step acc)) → safe n 1 any (comma_loop step acc).
Proof.
  intros Hs. apply safe_bind1; [by apply Hs| |done]. intros _ a. apply safe_while.
  intros m acc' Hm. apply turns_match; [intros _|apply turns_none].
  eapply safe_bind0; [eapply safe_weaken; [apply (Hs m); lia|lia..|done]|intros; apply safe_ret].
Qed.
Lemma safe_comma_list {A} n (item : P A) :
  safe n 1 any item → safe n 1 any (comma_list item).
Proof.
  intros Hi. apply safe_comma_loop. intros m acc Hm.
  apply safe_bind1; [by eapply safe_weaken; [apply Hi|..]|intros; apply safe_ret|done].
Qed.
Lemma safe_identifier_list n m : safe n 1 any (identifier_list m).
Proof. apply safe_comma_list, safe_identifier. Qed.

(** Operators: [turns] for the test, then the operand. *)
Lemma turns_ext {A} n (p q : P (option A)) : (∀ s, p s = q s) → turns n q → turns n p.
Proof. intros E H s. rewrite E. apply H. Qed.
Lemma safe_ext {A} n k c (p q : P A) : (∀ s, p s = q s) → safe n k c q → safe n k c p.
Proof. intros E H s. rewrite E. apply H. Qed.

Lemma safe_assoc {A B C} n k c (m : P A) (g : A → P B) (f : B → P C) :
  safe n k c (m ≫= λ a, g a ≫= f) → safe n k c ((m ≫= g) ≫= f).
Proof. apply safe_ext. intros s. apply ST_bind_assoc. Qed.

Lemma turns_op {A} n ops (f : option BinaryOp → P (option A)) :
  ((1 ≤ n)%nat → ∀ op, safe (n - 1) 0 any (f (Some op))) → turns n (f None) → turns n (match_op ops ≫= f).
Proof.
  intros Hs Hn. induction ops as [|[type op] ops IH]; [exact Hn|]. cbn [match_op].
  eapply turns_ext; [intros; apply ST_bind_assoc|]. apply turns_match; [exact (λ Hl, Hs Hl op)|exact IH].
Qed.
Lemma safe_op {B} n k c ops (f : option BinaryOp → P B) :
  ((1 ≤ n)%nat → ∀ op, safe (n - 1) 0 any (f (Some op))) → safe n k c (f None) → (k ≤ 1)%nat →
  safe n k c (match_op ops ≫= f).
Proof.
  intros Hs Hn Hk. induction ops as [|[type op] ops IH]; [exact Hn|]. cbn [match_op].
  eapply safe_ext; [intros; apply ST_bind_assoc|]. apply safe_match; [exact (λ Hl, Hs Hl op)|exact IH|done].
Qed.

Lemma safe_iter {A} n (f : A → P unit) l :
  (∀ x, x ∈ l → safe n 0 any (f x)) → safe n 0 any (st_iter f l).
Proof.
  intros Hf. unfold st_iter. generalize tt as u.
  assert (H : ∀ u, safe n 0 any (st_fold (λ (_ : unit) x, f x) u l)); [|exact H].
  induction l as [|x l IH]; intros u; [apply safe_ret|]. cbn [st_fold].
  apply safe_bind0; [apply Hf; set_solver|]. apply IH. set_solver.
Qed.

Lemma safe_left_assoc n ops operand :
  safe n 1 any operand → safe n 1 any (left_assoc ops operand).
Proof.
  intros Ho. apply safe_bind1; [done| |done]. intros _ e. apply safe_while. intros m acc Hm.
  apply turns_op; [|apply turns_none]. intros _ op.
  eapply safe_bind0; [by eapply safe_weaken; [apply Ho|lia..|]|intros; apply safe_ret].
Qed.
End safe.

Create HintDb parser_safe discriminated.
#[export] Hint Resolve safe_consume safe_identifier safe_advance safe_next_lexeme safe_next_moved safe_match_ safe_lift
  safe_modify safe_comma_list safe_identifier_list safe_left_assoc safe_ret safe_throw_at : parser_safe.

Lemma existsb_check_live types s : existsb (λ type, check type s) types = true → live s.
Proof. intros (type & _ & H)%existsb_exists. by eapply check_live. Qed.

(** The current token is there, by what was tested before. *)
Ltac solve_live :=
  let s := fresh in let H := fresh in
  intros s H; unfold exactly, any in *; destruct_and?; subst;
  repeat match goal with
  | E : _ && _ = true |- _ => apply andb_true_iff in E as [? ?]
  | E : negb _ = false |- _ => apply negb_false_iff in E
  end;
  first [assumption | eapply check_live; eassumption | eapply existsb_check_live; eassumption].
#[export] Hint Extern 0 (_ ≤ _)%nat => lia : parser_safe.
#[export] Hint Extern 0 (_ < _)%nat => lia : parser_safe.
#[export] Hint Extern 1 (∀ s, _ → live s) => solve_live : parser_safe.

(** One step along the structure of a parser. *)
Ltac safe_known := solve [eauto 3 with parser_safe].
Ltac safe_sub :=
  first [ apply safe_loose; safe_known | apply safe_any; safe_known | apply safe_loose, safe_any; safe_known ].
Ltac safe_step :=
  lazymatch goal with
  | |- ∀ _, _ => intros ?
  | |- _ → _ => intros ?
  | |- safe _ _ _ _ _ ((_ ≫= _) ≫= _) => apply safe_assoc; cbv beta
  | |- safe _ _ _ _ _ (mret _ ≫= _) => apply safe_ret_bind; cbv beta iota
  | |- safe _ _ _ _ _ ((if ?b then _ else _) ≫= _) => destruct b eqn:?
  | |- safe _ _ _ _ _ (match_ T.DOT ≫= _) => apply safe_match_moved; [| |lia]; cbv beta iota
  | |- safe _ _ _ _ _ (match_ _ ≫= _) => apply safe_match; [| |lia]; cbv beta iota
  | |- safe _ _ _ _ _ (checks _ ≫= _) => apply safe_checks; cbv beta iota
  | |- safe _ _ _ _ _ (st_get ≫= _) => apply safe_get; intros ? ? ?
  | |- safe _ _ _ _ (λ s, _ ∧ check T.DOLLAR_QUOTED_STRING s = true) (next_lexeme ≫= _) => fail
  | |- safe _ _ _ _ _ (match_op _ ≫= _) => apply safe_op; [| |lia]
  | |- safe _ _ _ _ _ (mret _) => apply safe_ret
  | |- safe _ _ _ _ _ (throw_at _) => apply safe_throw_at
  | |- safe _ _ _ _ _ (st_throw _) => apply safe_throw; exact I
  | |- safe _ _ _ _ _ (if ?b then _ else _) => destruct b eqn:?
  | |- safe _ _ _ _ _ (let '(_, _) := ?x in _) => destruct x
  | |- safe _ _ _ _ _ (match ?x with _ => _ end) => destruct x eqn:?
  | |- safe _ _ _ _ _ (_ ≫= _) =>
      first [ apply safe_bind1; [first [safe_known | safe_sub]| |lia]
            | apply safe_bind0; [first [safe_known | safe_sub]|] ]
  | |- safe _ _ _ _ _ _ => first [safe_known | safe_sub]
  end.
Ltac safe_auto := repeat safe_step.

(** ** Conversions *)

Lemma stoi_safe s : res_safe (std_stoi s).
Proof. unfold std_stoi. by repeat case_match. Qed.
Lemma stoull_safe s : res_safe (std_stoull s).
Proof. unfold std_stoull. by repeat case_match. Qed.
Lemma stoll_safe s : res_safe (std_stoll s).
Proof. unfold std_stoll. by repeat case_match. Qed.
Lemma stod_safe s : res_safe (std_stod s).
Proof. unfold std_stod, stod_range. by repeat case_match. Qed.
Lemma fmap_safe {A B} (f : A → B) r : res_safe r → res_safe (f <$> r).
Proof. by destruct r. Qed.
Lemma number_safe s : res_safe (number_value s).
Proof. unfold number_value. destruct (has_dot s); apply fmap_safe; [apply stod_safe|apply stoll_safe]. Qed.
Lemma data_type_safe s : res_safe (string_to_data_type s).
Proof. unfold string_to_data_type. by repeat case_match. Qed.
#[export] Hint Resolve stoi_safe stoull_safe stoll_safe stod_safe number_safe data_type_safe : parser_safe.

(** ** Statements of a body *)

Definition text_below (n : nat) (s : string) : Prop := ascii7 s ∧ (String.length s ≤ n)%nat.

Lemma drop_while_part p (P : Ascii.ascii → Prop) l :
  Forall P l → Forall P (drop_while p l) ∧ (length (drop_while p l) ≤ length l)%nat.
Proof.
  induction l as [|c l IH]; intros H; cbn [drop_while]; [done|].
  apply Forall_cons_iff in H as [Hc H]. destruct (p c); [|split; [by constructor|done]].
  destruct (IH H). cbn. split; [done|lia].
Qed.
Lemma length_chars s : String.length s = length (String.list_ascii_of_string s).
Proof. induction s; cbn; auto. Qed.

Lemma trim_space_part (P : Ascii.ascii → Prop) l :
  Forall P l → Forall P (String.list_ascii_of_string (trim_space l)) ∧ (String.length (trim_space l) ≤ length l)%nat.
Proof.
  intros H. unfold trim_space, trim_end. rewrite length_chars, !String.list_ascii_of_string_of_list_ascii.
  destruct (drop_while_part is_space P l H) as [H1 L1]. rewrite length_rev.
  destruct (drop_while_part is_space P (rev (drop_while is_space l))) as [H2 L2]; [by apply Forall_rev|].
  rewrite length_rev in L2. split; [by apply Forall_rev|lia].
Qed.

Lemma split_from_parts n : ∀ rest in_string depth current,
  (length rest ≤ n)%nat → Forall (λ c, char_code c ≤ 127) (current ++ rest) →
  Forall (text_below (length current + length rest)) (split_from in_string depth current rest).
Proof.
  assert (Hfl : ∀ current m, Forall (λ c, char_code c ≤ 127) current → (length current ≤ m)%nat →
    Forall (text_below m) (flush_statement current)).
  { intros current m H Hm. unfold flush_statement. case_bool_decide; [constructor|].
    apply Forall_singleton. destruct (trim_space_part _ (rev current) (Forall_rev H)) as [? Hl].
    rewrite length_rev in Hl. split; [done|lia]. }
  assert (Hmono : ∀ l m m', (m ≤ m')%nat → Forall (text_below m) l → Forall (text_below m') l).
  { intros l m m' Hm H. eapply Forall_impl; [done|]. intros t [? ?]. split; [done|lia]. }
  induction n as [|n IH]; intros [|c rest] in_string depth current Hn H; cbn [split_from length] in *;
    try lia; try (rewrite app_nil_r in H; apply Hfl; [done|lia]).
  assert (Hc : ∀ b d, Forall (text_below (length current + S (length rest))) (split_from b d (c :: current) rest)).
  { intros b d. replace (length current + S (length rest))%nat with (length (c :: current) + length rest)%nat by (cbn; lia).
    apply IH; [lia|]. apply Forall_app in H as [? [? ?]%Forall_cons_iff]. apply Forall_app. split; [by constructor|done]. }
  destruct in_string.
  - destruct (Ascii.eqb c squote); [|apply Hc]. destruct rest as [|c2 rest]; [apply Hc|].
    destruct (Ascii.eqb c2 squote); [|apply Hc]. cbn [length] in *.
    replace (length current + S (S (length rest)))%nat
      with (length (c2 :: c :: current) + length rest)%nat by (cbn; lia).
    apply IH; [lia|]. apply Forall_app in H as [? [? [? ?]%Forall_cons_iff]%Forall_cons_iff].
    apply Forall_app. split; [by repeat constructor|done].
  - destruct (Ascii.eqb c squote); [apply Hc|]. destruct (Ascii.eqb c ";" && _); [|apply Hc].
    apply Forall_app in H as [? [? ?]%Forall_cons_iff]. apply Forall_app. split; [apply Hfl; [done|lia]|].
    eapply Hmono; [|apply (IH rest); [lia|done]]. cbn. lia.
Qed.
Lemma split_parts body : ascii7 body → Forall (text_below (String.length body)) (split_sql_statements body).
Proof. intros H. rewrite length_chars. by apply (split_from_parts _ _ _ _ [] (le_n _)). Qed.

Section functions.
Context (sql : string) (toks : list Token).
Local Abbreviation safe := (safe sql toks).

(** ** Expressions *)

Lemma safe_parameter n (c : parser → Prop) : (∀ s, c s → live s) → safe n 1 c parse_parameter_expression.
Proof.
  intros Hc. unfold parse_parameter_expression. apply safe_bind1; [by apply safe_next_lexeme| |done].
  intros _ text. apply safe_get. intros s _ _. case_match; [case_match; [apply safe_throw_at|]|].
  - apply safe_bind0; [by apply safe_put|]. safe_auto.
  - destruct text as [|d text]; [apply safe_throw_at|]. repeat (case_match; [apply safe_throw_at|]).
    apply safe_bind0; [by apply safe_put|]. safe_auto.
Qed.

(** The recursive calls are safe on fewer tokens. *)
Definition calls {A} (n : nat) (p : P A) : Prop :=
  ∀ m k c, (m < n)%nat → (k ≤ 1)%nat → safe m k c p.

Lemma safe_order_item n pe : safe n 1 any pe → safe n 1 any (order_item pe).
Proof. intros H. unfold order_item. safe_auto. Qed.

Section expressions.
Context (n : nat) (pe : P Expression) (ps : P SelectStatement).
Hypothesis Hpe : calls n pe.
Hypothesis Hps : calls n ps.
Hint Unfold calls : parser_safe.

Lemma calls_list m : (m < n)%nat → safe m 1 any (comma_list pe).
Proof. intros Hm. apply safe_comma_list. by apply Hpe. Qed.
Lemma calls_orders m : (m < n)%nat → safe m 1 any (comma_list (order_item pe)).
Proof. intros Hm. apply safe_comma_list, safe_order_item. by apply Hpe. Qed.
Hint Resolve calls_list calls_orders : parser_safe.
Hint Extern 2 (ParserSafe.safe _ _ _ _ _ pe) => apply Hpe; lia : parser_safe.
Hint Extern 2 (ParserSafe.safe _ _ _ _ _ ps) => apply Hps; lia : parser_safe.

Lemma safe_window m k : (m < n)%nat → (k ≤ 1)%nat → safe m k any (parse_window_spec pe).
Proof. intros Hm Hk. unfold parse_window_spec. safe_auto. Qed.

Hint Resolve safe_window : parser_safe.

Lemma safe_arguments m k : (m < n)%nat → (k ≤ 1)%nat → safe m k any (parse_arguments pe).
Proof. intros Hm Hk. unfold parse_arguments. safe_auto. Qed.
Lemma safe_cast m k : (m < n)%nat → (k ≤ 1)%nat → safe m k any (parse_cast pe).
Proof.
  intros Hm Hk. unfold parse_cast. safe_auto. apply (safe_catch _ _ _ _ _ _ what).
  safe_auto.
Qed.
Hint Resolve safe_arguments safe_cast : parser_safe.

Lemma safe_identifier_or_function m (c : parser → Prop) :
  (m ≤ n)%nat → (∀ s, c s → live s) → safe m 1 c (parse_identifier_or_function pe).
Proof.
  intros Hm Hc. unfold parse_identifier_or_function.
  apply safe_bind1; [by apply safe_next_lexeme| |done]. intros H name. safe_auto.
Qed.
Hint Resolve safe_identifier_or_function : parser_safe.

Lemma safe_exists m k is_not : (m < n)%nat → (k ≤ 1)%nat → safe m k any (parse_exists ps is_not).
Proof. intros Hm Hk. unfold parse_exists. safe_auto. Qed.
Lemma safe_parenthesized m k : (m < n)%nat → (k ≤ 1)%nat → safe m k any (parse_parenthesized pe ps).
Proof. intros Hm Hk. unfold parse_parenthesized. safe_auto. Qed.
Hint Resolve safe_exists safe_parenthesized safe_parameter : parser_safe.

Lemma safe_primary m : (m ≤ n)%nat → safe m 1 any (parse_primary_expression pe ps).
Proof. intros Hm. unfold parse_primary_expression. safe_auto. Qed.

Hint Resolve safe_primary : parser_safe.

Lemma safe_unary_from fuel : ∀ m, (m ≤ n)%nat → (m < fuel)%nat → safe m 1 any (unary_from pe ps fuel).
Proof.
  induction fuel as [|fuel IH]; intros m Hm Hf; [lia|]. cbn [unary_from].
  apply safe_match; [|by apply safe_primary|done]. intros H.
  apply safe_bind0; [|intros; apply safe_ret]. eapply safe_weaken; [apply (IH (m - 1)%nat); lia|lia..|done].
Qed.
Lemma safe_unary m : (m ≤ n)%nat → safe m 1 any (parse_unary_expression pe ps).
Proof. intros Hm s Hw Hs Hr. apply (safe_unary_from (S (remaining s)) (remaining s)); [lia..|done|done|lia]. Qed.
Lemma safe_multiplicative m : (m ≤ n)%nat → safe m 1 any (parse_multiplicative_expression pe ps).
Proof. intros Hm. by apply safe_left_assoc, safe_unary. Qed.
Lemma safe_additive m : (m ≤ n)%nat → safe m 1 any (parse_additive_expression pe ps).
Proof. intros Hm. by apply safe_left_assoc, safe_multiplicative. Qed.
Lemma safe_in m k l is_not : (m < n)%nat → (k ≤ 1)%nat → safe m k any (parse_in_predicate pe ps l is_not).
Proof. intros Hm Hk. unfold parse_in_predicate. safe_auto. Qed.
Hint Resolve safe_additive safe_in : parser_safe.

Lemma safe_comparison m : (m ≤ n)%nat → safe m 1 any (parse_comparison_expression pe ps).
Proof. intros Hm. unfold parse_comparison_expression. safe_auto. Qed.

Lemma safe_not_from fuel : ∀ m, (m ≤ n)%nat → (m < fuel)%nat → safe m 1 any (not_from pe ps fuel).
Proof.
  induction fuel as [|fuel IH]; intros m Hm Hf; [lia|]. cbn [not_from].
  apply safe_match; [|by apply safe_comparison|done]. intros H. apply safe_match; [safe_auto| |lia].
  apply safe_bind0; [|intros; apply safe_ret]. eapply safe_weaken; [apply (IH (m - 1)%nat); lia|lia..|done].
Qed.
Lemma safe_not m : (m ≤ n)%nat → safe m 1 any (parse_not_expression pe ps).
Proof. intros Hm s Hw Hs Hr. apply (safe_not_from (S (remaining s)) (remaining s)); [lia..|done|done|lia]. Qed.
Lemma safe_or m : (m ≤ n)%nat → safe m 1 any (parse_or_expression pe ps).
Proof. intros Hm. by apply safe_left_assoc, safe_left_assoc, safe_not. Qed.
End expressions.

(** ** SELECT *)

Section select.
Context (n : nat) (pe : P Expression).
Hypothesis Hpe : calls n pe.
Hint Extern 2 (ParserSafe.safe _ _ _ _ _ pe) => apply Hpe; lia : parser_safe.
Hint Extern 2 (ParserSafe.safe _ _ _ _ _ (comma_list pe)) => apply (calls_list n pe Hpe); lia : parser_safe.
Hint Extern 2 (ParserSafe.safe _ _ _ _ _ (comma_list (order_item pe))) =>
  apply (calls_orders n pe Hpe); lia : parser_safe.

Lemma safe_alias m default : safe m 0 any (parse_optional_table_alias default).
Proof. unfold parse_optional_table_alias. safe_auto. Qed.
Hint Resolve safe_alias : parser_safe.
Lemma safe_join_type m : safe m 1 any parse_join_type.
Proof. unfold parse_join_type. safe_auto. Qed.
Hint Resolve safe_join_type : parser_safe.
Lemma safe_join m : (m ≤ n)%nat → safe m 1 any (parse_join pe).
Proof. intros Hm. unfold parse_join. safe_auto. Qed.
Lemma safe_joins m : (m ≤ n)%nat → safe m 0 any (parse_joins pe).
Proof.
  intros Hm. apply safe_while. intros m' acc Hm' s Hw Hr.
  rewrite ST_bind_eq. cbn [st_get]. case_match; [|by apply (turns_none _ _ m')].
  apply turns_safe with m'; [|done..]. apply safe_bind1; [apply safe_join; lia|intros; apply safe_ret|done].
Qed.
Hint Resolve safe_joins : parser_safe.
Lemma safe_clause m type : (m ≤ n)%nat → safe m 0 any (optional_clause pe type).
Proof. intros Hm. unfold optional_clause. safe_auto. Qed.
Lemma safe_select_columns m : (m < n)%nat → safe m 1 any (comma_list (select_column pe)).
Proof. intros Hm. apply safe_comma_list. unfold select_column. safe_auto. Qed.
Lemma safe_count m keyword absent : safe m 0 any (parse_count keyword absent).
Proof. unfold parse_count. safe_auto. Qed.
Hint Resolve safe_clause safe_select_columns safe_count : parser_safe.

Lemma safe_select_core m : (m ≤ n)%nat → safe m 1 any (parse_select_core pe).
Proof. intros Hm. unfold parse_select_core. safe_auto. Qed.
Lemma safe_order_limit m : (m ≤ n)%nat → safe m 0 any (parse_order_limit pe).
Proof. intros Hm. unfold parse_order_limit. safe_auto. Qed.
Hint Resolve safe_select_core safe_order_limit : parser_safe.
Lemma safe_select_body m : (m ≤ n)%nat → safe m 1 any (parse_select_body pe).
Proof. intros Hm. unfold parse_select_body. safe_auto. Qed.
End select.

(** ** The fuel of the recursion *)

Lemma calls_from fuel : ∀ n, (n ≤ fuel)%nat → calls n (expression_from fuel) ∧ calls n (select_from fuel).
Proof.
  induction fuel as [|fuel IH]; intros n Hn; [split; intros m k c Hm; lia|].
  destruct (IH (n - 1)%nat ltac:(lia)) as [He Hs].
  split; intros m k c Hm Hk; (eapply (safe_weaken _ _ m m 1 k any c); [|done..]).
  - apply (safe_or (n - 1) _ _ He Hs m). lia.
  - apply (safe_select_body (n - 1) _ He m). lia.
Qed.
Lemma safe_expression n k c : (k ≤ 1)%nat → safe n k c parse_expression.
Proof.
  intros Hk s Hw Hs Hr. destruct (calls_from (S (remaining s)) (S (remaining s)) (le_n _)) as [He _].
  change (parse_expression s) with (expression_from (S (remaining s)) s).
  exact (He (remaining s) k c (le_n _) Hk s Hw Hs (le_n _)).
Qed.
Lemma calls_expression n : calls n parse_expression.
Proof. intros m k c _. apply safe_expression. Qed.
Lemma safe_select_statement n : safe n 1 any parse_select_statement.
Proof. apply (safe_select_body n); [apply calls_expression|done]. Qed.

(** ** Statements *)

Hint Extern 1 (ParserSafe.safe _ _ _ _ _ parse_expression) => apply safe_expression; lia : parser_safe.
Hint Extern 1 (ParserSafe.safe _ _ _ _ _ (optional_clause parse_expression _)) =>
  eapply safe_clause; [apply calls_expression|apply le_n] : parser_safe.
Hint Extern 1 (ParserSafe.safe _ _ _ _ _ (parse_order_limit parse_expression)) =>
  eapply safe_order_limit; [apply calls_expression|apply le_n] : parser_safe.
Hint Extern 1 (ParserSafe.safe _ _ _ _ _ (parse_select_core parse_expression)) =>
  eapply safe_select_core; [apply calls_expression|apply le_n] : parser_safe.
Hint Extern 1 (ParserSafe.safe _ _ _ _ _ (parse_arguments parse_expression)) =>
  eapply safe_arguments; [apply calls_expression|apply le_n|lia] : parser_safe.
Hint Resolve safe_select_statement : parser_safe.

Ltac next_kind := eapply turns_ext; [intros; apply ST_bind_assoc|]; apply turns_match;
  [intros H; cbv iota; apply safe_assoc; apply safe_bind0; [apply safe_match_|]|cbv iota].
Lemma turns_set_operation {A} n (f : option (SetOperationKind * bool) → P (option A)) :
  ((1 ≤ n)%nat → ∀ op, safe (n - 1) 0 any (f (Some op))) → turns sql toks n (f None) →
  turns sql toks n (match_set_operation ≫= f).
Proof.
  intros Hs Hn. unfold match_set_operation.
  next_kind; [|next_kind; [|next_kind]].
  - intros all. by apply Hs.
  - intros []; [|by apply Hs]. by intros s Hw _ _.
  - intros []; [|by apply Hs]. by intros s Hw _ _.
  - exact Hn.
Qed.

Section query.
Context (n : nat) (pq : P Operand).
Hypothesis Hpq : calls n pq.
Hint Extern 2 (ParserSafe.safe _ _ _ _ _ pq) => apply Hpq; lia : parser_safe.

Lemma safe_query_primary m : (m ≤ n)%nat → safe m 1 any (parse_query_primary pq).
Proof. intros Hm. unfold parse_query_primary. safe_auto. Qed.
Lemma safe_query_chain m : (m ≤ n)%nat → safe m 1 any (parse_query_chain pq).
Proof.
  intros Hm. apply safe_bind1; [by apply safe_query_primary| |lia]. intros _ l. apply safe_while.
  intros m' acc Hm'. apply turns_set_operation; [|apply turns_none]. intros H [kind is_all].
  apply safe_bind0; [apply safe_loose, safe_query_primary; lia|intros; apply safe_ret].
Qed.
End query.

Lemma calls_query fuel : ∀ n, (n ≤ fuel)%nat → calls n (query_from fuel).
Proof.
  induction fuel as [|fuel IH]; intros n Hn m k c Hm Hk; [lia|].
  eapply (safe_weaken _ _ m m 1 k any c); [|done..].
  apply (safe_query_chain (n - 1) _ (IH (n - 1)%nat ltac:(lia)) m). lia.
Qed.
Lemma safe_query_inner n : safe n 1 any parse_query_inner.
Proof.
  intros s Hw Hs Hr. change (parse_query_inner s) with (query_from (S (remaining s)) s).
  exact (calls_query _ _ (le_n _) (remaining s) 1%nat any (le_n _) (le_n _) s Hw Hs (le_n _)).
Qed.
Hint Resolve safe_query_inner : parser_safe.
Lemma safe_set_order_limit n s : safe n 0 any (parse_set_order_limit s).
Proof. unfold parse_set_order_limit. safe_auto. Qed.
Hint Resolve safe_set_order_limit : parser_safe.
Lemma safe_query_statement n : safe n 0 any parse_query_statement.
Proof. unfold parse_query_statement. safe_auto. Qed.

Lemma safe_values n : safe n 1 any parenthesized_values.
Proof. unfold parenthesized_values. safe_auto. Qed.
Lemma safe_set_clause n : safe n 1 any set_clause.
Proof. unfold set_clause. safe_auto. Qed.
Hint Resolve safe_values safe_set_clause : parser_safe.
Lemma safe_insert n : safe n 0 any parse_insert_statement.
Proof. unfold parse_insert_statement. safe_auto. Qed.
Lemma safe_update n : safe n 0 any parse_update_statement.
Proof. unfold parse_update_statement. safe_auto. Qed.
Lemma safe_delete n : safe n 0 any parse_delete_statement.
Proof. unfold parse_delete_statement. safe_auto. Qed.

(** CREATE TABLE *)
Lemma safe_referential_action n : safe n 0 any parse_referential_action.
Proof. unfold parse_referential_action. safe_auto. Qed.
Hint Resolve safe_referential_action : parser_safe.
Lemma safe_referential_actions n a : safe n 0 any (parse_referential_actions a).
Proof.
  apply safe_while. intros m acc Hm. apply turns_match; [|apply turns_none]. intros H. cbv iota beta. safe_auto.
Qed.
Lemma safe_default n : safe n 0 any parse_default.
Proof. unfold parse_default. safe_auto. Qed.
Lemma safe_paren_expression n : safe n 1 any (parenthesized parse_expression).
Proof. unfold parenthesized. safe_auto. Qed.
Hint Resolve safe_referential_actions safe_default safe_paren_expression : parser_safe.
Lemma turns_column_constraint n c : turns sql toks n (column_constraint c).
Proof.
  unfold column_constraint.
  repeat first [apply turns_none | apply turns_match; [intros H; cbv iota; safe_auto|cbv iota]].
Qed.
Lemma safe_column_definition n : safe n 1 any parse_column_definition.
Proof.
  apply safe_bind1; [apply safe_identifier| |lia]. intros _ name.
  apply safe_bind0; [apply safe_loose, safe_identifier|]. intros type.
  apply safe_bind0; [apply safe_while; intros; apply turns_column_constraint|intros; apply safe_ret].
Qed.
Lemma safe_paren_columns n m : safe n 1 any (parenthesized_columns m).
Proof. unfold parenthesized_columns. safe_auto. Qed.
Hint Resolve safe_column_definition safe_paren_columns : parser_safe.
Lemma safe_foreign_key n : safe n 1 any parse_table_foreign_key.
Proof. unfold parse_table_foreign_key. safe_auto. Qed.
Lemma safe_check_constraint n name : safe n 1 any (parse_table_check_constraint name).
Proof. unfold parse_table_check_constraint. safe_auto. Qed.
Lemma safe_literal n test m : safe n 1 any (parse_literal test m).
Proof. unfold parse_literal. safe_auto. Qed.
Hint Resolve safe_foreign_key safe_check_constraint safe_literal : parser_safe.
Lemma safe_partition_bound n : safe n 0 any parse_partition_bound.
Proof. unfold parse_partition_bound. safe_auto. Qed.
Lemma safe_constraint_name n c : safe n 0 c constraint_name.
Proof. apply safe_any. unfold constraint_name. safe_auto. Qed.
Lemma safe_partition_by n : safe n 1 any parse_partition_by.
Proof. unfold parse_partition_by. safe_auto. Qed.
Lemma safe_column_part n s : safe n 1 any (column_part s).
Proof. unfold column_part. safe_auto. Qed.
Hint Resolve safe_partition_bound safe_constraint_name safe_partition_by safe_column_part : parser_safe.
Lemma safe_table_element n stmt : safe n 1 any (table_element stmt).
Proof. unfold table_element. safe_auto. Qed.
Hint Extern 1 (ParserSafe.safe _ _ _ _ _ (comma_loop table_element _)) =>
  apply safe_comma_loop; intros; apply safe_table_element : parser_safe.
Lemma safe_create_table n : safe n 0 any parse_create_table_statement.
Proof. unfold parse_create_table_statement. safe_auto. Qed.
Lemma safe_create_index n : safe n 0 any parse_create_index_statement.
Proof. unfold parse_create_index_statement. safe_auto. Qed.
Lemma safe_if_exists n : safe n 0 any parse_if_exists.
Proof. unfold parse_if_exists. safe_auto. Qed.
Hint Resolve safe_if_exists : parser_safe.
Lemma safe_drop n type m1 m2 : safe n 0 any (parse_drop type m1 m2).
Proof. unfold parse_drop. safe_auto. Qed.
Hint Resolve safe_drop : parser_safe.

Lemma safe_skip n : safe n 0 any skip_to_end.
Proof.
  apply safe_while. intros m acc Hm s Hw Hr. rewrite ST_bind_eq. cbn [st_get].
  destruct (is_at_end s) eqn:E; [by apply (turns_none _ _ m)|].
  assert (H : safe m 1 (exactly s) (advance;; mret (Some tt))).
  { apply safe_bind1; [apply safe_advance; by intros ? ->|intros; apply safe_ret|lia]. }
  destruct (H s Hw eq_refl Hr) as [? Ho]. split; [done|]. case_match; [case_match; lia|done..].
Qed.
Lemma safe_bind_argument n : safe n 1 any bind_argument.
Proof. unfold bind_argument. safe_auto. Qed.
Hint Resolve safe_skip safe_bind_argument : parser_safe.
Lemma safe_execute n : safe n 0 any parse_execute_statement.
Proof. unfold parse_execute_statement. safe_auto. Qed.
Lemma safe_deallocate n : safe n 0 any parse_deallocate_statement.
Proof. unfold parse_deallocate_statement. safe_auto. Qed.
Lemma safe_vacuum n : safe n 0 any parse_vacuum_statement.
Proof. unfold parse_vacuum_statement. safe_auto. Qed.

Lemma safe_key_action n type m : safe n 0 any (key_action type m).
Proof. unfold key_action. safe_auto. Qed.
Hint Resolve safe_key_action : parser_safe.
Lemma safe_alter_add n : safe n 0 any parse_alter_add.
Proof. unfold parse_alter_add. safe_auto. Qed.
Lemma safe_alter_drop n : safe n 0 any parse_alter_drop.
Proof. unfold parse_alter_drop. safe_auto. Qed.
Lemma safe_alter_rename n : safe n 0 any parse_alter_rename.
Proof. unfold parse_alter_rename. safe_auto. Qed.
Lemma safe_alter_column n : safe n 0 any parse_alter_column.
Proof. unfold parse_alter_column. safe_auto. Qed.
Hint Resolve safe_alter_add safe_alter_drop safe_alter_rename safe_alter_column : parser_safe.
Lemma safe_alter_table n : safe n 0 any parse_alter_table_statement.
Proof. unfold parse_alter_table_statement. safe_auto. Qed.

Lemma safe_routine_params n : safe n 1 any parse_routine_param_list.
Proof.
  unfold parse_routine_param_list.
  assert (∀ m, safe m 1 any routine_param) by (intros; unfold routine_param; safe_auto). safe_auto.
Qed.
Lemma safe_types n types : safe n 0 any (check_types types).
Proof.
  apply (safe_catch _ _ _ _ _ _ what), safe_iter. intros t _. safe_auto.
Qed.
Lemma safe_call n : safe n 0 any parse_call_statement.
Proof. unfold parse_call_statement. safe_auto. Qed.
Lemma safe_set_new n : safe n 0 any parse_set_new_statement.
Proof. unfold parse_set_new_statement. safe_auto. Qed.
Lemma safe_function_body n : safe n 0 any parse_function_body_expression.
Proof. unfold parse_function_body_expression. safe_auto. Qed.

(** ** Texts *)

(** What is known of the text: 7-bit characters, and dollar-quoted tokens that
    are shorter 7-bit texts. *)
Hypothesis Hsql : ascii7 sql.
Hypothesis Hquoted : ∀ t, t ∈ toks → tok_type t = T.DOLLAR_QUOTED_STRING →
  ascii7 (tok_lexeme t) ∧ (String.length (tok_lexeme t) < String.length sql)%nat.

Lemma is_ascii_spec s : ascii7 s → is_ascii s = true.
Proof.
  unfold ascii7, is_ascii. intros H. apply forallb_forall. intros c Hc.
  rewrite Forall_forall in H. specialize (H c). rewrite list_elem_of_In in H. apply Z.leb_le. auto.
Qed.
Lemma extract_safe s : wf sql toks s → res_safe (extract_sql_after_as (original_sql_ s)).
Proof.
  intros (_ & -> & _). unfold extract_sql_after_as. rewrite (is_ascii_spec _ Hsql). by repeat case_match.
Qed.
Hint Resolve extract_safe : parser_safe.

Lemma safe_create_view n : safe n 0 any parse_create_view_statement.
Proof. unfold parse_create_view_statement. safe_auto. Qed.
Lemma safe_prepare n : safe n 0 any parse_prepare_statement.
Proof. unfold parse_prepare_statement. safe_auto. Qed.

(** The text of a dollar-quoted token. *)
Lemma safe_quoted {B} n c (f : string → P B) :
  (∀ text, ascii7 text → (String.length text < String.length sql)%nat → safe n 0 any (f text)) →
  safe n 0 (λ s, c s ∧ check T.DOLLAR_QUOTED_STRING s = true) (next_lexeme ≫= f).
Proof.
  intros Hf s Hw [Hs Hck] Hr. unfold next_lexeme. rewrite ST_bind_assoc, ST_bind_eq.
  pose proof (check_live _ _ Hck) as Hl. unfold check in Hck. unfold live in Hl. rewrite Hl in Hck.
  apply bool_decide_eq_true in Hck. unfold peek in Hck. rewrite Hl in Hck.
  unfold is_at_end in Hl. destruct Hw as (Ht & Ho & Hc).
  unfold advance, is_at_end. destruct (tokens_ s !! current_ s) as [t|] eqn:E; [|done]. rewrite Hl.
  cbn [set_current current_ tokens_ fst snd]. rewrite E. cbn [default] in Hck.
  rewrite Ht in E. assert (Hin : t ∈ toks) by (by eapply list_elem_of_lookup_2).
  destruct (Hquoted t Hin Hck) as [Ha Hlen]. apply lookup_lt_Some in E.
  destruct (Hf _ Ha Hlen (set_current (S (current_ s)) s)) as [Hw' Hp].
  - repeat split; cbn; [done..|lia].
  - done.
  - unfold remaining in *. cbn. lia.
  - split; [done|]. revert Hp. change (ST_ret parser string (tok_lexeme t)) with (mret (M := ST parser) (tok_lexeme t)).
    destruct (f (tok_lexeme t) (set_current (S (current_ s)) s)) as [s' [b|e|]] eqn:Ef;
      rewrite ST_bind_eq; cbn [mret ST_ret]; rewrite Ef; cbn [fst snd]; [|done..].
    unfold remaining. cbn. lia.
Qed.

Section nested.
Context (parse_nested : string → res ParsedStatement).
(** The texts of function bodies, and the statements of other bodies, are safe. *)
Hypothesis Hbody : ∀ text, ascii7 text → (String.length text < String.length sql)%nat →
  res_safe (run_parser parse_function_body_expression text).
Hypothesis Hnested : ∀ text, ascii7 text → (String.length text < String.length sql)%nat →
  res_safe (parse_nested text).
Hint Resolve safe_routine_params safe_types : parser_safe.

Lemma safe_create_function n : safe n 0 any parse_create_function_statement.
Proof.
  unfold parse_create_function_statement. safe_auto.
  apply safe_quoted. intros text Ha Hl. safe_auto.
Qed.

Lemma safe_body n m1 m2 : safe n 0 any (parse_body parse_nested m1 m2).
Proof.
  unfold parse_body. apply safe_checks; cbn [negb]; [|safe_auto].
  apply safe_quoted. intros text Ha Hl. case_bool_decide; [safe_auto|].
  apply safe_bind0; [|intros; apply safe_ret]. apply safe_iter. intros t Ht.
  pose proof (split_parts text Ha) as Hp. rewrite Forall_forall in Hp. destruct (Hp t Ht) as [Ha' Hl'].
  assert (res_safe (parse_nested t)) by (apply Hnested; [done|lia]). safe_auto.
Qed.
Hint Resolve safe_body : parser_safe.

Lemma safe_create_procedure n : safe n 0 any (parse_create_procedure_statement parse_nested).
Proof. unfold parse_create_procedure_statement. safe_auto. Qed.
Lemma safe_trigger_timing n : safe n 0 any parse_trigger_timing.
Proof. unfold parse_trigger_timing. safe_auto. Qed.
Lemma safe_trigger_event n : safe n 0 any parse_trigger_event.
Proof. unfold parse_trigger_event. safe_auto. Qed.
Hint Resolve safe_trigger_timing safe_trigger_event : parser_safe.
Lemma safe_create_trigger n : safe n 0 any (parse_create_trigger_statement parse_nested).
Proof. unfold parse_create_trigger_statement. safe_auto. Qed.

(** Dispatch. *)
Lemma safe_by_type n type alternatives otherwise :
  Forall (λ a, safe n 0 any a.2) alternatives → safe n 0 any otherwise →
  safe n 0 any (by_type type alternatives otherwise).
Proof.
  intros Ha Ho. induction Ha as [|[t p] rest Hp _ IH]; cbn [by_type]; [done|]. by case_bool_decide.
Qed.

Ltac Forall_list := repeat (apply Forall_cons; split; cbn [snd]); [..|apply Forall_nil; exact I].
Lemma safe_create n : safe n 0 any (parse_create parse_nested).
Proof.
  intros s. unfold parse_create. apply safe_by_type; [|apply safe_create_table].
  Forall_list; auto using safe_create_index, safe_create_view, safe_create_function,
    safe_create_procedure, safe_create_trigger.
Qed.
Lemma safe_drop_object n : safe n 0 any parse_drop_object.
Proof.
  intros s. unfold parse_drop_object. apply safe_by_type; [Forall_list|];
    unfold parse_drop_index_statement, parse_drop_view_statement, parse_drop_function_statement,
      parse_drop_procedure_statement, parse_drop_trigger_statement, parse_drop_table_statement; safe_auto.
Qed.
Lemma safe_inner n : safe n 0 any (parse_inner_statement parse_nested).
Proof.
  intros s. unfold parse_inner_statement. apply safe_by_type; [|safe_auto].
  Forall_list;
    auto using safe_query_statement, safe_insert, safe_update, safe_delete, safe_create, safe_drop_object,
      safe_call, safe_set_new, safe_alter_table, safe_prepare, safe_execute, safe_deallocate, safe_vacuum;
    unfold parse_begin_statement, parse_commit_statement, parse_rollback_statement; safe_auto.
Qed.

Lemma safe_dollar n : safe n 0 any validate_dollar_parameters.
Proof.
  intros s Hw _ _. unfold validate_dollar_parameters. case_match eqn:Ed; [|split; [done|cbn; lia]]. split; [done|].
  cbn [fst snd]. clear Ed. set (seen := dollar_indices_ s). set (mx := max_dollar_index_ s).
  assert (H : ∀ k i, Z.of_nat (size seen) + 1 - i < Z.of_nat k → 1 ≤ i →
    (∀ j, 1 ≤ j < i → j ∈ seen) → res_safe (dense_from k i mx seen)).
  { induction k as [|k IH]; intros i Hk Hi Hj; cbn [dense_from].
    - exfalso. assert (Hsub : list_to_set (seqZ 1 (i - 1)) ⊆ seen).
      { intros j Hin. apply elem_of_list_to_set, elem_of_seqZ in Hin. apply Hj. lia. }
      apply subseteq_size in Hsub. rewrite size_list_to_set in Hsub by apply NoDup_seqZ.
      rewrite length_seqZ in Hsub. lia.
    - case_match; [done|]. case_bool_decide as Hin; [|done]. apply IH; [lia..|].
      intros j Hj'. destruct (decide (j = i)) as [->|]; [done|]. apply Hj. lia. }
  specialize (H (S (size seen)) 1 ltac:(lia) ltac:(lia) ltac:(lia)).
  destruct (dense_from _ _ _ _); [cbn; lia|done..].
Qed.
Hint Resolve safe_inner safe_dollar : parser_safe.
Lemma safe_statement n : safe n 0 any (parse_statement parse_nested).
Proof.
  intros s Hw Hs Hr. unfold parse_statement. destruct (check T.EXPLAIN s).
  - assert (H : safe n 0 any (parse_explain_statement parse_nested)) by (unfold parse_explain_statement; safe_auto).
    by apply H.
  - assert (H : safe n 0 any (parse_inner_statement parse_nested ≫= λ result,
      validate_dollar_parameters;; mret result)) by safe_auto.
    by apply H.
Qed.
End nested.
End functions.

(** ** Texts *)

(** A parser that is safe on every token list is safe on every text. *)
Lemma run_safe {A} (p : P A) sql :
  ascii7 sql →
  (∀ toks, (∀ t, t ∈ toks → tok_type t = T.DOLLAR_QUOTED_STRING →
     ascii7 (tok_lexeme t) ∧ (String.length (tok_lexeme t) < String.length sql)%nat) →
   safe sql toks (length toks) 0 any p) →
  res_safe (run_parser p sql).
Proof.
  intros Ha Hp. unfold run_parser. pose proof (tokenize_post _ _ Ha) as Ht. cbn zeta in Ht.
  destruct (tokenize sql) as [toks|e|]; cbn [mbind res_bind].
  - destruct Ht as (_ & _ & _ & _ & _ & _ & Hq). rewrite Forall_forall in Hq.
    destruct (Hp toks) with (new_parser sql toks) as [_ Ho].
    + intros t Hin Hty. destruct (Hq t Hin Hty) as [? Hl]. rewrite <- length_chars in Hl.
      split; [done|lia].
    + split; [done|]. split; [done|]. cbn. lia.
    + done.
    + unfold remaining. cbn. lia.
    + by destruct (snd _).
  - by destruct Ht as [line ->].
  - destruct Ht as (c & ? & ?). lia.
Qed.

Lemma body_safe text : ascii7 text → res_safe (run_parser parse_function_body_expression text).
Proof. intros H. apply run_safe; [done|]. intros. apply safe_function_body. Qed.

Lemma parse_text_from_safe fuel : ∀ sql,
  ascii7 sql → (String.length sql < fuel)%nat → res_safe (parse_text_from fuel sql).
Proof.
  induction fuel as [|fuel IH]; intros sql Ha Hf; [lia|]. cbn [parse_text_from].
  apply run_safe; [done|]. intros toks Hq. apply safe_statement; [done|done|..].
  - intros. by apply body_safe.
  - intros. apply IH; [done|lia].
Qed.

(** C25. Parsing always ends: on every text of 7-bit characters the parser returns
    a statement or throws one of its errors (or the error of a number that does
    not fit); no loop runs out of fuel, no token is read outside the vector. *)
Theorem parse_text_total sql :
  ascii7 sql →
  (∃ statement, parse_text sql = Ok statement) ∨ (∃ e, parse_text sql = Throw e ∧ parse_error e).
Proof.
  intros Ha. pose proof (parse_text_from_safe (S (String.length sql)) sql Ha (le_n _)) as H.
  unfold parse_text. destruct (parse_text_from _ sql) as [st|e|]; [by left; eexists|right; by eexists|done].
Qed.

Lemma parse_text_total_witness :
  (∃ statement, parse_text "SELECT (((a + 1)))" = Ok statement)
  ∧ ∃ e, parse_text "SELECT (((a + 1))" = Throw e ∧ parse_error e.
Proof.
  split.
  - destruct (parse_text_total "SELECT (((a + 1)))") as [H|(e & H & _)];
      [apply (bool_decide_unpack _); vm_compute; exact I|exact H|vm_compute in H; discriminate H].
  - destruct (parse_text_total "SELECT (((a + 1))") as [[st H]|H];
      [apply (bool_decide_unpack _); vm_compute; exact I|vm_compute in H; discriminate H|exact H].
Defined.
