(* ===== verification/ParserRound.v ===== *)
(** * Reading back what was printed

    A CHECK constraint is stored as the text of its predicate ([to_string]) and
    parsed again when a table is loaded ([parse_check_expression]).  For the
    predicates [printable] describes the round trip is the identity: the text is
    lexed into the tokens of the expression, and the precedence levels of the
    parser rebuild the same tree.  String literals are outside it, since their
    text has no quotes; see [string_check_not_reloaded]. *)

From Stdlib Require Import ZArith Lia Ascii.
From S2P Require Import Prelude CppNum Values Rows Expr Evaluator Partition Table Operators Lexer Ast Parser ParserSafe.

(** ** Decimal numbers *)

Lemma digit_char (x : N) : (x < 10)%N →
  is_digit (pretty_N_char x) = true ∧ digit_value (pretty_N_char x) = Some (Z.of_N x).
Proof.
  intros H. assert (x ∈ [0; 1; 2; 3; 4; 5; 6; 7; 8; 9]%N) as Hx by (rewrite !elem_of_cons; lia).
  rewrite !elem_of_cons, elem_of_nil in Hx. by destruct_or?; subst.
Qed.

Lemma digits_pretty (x : N) : ∀ s n, (0 < x)%N → ∃ k,
  digits 10 0 n (String.list_ascii_of_string (pretty_N_go x s)) =
  digits 10 (Z.of_N x) (S k) (String.list_ascii_of_string s).
Proof.
  induction (N.lt_wf_0 x) as [x _ IH]. intros s n Hx. rewrite pretty_N_go_step by done.
  assert (Hm : (x mod 10 < 10)%N) by (apply N.mod_lt; done).
  destruct (digit_char _ Hm) as [_ Hd].
  pose proof (N.div_mod x 10 ltac:(done)) as Hdm.
  assert (Hlt : (Z.of_N (x mod 10) <? 10) = true) by (apply Z.ltb_lt; change 10 with (Z.of_N 10); by apply N2Z.inj_lt).
  destruct (decide (x / 10 = 0)%N) as [E|E].
  - rewrite E, pretty_N_go_0. exists n. cbn [String.list_ascii_of_string digits]. rewrite Hd, Hlt. f_equal.
    rewrite E in Hdm. apply (f_equal Z.of_N) in Hdm. rewrite N2Z.inj_add, N2Z.inj_mul in Hdm. lia.
  - destruct (IH (x / 10)%N) with (String (pretty_N_char (x mod 10)) s) n as [k ->].
    + apply N.div_lt; lia.
    + lia.
    + exists (S k). cbn [String.list_ascii_of_string digits]. rewrite Hd, Hlt. f_equal.
      apply (f_equal Z.of_N) in Hdm. rewrite N2Z.inj_add, N2Z.inj_mul in Hdm. lia.
Qed.

Lemma pretty_go_digits (x : N) : ∀ s, all_chars is_digit s = true → all_chars is_digit (pretty_N_go x s) = true.
Proof.
  induction (N.lt_wf_0 x) as [x _ IH]. intros s Hs. destruct (decide (x = 0)%N) as [->|Hx].
  - by rewrite pretty_N_go_0.
  - rewrite pretty_N_go_step by lia. apply IH; [apply N.div_lt; lia|].
    change (is_digit (pretty_N_char (x mod 10)) && all_chars is_digit s = true).
    destruct (digit_char (x mod 10)) as [-> _]; [apply N.mod_lt; done|done].
Qed.

Lemma pretty_Z_pos (z : Z) : 0 < z → std_to_string z = pretty_N_go (Z.to_N z) "".
Proof.
  intros Hz. unfold std_to_string. destruct z as [|p|p]; [lia| |lia].
  change (pretty (Z.pos p)) with (pretty (N.pos p)). unfold pretty, pretty_N.
  by rewrite decide_False by done.
Qed.

Lemma to_string_digits z : 0 ≤ z → all_chars is_digit (std_to_string z) = true ∧ std_to_string z ≠ "".
Proof.
  intros Hz. destruct (decide (z = 0)) as [->|]; [done|]. rewrite pretty_Z_pos by lia.
  split; [by apply pretty_go_digits|]. destruct (digits_pretty (Z.to_N z) "" 0) as [k E]; [lia|].
  intros H. rewrite H in E. cbn in E. congruence.
Qed.

Lemma not_space_digit c : is_digit c = true → is_space c = false ∧ Ascii.eqb c "-" = false
  ∧ Ascii.eqb c "+" = false ∧ Ascii.eqb c "." = false.
Proof. intros H. destruct c as [[] [] [] [] [] [] [] []]; first [discriminate H | done]. Qed.

Lemma stoll_to_string z : 0 ≤ z < 2 ^ 63 → std_stoll (std_to_string z) = Ok z.
Proof.
  intros Hz. destruct (decide (z = 0)) as [->|Hnz]; [done|].
  destruct (to_string_digits z) as [Hd Hne]; [lia|]. revert Hd Hne.
  destruct (digits_pretty (Z.to_N z) "" 0) as [k E]; [lia|]. rewrite <- pretty_Z_pos in E by lia. revert E.
  unfold std_stoll, all_chars. destruct (std_to_string z) as [|c s]; [done|].
  cbn [String.list_ascii_of_string forallb]. intros E [Hc _]%andb_true_iff _.
  destruct (not_space_digit c Hc) as (H1 & H2 & H3 & _). cbn [skip_space]. rewrite H1.
  unfold split_sign. rewrite H2, H3. rewrite E. cbn. rewrite Z2N.id by lia.
  replace ((- 2 ^ 63 <=? z) && (z <? 2 ^ 63)) with true by lia. done.
Qed.
Lemma no_dot s : all_chars is_digit s = true → has_dot s = false.
Proof.
  unfold all_chars, has_dot. intros H.
  induction (String.list_ascii_of_string s) as [|c l IH]; [done|]. cbn in *.
  apply andb_true_iff in H as [Hc H]. destruct (not_space_digit c Hc) as (_ & _ & _ & ->). auto.
Qed.
Lemma number_to_string z : 0 ≤ z < 2 ^ 63 → number_value (std_to_string z) = Ok (VInt z).
Proof.
  intros Hz. unfold number_value. rewrite no_dot by (apply to_string_digits; lia).
  by rewrite stoll_to_string.
Qed.

(** ** Tokens with their spacing *)

Abbreviation token := (TokenType * string)%type.
(** A token, and whether a space comes before it. *)
Abbreviation piece := (bool * token)%type.

Definition piece_text (p : piece) : chars := (if p.1 then [" "%char] else []) ++ write_token p.2.
Fixpoint pieces_text (ps : list piece) : chars :=
  match ps with [] => [] | p :: ps => piece_text p ++ pieces_text ps end.

Definition word (w : string) : token := (get_keyword_token_type w, w).
Definition is_word (w : string) : bool :=
  match w with EmptyString => false | String c s => is_alpha c && all_chars is_alpha_numeric s end.
Definition lparen : token := (T.LPAREN, "("%string).
Definition rparen : token := (T.RPAREN, ")"%string).
Definition comma : token := (T.COMMA, ","%string).
Definition dot : token := (T.DOT, "."%string).

(** What may follow a token without being read as a part of it. *)
Definition follows (t : token) (rest : chars) : Prop :=
  sep rest ∨ t = lparen ∨ t = dot ∨ (∃ w r, t = word w ∧ is_word w = true ∧ rest = "."%char :: r).

Fixpoint clean (ps : list piece) : Prop :=
  match ps with
  | [] => True
  | p :: ps => writable p.2 ∧ follows p.2 (pieces_text ps) ∧ clean ps
  end.

Lemma word_chars w : is_word w = true → writable (word w) ∧ write_token (word w) = String.list_ascii_of_string w.
Proof.
  destruct w as [|c s]; [done|]. intros [Hc Hs]%andb_true_iff. split; [by apply w_word|].
  unfold write_token. rewrite bool_decide_eq_false_2; [done|apply keyword_types].
Qed.

(** A word ends before any other character. *)
Lemma scan_word c s rest line column :
  is_alpha c = true → all_chars is_alpha_numeric s = true →
  (∀ d r, rest = d :: r → is_alpha_numeric d = false) →
  ∃ tok line' column',
    scan_token (mkLexer (String.list_ascii_of_string (String c s) ++ rest) line column)
      = Ok (tok, mkLexer rest line' column')
    ∧ (tok_type tok, tok_lexeme tok) = word (String c s).
Proof.
  intros Hc Hs Hr. pose proof (alpha_class c Hc) as (Hq & Hd & Han).
  unfold scan_token. cbn [String.list_ascii_of_string app]. change (current_char _) with c.
  rewrite Hq, Hd, Hc. cbn [orb].
  rewrite back_up_advance by (apply alpha_not_newline; by rewrite Hc).
  unfold scan_identifier, scan_while. cbn [lx_rest lx_line lx_column].
  destruct (take_while_app is_alpha_numeric (c :: String.list_ascii_of_string s) rest line (column + 1))
    as (l' & k' & E); [by cbn; rewrite Han|done|].
  cbn [app] in E. rewrite E.
  change (String.string_of_list_ascii (c :: String.list_ascii_of_string s))
    with (String c (String.string_of_list_ascii (String.list_ascii_of_string s))).
  rewrite String.string_of_list_ascii_of_string. by eexists _, _, _.
Qed.

Lemma scan_next t rest line column : writable t → follows t rest →
  ∃ tok line' column',
    scan_token (mkLexer (write_token t ++ rest) line column) = Ok (tok, mkLexer rest line' column')
    ∧ (tok_type tok, tok_lexeme tok) = t.
Proof.
  intros Hw [Hs|[->|[->|(w & r & -> & Hword & ->)]]].
  - by apply reads_writable.
  - destruct rest; by eexists _, _, _.
  - destruct rest; by eexists _, _, _.
  - destruct (word_chars w Hword) as [_ ->]. destruct w as [|c s]; [done|].
    apply andb_true_iff in Hword as [Hc Hs]. apply scan_word; [done|done|]. by intros d r' [= <- <-].
Qed.

Lemma skip_one_space c l line column : (is_space c = false ∧ char_code c ≤ 127) →
  skip_whitespace (mkLexer (" "%char :: c :: l) line column) = Ok (mkLexer (c :: l) line (column + 1)).
Proof.
  intros [H1 H2]. unfold skip_whitespace. cbn [lx_rest lx_line lx_column skip_space_from].
  change (127 <? char_code " ") with false. change (is_space " ") with true. cbn iota.
  change (step_pos " " line column) with (line, column + 1). cbn iota.
  assert ((127 <? char_code c) = false) as -> by lia. by rewrite H1.
Qed.

(** The text of a token starts with a character that is no white space, and
    starts no comment. *)
Lemma piece_head t rest : writable t → follows t rest →
  ∃ c l, write_token t ++ rest = c :: l ∧ (is_space c = false ∧ char_code c ≤ 127)
    ∧ ∀ line column, Ascii.eqb (current_char (mkLexer (c :: l) line column)) "-"
                     && Ascii.eqb (peek_char 1 (mkLexer (c :: l) line column)) "-" = false.
Proof.
  intros Hw Hf. destruct (write_head t Hw) as [(c & l & E & Hc)|E].
  - exists c, (l ++ rest). rewrite E. split; [done|]. unfold token_start in Hc. bool_prop.
    split; [split; [done|lia]|]. intros. change (current_char _) with c. by rewrite H0.
  - exists "-"%char, rest. rewrite E. split; [done|]. split; [done|]. intros line column.
    change (current_char _) with "-"%char. change (peek_char 1 _) with (default nul (("-"%char :: rest) !! 1%nat)).
    cbn [lookup list_lookup]. destruct Hf as [Hs|[->|[->|(w & r & -> & Hword & ->)]]]; [|done..].
    sep_cases Hs; done.
Qed.

Lemma skip_piece p ps line column : writable p.2 → follows p.2 (pieces_text ps) →
  ∃ column', skip_whitespace (mkLexer (pieces_text (p :: ps)) line column)
    = Ok (mkLexer (write_token p.2 ++ pieces_text ps) line column').
Proof.
  intros Hw Hf. destruct (piece_head p.2 (pieces_text ps) Hw Hf) as (c & l & E & Hc & _).
  cbn [pieces_text]. unfold piece_text. rewrite <- app_assoc, E. destruct p.1; cbn [app].
  - rewrite skip_one_space by done. by eexists.
  - exists column. unfold skip_whitespace. cbn [lx_rest lx_line lx_column skip_space_from].
    assert ((127 <? char_code c) = false) as -> by lia. destruct Hc as [-> _]. done.
Qed.

Lemma tokenize_loop_pieces ps : ∀ fuel line column acc,
  clean ps → (length (pieces_text ps) < fuel)%nat →
  ∃ toks s, tokenize_loop fuel (mkLexer (pieces_text ps) line column) acc = Ok (acc ++ toks, s)
    ∧ types_and_lexemes toks = snd <$> ps.
Proof.
  induction ps as [|p ps IH]; intros fuel line column acc Hcl Hf.
  { destruct fuel; [cbn in Hf; lia|]. exists [], (mkLexer [] line column). by rewrite app_nil_r. }
  destruct Hcl as (Hw & Hfo & Hcl). destruct fuel as [|fuel]; [lia|].
  destruct (piece_head p.2 (pieces_text ps) Hw Hfo) as (c & l & E & _ & Hcom).
  destruct (skip_piece p ps line column Hw Hfo) as [column' Hskip].
  assert (Hne : pieces_text (p :: ps) ≠ []).
  { cbn [pieces_text]. unfold piece_text. rewrite <- app_assoc, E. by destruct p.1. }
  assert (Hlen : (length (pieces_text ps) < fuel)%nat).
  { cbn [pieces_text] in Hf. unfold piece_text in Hf. rewrite <- app_assoc, E, length_app in Hf.
    apply (f_equal length) in E. rewrite length_app in E. cbn [length] in *.
    assert (length (write_token p.2) ≠ 0)%nat.
    { destruct (write_head _ Hw) as [(? & ? & -> & _)| ->]; done. } lia. }
  destruct (scan_next p.2 (pieces_text ps) line column' Hw Hfo) as (tok & l' & k' & Hscan & Htok).
  cbn [tokenize_loop].
  assert (Lexer.is_at_end (mkLexer (pieces_text (p :: ps)) line column) = false) as ->.
  { unfold Lexer.is_at_end. cbn [lx_rest]. by destruct (pieces_text (p :: ps)). }
  rewrite Hskip. cbn [mbind res_bind]. rewrite <- E in Hcom. rewrite Hcom.
  assert (Lexer.is_at_end (mkLexer (write_token p.2 ++ pieces_text ps) line column') = false) as ->.
  { unfold Lexer.is_at_end. cbn [lx_rest]. by rewrite E. }
  rewrite Hscan. cbn [mbind res_bind].
  pose proof (writable_pushed _ Hw) as Hp. rewrite <- Htok in Hp. cbn [fst snd] in Hp. rewrite Hp.
  destruct (IH fuel l' k' (acc ++ [tok]) Hcl Hlen) as (toks & s & -> & Hts).
  exists (tok :: toks), s. rewrite <- app_assoc. split; [done|].
  unfold types_and_lexemes in *. cbn. by rewrite Htok, <- Hts.
Qed.

Lemma tokenize_pieces ps : clean ps →
  ∃ toks, tokenize (String.string_of_list_ascii (pieces_text ps)) = Ok toks
    ∧ types_and_lexemes toks = (snd <$> ps) ++ [(T.END_OF_INPUT, ""%string)].
Proof.
  intros Hc. unfold tokenize. rewrite String.list_ascii_of_string_of_list_ascii.
  destruct (tokenize_loop_pieces ps (S (length (pieces_text ps))) 1 1 [] Hc) as (toks & s & E & Ht); [lia|].
  unfold new_lexer. rewrite E. cbn [mbind res_bind app]. eexists. split; [done|].
  unfold types_and_lexemes in *. by rewrite fmap_app, Ht.
Qed.

(** ** The tokens of an expression *)

Definition op_token (op : BinaryOp) : token :=
  match op with
  | EQ => (T.EQUAL, "=") | NE => (T.NOT_EQUAL, "!=") | LT => (T.LESS, "<") | LE => (T.LESS_EQUAL, "<=")
  | GT => (T.GREATER, ">") | GE => (T.GREATER_EQUAL, ">=") | AND => word "AND" | OR => word "OR"
  | PLUS => (T.PLUS, "+") | MINUS => (T.MINUS, "-") | MUL => (T.ASTERISK, "*") | DIV => (T.DIVIDE, "/")
  | MOD => (T.MODULO, "%")
  end%string.

Definition literal_token (v : value) : token :=
  match v with
  | VInt z => (T.NUMBER, std_to_string z)
  | _ => word (Values.to_string v)
  end.

Fixpoint comma_pieces (items : list (bool → list piece)) (sp : bool) : list piece :=
  match items with
  | [] => []
  | [p] => p sp
  | p :: items => p sp ++ (false, comma) :: comma_pieces items true
  end.

Fixpoint pieces (e : Expression) (sp : bool) : list piece :=
  match e with
  | Literal v => [(sp, literal_token v)]
  | Identifier name => [(sp, (T.ASTERISK, name))]
  | ColumnRef table column =>
      if bool_decide (table = ""%string) then [(sp, word column)]
      else [(sp, word table); (false, dot); (false, word column)]
  | BinaryOpE l op r =>
      (sp, lparen) :: pieces l false ++ (true, op_token op) :: pieces r true ++ [(false, rparen)]
  | UnaryOpE op e =>
      (sp, lparen) :: (false, match op with NOT => word "NOT" | NEG => (T.MINUS, "-"%string) end)
      :: pieces e true ++ [(false, rparen)]
  | FunctionCall name args _ =>
      (sp, word name) :: (false, lparen) :: comma_pieces (map pieces args) false ++ [(false, rparen)]
  | Cast e target =>
      (sp, word "CAST") :: (false, lparen) :: pieces e false ++
      [(true, word "AS"); (true, word (data_type_to_string target)); (false, rparen)]
  | InList l values is_not =>
      pieces l sp ++ (if is_not then [(true, word "NOT")] else []) ++
      (true, word "IN") :: (true, lparen) :: comma_pieces (map pieces values) false ++ [(false, rparen)]
  | _ => []
  end.

(** A word that is no keyword, nor the name of the date function. *)
Definition is_name (w : string) : bool :=
  is_word w && bool_decide (get_keyword_token_type w = T.IDENTIFIER)
  && negb (bool_decide (str_upper w = "CURRENT_DATE"%string)).
Definition is_function_name (w : string) : bool :=
  is_word w && bool_decide (get_keyword_token_type w ∈ [T.IDENTIFIER; T.COUNT; T.SUM; T.AVG; T.MIN; T.MAX])
  && negb (bool_decide (str_upper w = "CAST"%string)).
Definition is_printable_literal (v : value) : bool :=
  match v with
  | VNull | VBool _ => true
  | VInt z => (0 <=? z) && (z <? 2 ^ 63)
  | _ => false
  end.
Definition logical (op : BinaryOp) : bool := match op with AND | OR => true | _ => false end.

(** The expressions a text gives back.  An IN list has no parentheses around it:
    it may stand where [top] holds, as an operand of AND, OR and NOT, as an
    argument, or on its own.  Subqueries, window functions, CASE and parameters
    are left out, and so are literals whose text is not that literal: strings,
    floating-point numbers and negative numbers. *)
Fixpoint printable (top : bool) (e : Expression) : bool :=
  match e with
  | Literal v => is_printable_literal v
  | Identifier name => bool_decide (name = "*"%string)
  | ColumnRef table column =>
      if bool_decide (table = ""%string) then is_name column else is_name table && is_word column
  | BinaryOpE l op r => printable (logical op) l && printable (logical op) r
  | UnaryOpE op e => printable (match op with NOT => true | NEG => false end) e
  | FunctionCall name args None => is_function_name name && forallb (printable true) args
  | Cast e _ => printable true e
  | InList l values _ =>
      top && printable false l && negb (bool_decide (length values = 0%nat)) && forallb (printable true) values
  | _ => false
  end.

Lemma pieces_text_app a b : pieces_text (a ++ b) = pieces_text a ++ pieces_text b.
Proof. induction a as [|p a IH]; cbn [app pieces_text]; [done|]. by rewrite IH, app_assoc. Qed.

Lemma word_text sp w : is_word w = true →
  pieces_text [(sp, word w)] = (if sp then [" "%char] else []) ++ String.list_ascii_of_string w.
Proof.
  intros H. cbn [pieces_text]. unfold piece_text. cbn [fst snd]. destruct (word_chars w H) as [_ ->].
  by rewrite app_nil_r.
Qed.
Lemma name_word w : is_name w = true → is_word w = true.
Proof. unfold is_name. intros H. by bool_prop. Qed.
Lemma function_word w : is_function_name w = true → is_word w = true.
Proof. unfold is_function_name. intros H. by bool_prop. Qed.
Lemma type_word t : is_word (data_type_to_string t) = true ∧
  get_keyword_token_type (data_type_to_string t) = T.IDENTIFIER ∧
  string_to_data_type (data_type_to_string t) = Ok t.
Proof. by destruct t. Qed.

Lemma number_text z : 0 ≤ z →
  writable (T.NUMBER, std_to_string z) ∧ write_token (T.NUMBER, std_to_string z) = String.list_ascii_of_string (std_to_string z).
Proof.
  intros Hz. destruct (to_string_digits z Hz) as [Hd Hne]. split; [|done].
  destruct (std_to_string z) as [|c s]; [done|]. apply andb_true_iff in Hd as [Hc Hs]. by apply w_int.
Qed.
Lemma literal_text v : is_printable_literal v = true →
  writable (literal_token v) ∧ write_token (literal_token v) = String.list_ascii_of_string (Values.to_string v).
Proof.
  destruct v as [|z|d|s|b]; cbn [is_printable_literal literal_token Values.to_string]; intros H; try done.
  - by apply word_chars.
  - apply number_text. lia.
  - apply word_chars. by destruct b.
Qed.
Lemma op_text op : writable (op_token op) ∧
  write_token (op_token op) = String.list_ascii_of_string (binary_op_to_string op).
Proof.
  destruct op; cbn [op_token]; first [by apply word_chars | split; [apply w_operator; set_solver|done]].
Qed.

Definition space (sp : bool) : chars := if sp then [" "%char] else [].
Abbreviation chars_of := String.list_ascii_of_string.

Lemma comma_text (items : list Expression) :
  Forall (λ e, ∀ top sp, printable top e = true → pieces_text (pieces e sp) = space sp ++ chars_of (expression_to_string e)) items →
  forallb (printable true) items = true → items ≠ [] → ∀ sp,
  pieces_text (comma_pieces (map pieces items) sp) = space sp ++ chars_of (comma_sep (map expression_to_string items)).
Proof.
  induction 1 as [|e items He Hi IH]; [done|]. intros [Hp Hps]%andb_true_iff _ sp.
  destruct items as [|e2 items]; [by eapply He|].
  change (comma_pieces (map pieces (e :: e2 :: items)) sp)
    with (pieces e sp ++ (false, comma) :: comma_pieces (map pieces (e2 :: items)) true).
  change (comma_sep (map expression_to_string (e :: e2 :: items)))
    with (expression_to_string e +:+ ", " +:+ comma_sep (map expression_to_string (e2 :: items))).
  rewrite pieces_text_app, (He true sp Hp), !list_ascii_app, <- app_assoc. f_equal. f_equal.
  cbn [pieces_text]. unfold piece_text at 1. cbn [fst snd].
  change (write_token comma) with [","%char]. rewrite IH by done. done.
Qed.

Lemma text_pieces e : ∀ top sp, printable top e = true →
  pieces_text (pieces e sp) = space sp ++ chars_of (expression_to_string e).
Proof.
  induction e as [v|name|t c|i|l op r IHl IHr|op e IHe|name args w IHa|e t IHe|ps els|l vs b IHl IHv|l q b IHl|q b|q]
    using expr_nested_ind; intros top sp; cbn [printable pieces]; try done.
  - intros H. destruct (literal_text v H) as [_ E]. cbn [pieces_text]. unfold piece_text. cbn [fst snd].
    by rewrite E, app_nil_r.
  - intros ->%bool_decide_eq_true. by destruct sp.
  - unfold expression_to_string. cbn [expr_to_string]. case_bool_decide; intros Hp.
    + apply word_text. by apply name_word.
    + apply andb_true_iff in Hp as [Ht Hc]. apply name_word in Ht.
      change (?a :: ?b :: ?c) with ([a] ++ [b] ++ c). rewrite !pieces_text_app, !word_text by done.
      rewrite !list_ascii_app. by rewrite <- !app_assoc.
  - intros [Hl Hr]%andb_true_iff. change (?a :: ?b) with ([a] ++ b) at 1.
    rewrite pieces_text_app, pieces_text_app. change ((true, op_token op) :: ?b) with ([(true, op_token op)] ++ b).
    rewrite !pieces_text_app, (IHl _ _ Hl), (IHr _ _ Hr). unfold expression_to_string. cbn [expr_to_string].
    rewrite !list_ascii_app. destruct (op_text op) as [_ E]. cbn [pieces_text]. unfold piece_text. cbn [fst snd].
    rewrite E. rewrite <- !app_assoc. done.
  - intros He. unfold expression_to_string. cbn [expr_to_string]. rewrite !list_ascii_app.
    change (?a :: ?b :: ?c ++ ?d) with ([a] ++ [b] ++ c ++ d). rewrite !pieces_text_app, (IHe _ _ He).
    destruct op; cbn [pieces_text]; unfold piece_text; cbn [fst snd];
      rewrite ?(proj2 (word_chars "NOT" eq_refl)); rewrite <- !app_assoc; done.
  - destruct w; [done|]. intros [Hn Ha]%andb_true_iff. apply function_word in Hn.
    change (?a :: ?b :: ?c ++ ?d) with ([a] ++ [b] ++ c ++ d). rewrite !pieces_text_app, word_text by done.
    unfold expression_to_string. cbn [expr_to_string]. rewrite !list_ascii_app, <- !app_assoc. f_equal. f_equal.
    change (pieces_text [(false, lparen)]) with ["("%char]. change (chars_of "(") with ["("%char]. f_equal.
    destruct args as [|a args]; [done|]. by rewrite (comma_text _ IHa Ha).
  - intros He. destruct (type_word t) as [Ht _].
    change (?a :: ?b :: ?c ++ ?d) with ([a] ++ [b] ++ c ++ d).
    change [(true, word "AS"); ?b; ?c] with ([(true, word "AS")] ++ [b] ++ [c]).
    rewrite !pieces_text_app, !word_text by done. rewrite (IHe _ _ He).
    unfold expression_to_string. cbn [expr_to_string]. rewrite !list_ascii_app, <- !app_assoc. done.
  - intros H. bool_prop. assert (Hne : vs ≠ []) by (by destruct vs).
    rewrite !pieces_text_app, (IHl false sp) by done.
    unfold expression_to_string. cbn [expr_to_string]. rewrite !list_ascii_app, <- !app_assoc. f_equal. f_equal.
    change ((true, word "IN") :: ?b :: ?c ++ ?d) with ([(true, word "IN"); b] ++ c ++ d).
    rewrite !pieces_text_app, (comma_text vs) by done. by destruct b.
Qed.

Lemma sep_piece sp t ps : sp = true ∨ t ∈ [rparen; comma; lparen] → sep (pieces_text ((sp, t) :: ps)).
Proof.
  intros H c r. cbn [pieces_text]. unfold piece_text. cbn [fst snd]. destruct sp; cbn [app].
  - intros [= <- <-]. unfold separators. set_solver.
  - destruct H as [?|H]; [done|]. rewrite !elem_of_cons, elem_of_nil in H.
    destruct_or?; subst; try done; intros [= <- <-]; unfold separators; set_solver.
Qed.
Lemma sep_pieces e ps top : printable top e = true → sep (pieces_text (pieces e true ++ ps)).
Proof.
  intros H c r. rewrite pieces_text_app, (text_pieces e top true H). cbn [space app]. intros [= <- <-].
  unfold separators. set_solver.
Qed.
Lemma clean_sep sp t ps : writable t → sep (pieces_text ps) → clean ps → clean ((sp, t) :: ps).
Proof. intros Hw Hs Hc. split; [done|]. split; [by left|done]. Qed.
Lemma clean_lparen sp ps : clean ps → clean ((sp, lparen) :: ps).
Proof. intros Hc. split; [apply w_operator; set_solver|]. split; [by right; left|done]. Qed.
Lemma clean_rparen sp ps : sep (pieces_text ps) → clean ps → clean ((sp, rparen) :: ps).
Proof. intros Hs Hc. apply clean_sep; [apply w_operator; set_solver|done|done]. Qed.

Lemma clean_commas (items : list Expression) ps :
  Forall (λ e, ∀ top sp ps, printable top e = true → clean ps → sep (pieces_text ps) → clean (pieces e sp ++ ps)) items →
  forallb (printable true) items = true → clean ps → sep (pieces_text ps) → ∀ sp,
  clean (comma_pieces (map pieces items) sp ++ ps).
Proof.
  intros Hi Hp Hc Hs. revert Hp. induction Hi as [|e items He Hi IH]; [done|]. intros [Hp Hps]%andb_true_iff sp.
  destruct items as [|e2 items]; [by eapply He|].
  change (comma_pieces (map pieces (e :: e2 :: items)) sp)
    with (pieces e sp ++ (false, comma) :: comma_pieces (map pieces (e2 :: items)) true).
  rewrite <- app_assoc. apply (He true); [done| |apply sep_piece; right; set_solver].
  rewrite <- app_comm_cons. apply clean_sep; [apply w_operator; set_solver| |by apply IH].
  destruct items as [|e3 items].
  - apply (sep_pieces e2 ps true). by apply andb_true_iff in Hps as [? _].
  - change (comma_pieces (map pieces (e2 :: e3 :: items)) true)
      with (pieces e2 true ++ (false, comma) :: comma_pieces (map pieces (e3 :: items)) true).
    rewrite <- app_assoc. apply (sep_pieces e2 _ true). by apply andb_true_iff in Hps as [? _].
Qed.

Lemma clean_pieces e : ∀ top sp ps, printable top e = true → clean ps → sep (pieces_text ps) → clean (pieces e sp ++ ps).
Proof.
  induction e as [v|name|t c|i|l op r IHl IHr|op e IHe|name args w IHa|e t IHe|cs els|l vs b IHl IHv|l q b IHl|q b|q]
    using expr_nested_ind; intros top sp ps; cbn [printable pieces]; try done; intros Hp Hc Hs.
  - apply clean_sep; [by apply literal_text|done|done].
  - apply bool_decide_eq_true in Hp as ->. apply clean_sep; [apply w_operator; set_solver|done|done].
  - case_bool_decide; cbn [app].
    + apply clean_sep; [by apply word_chars, name_word|done|done].
    + apply andb_true_iff in Hp as [Ht Hw]. apply name_word in Ht.
      split; [by apply word_chars|]. split; [right; right; right; by eexists _, _|].
      split; [apply w_operator; set_solver|]. split; [by right; right; left|].
      apply clean_sep; [by apply word_chars|done|done].
  - apply andb_true_iff in Hp as [Hl Hr]. cbn [app]. apply clean_lparen. rewrite <- app_assoc.
    eapply IHl; [done| |apply sep_piece; by left]. cbn [app]. apply clean_sep; [apply op_text| |].
    + rewrite <- app_assoc. by eapply sep_pieces.
    + rewrite <- app_assoc. eapply IHr; [done|by apply clean_rparen|apply sep_piece; right; set_solver].
  - cbn [app]. apply clean_lparen, clean_sep.
    + destruct op; [by apply word_chars|apply w_operator; set_solver].
    + rewrite <- app_assoc. by eapply sep_pieces.
    + rewrite <- app_assoc. eapply IHe; [done|by apply clean_rparen|apply sep_piece; right; set_solver].
  - destruct w; [done|]. apply andb_true_iff in Hp as [Hn Ha]. cbn [app].
    apply clean_sep; [by apply word_chars, function_word|apply sep_piece; right; set_solver|].
    apply clean_lparen. rewrite <- app_assoc.
    apply clean_commas; [done|done|by apply clean_rparen|apply sep_piece; right; set_solver].
  - destruct (type_word t) as [Ht _]. cbn [app].
    apply clean_sep; [by apply word_chars|apply sep_piece; right; set_solver|]. apply clean_lparen.
    rewrite <- app_assoc. eapply IHe; [done| |apply sep_piece; by left]. cbn [app].
    apply clean_sep; [by apply word_chars|apply sep_piece; by left|].
    apply clean_sep; [by apply word_chars|apply sep_piece; right; set_solver|]. by apply clean_rparen.
  - bool_prop. rewrite <- app_assoc. apply (IHl false); [done| |destruct b; apply sep_piece; by left].
    assert (Hin : clean (((true, word "IN") :: (true, lparen) :: comma_pieces (map pieces vs) false ++ [(false, rparen)]) ++ ps)).
    { cbn [app]. apply clean_sep; [by apply word_chars|apply sep_piece; by left|]. apply clean_lparen.
      rewrite <- app_assoc.
      apply clean_commas; [done|done|by apply clean_rparen|apply sep_piece; right; set_solver]. }
    destruct b; [|exact Hin]. cbn [app].
    apply clean_sep; [by apply word_chars|apply sep_piece; by left|exact Hin].
Qed.

(** The text of a printable expression is lexed into its tokens. *)
Lemma tokenize_expression e : printable true e = true →
  ∃ toks, tokenize (expression_to_string e) = Ok toks
    ∧ types_and_lexemes toks = (snd <$> pieces e false) ++ [(T.END_OF_INPUT, ""%string)].
Proof.
  intros H. destruct (tokenize_pieces (pieces e false)) as (toks & E & Ht).
  { rewrite <- (app_nil_r (pieces e false)). eapply clean_pieces; [done|done|]. by intros c r ?. }
  exists toks. rewrite (text_pieces e true false H) in E. cbn [space app] in E.
  by rewrite String.string_of_list_ascii_of_string in E.
Qed.

(** ** Parsing the tokens *)

(** The types and lexemes of the tokens that are left. *)
Definition ahead (s : parser) (l : list token) : Prop :=
  types_and_lexemes (drop (current_ s) (tokens_ s)) = l.
Definition hd_type (l : list token) : TokenType :=
  match l with [] => T.END_OF_INPUT | t :: _ => t.1 end.

Lemma ahead_cons s t l : ahead s (t :: l) →
  ∃ tok, tokens_ s !! current_ s = Some tok ∧ (tok_type tok, tok_lexeme tok) = t
    ∧ ahead (set_current (S (current_ s)) s) l.
Proof.
  unfold ahead. intros H. destruct (tokens_ s !! current_ s) as [tok|] eqn:E.
  - rewrite (drop_S _ tok) in H by done. cbn in H. injection H as <- <-. by exists tok.
  - rewrite drop_ge in H by (by apply lookup_ge_None). done.
Qed.
Lemma ahead_nil s : ahead s [] → tokens_ s !! current_ s = None.
Proof.
  unfold ahead. intros H. destruct (tokens_ s !! current_ s) as [tok|] eqn:E; [|done].
  by rewrite (drop_S _ tok) in H by done.
Qed.
Lemma ahead_remaining s l : ahead s l → remaining s = length l.
Proof. unfold ahead, remaining. intros <-. unfold types_and_lexemes. by rewrite length_fmap, length_drop. Qed.

Lemma ahead_check s l type : ahead s l → type ≠ T.END_OF_INPUT → check type s = bool_decide (hd_type l = type).
Proof.
  intros H Hty. unfold check, peek, is_at_end. destruct l as [|t l].
  - rewrite (ahead_nil s H). cbn [hd_type]. by rewrite bool_decide_eq_false_2.
  - destruct (ahead_cons s t l H) as (tok & -> & <- & _). cbn [hd_type fst].
    destruct (decide (tok_type tok = T.END_OF_INPUT)) as [E|E].
    + rewrite E, bool_decide_eq_true_2 by done. by rewrite bool_decide_eq_false_2.
    + by rewrite (bool_decide_eq_false_2 _ E).
Qed.

Lemma advance_ahead s t l : ahead s (t :: l) → t.1 ≠ T.END_OF_INPUT →
  ∃ s' tok, advance s = (s', Ok tok) ∧ tok_lexeme tok = t.2 ∧ ahead s' l.
Proof.
  intros H Ht. destruct (ahead_cons s t l H) as (tok & E & <- & Ha). cbn in Ht.
  unfold advance, is_at_end. rewrite E, bool_decide_eq_false_2 by done.
  cbn [set_current current_ tokens_]. rewrite E. by eexists _, _.
Qed.

Lemma match_hit s t l : ahead s (t :: l) → t.1 ≠ T.END_OF_INPUT →
  ∃ s', match_ t.1 s = (s', Ok true) ∧ ahead s' l.
Proof.
  intros H Ht. unfold match_. rewrite (ahead_check s _ _ H Ht). cbn [hd_type].
  rewrite bool_decide_eq_true_2 by done. rewrite ST_bind_eq.
  destruct (advance_ahead s t l H Ht) as (s' & tok & -> & _ & Ha). by exists s'.
Qed.
Lemma match_miss s l type : ahead s l → type ≠ T.END_OF_INPUT → hd_type l ≠ type → match_ type s = (s, Ok false).
Proof. intros H Ht Hne. unfold match_. by rewrite (ahead_check s l type H Ht), bool_decide_eq_false_2. Qed.
Lemma next_hit s t l : ahead s (t :: l) → t.1 ≠ T.END_OF_INPUT →
  ∃ s', next_lexeme s = (s', Ok t.2) ∧ ahead s' l.
Proof.
  intros H Ht. unfold next_lexeme. rewrite ST_bind_eq.
  destruct (advance_ahead s t l H Ht) as (s' & tok & -> & <- & Ha). by exists s'.
Qed.

(** [p] reads the tokens [l] as [a], before a token that is not in [stop]. *)
Definition parses {A} (p : P A) (l : list token) (a : A) (stop : list TokenType) : Prop :=
  ∀ s rest, ahead s (l ++ rest) → hd_type rest ∉ stop → ∃ s', p s = (s', Ok a) ∧ ahead s' rest.

Lemma parses_mono {A} (p : P A) l a stop stop' : stop ⊆ stop' → parses p l a stop → parses p l a stop'.
Proof. intros Hs H s rest Ha Hr. apply H; [done|set_solver]. Qed.

(** ** Operators *)

Definition op_types (ops : list (TokenType * BinaryOp)) : list TokenType := ops.*1.

Lemma match_op_miss ops s l : ahead s l → T.END_OF_INPUT ∉ op_types ops → hd_type l ∉ op_types ops →
  match_op ops s = (s, Ok None).
Proof.
  intros Ha. induction ops as [|[type op] ops IH]; intros He Hr; [done|]. cbn [match_op].
  unfold op_types in *. rewrite fmap_cons, not_elem_of_cons in He, Hr. destruct He as [He ?], Hr as [Hr ?].
  rewrite ST_bind_eq, (match_miss s l type) by (done || congruence). by apply IH.
Qed.
Lemma match_op_hit ops s t op l : ahead s (t :: l) → T.END_OF_INPUT ∉ op_types ops → NoDup (op_types ops) →
  (t.1, op) ∈ ops → ∃ s', match_op ops s = (s', Ok (Some op)) ∧ ahead s' l.
Proof.
  intros Ha. induction ops as [|[type op'] ops IH]; intros He Hnd Hin; [set_solver|]. cbn [match_op].
  unfold op_types in *. rewrite fmap_cons in He, Hnd. apply not_elem_of_cons in He as [He ?].
  apply NoDup_cons in Hnd as [Hn Hnd]. cbn [fst] in *. rewrite ST_bind_eq.
  destruct (decide (t.1 = type)) as [<-|Hne].
  - destruct (match_hit s t l Ha) as (s' & -> & Ha'); [done|].
    apply elem_of_cons in Hin as [[= <-]|Hin]; [by exists s'|]. exfalso. apply Hn.
    apply list_elem_of_fmap. by exists (t.1, op).
  - rewrite (match_miss s (t :: l) type) by done.
    apply IH; [done|done|]. apply elem_of_cons in Hin as [[= ? ?]|Hin]; [done|exact Hin].
Qed.

Lemma while_stop {A} (body : A → P (option A)) acc s : body acc s = (s, Ok None) → while_ body acc s = (s, Ok acc).
Proof. intros H. unfold while_. cbn [loop]. by rewrite ST_bind_eq, H. Qed.

Section left_assoc.
Context (ops : list (TokenType * BinaryOp)) (operand : P Expression) (stop stop' : list TokenType).
Hypothesis (Hend : T.END_OF_INPUT ∉ op_types ops) (Hnd : NoDup (op_types ops)).
Hypothesis (Hops : op_types ops ⊆ stop') (Hsub : stop ⊆ stop').

Lemma left_assoc_none l e : parses operand l e stop → parses (left_assoc ops operand) l e stop'.
Proof.
  intros H s rest Ha Hr. unfold left_assoc. rewrite ST_bind_eq.
  destruct (H s rest Ha) as (s' & -> & Ha'); [set_solver|]. exists s'. split; [|done].
  apply while_stop. rewrite ST_bind_eq, (match_op_miss ops s' rest); [done|done|done|set_solver].
Qed.
Lemma left_assoc_one l t op r e1 e2 : (t.1, op) ∈ ops → t.1 ∉ stop →
  parses operand l e1 stop → parses operand r e2 stop →
  parses (left_assoc ops operand) (l ++ t :: r) (BinaryOpE e1 op e2) stop'.
Proof.
  intros Hop Ht Hl Hr s rest Ha Hrest. rewrite <- app_assoc in Ha. unfold left_assoc. rewrite ST_bind_eq.
  destruct (Hl s ((t :: r) ++ rest) Ha) as (s1 & -> & Ha1); [done|].
  unfold while_. rewrite (ahead_remaining s1 _ Ha1). cbn [app length loop]. rewrite !ST_bind_eq.
  destruct (match_op_hit ops s1 t op (r ++ rest) Ha1) as (s2 & -> & Ha2); [done..|].
  rewrite ST_bind_eq. destruct (Hr s2 rest Ha2) as (s3 & -> & Ha3); [set_solver|].
  exists s3. split; [|done]. cbn [mret ST_ret]. rewrite ST_bind_eq.
  rewrite ST_bind_eq, (match_op_miss ops s3 rest); [done|done|done|set_solver].
Qed.
End left_assoc.

(** ** The levels of precedence *)

Definition prim_stop : list TokenType := [T.LPAREN; T.DOT; T.OVER].
Definition mult_stop : list TokenType := [T.MULTIPLY; T.ASTERISK; T.DIVIDE; T.MODULO] ++ prim_stop.
Definition add_stop : list TokenType := [T.PLUS; T.MINUS] ++ mult_stop.
Definition cmp_stop : list TokenType := [T.BETWEEN; T.IN; T.NOT] ++ op_types comparison_ops ++ add_stop.
Definition and_stop : list TokenType := T.AND :: cmp_stop.
Definition or_stop : list TokenType := T.OR :: and_stop.

(** The tokens an expression starts with. *)
Definition starts : list TokenType := [
  T.NULL_KW; T.TRUE_KW; T.FALSE_KW; T.NUMBER; T.ASTERISK; T.IDENTIFIER; T.COUNT; T.SUM; T.AVG; T.MIN; T.MAX;
  T.LPAREN].

Ltac elem_solve := apply (bool_decide_unpack _); vm_compute; exact I.
Ltac types_solve := first [ done | apply (bool_decide_unpack _); vm_compute; exact I ].
Ltac not_stop := unfold or_stop, and_stop, cmp_stop, add_stop, mult_stop in *; types_solve.

Lemma hd_app l rest : l ≠ [] → hd_type (l ++ rest) = hd_type l.
Proof. by destruct l. Qed.
Lemma starts_nonempty l : hd_type l ∈ starts → l ≠ [].
Proof. intros H ->. revert H. cbn [hd_type]. types_solve. Qed.
Lemma starts_ne l rest type : hd_type l ∈ starts → type ∉ starts → hd_type (l ++ rest) ≠ type.
Proof. intros H Hn E. rewrite hd_app in E by (by apply starts_nonempty). by rewrite E in H. Qed.

Lemma add_cmp : add_stop ⊆ cmp_stop.
Proof. types_solve. Qed.
Lemma ops_cmp : op_types comparison_ops ⊆ cmp_stop.
Proof. types_solve. Qed.

Section levels.
Context (pe : P Expression) (ps : P SelectStatement).

Lemma level_unary l e : hd_type l ∈ starts →
  parses (parse_primary_expression pe ps) l e prim_stop → parses (parse_unary_expression pe ps) l e prim_stop.
Proof.
  intros Hl H s rest Ha Hr. unfold parse_unary_expression. cbn [unary_from]. rewrite ST_bind_eq.
  rewrite (match_miss s _ T.MINUS Ha) by first [done | apply starts_ne; types_solve]. by apply H.
Qed.
Lemma level_negative l e t : hd_type l ∈ starts → t = (T.MINUS, "-"%string) →
  parses (parse_primary_expression pe ps) l e prim_stop →
  parses (parse_unary_expression pe ps) (t :: l) (UnaryOpE NEG e) prim_stop.
Proof.
  intros Hl -> H s rest Ha Hr. unfold parse_unary_expression. rewrite (ahead_remaining s _ Ha).
  cbn [app length unary_from]. rewrite ST_bind_eq.
  destruct (match_hit s (T.MINUS, "-"%string) _ Ha) as (s1 & E & Ha1); [done|]. cbn [fst] in E. rewrite E.
  rewrite !ST_bind_eq. rewrite (match_miss s1 _ T.MINUS Ha1) by first [done | apply starts_ne; types_solve].
  destruct (H s1 rest Ha1 Hr) as (s2 & -> & Ha2). by exists s2.
Qed.

Lemma level_mult l e : parses (parse_unary_expression pe ps) l e prim_stop →
  parses (parse_multiplicative_expression pe ps) l e mult_stop.
Proof. apply left_assoc_none; types_solve. Qed.
Lemma level_add l e : parses (parse_multiplicative_expression pe ps) l e mult_stop →
  parses (parse_additive_expression pe ps) l e add_stop.
Proof. apply left_assoc_none; types_solve. Qed.

Lemma match_not_hd s rest type : ahead s rest → hd_type rest ∉ cmp_stop → type ∈ cmp_stop →
  type ≠ T.END_OF_INPUT → match_ type s = (s, Ok false).
Proof. intros Ha Hr Ht Hne. apply (match_miss s rest); [done|done|]. by intros <-. Qed.

Lemma level_cmp l e : parses (parse_additive_expression pe ps) l e add_stop →
  parses (parse_comparison_expression pe ps) l e cmp_stop.
Proof.
  intros H s rest Ha Hr. unfold parse_comparison_expression. rewrite ST_bind_eq.
  destruct (H s rest Ha) as (s1 & -> & Ha1); [by intros Hin; apply Hr, add_cmp|].
  rewrite ST_bind_eq, (match_not_hd s1 rest T.BETWEEN) by types_solve.
  rewrite ST_bind_eq, (match_not_hd s1 rest T.IN) by types_solve.
  rewrite ST_bind_eq, (match_not_hd s1 rest T.NOT) by types_solve.
  rewrite !ST_bind_eq. cbn [mret ST_ret]. rewrite ST_bind_eq.
  rewrite (match_op_miss comparison_ops s1 rest Ha1); [by exists s1|types_solve|].
  by intros Hin; apply Hr, ops_cmp.
Qed.

Lemma cmp_op l t op r e1 e2 : (t.1, op) ∈ comparison_ops →
  parses (parse_additive_expression pe ps) l e1 add_stop →
  parses (parse_additive_expression pe ps) r e2 add_stop →
  parses (parse_comparison_expression pe ps) (l ++ t :: r) (BinaryOpE e1 op e2) cmp_stop.
Proof.
  intros Hop Hl Hr s rest Ha Hrest. rewrite <- app_assoc in Ha. unfold parse_comparison_expression.
  assert (Ht : t.1 ∈ op_types comparison_ops) by (apply list_elem_of_fmap; by exists (t.1, op)).
  assert (Hnot : ∀ stop : list TokenType, bool_decide (Forall (λ x, x ∉ stop) (op_types comparison_ops)) = true → t.1 ∉ stop).
  { intros stop H%bool_decide_eq_true. rewrite Forall_forall in H. by apply H. }
  rewrite ST_bind_eq. destruct (Hl s ((t :: r) ++ rest) Ha) as (s1 & -> & Ha1); [by apply Hnot|].
  assert (Hmiss : ∀ type : TokenType, bool_decide (Forall (λ x, x ∉ [type]) (op_types comparison_ops)) = true →
    type ≠ T.END_OF_INPUT → match_ type s1 = (s1, Ok false)).
  { intros type H Hne. apply (match_miss s1 _ type Ha1 Hne). cbn. specialize (Hnot [type] H). set_solver. }
  rewrite ST_bind_eq, (Hmiss T.BETWEEN), ST_bind_eq, (Hmiss T.IN), ST_bind_eq, (Hmiss T.NOT) by done.
  rewrite !ST_bind_eq. cbn [mret ST_ret]. rewrite ST_bind_eq.
  destruct (match_op_hit comparison_ops s1 t op (r ++ rest) Ha1) as (s2 & -> & Ha2); [types_solve|types_solve|done|].
  rewrite ST_bind_eq. destruct (Hr s2 rest Ha2) as (s3 & -> & Ha3); [by intros Hin; apply Hrest, add_cmp|].
  by exists s3.
Qed.

Lemma level_not_start l e : l ≠ [] → hd_type l ≠ T.NOT →
  parses (parse_comparison_expression pe ps) l e cmp_stop → parses (parse_not_expression pe ps) l e cmp_stop.
Proof.
  intros Hne Hl H s rest Ha Hr. unfold parse_not_expression. cbn [not_from]. rewrite ST_bind_eq.
  rewrite (match_miss s _ T.NOT Ha) by first [done | by rewrite hd_app]. by apply H.
Qed.
Lemma level_not l e : hd_type l ∈ starts →
  parses (parse_comparison_expression pe ps) l e cmp_stop → parses (parse_not_expression pe ps) l e cmp_stop.
Proof.
  intros Hl. apply level_not_start; [by apply starts_nonempty|]. intros E. rewrite E in Hl. revert Hl. types_solve.
Qed.
Lemma not_op l e : hd_type l ∈ starts →
  parses (parse_comparison_expression pe ps) l e cmp_stop →
  parses (parse_not_expression pe ps) (word "NOT" :: l) (UnaryOpE NOT e) cmp_stop.
Proof.
  intros Hl H s rest Ha Hr. unfold parse_not_expression. rewrite (ahead_remaining s _ Ha).
  cbn [app length not_from]. rewrite ST_bind_eq.
  destruct (match_hit s (word "NOT") _ Ha) as (s1 & E & Ha1); [done|].
  change (match_ T.NOT s = (s1, Ok true)) in E. rewrite E.
  rewrite !ST_bind_eq. rewrite (match_miss s1 _ T.EXISTS Ha1) by first [done | apply starts_ne; types_solve].
  rewrite !ST_bind_eq. rewrite (match_miss s1 _ T.NOT Ha1) by first [done | apply starts_ne; types_solve].
  destruct (H s1 rest Ha1 Hr) as (s2 & -> & Ha2). by exists s2.
Qed.
Lemma level_and l e : parses (parse_not_expression pe ps) l e cmp_stop →
  parses (parse_and_expression pe ps) l e and_stop.
Proof. apply left_assoc_none; types_solve. Qed.
Lemma level_or l e : parses (parse_and_expression pe ps) l e and_stop →
  parses (parse_or_expression pe ps) l e or_stop.
Proof. apply left_assoc_none; types_solve. Qed.

(** An atom at every level. *)
Lemma atom_add l e : hd_type l ∈ starts → parses (parse_primary_expression pe ps) l e prim_stop →
  parses (parse_additive_expression pe ps) l e add_stop.
Proof. intros Hl H. by apply level_add, level_mult, level_unary. Qed.
Lemma cmp_expr l e : hd_type l ∈ starts → parses (parse_comparison_expression pe ps) l e cmp_stop →
  parses (parse_or_expression pe ps) l e or_stop.
Proof. intros Hl H. by apply level_or, level_and, level_not. Qed.
Lemma add_expr l e : hd_type l ∈ starts → parses (parse_additive_expression pe ps) l e add_stop →
  parses (parse_or_expression pe ps) l e or_stop.
Proof. intros Hl H. by apply cmp_expr, level_cmp. Qed.

(** A binary operator between two atoms; IN lists too, for AND and OR. *)
Lemma binary_expr l op r e1 e2 : hd_type l ∈ starts → hd_type r ∈ starts →
  (logical op = true → parses (parse_comparison_expression pe ps) l e1 cmp_stop
                       ∧ parses (parse_comparison_expression pe ps) r e2 cmp_stop) →
  (logical op = false → parses (parse_primary_expression pe ps) l e1 prim_stop
                        ∧ parses (parse_primary_expression pe ps) r e2 prim_stop) →
  parses (parse_or_expression pe ps) (l ++ op_token op :: r) (BinaryOpE e1 op e2) or_stop.
Proof.
  intros Hl Hr Hlog Harith.
  assert (Hs : hd_type (l ++ op_token op :: r) ∈ starts) by (rewrite hd_app; [done|by apply starts_nonempty]).
  destruct (logical op) eqn:E.
  - destruct (Hlog eq_refl) as [H1 H2]. destruct op; try done.
    + apply level_or. apply (left_assoc_one _ _ cmp_stop and_stop); [elem_solve..|by apply level_not|by apply level_not].
    + apply (left_assoc_one _ _ and_stop or_stop); [elem_solve..|by apply level_and, level_not|by apply level_and, level_not].
  - destruct (Harith eq_refl) as [H1 H2].
    assert (Ha1 := atom_add _ _ Hl H1). assert (Ha2 := atom_add _ _ Hr H2).
    assert (Hu1 := level_unary _ _ Hl H1). assert (Hu2 := level_unary _ _ Hr H2).
    destruct op; try discriminate E.
    1-6: (apply cmp_expr; [exact Hs|]; apply cmp_op; [elem_solve|exact Ha1|exact Ha2]).
    1-2: (apply add_expr; [exact Hs|];
          apply (left_assoc_one _ _ mult_stop add_stop); [elem_solve..|apply level_mult, Hu1|apply level_mult, Hu2]).
    1-3: (apply add_expr; [exact Hs|]; apply level_add;
          apply (left_assoc_one _ _ prim_stop mult_stop); [elem_solve..|exact Hu1|exact Hu2]).
Qed.
End levels.

(** ** Lists *)

Fixpoint comma_tail (ls : list (list token)) : list token :=
  match ls with [] => [] | l :: ls => comma :: l ++ comma_tail ls end.
Definition comma_tokens (ls : list (list token)) : list token :=
  match ls with [] => [] | l :: ls => l ++ comma_tail ls end.

Lemma comma_hd ls rest (stop : list TokenType) : T.COMMA ∉ stop → hd_type rest ∉ stop →
  hd_type (comma_tail ls ++ rest) ∉ stop.
Proof. by destruct ls. Qed.

Lemma comma_loop_parses {A} (item : P A) (stop : list TokenType) ls xs :
  T.COMMA ∉ stop → Forall2 (λ l x, parses item l x stop) ls xs → ∀ fuel acc s rest,
  (length ls < fuel)%nat → ahead s (comma_tail ls ++ rest) → hd_type rest ∉ T.COMMA :: stop →
  ∃ s', loop fuel (λ acc, more ← match_ T.COMMA;
      if (more : bool) then acc ← (x ← item; mret (acc ++ [x])); mret (Some acc) else mret None) acc s
    = (s', Ok (acc ++ xs)) ∧ ahead s' rest.
Proof.
  intros Hc. induction 1 as [|l x ls xs Hl _ IH]; intros fuel acc s rest Hf Ha Hr;
    (destruct fuel as [|fuel]; [lia|]); cbn [loop]; rewrite !ST_bind_eq.
  - rewrite (match_miss s rest T.COMMA Ha) by set_solver. exists s. by rewrite app_nil_r.
  - cbn [comma_tail app length] in *.
    destruct (match_hit s comma _ Ha) as (s1 & E & Ha1); [done|].
    change (match_ T.COMMA s = (s1, Ok true)) in E. rewrite E. rewrite <- app_assoc in Ha1.
    rewrite !ST_bind_eq. destruct (Hl s1 (comma_tail ls ++ rest) Ha1) as (s2 & -> & Ha2);
      [apply comma_hd; set_solver|]. cbn [mret ST_ret].
    destruct (IH fuel (acc ++ [x]) s2 rest) as (s3 & E3 & Ha3); [lia|done|done|].
    exists s3. split; [|done]. rewrite <- app_assoc in E3. exact E3.
Qed.

Lemma comma_list_parses {A} (item : P A) (stop : list TokenType) ls xs :
  T.COMMA ∉ stop → Forall2 (λ l x, parses item l x stop) ls xs → ls ≠ [] →
  parses (comma_list item) (comma_tokens ls) xs (T.COMMA :: stop).
Proof.
  intros Hc H Hne s rest Ha Hr. destruct H as [|l x ls xs Hl H]; [done|]. cbn [comma_tokens] in Ha.
  rewrite <- app_assoc in Ha. unfold comma_list, comma_loop. rewrite !ST_bind_eq.
  destruct (Hl s _ Ha) as (s1 & -> & Ha1); [apply comma_hd; set_solver|]. cbn [mret ST_ret app].
  unfold while_. apply (comma_loop_parses item stop ls xs Hc H); [|done|done].
  rewrite (ahead_remaining s1 _ Ha1), length_app.
  assert (length ls ≤ length (comma_tail ls))%nat; [|lia].
  clear. induction ls as [|l ls IH]; cbn [comma_tail length]; [lia|]. rewrite length_app. lia.
Qed.

(** ** Expressions *)

Definition toks (e : Expression) : list token := snd <$> pieces e false.

Lemma toks_space e : ∀ sp, snd <$> pieces e sp = toks e.
Proof.
  unfold toks.
  induction e as [v|name|t c|i|l op r IHl IHr|op e IHe|name args w IHa|e t IHe|cs els|l vs b IHl IHv|l q b IHl|q b|q]
    using expr_nested_ind; intros sp; try done; cbn [pieces]; [by case_bool_decide|].
  by rewrite !fmap_app, IHl.
Qed.

Lemma comma_toks items : ∀ sp, snd <$> comma_pieces (map pieces items) sp = comma_tokens (toks <$> items).
Proof.
  destruct items as [|e items]; [done|]. intros sp. revert sp e.
  induction items as [|e2 items IH]; intros sp e.
  { cbn. by rewrite app_nil_r, toks_space. }
  change (comma_pieces (map pieces (e :: e2 :: items)) sp)
    with (pieces e sp ++ (false, comma) :: comma_pieces (map pieces (e2 :: items)) true).
  rewrite fmap_app, fmap_cons, IH, toks_space. done.
Qed.

Lemma toks_binary l op r : toks (BinaryOpE l op r) = lparen :: (toks l ++ op_token op :: toks r) ++ [rparen].
Proof.
  unfold toks at 1. cbn [pieces]. rewrite fmap_cons, fmap_app, fmap_cons, fmap_app, !toks_space.
  by rewrite <- app_assoc.
Qed.
Lemma toks_unary op e : toks (UnaryOpE op e) =
  lparen :: (match op with NOT => word "NOT" | NEG => (T.MINUS, "-"%string) end :: toks e) ++ [rparen].
Proof. unfold toks at 1. cbn [pieces]. by rewrite !fmap_cons, fmap_app, toks_space. Qed.
Lemma toks_call name args w :
  toks (FunctionCall name args w) = word name :: lparen :: comma_tokens (toks <$> args) ++ [rparen].
Proof. unfold toks at 1. cbn [pieces]. by rewrite !fmap_cons, fmap_app, comma_toks. Qed.
Lemma toks_cast e t : toks (Cast e t) =
  word "CAST" :: lparen :: toks e ++ [word "AS"; word (data_type_to_string t); rparen].
Proof. unfold toks at 1. cbn [pieces]. by rewrite !fmap_cons, fmap_app, toks_space. Qed.
Lemma toks_in l vs b : toks (InList l vs b) =
  toks l ++ (if b then [word "NOT"] else []) ++ word "IN" :: lparen :: comma_tokens (toks <$> vs) ++ [rparen].
Proof.
  unfold toks at 1. cbn [pieces]. rewrite !fmap_app, !fmap_cons, fmap_app, comma_toks, toks_space. by destruct b.
Qed.

Lemma printable_top e top : printable top e = true → printable true e = true.
Proof. destruct e; cbn [printable]; try done. by destruct top. Qed.

Lemma name_type w : is_name w = true → get_keyword_token_type w = T.IDENTIFIER ∧ str_upper w ≠ "CURRENT_DATE"%string.
Proof. unfold is_name. intros H. bool_prop. done. Qed.

Lemma toks_start e : ∀ top, printable top e = true → hd_type (toks e) ∈ starts.
Proof.
  induction e as [v|name|t c|i|l op r IHl IHr|op e IHe|name args w IHa|e t IHe|cs els|l vs b IHl IHv|l q b IHl|q b|q]
    using expr_nested_ind; intros top Hp; cbn [printable] in Hp; try done.
  - destruct v as [|z|d|s|b]; try done.
    + change (T.NULL_KW ∈ starts). elem_solve.
    + change (T.NUMBER ∈ starts). elem_solve.
    + destruct b; [change (T.TRUE_KW ∈ starts)|change (T.FALSE_KW ∈ starts)]; elem_solve.
  - change (T.ASTERISK ∈ starts). elem_solve.
  - unfold toks. cbn [pieces]. case_bool_decide.
    + cbn [fmap list_fmap hd_type snd word fst]. destruct (name_type c Hp) as [-> _]. elem_solve.
    + apply andb_true_iff in Hp as [Hp _]. cbn [fmap list_fmap hd_type snd word fst].
      destruct (name_type t Hp) as [-> _]. elem_solve.
  - change (T.LPAREN ∈ starts). elem_solve.
  - change (T.LPAREN ∈ starts). elem_solve.
  - destruct w; [done|]. apply andb_true_iff in Hp as [Hp _]. rewrite toks_call. cbn [hd_type word fst].
    unfold is_function_name in Hp. bool_prop. unfold starts. set_solver.
  - change (T.IDENTIFIER ∈ starts). elem_solve.
  - bool_prop. rewrite toks_in, hd_app; [by eapply IHl|]. apply starts_nonempty. by eapply IHl.
Qed.

(** ** Atoms *)

Lemma checks_ahead s l type : ahead s l → type ≠ T.END_OF_INPUT →
  checks type s = (s, Ok (bool_decide (hd_type l = type))).
Proof. intros H Ht. unfold checks. by rewrite (ahead_check s l type H Ht). Qed.

(** A test that fails, or succeeds, on the next token. *)
Ltac miss Ha := rewrite ST_bind_eq, (match_miss _ _ _ Ha) by (cbn [app hd_type fst]; first [done | congruence | set_solver]).
Lemma checks_miss s l type : ahead s l → type ≠ T.END_OF_INPUT → hd_type l ≠ type →
  checks type s = (s, Ok false).
Proof. intros H Ht Hne. by rewrite (checks_ahead s l type H Ht), bool_decide_eq_false_2. Qed.
Lemma checks_hit s t l type : ahead s (t :: l) → type ≠ T.END_OF_INPUT → t.1 = type →
  checks type s = (s, Ok true).
Proof. intros H Ht E. by rewrite (checks_ahead s _ type H Ht), bool_decide_eq_true_2. Qed.
Ltac unchecked Ha :=
  rewrite ST_bind_eq, (checks_miss _ _ _ Ha) by (cbn [app hd_type fst]; first [done | congruence | set_solver]).
Ltac checked Ha :=
  rewrite ST_bind_eq, (checks_hit _ _ _ _ Ha) by (cbn [fst]; first [done | congruence]).
(** [hit type Ha as s' Ha']: [match_ type], or [consume type], takes the token. *)
Lemma match_type s t l type : ahead s (t :: l) → t.1 = type → type ≠ T.END_OF_INPUT →
  ∃ s', match_ type s = (s', Ok true) ∧ ahead s' l.
Proof. intros H <- Hne. by apply match_hit. Qed.
Lemma consume_type s t l type : ahead s (t :: l) → t.1 = type → type ≠ T.END_OF_INPUT →
  ∃ s' tok, (∀ message, consume type message s = (s', Ok tok)) ∧ tok_lexeme tok = t.2 ∧ ahead s' l.
Proof.
  intros H <- Hne. destruct (advance_ahead s t l H Hne) as (s' & tok & E & Ht & Ha). exists s', tok.
  split; [|done]. intros m. unfold consume. rewrite (ahead_check s _ _ H Hne). cbn [hd_type].
  by rewrite bool_decide_eq_true_2.
Qed.
Tactic Notation "hit" constr(type) constr(Ha) "as" ident(s') ident(Ha') :=
  let E := fresh "E" in
  destruct (match_type _ _ _ type Ha) as (s' & E & Ha'); [first [done | cbn [fst]; congruence]|done|];
  rewrite ST_bind_eq, E; clear E.
Tactic Notation "eat" constr(type) constr(Ha) "as" ident(s') ident(Ha') :=
  let E := fresh "E" in
  destruct (consume_type _ _ _ type Ha) as (s' & ? & E & _ & Ha'); [first [done | cbn [fst]; congruence]|done|];
  rewrite ST_bind_eq, E; clear E.

Section atoms.
Context (pe : P Expression) (ps : P SelectStatement).

Definition word_types : list TokenType :=
  [T.COUNT; T.SUM; T.AVG; T.MIN; T.MAX; T.IDENTIFIER; T.ASTERISK].

Lemma primary_word s t l : ahead s (t :: l) → t.1 ∈ word_types →
  parse_primary_expression pe ps s = parse_identifier_or_function pe s.
Proof.
  intros Ha Ht. unfold parse_primary_expression.
  assert (Hne : ∀ ty : TokenType, ty ∉ word_types → t.1 ≠ ty) by (intros ty H E; by rewrite E in Ht).
  assert (Hmiss : ∀ ty : TokenType, bool_decide (ty ∉ T.END_OF_INPUT :: word_types) = true →
    match_ ty s = (s, Ok false) ∧ checks ty s = (s, Ok false)).
  { intros ty H%bool_decide_eq_true. apply not_elem_of_cons in H as [H1 H2]. split.
    - apply (match_miss s _ ty Ha H1). by apply Hne.
    - rewrite (checks_ahead s _ ty Ha H1). by rewrite bool_decide_eq_false_2 by by apply Hne. }
  rewrite ST_bind_eq, (proj1 (Hmiss T.NULL_KW eq_refl)), ST_bind_eq, (proj1 (Hmiss T.TRUE_KW eq_refl)).
  rewrite ST_bind_eq, (proj1 (Hmiss T.FALSE_KW eq_refl)), ST_bind_eq, (proj2 (Hmiss T.PARAMETER eq_refl)).
  rewrite ST_bind_eq, (proj1 (Hmiss T.EXISTS eq_refl)), ST_bind_eq, (proj2 (Hmiss T.NUMBER eq_refl)).
  rewrite ST_bind_eq, (proj2 (Hmiss T.STRING eq_refl)), ST_bind_eq, (proj1 (Hmiss T.LPAREN eq_refl)).
  rewrite ST_bind_eq. cbn [st_get]. fold word_types.
  assert (H : existsb (λ type, check type s) word_types = true); [|by rewrite H].
  apply existsb_exists. exists t.1. split; [by apply list_elem_of_In|].
  rewrite (ahead_check s _ _ Ha); [by rewrite bool_decide_eq_true_2|]. apply Hne. elem_solve.
Qed.

Lemma primary_paren l e : l ≠ [] → hd_type l ≠ T.SELECT → parses pe l e or_stop →
  parses (parse_primary_expression pe ps) (lparen :: l ++ [rparen]) e prim_stop.
Proof.
  intros Hne Hl H s rest Ha Hr. cbn [app] in Ha. unfold parse_primary_expression.
  miss Ha. miss Ha. miss Ha. unchecked Ha. miss Ha. unchecked Ha. unchecked Ha.
  hit T.LPAREN Ha as s1 Ha1. rewrite <- app_assoc in Ha1.
  unfold parse_parenthesized.
  rewrite ST_bind_eq, (checks_miss _ _ _ Ha1) by first [done | by rewrite hd_app]. rewrite ST_bind_eq.
  destruct (H s1 _ Ha1) as (s2 & -> & Ha2); [cbn [app hd_type fst rparen]; elem_solve|]. cbn [app] in Ha2.
  eat T.RPAREN Ha2 as s3 Ha3. by exists s3.
Qed.

Lemma primary_literal v : is_printable_literal v = true →
  parses (parse_primary_expression pe ps) [literal_token v] (Literal v) prim_stop.
Proof.
  intros Hv s rest Ha Hr. unfold parse_primary_expression. destruct v as [|z|d|str|b]; try done.
  - hit T.NULL_KW Ha as s1 Ha1. by exists s1.
  - cbn [is_printable_literal] in Hv. bool_prop. cbn [literal_token app] in Ha.
    miss Ha. miss Ha. miss Ha. unchecked Ha. miss Ha. checked Ha.
    destruct (next_hit s _ _ Ha) as (s1 & E & Ha1); [done|]. rewrite ST_bind_eq, E. cbn [snd].
    rewrite ST_bind_eq. unfold st_lift. rewrite number_to_string by lia. by exists s1.
  - cbn [literal_token app Values.to_string] in Ha. destruct b.
    + miss Ha. hit T.TRUE_KW Ha as s1 Ha1. by exists s1.
    + miss Ha. miss Ha. hit T.FALSE_KW Ha as s1 Ha1. by exists s1.
Qed.

Lemma word_step s w l : ahead s (word w :: l) → get_keyword_token_type w ≠ T.END_OF_INPUT →
  ∃ s', next_lexeme s = (s', Ok w) ∧ ahead s' l.
Proof. intros H Hw. by apply (next_hit s (word w) l H). Qed.

(** A name that is not called: the test for [CAST(] fails with the others. *)
Lemma no_cast s rest name : ahead s rest → hd_type rest ≠ T.LPAREN →
  (if bool_decide (str_upper name = "CAST"%string) then match_ T.LPAREN else mret false) s = (s, Ok false).
Proof. intros Ha Hr. case_bool_decide; [|done]. by apply (match_miss s rest). Qed.

Lemma primary_column c : is_name c = true →
  parses (parse_primary_expression pe ps) [word c] (ColumnRef "" c) prim_stop.
Proof.
  intros Hc s rest Ha Hr. destruct (name_type c Hc) as [Ht Hd]. cbn [app] in Ha.
  rewrite (primary_word s (word c) rest Ha) by (cbn [word fst]; rewrite Ht; elem_solve).
  unfold parse_identifier_or_function. rewrite ST_bind_eq.
  destruct (word_step s c rest Ha) as (s1 & -> & Ha1); [by rewrite Ht|]. unfold prim_stop in Hr.
  rewrite ST_bind_eq, (no_cast s1 rest) by (done || set_solver).
  unchecked Ha1. rewrite bool_decide_eq_false_2 by done. cbn [andb].
  rewrite ST_bind_eq, (match_miss s1 rest T.DOT Ha1) by (done || set_solver).
  rewrite bool_decide_eq_false_2; [by exists s1|]. by intros ->.
Qed.

Lemma primary_qualified t c : is_name t = true → is_word c = true →
  parses (parse_primary_expression pe ps) [word t; dot; word c] (ColumnRef t c) prim_stop.
Proof.
  intros Hc Hw s rest Ha Hr. destruct (name_type t Hc) as [Ht Hd]. cbn [app] in Ha.
  rewrite (primary_word s (word t) _ Ha) by (cbn [word fst]; rewrite Ht; elem_solve).
  unfold parse_identifier_or_function. rewrite ST_bind_eq.
  destruct (word_step s t _ Ha) as (s1 & -> & Ha1); [by rewrite Ht|].
  rewrite ST_bind_eq, (no_cast s1 _ _ Ha1) by done.
  unchecked Ha1. rewrite bool_decide_eq_false_2 by done. cbn [andb].
  hit T.DOT Ha1 as s2 Ha2. rewrite ST_bind_eq.
  destruct (word_step s2 c _ Ha2) as (s3 & -> & Ha3); [apply keyword_types|]. by exists s3.
Qed.

Lemma primary_star : parses (parse_primary_expression pe ps) [(T.ASTERISK, "*"%string)] (Identifier "*") prim_stop.
Proof.
  intros s rest Ha Hr. cbn [app] in Ha. rewrite (primary_word s _ _ Ha) by (cbn [fst]; elem_solve).
  unfold parse_identifier_or_function. rewrite ST_bind_eq. unfold prim_stop in Hr.
  destruct (next_hit s _ _ Ha) as (s1 & -> & Ha1); [done|]. cbn [snd].
  rewrite ST_bind_eq, (no_cast s1 rest) by (done || set_solver).
  unchecked Ha1.
  change (bool_decide (str_upper "*" = "CURRENT_DATE"%string)) with false. cbn [andb].
  rewrite ST_bind_eq, (match_miss s1 rest T.DOT Ha1) by (done || set_solver). by exists s1.
Qed.

(** The items of an argument or IN list. *)
Definition items (ls : list (list token)) (xs : list Expression) : Prop :=
  Forall2 (λ l x, parses pe l x or_stop) ls xs ∧ Forall (λ l, hd_type l ∈ starts) ls.

Lemma items_hd ls xs rest : items ls xs → ls ≠ [] → hd_type (comma_tokens ls ++ rest) ∈ starts.
Proof.
  intros [_ H] Hne. destruct H as [|l ls Hl _]; [done|]. cbn [comma_tokens].
  by rewrite !hd_app by (destruct l; [revert Hl; types_solve|done]).
Qed.
Lemma items_parse ls xs : items ls xs → ls ≠ [] → parses (comma_list pe) (comma_tokens ls) xs (T.COMMA :: or_stop).
Proof. intros [H _] Hne. by apply comma_list_parses; [types_solve|..]. Qed.

Lemma arguments_parse ls xs : items ls xs →
  parses (parse_arguments pe) (comma_tokens ls ++ [rparen]) xs [].
Proof.
  intros Hi s rest Ha _. unfold parse_arguments. rewrite <- app_assoc in Ha. destruct ls as [|l ls].
  - destruct Hi as [Hi _]. inversion Hi; subst. cbn [comma_tokens app] in Ha. checked Ha. rewrite ST_bind_eq.
    cbn [mret ST_ret]. eat T.RPAREN Ha as s1 Ha1. by exists s1.
  - rewrite ST_bind_eq, (checks_miss _ _ _ Ha); [|done|].
    + rewrite ST_bind_eq. destruct (items_parse _ _ Hi) with s ([rparen] ++ rest) as (s1 & -> & Ha1); [done|done|types_solve|].
      cbn [app] in Ha1. eat T.RPAREN Ha1 as s2 Ha2. by exists s2.
    + intros E. pose proof (items_hd _ _ ([rparen] ++ rest) Hi) as H. rewrite E in H. revert H. types_solve.
Qed.

Lemma primary_call name ls xs : is_function_name name = true → items ls xs →
  parses (parse_primary_expression pe ps) (word name :: lparen :: comma_tokens ls ++ [rparen])
    (FunctionCall name xs None) prim_stop.
Proof.
  intros Hn Hi s rest Ha Hr. unfold is_function_name in Hn. bool_prop. cbn [app] in Ha.
  rewrite (primary_word s _ _ Ha) by (cbn [word fst]; unfold word_types; set_solver).
  unfold parse_identifier_or_function. rewrite ST_bind_eq.
  destruct (word_step s name _ Ha) as (s1 & -> & Ha1); [apply keyword_types|].
  rewrite ST_bind_eq, bool_decide_eq_false_2 by done. cbn [mret ST_ret]. checked Ha1. rewrite andb_false_r.
  destruct (advance_ahead s1 _ _ Ha1) as (s2 & tok & E & _ & Ha2); [done|]. rewrite ST_bind_eq, E, ST_bind_eq.
  destruct (arguments_parse ls xs Hi s2 rest Ha2) as (s3 & -> & Ha3); [set_solver|].
  rewrite ST_bind_eq, (match_miss s3 rest T.OVER Ha3); [by exists s3|done|unfold prim_stop in Hr; set_solver].
Qed.

Lemma primary_cast l e t : parses pe l e or_stop →
  parses (parse_primary_expression pe ps)
    (word "CAST" :: lparen :: l ++ [word "AS"; word (data_type_to_string t); rparen]) (Cast e t) prim_stop.
Proof.
  intros H s rest Ha Hr. cbn [app] in Ha. destruct (type_word t) as (_ & Hk & Hd).
  rewrite (primary_word s _ _ Ha) by elem_solve. unfold parse_identifier_or_function. rewrite ST_bind_eq.
  destruct (word_step s "CAST" _ Ha) as (s1 & -> & Ha1); [done|]. rewrite ST_bind_eq.
  rewrite bool_decide_eq_true_2 by done. destruct (match_type _ _ _ T.LPAREN Ha1) as (s2 & -> & Ha2); [done..|].
  rewrite <- app_assoc in Ha2. unfold parse_cast. rewrite ST_bind_eq.
  destruct (H s2 _ Ha2) as (s3 & -> & Ha3); [cbn [app hd_type]; types_solve|]. cbn [app] in Ha3.
  eat T.AS Ha3 as s4 Ha4. rewrite ST_bind_eq. unfold identifier, lexeme. rewrite ST_bind_eq.
  destruct (consume_type _ _ _ T.IDENTIFIER Ha4) as (s5 & tok & E & Ht & Ha5); [exact Hk|done|]. rewrite E, Ht.
  cbn [mret ST_ret]. eat T.RPAREN Ha5 as s6 Ha6. unfold st_catch. rewrite ST_bind_eq. unfold st_lift. cbn [word snd].
  rewrite Hd. by exists s6.
Qed.

Lemma in_parse ls xs l e (is_not : bool) : items ls xs → ls ≠ [] →
  parses (parse_additive_expression pe ps) l e add_stop →
  parses (parse_comparison_expression pe ps)
    (l ++ (if is_not then [word "NOT"] else []) ++ word "IN" :: lparen :: comma_tokens ls ++ [rparen])
    (InList e xs is_not) cmp_stop.
Proof.
  intros Hi Hne Hl s rest Ha Hr. rewrite <- app_assoc in Ha. unfold parse_comparison_expression. rewrite ST_bind_eq.
  destruct (Hl s _ Ha) as (s1 & -> & Ha1); [destruct is_not; types_solve|]. clear Ha Hl.
  assert (Hin : ∀ s, ahead s (lparen :: (comma_tokens ls ++ [rparen]) ++ rest) →
    ∃ s', parse_in_predicate pe ps e is_not s = (s', Ok (InList e xs is_not)) ∧ ahead s' rest).
  { clear s s1 Ha1. intros s Ha. unfold parse_in_predicate. eat T.LPAREN Ha as s1 Ha1. rewrite <- app_assoc in Ha1.
    rewrite ST_bind_eq, (checks_miss _ _ _ Ha1); [|done|].
    - rewrite ST_bind_eq. destruct (items_parse _ _ Hi Hne s1 _ Ha1) as (s2 & -> & Ha2); [types_solve|].
      cbn [app] in Ha2. eat T.RPAREN Ha2 as s3 Ha3. rewrite bool_decide_eq_false_2; [by exists s3|].
      intros ->. destruct Hi as [Hi _]. by inversion Hi; subst.
    - intros E. pose proof (items_hd _ _ ([rparen] ++ rest) Hi Hne) as H. rewrite E in H. revert H. types_solve. }
  destruct is_not; cbn [app] in Ha1; rewrite ST_bind_eq, (match_miss _ _ T.BETWEEN Ha1) by done.
  - rewrite ST_bind_eq, (match_miss _ _ T.IN Ha1) by done. hit T.NOT Ha1 as s2 Ha2.
    rewrite ST_bind_eq, (checks_hit _ _ _ _ Ha2) by done.
    destruct (advance_ahead s2 _ _ Ha2) as (s3 & tok & E & _ & Ha3); [done|]. rewrite ST_bind_eq, E. by apply Hin.
  - hit T.IN Ha1 as s2 Ha2. by apply Hin.
Qed.
End atoms.

(** ** The round trip *)

Definition reads_at (fuel : nat) (e : Expression) : Prop :=
  (printable false e = true →
     parses (parse_primary_expression (expression_from fuel) (select_from fuel)) (toks e) e prim_stop) ∧
  (printable true e = true →
     parses (parse_comparison_expression (expression_from fuel) (select_from fuel)) (toks e) e cmp_stop).

(** Everything but an IN list is an atom. *)
Lemma atom_reads fuel e : printable false e = printable true e →
  (printable true e = true →
     parses (parse_primary_expression (expression_from fuel) (select_from fuel)) (toks e) e prim_stop) →
  reads_at fuel e.
Proof.
  intros Heq H. unfold reads_at. rewrite Heq. split; [done|]. intros Hp.
  apply level_cmp, atom_add; [by eapply toks_start|by apply H].
Qed.
Lemma reads_expression fuel e : printable true e = true → reads_at fuel e →
  parses (expression_from (S fuel)) (toks e) e or_stop.
Proof. intros Hp [_ H]. apply cmp_expr; [by eapply toks_start|by apply H]. Qed.

Lemma comma_tokens_length l ls : l ∈ ls → (length l ≤ length (comma_tokens ls))%nat.
Proof.
  assert (Ht : ∀ ls, l ∈ ls → (length l ≤ length (comma_tail ls))%nat).
  { clear ls. induction ls as [|l' ls IH]; [set_solver|]. cbn [comma_tail length]. rewrite length_app.
    intros [->|H]%elem_of_cons; [lia|]. specialize (IH H). lia. }
  destruct ls as [|l' ls]; [set_solver|]. cbn [comma_tokens]. rewrite length_app.
  intros [->|H]%elem_of_cons; [lia|]. specialize (Ht _ H). lia.
Qed.

(** The arguments of a call, or the values of an IN list, one level down. *)
Lemma reads_items fuel (args : list Expression) :
  Forall (λ e, ∀ fuel, (length (toks e) ≤ fuel)%nat → reads_at fuel e) args →
  forallb (printable true) args = true → (length (comma_tokens (toks <$> args)) < fuel)%nat →
  items (expression_from fuel) (toks <$> args) args.
Proof.
  intros Ha Hp Hf. destruct fuel as [|fuel]; [lia|].
  assert (Hlen : Forall (λ e, (length (toks e) ≤ fuel)%nat ∧ printable true e = true) args).
  { apply Forall_forall. intros e He. split.
    - assert (Hin : toks e ∈ toks <$> args) by (apply list_elem_of_fmap; by exists e).
      apply comma_tokens_length in Hin. lia.
    - rewrite forallb_forall in Hp. apply Hp. by apply list_elem_of_In. }
  clear Hp Hf. split.
  - induction Ha as [|e args He Ha IH]; [constructor|]. apply Forall_cons in Hlen as [[Hl Hp] Hlen].
    rewrite fmap_cons. constructor; [|by apply IH]. apply reads_expression; [done|by apply He].
  - induction Ha as [|e args He Ha IH]; [constructor|]. apply Forall_cons in Hlen as [[Hl Hp] Hlen].
    rewrite fmap_cons. constructor; [by eapply toks_start|by apply IH].
Qed.

Lemma reads e : ∀ fuel, (length (toks e) ≤ fuel)%nat → reads_at fuel e.
Proof.
  induction e as [v|name|t c|i|l op r IHl IHr|op e IHe|name args w IHa|e t IHe|cs els|l vs b IHl IHv|l q b IHl|q b|q]
    using expr_nested_ind; intros fuel Hf; try by (split; intros Hp; discriminate Hp).
  - apply atom_reads; [done|]. intros Hp. by apply primary_literal.
  - apply atom_reads; [done|]. intros ->%bool_decide_eq_true. apply primary_star.
  - apply atom_reads; [done|]. cbn [printable]. unfold toks. cbn [pieces]. case_bool_decide as E; intros Hp.
    + rewrite E. by apply primary_column.
    + apply andb_true_iff in Hp as [Ht Hc]. by apply primary_qualified.
  - apply atom_reads; [done|]. intros [Hl Hr]%andb_true_iff. rewrite toks_binary in Hf |- *.
    destruct fuel as [|fuel]; [cbn in Hf; lia|]. cbn [length] in Hf. rewrite !length_app in Hf. cbn [length] in Hf.
    assert (Hsl := toks_start _ _ Hl). assert (Hsr := toks_start _ _ Hr).
    apply primary_paren; [by destruct (toks l)|apply starts_ne; types_solve|].
    destruct (IHl fuel) as [Hl1 Hl2]; [lia|]. destruct (IHr fuel) as [Hr1 Hr2]; [lia|].
    apply binary_expr; [done|done| |]; intros E; rewrite E in Hl, Hr; auto.
  - apply atom_reads; [done|]. cbn [printable]. intros Hp. rewrite toks_unary in Hf |- *.
    destruct fuel as [|fuel]; [cbn in Hf; lia|]. cbn [length] in Hf. rewrite length_app in Hf. cbn [length] in Hf.
    assert (Hs := toks_start _ _ Hp). destruct (IHe fuel) as [He1 He2]; [lia|].
    apply primary_paren; [done|by destruct op|]. destruct op.
    + apply level_or, level_and. by apply not_op; [|apply He2].
    + apply level_or, level_and, level_not_start; [done|done|]. apply level_cmp, level_add, level_mult.
      by apply level_negative; [| |apply He1].
  - destruct w; [split; intros Hp; discriminate Hp|]. apply atom_reads; [done|].
    intros [Hn Ha]%andb_true_iff. rewrite toks_call in Hf |- *. cbn [length] in Hf. rewrite length_app in Hf.
    apply primary_call; [done|]. apply reads_items; [done|done|lia].
  - apply atom_reads; [done|]. cbn [printable]. intros Hp. rewrite toks_cast in Hf |- *.
    cbn [length] in Hf. rewrite length_app in Hf. destruct fuel as [|fuel]; [lia|].
    apply primary_cast, reads_expression; [done|]. apply IHe. lia.
  - split; [intros Hp; discriminate Hp|]. cbn [printable andb]. intros Hp. bool_prop.
    rewrite toks_in in Hf |- *. rewrite !length_app in Hf. cbn [length] in Hf. rewrite length_app in Hf.
    apply in_parse.
    + apply reads_items; [done|done|lia].
    + by destruct vs.
    + apply atom_add; [by eapply toks_start|]. apply IHl; [lia|done].
Qed.

Lemma end_at s l : ahead s l → hd_type l = T.END_OF_INPUT → is_at_end s = true.
Proof.
  intros Ha Hl. unfold is_at_end. destruct l as [|t l].
  - by rewrite (ahead_nil s Ha).
  - destruct (ahead_cons s t l Ha) as (tok & -> & <- & _). by apply bool_decide_eq_true_2.
Qed.

Lemma standalone_parses s l e rest : parses (expression_from (S (remaining s))) l e or_stop →
  ahead s (l ++ rest) → hd_type rest = T.END_OF_INPUT →
  ∃ s', parse_standalone_expression s = (s', Ok e).
Proof.
  intros H Ha Hr. unfold parse_standalone_expression. rewrite ST_bind_eq. unfold parse_expression.
  destruct (H s rest Ha) as (s1 & -> & Ha1); [rewrite Hr; types_solve|].
  rewrite ST_bind_eq, (match_miss s1 rest T.SEMICOLON Ha1); [|done|by rewrite Hr]. rewrite ST_bind_eq. cbn [st_get].
  rewrite (end_at s1 rest Ha1 Hr). by exists s1.
Qed.


(** [CHECK ((age >= 18) AND NOT t.status IN (1, abs(- 2)) ...)]. *)
Definition sample_check : Expression :=
  BinaryOpE
    (BinaryOpE (ColumnRef "" "age") GE (BinaryOpE (Literal (VInt 18)) PLUS (UnaryOpE NEG (ColumnRef "t" "offset"))))
    AND
    (BinaryOpE (InList (ColumnRef "t" "status") [Literal (VInt 1); FunctionCall "abs" [UnaryOpE NEG (Literal (VInt 2))] None] true)
       OR (UnaryOpE NOT (BinaryOpE (Cast (ColumnRef "" "price") FLOAT) EQ (Literal VNull)))).


(** A string literal is printed without its quotes, and comes back as a column. *)
Example string_check_not_reloaded :
  parse_check_expression (expression_to_string (BinaryOpE (ColumnRef "" "city") EQ (Literal (VString "Rome"))))
  = Ok (BinaryOpE (ColumnRef "" "city") EQ (ColumnRef "" "Rome")).
Proof. vm_compute. reflexivity. Qed.

(** ** Statements that are read otherwise than they look *)

(** [parse_statement] does not look at the tokens after the statement: a
    misspelt WHERE is an alias nobody asked for, and the DELETE has no condition. *)
Example misspelt_where_is_dropped :
  parse_text "DELETE FROM t WERE id = 1" = parse_text "DELETE FROM t".
Proof. vm_compute. reflexivity. Qed.

(** A [NOT] before a comparison is consumed and forgotten. *)
Example not_before_comparison_is_dropped :
  parse_text "DELETE FROM t WHERE id NOT = 5" = parse_text "DELETE FROM t WHERE id = 5".
Proof. vm_compute. reflexivity. Qed.

(** [NOT BETWEEN] leaves the column alone as the condition. *)
Example not_between_is_dropped :
  parse_text "DELETE FROM t WHERE id NOT BETWEEN 1 AND 5" = parse_text "DELETE FROM t WHERE id".
Proof. vm_compute. reflexivity. Qed.

(** LIMIT is compared as it is written, without regard to the case of keywords. *)
Example lower_case_limit_is_dropped :
  parse_text "SELECT * FROM t limit 5" = parse_text "SELECT * FROM t"
  ∧ parse_text "SELECT * FROM t LIMIT 5" ≠ parse_text "SELECT * FROM t".
Proof. split; [vm_compute; reflexivity|]. vm_compute. discriminate. Qed.

(** A number with an exponent and no point goes through [std::stoll]. *)
Example exponent_is_dropped :
  parse_standalone_text "1e5" = Ok (Literal (VInt 1)).
Proof. vm_compute. reflexivity. Qed.
