(* ===== verification/SelectAnalysis.v ===== *)
(** * What a SELECT asks for

    src/executor/select_analysis.cc: which expressions aggregate, which have
    window functions, and the rules a grouped SELECT must obey before it runs. *)

From Stdlib Require Import ZArith Lia.
From S2P Require Import Prelude CppNum Values Rows Expr Evaluator Operators Ast.

Abbreviation select_expr := (expr SelectStatement).

Definition is_aggregate_function_name (name : string) : bool := is_aggregate_call (str_lower name).
Definition is_window_function_name (name : string) : bool :=
  bool_decide (str_lower name ∈ ["row_number"; "rank"; "dense_rank"; "sum"; "avg"]%string).

Definition is_wildcard_select_expression (e : select_expr) : bool :=
  match e with
  | ColumnRef _ column => bool_decide (column = "*"%string)
  | Identifier name => bool_decide (name = "*"%string)
  | _ => false
  end.

Definition is_windowed {A} (window : option A) : bool := bool_decide (is_Some window).

Fixpoint expression_has_aggregate (e : select_expr) : bool :=
  match e with
  | FunctionCall name args window =>
      if is_windowed window then existsb expression_has_aggregate args
      else is_aggregate_function_name name || existsb expression_has_aggregate args
  | BinaryOpE l _ r => expression_has_aggregate l || expression_has_aggregate r
  | UnaryOpE _ e => expression_has_aggregate e
  | Case pairs els =>
      existsb (λ wt, expression_has_aggregate wt.1 || expression_has_aggregate wt.2) pairs
      || match els with Some e => expression_has_aggregate e | None => false end
  | _ => false
  end.

Fixpoint expression_has_window (e : select_expr) : bool :=
  match e with
  | FunctionCall _ args window => is_windowed window || existsb expression_has_window args
  | BinaryOpE l _ r => expression_has_window l || expression_has_window r
  | UnaryOpE _ e => expression_has_window e
  | Case pairs els =>
      existsb (λ wt, expression_has_window wt.1 || expression_has_window wt.2) pairs
      || match els with Some e => expression_has_window e | None => false end
  | _ => false
  end.

Fixpoint is_aggregate_argument (e : select_expr) : bool :=
  match e with
  | Literal _ | ColumnRef _ _ | Identifier _ => true
  | BinaryOpE l _ r => is_aggregate_argument l && is_aggregate_argument r
  | UnaryOpE _ e => is_aggregate_argument e
  | _ => false
  end.

Fixpoint is_literal_or_aggregate_only (e : select_expr) : bool :=
  match e with
  | Literal _ => true
  | FunctionCall name args window =>
      is_windowed window || (is_aggregate_function_name name && forallb is_aggregate_argument args)
  | BinaryOpE l _ r => is_literal_or_aggregate_only l && is_literal_or_aggregate_only r
  | UnaryOpE _ e => is_literal_or_aggregate_only e
  | _ => false
  end.

Definition expressions_compatible_for_grouping (a b : select_expr) : bool :=
  bool_decide (expression_to_string a = expression_to_string b) ||
  match a, b with
  | ColumnRef ta ca, ColumnRef tb cb => bool_decide (ca = cb) && bool_decide (ta = tb)
  | Identifier na, Identifier nb => bool_decide (na = nb)
  | ColumnRef ta ca, Identifier nb => bool_decide (ca = nb) && bool_decide (ta = ""%string)
  | Identifier na, ColumnRef tb cb => bool_decide (na = cb) && bool_decide (tb = ""%string)
  | _, _ => false
  end.

Definition matches_group_by (e : select_expr) (group_by : list select_expr) : bool :=
  existsb (expressions_compatible_for_grouping e) group_by.

Definition validate_window_function (name : string) (args : list select_expr)
    (window : option (list select_expr * list (select_expr * bool))) : option string :=
  match window with
  | None => None
  | Some (_, order_by) =>
      let n := str_lower name in
      if negb (is_window_function_name n) then Some ("Unsupported window function: " +:+ name)
      else if bool_decide (length order_by = 0%nat) then Some "Window OVER requires ORDER BY in v1"%string
      else if bool_decide (n ∈ ["row_number"; "rank"; "dense_rank"]%string) then
        if bool_decide (length args = 0%nat) then None else Some (name +:+ "() takes no arguments")
      else if bool_decide (n ∈ ["sum"; "avg"]%string) then
        if bool_decide (length args = 1%nat) then None
        else Some (name +:+ "() OVER requires exactly one argument")
      else Some ("Unsupported window function: " +:+ name)
  end.

Fixpoint walk_validate_windows (e : select_expr) : option string :=
  match e with
  | FunctionCall name args window =>
      match validate_window_function name args window with
      | Some err => Some err
      | None => first_error walk_validate_windows args
      end
  | BinaryOpE l _ r =>
      match walk_validate_windows l with Some err => Some err | None => walk_validate_windows r end
  | UnaryOpE _ e => walk_validate_windows e
  | Case pairs els =>
      match first_pair_error walk_validate_windows pairs with
      | Some err => Some err
      | None => match els with Some e => walk_validate_windows e | None => None end
      end
  | _ => None
  end.

(** ** Statements *)

Definition select_exprs (s : SelectStatement) : list select_expr := fst <$> select_columns s.

Definition select_has_aggregate (s : SelectStatement) : bool :=
  existsb expression_has_aggregate (select_exprs s)
  || match having_condition s with Some e => expression_has_aggregate e | None => false end.
Definition select_has_window (s : SelectStatement) : bool := existsb expression_has_window (select_exprs s).
Definition needs_grouping (s : SelectStatement) : bool :=
  negb (bool_decide (length (group_by_columns s) = 0%nat)) || select_has_aggregate s
  || bool_decide (is_Some (having_condition s)).

Definition not_grouped (e : select_expr) : string :=
  "Column must appear in GROUP BY or be used in an aggregate: " +:+ expression_to_string e.

Definition validate_grouped_column (group_by : list select_expr) (e : select_expr) : option string :=
  if is_wildcard_select_expression e then Some "SELECT * is not allowed with GROUP BY"%string
  else if expression_has_aggregate e || expression_has_window e || matches_group_by e group_by then None
  else Some (not_grouped e).
Definition validate_aggregate_column (e : select_expr) : option string :=
  if is_wildcard_select_expression e then Some "SELECT * is not allowed with aggregate functions"%string
  else if is_literal_or_aggregate_only e then None
  else Some (not_grouped e).

Definition validate_select_for_grouping (s : SelectStatement) : option string :=
  let has_group_by := negb (bool_decide (length (group_by_columns s) = 0%nat)) in
  let has_aggs := select_has_aggregate s in
  if bool_decide (is_Some (having_condition s)) && negb has_group_by && negb has_aggs
  then Some "HAVING requires GROUP BY or aggregate in SELECT"%string
  else if has_group_by then first_error (validate_grouped_column (group_by_columns s)) (select_exprs s)
  else if has_aggs then first_error validate_aggregate_column (select_exprs s)
  else None.

Definition validate_select_for_windows (s : SelectStatement) : option string :=
  first_error walk_validate_windows (select_exprs s).
