(* ===== verification/Grouping.v ===== *)
(** * Aggregates and GROUP BY

    src/executor/aggregate_function.cc: the five aggregate functions as state
    machines ([reset], [accumulate], [finalize]).
    src/executor/group_aggregate_operator.cc: [GroupAggregateOperator], which
    collects the rows of each group under the text of its key, runs the
    aggregates over them and evaluates HAVING and the select list.

    The groups are an [unordered_map]: the model lists them in the order in
    which they are created, and the theorem on the result is stated up to
    permutation. *)

From Stdlib Require Import ZArith Lia Ascii SpecFloat.
From S2P Require Import Prelude CppNum Values Rows Expr Evaluator Partition Table Operators Ast SelectAnalysis.

(** ** Aggregate functions *)

(** [std::round]: halves away from zero. *)
Definition d_round (d : double) : double :=
  match d with
  | S754_finite s m e =>
      if 0 <=? e then d
      else
        let n := (Z.pos m + 2 ^ (- e - 1)) / 2 ^ (- e) in
        if s then SFopp (d_of_Z n) else d_of_Z n
  | _ => d
  end.

Inductive Aggregate : Type :=
  | CountAggregate (count_star : bool) (count : Z) (saw_row : bool)
  | SumAggregate (has_value : bool) (sum : double)
  | AvgAggregate (count : Z) (sum : double)
  | MinMaxAggregate (is_min has_value : bool) (current : value).

Definition reset (a : Aggregate) : Aggregate :=
  match a with
  | CountAggregate star _ _ => CountAggregate star 0 false
  | SumAggregate _ _ => SumAggregate false d_zero
  | AvgAggregate _ _ => AvgAggregate 0 d_zero
  | MinMaxAggregate is_min _ current => MinMaxAggregate is_min false current
  end.

Definition accumulate (a : Aggregate) (v : value) : res Aggregate :=
  match a with
  | CountAggregate star count _ =>
      if star || negb (is_null v)
      then (λ n, CountAggregate star n true) <$> s_checked 64 (count + 1)
      else Ok (CountAggregate star count true)
  | SumAggregate has sum =>
      Ok (if is_numeric v then SumAggregate true (d_add sum (num v)) else SumAggregate has sum)
  | AvgAggregate count sum =>
      if is_numeric v then (λ n, AvgAggregate n (d_add sum (num v))) <$> s_checked 64 (count + 1)
      else Ok (AvgAggregate count sum)
  | MinMaxAggregate is_min has current =>
      Ok (if is_null v then a
          else if negb has then MinMaxAggregate is_min true v
          else if (if is_min then value_lt v current else value_gt v current)
               then MinMaxAggregate is_min true v
               else a)
  end.

Definition finalize (a : Aggregate) : res value :=
  match a with
  | CountAggregate star count saw => Ok (VInt (if star && negb saw then 0 else count))
  | SumAggregate has sum =>
      if negb has then Ok VNull
      else
        let rounded := d_round sum in
        if d_lt (d_abs (d_sub sum rounded)) d_1e_9 then VInt <$> d_to_int64 rounded
        else Ok (VFloat sum)
  | AvgAggregate count sum =>
      Ok (if count =? 0 then VNull else VFloat (d_div sum (d_of_Z count)))
  | MinMaxAggregate _ has current => Ok (if has then current else VNull)
  end.

Definition is_wildcard_arg (e : select_expr) : bool :=
  match e with
  | Identifier name => bool_decide (name = "*"%string)
  | ColumnRef _ column => bool_decide (column = "*"%string)
  | _ => false
  end.
Definition first_is_wildcard (args : list select_expr) : bool :=
  match args with [] => true | e :: _ => is_wildcard_arg e end.

Definition is_count_star (name : string) (args : list select_expr) : bool :=
  bool_decide (str_lower name = "count"%string) && first_is_wildcard args.

Definition make_aggregate_function (name : string) (args : list select_expr) : option Aggregate :=
  let n := str_lower name in
  if bool_decide (n = "count"%string) then Some (CountAggregate (first_is_wildcard args) 0 false)
  else if bool_decide (n = "sum"%string) then Some (SumAggregate false d_zero)
  else if bool_decide (n = "avg"%string) then Some (AvgAggregate 0 d_zero)
  else if bool_decide (n = "min"%string) then Some (MinMaxAggregate true false VNull)
  else if bool_decide (n = "max"%string) then Some (MinMaxAggregate false false VNull)
  else None.

(** ** The aggregates of a statement *)

(** The key of a group: the texts of its values, separated by 0x1f. *)
Definition unit_separator : string := String "031"%char "".
Fixpoint group_key_string (key : list value) : string :=
  match key with
  | [] => ""
  | [v] => to_string v
  | v :: key => to_string v +:+ unit_separator +:+ group_key_string key
  end.

(** Aggregate calls, each text once, in the order in which they are met. *)
Definition add_aggregate (out : list select_expr) (e : select_expr) : list select_expr :=
  if existsb (λ e', bool_decide (expression_to_string e' = expression_to_string e)) out then out else out ++ [e].

Fixpoint collect_aggregate_expressions (e : select_expr) (out : list select_expr) : list select_expr :=
  match e with
  | FunctionCall name args window =>
      if is_windowed window then fold_left (λ out e, collect_aggregate_expressions e out) args out
      else if is_aggregate_function_name name then add_aggregate out e
      else fold_left (λ out e, collect_aggregate_expressions e out) args out
  | BinaryOpE l _ r => collect_aggregate_expressions r (collect_aggregate_expressions l out)
  | UnaryOpE _ e => collect_aggregate_expressions e out
  | Case pairs els =>
      let out := fold_left (λ out wt,
        collect_aggregate_expressions wt.2 (collect_aggregate_expressions wt.1 out)) pairs out in
      match els with Some e => collect_aggregate_expressions e out | None => out end
  | _ => out
  end.

Definition statement_aggregates (st : SelectStatement) : list select_expr :=
  let out := fold_left (λ out e, collect_aggregate_expressions e out) (select_exprs st) [] in
  match having_condition st with Some e => collect_aggregate_expressions e out | None => out end.

(** ** Expressions over a group *)

Section group.
Context {W : Type} (depth : nat) (ev : Evaluator SelectStatement W).
Abbreviation St := (St W).

Definition row_value (row : Row) (e : select_expr) : ST St value :=
  evaluate_expression depth ev row false e.

(** The operators on values inside HAVING and the select list. *)
Definition group_binary_op (op : BinaryOp) (l r : value) : res value :=
  match op with
  | AND => a ← as_bool l; if (a : bool) then VBool <$> as_bool r else Ok (VBool false)
  | OR => a ← as_bool l; if (a : bool) then Ok (VBool true) else VBool <$> as_bool r
  | _ => match compare op l r with Some b => Ok (VBool b) | None => binary_op op l r end
  end.
Definition group_unary_op (op : UnaryOp) (v : value) : res value :=
  match op with
  | NOT => (λ b, VBool (negb b)) <$> as_bool v
  | NEG => value_sub VNull v
  end.

Fixpoint evaluate_with_aggregate_map (agg_values : smap value) (row : Row) (e : select_expr) : ST St value :=
  match e with
  | FunctionCall name args _ =>
      if is_aggregate_function_name name
      then mret (default VNull (sm_find (expression_to_string e) agg_values))
      else
        st_map (evaluate_with_aggregate_map agg_values row) args;;
        row_value row e
  | BinaryOpE l op r =>
      lv ← evaluate_with_aggregate_map agg_values row l;
      rv ← evaluate_with_aggregate_map agg_values row r;
      st_lift (group_binary_op op lv rv)
  | UnaryOpE op e =>
      v ← evaluate_with_aggregate_map agg_values row e;
      st_lift (group_unary_op op v)
  | _ => row_value row e
  end.

Definition having_true (agg_values : smap value) (row : Row) (having : select_expr) : ST St bool :=
  v ← evaluate_with_aggregate_map agg_values row having;
  if is_null v then mret false else st_lift (as_bool v).

Definition column_header (c : select_expr * string) : string :=
  if bool_decide (c.2 = ""%string) then expression_to_string c.1 else c.2.

(** The position of the first GROUP BY expression that is the same. *)
Fixpoint grouped_at (e : select_expr) (group_by : list select_expr) (group_key : list value) : option value :=
  match group_by, group_key with
  | g :: group_by, v :: group_key =>
      if expressions_compatible_for_grouping e g then Some v else grouped_at e group_by group_key
  | _, _ => None
  end.

Definition select_non_aggregate_value (e : select_expr) (group_key : list value)
    (group_by : list select_expr) (first_row : Row) : ST St value :=
  match grouped_at e group_by group_key with
  | Some v => mret v
  | None => row_value first_row e
  end.

(** ** Building the groups *)

Record GroupState : Type := mkGroup {
  g_rows : list Row;
  g_aggregates : smap Aggregate
}.
Definition new_group : GroupState := mkGroup [] [].

Abbreviation groups_t := (list (string * GroupState)).

(** [groups[key] = g]: a new key comes last. *)
Fixpoint set_group (key : string) (g : GroupState) (groups : groups_t) : groups_t :=
  match groups with
  | [] => [(key, g)]
  | (k, g') :: groups => if bool_decide (k = key) then (key, g) :: groups else (k, g') :: set_group key g groups
  end.

Definition fresh_aggregate (aggs : smap Aggregate) (e : select_expr) : res (smap Aggregate) :=
  match e with
  | FunctionCall name args _ =>
      match make_aggregate_function name args with
      | Some a => Ok (sm_set (expression_to_string e) (reset a) aggs)
      | None => UB
      end
  | _ => Ok aggs
  end.
Definition fresh_aggregates (aggregate_exprs : list select_expr) : res (smap Aggregate) :=
  res_fold fresh_aggregate [] aggregate_exprs.

Definition accumulate_row (row : Row) (aggs : smap Aggregate) (e : select_expr) : ST St (smap Aggregate) :=
  match e with
  | FunctionCall name args _ =>
      match sm_find (expression_to_string e) aggs with
      | None => mret aggs
      | Some a =>
          v ← (if is_count_star name args then mret (VInt 1)
               else match args with [] => mret (VInt 1) | arg :: _ => row_value row arg end);
          a ← st_lift (accumulate a v);
          mret (sm_set (expression_to_string e) a aggs)
      end
  | _ => mret aggs
  end.

Definition add_to_groups (group_by aggregate_exprs : list select_expr) (groups : groups_t) (row : Row)
    : ST St groups_t :=
  key ← st_map (row_value row) group_by;
  let key_str := group_key_string key in
  let state := default new_group (sm_find key_str groups) in
  aggs ← (if bool_decide (length (g_rows state) = 0%nat) then st_lift (fresh_aggregates aggregate_exprs)
          else mret (g_aggregates state));
  aggs ← st_fold (accumulate_row row) aggs aggregate_exprs;
  mret (set_group key_str (mkGroup (g_rows state ++ [row]) aggs) groups).

Definition build_groups (group_by aggregate_exprs : list select_expr) (input_rows : list Row) : ST St groups_t :=
  groups ← st_fold (add_to_groups group_by aggregate_exprs) [] input_rows;
  if bool_decide (length groups = 0%nat) && negb (bool_decide (length aggregate_exprs = 0%nat)) then
    aggs ← st_lift (fresh_aggregates aggregate_exprs);
    mret [(group_key_string [], mkGroup [] aggs)]
  else mret groups.

(** ** The result *)

Definition group_column (group_by : list select_expr) (finalized : smap value) (rep : Row) (group_key : list value)
    (e : select_expr) : ST St value :=
  match e with
  | FunctionCall _ _ (Some _) => mret VNull
  | _ =>
      if expression_has_aggregate e then
        match e with
        | FunctionCall name _ _ =>
            if is_aggregate_function_name name
            then mret (default VNull (sm_find (expression_to_string e) finalized))
            else evaluate_with_aggregate_map finalized rep e
        | _ => evaluate_with_aggregate_map finalized rep e
        end
      else select_non_aggregate_value e group_key group_by rep
  end.

(** The row of a group, unless HAVING refuses it. *)
Definition emit_group (st : SelectStatement) (g : string * GroupState) : ST St (option vrow) :=
  finalized ← st_lift (res_map (λ na, pair na.1 <$> finalize na.2) (g_aggregates g.2));
  let rep := default empty_row (head (g_rows g.2)) in
  keep ← match having_condition st with
         | Some having => having_true finalized rep having
         | None => mret true
         end;
  if negb (keep : bool) then mret None
  else
    group_key ← st_map (row_value rep) (group_by_columns st);
    out ← st_map (group_column (group_by_columns st) finalized rep group_key) (select_exprs st);
    mret (Some out).

Definition group_apply (st : SelectStatement) (input_rows : list Row) : ST St QueryResult :=
  if bool_decide (length (select_columns st) = 0%nat) then mret (error_result "No columns selected")
  else
    groups ← build_groups (group_by_columns st) (statement_aggregates st) input_rows;
    outs ← st_map (emit_group st) groups;
    let rs := omap id outs in
    mret (mkResult true "SELECT OK" (column_header <$> select_columns st) rs
            (s_wrap 32 (Z.of_nat (length rs)))).
End group.

(** ** What the aggregates compute *)

(** [accumulate] while the counters do not overflow. *)
Definition step (a : Aggregate) (v : value) : Aggregate :=
  match a with
  | CountAggregate star count _ => CountAggregate star (if star || negb (is_null v) then count + 1 else count) true
  | AvgAggregate count sum => if is_numeric v then AvgAggregate (count + 1) (d_add sum (num v)) else a
  | _ => match accumulate a v with Ok a => a | _ => a end
  end.
Definition counter (a : Aggregate) : Z :=
  match a with CountAggregate _ n _ | AvgAggregate n _ => n | _ => 0 end.

Lemma accumulate_step a v : 0 ≤ counter a < 2 ^ 63 - 1 → accumulate a v = Ok (step a v).
Proof.
  intros H. destruct a as [star n saw|has sum|n sum|mn has c]; cbn in *; try done.
  - destruct (star || negb (is_null v)); [|done].
    unfold s_checked. by replace ((- 2 ^ (64 - 1) <=? n + 1) && (n + 1 <? 2 ^ (64 - 1))) with true by lia.
  - destruct (is_numeric v); [|done].
    unfold s_checked. by replace ((- 2 ^ (64 - 1) <=? n + 1) && (n + 1 <? 2 ^ (64 - 1))) with true by lia.
Qed.
Lemma counter_step a v : counter a ≤ counter (step a v) ≤ counter a + 1.
Proof.
  destruct a as [star n saw|has sum|n sum|mn has c]; cbn.
  - destruct (star || negb (is_null v)); lia.
  - destruct (is_numeric v); cbn; lia.
  - destruct (is_numeric v); cbn; lia.
  - destruct (is_null v); [cbn; lia|]. destruct has; cbn; [|lia].
    destruct mn; [destruct (value_lt v c)|destruct (value_gt v c)]; cbn; lia.
Qed.

(** The functions, as SQL describes them. *)
Definition non_null (vs : list value) : list value := filter (λ v, is_null v = false) vs.
Definition numbers (vs : list value) : list double := num <$> filter (λ v, is_numeric v = true) vs.
Definition integer_or_float (d : double) : res value :=
  let rounded := d_round d in
  if d_lt (d_abs (d_sub d rounded)) d_1e_9 then VInt <$> d_to_int64 rounded else Ok (VFloat d).
Definition extreme (better : value → value → bool) (vs : list value) : value :=
  match non_null vs with
  | [] => VNull
  | v :: vs => foldl (λ c v, if better v c then v else c) v vs
  end.

Definition aggregate_of (name : string) (star : bool) (vs : list value) : res value :=
  let n := str_lower name in
  if bool_decide (n = "count"%string) then
    Ok (VInt (Z.of_nat (length (if star then vs else non_null vs))))
  else if bool_decide (n = "sum"%string) then
    match numbers vs with [] => Ok VNull | ns => integer_or_float (foldl d_add d_zero ns) end
  else if bool_decide (n = "avg"%string) then
    match numbers vs with
    | [] => Ok VNull
    | ns => Ok (VFloat (d_div (foldl d_add d_zero ns) (d_of_Z (Z.of_nat (length ns)))))
    end
  else if bool_decide (n = "min"%string) then Ok (extreme value_lt vs)
  else Ok (extreme value_gt vs).

Lemma non_null_cons v vs : non_null (v :: vs) = if is_null v then non_null vs else v :: non_null vs.
Proof. unfold non_null. destruct (is_null v) eqn:E; [by rewrite filter_cons_False by congruence|by rewrite filter_cons_True]. Qed.

Lemma run_count star vs : ∀ n saw, ∃ saw',
  foldl step (CountAggregate star n saw) vs =
    CountAggregate star (n + Z.of_nat (length (if star then vs else non_null vs))) saw'
  ∧ (saw' = false → vs = [] ∧ saw = false).
Proof.
  induction vs as [|v vs IH]; intros n saw; cbn [foldl step].
  { exists saw. split; [f_equal; destruct star; cbn; lia|done]. }
  destruct (IH (if star || negb (is_null v) then n + 1 else n) true) as (saw' & -> & Hs).
  exists saw'. split; [|intros ->; by destruct (Hs eq_refl)]. f_equal.
  destruct star; cbn [orb length]; [lia|]. rewrite non_null_cons. destruct (is_null v); cbn [negb length]; lia.
Qed.

Lemma numbers_cons v vs : numbers (v :: vs) = if is_numeric v then num v :: numbers vs else numbers vs.
Proof. unfold numbers. destruct (is_numeric v) eqn:E; [by rewrite filter_cons_True|by rewrite filter_cons_False by congruence]. Qed.

Lemma run_sum vs : ∀ has sum,
  foldl step (SumAggregate has sum) vs =
    SumAggregate (has || negb (bool_decide (length (numbers vs) = 0%nat))) (foldl d_add sum (numbers vs)).
Proof.
  induction vs as [|v vs IH]; intros has sum; [by rewrite orb_false_r|]. cbn [foldl step accumulate].
  rewrite numbers_cons. destruct (is_numeric v); rewrite IH; [|done]. cbn [foldl orb length].
  rewrite (bool_decide_eq_false_2 (S _ = 0%nat)) by done. by rewrite orb_true_r.
Qed.
Lemma run_avg vs : ∀ n sum,
  foldl step (AvgAggregate n sum) vs =
    AvgAggregate (n + Z.of_nat (length (numbers vs))) (foldl d_add sum (numbers vs)).
Proof.
  induction vs as [|v vs IH]; intros n sum; [cbn; f_equal; lia|]. cbn [foldl step].
  rewrite numbers_cons. destruct (is_numeric v); rewrite IH; [|done]. cbn [foldl length]. f_equal. lia.
Qed.

Definition better (is_min : bool) : value → value → bool := if is_min then value_lt else value_gt.
Lemma run_extreme_from is_min vs : ∀ c,
  foldl step (MinMaxAggregate is_min true c) vs =
    MinMaxAggregate is_min true (foldl (λ c v, if better is_min v c then v else c) c (non_null vs)).
Proof.
  induction vs as [|v vs IH]; intros c; [done|]. cbn [foldl step accumulate]. rewrite non_null_cons.
  destruct (is_null v); [by rewrite IH|]. cbn [negb foldl]. unfold better at 2.
  destruct is_min; [destruct (value_lt v c)|destruct (value_gt v c)]; by rewrite IH.
Qed.
Lemma run_extreme is_min vs : ∀ c, ∃ has c',
  foldl step (MinMaxAggregate is_min false c) vs = MinMaxAggregate is_min has c'
  ∧ (if has then c' else VNull) = extreme (better is_min) vs.
Proof.
  unfold extreme. induction vs as [|v vs IH]; intros c; [by exists false, c|]. cbn [foldl step accumulate].
  rewrite non_null_cons. destruct (is_null v); [apply IH|]. cbn [negb]. rewrite run_extreme_from. by eexists _, _.
Qed.

Lemma aggregate_names name : is_aggregate_function_name name = true →
  str_lower name ∈ ["count"; "sum"; "avg"; "min"; "max"]%string.
Proof. unfold is_aggregate_function_name, is_aggregate_call. by rewrite bool_decide_eq_true. Qed.

(** [make], [reset], [accumulate] over the values and [finalize] compute the
    aggregate. *)
Lemma run_aggregate name args a vs :
  is_aggregate_function_name name = true → make_aggregate_function name args = Some a →
  finalize (foldl step (reset a) vs) = aggregate_of name (first_is_wildcard args) vs.
Proof.
  intros Hn%aggregate_names Ha. unfold make_aggregate_function, aggregate_of in *.
  case_bool_decide as E1; [|case_bool_decide as E2; [|case_bool_decide as E3; [|case_bool_decide as E4]]].
  - injection Ha as <-. cbn [reset]. destruct (run_count (first_is_wildcard args) vs 0 false) as (saw & -> & Hs).
    cbn [finalize]. f_equal. f_equal. destruct (first_is_wildcard args), saw; cbn [andb negb]; try lia.
    destruct (Hs eq_refl) as [-> _]. done.
  - injection Ha as <-. cbn [reset]. rewrite run_sum. cbn [finalize orb]. destruct (numbers vs); done.
  - injection Ha as <-. cbn [reset]. rewrite run_avg. cbn [finalize]. destruct (numbers vs) as [|d ns]; [done|].
    assert (Hl : (0 + Z.of_nat (length (d :: ns)) =? 0) = false) by (apply Z.eqb_neq; cbn [length]; lia).
    by rewrite Hl, Z.add_0_l.
  - injection Ha as <-. cbn [reset]. destruct (run_extreme true vs VNull) as (has & c & -> & E). cbn [finalize]. by rewrite E.
  - case_bool_decide as E5; [|done]. injection Ha as <-. cbn [reset].
    destruct (run_extreme false vs VNull) as (has & c & -> & E). cbn [finalize]. by rewrite E.
Qed.
Lemma make_aggregate name args : is_aggregate_function_name name = true → is_Some (make_aggregate_function name args).
Proof.
  intros Hn%aggregate_names. unfold make_aggregate_function. repeat (case_bool_decide; [by eexists|]). set_solver.
Qed.

(** ** Evaluation without effects *)

Section pure.
Context {S : Type} (s : S).

Lemma st_map_pure {A B} (f : A → ST S B) (g : A → B) l :
  (∀ x, x ∈ l → f x s = (s, Ok (g x))) → st_map f l s = (s, Ok (g <$> l)).
Proof.
  induction l as [|x l IH]; intros H; [done|]. cbn [st_map]. rewrite ST_bind_eq, H by set_solver.
  rewrite ST_bind_eq, IH by set_solver. done.
Qed.
Lemma st_map_rel {A B} (f : A → ST S B) (R : A → B → Prop) l :
  (∀ x, x ∈ l → ∃ y, f x s = (s, Ok y) ∧ R x y) → ∃ ys, st_map f l s = (s, Ok ys) ∧ Forall2 R l ys.
Proof.
  induction l as [|x l IH]; intros H; [by exists []|]. cbn [st_map].
  destruct (H x) as (y & Hy & HR); [set_solver|]. destruct IH as (ys & Hys & HRs); [set_solver|].
  exists (y :: ys). rewrite ST_bind_eq, Hy, ST_bind_eq, Hys. split; [done|by constructor].
Qed.
End pure.

(** ** The groups of a list of rows *)

Section groups.
Context {W : Type} (depth : nat) (ev : Evaluator SelectStatement W) (s : St W) (val : Row → select_expr → value).
Context (group_by aggs : list select_expr).

Definition aggregate_call (e : select_expr) : Prop :=
  match e with FunctionCall name _ None => is_aggregate_function_name name = true | _ => False end.
Definition aggregate_arg (row : Row) (e : select_expr) : value :=
  match e with
  | FunctionCall name args _ =>
      if is_count_star name args then VInt 1
      else match args with [] => VInt 1 | arg :: _ => val row arg end
  | _ => VNull
  end.
(** The expressions evaluated on a row. *)
Definition evaluated (e : select_expr) : Prop :=
  e ∈ group_by ∨ ∃ name args w, FunctionCall name (e :: args) w ∈ aggs.

Definition fresh (e : select_expr) : Aggregate :=
  match e with
  | FunctionCall name args _ => default (AvgAggregate 0 d_zero) (reset <$> make_aggregate_function name args)
  | _ => AvgAggregate 0 d_zero
  end.
Definition state_of (rs : list Row) (e : select_expr) : Aggregate :=
  foldl step (fresh e) ((λ row, aggregate_arg row e) <$> rs).
Definition key_of (row : Row) : string := group_key_string (val row <$> group_by).

Context (Hcalls : Forall aggregate_call aggs) (Hnd : NoDup (expression_to_string <$> aggs)).

Abbreviation text := expression_to_string.

(** The map holds the aggregates [l], each in the state [cur] gives. *)
Definition agg_map_ok (l : list select_expr) (cur : select_expr → Aggregate) (m : smap Aggregate) : Prop :=
  sm_sorted m ∧ (∀ e, e ∈ l → sm_find (text e) m = Some (cur e)) ∧
  (∀ k a, sm_find k m = Some a → ∃ e, e ∈ l ∧ k = text e ∧ a = cur e).

Lemma same_text e e' : e ∈ aggs → e' ∈ aggs → text e = text e' → e = e'.
Proof.
  clear Hcalls. intros He He' E. induction aggs as [|x l IH]; [set_solver|].
  rewrite fmap_cons in Hnd. apply NoDup_cons in Hnd as [Hx Hl].
  apply elem_of_cons in He as [->|He], He' as [->|He']; [done| | |by apply IH].
  - destruct Hx. rewrite E. apply list_elem_of_fmap. by exists e'.
  - destruct Hx. rewrite <- E. apply list_elem_of_fmap. by exists e.
Qed.

Lemma agg_map_set l cur m e a : e ∈ aggs → (∀ x, x ∈ l → x ∈ aggs) → agg_map_ok l cur m →
  agg_map_ok (e :: l) (λ x, if decide (text x = text e) then a else cur x) (sm_set (text e) a m).
Proof.
  intros He Hl (Hs & Hf & Hb). split_and!.
  - by apply sm_sorted_set.
  - intros x Hx. case_decide as E; [by rewrite E, sm_find_set_eq|].
    apply elem_of_cons in Hx as [->|Hx]; [done|]. rewrite sm_find_set_ne by done. by apply Hf.
  - intros k b. destruct (decide (k = text e)) as [->|Hk].
    + rewrite sm_find_set_eq. intros [= <-]. exists e. rewrite decide_True by done. set_solver.
    + rewrite sm_find_set_ne by done. intros (x & Hx & -> & ->)%Hb. exists x.
      rewrite decide_False by done. set_solver.
Qed.
Lemma agg_map_ext l l' cur cur' m : (∀ x, x ∈ l ↔ x ∈ l') → (∀ x, x ∈ l → cur x = cur' x) →
  agg_map_ok l cur m → agg_map_ok l' cur' m.
Proof.
  intros Hl Hc (Hs & Hf & Hb). split_and!; [done| |].
  - intros e He. rewrite <- Hc by (by apply Hl). by apply Hf, Hl.
  - intros k a (e & He & -> & ->)%Hb. exists e. split; [by apply Hl|]. split; [done|]. by apply Hc.
Qed.

Lemma fresh_aggregates_ok : ∃ m, fresh_aggregates aggs = Ok m ∧ agg_map_ok aggs fresh m.
Proof.
  unfold fresh_aggregates.
  assert (Hgo : ∀ todo l m, (∀ x, x ∈ todo → x ∈ aggs) → (∀ x, x ∈ l → x ∈ aggs) → agg_map_ok l fresh m →
    ∃ m', res_fold fresh_aggregate m todo = Ok m' ∧ agg_map_ok (todo ++ l) fresh m').
  { induction todo as [|e todo IH]; intros l m Ht Hl Hm; [by exists m|]. cbn [res_fold].
    assert (He : e ∈ aggs) by (apply Ht; set_solver).
    assert (Hc := proj1 (Forall_forall _ _) Hcalls e He).
    destruct e as [| | | | | |name args [w|]| | | | | |]; try done. cbn [fresh_aggregate aggregate_call] in *.
    destruct (make_aggregate name args Hc) as [a Ha]. rewrite Ha. cbn [mbind res_bind].
    destruct (IH (FunctionCall name args None :: l) (sm_set (text (FunctionCall name args None)) (reset a) m))
      as (m' & Em & Hm'); [set_solver|set_solver| |].
    - eapply agg_map_ext; [| |by apply (agg_map_set l fresh m (FunctionCall name args None) (reset a))]; [done|].
      intros x Hx. cbn beta. case_decide as E; [|done]. apply same_text in E; [|set_solver|done]. subst. cbn [fresh]. by rewrite Ha.
    - exists m'. split; [done|]. eapply agg_map_ext; [| |done]; [set_solver|done]. }
  destruct (Hgo aggs [] []) as (m & Em & Hm); [done|set_solver| |].
  - split_and!; [constructor|set_solver|done].
  - exists m. by rewrite app_nil_r in Hm.
Qed.

Lemma fresh_counter e : counter (fresh e) = 0.
Proof.
  destruct e as [| | | | | |name args w| | | | | |]; try done. cbn [fresh]. unfold make_aggregate_function.
  repeat (case_bool_decide; [done|]). done.
Qed.
Lemma state_counter rs e : 0 ≤ counter (state_of rs e) ≤ Z.of_nat (length rs).
Proof.
  unfold state_of.
  assert (Hgo : ∀ vs a, 0 ≤ counter a → counter a ≤ counter (foldl step a vs) ≤ counter a + Z.of_nat (length vs)).
  { induction vs as [|v vs IH]; intros a Ha; cbn [foldl length]; [lia|]. pose proof (counter_step a v).
    specialize (IH (step a v)). lia. }
  specialize (Hgo ((λ row, aggregate_arg row e) <$> rs) (fresh e)). rewrite fresh_counter, length_fmap in Hgo. lia.
Qed.
Lemma state_snoc rs row e : state_of (rs ++ [row]) e = step (state_of rs e) (aggregate_arg row e).
Proof. unfold state_of. by rewrite fmap_app, foldl_app. Qed.

(** One row, every aggregate. *)
Lemma accumulate_all rs row m :
  (∀ e, evaluated e → row_value depth ev row e s = (s, Ok (val row e))) →
  Z.of_nat (length rs) < 2 ^ 63 - 1 → agg_map_ok aggs (state_of rs) m →
  ∃ m', st_fold (accumulate_row depth ev row) m aggs s = (s, Ok m') ∧ agg_map_ok aggs (state_of (rs ++ [row])) m'.
Proof.
  intros Hval Hlen Hm.
  assert (Hgo : ∀ todo cur m, NoDup (text <$> todo) → (∀ x, x ∈ todo → x ∈ aggs) → (∀ x, x ∈ todo → cur x = state_of rs x) →
    agg_map_ok aggs cur m →
    ∃ m', st_fold (accumulate_row depth ev row) m todo s = (s, Ok m') ∧
      agg_map_ok aggs (λ x, if decide (text x ∈ text <$> todo) then state_of (rs ++ [row]) x else cur x) m').
  { clear m Hm. induction todo as [|e todo IH]; intros cur m Hnd' Ht Hcur Hm.
    { exists m. split; [done|]. eapply agg_map_ext; [done| |done]. intros x _. by rewrite decide_False by set_solver. }
    rewrite fmap_cons in Hnd'. apply NoDup_cons in Hnd' as [Hne Hnd']. cbn [st_fold]. assert (He : e ∈ aggs) by (apply Ht; set_solver).
    assert (Hc := proj1 (Forall_forall _ _) Hcalls e He). pose proof (state_counter rs e) as Hcount.
    pose proof (accumulate_step (state_of rs e) (aggregate_arg row e)) as Hacc.
    assert (Hstep : accumulate_row depth ev row m e s =
      (s, Ok (sm_set (text e) (state_of (rs ++ [row]) e) m))).
    { destruct Hm as (_ & Hf & _). specialize (Hf e He). rewrite Hcur in Hf by set_solver. rewrite state_snoc.
      destruct e as [| | | | | |name args [w|]| | | | | |]; try done. cbn [accumulate_row]. rewrite Hf, ST_bind_eq.
      assert (Harg : (if is_count_star name args then mret (VInt 1)
        else match args with [] => mret (VInt 1) | arg :: _ => row_value depth ev row arg end) s
        = (s, Ok (aggregate_arg row (FunctionCall name args None)))).
      { cbn [aggregate_arg]. destruct (is_count_star name args); [done|]. destruct args as [|arg args]; [done|].
        apply Hval. right. by exists name, args, None. }
      rewrite Harg, ST_bind_eq. unfold st_lift. rewrite Hacc by lia. done. }
    rewrite ST_bind_eq, Hstep.
    destruct (IH (λ x, if decide (text x = text e) then state_of (rs ++ [row]) e else cur x)
      (sm_set (text e) (state_of (rs ++ [row]) e) m)) as (m' & Em & Hm'); [done|set_solver| | |].
    - intros x Hx. rewrite decide_False; [apply Hcur; set_solver|]. intros E. apply Hne. rewrite <- E.
      apply list_elem_of_fmap. by exists x.
    - eapply (agg_map_ext (e :: aggs)); [| |by apply (agg_map_set aggs cur m e)]; [set_solver|done].
    - exists m'. split; [done|]. eapply agg_map_ext; [done| |done]. intros x Hx. cbn beta.
      rewrite fmap_cons. destruct (decide (text x = text e)) as [E|E].
      + assert (x = e) as -> by (by apply same_text). rewrite (decide_False (P := text e ∈ text <$> todo)) by done.
        by rewrite decide_True by set_solver.
      + destruct (decide (text x ∈ text <$> todo)); [rewrite decide_True by set_solver|rewrite decide_False by set_solver]; done. }
  destruct (Hgo aggs (state_of rs) m) as (m' & Em & Hm'); [done|done|done|done|].
  exists m'. split; [done|]. eapply agg_map_ext; [done| |done]. intros x Hx. cbn beta.
  rewrite decide_True; [done|]. apply list_elem_of_fmap. by exists x.
Qed.

(** ** Groups *)

Definition in_group (k : string) (rs : list Row) : list Row := filter (λ row, key_of row = k) rs.

(** The groups of the rows [seen]. *)
Record groups_ok (seen : list Row) (gs : list (string * GroupState)) : Prop := {
  gk_nodup : NoDup gs.*1;
  gk_keys : ∀ k, k ∈ gs.*1 ↔ k ∈ key_of <$> seen;
  gk_groups : ∀ k g, (k, g) ∈ gs →
    g_rows g = in_group k seen ∧ agg_map_ok aggs (state_of (in_group k seen)) (g_aggregates g)
}.

Lemma set_group_elem k g gs k' g' : NoDup gs.*1 → (k', g') ∈ set_group k g gs →
  (k' = k ∧ g' = g) ∨ (k' ≠ k ∧ (k', g') ∈ gs).
Proof.
  induction gs as [|[k0 g0] gs IH]; intros Hn; cbn [set_group].
  { intros [[= -> ->]|?%not_elem_of_nil]%elem_of_cons; [by left|done]. }
  rewrite fmap_cons in Hn. apply NoDup_cons in Hn as [Hk0 Hn]. case_bool_decide as E.
  - subst k0. intros [[= -> ->]|Hin]%elem_of_cons; [by left|]. right. split; [|set_solver].
    intros ->. apply Hk0. apply list_elem_of_fmap. by exists (k, g').
  - intros [[= -> ->]|Hin]%elem_of_cons; [right; set_solver|]. destruct (IH Hn Hin) as [?|[??]]; [by left|right; set_solver].
Qed.
Lemma set_group_keys k g gs k' : k' ∈ (set_group k g gs).*1 ↔ k' = k ∨ k' ∈ gs.*1.
Proof.
  induction gs as [|[k0 g0] gs IH]; cbn [set_group]; [set_solver|]. case_bool_decide as E.
  - rewrite !fmap_cons. cbn [fst]. subst. set_solver.
  - rewrite !fmap_cons, !elem_of_cons, IH. cbn [fst]. tauto.
Qed.
Lemma set_group_nodup k g gs : NoDup gs.*1 → NoDup (set_group k g gs).*1.
Proof.
  induction gs as [|[k0 g0] gs IH]; cbn [set_group]; [intros _; rewrite fmap_cons; constructor; [set_solver|constructor]|].
  rewrite fmap_cons. intros [Hk0 Hn]%NoDup_cons. case_bool_decide as E; rewrite fmap_cons; cbn [fst] in *.
  - subst. by constructor.
  - constructor; [|by apply IH]. rewrite set_group_keys. intros [->|?]; done.
Qed.

Lemma in_group_snoc k seen row : in_group k (seen ++ [row]) = in_group k seen ++ (if decide (key_of row = k) then [row] else []).
Proof. unfold in_group. rewrite filter_app. by rewrite filter_cons, filter_nil. Qed.
Lemma in_group_length k seen : (length (in_group k seen) ≤ length seen)%nat.
Proof. apply length_filter. Qed.

Lemma in_group_none k seen : k ∉ key_of <$> seen → in_group k seen = [].
Proof.
  intros H. unfold in_group. induction seen as [|row seen IH]; [done|].
  rewrite fmap_cons in H. rewrite filter_cons_False by (intros E; apply H; rewrite E; left). apply IH. set_solver.
Qed.
Lemma in_group_some k seen : k ∈ key_of <$> seen → in_group k seen ≠ [].
Proof.
  intros (row & -> & Hin)%list_elem_of_fmap E. pose proof (proj2 (list_elem_of_filter (λ r, key_of r = key_of row) seen row)) as H.
  unfold in_group in E. rewrite E in H. by destruct (not_elem_of_nil row); apply H.
Qed.

Lemma add_to_groups_ok seen gs row :
  (∀ e, evaluated e → row_value depth ev row e s = (s, Ok (val row e))) →
  Z.of_nat (length seen) < 2 ^ 63 - 1 → groups_ok seen gs →
  ∃ gs', add_to_groups depth ev group_by aggs gs row s = (s, Ok gs') ∧ groups_ok (seen ++ [row]) gs'.
Proof.
  intros Hval Hlen [Hgn Hkeys Hg]. unfold add_to_groups. rewrite ST_bind_eq.
  rewrite (st_map_pure s _ (val row)) by (intros e He; apply Hval; by left).
  fold (key_of row). set (k := key_of row).
  set (state := default new_group (sm_find k gs)).
  assert (Hstate : g_rows state = in_group k seen ∧
    (g_rows state ≠ [] → agg_map_ok aggs (state_of (in_group k seen)) (g_aggregates state))).
  { unfold state. destruct (sm_find k gs) as [g|] eqn:E; cbn [default].
    - apply sm_find_elem in E. destruct (Hg _ _ E) as [H1 H2]. by split.
    - split; [|done]. cbn. symmetry. apply in_group_none. rewrite <- Hkeys.
      intros ([k' g] & -> & Hin)%list_elem_of_fmap. clear -E Hin. cbn in *.
      induction gs as [|[k0 g0] gs IH]; cbn [sm_find] in E; [set_solver|]. case_bool_decide; [done|].
      apply elem_of_cons in Hin as [[= -> ->]|Hin]; [done|auto]. }
  destruct Hstate as [Hrows Haggs].
  assert (Hstart : ∃ m, (if bool_decide (length (g_rows state) = 0%nat) then st_lift (fresh_aggregates aggs)
      else mret (g_aggregates state)) s = (s, Ok m) ∧ agg_map_ok aggs (state_of (in_group k seen)) m).
  { case_bool_decide as E.
    - destruct fresh_aggregates_ok as (m & Em & Hm). exists m. unfold st_lift. rewrite Em. split; [done|].
      rewrite <- Hrows, (nil_length_inv _ E). exact Hm.
    - exists (g_aggregates state). split; [done|]. apply Haggs. intros E2. apply E. by rewrite E2. }
  destruct Hstart as (m & Em & Hm). rewrite ST_bind_eq, Em, ST_bind_eq.
  destruct (accumulate_all (in_group k seen) row m Hval) as (m' & Em' & Hm').
  { pose proof (in_group_length k seen). lia. } { done. }
  rewrite Em'. eexists. split; [done|]. constructor.
  - by apply set_group_nodup.
  - intros k'. rewrite set_group_keys, Hkeys, fmap_app, elem_of_app. fold k. set_solver.
  - intros k' g' Hin. apply set_group_elem in Hin as [[-> ->]|[Hne Hin]]; [|..|done].
    + cbn [g_rows g_aggregates]. rewrite in_group_snoc, decide_True by done. by rewrite Hrows.
    + rewrite in_group_snoc, decide_False, app_nil_r by done. by apply Hg.
Qed.

Lemma build_groups_ok rs :
  (∀ row e, row ∈ rs → evaluated e → row_value depth ev row e s = (s, Ok (val row e))) →
  Z.of_nat (length rs) < 2 ^ 63 → rs ≠ [] →
  ∃ gs, build_groups depth ev group_by aggs rs s = (s, Ok gs) ∧ groups_ok rs gs.
Proof.
  intros Hval Hlen Hne.
  assert (Hgo : ∀ todo seen gs, rs = seen ++ todo → groups_ok seen gs →
    ∃ gs', st_fold (add_to_groups depth ev group_by aggs) gs todo s = (s, Ok gs') ∧ groups_ok rs gs').
  { induction todo as [|row todo IH]; intros seen gs E Hgs.
    { exists gs. rewrite E, app_nil_r. done. }
    cbn [st_fold]. rewrite ST_bind_eq. destruct (add_to_groups_ok seen gs row) as (gs' & -> & Hgs').
    - intros e He. apply Hval; [rewrite E; set_solver|done].
    - rewrite E, length_app in Hlen. cbn [length] in Hlen. lia.
    - done.
    - apply (IH (seen ++ [row])); [by rewrite <- app_assoc|done]. }
  destruct (Hgo rs [] []) as (gs & Egs & Hgs); [done| |].
  { constructor; [constructor|set_solver|by intros ? ? ?%not_elem_of_nil]. }
  exists gs. split; [|done]. unfold build_groups. rewrite ST_bind_eq, Egs.
  rewrite bool_decide_eq_false_2; [done|]. intros E%nil_length_inv. subst gs.
  destruct rs as [|row rs']; [done|]. destruct Hgs as [_ Hk _].
  apply (not_elem_of_nil (key_of row)). apply Hk. rewrite fmap_cons. left.
Qed.
End groups.

(** ** The aggregates of the select list *)

Lemma collect_none : ∀ e out, expression_has_aggregate e = false → collect_aggregate_expressions e out = out.
Proof.
  fix IH 1. intros e out.
  assert (Hl : ∀ es : list select_expr, existsb expression_has_aggregate es = false → ∀ out,
    Forall (λ e, ∀ out, expression_has_aggregate e = false → collect_aggregate_expressions e out = out) es →
    fold_left (λ out e, collect_aggregate_expressions e out) es out = out).
  { intros es He out' Hall. revert He out'. induction Hall as [|x es Hx Hall IHes]; intros He out'; [done|].
    apply orb_false_iff in He as [He1 He2]. cbn [fold_left]. rewrite (Hx _ He1). by apply IHes. }
  destruct e as [v|n|t c|i|l op r|op e|name args w|e t|ps els|l vs b|l q b|q b|q]; try done;
    cbn [expression_has_aggregate collect_aggregate_expressions].
  - intros [H1 H2]%orb_false_iff. by rewrite (IH l), (IH r).
  - apply IH.
  - intros H. assert (Ha : Forall (λ e, ∀ out, expression_has_aggregate e = false → collect_aggregate_expressions e out = out) args).
    { clear -IH. induction args as [|a args IHa]; constructor; [apply IH|apply IHa]. }
    destruct (is_windowed w); [by apply Hl|]. apply orb_false_iff in H as [-> H]. by apply Hl.
  - intros [H1 H2]%orb_false_iff.
    assert (Hp : ∀ out, fold_left (λ out wt, collect_aggregate_expressions wt.2 (collect_aggregate_expressions wt.1 out)) ps out = out).
    { clear H2 Hl. induction ps as [|[w t] ps IHp]; intros out'; [done|]. apply orb_false_iff in H1 as [H1 H3].
      apply orb_false_iff in H1 as [Hw Ht]. cbn [fold_left fst snd] in *. rewrite (IH w), (IH t) by done. by apply IHp. }
    rewrite Hp. destruct els as [e|]; [by apply IH|done].
Qed.

(** A column of a grouped SELECT: an aggregate, or one of the GROUP BY expressions. *)
Definition simple_column (group_by : list select_expr) (e : select_expr) : Prop :=
  aggregate_call e ∨
  (expression_has_aggregate e = false ∧ expression_has_window e = false ∧ matches_group_by e group_by = true).

Record aggregates_of (columns out : list select_expr) : Prop := {
  ag_calls : Forall aggregate_call out;
  ag_nodup : NoDup (expression_to_string <$> out);
  ag_from : ∀ e, e ∈ out → e ∈ columns;
  ag_all : ∀ e, e ∈ columns → aggregate_call e → expression_to_string e ∈ expression_to_string <$> out
}.

Lemma windowed_none {A} : is_windowed (@None A) = false.
Proof. done. Qed.

Lemma collect_simple group_by e cols out : simple_column group_by e → aggregates_of cols out →
  aggregates_of (cols ++ [e]) (collect_aggregate_expressions e out).
Proof.
  intros He [Hc Hn Hf Ha]. destruct He as [He|[He _]].
  - destruct e as [| | | | | |name args [w|]| | | | | |]; try done. cbn [aggregate_call] in He.
    cbn [collect_aggregate_expressions]. rewrite windowed_none, He.
    unfold add_aggregate. set (e := FunctionCall name args None) in *.
    destruct (existsb _ out) eqn:E.
    + constructor; [done|done|set_solver|]. intros e' He' Hc'.
      apply elem_of_app in He' as [He'|He']; [by apply Ha|]. apply list_elem_of_singleton in He' as ->.
      apply existsb_exists in E as (x & Hx%list_elem_of_In & Ex%bool_decide_eq_true). rewrite <- Ex.
      apply list_elem_of_fmap. by exists x.
    + constructor.
      * apply Forall_app. split; [done|]. by constructor.
      * rewrite fmap_app. apply NoDup_app. split_and!; [done| |apply NoDup_singleton].
        intros t (x & -> & Hx)%list_elem_of_fmap Ht%list_elem_of_singleton.
        assert (true = false) as [=]. rewrite <- E. symmetry. apply existsb_exists. exists x.
        split; [by apply list_elem_of_In|]. by apply bool_decide_eq_true.
      * set_solver.
      * intros e' He' Hc'. rewrite fmap_app, elem_of_app. apply elem_of_app in He' as [He'|He']; [left; by apply Ha|].
        right. apply list_elem_of_singleton in He' as ->. set_solver.
  - rewrite collect_none by done. constructor; [done|done|set_solver|].
    intros e' He' Hc'. apply elem_of_app in He' as [He'|He']; [by apply Ha|]. apply list_elem_of_singleton in He' as ->. exfalso.
    destruct e as [| | | | | |name args [w|]| | | | | |]; try done. cbn [aggregate_call expression_has_aggregate] in *.
    by rewrite windowed_none, Hc' in He.
Qed.

Lemma collect_columns group_by cols : Forall (simple_column group_by) cols →
  aggregates_of cols (fold_left (λ out e, collect_aggregate_expressions e out) cols []).
Proof.
  assert (Hgo : ∀ todo done_ out, Forall (simple_column group_by) todo → aggregates_of done_ out →
    aggregates_of (done_ ++ todo) (fold_left (λ out e, collect_aggregate_expressions e out) todo out)).
  { induction todo as [|e todo IH]; intros done_ out Ht Hd; [by rewrite app_nil_r|].
    apply Forall_cons in Ht as [He Ht]. cbn [fold_left]. change (e :: todo) with ([e] ++ todo). rewrite app_assoc.
    apply IH; [done|]. by eapply collect_simple. }
  intros H. apply (Hgo cols [] [] H). constructor; [constructor|constructor|set_solver|set_solver].
Qed.

(** ** GROUP BY *)

(** The value of a column over the rows of a group. *)
Definition column_of (val : Row → select_expr → value) (group_by : list select_expr) (rs : list Row)
    (e : select_expr) : res value :=
  let rep := default empty_row (head rs) in
  let grouped := Ok (default VNull (grouped_at e group_by (val rep <$> group_by))) in
  match e with
  | FunctionCall name args _ =>
      if is_aggregate_function_name name
      then aggregate_of name (first_is_wildcard args) ((λ row, aggregate_arg val row e) <$> rs)
      else grouped
  | _ => grouped
  end.

Lemma grouped_some group_by e vs : matches_group_by e group_by = true → length vs = length group_by →
  is_Some (grouped_at e group_by vs).
Proof.
  revert vs. induction group_by as [|g gs IH]; intros [|v vs] Hm Hl; try done. cbn [grouped_at].
  unfold matches_group_by in Hm. cbn [existsb] in Hm.
  destruct (expressions_compatible_for_grouping e g); [by eexists|]. apply IH; [done|by injection Hl].
Qed.

Lemma sm_find_final (m : smap Aggregate) (final : Aggregate → value) (out : smap value) :
  sm_sorted m → (∀ k a, sm_find k m = Some a → finalize a = Ok (final a)) →
  res_map (λ na, pair na.1 <$> finalize na.2) m = Ok out → ∀ k, sm_find k out = final <$> sm_find k m.
Proof.
  intros Hs Hf. assert (Hall : Forall (λ ka, finalize ka.2 = Ok (final ka.2)) m).
  { apply Forall_forall. intros [k a] Hin. apply (Hf k). by apply sm_elem_find. }
  clear Hs Hf. revert out. induction Hall as [|[k a] m Ha Hall IH]; intros out E k'; cbn [res_map] in E.
  { by injection E as <-. }
  cbn [fst snd] in *. rewrite Ha in E. cbn in E.
  destruct (res_map _ m) as [ys| |] eqn:Em; try discriminate E. injection E as <-. cbn [sm_find].
  case_bool_decide; [done|]. by apply IH.
Qed.
Lemma finals_ok (m : smap Aggregate) : sm_sorted m → (∀ k a, sm_find k m = Some a → ∃ v, finalize a = Ok v) →
  ∃ out, res_map (λ na, pair na.1 <$> finalize na.2) m = Ok out
    ∧ ∀ k a, sm_find k m = Some a → ∃ v, finalize a = Ok v ∧ sm_find k out = Some v.
Proof.
  intros Hs Hf. set (final := λ a, match finalize a with Ok v => v | _ => VNull end).
  assert (Hff : ∀ k a, sm_find k m = Some a → finalize a = Ok (final a)).
  { intros k a H. destruct (Hf k a H) as [v E]. unfold final. by rewrite E. }
  assert (Hout : ∃ out, res_map (λ na, pair na.1 <$> finalize na.2) m = Ok out).
  { assert (Hall : Forall (λ ka, finalize ka.2 = Ok (final ka.2)) m).
    { apply Forall_forall. intros [k a] Hin. apply (Hff k). by apply sm_elem_find. }
    clear -Hall. induction Hall as [|[k a] m Ha Hall [out IH]]; [by exists []|]. cbn [res_map fst snd] in *.
    rewrite Ha. cbn. rewrite IH. by eexists. }
  destruct Hout as [out E]. exists out. split; [done|]. intros k a H. exists (final a). split; [by eapply Hff|].
  rewrite (sm_find_final m final out Hs Hff E), H. done.
Qed.

Lemma finalize_state val group_by rs e : aggregate_call e →
  finalize (state_of val rs e) = column_of val group_by rs e.
Proof.
  destruct e as [| | | | | |name args [w|]| | | | | |]; try done. cbn [aggregate_call]. intros Hn.
  unfold column_of, state_of. rewrite Hn. cbn [fresh]. destruct (make_aggregate name args Hn) as [a Ha]. rewrite Ha.
  cbn [fmap option_fmap option_map default]. by apply run_aggregate.
Qed.

Section emit.
Context {W : Type} (depth : nat) (ev : Evaluator SelectStatement W) (s : St W) (val : Row → select_expr → value) (st : SelectStatement).
Abbreviation group_by := (group_by_columns st).
Context (Hhaving : having_condition st = None) (Hcols : Forall (simple_column group_by) (select_exprs st)).
Context (Htext : ∀ e e', e ∈ select_exprs st → e' ∈ select_exprs st →
  expression_to_string e = expression_to_string e' → e = e').

Lemma statement_aggregates_of : aggregates_of (select_exprs st) (statement_aggregates st).
Proof. unfold statement_aggregates. rewrite Hhaving. by eapply collect_columns. Qed.
Lemma aggregate_found e : e ∈ select_exprs st → aggregate_call e → e ∈ statement_aggregates st.
Proof.
  intros He Hc. destruct statement_aggregates_of as [_ _ Hf Ha].
  destruct (proj1 (list_elem_of_fmap _ _ _) (Ha e He Hc)) as (x & Ex & Hx).
  by rewrite (Htext e x He (Hf x Hx) Ex).
Qed.

Lemma emit_group_ok k g rs : g_rows g = rs → rs ≠ [] →
  agg_map_ok (statement_aggregates st) (state_of val rs) (g_aggregates g) →
  (∀ row e, row ∈ rs → e ∈ group_by → row_value depth ev row e s = (s, Ok (val row e))) →
  (∀ e, e ∈ select_exprs st → ∃ v, column_of val group_by rs e = Ok v) →
  ∃ out, emit_group depth ev st (k, g) s = (s, Ok (Some out))
    ∧ Forall2 (λ e v, column_of val group_by rs e = Ok v) (select_exprs st) out.
Proof.
  intros Hrows Hne (Hs & Hfind & Hback) Hval Hfin. destruct statement_aggregates_of as [Hcalls _ Hfrom _].
  rewrite Forall_forall in Hcalls. assert (Hcols' := proj1 (Forall_forall _ _) Hcols). unfold emit_group. rewrite ST_bind_eq. cbn [snd].
  destruct (finals_ok (g_aggregates g) Hs) as (finalized & Ef & Hfinal).
  { intros k' a (e & He & -> & ->)%Hback. rewrite (finalize_state val group_by) by auto. auto. }
  unfold st_lift at 1. rewrite Ef, Hhaving. rewrite ST_bind_eq. cbn [mret ST_ret negb].
  set (rep := default empty_row (head (g_rows g))). rewrite ST_bind_eq.
  assert (Hrep : rep ∈ rs). { unfold rep. rewrite Hrows. destruct rs; [done|]. left. }
  rewrite (st_map_pure s _ (val rep)) by (intros e He; by apply Hval).
  destruct (st_map_rel s (group_column depth ev group_by finalized rep (val rep <$> group_by))
    (λ e v, column_of val group_by rs e = Ok v) (select_exprs st)) as (out & Eout & HR).
  { intros e He. destruct (Hcols' e He) as [Hc|(Hagg & Hwin & Hm)].
    - assert (Hin := aggregate_found e He Hc). destruct (Hfinal _ _ (Hfind e Hin)) as (v & Ev & Hv).
      exists v. rewrite (finalize_state val group_by) in Ev by done. split; [|done].
      destruct e as [| | | | | |name args [w|]| | | | | |]; try done. cbn [group_column expression_has_aggregate aggregate_call] in *.
      rewrite windowed_none, Hc. cbn [orb]. by rewrite Hv.
    - destruct (grouped_some group_by e (val rep <$> group_by) Hm) as [v Hv]; [by rewrite length_fmap|].
      exists v. split.
      + assert (Hg : group_column depth ev group_by finalized rep (val rep <$> group_by) e
          = select_non_aggregate_value depth ev e (val rep <$> group_by) group_by rep).
        { destruct e as [| | | | | |name args [w|]| | | | | |]; unfold group_column; try (by rewrite Hagg); done. }
        rewrite Hg. unfold select_non_aggregate_value. by rewrite Hv.
      + assert (Hr : default empty_row (head rs) = rep) by (unfold rep; by rewrite Hrows).
        unfold column_of. rewrite Hr, Hv. destruct e as [| | | | | |name args [w|]| | | | | |]; try done.
        cbn [expression_has_aggregate] in Hagg. rewrite windowed_none in Hagg. by apply orb_false_iff in Hagg as [-> _]. }
  rewrite ST_bind_eq, Eout. by exists out.
Qed.
End emit.

(** C26. GROUP BY returns one row per distinct key, holding the key's values and the
    aggregates of exactly the rows with that key: COUNT counts them (or the values that are
    not NULL), MIN and MAX take an extreme value, SUM and AVG add them up in the order of
    the input. A key is the text of the values of the GROUP BY expressions, as in the code,
    so that NULL and the string 'NULL' are one key ([null_groups_with_its_name]).
    Conditions: the input has rows (see [empty_group_by_has_a_row]), there is no HAVING, the
    selected columns are aggregate calls or GROUP BY expressions, different ones have
    different texts (see [aggregates_confused_by_text]), and the expressions have values and
    leave the state alone. *)
Theorem group_by_correct {W} depth (ev : Evaluator SelectStatement W) s st rs (val : Row → select_expr → value) :
  select_exprs st ≠ [] → rs ≠ [] → Z.of_nat (length rs) < 2 ^ 63 →
  having_condition st = None → Forall (simple_column (group_by_columns st)) (select_exprs st) →
  (∀ e e', e ∈ select_exprs st → e' ∈ select_exprs st → expression_to_string e = expression_to_string e' → e = e') →
  (∀ row e, row ∈ rs → evaluated (group_by_columns st) (statement_aggregates st) e →
     row_value depth ev row e s = (s, Ok (val row e))) →
  (∀ k e, e ∈ select_exprs st →
     ∃ v, column_of val (group_by_columns st) (in_group val (group_by_columns st) k rs) e = Ok v) →
  ∃ r keys, group_apply depth ev st rs s = (s, Ok r) ∧ success r = true ∧
    NoDup keys ∧ (∀ k, k ∈ keys ↔ k ∈ key_of val (group_by_columns st) <$> rs) ∧
    Forall2 (λ k out, Forall2 (λ e v,
        column_of val (group_by_columns st) (in_group val (group_by_columns st) k rs) e = Ok v)
      (select_exprs st) out) keys (rows r).
Proof.
  intros Hsel Hne Hlen Hhaving Hcols Htext Hval Hfin. unfold group_apply.
  destruct (statement_aggregates_of st Hhaving Hcols) as [Hcalls Hnd Hfrom Hall].
  rewrite bool_decide_eq_false_2 by (intros E%nil_length_inv; unfold select_exprs in Hsel; by rewrite E in Hsel).
  destruct (build_groups_ok depth ev s val (group_by_columns st) (statement_aggregates st) Hcalls Hnd rs Hval Hlen Hne)
    as (gs & Egs & [Hgn Hgk Hgg]). rewrite ST_bind_eq, Egs, ST_bind_eq.
  destruct (st_map_rel s (emit_group depth ev st) (λ kg out, ∃ o, out = Some o ∧ Forall2 (λ e v,
      column_of val (group_by_columns st) (in_group val (group_by_columns st) kg.1 rs) e = Ok v) (select_exprs st) o) gs)
    as (outs & Eouts & HR).
  { intros [k g] Hin. destruct (Hgg k g Hin) as [Hrows Hmap].
    destruct (emit_group_ok depth ev s val st Hhaving Hcols Htext k g _ Hrows) as (out & Eout & Ho).
    - apply in_group_some. apply Hgk. apply list_elem_of_fmap. by exists (k, g).
    - done.
    - intros row e Hrow He. apply list_elem_of_filter in Hrow as [_ Hrow]. apply Hval; [done|by left].
    - intros e He. by apply Hfin.
    - exists (Some out). split; [done|]. by exists out. }
  rewrite Eouts. eexists _, gs.*1. split; [done|]. split; [done|]. split; [done|]. split; [done|]. cbn [rows].
  clear -HR. induction HR as [|[k g] out gs outs (o & -> & Ho) _ IH]; [constructor|].
  rewrite fmap_cons. cbn. by constructor.
Qed.

(** [SELECT columns FROM t GROUP BY group_by] over a table t(k, v). *)
Definition grouped_select (columns group_by : list select_expr) : SelectStatement :=
  mkSelect ((λ e, (e, ""%string)) <$> columns) "t" "t" None group_by None [] [] false (-1) 0.
Definition kv_evaluator : Evaluator SelectStatement unit :=
  mkEvaluator [mkBinding "t" "t" "k"; mkBinding "t" "t" "v"] None None None false None None ∅ "".
Definition kv_rows (l : list (value * value)) : list Row := (λ kv, row_of_values [kv.1; kv.2]) <$> l.
Definition col_k : select_expr := ColumnRef "" "k".
Definition col_v : select_expr := ColumnRef "" "v".
Definition call (name : string) (arg : select_expr) : select_expr := FunctionCall name [arg] None.
Definition grouped_rows (columns group_by : list select_expr) (l : list (value * value)) : res (list vrow) :=
  rows <$> (group_apply 0 kv_evaluator (grouped_select columns group_by) (kv_rows l) (mkSt [] "" tt)).2.

Definition sample_columns : list select_expr := [col_k; call "COUNT" (Identifier "*"); call "MIN" col_v].
Definition sample_rows : list (value * value) :=
  [(VInt 1, VInt 5); (VInt 2, VInt 7); (VInt 1, VInt 3); (VInt 2, VNull); (VInt 1, VNull)].
Definition kv_value (row : Row) (e : select_expr) : value :=
  match (row_value 0 kv_evaluator row e (mkSt [] "" tt)).2 with Ok v => v | _ => VNull end.

Lemma group_by_correct_witness :
  ∃ r keys, group_apply 0 kv_evaluator (grouped_select sample_columns [col_k]) (kv_rows sample_rows) (mkSt [] "" tt)
      = (mkSt [] "" tt, Ok r) ∧ success r = true ∧
    NoDup keys ∧ (∀ k, k ∈ keys ↔ k ∈ key_of kv_value [col_k] <$> kv_rows sample_rows) ∧
    Forall2 (λ k out, Forall2 (λ e v,
        column_of kv_value [col_k] (in_group kv_value [col_k] k (kv_rows sample_rows)) e = Ok v)
      (select_exprs (grouped_select sample_columns [col_k])) out) keys (rows r).
Proof.
  apply (group_by_correct 0 kv_evaluator (mkSt [] "" tt) (grouped_select sample_columns [col_k])
    (kv_rows sample_rows) kv_value).
  - discriminate.
  - discriminate.
  - vm_compute. reflexivity.
  - reflexivity.
  - constructor; [by right|]. constructor; [by left|]. constructor; [by left|]. constructor.
  - intros e e'. change (select_exprs _) with sample_columns. unfold sample_columns.
    rewrite !elem_of_cons, !elem_of_nil. intros He He' E. destruct_or?; subst; try done; vm_compute in E; discriminate E.
  - intros row e Hrow He.
    assert (Hcol : e = col_k ∨ e = col_v ∨ e = Identifier "*").
    { destruct He as [He|(name & args & w & He)].
      - left. by apply list_elem_of_singleton in He.
      - change (statement_aggregates _) with [call "COUNT" (Identifier "*"); call "MIN" col_v] in He.
        rewrite !elem_of_cons, elem_of_nil in He. destruct He as [[= _ <- _ _]|[[= _ <- _ _]|[]]]; auto. }
    unfold kv_rows, sample_rows in Hrow. cbn [fmap list_fmap] in Hrow. rewrite !elem_of_cons, elem_of_nil in Hrow.
    destruct_or?; subst; try done; vm_compute; reflexivity.
  - intros k e. change (select_exprs _) with sample_columns. unfold sample_columns.
    rewrite !elem_of_cons, !elem_of_nil. intros He. destruct_or?; subst; try done; eexists; reflexivity.
Defined.

(** NULL and the string NULL have the same text, and fall into one group. *)
Example null_groups_with_its_name :
  grouped_rows [col_k; call "COUNT" (Identifier "*")] [col_k]
    [(VString "NULL", VInt 1); (VNull, VInt 2)] = Ok [[VString "NULL"; VInt 2]].
Proof. vm_compute. reflexivity. Qed.

(** A grouped SELECT over no rows returns a row. *)
Example empty_group_by_has_a_row :
  grouped_rows [col_k; call "COUNT" (Identifier "*")] [col_k] [] = Ok [[VNull; VInt 0]].
Proof. vm_compute. reflexivity. Qed.

(** A function of an aggregate is evaluated as if the aggregate were NULL. *)
Example function_of_aggregate_ignores_it :
  grouped_rows [call "COALESCE" (call "SUM" col_v)] [col_k] [(VInt 1, VInt 5)] = Ok [[VNull]].
Proof. vm_compute. reflexivity. Qed.

(** Aggregates are known by their text, in which a string has no quotes:
    COUNT('v') is answered with COUNT(v). *)
Example aggregates_confused_by_text :
  grouped_rows [call "COUNT" col_v; call "COUNT" (Literal (VString "v"))] [col_k]
    [(VInt 1, VInt 5); (VInt 1, VNull)] = Ok [[VInt 1; VInt 1]].
Proof. vm_compute. reflexivity. Qed.

(** SUM adds integers as doubles: 2^53 + 1 is lost. *)
Example sum_of_integers_rounds :
  grouped_rows [call "SUM" col_v] [] [(VInt 1, VInt (2 ^ 53)); (VInt 1, VInt 1)] = Ok [[VInt (2 ^ 53)]].
Proof. vm_compute. reflexivity. Qed.
