(* ===== verification/Windows.v ===== *)
(** * Window functions and the post-scan pipeline

    src/executor/window_function.cc: the window functions as state machines over
    the rows of a partition.  src/executor/window_operator.cc: sorting the result
    rows by partition and order, and overwriting the column of each window call.
    src/executor/select_pipeline.cc: windows, DISTINCT, ORDER BY and LIMIT, in
    that order. *)

From Stdlib Require Import ZArith Lia Sorted.
From S2P Require Import Prelude CppNum Values Rows Expr Evaluator Partition Table Operators Ast SelectAnalysis.

(** ** Window functions *)

Inductive WindowFunction : Type :=
  | RowNumber (row_number : Z)
  | Rank (row_number rank : Z)
  | DenseRank (dense_rank : Z) (is_first : bool)
  | RunningSum (sum : value) (has_value : bool)
  | RunningAvg (sum : double) (count : Z).

Definition make_window_function (name : string) : option WindowFunction :=
  let n := str_lower name in
  if bool_decide (n = "row_number"%string) then Some (RowNumber 0)
  else if bool_decide (n = "rank"%string) then Some (Rank 0 0)
  else if bool_decide (n = "dense_rank"%string) then Some (DenseRank 0 true)
  else if bool_decide (n = "sum"%string) then Some (RunningSum VNull false)
  else if bool_decide (n = "avg"%string) then Some (RunningAvg d_zero 0)
  else None.

Definition resetPartition (f : WindowFunction) : WindowFunction :=
  match f with
  | RowNumber _ => RowNumber 0
  | Rank _ _ => Rank 0 0
  | DenseRank _ _ => DenseRank 0 true
  | RunningSum _ _ => RunningSum (VInt 0) false
  | RunningAvg _ _ => RunningAvg d_zero 0
  end.

Definition consumeRow (f : WindowFunction) (arg : value) (is_peer : bool) : res WindowFunction :=
  match f with
  | RowNumber n => RowNumber <$> s_checked 64 (n + 1)
  | Rank n rank =>
      n ← s_checked 64 (n + 1);
      Ok (if negb is_peer || (n =? 1) then Rank n n else Rank n rank)
  | DenseRank rank is_first =>
      if is_first || negb is_peer then (λ r, DenseRank r false) <$> s_checked 64 (rank + 1)
      else Ok (DenseRank rank is_first)
  | RunningSum sum has =>
      if is_null arg then Ok f
      else if negb has then Ok (RunningSum arg true)
      else (λ s, RunningSum s true) <$> value_add sum arg
  | RunningAvg sum count =>
      if is_null arg then Ok f
      else
        d ← as_float arg;
        n ← s_checked 64 (count + 1);
        Ok (RunningAvg (d_add sum d) n)
  end.

Definition currentValue (f : WindowFunction) : value :=
  match f with
  | RowNumber n => VInt n
  | Rank _ rank => VInt rank
  | DenseRank rank _ => VInt rank
  | RunningSum sum has => if has then sum else VNull
  | RunningAvg sum count => if count =? 0 then VNull else VFloat (d_div sum (d_of_Z count))
  end.

(** ** The operator *)

Record WindowColumn : Type := mkWindow {
  w_index : nat;
  w_name : string;
  w_args : list select_expr;
  w_partition_by : list select_expr;
  w_order_by : list (select_expr * bool)
}.

(** A wildcard does not advance the column index. *)
Fixpoint window_columns_from (i : nat) (columns : list select_expr) : list WindowColumn :=
  match columns with
  | [] => []
  | e :: columns =>
      if is_wildcard_select_expression e then window_columns_from i columns
      else match e with
      | FunctionCall name args (Some (partition_by, order_by)) =>
          mkWindow i name args partition_by order_by :: window_columns_from (S i) columns
      | _ => window_columns_from (S i) columns
      end
  end.
Definition collectWindowColumns (st : SelectStatement) : list WindowColumn :=
  window_columns_from 0 (select_exprs st).

Section window.
Context (names : list string).

Fixpoint compareExpressionList (order_by : list (select_expr * bool)) (a b : vrow) : res Z :=
  match order_by with
  | [] => Ok 0
  | (e, ascending) :: order_by =>
      va ← order_value names a e;
      vb ← order_value names b e;
      let cmp := compare_order_values va vb ascending in
      if negb (cmp =? 0) then Ok cmp else compareExpressionList order_by a b
  end.

Fixpoint comparePartitionKeys (partition_by : list select_expr) (a b : vrow) : res Z :=
  match partition_by with
  | [] => Ok 0
  | e :: partition_by =>
      va ← order_value names a e;
      vb ← order_value names b e;
      if value_eq va vb then comparePartitionKeys partition_by a b
      else if is_null va then Ok (-1)
      else if is_null vb then Ok 1
      else Ok (if value_lt va vb then -1 else 1)
  end.

Definition isSamePartition (partition_by : list select_expr) (a b : vrow) : res bool :=
  (λ c, c =? 0) <$> comparePartitionKeys partition_by a b.
Definition isPeerOrder (order_by : list (select_expr * bool)) (a b : vrow) : res bool :=
  (λ c, c =? 0) <$> compareExpressionList order_by a b.

Definition evaluateWindowArgument (args : list select_expr) (row : vrow) : res value :=
  match args with [] => Ok VNull | e :: _ => order_value names row e end.

Definition window_less (w : WindowColumn) (rs : list vrow) (l r : nat) : res bool :=
  match rs !! l, rs !! r with
  | Some a, Some b =>
      part ← comparePartitionKeys (w_partition_by w) a b;
      if negb (part =? 0) then Ok (part <? 0)
      else (λ c, c <? 0) <$> compareExpressionList (w_order_by w) a b
  | _, _ => UB
  end.

(** One turn of the loop over the sorted positions: the rows, the function and
    the position before. *)
Definition window_step (w : WindowColumn) (acc : list vrow * WindowFunction * option nat) (i : nat)
    : res (list vrow * WindowFunction * option nat) :=
  let '(rs, f, prev) := acc in
  match rs !! i with
  | None => UB
  | Some current =>
      let previous := prev ≫= λ j, rs !! j in
      same ← match previous with
             | None => Ok false
             | Some p => isSamePartition (w_partition_by w) p current
             end;
      let f := if (same : bool) then f else resetPartition f in
      is_peer ← match previous with
                | Some p => if (same : bool) then isPeerOrder (w_order_by w) p current else Ok false
                | None => Ok false
                end;
      arg ← evaluateWindowArgument (w_args w) current;
      f ← consumeRow f arg is_peer;
      Ok (<[i := <[w_index w := currentValue f]> current]> rs, f, Some i)
  end.

Definition applyOneWindow (rs : list vrow) (w : WindowColumn) : res (list vrow) :=
  match make_window_function (w_name w) with
  | None => Ok rs
  | Some f =>
      indices ← sort_by (window_less w rs) (seq 0 (length rs));
      '(rs, _, _) ← res_fold (window_step w) (rs, f, None) indices;
      Ok rs
  end.
End window.

Definition window_apply (input : QueryResult) (st : SelectStatement) : res QueryResult :=
  if negb (success input) then Ok input
  else if negb (select_has_window st) then Ok input
  else
    rs ← res_fold (applyOneWindow (column_names input)) (rows input) (collectWindowColumns st);
    Ok (mkResult (success input) (message input) (column_names input) rs (affected_rows input)).

(** ** The pipeline *)

Definition pipeline_statement (st : SelectStatement) : Statement SelectStatement :=
  mkStatement _ (distinct st) (order_by_columns st) (limit st) (offset st).

Definition apply_post_scan (result : QueryResult) (st : SelectStatement) : res QueryResult :=
  if negb (success result) then Ok result
  else
    result ← window_apply result st;
    result ← distinct_apply result (Some (pipeline_statement st));
    result ← sort_apply result (Some (pipeline_statement st));
    Ok (limit_offset_apply result (Some (pipeline_statement st))).

(** ** Comparing keys *)

Lemma comparePartitionKeys_lex names ks partition_by a b ka kb :
  Forall2 (λ e v, order_value names a e = Ok v) partition_by ka →
  Forall2 (λ e v, order_value names b e = Ok v) partition_by kb →
  typed_row ks ka → typed_row ks kb →
  let lt := lex ((λ _, value_lt) <$> ks) in
  comparePartitionKeys names partition_by a b = Ok (if lt ka kb then -1 else if lt kb ka then 1 else 0).
Proof.
  intros Ha. revert kb ks. induction Ha as [|e va pb ka Hva _ IH]; intros kb ks Hb Ta Tb lt; inversion Hb as [|? vb ? kb' Hvb Hb']; subst.
  { by inversion Ta; inversion Tb; subst. }
  inversion Ta as [|k ? ks' ? Tva Ta']; subst. inversion Tb as [|? ? ? ? Tvb Tb']; subst.
  cbn [comparePartitionKeys]. rewrite Hva, Hvb. cbn [mbind res_bind]. unfold lt. cbn [fmap list_fmap lex].
  pose proof (nullable_first_total k) as Ho. destruct (value_eq va vb) eqn:E.
  - apply (nullable_eq_iff k) in E as ->; [|done..]. rewrite (to_irrefl _ _ Ho vb Tvb). by apply IH.
  - assert (Hne : va ≠ vb) by (intros ->; by rewrite (proj2 (nullable_eq_iff k vb vb Tvb Tvb)) in E).
    destruct (value_lt va vb) eqn:E1, (value_lt vb va) eqn:E2.
    + by rewrite (total_asym _ _ va vb Ho) in E2.
    + destruct va, vb; done.
    + destruct va, vb; done.
    + by destruct Hne; apply (to_total _ _ Ho).
Qed.

Lemma compareExpressionList_lex names ks order_by a b ka kb :
  order_keys names order_by a ka → order_keys names order_by b kb →
  typed_row ks ka → typed_row ks kb →
  let lt := lex (order_lts order_by) in
  compareExpressionList names order_by a b = Ok (if lt ka kb then -1 else if lt kb ka then 1 else 0).
Proof.
  intros Ha. revert kb ks. induction Ha as [|[e asc] va ob ka Hva _ IH]; intros kb ks Hb Ta Tb lt; [done|].
  inversion Hb as [|? vb ? kb' Hvb Hb']; subst. inversion Ta as [|k ? ks' ? Tva Ta']; subst.
  inversion Tb as [|? ? ? ? Tvb Tb']; subst. cbn [fst] in Hva, Hvb. cbn [compareExpressionList]. rewrite Hva, Hvb.
  cbn [mbind res_bind]. unfold lt. cbn [order_lts fmap list_fmap lex snd].
  destruct (compare_cases k va vb asc Tva Tvb) as [[-> ->]|[(-> & -> & ->)|(-> & -> & ->)]]; [done| |done].
  by apply (IH kb' ks').
Qed.

Lemma filter_none_of {A} (P : A → Prop) `{∀ x, Decision (P x)} (l : list A) : (∀ x, x ∈ l → ¬ P x) → filter P l = [].
Proof.
  intros H'. induction l as [|x l IH]; [done|]. rewrite filter_cons_False by (apply H'; left). apply IH. set_solver.
Qed.
Lemma filter_equiv {A} (P Q : A → Prop) `{∀ x, Decision (P x)} `{∀ x, Decision (Q x)} (l : list A) :
  (∀ x, x ∈ l → P x ↔ Q x) → filter P l = filter Q l.
Proof.
  intros H'. induction l as [|x l IH]; [done|]. destruct (decide (P x)) as [HP|HP].
  - rewrite !filter_cons_True; [|by apply H'; [left|]|done]. f_equal. apply IH. set_solver.
  - rewrite !filter_cons_False; [|intros HQ; apply HP, H'; [left|done]|done]. apply IH. set_solver.
Qed.

Lemma elem_of_snoc {A} (x y : A) (l : list A) : x ∈ l ++ [y] ↔ x ∈ l ∨ x = y.
Proof. by rewrite elem_of_app, list_elem_of_singleton. Qed.

(** ** Ranks

    A list of positions sorted by partition, then by order, then by position. *)

Section ranks.
Context (plt olt : vrow → vrow → bool) (DP DO : vrow → Prop).
Context (Hp : total_order DP plt) (Ho : total_order DO olt).
Context (pk ok : nat → vrow).

Definition peers (i j : nat) : Prop := pk i = pk j ∧ ok i = ok j.
Definition precedes (j i : nat) : Prop := pk j = pk i ∧ olt (ok j) (ok i) = true.
Definition comes_before (j i : nat) : Prop := precedes j i ∨ (peers j i ∧ (j < i)%nat).
#[export] Instance precedes_dec j i : Decision (precedes j i).
Proof. unfold precedes. apply _. Defined.
#[export] Instance comes_before_dec j i : Decision (comes_before j i).
Proof. unfold comes_before, peers. apply _. Defined.

(** ROW_NUMBER, RANK and DENSE_RANK as SQL defines them. *)
Definition row_number_of (n i : nat) : Z := 1 + Z.of_nat (length (filter (λ j, comes_before j i) (seq 0 n))).
Definition rank_of (n i : nat) : Z := 1 + Z.of_nat (length (filter (λ j, precedes j i) (seq 0 n))).
Definition dense_rank_of (n i : nat) : Z :=
  1 + Z.of_nat (length (remove_dups (ok <$> filter (λ j, precedes j i) (seq 0 n)))).

Definition klt (i j : nat) : bool :=
  if plt (pk i) (pk j) then true else if plt (pk j) (pk i) then false else olt (ok i) (ok j).
Definition in_domain (i : nat) : Prop := DP (pk i) ∧ DO (ok i).

Lemma klt_weak : weak_order klt in_domain.
Proof.
  pose proof (total_weak _ _ Hp) as [Pa Pn]. pose proof (total_weak _ _ Ho) as [Oa On]. split.
  - intros a b [Pa1 Oa1] [Pb1 Ob1]. unfold klt. destruct (plt (pk a) (pk b)) eqn:E1.
    + by rewrite (Pa _ _ Pa1 Pb1 E1).
    + destruct (plt (pk b) (pk a)); [done|]. by apply Oa.
  - intros a b c [Pa1 Oa1] [Pb1 Ob1] [Pc1 Oc1]. unfold klt.
    destruct (plt (pk a) (pk b)) eqn:E1; [done|]. destruct (plt (pk b) (pk c)) eqn:E2; [done|].
    rewrite (Pn _ _ _ Pa1 Pb1 Pc1 E1 E2). intros H1 H2.
    destruct (plt (pk c) (pk a)) eqn:E3; [done|].
    destruct (plt (pk b) (pk a)) eqn:E4.
    + assert (plt (pk c) (pk b) = true) as E5; [|].
      { destruct (plt (pk c) (pk b)) eqn:E; [done|]. rewrite (to_total _ _ Hp (pk b) (pk c)) in E4 by done. congruence. }
      rewrite (to_trans _ _ Hp (pk c) (pk b) (pk a)) in E3 by done. done.
    + destruct (plt (pk c) (pk b)) eqn:E5.
      * rewrite (to_total _ _ Hp (pk a) (pk b)) in E3 by done. congruence.
      * by apply (On _ (ok b)).
Qed.

Lemma klt_false a b : in_domain a → in_domain b → klt b a = false →
  plt (pk b) (pk a) = false ∧ (pk a = pk b → olt (ok b) (ok a) = false).
Proof.
  intros [Pa Oa] [Pb Ob]. unfold klt. destruct (plt (pk b) (pk a)) eqn:E1; [done|]. intros H. split; [done|].
  intros E. rewrite E, (to_irrefl _ _ Hp _ Pb) in H. done.
Qed.
Lemma klt_tied a b : in_domain a → in_domain b → klt a b = false → klt b a = false → peers a b.
Proof.
  intros Ha Hb H1 H2. destruct (klt_false b a Hb Ha H1) as [P1 O1], (klt_false a b Ha Hb H2) as [P2 O2].
  destruct Ha as [Pa Oa], Hb as [Pb Ob].
  assert (E : pk a = pk b) by (by apply (to_total _ _ Hp)). split; [done|]. apply (to_total _ _ Ho); auto.
Qed.

(** The sorted positions. *)
Definition sorted_positions (n : nat) : list nat := isort klt (seq 0 n).

Context (n : nat) (Hdom : ∀ i, (i < n)%nat → in_domain i).

Lemma positions_elem i : i ∈ sorted_positions n ↔ (i < n)%nat.
Proof. unfold sorted_positions. rewrite isort_perm, elem_of_seq. lia. Qed.
Lemma positions_domain : Forall in_domain (seq 0 n).
Proof. apply Forall_forall. intros i Hi%elem_of_seq. apply Hdom. lia. Qed.

(** Earlier in the sorted list means before in the order. *)
Lemma positions_before l i r x : sorted_positions n = l ++ i :: r → x ∈ l →
  plt (pk i) (pk x) = false ∧ (pk x = pk i → olt (ok i) (ok x) = false) ∧ (peers x i → (x < i)%nat).
Proof.
  intros E Hx. assert (Hord := isort_ordered klt in_domain klt_weak (seq 0 n) positions_domain).
  fold (sorted_positions n) in Hord. rewrite E in Hord.
  assert (Hi : in_domain i). { apply Hdom, positions_elem. rewrite E. set_solver. }
  assert (Hdx : in_domain x). { apply Hdom, positions_elem. rewrite E. set_solver. }
  assert (Hlt : klt i x = false).
  { clear -Hord Hx. induction l as [|y l IH]; [set_solver|]. cbn [app] in Hord. inversion Hord as [|? ? Hy Hord']; subst.
    apply elem_of_cons in Hx as [->|Hx]; [|by apply IH]. rewrite Forall_forall in Hy. apply Hy. set_solver. }
  destruct (klt_false x i Hdx Hi Hlt) as [H1 H2]. split_and!; [done|done|]. intros [Ep Eo].
  assert (Hst := isort_stable klt in_domain klt_weak (seq 0 n) i Hi positions_domain).
  fold (sorted_positions n) in Hst. rewrite E, filter_app in Hst.
  assert (Hirr : klt i i = false).
  { unfold klt. destruct Hi as [Pi Oi]. by rewrite (to_irrefl _ _ Hp _ Pi), (to_irrefl _ _ Ho _ Oi). }
  rewrite filter_cons_True in Hst by (unfold equivalent; by rewrite Hirr).
  assert (Hxf : x ∈ filter (λ y, equivalent klt i y = true) l).
  { apply list_elem_of_filter. split; [|done]. unfold equivalent. rewrite Hlt. cbn [negb andb].
    apply negb_true_iff. unfold klt. destruct Hi as [Pi Oi]. rewrite Ep, Eo.
    by rewrite (to_irrefl _ _ Hp _ Pi), (to_irrefl _ _ Ho _ Oi). }
  assert (Hss : StronglySorted lt (filter (λ y, equivalent klt i y = true) (seq 0 n))).
  { assert (Hsub : sublist (filter (λ y, equivalent klt i y = true) (seq 0 n)) (seq 0 n)) by apply sublist_filter.
    clear -Hsub. remember (filter _ _) as f eqn:Ef. clear Ef. revert f Hsub. generalize 0%nat as m.
    induction n as [|k IH]; intros m f Hsub; cbn [seq] in Hsub; inversion Hsub as [|? f' ? Hs|? ? f' Hs]; subst; try constructor.
    - by apply (IH (S m)).
    - apply Forall_forall. intros y Hy. assert (Hin : y ∈ seq (S m) k) by (by eapply elem_of_sublist). apply elem_of_seq in Hin. lia.
    - by apply (IH (S m)). }
  rewrite <- Hst in Hss. clear -Hss Hxf.
  induction (filter (λ y, equivalent klt i y = true) l) as [|y l' IH]; [set_solver|]. cbn [app] in Hss.
  inversion Hss as [|? ? Hss' Hall]; subst. apply elem_of_cons in Hxf as [->|Hxf]; [|by apply IH].
  rewrite Forall_forall in Hall. apply Hall. set_solver.
Qed.

Lemma positions_after l i r x : sorted_positions n = l ++ i :: r → x ∈ r → ¬ comes_before x i.
Proof.
  intros E Hx. apply list_elem_of_split in Hx as (r1 & r2 & ->). rewrite app_comm_cons, app_assoc in E.
  destruct (positions_before _ x r2 i E) as (H1 & H2 & H3); [set_solver|].
  intros [[Hpk Holt]|[[Hpk Hok] Hlt]].
  - rewrite H2 in Holt by done. done.
  - assert (i < x)%nat by (by apply H3). lia.
Qed.

(** What comes before a position is in front of it. *)
Lemma count_prefix (Q : nat → Prop) `{∀ x, Decision (Q x)} l i r : sorted_positions n = l ++ i :: r →
  ¬ Q i → (∀ x, x ∈ r → ¬ Q x) → filter Q (seq 0 n) ≡ₚ filter Q l.
Proof.
  intros E Hi Hr. rewrite <- (isort_perm klt (seq 0 n)). fold (sorted_positions n). rewrite E, filter_app.
  rewrite filter_cons_False by done.
  by rewrite (filter_none_of Q r Hr), app_nil_r.
Qed.
Lemma no_self i : in_domain i → ¬ comes_before i i ∧ ¬ precedes i i.
Proof.
  intros [_ Oi]. assert (¬ precedes i i) by (intros [_ H]; by rewrite (to_irrefl _ _ Ho _ Oi) in H).
  split; [|done]. intros [?|[_ ?]]; [done|lia].
Qed.
Lemma split_domain l i r : sorted_positions n = l ++ i :: r → in_domain i ∧ (∀ x, x ∈ l → in_domain x).
Proof. intros E. split; intros; apply Hdom, positions_elem; rewrite E; set_solver. Qed.

Lemma row_number_prefix l i r : sorted_positions n = l ++ i :: r →
  row_number_of n i = 1 + Z.of_nat (length (filter (λ x, pk x = pk i) l)).
Proof.
  intros E. destruct (split_domain l i r E) as [Hi Hl]. destruct (no_self i Hi) as [Hs _]. unfold row_number_of.
  rewrite (count_prefix (λ j, comes_before j i) l i r E Hs) by (intros x; by apply (positions_after l i r)).
  do 3 f_equal. apply filter_equiv. intros x Hx. destruct (positions_before l i r x E Hx) as (H1 & H2 & H3). split.
  - intros [[? _]|[[? _] _]]; done.
  - intros Hpk. destruct (olt (ok x) (ok i)) eqn:Eo; [by left|]. right.
    assert (peers x i); [|auto]. split; [done|]. apply (to_total _ _ Ho); [apply Hl, Hx|apply Hi|done|by apply H2].
Qed.
Lemma predecessors_prefix l i r : sorted_positions n = l ++ i :: r →
  filter (λ j, precedes j i) (seq 0 n) ≡ₚ filter (λ j, precedes j i) l.
Proof.
  intros E. destruct (split_domain l i r E) as [Hi _]. destruct (no_self i Hi) as [_ Hs].
  apply (count_prefix (λ j, precedes j i) l i r E Hs). intros x Hx Hp'. apply (positions_after l i r x E Hx). by left.
Qed.
Lemma dense_length (a b : list nat) : a ≡ₚ b → length (remove_dups (ok <$> a)) = length (remove_dups (ok <$> b)).
Proof.
  intros Hab. apply Permutation_length. apply NoDup_Permutation; [apply NoDup_remove_dups..|].
  intros x. by rewrite !elem_of_remove_dups, Hab.
Qed.

(** *** From one row to the next *)

Section next.
Context (l : list nat) (j i : nat) (r : list nat) (E : sorted_positions n = l ++ j :: i :: r).

Lemma E' : sorted_positions n = (l ++ [j]) ++ i :: r.
Proof. by rewrite <- app_assoc. Qed.

Lemma new_partition : pk j ≠ pk i → ∀ x, x ∈ l ++ [j] → pk x ≠ pk i.
Proof.
  intros Hne x Hx Heq. apply elem_of_snoc in Hx as [Hx|Hx]; [|subst x]; [|done].
  destruct (positions_before l j (i :: r) x E Hx) as [H1 _].
  destruct (positions_before (l ++ [j]) i r j E') as [H2 _]; [set_solver|].
  destruct (split_domain _ _ _ E') as [[Pi _] Hl]. destruct (Hl j) as [Pj _]; [set_solver|].
  apply Hne. apply (to_total _ _ Hp); [done|done| |done]. rewrite Heq in H1. done.
Qed.

Lemma row_number_same : pk j = pk i → row_number_of n i = row_number_of n j + 1.
Proof.
  intros Hpk. rewrite (row_number_prefix _ _ _ E'), (row_number_prefix _ _ _ E).
  rewrite filter_app, filter_cons_True, filter_nil, length_app by done. rewrite Hpk. cbn [length]. lia.
Qed.
Lemma ranks_new : pk j ≠ pk i → row_number_of n i = 1 ∧ rank_of n i = 1 ∧ dense_rank_of n i = 1.
Proof.
  intros Hne. assert (Hnew := new_partition Hne). rewrite (row_number_prefix _ _ _ E').
  unfold rank_of, dense_rank_of. rewrite (Permutation_length (predecessors_prefix _ _ _ E')).
  rewrite (dense_length _ _ (predecessors_prefix _ _ _ E')).
  rewrite (filter_none_of (λ x, pk x = pk i)), (filter_none_of (λ x, precedes x i)); [done| |done].
  intros x Hx [Hpk _]. by apply (Hnew x).
Qed.
Lemma ranks_peer : pk j = pk i → ok j = ok i → rank_of n i = rank_of n j ∧ dense_rank_of n i = dense_rank_of n j.
Proof.
  intros Hpk Hok. unfold rank_of, dense_rank_of.
  assert (filter (λ x, precedes x i) (seq 0 n) = filter (λ x, precedes x j) (seq 0 n)) as ->; [|done].
  apply filter_equiv. intros x _. unfold precedes. by rewrite Hpk, Hok.
Qed.

Context (Hpk : pk j = pk i) (Hok : ok j ≠ ok i).

Lemma next_greater : olt (ok j) (ok i) = true.
Proof.
  destruct (split_domain _ _ _ E') as [[_ Oi] Hl]. destruct (Hl j) as [_ Oj]; [set_solver|].
  destruct (positions_before (l ++ [j]) i r j E') as (_ & H2 & _); [set_solver|].
  destruct (olt (ok j) (ok i)) eqn:Eo; [done|]. destruct Hok. apply (to_total _ _ Ho); auto.
Qed.
Lemma predecessors_next x : x ∈ l ++ [j] → precedes x i ↔ pk x = pk i.
Proof.
  intros Hx. split; [by intros [? _]|]. intros Heq. split; [done|]. pose proof next_greater as Hji.
  destruct (split_domain _ _ _ E') as [[_ Oi] Hl]. destruct (Hl j) as [_ Oj]; [set_solver|].
  destruct (Hl x Hx) as [_ Ox]. apply elem_of_snoc in Hx as [Hx|Hx]; [|subst x]; [|done].
  destruct (positions_before l j (i :: r) x E Hx) as (_ & H2 & _).
  destruct (olt (ok x) (ok i)) eqn:Eo; [done|]. pose proof (total_weak _ _ Ho) as [_ On].
  rewrite (On (ok j) (ok x) (ok i)) in Hji; [done|done..| |done]. apply H2. congruence.
Qed.
Lemma ranks_next : rank_of n i = row_number_of n i ∧ dense_rank_of n i = dense_rank_of n j + 1.
Proof.
  split.
  - rewrite (row_number_prefix _ _ _ E'). unfold rank_of. rewrite (Permutation_length (predecessors_prefix _ _ _ E')).
    do 3 f_equal. apply filter_equiv. apply predecessors_next.
  - unfold dense_rank_of. rewrite (dense_length _ _ (predecessors_prefix _ _ _ E')), (dense_length _ _ (predecessors_prefix _ _ _ E)).
    assert (Hperm : remove_dups (ok <$> filter (λ x, precedes x i) (l ++ [j]))
      ≡ₚ ok j :: remove_dups (ok <$> filter (λ x, precedes x j) l)).
    { apply NoDup_Permutation; [apply NoDup_remove_dups|constructor; [|apply NoDup_remove_dups]|].
      - rewrite elem_of_remove_dups. intros (x & Ex & [[_ Hx] _]%list_elem_of_filter)%list_elem_of_fmap.
        destruct (split_domain _ _ _ E) as [[_ Oj] _]. rewrite <- Ex, (to_irrefl _ _ Ho _ Oj) in Hx. done.
      - intros k. rewrite elem_of_cons, !elem_of_remove_dups, !list_elem_of_fmap. split.
        + intros (x & -> & [Hx Hin]%list_elem_of_filter). apply predecessors_next in Hx; [|done].
          apply elem_of_snoc in Hin as [Hin|Hin]; [|subst x]; [|by left].
          destruct (decide (ok x = ok j)) as [->|Hne]; [by left|]. right. exists x. split; [done|].
          apply list_elem_of_filter. split; [|done]. destruct (positions_before l j (i :: r) x E Hin) as (_ & H2 & _).
          destruct (split_domain _ _ _ E) as [[_ Oj] Hl]. destruct (Hl x Hin) as [_ Ox].
          split; [congruence|]. destruct (olt (ok x) (ok j)) eqn:Eo; [done|]. destruct Hne.
          apply (to_total _ _ Ho); [done|done|done|]. apply H2. congruence.
        + intros [->|(x & -> & [[Hx _] Hin]%list_elem_of_filter)].
          * exists j. split; [done|]. apply list_elem_of_filter. split; [|set_solver]. by apply predecessors_next; [set_solver|].
          * exists x. split; [done|]. apply list_elem_of_filter. split; [|set_solver].
            apply predecessors_next; [set_solver|congruence]. }
    rewrite (Permutation_length Hperm). cbn [length]. lia.
Qed.
End next.

Lemma ranks_first i r : sorted_positions n = i :: r →
  row_number_of n i = 1 ∧ rank_of n i = 1 ∧ dense_rank_of n i = 1.
Proof.
  intros E. change (i :: r) with ([] ++ i :: r) in E. rewrite (row_number_prefix _ _ _ E).
  unfold rank_of, dense_rank_of. rewrite (Permutation_length (predecessors_prefix _ _ _ E)).
  by rewrite (dense_length _ _ (predecessors_prefix _ _ _ E)).
Qed.
Lemma row_number_bound i : (i < n)%nat → 1 ≤ row_number_of n i ≤ Z.of_nat n.
Proof.
  intros Hi. apply positions_elem in Hi. apply list_elem_of_split in Hi as (l & r & E).
  rewrite (row_number_prefix _ _ _ E).
  assert (Hlen : length (sorted_positions n) = n) by (unfold sorted_positions; by rewrite isort_perm, length_seq).
  rewrite E, length_app in Hlen. cbn [length] in Hlen. pose proof (length_filter (λ x, pk x = pk i) l). lia.
Qed.
End ranks.

Lemma checked_small z : 0 ≤ z < 2 ^ 63 → s_checked 64 z = Ok z.
Proof.
  intros Hz. unfold s_checked. change (64 - 1) with 63.
  by rewrite (proj2 (Z.leb_le (- 2 ^ 63) z)), (proj2 (Z.ltb_lt z (2 ^ 63))) by lia.
Qed.

(** ** The ranking functions *)

Section ranking.
Context (names : list string) (w : WindowColumn) (rs : list vrow) (pkey okey : vrow → vrow) (pks oks : list kind).

(** The keys of a row, which do not depend on the column that is overwritten. *)
Definition keys_ok (r : vrow) : Prop :=
  typed_row pks (pkey r) ∧ typed_row oks (okey r) ∧
  ∀ r', (r' = r ∨ ∃ v, r' = <[w_index w := v]> r) →
    Forall2 (λ e v, order_value names r' e = Ok v) (w_partition_by w) (pkey r) ∧
    order_keys names (w_order_by w) r' (okey r).

Context (Hkeys : ∀ r, r ∈ rs → keys_ok r) (Horder : length (w_order_by w) = length oks).
Context (Hargs : w_args w = []) (Hlen : Z.of_nat (length rs) < 2 ^ 63).

Definition row_at (i : nat) : vrow := default [] (rs !! i).
Definition pk (i : nat) : vrow := pkey (row_at i).
Definition ok (i : nat) : vrow := okey (row_at i).
Definition plt : vrow → vrow → bool := lex ((λ _, value_lt) <$> pks).
Definition olt : vrow → vrow → bool := lex (order_lts (w_order_by w)).

Lemma plt_total : total_order (Forall2 (λ D v, D v) (nullable <$> pks)) plt.
Proof.
  apply lex_total. apply Forall2_fmap. apply Forall2_same_length_lookup. split; [done|].
  intros i k k' _ _. apply nullable_first_total.
Qed.
Lemma olt_total : total_order (Forall2 (λ D v, D v) (nullable <$> oks)) olt.
Proof. apply lex_total. by apply order_lts_total. Qed.

Lemma row_at_elem i : (i < length rs)%nat → rs !! i = Some (row_at i) ∧ row_at i ∈ rs.
Proof.
  intros Hi. destruct (lookup_lt_is_Some_2 rs i Hi) as [r Hr]. unfold row_at. rewrite Hr. split; [done|].
  by eapply list_elem_of_lookup_2.
Qed.
Lemma positions_in_domain i : (i < length rs)%nat →
  in_domain (Forall2 (λ D v, D v) (nullable <$> pks)) (Forall2 (λ D v, D v) (nullable <$> oks)) pk ok i.
Proof.
  intros Hi. destruct (row_at_elem i Hi) as [_ Hr]. destruct (Hkeys _ Hr) as (H1 & H2 & _).
  split; by apply typed_row_domain.
Qed.

(** A row, or the same row with its window column set. *)
Definition version (i : nat) (r : vrow) : Prop := r = row_at i ∨ ∃ v, r = <[w_index w := v]> (row_at i).

Lemma compare_versions i j a b : (i < length rs)%nat → (j < length rs)%nat → version i a → version j b →
  comparePartitionKeys names (w_partition_by w) a b = Ok (if plt (pk i) (pk j) then -1 else if plt (pk j) (pk i) then 1 else 0)
  ∧ compareExpressionList names (w_order_by w) a b = Ok (if olt (ok i) (ok j) then -1 else if olt (ok j) (ok i) then 1 else 0).
Proof.
  intros Hi Hj Ha Hb. destruct (row_at_elem i Hi) as [_ Hri], (row_at_elem j Hj) as [_ Hrj].
  destruct (Hkeys _ Hri) as (T1 & T2 & H1), (Hkeys _ Hrj) as (T3 & T4 & H2).
  destruct (H1 a Ha) as [P1 O1], (H2 b Hb) as [P2 O2].
  split; [by apply comparePartitionKeys_lex|by apply (compareExpressionList_lex names oks)].
Qed.
Lemma sign_zero {A} (D : A → Prop) lt a b : total_order D lt → D a → D b →
  ((if lt a b then -1 else if lt b a then 1 else 0) =? 0) = true ↔ a = b.
Proof.
  intros Ho Ha Hb. split.
  - destruct (lt a b) eqn:E1; [done|]. destruct (lt b a) eqn:E2; [done|]. intros _. by apply (to_total _ _ Ho).
  - intros ->. by rewrite (to_irrefl _ _ Ho).
Qed.

Lemma window_sorts :
  sort_by (window_less names w rs) (seq 0 (length rs)) = Ok (sorted_positions plt olt pk ok (length rs)).
Proof.
  apply sort_by_pure. intros i j Hi%elem_of_seq Hj%elem_of_seq. unfold window_less.
  destruct (row_at_elem i) as [-> _]; [lia|]. destruct (row_at_elem j) as [-> _]; [lia|].
  destruct (compare_versions i j (row_at i) (row_at j)) as [-> ->]; [lia|lia|by left|by left|].
  cbn [mbind res_bind]. unfold klt. destruct (plt (pk i) (pk j)); [done|]. destruct (plt (pk j) (pk i)); [done|].
  cbn. destruct (olt (ok i) (ok j)); [done|]. by destruct (olt (ok j) (ok i)).
Qed.

(** The state of the function after the row at a position. *)
Definition ranking (f : WindowFunction) : bool :=
  match f with RowNumber _ | Rank _ _ | DenseRank _ _ => true | _ => false end.
Definition state_at (f : WindowFunction) (i : nat) : WindowFunction :=
  let n := length rs in
  match f with
  | RowNumber _ => RowNumber (row_number_of olt pk ok n i)
  | Rank _ _ => Rank (row_number_of olt pk ok n i) (rank_of olt pk ok n i)
  | DenseRank _ _ => DenseRank (dense_rank_of olt pk ok n i) false
  | _ => f
  end.

Abbreviation positions := (sorted_positions plt olt pk ok (length rs)).
Abbreviation lemma_args lem := (lem plt olt _ _ plt_total olt_total pk ok (length rs) positions_in_domain).

Lemma dense_small l i r : positions = l ++ i :: r → 1 ≤ dense_rank_of olt pk ok (length rs) i ≤ Z.of_nat (length rs).
Proof.
  intros E. unfold dense_rank_of. rewrite (dense_length ok _ _ (lemma_args predecessors_prefix l i r E)).
  assert (Hpos : length positions = length rs) by (unfold sorted_positions; by rewrite isort_perm, length_seq).
  rewrite E, length_app in Hpos. cbn [length] in Hpos.
  assert (length (remove_dups (ok <$> filter (λ j, precedes olt pk ok j i) l)) ≤ length l)%nat; [|lia].
  etrans; [apply submseteq_length, (NoDup_submseteq _ (ok <$> filter (λ j, precedes olt pk ok j i) l));
    [apply NoDup_remove_dups|intros x; by rewrite elem_of_remove_dups]|].
  rewrite length_fmap. apply length_filter.
Qed.

Lemma consume_first f i r arg : ranking f = true → positions = i :: r →
  consumeRow (resetPartition f) arg false = Ok (state_at f i).
Proof.
  intros Hf E. destruct (lemma_args ranks_first i r E) as (E1 & E2 & E3).
  destruct f; try done; cbn [resetPartition consumeRow state_at]; rewrite ?E1, ?E2, ?E3; done.
Qed.
Lemma consume_next f l j i r arg : ranking f = true → positions = l ++ j :: i :: r →
  consumeRow (if bool_decide (pk j = pk i) then state_at f j else resetPartition (state_at f j)) arg
    (bool_decide (pk j = pk i) && bool_decide (ok j = ok i)) = Ok (state_at f i).
Proof.
  intros Hf E. assert (Hi : (i < length rs)%nat) by (apply (positions_elem plt olt pk ok); rewrite E; set_solver).
  assert (Hb := lemma_args row_number_bound i Hi).
  assert (Hd := dense_small (l ++ [j]) i r). rewrite <- app_assoc in Hd. specialize (Hd E).
  case_bool_decide as Hpk; cbn [andb].
  - assert (Hrow := lemma_args row_number_same l j i r E Hpk).
    assert (Hj : 1 ≤ row_number_of olt pk ok (length rs) j) by (apply (lemma_args row_number_bound); apply (positions_elem plt olt pk ok); rewrite E; set_solver).
    assert (Hneq1 : (row_number_of olt pk ok (length rs) i =? 1) = false) by lia.
    case_bool_decide as Hok.
    + destruct (ranks_peer olt pk ok (length rs) j i Hpk Hok) as [E1 E2].
      destruct f; try done; cbn [state_at consumeRow]; rewrite <- ?Hrow, ?checked_small by lia; cbn.
      * done.
      * by rewrite Hneq1, E1.
      * by rewrite E2.
    + destruct (lemma_args ranks_next l j i r E Hpk Hok) as [E1 E2].
      destruct f; try done; cbn [state_at consumeRow]; rewrite <- ?Hrow, <- ?E2, ?checked_small by lia; cbn.
      * done.
      * by rewrite E1.
      * done.
  - destruct (lemma_args ranks_new l j i r E Hpk) as (E1 & E2 & E3).
    destruct f; try done; cbn [state_at resetPartition consumeRow]; by rewrite ?E1, ?E2, ?E3.
Qed.

(** The rows once the positions [seen] have been served. *)
Definition served (f : WindowFunction) (seen : list nat) (cur : list vrow) : Prop :=
  length cur = length rs ∧ ∀ i, (i < length rs)%nat →
    cur !! i = Some (if decide (i ∈ seen) then <[w_index w := currentValue (state_at f i)]> (row_at i) else row_at i).

Lemma served_version f seen cur i r : served f seen cur → (i < length rs)%nat → cur !! i = Some r → version i r.
Proof. intros [_ H] Hi. rewrite (H i Hi). case_decide; intros [= <-]; [right; by eexists|by left]. Qed.
Lemma served_snoc f seen cur i : (i < length rs)%nat → served f seen cur → i ∉ seen →
  served f (seen ++ [i]) (<[i := <[w_index w := currentValue (state_at f i)]> (row_at i)]> cur).
Proof.
  intros Hi [Hl H] Hni. split; [by rewrite length_insert|]. intros k Hk. destruct (decide (k = i)) as [->|Hne].
  - rewrite list_lookup_insert_eq by lia. by rewrite decide_True by set_solver.
  - rewrite list_lookup_insert_ne, (H k Hk) by done.
    destruct (decide (k ∈ seen)); [rewrite decide_True by set_solver|rewrite decide_False by set_solver]; done.
Qed.

(** The function and the previous position once [seen] has been served. *)
Definition progress (f : WindowFunction) (seen : list nat) (fcur : WindowFunction) (prev : option nat) : Prop :=
  (seen = [] ∧ prev = None ∧ fcur = f) ∨ ∃ l j, seen = l ++ [j] ∧ prev = Some j ∧ fcur = state_at f j.

Lemma positions_nodup : NoDup positions.
Proof. unfold sorted_positions. rewrite isort_perm. apply NoDup_seq. Qed.

Lemma window_step_ok f seen i todo cur fcur prev : ranking f = true → positions = seen ++ i :: todo →
  served f seen cur → progress f seen fcur prev →
  ∃ cur', window_step names w (cur, fcur, prev) i = Ok (cur', state_at f i, Some i)
    ∧ served f (seen ++ [i]) cur'.
Proof.
  intros Hf E Hs Hp. assert (Hin : ∀ x, x ∈ seen ++ i :: todo → (x < length rs)%nat)
    by (intros x Hx; apply (positions_elem plt olt pk ok); by rewrite E).
  assert (Hi : (i < length rs)%nat) by (apply Hin; set_solver).
  assert (Hni : i ∉ seen).
  { intros Hx. pose proof positions_nodup as Hn. rewrite E in Hn. apply NoDup_app in Hn as (_ & Hn & _). apply (Hn i Hx). left. }
  assert (Hcur : cur !! i = Some (row_at i)) by (rewrite (proj2 Hs i Hi); by rewrite decide_False).
  exists (<[i := <[w_index w := currentValue (state_at f i)]> (row_at i)]> cur). split; [|by apply served_snoc].
  unfold window_step. rewrite Hcur, Hargs. cbn [evaluateWindowArgument]. destruct Hp as [(-> & -> & ->)|(l & j & -> & -> & ->)].
  - cbn [mbind option_bind res_bind]. rewrite (consume_first f i todo) by done. done.
  - assert (Hj : (j < length rs)%nat) by (apply Hin; set_solver). rewrite <- app_assoc in E. cbn [app] in E.
    cbn [mbind option_bind]. destruct (lookup_lt_is_Some_2 cur j) as [p Hpj]; [by rewrite (proj1 Hs)|]. rewrite Hpj.
    destruct (compare_versions j i p (row_at i) Hj Hi) as [Ep Eo]; [by eapply served_version|by left|].
    unfold isSamePartition, isPeerOrder. rewrite Ep, Eo. cbn [fmap res_fmap mbind res_bind].
    destruct (positions_in_domain i Hi) as [Pi Oi], (positions_in_domain j Hj) as [Pj Oj].
    assert (Esame : ((if plt (pk j) (pk i) then -1 else if plt (pk i) (pk j) then 1 else 0) =? 0) = bool_decide (pk j = pk i)).
    { apply eq_true_iff_eq. rewrite bool_decide_eq_true. by apply (sign_zero _ _ _ _ plt_total). }
    assert (Epeer : ((if olt (ok j) (ok i) then -1 else if olt (ok i) (ok j) then 1 else 0) =? 0) = bool_decide (ok j = ok i)).
    { apply eq_true_iff_eq. rewrite bool_decide_eq_true. by apply (sign_zero _ _ _ _ olt_total). }
    rewrite Esame, Epeer. pose proof (consume_next f l j i todo VNull Hf E) as Hc.
    destruct (bool_decide (pk j = pk i)); cbn [andb mbind res_bind] in Hc |- *; by rewrite Hc.
Qed.

Lemma window_loop f todo : ranking f = true → ∀ seen cur fcur prev, positions = seen ++ todo →
  served f seen cur → progress f seen fcur prev →
  ∃ cur' f' prev', res_fold (window_step names w) (cur, fcur, prev) todo = Ok (cur', f', prev')
    ∧ served f positions cur'.
Proof.
  intros Hf. induction todo as [|i todo IH]; intros seen cur fcur prev E Hs Hp.
  { exists cur, fcur, prev. rewrite app_nil_r in E. by rewrite E. }
  cbn [res_fold]. destruct (window_step_ok f seen i todo cur fcur prev Hf E Hs Hp) as (cur' & -> & Hs').
  cbn [mbind res_bind]. apply (IH (seen ++ [i])); [by rewrite <- app_assoc|done|]. right. by exists seen, i.
Qed.

Lemma ranking_applies f : make_window_function (w_name w) = Some f → ranking f = true →
  ∃ rs', applyOneWindow names rs w = Ok rs' ∧ length rs' = length rs ∧
    ∀ i r, rs !! i = Some r → rs' !! i = Some (<[w_index w := currentValue (state_at f i)]> r).
Proof.
  intros Hmake Hf. unfold applyOneWindow. rewrite Hmake, window_sorts. cbn [mbind res_bind].
  destruct (window_loop f positions Hf [] rs f None) as (cur & f' & prev & -> & Hl & Hs); [done| |by left|].
  { split; [done|]. intros i Hi. rewrite decide_False by set_solver. by apply row_at_elem. }
  exists cur. split; [done|]. split; [done|]. intros i r Hr. assert (Hi := lookup_lt_Some _ _ _ Hr).
  rewrite (Hs i Hi), decide_True by (by apply (positions_elem plt olt pk ok)).
  unfold row_at. by rewrite Hr.
Qed.
End ranking.

(** C27. ROW_NUMBER, RANK and DENSE_RANK number the rows as SQL defines them: one more than
    the rows of the same partition that come before in the ORDER BY (ties in the order of
    the input), that have a smaller ORDER BY key, or the distinct smaller keys among them.
    Conditions: the keys of PARTITION BY and ORDER BY have values over the result columns
    (the code looks them up there, [window_orders_by_selected_columns]) that do not depend
    on the column of the window, and are NULLs and values of one kind per key, FLOATs
    pairwise 1e-9 or more apart; fewer than [2^63] rows. *)
Theorem ranks_count_predecessors names w rs (pkey okey : vrow → vrow) (pks oks : list kind) f :
  (∀ r, r ∈ rs → keys_ok names w pkey okey pks oks r) → length (w_order_by w) = length oks →
  w_args w = [] → Z.of_nat (length rs) < 2 ^ 63 →
  make_window_function (w_name w) = Some f → ranking f = true →
  let pk i := pkey (default [] (rs !! i)) in
  let ok i := okey (default [] (rs !! i)) in
  let lt := lex (order_lts (w_order_by w)) in
  let number i := match f with
    | RowNumber _ => row_number_of lt pk ok (length rs) i
    | Rank _ _ => rank_of lt pk ok (length rs) i
    | _ => dense_rank_of lt pk ok (length rs) i
    end in
  ∃ rs', applyOneWindow names rs w = Ok rs' ∧ length rs' = length rs ∧
    ∀ i r, rs !! i = Some r → rs' !! i = Some (<[w_index w := VInt (number i)]> r).
Proof.
  intros Hkeys Hob Hargs Hlen Hmake Hf pk ok lt number.
  destruct (ranking_applies names w rs pkey okey pks oks Hkeys Hob Hargs Hlen f Hmake Hf) as (rs' & E & Hl & H).
  exists rs'. split; [done|]. split; [done|]. intros i r Hr. rewrite (H i r Hr). by destruct f.
Qed.

(** [RANK() OVER (PARTITION BY k ORDER BY v DESC)] in the third column. *)
Definition sample_window : WindowColumn :=
  mkWindow 2 "RANK" [] [ColumnRef "" "k"] [(ColumnRef "" "v", false)].
Definition sample_result : list vrow :=
  [[VInt 1; VInt 5; VNull]; [VInt 2; VInt 7; VNull]; [VInt 1; VInt 6; VNull]; [VInt 1; VInt 5; VNull]; [VInt 1; VNull; VNull]].

Lemma ranks_count_predecessors_witness :
  ∃ rs', applyOneWindow ["k"; "v"; "r"]%string sample_result sample_window = Ok rs' ∧
    length rs' = length sample_result ∧
    ∀ i r, sample_result !! i = Some r → rs' !! i = Some (<[2%nat := VInt (rank_of (lex (order_lts (w_order_by sample_window)))
      (λ i, take 1 (default [] (sample_result !! i))) (λ i, take 1 (drop 1 (default [] (sample_result !! i)))) 5 i)]> r).
Proof.
  apply (ranks_count_predecessors ["k"; "v"; "r"]%string sample_window sample_result
    (take 1) (λ r, take 1 (drop 1 r)) [KInt] [KInt] (Rank 0 0)).
  - intros r Hr. unfold sample_result in Hr. rewrite !elem_of_cons, elem_of_nil in Hr.
    destruct_or?; subst; try done;
      (split; [constructor; [by right|constructor]|]);
      (split; [constructor; [first [by right|by left]|constructor]|]);
      (intros r' [->|[v ->]]; (split; constructor; [done|constructor|done|constructor])).
  - reflexivity.
  - reflexivity.
  - vm_compute. reflexivity.
  - reflexivity.
  - reflexivity.
Defined.

(** A wildcard takes one place in the list of window columns, whatever it stands
    for: [SELECT *, ROW_NUMBER() OVER (ORDER BY v)] numbers the rows in the first
    column, and leaves its own column empty. *)
Example wildcard_shifts_window :
  rows <$> apply_post_scan (mkResult true "" ["k"; "v"; "n"]%string [[VInt 10; VInt 2; VNull]; [VInt 20; VInt 1; VNull]] 2)
    (mkSelect [(Identifier "*", ""); (FunctionCall "ROW_NUMBER" [] (Some ([], [(ColumnRef "" "v", true)])), "n")]%string
       "t" "t" None [] None [] [] false (-1) 0)
  = Ok [[VInt 2; VInt 2; VNull]; [VInt 1; VInt 1; VNull]].
Proof. vm_compute. reflexivity. Qed.

(** The ORDER BY of a window sees the columns of the result only: a column that
    is not selected is NULL in every row. *)
Example window_orders_by_selected_columns :
  rows <$> apply_post_scan (mkResult true "" ["k"; "n"]%string [[VInt 10; VNull]; [VInt 20; VNull]] 2)
    (mkSelect [(ColumnRef "" "k", ""); (FunctionCall "RANK" [] (Some ([], [(ColumnRef "" "v", true)])), "n")]%string
       "t" "t" None [] None [] [] false (-1) 0)
  = Ok [[VInt 10; VInt 1]; [VInt 20; VInt 1]].
Proof. vm_compute. reflexivity. Qed.
