(* ===== verification/Planner.v ===== *)
(** * Costs and plans

    src/planner: the cost model (cost_model.cc), the choice between a sequential
    and an index scan (access_path_chooser.cc), the choice of a join method
    (join_method_chooser.cc, join_method_plan.cc), the order of joins
    (join_order_planner.cc) and the statistics they read (table_statistics.cc).
    Costs are doubles, as in the code. *)

From Stdlib Require Import ZArith Lia SpecFloat.
From S2P Require Import Prelude CppNum Values Rows RowHeap IndexKey BTree Transactions Expr Evaluator Partition Table Operators.
Import Table.

(** ** Cost model *)

Definition SEQ_TUPLE_COST : double := d_of_Z 1.
Definition INDEX_TUPLE_COST : double := (d_of_ratio false 1 10).1.
Definition INDEX_STARTUP_COST : double := d_of_Z 2.
Definition HASH_BUILD_TUPLE_COST : double := (d_of_ratio false 12 10).1.
Definition HASH_PROBE_TUPLE_COST : double := d_of_Z 1.
Definition HASH_JOIN_MIN_ROWS : Z := 32.
Definition d_one : double := d_of_Z 1.
Definition d_max : double := S754_finite false (2 ^ 53 - 1) 971.

Definition estimateSeqScanCost (row_count : Z) : double := d_mul SEQ_TUPLE_COST (d_of_Z row_count).
Definition estimateIndexScanCost (row_count : Z) (selectivity : double) : double :=
  d_add INDEX_STARTUP_COST (d_mul INDEX_TUPLE_COST (d_mul (d_of_Z row_count) selectivity)).
Definition estimateNestedLoopCost (outer_rows inner_rows : Z) (has_inner_index : bool) : double :=
  let outer := d_of_Z outer_rows in
  if has_inner_index then d_mul outer (d_add INDEX_STARTUP_COST INDEX_TUPLE_COST)
  else d_mul (d_mul outer SEQ_TUPLE_COST) (d_of_Z inner_rows).
Definition estimateHashJoinCost (build_rows probe_rows : Z) : double :=
  d_add (d_mul HASH_BUILD_TUPLE_COST (d_of_Z build_rows)) (d_mul HASH_PROBE_TUPLE_COST (d_of_Z probe_rows)).
Definition estimateEquiJoinSelectivity (left_ndv right_ndv : Z) : double :=
  d_div d_one (d_of_Z (Z.max 1 (Z.max left_ndv right_ndv))).

(** ** Access paths *)

Inductive AccessPathKind : Type := SeqScan | IndexScan.
#[export] Instance AccessPathKind_eq_dec : EqDecision AccessPathKind.
Proof. solve_decision. Defined.

Definition choose_access_path (row_count : Z) (has_index_path : bool) (equality_selectivity : double)
    : AccessPathKind * double :=
  let seq_cost := estimateSeqScanCost row_count in
  if negb has_index_path || (row_count =? 0) then (SeqScan, seq_cost)
  else
    let selectivity := if d_lt d_zero equality_selectivity then equality_selectivity
                       else d_div d_one (d_of_Z row_count) in
    let index_cost := estimateIndexScanCost row_count selectivity in
    if d_lt index_cost seq_cost then (IndexScan, index_cost) else (SeqScan, seq_cost).

(** ** Join methods *)

Inductive JoinMethodKind : Type := NestedLoop | IndexNestedLoop | HashJoin.
#[export] Instance JoinMethodKind_eq_dec : EqDecision JoinMethodKind.
Proof. solve_decision. Defined.

Definition joinMethodKindName (k : JoinMethodKind) : string :=
  match k with NestedLoop => "NestedLoop" | IndexNestedLoop => "IndexNestedLoop" | HashJoin => "HashJoin" end.

Record JoinMethodInput : Type := mkJoinInput {
  left_rows : Z;
  right_rows : Z;
  left_ndv : Z;
  right_ndv : Z;
  has_inner_index : bool;
  is_equi_inner : bool
}.
Record JoinMethodChoice : Type := mkChoice {
  jm_kind : JoinMethodKind;
  jm_cost : double;
  jm_build_on_left : bool
}.

Definition d_le (a b : double) : bool := SFleb a b.

Definition choose_join_method (input : JoinMethodInput) : JoinMethodChoice :=
  let l := left_rows input in
  let r := right_rows input in
  let lndv := if left_ndv input =? 0 then Z.max l 1 else left_ndv input in
  let rndv := if right_ndv input =? 0 then Z.max r 1 else right_ndv input in
  let selectivity := estimateEquiJoinSelectivity lndv rndv in
  let build_on_left := if l =? r then lndv <=? rndv else l <? r in
  let nested := mkChoice NestedLoop (estimateNestedLoopCost l r false) build_on_left in
  if negb (is_equi_inner input) then nested
  else
    let choice :=
      if has_inner_index input then
        let index_cost := estimateNestedLoopCost l r true in
        if d_le index_cost (jm_cost nested) then mkChoice IndexNestedLoop index_cost build_on_left else nested
      else nested in
    if Z.max l r <? HASH_JOIN_MIN_ROWS then choice
    else
      let hash_cost := estimateHashJoinCost (if build_on_left then l else r) (if build_on_left then r else l) in
      if d_lt hash_cost (jm_cost choice)
         || (bool_decide (jm_kind choice = NestedLoop) && d_lt selectivity d_one && d_le hash_cost (jm_cost choice))
      then mkChoice HashJoin hash_cost build_on_left
      else choice.

(** ** Statistics *)

Record ColumnStatistics : Type := mkColumnStats {
  cs_ndv : nat;
  cs_null_count : nat;
  cs_min : option value;
  cs_max : option value;
  cs_buckets : list Z
}.
Definition empty_column_stats : ColumnStatistics := mkColumnStats 0 0 None None [].
Definition DEFAULT_HISTOGRAM_BUCKETS : nat := 16.
Record TableStatsEntry : Type := mkTableStats {
  ts_row_count : nat;
  ts_columns : smap ColumnStatistics
}.
Abbreviation TableStatistics := (smap TableStatsEntry).

Definition toNumericDouble (v : value) : res double :=
  match v with VInt z => Ok (d_of_Z z) | _ => as_float v end.

(** One value of a column: the distinct values seen so far, and the counters. *)
Definition count_value (H : StdHash) (acc : list value * ColumnStatistics) (v : value)
    : list value * ColumnStatistics :=
  let '(seen, st) := acc in
  if is_null v then (seen, mkColumnStats (cs_ndv st) (S (cs_null_count st)) (cs_min st) (cs_max st) (cs_buckets st))
  else
    (if existsb (λ w, (hashValue H w =? hashValue H v) && value_eq w v) seen then seen else v :: seen,
     mkColumnStats (cs_ndv st) (cs_null_count st)
       (match cs_min st with Some m => if value_lt v m then Some v else Some m | None => Some v end)
       (match cs_max st with Some m => if value_gt v m then Some v else Some m | None => Some v end)
       (cs_buckets st)).

Definition buildEqualWidthBuckets (st : ColumnStatistics) (bucket_count : nat) : res (list Z) :=
  match cs_min st, cs_max st with
  | Some mn, Some mx =>
      if negb (is_numeric mn && is_numeric mx) then Ok []
      else
        mn ← toNumericDouble mn; mx ← toNumericDouble mx;
        Ok (if d_lt mn mx then replicate bucket_count 0 else [])
  | _, _ => Ok []
  end.

(** [static_cast<size_t>(d)]: truncation, undefined outside the range. *)
Definition d_to_size (d : double) : res Z :=
  match d with
  | S754_zero _ => Ok 0
  | S754_finite s m e =>
      let a := if 0 <=? e then Z.pos m * 2 ^ e else Z.pos m / 2 ^ (- e) in
      if (if s then a =? 0 else a <? 2 ^ 64) then Ok a else UB
  | _ => UB
  end.
Definition bucketIndexForValue (v mn mx : value) (bucket_count : nat) : res nat :=
  min_v ← toNumericDouble mn;
  max_v ← toNumericDouble mx;
  let width := d_div (d_sub max_v min_v) (d_of_Z (Z.of_nat bucket_count)) in
  if d_le width d_zero then Ok 0%nat
  else
    d ← toNumericDouble v;
    index ← d_to_size (d_div (d_sub d min_v) width);
    Ok (if Z.of_nat bucket_count <=? index then (bucket_count - 1)%nat else Z.to_nat index).

Definition count_bucket (mn mx : value) (buckets : list Z) (v : value) : res (list Z) :=
  if is_null v || negb (is_numeric v) then Ok buckets
  else b ← bucketIndexForValue v mn mx (length buckets); Ok (alter (λ n, n + 1) b buckets).

(** The first pass over a column's values, [unordered_set<Value>] as the list of
    its elements. *)
Definition column_statistics (H : StdHash) (vs : list value) : ColumnStatistics :=
  let '(seen, st) := foldl (count_value H) ([], empty_column_stats) vs in
  mkColumnStats (length seen) (cs_null_count st) (cs_min st) (cs_max st) [].

Section statistics.
Context {H : Type} {RH : RowHeap H} {Q : Type}.

(** The second pass, which reads the table again for each column that has buckets. *)
Definition fill_buckets (col : nat) (st : ColumnStatistics) : ST (Table H Q) ColumnStatistics :=
  buckets ← st_lift (buildEqualWidthBuckets st DEFAULT_HISTOGRAM_BUCKETS);
  match buckets, cs_min st, cs_max st with
  | _ :: _, Some mn, Some mx =>
      t ← st_get;
      rs ← st_map get_row (positions t);
      buckets ← st_lift (res_fold (λ bs row, v ← get_value row col; count_bucket mn mx bs v) buckets rs);
      mret (mkColumnStats (cs_ndv st) (cs_null_count st) (cs_min st) (cs_max st) buckets)
  | _, _, _ => mret (mkColumnStats (cs_ndv st) (cs_null_count st) (cs_min st) (cs_max st) buckets)
  end.

Definition refreshTable (SH : StdHash) (stats : TableStatistics) : ST (Table H Q) TableStatistics :=
  t ← st_get;
  rs ← st_map get_row (positions t);
  cols ← st_map (λ ic,
    vs ← st_lift (res_map (λ row, get_value row ic.1) rs);
    st ← fill_buckets ic.1 (column_statistics SH vs);
    mret (col_name ic.2, st)) (imap pair (columns t));
  mret (sm_set (table_name t)
    (mkTableStats (get_row_count t) (foldl (λ m c, sm_set c.1 c.2 m) [] cols)) stats).
End statistics.

Definition hasTable (stats : TableStatistics) (name : string) : bool := sm_has name stats.
Definition getRowCount (stats : TableStatistics) (name : string) : nat :=
  match sm_find name stats with Some e => ts_row_count e | None => 0%nat end.
Definition getColumnStatistics (stats : TableStatistics) (table column : string) : option ColumnStatistics :=
  e ← sm_find table stats; sm_find column (ts_columns e).

(** ** Join order *)

Record JoinRelation : Type := mkRelation {
  jr_table_name : string;
  jr_estimated_rows : Z;
  jr_has_indexed_equi_join : bool
}.

(** The cheapest relation not used yet, the first of equals; [best] starts at the
    largest double and at no relation. *)
Fixpoint cheapest (current_rows : Z) (used : list nat) (i : nat) (rels : list JoinRelation)
    (best : option nat) (best_cost : double) : option nat :=
  match rels with
  | [] => best
  | r :: rels =>
      let cost := estimateNestedLoopCost current_rows (jr_estimated_rows r) (jr_has_indexed_equi_join r) in
      if negb (bool_decide (i ∈ used)) && d_lt cost best_cost
      then cheapest current_rows used (S i) rels (Some i) cost
      else cheapest current_rows used (S i) rels best best_cost
  end.

Fixpoint extend_order (k : nat) (rels : list JoinRelation) (current_rows : Z) (order : list nat) : res (list nat) :=
  match k with
  | O => Ok order
  | S k =>
      match cheapest current_rows order 0 rels None d_max with
      | None => UB
      | Some i => extend_order k rels (Z.max 1 (current_rows / 2)) (order ++ [i])
      end
  end.

(** The relation with the fewest rows, the first of equals. *)
Fixpoint smallest (i best : nat) (best_rows : Z) (rels : list JoinRelation) : nat * Z :=
  match rels with
  | [] => (best, best_rows)
  | r :: rels =>
      if jr_estimated_rows r <? best_rows then smallest (S i) i (jr_estimated_rows r) rels
      else smallest (S i) best best_rows rels
  end.

Definition planLeftDeepOrder (rels : list JoinRelation) : res (list nat) :=
  match rels with
  | [] => Ok []
  | [_] => Ok [0%nat]
  | r :: rest =>
      if (6 <? length rels)%nat then Ok (seq 0 (length rels))
      else
        let '(start, rows) := smallest 1 0 (jr_estimated_rows r) rest in
        extend_order (length rest) rels rows [start]
  end.

(** ** Planning one join edge *)

Record EquiJoinPlan : Type := mkPlan {
  is_equi : bool;
  left_key_index : option nat;
  right_key_index : option nat;
  left_key_column : string;
  right_key_column : string;
  method : JoinMethodChoice
}.

Definition findBindingIndex (bs : list SelectColumnBinding) (column table_or_alias preferred_alias : string)
    : option nat :=
  let named b := bool_decide (column_name b = column) in
  let qualified b := bool_decide (table_or_alias = "") || bool_decide (alias b = table_or_alias)
    || bool_decide (physical_table b = table_or_alias) || bool_decide (alias b = preferred_alias) in
  match list_find (λ b, named b && qualified b = true) bs with
  | Some (i, _) => Some i
  | None => fst <$> list_find (λ b, named b = true) bs
  end.

(** [lookupNdv]; the statistics are those of the database after [ensureTableStatistics]. *)
Definition lookupNdv (stats : option TableStatistics) (table column : string) (fallback_rows : Z) : Z :=
  let fallback := if fallback_rows =? 0 then 1 else fallback_rows in
  match stats with
  | None => fallback
  | Some stats =>
      match getColumnStatistics stats table column with
      | Some st => if (cs_ndv st =? 0)%nat then fallback else Z.of_nat (cs_ndv st)
      | None => fallback
      end
  end.

Section plan.
Context {H : Type} {RH : RowHeap H} {Q : Type}.

Definition planEquiJoinMethod (stats : option TableStatistics) (left_table right_table : option (Table H Q))
    (left_alias right_alias : string) (on_expr : option (expr Q)) (left_rows right_rows : Z)
    (edge_bindings : list SelectColumnBinding) : EquiJoinPlan :=
  let no_plan equi := mkPlan equi None None "" ""
    (mkChoice NestedLoop (estimateNestedLoopCost left_rows right_rows false) (left_rows <=? right_rows)) in
  match left_table, right_table, on_expr with
  | Some lt, Some rt, Some on =>
      match try_extract_equi_join_columns on with
      | None => no_plan false
      | Some (ltn, lc, (rtn, rc)) =>
          let of_right name column :=
            (bool_decide (name = "") || bool_decide (name = table_name rt) || bool_decide (name = right_alias))
            && bool_decide (is_Some (get_column_index rt column)) in
          let plan lk rk :=
            match findBindingIndex edge_bindings lk.2 lk.1 left_alias, get_column_index rt rk with
            | Some li, Some ri =>
                mkPlan true (Some li) (Some ri) lk.2 rk
                  (choose_join_method (mkJoinInput left_rows right_rows
                    (lookupNdv stats (table_name lt) lk.2 left_rows)
                    (lookupNdv stats (table_name rt) rk right_rows) (has_index rt rk) true))
            | li, ri => mkPlan false li ri lk.2 rk (method (no_plan true))
            end in
          if of_right rtn rc then plan (ltn, lc) rc
          else if of_right ltn lc then plan (rtn, rc) lc
          else no_plan false
      end
  | _, _, _ => no_plan false
  end.
End plan.

(** An index scan is chosen from three rows on; one or two rows are read one by one. *)
Example index_scan_from_three_rows :
  (λ n, (choose_access_path n true (d_div d_one (d_of_Z n))).1) <$> [1; 2; 3; 100]
  = [SeqScan; SeqScan; IndexScan; IndexScan].
Proof. vm_compute. reflexivity. Qed.

Example join_order_sample :
  planLeftDeepOrder [mkRelation "a" 100 false; mkRelation "b" 10 false; mkRelation "c" 1000 true] = Ok [1; 2; 0]%nat.
Proof. vm_compute. reflexivity. Qed.

(** ** The join order is a permutation *)

Lemma cheapest_sound cr used rels : ∀ i best bc k,
  cheapest cr used i rels best bc = Some k → best = Some k ∨ (i ≤ k < i + length rels)%nat ∧ k ∉ used.
Proof.
  induction rels as [|r rels IH]; intros i best bc k Hk; simpl in *; [by left|].
  case_match eqn:Hc; apply IH in Hk as [Hk|[? ?]]; try by left.
  - simplify_eq. apply andb_true_iff in Hc as [Hc _]. apply negb_true_iff, bool_decide_eq_false in Hc.
    right. split; [lia|done].
  - right. split; [lia|done].
  - right. split; [lia|done].
Qed.

Lemma cheapest_complete cr used rels : ∀ i best bc,
  (is_Some best ∨ bc = d_max ∧ ∃ k r, rels !! k = Some r ∧ (i + k)%nat ∉ used
     ∧ d_lt (estimateNestedLoopCost cr (jr_estimated_rows r) (jr_has_indexed_equi_join r)) d_max = true) →
  is_Some (cheapest cr used i rels best bc).
Proof.
  induction rels as [|r rels IH]; intros i best bc H; simpl.
  - destruct H as [|(_ & k & r & Hk & _)]; [done|]. by rewrite lookup_nil in Hk.
  - case_match eqn:Hc; apply IH; [by left; eexists|].
    destruct H as [|(-> & k & r' & Hk & Hu & Hlt)]; [by left|]. right. split; [done|].
    destruct k as [|k]; simplify_eq/=.
    + rewrite Nat.add_0_r in Hu. by rewrite (bool_decide_eq_false_2 _ Hu), Hlt in Hc.
    + exists k, r'. rewrite Nat.add_succ_r in Hu. done.
Qed.

(** The row estimates of the outer side, one per step. *)
Fixpoint outer_rows (k : nat) (rows : Z) : Z :=
  match k with O => rows | S k => outer_rows k (Z.max 1 (rows / 2)) end.

Lemma exists_fresh (l : list nat) (n : nat) : (length l < n)%nat → ∃ f, (f < n)%nat ∧ f ∉ l.
Proof.
  intros Hl. destruct (decide (Forall (λ i, i ∈ l) (seq 0 n))) as [Ha|Hn].
  - assert (Hs : seq 0 n ⊆+ l) by (apply NoDup_submseteq; [apply NoDup_seq|by rewrite <- Forall_forall]).
    apply submseteq_length in Hs. rewrite length_seq in Hs. lia.
  - apply not_Forall_Exists in Hn; [|apply _]. apply Exists_exists in Hn as (f & Hf%elem_of_seq & Hx).
    exists f. split; [lia|done].
Qed.

Lemma extend_order_permutes rels k : ∀ rows order,
  (length order + k = length rels)%nat → NoDup order → (∀ i, i ∈ order → i < length rels)%nat →
  (∀ j r, j < k → r ∈ rels →
     d_lt (estimateNestedLoopCost (outer_rows j rows) (jr_estimated_rows r) (jr_has_indexed_equi_join r)) d_max
     = true)%nat →
  ∃ order', extend_order k rels rows order = Ok order' ∧ NoDup order' ∧ (∀ i, i ∈ order' → i < length rels)%nat
    ∧ length order' = length rels.
Proof.
  induction k as [|k IH]; intros rows order Hl Hnd Hin Hc; simpl.
  { exists order. repeat split; [done|done|lia]. }
  destruct (exists_fresh order (length rels)) as (f & Hf & Hu); [lia|].
  destruct (lookup_lt_is_Some_2 rels f Hf) as [r Hr].
  destruct (cheapest_complete rows order rels 0 None d_max) as [i Hi].
  { right. split; [done|]. exists f, r. repeat split; [done|done|].
    apply (Hc 0%nat); [lia|by eapply list_elem_of_lookup_2]. }
  rewrite Hi. apply cheapest_sound in Hi as [|[Hi1 Hi2]]; [done|].
  apply IH.
  - rewrite length_app; simpl; lia.
  - apply NoDup_app; split; [done|]; split; [set_solver|apply NoDup_singleton].
  - intros j [Hj|Hj%list_elem_of_singleton]%elem_of_app; [by apply Hin|lia].
  - intros j r' Hj Hr'. apply (Hc (S j)); [lia|done].
Qed.

Lemma smallest_bound rels : ∀ i best rows, (best < i)%nat → ((smallest i best rows rels).1 < i + length rels)%nat.
Proof.
  induction rels as [|r rels IH]; intros i best rows Hb; simpl; [lia|].
  case_match; [specialize (IH (S i) i (jr_estimated_rows r))|specialize (IH (S i) best rows)]; lia.
Qed.

(** The planner always returns an order, and it lists every relation exactly once,
    as long as no cost reaches the largest double. *)
Theorem planLeftDeepOrder_permutes rels :
  (∀ j r, (j < length rels)%nat → r ∈ rels →
     d_lt (estimateNestedLoopCost (outer_rows j (smallest 0 0 (default 0 (jr_estimated_rows <$> head rels)) rels).2)
       (jr_estimated_rows r) (jr_has_indexed_equi_join r)) d_max = true) →
  ∃ order, planLeftDeepOrder rels = Ok order ∧ order ≡ₚ seq 0 (length rels).
Proof.
  intros Hc. destruct rels as [|r [|r' rest]]; [by exists []|by exists [0%nat]|].
  unfold planLeftDeepOrder. case_match; [by eexists|].
  simpl in Hc. rewrite Z.ltb_irrefl in Hc.
  destruct (smallest 1 0 (jr_estimated_rows r) (r' :: rest)) as [start rows] eqn:Hs.
  pose proof (smallest_bound (r' :: rest) 1 0 (jr_estimated_rows r) ltac:(lia)) as Hb. rewrite Hs in Hb. simpl in Hb.
  destruct (extend_order_permutes (r :: r' :: rest) (length (r' :: rest)) rows [start]) as (o & Ho & Hnd & Hin & Hl).
  - simpl. lia.
  - apply NoDup_singleton.
  - intros i ->%list_elem_of_singleton. simpl. lia.
  - intros j x Hj Hx. simpl in Hj. rewrite <- (Hc j x ltac:(lia) Hx). simpl in Hs. by rewrite Hs.
  - exists o. split; [done|]. apply submseteq_length_Permutation; [|rewrite length_seq; lia].
    apply NoDup_submseteq; [done|]. intros i Hi%Hin. apply elem_of_seq. lia.
Qed.
