(* ===== verification/Scan.v ===== *)
(** * Reading one table: access paths and filters

    The file-local functions of src/executor/query_executor.cc that find the rows
    a WHERE condition selects: the candidates the indexes give, the choice between
    an index and a sequential scan, and the row numbers UPDATE and DELETE work on.

    A scan reads a table and evaluates conditions, which may lead back to the database
    that holds the table: it runs on a state that gives access to both ([ScanState]).  In
    the theorems of this file that is a table beside the state of the evaluator, in the
    executors the database, with the table behind its address.  The database, which may be
    the null pointer, gives the reader's transaction and the members of the evaluator. *)

From Stdlib Require Import ZArith Lia SpecFloat.
From stdpp Require Import sorting.
From S2P Require Import Prelude CppNum Values Rows Page PageStore BufferPool HeapFile RowHeap IndexKey BTree Transactions Expr Evaluator Partition Table TableSpec TableMaint TableProps Planner.
Import Table.

(** ** State *)

Section zoom.
Context {S T A : Type}.
Definition on_first (m : ST S A) : ST (S * T) A := λ st, let '(s, r) := m st.1 in ((s, st.2), r).
Definition on_second (m : ST T A) : ST (S * T) A := λ st, let '(t, r) := m st.2 in ((st.1, t), r).
End zoom.

(** The table a scan reads and the state its conditions are evaluated on, as parts of [S]. *)
Record ScanState (S T E : Type) : Type := mkScanState {
  scan_table A : ST T A → ST S A;
  scan_eval A : ST E A → ST S A
}.
Arguments mkScanState {S T E}.
Arguments scan_table {S T E} _ {A}.
Arguments scan_eval {S T E} _ {A}.

Definition beside {T E} : ScanState (T * E) T E := mkScanState (λ A, on_first) (λ A, on_second).

Section scan.
Context {H : Type} {RH : RowHeap H} {Q W : Type}.
Abbreviation St := (St W).
Abbreviation Evaluator Q := (Evaluator Q W).

(** What the executors read of the database. *)
Record DbContext : Type := mkContext {
  cx_scalar : bool → Q → ST St value;
  cx_in : value → Q → bool → ST (list Frame * W) bool;
  cx_exists : Q → ST (list Frame * W) bool;
  cx_bind : option (list value);
  cx_catalog : list (string * FunctionDefinition Q);
  cx_locals : option (gmap string value);
  cx_tm : TransactionManager;
  cx_xid : Z;
  cx_snapshot : option TransactionSnapshot
}.

(** ** Evaluators *)

Definition evaluator_for_table (t : Table H Q) (alias_for_refs : string) : Evaluator Q :=
  mkEvaluator (Q := Q) ((λ c, mkBinding alias_for_refs (table_name t) (col_name c)) <$> columns t)
    None None None false None None ∅ (clock t).
Definition evaluator_for_dml_table (t : Table H Q) : Evaluator Q := evaluator_for_table t (table_name t).

(** [bind_subquery_evaluators], [set_correlation_context] and [set_bind_context]. *)
Definition bind_evaluator (ev : Evaluator Q) (database : option DbContext) : Evaluator Q :=
  match database with
  | None => ev
  | Some cx =>
      mkEvaluator (Q := Q) (bindings ev) (Some (cx_scalar cx)) (Some (cx_in cx)) (Some (cx_exists cx)) true
        (cx_bind cx) (Some (cx_catalog cx)) (default (local_variables ev) (cx_locals cx)) (today ev)
  end.

(** ** Candidates *)

Definition predicate_matches_table (pred : IndexColumnPredicate) (t : Table H Q) (alias : string) : bool :=
  (bool_decide (pred_table pred = "") || bool_decide (pred_table pred = table_name t)
   || bool_decide (pred_table pred = alias))
  && bool_decide (is_Some (get_column_index t (pred_column pred))).

Definition lookup_predicate_rows (pred : IndexColumnPredicate) : ST (Table H Q) (list Z) :=
  t ← st_get;
  if negb (has_index t (pred_column pred)) then mret []
  else
    let lit := Some (pred_literal pred) in
    match pred_op pred with
    | Equal => find_rows_by_value (pred_column pred) (pred_literal pred)
    | Less => find_rows_by_range (pred_column pred) None true lit false
    | LessEqual => find_rows_by_range (pred_column pred) None true lit true
    | Greater => find_rows_by_range (pred_column pred) lit false None true
    | GreaterEqual => find_rows_by_range (pred_column pred) lit true None true
    end.

(** The literals of the equalities, the last one of a column. *)
Definition equal_by_column (preds : list IndexColumnPredicate) : smap value :=
  foldl (λ m p, if match pred_op p with Equal => true | _ => false end then sm_set (pred_column p) (pred_literal p) m else m) [] preds.

(** The literals of the columns up to the first one without. *)
Fixpoint key_prefix (equals : smap value) (columns : list string) : list value :=
  match columns with
  | [] => []
  | c :: columns =>
      match sm_find c equals with
      | Some v => v :: key_prefix equals columns
      | None => []
      end
  end.

(** The index with the longest prefix, the first of equals. *)
Definition best_index (equals : smap value) (indexes : smap (list string)) : option (string * IndexKey) :=
  foldl (λ best d,
    let components := key_prefix equals d.2 in
    if (match best with Some b => length b.2 | None => 0 end <? length components)%nat
    then Some (d.1, components) else best) None indexes.

(** [std::set<size_t>] of a vector, in order. *)
Definition to_set (l : list Z) : list Z := merge_sort Z.le (remove_dups l).

Definition intersect_pred (alias : string) (acc : option (list Z)) (pred : IndexColumnPredicate)
    : ST (Table H Q) (option (list Z)) :=
  t ← st_get;
  if negb (predicate_matches_table pred t alias) || negb (has_index t (pred_column pred)) then mret acc
  else
    rows ← lookup_predicate_rows pred;
    let current := to_set rows in
    mret (Some (match acc with
                | None => current
                | Some intersection => filter (λ i, i ∈ current) intersection
                end)).

Definition collect_candidate_rows (alias : string) (where_expr : option (expr Q))
    : ST (Table H Q) (option (list Z)) :=
  t ← st_get;
  match where_expr with
  | None => mret None
  | Some _ =>
      match extract_index_predicates where_expr with
      | None | Some [] => mret None
      | Some preds =>
          let equals := equal_by_column (filter (λ p, predicate_matches_table p t alias = true) preds) in
          match best_index equals (secondary_indexes t) with
          | Some (index_name, key) => ids ← find_rows_by_index_key index_name key; mret (Some ids)
          | None => st_fold (intersect_pred alias) None preds
          end
      end
  end.

(** ** Scans *)

Definition visible_indices (database : option DbContext) : ST (Table H Q) (list nat) :=
  match database with
  | Some cx => get_visible_row_indices (cx_tm cx) (cx_xid cx) (cx_snapshot cx)
  | None => gets positions
  end.

(** The candidates the reader sees. *)
Definition visible_candidates (visible : list nat) (candidates : list Z) : list nat :=
  Z.to_nat <$> filter (λ i, i ∈ Z.of_nat <$> visible) candidates.

Section on_state.
Context {S : Type} (z : ScanState S (Table H Q) St).

Definition matches (depth : nat) (ev : Evaluator Q) (where_expr : option (expr Q)) (i : nat)
    : ST S (Row * bool) :=
  row ← scan_table z (get_row i);
  b ← scan_eval z (evaluate_condition depth ev row where_expr);
  mret (row, b).

Definition filter_rows (depth : nat) (ev : Evaluator Q) (where_expr : option (expr Q)) (indices : list nat)
    : ST S (list Row) :=
  st_fold (λ acc i, rb ← matches depth ev where_expr i; mret (if rb.2 : bool then acc ++ [rb.1] else acc)) [] indices.

Definition filter_rows_with_index (depth : nat) (alias : string) (where_expr : option (expr Q))
    (ev : Evaluator Q) (database : option DbContext) : ST S (list Row) :=
  visible ← scan_table z (visible_indices database);
  candidates ← scan_table z (collect_candidate_rows alias where_expr);
  row_count ← scan_table z (gets (λ t, Z.of_nat (get_row_count t)));
  let selectivity := if row_count =? 0 then d_one else d_div d_one (d_of_Z row_count) in
  let path := choose_access_path row_count (bool_decide (is_Some candidates)) selectivity in
  match candidates, path.1 with
  | Some candidates, IndexScan => filter_rows depth ev where_expr (visible_candidates visible candidates)
  | _, _ => filter_rows depth ev where_expr visible
  end.

(** ** The rows UPDATE and DELETE change *)

Definition matching_indices (depth : nat) (ev : Evaluator Q) (where_expr : option (expr Q)) (indices : list nat)
    : ST S (list nat) :=
  st_filter (λ i, row_count ← scan_table z (gets get_row_count);
    if (row_count <=? i)%nat then mret false
    else rb ← matches depth ev where_expr i; mret rb.2) indices.

(** [collect_matching_indices] of both executors, which use an index whenever there is one. *)
Definition collect_matching_indices (depth : nat) (where_expr : option (expr Q)) (database : option DbContext)
    : ST S (list nat) :=
  t ← scan_table z st_get;
  visible ← scan_table z (visible_indices database);
  indexed ← scan_table z (collect_candidate_rows (table_name t) where_expr);
  matching_indices depth (bind_evaluator (evaluator_for_dml_table t) database) where_expr
    (match indexed with Some candidates => visible_candidates visible candidates | None => visible end).
End on_state.
End scan.

(** ** Running a scan *)

Section judgment.
Context {H : Type} {RH : RowHeap H} {RS : RowHeapSpec H} {Q W : Type}.
Context (n : nat) (t : Table H Q) (rows : list Row) (s : St W).

(** [m] has the outcome [r] and changes nothing but the state of the heap. *)
Definition scans {A} (m : ST (Table H Q * St W) A) (r : res A) : Prop :=
  ∀ h, holds_rows n (with_heap h t) rows →
  ∃ h', m (with_heap h t, s) = ((with_heap h' t, s), r) ∧ holds_rows n (with_heap h' t) rows.

Lemma scans_ret {A} (a : A) : scans (mret a) (Ok a).
Proof. intros h Hh. by exists h. Qed.
Lemma scans_bind {A B} (m : ST _ A) (f : A → ST _ B) a r : scans m (Ok a) → scans (f a) r → scans (m ≫= f) r.
Proof. intros Hm Hf h Hh. destruct (Hm h Hh) as (h1 & E & Hh1). rewrite ST_bind_eq, E. by apply Hf. Qed.
Lemma scans_table {A} (m : ST (Table H Q) A) r : runs n t rows m r → scans (scan_table beside m) r.
Proof.
  intros Hm h Hh. destruct (Hm h Hh) as (h' & E & Hh'). exists h'. split; [|done].
  cbn [scan_table beside]. unfold on_first. cbn [fst snd]. by rewrite E.
Qed.
Lemma scans_eval {A} (m : ST (St W) A) r : m s = (s, r) → scans (scan_eval beside m) r.
Proof. intros Hm h Hh. exists h. split; [|done]. cbn [scan_eval beside]. unfold on_second. cbn [fst snd]. by rewrite Hm. Qed.

Lemma scans_get {B} (f : Table H Q → ST _ B) r : (∀ h, scans (f (with_heap h t)) r) → scans (scan_table beside st_get ≫= f) r.
Proof. intros Hf h Hh. rewrite ST_bind_eq. cbn [scan_table beside on_first st_get fst snd]. by apply (Hf h). Qed.

Lemma scans_fold {A B} (f : B → A → ST _ B) (g : B → A → B) l : ∀ acc,
  (∀ x acc, x ∈ l → scans (f acc x) (Ok (g acc x))) → scans (st_fold f acc l) (Ok (foldl g acc l)).
Proof.
  induction l as [|x l IH]; intros acc Hl; cbn [st_fold foldl]; [apply scans_ret|].
  eapply scans_bind; [apply Hl; left|]. apply IH. intros y acc' Hy. apply Hl. by right.
Qed.

Lemma scans_filter {A} (f : A → ST _ bool) (g : A → bool) l :
  (∀ x, x ∈ l → scans (f x) (Ok (g x))) → scans (st_filter f l) (Ok (filter (λ x, g x = true) l)).
Proof.
  intros Hl. unfold st_filter. rewrite <- (app_nil_l (filter _ l)), <- foldl_filter.
  apply (scans_fold _ (λ acc x, if g x then acc ++ [x] else acc)). intros x acc Hx.
  eapply scans_bind; [by apply Hl|]. apply scans_ret.
Qed.

Lemma scans_at {A} (m : ST _ A) r : scans m r → holds_rows n t rows →
  ∃ h, m (t, s) = ((with_heap h t, s), r) ∧ holds_rows n (with_heap h t) rows.
Proof. intros Hm Hh. specialize (Hm (heap t)). rewrite with_heap_id in Hm. by apply Hm. Qed.
End judgment.

(** ** What the indexes return *)

Lemma rows_where_elem test kvs i : i ∈ rows_where test kvs ↔ ∃ k, (k, i) ∈ kvs ∧ test k = true.
Proof.
  unfold rows_where. rewrite list_elem_of_omap. split.
  - intros ([k j] & Hin & E). cbn [fst snd] in E. destruct (test k) eqn:Et; simplify_eq. eauto.
  - intros (k & Hin & Et). exists (k, i). cbn [fst snd]. by rewrite Et.
Qed.

Lemma rows_where_sublist test kvs : rows_where test kvs `sublist_of` kvs.*2.
Proof.
  induction kvs as [|[k i] kvs IH]; [constructor|]. unfold rows_where. cbn [omap list_omap fst snd fmap list_fmap].
  destruct (test k); by constructor.
Qed.

Section lookups.
Context {H : Type} {RH : RowHeap H} {RS : RowHeapSpec H} {Q : Type}.
Context (n : nat) (ks : list (option kind)) (t : Table H Q) (rows : list Row).
Context (Hok : table_ok n ks t rows) (Hbuilt : built t).
Abbreviation runs := (runs n t rows).

(** The value of a column in a row. *)
Definition cell (row : Row) (name : string) : value :=
  default VNull (i ← get_column_index t name; row_values row !! i).

Lemma row_key_cells cols row :
  typed_values ks row → indexable t ks cols → row_key t cols row = cell row <$> cols.
Proof.
  intros Hty [_ [kk Hk%mapM_Some]]. unfold row_key.
  assert (build_index_key t row cols = Ok (cell row <$> cols)) as ->; [|done]. unfold build_index_key.
  induction Hk as [|c k cols kk Hc _ IH]; [done|]. cbn [res_map fmap list_fmap]. rewrite IH. unfold cell at 2.
  destruct (get_column_index t c) as [i|]; [|done]. cbn [mbind option_bind] in *.
  destruct (ks !! i) as [o|] eqn:Hi; [|done]. destruct (Forall2_lookup_l _ _ _ _ _ Hty Hi) as (v & Hv & _).
  unfold get_value. by rewrite Hv.
Qed.

Lemma key_pairs_elem cols k i :
  (k, i) ∈ key_pairs t cols rows ↔ ∃ j row, i = Z.of_nat j ∧ rows !! j = Some row ∧ k = row_key t cols row.
Proof. unfold key_pairs. rewrite elem_of_lookup_imap. naive_solver. Qed.

Lemma key_pairs_ids cols : (key_pairs t cols rows).*2 = Z.of_nat <$> seq 0 (length rows).
Proof.
  unfold key_pairs. rewrite fmap_imap. cbn.
  assert (∀ (l : list Row) k, imap (λ i _, Z.of_nat (k + i)) l = Z.of_nat <$> seq k (length l)) as Hgo.
  { induction l as [|r l IH]; intros k; [done|]. cbn. f_equal; [f_equal; lia|]. rewrite <- IH. apply imap_ext.
    intros. cbn. f_equal. lia. }
  apply (Hgo rows 0%nat).
Qed.

Lemma lookup_nodup test cols : NoDup (rows_where test (key_pairs t cols rows)).
Proof.
  eapply sublist_NoDup; [|apply rows_where_sublist]. rewrite key_pairs_ids.
  apply NoDup_fmap_2; [apply _|apply NoDup_seq].
Qed.

Lemma lookup_solid_nodup test cols : NoDup (rows_where test (solid (key_pairs t cols rows))).
Proof.
  eapply sublist_NoDup; [|apply rows_where_sublist]. eapply sublist_NoDup; [|apply fmap_sublist, sublist_filter].
  rewrite key_pairs_ids. apply NoDup_fmap_2; [apply _|apply NoDup_seq].
Qed.

(** The rows that satisfy [P] are among [ids]. *)
Definition covers (ids : list Z) (P : Row → Prop) : Prop :=
  ∀ j row, rows !! j = Some row → P row → Z.of_nat j ∈ ids.
(** The literal is of the kind of the column. *)
Definition fits_column (c : string) (v : value) : Prop :=
  ∃ i k, get_column_index t c = Some i ∧ ks !! i = Some (Some k) ∧ has_kind k v.
Definition null_free (cols : list string) : Prop :=
  ∀ row, row ∈ rows → Forall (λ c, is_null (cell row c) = false) cols.
(** No row has a NULL in a column of an index on several columns. *)
Definition composite_null_free : Prop :=
  ∀ d, d ∈ secondary_indexes t → (1 < length d.2)%nat → null_free d.2.

Lemma row_typed j row : rows !! j = Some row → typed_values ks row.
Proof. intros Hj. pose proof (to_typed _ _ _ _ Hok) as Hty. rewrite Forall_forall in Hty. by eapply Hty, list_elem_of_lookup_2. Qed.

(** The kind of a column: literal and cells are of it. *)
Lemma fits_kinds c v : fits_column c v → ∃ k, cols_kinds t ks [c] = Some [k] ∧ has_kind k v ∧
  ∀ row, typed_values ks row → cell row c = VNull ∨ has_kind k (cell row c).
Proof.
  intros (i & k & Hi & Hk & Hv). exists k. split; [unfold cols_kinds; cbn; rewrite Hi; cbn; by rewrite Hk|].
  split; [done|]. intros row Hty. destruct (Forall2_lookup_l _ _ _ _ _ Hty Hk) as (w & Hw & Hvt).
  unfold cell. rewrite Hi. cbn. by rewrite Hw.
Qed.

Lemma eq_cell row c v : typed_values ks row → fits_column c v → value_eq (cell row c) v = true → cell row c = v.
Proof.
  intros Hty Hf E. destruct (fits_kinds c v Hf) as (k & _ & Hk & Hcell).
  destruct (Hcell row Hty) as [Hn|Hc]; [rewrite Hn in E; by destruct k, v|].
  by apply (value_eq_iff k).
Qed.

Lemma agrees_prefix cols idx prefix kk :
  cols_kinds t ks cols = Some kk → agrees t cols rows idx → index_key kk prefix →
  ∃ ids, find_prefix idx prefix = Ok ids ∧
    ids ≡ₚ rows_where (λ k, starts_with k prefix) (solid (key_pairs t cols rows)).
Proof.
  intros Hk Hag Hp. pose proof (solid_typed t ks cols kk rows (to_typed _ _ _ _ Hok) Hk) as Hs.
  destruct (build_ok kk _ Hs) as (_ & _ & _ & Ho). eexists. split; [by apply (find_prefix_ok kk)|].
  by apply (al_build_collect kk).
Qed.

Lemma agrees_range cols idx lower li upper ui kk :
  cols_kinds t ks cols = Some kk → agrees t cols rows idx → (∀ u, upper = Some u → typed_key kk u) →
  ∃ ids, find_range idx lower li upper ui = Ok ids ∧
    ids ≡ₚ rows_where (in_range lower li upper ui) (solid (key_pairs t cols rows)).
Proof.
  intros Hk Hag Hu. pose proof (solid_typed t ks cols kk rows (to_typed _ _ _ _ Hok) Hk) as Hs.
  destruct (build_ok kk _ Hs) as (_ & _ & _ & Ho). eexists. split; [by apply (find_range_ok (typed_key kk))|].
  by apply (al_build_collect kk).
Qed.

(** A row whose key has no NULL is in the index. *)
Lemma solid_elem test cols j row :
  rows !! j = Some row → indexable t ks cols → Forall (λ c, is_null (cell row c) = false) cols →
  test (cell row <$> cols) = true → Z.of_nat j ∈ rows_where test (solid (key_pairs t cols rows)).
Proof.
  intros Hj Hix Hn Ht. apply rows_where_elem. exists (cell row <$> cols). split; [|done].
  apply list_elem_of_filter. cbn [fst]. split.
  - destruct Hix as [Hne _]. assert (key_empty (cell row <$> cols) = false) as -> by (by destruct cols). rewrite orb_false_r.
    apply not_true_iff_false. unfold key_has_null. intros (v & Hv & Hnv)%existsb_exists.
    apply list_elem_of_In, list_elem_of_fmap in Hv as (c' & -> & Hc'). rewrite Forall_forall in Hn. by rewrite Hn in Hnv.
  - apply key_pairs_elem. exists j, row. split; [done|]. split; [done|]. symmetry.
    apply row_key_cells; [by eapply row_typed|done].
Qed.

Lemma key_elem cols j row key :
  rows !! j = Some row → indexable t ks cols → key_eq (cell row <$> cols) key = true →
  Z.of_nat j ∈ rows_with_key t cols rows key.
Proof.
  intros Hj Hix He. apply rows_where_elem. exists (cell row <$> cols). split; [|done].
  apply key_pairs_elem. exists j, row. split; [done|]. split; [done|]. symmetry.
  apply row_key_cells; [by eapply row_typed|done].
Qed.

(** *** Lookups by key *)

Section by_key.
Context (Hnf : composite_null_free).

Lemma secondary_agrees d idx : d ∈ secondary_indexes t → sm_find d.1 (named_indices t) = Some idx →
  indexable t ks d.2 ∧ agrees t d.2 rows idx.
Proof.
  intros Hd Hi. split; [by apply (so_secondary _ _ (to_schema _ _ _ _ Hok))|].
  eapply (io_named _ _ (to_indexes _ _ _ _ Hok)); [apply elem_of_app; by left|done].
Qed.

Lemma prefix_kinds equals : (∀ c v, sm_find c equals = Some v → fits_column c v) →
  ∀ cols kk, cols_kinds t ks cols = Some kk → typed_key kk (key_prefix equals cols).
Proof.
  intros Hf cols kk Hk%mapM_Some. induction Hk as [|c k cols kk Hc _ IH]; [done|]. cbn [key_prefix].
  destruct (sm_find c equals) as [v|] eqn:E; [|done]. split; [|done].
  destruct (Hf c v E) as (i & k' & Hi & Hki & Hv). rewrite Hi in Hc. cbn in Hc. rewrite Hki in Hc. by simplify_eq/=.
Qed.

Lemma prefix_starts equals row : (∀ c v, sm_find c equals = Some v → value_eq (cell row c) v = true) →
  ∀ cols, starts_with (cell row <$> cols) (key_prefix equals cols) = true.
Proof.
  intros He. induction cols as [|c cols IH]; [done|]. cbn [key_prefix]. destruct (sm_find c equals) as [v|] eqn:E; [|done].
  cbn [starts_with fmap list_fmap]. unfold value_ne. by rewrite (He c v E).
Qed.

Lemma prefix_length equals cols : (length (key_prefix equals cols) ≤ length cols)%nat.
Proof. induction cols as [|c cols IH]; [done|]. cbn [key_prefix]. destruct (sm_find c equals); cbn; lia. Qed.

Lemma starts_with_full : ∀ a b, length a = length b → starts_with a b = key_eq a b.
Proof.
  unfold key_eq. induction a as [|x a IH]; intros [|y b] Hl; try done. cbn [starts_with values_eq].
  destruct (value_ne x y); [done|]. apply IH. by injection Hl.
Qed.

(** The prefix of a secondary index that the equalities fix. *)
Lemma runs_index_key d equals :
  d ∈ secondary_indexes t → (∀ c v, sm_find c equals = Some v → fits_column c v) → key_prefix equals d.2 ≠ [] →
  ∃ ids, runs (find_rows_by_index_key d.1 (key_prefix equals d.2)) (Ok ids) ∧ NoDup ids ∧
    covers ids (λ row, ∀ c v, sm_find c equals = Some v → value_eq (cell row c) v = true).
Proof.
  intros Hd Hf Hne. pose proof (so_defs _ _ (to_schema _ _ _ _ Hok)) as [Hnd _]%NoDup_app.
  destruct (proj2 (bt_named _ Hbuilt d.1)) as [idx Hidx].
  { apply elem_of_app. left. by apply list_elem_of_fmap_2. }
  destruct (secondary_agrees d idx Hd Hidx) as [Hix Hag]. pose proof Hix as [_ [kk Hk]].
  assert (index_key kk (key_prefix equals d.2)) as Hkey by (split; [by apply prefix_kinds|done]).
  pose proof (prefix_length equals d.2) as Hlen.
  assert (∀ idsr, (∀ h, find_rows_by_index_key d.1 (key_prefix equals d.2) (with_heap h t) = (with_heap h t, idsr)) →
    runs (find_rows_by_index_key d.1 (key_prefix equals d.2)) idsr) as Hrun by (intros r Hr h Hh; exists h; by rewrite Hr).
  unfold find_rows_by_index_key in *. 
  destruct (decide (length (key_prefix equals d.2) = length d.2)) as [El|Hlt].
  - exists (rows_with_key t d.2 rows (key_prefix equals d.2)). split_and!.
    + apply Hrun. intros h. rewrite ST_bind_eq. cbn [st_get named_indices secondary_indexes with_heap].
      rewrite Hidx, (sm_find_nodup _ _ Hnd Hd), El, Nat.eqb_refl.
      by rewrite (agrees_find t ks d.2 kk rows idx) by (done || apply (to_typed _ _ _ _ Hok)).
    + apply lookup_nodup.
    + intros j row Hj He. apply (key_elem _ _ row); [done|done|]. rewrite <- starts_with_full by (by rewrite length_fmap).
      by apply prefix_starts.
  - destruct (agrees_prefix d.2 idx _ kk Hk Hag Hkey) as (ids & Eids & Hperm). exists ids. split_and!.
    + apply Hrun. intros h. rewrite ST_bind_eq. cbn [st_get named_indices secondary_indexes with_heap].
      rewrite Hidx, (sm_find_nodup _ _ Hnd Hd), (proj2 (Nat.eqb_neq _ _) Hlt), (proj2 (Nat.ltb_lt _ _)) by lia.
      by rewrite Eids.
    + rewrite Hperm. apply lookup_solid_nodup.
    + intros j row Hj He. rewrite Hperm. apply (solid_elem _ _ _ row); [done|done| |by apply prefix_starts].
      refine (Hnf d Hd _ row _); [|by eapply list_elem_of_lookup_2]. destruct (key_prefix equals d.2); [done|]. cbn in *. lia.
Qed.

Lemma leading_index_elem name defs cols idx : leading_index t name defs = Some (cols, idx) →
  ∃ iname rest, (iname, cols) ∈ defs ∧ cols = name :: rest ∧ sm_find iname (named_indices t) = Some idx.
Proof.
  induction defs as [|[iname cs] defs IH]; [done|]. cbn [leading_index].
  assert (leading_index t name defs = Some (cols, idx) →
    ∃ iname' rest, (iname', cols) ∈ (iname, cs) :: defs ∧ cols = name :: rest ∧ sm_find iname' (named_indices t) = Some idx) as Hr.
  { intros (i & rest & Hin & ? & ?)%IH. exists i, rest. split; [by right|done]. }
  destruct cs as [|c cs]; [done|]. case_bool_decide as E; [|done].
  destruct (sm_find iname (named_indices t)) as [idx'|] eqn:Ei; [|done]. intros [= <- <-]. subst.
  exists iname, cs. split; [left|done].
Qed.

Lemma leading_index_heap h name defs : leading_index (with_heap h t) name defs = leading_index t name defs.
Proof. induction defs as [|[iname cs] defs IH]; [done|]. cbn [leading_index named_indices with_heap]. by rewrite IH. Qed.

(** A scan of all rows. *)
Lemma runs_scan_cells c (test : value → bool) i : get_column_index t c = Some i →
  runs (is' ← st_filter (λ j, row ← get_row j; v ← st_lift (get_value row i); mret (test v)) (positions t);
        mret (Z.of_nat <$> is'))
    (Ok (Z.of_nat <$> filter (λ j, match rows !! j with Some row => test (cell row c) | None => false end = true)
                        (seq 0 (length rows)))).
Proof.
  intros Hi. unfold positions. rewrite (holds_dir _ _ _ (to_holds _ _ _ _ Hok)).
  eapply runs_bind; [|apply runs_ret]. apply (runs_filter n t rows _ (λ j, match rows !! j with Some row => test (cell row c) | None => false end)).
  intros j [_ Hj]%elem_of_seq. destruct (lookup_lt_is_Some_2 rows j Hj) as [row Hrow]. rewrite Hrow.
  eapply runs_bind; [by apply runs_get_row|]. unfold cell. rewrite Hi. cbn [mbind option_bind].
  pose proof (row_typed j row Hrow) as Hty. 
  assert (is_Some (row_values row !! i)) as [v Hv].
  { apply lookup_lt_is_Some. rewrite <- (Forall2_length _ _ _ Hty), (so_kinds _ _ (to_schema _ _ _ _ Hok)).
    unfold get_column_index in Hi. clear -Hi. revert i Hi. induction (columns t) as [|c0 cs IH]; intros i; [done|].
    cbn [column_index_in]. case_bool_decide; [intros [= <-]; cbn; lia|].
    destruct (column_index_in c cs) as [k|]; [|done]. intros [= <-]. cbn. specialize (IH k eq_refl). lia. }
  rewrite Hv. unfold get_value. rewrite Hv. eapply runs_bind; [apply runs_lift|]. apply runs_ret.
Qed.

Lemma covers_scan c (test : value → bool) :
  covers (Z.of_nat <$> filter (λ j, match rows !! j with Some row => test (cell row c) | None => false end = true)
                        (seq 0 (length rows))) (λ row, test (cell row c) = true).
Proof.
  intros j row Hj Ht. apply list_elem_of_fmap_2, list_elem_of_filter. rewrite Hj. split; [done|].
  apply elem_of_seq. apply lookup_lt_Some in Hj. lia.
Qed.

Lemma runs_pure {A} (m : ST (Table H Q) A) r : (∀ h, m (with_heap h t) = (with_heap h t, r)) → runs m r.
Proof. intros Hm h Hh. exists h. by rewrite Hm. Qed.

Lemma covers_weaken ids (P P' : Row → Prop) : (∀ j row, rows !! j = Some row → P' row → P row) → covers ids P → covers ids P'.
Proof. intros HP Hc j row Hj Hp. apply (Hc j row Hj). by eapply HP. Qed.

Lemma runs_value c v : fits_column c v →
  ∃ ids, runs (find_rows_by_value c v) (Ok ids) ∧ covers ids (λ row, value_eq (cell row c) v = true).
Proof.
  intros Hf. pose proof Hf as (i & k & Hi & Hk & Hv). destruct (fits_kinds c v Hf) as (k' & Hkk & Hv' & _).
  assert (index_key [k'] [v]) as Hkey by done.
  assert (Hci : indexable t ks [c]) by (split; [done|eauto]).
  assert (∀ cols idx, agrees t (c :: cols) rows idx → indexable t ks (c :: cols) → cols = [] ∨ null_free (c :: cols) →
    ∃ ids, (if decide (cols = []) then find_equal idx [v] else find_prefix idx [v]) = Ok ids ∧
      covers ids (λ row, value_eq (cell row c) v = true)) as Hidx.
  { intros cols idx Hag Hix Hnull. case_decide as Ec.
    - subst cols. exists (rows_with_key t [c] rows [v]). split.
      + apply (agrees_find t ks [c] [k']); try done. apply (to_typed _ _ _ _ Hok).
      + intros j row Hj He. apply (key_elem _ _ row); [done|done|]. unfold key_eq. cbn. unfold value_ne. by rewrite He.
    - destruct Hnull as [|Hnull]; [done|]. pose proof Hix as [_ [kk Hkk']].
      destruct (agrees_prefix (c :: cols) idx [v] kk Hkk' Hag) as (ids & E & Hp).
      { split; [|done]. apply mapM_Some in Hkk'. inversion Hkk' as [|? k2 ? kk' Hc2]; subst. split; [|by destruct kk'].
        rewrite Hi in Hc2. cbn in Hc2. rewrite Hk in Hc2. by simplify_eq/=. }
      exists ids. split; [done|]. intros j row Hj He. rewrite Hp. apply (solid_elem _ _ _ row); [done|done| |].
      + apply Hnull. by eapply list_elem_of_lookup_2.
      + cbn [starts_with fmap list_fmap]. unfold value_ne. rewrite He. cbn [negb]. by destruct (cell row <$> cols). }
  destruct (sm_find c (column_indices t)) as [idx|] eqn:Ec.
  { destruct (Hidx [] idx) as (ids & E & Hc); [by apply (io_column _ _ (to_indexes _ _ _ _ Hok))|done|by left|].
    exists ids. split; [|done]. apply runs_pure. intros h. unfold find_rows_by_value. rewrite ST_bind_eq. cbn [st_get].
    change (get_column_index (with_heap h t) c) with (get_column_index t c). rewrite Hi. cbn [column_indices with_heap].
    by rewrite Ec, <- E. }
  destruct (leading_index t c (secondary_indexes t)) as [[cols idx]|] eqn:El.
  - pose proof El as (iname & rest & Hin & -> & Hnm)%leading_index_elem.
    destruct (secondary_agrees (iname, c :: rest) idx Hin Hnm) as [Hix Hag].
    destruct (Hidx rest idx Hag Hix) as (ids & E & Hc).
    { destruct rest; [by left|right]. apply (Hnf _ Hin). cbn. lia. }
    exists ids. split; [|done]. apply runs_pure. intros h. unfold find_rows_by_value. rewrite ST_bind_eq. cbn [st_get].
    change (get_column_index (with_heap h t) c) with (get_column_index t c). rewrite Hi. cbn [column_indices with_heap].
    rewrite Ec, leading_index_heap. cbn [secondary_indexes with_heap]. rewrite El, <- E.
    by destruct rest.
  - eexists. split; [|apply (covers_scan c (λ w, value_eq w v))]. apply runs_get. intros h.
    change (get_column_index (with_heap h t) c) with (get_column_index t c). rewrite Hi. cbn [column_indices with_heap].
    rewrite Ec, leading_index_heap. cbn [secondary_indexes with_heap]. rewrite El.
    by apply (runs_scan_cells c (λ w, value_eq w v)).
Qed.

Lemma key_lt_single v w : key_lt [v] [w] = value_lt v w.
Proof. cbn [key_lt]. destruct (value_lt v w); [done|]. by destruct (value_lt w v). Qed.

Lemma in_range_bounds v lower li upper ui : is_null v = false →
  in_range (key_of_value <$> lower) li (key_of_value <$> upper) ui [v] = in_bounds v lower li upper ui.
Proof.
  intros Hn. unfold in_range, in_bounds, passes_lower, passes_upper, key_of_value. rewrite Hn.
  by destruct lower, upper; cbn [fmap option_fmap option_map negb andb]; rewrite ?key_lt_single.
Qed.

Lemma runs_range c lower li upper ui :
  (∃ i, get_column_index t c = Some i) → (∀ u, upper = Some u → fits_column c u) →
  ∃ ids, runs (find_rows_by_range c lower li upper ui) (Ok ids) ∧
    covers ids (λ row, in_bounds (cell row c) lower li upper ui = true).
Proof.
  intros [i Hi] Hu.
  assert (∀ idx, agrees t [c] rows idx → indexable t ks [c] → ∃ ids,
    find_range idx (key_of_value <$> lower) li (key_of_value <$> upper) ui = Ok ids ∧
    covers ids (λ row, in_bounds (cell row c) lower li upper ui = true)) as Hidx.
  { intros idx Hag Hix. pose proof Hix as [_ [kk Hk]].
    destruct (agrees_range [c] idx (key_of_value <$> lower) li (key_of_value <$> upper) ui kk Hk Hag) as (ids & E & Hp).
    { intros u (u' & -> & ->)%fmap_Some. destruct (fits_kinds c u' (Hu u' eq_refl)) as (k & Hk' & Hv & _).
      rewrite Hk' in Hk. simplify_eq. done. }
    exists ids. split; [done|]. intros j row Hj Hb. rewrite Hp.
    assert (is_null (cell row c) = false) as Hn by (unfold in_bounds in Hb; by destruct (is_null (cell row c))).
    apply (solid_elem _ _ _ row); [done|done|by constructor|]. change (cell row <$> [c]) with [cell row c].
    by rewrite in_range_bounds. }
  destruct (sm_find c (column_indices t)) as [idx|] eqn:Ec.
  { destruct (Hidx idx) as (ids & E & Hc); [by apply (io_column _ _ (to_indexes _ _ _ _ Hok))| |].
    { apply (so_column _ _ (to_schema _ _ _ _ Hok)). eauto. }
    exists ids. split; [|done]. apply runs_pure. intros h. unfold find_rows_by_range. rewrite ST_bind_eq. cbn [st_get].
    change (get_column_index (with_heap h t) c) with (get_column_index t c). rewrite Hi. cbn [column_indices with_heap].
    by rewrite Ec, <- E. }
  destruct (leading_index t c (filter (λ d, length d.2 = 1%nat) (secondary_indexes t))) as [[cols idx]|] eqn:El.
  - pose proof El as (iname & rest & [Hl Hin]%list_elem_of_filter & -> & Hnm)%leading_index_elem.
    destruct rest; [|done].
    destruct (secondary_agrees (iname, [c]) idx Hin Hnm) as [Hix Hag].
    destruct (Hidx idx Hag Hix) as (ids & E & Hc).
    exists ids. split; [|done]. apply runs_pure. intros h. unfold find_rows_by_range. rewrite ST_bind_eq. cbn [st_get].
    change (get_column_index (with_heap h t) c) with (get_column_index t c). rewrite Hi. cbn [column_indices with_heap].
    rewrite Ec, leading_index_heap. cbn [secondary_indexes with_heap]. by rewrite El, <- E.
  - eexists. split; [|apply (covers_scan c (λ w, in_bounds w lower li upper ui))]. apply runs_get. intros h.
    change (get_column_index (with_heap h t) c) with (get_column_index t c). rewrite Hi. cbn [column_indices with_heap].
    rewrite Ec, leading_index_heap. cbn [secondary_indexes with_heap]. rewrite El.
    by apply (runs_scan_cells c (λ w, in_bounds w lower li upper ui)).
Qed.

(** *** Lookups by predicate *)

(** An order test from above is not made on a NULL, which the sequential scan
    would accept and the index does not hold. *)
Definition null_safe (p : IndexColumnPredicate) : Prop :=
  pred_op p = Less ∨ pred_op p = LessEqual → null_free [pred_column p].

(** What the bounds of the range search mean for the predicate. *)
Lemma pred_bounds p k v : has_kind k (pred_literal p) →
  v = VNull ∧ pred_op p ≠ Less ∧ pred_op p ≠ LessEqual ∨ has_kind k v → pred_holds p v = true →
  let lit := Some (pred_literal p) in
  match pred_op p with
  | Equal => value_eq v (pred_literal p) = true
  | Less => in_bounds v None true lit false = true
  | LessEqual => in_bounds v None true lit true = true
  | Greater => in_bounds v lit false None true = true
  | GreaterEqual => in_bounds v lit true None true = true
  end.
Proof.
  unfold pred_holds, in_bounds. intros Hl Hv Hp. cbv zeta. destruct Hv as [(-> & H1 & H2)|Hv].
  - destruct (pred_op p); try done; destruct k, (pred_literal p); done.
  - rewrite (has_kind_not_null k) by done. destruct (pred_op p); [done|by rewrite Hp| | |].
    + by rewrite (value_le_lt k) in Hp.
    + rewrite (value_gt_lt k) in Hp by done. by rewrite Hp.
    + unfold value_ge in Hp. by rewrite Hp.
Qed.

Lemma runs_lookup p : fits_column (pred_column p) (pred_literal p) → null_safe p → has_index t (pred_column p) = true →
  ∃ ids, runs (lookup_predicate_rows p) (Ok ids) ∧ covers ids (λ row, pred_holds p (cell row (pred_column p)) = true).
Proof.
  intros Hf Hn Hh. pose proof Hf as (i & _ & Hi & _). destruct (fits_kinds _ _ Hf) as (k & _ & Hk & Hkinds).
  assert (∀ j row, rows !! j = Some row → let v := cell row (pred_column p) in
    v = VNull ∧ pred_op p ≠ Less ∧ pred_op p ≠ LessEqual ∨ has_kind k v) as Hcell.
  { intros j row Hj v. destruct (Hkinds row (row_typed j row Hj)) as [E|]; [|by right].
    assert (¬ (pred_op p = Less ∨ pred_op p = LessEqual)) as Hop; [|left; split_and!; [done|intros E2; apply Hop; by left|intros E2; apply Hop; by right]].
    intros Hop. pose proof (proj1 (Forall_singleton _ _) (Hn Hop row (list_elem_of_lookup_2 _ _ _ Hj))) as Hn2.
    cbv beta in Hn2. by rewrite E in Hn2. }
  pose proof (λ j row Hj, pred_bounds p k _ Hk (Hcell j row Hj)) as Hb.
  assert (∀ u, Some (pred_literal p) = Some u → fits_column (pred_column p) u) as Hu by (by intros ? [= <-]).
  unfold lookup_predicate_rows.
  assert (∀ (m : ST (Table H Q) (list Z)) ids, runs m (Ok ids) → runs (st_get ≫= λ t, if negb (has_index t (pred_column p)) then mret [] else m) (Ok ids)) as Hget.
  { intros m ids Hm. apply runs_get. intros h. change (has_index (with_heap h t) _) with (has_index t (pred_column p)). by rewrite Hh. }
  destruct (pred_op p).
  - destruct (runs_value _ _ Hf) as (ids & Hr & Hc). exists ids. split; [by apply Hget|eapply covers_weaken; [exact Hb|exact Hc]].
  - destruct (runs_range (pred_column p) None true (Some (pred_literal p)) false) as (ids & Hr & Hc); [eauto|done|].
    exists ids. split; [by apply Hget|eapply covers_weaken; [exact Hb|exact Hc]].
  - destruct (runs_range (pred_column p) None true (Some (pred_literal p)) true) as (ids & Hr & Hc); [eauto|done|].
    exists ids. split; [by apply Hget|eapply covers_weaken; [exact Hb|exact Hc]].
  - destruct (runs_range (pred_column p) (Some (pred_literal p)) false None true) as (ids & Hr & Hc); [eauto|done|].
    exists ids. split; [by apply Hget|eapply covers_weaken; [exact Hb|exact Hc]].
  - destruct (runs_range (pred_column p) (Some (pred_literal p)) true None true) as (ids & Hr & Hc); [eauto|done|].
    exists ids. split; [by apply Hget|eapply covers_weaken; [exact Hb|exact Hc]].
Qed.
End by_key.
End lookups.

(** *** Candidates *)

Lemma equal_by_column_elem preds c v : sm_find c (equal_by_column preds) = Some v →
  ∃ p, p ∈ preds ∧ pred_op p = Equal ∧ pred_column p = c ∧ pred_literal p = v.
Proof.
  induction preds as [|p preds IH] using rev_ind; [done|]. unfold equal_by_column. rewrite foldl_app. cbn [foldl].
  intros Hf. assert (sm_find c (equal_by_column preds) = Some v ∨ pred_op p = Equal ∧ pred_column p = c ∧ pred_literal p = v)
    as [(q & Hq & ?)%IH|?].
  { unfold equal_by_column. destruct (pred_op p) eqn:Ho; [|by left..].
    destruct (decide (c = pred_column p)) as [->|Hne].
    - rewrite sm_find_set_eq in Hf. right. by simplify_eq.
    - rewrite sm_find_set_ne in Hf by done. by left. }
  - exists q. split; [by apply elem_of_app; left|done].
  - exists p. split; [apply elem_of_app; right; left|done].
Qed.

Lemma best_index_elem equals indexes iname key : best_index equals indexes = Some (iname, key) →
  ∃ d, d ∈ indexes ∧ d.1 = iname ∧ key = key_prefix equals d.2 ∧ key ≠ [].
Proof.
  unfold best_index. revert iname key. induction indexes as [|d indexes IH] using rev_ind; intros iname key; [done|].
  rewrite foldl_app. cbn [foldl]. destruct (_ <? _)%nat eqn:El.
  - intros [= <- <-]. exists d. split; [apply elem_of_app; right; left|]. split_and!; [done..|].
    intros E. rewrite E in El. cbn in El. lia.
  - intros (d' & Hd' & ?)%IH. exists d'. split; [by apply elem_of_app; left|done].
Qed.

Lemma to_set_elem l i : i ∈ to_set l ↔ i ∈ l.
Proof. unfold to_set. rewrite merge_sort_Permutation. apply elem_of_remove_dups. Qed.
Lemma to_set_nodup l : NoDup (to_set l).
Proof. unfold to_set. rewrite merge_sort_Permutation. apply NoDup_remove_dups. Qed.

Section candidates.
Context {H : Type} {RH : RowHeap H} {RS : RowHeapSpec H} {Q : Type}.
Context (n : nat) (ks : list (option kind)) (t : Table H Q) (rows : list Row).
Context (Hok : table_ok n ks t rows) (Hbuilt : built t) (Hnf : composite_null_free t rows).
Context (alias : string) (preds : list IndexColumnPredicate).
Abbreviation mine := (λ p, predicate_matches_table p t alias = true).
Context (Hpreds : ∀ p, p ∈ preds → mine p → fits_column ks t (pred_column p) (pred_literal p) ∧ null_safe t rows p).

Definition satisfies (row : Row) (p : IndexColumnPredicate) : Prop := pred_holds p (cell t row (pred_column p)) = true.
Definition good (cand : option (list Z)) : Prop :=
  ∀ ids, cand = Some ids → NoDup ids ∧ covers rows ids (λ row, ∀ p, p ∈ preds → mine p → satisfies row p).

Lemma runs_intersect l : (∀ p, p ∈ l → p ∈ preds) → ∀ acc, good acc →
  ∃ cand, runs n t rows (st_fold (intersect_pred alias) acc l) (Ok cand) ∧ good cand.
Proof.
  induction l as [|p l IH]; intros Hl acc Hacc; cbn [st_fold]; [exists acc; split; [apply runs_ret|done]|].
  assert (∃ acc', runs n t rows (intersect_pred alias acc p) (Ok acc') ∧ good acc') as (acc' & Hr & Hg).
  2:{ destruct (IH (λ q Hq, Hl q ltac:(by right)) acc' Hg) as (cand & Hc & Hgc). exists cand.
      split; [by eapply runs_bind|done]. }
  unfold intersect_pred. destruct (predicate_matches_table p t alias) eqn:Em; [destruct (has_index t (pred_column p)) eqn:Eh|].
  2,3: exists acc; split; [|done]; apply runs_get; intros h;
    change (predicate_matches_table p (with_heap h t) alias) with (predicate_matches_table p t alias);
    change (has_index (with_heap h t) (pred_column p)) with (has_index t (pred_column p)); rewrite Em, ?Eh; apply runs_ret.
  destruct (Hpreds p (Hl p ltac:(left)) Em) as [Hf Hn].
  destruct (runs_lookup n ks t rows Hok Hnf p Hf Hn Eh) as (ids & Hr & Hc). eexists. split.
  { apply runs_get; intros h. change (predicate_matches_table p (with_heap h t) alias) with (predicate_matches_table p t alias).
    change (has_index (with_heap h t) (pred_column p)) with (has_index t (pred_column p)). rewrite Em, Eh. cbn [negb orb].
    eapply runs_bind; [exact Hr|apply runs_ret]. }
  assert (covers rows (to_set ids) (λ row, ∀ q, q ∈ preds → mine q → satisfies row q)) as Hcov.
  { intros j row Hj Hs. apply to_set_elem. apply (Hc j row Hj). apply Hs; [apply Hl; left|done]. }
  intros ids' [= <-]. destruct acc as [a|]; [|split; [apply to_set_nodup|done]].
  destruct (Hacc a eq_refl) as [Hnd Hca]. split; [by apply NoDup_filter|].
  intros j row Hj Hs. apply list_elem_of_filter. split; [by apply (Hcov j row)|by apply (Hca j row)].
Qed.

Lemma runs_candidates c : extract_index_predicates (Some c) = Some preds →
  ∃ cand, runs n t rows (collect_candidate_rows alias (Some c)) (Ok cand) ∧ good cand.
Proof.
  intros Hx. unfold collect_candidate_rows. rewrite Hx. destruct (decide (preds = [])) as [En|Hne].
  { rewrite En. exists None. split; [|done]. apply runs_get. intros h. apply runs_ret. }
  set (equals := equal_by_column (filter mine preds)).
  assert (∀ c v, sm_find c equals = Some v → ∃ p, p ∈ preds ∧ mine p ∧ pred_op p = Equal ∧ pred_column p = c ∧ pred_literal p = v) as Heq.
  { intros c' v (p & [Hm Hp]%list_elem_of_filter & ?)%equal_by_column_elem. eauto. }
  assert (∀ h, equal_by_column (filter (λ p, predicate_matches_table p (with_heap h t) alias = true) preds) = equals)
    as Hheap by done.
  destruct (best_index equals (secondary_indexes t)) as [[iname key]|] eqn:Eb.
  - apply best_index_elem in Eb as Eb'. destruct Eb' as (d & Hd & <- & -> & Hk).
    destruct (runs_index_key n ks t rows Hok Hbuilt Hnf d equals Hd) as (ids & Hr & Hnd & Hc).
    { intros c' v (p & Hp & Hm & _ & <- & <-)%Heq. by apply Hpreds. }
    { done. }
    exists (Some ids). split.
    + apply runs_get. intros h. cbn [secondary_indexes with_heap].
      destruct preds as [|p0 ps0]; [done|]. rewrite Hheap, Eb. eapply runs_bind; [exact Hr|apply runs_ret].
    + intros ids' [= <-]. split; [done|]. intros j row Hj Hs. apply (Hc j row Hj).
      intros c' v (p & Hp & Hm & Ho & <- & <-)%Heq. specialize (Hs p Hp Hm). unfold satisfies, pred_holds in Hs. by rewrite Ho in Hs.
  - destruct (runs_intersect preds (λ p Hp, Hp) None) as (cand & Hr & Hg); [done|]. exists cand. split; [|done].
    apply runs_get. intros h. cbn [secondary_indexes with_heap].
    destruct preds as [|p0 ps0]; [done|]. rewrite Hheap, Eb. exact Hr.
Qed.
End candidates.

(** ** Column references in a scan *)

Lemma matches_from_single table column bs i : ∀ k,
  (i < length bs)%nat → (∀ j b, bs !! j = Some b → binding_matches table column b = bool_decide (j = i)) →
  matches_from k table column bs = [(k + i)%nat].
Proof.
  revert i. induction bs as [|b bs IH]; intros i k Hi Hb; [cbn in Hi; lia|]. cbn [matches_from].
  rewrite (Hb 0%nat b eq_refl). case_bool_decide as E.
  - subst i. rewrite Nat.add_0_r. f_equal.
    assert (∀ j b, bs !! j = Some b → binding_matches table column b = false) as Hn.
    { intros j b' Hj. by rewrite (Hb (S j) b' Hj). }
    clear -Hn. revert Hn. generalize (S k). induction bs as [|b bs IH]; intros m Hn; [done|]. cbn [matches_from].
    rewrite (Hn 0%nat b eq_refl). apply IH. intros j b' Hj. by apply (Hn (S j)).
  - destruct i as [|i]; [done|]. rewrite (IH i (S k)).
    + f_equal. lia.
    + cbn in Hi. lia.
    + intros j b' Hj. rewrite (Hb (S j) b' Hj). apply bool_decide_ext. lia.
Qed.

Section references.
Context {H : Type} {RH : RowHeap H} {RS : RowHeapSpec H} {Q : Type}.
Context (ks : list (option kind)) (t : Table H Q) (Hs : schema_ok ks t).

(** The reference is not captured by a variable or by a column with a dotted name. *)
Definition plain_reference (vars : gmap string value) (p : IndexColumnPredicate) : Prop :=
  (pred_table p = ""%string → vars !! pred_column p = None) ∧
  (∀ c, c ∈ columns t → col_name c ≠ pred_table p +:+ "." +:+ pred_column p).

Lemma column_index_lookup_inv name i : get_column_index t name = Some i →
  ∃ c, columns t !! i = Some c ∧ col_name c = name.
Proof.
  unfold get_column_index. clear. revert i. induction (columns t) as [|c cs IH]; intros i; [done|].
  cbn [column_index_in]. case_bool_decide; [intros [= <-]; eauto|].
  destruct (column_index_in name cs) as [k|]; [|done]. intros [= <-]. by apply IH.
Qed.

Lemma table_column_value {W} (ev : Evaluator Q W) alias p row s :
  bindings ev = (λ c, mkBinding alias (table_name t) (col_name c)) <$> columns t →
  predicate_matches_table p t alias = true → plain_reference (local_variables ev) p → typed_values ks row →
  column_value ev row s (pred_table p) (pred_column p) = cell t row (pred_column p).
Proof.
  intros Hb [Hq Hc]%andb_true_iff [Hv Hd] Hty. apply bool_decide_eq_true in Hc as [i Hi].
  destruct (column_index_lookup_inv _ _ Hi) as (c & Hci & Hname).
  unfold column_value, evaluate_column.
  assert ((if bool_decide (pred_table p = "") then local_variables ev !! pred_column p else None) = None) as ->.
  { case_bool_decide; [by apply Hv|done]. }
  assert (resolve_column_index (bindings ev) (pred_table p) (pred_column p) = inl i) as ->.
  { unfold resolve_column_index. rewrite (matches_from_single _ _ _ i 0); [done| |].
    - rewrite Hb, length_fmap. by eapply lookup_lt_Some.
    - intros j b. rewrite Hb, list_lookup_fmap. intros (c' & Hj & ->)%fmap_Some.
      assert (bool_decide (col_name c' = pred_column p) = bool_decide (j = i)) as Ename.
      { apply bool_decide_ext. split; [|intros ->; by simplify_eq]. intros En. rewrite <- Hname in En.
        pose proof (so_names _ _ Hs) as Hnd. eapply (NoDup_lookup _ _ _ (col_name c)); [exact Hnd| |].
        - rewrite list_lookup_fmap, Hj. cbn. by rewrite En.
        - by rewrite list_lookup_fmap, Hci. }
      unfold binding_matches. cbn [column_name Expr.alias physical_table].
      destruct (decide (pred_table p = ""%string)) as [Et|Et];
        [by rewrite (bool_decide_true (pred_table p = ""%string) Et)|rewrite (bool_decide_false (pred_table p = ""%string) Et)].
      rewrite (bool_decide_false (col_name c' = pred_table p +:+ "." +:+ pred_column p)), orb_false_r
        by (apply Hd; by eapply list_elem_of_lookup_2).
      rewrite (bool_decide_false (pred_table p = ""%string) Et) in Hq. cbn [orb] in Hq. rewrite Ename.
      assert (bool_decide (alias = pred_table p) || bool_decide (table_name t = pred_table p) = true) as ->; [|done].
      apply orb_true_iff. apply orb_true_iff in Hq as [E%bool_decide_eq_true|E%bool_decide_eq_true];
        [right|left]; by apply bool_decide_eq_true. }
  assert (i < length (row_values row))%nat as Hlt.
  { rewrite <- (Forall2_length _ _ _ Hty), (so_kinds _ _ Hs). by eapply lookup_lt_Some. }
  unfold get_column_count. rewrite (proj2 (Nat.ltb_lt _ _) Hlt). unfold cell. rewrite Hi. cbn [mbind option_bind].
  unfold get_value, st_lift. destruct (row_values row !! i) as [v|] eqn:Ev; [done|]. apply lookup_ge_None in Ev. lia.
Qed.
End references.

(** ** Index scans and full scans return the same rows *)

Section equivalence.
Context {H : Type} {RH : RowHeap H} {RS : RowHeapSpec H} {Q W : Type}.

Definition sees_row (database : option (DbContext (Q := Q) (W := W))) (row : Row) : bool :=
  match database with
  | Some cx => isVisible (cx_tm cx) (row_xmin row) (row_xmax row) (cx_xid cx) (cx_snapshot cx)
  | None => true
  end.

(** The predicates the indexes serve are comparisons of a column of the table with
    a literal of its kind. *)
Definition where_ok (ks : list (option kind)) (t : Table H Q) (rows : list Row) (alias : string)
    (vars : gmap string value) (where_expr : option (expr Q)) : Prop :=
  ∀ c preds, where_expr = Some c → extract_index_predicates (Some c) = Some preds →
  Forall (λ p, predicate_matches_table p t alias = true ∧ fits_column ks t (pred_column p) (pred_literal p) ∧
               null_safe t rows p ∧ plain_reference t vars p) preds.

Section scan.
Context (n : nat) (ks : list (option kind)) (t : Table H Q) (rows : list Row) (s : St W).
Context (Hok : table_ok n ks t rows) (Hbuilt : built t) (Hnf : composite_null_free t rows).
Context (depth : nat) (alias : string) (where_expr : option (expr Q)) (database : option (DbContext (Q := Q) (W := W))).
Abbreviation ev := (bind_evaluator (evaluator_for_table t alias) database).
Context (Hwhere : where_ok ks t rows alias (local_variables ev) where_expr).
Context (holds : Row → bool).
Context (Hholds : ∀ row, row ∈ rows → evaluate_condition depth ev row where_expr s = (s, Ok (holds row))).
Abbreviation scans := (scans n t rows s).

Definition row_test (P : Row → bool) (i : nat) : bool := match rows !! i with Some row => P row | None => false end.
Definition visible : list nat := filter (λ i, row_test (sees_row database) i = true) (seq 0 (length rows)).

Lemma runs_visible_indices : runs n t rows (visible_indices database) (Ok visible).
Proof.
  unfold visible_indices, visible. pose proof (holds_dir _ _ _ (to_holds _ _ _ _ Hok)) as Hl.
  destruct database as [cx|].
  - apply runs_gets. intros h. unfold positions. cbn [row_directory with_heap]. rewrite Hl.
    apply (runs_filter n t rows _ (row_test (sees_row (Some cx)))). intros i [_ Hi]%elem_of_seq.
    destruct (lookup_lt_is_Some_2 rows i Hi) as [row Hrow]. unfold row_test. rewrite Hrow.
    eapply runs_bind; [by apply runs_get_row|apply runs_ret].
  - assert (filter (λ i, row_test (sees_row None) i = true) (seq 0 (length rows)) = seq 0 (length rows)) as ->.
    { apply filter_all. intros i [_ Hi]%elem_of_seq. unfold row_test.
      by destruct (lookup_lt_is_Some_2 rows i Hi) as [row ->]. }
    apply runs_pure. intros h. unfold gets, positions. cbn [row_directory with_heap]. by rewrite Hl.
Qed.

Lemma scans_matches i row : rows !! i = Some row → scans (matches beside depth ev where_expr i) (Ok (row, holds row)).
Proof.
  intros Hi. eapply scans_bind; [by apply scans_table, runs_get_row|].
  eapply scans_bind; [apply scans_eval, Hholds; by eapply list_elem_of_lookup_2|apply scans_ret].
Qed.

Definition pick (i : nat) : option Row := row ← rows !! i; if holds row then Some row else None.

Lemma scans_filter_rows indices : Forall (λ i, i < length rows)%nat indices →
  scans (filter_rows beside depth ev where_expr indices) (Ok (omap pick indices)).
Proof.
  intros Hi. rewrite <- (app_nil_l (omap pick indices)), <- foldl_omap.
  apply (scans_fold n t rows s _ (λ acc i, match pick i with Some y => acc ++ [y] | None => acc end)).
  intros i acc Hin. rewrite Forall_forall in Hi. destruct (lookup_lt_is_Some_2 rows i (Hi i Hin)) as [row Hrow].
  eapply scans_bind; [by apply scans_matches|]. unfold pick. rewrite Hrow. cbn [mbind option_bind snd fst].
  destruct (holds row); apply scans_ret.
Qed.

(** The rows the condition selects are among the candidates. *)
Lemma runs_candidates_hold :
  ∃ cand, runs n t rows (collect_candidate_rows alias where_expr) (Ok cand) ∧
    ∀ ids, cand = Some ids → NoDup ids ∧ covers rows ids (λ row, holds row = true).
Proof.
  destruct where_expr as [c|] eqn:Ew.
  2:{ exists None. split; [|done]. apply runs_get. intros h. apply runs_ret. }
  destruct (extract_index_predicates (Some c)) as [preds|] eqn:Ex.
  2:{ exists None. split; [|done]. unfold collect_candidate_rows. rewrite Ex. apply runs_get. intros h. apply runs_ret. }
  pose proof (Hwhere c preds eq_refl Ex) as Hp. rewrite Forall_forall in Hp.
  destruct (runs_candidates n ks t rows Hok Hbuilt Hnf alias preds) with (c := c) as (cand & Hr & Hg); [|done|].
  { intros p Hin _. destruct (Hp p Hin) as (_ & ? & ? & _). done. }
  exists cand. split; [done|]. intros ids Hids. destruct (Hg ids Hids) as [Hnd Hc]. split; [done|].
  intros j row Hj Hh. apply (Hc j row Hj). intros p Hin Hm. destruct (Hp p Hin) as (_ & Hf & _ & Href).
  pose proof (row_typed n ks t rows Hok j row Hj) as Hty.
  assert (∀ q, q ∈ preds → column_value ev row s (pred_table q) (pred_column q) = cell t row (pred_column q)) as Hcv.
  { intros q Hq. destruct (Hp q Hq) as (Hmq & _ & _ & Hrq).
    apply (table_column_value ks t (to_schema _ _ _ _ Hok) _ alias); [by destruct database|done..]. }
  destruct (collect_evaluates depth ev row s c preds Ex) as [_ Hev].
  { apply Forall_forall. intros q Hq. destruct (Hp q Hq) as (_ & Hfq & _ & _).
    destruct (fits_kinds ks t _ _ Hfq) as (k & _ & Hk & Hkinds). exists k. rewrite (Hcv q Hq). auto. }
  pose proof (Hholds row (list_elem_of_lookup_2 _ _ _ Hj)) as Hcond. cbn [evaluate_condition] in Hcond. rewrite Hev in Hcond.
  injection Hcond as Hall. rewrite Hh in Hall. rewrite forallb_forall in Hall.
  specialize (Hall p ltac:(by apply list_elem_of_In)). unfold row_pred in Hall. by rewrite (Hcv p Hin) in Hall.
Qed.
Lemma visible_range : Forall (λ i, i < length rows)%nat visible.
Proof. apply Forall_forall. intros i [_ [_ Hi]%elem_of_seq]%list_elem_of_filter. done. Qed.

Lemma visible_candidates_elem ids i : i ∈ visible_candidates visible ids ↔ i ∈ visible ∧ Z.of_nat i ∈ ids.
Proof.
  unfold visible_candidates. rewrite list_elem_of_fmap. split.
  - intros (z & -> & [Hv Hz]%list_elem_of_filter). apply list_elem_of_fmap in Hv as (k & -> & Hk). by rewrite Nat2Z.id.
  - intros [Hv Hz]. exists (Z.of_nat i). rewrite Nat2Z.id. split; [done|]. apply list_elem_of_filter.
    split; [by apply list_elem_of_fmap_2|done].
Qed.

Lemma visible_candidates_nodup ids : NoDup ids → NoDup (visible_candidates visible ids).
Proof.
  intros Hnd. unfold visible_candidates. apply NoDup_fmap_2_strong; [|by apply NoDup_filter].
  intros x y [Hx _]%list_elem_of_filter [Hy _]%list_elem_of_filter.
  apply list_elem_of_fmap in Hx as (a & -> & _). apply list_elem_of_fmap in Hy as (b & -> & _). lia.
Qed.

(** Among the visible rows, the candidates and all rows give the same selection. *)
Lemma selection_permutes ids : NoDup ids → covers rows ids (λ row, holds row = true) →
  filter (λ i, row_test holds i = true) (visible_candidates visible ids)
  ≡ₚ filter (λ i, row_test holds i = true) visible.
Proof.
  intros Hnd Hc. apply NoDup_Permutation.
  - by apply NoDup_filter, visible_candidates_nodup.
  - apply NoDup_filter, NoDup_filter, NoDup_seq.
  - intros i. rewrite !list_elem_of_filter, visible_candidates_elem. split; [naive_solver|].
    intros [Ht Hv]. split_and!; [done|done|]. unfold row_test in Ht. destruct (rows !! i) as [row|] eqn:Hi; [|done].
    by apply (Hc i row).
Qed.

Lemma omap_pick (l : list nat) : omap pick l = omap pick (filter (λ i, row_test holds i = true) l).
Proof.
  induction l as [|i l IH]; [done|]. cbn [omap list_omap]. unfold pick at 1; unfold row_test in *.
  destruct (rows !! i) as [row|] eqn:Hi; cbn [mbind option_bind].
  - destruct (holds row) eqn:Hh.
    + rewrite filter_cons_True by (by rewrite Hi). cbn [omap list_omap]. unfold pick at 2. rewrite Hi. cbn [mbind option_bind].
      rewrite Hh. by rewrite IH.
    + rewrite filter_cons_False by (rewrite Hi; congruence). done.
  - rewrite filter_cons_False by (by rewrite Hi). done.
Qed.

Lemma pick_visible : omap pick visible = filter (λ row, sees_row database row && holds row = true) rows.
Proof.
  unfold visible, pick, row_test.
  assert (∀ l k, (∀ j r, l !! j = Some r → rows !! (k + j)%nat = Some r) →
    omap (λ i, row ← rows !! i; if holds row then Some row else None)
      (filter (λ i, match rows !! i with Some row => sees_row database row | None => false end = true) (seq k (length l)))
    = filter (λ row, sees_row database row && holds row = true) l) as Hgo; [|by apply (Hgo rows 0%nat)].
  induction l as [|r l IH]; intros k Hl; [done|]. cbn [length seq].
  pose proof (Hl 0%nat r eq_refl) as Hr. rewrite Nat.add_0_r in Hr.
  assert (∀ j r', l !! j = Some r' → rows !! (S k + j)%nat = Some r') as Hl'.
  { intros j r' Hj. rewrite <- (Hl (S j) r' Hj). f_equal. lia. }
  specialize (IH (S k) Hl'). destruct (sees_row database r) eqn:Es.
  - rewrite filter_cons_True by (by rewrite Hr). cbn [omap list_omap]. rewrite Hr. cbn [mbind option_bind]. rewrite IH.
    destruct (holds r) eqn:Eh; [by rewrite filter_cons_True by (by rewrite Es, Eh)|].
    rewrite filter_cons_False; [done|]. by rewrite Es, Eh.
  - rewrite filter_cons_False by (by rewrite Hr, Es). rewrite filter_cons_False by (by rewrite Es). done.
Qed.

Lemma scans_filter_with_index : ∃ out,
  scans (filter_rows_with_index beside depth alias where_expr ev database) (Ok out) ∧
  out ≡ₚ filter (λ row, sees_row database row && holds row = true) rows.
Proof.
  destruct runs_candidates_hold as (cand & Hr & Hc).
  assert (∀ out, scans (match cand, (choose_access_path (Z.of_nat (get_row_count t)) (bool_decide (is_Some cand))
      (if Z.of_nat (get_row_count t) =? 0 then d_one else d_div d_one (d_of_Z (Z.of_nat (get_row_count t))))).1 with
    | Some candidates, IndexScan => filter_rows beside depth ev where_expr (visible_candidates visible candidates)
    | _, _ => filter_rows beside depth ev where_expr visible end) (Ok out) →
    scans (filter_rows_with_index beside depth alias where_expr ev database) (Ok out)) as Hgo.
  { intros out Ho. unfold filter_rows_with_index. eapply scans_bind; [apply scans_table, runs_visible_indices|].
    eapply scans_bind; [by apply scans_table|]. eapply scans_bind; [|exact Ho].
    apply scans_table, runs_pure. intros h. done. }
  rewrite <- pick_visible. assert (∃ out, scans (filter_rows beside depth ev where_expr visible) (Ok out) ∧ out ≡ₚ omap pick visible)
    as (out & Ho & Hp) by (eexists; split; [apply scans_filter_rows, visible_range|done]).
  destruct cand as [ids|]; [|exists out; by split; [apply Hgo|]].
  destruct (choose_access_path _ _ _).1; [exists out; by split; [apply Hgo|]|].
  destruct (Hc ids eq_refl) as [Hnd Hcov]. exists (omap pick (visible_candidates visible ids)). split.
  - apply Hgo, scans_filter_rows. apply Forall_forall. intros i [Hi _]%visible_candidates_elem.
    pose proof visible_range as Hv. rewrite Forall_forall in Hv. by apply Hv.
  - rewrite (omap_pick visible), omap_pick. f_equiv. by apply selection_permutes.
Qed.

Lemma scans_matching_indices indices : Forall (λ i, i < length rows)%nat indices →
  scans (matching_indices beside depth ev where_expr indices) (Ok (filter (λ i, row_test holds i = true) indices)).
Proof.
  intros Hi. apply scans_filter. intros i Hin. rewrite Forall_forall in Hi. specialize (Hi i Hin).
  destruct (lookup_lt_is_Some_2 rows i Hi) as [row Hrow]. unfold row_test. rewrite Hrow.
  eapply (scans_bind n t rows s _ _ (get_row_count t)); [apply scans_table, runs_pure; done|].
  unfold get_row_count. rewrite (holds_dir _ _ _ (to_holds _ _ _ _ Hok)), (proj2 (Nat.leb_gt _ _) Hi).
  eapply scans_bind; [by apply scans_matches|apply scans_ret].
Qed.

Lemma scans_collect_matching : alias = table_name t → ∃ idxs,
  scans (collect_matching_indices beside depth where_expr database) (Ok idxs) ∧
  idxs ≡ₚ filter (λ i, row_test (λ row, sees_row database row && holds row) i = true) (seq 0 (length rows)).
Proof.
  intros Ha. destruct runs_candidates_hold as (cand & Hr & Hc).
  assert (filter (λ i, row_test holds i = true) visible =
    filter (λ i, row_test (λ row, sees_row database row && holds row) i = true) (seq 0 (length rows))) as <-.
  { unfold visible. rewrite list_filter_filter. apply list_filter_iff. intros i. unfold row_test.
    destruct (rows !! i) as [row|]; [|naive_solver]. rewrite andb_true_iff. tauto. }
  set (indices := match cand with Some ids => visible_candidates visible ids | None => visible end).
  exists (filter (λ i, row_test holds i = true) indices). split.
  - apply scans_get. intros h. change (evaluator_for_dml_table (W := W) (with_heap h t)) with (evaluator_for_table (W := W) t (table_name t)).
    cbn [table_name with_heap]. rewrite <- Ha.
    eapply scans_bind; [apply scans_table, runs_visible_indices|]. eapply scans_bind; [by apply scans_table|].
    apply scans_matching_indices. unfold indices. destruct cand as [ids|]; [|apply visible_range].
    apply Forall_forall. intros i [Hi _]%visible_candidates_elem.
    pose proof visible_range as Hv. rewrite Forall_forall in Hv. by apply Hv.
  - unfold indices. destruct cand as [ids|]; [|done]. destruct (Hc ids eq_refl) as [Hnd Hcov]. by apply selection_permutes.
Qed.
End scan.
End equivalence.

(** ** Properties *)

(** C9. Index scans lose and add nothing: whatever indexes a table has and whichever access
    path is chosen, the rows a WHERE condition returns are the visible rows that satisfy it,
    each as often as it occurs, on these conditions: the comparisons an index could serve
    are of plain columns of this table with literals of the kind of the column, composite
    indexes hold no NULL, neither does a column compared by [<] or [<=] (see
    [null_below_depends_on_index] and [composite_index_hides_rows]), and the condition has a
    value on every row without changing the state. Indexed columns are of one kind, FLOATs
    pairwise 1e-9 or more apart. Table and evaluator are left as they were. *)
Theorem index_scan_equals_full_scan {H Q W} `{RowHeapSpec H} n ks (t : Table H Q) rows (s : St W) depth alias where_expr database holds :
  let ev := bind_evaluator (evaluator_for_table t alias) database in
  table_ok n ks t rows → built t → composite_null_free t rows →
  where_ok ks t rows alias (local_variables ev) where_expr →
  (∀ row, row ∈ rows → evaluate_condition depth ev row where_expr s = (s, Ok (holds row))) →
  ∃ t' out, filter_rows_with_index beside depth alias where_expr ev database (t, s) = ((t', s), Ok out) ∧
    table_ok n ks t' rows ∧ out ≡ₚ filter (λ row, sees_row database row && holds row = true) rows.
Proof.
  intros ev Hok Hb Hnf Hw Hh.
  destruct (scans_filter_with_index n ks t rows s Hok Hb Hnf depth alias where_expr database Hw holds Hh) as (out & Hs & Hp).
  destruct (scans_at n t rows s _ _ Hs (to_holds _ _ _ _ Hok)) as (h & E & Hh').
  exists (with_heap h t), out. split; [done|]. split; [by apply table_ok_heap|done].
Qed.

(** C10. UPDATE and DELETE work on exactly the visible rows that satisfy the condition, each
    once, also when the indexes give the candidates, on the conditions of
    [index_scan_equals_full_scan]: literals of the kinds of their columns, no NULL in
    composite indexes nor in columns compared by [<] or [<=], and a condition that has a
    value on every row without changing the state. *)
Theorem dml_rows_are_the_matching_rows {H Q W} `{RowHeapSpec H} n ks (t : Table H Q) rows (s : St W) depth where_expr database holds :
  let ev := bind_evaluator (evaluator_for_dml_table t) database in
  table_ok n ks t rows → built t → composite_null_free t rows →
  where_ok ks t rows (table_name t) (local_variables ev) where_expr →
  (∀ row, row ∈ rows → evaluate_condition depth ev row where_expr s = (s, Ok (holds row))) →
  ∃ t' idxs, collect_matching_indices beside depth where_expr database (t, s) = ((t', s), Ok idxs) ∧ table_ok n ks t' rows ∧
    NoDup idxs ∧ ∀ i, i ∈ idxs ↔ ∃ row, rows !! i = Some row ∧ sees_row database row = true ∧ holds row = true.
Proof.
  intros ev Hok Hb Hnf Hw Hh.
  destruct (scans_collect_matching n ks t rows s Hok Hb Hnf depth (table_name t) where_expr database Hw holds Hh eq_refl)
    as (idxs & Hs & Hp).
  destruct (scans_at n t rows s _ _ Hs (to_holds _ _ _ _ Hok)) as (h & E & Hh').
  exists (with_heap h t), idxs. split; [done|]. split; [by apply table_ok_heap|]. split.
  - rewrite Hp. apply NoDup_filter, NoDup_seq.
  - intros i. rewrite Hp, list_elem_of_filter, elem_of_seq. unfold row_test. split.
    + intros [Ht _]. destruct (rows !! i) as [row|]; [|done]. apply andb_true_iff in Ht. eauto.
    + intros (row & Hi & Hv & Hc). rewrite Hi, Hv, Hc. apply lookup_lt_Some in Hi. split; [done|lia].
Qed.

(** ** A table of users with four rows *)

Definition four_users : list table_op :=
  [TInsert (HeapFile.example_row 1 "ada") 0; TInsert (HeapFile.example_row 2 "bob") 0;
   TInsert (HeapFile.example_row 3 "ada") 0; TInsert (HeapFile.example_row 4 "eve") 0].
Definition filled : Table (World (list page) * HeapFile.HeapFile) unit := (table_run four_users users).1.
Definition filled_rows : list Row := (rows_run users four_users []).1.

Lemma four_users_ok : Forall (op_ok users_kinds users) four_users.
Proof.
  repeat (apply Forall_cons_2; [split; [small_row|apply small_u64; lia]|]). apply Forall_nil_2.
Qed.

Lemma filled_ok : table_ok 8 users_kinds filled filled_rows ∧ built filled.
Proof.
  destruct (table_run_ok 0 users_kinds users users [] four_users users_ok users_built) as (_ & Hok & Hb);
    [done|apply four_users_ok|done|done|]. done.
Qed.

(** [WHERE name = 'ada' AND users.id >= 2] *)
Definition ada_condition : expr unit :=
  BinaryOpE (BinaryOpE (ColumnRef "" "name") EQ (Literal (VString "ada"))) AND
            (BinaryOpE (ColumnRef "users" "id") GE (Literal (VInt 2))).
Definition is_ada (row : Row) : bool :=
  match row_values row with [VInt i; VString s] => bool_decide (s = "ada"%string) && (2 <=? i) | _ => false end.

Lemma ada_where_ok alias : where_ok users_kinds filled filled_rows alias ∅ (Some ada_condition).
Proof.
  intros c preds [= <-] [= <-]. repeat apply Forall_cons_2; [| |apply Forall_nil_2].
  - split; [done|]. split; [by exists 1%nat, KString|]. split; [by intros [|]|].
    split; [done|]. apply Forall_forall, (bool_decide_unpack _). vm_compute. exact I.
  - split; [done|]. split; [by exists 0%nat, KInt|]. split; [by intros [|]|].
    split; [done|]. apply Forall_forall, (bool_decide_unpack _). vm_compute. exact I.
Qed.

Definition user (id : Z) (name : string) : Row := mkRow [VInt id; VString name] 0 0.
Lemma filled_rows_eq : filled_rows = [user 1 "ada"; user 2 "bob"; user 3 "ada"; user 4 "eve"].
Proof. vm_compute. reflexivity. Qed.

Lemma ada_holds alias row : alias = "u"%string ∨ alias = "users"%string → row ∈ filled_rows →
  evaluate_condition 0 (evaluator_for_table filled alias) row (Some ada_condition) start = (start, Ok (is_ada row)).
Proof.
  rewrite filled_rows_eq, !elem_of_cons, elem_of_nil.
  intros [->| ->] [->|[->|[->|[->|[]]]]]; vm_compute; reflexivity.
Qed.

Lemma filled_null_free : composite_null_free filled filled_rows.
Proof.
  intros d Hd Hl. assert (Forall (λ d, ¬ (1 < length d.2)%nat) (secondary_indexes filled)) as Hf
    by (apply (bool_decide_unpack _); vm_compute; exact I).
  rewrite Forall_forall in Hf. by destruct (Hf d Hd).
Qed.

Lemma index_scan_equals_full_scan_witness :
  ∃ t' out, filter_rows_with_index beside 0 "u" (Some ada_condition) (evaluator_for_table filled "u") None (filled, start)
    = ((t', start), Ok out) ∧ out ≡ₚ [user 3 "ada"].
Proof.
  destruct filled_ok as [Hok Hb].
  destruct (index_scan_equals_full_scan 8 users_kinds filled filled_rows start 0 "u" (Some ada_condition) None is_ada)
    as (t' & out & E & _ & Hp);
    [exact Hok|exact Hb|exact filled_null_free|apply ada_where_ok|intros row; apply ada_holds; by left|].
  exists t', out. split; [exact E|]. rewrite Hp, filled_rows_eq. vm_compute. reflexivity.
Defined.

Lemma dml_rows_are_the_matching_rows_witness :
  ∃ t' idxs, collect_matching_indices beside 0 (Some ada_condition) None (filled, start) = ((t', start), Ok idxs) ∧
    (2 ∈ idxs ∧ 0 ∉ idxs)%nat.
Proof.
  destruct filled_ok as [Hok Hb].
  destruct (dml_rows_are_the_matching_rows 8 users_kinds filled filled_rows start 0 (Some ada_condition) None is_ada)
    as (t' & idxs & E & _ & _ & Hi);
    [exact Hok|exact Hb|exact filled_null_free|apply ada_where_ok|intros row; apply ada_holds; by right|].
  exists t', idxs. split; [exact E|]. rewrite !Hi, filled_rows_eq. split.
  - exists (user 3 "ada"). split; [reflexivity|]. split; [reflexivity|vm_compute; reflexivity].
  - intros (row & [= <-] & _ & Hr). discriminate Hr.
Defined.

(** ** Where the indexes change the result *)

(** Row numbers a scan of [users] returns for a condition, after [more] has changed the table. *)
Definition scan_ids (more : ST (Table (World (list page) * HeapFile.HeapFile) unit) unit) (c : expr unit) : res (list value) :=
  let t := (more filled).1 in
  rs ← (filter_rows_with_index beside 0 "users" (Some c) (evaluator_for_table t "users") None (t, start)).2;
  res_map (λ row, get_value row 0) rs.
Definition add_anonymous (id : Z) : ST (Table (World (list page) * HeapFile.HeapFile) unit) unit :=
  insert_row (row_of_values [VInt id; VNull]).

(** A row whose [name] is NULL satisfies [name < 'b'] in a sequential scan and is
    not found through the index on [name]. *)
Example null_below_depends_on_index :
  let c := BinaryOpE (ColumnRef "" "name") LT (Literal (VString "b")) in
  scan_ids (add_anonymous 5) c = Ok [VInt 1; VInt 3] ∧
  scan_ids (add_anonymous 5;; drop_secondary_index "by_name";; mret tt) c = Ok [VInt 1; VInt 3; VInt 5].
Proof. split; vm_compute; reflexivity. Qed.

(** [WHERE id = 5] no longer finds row 5 once there is an index on [(id, name)],
    because the NULL in [name] keeps the row out of that index. *)
Example composite_index_hides_rows :
  let c := BinaryOpE (ColumnRef "" "id") EQ (Literal (VInt 5)) in
  scan_ids (add_anonymous 5) c = Ok [VInt 5] ∧
  scan_ids (add_anonymous 5;; create_secondary_index "by_both" ["id"; "name"]%string) c = Ok [].
Proof. split; vm_compute; reflexivity. Qed.
