(* ===== verification/FileSystem.v ===== *)
(** * The file system the catalogs and the users file are kept in

    Files as byte strings by path.  Whether a file can be opened for writing, whether
    the bytes reach it, whether a directory can be made or a file be renamed onto a path,
    and whether a file can be removed is up to the operating system: predicates of the
    state.  A stream that cannot be written to leaves its file empty. *)

From Stdlib Require Import ZArith Lia Ascii.
From S2P Require Import Prelude.

Record Fs : Type := mkFs {
  files : gmap string string;
  opens : string → bool;
  writes : string → bool;
  places : string → bool;
  removes : string → bool
}.
Definition set_files (m : gmap string string) (s : Fs) : Fs := mkFs m (opens s) (writes s) (places s) (removes s).

Definition fs_read (path : string) (s : Fs) : option string := files s !! path.

(** [std::ofstream out(path, trunc); out << text; out.flush()]: was it opened, is it good. *)
Definition fs_write (path text : string) : ST Fs (option bool) := λ s,
  if negb (opens s path) then (s, Ok None)
  else (set_files (<[path := if writes s path then text else ""%string]> (files s)) s, Ok (Some (writes s path))).

(** [std::ofstream out(path, app); out.write(text); out.flush()]. *)
Definition fs_append (path text : string) : ST Fs (option bool) := λ s,
  if negb (opens s path) then (s, Ok None)
  else (set_files (<[path := default ""%string (files s !! path) +:+ (if writes s path then text else ""%string)]> (files s)) s,
        Ok (Some (writes s path))).

(** [fs::create_directories(dir)]. *)
Definition fs_make_dir (dir : string) : ST Fs unit := λ s,
  if places s dir then (s, Ok tt)
  else (s, Throw (std_runtime_error ("filesystem error: cannot create directory: " +:+ dir))).

(** [fs::rename(from, to)]. *)
Definition fs_rename (from to : string) : ST Fs unit := λ s,
  match files s !! from with
  | Some text =>
      if places s to then (set_files (<[to := text]> (delete from (files s))) s, Ok tt)
      else (s, Throw (std_runtime_error ("filesystem error: cannot rename: " +:+ from)))
  | None => (s, Throw (std_runtime_error ("filesystem error: cannot rename: " +:+ from)))
  end.

(** [fs::remove(path, ec)] with [ec] ignored: a file that cannot be removed stays. *)
Definition fs_remove (path : string) : ST Fs unit := λ s,
  (if removes s path then set_files (delete path (files s)) s else s, Ok tt).
(** [fs::remove(path)]: a file that is not there is no error. *)
Definition fs_remove_or_throw (path : string) : ST Fs unit := λ s,
  match files s !! path with
  | None => (s, Ok tt)
  | Some _ =>
      if removes s path then (set_files (delete path (files s)) s, Ok tt)
      else (s, Throw (std_runtime_error ("filesystem error: cannot remove: " +:+ path)))
  end.

(** [fs::path(a) / b] as a string. *)
Definition ends_with_slash (a : string) : bool :=
  match last (String.list_ascii_of_string a) with Some c => Ascii.eqb c "/" | None => true end.
Definition path_join (a b : string) : string :=
  match b with
  | String c _ => if Ascii.eqb c "/" then b else if ends_with_slash a then a +:+ b else a +:+ "/" +:+ b
  | EmptyString => if ends_with_slash a then a else a +:+ "/"
  end.

(** ** Lines and fields *)

Fixpoint split_on (c : ascii) (s : string) : list string :=
  match s with
  | EmptyString => [""%string]
  | String x s =>
      if Ascii.eqb x c then ""%string :: split_on c s
      else match split_on c s with
           | w :: ws => String x w :: ws
           | [] => [String x ""]
           end
  end.

Definition newline : ascii := "010"%char.
(** [while (std::getline(input, line))]. *)
Definition lines (s : string) : list string :=
  let ws := split_on newline s in
  match last ws with Some "" => removelast ws | _ => ws end.

Definition free_of (c : ascii) (s : string) : Prop := c ∉ String.list_ascii_of_string s.

Lemma split_on_nonempty c s : split_on c s ≠ [].
Proof. destruct s as [|x s]; [done|]. cbn. destruct (Ascii.eqb x c); [done|]. by destruct (split_on c s). Qed.

Lemma split_on_free c s : free_of c s → split_on c s = [s].
Proof.
  unfold free_of. induction s as [|x s IH]; [done|]. cbn. intros [Hx Hs]%not_elem_of_cons.
  rewrite (IH Hs). destruct (Ascii.eqb_spec x c); [by subst|done].
Qed.

Lemma split_on_app c a b : free_of c a → split_on c (a +:+ String c b) = a :: split_on c b.
Proof.
  unfold free_of. induction a as [|x a IH].
  - change ("" +:+ String c b) with (String c b). cbn [split_on]. by rewrite Ascii.eqb_refl.
  - change (String x a +:+ String c b) with (String x (a +:+ String c b)). cbn [split_on String.list_ascii_of_string].
    intros [Hx Ha]%not_elem_of_cons. rewrite (IH Ha). destruct (Ascii.eqb_spec x c); [by subst|done].
Qed.

Lemma lines_cons a b : free_of newline a → lines (a +:+ String newline b) = a :: lines b.
Proof.
  intros Ha. unfold lines. rewrite (split_on_app _ _ _ Ha). cbn zeta.
  pose proof (split_on_nonempty newline b) as Hne. destruct (split_on newline b) as [|w ws]; [done|].
  change (last (a :: w :: ws)) with (last (w :: ws)). change (removelast (a :: w :: ws)) with (a :: removelast (w :: ws)).
  by destruct (last (w :: ws)) as [[|]|].
Qed.
Lemma lines_nil : lines "" = [].
Proof. done. Qed.

(** ** Concatenation *)

Lemma length_append a b : String.length (a +:+ b) = (String.length a + String.length b)%nat.
Proof.
  induction a as [|x a IH]; [done|]. change (String x a +:+ b) with (String x (a +:+ b)). cbn [String.length]. by rewrite IH.
Qed.
Lemma substring_app_l a b : String.substring 0 (String.length a) (a +:+ b) = a.
Proof.
  induction a as [|x a IH]; [by destruct b|]. change (String x a +:+ b) with (String x (a +:+ b)). cbn. by rewrite IH.
Qed.
Lemma append_inj_l a b c : a +:+ b = a +:+ c → b = c.
Proof. induction a as [|x a IH]; [done|]. intros H. injection H. apply IH. Qed.
Lemma append_inj_r a b c : a +:+ c = b +:+ c → a = b.
Proof.
  intros H. assert (String.length a = String.length b) as Hl.
  { apply (f_equal String.length) in H. rewrite !length_append in H. lia. }
  rewrite <- (substring_app_l a c), <- (substring_app_l b c). by rewrite H, Hl.
Qed.
Lemma substring_app_r a b : String.substring (String.length a) (String.length b) (a +:+ b) = b.
Proof.
  induction a as [|x a IH].
  - change ("" +:+ b) with b. change (String.length "") with 0%nat. induction b as [|x b IHb]; [done|]. cbn. by rewrite IHb.
  - change (String x a +:+ b) with (String x (a +:+ b)). cbn. apply IH.
Qed.
Lemma append_assoc a b c : (a +:+ b) +:+ c = a +:+ (b +:+ c).
Proof. induction a as [|x a IH]; [done|]. change (String x ((a +:+ b) +:+ c) = String x (a +:+ (b +:+ c))). by rewrite IH. Qed.
