(* ===== verification/Auth.v ===== *)
(** * Users, passwords and roles

    src/utils/sha256.cc, src/core/role.cc and src/core/auth_manager.cc: the digest of
    a salted password, and the users file that stores it. *)

From Stdlib Require Import ZArith Lia Ascii.
From S2P Require Import Prelude CppNum FileSystem.

(** ** Hexadecimal *)

Definition hex_digit (n : Z) : ascii := ascii_of_N (Z.to_N (if n <? 10 then 48 + n else 87 + n)).
Fixpoint to_hex (bytes : list Z) : string :=
  match bytes with
  | [] => ""
  | b :: bytes => String (hex_digit (Z.land (Z.shiftr b 4) 15)) (String (hex_digit (Z.land b 15)) (to_hex bytes))
  end.

Definition nibble (c : ascii) : option Z :=
  let n := Z.of_N (N_of_ascii c) in
  if (48 <=? n) && (n <=? 57) then Some (n - 48)
  else if (97 <=? n) && (n <=? 102) then Some (n - 97 + 10)
  else if (65 <=? n) && (n <=? 70) then Some (n - 65 + 10)
  else None.
(** [None]: an odd length or a character that is no digit. *)
Fixpoint hex_pairs (hex : string) : option (list Z) :=
  match hex with
  | EmptyString => Some []
  | String h (String l hex) =>
      high ← nibble h; low ← nibble l; rest ← hex_pairs hex;
      Some (Z.lor (Z.shiftl high 4) low :: rest)
  | String _ EmptyString => None
  end.
Definition from_hex (hex : string) : list Z := default [] (hex_pairs hex).

(** ** SHA-256 *)

Definition rotate_right (v bits : Z) : Z := Z.lor (Z.shiftr v bits) (u_wrap 32 (Z.shiftl v (32 - bits))).

(** The first sixteen words of the schedule. *)
Fixpoint block_words (block : list Z) : list Z :=
  match block with
  | b0 :: b1 :: b2 :: b3 :: block =>
      Z.lor (Z.lor (Z.lor (Z.shiftl b0 24) (Z.shiftl b1 16)) (Z.shiftl b2 8)) b3 :: block_words block
  | _ => []
  end.

(** The constants of the rounds, eight words to a line. *)
Definition kSha256K : list Z :=
  Eval vm_compute in block_words (mjoin (from_hex <$> mjoin (split_on " " <$> [
   "428a2f98 71374491 b5c0fbcf e9b5dba5 3956c25b 59f111f1 923f82a4 ab1c5ed5";
   "d807aa98 12835b01 243185be 550c7dc3 72be5d74 80deb1fe 9bdc06a7 c19bf174";
   "e49b69c1 efbe4786 0fc19dc6 240ca1cc 2de92c6f 4a7484aa 5cb0a9dc 76f988da";
   "983e5152 a831c66d b00327c8 bf597fc7 c6e00bf3 d5a79147 06ca6351 14292967";
   "27b70a85 2e1b2138 4d2c6dfc 53380d13 650a7354 766a0abb 81c2c92e 92722c85";
   "a2bfe8a1 a81a664b c24b8b70 c76c51a3 d192e819 d6990624 f40e3585 106aa070";
   "19a4c116 1e376c08 2748774c 34b0bcb5 391c0cb3 4ed8aa4a 5b9cca4f 682e6ff3";
   "748f82ee 78a5636f 84c87814 8cc70208 90befffa a4506ceb bef9a3f7 c67178f2"])))%string.

Definition next_word (w : list Z) : Z :=
  let at' j := default 0 (w !! (length w - j)%nat) in
  let s0 := Z.lxor (Z.lxor (rotate_right (at' 15%nat) 7) (rotate_right (at' 15%nat) 18)) (Z.shiftr (at' 15%nat) 3) in
  let s1 := Z.lxor (Z.lxor (rotate_right (at' 2%nat) 17) (rotate_right (at' 2%nat) 19)) (Z.shiftr (at' 2%nat) 10) in
  u_wrap 32 (at' 16%nat + s0 + at' 7%nat + s1).
Fixpoint extend_words (k : nat) (w : list Z) : list Z :=
  match k with O => w | S k => extend_words k (w ++ [next_word w]) end.

Record ShaState : Type := mkSha { sa : Z; sb : Z; sc : Z; sd : Z; se : Z; sf : Z; sg : Z; sh : Z }.

Definition sha_round (s : ShaState) (kw : Z * Z) : ShaState :=
  let e := se s in
  let a := sa s in
  let s1 := Z.lxor (Z.lxor (rotate_right e 6) (rotate_right e 11)) (rotate_right e 25) in
  let ch := Z.lxor (Z.land e (sf s)) (Z.land (u_wrap 32 (Z.lnot e)) (sg s)) in
  let temp1 := u_wrap 32 (sh s + s1 + ch + kw.1 + kw.2) in
  let s0 := Z.lxor (Z.lxor (rotate_right a 2) (rotate_right a 13)) (rotate_right a 22) in
  let maj := Z.lxor (Z.lxor (Z.land a (sb s)) (Z.land a (sc s))) (Z.land (sb s) (sc s)) in
  let temp2 := u_wrap 32 (s0 + maj) in
  mkSha (u_wrap 32 (temp1 + temp2)) a (sb s) (sc s) (u_wrap 32 (sd s + temp1)) e (sf s) (sg s).

Definition process_block (s : ShaState) (block : list Z) : ShaState :=
  let t := foldl sha_round s (zip kSha256K (extend_words 48 (block_words block))) in
  mkSha (u_wrap 32 (sa s + sa t)) (u_wrap 32 (sb s + sb t)) (u_wrap 32 (sc s + sc t)) (u_wrap 32 (sd s + sd t))
        (u_wrap 32 (se s + se t)) (u_wrap 32 (sf s + sf t)) (u_wrap 32 (sg s + sg t)) (u_wrap 32 (sh s + sh t)).

Definition sha_init : ShaState :=
  mkSha 0x6a09e667 0xbb67ae85 0x3c6ef372 0xa54ff53a 0x510e527f 0x9b05688c 0x1f83d9ab 0x5be0cd19.

(** The blocks of 64 bytes, and what is left. *)
Fixpoint full_blocks (fuel : nat) (s : ShaState) (data : list Z) : ShaState * list Z :=
  match fuel with
  | O => (s, data)
  | S fuel =>
      if (64 <=? length data)%nat then full_blocks fuel (process_block s (take 64 data)) (drop 64 data)
      else (s, data)
  end.

Definition be_bytes (n : nat) (v : Z) : list Z := rev (le_bytes n v).
Definition digest_bytes (s : ShaState) : list Z :=
  mjoin (be_bytes 4 <$> [sa s; sb s; sc s; sd s; se s; sf s; sg s; sh s]).

Definition sha256 (data : list Z) : list Z :=
  let '(s, rest) := full_blocks (length data) sha_init data in
  let block := rest ++ 0x80 :: replicate (63 - length rest) 0 in
  let '(s, block) := if (56 <=? length rest)%nat then (process_block s block, replicate 64 0) else (s, block) in
  let bit_length := u_wrap 64 (Z.of_nat (length data) * 8) in
  digest_bytes (process_block s (take 56 block ++ be_bytes 8 bit_length)).

(** ** Roles *)

Inductive Role : Type := Admin | Reader.
#[export] Instance Role_eq_dec : EqDecision Role.
Proof. solve_decision. Defined.
Definition parse_role (name : string) : option Role :=
  if bool_decide (name = "admin") then Some Admin
  else if bool_decide (name = "reader") then Some Reader
  else None.
Definition role_to_string (r : Role) : string := match r with Admin => "admin" | Reader => "reader" end.

(** ** The users file *)

Definition SALT_SIZE : nat := 16.
Record UserRecord : Type := mkUser {
  user_role : Role;
  user_salt : list Z;
  user_hash : list Z
}.
Abbreviation Users := (gmap string UserRecord).

Definition blank (c : ascii) : bool := Ascii.eqb c " " || Ascii.eqb c "009" || Ascii.eqb c "013".
Fixpoint trim_left (s : string) : string :=
  match s with String c r => if blank c then trim_left r else s | EmptyString => "" end.
Fixpoint trim_right (s : string) : string :=
  match s with
  | EmptyString => ""
  | String c r =>
      match trim_right r with
      | EmptyString => if blank c then "" else String c ""
      | r' => String c r'
      end
  end.
Definition trim_whitespace (s : string) : string := trim_right (trim_left s).
Definition split_colon : string → list string := split_on ":".

Definition bad_line (line_number : Z) (reason : string) : exn :=
  std_runtime_error ("Invalid auth line " +:+ std_to_string line_number +:+ ": " +:+ reason).
Definition parse_line (line : string) (line_number : Z) : res UserRecord :=
  match split_colon line with
  | [username; role; salt; hash] =>
      if bool_decide (username = "") then Throw (bad_line line_number "empty username")
      else match parse_role role with
      | None => Throw (bad_line line_number "unknown role")
      | Some role =>
          let record := mkUser role (from_hex salt) (from_hex hash) in
          if negb (length (user_salt record) =? SALT_SIZE)%nat then Throw (bad_line line_number "salt must be 16 bytes")
          else if negb (length (user_hash record) =? 32)%nat then Throw (bad_line line_number "hash must be 32 bytes")
          else Ok record
      end
  | _ => Throw (bad_line line_number "expected username:role:salt_hex:hash_hex")
  end.

Definition comment_or_blank (line : string) : bool :=
  match line with EmptyString => true | String c _ => Ascii.eqb c "#" end.
Definition load_line (acc : Z * Users) (line : string) : res (Z * Users) :=
  let line_number := acc.1 + 1 in
  let trimmed := trim_whitespace line in
  if comment_or_blank trimmed then Ok (line_number, acc.2)
  else
    record ← parse_line trimmed line_number;
    Ok (line_number, <[default "" (head (split_colon trimmed)) := record]> acc.2).
(** The users read before a bad line stay. *)
Fixpoint load_lines (acc : Z * Users) (ls : list string) : Users * res unit :=
  match ls with
  | [] => (acc.2, Ok tt)
  | line :: ls =>
      match load_line acc line with
      | Ok acc => load_lines acc ls
      | Throw e => (acc.2, Throw e)
      | UB => (acc.2, UB)
      end
  end.
Definition load_from_file (path : string) (fs : Fs) : ST Users unit := λ users,
  match fs_read path fs with
  | None => (users, Throw (std_runtime_error ("Failed to open auth file: " +:+ path)))
  | Some text => load_lines (0, ∅) (lines text)
  end.

Definition hash_password (salt : list Z) (password : string) : list Z := sha256 (salt ++ bytes_of_string password).

Definition authenticate (users : Users) (username password : string) : option Role :=
  match users !! username with
  | None => None
  | Some u => if bool_decide (hash_password (user_salt u) password = user_hash u) then Some (user_role u) else None
  end.
Definition has_users (users : Users) : bool := negb (bool_decide (users = ∅)).

Definition users_header : string := "# NoBugDB users.conf — username:role:salt_hex:hash_hex".
Definition user_line (u : string * UserRecord) : string :=
  u.1 +:+ ":" +:+ role_to_string (user_role u.2) +:+ ":" +:+ to_hex (user_salt u.2) +:+ ":" +:+ to_hex (user_hash u.2).
Fixpoint unlines (ls : list string) : string :=
  match ls with [] => "" | l :: ls => l +:+ String newline (unlines ls) end.
Definition users_text (listed : list (string * UserRecord)) : string := unlines (users_header :: (user_line <$> listed)).

(** The directory part of a path, if there is one. *)
Fixpoint last_slash (i : nat) (s : string) : option nat :=
  match s with
  | EmptyString => None
  | String c s =>
      match last_slash (S i) s with
      | Some k => Some k
      | None => if Ascii.eqb c "/" || Ascii.eqb c "\" then Some i else None
      end
  end.
Definition fail (msg : string) {A} : ST Fs A := st_throw (std_runtime_error msg).

(** [listed] is the order in which the unordered map is walked. *)
Definition save_to_file (path : string) (listed : list (string * UserRecord)) : ST Fs unit :=
  (match last_slash 0 path with
   | Some (S k) =>
       let directory := String.substring 0 (S k) path in
       s ← st_get;
       if places s directory then mret tt else fail ("Failed to create auth directory: " +:+ directory)
   | _ => mret tt
   end);;
  let temp_path := path +:+ ".tmp" in
  ok ← fs_write temp_path (users_text listed);
  match ok with
  | None => fail ("Failed to write auth file: " +:+ temp_path)
  | Some _ => st_catch (fs_rename temp_path path) (λ _, fail ("Failed to replace auth file: " +:+ path))
  end.

(** [salt] is what the random device gives. *)
Definition bootstrap_admin (path password : string) (salt : list Z) (users : Users)
    (listing : Users → list (string * UserRecord)) : ST Fs Users :=
  let users := <["admin" := mkUser Admin salt (hash_password salt password)]> users in
  save_to_file path (listing users);; mret users.

(** ** The digest is the one of FIPS 180-4 *)

(** The message padded to a multiple of 64 bytes: a one bit, zeros, the length in bits. *)
Definition padded (data : list Z) : list Z :=
  data ++ [0x80] ++ replicate (Z.to_nat ((55 - Z.of_nat (length data)) mod 64)) 0
  ++ be_bytes 8 (Z.of_nat (length data) * 8).
Fixpoint chunks_from (fuel n : nat) (l : list Z) : list (list Z) :=
  match fuel, l with
  | S fuel, _ :: _ => take n l :: chunks_from fuel n (drop n l)
  | _, _ => []
  end.
Definition chunks (n : nat) (l : list Z) : list (list Z) := chunks_from (length l) n l.
Definition fips_sha256 (data : list Z) : list Z :=
  digest_bytes (foldl process_block sha_init (chunks 64 (padded data))).

Lemma chunks_from_fuel n l : (0 < n)%nat → ∀ fuel fuel', (length l ≤ fuel)%nat → (length l ≤ fuel')%nat →
  chunks_from fuel n l = chunks_from fuel' n l.
Proof.
  intros Hn fuel. revert l. induction fuel as [|fuel IH]; intros l fuel' H1 H2.
  { destruct l; [by destruct fuel'|cbn in H1; lia]. }
  destruct l as [|x l]; [by destruct fuel'|]. destruct fuel' as [|fuel']; [cbn in H2; lia|].
  cbn [chunks_from]. f_equal. apply IH; rewrite length_drop; cbn in *; lia.
Qed.

Lemma chunks_app n a b : (0 < n)%nat → length a = n → chunks n (a ++ b) = a :: chunks n b.
Proof.
  intros Hn Ha. unfold chunks. destruct a as [|x a]; [cbn in Ha; lia|].
  rewrite length_app. cbn [length Nat.add app chunks_from]. change (x :: a ++ b) with ((x :: a) ++ b).
  rewrite take_app_length', drop_app_length' by done. f_equal. apply chunks_from_fuel; [done|lia..].
Qed.
Lemma chunks_one n a : (0 < n)%nat → length a = n → chunks n a = [a].
Proof. intros Hn Ha. rewrite <- (app_nil_r a) at 1. by rewrite chunks_app. Qed.

Lemma full_blocks_chunks tail : ∀ fuel s data, (length data ≤ fuel)%nat →
  let '(s', rest) := full_blocks fuel s data in
  (length rest < 64)%nat ∧ length rest = (length data mod 64)%nat ∧
  foldl process_block s (chunks 64 (data ++ tail)) = foldl process_block s' (chunks 64 (rest ++ tail)).
Proof.
  induction fuel as [|fuel IH]; intros s data Hf; cbn [full_blocks].
  { destruct data; [|cbn in Hf; lia]. split; [cbn; lia|done]. }
  destruct (Nat.leb_spec 64 (length data)) as [Hl|Hl].
  2:{ split; [done|]. split; [by rewrite Nat.mod_small|done]. }
  specialize (IH (process_block s (take 64 data)) (drop 64 data)). rewrite length_drop in IH.
  destruct (full_blocks fuel _ _) as [s' rest]. destruct IH as (H1 & H2 & H3); [lia|]. split; [done|]. split.
  - rewrite H2. replace (length data) with ((length data - 64) + 1 * 64)%nat at 2 by lia. by rewrite Nat.Div0.mod_add.
  - rewrite <- H3. rewrite <- (take_drop 64 data) at 1. rewrite <- app_assoc, chunks_app by (rewrite ?length_take; lia). done.
Qed.

Lemma length_be_bytes n v : length (be_bytes n v) = n.
Proof. unfold be_bytes, le_bytes. by rewrite length_rev, length_fmap, length_seq. Qed.

Lemma take_pad (rest : list Z) : (length rest < 56)%nat →
  take 56 (rest ++ 0x80 :: replicate (63 - length rest) 0) = rest ++ 0x80 :: replicate (55 - length rest) 0.
Proof.
  intros Hr. rewrite take_app_ge by lia. f_equal. replace (56 - length rest)%nat with (S (55 - length rest)) by lia.
  cbn [take]. f_equal. rewrite take_replicate. f_equal. lia.
Qed.

(** The digest loop, with its two ways of ending, computes SHA-256 as the standard
    defines it, the compression function folded over the padded message, for inputs of less
    than 2^61 bytes. *)
Theorem sha256_is_fips data : Z.of_nat (length data) < 2 ^ 61 → sha256 data = fips_sha256 data.
Proof.
  intros Hlen. unfold sha256, fips_sha256, padded.
  set (bits := be_bytes 8 (Z.of_nat (length data) * 8)).
  set (zeros := Z.to_nat ((55 - Z.of_nat (length data)) mod 64)).
  assert (u_wrap 64 (Z.of_nat (length data) * 8) = Z.of_nat (length data) * 8) as -> by (unfold u_wrap; rewrite Z.mod_small; lia).
  fold bits. pose proof (length_be_bytes 8 (Z.of_nat (length data) * 8)) as Hb. fold bits in Hb.
  pose proof (full_blocks_chunks ([0x80] ++ replicate zeros 0 ++ bits) (length data) sha_init data (le_n _)) as Hf.
  destruct (full_blocks _ _ _) as [s rest]. destruct Hf as (Hr & Hm & ->). f_equal.
  assert (Hz : zeros = if (56 <=? length rest)%nat then (119 - length rest)%nat else (55 - length rest)%nat).
  { unfold zeros. pose proof (Nat2Z.inj_mod (length data) 64) as E. rewrite <- Hm in E. change (Z.of_nat 64) with 64 in E.
    rewrite Zminus_mod, <- E. change (55 mod 64) with 55.
    destruct (Nat.leb_spec 56 (length rest)).
    - replace (55 - Z.of_nat (length rest)) with (119 - Z.of_nat (length rest) + (-1) * 64) by lia.
      rewrite Z.mod_add, Z.mod_small; lia.
    - rewrite Z.mod_small; lia. }
  destruct (Nat.leb_spec 56 (length rest)).
  - assert (rest ++ [0x80] ++ replicate zeros 0 ++ bits =
      (rest ++ 0x80 :: replicate (63 - length rest) 0) ++ (replicate 56 0 ++ bits)) as ->.
    { rewrite Hz, <- !app_assoc. f_equal. cbn [app]. f_equal.
      replace (119 - length rest)%nat with ((63 - length rest) + 56)%nat by lia. by rewrite replicate_add, <- app_assoc. }
    rewrite chunks_app by (rewrite ?length_app; cbn [length]; rewrite ?length_replicate; lia).
    rewrite chunks_one by (rewrite ?length_app, ?length_replicate; lia). cbn [foldl].
    done.
  - rewrite take_pad by done. rewrite Hz.
    rewrite (chunks_one 64); [by rewrite <- app_assoc|lia|].
    rewrite !length_app, length_replicate. cbn [length]. lia.
Qed.

Definition abc_digest : list Z := from_hex "ba7816bf8f01cfea414140de5dae2223b00361a396177a9cb410ff61f20015ad".
Lemma sha256_is_fips_witness : fips_sha256 (bytes_of_string "abc") = abc_digest.
Proof. rewrite <- (sha256_is_fips (bytes_of_string "abc")); [vm_compute; reflexivity|vm_compute; reflexivity]. Defined.
Example sha256_two_blocks :
  to_hex (sha256 (bytes_of_string "abcdbcdecdefdefgefghfghighijhijkijkljklmklmnlmnomnopnopq"))
  = "248d6a61d20638b8e5c026930c3e6039a33ce45964ff2167f6ecedd419db06c1"%string.
Proof. vm_compute. reflexivity. Qed.

(** ** Hexadecimal text is read back *)

Lemma byte_cases (P : Z → bool) : forallb (λ n, P (Z.of_nat n)) (seq 0 256) = true → ∀ b, is_u8 b → P b = true.
Proof.
  intros Hall b Hb. unfold is_u in Hb. rewrite forallb_forall in Hall.
  rewrite <- (Z2Nat.id b) by lia. apply Hall, in_seq. lia.
Qed.

Definition hex_char (c : ascii) : bool := negb (blank c) && negb (Ascii.eqb c ":") && negb (Ascii.eqb c newline).

Definition hex_ok (b : Z) : bool :=
  let h := hex_digit (Z.land (Z.shiftr b 4) 15) in
  let l := hex_digit (Z.land b 15) in
  bool_decide (nibble h = Some (Z.land (Z.shiftr b 4) 15)) && bool_decide (nibble l = Some (Z.land b 15)) &&
  (Z.lor (Z.shiftl (Z.land (Z.shiftr b 4) 15) 4) (Z.land b 15) =? b) && hex_char h && hex_char l.

Lemma hex_byte b : is_u8 b →
  let h := hex_digit (Z.land (Z.shiftr b 4) 15) in
  let l := hex_digit (Z.land b 15) in
  nibble h = Some (Z.land (Z.shiftr b 4) 15) ∧ nibble l = Some (Z.land b 15) ∧
  Z.lor (Z.shiftl (Z.land (Z.shiftr b 4) 15) 4) (Z.land b 15) = b ∧ hex_char h = true ∧ hex_char l = true.
Proof.
  intros Hb h l. assert (hex_ok b = true) as H by (apply (byte_cases hex_ok); [vm_compute; reflexivity|done]).
  unfold hex_ok in H. fold h l in H. rewrite !andb_true_iff, !bool_decide_eq_true, Z.eqb_eq in H. tauto.
Qed.

Lemma hex_roundtrip bytes : Forall (is_u 8) bytes → from_hex (to_hex bytes) = bytes.
Proof.
  intros Hb. unfold from_hex. assert (hex_pairs (to_hex bytes) = Some bytes) as ->; [|done].
  induction Hb as [|b bytes Hb _ IH]; [done|]. cbn [to_hex hex_pairs].
  destruct (hex_byte b Hb) as (-> & -> & E & _). cbn [mbind option_bind]. rewrite IH. cbn [mbind option_bind]. by rewrite E.
Qed.

Lemma to_hex_chars bytes : Forall (is_u 8) bytes → Forall (λ c, hex_char c = true) (String.list_ascii_of_string (to_hex bytes)).
Proof.
  induction 1 as [|b bytes Hb _ IH]; [constructor|]. cbn. destruct (hex_byte b Hb) as (_ & _ & _ & ? & ?). by repeat constructor.
Qed.

Lemma hex_free c bytes : Forall (is_u 8) bytes → hex_char c = false → free_of c (to_hex bytes).
Proof. intros Hb Hc Hin. pose proof (to_hex_chars bytes Hb) as H. rewrite Forall_forall in H. specialize (H c Hin). congruence. Qed.

(** ** The users file is read back *)

Record valid_user (name : string) (u : UserRecord) : Prop := {
  vu_name : free_of ":" name ∧ free_of newline name;
  vu_first : match name with String c _ => blank c = false ∧ Ascii.eqb c "#" = false | EmptyString => False end;
  vu_salt : length (user_salt u) = SALT_SIZE ∧ Forall (is_u 8) (user_salt u);
  vu_hash : length (user_hash u) = 32%nat ∧ Forall (is_u 8) (user_hash u)
}.

Lemma append_nonempty a b : b ≠ ""%string → a +:+ b ≠ ""%string.
Proof. by destruct a. Qed.

Lemma trim_right_app a b : b ≠ ""%string → trim_right b = b → trim_right (a +:+ b) = a +:+ b.
Proof.
  intros Hne Hb. induction a as [|c a IH]; [done|]. change (String c a +:+ b) with (String c (a +:+ b)).
  cbn [trim_right]. rewrite IH. destruct a; [|done]. change ("" +:+ b) with b. by destruct b.
Qed.

Lemma trim_right_chars s : Forall (λ c, blank c = false) (String.list_ascii_of_string s) → trim_right s = s.
Proof.
  induction s as [|c s IH]; [done|]. cbn [String.list_ascii_of_string]. intros [Hc Hs]%Forall_cons_iff. cbn [trim_right]. rewrite (IH Hs).
  destruct s; [by rewrite Hc|done].
Qed.

Lemma chars_app a b : String.list_ascii_of_string (a +:+ b) = String.list_ascii_of_string a ++ String.list_ascii_of_string b.
Proof. induction a as [|c a IH]; [done|]. change (String c a +:+ b) with (String c (a +:+ b)). cbn. by rewrite IH. Qed.
Lemma free_of_app c a b : free_of c a → free_of c b → free_of c (a +:+ b).
Proof. unfold free_of. rewrite chars_app. intros Ha Hb [?|?]%elem_of_app; [by apply Ha|by apply Hb]. Qed.

Section user_line.
Context (name : string) (u : UserRecord) (Hv : valid_user name u).

Lemma user_line_free : free_of newline (user_line (name, u)).
Proof.
  destruct Hv as [[_ Hn] _ [_ Hs] [_ Hh]]. unfold user_line. cbn [fst snd].
  assert (free_of newline ":") by (unfold free_of; cbn; set_solver).
  assert (free_of newline (role_to_string (user_role u))) by (destruct (user_role u); unfold free_of; cbn; set_solver).
  repeat apply free_of_app; try done; by apply hex_free.
Qed.

Lemma user_line_trim : trim_whitespace (user_line (name, u)) = user_line (name, u).
Proof.
  destruct Hv as [_ Hf _ [Hl Hh]]. unfold trim_whitespace.
  assert (trim_left (user_line (name, u)) = user_line (name, u)) as ->.
  { unfold user_line. cbn [fst snd]. destruct name as [|c rest]; [done|]. destruct Hf as [Hb _].
    change (String c rest +:+ ?x) with (String c (rest +:+ x)). cbn [trim_left]. by rewrite Hb. }
  unfold user_line. cbn [fst snd]. assert (to_hex (user_hash u) ≠ ""%string) as Hne by (destruct (user_hash u); [done|by cbn]).
  assert (trim_right (to_hex (user_hash u)) = to_hex (user_hash u)) as Ht.
  { apply trim_right_chars. eapply Forall_impl; [by apply to_hex_chars|]. intros c Hc. unfold hex_char in Hc. bool_prop. by destruct (blank c). }
  repeat (apply trim_right_app; [by repeat apply append_nonempty|]). done.
Qed.

Lemma user_line_fields : split_colon (user_line (name, u)) =
  [name; role_to_string (user_role u); to_hex (user_salt u); to_hex (user_hash u)].
Proof.
  destruct Hv as [[Hn _] _ [_ Hs] [_ Hh]]. unfold user_line, split_colon. cbn [fst snd].
  assert (∀ (a b : string), ":" +:+ b = String ":" b) as Hc by done. rewrite !Hc by exact ""%string.
  rewrite split_on_app by done. rewrite split_on_app by (destruct (user_role u); unfold free_of; cbn; set_solver).
  rewrite split_on_app by (by apply hex_free). by rewrite split_on_free by (by apply hex_free).
Qed.

Lemma load_user_line k users : load_line (k, users) (user_line (name, u)) = Ok (k + 1, <[name := u]> users).
Proof.
  unfold load_line. cbn [fst snd]. rewrite user_line_trim.
  assert (comment_or_blank (user_line (name, u)) = false) as ->.
  { destruct Hv as [_ Hf _ _]. unfold user_line. cbn [fst snd]. destruct name as [|c rest]; [done|]. destruct Hf as [_ Hf].
    change (String c rest +:+ ?x) with (String c (rest +:+ x)). done. }
  unfold parse_line. rewrite user_line_fields. destruct Hv as [_ Hf [Hsl Hs] [Hhl Hh]].
  rewrite bool_decide_false by (by destruct name). assert (parse_role (role_to_string (user_role u)) = Some (user_role u)) as ->
    by (by destruct (user_role u)).
  cbn [user_salt user_hash]. rewrite !hex_roundtrip, Hsl, Hhl by done. cbn [Nat.eqb negb SALT_SIZE mbind res_bind head default]. by destruct u.
Qed.
End user_line.

Lemma load_user_lines listed : Forall (λ u, valid_user u.1 u.2) listed → ∀ k users,
  load_lines (k, users) (user_line <$> listed) = (foldl (λ m u, <[u.1 := u.2]> m) users listed, Ok tt).
Proof.
  induction 1 as [|[name u] listed Hv _ IH]; intros k users; [done|]. rewrite fmap_cons. cbn [load_lines foldl].
  rewrite (load_user_line name u Hv). apply IH.
Qed.

Lemma lines_unlines ls : Forall (free_of newline) ls → lines (unlines ls) = ls.
Proof. induction 1 as [|l ls Hl _ IH]; [done|]. cbn [unlines]. by rewrite lines_cons, IH. Qed.

Lemma foldl_insert_listed (listed : list (string * UserRecord)) (users : gmap string UserRecord) :
  listed ≡ₚ map_to_list users → foldl (λ m u, <[u.1 := u.2]> m) (∅ : gmap string UserRecord) listed = users.
Proof.
  intros Hp. assert (foldl (λ m u, <[u.1 := u.2]> m) (∅ : gmap string UserRecord) listed = list_to_map (reverse listed)) as ->.
  { induction listed as [|[k v] l IH] using rev_ind; [done|]. clear IH Hp.
    assert (∀ l, foldl (λ m u, <[u.1 := u.2]> m) (∅ : gmap string UserRecord) l = list_to_map (reverse l)) as H; [|apply H].
    intros l'. induction l' as [|x l' IH'] using rev_ind; [done|]. rewrite foldl_app, reverse_snoc. cbn. by rewrite IH'. }
  rewrite <- (list_to_map_to_list users). apply list_to_map_proper.
  - rewrite reverse_Permutation, Hp. apply NoDup_fst_map_to_list.
  - by rewrite reverse_Permutation.
Qed.

(** The users file round-trips: written in whatever order the unordered map is
    walked and read again, it gives the same users, with their roles, salts and
    digests, so that every login succeeds or fails as before. *)
Theorem users_file_roundtrip path users listed fs :
  listed ≡ₚ map_to_list users → map_Forall valid_user users →
  opens fs (path +:+ ".tmp") = true → writes fs (path +:+ ".tmp") = true → (∀ p, places fs p = true) →
  ∃ fs', save_to_file path listed fs = (fs', Ok tt) ∧ ∀ before, load_from_file path fs' before = (users, Ok tt).
Proof.
  intros Hp Hv Ho Hw Hpl. eexists. split.
  - unfold save_to_file. rewrite ST_bind_eq.
    assert ((match last_slash 0 path with
      | Some (S k) => s ← st_get; if places s (String.substring 0 (S k) path) then mret tt
                      else fail ("Failed to create auth directory: " +:+ String.substring 0 (S k) path)
      | _ => mret tt end) fs = (fs, Ok tt)) as ->.
    { destruct (last_slash 0 path) as [[|k]|]; [done| |done]. rewrite ST_bind_eq. cbn [st_get]. by rewrite Hpl. }
    rewrite ST_bind_eq. unfold fs_write. rewrite Ho, Hw. cbn [negb]. unfold st_catch, fs_rename. cbn [files set_files places].
    rewrite lookup_insert_eq, Hpl. reflexivity.
  - intros before. unfold load_from_file, fs_read. cbn [files set_files]. rewrite lookup_insert_eq. unfold users_text.
    assert (Forall (λ u, valid_user u.1 u.2) listed) as Hl.
    { apply Forall_forall. intros [name u] Hin. rewrite Hp in Hin. apply elem_of_map_to_list in Hin. by apply (Hv name u). }
    rewrite lines_unlines.
    + cbn [load_lines]. unfold load_line at 1. cbn [fst snd]. change (comment_or_blank (trim_whitespace users_header)) with true.
      cbn iota. rewrite (load_user_lines listed Hl). by rewrite (foldl_insert_listed listed users).
    + constructor; [unfold free_of; apply (bool_decide_unpack _); vm_compute; exact I|]. apply Forall_fmap. eapply Forall_impl; [exact Hl|].
      intros [name u] Hu. by apply user_line_free.
Qed.

Definition ada_salt : list Z := Z.of_nat <$> seq 1 16.
Definition ada_user : UserRecord := mkUser Reader ada_salt (hash_password ada_salt "lovelace").
Definition sample_fs : Fs := mkFs ∅ (λ _, true) (λ _, true) (λ _, true) (λ _, true).

Lemma users_file_roundtrip_witness :
  ∃ fs', save_to_file "data/users.conf" [("ada"%string, ada_user)] sample_fs = (fs', Ok tt) ∧
    load_from_file "data/users.conf" fs' ∅ = ({["ada"%string := ada_user]}, Ok tt) ∧
    authenticate {["ada"%string := ada_user]} "ada" "lovelace" = Some Reader ∧
    authenticate {["ada"%string := ada_user]} "ada" "byron" = None.
Proof.
  destruct (users_file_roundtrip "data/users.conf" {["ada"%string := ada_user]} [("ada"%string, ada_user)] sample_fs)
    as (fs' & Hs & Hl); [by rewrite map_to_list_singleton| |done..|].
  - intros name u [<- <-]%lookup_singleton_Some. split.
    + split; apply (bool_decide_unpack _); vm_compute; exact I.
    + done.
    + split; [done|]. apply (bool_decide_unpack _). vm_compute. exact I.
    + split; [done|]. apply (bool_decide_unpack _). vm_compute. exact I.
  - exists fs'. split; [exact Hs|]. split; [exact (Hl ∅)|]. split; vm_compute; reflexivity.
Defined.

(** The stream is not tested after the last write: on a full disk the users file is
    replaced by an empty one, and no error is reported. *)
Example full_disk_loses_users :
  let fs := mkFs {["users.conf"%string := users_text [("ada"%string, ada_user)]]} (λ _, true) (λ _, false) (λ _, true) (λ _, true) in
  let '(fs', r) := save_to_file "users.conf" [("ada"%string, ada_user)] fs in
  r = Ok tt ∧ fst (load_from_file "users.conf" fs' ∅) = ∅ ∧ authenticate ∅ "ada" "lovelace" = None.
Proof. vm_compute. done. Qed.
