(* ===== verification/Sessions.v ===== *)
(** * Sessions, the plan cache and the rights of a role

    src/core/session_context.cc, plan_cache.cc and authorization.cc. *)

From Stdlib Require Import ZArith Lia.
From S2P Require Import Prelude CppNum Values Rows Transactions Expr Evaluator Partition RowHeap Table Operators Lexer Ast Parser ParserSafe Auth.

(** ** A session *)

Record SessionContext : Type := mkSession {
  session_id : Z;
  in_transaction : bool;
  transaction_id : Z;
  snapshot : option TransactionSnapshot;
  prepared_statements : smap string;
  authenticated : bool;
  username : string;
  role : option Role;
  session_trigger_depth : Z;
  pinned_shard_id : option Z;
  remote_transaction_started : bool
}.

(** [next] is the counter of the process. *)
Definition new_SessionContext (next : Z) : SessionContext * Z :=
  (mkSession next false 0 None [] false "" None 0 None false, u_wrap 64 (next + 1)).

Definition set_in_transaction (b : bool) (s : SessionContext) : SessionContext :=
  mkSession (session_id s) b (transaction_id s) (snapshot s) (prepared_statements s) (authenticated s) (username s)
    (role s) (session_trigger_depth s) (pinned_shard_id s) (remote_transaction_started s).
Definition set_transaction_id (x : Z) (s : SessionContext) : SessionContext :=
  mkSession (session_id s) (in_transaction s) x (snapshot s) (prepared_statements s) (authenticated s) (username s)
    (role s) (session_trigger_depth s) (pinned_shard_id s) (remote_transaction_started s).
Definition set_session_snapshot (sn : option TransactionSnapshot) (s : SessionContext) : SessionContext :=
  mkSession (session_id s) (in_transaction s) (transaction_id s) sn (prepared_statements s) (authenticated s) (username s)
    (role s) (session_trigger_depth s) (pinned_shard_id s) (remote_transaction_started s).
Definition clear_snapshot : SessionContext → SessionContext := set_session_snapshot None.
Definition set_prepared (ps : smap string) (s : SessionContext) : SessionContext :=
  mkSession (session_id s) (in_transaction s) (transaction_id s) (snapshot s) ps (authenticated s) (username s)
    (role s) (session_trigger_depth s) (pinned_shard_id s) (remote_transaction_started s).
Definition set_auth (a : bool) (u : string) (r : option Role) (s : SessionContext) : SessionContext :=
  mkSession (session_id s) (in_transaction s) (transaction_id s) (snapshot s) (prepared_statements s) a u
    r (session_trigger_depth s) (pinned_shard_id s) (remote_transaction_started s).
Definition set_session_trigger_depth (d : Z) (s : SessionContext) : SessionContext :=
  mkSession (session_id s) (in_transaction s) (transaction_id s) (snapshot s) (prepared_statements s) (authenticated s)
    (username s) (role s) d (pinned_shard_id s) (remote_transaction_started s).
Definition set_shard (shard : option Z) (started : bool) (s : SessionContext) : SessionContext :=
  mkSession (session_id s) (in_transaction s) (transaction_id s) (snapshot s) (prepared_statements s) (authenticated s)
    (username s) (role s) (session_trigger_depth s) shard started.

Definition put_prepared (name sql : string) (s : SessionContext) : SessionContext :=
  set_prepared (sm_set name sql (prepared_statements s)) s.
Definition get_prepared (name : string) (s : SessionContext) : option string := sm_find name (prepared_statements s).
Definition remove_prepared (name : string) (s : SessionContext) : SessionContext * bool :=
  (set_prepared (sm_erase name (prepared_statements s)) s, sm_has name (prepared_statements s)).
Definition clear_prepared : SessionContext → SessionContext := set_prepared [].
Definition clear_auth : SessionContext → SessionContext := set_auth false "" None.
Definition enter_trigger (s : SessionContext) : SessionContext := set_session_trigger_depth (session_trigger_depth s + 1) s.
Definition leave_trigger (s : SessionContext) : SessionContext :=
  if 0 <? session_trigger_depth s then set_session_trigger_depth (session_trigger_depth s - 1) s else s.
Definition set_pinned_shard_id (shard : Z) (s : SessionContext) : SessionContext :=
  set_shard (Some shard) (remote_transaction_started s) s.
Definition clear_pinned_shard_id : SessionContext → SessionContext := set_shard None false.
Definition set_remote_transaction_started (started : bool) (s : SessionContext) : SessionContext :=
  set_shard (pinned_shard_id s) started s.

(** ** The plan cache

    The list of keys, most recently used first, and the entries by key; the iterator
    an entry stores is the place of its key in the list. *)

Record PlanCache : Type := mkCache {
  capacity : nat;
  lru_order : list string;
  entries : gmap string ParsedStatement
}.
Definition new_PlanCache (capacity : nat) : PlanCache :=
  mkCache (if (capacity =? 0)%nat then 1 else capacity) [] ∅.

Definition without (sql : string) (l : list string) : list string := filter (λ s, s ≠ sql) l.

Definition cache_get (sql : string) (c : PlanCache) : PlanCache * option ParsedStatement :=
  match entries c !! sql with
  | None => (c, None)
  | Some st => (mkCache (capacity c) (sql :: without sql (lru_order c)) (entries c), Some st)
  end.

Definition cache_put (sql : string) (st : ParsedStatement) (c : PlanCache) : res PlanCache :=
  let c := match entries c !! sql with
           | Some _ => mkCache (capacity c) (without sql (lru_order c)) (delete sql (entries c))
           | None => c
           end in
  c ← (if (capacity c <=? size (entries c))%nat then
         match last (lru_order c) with
         | None => UB
         | Some old => Ok (mkCache (capacity c) (removelast (lru_order c)) (delete old (entries c)))
         end
       else Ok c);
  Ok (mkCache (capacity c) (sql :: lru_order c) (<[sql := st]> (entries c))).

Definition cache_clear (c : PlanCache) : PlanCache := mkCache (capacity c) [] ∅.

(** ** What a role may execute *)

(** [fuel] bounds how often PREPARE nests; the text of a prepared statement is a proper
    part of the text it is parsed from. *)
Fixpoint can_reader_execute (fuel : nat) : ParsedStatement → bool :=
  fix go st :=
    match st with
    | SSelect _ | SSetOperation _ | SBegin | SCommit | SRollback | SDeallocate _ => true
    | SExplain inner => go inner
    | SPrepare _ sql =>
        match fuel with
        | O => false
        | S fuel => match parse_text sql with Ok st => can_reader_execute fuel st | _ => false end
        end
    | _ => false
    end.
Fixpoint prepared_length (st : ParsedStatement) : nat :=
  match st with
  | SPrepare _ sql => S (String.length sql)
  | SExplain inner => prepared_length inner
  | _ => 0
  end.
Definition can_execute (r : Role) (st : ParsedStatement) : bool :=
  match r with Admin => true | Reader => can_reader_execute (prepared_length st) st end.

(** [is_statement_authorized] of database.cc: EXECUTE is judged by the prepared text. *)
Definition is_statement_authorized (r : Role) (st : ParsedStatement) (session : option SessionContext) : bool :=
  match st with
  | SExecute name _ =>
      match session with
      | None => bool_decide (r = Admin)
      | Some s =>
          match get_prepared name s with
          | None => true
          | Some sql => match parse_text sql with Ok st => can_execute r st | _ => false end
          end
      end
  | _ => can_execute r st
  end.

(** ** The cache keeps the statements used last

    The reference: statements with their texts, the one used last first, cut to the capacity. *)

Abbreviation Recent := (list (string * ParsedStatement)) (only parsing).
Definition forget (sql : string) (l : Recent) : Recent := filter (λ e, e.1 ≠ sql) l.
Definition recent_get (sql : string) (l : Recent) : Recent * option ParsedStatement :=
  match list_find (λ e : string * ParsedStatement, e.1 = sql) l with
  | Some (_, e) => (e :: forget sql l, Some e.2)
  | None => (l, None)
  end.
Definition recent_put (n : nat) (sql : string) (st : ParsedStatement) (l : Recent) : Recent :=
  take n ((sql, st) :: forget sql l).

Inductive cache_op : Type := CGet (sql : string) | CPut (sql : string) (st : ParsedStatement) | CClear.
Definition cache_step (o : cache_op) (c : PlanCache) : res (PlanCache * option ParsedStatement) :=
  match o with
  | CGet sql => Ok (cache_get sql c)
  | CPut sql st => c ← cache_put sql st c; Ok (c, None)
  | CClear => Ok (cache_clear c, None)
  end.
Definition recent_step (n : nat) (o : cache_op) (l : Recent) : Recent * option ParsedStatement :=
  match o with
  | CGet sql => recent_get sql l
  | CPut sql st => (recent_put n sql st l, None)
  | CClear => ([], None)
  end.
Fixpoint cache_run (os : list cache_op) (c : PlanCache) : res (PlanCache * list (option ParsedStatement)) :=
  match os with
  | [] => Ok (c, [])
  | o :: os => '(c, r) ← cache_step o c; '(c, rs) ← cache_run os c; Ok (c, r :: rs)
  end.
Fixpoint recent_run (n : nat) (os : list cache_op) (l : Recent) : Recent * list (option ParsedStatement) :=
  match os with
  | [] => (l, [])
  | o :: os => let (l, r) := recent_step n o l in let (l, rs) := recent_run n os l in (l, r :: rs)
  end.

Record cache_rel (c : PlanCache) (l : Recent) : Prop := {
  cr_order : lru_order c = l.*1;
  cr_entries : entries c = list_to_map l;
  cr_nodup : NoDup l.*1;
  cr_room : (length l ≤ capacity c)%nat ∧ (0 < capacity c)%nat
}.

Lemma without_forget sql (l : Recent) : without sql l.*1 = (forget sql l).*1.
Proof.
  unfold without, forget. induction l as [|[k st] l IH]; [done|]. rewrite fmap_cons. rewrite !filter_cons. cbn [fst].
  destruct (decide (k = sql)) as [->|Hk]; [rewrite !decide_False by (intros Hx; by apply Hx); exact IH|]. rewrite !decide_True by done. by rewrite fmap_cons, IH.
Qed.

Lemma forget_map sql (l : Recent) :
  list_to_map (forget sql l) = delete sql (list_to_map l : gmap string ParsedStatement).
Proof.
  unfold forget. induction l as [|[k st] l IH]; [symmetry; apply (delete_empty (M:=gmap string))|]. rewrite filter_cons. cbn [fst].
  destruct (decide (k = sql)) as [->|Hk].
  - rewrite decide_False by (intros Hx; by apply Hx). by rewrite list_to_map_cons, IH, delete_insert_eq.
  - rewrite decide_True by done. by rewrite !list_to_map_cons, IH, delete_insert_ne.
Qed.

Lemma forget_none sql (l : Recent) : sql ∉ l.*1 → forget sql l = l.
Proof.
  intros H. unfold forget. apply filter_all. intros e He Heq. apply H. subst sql. by apply list_elem_of_fmap_2.
Qed.

Lemma forget_nodup sql (l : Recent) : NoDup l.*1 → NoDup (forget sql l).*1 ∧ sql ∉ (forget sql l).*1.
Proof.
  intros H. rewrite <- without_forget. unfold without. split; [by apply NoDup_filter|].
  rewrite list_elem_of_filter. by intros [].
Qed.
Lemma forget_length sql (l : Recent) : (length (forget sql l) ≤ length l)%nat.
Proof. apply length_filter. Qed.
Lemma forget_shorter sql (l : Recent) : sql ∈ l.*1 → (length (forget sql l) < length l)%nat.
Proof.
  intros (e & -> & He)%list_elem_of_fmap_1. unfold forget. induction l as [|x l IH]; [by apply not_elem_of_nil in He|].
  rewrite filter_cons. apply elem_of_cons in He as [->|He].
  - rewrite decide_False by (intros Hn; by apply Hn). pose proof (length_filter (λ e0 : string * ParsedStatement, e0.1 ≠ x.1) l). cbn. lia.
  - specialize (IH He). case_decide; cbn; lia.
Qed.

Lemma size_listed (l : Recent) : NoDup l.*1 → size (list_to_map l : gmap string ParsedStatement) = length l.
Proof. intros H. rewrite <- length_map_to_list. by rewrite map_to_list_to_map. Qed.

Lemma recent_found sql (l : Recent) :
  snd <$> (snd <$> list_find (λ e : string * ParsedStatement, e.1 = sql) l) = (list_to_map l : gmap string ParsedStatement) !! sql.
Proof.
  induction l as [|[k st] l IH]; [symmetry; apply (lookup_empty (M:=gmap string))|]. cbn [list_find]. rewrite list_to_map_cons. cbn [fst].
  case_decide as Hk; [subst; by rewrite lookup_insert_eq|]. rewrite lookup_insert_ne by done. rewrite <- IH.
  by destruct (list_find _ l) as [[]|].
Qed.

Lemma cache_get_refines sql c l : cache_rel c l →
  cache_rel (fst (cache_get sql c)) (fst (recent_get sql l)) ∧ snd (cache_get sql c) = snd (recent_get sql l).
Proof.
  intros [Ho He Hn [Hc H0]]. pose proof (recent_found sql l) as Hf. unfold cache_get, recent_get. rewrite He, <- Hf.
  destruct (list_find _ l) as [[i [k st]]|] eqn:Hl; cbn [fmap option_fmap option_map fst snd]; [|done].
  apply list_find_Some in Hl as (Hi & Hk & _). cbn in Hk. subst k. split; [|done].
  pose proof (list_elem_of_fmap_2 fst _ _ (list_elem_of_lookup_2 _ _ _ Hi)) as Hin.
  pose proof (forget_nodup sql l Hn) as [Hn1 Hn2]. pose proof (forget_shorter sql l Hin) as Hlen.
  constructor; cbn [lru_order entries capacity].
  - by rewrite fmap_cons, Ho, without_forget.
  - rewrite list_to_map_cons, forget_map, insert_delete_eq, insert_id; [done|]. by rewrite <- Hf.
  - rewrite fmap_cons. by apply NoDup_cons.
  - cbn. lia.
Qed.

Lemma evict_oldest (l : Recent) k st : NoDup (l ++ [(k, st)]).*1 →
  list_to_map l = delete k (list_to_map (l ++ [(k, st)]) : gmap string ParsedStatement).
Proof.
  rewrite fmap_app, NoDup_app. intros (_ & Hd & _). rewrite list_to_map_app.
  rewrite delete_union, list_to_map_cons, delete_insert_eq. change (list_to_map []) with (∅ : gmap string ParsedStatement).
  rewrite delete_empty, (right_id ∅ (∪)). symmetry. apply delete_id, not_elem_of_list_to_map_1.
  intros Hk. apply (Hd _ Hk). by apply list_elem_of_singleton.
Qed.

Lemma cache_put_refines sql st c l : cache_rel c l →
  ∃ c', cache_put sql st c = Ok c' ∧ capacity c' = capacity c ∧ cache_rel c' (recent_put (capacity c) sql st l).
Proof.
  intros [Ho He Hn [Hc H0]]. pose proof (forget_nodup sql l Hn) as [Hn1 Hn2]. pose proof (forget_length sql l) as Hl1.
  unfold cache_put, recent_put.
  assert ((match entries c !! sql with
           | Some _ => mkCache (capacity c) (without sql (lru_order c)) (delete sql (entries c))
           | None => c end) = mkCache (capacity c) (forget sql l).*1 (list_to_map (forget sql l))) as ->.
  { rewrite He. destruct (list_to_map l !! sql) eqn:Hs.
    - by rewrite Ho, without_forget, forget_map.
    - rewrite forget_none by (by apply not_elem_of_list_to_map). rewrite <- Ho, <- He. by destruct c. }
  cbn [capacity lru_order entries]. rewrite size_listed by done. remember (forget sql l) as r eqn:Hr. clear Hr.
  destruct (Nat.leb_spec (capacity c) (length r)) as [Hle|Hgt].
  - destruct r as [|e r _] using rev_ind; [cbn in Hle; lia|]. destruct e as [k v]. rewrite length_app in *. cbn [length] in *.
    rewrite (fmap_app fst r [(k, v)]). change (fst <$> [(k, v)]) with [k]. rewrite last_snoc. unfold mbind, res_bind. eexists. split; [done|]. split; [done|].
    assert (capacity c = S (length r)) as Hcap by lia. rewrite Hcap.
    change ((sql, st) :: r ++ [(k, v)]) with (((sql, st) :: r) ++ [(k, v)]). rewrite take_app_length' by (cbn; lia).
    rewrite removelast_last, <- evict_oldest by done.
    rewrite fmap_app in Hn1, Hn2. apply NoDup_app in Hn1 as (Hn1 & _).
    constructor; cbn [capacity lru_order entries]; [done|done| |cbn; lia].
    rewrite fmap_cons. apply NoDup_cons. split; [|done]. intros H. apply Hn2, elem_of_app. by left.
  - unfold mbind, res_bind. eexists. split; [done|]. split; [done|]. rewrite take_ge by (cbn; lia).
    constructor; cbn [capacity lru_order entries]; [done|done| |cbn; lia]. rewrite fmap_cons. by apply NoDup_cons.
Qed.

Lemma cache_run_refines os : ∀ c l, cache_rel c l →
  ∃ c', cache_run os c = Ok (c', snd (recent_run (capacity c) os l)) ∧ capacity c' = capacity c ∧ cache_rel c' (fst (recent_run (capacity c) os l)).
Proof.
  induction os as [|o os IH]; intros c l H; cbn [cache_run recent_run]; [by exists c|].
  assert (∃ c' r, cache_step o c = Ok (c', r) ∧ capacity c' = capacity c
            ∧ cache_rel c' (fst (recent_step (capacity c) o l)) ∧ r = snd (recent_step (capacity c) o l)) as (c1 & r & -> & Hcap & H1 & ->).
  { destruct o as [sql|sql st|]; cbn [cache_step recent_step].
    - pose proof (cache_get_refines sql c l H) as [H1 H2]. destruct (cache_get sql c) as [c1 r] eqn:Hg. exists c1, r.
      split; [done|]. split; [|done]. unfold cache_get in Hg. destruct (entries c !! sql); by simplify_eq.
    - destruct (cache_put_refines sql st c l H) as (c1 & -> & Hcap & H1). by exists c1, None.
    - exists (cache_clear c), None. split; [done|]. split; [done|]. split; [|done].
      destruct H as [_ _ _ [_ H0]]. constructor; cbn; [done|done|constructor|lia]. }
  unfold mbind, res_bind. destruct (IH _ _ H1) as (c2 & Hrun & Hcap2 & H2). rewrite Hcap in Hrun, H2, Hcap2.
  destruct (recent_step (capacity c) o l) as [l1 r]. cbn [fst snd] in *. rewrite Hrun.
  destruct (recent_run (capacity c) os l1) as [l2 rs]. by exists c2.
Qed.

(** C40. Every history of get, put and clear on a fresh plan cache answers as the list of the
    statements used last, newest first and cut to the capacity, and never evicts from an
    empty list. *)
Theorem plan_cache_keeps_the_recent n os :
  ∃ c', cache_run os (new_PlanCache n) = Ok (c', snd (recent_run (Nat.max 1 n) os []))
      ∧ lru_order c' = (fst (recent_run (Nat.max 1 n) os [])).*1
      ∧ (size (entries c') ≤ Nat.max 1 n)%nat.
Proof.
  assert (cache_rel (new_PlanCache n) []) as H.
  { constructor; [done|done|constructor|]. cbn. destruct n; cbn; lia. }
  assert (capacity (new_PlanCache n) = Nat.max 1 n) as Hcap by (destruct n; cbn; lia).
  destruct (cache_run_refines os _ _ H) as (c' & Hrun & Hcap' & Hrel). rewrite Hcap in *. exists c'. split; [done|].
  destruct Hrel as [Ho He Hn Hroom]. split; [done|]. rewrite He, size_listed by done. lia.
Qed.

(** ** A prepared text is shorter than the text it is part of

    So the recursion of [can_reader_execute] ends within the fuel of [can_execute]. *)

Section yields.
Context {A : Type}.
(** Every value the parser returns satisfies [Q]. *)
Definition yields (Q : A → Prop) (p : P A) : Prop := ∀ s s' a, p s = (s', Ok a) → Q a.
Lemma yields_bind {B} Q (m : P B) (f : B → P A) : (∀ b, yields Q (f b)) → yields Q (m ≫= f).
Proof.
  intros H s s' a. unfold mbind, ST_bind. destruct (m s) as [s1 [b|e|]]; [apply H|by intros [=]..].
Qed.
Lemma yields_ret (Q : A → Prop) a : Q a → yields Q (mret a).
Proof. by intros H s s' b [= _ <-]. Qed.
Lemma yields_throw Q e : yields Q (st_throw e).
Proof. by intros s s' b [=]. Qed.
Lemma yields_at Q m : yields Q (throw_at m).
Proof. by intros s s' b [=]. Qed.
Lemma yields_fun Q (p : parser → P A) : (∀ s, yields Q (p s)) → yields Q (λ s, p s s).
Proof. intros H s s' b Hp. by apply (H s s s'). Qed.
End yields.
Ltac yields_auto :=
  repeat first [apply yields_throw | apply yields_at | apply yields_bind; intros ? | apply yields_ret; done
               | match goal with |- yields _ (match ?x with _ => _ end) => destruct x end
               | match goal with |- yields _ (if ?x then _ else _) => destruct x end].

Lemma yields_by_type Q t alternatives otherwise :
  Forall (λ a, yields Q a.2) alternatives → yields Q otherwise → yields Q (by_type t alternatives otherwise).
Proof. induction 1 as [|[t' p] l Hp _ IH]; intros Ho; cbn [by_type]; [done|]. case_bool_decide; auto. Qed.

Definition unprepared (st : ParsedStatement) : Prop := prepared_length st = 0%nat.

Lemma query_unprepared : yields unprepared parse_query_statement.
Proof. unfold parse_query_statement. yields_auto. Qed.
Lemma create_table_unprepared : yields unprepared parse_create_table_statement.
Proof. unfold parse_create_table_statement. yields_auto. Qed.

Section nested.
Context (nested : string → res ParsedStatement).
Lemma create_unprepared : yields unprepared (parse_create nested).
Proof.
  unfold parse_create. apply (yields_fun _ (λ s, by_type (tok_type (peek_ahead 1 s)) _ _)). intros s.
  apply yields_by_type; [|apply create_table_unprepared]. repeat apply Forall_cons_2; [..|constructor]; cbn [snd].
  - unfold parse_create_index_statement. yields_auto.
  - unfold parse_create_view_statement. yields_auto.
  - unfold parse_create_function_statement. yields_auto.
  - unfold parse_create_procedure_statement. yields_auto.
  - unfold parse_create_trigger_statement. yields_auto.
Qed.
Lemma drop_unprepared : yields unprepared parse_drop_object.
Proof.
  unfold parse_drop_object. apply (yields_fun _ (λ s, by_type (tok_type (peek_ahead 1 s)) _ _)). intros s.
  apply yields_by_type; [|unfold parse_drop_table_statement; yields_auto].
  repeat apply Forall_cons_2; [..|constructor]; cbn [snd].
  - unfold parse_drop_index_statement. yields_auto.
  - unfold parse_drop_view_statement. yields_auto.
  - unfold parse_drop_function_statement. yields_auto.
  - unfold parse_drop_procedure_statement. yields_auto.
  - unfold parse_drop_trigger_statement. yields_auto.
Qed.

Definition keeps_text {A} (p : P A) : Prop := ∀ s, original_sql_ (fst (p s)) = original_sql_ s.
Lemma advance_keeps_text : keeps_text advance.
Proof. intros s. unfold advance. destruct (is_at_end s); cbn; by repeat case_match. Qed.
Lemma bind_keeps_text {A B} (m : P A) (f : A → P B) : keeps_text m → (∀ a, keeps_text (f a)) → keeps_text (m ≫= f).
Proof.
  intros Hm Hf s. unfold mbind, ST_bind. specialize (Hm s). destruct (m s) as [s1 [a|e|]]; cbn [fst] in *; [|done..].
  rewrite <- Hm. apply Hf.
Qed.
Lemma consume_keeps_text t m : keeps_text (consume t m).
Proof. intros s. unfold consume. destruct (check t s); [apply advance_keeps_text|done]. Qed.
Lemma identifier_keeps_text m : keeps_text (identifier m).
Proof. apply bind_keeps_text; [apply consume_keeps_text|]. by intros a s. Qed.

Lemma length_str_drop k (s : string) : (String.length (str_drop k s) ≤ String.length s - k)%nat.
Proof.
  unfold str_drop. generalize (String.length s - k)%nat as m. revert s.
  assert (∀ s m, String.length (String.substring 0 m s) ≤ m)%nat as H.
  { induction s as [|c s IH]; intros [|m]; cbn; try lia. specialize (IH m). lia. }
  induction k as [|k IH]; intros s m; [apply H|]. destruct s as [|c s]; cbn; [lia|apply IH].
Qed.
Lemma drop_while_length p l : (length (drop_while p l) ≤ length l)%nat.
Proof. induction l as [|c l IH]; cbn; [lia|]. destruct (p c); cbn; lia. Qed.
Lemma trim_end_length p s : (String.length (trim_end p s) ≤ String.length s)%nat.
Proof.
  unfold trim_end. rewrite length_chars, String.list_ascii_of_string_of_list_ascii, length_rev, (length_chars s).
  pose proof (drop_while_length p (rev (String.list_ascii_of_string s))) as H. by rewrite length_rev in H.
Qed.
Lemma extracted_shorter text sql : extract_sql_after_as text = Ok sql → (String.length sql < String.length text)%nat.
Proof.
  unfold extract_sql_after_as. case_bool_decide as Hne; [done|]. destruct (is_ascii text); [|done]. cbn [negb].
  destruct (String.index _ _ _) as [k|]; [|done]. intros [= <-].
  unfold trim_trailing_sql.
  match goal with |- context [trim_end ?p _] => pose proof (trim_end_length p (str_drop (k + 4) text)) end.
  pose proof (length_str_drop (k + 4) text). destruct text; [done|]. cbn [String.length] in *. lia.
Qed.

(** What a parser of statements returns for a text. *)
Definition prepares_less (p : P ParsedStatement) : Prop := ∀ s s' st,
  p s = (s', Ok st) → (prepared_length st ≤ String.length (original_sql_ s))%nat.
Lemma unprepared_less p : yields unprepared p → prepares_less p.
Proof. intros H s s' st Hp. rewrite (H _ _ _ Hp). lia. Qed.
Lemma prepare_less : prepares_less parse_prepare_statement.
Proof.
  intros s s' st. unfold parse_prepare_statement. 
  unfold mbind, ST_bind, st_get, st_lift. pose proof (consume_keeps_text T.PREPARE "Expected PREPARE" s) as H1.
  destruct (consume T.PREPARE _ s) as [s1 [t1|e|]]; [|by intros [=]..]. cbn [fst] in H1.
  pose proof (identifier_keeps_text "Expected statement name" s1) as H2.
  destruct (identifier _ s1) as [s2 [name|e|]]; [|by intros [=]..]. cbn [fst] in H2.
  pose proof (consume_keeps_text T.AS "Expected AS" s2) as H3.
  destruct (consume T.AS _ s2) as [s3 [t3|e|]]; [|by intros [=]..]. cbn [fst] in H3.
  case_bool_decide; [by intros [=]|]. rewrite H3, H2, H1.
  destruct (extract_sql_after_as (original_sql_ s)) as [sql|e|] eqn:Hx; [|by intros [=]..].
  destruct (skip_to_end s3) as [s4 [[]|e|]]; [|by intros [=]..]. intros [= _ <-]. cbn. by apply extracted_shorter.
Qed.

Lemma inner_less : prepares_less (parse_inner_statement nested).
Proof.
  intros s s' st. unfold parse_inner_statement. generalize (tok_type (peek s)) as t. intros t.
  assert (prepares_less (st_throw (ParseException "Unknown statement"))) as Ho by (apply unprepared_less, yields_throw).
  assert (∀ alternatives, Forall (λ a, prepares_less a.2) alternatives →
            prepares_less (by_type t alternatives (st_throw (ParseException "Unknown statement")))) as Hby.
  { induction 1 as [|[t' p] l Hp _ IH]; cbn [by_type]; [done|]. case_bool_decide; auto. }
  apply Hby. repeat apply Forall_cons_2; [..|constructor]; cbn [snd]; try apply prepare_less; apply unprepared_less;
    first [apply query_unprepared | apply create_unprepared | apply drop_unprepared | idtac].
  - unfold parse_insert_statement. yields_auto.
  - unfold parse_update_statement. yields_auto.
  - unfold parse_delete_statement. yields_auto.
  - unfold parse_call_statement. yields_auto.
  - unfold parse_set_new_statement. yields_auto.
  - unfold parse_alter_table_statement. yields_auto.
  - unfold parse_begin_statement. yields_auto.
  - unfold parse_commit_statement. yields_auto.
  - unfold parse_rollback_statement. yields_auto.
  - unfold parse_execute_statement. yields_auto.
  - unfold parse_deallocate_statement. yields_auto.
  - unfold parse_vacuum_statement. yields_auto.
Qed.

Lemma statement_less : prepares_less (parse_statement nested).
Proof.
  intros s s' st. unfold parse_statement. destruct (check T.EXPLAIN s).
  - unfold parse_explain_statement, mbind, ST_bind, st_get. pose proof (consume_keeps_text T.EXPLAIN "Expected EXPLAIN" s) as H1.
    destruct (consume T.EXPLAIN _ s) as [s1 [t1|e|]]; [|by intros [=]..]. cbn [fst] in H1.
    destruct (check T.EXPLAIN s1); [by intros [=]|]. destruct (is_at_end s1); [by intros [=]|].
    pose proof (inner_less s1) as Hi. destruct (parse_inner_statement nested s1) as [s2 [inner|e|]]; [|by intros [=]..].
    destruct (validate_dollar_parameters s2) as [s3 [[]|e|]]; [|by intros [=]..]. intros [= _ <-]. cbn [prepared_length].
    rewrite <- H1. by apply (Hi s2).
  - unfold mbind, ST_bind. pose proof (inner_less s) as Hi.
    destruct (parse_inner_statement nested s) as [s2 [inner|e|]]; [|by intros [=]..].
    destruct (validate_dollar_parameters s2) as [s3 [[]|e|]]; [|by intros [=]..]. intros [= _ <-]. by apply (Hi s2).
Qed.
End nested.

Lemma parse_text_less sql st : parse_text sql = Ok st → (prepared_length st ≤ String.length sql)%nat.
Proof.
  unfold parse_text. cbn [parse_text_from]. unfold run_parser. destruct (tokenize sql) as [toks|e|]; cbn [mbind res_bind]; [|done..].
  pose proof (statement_less (parse_text_from (String.length sql)) (new_parser sql toks)) as H.
  destruct (parse_statement _ _) as [s' r]. cbn [snd]. intros ->. by apply (H s').
Qed.

Lemma can_reader_fuel fuel : ∀ fuel' st, (prepared_length st ≤ fuel)%nat → (prepared_length st ≤ fuel')%nat →
  can_reader_execute fuel st = can_reader_execute fuel' st.
Proof.
  induction fuel as [|fuel IH]; intros [|fuel'] st; induction st; intros H H'; try done; try (by apply IHst);
    cbn in H, H'; [lia..|].
  cbn [can_reader_execute]. destruct (parse_text sql) eqn:Hp; [|done..]. pose proof (parse_text_less _ _ Hp). apply IH; lia.
Qed.

(** The statements of a reader: queries, transaction control, and PREPARE and EXPLAIN of such. *)
Inductive reads_only : ParsedStatement → Prop :=
| ro_select s : reads_only (SSelect s)
| ro_set s : reads_only (SSetOperation s)
| ro_begin : reads_only SBegin
| ro_commit : reads_only SCommit
| ro_rollback : reads_only SRollback
| ro_deallocate name : reads_only (SDeallocate name)
| ro_explain st : reads_only st → reads_only (SExplain st)
| ro_prepare name sql st : parse_text sql = Ok st → reads_only st → reads_only (SPrepare name sql).

Lemma can_reader_reads_only st : can_execute Reader st = true ↔ reads_only st.
Proof.
  unfold can_execute. split.
  - remember (prepared_length st) as n eqn:Hn. clear Hn. revert st.
    induction n as [|n IH]; intros st; induction st; intros H; try done; try (by constructor; apply IHst); try by constructor.
    cbn [can_reader_execute] in H. destruct (parse_text sql) eqn:Hp; [|done..]. econstructor; [done|]. by apply IH.
  - induction 1 as [| | | | | |st H IH|name sql st Hp H IH]; [done..| |].
    { cbn [prepared_length]. by destruct (prepared_length st). }
    cbn [prepared_length can_reader_execute]. rewrite Hp.
    pose proof (parse_text_less _ _ Hp). by rewrite (can_reader_fuel _ (prepared_length st)) by lia.
Qed.

(** C32. A reader may execute exactly the statements that only read (queries, transaction
    control, DEALLOCATE, and EXPLAIN and PREPARE of such), EXECUTE of a prepared text that
    parses to such a statement, and EXECUTE of a name that is not prepared (which fails
    later); the recursion into the texts of PREPARE ends. *)
Theorem reader_rights st session : is_statement_authorized Reader st session = true ↔
  reads_only st ∨ ∃ name args s, st = SExecute name args ∧ session = Some s
    ∧ ∀ sql, get_prepared name s = Some sql → ∃ st', parse_text sql = Ok st' ∧ reads_only st'.
Proof.
  assert (∀ st, (∀ name args, st ≠ SExecute name args) →
    can_execute Reader st = true ↔ reads_only st ∨ ∃ name args s, st = SExecute name args ∧ session = Some s
      ∧ ∀ sql, get_prepared name s = Some sql → ∃ st', parse_text sql = Ok st' ∧ reads_only st') as Hother.
  { intros st' Hne. rewrite can_reader_reads_only. naive_solver. }
  destruct st; try (by apply Hother). rename arguments into args.
  split.
  - intros H. right. unfold is_statement_authorized in H. destruct session as [s|]; [|done]. exists name, args, s. split; [done|]. split; [done|].
    intros sql Hsql. rewrite Hsql in H. destruct (parse_text sql) as [st'| |] eqn:Hp; [|done..].
    exists st'. by rewrite <- can_reader_reads_only.
  - intros [H|(? & ? & s & [= <- <-] & -> & H)]; [by inversion H|]. unfold is_statement_authorized.
    destruct (get_prepared name s) as [sql|]; [|done]. destruct (H sql eq_refl) as (st' & -> & Hst). by apply can_reader_reads_only.
Qed.
