(* ===== verification/Catalogs.v ===== *)
(** * Views, routines and triggers

    src/core/view_catalog.cc, view_definition.cc, routine_catalog.cc and
    trigger_catalog.cc: named definitions in memory, each with a file of its text under
    the storage directory, and the CREATE and DROP statements of database.cc that keep
    the two together. *)

From Stdlib Require Import ZArith Lia Ascii Sorted.
From S2P Require Import Prelude CppNum Values Rows Transactions Expr Evaluator Partition RowHeap Table Operators Lexer Ast Parser ParserSafe SelectAnalysis FileSystem.

(** ** Definitions *)

Record ViewDefinition : Type := mkView {
  vd_name : string;
  vd_select_sql : string;
  vd_select : SelectStatement
}.
Definition parse_select (sql : string) : res SelectStatement := run_parser parse_select_statement sql.
Definition new_ViewDefinition (name select_sql : string) : res ViewDefinition :=
  match parse_select select_sql with
  | Ok select => Ok (mkView name select_sql select)
  | Throw (ParseException m) =>
      Throw (ConstraintException ("Invalid view SELECT for '" +:+ name +:+ "': " +:+ what (ParseException m)))
  | Throw e => Throw e
  | UB => UB
  end.

Record RoutineParameter : Type := mkParameter { par_name : string; par_type : DataType }.
(** A function: the part an evaluator uses, with its types and its text. *)
Record RoutineFunction : Type := mkRoutineFunction {
  rf_definition : FunctionDefinition SelectStatement;
  rf_params : list RoutineParameter;
  rf_return_type : DataType;
  rf_source_sql : string
}.
Definition new_FunctionDefinition (name : string) (params : list RoutineParameter) (return_type : DataType)
    (body : Expression) (source_sql : string) : RoutineFunction :=
  mkRoutineFunction (mkFunction (Q := SelectStatement) name (par_name <$> params) body) params return_type source_sql.
Record ProcedureDefinition : Type := mkProcedure {
  pd_name : string;
  pd_params : list RoutineParameter;
  pd_statement_sqls : list string;
  pd_source_sql : string
}.
Record TriggerDefinition : Type := mkTrigger {
  td_name : string;
  td_table_name : string;
  td_timing : TriggerTiming;
  td_event : TriggerEvent;
  td_statement_sqls : list string;
  td_source_sql : string
}.
#[export] Instance TriggerTiming_eq_dec : EqDecision TriggerTiming.
Proof. solve_decision. Defined.
#[export] Instance TriggerEvent_eq_dec : EqDecision TriggerEvent.
Proof. solve_decision. Defined.

(** ** The catalogs and the disk *)

Record Catalogs : Type := mkCatalogs {
  views : smap ViewDefinition;
  functions : smap RoutineFunction;
  procedures : smap ProcedureDefinition;
  triggers : smap TriggerDefinition;
  trigger_order : list string;
  disk : Fs
}.
Definition with_views (m : smap ViewDefinition) (c : Catalogs) : Catalogs :=
  mkCatalogs m (functions c) (procedures c) (triggers c) (trigger_order c) (disk c).
Definition with_functions (m : smap RoutineFunction) (c : Catalogs) : Catalogs :=
  mkCatalogs (views c) m (procedures c) (triggers c) (trigger_order c) (disk c).
Definition with_procedures (m : smap ProcedureDefinition) (c : Catalogs) : Catalogs :=
  mkCatalogs (views c) (functions c) m (triggers c) (trigger_order c) (disk c).
Definition with_triggers (m : smap TriggerDefinition) (order : list string) (c : Catalogs) : Catalogs :=
  mkCatalogs (views c) (functions c) (procedures c) m order (disk c).
Definition with_disk (d : Fs) (c : Catalogs) : Catalogs :=
  mkCatalogs (views c) (functions c) (procedures c) (triggers c) (trigger_order c) d.
Definition on_disk {A} (m : ST Fs A) : ST Catalogs A := λ c, let '(d, r) := m (disk c) in (with_disk d c, r).

(** A name looked up as it is written, then in any case. *)
Definition find_ignoring_case {A} (name : string) (m : smap A) : option A :=
  match sm_find name m with
  | Some a => Some a
  | None => (λ p, p.2.2) <$> list_find (λ e : string * A, str_lower e.1 = str_lower name) m
  end.

(** The text is written to a temporary file that is renamed; [checked] tells whether
    the stream is tested after the last write. *)
Definition write_file (path text kind : string) (checked : bool) : ST Fs unit :=
  let tmp_path := path +:+ ".tmp" in
  ok ← fs_write tmp_path text;
  match ok with
  | None => st_throw (StorageException ("Cannot write " +:+ kind +:+ " file: " +:+ tmp_path))
  | Some good =>
      if checked && negb good then st_throw (StorageException ("Failed writing " +:+ kind +:+ " file: " +:+ tmp_path))
      else fs_rename tmp_path path
  end.

Section storage.
Context (storage_directory : string).

(** ** Views *)

Definition VIEWS_SUBDIR : string := "_views".
Definition VIEW_EXTENSION : string := ".view".
Definition has_view (name : string) (c : Catalogs) : bool := sm_has name (views c).
Definition get_view (name : string) (c : Catalogs) : option ViewDefinition := sm_find name (views c).
Definition list_views (c : Catalogs) : list string := (views c).*1.

Definition register_view (name select_sql : string) : ST Catalogs unit :=
  c ← st_get;
  if has_view name c then st_throw (ConstraintException ("View '" +:+ name +:+ "' already exists"))
  else
    definition ← st_lift (new_ViewDefinition name select_sql);
    st_modify (with_views (sm_set name definition (views c))).
Definition unregister_view (name : string) : ST Catalogs unit :=
  c ← st_get;
  if negb (has_view name c) then st_throw (NotFoundException ("View '" +:+ name +:+ "' not found"))
  else st_modify (with_views (sm_erase name (views c))).

Definition views_dir : string := path_join storage_directory VIEWS_SUBDIR.
Definition build_view_path (name : string) : string := path_join views_dir (name +:+ VIEW_EXTENSION).
Definition save_view (name : string) : ST Catalogs unit :=
  c ← st_get;
  match get_view name c with
  | None => st_throw (NotFoundException ("View '" +:+ name +:+ "' not found"))
  | Some view =>
      on_disk (fs_make_dir views_dir;; write_file (build_view_path name) (vd_select_sql view) "view" true)
  end.
Definition remove_view_file (name : string) : ST Catalogs unit := on_disk (fs_remove (build_view_path name)).

(** A file of a directory: its name, and its text unless it cannot be opened. *)
Definition Entry : Type := string * option string.

Fixpoint drop_last (p : ascii → bool) (s : string) : string :=
  match s with
  | EmptyString => ""
  | String c r =>
      match drop_last p r with
      | EmptyString => if p c then "" else String c ""
      | r' => String c r'
      end
  end.
Definition view_noise (c : ascii) : bool := Ascii.eqb c "010" || Ascii.eqb c "013" || Ascii.eqb c ";".
(** The name without the extension, when there is one before it. *)
Definition strip_extension (ext filename : string) : option string :=
  let n := String.length filename in let k := String.length ext in
  if (n <=? k)%nat then None
  else if bool_decide (String.substring (n - k) k filename = ext) then Some (String.substring 0 (n - k) filename)
  else None.

Definition load_view_file (dir : string) (e : Entry) : ST Catalogs unit :=
  match strip_extension VIEW_EXTENSION e.1 with
  | None => mret tt
  | Some name =>
      match e.2 with
      | None => st_throw (StorageException ("Cannot read view file: " +:+ path_join dir e.1))
      | Some text => register_view name (drop_last view_noise text)
      end
  end.
(** [listed]: the files of the directory, in the order of the iterator; none when there
    is no such directory. *)
Definition load_all_views (listed : list Entry) : ST Catalogs unit :=
  st_modify (with_views []);; st_iter (load_view_file views_dir) listed.

(** ** Routines *)

Definition ROUTINES_SUBDIR : string := "_routines".
Definition FUNCTION_EXTENSION : string := ".func".
Definition PROCEDURE_EXTENSION : string := ".proc".
Definition has_function (name : string) (c : Catalogs) : bool := sm_has name (functions c).
Definition hasProcedure (name : string) (c : Catalogs) : bool := sm_has name (procedures c).
Definition get_function (name : string) (c : Catalogs) : option RoutineFunction := find_ignoring_case name (functions c).
Definition getProcedure (name : string) (c : Catalogs) : option ProcedureDefinition :=
  find_ignoring_case name (procedures c).

Definition registerFunction (f : RoutineFunction) : ST Catalogs unit :=
  c ← st_get;
  let name := fd_name (rf_definition f) in
  if has_function name c then st_throw (ConstraintException ("Function '" +:+ name +:+ "' already exists"))
  else if hasProcedure name c then
    st_throw (ConstraintException ("Routine name '" +:+ name +:+ "' already used by a procedure"))
  else st_modify (with_functions (sm_set name f (functions c))).
Definition registerProcedure (p : ProcedureDefinition) : ST Catalogs unit :=
  c ← st_get;
  let name := pd_name p in
  if hasProcedure name c then st_throw (ConstraintException ("Procedure '" +:+ name +:+ "' already exists"))
  else if has_function name c then
    st_throw (ConstraintException ("Routine name '" +:+ name +:+ "' already used by a function"))
  else st_modify (with_procedures (sm_set name p (procedures c))).
Definition unregisterFunction (name : string) : ST Catalogs unit :=
  c ← st_get;
  if negb (has_function name c) then st_throw (NotFoundException ("Function '" +:+ name +:+ "' not found"))
  else st_modify (with_functions (sm_erase name (functions c))).
Definition unregisterProcedure (name : string) : ST Catalogs unit :=
  c ← st_get;
  if negb (hasProcedure name c) then st_throw (NotFoundException ("Procedure '" +:+ name +:+ "' not found"))
  else st_modify (with_procedures (sm_erase name (procedures c))).

Definition routines_dir : string := path_join storage_directory ROUTINES_SUBDIR.
Definition buildFunctionPath (name : string) : string := path_join routines_dir (name +:+ FUNCTION_EXTENSION).
Definition buildProcedurePath (name : string) : string := path_join routines_dir (name +:+ PROCEDURE_EXTENSION).
Definition saveFunction (name : string) : ST Catalogs unit :=
  c ← st_get;
  match get_function name c with
  | None => st_throw (NotFoundException ("Function '" +:+ name +:+ "' not found"))
  | Some f => on_disk (fs_make_dir routines_dir;; write_file (buildFunctionPath name) (rf_source_sql f) "function" false)
  end.
Definition saveProcedure (name : string) : ST Catalogs unit :=
  c ← st_get;
  match getProcedure name c with
  | None => st_throw (NotFoundException ("Procedure '" +:+ name +:+ "' not found"))
  | Some p =>
      on_disk (fs_make_dir routines_dir;; write_file (buildProcedurePath name) (pd_source_sql p) "procedure" false)
  end.
Definition removeFunctionFile (name : string) : ST Catalogs unit := on_disk (fs_remove (buildFunctionPath name)).
Definition removeProcedureFile (name : string) : ST Catalogs unit := on_disk (fs_remove (buildProcedurePath name)).

Definition trailing_noise (c : ascii) : bool :=
  Ascii.eqb c "010" || Ascii.eqb c "013" || Ascii.eqb c ";" || Ascii.eqb c " " || Ascii.eqb c "009".
Definition trimTrailingNoise : string → string := drop_last trailing_noise.

Definition routine_parameters (params : list RoutineParamAst) : res (list RoutineParameter) :=
  res_map (λ p, t ← string_to_data_type (rp_type_name p); Ok (mkParameter (rp_name p) t)) params.
Definition function_of (name : string) (params : list RoutineParamAst) (return_type : string) (body : Expression)
    (source_sql : string) : res RoutineFunction :=
  params ← routine_parameters params;
  t ← string_to_data_type return_type;
  Ok (new_FunctionDefinition name params t body source_sql).
Definition procedure_of (name : string) (params : list RoutineParamAst) (sqls : list string) (source_sql : string)
    : res ProcedureDefinition :=
  params ← routine_parameters params; Ok (mkProcedure name params sqls source_sql).

Definition load_routine_file (dir : string) (e : Entry) : ST Catalogs unit :=
  match e.2 with
  | None => st_throw (StorageException ("Cannot read routine file: " +:+ path_join dir e.1))
  | Some text =>
      stmt ← st_lift (parse_text (trimTrailingNoise text));
      match stmt with
      | SCreateFunction name params return_type body source_sql =>
          f ← st_lift (function_of name params return_type body source_sql); registerFunction f
      | SCreateProcedure name params sqls source_sql =>
          p ← st_lift (procedure_of name params sqls source_sql); registerProcedure p
      | _ => mret tt
      end
  end.
Definition load_all_routines (listed : list Entry) : ST Catalogs unit :=
  st_modify (λ c, with_procedures [] (with_functions [] c));; st_iter (load_routine_file routines_dir) listed.

(** ** Triggers *)

Definition TRIGGERS_SUBDIR : string := "_triggers".
Definition TRIGGER_EXTENSION : string := ".trig".
Definition namesEqualIgnoreCase (left right : string) : bool := bool_decide (str_lower left = str_lower right).
Definition getTrigger (name : string) (c : Catalogs) : option TriggerDefinition := find_ignoring_case name (triggers c).
Definition hasTrigger (name : string) (c : Catalogs) : bool := bool_decide (is_Some (getTrigger name c)).

Definition listed_by (table_name : string) (timing : TriggerTiming) (event : TriggerEvent) (d : TriggerDefinition) : bool :=
  namesEqualIgnoreCase (td_table_name d) table_name && bool_decide (td_timing d = timing)
  && bool_decide (td_event d = event).
Definition listBy (table_name : string) (timing : TriggerTiming) (event : TriggerEvent) (c : Catalogs)
    : list TriggerDefinition :=
  filter (λ d, listed_by table_name timing event d = true) (omap (λ name, sm_find name (triggers c)) (trigger_order c)).

Definition registerTrigger (d : TriggerDefinition) : ST Catalogs unit :=
  c ← st_get;
  if hasTrigger (td_name d) c then
    st_throw (ConstraintException ("Trigger '" +:+ td_name d +:+ "' already exists"))
  else st_modify (with_triggers (sm_set (td_name d) d (triggers c)) (trigger_order c ++ [td_name d])).
Definition unregisterTrigger (name : string) : ST Catalogs unit :=
  c ← st_get;
  match getTrigger name c with
  | None => st_throw (NotFoundException ("Trigger '" +:+ name +:+ "' not found"))
  | Some existing =>
      st_modify (with_triggers (sm_erase (td_name existing) (triggers c))
                   (filter (λ n, n ≠ td_name existing) (trigger_order c)))
  end.

Definition triggers_dir : string := path_join storage_directory TRIGGERS_SUBDIR.
Definition buildTriggerPath (name : string) : string := path_join triggers_dir (name +:+ TRIGGER_EXTENSION).
Definition saveTrigger (name : string) : ST Catalogs unit :=
  c ← st_get;
  match getTrigger name c with
  | None => st_throw (NotFoundException ("Trigger '" +:+ name +:+ "' not found"))
  | Some d => on_disk (fs_make_dir triggers_dir;; write_file (buildTriggerPath name) (td_source_sql d) "trigger" false)
  end.
Definition removeTriggerFile (name : string) : ST Catalogs unit := on_disk (fs_remove (buildTriggerPath name)).

Definition load_trigger_file (dir : string) (e : Entry) : ST Catalogs unit :=
  match e.2 with
  | None => st_throw (StorageException ("Cannot read trigger file: " +:+ path_join dir e.1))
  | Some text =>
      stmt ← st_lift (parse_text (trimTrailingNoise text));
      match stmt with
      | SCreateTrigger name table_name timing event sqls source_sql =>
          registerTrigger (mkTrigger name table_name timing event sqls source_sql)
      | _ => st_throw (StorageException ("Invalid trigger file: " +:+ path_join dir e.1))
      end
  end.
Definition load_all_triggers (listed : list Entry) : ST Catalogs unit :=
  st_modify (with_triggers [] []);; st_iter (load_trigger_file triggers_dir) listed.

(** ** CREATE and DROP *)

(** [try { body } catch (e) { undo; return error_result(e.what()); } return success_result(ok);] *)
Definition reported (body : ST Catalogs unit) (undo : ST Catalogs unit) (ok : string) : ST Catalogs QueryResult :=
  st_catch (body;; mret (success_result ok)) (λ e, undo;; mret (error_result (what e))).
Definition when (b : Catalogs → bool) (m : ST Catalogs unit) : ST Catalogs unit :=
  c ← st_get; if b c then m else mret tt.
(** DROP of a name that is not there. *)
Definition absent (what_ name : string) (if_exists : bool) : QueryResult :=
  if if_exists then success_result ("DROP " +:+ what_ +:+ " OK")
  else error_result (match what_ with
                     | "VIEW" => "View" | "FUNCTION" => "Function" | "PROCEDURE" => "Procedure" | _ => "Trigger"
                     end%string +:+ " '" +:+ name +:+ "' not found").

(** [is_table]: the database has a table of that name. *)
Definition execute_create_view_statement (is_table : bool) (view_name select_sql : string) : ST Catalogs QueryResult :=
  c ← st_get;
  if is_table then mret (error_result ("Relation '" +:+ view_name +:+ "' already exists as a table"))
  else if has_view view_name c then mret (error_result ("View '" +:+ view_name +:+ "' already exists"))
  else
    reported (register_view view_name select_sql;; save_view view_name)
      (when (has_view view_name) (unregister_view view_name)) "CREATE VIEW OK".
Definition execute_drop_view_statement (view_name : string) (if_exists : bool) : ST Catalogs QueryResult :=
  c ← st_get;
  if negb (has_view view_name c) then mret (absent "VIEW" view_name if_exists)
  else reported (unregister_view view_name;; remove_view_file view_name) (mret tt) "DROP VIEW OK".

(** [today] is the clock of the built-in functions. *)
Definition execute_create_function_statement (today name : string) (params : list RoutineParamAst)
    (return_type : string) (body : Expression) (source_sql : string) : ST Catalogs QueryResult :=
  if hasFunction today name then mret (error_result ("Cannot override builtin function '" +:+ name +:+ "'"))
  else if expression_has_aggregate body then
    mret (error_result "Aggregate functions are not allowed in scalar function body")
  else
    let validator := mkEvaluator (Q := SelectStatement) (W := unit) ((λ p, mkBinding "" "" (rp_name p)) <$> params)
                       None None None false None None ∅ today in
    match validate_inner validator [] body with
    | Some err => mret (error_result err)
    | None =>
        reported (f ← st_lift (function_of name params return_type body source_sql);
                  registerFunction f;; saveFunction name)
          (when (has_function name) (unregisterFunction name)) "CREATE FUNCTION OK"
    end.
Definition execute_drop_function_statement (name : string) (if_exists : bool) : ST Catalogs QueryResult :=
  c ← st_get;
  if negb (has_function name c) then mret (absent "FUNCTION" name if_exists)
  else reported (unregisterFunction name;; removeFunctionFile name) (mret tt) "DROP FUNCTION OK".

Definition execute_create_procedure_statement (name : string) (params : list RoutineParamAst) (sqls : list string)
    (source_sql : string) : ST Catalogs QueryResult :=
  reported (p ← st_lift (procedure_of name params sqls source_sql);
            registerProcedure p;; saveProcedure name)
    (when (hasProcedure name) (unregisterProcedure name)) "CREATE PROCEDURE OK".
Definition execute_drop_procedure_statement (name : string) (if_exists : bool) : ST Catalogs QueryResult :=
  c ← st_get;
  if negb (hasProcedure name c) then mret (absent "PROCEDURE" name if_exists)
  else reported (unregisterProcedure name;; removeProcedureFile name) (mret tt) "DROP PROCEDURE OK".

Definition execute_create_trigger_statement (is_table : bool) (d : TriggerDefinition) : ST Catalogs QueryResult :=
  if negb is_table then mret (error_result ("Table '" +:+ td_table_name d +:+ "' not found"))
  else
    reported (registerTrigger d;; saveTrigger (td_name d))
      (when (hasTrigger (td_name d)) (unregisterTrigger (td_name d))) "CREATE TRIGGER OK".
Definition execute_drop_trigger_statement (name : string) (if_exists : bool) : ST Catalogs QueryResult :=
  c ← st_get;
  match getTrigger name c with
  | None => mret (absent "TRIGGER" name if_exists)
  | Some d => reported (unregisterTrigger name;; removeTriggerFile (td_name d)) (mret tt) "DROP TRIGGER OK"
  end.
End storage.

(** ** Sorted maps are determined by their entries *)

Lemma sm_sorted_erase {A} k (m : smap A) : sm_sorted m → sm_sorted (sm_erase k m).
Proof.
  unfold sm_sorted, sm_erase. induction 1 as [|[k' a] m Hm IH Hall]; [constructor|]. rewrite filter_cons.
  destruct (decide _); [|done]. constructor; [done|]. rewrite Forall_forall in Hall |- *.
  intros x [_ Hx]%list_elem_of_filter. by apply Hall.
Qed.

Lemma sm_ext {A} (m1 : smap A) : ∀ m2, sm_sorted m1 → sm_sorted m2 → (∀ k, sm_find k m1 = sm_find k m2) → m1 = m2.
Proof.
  unfold sm_sorted. induction m1 as [|[k1 a1] m1 IH]; intros [|[k2 a2] m2] H1 H2 Hf; [done|..].
  - specialize (Hf k2). cbn [sm_find] in Hf. by rewrite bool_decide_true in Hf.
  - specialize (Hf k1). cbn [sm_find] in Hf. by rewrite bool_decide_true in Hf.
  - inversion_clear H1 as [|? ? Hm1 Hall1]. inversion_clear H2 as [|? ? Hm2 Hall2]. rewrite Forall_forall in Hall1, Hall2.
    assert (k1 = k2) as ->.
    { pose proof (Hf k1) as E1. pose proof (Hf k2) as E2. cbn [sm_find] in E1, E2.
      rewrite (bool_decide_true (k1 = k1)) in E1 by done. rewrite (bool_decide_true (k2 = k2)) in E2 by done.
      case_bool_decide as Hk; [done|]. case_bool_decide as Hk'; [by subst|].
      symmetry in E1. apply sm_find_elem, Hall2 in E1. apply sm_find_elem, Hall1 in E2. cbn in E1, E2.
      pose proof (str_lt_trans _ _ _ E1 E2) as Hx. by rewrite str_lt_irrefl in Hx. }
    pose proof (Hf k2) as E. cbn [sm_find] in E. rewrite !bool_decide_true in E by done. injection E as ->. f_equal.
    apply IH; [done..|]. intros k. specialize (Hf k). cbn [sm_find] in Hf. case_bool_decide as Hk; [|done]. subst k.
    assert (∀ m : smap A, (∀ x, x ∈ m → str_lt k2 x.1 = true) → sm_find k2 m = None) as Hno.
    { intros m Hlt. destruct (sm_find k2 m) eqn:E; [|done]. apply sm_find_elem, Hlt in E. cbn in E. by rewrite str_lt_irrefl in E. }
    by rewrite !Hno.
Qed.

Lemma sm_has_find {A} k (m : smap A) : sm_has k m = false ↔ sm_find k m = None.
Proof. unfold sm_has. by destruct (sm_find k m). Qed.

(** ** Paths *)


Lemma substring_split s : ∀ n, (n ≤ String.length s)%nat →
  s = String.substring 0 n s +:+ String.substring n (String.length s - n) s.
Proof.
  induction s as [|x s IH]; intros [|n] Hn; cbn in Hn |- *; [done|lia|..].
  - change ("" +:+ ?b) with b. f_equal. specialize (IH 0%nat ltac:(lia)). rewrite Nat.sub_0_r in IH.
    replace (String.substring 0 0 s) with ""%string in IH by (by destruct s). exact IH.
  - change (String x ?a +:+ ?b) with (String x (a +:+ b)). f_equal. apply IH. lia.
Qed.

Lemma strip_extension_app ext name : name ≠ ""%string → strip_extension ext (name +:+ ext) = Some name.
Proof.
  intros Hn. unfold strip_extension. rewrite length_append.
  destruct (Nat.leb_spec (String.length name + String.length ext) (String.length ext)) as [H|H].
  { destruct name; [done|]. cbn in H. lia. }
  replace (String.length name + String.length ext - String.length ext)%nat with (String.length name) by lia.
  by rewrite substring_app_r, substring_app_l, bool_decide_true by done.
Qed.
Lemma strip_extension_Some ext f name : strip_extension ext f = Some name → f = name +:+ ext ∧ name ≠ ""%string.
Proof.
  unfold strip_extension. destruct (Nat.leb_spec (String.length f) (String.length ext)) as [H|H]; [done|].
  case_bool_decide as E; [|done]. intros [= <-]. split.
  - pose proof (substring_split f (String.length f - String.length ext) ltac:(lia)) as Hs.
    replace (String.length f - (String.length f - String.length ext))%nat with (String.length ext) in Hs by lia. by rewrite E in Hs.
  - intros Hx. apply (f_equal String.length) in Hx. cbn in Hx.
    pose proof (substring_split f (String.length f - String.length ext) ltac:(lia)) as Hs.
    apply (f_equal String.length) in Hs. rewrite length_append, Hx in Hs.
    replace (String.length f - (String.length f - String.length ext))%nat with (String.length ext) in Hs by lia.
    rewrite E in Hs. cbn in Hs. lia.
Qed.

(** A component of a path. *)
Definition ok_component (f : string) : Prop := f ≠ ""%string ∧ free_of "/" f.
Definition dir_prefix (dir : string) : string := if ends_with_slash dir then dir else dir +:+ "/".
Lemma path_join_component dir f : ok_component f → path_join dir f = dir_prefix dir +:+ f.
Proof.
  intros [Hne Hf]. unfold path_join, dir_prefix. destruct f as [|c f]; [done|].
  assert (Ascii.eqb c "/" = false) as ->.
  { apply Ascii.eqb_neq. intros ->. apply Hf. cbn. left. }
  destruct (ends_with_slash dir); [done|]. by rewrite append_assoc.
Qed.

Lemma free_of_append c a b : free_of c a → free_of c b → free_of c (a +:+ b).
Proof.
  unfold free_of. induction a as [|x a IH]; [done|]. change (String x a +:+ b) with (String x (a +:+ b)).
  cbn [String.list_ascii_of_string]. rewrite !not_elem_of_cons. intros [Hx Ha] Hb. split; [done|]. by apply IH.
Qed.

(** ** Views survive a restart *)

Lemma bool_decide_ext_if {A} (P Q : Prop) `{Decision P, Decision Q} (a b : A) : (P ↔ Q) →
  (if bool_decide P then a else b) = if bool_decide Q then a else b.
Proof. intros HPQ. by rewrite (bool_decide_ext P Q HPQ). Qed.

Section views.
Context (storage : string).

Lemma view_file_component name : ok_component name → ok_component (name +:+ VIEW_EXTENSION).
Proof.
  intros [Hne Hf]. split; [by destruct name|].
  apply free_of_append; [done|]. unfold free_of. apply (bool_decide_unpack _). vm_compute. exact I.
Qed.
Lemma view_path name : ok_component name →
  build_view_path storage name = dir_prefix (views_dir storage) +:+ (name +:+ VIEW_EXTENSION).
Proof. intros H. by apply path_join_component, view_file_component. Qed.

Lemma view_path_inj n1 n2 : ok_component n1 → ok_component n2 →
  build_view_path storage n1 = build_view_path storage n2 → n1 = n2.
Proof. intros H1 H2. rewrite !view_path by done. by intros ?%append_inj_l%append_inj_r. Qed.

Lemma last_append a c b : last (String.list_ascii_of_string (a +:+ String c b)) = last (String.list_ascii_of_string (String c b)).
Proof.
  induction a as [|x a IH]; [done|]. change (String x a +:+ String c b) with (String x (a +:+ String c b)).
  cbn [String.list_ascii_of_string] in *. rewrite <- IH. by destruct a.
Qed.
Lemma tmp_no_view name p : p +:+ ".tmp" ≠ build_view_path storage name ∨ ¬ ok_component name.
Proof.
  destruct (decide (p +:+ ".tmp" = build_view_path storage name)) as [E|]; [|by left]. right. intros Hn.
  rewrite view_path in E by done. apply (f_equal (λ s, last (String.list_ascii_of_string s))) in E.
  unfold VIEW_EXTENSION in E. rewrite <- append_assoc in E. by rewrite !last_append in E.
Qed.

(** The files of views are the texts of the registered views, and can be removed. *)
Record views_kept (c : Catalogs) : Prop := {
  vk_removes n : ok_component n → removes (disk c) (build_view_path storage n) = true;
  vk_sorted : sm_sorted (views c);
  vk_file n : ok_component n → files (disk c) !! build_view_path storage n = vd_select_sql <$> sm_find n (views c);
  vk_view n d : sm_find n (views c) = Some d →
    ok_component n ∧ new_ViewDefinition n (vd_select_sql d) = Ok d ∧
    drop_last view_noise (vd_select_sql d) = vd_select_sql d
}.

Lemma new_view_sql name sql d : new_ViewDefinition name sql = Ok d → vd_select_sql d = sql.
Proof. unfold new_ViewDefinition. destruct (parse_select sql) as [?|[]|]; by intros [= <-]. Qed.

(** What writing a view's file does to the disk, whatever fails. *)
Lemma write_view_file name text s : ok_component name →
  let '(s', r) := write_file (build_view_path storage name) text "view" true s in
  (∀ n, ok_component n → n ≠ name → files s' !! build_view_path storage n = files s !! build_view_path storage n)
  ∧ files s' !! build_view_path storage name = (match r with Ok _ => Some text | _ => files s !! build_view_path storage name end)
  ∧ removes s' = removes s ∧ r ≠ UB.
Proof.
  intros Hn. set (path := build_view_path storage name). set (tmp := path +:+ ".tmp").
  assert (∀ n, ok_component n → tmp ≠ build_view_path storage n) as Htmp.
  { intros n Hc. destruct (tmp_no_view n path); [done|by destruct H]. }
  unfold write_file. rewrite ST_bind_eq. unfold fs_write. fold tmp. destruct (opens s tmp); cbn [negb]; [|done].
  destruct (writes s tmp); cbn [negb andb].
  - unfold fs_rename. cbn [files set_files places]. rewrite lookup_insert_eq. destruct (places s path); cbn [files set_files].
    + rewrite delete_insert_eq. split; [|split; [by rewrite lookup_insert_eq|done]]. intros n Hc Hne.
      rewrite lookup_insert_ne by (intros E; apply Hne; symmetry; by eapply view_path_inj).
      apply lookup_delete_ne. by apply Htmp.
    + split; [|split; [|done]].
      * intros n Hc _. apply lookup_insert_ne. by apply Htmp.
      * apply lookup_insert_ne. by apply Htmp.
  - cbn [files set_files]. split; [|split; [|done]].
    + intros n Hc _. apply lookup_insert_ne. by apply Htmp.
    + apply lookup_insert_ne. by apply Htmp.
Qed.

Lemma make_dir_disk dir s : let '(s', r) := fs_make_dir dir s in s' = s ∧ r ≠ UB.
Proof. unfold fs_make_dir. by destruct (places s dir). Qed.

Lemma sm_erase_set {A} k (a : A) m : sm_sorted m → sm_find k m = None → sm_erase k (sm_set k a m) = m.
Proof.
  intros Hs Hk. apply sm_ext; [by apply sm_sorted_erase, sm_sorted_set|done|]. intros k'.
  destruct (decide (k' = k)) as [->|Hne]; [by rewrite sm_find_erase_eq|]. by rewrite sm_find_erase_ne, sm_find_set_ne.
Qed.

Definition same_view_files (s s' : Fs) : Prop :=
  removes s' = removes s ∧
  ∀ n, ok_component n → files s' !! build_view_path storage n = files s !! build_view_path storage n.

(** A failed save is undone. *)
Lemma undo_view_kept name d c s' e : views_kept c → sm_find name (views c) = None → same_view_files (disk c) s' →
  views_kept (fst ((when (has_view name) (unregister_view name);; mret (error_result (what e)))
                     (with_disk s' (with_views (sm_set name d (views c)) c)))).
Proof.
  intros Hc Hv [Hm Hf]. unfold when. rewrite !ST_bind_eq. cbn [st_get].
  assert (has_view name (with_disk s' (with_views (sm_set name d (views c)) c)) = true) as Hhas.
  { unfold has_view, sm_has. cbn [views with_disk with_views]. by rewrite sm_find_set_eq. }
  rewrite Hhas. unfold unregister_view. rewrite ST_bind_eq. cbn [st_get]. rewrite Hhas. cbn [negb st_modify fst].
  cbn [mret ST_ret fst]. replace (with_views _ _) with (with_disk s' c).
  - destruct Hc as [H0 H1 H2 H3]. constructor; [|done| |done]; intros n Hok; cbn [disk with_disk views].
    + rewrite Hm. by apply H0.
    + by rewrite Hf, H2.
  - unfold with_views, with_disk. cbn [views functions procedures triggers trigger_order disk]. f_equal.
    symmetry. apply sm_erase_set; [apply Hc|done].
Qed.

Lemma create_view_kept is_table name sql c :
  ok_component name → drop_last view_noise sql = sql → views_kept c →
  views_kept (fst (execute_create_view_statement storage is_table name sql c)).
Proof.
  intros Hn Hsql Hc. unfold execute_create_view_statement. rewrite ST_bind_eq. cbn [st_get].
  destruct is_table; [done|]. destruct (has_view name c) eqn:Hhas; [done|]. pose proof Hhas as Hv. apply sm_has_find in Hv.
  unfold reported, st_catch, register_view. rewrite !ST_bind_eq. cbn [st_get].
  rewrite Hhas, ST_bind_eq. unfold st_lift at 1.
  destruct (new_ViewDefinition name sql) as [d|e|] eqn:Hd; [|unfold when; rewrite !ST_bind_eq; cbn [st_get]; by rewrite Hhas|done].
  pose proof (new_view_sql _ _ _ Hd) as Hds.
  unfold st_modify at 1. unfold save_view. rewrite ST_bind_eq. cbn [st_get]. unfold get_view. cbn [views with_views].
  rewrite sm_find_set_eq. unfold on_disk at 1. cbn [disk with_views]. rewrite ST_bind_eq.
  pose proof (make_dir_disk (views_dir storage) (disk c)) as Hdir.
  destruct (fs_make_dir (views_dir storage) (disk c)) as [s1 r1]. destruct Hdir as [-> Hr1].
  destruct r1 as [[]|e|]; [|by apply undo_view_kept; [| |split]|done].
  pose proof (write_view_file name (vd_select_sql d) (disk c) Hn) as Hw.
  destruct (write_file _ _ _ _ (disk c)) as [s2 r2]. destruct Hw as (Hw1 & Hw2 & Hwr & Hw3).
  destruct r2 as [[]|e|]; [|apply undo_view_kept; [done..|split; [done|]]; intros n Hok; destruct (decide (n = name)) as [->|]; by auto|done].
  cbn [mret ST_ret fst]. destruct Hc as [H0 H1 H2 H3]. constructor; cbn [views with_disk with_views disk].
  - intros n Hok. rewrite Hwr. by apply H0.
  - by apply sm_sorted_set.
  - intros n Hok. destruct (decide (n = name)) as [->|Hne]; [by rewrite Hw2, sm_find_set_eq|].
    by rewrite Hw1, sm_find_set_ne, H2.
  - intros n d'. destruct (decide (n = name)) as [->|Hne]; [|rewrite sm_find_set_ne by done; apply H3].
    rewrite sm_find_set_eq. intros [= <-]. by rewrite Hds.
Qed.

Lemma drop_view_kept name if_exists c :
  ok_component name → views_kept c → views_kept (fst (execute_drop_view_statement storage name if_exists c)).
Proof.
  intros Hn Hc. unfold execute_drop_view_statement. rewrite ST_bind_eq. cbn [st_get].
  destruct (has_view name c) eqn:Hv; [|done]. cbn [negb]. unfold reported, st_catch, unregister_view, remove_view_file.
  rewrite !ST_bind_eq. cbn [st_get]. rewrite Hv. cbn [negb st_modify]. unfold on_disk, fs_remove. cbn [disk with_views mret ST_ret fst].
  destruct Hc as [H0 H1 H2 H3]. rewrite (H0 name Hn). constructor; cbn [views with_disk with_views disk files set_files removes].
  - exact H0.
  - by apply sm_sorted_erase.
  - intros n Hok. destruct (decide (n = name)) as [->|Hne].
    + rewrite lookup_delete_eq. by rewrite sm_find_erase_eq.
    + rewrite sm_find_erase_ne by done. rewrite <- H2 by done. apply lookup_delete_ne.
      intros E. apply Hne. symmetry. by eapply view_path_inj.
  - intros n d. destruct (decide (n = name)) as [->|Hne]; [by rewrite sm_find_erase_eq|]. rewrite sm_find_erase_ne by done. apply H3.
Qed.

(** The statements, whatever the tables of the database and the state of the disk. *)
Inductive view_op : Type :=
  | CreateView (is_table : bool) (name sql : string)
  | DropView (name : string) (if_exists : bool).
Definition view_step (o : view_op) : ST Catalogs QueryResult :=
  match o with
  | CreateView is_table name sql => execute_create_view_statement storage is_table name sql
  | DropView name if_exists => execute_drop_view_statement storage name if_exists
  end.
Definition view_op_ok (o : view_op) : Prop :=
  match o with
  | CreateView _ name sql => ok_component name ∧ drop_last view_noise sql = sql
  | DropView name _ => ok_component name
  end.
Definition view_history (os : list view_op) (c : Catalogs) : Catalogs := foldl (λ c o, fst (view_step o c)) c os.

Lemma view_history_kept os : ∀ c, Forall view_op_ok os → views_kept c → views_kept (view_history os c).
Proof.
  induction os as [|o os IH]; intros c Hos Hc; [done|]. inversion_clear Hos as [|? ? Ho Hos'].
  apply IH; [done|]. destruct o; cbn [view_step view_op_ok] in *; [by apply create_view_kept; destruct Ho|by apply drop_view_kept].
Qed.

(** [listed] are the files of the directory of views, in some order. *)
Definition lists_views (s : Fs) (listed : list Entry) : Prop :=
  NoDup listed.*1 ∧
  ∀ f o, (f, o) ∈ listed ↔ ok_component f ∧ ∃ text, o = Some text ∧ files s !! (dir_prefix (views_dir storage) +:+ f) = Some text.

Lemma load_view_entry c c1 f text :
  views_kept c → ok_component f → files (disk c) !! (dir_prefix (views_dir storage) +:+ f) = Some text →
  (∀ n, strip_extension VIEW_EXTENSION f = Some n → sm_find n (views c1) = None) →
  load_view_file (views_dir storage) (f, Some text) c1
  = (match strip_extension VIEW_EXTENSION f with
     | Some n => match sm_find n (views c) with
                 | Some d => with_views (sm_set n d (views c1)) c1 | None => c1 end
     | None => c1 end, Ok tt)
  ∧ (∀ n, strip_extension VIEW_EXTENSION f = Some n → is_Some (sm_find n (views c))).
Proof.
  intros Hc [Hne Hf] Hfile Hfresh. unfold load_view_file. cbn [fst snd].
  destruct (strip_extension VIEW_EXTENSION f) as [n|] eqn:Hs; [|by split; [|intros ? [=]]].
  apply strip_extension_Some in Hs as [-> Hn]. assert (ok_component n) as Hok.
  { split; [done|]. intros Hin. apply Hf. clear -Hin. induction n as [|x n IH]; [by apply not_elem_of_nil in Hin|].
    change (String x n +:+ VIEW_EXTENSION) with (String x (n +:+ VIEW_EXTENSION)). cbn [String.list_ascii_of_string] in *.
    apply elem_of_cons in Hin as [->|Hin]; [left|right; by apply IH]. }
  rewrite <- view_path, (vk_file _ Hc) in Hfile by done.
  destruct (sm_find n (views c)) as [d|] eqn:Hd; [|done]. injection Hfile as <-. destruct (vk_view _ Hc n d Hd) as (_ & Hnew & Hnoise).
  split; [|by intros ? [= <-]]. unfold register_view. rewrite ST_bind_eq. cbn [st_get].
  rewrite (proj2 (sm_has_find n (views c1)) (Hfresh _ eq_refl) : has_view n c1 = false). rewrite Hnoise, ST_bind_eq.
  unfold st_lift. by rewrite Hnew.
Qed.

Abbreviation view_names listed := (omap (strip_extension VIEW_EXTENSION) listed.*1).

Lemma load_views_from c listed : views_kept c → NoDup listed.*1 →
  (∀ f o, (f, o) ∈ listed → ok_component f ∧ ∃ text, o = Some text ∧ files (disk c) !! (dir_prefix (views_dir storage) +:+ f) = Some text) →
  ∀ c1, sm_sorted (views c1) → (∀ n, n ∈ view_names listed → sm_find n (views c1) = None) →
  ∃ m, st_iter (load_view_file (views_dir storage)) listed c1 = (with_views m c1, Ok tt) ∧ sm_sorted m
     ∧ ∀ n, sm_find n m = if bool_decide (n ∈ view_names listed) then sm_find n (views c) else sm_find n (views c1).
Proof.
  intros Hc. unfold st_iter. induction listed as [|[f o] listed IH]; intros Hnd Hl c1 Hs Hfresh.
  { exists (views c1). split; [by destruct c1|]. split; [done|]. intros n. by rewrite bool_decide_false by apply not_elem_of_nil. }
  rewrite fmap_cons in Hnd, Hfresh |- *. apply NoDup_cons in Hnd as [Hf Hnd]. cbn [fst] in *.
  destruct (Hl f o (list_elem_of_here _ _)) as (Hok & text & -> & Hfile).
  destruct (load_view_entry c c1 f text Hc Hok Hfile) as [Hrun Hsome].
  { intros n Hn. apply Hfresh. cbn [omap list_omap]. rewrite Hn. left. }
  assert (∀ n, strip_extension VIEW_EXTENSION f = Some n → n ∉ view_names listed) as Hnew.
  { intros n [-> _]%strip_extension_Some (f' & Hf' & [-> _]%strip_extension_Some)%list_elem_of_omap. done. }
  cbn [st_fold omap list_omap] in *. rewrite ST_bind_eq, Hrun.
  destruct (strip_extension VIEW_EXTENSION f) as [n0|] eqn:Hstrip.
  - destruct (Hsome n0 eq_refl) as [d Hd]. rewrite Hd.
    destruct (IH Hnd) with (c1 := with_views (sm_set n0 d (views c1)) c1) as (m & Hm & Hsm & Hfind).
    + intros f' o' Hin. apply Hl. by right.
    + by apply sm_sorted_set.
    + intros n Hin. cbn [views with_views]. rewrite sm_find_set_ne by (intros ->; by apply (Hnew n0)). apply Hfresh. by right.
    + exists m. split; [done|]. split; [done|]. intros n. rewrite Hfind. cbn [views with_views].
      destruct (decide (n = n0)) as [->|Hne].
      * rewrite (bool_decide_true (_ ∈ n0 :: _)) by left. rewrite (bool_decide_false (_ ∈ _)) by (by apply Hnew). by rewrite sm_find_set_eq.
      * rewrite sm_find_set_ne by done. apply bool_decide_ext_if. rewrite elem_of_cons. tauto.
  - destruct (IH Hnd) with (c1 := c1) as (m & Hm & Hsm & Hfind); [|done|done|by exists m].
    intros f' o' Hin. apply Hl. by right.
Qed.

(** C33. Views survive a restart: from an empty directory of views, after any history of
    CREATE VIEW and DROP VIEW with names that are path components and texts that do not end
    in a line break or a semicolon, with whatever files that could not be written on the way
    but on a disk that lets the files of views be removed, reading the directory back in any
    order gives the views the catalog had.  (Where a file cannot be removed, a dropped view
    comes back: [dropped_view_returns].) *)
Theorem views_survive_restart os c0 listed c1 :
  (∀ n, ok_component n → removes (disk c0) (build_view_path storage n) = true) →
  views c0 = [] → (∀ n, ok_component n → files (disk c0) !! build_view_path storage n = None) →
  Forall view_op_ok os → lists_views (disk (view_history os c0)) listed →
  load_all_views storage listed c1 = (with_views (views (view_history os c0)) c1, Ok tt).
Proof.
  intros Hr0 Hv0 Hf0 Hos [Hnd Hl]. set (c := view_history os c0) in *.
  assert (views_kept c) as Hc.
  { apply view_history_kept; [done|]. constructor; rewrite ?Hv0; [done|constructor|intros n Hok; by rewrite Hf0|done]. }
  unfold load_all_views. rewrite ST_bind_eq. cbn [st_modify].
  destruct (load_views_from c listed Hc Hnd) with (c1 := with_views [] c1) as (m & -> & Hs & Hfind).
  - intros f o Hin. by apply Hl.
  - constructor.
  - done.
  - assert (m = views c) as ->; [|done]. apply sm_ext; [done|apply Hc|]. intros n. rewrite Hfind.
    case_bool_decide as Hin; [done|]. cbn [views with_views sm_find].
    destruct (sm_find n (views c)) as [d|] eqn:Hd; [|done]. exfalso. apply Hin. destruct (vk_view _ Hc n d Hd) as ([Hne Hfree] & _).
    apply list_elem_of_omap. exists (n +:+ VIEW_EXTENSION). split; [|by apply strip_extension_app].
    apply list_elem_of_fmap. exists (n +:+ VIEW_EXTENSION, Some (vd_select_sql d)). split; [done|]. apply Hl. split.
    + by apply view_file_component.
    + exists (vd_select_sql d). split; [done|]. rewrite <- view_path by done. by rewrite (vk_file _ Hc), Hd.
Qed.
End views.

(** Two views are created, the file of the second cannot be written; one file and a
    leftover are found again. *)
Definition half_full : Fs :=
  mkFs ∅ (λ _, true) (λ p, bool_decide (p ≠ "db/_views/w.view.tmp"%string)) (λ _, true) (λ _, true).
Definition empty_catalogs (d : Fs) : Catalogs := mkCatalogs [] [] [] [] [] d.
Definition sample_view_ops : list view_op :=
  [CreateView false "v" "SELECT a FROM t"; CreateView false "w" "SELECT b FROM t"; DropView "u" true].
Definition sample_listing : list Entry := [("w.view.tmp", Some ""); ("v.view", Some "SELECT a FROM t")]%string.

Lemma sample_disk : files (disk (view_history "db" sample_view_ops (empty_catalogs half_full)))
  = <["db/_views/w.view.tmp" := ""]> (<["db/_views/v.view" := "SELECT a FROM t"]> ∅)%string.
Proof. vm_compute. reflexivity. Qed.

Lemma views_survive_restart_witness :
  let c := view_history "db" sample_view_ops (empty_catalogs half_full) in
  list_views c = ["v"%string] ∧
  load_all_views "db" sample_listing (empty_catalogs half_full) = (with_views (views c) (empty_catalogs half_full), Ok tt).
Proof.
  cbn zeta. split; [vm_compute; reflexivity|]. apply views_survive_restart.
  - reflexivity.
  - reflexivity.
  - intros n _. apply lookup_empty.
  - repeat constructor; cbn; try (by intros [=]); try reflexivity; unfold free_of; apply (bool_decide_unpack _); vm_compute; exact I.
  - split; [apply (bool_decide_unpack _); vm_compute; exact I|]. intros f o. rewrite sample_disk.
    change (dir_prefix (views_dir "db")) with "db/_views/"%string. split.
    + intros [[= -> ->]|[[= -> ->]|[]%not_elem_of_nil]%elem_of_cons]%elem_of_cons; (split; [split; [by intros [=]|unfold free_of; apply (bool_decide_unpack _); vm_compute; exact I]|]);
        eexists; (split; [reflexivity|reflexivity]).
    + intros (_ & text & -> & [[E <-]|[_ [[E <-]|[_ []%lookup_empty_Some]]%lookup_insert_Some]]%lookup_insert_Some).
      * change "db/_views/w.view.tmp"%string with ("db/_views/" +:+ "w.view.tmp") in E. apply append_inj_l in E as <-. left.
      * change "db/_views/v.view"%string with ("db/_views/" +:+ "v.view") in E. apply append_inj_l in E as <-. right. left.
Defined.

(** DROP VIEW does not look whether the file was removed: where it could not be, the
    statement succeeds and the view is back after a restart. *)
Example dropped_view_returns :
  let locked := mkFs ∅ (λ _, true) (λ _, true) (λ _, true) (λ _, false) in
  let c := view_history "db" [CreateView false "v" "SELECT a FROM t"] (empty_catalogs locked) in
  let '(c, r) := execute_drop_view_statement "db" "v" false c in
  (success <$> r) = Ok true ∧ list_views c = [] ∧
  files (disk c) !! "db/_views/v.view"%string = Some "SELECT a FROM t"%string ∧
  list_views (load_all_views "db" [("v.view", Some "SELECT a FROM t")]%string c).1 = ["v"%string].
Proof. vm_compute. split_and!; reflexivity. Qed.

(** ** CREATE of a name that is taken *)

Lemma undo_drops (has : Catalogs → bool) (unregister : ST Catalogs unit) c c' e : has c = true → unregister c = (c', Ok tt) →
  (when has unregister;; mret (error_result (what e))) c = (c', Ok (error_result (what e))).
Proof. intros Hh Hu. unfold when. rewrite !ST_bind_eq. cbn [st_get]. by rewrite Hh, Hu. Qed.
Lemma unregister_procedure_there name c : hasProcedure name c = true →
  unregisterProcedure name c = (with_procedures (sm_erase name (procedures c)) c, Ok tt).
Proof. intros Hp. unfold unregisterProcedure. rewrite ST_bind_eq. cbn [st_get]. by rewrite Hp. Qed.
Lemma unregister_function_there name c : has_function name c = true →
  unregisterFunction name c = (with_functions (sm_erase name (functions c)) c, Ok tt).
Proof. intros Hp. unfold unregisterFunction. rewrite ST_bind_eq. cbn [st_get]. by rewrite Hp. Qed.

Definition params_validator (today : string) (params : list RoutineParamAst) : Evaluator SelectStatement unit :=
  mkEvaluator (Q := SelectStatement) ((λ p, mkBinding "" "" (rp_name p)) <$> params) None None None false None None ∅ today.

(** CREATE FUNCTION, PROCEDURE or TRIGGER of a name that is taken fails, and its error
    handler removes the definition that was there: the routine or trigger is gone from the
    catalog, its file is still on the disk. *)
Theorem failed_create_drops_the_first storage name c :
  (∀ params sqls src, hasProcedure name c = true → routine_parameters params ≠ UB →
   ∃ msg, execute_create_procedure_statement storage name params sqls src c
          = (with_procedures (sm_erase name (procedures c)) c, Ok (error_result msg)))
  ∧ (∀ today params return_type body src, has_function name c = true → hasFunction today name = false →
     expression_has_aggregate body = false → validate_inner (params_validator today params) [] body = None →
     function_of name params return_type body src ≠ UB →
     ∃ msg, execute_create_function_statement storage today name params return_type body src c
            = (with_functions (sm_erase name (functions c)) c, Ok (error_result msg)))
  ∧ (∀ d d', getTrigger name c = Some d → td_name d' = name →
     execute_create_trigger_statement storage true d' c
     = (with_triggers (sm_erase (td_name d) (triggers c)) (filter (λ n, n ≠ td_name d) (trigger_order c)) c,
        Ok (error_result (what (ConstraintException ("Trigger '" +:+ name +:+ "' already exists")))))).
Proof.
  split; [|split].
  - intros params sqls src Hp Hub. unfold execute_create_procedure_statement, reported, st_catch, procedure_of.
    rewrite !ST_bind_eq. unfold st_lift. destruct (routine_parameters params) as [ps|e|]; [|..|done]; cbn [mbind res_bind].
    + unfold registerProcedure. rewrite !ST_bind_eq. cbn [st_get pd_name]. rewrite Hp. cbn [st_throw].
      eexists. by apply undo_drops, unregister_procedure_there.
    + eexists. by apply undo_drops, unregister_procedure_there.
  - intros today params rt body src Hf Hb Ha Hv Hub. unfold execute_create_function_statement. rewrite Hb, Ha.
    fold (params_validator today params). rewrite Hv. unfold reported, st_catch. rewrite !ST_bind_eq. unfold st_lift.
    destruct (function_of name params rt body src) as [f|e|] eqn:E; [|..|done].
    + assert (fd_name (rf_definition f) = name) as Hn.
      { unfold function_of in E. destruct (routine_parameters params); cbn [mbind res_bind] in E; [|done..].
        destruct (string_to_data_type rt); cbn [mbind res_bind] in E; [|done..]. by injection E as <-. }
      unfold registerFunction. rewrite !ST_bind_eq. cbn [st_get]. rewrite Hn, Hf. cbn [st_throw].
      eexists. by apply undo_drops, unregister_function_there.
    + eexists. by apply undo_drops, unregister_function_there.
  - intros d d' Hd Hn. assert (hasTrigger name c = true) as Ht by (unfold hasTrigger; rewrite Hd; by apply bool_decide_true).
    unfold execute_create_trigger_statement. cbn [negb]. unfold reported, st_catch, registerTrigger. rewrite !ST_bind_eq. cbn [st_get].
    rewrite Hn, Ht. cbn [st_throw]. apply undo_drops; [done|]. unfold unregisterTrigger. rewrite ST_bind_eq. cbn [st_get]. by rewrite Hd.
Qed.

(** ** Runs *)

Definition good_disk : Fs := mkFs ∅ (λ _, true) (λ _, true) (λ _, true) (λ _, true).
Definition create_f (c : Catalogs) : Catalogs * res QueryResult :=
  match parse_text "CREATE FUNCTION f(x INT) RETURNS INT AS $$ x + 1 $$" with
  | Ok (SCreateFunction name params rt body src) =>
      execute_create_function_statement "db" "2024-01-01" name params rt body src c
  | _ => (c, UB)
  end.

(** The second CREATE FUNCTION reports an error, and the function is gone. *)
Lemma failed_create_drops_the_first_witness :
  let c1 := fst (create_f (empty_catalogs good_disk)) in
  has_function "f" c1 = true ∧
  ∃ msg, create_f c1 = (with_functions [] c1, Ok (error_result msg)).
Proof.
  cbn zeta. split; [vm_compute; reflexivity|].
  destruct (failed_create_drops_the_first "db" "f" (fst (create_f (empty_catalogs good_disk)))) as (_ & Hf & _).
  edestruct (Hf "2024-01-01"%string [mkRoutineParam "x" "INT"] "INT"%string
    (BinaryOpE (ColumnRef "" "x") PLUS (Literal (VInt 1))) "CREATE FUNCTION f(x INT) RETURNS INT AS $$ x + 1 $$"%string)
    as [msg Hmsg]; [vm_compute; reflexivity..|by vm_compute|].
  exists msg. vm_compute in Hmsg. vm_compute. exact Hmsg.
Defined.

Definition trigger_of (sql : string) : TriggerDefinition :=
  match parse_text sql with
  | Ok (SCreateTrigger name table_name timing event sqls src) => mkTrigger name table_name timing event sqls src
  | _ => mkTrigger "" "" Before OnInsert [] ""
  end.
Definition g_sql : string := "CREATE TRIGGER g BEFORE INSERT ON t FOR EACH ROW EXECUTE $$ SET NEW.a = 1 $$".
Definition h_sql : string := "CREATE TRIGGER h BEFORE INSERT ON t FOR EACH ROW EXECUTE $$ SET NEW.a = 2 $$".

(** The loader reads temporary files too: a CREATE TRIGGER that failed comes back. *)
Example failed_trigger_comes_back :
  let d := mkFs ∅ (λ _, true) (λ _, true) (λ p, bool_decide (p ≠ "db/_triggers/g.trig"%string)) (λ _, true) in
  let '(c, r) := execute_create_trigger_statement "db" true (trigger_of g_sql) (empty_catalogs d) in
  r = Ok (error_result "filesystem error: cannot rename: db/_triggers/g.trig.tmp") ∧ hasTrigger "g" c = false ∧
  files (disk c) !! "db/_triggers/g.trig.tmp"%string = Some g_sql ∧
  hasTrigger "g" (fst (load_all_triggers "db" [("g.trig.tmp", Some g_sql)]%string c)) = true.
Proof. vm_compute. done. Qed.

(** The stream of a routine file is not tested: CREATE FUNCTION succeeds on a full disk,
    and the empty file it leaves stops the next start. *)
Example empty_routine_file_stops_start :
  let d := mkFs ∅ (λ _, true) (λ _, false) (λ _, true) (λ _, true) in
  let '(c, r) := create_f (empty_catalogs d) in
  r = Ok (success_result "CREATE FUNCTION OK") ∧ files (disk c) !! "db/_routines/f.func"%string = Some ""%string ∧
  ∃ e, snd (load_all_routines "db" [("f.func", Some "")]%string c) = Throw e.
Proof. vm_compute. split; [done|]. split; [done|]. by eexists. Qed.

(** Triggers fire in the order of their registration, after a restart in the order of the
    directory. *)
Example restart_reorders_triggers :
  let register sql c := fst (registerTrigger (trigger_of sql) c) in
  let c := register h_sql (register g_sql (empty_catalogs good_disk)) in
  let c' := fst (load_all_triggers "db" [("h.trig", Some h_sql); ("g.trig", Some g_sql)]%string c) in
  td_name <$> listBy "t" Before OnInsert c = ["g"; "h"]%string ∧
  td_name <$> listBy "t" Before OnInsert c' = ["h"; "g"]%string.
Proof. vm_compute. done. Qed.
