(* ===== verification/Wal.v ===== *)
(** * The write-ahead log

    [WalManager] (src/storage/wal_manager.cc): the records of the log, how they are
    appended, and the recovery that installs the tables of a committed log.

    The log is a sequence of bytes; a crash while it is written leaves a prefix of it.
    Recovery is shown to be atomic: a log whose commit record is complete installs every
    table, a shorter one none, and a crash on the way can be repeated. *)

From Stdlib Require Import ZArith Lia.
From S2P Require Import Prelude FileSystem.

(** ** Records *)

Inductive RecordType : Type := TableBlob | Commit | Done.
Definition record_code (t : RecordType) : Z := match t with TableBlob => 1 | Commit => 2 | Done => 3 end.
Definition record_type (code : Z) : option RecordType :=
  if code =? 1 then Some TableBlob else if code =? 2 then Some Commit else if code =? 3 then Some Done else None.

Definition record_bytes (t : RecordType) (payload : list Z) : list Z :=
  record_code t :: le_bytes 4 (u_wrap 32 (Z.of_nat (length payload))) ++ payload.
Definition blob_payload (table_name : string) (blob : list Z) : list Z :=
  let name_len := u_wrap 16 (Z.of_nat (String.length table_name)) in
  [Z.land name_len 255; Z.land (Z.shiftr name_len 8) 255] ++ bytes_of_string table_name ++ blob.

Section wal.
Context (directory_path : string).
Definition wal_path : string := directory_path +:+ "/wal.log".

Definition append_record (t : RecordType) (payload : list Z) : ST Fs unit :=
  fs_make_dir directory_path;;
  ok ← fs_append wal_path (string_of_bytes (record_bytes t payload));
  match ok with
  | None => st_throw (StorageException ("Cannot open WAL for append: " +:+ wal_path))
  | Some false => st_throw (StorageException ("Failed writing WAL: " +:+ wal_path))
  | Some true => mret tt
  end.
Definition append_table_blob (table_name : string) (blob : list Z) : ST Fs unit :=
  append_record TableBlob (blob_payload table_name blob).
Definition append_commit (txn_id : Z) : ST Fs unit := append_record Commit (le_bytes 8 txn_id).
Definition append_done : ST Fs unit := append_record Done [].
(** The file is opened for append, which makes it, and flushed. *)
Definition sync : ST Fs unit := fs_append wal_path "";; mret tt.
Definition truncate : ST Fs unit := fs_remove wal_path.

(** ** Recovery *)

Record Recovery : Type := mkRecovery {
  pending : list (string * list Z);
  saw_commit : bool;
  saw_done : bool
}.
Definition start_recovery : Recovery := mkRecovery [] false false.

(** A record that is too short is left out. *)
Definition read_blob (payload : list Z) : option (string * list Z) :=
  match payload with
  | b0 :: b1 :: rest =>
      let name_len := Z.to_nat (u_wrap 16 (Z.lor b0 (Z.shiftl b1 8))) in
      if (length rest <? name_len)%nat then None
      else Some (string_of_bytes (take name_len rest), drop name_len rest)
  | _ => None
  end.
Definition apply_record (s : Recovery) (code : Z) (payload : list Z) : Recovery :=
  match record_type code with
  | Some TableBlob =>
      match read_blob payload with
      | Some item => mkRecovery (pending s ++ [item]) (saw_commit s) (saw_done s)
      | None => s
      end
  | Some Commit => mkRecovery (pending s) true (saw_done s)
  | Some Done => mkRecovery [] false true
  | None => s
  end.
(** A record that is cut off ends the log.  Each takes a byte at least. *)
Fixpoint read_log (fuel : nat) (bytes : list Z) (s : Recovery) : Recovery :=
  match fuel, bytes with
  | S fuel, code :: bytes =>
      if (length bytes <? 4)%nat then s
      else
        let size := Z.to_nat (le_value (take 4 bytes)) in
        let bytes := drop 4 bytes in
        if (length bytes <? size)%nat then s
        else read_log fuel (drop size bytes) (apply_record s code (take size bytes))
  | _, _ => s
  end.

Definition table_path (name : string) : string := directory_path +:+ "/" +:+ name +:+ ".db".
(** What was written to the temporary file is not checked. *)
Definition install_table (item : string * list Z) : ST Fs unit :=
  let dest := table_path item.1 in
  let temp := dest +:+ ".tmp" in
  ok ← fs_write temp (string_of_bytes item.2);
  match ok with
  | None => st_throw (StorageException ("WAL recovery write failed: " +:+ temp))
  | Some _ => fs_rename temp dest
  end.
Definition recover : ST Fs unit :=
  fs ← st_get;
  match fs_read wal_path fs with
  | None => mret tt
  | Some text =>
      let bytes := bytes_of_string text in
      let s := read_log (length bytes) bytes start_recovery in
      (if saw_commit s && negb (saw_done s) then st_iter install_table (pending s) else mret tt);;
      truncate
  end.
End wal.

(** ** Reading what was written *)

Abbreviation logged := (RecordType * list Z)%type.
Definition record_ok (r : logged) : Prop := Z.of_nat (length r.2) < 2 ^ 32 ∧ Forall is_u8 r.2.
Definition log_bytes (rs : list logged) : list Z := mjoin ((λ r, record_bytes r.1 r.2) <$> rs).

(** The records that are complete in the first [k] bytes. *)
Fixpoint complete (k : nat) (rs : list logged) : list logged :=
  match rs with
  | [] => []
  | r :: rs =>
      let n := length (record_bytes r.1 r.2) in
      if (n <=? k)%nat then r :: complete (k - n) rs else []
  end.
Definition apply_records (s : Recovery) (rs : list logged) : Recovery :=
  foldl (λ s r, apply_record s (record_code r.1) r.2) s rs.

Lemma log_bytes_cons r rs : log_bytes (r :: rs) = record_bytes r.1 r.2 ++ log_bytes rs.
Proof. done. Qed.
Lemma length_record t payload : length (record_bytes t payload) = (5 + length payload)%nat.
Proof. unfold record_bytes. cbn [length]. rewrite length_app, length_le_bytes. lia. Qed.

Lemma read_record fuel r rest s : record_ok r →
  read_log (S fuel) (record_bytes r.1 r.2 ++ rest) s = read_log fuel rest (apply_record s (record_code r.1) r.2).
Proof.
  intros [Hr _]. unfold record_bytes. cbn [app read_log].
  rewrite length_app, length_app, length_le_bytes. destruct (Nat.ltb_spec (4 + length r.2 + length rest) 4); [lia|].
  rewrite <- (app_assoc (le_bytes 4 _)). rewrite take_app_length', drop_app_length' by (by rewrite length_le_bytes).
  unfold u_wrap. rewrite Z.mod_small, le_value_le_bytes_small by (unfold is_u; lia). rewrite Nat2Z.id, length_app.
  destruct (Nat.ltb_spec (length r.2 + length rest) (length r.2)); [lia|].
  by rewrite drop_app_length, take_app_length.
Qed.
Lemma read_cut fuel r k s : record_ok r → (k < length (record_bytes r.1 r.2))%nat →
  read_log fuel (take k (record_bytes r.1 r.2)) s = s.
Proof.
  intros [Hr _] Hk. rewrite length_record in Hk. destruct fuel as [|fuel]; [done|].
  destruct k as [|k]; [done|]. unfold record_bytes. cbn [take read_log].
  rewrite length_take, length_app, length_le_bytes. case_match eqn:E4; [done|]. apply Nat.ltb_ge in E4.
  rewrite take_app_ge by (rewrite length_le_bytes; lia). rewrite length_le_bytes.
  rewrite take_app_length', drop_app_length' by (by rewrite length_le_bytes).
  unfold u_wrap. rewrite Z.mod_small, le_value_le_bytes_small by (unfold is_u; lia). rewrite Nat2Z.id, length_take.
  destruct (Nat.ltb_spec (Nat.min (k - 4) (length r.2)) (length r.2)); [done|lia].
Qed.

Lemma read_log_prefix rs : Forall record_ok rs → ∀ k fuel s, (length (take k (log_bytes rs)) ≤ fuel)%nat →
  read_log fuel (take k (log_bytes rs)) s = apply_records s (complete k rs).
Proof.
  induction 1 as [|r rs Hr Hrs IH]; intros k fuel s Hf.
  - cbn. rewrite take_nil. by destruct fuel.
  - rewrite log_bytes_cons in *. cbn [complete].
    destruct (Nat.leb_spec (length (record_bytes r.1 r.2)) k) as [Hle|Hlt].
    + rewrite take_app_ge in * by lia. rewrite length_app in Hf. pose proof (length_record r.1 r.2).
      destruct fuel as [|fuel]; [lia|]. rewrite read_record by done. etrans; [apply IH; lia|done].
    + rewrite take_app_le by lia. by rewrite read_cut.
Qed.
Lemma complete_all rs k : (length (log_bytes rs) ≤ k)%nat → complete k rs = rs.
Proof.
  revert k. induction rs as [|r rs IH]; intros k Hk; [done|]. rewrite log_bytes_cons in *. cbn [complete].
  rewrite length_app in Hk. rewrite (proj2 (Nat.leb_le _ _)) by lia. f_equal. apply IH. lia.
Qed.
Lemma complete_cut rs r k : (k < length (log_bytes (rs ++ [r])))%nat → complete k (rs ++ [r]) `prefix_of` rs.
Proof.
  revert k. induction rs as [|r' rs IH]; intros k Hk; cbn [app] in *; rewrite log_bytes_cons in Hk; cbn [complete].
  - rewrite (app_nil_r (record_bytes _ _)) in Hk. rewrite (proj2 (Nat.leb_gt _ _)) by lia. done.
  - rewrite length_app in Hk. destruct (Nat.leb_spec (length (record_bytes r'.1 r'.2)) k) as [Hle|Hlt].
    + apply prefix_cons. apply IH. lia.
    + apply prefix_nil.
Qed.

(** ** Logs of a flush *)

Section atomic.
Context (dir : string).

Definition blob_record (item : string * list Z) : logged := (TableBlob, blob_payload item.1 item.2).
Definition flush_log (items : list (string * list Z)) (txn_id : Z) : list logged :=
  (blob_record <$> items) ++ [(Commit, le_bytes 8 txn_id)].
Definition item_ok (item : string * list Z) : Prop :=
  Z.of_nat (String.length item.1) < 2 ^ 16 ∧ Forall is_u8 item.2 ∧
  Z.of_nat (String.length item.1 + length item.2) + 2 < 2 ^ 32.

Lemma byte_at_land n : is_u8 (Z.land n 255).
Proof. pose proof (byte_at_range n 0) as H. unfold byte_at in H. by rewrite Z.shiftr_0_r in H. Qed.
Lemma name_length_bytes n : 0 ≤ n < 2 ^ 16 →
  u_wrap 16 (Z.lor (Z.land n 255) (Z.shiftl (Z.land (Z.shiftr n 8) 255) 8)) = n.
Proof.
  intros Hn. assert (Z.lor (Z.land n 255) (Z.shiftl (Z.land (Z.shiftr n 8) 255) 8) = le_value (le_bytes 2 n)) as ->.
  { unfold le_value, le_bytes. cbn [seq fmap list_fmap le_value_from]. unfold byte_at. cbn [Z.of_nat].
    change (8 * Z.of_nat 0) with 0. change (8 * Z.of_nat 1) with 8. rewrite Z.shiftl_0_r, Z.shiftr_0_r, Z.lor_0_r. done. }
  rewrite le_value_le_bytes_small by (unfold is_u; cbn; lia). unfold u_wrap. apply Z.mod_small. lia.
Qed.
Lemma read_blob_payload item : item_ok item → read_blob (blob_payload item.1 item.2) = Some item.
Proof.
  intros (Hn & _ & _). destruct item as [name blob]. cbn [fst snd] in *. unfold blob_payload, read_blob. cbn [app].
  assert (u_wrap 16 (Z.of_nat (String.length name)) = Z.of_nat (String.length name)) as -> by (apply Z.mod_small; lia).
  rewrite name_length_bytes by lia. rewrite Nat2Z.id, length_app, length_bytes_of_string.
  destruct (Nat.ltb_spec (String.length name + length blob) (String.length name)); [lia|].
  rewrite take_app_length', drop_app_length' by (by rewrite length_bytes_of_string). by rewrite string_of_bytes_of_string.
Qed.
Lemma blob_record_ok item : item_ok item → record_ok (blob_record item).
Proof.
  intros (Hn & Hb & Hl). unfold record_ok, blob_record, blob_payload. cbn [snd]. rewrite !length_app, length_bytes_of_string. cbn [length].
  split; [lia|]. apply Forall_app. split; [|apply Forall_app; split; [apply bytes_of_string_range|done]].
  repeat constructor; apply byte_at_land.
Qed.

Lemma apply_blobs items : Forall item_ok items → ∀ s,
  apply_records s (blob_record <$> items) = mkRecovery (pending s ++ items) (saw_commit s) (saw_done s).
Proof.
  induction 1 as [|item items Hi _ IH]; intros s; [by rewrite app_nil_r; destruct s|].
  change (apply_records s (blob_record <$> item :: items))
    with (apply_records (apply_record s (record_code TableBlob) (blob_payload item.1 item.2)) (blob_record <$> items)).
  rewrite IH. unfold apply_record. change (record_type (record_code TableBlob)) with (Some TableBlob).
  cbv iota. rewrite (read_blob_payload _ Hi). cbn [pending saw_commit saw_done].
  by rewrite <- app_assoc.
Qed.
Lemma flush_log_ok items txn_id : Forall item_ok items → Forall record_ok (flush_log items txn_id).
Proof.
  intros Hi. apply Forall_app. split; [|apply Forall_singleton; split; [done|apply le_bytes_range]].
  apply Forall_fmap. eapply Forall_impl; [exact Hi|]. apply blob_record_ok.
Qed.

(** The whole log asks for the installation of every table, a part of it for none. *)
Lemma read_flush_log items txn_id k : Forall item_ok items →
  let bytes := take k (log_bytes (flush_log items txn_id)) in
  let s := read_log (length bytes) bytes start_recovery in
  if (length (log_bytes (flush_log items txn_id)) <=? k)%nat then s = mkRecovery items true false else saw_commit s = false.
Proof.
  intros Hi. cbv zeta. rewrite (read_log_prefix _ (flush_log_ok items txn_id Hi)) by done.
  destruct (Nat.leb_spec (length (log_bytes (flush_log items txn_id))) k) as [Hle|Hlt].
  - rewrite complete_all by done. unfold flush_log, apply_records. rewrite foldl_app. fold (apply_records start_recovery (blob_record <$> items)).
    by rewrite apply_blobs.
  - destruct (complete_cut _ _ _ Hlt) as [rest E]. apply fmap_app_inv in E as (items' & rest' & E1 & _ & Ei).
    unfold flush_log. rewrite E1, apply_blobs; [done|]. rewrite Ei in Hi. by apply Forall_app in Hi as [Hi _].
Qed.

(** ** Installing *)

Definition temp_path (name : string) : string := table_path dir name +:+ ".tmp".
Definition install_files (items : list (string * list Z)) (m : gmap string string) : gmap string string :=
  foldl (λ m item, <[table_path dir item.1 := string_of_bytes item.2]> (delete (temp_path item.1) m)) m items.
(** The disk does what it is asked for a table. *)
Definition disk_works (s : Fs) (name : string) : Prop :=
  opens s (temp_path name) = true ∧ writes s (temp_path name) = true ∧ places s (table_path dir name) = true.

Lemma install_ok items : ∀ s, (∀ item, item ∈ items → disk_works s item.1) →
  st_iter (install_table dir) items s = (set_files (install_files items (files s)) s, Ok tt).
Proof.
  induction items as [|item items IH]; intros s Hw; unfold st_iter in *; cbn [st_fold].
  - by destruct s.
  - destruct (Hw item ltac:(left)) as (Ho & Hwr & Hp). unfold temp_path in *.
    rewrite ST_bind_eq. unfold install_table at 1. rewrite ST_bind_eq. unfold fs_write. rewrite Ho, Hwr. cbn [negb].
    unfold fs_rename. cbn [files set_files places]. rewrite lookup_insert_eq, Hp.
    rewrite IH; [|intros it Hit; apply Hw; by right]. cbn [files set_files].
    rewrite delete_insert_eq. done.
Qed.

(** What a crash left of the files of the tables does not matter. *)
Definition touched (items : list (string * list Z)) (path : string) : Prop :=
  ∃ item, item ∈ items ∧ (path = table_path dir item.1 ∨ path = temp_path item.1).
Lemma install_agree items : ∀ m m', (∀ path, ¬ touched items path → m !! path = m' !! path) →
  install_files items m = install_files items m'.
Proof.
  induction items as [|item items IH]; intros m m' Hm.
  - apply map_eq. intros path. apply Hm. intros (? & ?%not_elem_of_nil & _). done.
  - cbn [install_files foldl]. apply IH. intros path Hp.
    destruct (decide (path = table_path dir item.1)) as [->|H1]; [by rewrite !lookup_insert_eq|].
    rewrite !lookup_insert_ne by done.
    destruct (decide (path = temp_path item.1)) as [->|H2]; [by rewrite !lookup_delete_eq|].
    rewrite !lookup_delete_ne by done. apply Hm. intros (it & Hit & Hor). apply elem_of_cons in Hit as [->|Hit].
    + by destruct Hor.
    + apply Hp. by exists it.
Qed.

Lemma install_other items path : ∀ m, ¬ touched items path → install_files items m !! path = m !! path.
Proof.
  induction items as [|item items IH]; intros m Hp; [done|]. cbn [install_files foldl].
  etrans; [apply IH; intros (it & Hit & Hor); apply Hp; exists it; split; [by right|done]|].
  assert (∀ p, p = table_path dir item.1 ∨ p = temp_path item.1 → path ≠ p) as Hne.
  { intros p Hor ->. apply Hp. exists item. split; [left|done]. }
  rewrite lookup_insert_ne, lookup_delete_ne; [done|..]; apply not_eq_sym, Hne; auto.
Qed.
(** The end of a path tells what it is. *)
Lemma suffix_ne a b c d : a +:+ b = c +:+ d → String.length b = String.length d → b = d.
Proof.
  intros E Hl. assert (String.length a = String.length c) as Ha.
  { apply (f_equal String.length) in E. rewrite !length_append in E. lia. }
  rewrite <- (substring_app_r a b), <- (substring_app_r c d). by rewrite E, Ha, Hl.
Qed.
Lemma table_path_inj a b : table_path dir a = table_path dir b → a = b.
Proof. unfold table_path. by intros ?%append_inj_l%append_inj_l%append_inj_r. Qed.
Lemma table_not_temp a b : table_path dir a ≠ temp_path b.
Proof.
  unfold temp_path, table_path. intros E. rewrite !append_assoc in E. do 2 apply append_inj_l in E.
  assert (b +:+ (".db" +:+ ".tmp") = (b +:+ ".db.") +:+ "tmp") as Eb by by rewrite append_assoc.
  rewrite Eb in E. by pose proof (suffix_ne _ _ _ _ E eq_refl).
Qed.
Lemma log_untouched items : ¬ touched items (wal_path dir).
Proof.
  intros (item & _ & Hor). unfold temp_path, wal_path, table_path in Hor.
  destruct Hor as [E|E]; rewrite ?append_assoc in E; apply append_inj_l in E.
  - assert ("/" +:+ (item.1 +:+ ".db") = ("/" +:+ item.1) +:+ ".db") as Ei by by rewrite append_assoc.
    rewrite Ei in E. by pose proof (suffix_ne "/wal." "log" _ _ E eq_refl).
  - assert ("/" +:+ (item.1 +:+ (".db" +:+ ".tmp")) = ("/" +:+ item.1 +:+ ".db") +:+ ".tmp") as Ei
      by by rewrite !append_assoc.
    rewrite Ei in E. by pose proof (suffix_ne "/wal" ".log" _ _ E eq_refl).
Qed.
Lemma install_lookup items item : NoDup items.*1 → item ∈ items → ∀ m,
  install_files items m !! table_path dir item.1 = Some (string_of_bytes item.2).
Proof.
  induction items as [|it items IH]; [by intros _ ?%not_elem_of_nil|]. cbn [fmap list_fmap]. intros [Hn Hnd]%NoDup_cons Hin m.
  cbn [install_files foldl]. apply elem_of_cons in Hin as [->|Hin]; [|by apply IH].
  etrans; [apply install_other|by rewrite lookup_insert_eq].
  intros (it' & Hit & [E|E]); [|by eapply table_not_temp]. apply table_path_inj in E. apply Hn. rewrite E. by apply list_elem_of_fmap_2.
Qed.

(** ** The log of a flush, written and read *)

Definition append_flush (items : list (string * list Z)) (txn_id : Z) : ST Fs unit :=
  st_iter (λ item, append_table_blob dir item.1 item.2) items;; append_commit dir txn_id.
Definition log_works (s : Fs) : Prop :=
  places s dir = true ∧ opens s (wal_path dir) = true ∧ writes s (wal_path dir) = true.

Lemma string_of_bytes_app a b : string_of_bytes (a ++ b) = string_of_bytes a +:+ string_of_bytes b.
Proof. induction a as [|x a IH]; [done|]. change (string_of_bytes ((x :: a) ++ b)) with (String (Ascii.ascii_of_N (Z.to_N x)) (string_of_bytes (a ++ b))). by rewrite IH. Qed.

Lemma append_record_ok s t payload text : log_works s → default ""%string (files s !! wal_path dir) = text →
  append_record dir t payload s =
  (set_files (<[wal_path dir := text +:+ string_of_bytes (record_bytes t payload)]> (files s)) s, Ok tt).
Proof.
  intros (Hp & Ho & Hw) <-. unfold append_record, fs_make_dir, fs_append. rewrite ST_bind_eq, Hp, ST_bind_eq, Ho, Hw. done.
Qed.
Lemma append_flush_ok items txn_id : ∀ s, log_works s →
  append_flush items txn_id s =
  (set_files (<[wal_path dir := default ""%string (files s !! wal_path dir)
                                +:+ string_of_bytes (log_bytes (flush_log items txn_id))]> (files s)) s, Ok tt).
Proof.
  unfold append_flush, st_iter. induction items as [|item items IH]; intros s Hs.
  - rewrite ST_bind_eq. cbn [st_fold mret ST_ret]. unfold append_commit. erewrite append_record_ok by done.
    unfold flush_log. cbn [fmap list_fmap app]. rewrite log_bytes_cons. by rewrite app_nil_r.
  - rewrite ST_bind_eq in *. cbn [st_fold]. rewrite ST_bind_eq. unfold append_table_blob at 1. erewrite append_record_ok by done.
    specialize (IH (set_files (<[wal_path dir:=default ""%string (files s !! wal_path dir) +:+
       string_of_bytes (record_bytes TableBlob (blob_payload item.1 item.2))]> (files s)) s) Hs).
    rewrite ST_bind_eq in IH. rewrite IH. cbn [files set_files]. rewrite lookup_insert_eq. cbn [default from_option id].
    unfold flush_log. cbn [fmap list_fmap app]. rewrite log_bytes_cons, string_of_bytes_app, append_assoc. cbn [blob_record fst snd].
    by rewrite insert_insert_eq.
Qed.
End atomic.

(** ** Recovery is atomic *)

Lemma bytes_of_string_of_bytes bs : Forall is_u8 bs → bytes_of_string (string_of_bytes bs) = bs.
Proof.
  intros Hb. unfold bytes_of_string, string_of_bytes. rewrite String.list_ascii_of_string_of_list_ascii, <- list_fmap_compose.
  induction Hb as [|b bs Hb _ IH]; [done|]. cbn [fmap list_fmap]. f_equal; [|exact IH].
  unfold compose, is_u in *. rewrite Ascii.N_ascii_embedding by lia. lia.
Qed.

(** The files without the log, where it can be removed. *)
Definition drop_log (dir : string) (s : Fs) (m : gmap string string) : gmap string string :=
  if removes s (wal_path dir) then delete (wal_path dir) m else m.

Lemma drop_log_other dir s m path : path ≠ wal_path dir → drop_log dir s m !! path = m !! path.
Proof. intros Hne. unfold drop_log. destruct (removes s _); [|done]. by apply lookup_delete_ne. Qed.

Section theorems.
Context (dir : string) (items : list (string * list Z)) (txn_id : Z) (s : Fs).
Hypothesis items_ok : Forall item_ok items.
Hypothesis works : ∀ item, item ∈ items → disk_works dir s item.1.

Lemma bytes_of_log k : Forall record_ok (flush_log items txn_id) →
  bytes_of_string (string_of_bytes (take k (log_bytes (flush_log items txn_id)))) = take k (log_bytes (flush_log items txn_id)).
Proof.
  intros Hr. apply bytes_of_string_of_bytes, Forall_take. unfold log_bytes.
  induction Hr as [|r rs [_ Hr] _ IH]; [constructor|]. change (mjoin _) with (record_bytes r.1 r.2 ++ log_bytes rs).
  apply Forall_app. split; [|exact IH]. unfold record_bytes. constructor; [by destruct r.1|].
  apply Forall_app. split; [apply le_bytes_range|done].
Qed.

Lemma recover_log k : files s !! wal_path dir = Some (string_of_bytes (take k (log_bytes (flush_log items txn_id)))) →
  recover dir s =
    (set_files (drop_log dir s
       (if (length (log_bytes (flush_log items txn_id)) <=? k)%nat then install_files dir items (files s) else files s)) s,
     Ok tt).
Proof.
  intros Hlog. unfold recover. rewrite ST_bind_eq. cbn [st_get]. unfold fs_read. rewrite Hlog.
  rewrite bytes_of_log by by apply flush_log_ok.
  pose proof (read_flush_log items txn_id k items_ok) as Hread. cbv zeta in *.
  destruct (_ <=? k)%nat.
  - rewrite Hread. cbn [saw_commit saw_done andb negb pending]. rewrite ST_bind_eq, install_ok by done.
    unfold drop_log, truncate, fs_remove. cbn [removes set_files files]. by destruct (removes s _).
  - rewrite Hread. cbn [andb]. rewrite ST_bind_eq. unfold drop_log, truncate, fs_remove.
    cbn [mret ST_ret]. destruct (removes s _); by destruct s.
Qed.
End theorems.

(** C35. Recovery is all or nothing, wherever the crash cut the log of a flush off: from the
    whole log every logged table is put in place, from any shorter piece none, and in
    both cases the log is removed, unless the system refuses to, and no other file is
    touched. *)
Theorem wal_recovery_is_atomic dir items txn_id s k :
  Forall item_ok items → (∀ item, item ∈ items → disk_works dir s item.1) →
  files s !! wal_path dir = Some (string_of_bytes (take k (log_bytes (flush_log items txn_id)))) →
  recover dir s =
    (set_files (drop_log dir s
       (if (length (log_bytes (flush_log items txn_id)) <=? k)%nat then install_files dir items (files s) else files s)) s,
     Ok tt).
Proof. intros Hi Hw Hl. by apply recover_log. Qed.

(** C36. Once the log of a flush is written, the tables are safe: whatever a crash leaves of
    the table files and of the files they are staged in, recovery brings every logged
    table back as it was logged, and leaves all other files alone, the log apart when the
    system refuses to remove it. *)
Theorem logged_tables_are_recovered dir items txn_id s after :
  Forall item_ok items → NoDup items.*1 → (∀ item, item ∈ items → disk_works dir s item.1) →
  log_works dir s → files s !! wal_path dir = None →
  ∃ s1, append_flush dir items txn_id s = (s1, Ok tt) ∧
  ((∀ path, ¬ touched dir items path → after !! path = files s1 !! path) →
   ∃ s2, recover dir (set_files after s1) = (s2, Ok tt) ∧
     (∀ item, item ∈ items → files s2 !! table_path dir item.1 = Some (string_of_bytes item.2)) ∧
     (∀ path, ¬ touched dir items path → path ≠ wal_path dir ∨ removes s path = true → files s2 !! path = files s !! path)).
Proof.
  intros Hok Hnd Hw Hl Hno. rewrite append_flush_ok, Hno by done. eexists. split; [done|]. cbn [default from_option files set_files]. intros Ha.
  assert (after !! wal_path dir = Some (string_of_bytes (log_bytes (flush_log items txn_id)))) as Hwal.
  { rewrite Ha by apply log_untouched. by rewrite lookup_insert_eq. }
  match goal with |- context [set_files after ?x] => change (set_files after x) with (set_files after s) end.
  rewrite (recover_log dir items txn_id (set_files after s) Hok Hw (length (log_bytes (flush_log items txn_id)))).
  2: by rewrite firstn_all.
  rewrite Nat.leb_refl. eexists. split; [done|]. cbn [files set_files]. split.
  - intros item Hi. rewrite drop_log_other; [by apply install_lookup|].
    intros E. apply (log_untouched dir items). exists item. auto.
  - intros path Hp Hlog. destruct (decide (path = wal_path dir)) as [->|Hne].
    + destruct Hlog as [|Hlog]; [done|]. unfold drop_log. cbn [removes set_files]. by rewrite Hlog, lookup_delete_eq.
    + rewrite drop_log_other, install_other, Ha, lookup_insert_ne by done. done.
Qed.

(** ** Concrete logs *)

Definition good_disk (m : gmap string string) : Fs := mkFs m (λ _, true) (λ _, true) (λ _, true) (λ _, true).
Definition two_tables : list (string * list Z) := [("a"%string, [1; 2; 3]); ("b"%string, [255])].
Lemma two_tables_ok : Forall item_ok two_tables.
Proof. repeat constructor; vm_compute; intuition congruence. Qed.
Definition old_disk (log : list Z) : Fs :=
  good_disk (<["db/wal.log"%string := string_of_bytes log]> {["db/a.db"%string := "old"%string]}).

(** A log that lost its last byte restores nothing, the whole log both tables. *)
Lemma wal_recovery_is_atomic_witness :
  recover "db" (old_disk (take 29 (log_bytes (flush_log two_tables 0))))
    = (good_disk {["db/a.db"%string := "old"%string]}, Ok tt) ∧
  files (recover "db" (old_disk (log_bytes (flush_log two_tables 0)))).1 !! "db/b.db"%string = Some (string_of_bytes [255]).
Proof.
  split.
  - rewrite (wal_recovery_is_atomic "db" two_tables 0 _ 29 two_tables_ok); [vm_compute; reflexivity|done|reflexivity].
  - rewrite (wal_recovery_is_atomic "db" two_tables 0 _ 1000 two_tables_ok); [vm_compute; reflexivity|done|vm_compute; reflexivity].
Defined.

(** A crash after the first table was put in place. *)
Lemma logged_tables_are_recovered_witness :
  ∃ s1, append_flush "db" two_tables 0 (good_disk ∅) = (s1, Ok tt) ∧
  ∃ s2, recover "db" (set_files (<["db/a.db"%string := string_of_bytes [1; 2; 3]]> (files s1)) s1) = (s2, Ok tt) ∧
    files s2 !! "db/b.db"%string = Some (string_of_bytes [255]).
Proof.
  destruct (logged_tables_are_recovered "db" two_tables 0 (good_disk ∅)
    (<["db/a.db"%string := string_of_bytes [1; 2; 3]]> (files (append_flush "db" two_tables 0 (good_disk ∅)).1)))
    as (s1 & E & Hrec).
  - exact two_tables_ok.
  - by apply (bool_decide_unpack _).
  - done.
  - done.
  - done.
  - exists s1. split; [exact E|]. rewrite E in Hrec. cbn [fst] in Hrec.
    destruct Hrec as (s2 & E2 & Hf & _).
    + intros path Hp. rewrite lookup_insert_ne; [done|]. intros <-. apply Hp. exists ("a"%string, [1; 2; 3]).
      split; [left|by left].
    + exists s2. split; [exact E2|]. apply (Hf ("b"%string, [255])). right. left.
Defined.

(** A table that was logged by a flush that failed before its commit is restored together
    with the tables of the next one, also when it was dropped in between. *)
Example stale_record_is_restored :
  let log := log_bytes ((blob_record <$> [("dropped"%string, [7])]) ++ flush_log [("t"%string, [8])] 0) in
  files (recover "db" (good_disk {["db/wal.log"%string := string_of_bytes log]})).1 !! "db/dropped.db"%string
  = Some (string_of_bytes [7]).
Proof. vm_compute. reflexivity. Qed.

(** Recovery does not check what it wrote: on a full disk it replaces a table with an empty
    file and removes the log. *)
Example recovery_on_a_full_disk_loses_the_table :
  let full m := mkFs m (λ _, true) (λ _, false) (λ _, true) (λ _, true) in
  let log := log_bytes (flush_log [("t"%string, [8])] 0) in
  recover "db" (full (<["db/wal.log"%string := string_of_bytes log]> {["db/t.db"%string := "old"%string]}))
  = (full {["db/t.db"%string := ""%string]}, Ok tt).
Proof. vm_compute. reflexivity. Qed.
