(* ===== verification/TableFiles.v ===== *)
(** * Table files

    [PersistenceManager] (src/storage/persistence_manager.cc): the image of a table in a
    file, version 7 as it is written and every version that is read, and the files of a
    storage directory.

    A stream that is read past its end fails: the bytes that are missing are zero, and so
    is everything read after it.  A type or action code that names no enumerator has no
    outcome in the model. *)

From Stdlib Require Import ZArith Lia Ascii.
From S2P Require Import Prelude CppNum Values Rows Page PageStore BufferPool HeapFile RowHeap IndexKey BTree Transactions LockManager Expr Evaluator Partition Table TableSpec TableMaint TableProps Operators Lexer Ast Parser Scan FileSystem.
Import Table.

(** ** The pages of a heap *)

Class PagedHeap (H : Type) `{RowHeap H} : Type := {
  (** [flush_file] of the pool. *)
  hp_flush : ST H unit;
  (** [get_page_store().export_pages()]. *)
  hp_export : ST H (list page);
  hp_replace : list page → ST H unit
}.

Section pages.
Context {St : Type} {PS : PageStore St}.
#[export] Instance heap_file_pages : PagedHeap (World St * HeapFile.HeapFile) := {
  hp_flush := h ← the_heap; call_pool (λ w, flush_file w (file_id h));
  hp_export := call_store (λ s, (s, ps_export_pages s));
  hp_replace := HeapFile.replace_pages
}.
End pages.

(** ** Writing *)

Definition kMagicNumber : Z := 0x44425442.
Definition kVersion : Z := 7.
Definition kMinSupportedVersion : Z := 1.

Definition put_u32 (n : nat) : list Z := le_bytes 4 (u_wrap 32 (Z.of_nat n)).
Definition write_string (s : string) : list Z :=
  let name_len := u_wrap 16 (Z.of_nat (String.length s)) in
  le_bytes 2 name_len ++ take (Z.to_nat name_len) (bytes_of_string s).
Definition write_header (name : string) : list Z :=
  le_bytes 4 kMagicNumber ++ le_bytes 2 kVersion ++ write_string name.
(** A count, then the elements. *)
Definition write_counted {A} (f : A → list Z) (l : list A) : list Z := put_u32 (length l) ++ mjoin (f <$> l).

Definition type_code (t : DataType) : Z :=
  match t with INT => 0 | FLOAT => 1 | STRING => 2 | BOOLEAN => 3 | DATE => 4 | UUID => 5 end.
Definition action_code (a : ReferentialAction) : Z :=
  match a with Restrict => 0 | Cascade => 1 | SetNull => 2 | SetDefault => 3 end.
Definition column_flags (c : Column) : Z :=
  Z.lor (if col_nullable c then 0 else 1) (Z.lor (if col_primary_key c then 2 else 0) (if col_unique c then 4 else 0)).
Definition write_column (c : Column) : list Z :=
  write_string (col_name c) ++ [type_code (col_type c); column_flags c] ++
  match col_default c with
  | None => [0]
  | Some v => 1 :: put_u32 (length (serialize_value v)) ++ serialize_value v
  end.
Definition write_index (d : string * list string) : list Z := write_string d.1 ++ write_counted write_string d.2.
(** One count for both lists of columns. *)
Definition write_foreign_key (fk : ForeignKeyDefinition) : list Z :=
  write_counted write_string (fk_child_columns fk) ++ write_string (fk_parent_table fk) ++
  mjoin (write_string <$> fk_parent_columns fk) ++ [action_code (fk_on_delete fk); action_code (fk_on_update fk)].
Definition write_check (ck : CheckConstraintDefinition SelectStatement) : list Z :=
  write_string (ck_name ck) ++ write_string (ck_text ck).
Definition write_unique (uq : UniqueConstraintDefinition) : list Z :=
  write_string (uq_name uq) ++ write_counted write_string (uq_columns uq).

Section files.
Context {H : Type} {RH : RowHeap H} {PH : PagedHeap H}.
Abbreviation DTable := (Table H SelectStatement).

Definition table_image (t : DTable) (pages : list page) : list Z :=
  write_header (table_name t) ++
  write_counted write_column (columns t) ++
  write_counted write_index (secondary_indexes t) ++
  write_counted write_foreign_key (foreign_keys t) ++
  write_counted write_check (checks t) ++
  write_counted write_string (primary_key_columns t) ++
  write_counted write_unique (unique_constraints t) ++
  write_counted id pages.

Definition flush_heap : ST DTable unit := on_heap hp_flush.
(** [fs::path(file_path).parent_path()]. *)
Fixpoint parent_from (prefix : string) (s : string) (found : option string) : option string :=
  match s with
  | EmptyString => found
  | String c s =>
      parent_from (prefix +:+ String c "") s (if Ascii.eqb c "/"%char then Some prefix else found)
  end.
Definition parent_path (path : string) : string :=
  match parent_from "" path None with
  | None => ""
  | Some "" => "/"
  | Some p => p
  end.

(** The bytes reach the file when the stream is flushed. *)
Definition write_table (temp_path : string) : ST (DTable * Fs) unit :=
  fs ← on_second st_get;
  if negb (opens fs temp_path) then st_throw (StorageException ("Cannot open file for writing: " +:+ temp_path))
  else
    on_first flush_heap;;
    pages ← on_first (on_heap hp_export);
    if negb (forallb (λ p, bool_decide (is_page p)) pages) then
      st_throw (StorageException "Invalid page size while saving table")
    else
      t ← on_first st_get;
      ok ← on_second (fs_write temp_path (string_of_bytes (table_image t pages)));
      match ok with
      | Some true => mret tt
      | _ => st_throw (StorageException ("Failed while writing: " +:+ temp_path))
      end.
Definition save_table (file_path : string) : ST (DTable * Fs) unit :=
  let temp_path := file_path +:+ ".tmp" in
  let parent := parent_path file_path in
  st_catch
    ((if bool_decide (parent = ""%string) then mret tt else on_second (fs_make_dir parent));;
     write_table temp_path;;
     on_second (fs_rename temp_path file_path))
    (λ e,
       on_second (fs_remove_or_throw temp_path);;
       match e with
       | StorageException _ => st_throw e
       | _ => st_throw (StorageException ("Error saving table: " +:+ what e))
       end).

(** ** Reading *)

Record Stream : Type := mkStream { stream_rest : list Z; stream_good : bool }.
Definition read_raw (n : nat) : ST Stream (list Z) := λ s,
  if negb (stream_good s) then (s, Ok (replicate n 0))
  else if (n <=? length (stream_rest s))%nat
  then (mkStream (drop n (stream_rest s)) true, Ok (take n (stream_rest s)))
  else (mkStream [] false, Ok (stream_rest s ++ replicate (n - length (stream_rest s)) 0)).

Abbreviation LM := (ST (DTable * Stream)).
Definition raw (n : nat) : LM (list Z) := on_second (read_raw n).
Definition get_u (n : nat) : LM Z := bs ← raw n; mret (le_value bs).
Definition read_string : LM string :=
  n ← get_u 2; bs ← raw (Z.to_nat n); mret (string_of_bytes bs).
Definition times {A} (n : Z) (f : LM A) : LM (list A) := st_map (λ _, f) (seq 0 (Z.to_nat n)).
Definition read_counted {A} (f : LM A) : LM (list A) := n ← get_u 4; times n f.

Definition type_of_code (z : Z) : res DataType :=
  if z =? 0 then Ok INT else if z =? 1 then Ok FLOAT else if z =? 2 then Ok STRING
  else if z =? 3 then Ok BOOLEAN else if z =? 4 then Ok DATE else if z =? 5 then Ok UUID else UB.
Definition action_of_code (z : Z) : res ReferentialAction :=
  if z =? 0 then Ok Restrict else if z =? 1 then Ok Cascade else if z =? 2 then Ok SetNull
  else if z =? 3 then Ok SetDefault else UB.

Definition read_header : LM (Z * string) :=
  magic ← get_u 4;
  if negb (magic =? kMagicNumber) then st_throw (StorageException "Invalid file format")
  else
    version ← get_u 2;
    if (version <? kMinSupportedVersion) || (kVersion <? version) then st_throw (StorageException "Unsupported file version")
    else name ← read_string; mret (version, name).

Definition read_value (type : DataType) : LM value :=
  value_len ← get_u 4;
  serialized ← raw (Z.to_nat value_len);
  st_lift (deserialize_value serialized type).
Definition read_default (version : Z) (type : DataType) : LM (option value) :=
  if version <? 4 then mret None
  else
    has_default ← get_u 1;
    if has_default =? 0 then mret None else v ← read_value type; mret (Some v).
Definition read_column (version : Z) : LM unit :=
  name ← read_string;
  type_val ← get_u 1;
  type ← st_lift (type_of_code type_val);
  flags ← get_u 1;
  c ← st_lift (new_Column name type (negb (Z.testbit flags 0)) (Z.testbit flags 1) (Z.testbit flags 2));
  dflt ← read_default version type;
  on_first (add_column (match dflt with Some v => col_set_default_value c v | None => c end)).

Definition read_index (version : Z) : LM (string * list string) :=
  index_name ← read_string;
  cols ← (if 3 <=? version then read_counted read_string else c ← read_string; mret [c]);
  mret (index_name, cols).
Definition read_foreign_key (version : Z) : LM ForeignKeyDefinition :=
  fk ← (if 4 <=? version then
          n ← get_u 4;
          children ← times n read_string;
          parent ← read_string;
          parents ← times n read_string;
          mret (children, parent, parents)
        else
          c ← read_string; parent ← read_string; p ← read_string;
          mret ([c], parent, [p]));
  if 3 <=? version then
    d ← get_u 1; u ← get_u 1;
    on_delete ← st_lift (action_of_code d);
    on_update ← st_lift (action_of_code u);
    mret (mkForeignKey fk.1.1 fk.1.2 fk.2 on_delete on_update)
  else mret (mkForeignKey fk.1.1 fk.1.2 fk.2 Restrict Restrict).
Definition read_check : LM (CheckConstraintDefinition SelectStatement) :=
  name ← read_string;
  text ← read_string;
  predicate ← st_lift (parse_check_expression text);
  mret (mkCheck SelectStatement name text (Some predicate)).
Definition read_unique : LM UniqueConstraintDefinition :=
  name ← read_string; cols ← read_counted read_string; mret (mkUnique name cols).

Definition set_secondary_indexes (ix : smap (list string)) : ST DTable unit := st_modify (with_secondary ix).
Definition set_foreign_keys (fks : list ForeignKeyDefinition) : ST DTable unit :=
  st_modify (λ t, with_rules fks (checks t) t).
Definition set_checks (cs : list (CheckConstraintDefinition SelectStatement)) : ST DTable unit :=
  st_modify (λ t, with_rules (foreign_keys t) cs t).
Definition set_primary_key_columns (cols : list string) : ST DTable unit :=
  st_modify (λ t, with_keys cols (unique_constraints t) (constraint_indexes t) t).
Definition set_unique_constraints (uqs : list UniqueConstraintDefinition) : ST DTable unit :=
  st_modify (λ t, with_keys (primary_key_columns t) uqs (constraint_indexes t) t).
Definition replace_heap_pages (pages : list page) : ST DTable unit :=
  on_heap (hp_replace pages);; rebuild_row_directory.

Definition read_keys (version : Z) : LM unit :=
  if 7 <=? version then
    pk ← read_counted read_string;
    on_first (set_primary_key_columns pk);;
    uqs ← read_counted read_unique;
    on_first (set_unique_constraints uqs)
  else on_first sync_key_metadata_from_column_flags.
Definition read_schema (version : Z) : LM unit :=
  if version <? 2 then mret tt
  else
    indexes ← read_counted (read_index version);
    on_first (set_secondary_indexes (foldl (λ m d, sm_set d.1 d.2 m) [] indexes));;
    fks ← read_counted (read_foreign_key version);
    on_first (set_foreign_keys fks);;
    (if 5 <=? version then cs ← read_counted read_check; on_first (set_checks cs) else mret tt);;
    read_keys version.

Definition read_page (file_path : string) : LM page :=
  p ← raw page_size;
  s ← on_second st_get;
  if stream_good s then mret p else st_throw (StorageException ("Truncated page data in " +:+ file_path)).
(** Before version 6 the rows themselves. *)
Definition read_row (cols : list Column) : LM unit :=
  vs ← st_map (λ c, read_value (col_type c)) cols;
  on_first (insert_row (row_of_values vs)).
Definition read_rows (version : Z) (file_path : string) : LM unit :=
  if 6 <=? version then
    pages ← read_counted (read_page file_path);
    on_first (replace_heap_pages pages)
  else
    t ← on_first st_get;
    read_counted (read_row (columns t));; mret tt.

(** [new_heap] is the heap of a table that was just made. *)
Context (new_heap : H) (today : string).
Definition read_table (file_path : string) : LM unit :=
  h ← read_header;
  on_first (set_name h.2);;
  read_counted (read_column h.1);;
  read_schema h.1;;
  read_rows h.1 file_path;;
  on_first rebuild_indexes;;
  on_first clear_dirty.
Definition load_table (file_path : string) (fs : Fs) : res DTable :=
  match fs_read file_path fs with
  | None => Throw (StorageException ("Cannot open file for reading: " +:+ file_path))
  | Some text =>
      match read_table file_path (new_Table "" new_heap today, mkStream (bytes_of_string text) true) with
      | ((t, _), Ok _) => Ok t
      | (_, Throw e) => Throw (StorageException ("Error loading table: " +:+ what e))
      | (_, UB) => UB
      end
  end.

(** ** The files of a directory *)

Definition table_file_path (directory_path name : string) : string := directory_path +:+ "/" +:+ name +:+ ".db".
Definition has_db_extension (filename : string) : bool :=
  let n := String.length filename in
  (3 <? n)%nat && bool_decide (String.substring (n - 3) 3 filename = ".db"%string).
(** [listed]: the names of the files of the directory, in the order of the iterator.  A
    file that cannot be loaded is left out; of two tables of a name the later one stays. *)
Definition load_database (directory_path : string) (listed : list string) (fs : Fs) : res (smap DTable) :=
  res_fold (λ tables name,
    if negb (has_db_extension name) then Ok tables
    else match load_table (directory_path +:+ "/" +:+ name) fs with
    | Ok t => Ok (sm_set (table_name t) t tables)
    | Throw _ => Ok tables
    | UB => UB
    end) [] listed.
Definition remove_table_file (directory_path name : string) : ST Fs unit :=
  let path := table_file_path directory_path name in
  fs_remove path;; fs_remove (path +:+ ".tmp").
(** [os_message] is the text of the system for the error. *)
Definition rename_table_file (os_message directory_path old_name new_name : string) : ST Fs unit :=
  let old_path := table_file_path directory_path old_name in
  fs ← st_get;
  match fs_read old_path fs with
  | None => mret tt
  | Some _ =>
      st_catch (fs_rename old_path (table_file_path directory_path new_name)) (λ _,
        st_throw (StorageException ("Failed to rename table file from '" +:+ old_name +:+ "' to '" +:+ new_name +:+ "': " +:+ os_message)));;
      fs_remove (old_path +:+ ".tmp")
  end.
End files.
