(* ===== verification/PartitionCatalog.v ===== *)
(** * Partition files

    [PartitionCatalog] (src/core/partition_catalog.cc): the file that keeps how a table is
    partitioned, one line per field. *)

From Stdlib Require Import ZArith Lia Ascii.
From S2P Require Import Prelude CppNum Values Rows Page PageStore BufferPool HeapFile RowHeap IndexKey BTree Transactions LockManager Expr Evaluator Partition Table TableSpec TableMaint TableProps Operators Lexer Ast Parser ParserSafe ParserRound Scan FileSystem Auth Sessions Catalogs.
Import Table.

(** ** Values *)

Definition dataTypeToTag (t : DataType) : string :=
  match t with
  | INT => "INT" | FLOAT => "FLOAT" | STRING => "STRING" | BOOLEAN => "BOOLEAN" | DATE => "DATE" | UUID => "UUID"
  end.
Definition tagToDataType (tag : string) : res DataType :=
  match list_find (λ t, dataTypeToTag t = tag) [INT; FLOAT; STRING; BOOLEAN; DATE; UUID] with
  | Some (_, t) => Ok t
  | None => Throw (StorageException ("Unknown value type tag: " +:+ tag))
  end.
Definition serializeValue (v : value) : string :=
  if is_null v then "NULL:" else dataTypeToTag (Values.get_type v) +:+ ":" +:+ Values.to_string v.
(** The text before and after the first colon. *)
Fixpoint split_colon (s : string) : option (string * string) :=
  match s with
  | EmptyString => None
  | String c s =>
      if Ascii.eqb c ":"%char then Some (""%string, s)
      else '(a, b) ← split_colon s; Some (String c a, b)
  end.
Definition deserializeValue (text : string) : res value :=
  match split_colon text with
  | None => Throw (StorageException "Invalid partition value encoding")
  | Some (tag, payload) =>
      if bool_decide (tag = "NULL"%string) then Ok VNull
      else t ← tagToDataType tag; string_to_value payload t
  end.

(** ** Files *)

Definition PARTITIONS_SUBDIR : string := "_partitions".
Definition PARTITION_EXTENSION : string := ".part".

Definition kind_line (k : PartitionKind) : string := match k with Range => "RANGE" | Hash => "HASH" end.
(** A bound of the other kind than the table's is dereferenced all the same. *)
Definition bound_lines (k : PartitionKind) (b : PartitionBound) : res (list string) :=
  match k, b_range b, b_hash b with
  | Range, Some r, _ => Ok [serializeValue (minInclusive r); serializeValue (maxExclusive r)]
  | Hash, _, Some h => Ok [std_to_string (modulus h); std_to_string (remainder h)]
  | _, _, _ => UB
  end.
Definition partition_lines (k : PartitionKind) (p : PartitionDescriptor) : res (list string) :=
  ls ← bound_lines k (p_bound p); Ok (childTableName p :: ls).
Definition metadata_lines (md : PartitionedTableMetadata) : res (list string) :=
  ps ← res_map (partition_lines (kind_ md)) (partitions md);
  Ok (["v1"%string; kind_line (kind_ md); key_column md; std_to_string (Z.of_nat (length (partitions md)))] ++ mjoin ps).

Section storage.
Context (storage_directory : string).
Definition partitions_dir : string := path_join storage_directory PARTITIONS_SUBDIR.
Definition buildPath (parent_name : string) : string := path_join partitions_dir (parent_name +:+ PARTITION_EXTENSION).

Definition saveParent (parent_name : string) (md : PartitionedTableMetadata) : ST Fs unit :=
  fs_make_dir partitions_dir;;
  ls ← st_lift (metadata_lines md);
  write_file (buildPath parent_name) (unlines ls) "partition" true.
Definition removeParentFile (parent_name : string) : ST Fs unit := fs_remove (buildPath parent_name).

(** [std::getline]: past the end an empty line. *)
Definition next_line : ST (list string) string := λ ls,
  match ls with [] => ([], Ok ""%string) | l :: ls => (ls, Ok l) end.
(** [std::stoul], 64 bits wide. *)
Definition std_stoul (l : string) : res Z :=
  match std_stoull l with
  | Throw (std_invalid_argument _) => Throw (std_invalid_argument "stoul")
  | Throw (std_out_of_range _) => Throw (std_out_of_range "stoul")
  | r => r
  end.
Definition read_kind (l : string) : res PartitionKind :=
  if bool_decide (l = "HASH"%string) then Ok Hash
  else if bool_decide (l = "RANGE"%string) then Ok Range
  else Throw (StorageException ("Invalid partition kind: " +:+ l)).
Definition read_bound (k : PartitionKind) : ST (list string) PartitionBound :=
  l1 ← next_line;
  l2 ← next_line;
  match k with
  | Range => lo ← st_lift (deserializeValue l1); hi ← st_lift (deserializeValue l2); mret (mkBound (Some (mkRange lo hi)) None)
  | Hash => m ← st_lift (std_stoll l1); r ← st_lift (std_stoll l2); mret (mkBound None (Some (mkHash m r)))
  end.
Fixpoint read_partitions (parent_name : string) (n : nat) (md : PartitionedTableMetadata)
    : ST (list string) PartitionedTableMetadata :=
  match n with
  | O => mret md
  | S n =>
      child ← next_line;
      b ← read_bound (kind_ md);
      match addPartition md (mkPartition child b) with
      | (md, None) => read_partitions parent_name n md
      | (_, Some error) => st_throw (StorageException ("Failed loading partition for '" +:+ parent_name +:+ "': " +:+ error))
      end
  end.
Definition read_metadata (parent_name : string) : ST (list string) PartitionedTableMetadata :=
  version ← next_line;
  if negb (bool_decide (version = "v1"%string)) then st_throw (StorageException ("Unsupported partition meta version: " +:+ version))
  else
    l ← next_line;
    k ← st_lift (read_kind l);
    key ← next_line;
    count_line ← next_line;
    count ← st_lift (std_stoul count_line);
    read_partitions parent_name (Z.to_nat count) (new_metadata k key).

Definition load_partition_file {H} (tables : smap (Table H SelectStatement)) (e : Entry) : res (smap (Table H SelectStatement)) :=
  match strip_extension PARTITION_EXTENSION e.1 with
  | None => Ok tables
  | Some parent_name =>
      match sm_find parent_name tables with
      | None => Ok tables
      | Some t =>
          match e.2 with
          | None => Throw (StorageException ("Cannot read partition file: " +:+ path_join partitions_dir e.1))
          | Some text =>
              md ← (read_metadata parent_name (lines text)).2;
              Ok (sm_set parent_name (set_partition_metadata (Some md) t).1 tables)
          end
      end
  end.
(** [listed]: the files of the directory, in the order of the iterator. *)
Definition loadAll_partitions {H} (listed : list Entry) (tables : smap (Table H SelectStatement)) : res (smap (Table H SelectStatement)) :=
  res_fold load_partition_file tables listed.
End storage.

(** ** Reading a file back *)

(** Values that survive: their text is one line and reads as themselves. *)
Definition value_keeps (v : value) : Prop := deserializeValue (serializeValue v) = Ok v ∧ free_of newline (serializeValue v).
Definition bound_keeps (k : PartitionKind) (b : PartitionBound) : Prop :=
  match k, b with
  | Range, mkBound (Some r) None => value_keeps (minInclusive r) ∧ value_keeps (maxExclusive r)
  | Hash, mkBound None (Some h) => 0 ≤ modulus h < 2 ^ 63 ∧ 0 ≤ remainder h < 2 ^ 63
  | _, _ => False
  end.
Definition partition_keeps (k : PartitionKind) (p : PartitionDescriptor) : Prop :=
  free_of newline (childTableName p) ∧ bound_keeps k (p_bound p).

Lemma digits_free z : 0 ≤ z → free_of newline (std_to_string z).
Proof.
  intros Hz. destruct (to_string_digits z Hz) as [Hd _]. unfold free_of, all_chars in *. intros Hin.
  rewrite forallb_forall in Hd. apply list_elem_of_In, Hd in Hin. discriminate Hin.
Qed.
Lemma stoul_to_string z : 0 ≤ z < 2 ^ 63 → std_stoul (std_to_string z) = Ok z.
Proof.
  intros Hz. pose proof (stoll_to_string z Hz) as Hs. unfold std_stoul, std_stoull, std_stoll in *.
  destruct (split_sign _) as [neg r] eqn:Esign. destruct (digits 10 0 0 r) as [[v n] rest].
  destruct (n =? 0)%nat; [done|]. destruct (_ && _) eqn:Er; [|done]. injection Hs as Hs.
  assert (neg = false) as ->.
  { destruct (to_string_digits z ltac:(lia)) as [Hd Hne]. destruct (std_to_string z) as [|c s]; [done|].
    unfold all_chars in Hd. cbn [String.list_ascii_of_string forallb] in *. apply andb_true_iff in Hd as [Hc _].
    destruct (not_space_digit c Hc) as (H1 & H2 & H3 & _). cbn [skip_space] in Esign. rewrite H1 in Esign.
    unfold split_sign in Esign. rewrite H2, H3 in Esign. by injection Esign as <- _. }
  subst v. by rewrite (proj2 (Z.leb_gt _ _)) by lia.
Qed.

Lemma read_bound_keeps k b ls rest : bound_keeps k b → bound_lines k b = Ok ls →
  Forall (free_of newline) ls ∧ read_bound k (ls ++ rest) = (rest, Ok b).
Proof.
  destruct k, b as [[r|] [h|]]; try done; cbn [bound_keeps bound_lines b_range b_hash].
  - intros [[E1 F1] [E2 F2]] [= <-]. split; [repeat constructor; done|].
    unfold read_bound. rewrite !ST_bind_eq. cbn [app next_line]. rewrite !ST_bind_eq. cbn [next_line]. rewrite !ST_bind_eq. unfold st_lift at 1.
    rewrite E1, ST_bind_eq. unfold st_lift. rewrite E2. by destruct r.
  - intros [H1 H2] [= <-]. split; [repeat constructor; apply digits_free; lia|].
    unfold read_bound. rewrite !ST_bind_eq. cbn [app next_line]. rewrite !ST_bind_eq. cbn [next_line]. rewrite !ST_bind_eq. unfold st_lift at 1.
    rewrite (stoll_to_string _ H1), ST_bind_eq. unfold st_lift. rewrite (stoll_to_string _ H2). by destruct h.
Qed.

Definition rebuilt (md : PartitionedTableMetadata) (ps : list PartitionDescriptor) : Prop :=
  ∀ ps1 p ps2, ps = ps1 ++ p :: ps2 → 
  addPartition (mkMeta (kind_ md) (key_column md) (partitions md ++ ps1)) p =
    (mkMeta (kind_ md) (key_column md) (partitions md ++ ps1 ++ [p]), None).
Lemma read_partitions_keeps parent k key ps : ∀ done0 ls rest,
  Forall (partition_keeps k) ps → rebuilt (mkMeta k key done0) ps → res_map (partition_lines k) ps = Ok ls →
  Forall (free_of newline) (mjoin ls) ∧
  read_partitions parent (length ps) (mkMeta k key done0) (mjoin ls ++ rest) = (rest, Ok (mkMeta k key (done0 ++ ps))).
Proof.
  induction ps as [|p ps IH]; intros done0 ls rest Hk Hr E.
  - injection E as <-. split; [constructor|]. by rewrite app_nil_r.
  - cbn [res_map] in E. destruct (partition_lines k p) as [pl| |] eqn:Ep; [|done..]. cbn [mbind res_bind] in E.
    destruct (res_map (partition_lines k) ps) as [lss| |] eqn:Es; [|done..]. injection E as <-.
    apply Forall_cons in Hk as [[Hn Hb] Hk]. unfold partition_lines in Ep.
    destruct (bound_lines k (p_bound p)) as [bl| |] eqn:Eb; [|done..]. injection Ep as <-.
    destruct (IH (done0 ++ [p]) lss rest Hk) as [F R]; [|done|].
    { intros ps1 q ps2 ->. specialize (Hr (p :: ps1) q ps2 eq_refl). cbn [kind_ key_column partitions] in *. by rewrite <- !app_assoc. }
    change (mjoin ((childTableName p :: bl) :: lss)) with (childTableName p :: bl ++ mjoin lss).
    pose proof (read_bound_keeps k (p_bound p) bl (mjoin lss ++ rest) Hb Eb) as [Fb Rb].
    split; [constructor; [done|by apply Forall_app]|].
    cbn [length read_partitions app]. rewrite ST_bind_eq. cbn [next_line]. rewrite ST_bind_eq. cbn [kind_].
    rewrite <- app_assoc, Rb. pose proof (Hr [] p ps eq_refl) as Ha. cbn [kind_ key_column partitions app] in Ha. rewrite app_nil_r in Ha.
    destruct p as [cn pb]. cbn [childTableName p_bound] in *. rewrite Ha, R. by rewrite <- app_assoc.
Qed.

(** What the operations build can be built again, partition by partition. *)
Definition names_ok (ps : list PartitionDescriptor) : Prop :=
  NoDup (childTableName <$> ps) ∧ Forall (λ p, childTableName p ≠ ""%string) ps.
Lemma has_child_iff md name : hasChild md name = true ↔ name ∈ childTableName <$> partitions md.
Proof.
  unfold hasChild. rewrite existsb_exists, list_elem_of_fmap. split.
  - intros (p & Hp%list_elem_of_In & Hn). exists p. split; [|done]. by apply bool_decide_eq_true in Hn.
  - intros (p & -> & Hp). exists p. split; [by apply list_elem_of_In|by apply bool_decide_eq_true].
Qed.
Lemma built_names md : Partition.built md → names_ok (partitions md).
Proof.
  induction 1 as [kd key|md p _ [IH1 IH2]|md name _ [IH1 IH2]].
  - split; constructor.
  - unfold addPartition. case_bool_decide as Hn; [done|]. destruct (hasChild md (childTableName p)) eqn:Hc; [done|].
    destruct (validateNewBound md (p_bound p)); [done|]. cbn [fst partitions]. split.
    + rewrite fmap_app. apply NoDup_app. split; [done|]. split; [|apply NoDup_singleton].
      intros n Hin ->%list_elem_of_singleton. apply has_child_iff in Hin. congruence.
    + apply Forall_app. split; [done|]. by repeat constructor.
  - unfold removePartition. destruct (erase_child name (partitions md)) as [ps|] eqn:E; [|done].
    apply erase_child_Some in E as (l & p & r & Hps & ->). cbn [fst partitions]. rewrite Hps in IH1, IH2. split.
    + rewrite fmap_app, fmap_cons in *. eapply sublist_NoDup; [exact IH1|]. apply sublist_app; [done|by constructor].
    + apply Forall_app in IH2 as [H1 [_ H2]%Forall_cons_iff]. by apply Forall_app.
Qed.
Lemma pairs_before {A} (R : A → A → Prop) l x r : ForallOrdPairs R (l ++ x :: r) → Forall (λ y, R y x) l.
Proof.
  induction l as [|y l IH]; cbn; [constructor|]. inversion 1 as [|? ? Hy Hl]; subst. constructor; [|by apply IH].
  apply Forall_app in Hy as [_ Hy]. by apply Forall_cons_iff in Hy as [? _].
Qed.
Lemma no_overlap b ps : Forall range_partition ps → Forall (λ p, rangesOverlap b (range_of p) = false) ps → first_overlap b ps = None.
Proof.
  intros Hp. induction 1 as [|p ps Hno _ IH]; [done|]. apply Forall_cons_iff in Hp as [[Hb _] Hp].
  cbn [first_overlap]. rewrite Hb. cbn [b_range]. rewrite Hno. by apply IH.
Qed.
Lemma no_hash_clash b ps : Forall hash_partition ps →
  Forall (λ p, modulus (hash_of p) = modulus b ∧ remainder (hash_of p) ≠ remainder b) ps → first_hash_clash b ps = None.
Proof.
  intros Hp. induction 1 as [|p ps [Hm Hr] _ IH]; [done|]. apply Forall_cons_iff in Hp as [[Hb _] Hp].
  cbn [first_hash_clash]. rewrite Hb. cbn [b_hash]. rewrite Hm, Z.eqb_refl. cbn [negb].
  rewrite (proj2 (Z.eqb_neq _ _) Hr). by apply IH.
Qed.
Lemma built_rebuilt md : Partition.built md → rebuilt (new_metadata (kind_ md) (key_column md)) (partitions md).
Proof.
  intros Hb. pose proof (built_ok md Hb) as Hok. destruct (built_names md Hb) as [Hnd Hne].
  intros ps1 p ps2 E. rewrite E in *. cbn [new_metadata kind_ key_column partitions app].
  unfold addPartition. apply Forall_app in Hne as [_ [Hp _]%Forall_cons_iff]. rewrite bool_decide_false by done.
  assert (hasChild (mkMeta (kind_ md) (key_column md) ps1) (childTableName p) = false) as ->.
  { apply not_true_iff_false. rewrite has_child_iff. cbn [partitions]. rewrite fmap_app, fmap_cons in Hnd.
    apply NoDup_app in Hnd as (_ & Hd & _). intros Hin. apply (Hd _ Hin). left. }
  assert (validateNewBound (mkMeta (kind_ md) (key_column md) ps1) (p_bound p) = None) as ->; [|done].
  unfold validateNewBound, metadata_ok in *. rewrite E in Hok. cbn [kind_ partitions].
  destruct (kind_ md); destruct Hok as [Hf Hpairs]; apply Forall_app in Hf as [Hf1 [[Hpb Hpr] _]%Forall_cons_iff];
    apply pairs_before in Hpairs; rewrite Hpb; cbn [b_range b_hash].
  - rewrite Hpr. by apply no_overlap.
  - destruct Hpr as [Hm Hr]. rewrite (proj2 (Z.leb_gt _ _)) by lia.
    rewrite (proj2 (Z.ltb_ge _ _)), (proj2 (Z.leb_gt _ _)) by lia. by apply no_hash_clash.
Qed.

Lemma lines_ok k ps : Forall (partition_keeps k) ps → ∃ ls, res_map (partition_lines k) ps = Ok ls.
Proof.
  induction 1 as [|p ps [_ Hp] _ [ls IH]]; [by exists []|].
  assert (∃ l, partition_lines k p = Ok l) as [l El].
  { unfold partition_lines. destruct k, (p_bound p) as [[r|] [h|]]; try done; cbn; eauto. }
  cbn [res_map]. rewrite El. cbn [mbind res_bind]. rewrite IH. cbn. eauto.
Qed.

(** The partitions of a table, written to its file and read back, are the same, with
    the checks of [addPartition] passing again, when the bounds are values that their
    text keeps ([partition_keeps]). *)
Theorem partition_file_round_trip parent md :
  Partition.built md → Forall (partition_keeps (kind_ md)) (partitions md) → free_of newline (key_column md) →
  Z.of_nat (length (partitions md)) < 2 ^ 63 →
  ∃ ls, metadata_lines md = Ok ls ∧ (read_metadata parent (lines (unlines ls))).2 = Ok md.
Proof.
  intros Hb Hk Hkey Hlen. unfold metadata_lines. destruct (lines_ok _ _ Hk) as [ls Els].
  rewrite Els. cbn [mbind res_bind]. eexists. split; [done|].
  destruct (read_partitions_keeps parent _ (key_column md) _ [] ls [] Hk (built_rebuilt md Hb) Els) as [Hfree Hread].
  rewrite app_nil_r in Hread. rewrite lines_unlines.
  - unfold read_metadata. rewrite ST_bind_eq. cbn [app next_line]. rewrite bool_decide_true by done. cbn [negb].
    rewrite ST_bind_eq. cbn [next_line]. rewrite ST_bind_eq. unfold st_lift at 1.
    assert (read_kind (kind_line (kind_ md)) = Ok (kind_ md)) as -> by by destruct (kind_ md).
    rewrite ST_bind_eq. cbn [next_line]. rewrite ST_bind_eq. cbn [next_line]. rewrite ST_bind_eq. unfold st_lift.
    rewrite stoul_to_string by lia. rewrite Nat2Z.id. unfold new_metadata. rewrite Hread. by destruct md.
  - apply Forall_app. split; [|done]. repeat constructor; [| |done|apply digits_free; lia].
    + apply (bool_decide_unpack _). by vm_compute.
    + apply (bool_decide_unpack _). destruct (kind_ md); by vm_compute.
Qed.

Definition by_year : PartitionedTableMetadata :=
  mkMeta Range "year" [mkPartition "sales_old" (mkBound (Some (mkRange (VInt 1990) (VInt 2020))) None);
                       mkPartition "sales_new" (mkBound (Some (mkRange (VInt 2020) (VInt 2030))) None)].
Lemma by_year_built : Partition.built by_year.
Proof. 
  change by_year with (addPartition (addPartition (new_metadata Range "year") (mkPartition "sales_old" (mkBound (Some (mkRange (VInt 1990) (VInt 2020))) None))).1
    (mkPartition "sales_new" (mkBound (Some (mkRange (VInt 2020) (VInt 2030))) None))).1.
  repeat constructor.
Qed.
Lemma partition_file_round_trip_witness :
  ∃ ls, metadata_lines by_year = Ok ls ∧ (read_metadata "sales" (lines (unlines ls))).2 = Ok by_year.
Proof.
  apply partition_file_round_trip.
  - exact by_year_built.
  - repeat constructor; cbn; try (apply (bool_decide_unpack _); by vm_compute); by vm_compute.
  - apply (bool_decide_unpack _). by vm_compute.
  - done.
Defined.

(** A bound that is a fraction is written with six digits, one that is a text without its
    spaces: after a restart the rows of the partition belong elsewhere. *)
Example float_bound_is_rounded :
  (d ← std_stod "1234567.5"; v ← deserializeValue (serializeValue (VFloat d)); Ok (value_lt (VFloat d) v)) = Ok true.
Proof. vm_compute. reflexivity. Qed.
Example text_bound_is_trimmed : deserializeValue (serializeValue (VString " a")) = Ok (VString "a").
Proof. vm_compute. reflexivity. Qed.
