(* ===== verification/DbState.v ===== *)
(** * The state of the database

    The members of [Database] (src/core/database.cc, include/core/database.h) and the
    operations that look tables up, keep the temporary tables of views, number lock owners
    and count trigger depth.

    Tables are objects with addresses: the maps of the database and the pointers its
    executors hold are addresses, and a pointer to a table that was dropped is dangling.
    The session of the statement that runs is part of the state: the pointer the executors
    are given and [active_session_] are the same object.  Of [active_bind_], which points to
    the arguments of EXECUTE, the state keeps the values.  The callbacks the database
    gives evaluators run their subqueries on this same state ([run_subquery]), and what a
    subquery leaves of it is what the evaluation goes on with.  The mutex of the database makes
    every operation one step and is left out. *)

From Stdlib Require Import ZArith Lia.
From S2P Require Import Prelude CppNum Values Rows Page PageStore BufferPool HeapFile RowHeap IndexKey BTree Transactions LockManager Expr Evaluator Partition Table TableSpec TableMaint TableProps Operators Lexer Ast Parser SelectAnalysis Grouping Windows Planner Scan FileSystem Auth Sessions Catalogs.
Import Table.

Section state.
Context {H : Type} {RH : RowHeap H}.
Abbreviation DTable := (Table H SelectStatement).

Record Db : Type := mkDb {
  objects : gmap Z DTable;
  next_address : Z;
  tables_ : smap Z;
  ephemeral_tables_ : smap Z;
  ephemeral_scope_depth_ : Z;
  next_ephemeral_id_ : Z;
  catalogs_ : Catalogs;
  plan_cache_ : PlanCache;
  lock_manager_ : LockManager;
  transaction_manager_ : TransactionManager;
  correlation_context_ : list Frame;
  table_statistics_ : TableStatistics;
  active_local_variables_ : option (gmap string value);
  active_bind_ : option (list value);
  active_session_ : option SessionContext;
  trigger_depth_ : Z;
  local_depth : Z;
  next_lock_id_ : Z
}.

Definition with_objects (x : gmap Z DTable) (d : Db) : Db :=
  mkDb x (next_address d) (tables_ d) (ephemeral_tables_ d) (ephemeral_scope_depth_ d) (next_ephemeral_id_ d)
    (catalogs_ d) (plan_cache_ d) (lock_manager_ d) (transaction_manager_ d) (correlation_context_ d)
    (table_statistics_ d) (active_local_variables_ d) (active_bind_ d) (active_session_ d) (trigger_depth_ d)
    (local_depth d) (next_lock_id_ d).
Definition with_next_address (x : Z) (d : Db) : Db :=
  mkDb (objects d) x (tables_ d) (ephemeral_tables_ d) (ephemeral_scope_depth_ d) (next_ephemeral_id_ d)
    (catalogs_ d) (plan_cache_ d) (lock_manager_ d) (transaction_manager_ d) (correlation_context_ d)
    (table_statistics_ d) (active_local_variables_ d) (active_bind_ d) (active_session_ d) (trigger_depth_ d)
    (local_depth d) (next_lock_id_ d).
Definition with_tables (x : smap Z) (d : Db) : Db :=
  mkDb (objects d) (next_address d) x (ephemeral_tables_ d) (ephemeral_scope_depth_ d) (next_ephemeral_id_ d)
    (catalogs_ d) (plan_cache_ d) (lock_manager_ d) (transaction_manager_ d) (correlation_context_ d)
    (table_statistics_ d) (active_local_variables_ d) (active_bind_ d) (active_session_ d) (trigger_depth_ d)
    (local_depth d) (next_lock_id_ d).
Definition with_ephemeral_tables (x : smap Z) (d : Db) : Db :=
  mkDb (objects d) (next_address d) (tables_ d) x (ephemeral_scope_depth_ d) (next_ephemeral_id_ d)
    (catalogs_ d) (plan_cache_ d) (lock_manager_ d) (transaction_manager_ d) (correlation_context_ d)
    (table_statistics_ d) (active_local_variables_ d) (active_bind_ d) (active_session_ d) (trigger_depth_ d)
    (local_depth d) (next_lock_id_ d).
Definition with_ephemeral_scope_depth (x : Z) (d : Db) : Db :=
  mkDb (objects d) (next_address d) (tables_ d) (ephemeral_tables_ d) x (next_ephemeral_id_ d) (catalogs_ d)
    (plan_cache_ d) (lock_manager_ d) (transaction_manager_ d) (correlation_context_ d) (table_statistics_ d)
    (active_local_variables_ d) (active_bind_ d) (active_session_ d) (trigger_depth_ d) (local_depth d)
    (next_lock_id_ d).
Definition with_next_ephemeral_id (x : Z) (d : Db) : Db :=
  mkDb (objects d) (next_address d) (tables_ d) (ephemeral_tables_ d) (ephemeral_scope_depth_ d) x (catalogs_ d)
    (plan_cache_ d) (lock_manager_ d) (transaction_manager_ d) (correlation_context_ d) (table_statistics_ d)
    (active_local_variables_ d) (active_bind_ d) (active_session_ d) (trigger_depth_ d) (local_depth d)
    (next_lock_id_ d).
Definition with_catalogs (x : Catalogs) (d : Db) : Db :=
  mkDb (objects d) (next_address d) (tables_ d) (ephemeral_tables_ d) (ephemeral_scope_depth_ d)
    (next_ephemeral_id_ d) x (plan_cache_ d) (lock_manager_ d) (transaction_manager_ d)
    (correlation_context_ d) (table_statistics_ d) (active_local_variables_ d) (active_bind_ d)
    (active_session_ d) (trigger_depth_ d) (local_depth d) (next_lock_id_ d).
Definition with_plan_cache (x : PlanCache) (d : Db) : Db :=
  mkDb (objects d) (next_address d) (tables_ d) (ephemeral_tables_ d) (ephemeral_scope_depth_ d)
    (next_ephemeral_id_ d) (catalogs_ d) x (lock_manager_ d) (transaction_manager_ d)
    (correlation_context_ d) (table_statistics_ d) (active_local_variables_ d) (active_bind_ d)
    (active_session_ d) (trigger_depth_ d) (local_depth d) (next_lock_id_ d).
Definition with_lock_manager (x : LockManager) (d : Db) : Db :=
  mkDb (objects d) (next_address d) (tables_ d) (ephemeral_tables_ d) (ephemeral_scope_depth_ d)
    (next_ephemeral_id_ d) (catalogs_ d) (plan_cache_ d) x (transaction_manager_ d) (correlation_context_ d)
    (table_statistics_ d) (active_local_variables_ d) (active_bind_ d) (active_session_ d) (trigger_depth_ d)
    (local_depth d) (next_lock_id_ d).
Definition with_transaction_manager (x : TransactionManager) (d : Db) : Db :=
  mkDb (objects d) (next_address d) (tables_ d) (ephemeral_tables_ d) (ephemeral_scope_depth_ d)
    (next_ephemeral_id_ d) (catalogs_ d) (plan_cache_ d) (lock_manager_ d) x (correlation_context_ d)
    (table_statistics_ d) (active_local_variables_ d) (active_bind_ d) (active_session_ d) (trigger_depth_ d)
    (local_depth d) (next_lock_id_ d).
Definition with_correlation_context (x : list Frame) (d : Db) : Db :=
  mkDb (objects d) (next_address d) (tables_ d) (ephemeral_tables_ d) (ephemeral_scope_depth_ d)
    (next_ephemeral_id_ d) (catalogs_ d) (plan_cache_ d) (lock_manager_ d) (transaction_manager_ d) x
    (table_statistics_ d) (active_local_variables_ d) (active_bind_ d) (active_session_ d) (trigger_depth_ d)
    (local_depth d) (next_lock_id_ d).
Definition with_table_statistics (x : TableStatistics) (d : Db) : Db :=
  mkDb (objects d) (next_address d) (tables_ d) (ephemeral_tables_ d) (ephemeral_scope_depth_ d)
    (next_ephemeral_id_ d) (catalogs_ d) (plan_cache_ d) (lock_manager_ d) (transaction_manager_ d)
    (correlation_context_ d) x (active_local_variables_ d) (active_bind_ d) (active_session_ d)
    (trigger_depth_ d) (local_depth d) (next_lock_id_ d).
Definition with_active_local_variables (x : option (gmap string value)) (d : Db) : Db :=
  mkDb (objects d) (next_address d) (tables_ d) (ephemeral_tables_ d) (ephemeral_scope_depth_ d)
    (next_ephemeral_id_ d) (catalogs_ d) (plan_cache_ d) (lock_manager_ d) (transaction_manager_ d)
    (correlation_context_ d) (table_statistics_ d) x (active_bind_ d) (active_session_ d) (trigger_depth_ d)
    (local_depth d) (next_lock_id_ d).
Definition with_active_bind (x : option (list value)) (d : Db) : Db :=
  mkDb (objects d) (next_address d) (tables_ d) (ephemeral_tables_ d) (ephemeral_scope_depth_ d)
    (next_ephemeral_id_ d) (catalogs_ d) (plan_cache_ d) (lock_manager_ d) (transaction_manager_ d)
    (correlation_context_ d) (table_statistics_ d) (active_local_variables_ d) x (active_session_ d)
    (trigger_depth_ d) (local_depth d) (next_lock_id_ d).
Definition with_active_session (x : option SessionContext) (d : Db) : Db :=
  mkDb (objects d) (next_address d) (tables_ d) (ephemeral_tables_ d) (ephemeral_scope_depth_ d)
    (next_ephemeral_id_ d) (catalogs_ d) (plan_cache_ d) (lock_manager_ d) (transaction_manager_ d)
    (correlation_context_ d) (table_statistics_ d) (active_local_variables_ d) (active_bind_ d) x
    (trigger_depth_ d) (local_depth d) (next_lock_id_ d).
Definition with_trigger_depth (x : Z) (d : Db) : Db :=
  mkDb (objects d) (next_address d) (tables_ d) (ephemeral_tables_ d) (ephemeral_scope_depth_ d)
    (next_ephemeral_id_ d) (catalogs_ d) (plan_cache_ d) (lock_manager_ d) (transaction_manager_ d)
    (correlation_context_ d) (table_statistics_ d) (active_local_variables_ d) (active_bind_ d)
    (active_session_ d) x (local_depth d) (next_lock_id_ d).
Definition with_local_depth (x : Z) (d : Db) : Db :=
  mkDb (objects d) (next_address d) (tables_ d) (ephemeral_tables_ d) (ephemeral_scope_depth_ d)
    (next_ephemeral_id_ d) (catalogs_ d) (plan_cache_ d) (lock_manager_ d) (transaction_manager_ d)
    (correlation_context_ d) (table_statistics_ d) (active_local_variables_ d) (active_bind_ d)
    (active_session_ d) (trigger_depth_ d) x (next_lock_id_ d).
Definition with_next_lock_id (x : Z) (d : Db) : Db :=
  mkDb (objects d) (next_address d) (tables_ d) (ephemeral_tables_ d) (ephemeral_scope_depth_ d)
    (next_ephemeral_id_ d) (catalogs_ d) (plan_cache_ d) (lock_manager_ d) (transaction_manager_ d)
    (correlation_context_ d) (table_statistics_ d) (active_local_variables_ d) (active_bind_ d)
    (active_session_ d) (trigger_depth_ d) (local_depth d) x.

(** ** Tables and pointers to them *)

Definition has_table (name : string) (d : Db) : bool := sm_has name (tables_ d).
Definition has_ephemeral_table (name : string) (d : Db) : bool := sm_has name (ephemeral_tables_ d).
(** Temporary tables hide the others. *)
Definition get_table (name : string) (d : Db) : option Z :=
  match sm_find name (ephemeral_tables_ d) with
  | Some a => Some a
  | None => sm_find name (tables_ d)
  end.
Definition list_tables (d : Db) : list string := (tables_ d).*1.

(** A call on the table at an address. *)
Definition on_table {A} (a : Z) (m : ST DTable A) : ST Db A := λ d,
  match objects d !! a with
  | None => (d, UB)
  | Some t => let '(t, r) := m t in (with_objects (<[a := t]> (objects d)) d, r)
  end.
Definition deref (a : Z) : ST Db DTable := on_table a st_get.

Definition allocate (t : DTable) : ST Db Z := λ d,
  let a := next_address d in
  (with_next_address (a + 1) (with_objects (<[a := t]> (objects d)) d), Ok a).
Definition free (a : Z) : ST Db unit := st_modify (λ d, with_objects (delete a (objects d)) d).
(** [tables_[name] = std::move(table)]: a table of that name is destroyed. *)
Definition put_table (name : string) (a : Z) : ST Db unit :=
  d ← st_get;
  (match sm_find name (tables_ d) with Some old => free old | None => mret tt end);;
  st_modify (λ d, with_tables (sm_set name a (tables_ d)) d).
(** [tables_.erase(name)]. *)
Definition erase_table (name : string) : ST Db unit :=
  d ← st_get;
  match sm_find name (tables_ d) with
  | None => mret tt
  | Some a => free a;; st_modify (λ d, with_tables (sm_erase name (tables_ d)) d)
  end.

Definition mark_table_dirty (name : string) : ST Db unit :=
  d ← st_get;
  match sm_find name (tables_ d) with Some a => on_table a mark_dirty | None => mret tt end.

(** ** Temporary tables *)

Definition register_ephemeral_table (name : string) (a : Z) : ST Db unit :=
  d ← st_get;
  (match sm_find name (ephemeral_tables_ d) with Some old => free old | None => mret tt end);;
  st_modify (λ d, with_ephemeral_tables (sm_set name a (ephemeral_tables_ d)) d).
Definition allocate_ephemeral_table_name (view_name : string) : ST Db string :=
  d ← st_get;
  let id := u_wrap 64 (next_ephemeral_id_ d + 1) in
  st_modify (with_next_ephemeral_id id);;
  mret ("__view_" +:+ view_name +:+ "_" +:+ std_to_string id).
Definition clear_ephemeral_tables : ST Db unit :=
  d ← st_get;
  st_iter (λ e, free e.2) (ephemeral_tables_ d);;
  st_modify (with_ephemeral_tables []).
Definition enter_ephemeral_scope : ST Db unit :=
  st_modify (λ d, with_ephemeral_scope_depth (ephemeral_scope_depth_ d + 1) d).
Definition leave_ephemeral_scope : ST Db unit :=
  st_modify (λ d, if 0 <? ephemeral_scope_depth_ d
                  then with_ephemeral_scope_depth (ephemeral_scope_depth_ d - 1) d else d);;
  d ← st_get;
  if ephemeral_scope_depth_ d =? 0 then clear_ephemeral_tables else mret tt.

(** ** The session *)

Definition in_tx (d : Db) : bool := match active_session_ d with Some s => in_transaction s | None => false end.
Definition get_reader_xid (d : Db) : Z :=
  match active_session_ d with Some s => if in_transaction s then transaction_id s else 0 | None => 0 end.
Definition get_reader_snapshot (d : Db) : option TransactionSnapshot :=
  match active_session_ d with Some s => if in_transaction s then snapshot s else None | None => None end.
Definition on_session (f : SessionContext → SessionContext) : ST Db unit :=
  st_modify (λ d, with_active_session (f <$> active_session_ d) d).

Definition get_trigger_depth (d : Db) : Z :=
  match active_session_ d with Some s => session_trigger_depth s | None => trigger_depth_ d end.
Definition enter_trigger_depth : ST Db unit := st_modify (λ d,
  match active_session_ d with
  | Some s => with_active_session (Some (enter_trigger s)) d
  | None => with_trigger_depth (trigger_depth_ d + 1) d
  end).
Definition leave_trigger_depth : ST Db unit := st_modify (λ d,
  match active_session_ d with
  | Some s => with_active_session (Some (leave_trigger s)) d
  | None => if 0 <? trigger_depth_ d then with_trigger_depth (trigger_depth_ d - 1) d else d
  end).

(** ** Locks

    A request that has to wait does not return: the statement has no outcome until
    another session releases the lock, which is the subject of LockManager.v. *)

Definition blocks {A} : ST Db A := λ d, (d, UB).

Definition ensure_lock_txn_id (s : SessionContext) : ST Db Z :=
  if transaction_id s =? 0 then
    d ← st_get;
    let id := next_lock_id_ d in
    st_modify (with_next_lock_id (u_wrap 64 (id + 1)));;
    on_session (set_transaction_id id);;
    mret id
  else mret (transaction_id s).
Definition acquire_lock (key : string) (mode : LockMode) : ST Db unit :=
  d ← st_get;
  match active_session_ d with
  | None => mret tt
  | Some s =>
      txn_id ← ensure_lock_txn_id s;
      d ← st_get;
      let '(lm, r) := acquire_enter (lock_manager_ d) txn_id key mode in
      st_modify (with_lock_manager lm);;
      match r with
      | Granted => mret tt
      | Deadlocked e => st_throw e
      | Waiting => blocks
      end
  end.
Definition acquire_table_lock : string → LockMode → ST Db unit := acquire_lock.
Definition acquire_row_lock (table : string) (row_index : nat) : ST Db unit :=
  acquire_lock (make_row_lock_key table (Z.of_nat row_index)) Exclusive.
Definition release_session_locks : ST Db unit :=
  d ← st_get;
  match active_session_ d with
  | None => mret tt
  | Some s =>
      if transaction_id s =? 0 then mret tt
      else st_modify (with_lock_manager (release_all (lock_manager_ d) (transaction_id s)))
  end.

(** ** Statistics, plans, versions *)

Context (SH : StdHash).
Definition refresh_statistics (a : Z) : ST Db unit :=
  d ← st_get;
  stats ← on_table a (refreshTable SH (table_statistics_ d));
  st_modify (with_table_statistics stats).
Definition ensureTableStatistics (table_name : string) : ST Db unit :=
  d ← st_get;
  match get_table table_name d with
  | None => mret tt
  | Some a =>
      t ← deref a;
      let missing := negb (hasTable (table_statistics_ d) table_name) in
      let stale := negb missing && negb (getRowCount (table_statistics_ d) table_name =? get_row_count t)%nat in
      if missing || stale then refresh_statistics a else mret tt
  end.
Definition clear_plan_cache : ST Db unit := st_modify (λ d, with_plan_cache (cache_clear (plan_cache_ d)) d).
Definition vacuum_all_tables : ST Db unit :=
  d ← st_get;
  st_iter (λ e, on_table e.2 (vacuum_versions (transaction_manager_ d));; refresh_statistics e.2) (tables_ d).

(** ** Evaluators

    An evaluation works on the database: on its frames, and through the callbacks on all
    of it.  Its error text is a local. *)
Abbreviation EvalSt := (St Db).
Definition eval_state (d : Db) : EvalSt := mkSt (correlation_context_ d) "" d.
Definition eval_database (s : EvalSt) : Db := with_correlation_context (frames s) (world s).
Definition evaluating {A} (m : ST EvalSt A) : ST Db (A * string) := λ d,
  let '(s, r) := m (eval_state d) in (eval_database s, (λ a, (a, err_msg s)) <$> r).
Definition on_eval {A} (m : ST EvalSt A) : ST Db A := r ← evaluating m; mret r.1.
(** A scan of the table at an address. *)
Definition scanning (a : Z) : ScanState Db DTable EvalSt := mkScanState (λ A, on_table a) (λ A, on_eval).

Definition evaluator_functions (c : Catalogs) : list (string * FunctionDefinition SelectStatement) :=
  (λ e, (e.1, rf_definition e.2)) <$> functions c.

Section subqueries.
Context (run_select : SelectStatement → ST Db QueryResult).

(** A subquery is a query on the database as it is. *)
Definition run_subquery (q : SelectStatement) : ST (list Frame * Db) QueryResult := λ fd,
  let '(d, r) := run_select q (with_correlation_context fd.1 fd.2) in ((correlation_context_ d, d), r).

Definition evaluate_scalar_subquery (has_err : bool) (q : SelectStatement) : ST EvalSt value :=
  result ← Evaluator.on_frames (run_subquery q);
  if negb (success result) then set_error has_err (message result);; mret VNull
  else match Operators.rows result with
  | [] => mret VNull
  | [[v]] => mret v
  | _ => set_error has_err "Scalar subquery must return at most one row and one column";; mret VNull
  end.

(** The first values of the rows: is [left] among them, is there a NULL before it. *)
Fixpoint find_in_rows (left : value) (rs : list vrow) (saw_null : bool) : bool * bool :=
  match rs with
  | [] => (false, saw_null)
  | [] :: rs => find_in_rows left rs saw_null
  | (v :: _) :: rs =>
      if is_null v then find_in_rows left rs true
      else if value_eq v left then (true, saw_null)
      else find_in_rows left rs saw_null
  end.
Definition evaluate_in_subquery_rows (left : value) (is_not : bool) (result : QueryResult) : bool :=
  if negb (success result) || is_null left then false
  else
    let '(found, saw_null) := find_in_rows left (Operators.rows result) false in
    if found then negb is_not else if saw_null then false else is_not.
Definition evaluate_in_subquery (left : value) (q : SelectStatement) (is_not : bool) : ST (list Frame * Db) bool :=
  result ← run_subquery q; mret (evaluate_in_subquery_rows left is_not result).
Definition evaluate_exists_subquery (q : SelectStatement) : ST (list Frame * Db) bool :=
  result ← run_subquery q;
  mret (success result && negb (bool_decide (Operators.rows result = []))).

(** What the executors hand to an evaluator. *)
Definition context (d : Db) : DbContext (W := Db) :=
  mkContext (Q := SelectStatement) evaluate_scalar_subquery evaluate_in_subquery evaluate_exists_subquery
    (active_bind_ d) (evaluator_functions (catalogs_ d)) (active_local_variables_ d)
    (transaction_manager_ d) (get_reader_xid d) (get_reader_snapshot d).
End subqueries.
End state.
Arguments Db : clear implicits.
