(* ===== verification/Queries.v ===== *)
(** * Queries

    SELECT over one table ([SelectExecutor] of src/executor/query_executor.cc) and over
    joins (src/executor/join_select_executor.cc), the replacement of views by temporary
    tables (src/core/view_expander.cc), set operations, and the subqueries that lead back
    to them (src/core/database.cc).

    [fuel] bounds how deep queries nest, through subqueries and views; a nesting that
    exhausts it stands for an exhausted stack. *)

From Stdlib Require Import ZArith Lia.
From S2P Require Import Prelude CppNum Values Rows Page PageStore BufferPool HeapFile RowHeap IndexKey BTree Transactions LockManager Expr Evaluator Partition Table TableSpec TableMaint TableProps Operators Lexer Ast Parser SelectAnalysis Grouping Windows Planner Scan FileSystem Auth Sessions Catalogs DbState.
Import Table.

Section queries.
Context {H : Type} {RH : RowHeap H} (SH : StdHash) (udf_depth : nat).
(** The heap of a new table, and the clock. *)
Context (new_heap : H) (today : string).
Abbreviation DTable := (Table H SelectStatement).
Abbreviation Db := (Db H).

(** [return QueryResult::error_result(msg)] from inside a loop. *)
Definition returned (A : Type) : Type := A + QueryResult.
Definition fail_with {A} (msg : string) : ST Db (returned A) := mret (inr (error_result msg)).
Definition bindr {A B} (m : ST Db (returned A)) (f : A → ST Db (returned B)) : ST Db (returned B) :=
  r ← m; match r with inl a => f a | inr q => mret (inr q) end.
Definition finish_result (m : ST Db (returned QueryResult)) : ST Db QueryResult :=
  r ← m; mret (match r with inl q => q | inr q => q end).
Fixpoint mapr {A B} (f : A → ST Db (returned B)) (l : list A) : ST Db (returned (list B)) :=
  match l with
  | [] => mret (inl [])
  | x :: l => bindr (f x) (λ y, bindr (mapr f l) (λ ys, mret (inl (y :: ys))))
  end.
Definition rejecting {A} (err : option string) (m : ST Db (returned A)) : ST Db (returned A) :=
  match err with Some msg => fail_with msg | None => m end.

(** ** Partitions *)

Definition listPrunedPartitions (t : DTable) (where_expr : option Expression) : list string :=
  match partition_meta t with
  | None => []
  | Some meta => prune (createRouter meta) (buildPartitionPruneRequest (key_column meta) where_expr)
  end.

(** The child a row belongs to, or what is wrong. *)
Definition resolvePartitionChild (parent : DTable) (row : Row) : ST Db (Z + string) :=
  match partition_meta parent with
  | None => mret (inr "Table is not partitioned"%string)
  | Some meta =>
      match get_column_index parent (key_column meta) with
      | None => mret (inr "Partition key column missing"%string)
      | Some key_index =>
          key ← st_lift (get_value row key_index);
          match resolveChild (createRouter meta) key with
          | None => mret (inr ("No partition for partition key value " +:+ Values.to_string key))
          | Some child =>
              d ← st_get;
              match get_table child d with
              | None => mret (inr ("Partition child '" +:+ child +:+ "' not found"))
              | Some a => mret (inl a)
              end
          end
      end
  end.

Definition findPartitionParent (child_name : string) : ST Db (option Z) :=
  d ← st_get;
  st_fold (λ found e,
    match found with
    | Some a => mret (Some a)
    | None =>
        t ← deref e.2;
        mret (match partition_meta t with
              | Some meta => if hasChild meta child_name then Some e.2 else None
              | None => None
              end)
    end) None (tables_ d).

Definition visible_rows (a : Z) : ST Db (list Row) :=
  d ← st_get;
  on_table a (get_visible_rows (transaction_manager_ d) (get_reader_xid d) (get_reader_snapshot d)).
Definition loadVisibleRowsForRelation (a : Z) (prune_where : option Expression) : ST Db (list Row) :=
  t ← deref a;
  if negb (isPartitioned t) then visible_rows a
  else
    st_fold (λ rows child,
      d ← st_get;
      match get_table child d with
      | None => mret rows
      | Some c => child_rows ← visible_rows c; mret (rows ++ child_rows)
      end) [] (listPrunedPartitions t prune_where).

(** ** The select list *)

Definition is_window_call (e : Expression) : bool :=
  match e with FunctionCall _ _ w => is_windowed w | _ => false end.
(** The values of one entry of the select list: all columns, a placeholder for a window
    function, or the value of the expression. *)
Definition project_column (ev : Evaluator SelectStatement Db) (row : Row) (c : Expression * string)
    : ST Db (returned vrow) :=
  if is_wildcard_select_expression c.1 then mret (inl (row_values row))
  else if is_window_call c.1 then mret (inl [VNull])
  else
    r ← evaluating (evaluate_expression udf_depth ev row true c.1);
    if bool_decide (r.2 = ""%string) then mret (inl [r.1]) else fail_with r.2.
Definition project_rows (ev : Evaluator SelectStatement Db) (cols : list (Expression * string)) (rows : list Row)
    : ST Db (returned (list vrow)) :=
  mapr (λ row, bindr (mapr (project_column ev row) cols) (λ vs, mret (inl (mjoin vs)))) rows.
Definition select_headers (all_columns : list string) (cols : list (Expression * string)) : list string :=
  mjoin ((λ c : Expression * string,
    if is_wildcard_select_expression c.1 then all_columns
    else if bool_decide (c.2 = ""%string) then [expression_to_string c.1] else [c.2]) <$> cols).

(** Grouping, or the select list row by row, and the rest of the pipeline. *)
Definition select_rows (stmt : SelectStatement) (ev : Evaluator SelectStatement Db) (all_columns : list string)
    (filtered_rows : list Row) : ST Db (returned QueryResult) :=
  if needs_grouping stmt then
    grouped ← on_eval (group_apply udf_depth ev stmt filtered_rows);
    if negb (success grouped) then mret (inr grouped)
    else r ← st_lift (apply_post_scan grouped stmt); mret (inl r)
  else if bool_decide (length (select_columns stmt) = 0%nat) then fail_with "No columns selected"
  else
    bindr (project_rows ev (select_columns stmt) filtered_rows) (λ rows,
      r ← st_lift (apply_post_scan
            (mkResult true "SELECT OK" (select_headers all_columns (select_columns stmt)) rows
               (s_wrap 32 (Z.of_nat (length rows)))) stmt);
      mret (inl r)).

Section level.
Context (run_select : SelectStatement → ST Db QueryResult).

(** ** SELECT over one table *)

Definition scan_relation (a : Z) (alias : string) (where_expr : option Expression) (ev : Evaluator SelectStatement Db)
    : ST Db (list Row) :=
  d ← st_get;
  filter_rows_with_index (scanning a) udf_depth alias where_expr ev (Some (context run_select d)).

Definition execute_SelectExecutor (stmt : SelectStatement) (a : Z) : ST Db QueryResult :=
  t ← deref a;
  finish_result (rejecting (validate_select_for_grouping stmt) (rejecting (validate_select_for_windows stmt) (
    d ← st_get;
    let ev := bind_evaluator (evaluator_for_table t (from_alias stmt)) (Some (context run_select d)) in
    filtered_rows ←
      (if isPartitioned t then
         st_fold (λ rows child,
           d ← st_get;
           match get_table child d with
           | None => mret rows
           | Some c => part ← scan_relation c (from_alias stmt) (where_condition stmt) ev; mret (rows ++ part)
           end) [] (listPrunedPartitions t (where_condition stmt))
       else scan_relation a (from_alias stmt) (where_condition stmt) ev);
    select_rows stmt ev (col_name <$> columns t) filtered_rows))).

(** ** Joins *)

Definition build_bindings_for_tables (ordered : list (DTable * string)) : list SelectColumnBinding :=
  mjoin ((λ ta : DTable * string,
    (λ c, mkBinding ta.2 (table_name ta.1) (col_name c)) <$> columns ta.1) <$> ordered).
Definition table_width (t : DTable) : nat := length (columns t).
Definition cumulative_columns (ordered : list (DTable * string)) (through : nat) : nat :=
  sum_list ((λ ta, table_width ta.1) <$> take (S through) ordered).
Definition qualified_header (b : SelectColumnBinding) : string :=
  if bool_decide (alias b = ""%string) then column_name b else alias b +:+ "." +:+ column_name b.
Definition null_vector (n : nat) : vrow := replicate n VNull.
Definition plain_evaluator (bs : list SelectColumnBinding) : Evaluator SelectStatement Db :=
  mkEvaluator (Q := SelectStatement) bs None None None false None None ∅ today.

(** The loops of a join: [on] evaluates the condition on the concatenated row. *)
Section loops.
Context (on : vrow → ST Db bool) (lw rw : nat).

Definition matching_pairs (left : vrow) (rights : list vrow) : ST Db (list vrow) :=
  st_filter on ((λ r, left ++ r) <$> rights).
Definition inner_loop (current rights : list vrow) : ST Db (list vrow) :=
  st_fold (λ next l, m ← matching_pairs l rights; mret (next ++ m)) [] current.
Definition or_padded (left : vrow) (matched : list vrow) : list vrow :=
  if bool_decide (length matched = 0%nat) then [left ++ null_vector rw] else matched.
Definition left_loop (current rights : list vrow) : ST Db (list vrow) :=
  st_fold (λ next l, m ← matching_pairs l rights; mret (next ++ or_padded l m)) [] current.
Definition right_loop (current rights : list vrow) : ST Db (list vrow) :=
  st_fold (λ next r,
    m ← st_filter on ((λ l, l ++ r) <$> current);
    mret (next ++ (if bool_decide (length m = 0%nat) then [null_vector lw ++ r] else m))) [] rights.
(** [rhs_matched] marks the right rows that found a partner. *)
Definition full_pair (l : vrow) (acc : list vrow * list bool) (ir : nat * vrow) : ST Db (list vrow * list bool) :=
  b ← on (l ++ ir.2);
  mret (if (b : bool) then (acc.1 ++ [l ++ ir.2], <[ir.1 := true]> acc.2) else acc).
Definition full_loop (current rights : list vrow) : ST Db (list vrow) :=
  acc ← st_fold (λ acc l,
    m ← st_fold (full_pair l) ([], acc.2) (imap pair rights);
    mret (acc.1 ++ or_padded l m.1, m.2)) ([], replicate (length rights) false) current;
  mret (acc.1 ++ omap (λ rb : vrow * bool, if rb.2 then None else Some (null_vector lw ++ rb.1)) (zip rights acc.2)).
End loops.

(** The right table is searched through an index for the key of the left row; the rows the
    index gives are taken whatever their versions. *)
Definition indexed_pairs (on : vrow → ST Db bool) (rhs : Z) (indexed_col : string) (probe : nat) (left : vrow)
    : ST Db (list vrow) :=
  key ← st_lift (from_option Ok UB (left !! probe));
  ids ← on_table rhs (find_rows_by_value indexed_col key);
  st_fold (λ out i,
    row ← on_table rhs (get_row (Z.to_nat i));
    let comb := left ++ row_values row in
    b ← on comb;
    mret (if (b : bool) then out ++ [comb] else out)) [] ids.
Definition indexed_inner_loop (on : vrow → ST Db bool) (rhs : Z) (indexed_col : string) (probe : nat)
    (current : list vrow) : ST Db (list vrow) :=
  st_fold (λ next l, m ← indexed_pairs on rhs indexed_col probe l; mret (next ++ m)) [] current.
Definition indexed_left_loop (on : vrow → ST Db bool) (rw : nat) (rhs : Z) (indexed_col : string) (probe : nat)
    (current : list vrow) : ST Db (list vrow) :=
  st_fold (λ next l, m ← indexed_pairs on rhs indexed_col probe l; mret (next ++ or_padded rw l m)) [] current.

(** The first binding of a column that passes a test. *)
Definition binding_of (column : string) (test : SelectColumnBinding → bool) (bs : list SelectColumnBinding) : option nat :=
  fst <$> list_find (λ b, column_name b = column ∧ test b = true) bs.

Definition names_right (table rhs_alias : string) (rt : DTable) : bool :=
  bool_decide (table = ""%string) || bool_decide (table = table_name rt) || bool_decide (table = rhs_alias).
Definition column_found (t : DTable) (column : string) : bool := bool_decide (is_Some (get_column_index t column)).

(** The index an INNER join uses: the column of the right table and the place of the key
    in the left row. *)
Definition inner_index (ec : option (string * string * (string * string))) (rt : DTable)
    (lhs_alias rhs_alias : string) (edge : list SelectColumnBinding) : option (string * nat) :=
  '(left_table, left_column, (right_table, right_column)) ← ec;
  if names_right right_table rhs_alias rt && column_found rt right_column && has_index rt right_column then
    let qualified b := bool_decide (left_table = ""%string) || bool_decide (alias b = left_table)
                       || bool_decide (physical_table b = left_table) || bool_decide (alias b = lhs_alias) in
    match binding_of left_column qualified edge with
    | Some i => Some (right_column, i)
    | None => pair right_column <$> binding_of left_column (λ _, true) edge
    end
  else if names_right left_table rhs_alias rt && column_found rt left_column && has_index rt left_column then
    pair left_column <$> binding_of right_column (λ _, true) edge
  else None.
(** A LEFT join does not ask whether the right table has the column. *)
Definition left_index (ec : option (string * string * (string * string))) (rt : DTable)
    (rhs_alias : string) (edge : list SelectColumnBinding) : option (string * nat) :=
  '(left_table, left_column, (right_table, right_column)) ← ec;
  if names_right right_table rhs_alias rt && has_index rt right_column then
    pair right_column <$> binding_of left_column (λ _, true) edge
  else if names_right left_table rhs_alias rt && has_index rt left_column then
    pair left_column <$> binding_of right_column (λ _, true) edge
  else None.
Definition indexed_column (rt : DTable) (column : string) : ST Db string :=
  if column_found rt column then mret column
  else st_throw (NotFoundException ("Column index " +:+ std_to_string (2 ^ 64 - 1) +:+ " not found")).

Definition equi_columns (on_expr : option Expression) : option (string * string * (string * string)) :=
  e ← on_expr; try_extract_equi_join_columns e.

(** [planEquiJoinMethod] refreshes the statistics of both tables once the columns are found. *)
Definition plan_edge (lt rt : DTable) (lhs_alias rhs_alias : string) (on_expr : option Expression)
    (left_rows right_rows : nat) (bs : list SelectColumnBinding) : ST Db EquiJoinPlan :=
  let plan stats := planEquiJoinMethod stats (Some lt) (Some rt) lhs_alias rhs_alias on_expr
                      (Z.of_nat left_rows) (Z.of_nat right_rows) bs in
  if is_equi (plan None) then
    ensureTableStatistics SH (table_name lt);;
    ensureTableStatistics SH (table_name rt);;
    d ← st_get;
    mret (plan (Some (table_statistics_ d)))
  else mret (plan None).

Record Edge : Type := mkEdge {
  edge_left : DTable * string;
  edge_right : Z * (DTable * string);
  edge_bindings : list SelectColumnBinding;
  edge_lw : nat;
  edge_only : bool
}.

Definition join_edge (e : Edge) (join_type : string) (on_expr : option Expression)
    (current : list vrow) (rights : list vrow) : ST Db (returned (list vrow)) :=
  let '(rhs, (rt, rhs_alias)) := edge_right e in
  let '(lt, lhs_alias) := edge_left e in
  let rw := table_width rt in
  let on row := on_eval (evaluate_condition udf_depth (plain_evaluator (edge_bindings e)) (row_of_values row) on_expr) in
  let ec := equi_columns on_expr in
  if bool_decide (join_type = "CROSS"%string) || bool_decide (join_type = "INNER"%string) && negb (bool_decide (is_Some on_expr))
  then mret (inl (mjoin ((λ l, (λ r, l ++ r) <$> rights) <$> current)))
  else if bool_decide (join_type = "INNER"%string) then
    plan ← (if bool_decide (is_Some ec) && edge_only e then
              p ← plan_edge lt rt lhs_alias rhs_alias on_expr (length current) (length rights)
                    (take (edge_lw e) (edge_bindings e));
              mret (Some p)
            else mret None);
    match plan with
    | Some (mkPlan true (Some li) (Some ri) _ _ (mkChoice HashJoin _ build_on_left)) =>
        mret (inl (executeInnerEqui SH current rights li ri build_on_left))
    | _ =>
        match inner_index ec rt lhs_alias rhs_alias (edge_bindings e) with
        | Some (column, probe) => next ← indexed_inner_loop on rhs column probe current; mret (inl next)
        | None => next ← inner_loop on current rights; mret (inl next)
        end
    end
  else if bool_decide (join_type = "LEFT"%string) then
    match left_index ec rt rhs_alias (edge_bindings e) with
    | Some (column, probe) =>
        column ← indexed_column rt column;
        next ← indexed_left_loop on rw rhs column probe current; mret (inl next)
    | None => next ← left_loop on rw current rights; mret (inl next)
    end
  else if bool_decide (join_type = "RIGHT"%string) then
    next ← right_loop on (edge_lw e) current rights; mret (inl next)
  else if bool_decide (join_type = "FULL"%string) then
    next ← full_loop on (edge_lw e) rw current rights; mret (inl next)
  else fail_with ("Unsupported JOIN kind: " +:+ join_type).

(** The tables of a query with their aliases, in the order of the text. *)
Definition requires_on (join_type : string) : bool :=
  bool_decide (join_type ∈ ["LEFT"; "RIGHT"; "FULL"]%string).
Definition find_relation (name alias : string) : ST Db (returned (Z * (DTable * string))) :=
  d ← st_get;
  match get_table name d with
  | None => fail_with ("Table '" +:+ name +:+ "' not found")
  | Some a => t ← deref a; mret (inl (a, (t, alias)))
  end.
Definition join_relation (j : string * string * string * option Expression) : ST Db (returned (Z * (DTable * string))) :=
  let '(join_type, name, alias, on_expr) := j in
  if requires_on join_type && negb (bool_decide (is_Some on_expr)) then fail_with (join_type +:+ " JOIN requires ON clause")
  else find_relation name alias.

(** Two tables that are joined by INNER or CROSS may change places. *)
Definition relation_of (t : DTable) (ec : option (string * string * (string * string))) : JoinRelation :=
  mkRelation (table_name t) (Z.of_nat (get_row_count t))
    (match ec with Some (_, lc, (_, rc)) => has_index t rc || has_index t lc | None => false end).
Definition plan_order (stmt : SelectStatement) (rels : list (Z * (DTable * string))) : res (list (Z * (DTable * string))) :=
  match rels, joins stmt with
  | [r0; r1], [(join_type, _, _, on_expr)] =>
      if bool_decide (join_type = "INNER"%string) || bool_decide (join_type = "CROSS"%string) then
        let ec := equi_columns on_expr in
        order ← planLeftDeepOrder [relation_of r0.2.1 ec; relation_of r1.2.1 ec];
        Ok (match order with [1%nat; _] => [r1; r0] | _ => rels end)
      else Ok rels
  | _, _ => Ok rels
  end.

(** Each ON sees the columns up to its edge. *)
Definition on_expression (j : string * string * string * option Expression) : option Expression := j.2.
Definition validate_edge (ordered : list (DTable * string)) (full : list SelectColumnBinding) (ij : nat * (string * string * string * option Expression))
    : option string :=
  e ← on_expression ij.2;
  validate_inner (plain_evaluator (take (cumulative_columns ordered (S ij.1)) full)) [] e.
Definition first_some {A} (f : A → option string) : list A → option string :=
  fix go l := match l with [] => None | x :: l => match f x with Some m => Some m | None => go l end end.

Definition join_step (stmt : SelectStatement) (ordered : list (Z * (DTable * string))) (full : list SelectColumnBinding)
    (acc : returned (list vrow)) (ij : nat * (string * string * string * option Expression)) : ST Db (returned (list vrow)) :=
  match acc with
  | inr q => mret (inr q)
  | inl current =>
      match ordered !! ij.1, ordered !! S ij.1 with
      | Some l, Some r =>
          rhs_rows ← loadVisibleRowsForRelation r.1 (where_condition stmt);
          let tables := snd <$> ordered in
          join_edge (mkEdge l.2 r (take (cumulative_columns tables (S ij.1)) full) (cumulative_columns tables ij.1)
                       (length ordered =? 2)%nat)
            ij.2.1.1.1 (on_expression ij.2) current (row_values <$> rhs_rows)
      | _, _ => st_lift UB
      end
  end.

(** The columns of a join: not a wildcard, and fit for the tables. *)
Definition validate_select_list (stmt : SelectStatement) (full_eval : Evaluator SelectStatement Db) (frames : list Frame) : option string :=
  first_some (λ c : Expression * string,
    if is_wildcard_select_expression c.1 then None else validate_inner full_eval frames c.1) (select_columns stmt).
(** WHERE on the joined rows, and what is selected of them. *)
Definition joined_result (stmt : SelectStatement) (full_eval : Evaluator SelectStatement Db) (full : list SelectColumnBinding) (current : list vrow)
    : ST Db (returned QueryResult) :=
  kept ← st_filter (λ row, on_eval (evaluate_condition udf_depth full_eval row (where_condition stmt))) (row_of_values <$> current);
  select_rows stmt full_eval (qualified_header <$> full) kept.
Definition execute_JoinSelectExecutor (stmt : SelectStatement) : ST Db QueryResult :=
  finish_result (
    bindr (find_relation (from_table stmt) (from_alias stmt)) (λ from,
    bindr (mapr join_relation (joins stmt)) (λ others,
      ordered ← st_lift (plan_order stmt (from :: others));
      let tables := snd <$> ordered in
      let full := build_bindings_for_tables tables in
      d ← st_get;
      let full_eval := bind_evaluator (plain_evaluator full) (Some (context run_select d)) in
      let edges := imap pair (joins stmt) in
      rejecting (first_some (validate_edge tables full) edges) (
      rejecting (e ← where_condition stmt; validate_inner full_eval (correlation_context_ d) e) (
      rejecting (validate_select_list stmt full_eval (correlation_context_ d)) (
      rejecting (validate_select_for_grouping stmt) (
      rejecting (validate_select_for_windows stmt) (
      match ordered with
      | [] => st_lift UB
      | first :: _ =>
          from_rows ← loadVisibleRowsForRelation first.1 (where_condition stmt);
          joined ← st_fold (join_step stmt ordered full) (inl (row_values <$> from_rows)) edges;
          bindr (mret joined) (joined_result stmt full_eval full)
      end)))))))).

(** ** Views *)

Definition MAX_VIEW_NESTING_DEPTH : nat := 8.

Definition clone_select (s : SelectStatement) : SelectStatement :=
  mkSelect (select_columns s) (from_table s) (from_alias s) (where_condition s) (group_by_columns s) (having_condition s)
    (order_by_columns s) (joins s) (distinct s) (if 0 <=? limit s then limit s else -1)
    (if 0 <? offset s then offset s else 0).
Definition set_tables (from : string) (js : list (string * string * string * option Expression)) (s : SelectStatement)
    : SelectStatement :=
  mkSelect (select_columns s) from (from_alias s) (where_condition s) (group_by_columns s) (having_condition s)
    (order_by_columns s) js (distinct s) (limit s) (offset s).
Definition set_join_table (name : string) (j : string * string * string * option Expression)
    : string * string * string * option Expression :=
  let '(join_type, _, alias, on_expr) := j in (join_type, name, alias, on_expr).

Definition infer_column_type (result : QueryResult) (i : nat) : DataType :=
  default STRING ((λ p, Values.get_type p.2) <$>
    list_find (λ v, is_null v = false) (omap (λ row, row !! i) (Operators.rows result))).

(** The temporary table that holds the rows of a view. *)
Definition view_table (name : string) (result : QueryResult) : res DTable :=
  let '(t, r) :=
    (st_iter (λ ic : nat * string, add_column (mkColumn ic.2 (infer_column_type result ic.1) true false false None)) (imap pair (column_names result));;
     st_iter (λ vs, insert_row (row_of_values vs)) (Operators.rows result);;
     clear_dirty) (new_Table name new_heap today) in
  r ≫= λ _, Ok t.

(** A statement, or the error message. *)
Definition expanded (A : Type) : Type := A + string.

(** [levels] is what is left of the nesting depth. *)
Section expand_refs.
Context (expand_table_ref : string → ST Db (expanded string)).
Fixpoint expand_joins (js : list (string * string * string * option Expression))
    : ST Db (expanded (list (string * string * string * option Expression))) :=
  match js with
  | [] => mret (inl [])
  | j :: js =>
      r ← expand_table_ref j.1.1.2;
      match r with
      | inr msg => mret (inr msg)
      | inl name =>
          rest ← expand_joins js;
          mret (match rest with inl js => inl (set_join_table name j :: js) | inr msg => inr msg end)
      end
  end.
Definition expand_tables (stmt : SelectStatement) : ST Db (expanded SelectStatement) :=
  let clone := clone_select stmt in
  if bool_decide (from_table clone = ""%string) then mret (inr "SELECT requires FROM clause"%string)
  else
    r ← expand_table_ref (from_table clone);
    match r with
    | inr msg => mret (inr msg)
    | inl from =>
        js ← expand_joins (joins clone);
        mret (match js with inl js => inl (set_tables from js clone) | inr msg => inr msg end)
    end.
End expand_refs.

Definition materialize (view_name : string) (body : SelectStatement) : ST Db (expanded string) :=
  result ← run_select body;
  if negb (success result) then mret (inr (message result))
  else
    name ← allocate_ephemeral_table_name view_name;
    t ← st_lift (view_table name result);
    a ← allocate t;
    register_ephemeral_table name a;;
    mret (inl name).

Fixpoint expand_table_ref (levels : nat) (visiting : list string) (name : string) : ST Db (expanded string) :=
  d ← st_get;
  if has_table name d || has_ephemeral_table name d then mret (inl name)
  else if negb (has_view name (catalogs_ d)) then mret (inr ("Table '" +:+ name +:+ "' not found"))
  else match levels with
  | O => mret (inr ("View nesting depth exceeded (max " +:+ std_to_string (Z.of_nat MAX_VIEW_NESTING_DEPTH) +:+ ")"))
  | S levels =>
      if bool_decide (name ∈ visiting) then mret (inr ("Circular view reference involving '" +:+ name +:+ "'"))
      else match get_view name (catalogs_ d) with
      | None => mret (inr ("View '" +:+ name +:+ "' not found"))
      | Some view =>
          body ← st_lift (parse_select (vd_select_sql view));
          r ← expand_tables (expand_table_ref levels (name :: visiting)) body;
          match r with
          | inr msg => mret (inr msg)
          | inl body => materialize name body
          end
      end
  end.
Definition expand (stmt : SelectStatement) : ST Db (expanded SelectStatement) :=
  expand_tables (expand_table_ref MAX_VIEW_NESTING_DEPTH []) stmt.

(** The guard leaves the scope of temporary tables however the body ends. *)
Definition in_ephemeral_scope {A} (m : ST Db A) : ST Db A := λ d,
  let '(d, _) := enter_ephemeral_scope d in
  let '(d, r) := m d in
  let '(d, _) := leave_ephemeral_scope d in (d, r).

Definition select_statement (stmt : SelectStatement) : ST Db QueryResult :=
  if bool_decide (from_table stmt = ""%string) then mret (error_result "SELECT requires FROM clause")
  else in_ephemeral_scope (
    r ← expand stmt;
    match r with
    | inr msg => mret (error_result msg)
    | inl stmt =>
        d ← st_get;
        match get_table (from_table stmt) d with
        | None => mret (error_result ("Table '" +:+ from_table stmt +:+ "' not found"))
        | Some base =>
            if bool_decide (length (joins stmt) = 0%nat) then execute_SelectExecutor stmt base
            else execute_JoinSelectExecutor stmt
        end
    end).
End level.

(** ** Queries that nest *)

Fixpoint execute_select_statement (fuel : nat) (stmt : SelectStatement) : ST Db QueryResult :=
  match fuel with
  | O => λ d, (d, UB)
  | S fuel => select_statement (execute_select_statement fuel) stmt
  end.

Section set_operations.
Context (fuel : nat).
Fixpoint execute_query_operand (q : Operand) : ST Db QueryResult :=
  match q with
  | SelectOperand s => execute_select_statement fuel s
  | SetOperand s => execute_set_operation_statement s
  end
with execute_set_operation_statement (s : SetOperationStatement) : ST Db QueryResult :=
  match s with
  | SetOperation l kind r is_all orders lim off =>
      left_result ← execute_query_operand l;
      if negb (success left_result) then mret left_result else
      right_result ← execute_query_operand r;
      if negb (success right_result) then mret right_result else
      combined ← st_lift (execute_set_operation SH left_result right_result kind is_all);
      if negb (success combined) then mret combined
      else if bool_decide (length orders = 0%nat) && (lim <? 0) && (off <=? 0) then mret combined
      else
        let order_stmt := mkStatement SelectStatement false orders lim off in
        sorted ← st_lift (sort_apply combined (Some order_stmt));
        if negb (success sorted) then mret sorted
        else mret (limit_offset_apply sorted (Some order_stmt))
  end.
End set_operations.
End queries.
