(* ===== verification/QueryProps.v ===== *)
(** * What queries leave unchanged

    A SELECT, with the subqueries, views and functions it runs on the way, changes no table, no
    catalog and no part of the state but caches, whatever it returns or throws, and leaves no
    temporary table behind; if it returns, the correlation frames are as before, and so they
    are after every evaluation that has a value.  The argument follows the
    code: a relation between the states before and after that every step respects
    ([moves]), for tables ([table_reads]) and for the database ([reads]). *)

From Stdlib Require Import ZArith Lia.
From S2P Require Import Prelude CppNum Values Rows Page PageStore BufferPool HeapFile RowHeap IndexKey BTree Transactions LockManager Expr Evaluator Partition Table TableSpec TableMaint TableProps Operators Lexer Ast Parser SelectAnalysis Grouping Windows Planner Scan FileSystem Auth Sessions Catalogs DbState Queries.
Import Table.

(** ** Steps that respect a relation

    [R true] relates the states before and after a step that returns, [R false] those of a
    step that throws. *)

Definition returns {A} (r : res A) : bool := match r with Ok _ => true | _ => false end.
Definition moves {S A} (R : bool → relation S) (m : ST S A) : Prop := ∀ s, R (returns (m s).2) s (m s).1.
Class Steps {S} (R : bool → relation S) : Prop := {
  steps_refl b s : R b s s;
  steps_trans b s1 s2 s3 : R true s1 s2 → R b s2 s3 → R b s1 s3
}.
(** One relation for both. *)
Definition always {S} (R : relation S) : bool → relation S := λ _, R.
#[export] Instance always_steps {S} (R : relation S) {HR : PreOrder R} : Steps (always R).
Proof. split; unfold always; [reflexivity|]. intros b s1 s2 s3. by etrans. Qed.

Create HintDb moves.
#[export] Hint Constants Opaque : moves.
#[export] Hint Transparent returned expanded : moves.

Section moves.
Context {S : Type} (R : bool → relation S) {HR : Steps R}.

Lemma moves_ret {A} (a : A) : moves R (mret a).
Proof. intros s. apply steps_refl. Qed.
Lemma moves_get : moves R st_get.
Proof. intros s. apply steps_refl. Qed.
Lemma moves_lift {A} (r : res A) : moves R (st_lift r).
Proof. intros s. apply steps_refl. Qed.
Lemma moves_throw {A} e : moves R (st_throw (A := A) e).
Proof. intros s. apply steps_refl. Qed.
Lemma moves_bind {A B} (m : ST S A) (f : A → ST S B) : moves R m → (∀ a, moves R (f a)) → moves R (m ≫= f).
Proof.
  intros Hm Hf s. rewrite ST_bind_eq. pose proof (Hm s) as Hs. destruct (m s) as [s' [a| |]]; [|done..].
  eapply steps_trans; [exact Hs|apply Hf].
Qed.
Lemma moves_fold {A B} (f : B → A → ST S B) l : (∀ b a, moves R (f b a)) → ∀ b, moves R (st_fold f b l).
Proof. intros Hf. induction l as [|x l IH]; intros b; cbn [st_fold]; [apply moves_ret|]. by apply moves_bind. Qed.
Lemma moves_iter {A} (f : A → ST S unit) l : (∀ a, moves R (f a)) → moves R (st_iter f l).
Proof. intros Hf. apply moves_fold. intros _ a. apply Hf. Qed.
Lemma moves_map {A B} (f : A → ST S B) l : (∀ a, moves R (f a)) → moves R (st_map f l).
Proof.
  intros Hf. induction l as [|x l IH]; cbn [st_map]; [apply moves_ret|].
  apply moves_bind; [apply Hf|]. intros y. apply moves_bind; [exact IH|]. intros. apply moves_ret.
Qed.
Lemma moves_any {A} (f : A → ST S bool) l : (∀ a, moves R (f a)) → moves R (st_any f l).
Proof.
  intros Hf. induction l as [|x l IH]; cbn [st_any]; [apply moves_ret|].
  apply moves_bind; [apply Hf|]. intros []; [apply moves_ret|exact IH].
Qed.
Lemma moves_filter {A} (f : A → ST S bool) l : (∀ a, moves R (f a)) → moves R (st_filter f l).
Proof. intros Hf. apply moves_fold. intros b a. apply moves_bind; [apply Hf|]. intros. apply moves_ret. Qed.
Lemma moves_modify f : (∀ s, R true s (f s)) → moves R (st_modify f).
Proof. intros Hf s. apply Hf. Qed.
Lemma moves_ub {A} : moves R (λ s, (s, @UB A)).
Proof. intros s. apply steps_refl. Qed.
End moves.

#[export] Hint Resolve moves_ret moves_get moves_lift moves_throw moves_ub : moves.

(** One step of the argument: a construct of the monad, a case of the code, a lemma. *)
Ltac moves_step :=
  first
  [ progress intros
  | solve [eauto 3 with moves typeclass_instances]
  | apply moves_bind; [typeclasses eauto| |]
  | apply moves_iter; [typeclasses eauto|]
  | apply moves_fold; [typeclasses eauto|]
  | apply moves_map; [typeclasses eauto|]
  | apply moves_any; [typeclasses eauto|]
  | apply moves_filter; [typeclasses eauto|]
  | progress cbv zeta
  | case_match ].
Ltac moves := repeat moves_step.

(** ** Tables that are only read *)

Section table_reads.
Context {H : Type} {RH : RowHeap H} {RS : RowHeapSpec H} {Q : Type}.
Implicit Types t : Table H Q.

(** Only the state of the heap differs, and it holds the rows it held. *)
Definition table_reads t t' : Prop :=
  ∃ h, t' = with_heap h t ∧ ∀ n rows, holds_rows n t rows → holds_rows n t' rows.

Lemma with_heap_self t : with_heap (heap t) t = t.
Proof. by destruct t. Qed.
Lemma with_heap_twice h h' t : with_heap h' (with_heap h t) = with_heap h' t.
Proof. by destruct t. Qed.

#[export] Instance table_reads_preorder : PreOrder table_reads.
Proof.
  split.
  - intros t. exists (heap t). by rewrite with_heap_self.
  - intros t1 t2 t3 (h & -> & H1) (h' & -> & H2). exists h'. rewrite with_heap_twice in *. eauto.
Qed.

Lemma moves_gets {A} (f : Table H Q → A) : moves (always table_reads) (gets f).
Proof. intros t. change (table_reads t t). reflexivity. Qed.
Lemma moves_get_row i : moves (always table_reads) (get_row i).
Proof.
  intros t. unfold get_row, gets, on_heap. rewrite ST_bind_eq. cbn [st_get fst snd].
  destruct (row_directory t !! i) as [ptr|] eqn:Hi; [|reflexivity].
  destruct (rh_get_row ptr (heap t)) as [h r] eqn:E. exists h. split; [done|].
  intros n rows [(m & Hm & Hd & Hnd) Hok Hfit].
  destruct (Forall2_lookup_l _ _ _ _ _ Hd Hi) as (row & _ & Hrow).
  destruct (rh_get_ok n _ _ m ptr row Hm Hrow) as (h' & E' & Hm'). rewrite E' in E. injection E as <- <-.
  split; [|done..]. exists m. done.
Qed.
#[local] Hint Resolve moves_gets moves_get_row : moves.

Lemma moves_visible_indices tm xid snap : moves (always table_reads) (get_visible_row_indices (Q := Q) (H := H) tm xid snap).
Proof. unfold get_visible_row_indices. moves. Qed.
#[local] Hint Resolve moves_visible_indices : moves.
Lemma moves_visible_rows tm xid snap : moves (always table_reads) (get_visible_rows (Q := Q) (H := H) tm xid snap).
Proof. unfold get_visible_rows. moves. Qed.
Lemma moves_by_value name v : moves (always table_reads) (find_rows_by_value (Q := Q) (H := H) name v).
Proof. unfold find_rows_by_value. moves. Qed.
Lemma moves_by_range name lo li hi ui : moves (always table_reads) (find_rows_by_range (Q := Q) (H := H) name lo li hi ui).
Proof. unfold find_rows_by_range. moves. Qed.
Lemma moves_by_key name key : moves (always table_reads) (find_rows_by_index_key (Q := Q) (H := H) name key).
Proof. unfold find_rows_by_index_key. moves. Qed.
Lemma moves_statistics SH stats : moves (always table_reads) (refreshTable (Q := Q) (H := H) SH stats).
Proof. unfold refreshTable, fill_buckets. moves. Qed.
#[local] Hint Resolve moves_by_value moves_by_range moves_by_key : moves.
Lemma moves_candidates alias w : moves (always table_reads) (collect_candidate_rows (Q := Q) (H := H) alias w).
Proof. unfold collect_candidate_rows, intersect_pred, lookup_predicate_rows. moves. Qed.
#[local] Hint Resolve moves_candidates : moves.

End table_reads.
#[export] Hint Resolve moves_gets moves_get_row moves_visible_indices moves_visible_rows moves_by_value moves_by_range
  moves_by_key moves_statistics moves_candidates : moves.

(** ** Databases that are only read *)

Section reads.
Context {H : Type} {RH : RowHeap H} {RS : RowHeapSpec H}.
Abbreviation Db := (Db H).
Implicit Types d : Db.

(** Every table is an object, and no temporary table is one of them. *)
Record wf d : Prop := {
  wf_tables name a : (name, a) ∈ tables_ d → is_Some (objects d !! a) ∧ a < next_address d;
  wf_ephemeral name a : (name, a) ∈ ephemeral_tables_ d → a < next_address d ∧ a ∉ (tables_ d).*2;
  wf_depth : 0 ≤ ephemeral_scope_depth_ d
}.

(** The same tables with the same rows, and the same state but for the caches, the
    frames and the temporary tables. *)
Record same d d' : Prop := {
  same_tables : tables_ d' = tables_ d;
  same_rows name a t : (name, a) ∈ tables_ d → objects d !! a = Some t →
    ∃ t', objects d' !! a = Some t' ∧ table_reads t t';
  same_catalogs : catalogs_ d' = catalogs_ d;
  same_plans : plan_cache_ d' = plan_cache_ d;
  same_locks : lock_manager_ d' = lock_manager_ d;
  same_transactions : transaction_manager_ d' = transaction_manager_ d;
  same_session : active_session_ d' = active_session_ d;
  same_locals : active_local_variables_ d' = active_local_variables_ d;
  same_bind : active_bind_ d' = active_bind_ d;
  same_scope : ephemeral_scope_depth_ d' = ephemeral_scope_depth_ d;
  same_trigger_depth : trigger_depth_ d' = trigger_depth_ d ∧ local_depth d' = local_depth d;
  same_lock_id : next_lock_id_ d' = next_lock_id_ d
}.
(** What is read stays the same, and a step that returns leaves the frames as they were. *)
Definition reads (returned : bool) d d' : Prop :=
  wf d → wf d' ∧ same d d' ∧ (returned = true → correlation_context_ d' = correlation_context_ d).

Lemma same_refl d : same d d.
Proof. split; try done. intros name a t _ Ht. exists t. split; [done|reflexivity]. Qed.
Lemma same_trans d1 d2 d3 : same d1 d2 → same d2 d3 → same d1 d3.
Proof.
  intros [] []. split; try congruence.
  - intros name a t Ha Ht. destruct (same_rows0 _ _ _ Ha Ht) as (t2 & Ht2 & R2).
    destruct (same_rows1 name a t2) as (t3 & Ht3 & R3); [congruence|done|]. exists t3. split; [done|by etrans].
  - intuition congruence.
Qed.
#[export] Instance reads_steps : Steps reads.
Proof.
  split.
  - intros b d Hd. split; [done|]. split; [apply same_refl|done].
  - intros b d1 d2 d3 H12 H23 H1. destruct (H12 H1) as (H2 & S2 & F2). destruct (H23 H2) as (H3 & S3 & F3).
    split; [done|]. split; [by eapply same_trans|]. intros Hb. rewrite F3 by done. by apply F2.
Qed.
Lemma reads_any b d d' : reads true d d' → reads b d d'.
Proof. intros Hr W. destruct (Hr W) as (? & ? & F). split; [done|]. split; [done|]. intros _. by apply F. Qed.

(** Steps on parts of the state the relation says nothing about. *)
Definition apart (f : Db → Db) : Prop := ∀ d,
  objects (f d) = objects d ∧ next_address (f d) = next_address d ∧ ephemeral_tables_ (f d) = ephemeral_tables_ d ∧
  correlation_context_ (f d) = correlation_context_ d ∧ same d (f d).
Lemma reads_apart f : apart f → ∀ d, reads true d (f d).
Proof.
  intros Hf d [W1 W2 W3]. destruct (Hf d) as (Eo & En & Ee & Ec & S). split; [|done].
  destruct S. split; rewrite ?Eo, ?En, ?Ee, ?same_tables0, ?same_scope0; done.
Qed.
Ltac apart := intros ?; repeat split; try done; intros; eexists; split; [eassumption|reflexivity].
Lemma apart_statistics x : apart (with_table_statistics x).
Proof. apart. Qed.
Lemma apart_ephemeral_id x : apart (with_next_ephemeral_id x).
Proof. apart. Qed.

Lemma reads_object d a t t' : objects d !! a = Some t → table_reads t t' → reads true d (with_objects (<[a := t']> (objects d)) d).
Proof.
  intros Ht R [W1 W2 W3]. split; [|split; [|done]]; split; try done; cbn [with_objects objects].
  - intros name b Hb. destruct (W1 _ _ Hb). split; [|done].
    destruct (decide (a = b)) as [<-|Hne]; [by rewrite lookup_insert_eq|by rewrite lookup_insert_ne].
  - intros name b u _ Hu. destruct (decide (a = b)) as [<-|Hne].
    + rewrite lookup_insert_eq. exists t'. split; [done|]. rewrite Ht in Hu. by injection Hu as <-.
    + rewrite lookup_insert_ne by done. exists u. split; [done|reflexivity].
Qed.
Lemma moves_on_table {A} a (m : ST (Table H SelectStatement) A) : moves (always table_reads) m → moves reads (on_table a m).
Proof.
  intros Hm d. unfold on_table. destruct (objects d !! a) as [t|] eqn:Ht; [|apply steps_refl].
  pose proof (Hm t) as R. destruct (m t) as [t' r]. by eapply reads_any, reads_object.
Qed.
Lemma moves_apart f : apart f → moves reads (st_modify f).
Proof. intros Hf. apply moves_modify, reads_apart, Hf. Qed.

(** *** Evaluations *)

Definition eval_reads (returned : bool) (s s' : St Db) : Prop := reads returned (eval_database s) (eval_database s').
#[export] Instance eval_reads_steps : Steps eval_reads.
Proof. split; unfold eval_reads; [intros; apply steps_refl|intros b s1 s2 s3; apply steps_trans]. Qed.
Definition eval_moves A (m : ST (St Db) A) : Prop := moves eval_reads m.

Lemma reads_frames fs d : reads false d (with_correlation_context fs d).
Proof. intros [W1 W2 W3]. split; [done|]. split; [|done]. split; try done. intros. eexists. split; [eassumption|reflexivity]. Qed.
Lemma eval_frames fs e (w : Db) fs' e' : reads false (eval_database (mkSt fs e w)) (eval_database (mkSt fs' e' w)).
Proof. change (eval_database (mkSt fs' e' w)) with (with_correlation_context fs' (eval_database (mkSt fs e w))). apply reads_frames. Qed.
Lemma reads_false d1 d2 d3 b : reads false d1 d2 → reads b d2 d3 → reads false d1 d3.
Proof.
  intros H12 H23 W. destruct (H12 W) as (W2 & S2 & _). destruct (H23 W2) as (W3 & S3 & _).
  split; [done|]. split; [by eapply same_trans|done].
Qed.

(** The frame pushed for a subquery is popped again when it returns. *)
Lemma eval_moves_with_frame {Q A} (ev : Evaluator Q Db) row (m : ST (St Db) A) :
  moves eval_reads m → moves eval_reads (with_frame ev row m).
Proof.
  intros Hm s. unfold with_frame. destruct (correlation ev); [|apply Hm].
  rewrite ST_bind_eq. cbn [set_frames st_modify]. rewrite ST_bind_eq.
  set (s0 := mkSt _ _ _). pose proof (Hm s0) as Hr. unfold eval_reads in *.
  assert (reads false (eval_database s) (eval_database s0)) as Hpush by (destruct s; apply eval_frames).
  destruct (m s0) as [s1 [a| |]] eqn:E; cbn [returns fst snd] in *; [|by eapply reads_false..].
  intros W. destruct (Hpush W) as (W0 & S0 & _). destruct (Hr W0) as (W1 & S1 & F1). specialize (F1 eq_refl). cbn in F1.
  destruct s1 as [fs1 e1 w1]. cbn [frames err_msg world] in *.
  destruct (eval_frames fs1 e1 w1 (popFrame fs1) e1 W1) as (W2 & S2 & _).
  split; [exact W2|]. split; [eapply same_trans; [exact S0|]; eapply same_trans; [exact S1|exact S2]|]. intros _. cbn. rewrite F1. apply pop_push.
Qed.
Lemma eval_moves_error b msg : moves eval_reads (set_error b msg).
Proof. intros s. unfold eval_reads, set_error. destruct b, s; cbn; apply steps_refl. Qed.
Lemma eval_moves_respected {Q} : respected (Q := Q) eval_moves.
Proof.
  split; intros; [apply moves_ret, _|apply moves_lift, _|apply moves_get, _|apply eval_moves_error| |by apply eval_moves_with_frame].
  apply moves_bind; [apply _|done..].
Qed.

Lemma frames_self d : with_correlation_context (correlation_context_ d) d = d.
Proof. by destruct d. Qed.
Lemma moves_evaluating {A} (m : ST (St Db) A) : moves eval_reads m → moves reads (evaluating m).
Proof.
  intros Hm d. unfold evaluating. pose proof (Hm (eval_state d)) as Hr. unfold eval_reads in Hr.
  unfold eval_database at 1 in Hr. cbn [eval_state frames world] in Hr. rewrite frames_self in Hr.
  destruct (m (eval_state d)) as [s [a| |]]; exact Hr.
Qed.
Lemma moves_on_eval {A} (m : ST (St Db) A) : moves eval_reads m → moves reads (on_eval m).
Proof. intros Hm. apply moves_bind; [apply _|by apply moves_evaluating|]. intros. apply moves_ret, _. Qed.
End reads.
#[export] Hint Resolve moves_on_table moves_evaluating moves_on_eval moves_apart apart_statistics apart_ephemeral_id
  eval_moves_respected : moves.

Lemma sm_set_elem {A} k (a : A) m k' a' : (k', a') ∈ sm_set k a m → (k' = k ∧ a' = a) ∨ (k', a') ∈ m.
Proof.
  induction m as [|[k1 a1] m IH]; cbn [sm_set].
  - intros [= -> ->]%list_elem_of_singleton. by left.
  - repeat case_match; rewrite ?elem_of_cons; intros Hin; destruct Hin as [[= -> ->]|Hin]; try by left.
    all: try (rewrite elem_of_cons in Hin); naive_solver.
Qed.

Section temporary.
Context {H : Type} {RH : RowHeap H} {RS : RowHeapSpec H}.
Abbreviation Db := (Db H).
Implicit Types d : Db.

Lemma reads_free d a : a ∉ (tables_ d).*2 → reads true d (with_objects (delete a (objects d)) d).
Proof.
  intros Ha [W1 W2 W3]. split; [|split; [|done]]; split; try done; cbn [with_objects objects].
  - intros name b Hb. destruct (W1 _ _ Hb). split; [|done]. rewrite lookup_delete_ne; [done|].
    intros <-. apply Ha, list_elem_of_fmap. by exists (name, a).
  - intros name b t Hb Ht. exists t. split; [|reflexivity]. rewrite lookup_delete_ne; [done|].
    intros <-. apply Ha, list_elem_of_fmap. by exists (name, a).
Qed.
Lemma iter_free (l : smap Z) : ∀ d, (∀ e, e ∈ l → e.2 ∉ (tables_ d).*2) →
  ∃ m, st_iter (λ e, free e.2) l d = (with_objects m d, Ok tt) ∧ reads true d (with_objects m d).
Proof.
  induction l as [|e l IH]; intros d Hl.
  - exists (objects d). assert (with_objects (objects d) d = d) as -> by by destruct d. split; [done|apply steps_refl].
  - unfold st_iter in *. cbn [st_fold]. rewrite ST_bind_eq. cbn [free st_modify].
    destruct (IH (with_objects (delete e.2 (objects d)) d)) as (m & E & Hm).
    { intros e' He'. cbn [with_objects tables_]. apply Hl. by right. }
    exists m. rewrite E. split; [done|]. eapply steps_trans; [apply reads_free, Hl; left|exact Hm].
Qed.
Lemma wf_without_ephemeral d : wf d → wf (with_ephemeral_tables [] d) ∧ same d (with_ephemeral_tables [] d).
Proof.
  intros [W1 W2 W3]. split; split; try done.
  - cbn [with_ephemeral_tables ephemeral_tables_]. intros ?? []%not_elem_of_nil.
  - intros name a t _ Ht. exists t. split; [done|reflexivity].
Qed.
Lemma clear_temporaries_ok d : wf d → ∃ d', clear_ephemeral_tables d = (d', Ok tt) ∧ wf d' ∧ same d d' ∧
  correlation_context_ d' = correlation_context_ d ∧ ephemeral_tables_ d' = [].
Proof.
  intros W. unfold clear_ephemeral_tables. rewrite ST_bind_eq. cbn [st_get].
  destruct (iter_free (ephemeral_tables_ d) d) as (m & E & Hm).
  { intros [name a] He. by destruct (wf_ephemeral _ W name a He). }
  rewrite ST_bind_eq, E. destruct (Hm W) as (W' & S' & _). destruct (wf_without_ephemeral _ W') as [W'' S''].
  eexists. split; [reflexivity|]. split; [exact W''|]. split; [by eapply same_trans|done].
Qed.

(** A table that was just made becomes a temporary one. *)
Lemma reads_ephemeral d name (a : Z) : a < next_address d → a ∉ (tables_ d).*2 →
  reads true d (with_ephemeral_tables (sm_set name a (ephemeral_tables_ d)) d).
Proof.
  intros Ha Hn [W1 W2 W3]. split; [|split; [|done]]; split; try done.
  - cbn [with_ephemeral_tables ephemeral_tables_ next_address tables_]. intros n b Hb.
    apply sm_set_elem in Hb as [[-> ->]|Hb]; [done|by eapply W2].
  - intros n b t _ Ht. exists t. split; [done|reflexivity].
Qed.
Lemma fresh_address d : wf d → next_address d ∉ (tables_ d).*2.
Proof.
  intros W ([name a] & E & He)%list_elem_of_fmap. cbn in E. subst a. destruct (wf_tables _ W _ _ He). lia.
Qed.
Lemma reads_allocate d t : reads true d (with_next_address (next_address d + 1) (with_objects (<[next_address d := t]> (objects d)) d)).
Proof.
  intros W. pose proof (fresh_address d W) as Hf. destruct W as [W1 W2 W3].
  assert (∀ name b, (name, b) ∈ tables_ d → <[next_address d:=t]> (objects d) !! b = objects d !! b) as Hkeep.
  { intros name b Hb. rewrite lookup_insert_ne; [done|]. intros <-. apply Hf, list_elem_of_fmap. by exists (name, next_address d). }
  split; [|split; [|done]]; split; try done; cbn [with_next_address with_objects objects next_address tables_ ephemeral_tables_].
  - intros name b Hb. destruct (W1 _ _ Hb). rewrite (Hkeep _ _ Hb). split; [done|lia].
  - intros name b Hb. destruct (W2 _ _ Hb). split; [lia|done].
  - intros name b u Hb Hu. rewrite (Hkeep _ _ Hb). exists u. split; [done|reflexivity].
Qed.
Lemma moves_register {A} name t (x : A) :
  moves reads (a ← allocate t; register_ephemeral_table name a;; mret x).
Proof.
  intros d W. rewrite ST_bind_eq. cbn [allocate]. cbv zeta.
  pose proof (fresh_address d W) as Hf. pose proof (reads_allocate d t W) as (W1 & S1 & F1).
  set (d1 := with_next_address _ _) in *. assert (next_address d < next_address d1) as Hlt by (subst d1; cbn; lia).
  assert (next_address d ∉ (tables_ d1).*2) as Hn by done. clearbody d1. revert Hlt Hn. generalize (next_address d). intros a Hlt Hn.
  rewrite !ST_bind_eq. unfold register_ephemeral_table. rewrite ST_bind_eq. cbn [st_get].
  assert (∃ d2, (match sm_find name (ephemeral_tables_ d1) with Some old => free old | None => mret tt end) d1 = (d2, Ok tt) ∧
     reads true d1 d2 ∧ tables_ d2 = tables_ d1 ∧ next_address d2 = next_address d1) as (d2 & E2 & R2 & T2 & N2).
  { destruct (sm_find name (ephemeral_tables_ d1)) as [old|] eqn:Ho.
    - eexists. split; [reflexivity|]. split; [|done]. apply reads_free.
      by destruct (wf_ephemeral _ W1 _ _ (sm_find_elem _ _ _ Ho)).
    - exists d1. split; [done|]. split; [apply steps_refl|done]. }
  rewrite ST_bind_eq, E2. cbn [st_modify mret ST_ret fst snd].
  assert (reads true d1 (with_ephemeral_tables (sm_set name a (ephemeral_tables_ d2)) d2)) as R3.
  { eapply steps_trans; [exact R2|]. apply reads_ephemeral; [by rewrite N2|by rewrite T2]. }
  destruct (R3 W1) as (W3 & S3 & F3). split; [done|]. split; [by eapply same_trans|]. intros _. rewrite F3 by done. by apply F1.
Qed.
End temporary.

(** ** Queries *)

Section queries.
Context {H : Type} {RH : RowHeap H} {RS : RowHeapSpec H}.
Context (SH : StdHash) (udf_depth : nat) (new_heap : H) (today : string).
Abbreviation Db := (Db H).
Implicit Types d : Db.

Lemma moves_bindr {A B} (m : ST Db (returned A)) (f : A → ST Db (returned B)) :
  moves reads m → (∀ a, moves reads (f a)) → moves reads (bindr m f).
Proof. intros Hm Hf. unfold bindr. moves. Qed.
Lemma moves_mapr {A B} (f : A → ST Db (returned B)) l : (∀ a, moves reads (f a)) → moves reads (mapr f l).
Proof.
  intros Hf. induction l as [|x l IH]; cbn [mapr]; [moves|].
  apply moves_bindr; [apply Hf|]. intros y. apply moves_bindr; [exact IH|]. moves.
Qed.
Lemma moves_deref a : moves reads (deref (H := H) a).
Proof. unfold deref. apply moves_on_table. moves. Qed.
Lemma moves_fail {A} msg : moves reads (fail_with (H := H) (A := A) msg).
Proof. unfold fail_with. moves. Qed.
#[local] Hint Resolve moves_deref moves_fail : moves.

Ltac query_step :=
  first [ progress intros
        | solve [eauto 3 with moves typeclass_instances]
        | apply moves_bindr | apply moves_mapr
        | apply moves_on_table; solve [moves]
        | apply moves_evaluating | apply moves_on_eval
        | moves_step ].
Ltac query := repeat query_step.

Lemma moves_visible a : moves reads (visible_rows (H := H) a).
Proof. unfold visible_rows. query. Qed.
#[local] Hint Resolve moves_visible : moves.
Lemma moves_relation a w : moves reads (loadVisibleRowsForRelation (H := H) a w).
Proof. unfold loadVisibleRowsForRelation. query. Qed.
#[local] Hint Resolve moves_relation : moves.

(** Evaluators whose callbacks only read. *)
Definition reading (ev : Evaluator SelectStatement Db) : Prop := callbacks_respect eval_moves ev.
Lemma moves_expression ev row b e : reading ev → moves eval_reads (evaluate_expression udf_depth ev row b e).
Proof. apply (respects_expression eval_moves), eval_moves_respected. Qed.
Lemma moves_condition ev row c : reading ev → moves eval_reads (evaluate_condition udf_depth ev row c).
Proof. apply (respects_condition eval_moves), eval_moves_respected. Qed.
#[local] Hint Resolve moves_expression moves_condition : moves.
Lemma moves_group_map ev vals row e : reading ev → moves eval_reads (evaluate_with_aggregate_map udf_depth ev vals row e).
Proof.
  intros Hev. induction e as [v|n|t c|i|l op r IHl IHr|op e IHe|n args w IHa|e t IHe|ps els|l vs nt IHl IHv|l q nt IHl|q nt|q]
    using expr_nested_ind; cbn [evaluate_with_aggregate_map]; unfold row_value; try solve [query].
  assert (moves eval_reads (st_map (evaluate_with_aggregate_map udf_depth ev vals row) args)) as Hargs; [|query].
  clear -IHa. induction IHa as [|x l Hx _ IH]; cbn [st_map]; [apply moves_ret, _|].
  apply (moves_bind eval_reads); [exact Hx|]. intros v. apply (moves_bind eval_reads); [exact IH|]. intros. apply moves_ret, _.
Qed.
#[local] Hint Resolve moves_group_map : moves.
Lemma moves_group_apply ev stmt rows : reading ev → moves eval_reads (group_apply udf_depth ev stmt rows).
Proof.
  intros Hev. unfold group_apply, build_groups, add_to_groups, accumulate_row, emit_group, having_true, group_column,
    select_non_aggregate_value, row_value. query.
Qed.
#[local] Hint Resolve moves_group_apply : moves.
Lemma moves_project ev cols rows : reading ev → moves reads (project_rows (H := H) udf_depth ev cols rows).
Proof. intros Hev. unfold project_rows, project_column. query. Qed.
#[local] Hint Resolve moves_project : moves.
Lemma moves_select_rows stmt ev cols rows : reading ev → moves reads (select_rows (H := H) udf_depth stmt ev cols rows).
Proof. intros Hev. unfold select_rows. query. Qed.
#[local] Hint Resolve moves_select_rows : moves.
Lemma moves_refresh a : moves reads (refresh_statistics (H := H) SH a).
Proof. unfold refresh_statistics. query. Qed.
#[local] Hint Resolve moves_refresh : moves.
Lemma moves_ensure name : moves reads (ensureTableStatistics (H := H) SH name).
Proof. unfold ensureTableStatistics. query. Qed.
#[local] Hint Resolve moves_ensure : moves.

Context (run_select : SelectStatement → ST Db QueryResult) (Hrun : ∀ s, moves reads (run_select s)).

(** The callbacks the executors bind run queries on the database. *)
Lemma moves_subquery q : moves eval_reads (on_frames (run_subquery run_select q)).
Proof.
  intros s. unfold on_frames, run_subquery, eval_reads. cbn [fst snd]. pose proof (Hrun q (eval_database s)) as Hr.
  change (with_correlation_context (frames s) (world s)) with (eval_database s).
  destruct (run_select q (eval_database s)) as [d r]. cbn [fst snd] in *. unfold eval_database at 2.
  cbn [frames world]. by rewrite frames_self.
Qed.
Lemma on_frames_bind {A B} (m : ST (list Frame * Db) A) (g : A → B) s :
  on_frames (a ← m; mret (g a)) s = (a ← on_frames m; mret (g a)) s.
Proof. unfold on_frames. rewrite !ST_bind_eq. by destruct (m (frames s, world s)) as [[fs w] [a| |]]. Qed.
Lemma moves_callback {B} q (g : QueryResult → B) : moves eval_reads (on_frames (r ← run_subquery run_select q; mret (g r))).
Proof.
  intros s. rewrite on_frames_bind. apply (moves_bind eval_reads); [apply moves_subquery|]. intros. apply moves_ret, _.
Qed.
Lemma context_reading ev d : reading (bind_evaluator ev (Some (context run_select d))).
Proof.
  split_and!; [|by intros ???? [= <-]; apply moves_callback|by intros ?? [= <-]; apply moves_callback].
  intros f b q [= <-]. unfold evaluate_scalar_subquery. apply (moves_bind eval_reads); [apply moves_subquery|]. intros r. query.
  all: apply eval_moves_error.
Qed.
Lemma plain_reading bs : reading (plain_evaluator today bs).
Proof. by split_and!. Qed.
#[local] Hint Resolve context_reading plain_reading : moves.

Lemma moves_scan_relation a alias w ev : reading ev → moves reads (scan_relation udf_depth run_select a alias w ev).
Proof.
  intros Hev. unfold scan_relation, filter_rows_with_index, filter_rows, matches, visible_indices.
  cbn [scan_table scan_eval scanning]. query.
Qed.
#[local] Hint Resolve moves_scan_relation : moves.
Lemma moves_SelectExecutor stmt a : moves reads (execute_SelectExecutor udf_depth run_select stmt a).
Proof. unfold execute_SelectExecutor, finish_result, rejecting. query. Qed.

Lemma moves_inner on cur rights : (∀ r, moves reads (on r)) → moves reads (inner_loop (H := H) on cur rights).
Proof. intros Hon. unfold inner_loop, matching_pairs. query. Qed.
Lemma moves_left on rw cur rights : (∀ r, moves reads (on r)) → moves reads (left_loop (H := H) on rw cur rights).
Proof. intros Hon. unfold left_loop, matching_pairs. query. Qed.
Lemma moves_right on lw cur rights : (∀ r, moves reads (on r)) → moves reads (right_loop (H := H) on lw cur rights).
Proof. intros Hon. unfold right_loop. query. Qed.
Lemma moves_full on lw rw cur rights : (∀ r, moves reads (on r)) → moves reads (full_loop (H := H) on lw rw cur rights).
Proof. intros Hon. unfold full_loop, full_pair. query. Qed.
Lemma moves_indexed_inner on rhs col probe cur : (∀ r, moves reads (on r)) →
  moves reads (indexed_inner_loop (H := H) on rhs col probe cur).
Proof. intros Hon. unfold indexed_inner_loop, indexed_pairs. query. Qed.
Lemma moves_indexed_left on rw rhs col probe cur : (∀ r, moves reads (on r)) →
  moves reads (indexed_left_loop (H := H) on rw rhs col probe cur).
Proof. intros Hon. unfold indexed_left_loop, indexed_pairs. query. Qed.
#[local] Hint Resolve moves_inner moves_left moves_right moves_full moves_indexed_inner moves_indexed_left : moves.
Lemma moves_plan_edge lt rt la ra on l r bs : moves reads (plan_edge (H := H) SH lt rt la ra on l r bs).
Proof. unfold plan_edge. query. Qed.
#[local] Hint Resolve moves_plan_edge : moves.
Lemma moves_join_edge e jt on cur rights : moves reads (join_edge (H := H) SH udf_depth today e jt on cur rights).
Proof. unfold join_edge, indexed_column. query. Qed.
#[local] Hint Resolve moves_join_edge : moves.
Lemma moves_JoinSelectExecutor stmt : moves reads (execute_JoinSelectExecutor SH udf_depth today run_select stmt).
Proof.
  unfold execute_JoinSelectExecutor, finish_result, rejecting, join_step, join_relation, find_relation, joined_result. query.
Qed.
#[local] Hint Resolve moves_SelectExecutor moves_JoinSelectExecutor : moves.

(** Views become temporary tables. *)
Lemma moves_name view_name : moves reads (allocate_ephemeral_table_name (H := H) view_name).
Proof. unfold allocate_ephemeral_table_name. query. Qed.
#[local] Hint Resolve moves_name moves_register : moves.
Lemma moves_materialize view_name body : moves reads (materialize new_heap today run_select view_name body).
Proof. unfold materialize. query. Qed.
#[local] Hint Resolve moves_materialize : moves.
Lemma moves_expand_joins ref js : (∀ n, moves reads (ref n)) → moves reads (expand_joins (H := H) ref js).
Proof. intros Hr. induction js as [|j js IH]; cbn [expand_joins]; query. Qed.
Lemma moves_expand_tables ref stmt : (∀ n, moves reads (ref n)) → moves reads (expand_tables (H := H) ref stmt).
Proof. intros Hr. unfold expand_tables. query. by apply moves_expand_joins. Qed.
#[local] Hint Resolve moves_expand_tables : moves.
Lemma moves_expand_ref levels : ∀ visiting name, moves reads (expand_table_ref new_heap today run_select levels visiting name).
Proof. induction levels as [|levels IH]; intros visiting name; cbn [expand_table_ref]; query. Qed.
#[local] Hint Resolve moves_expand_ref : moves.

(** Between statements there are no temporary tables. *)
Definition cleared d : Prop := ephemeral_scope_depth_ d = 0 → ephemeral_tables_ d = [].

Lemma scope_clears {A} (m : ST Db A) d : moves reads m → wf d →
  reads (returns (in_ephemeral_scope m d).2) d (in_ephemeral_scope m d).1 ∧ cleared (in_ephemeral_scope m d).1.
Proof.
  intros Hm W. unfold in_ephemeral_scope. cbn [enter_ephemeral_scope st_modify].
  set (d0 := with_ephemeral_scope_depth _ d).
  assert (wf d0) as W0. { destruct W as [W1 W2 W3]. split; [exact W1|exact W2|]. subst d0. cbn. lia. }
  pose proof (Hm d0 W0) as (W1 & S1 & F1). destruct (m d0) as [d1 r]. cbn [fst snd] in W1, S1, F1.
  unfold leave_ephemeral_scope. rewrite !ST_bind_eq. cbn [st_modify st_get].
  assert (ephemeral_scope_depth_ d1 = ephemeral_scope_depth_ d + 1) as Hd1 by (destruct S1; by subst d0).
  pose proof (wf_depth _ W) as Hge.
  assert ((0 <? ephemeral_scope_depth_ d1) = true) as -> by lia.
  set (d2 := with_ephemeral_scope_depth (ephemeral_scope_depth_ d1 - 1) d1).
  assert (wf d2 ∧ same d d2) as [W2 S2].
  { split; [destruct W1; split; try done; subst d2; cbn; lia|].
    destruct S1. split; try done. subst d2. cbn. lia. }
  assert (ephemeral_scope_depth_ d2 = ephemeral_scope_depth_ d) as Hd2 by (subst d2; cbn; lia).
  cbv beta iota. rewrite !ST_bind_eq. cbn [st_get]. destruct (ephemeral_scope_depth_ d2 =? 0) eqn:E0.
  - destruct (clear_temporaries_ok d2 W2) as (d3 & E & W3 & S3 & F3 & He). rewrite E. cbn [fst snd].
    split; [|by intros _]. intros _. split; [done|]. split; [by eapply same_trans|].
    intros Hr. rewrite F3. by apply F1.
  - cbn [mret ST_ret fst snd]. split; [done|]. unfold cleared. lia.
Qed.

Lemma select_scope stmt d : wf d →
  let r := select_statement SH udf_depth new_heap today run_select stmt d in
  reads (returns r.2) d r.1 ∧ (cleared d → cleared r.1).
Proof.
  intros W. unfold select_statement. case_bool_decide; [split; [apply steps_refl|done]|].
  edestruct (scope_clears (A := QueryResult)) as [R' C']; [|exact W|split; [exact R'|done]].
  unfold expand. query.
Qed.
End queries.

Section nested.
Context {H : Type} {RH : RowHeap H} {RS : RowHeapSpec H}.
Context (SH : StdHash) (udf_depth : nat) (new_heap : H) (today : string).
Abbreviation Db := (Db H).

Lemma moves_execute_select fuel : ∀ stmt, moves reads (execute_select_statement (H := H) SH udf_depth new_heap today fuel stmt).
Proof.
  induction fuel as [|fuel IH]; intros stmt; cbn [execute_select_statement]; [moves|].
  intros d W. by destruct (select_scope SH udf_depth new_heap today _ IH stmt d W) as [Hr _]; apply Hr.
Qed.

(** C21. The frame pushed for a subquery is popped again: an expression or a condition that
    an executor evaluates with the callbacks of the database, and that has a value, leaves
    the correlation frames of the database as it found them, through all nesting of
    subqueries, views and functions.  (If it throws, frames stay behind:
    [throwing_subquery_leaks_frame].) *)
Theorem evaluation_balances_frames query_fuel ev row has_err e c (d : Db) :
  wf d → let bound := bind_evaluator ev (Some (context (execute_select_statement SH udf_depth new_heap today query_fuel) d)) in
  (∀ d' v, evaluating (evaluate_expression udf_depth bound row has_err e) d = (d', Ok v) →
     correlation_context_ d' = correlation_context_ d) ∧
  (∀ d' b, on_eval (evaluate_condition udf_depth bound row c) d = (d', Ok b) →
     correlation_context_ d' = correlation_context_ d).
Proof.
  intros W bound.
  assert (reading bound) as Hev by (apply context_reading, moves_execute_select).
  split; intros d' x E.
  - pose proof (moves_evaluating _ (moves_expression udf_depth bound row has_err e Hev) d W) as (_ & _ & F).
    rewrite E in F. by apply F.
  - pose proof (moves_on_eval _ (moves_condition udf_depth bound row c Hev) d W) as (_ & _ & F).
    rewrite E in F. by apply F.
Qed.
End nested.
