(* ===== verification/Dml.v ===== *)
(** * INSERT, UPDATE and DELETE

    The DML executors of src/executor/query_executor.cc and, for partitioned tables, of
    src/core/database.cc; the foreign keys they check and the referential actions they
    take (database.cc); the row triggers they fire (src/executor/trigger_executor.cc) and
    procedure calls (src/executor/procedure_executor.cc).

    The statements of trigger and procedure bodies go through [dispatch].  Loops over the
    tables of the database run over the tables there were when the loop began. *)

From Stdlib Require Import ZArith Lia.
From stdpp Require Import sorting.
From S2P Require Import Prelude CppNum Values Rows Page PageStore BufferPool HeapFile RowHeap IndexKey BTree Transactions LockManager Expr Evaluator Partition Table TableSpec TableMaint TableProps Operators Lexer Ast Parser SelectAnalysis Grouping Windows Planner Scan FileSystem Auth Sessions Catalogs DbState Queries.
Import Table.

Section dml.
Context {H : Type} {RH : RowHeap H} (udf_depth : nat).
Abbreviation DTable := (Table H SelectStatement).
Abbreviation Db := (Db H).
Context (run_select : SelectStatement → ST Db QueryResult).
Context (dispatch : ParsedStatement → ST Db QueryResult).

(** ** Keys of parents and children *)

(** The values of columns; [None] when one is missing or NULL. *)
Fixpoint key_values (t : DTable) (row : Row) (cols : list string) : res (option (list value)) :=
  match cols with
  | [] => Ok (Some [])
  | c :: cols =>
      match get_column_index t c with
      | None => Ok None
      | Some i =>
          v ← get_value row i;
          if is_null v then Ok None
          else rest ← key_values t row cols; Ok (option_map (cons v) rest)
      end
  end.

(** Are the values of the columns [indices] the ones given? *)
Definition row_has_key (indices : list nat) (values : list value) (row : Row) : res bool :=
  res_fold (λ (b : bool) iv, if b then v ← get_value row iv.1; Ok (value_eq v iv.2) else Ok false) true (zip indices values).
(** The rows are looked at one by one, whatever their versions. *)
Definition has_row_with_key (cols : list string) (values : list value) : ST DTable bool :=
  t ← st_get;
  match mapM (get_column_index t) cols with
  | None => mret false
  | Some indices =>
      st_any (λ i, row ← get_row i; st_lift (row_has_key indices values row)) (positions t)
  end.
Definition rows_with_key (cols : list string) (values : list value) : ST DTable (list nat) :=
  t ← st_get;
  match mapM (get_column_index t) cols with
  | None => mret []
  | Some indices =>
      st_filter (λ i, row ← get_row i; st_lift (row_has_key indices values row)) (positions t)
  end.

Definition parent_has_key (parent_table : string) (cols : list string) (values : list value) : ST Db bool :=
  d ← st_get;
  match sm_find parent_table (tables_ d) with
  | None => mret false
  | Some a =>
      if negb (length cols =? length values)%nat || bool_decide (length cols = 0%nat) then mret false
      else on_table a (
        t ← st_get;
        match cols, values with
        | [c], [v] =>
            if has_index t c then ids ← find_rows_by_value c v; mret (negb (bool_decide (ids = [])))
            else has_row_with_key cols values
        | _, _ =>
            match list_find (λ e : string * list string, e.2 = cols) (secondary_indexes t) with
            | Some (_, e) => ids ← find_rows_by_index_key e.1 values; mret (negb (bool_decide (ids = [])))
            | None => has_row_with_key cols values
            end
        end)
  end.

Definition find_child_row_indices (child_table : string) (cols : list string) (values : list value) : ST Db (list nat) :=
  d ← st_get;
  match sm_find child_table (tables_ d) with
  | None => mret []
  | Some a =>
      if negb (length cols =? length values)%nat || bool_decide (length cols = 0%nat) then mret []
      else on_table a (
        t ← st_get;
        match cols, values with
        | [c], [v] =>
            if has_index t c then ids ← find_rows_by_value c v; mret (Z.to_nat <$> ids)
            else rows_with_key cols values
        | _, _ => rows_with_key cols values
        end)
  end.

Definition validate_foreign_keys_on_insert (t : DTable) (row : Row) : ST Db unit :=
  st_iter (λ fk,
    values ← st_lift (key_values t row (fk_child_columns fk));
    match values with
    | None => mret tt
    | Some values =>
        found ← parent_has_key (fk_parent_table fk) (fk_parent_columns fk) values;
        if (found : bool) then mret tt
        else st_throw (ConstraintException ("FOREIGN KEY violation on columns of table '" +:+ table_name t +:+ "'"))
    end) (foreign_keys t).

(** ** Triggers *)

Definition MAX_TRIGGER_DEPTH : Z := 16.
Definition buildRowBindings (t : DTable) (alias : string) : list SelectColumnBinding :=
  (λ c, mkBinding alias (table_name t) (col_name c)) <$> columns t.
Definition push_frame (bs : list SelectColumnBinding) (row : Row) : ST Db unit :=
  st_modify (λ d, with_correlation_context (pushFrame (correlation_context_ d) bs row) d).
Definition pop_frame : ST Db unit := st_modify (λ d, with_correlation_context (popFrame (correlation_context_ d)) d).
Fixpoint pop_frames (n : nat) : ST Db unit :=
  match n with O => mret tt | S n => pop_frame;; pop_frames n end.

(** The evaluator of SET NEW, which sees no bind parameters. *)
Definition set_new_evaluator (t : DTable) (d : Db) : Evaluator SelectStatement Db :=
  mkEvaluator (Q := SelectStatement) (buildRowBindings t (table_name t))
    (Some (evaluate_scalar_subquery run_select)) (Some (evaluate_in_subquery run_select))
    (Some (evaluate_exists_subquery run_select)) true None (Some (evaluator_functions (catalogs_ d)))
    (default ∅ (active_local_variables_ d)) (clock t).

(** One statement of a trigger body: the new row, or the result that ends the body. *)
Definition trigger_statement (a : Z) (allow_set_new : bool) (frames_pushed : nat) (new_row : option Row)
    (stmt : ParsedStatement) : ST Db (option Row + QueryResult) :=
  match stmt with
  | SSetNew column v =>
      match new_row with
      | Some row =>
          if negb allow_set_new then
            pop_frames frames_pushed;; mret (inr (error_result "SET NEW is only valid in BEFORE INSERT/UPDATE triggers"))
          else
            t ← deref a;
            match get_column_index t column with
            | None => pop_frames frames_pushed;; mret (inr (error_result ("Unknown column '" +:+ column +:+ "' in SET NEW")))
            | Some i =>
                d ← st_get;
                r ← evaluating (evaluate_expression udf_depth (set_new_evaluator t d) row true v);
                if negb (bool_decide (r.2 = ""%string)) then pop_frames frames_pushed;; mret (inr (error_result r.2))
                else
                  row ← st_lift (set_value row i r.1);
                  pop_frame;;
                  push_frame (buildRowBindings t "NEW") row;;
                  mret (inl (Some row))
            end
      | None => pop_frames frames_pushed;; mret (inr (error_result "SET NEW is only valid in BEFORE INSERT/UPDATE triggers"))
      end
  | _ =>
      step ← dispatch stmt;
      if negb (success step) then pop_frames frames_pushed;; mret (inr step) else mret (inl new_row)
  end.
(** Routines run from the catalog's own object: one that was dropped is dangling. *)
Definition still_there {A} (name : string) (m : Catalogs → smap A) : ST Db unit :=
  d ← st_get;
  if sm_has name (m (catalogs_ d)) then mret tt else st_lift UB.

Fixpoint trigger_statements (name : string) (a : Z) (allow_set_new : bool) (frames_pushed : nat) (new_row : option Row)
    (sqls : list string) : ST Db (option Row * QueryResult) :=
  match sqls with
  | [] => pop_frames frames_pushed;; mret (new_row, success_result "OK")
  | sql :: sqls =>
      still_there name Catalogs.triggers;;
      stmt ← st_lift (parse_text sql);
      r ← trigger_statement a allow_set_new frames_pushed new_row stmt;
      match r with
      | inl new_row => trigger_statements name a allow_set_new frames_pushed new_row sqls
      | inr q => mret (new_row, q)
      end
  end.
Definition runTriggerBody (trigger : TriggerDefinition) (old_row new_row : option Row) (a : Z) (allow_set_new : bool)
    : ST Db (option Row * QueryResult) :=
  (match old_row with Some row => t ← deref a; push_frame (buildRowBindings t "OLD") row | None => mret tt end);;
  (match new_row with Some row => t ← deref a; push_frame (buildRowBindings t "NEW") row | None => mret tt end);;
  let frames_pushed := (length (option_list old_row) + length (option_list new_row))%nat in
  trigger_statements (td_name trigger) a allow_set_new frames_pushed new_row (td_statement_sqls trigger).

Fixpoint run_triggers (triggers : list TriggerDefinition) (old_row new_row : option Row) (a : Z) (allow_set_new : bool)
    : ST Db (option Row * QueryResult) :=
  match triggers with
  | [] => mret (new_row, success_result "OK")
  | trigger :: triggers =>
      still_there (td_name trigger) Catalogs.triggers;;
      r ← runTriggerBody trigger old_row new_row a allow_set_new;
      if negb (success r.2) then mret r else run_triggers triggers old_row r.1 a allow_set_new
  end.

(** Nothing lowers the depth again when an exception passes. *)
Definition fireTriggers (name : string) (timing : TriggerTiming) (event : TriggerEvent) (old_row new_row : option Row)
    : ST Db (option Row * QueryResult) :=
  d ← st_get;
  let triggers := listBy name timing event (catalogs_ d) in
  if bool_decide (length triggers = 0%nat) then mret (new_row, success_result "OK")
  else match get_table name d with
  | None => mret (new_row, error_result ("Table '" +:+ name +:+ "' not found"))
  | Some a =>
      if MAX_TRIGGER_DEPTH <=? Z.max (get_trigger_depth d) (local_depth d) then
        mret (new_row, error_result ("Trigger recursion depth exceeded (max " +:+ std_to_string MAX_TRIGGER_DEPTH +:+ ")"))
      else
        enter_trigger_depth;;
        st_modify (λ d, with_local_depth (local_depth d + 1) d);;
        let allow_set_new := bool_decide (timing = Before) && negb (bool_decide (event = OnDelete)) in
        r ← run_triggers triggers old_row new_row a allow_set_new;
        st_modify (λ d, with_local_depth (local_depth d - 1) d);;
        leave_trigger_depth;;
        mret r
  end.

Definition executeBeforeInsert (name : string) (new_row : Row) : ST Db (Row * QueryResult) :=
  r ← fireTriggers name Before OnInsert None (Some new_row); mret (default new_row r.1, r.2).
Definition executeAfterInsert (name : string) (new_row : Row) : ST Db QueryResult :=
  r ← fireTriggers name After OnInsert None (Some new_row); mret r.2.
Definition executeBeforeUpdate (name : string) (old_row new_row : Row) : ST Db (Row * QueryResult) :=
  r ← fireTriggers name Before OnUpdate (Some old_row) (Some new_row); mret (default new_row r.1, r.2).
Definition executeAfterUpdate (name : string) (old_row new_row : Row) : ST Db QueryResult :=
  r ← fireTriggers name After OnUpdate (Some old_row) (Some new_row); mret r.2.
Definition executeBeforeDelete (name : string) (old_row : Row) : ST Db QueryResult :=
  r ← fireTriggers name Before OnDelete (Some old_row) None; mret r.2.
Definition executeAfterDelete (name : string) (old_row : Row) : ST Db QueryResult :=
  r ← fireTriggers name After OnDelete (Some old_row) None; mret r.2.

(** ** Referential actions *)

Definition ensure_success (q : QueryResult) : ST Db unit :=
  if success q then mret tt else st_throw (InvalidOperationException (message q)).

(** [child_row.set_value(col, v)] for the columns the child has. *)
Definition set_columns (t : DTable) (row : Row) (cvs : list (string * value)) : res Row :=
  res_fold (λ row cv, match get_column_index t cv.1 with Some i => set_value row i cv.2 | None => Ok row end) row cvs.
(** SET NULL refuses a column that is NOT NULL. *)
Definition null_columns (t : DTable) (row : Row) (cols : list string) : res Row :=
  res_fold (λ row c,
    match get_column_index t c with
    | None => Ok row
    | Some i =>
        col ← get_column_at t i;
        if negb (col_nullable col) then
          Throw (ConstraintException ("FOREIGN KEY SET NULL failed: column '" +:+ c +:+ "' is NOT NULL"))
        else set_value row i VNull
    end) row cols.
Definition apply_set_default_on_child (a : Z) (fk : ForeignKeyDefinition) (i : nat) : ST Db unit :=
  on_table a (
    row ← get_row i;
    t ← st_get;
    row ← st_lift (res_fold (λ row c,
      match get_column_index t c with
      | None => Ok row
      | Some j =>
          col ← get_column_at t j;
          match col_default col with
          | None => Throw (ConstraintException ("FOREIGN KEY SET DEFAULT failed: column '" +:+ c +:+ "' has no DEFAULT"))
          | Some v => set_value row j v
          end
      end) row (fk_child_columns fk));
    update_row i row).

(** A child row is changed between its triggers; not as a version, also in a transaction. *)
Definition update_child (a : Z) (child_name : string) (change : DTable → Row → res Row) (i : nat) : ST Db unit :=
  old_child ← on_table a (get_row i);
  t ← deref a;
  child_row ← st_lift (change t old_child);
  before ← executeBeforeUpdate child_name old_child child_row;
  ensure_success before.2;;
  on_table a (update_row i before.1);;
  after ← executeAfterUpdate child_name old_child before.1;
  ensure_success after.

Definition sort_down : list nat → list nat := λ l, rev (merge_sort Nat.le l).

(** The foreign keys that lead to a table: the child, its address and the key. *)
Definition children_of (parent_name : string) : ST Db (list (string * Z * ForeignKeyDefinition)) :=
  d ← st_get;
  found ← st_map (λ e : string * Z,
    if bool_decide (e.1 = parent_name) then mret []
    else t ← deref e.2; mret ((λ fk, (e, fk)) <$> filter (λ fk, fk_parent_table fk = parent_name) (foreign_keys t))) (tables_ d);
  mret (mjoin found).

Definition cascade_cycle : exn := ConstraintException "FOREIGN KEY CASCADE cycle detected".
(** [levels] bounds the recursion, which never visits a table twice. *)
Fixpoint apply_referential_delete (levels : nat) (visiting : list string) (parent_name : string) (parent_row : Row)
    : ST Db unit :=
  match levels with
  | O => λ d, (d, UB)
  | S levels =>
      if bool_decide (parent_name ∈ visiting) then st_throw cascade_cycle
      else
        let visiting := parent_name :: visiting in
        d ← st_get;
        match get_table parent_name d with
        | None => mret tt
        | Some parent =>
            fks ← children_of parent_name;
            st_iter (λ '(child_name, a, fk),
              t ← deref parent;
              values ← st_lift (key_values t parent_row (fk_parent_columns fk));
              match values with
              | None => mret tt
              | Some values =>
                  ids ← find_child_row_indices child_name (fk_child_columns fk) values;
                  if bool_decide (length ids = 0%nat) then mret tt
                  else match fk_on_delete fk with
                  | Restrict => st_throw (ConstraintException "FOREIGN KEY RESTRICT: cannot delete referenced key")
                  | SetNull => st_iter (update_child a child_name (λ t row, null_columns t row (fk_child_columns fk))) ids
                  | SetDefault => st_iter (apply_set_default_on_child a fk) ids
                  | Cascade =>
                      st_iter (λ i,
                        t ← deref a;
                        if (get_row_count t <=? i)%nat then mret tt
                        else
                          child_row ← on_table a (get_row i);
                          apply_referential_delete levels visiting child_name child_row;;
                          before ← executeBeforeDelete child_name child_row;
                          ensure_success before;;
                          on_table a (delete_row i);;
                          after ← executeAfterDelete child_name child_row;
                          ensure_success after) (sort_down ids)
                  end
              end) fks
        end
  end.

(** The old and new values of the key of a parent; [None] when it is the same or has a NULL. *)
Fixpoint changed_key (t : DTable) (old_row new_row : Row) (cols : list string) : res (option (list value * list value * bool)) :=
  match cols with
  | [] => Ok (Some ([], [], true))
  | c :: cols =>
      match get_column_index t c with
      | None => Ok None
      | Some i =>
          o ← get_value old_row i;
          n ← get_value new_row i;
          if is_null o then Ok None
          else
            rest ← changed_key t old_row new_row cols;
            Ok (match rest with
                | None => None
                | Some (os, ns, unchanged) => Some (o :: os, n :: ns, value_eq o n && unchanged)
                end)
      end
  end.
Definition apply_referential_update (parent_name : string) (old_row new_row : Row) : ST Db unit :=
  d ← st_get;
  match get_table parent_name d with
  | None => mret tt
  | Some parent =>
      fks ← children_of parent_name;
      st_iter (λ '(child_name, a, fk),
        t ← deref parent;
        key ← st_lift (changed_key t old_row new_row (fk_parent_columns fk));
        match key with
        | None | Some (_, _, true) => mret tt
        | Some (old_values, new_values, false) =>
            ids ← find_child_row_indices child_name (fk_child_columns fk) old_values;
            if bool_decide (length ids = 0%nat) then mret tt
            else match fk_on_update fk with
            | Restrict => st_throw (ConstraintException "FOREIGN KEY RESTRICT: cannot update referenced key")
            | SetNull => st_iter (update_child a child_name (λ t row, null_columns t row (fk_child_columns fk))) ids
            | SetDefault => st_iter (apply_set_default_on_child a fk) ids
            | Cascade =>
                st_iter (update_child a child_name (λ t row, set_columns t row (zip (fk_child_columns fk) new_values))) ids
            end
        end) fks
  end.

Definition validate_foreign_keys_on_update (t : DTable) (old_row new_row : Row) : ST Db unit :=
  validate_foreign_keys_on_insert t new_row;; apply_referential_update (table_name t) old_row new_row.
Definition validate_foreign_keys_on_delete (t : DTable) (row : Row) : ST Db unit :=
  d ← st_get;
  apply_referential_delete (2 + length (tables_ d)) [] (table_name t) row.

(** ** Evaluators of a statement

    They keep the bind parameters and the variables there were at the start; through the
    pointers they hold, subqueries run on the database of the moment with its routines. *)

Definition refresh (ev : Evaluator SelectStatement Db) (d : Db) : Evaluator SelectStatement Db :=
  mkEvaluator (Q := SelectStatement) (bindings ev) (Some (evaluate_scalar_subquery run_select))
    (Some (evaluate_in_subquery run_select)) (Some (evaluate_exists_subquery run_select)) (correlation ev)
    (bind_context ev) (Some (evaluator_functions (catalogs_ d))) (local_variables ev) (Evaluator.today ev).
Definition dml_evaluator (t : DTable) (d : Db) : Evaluator SelectStatement Db :=
  bind_evaluator (evaluator_for_dml_table t) (Some (context run_select d)).
Definition matching_rows (a : Z) (where_expr : option Expression) : ST Db (list nat) :=
  d ← st_get;
  collect_matching_indices (scanning a) udf_depth where_expr (Some (context run_select d)).

(** How many elements [f] counts, until one ends the statement. *)
Fixpoint countr {A} (f : A → ST Db (returned bool)) (l : list A) : ST Db (returned Z) :=
  match l with
  | [] => mret (inl 0)
  | x :: l => bindr (f x) (λ b, bindr (countr f l) (λ n, mret (inl (Z.b2z b + n))))
  end.
Definition done_rows (msg : string) (m : ST Db (returned Z)) : ST Db QueryResult :=
  finish_result (bindr m (λ n, mret (inl (mkResult true msg [] [] n)))).
Definition stopping {A} (q : QueryResult) (m : ST Db (returned A)) : ST Db (returned A) :=
  if success q then m else mret (inr q).
Definition reporting {A} (prefix : string) (m : ST Db (returned A)) : ST Db (returned A) :=
  st_catch m (λ e, mret (inr (error_result (prefix +:+ what e)))).

(** ** INSERT *)

Definition evaluate_values (ev : Evaluator SelectStatement Db) (es : list Expression) : ST Db (returned (list value)) :=
  mapr (λ e,
    d ← st_get;
    r ← evaluating (evaluate_expression udf_depth (refresh ev d) (row_of_values []) true e);
    if bool_decide (r.2 = ""%string) then mret (inl r.1) else fail_with r.2) es.

Definition column_defaults (t : DTable) : list value := (λ c, default VNull (col_default c)) <$> columns t.
Definition insert_values (t : DTable) (cols : list string) (evaluated : list value) : list value :=
  match cols with
  | [] => evaluated ++ drop (length evaluated) (column_defaults t)
  | _ => foldl (λ vs cv, match get_column_index t cv.1 with Some i => <[i := cv.2]> vs | None => vs end)
           (column_defaults t) (zip cols evaluated)
  end.

(** The table a new row goes to. *)
Definition insert_target (a : Z) (row : Row) : ST Db (returned Z) :=
  t ← deref a;
  if isPartitioned t then
    r ← resolvePartitionChild t row;
    match r with inl c => mret (inl c) | inr msg => fail_with msg end
  else mret (inl a).
Definition store_row (a : Z) (row : Row) : ST Db unit :=
  d ← st_get;
  if in_tx d then on_table a (insert_row_versioned row (get_reader_xid d)) else on_table a (insert_row row).

Definition insert_one (a : Z) (cols : list string) (ev : Evaluator SelectStatement Db) (es : list Expression)
    : ST Db (returned bool) :=
  reporting "Insert failed: " (
    bindr (evaluate_values ev es) (λ evaluated,
    t ← deref a;
    let row := row_of_values (insert_values t cols evaluated) in
    validate_foreign_keys_on_insert t row;;
    bindr (insert_target a row) (λ _,
    before ← executeBeforeInsert (table_name t) row;
    stopping before.2 (
    bindr (insert_target a before.1) (λ target,
    store_row target before.1;;
    after ← executeAfterInsert (table_name t) before.1;
    stopping after (mret (inl true))))))).

Definition execute_InsertExecutor (stmt : InsertStatement) (a : Z) : ST Db QueryResult :=
  t ← deref a;
  if bool_decide (length (ins_values stmt) = 0%nat) then mret (error_result "No values to insert")
  else
    d ← st_get;
    done_rows "INSERT OK" (countr (insert_one a (ins_columns stmt) (dml_evaluator t d)) (ins_values stmt)).

(** ** UPDATE *)

(** [evaluate_dml_assignment_rhs] has nowhere to report an error: its value is NULL. *)
Definition evaluate_dml_assignment_rhs (ev : Evaluator SelectStatement Db) (row : Row) (e : Expression) : ST Db value :=
  d ← st_get;
  on_eval (evaluate_expression udf_depth (refresh ev d) row false e).
Definition assign (t : DTable) (ev : Evaluator SelectStatement Db) (clauses : list (string * Expression)) (current : Row) : ST Db Row :=
  st_fold (λ row ce,
    match get_column_index t ce.1 with
    | None => mret row
    | Some i => v ← evaluate_dml_assignment_rhs ev current ce.2; st_lift (set_value row i v)
    end) current clauses.
Definition replace_row (a : Z) (i : nat) (row : Row) : ST Db unit :=
  d ← st_get;
  if in_tx d then on_table a (update_row_versioned i row (get_reader_xid d)) else on_table a (update_row i row).

Definition update_one (a : Z) (stmt : UpdateStatement) (ev : Evaluator SelectStatement Db) (i : nat) : ST Db (returned bool) :=
  t ← deref a;
  if (get_row_count t <=? i)%nat then mret (inl false)
  else
    current ← on_table a (get_row i);
    d ← st_get;
    b ← on_eval (evaluate_condition udf_depth (refresh ev d) current (upd_where stmt));
    if negb b then mret (inl false)
    else
      new_row ← assign t ev (upd_set_clauses stmt) current;
      reporting "Update failed: " (
        validate_foreign_keys_on_update t current new_row;;
        before ← executeBeforeUpdate (table_name t) current new_row;
        stopping before.2 (
        replace_row a i before.1;;
        after ← executeAfterUpdate (table_name t) current before.1;
        stopping after (mret (inl true)))).

Definition execute_UpdateExecutor (stmt : UpdateStatement) (a : Z) : ST Db QueryResult :=
  t ← deref a;
  d ← st_get;
  indices ← matching_rows a (upd_where stmt);
  done_rows "UPDATE OK" (countr (update_one a stmt (dml_evaluator t d)) indices).

(** ** DELETE *)

(** [in_transaction] was looked up when the statement began. *)
Definition remove_row (in_transaction : bool) (a : Z) (i : nat) : ST Db unit :=
  d ← st_get;
  if in_transaction then on_table a (delete_row_versioned i (get_reader_xid d)) else on_table a (delete_row i).
(** [owner] is the table whose triggers fire. *)
Definition delete_one (in_transaction : bool) (owner a : Z) (i : nat) : ST Db (returned bool) :=
  row ← on_table a (get_row i);
  t ← deref a;
  validate_foreign_keys_on_delete t row;;
  o ← deref owner;
  before ← executeBeforeDelete (table_name o) row;
  stopping before (
  remove_row in_transaction a i;;
  o ← deref owner;
  after ← executeAfterDelete (table_name o) row;
  stopping after (mret (inl true))).

(** [DeleteExecutor] has its own copy of the function of [UpdateExecutor]. *)
Definition delete_matching_indices (stmt : DeleteStatement) (a : Z) : ST Db (list nat) := matching_rows a (del_where stmt).
Definition execute_DeleteExecutor (stmt : DeleteStatement) (a : Z) : ST Db QueryResult :=
  indices ← delete_matching_indices stmt a;
  d ← st_get;
  done_rows "DELETE OK"
    (countr (λ i, reporting "Delete failed: " (delete_one (in_tx d) a a i)) (sort_down indices)).

(** ** Partitioned tables *)

(** The partitions a condition leaves, those that exist. *)
Definition on_partitions (parent : DTable) (where_expr : option Expression) (f : string → Z → ST Db (returned Z))
    : ST Db (returned Z) :=
  let each := fix each children :=
    match children with
    | [] => mret (inl 0)
    | child :: children =>
        d ← st_get;
        bindr (match get_table child d with Some c => f child c | None => mret (inl 0) end)
          (λ n, bindr (each children) (λ m, mret (inl (n + m))))
    end in
  each (listPrunedPartitions parent where_expr).

(** The evaluator of SET, which is given neither bind parameters nor correlation. *)
Definition partition_evaluator (child_name : string) (child : DTable) (d : Db) : Evaluator SelectStatement Db :=
  mkEvaluator (Q := SelectStatement) ((λ c, mkBinding child_name child_name (col_name c)) <$> columns child)
    (Some (evaluate_scalar_subquery run_select)) (Some (evaluate_in_subquery run_select))
    (Some (evaluate_exists_subquery run_select)) false None (Some (evaluator_functions (catalogs_ d)))
    (default ∅ (active_local_variables_ d)) (clock child).

(** A row whose key changed moves to another partition. *)
Definition move_row (child target : Z) (i : nat) (row : Row) : ST Db unit :=
  if child =? target then replace_row child i row
  else
    d ← st_get;
    remove_row (in_tx d) child i;; store_row target row.
Definition update_partition_row (parent child : Z) (clauses : list (string * Expression)) (ev : Evaluator SelectStatement Db)
    (i : nat) : ST Db (returned bool) :=
  t ← deref child;
  if (get_row_count t <=? i)%nat then mret (inl false)
  else
    current ← on_table child (get_row i);
    new_row ← assign t ev clauses current;
    reporting "Update failed: " (
      validate_foreign_keys_on_update t current new_row;;
      p ← deref parent;
      before ← executeBeforeUpdate (table_name p) current new_row;
      stopping before.2 (
      p ← deref parent;
      target ← resolvePartitionChild p before.1;
      match target with
      | inr msg => fail_with msg
      | inl target =>
          move_row child target i before.1;;
          p ← deref parent;
          after ← executeAfterUpdate (table_name p) current before.1;
          stopping after (mret (inl true))
      end)).
Definition execute_partitioned_update (stmt : UpdateStatement) (parent : Z) : ST Db QueryResult :=
  p ← deref parent;
  done_rows "UPDATE OK" (on_partitions p (upd_where stmt) (λ child_name child,
    matching ← matching_rows child (upd_where stmt);
    t ← deref child;
    d ← st_get;
    countr (update_partition_row parent child (upd_set_clauses stmt) (partition_evaluator child_name t d)) (sort_down matching))).

Definition delete_partition_row (in_transaction : bool) (parent : Z) (child_name : string) (child : Z) (i : nat)
    : ST Db (returned bool) :=
  t ← deref child;
  if (get_row_count t <=? i)%nat then mret (inl false)
  else reporting "Delete failed: " (
    bindr (delete_one in_transaction parent child i) (λ b, mark_table_dirty child_name;; mret (inl b))).
Definition execute_partitioned_delete (stmt : DeleteStatement) (parent : Z) : ST Db QueryResult :=
  p ← deref parent;
  d ← st_get;
  done_rows "DELETE OK" (on_partitions p (del_where stmt) (λ child_name child,
    matching ← matching_rows child (del_where stmt);
    countr (delete_partition_row (in_tx d) parent child_name child) (sort_down matching))).

(** ** The statements *)

Definition table_of (name : string) (f : Z → ST Db QueryResult) : ST Db QueryResult :=
  d ← st_get;
  match get_table name d with
  | None => mret (error_result ("Table '" +:+ name +:+ "' not found"))
  | Some a => f a
  end.
Definition execute_insert_statement (stmt : InsertStatement) : ST Db QueryResult :=
  table_of (ins_table stmt) (execute_InsertExecutor stmt).
Definition execute_update_statement (stmt : UpdateStatement) : ST Db QueryResult :=
  table_of (upd_table stmt) (λ a,
    t ← deref a;
    if isPartitioned t then execute_partitioned_update stmt a else execute_UpdateExecutor stmt a).
Definition execute_delete_statement (stmt : DeleteStatement) : ST Db QueryResult :=
  table_of (del_table stmt) (λ a,
    t ← deref a;
    if isPartitioned t then execute_partitioned_delete stmt a else execute_DeleteExecutor stmt a).

(** ** Procedures *)

Definition procedure_locals (params : list RoutineParameter) (arguments : list value) : gmap string value :=
  foldl (λ m nv, <[nv.1 := nv.2]> m) ∅ (zip (par_name <$> params) arguments).
Definition with_message (msg : string) (q : QueryResult) : QueryResult :=
  mkResult (success q) msg (column_names q) (Operators.rows q) (affected_rows q).
Fixpoint procedure_steps (name : string) (locals : gmap string value) (sqls : list string) (last : QueryResult)
    : ST Db QueryResult :=
  match sqls with
  | [] => mret (with_message "CALL OK" last)
  | sql :: sqls =>
      still_there name Catalogs.procedures;;
      parsed ← st_lift (parse_text sql);
      st_modify (with_active_local_variables (Some locals));;
      step ← dispatch parsed;
      st_modify (with_active_local_variables None);;
      if success step then procedure_steps name locals sqls step else mret step
  end.
Definition executeCall (procedure : ProcedureDefinition) (arguments : list value) : ST Db QueryResult :=
  if negb (length arguments =? length (pd_params procedure))%nat then
    mret (error_result ("Wrong number of arguments for procedure " +:+ pd_name procedure))
  else procedure_steps (pd_name procedure) (procedure_locals (pd_params procedure) arguments) (pd_statement_sqls procedure)
         (success_result "CALL OK").
End dml.
