(* ===== verification/Ddl.v ===== *)
(** * CREATE, ALTER and DROP

    CREATE TABLE ([CreateTableExecutor] of src/executor/query_executor.cc and the keys,
    foreign keys, checks and partitions database.cc adds), DROP TABLE and ALTER TABLE
    (src/executor/ddl_executor.cc), CREATE and DROP INDEX (database.cc), and the
    preparation of CHECK constraints (src/core/check_constraint.cc). *)

From Stdlib Require Import ZArith Lia.
From S2P Require Import Prelude CppNum Values Rows Page PageStore BufferPool HeapFile RowHeap IndexKey BTree Transactions LockManager Expr Evaluator Partition Table TableSpec TableMaint TableProps Operators Lexer Ast Parser SelectAnalysis Grouping Windows Planner Scan FileSystem Auth Sessions Catalogs TableFiles PartitionCatalog DbState Queries.
Import Table.

Section ddl.
Context {H : Type} {RH : RowHeap H}.
(** The heap of a new table, the clock, and the directory of the database. *)
Context (new_heap : H) (today storage_directory : string).
Abbreviation DTable := (Table H SelectStatement).
Abbreviation Db := (Db H).

Definition on_fs {A} (m : ST Fs A) : ST Db A := λ d,
  let '(c, r) := on_disk m (catalogs_ d) in (with_catalogs c d, r).

(** ** CHECK constraints *)

Definition check_named (t : DTable) (name : string) : bool := existsb (λ ck, bool_decide (ck_name ck = name)) (checks t).
Definition check_candidate (i : nat) : string := "ck_" +:+ std_to_string (Z.of_nat i).
(** The first name that is free; one of the first [length (checks t) + 1] is. *)
Definition allocate_check_constraint_name (t : DTable) : string :=
  match list_find (λ i, check_named t (check_candidate i) = false) (seq 1 (S (length (checks t)))) with
  | Some (_, i) => check_candidate i
  | None => ""
  end.
Definition prepare_check_constraint (t : DTable) (ck : CheckConstraintDefinition SelectStatement)
    : res (CheckConstraintDefinition SelectStatement) :=
  match ck_predicate ck with
  | None => Throw (ConstraintException "CHECK constraint requires an expression")
  | Some e =>
      if negb (is_check_expression_allowed e) then
        Throw (ConstraintException "CHECK expression must not contain subqueries or aggregates")
      else
        let text := if bool_decide (ck_text ck = ""%string) then expression_to_string e else ck_text ck in
        let name := if bool_decide (ck_name ck = ""%string) then allocate_check_constraint_name t else ck_name ck in
        match validate_inner (evaluator_for_dml_table (W := unit) t) [] e with
        | Some err => Throw (ConstraintException err)
        | None => Ok (mkCheck SelectStatement name text (Some e))
        end
  end.
Definition add_prepared_check (ck : CheckConstraintDefinition SelectStatement) : ST DTable string :=
  t ← st_get;
  ck ← st_lift (prepare_check_constraint t ck);
  add_check ck;;
  mret (ck_name ck).

(** ** CREATE TABLE *)

Definition column_of_definition (def : ColumnDefinition) : res Column :=
  type ← string_to_data_type (cd_type def);
  let nullable := negb (cd_not_null def) && negb (cd_primary_key def) in
  c ← new_Column (cd_name def) type nullable (cd_primary_key def) (cd_unique def);
  Ok (match cd_default def with Some v => col_set_default_value c v | None => c end).

Definition build_table (stmt : CreateTableStatement) : res DTable :=
  let '(t, r) :=
    st_iter (λ def, c ← st_lift (column_of_definition def); add_column c) (ct_columns stmt)
      (new_Table (ct_name stmt) new_heap today) in
  r ≫= λ _, Ok t.
Definition execute_CreateTableExecutor (stmt : CreateTableStatement) : ST Db QueryResult :=
  d ← st_get;
  if has_table (ct_name stmt) d then mret (error_result ("Table '" +:+ ct_name stmt +:+ "' already exists"))
  else st_catch
    (t ← st_lift (build_table stmt);
     a ← allocate t;
     put_table (ct_name stmt) a;;
     mret (success_result "CREATE TABLE OK"))
    (λ e, mret (error_result ("CREATE TABLE failed: " +:+ what e))).

(** Something done to the table of a name, if there is one. *)
Definition with_table (name : string) (f : Z → ST Db unit) : ST Db unit :=
  d ← st_get;
  match get_table name d with Some a => f a | None => mret tt end.

Definition register_keys_for_create (stmt : CreateTableStatement) : ST Db unit :=
  with_table (ct_name stmt) (λ a, on_table a (
    sync_key_metadata_from_column_flags;;
    (if bool_decide (length (ct_primary_key stmt) = 0%nat) then mret tt
     else
       t ← st_get;
       if negb (bool_decide (length (primary_key_columns t) = 0%nat)) then
         st_throw (ConstraintException "Multiple PRIMARY KEY definitions")
       else apply_primary_key (ct_primary_key stmt));;
    st_iter (λ uq, apply_unique_constraint (mkUnique uq.1 uq.2)) (ct_uniques stmt))).

Definition covers_columns (t : DTable) (cols : list string) : bool :=
  existsb (λ e : string * list string, bool_decide (e.2 = cols)) (secondary_indexes t).
Definition is_parent_key_supported (parent : DTable) (cols : list string) : res bool :=
  match cols with
  | [] => Ok false
  | _ =>
      if bool_decide (primary_key_columns parent = cols) then Ok true
      else if existsb (λ uq, bool_decide (uq_columns uq = cols)) (unique_constraints parent) then Ok true
      else match cols with
      | [c] =>
          match get_column_index parent c with
          | None => Ok false
          | Some i => col ← get_column_at parent i; Ok (col_primary_key col || col_unique col)
          end
      | _ => Ok (covers_columns parent cols)
      end
  end.
Definition missing_column (t : DTable) (cols : list string) : option string :=
  snd <$> list_find (λ c, get_column_index t c = None) cols.
Definition register_foreign_key (a : Z) (fk : ForeignKeyDefinition) : ST Db unit :=
  if negb (length (fk_child_columns fk) =? length (fk_parent_columns fk))%nat
     || bool_decide (length (fk_child_columns fk) = 0%nat)
  then st_throw (ConstraintException "Invalid FOREIGN KEY column lists")
  else
    d ← st_get;
    if negb (has_table (fk_parent_table fk) d) then
      st_throw (ConstraintException ("Referenced table '" +:+ fk_parent_table fk +:+ "' does not exist"))
    else match get_table (fk_parent_table fk) d with
    | None => st_lift UB
    | Some p =>
        parent ← deref p;
        t ← deref a;
        match missing_column parent (fk_parent_columns fk), missing_column t (fk_child_columns fk) with
        | Some c, _ => st_throw (ConstraintException ("Referenced column '" +:+ c +:+ "' not found"))
        | None, Some c => st_throw (ConstraintException ("Foreign key column '" +:+ c +:+ "' not found"))
        | None, None =>
            supported ← st_lift (is_parent_key_supported parent (fk_parent_columns fk));
            if (supported : bool) then on_table a (add_foreign_key fk)
            else st_throw (ConstraintException
              "FOREIGN KEY parent columns must be PRIMARY KEY, UNIQUE, or covered by a secondary index")
        end
    end.
Definition register_foreign_keys_for_create (stmt : CreateTableStatement) : ST Db unit :=
  with_table (ct_name stmt) (λ a, st_iter (register_foreign_key a) (ct_foreign_keys stmt)).
Definition register_checks_for_create (stmt : CreateTableStatement) : ST Db unit :=
  with_table (ct_name stmt) (λ a, on_table a (st_iter (λ ck, add_prepared_check ck;; mret tt) (ct_checks stmt))).

Definition attachPartitionMetadata (name : string) (k : PartitionKind) (key : string) : ST Db unit :=
  d ← st_get;
  match get_table name d with
  | None => st_throw (ConstraintException "Internal error: missing table for PARTITION BY")
  | Some a => on_table a (
      t ← st_get;
      match get_column_index t key with
      | None => st_throw (ConstraintException ("Partition key column '" +:+ key +:+ "' not found"))
      | Some _ => set_partition_metadata (Some (new_metadata k key))
      end)
  end.
Definition persistPartitionMetadata (parent_name : string) : ST Db unit :=
  with_table parent_name (λ a,
    t ← deref a;
    match partition_meta t with
    | None => mret tt
    | Some md => on_fs (saveParent storage_directory parent_name md)
    end).

(** [return QueryResult::error_result(e.what())] for any exception of [m]. *)
Definition or_error (m : ST Db QueryResult) (undo : ST Db unit) : ST Db QueryResult :=
  st_catch m (λ e, undo;; mret (error_result (what e))).

Definition getMutablePartitionMetadata (a : Z) (f : PartitionedTableMetadata → PartitionedTableMetadata) : ST Db unit :=
  on_table a (t ← st_get; set_partition_metadata (f <$> partition_meta t)).

(** The new partition has the columns, checks and secondary indexes of its parent. *)
Definition build_partition (child_name : string) (parent : DTable) : res DTable :=
  let '(t, r) :=
    (st_iter add_column (columns parent);;
     set_checks (checks parent);;
     set_secondary_indexes (secondary_indexes parent)) (new_Table child_name new_heap today) in
  r ≫= λ _, Ok t.
Definition execute_create_partition_of (child_name parent_name : string) (b : PartitionBound) : ST Db QueryResult :=
  d ← st_get;
  if has_table child_name d || has_view child_name (catalogs_ d) then
    mret (error_result ("Relation '" +:+ child_name +:+ "' already exists"))
  else match get_table parent_name d with
  | None => mret (error_result ("Parent table '" +:+ parent_name +:+ "' not found"))
  | Some p =>
      parent ← deref p;
      match partition_meta parent with
      | None => mret (error_result ("Table '" +:+ parent_name +:+ "' is not partitioned"))
      | Some md =>
          if negb (bool_decide (length (foreign_keys parent) = 0%nat)) then
            mret (error_result "FOREIGN KEY is not supported on partitioned parent tables")
          else match kind_ md, b_range b, b_hash b with
          | Range, None, _ => mret (error_result "RANGE parent requires FOR VALUES FROM (...) TO (...)")
          | Hash, _, None => mret (error_result "HASH parent requires FOR VALUES WITH (MODULUS ..., REMAINDER ...)")
          | _, _, _ =>
              or_error
                (child ← st_lift (build_partition child_name parent);
                 match addPartition md (mkPartition child_name b) with
                 | (_, Some error) => mret (error_result error)
                 | (md, None) =>
                     getMutablePartitionMetadata p (λ _, md);;
                     a ← allocate child;
                     put_table child_name a;;
                     on_table a rebuild_indexes;;
                     mark_table_dirty child_name;;
                     mark_table_dirty parent_name;;
                     persistPartitionMetadata parent_name;;
                     mret (success_result "CREATE TABLE OK")
                 end)
                (erase_table child_name;; getMutablePartitionMetadata p (λ md, (removePartition md child_name).1))
          end
      end
  end.

Definition execute_create_table_statement (stmt : CreateTableStatement) : ST Db QueryResult :=
  match ct_partition_of stmt with
  | Some (parent_name, b) => execute_create_partition_of (ct_name stmt) parent_name b
  | None =>
      d ← st_get;
      if has_view (ct_name stmt) (catalogs_ d) then
        mret (error_result ("Relation '" +:+ ct_name stmt +:+ "' already exists as a view"))
      else if bool_decide (is_Some (ct_partition_by stmt)) && negb (bool_decide (length (ct_foreign_keys stmt) = 0%nat)) then
        mret (error_result "FOREIGN KEY is not supported on partitioned parent tables")
      else
        result ← execute_CreateTableExecutor stmt;
        if negb (success result) then mret result
        else
          registered ← or_error
            (register_keys_for_create stmt;;
             register_foreign_keys_for_create stmt;;
             register_checks_for_create stmt;;
             (match ct_partition_by stmt with
              | Some (k, key) => attachPartitionMetadata (ct_name stmt) k key
              | None => mret tt
              end);;
             mret result)
            (erase_table (ct_name stmt));
          if negb (success registered) then mret registered
          else
            mark_table_dirty (ct_name stmt);;
            with_table (ct_name stmt) (λ a, on_table a rebuild_indexes);;
            match ct_partition_by stmt with
            | None => mret result
            | Some _ => or_error (persistPartitionMetadata (ct_name stmt);; mret result) (mret tt)
            end
  end.

(** ** DROP TABLE *)

Definition execute_DropTableExecutor (name : string) : ST Db QueryResult :=
  d ← st_get;
  if negb (has_table name d) then mret (error_result ("Table '" +:+ name +:+ "' not found"))
  else
    erase_table name;;
    on_fs (remove_table_file storage_directory name);;
    mret (success_result "DROP TABLE OK").
(** [Database::create_table] and [drop_table], the calls that need no statement. *)
Definition create_table (name : string) : ST Db unit :=
  d ← st_get;
  if has_table name d then st_throw (ConstraintException ("Table '" +:+ name +:+ "' already exists"))
  else if has_view name (catalogs_ d) then st_throw (ConstraintException ("Relation '" +:+ name +:+ "' already exists as a view"))
  else
    a ← allocate (new_Table name new_heap today);
    put_table name a;;
    on_table a mark_dirty.
Definition drop_table (name : string) : ST Db unit :=
  d ← st_get;
  if has_table name d then erase_table name;; on_fs (remove_table_file storage_directory name)
  else st_throw (NotFoundException ("Table '" +:+ name +:+ "' not found")).
Definition drop_partition (p : PartitionDescriptor) : ST Db unit :=
  erase_table (childTableName p);; on_fs (remove_table_file storage_directory (childTableName p)).
Definition execute_drop_table_statement (name : string) : ST Db QueryResult :=
  d ← st_get;
  match get_table name d with
  | None => mret (error_result ("Table '" +:+ name +:+ "' not found"))
  | Some a =>
      t ← deref a;
      match partition_meta t with
      | Some md =>
          st_iter drop_partition (partitions md);;
          on_fs (removeParentFile storage_directory name);;
          execute_DropTableExecutor name
      | None =>
          parent ← findPartitionParent name;
          match parent with
          | None => execute_DropTableExecutor name
          | Some p =>
              getMutablePartitionMetadata p (λ md, (removePartition md name).1);;
              pt ← deref p;
              mark_table_dirty (table_name pt);;
              saved ← or_error (persistPartitionMetadata (table_name pt);; mret (success_result "")) (mret tt);
              if negb (success saved) then mret saved else execute_DropTableExecutor name
          end
      end
  end.

(** ** ALTER TABLE *)

Context (os_message : string).

Definition has_live_check_violation : ST DTable bool :=
  t ← st_get;
  st_any (λ i,
    row ← get_row i;
    if negb (row_xmax row =? 0) then mret false
    else v ← find_violated_check row; mret (bool_decide (is_Some v))) (positions t).
(** A CHECK the rows violate is dropped again. *)
Definition check_rows (ck : CheckConstraintDefinition SelectStatement) : ST DTable QueryResult :=
  name ← add_prepared_check ck;
  violated ← has_live_check_violation;
  if (violated : bool) then
    drop_check name;; mret (error_result "Cannot add CHECK: existing data violates constraint")
  else mret (success_result "ALTER TABLE OK").

Definition key_columns (action : AlterTableAction) : list string :=
  match aa_columns action with [] => [aa_name action] | cols => cols end.
(** The first row a test refuses. *)
Definition some_row_refused (test : Row → Z → ST DTable bool) : ST DTable bool :=
  t ← st_get;
  st_any (λ i, row ← get_row i; ok ← test row (Z.of_nat i); mret (negb ok)) (positions t).
Definition altered : QueryResult := success_result "ALTER TABLE OK".
Definition add_key (apply : ST DTable unit) (test : Row → Z → ST DTable bool) (undo : ST DTable bool) (kind : string)
    : ST DTable QueryResult :=
  r ← st_catch
    (apply;;
     refused ← some_row_refused test;
     if (refused : bool) then
       undo;; mret (error_result ("Cannot add " +:+ kind +:+ ": existing data violates constraint"))
     else mret altered)
    (λ e, mret (error_result (what e)));
  if success r then mark_dirty;; mret r else mret r.
Definition dropped_or (dropped : bool) (msg : string) : ST DTable QueryResult :=
  if dropped then mark_dirty;; mret altered else mret (error_result msg).
Definition on_column (name : string) (f : nat → ST DTable QueryResult) : ST DTable QueryResult :=
  t ← st_get;
  match get_column_index t name with
  | None => mret (error_result ("Column '" +:+ name +:+ "' not found"))
  | Some i => f i
  end.
Definition set_nullable (i : nat) (nullable : bool) : ST DTable unit :=
  t ← st_get;
  c ← st_lift (get_column_at t i);
  c ← st_lift (col_set_nullable c nullable);
  st_modify (with_columns (<[i := c]> (columns t)));;
  mark_dirty.

(** The actions on the table itself. *)
Definition alter_table (action : AlterTableAction) : ST DTable QueryResult :=
  match aa_type action with
  | AddColumn =>
      c ← st_lift (column_of_definition (aa_column_def action));
      add_column c;;
      match cd_check (aa_column_def action) with
      | None => mret altered
      | Some e => check_rows (mkCheck SelectStatement "" (expression_to_string e) (Some e))
      end
  | DropColumn => drop_column (aa_name action);; mret altered
  | RenameColumn => rename_column (aa_name action) (aa_new_name action);; mret altered
  | AddPrimaryKey =>
      add_key (apply_primary_key (key_columns action)) validate_row drop_primary_key "PRIMARY KEY"
  | AddUnique =>
      add_key (apply_unique_constraint (mkUnique "" (key_columns action))) validate_unique_constraint
        (drop_unique_constraint (key_columns action)) "UNIQUE"
  | SetNotNull =>
      on_column (aa_name action) (λ i,
        t ← st_get;
        found ← st_any (λ j, row ← get_row j; v ← st_lift (get_value row i); mret (is_null v)) (positions t);
        if (found : bool) then mret (error_result "Cannot SET NOT NULL: column contains NULL values")
        else set_nullable i false;; mret altered)
  | DropPrimaryKey => dropped ← drop_primary_key; dropped_or dropped "Table has no primary key"
  | DropUnique =>
      dropped ← drop_unique_constraint (key_columns action);
      dropped_or dropped "UNIQUE constraint not found for given columns"
  | DropNotNull =>
      on_column (aa_name action) (λ i,
        t ← st_get;
        c ← st_lift (get_column_at t i);
        if col_primary_key c then mret (error_result "Cannot DROP NOT NULL on primary key column")
        else set_nullable i true;; mret altered)
  | AddCheck =>
      check_rows (mkCheck SelectStatement (aa_check_name action)
        (match aa_check action with Some e => expression_to_string e | None => "" end) (aa_check action))
  | DropCheck =>
      dropped ← drop_check (aa_name action);
      if (dropped : bool) then mret altered
      else mret (error_result ("CHECK constraint '" +:+ aa_name action +:+ "' not found"))
  | RenameTable => st_lift UB
  end.
Definition rename_table (a : Z) (name new_name : string) : ST Db QueryResult :=
  d ← st_get;
  if has_table new_name d then mret (error_result ("Table '" +:+ new_name +:+ "' already exists"))
  else
    on_table a (set_name new_name);;
    st_modify (λ d, with_tables (sm_set new_name a (sm_erase name (tables_ d))) d);;
    on_fs (rename_table_file os_message storage_directory name new_name);;
    on_table a mark_dirty;;
    mret altered.
Definition execute_AlterTableExecutor (stmt : AlterTableStatement) : ST Db QueryResult :=
  d ← st_get;
  match sm_find (at_name stmt) (tables_ d) with
  | None => mret (error_result ("Table '" +:+ at_name stmt +:+ "' not found"))
  | Some a =>
      st_catch
        (match aa_type (at_action stmt) with
         | RenameTable => rename_table a (at_name stmt) (aa_new_name (at_action stmt))
         | _ => on_table a (alter_table (at_action stmt))
         end)
        (λ e, mret (error_result ("ALTER TABLE failed: " +:+ what e)))
  end.

(** ** Indexes *)

Definition execute_create_index_statement (index_name table_name : string) (cols : list string) : ST Db QueryResult :=
  d ← st_get;
  match get_table table_name d with
  | None => mret (error_result ("Table '" +:+ table_name +:+ "' not found"))
  | Some a =>
      taken ← st_any (λ e : string * Z, t ← deref e.2; mret (sm_has index_name (secondary_indexes t))) (tables_ d);
      if (taken : bool) then mret (error_result ("Index '" +:+ index_name +:+ "' already exists"))
      else or_error (on_table a (create_secondary_index index_name cols);; mret (success_result "CREATE INDEX OK")) (mret tt)
  end.
Definition execute_drop_index_statement (index_name : string) : ST Db QueryResult :=
  d ← st_get;
  dropped ← st_any (λ e : string * Z, on_table e.2 (drop_secondary_index index_name)) (tables_ d);
  mret (if (dropped : bool) then success_result "DROP INDEX OK" else error_result ("Index '" +:+ index_name +:+ "' not found")).
End ddl.
