(* ===== verification/Explain.v ===== *)
(** * EXPLAIN

    [QueryExplainer] (src/planner/query_explainer.cc): the lines that describe how a
    statement would run.  A view is not expanded: the lines speak of the name. *)

From Stdlib Require Import ZArith Lia.
From S2P Require Import Prelude CppNum Values Rows Page PageStore BufferPool HeapFile RowHeap IndexKey BTree Transactions LockManager Expr Evaluator Partition Table TableSpec TableMaint TableProps Operators Lexer Ast Parser SelectAnalysis Grouping Windows Planner Scan FileSystem Auth Sessions Catalogs DbState Queries.
Import Table.

Section explain.
Context {H : Type} {RH : RowHeap H} (SH : StdHash).
Abbreviation DTable := (Table H SelectStatement).
Abbreviation Db := (Db H).

Definition predicateMatchesTable (pred : IndexColumnPredicate) (t : DTable) (alias : string) : bool :=
  bool_decide (pred_table pred = ""%string) || bool_decide (pred_table pred = table_name t)
  || negb (bool_decide (alias = ""%string)) && bool_decide (pred_table pred = alias).
Definition accessPathKindName (k : AccessPathKind) : string :=
  match k with IndexScan => "IndexScan" | _ => "SeqScan" end.
Definition joinTypeLabel (join_type : string) : string :=
  if bool_decide (join_type = ""%string) then "JOIN" else join_type +:+ " JOIN".

(** Unlike the scan, the test does not ask whether the table has the column. *)
Definition hasIndexAccessPath (t : option DTable) (alias : string) (where_expr : option Expression) : bool :=
  match t, extract_index_predicates where_expr with
  | Some t, Some (p :: ps) =>
      let preds := filter (λ pred, predicateMatchesTable pred t alias = true) (p :: ps) in
      let equals := equal_by_column preds in
      existsb (λ d : string * list string, (0 <? length (key_prefix equals d.2))%nat) (secondary_indexes t)
      || existsb (λ pred, has_index t (pred_column pred)) preds
  | _, _ => false
  end.

Definition lookup_table (name : string) : ST Db (option DTable) :=
  d ← st_get;
  match get_table name d with Some a => t ← deref a; mret (Some t) | None => mret None end.
Definition row_count_of (t : option DTable) : Z := match t with Some t => Z.of_nat (get_row_count t) | None => 0 end.
Definition access_path (t : option DTable) (alias : string) (where_expr : option Expression) : AccessPathKind * double :=
  let rows := row_count_of t in
  choose_access_path rows (hasIndexAccessPath t alias where_expr) (if rows =? 0 then d_one else d_div d_one (d_of_Z rows)).
Definition scan_line (path : AccessPathKind * double) (name : string) : string :=
  accessPathKindName path.1 +:+ " on " +:+ name +:+ " (cost=" +:+ d_to_string path.2 +:+ ")".

(** One join: its lines, and its table with the alias if there is one. *)
Definition explain_join (j : string * string * string * option Expression) : ST Db (list string * list (DTable * string)) :=
  let '(join_type, name, alias, on_expr) := j in
  d ← st_get;
  t ← lookup_table name;
  mret (["  " +:+ joinTypeLabel join_type +:+ " " +:+ name] ++
        (if has_view name (catalogs_ d) then ["    ViewScan(" +:+ name +:+ ")"] else []) ++
        match on_expr with Some e => ["    ON " +:+ expression_to_string e] | None => [] end,
        match t with Some t => [(t, if bool_decide (alias = ""%string) then name else alias)] | None => [] end).

(** Order and method are given for two tables that are joined by INNER or CROSS. *)
Definition explain_order (joins : list (string * string * string * option Expression)) (ordered : list (DTable * string))
    : ST Db (list string) :=
  if forallb (λ j : string * string * string * option Expression,
       bool_decide (j.1.1.1 = "INNER"%string) || bool_decide (j.1.1.1 = "CROSS"%string)) joins
  then match ordered, joins with
  | [r0; r1], j :: _ =>
      let on_expr := on_expression j in
      let ec := equi_columns on_expr in
      order ← st_lift (planLeftDeepOrder [relation_of r0.1 ec; relation_of r1.1 ec]);
      match order with
      | [i0; i1] =>
          match [r0; r1] !! i0, [r0; r1] !! i1 with
          | Some l, Some r =>
              plan ← plan_edge SH l.1 r.1 l.2 r.2 on_expr (get_row_count l.1) (get_row_count r.1)
                       ((λ c, mkBinding l.2 (table_name l.1) (col_name c)) <$> columns l.1);
              mret ["  Join order: " +:+ table_name l.1 +:+ ", " +:+ table_name r.1;
                    "  Join method: " +:+ joinMethodKindName (jm_kind (method plan))]
          | _, _ => st_lift UB
          end
      | _ => mret []
      end
  | _, _ => mret []
  end
  else mret [].
Definition explain_joins (stmt : SelectStatement) (t : option DTable) : ST Db (list string) :=
  let first := match t with
    | Some t => [(t, if bool_decide (from_alias stmt = ""%string) then from_table stmt else from_alias stmt)]
    | None => []
    end in
  parts ← st_map explain_join (joins stmt);
  order ← explain_order (joins stmt) (first ++ mjoin (parts.*2));
  mret (["JoinSelect on " +:+ from_table stmt] ++ mjoin (parts.*1) ++ order).

Definition explain_partitions (stmt : SelectStatement) (t : DTable) (md : PartitionedTableMetadata) : ST Db (list string) :=
  let children := listPrunedPartitions t (where_condition stmt) in
  scans ← st_map (λ child,
    c ← lookup_table child;
    mret ("  " +:+ scan_line (access_path c (from_alias stmt) (where_condition stmt)) child)) children;
  mret (["PartitionPrune on " +:+ from_table stmt +:+ " -> " +:+ std_to_string (Z.of_nat (length children)) +:+ " of "
          +:+ std_to_string (Z.of_nat (length (partitions md))) +:+ " partitions"] ++ scans).

Definition explain_tail (stmt : SelectStatement) : list string :=
  match where_condition stmt with Some e => ["  Filter: " +:+ expression_to_string e] | None => [] end ++
  (if bool_decide (length (group_by_columns stmt) = 0%nat) then [] else ["  GroupAggregate"%string]) ++
  (if select_has_window stmt then ["  Window"%string] else []) ++
  (if distinct stmt then ["  Distinct"%string] else []) ++
  (if bool_decide (length (order_by_columns stmt) = 0%nat) then [] else ["  Sort"%string]) ++
  (if (0 <=? limit stmt) || (0 <? offset stmt) then ["  LimitOffset"%string] else []).

Definition explainSelect (stmt : SelectStatement) : ST Db (list string) :=
  d ← st_get;
  t ← lookup_table (from_table stmt);
  body ←
    (if negb (bool_decide (length (joins stmt) = 0%nat)) then explain_joins stmt t
     else match t with
     | Some t' =>
         match partition_meta t' with
         | Some md => explain_partitions stmt t' md
         | None => mret [scan_line (access_path t (from_alias stmt) (where_condition stmt)) (from_table stmt)]
         end
     | None => mret [scan_line (access_path t (from_alias stmt) (where_condition stmt)) (from_table stmt)]
     end);
  mret ((if has_view (from_table stmt) (catalogs_ d) then ["ViewScan(" +:+ from_table stmt +:+ ")"] else []) ++
        body ++ explain_tail stmt).

Definition setOperationLabel (k : SetOperationKind) (is_all : bool) : string :=
  match k with
  | Union => if is_all then "Union All" else "Union"
  | Intersect => "Intersect"
  | Except => "Except"
  end.
Definition indented (ls : list string) : list string := (λ l, "  " +:+ l) <$> ls.
Fixpoint explain_operand (q : Operand) : ST Db (list string) :=
  match q with
  | SelectOperand s => explainSelect s
  | SetOperand s => explainSetOperation s
  end
with explainSetOperation (s : SetOperationStatement) : ST Db (list string) :=
  match s with
  | SetOperation l kind r is_all orders lim off =>
      ll ← explain_operand l;
      rl ← explain_operand r;
      mret (setOperationLabel kind is_all :: indented ll ++ indented rl ++
            (if bool_decide (length orders = 0%nat) then [] else ["  Sort"%string]) ++
            (if (0 <=? lim) || (0 <? off) then ["  LimitOffset"%string] else []))
  end.

Definition explainInsert (stmt : InsertStatement) : ST Db (list string) :=
  t ← lookup_table (ins_table stmt);
  mret (["Insert on " +:+ ins_table stmt +:+ " (" +:+ std_to_string (Z.of_nat (length (ins_values stmt))) +:+ " row(s))"] ++
        match t, ins_values stmt with
        | Some t, (_ :: _) :: _ =>
            match partition_meta t with Some md => ["  PartitionRoute by " +:+ key_column md] | None => [] end
        | _, _ => []
        end).
Definition filter_line (where_expr : option Expression) : string :=
  match where_expr with Some e => "  Filter: " +:+ expression_to_string e | None => "  Filter: (none)" end.
Definition explainUpdate (stmt : UpdateStatement) : list string :=
  ["Update on " +:+ upd_table stmt +:+ " (" +:+ std_to_string (Z.of_nat (length (upd_set_clauses stmt))) +:+ " assignment(s))";
   filter_line (upd_where stmt)].
Definition explainDelete (stmt : DeleteStatement) : list string :=
  ["Delete on " +:+ del_table stmt; filter_line (del_where stmt)].

Definition buildPlanLines (stmt : ParsedStatement) : ST Db (list string) :=
  match stmt with
  | SSelect s => explainSelect s
  | SSetOperation s => explainSetOperation s
  | SInsert s => explainInsert s
  | SUpdate s => mret (explainUpdate s)
  | SDelete s => mret (explainDelete s)
  | SCreateTable _ | SDropTable _ | SAlterTable _ | SCreateIndex _ _ _ | SDropIndex _ | SCreateView _ _ _ | SDropView _ _
  | SBegin | SCommit | SRollback | SPrepare _ _ | SExecute _ _ | SDeallocate _ | SVacuum _ =>
      mret [statement_to_string stmt]
  | _ => mret ["Unknown statement"%string]
  end.
End explain.
