(* ===== verification/Dispatch.v ===== *)
(** * Statements

    What [Database] does with a statement (src/core/database.cc): transactions, prepared
    statements, CALL, VACUUM and EXPLAIN, the locks and the persistence around the
    executors ([dispatch_statement]), the text of a session ([execute_query]), the flush of
    dirty tables to disk and the start from it.

    Statements of trigger and procedure bodies are dispatched again; [fuel] bounds that
    nesting, [query_fuel] the one of queries.  Every table has its pool of pages: the pool
    of the database itself, which [flush_dirty_tables_locked] also flushes, serves no table
    that a statement makes. *)

From Stdlib Require Import ZArith Lia.
From S2P Require Import Prelude CppNum Values Rows Page PageStore BufferPool HeapFile RowHeap IndexKey BTree Transactions LockManager Expr Evaluator Partition Table TableSpec TableMaint TableProps Operators Lexer Ast Parser SelectAnalysis Grouping Windows Planner Scan FileSystem Auth Sessions Catalogs Wal TableFiles PartitionCatalog DbState Queries Dml Ddl Explain.
Import Table.

Section dispatch.
Context {H : Type} {RH : RowHeap H} {PH : PagedHeap H}.
Context (SH : StdHash) (udf_depth query_fuel : nat).
Context (new_heap : H) (today storage_directory os_message : string).
Abbreviation DTable := (Table H SelectStatement).
Abbreviation Db := (Db H).

Definition new_Database (c : Catalogs) : Db :=
  mkDb ∅ 1 [] [] 0 0 c (new_PlanCache 128) new_LockManager new_TransactionManager [] [] None None None 0 0 1.

Definition run_select : SelectStatement → ST Db QueryResult :=
  execute_select_statement SH udf_depth new_heap today query_fuel.
Definition on_catalogs {A} (m : ST Catalogs A) : ST Db A := λ d,
  let '(c, r) := m (catalogs_ d) in (with_catalogs c d, r).

(** ** Persistence *)

Definition on_table_fs {A} (a : Z) (m : ST (DTable * Fs) A) : ST Db A := λ d,
  match objects d !! a with
  | None => (d, UB)
  | Some t =>
      let '((t, fs), r) := m (t, disk (catalogs_ d)) in
      (with_catalogs (with_disk fs (catalogs_ d)) (with_objects (<[a := t]> (objects d)) d), r)
  end.
Definition stage_path (name : string) : string := storage_directory +:+ "/.wal_stage_" +:+ name +:+ ".db".
Definition stage_table (e : string * Z) : ST Db (list (string * Z)) :=
  t ← deref e.2;
  if negb (is_dirty t) then mret []
  else on_table_fs e.2 (save_table (stage_path e.1));; mret [e].
Definition read_file_bytes (path : string) : ST Fs (list Z) :=
  fs ← st_get;
  match fs_read path fs with
  | None => st_throw (StorageException ("Cannot read file: " +:+ path))
  | Some text => mret (bytes_of_string text)
  end.
Definition log_table (e : string * Z) : ST Db unit :=
  on_fs (bytes ← read_file_bytes (stage_path e.1); append_table_blob storage_directory e.1 bytes).
Definition install_staged (e : string * Z) : ST Db unit :=
  on_fs (fs_rename (stage_path e.1) (table_file_path storage_directory e.1));;
  on_table e.2 clear_dirty;;
  t ← deref e.2;
  match partition_meta t with
  | None => mret tt
  | Some md => on_fs (saveParent storage_directory e.1 md)
  end.
Definition flush_dirty_tables_locked : ST Db unit :=
  d ← st_get;
  found ← st_map stage_table (tables_ d);
  let staged := mjoin found in
  if bool_decide (length staged = 0%nat) then mret tt
  else
    st_iter log_table staged;;
    on_fs (append_commit storage_directory 0);;
    on_fs (sync storage_directory);;
    st_iter install_staged staged;;
    on_fs (truncate storage_directory).
Definition checkpoint : ST Db unit := flush_dirty_tables_locked.
Definition persist_dirty_tables (result : QueryResult) (in_transaction : bool) : ST Db QueryResult :=
  if negb (success result) || in_transaction then mret result
  else st_catch (flush_dirty_tables_locked;; mret result)
    (λ e, match e with
          | StorageException _ => mret (error_result ("Persistence failed: " +:+ what e))
          | _ => st_throw e
          end).

(** [listing fs dir]: the names of the files of a directory, in the order of the iterator. *)
Context (listing : Fs → string → list string).
Definition directory_entries (fs : Fs) (dir : string) : list Entry :=
  (λ name, (name, fs_read (path_join dir name) fs)) <$> listing fs dir.
Definition load_catalog (load : list Entry → ST Catalogs unit) (dir : string) : ST Db unit :=
  d ← st_get;
  on_catalogs (load (directory_entries (disk (catalogs_ d)) dir)).
Definition put_tables (tables : smap DTable) : ST Db unit :=
  d ← st_get;
  st_iter (λ e, free e.2) (tables_ d);;
  st_modify (with_tables []);;
  st_iter (λ e, a ← allocate e.2; on_table a clear_dirty;; put_table e.1 a) tables.
Definition attach_partitions : ST Db unit :=
  d ← st_get;
  ts ← st_map (λ e : string * Z, t ← deref e.2; mret (e.1, t)) (tables_ d);
  ts ← st_lift (loadAll_partitions storage_directory (directory_entries (disk (catalogs_ d)) (partitions_dir storage_directory)) ts);
  st_iter (λ e : string * Z,
    match sm_find e.1 ts with
    | Some t => on_table e.2 (set_partition_metadata (partition_meta t))
    | None => mret tt
    end) (tables_ d).
Definition load_from_disk : ST Db unit :=
  on_fs (recover storage_directory);;
  d ← st_get;
  tables ← st_lift (load_database new_heap today storage_directory
             (listing (disk (catalogs_ d)) storage_directory) (disk (catalogs_ d)));
  put_tables tables;;
  load_catalog (load_all_views storage_directory) (views_dir storage_directory);;
  load_catalog (load_all_routines storage_directory) (routines_dir storage_directory);;
  load_catalog (load_all_triggers storage_directory) (triggers_dir storage_directory);;
  attach_partitions.

(** ** Transactions *)

Definition execute_begin : ST Db QueryResult :=
  d ← st_get;
  match active_session_ d with
  | None => mret (error_result "BEGIN requires a session")
  | Some s =>
      if in_transaction s then mret (error_result "Transaction already active")
      else
        let '(tm, txn_id) := beginTransaction (transaction_manager_ d) in
        let snap := captureSnapshot tm in
        st_modify (with_transaction_manager (registerSnapshot tm txn_id snap));;
        on_session (λ s, set_in_transaction true (set_session_snapshot (Some snap) (set_transaction_id txn_id s)));;
        mret (success_result "BEGIN OK")
  end.
Definition end_transaction : ST Db unit :=
  release_session_locks;;
  on_session (λ s, clear_snapshot (set_transaction_id 0 (set_in_transaction false s))).
Definition finish_transaction (finish : TransactionManager → Z → TransactionManager) (txn_id : Z) : ST Db unit :=
  st_modify (λ d, with_transaction_manager (finish (transaction_manager_ d) txn_id) d);;
  vacuum_all_tables SH.
Definition freeze_tables (txn_id : Z) : ST Db unit :=
  d ← st_get;
  if canFreezeCommitted (transaction_manager_ d) txn_id
  then st_iter (λ e, on_table e.2 (freeze_committed_versions txn_id)) (tables_ d)
  else mret tt.
Definition execute_commit : ST Db QueryResult :=
  d ← st_get;
  match active_session_ d with
  | Some s =>
      if negb (in_transaction s) then mret (error_result "No active transaction")
      else
        finish_transaction commitTransaction (transaction_id s);;
        freeze_tables (transaction_id s);;
        result ← persist_dirty_tables (success_result "COMMIT OK") false;
        if negb (success result) then mret result
        else end_transaction;; mret result
  | None => mret (error_result "No active transaction")
  end.
Definition execute_rollback : ST Db QueryResult :=
  d ← st_get;
  match active_session_ d with
  | Some s =>
      if negb (in_transaction s) then mret (error_result "No active transaction")
      else
        finish_transaction abortTransaction (transaction_id s);;
        end_transaction;;
        mret (success_result "ROLLBACK OK")
  | None => mret (error_result "No active transaction")
  end.

(** ** Prepared statements *)

Definition put_plan (sql : string) (stmt : ParsedStatement) : ST Db unit :=
  d ← st_get;
  c ← st_lift (cache_put sql stmt (plan_cache_ d));
  st_modify (with_plan_cache c).
Definition execute_prepare (name sql : string) : ST Db QueryResult :=
  d ← st_get;
  match active_session_ d with
  | None => mret (error_result "PREPARE requires a session")
  | Some _ =>
      stmt ← st_lift (parse_text sql);
      on_session (put_prepared name sql);;
      put_plan sql stmt;;
      mret (success_result "PREPARE OK")
  end.
(** A statement and the number of its parameters. *)
Definition parse_counted (sql : string) : res (ParsedStatement * Z) :=
  run_parser (stmt ← parse_statement (parse_text_from (String.length sql)); s ← st_get; mret (stmt, get_parameter_count s)) sql.
Definition execute_deallocate (name : string) : ST Db QueryResult :=
  d ← st_get;
  match active_session_ d with
  | None => mret (error_result "DEALLOCATE requires a session")
  | Some s =>
      let '(s, found) := remove_prepared name s in
      if negb found then mret (error_result ("Prepared statement '" +:+ name +:+ "' not found"))
      else st_modify (with_active_session (Some s));; mret (success_result "DEALLOCATE OK")
  end.

Definition execute_vacuum (name : string) : ST Db QueryResult :=
  if bool_decide (name = ""%string) then vacuum_all_tables SH;; mret (success_result "VACUUM OK")
  else table_of name (λ a,
    d ← st_get;
    on_table a (vacuum_versions (transaction_manager_ d));;
    refresh_statistics SH a;;
    mret (success_result "VACUUM OK")).

Section nested.
Context (dispatch : ParsedStatement → ST Db QueryResult).

(** The arguments live as long as the statement; an exception leaves the pointer set. *)
Definition execute_execute_prepared (name : string) (arguments : list value) : ST Db QueryResult :=
  d ← st_get;
  match active_session_ d with
  | None => mret (error_result "EXECUTE requires a session")
  | Some s =>
      match get_prepared name s with
      | None => mret (error_result ("Prepared statement '" +:+ name +:+ "' not found"))
      | Some sql =>
          parsed ← st_lift (parse_counted sql);
          if negb (parsed.2 =? Z.of_nat (length arguments)) then
            mret (error_result "EXECUTE argument count does not match PREPARE parameters")
          else
            st_modify (with_active_bind (Some arguments));;
            result ← dispatch parsed.1;
            st_modify (with_active_bind None);;
            mret result
      end
  end.

(** The evaluator of the arguments has no columns, no subqueries and no bind parameters. *)
Definition call_evaluator (d : Db) : Evaluator SelectStatement Db :=
  mkEvaluator (Q := SelectStatement) [] None None None true None (Some (evaluator_functions (catalogs_ d)))
    (default ∅ (active_local_variables_ d)) today.
Definition execute_call_statement (name : string) (arguments : list Expression) : ST Db QueryResult :=
  d ← st_get;
  match getProcedure name (catalogs_ d) with
  | None => mret (error_result ("Procedure '" +:+ name +:+ "' not found"))
  | Some proc =>
      args ← mapr (λ e,
        r ← evaluating (evaluate_expression udf_depth (call_evaluator d) empty_row true e);
        if bool_decide (r.2 = ""%string) then mret (inl r.1) else fail_with r.2) arguments;
      match args with
      | inr q => mret q
      | inl args => executeCall dispatch proc args
      end
  end.

Definition execute_explain_statement (inner : ParsedStatement) : ST Db QueryResult :=
  plan ← buildPlanLines SH inner;
  r ← dispatch inner;
  if negb (success r) then mret r
  else
    let last := if negb (bool_decide (length (column_names r) = 0%nat))
                then "Rows returned: " +:+ std_to_string (Z.of_nat (length (Operators.rows r)))
                else "Affected rows: " +:+ std_to_string (affected_rows r) in
    mret (mkResult true "EXPLAIN OK" ["QUERY PLAN"%string] ((λ l, [VString l]) <$> plan ++ [last]) 0).

(** ** Dispatch *)

(** The rows of the preview are locked one by one. *)
Definition lock_matching_rows (table : string) (where_expr : option Expression) : ST Db unit :=
  d ← st_get;
  rows ← (match get_table table d with Some a => matching_rows udf_depth run_select a where_expr | None => mret [] end);
  st_iter (acquire_row_lock table) rows.
Definition release_unless (in_transaction : bool) : ST Db unit := if in_transaction then mret tt else release_session_locks.
(** A statement between its locks and its flush. *)
Definition changing (lock : ST Db unit) (body : ST Db QueryResult) : ST Db QueryResult :=
  d ← st_get;
  lock;;
  result ← body;
  release_unless (in_tx d);;
  persist_dirty_tables result (in_tx d).

(** The last part of the cases: views, routines, triggers and CALL. *)
Definition dispatch_catalog_statement (d : Db) (stmt : ParsedStatement) : ST Db QueryResult :=
  match stmt with
  | SCreateView name sql _ =>
      clear_plan_cache;;
      on_catalogs (execute_create_view_statement storage_directory (has_table name d) name sql)
  | SDropView name if_exists => clear_plan_cache;; on_catalogs (execute_drop_view_statement storage_directory name if_exists)
  | SCreateFunction name params return_type body source =>
      clear_plan_cache;;
      on_catalogs (execute_create_function_statement storage_directory today name params return_type body source)
  | SDropFunction name if_exists => clear_plan_cache;; on_catalogs (execute_drop_function_statement storage_directory name if_exists)
  | SCreateProcedure name params sqls source =>
      clear_plan_cache;; on_catalogs (execute_create_procedure_statement storage_directory name params sqls source)
  | SDropProcedure name if_exists => clear_plan_cache;; on_catalogs (execute_drop_procedure_statement storage_directory name if_exists)
  | SCall name arguments => execute_call_statement name arguments
  | SCreateTrigger name table timing event sqls source =>
      clear_plan_cache;;
      on_catalogs (execute_create_trigger_statement storage_directory (has_table table d)
                     (mkTrigger name table timing event sqls source))
  | SDropTrigger name if_exists => clear_plan_cache;; on_catalogs (execute_drop_trigger_statement storage_directory name if_exists)
  | SSetNew _ _ => mret (error_result "SET NEW is only valid inside a BEFORE trigger body")
  | _ => mret (error_result "Unknown statement type")
  end.
Definition dispatch_step (stmt : ParsedStatement) : ST Db QueryResult :=
  d ← st_get;
  match stmt with
  | SBegin => execute_begin
  | SCommit => execute_commit
  | SRollback => execute_rollback
  | SPrepare name sql => execute_prepare name sql
  | SExecute name arguments => execute_execute_prepared name arguments
  | SDeallocate name => execute_deallocate name
  | SVacuum name => execute_vacuum name
  | SExplain inner => execute_explain_statement inner
  | SSelect s => run_select s
  | SSetOperation s => execute_set_operation_statement SH udf_depth new_heap today query_fuel s
  | SInsert s =>
      changing (acquire_table_lock (ins_table s) Exclusive) (execute_insert_statement udf_depth run_select dispatch s)
  | SUpdate s =>
      changing (lock_matching_rows (upd_table s) (upd_where s)) (execute_update_statement udf_depth run_select dispatch s)
  | SDelete s =>
      changing (lock_matching_rows (del_table s) (del_where s)) (execute_delete_statement udf_depth run_select dispatch s)
  | SCreateTable s =>
      clear_plan_cache;;
      result ← execute_create_table_statement new_heap today storage_directory s;
      persist_dirty_tables result (in_tx d)
  | SDropTable name =>
      clear_plan_cache;;
      acquire_table_lock name Exclusive;;
      result ← execute_drop_table_statement storage_directory name;
      release_unless (in_tx d);;
      mret result
  | SAlterTable s =>
      clear_plan_cache;;
      changing (acquire_table_lock (at_name s) Exclusive) (execute_AlterTableExecutor storage_directory os_message s)
  | SCreateIndex index_name table cols =>
      clear_plan_cache;;
      changing (acquire_table_lock table Exclusive) (execute_create_index_statement index_name table cols)
  | SDropIndex index_name =>
      clear_plan_cache;;
      result ← execute_drop_index_statement index_name;
      persist_dirty_tables result (in_tx d)
  | _ => dispatch_catalog_statement d stmt
  end.
End nested.

Fixpoint dispatch_statement (fuel : nat) (stmt : ParsedStatement) : ST Db QueryResult :=
  match fuel with
  | O => λ d, (d, UB)
  | S fuel => dispatch_step (dispatch_statement fuel) stmt
  end.

(** ** The text of a session *)

Definition cacheable (stmt : ParsedStatement) : bool :=
  match stmt with
  | SPrepare _ _ | SBegin | SCommit | SRollback | SExecute _ _ | SDeallocate _ | SVacuum _ | SExplain _ => false
  | _ => true
  end.
Definition parse_cached (sql : string) : ST Db ParsedStatement :=
  d ← st_get;
  let '(c, cached) := cache_get sql (plan_cache_ d) in
  st_modify (with_plan_cache c);;
  match cached with
  | Some stmt => mret stmt
  | None =>
      stmt ← st_lift (parse_text sql);
      (if cacheable stmt then put_plan sql stmt else mret tt);;
      mret stmt
  end.
Definition denied (stmt : ParsedStatement) (d : Db) : bool :=
  match active_session_ d with
  | Some s =>
      authenticated s && match role s with Some r => negb (is_statement_authorized r stmt (Some s)) | None => false end
  | None => false
  end.
Definition run_text (fuel : nat) (sql : string) : ST Db QueryResult :=
  stmt ← parse_cached sql;
  d ← st_get;
  if denied stmt d then mret (error_result "permission denied") else dispatch_statement fuel stmt.
Definition handle (e : exn) : ST Db QueryResult :=
  match e with
  | DeadlockException _ =>
      d ← st_get;
      (if in_tx d then execute_rollback;; mret tt else release_session_locks);;
      mret (error_result (what e))
  | std_out_of_range _ | std_invalid_argument _ | std_runtime_error _ => mret (error_result ("Unexpected error: " +:+ what e))
  | _ => mret (error_result (what e))
  end.
(** The session is the caller's: it comes back with the result.  Every handler clears the
    pointer to it; only the rollback after a deadlock can throw once more. *)
Definition execute_query (fuel : nat) (sql : string) (session : option SessionContext)
    : ST Db (QueryResult * option SessionContext) :=
  st_modify (with_active_session session);;
  result ← st_catch (st_catch (run_text fuel sql) handle) (λ e, st_modify (with_active_session None);; st_throw e);
  d ← st_get;
  st_modify (with_active_session None);;
  mret (result, active_session_ d).
End dispatch.
