(* ===== verification/Statements.v ===== *)
(** * Statements as sessions see them

    Dispatch of a statement (Dispatch.v) composed with the executors: queries and EXPLAIN of
    queries change nothing, the loops of the join executor are the relational joins, a
    generated CHECK name is free, a statement the role does not allow is not run; and
    concrete sessions, run from an empty database through [execute_query]. *)

From Stdlib Require Import ZArith Lia.
From S2P Require Import Prelude CppNum Values Rows Page PageStore BufferPool HeapFile RowHeap IndexKey BTree Transactions LockManager Expr Evaluator Partition Table TableSpec TableMaint TableProps Operators Lexer Ast Parser SelectAnalysis Grouping Windows Planner Scan FileSystem Auth Sessions Catalogs Wal TableFiles PartitionCatalog DbState Queries QueryProps Dml Ddl Explain Dispatch.
Import Table.

(** ** Queries *)

(** SELECT, set operations, and EXPLAIN of them. *)
Inductive is_query : ParsedStatement → Prop :=
  | query_select s : is_query (SSelect s)
  | query_set s : is_query (SSetOperation s)
  | query_explain st : is_query st → is_query (SExplain st).

Scheme operand_ind' := Induction for Operand Sort Prop
  with set_operation_ind' := Induction for SetOperationStatement Sort Prop.
Combined Scheme operands_ind from operand_ind', set_operation_ind'.

Section read_only.
Context {H : Type} {RH : RowHeap H} {PH : PagedHeap H} {RS : RowHeapSpec H}.
Context (SH : StdHash) (udf_depth query_fuel : nat) (new_heap : H) (today storage_directory os_message : string).
Abbreviation Db := (Db H).
Implicit Types d : Db.

(** What a query does to the database: nothing, and temporary tables are gone if there
    were none. *)
Definition tidy (returned : bool) d d' : Prop := wf d → reads returned d d' ∧ (cleared d → cleared d').
#[local] Instance tidy_steps : Steps tidy.
Proof.
  split.
  - intros b d W. split; [apply steps_refl|done].
  - intros b d1 d2 d3 H12 H23 W1. destruct (H12 W1) as [R2 C2]. destruct (R2 W1) as (W2 & _).
    destruct (H23 W2) as [R3 C3]. split; [by eapply steps_trans|auto].
Qed.

Definition keeps_temporaries d d' : Prop := ephemeral_tables_ d' = ephemeral_tables_ d.
#[local] Instance keeps_temporaries_preorder : PreOrder keeps_temporaries.
Proof. split; [done|]. unfold keeps_temporaries. intros ???. congruence. Qed.
Lemma temporaries_on_table {A} a (m : ST (Table H SelectStatement) A) : moves (always keeps_temporaries) (on_table a m).
Proof. intros d. unfold on_table, keeps_temporaries. repeat case_match; done. Qed.
Lemma temporaries_statistics x : moves (always keeps_temporaries) (st_modify (with_table_statistics (H := H) x)).
Proof. done. Qed.
#[local] Hint Resolve temporaries_on_table temporaries_statistics moves_deref moves_plan_edge : moves.
Lemma temporaries_plan_edge lt rt la ra on l r bs : moves (always keeps_temporaries) (plan_edge (H := H) SH lt rt la ra on l r bs).
Proof. unfold plan_edge, ensureTableStatistics, refresh_statistics, deref. moves. Qed.
#[local] Hint Resolve temporaries_plan_edge : moves.

Lemma tidy_of_reads {A} (m : ST Db A) : moves reads m → moves (always keeps_temporaries) m → moves tidy m.
Proof.
  intros Hr Hk d W. destruct (Hr d W) as (W' & S' & F'). split; [done|].
  intros C. unfold cleared. rewrite (Hk d). destruct S' as [_ _ _ _ _ _ _ _ _ -> _ _]. exact C.
Qed.

(** The lines of a plan only look tables up. *)
Ltac plan := unfold lookup_table, deref; moves.
Lemma reads_explain_select stmt : moves reads (explainSelect (H := H) SH stmt).
Proof. unfold explainSelect, explain_joins, explain_join, explain_order, explain_partitions, lookup_table. moves. Qed.
Lemma temporaries_explain_select stmt : moves (always keeps_temporaries) (explainSelect (H := H) SH stmt).
Proof. unfold explainSelect, explain_joins, explain_join, explain_order, explain_partitions. plan. Qed.
#[local] Hint Resolve reads_explain_select temporaries_explain_select : moves.

Lemma reads_explain_operands :
  (∀ q, moves reads (explain_operand (H := H) SH q)) ∧ (∀ s, moves reads (explainSetOperation (H := H) SH s)).
Proof. apply operands_ind; intros; cbn; moves. Qed.
Lemma temporaries_explain_operands :
  (∀ q, moves (always keeps_temporaries) (explain_operand (H := H) SH q)) ∧
  (∀ s, moves (always keeps_temporaries) (explainSetOperation (H := H) SH s)).
Proof. apply operands_ind; intros; cbn; moves. Qed.
Lemma tidy_plan st : is_query st → moves tidy (buildPlanLines (H := H) SH st).
Proof.
  intros [s|s|st' _]; cbn [buildPlanLines]; apply tidy_of_reads; try moves.
  - apply reads_explain_operands.
  - apply temporaries_explain_operands.
Qed.

Abbreviation run := (execute_select_statement (H := H) SH udf_depth new_heap today query_fuel).
Lemma tidy_select s : moves tidy (run s).
Proof.
  intros d W. destruct query_fuel as [|fuel]; cbn [execute_select_statement].
  - split; [apply steps_refl|done].
  - apply select_scope; [|done]. apply moves_execute_select.
Qed.
#[local] Hint Resolve tidy_select : moves.
Lemma tidy_operands :
  (∀ q, moves tidy (execute_query_operand (H := H) SH udf_depth new_heap today query_fuel q)) ∧
  (∀ s, moves tidy (execute_set_operation_statement (H := H) SH udf_depth new_heap today query_fuel s)).
Proof. apply operands_ind; intros; cbn; moves. Qed.

Abbreviation dispatch := (dispatch_statement SH udf_depth query_fuel new_heap today storage_directory os_message).
Lemma tidy_dispatch st : is_query st → ∀ fuel, moves tidy (dispatch fuel st).
Proof.
  induction 1 as [s|s|st Hq IH]; intros [|fuel]; cbn [dispatch_statement]; try (by moves); unfold dispatch_step.
  - apply moves_bind; [typeclasses eauto|moves|]. intros _. apply tidy_select.
  - apply moves_bind; [typeclasses eauto|moves|]. intros _. apply tidy_operands.
  - pose proof (tidy_plan st Hq). unfold execute_explain_statement. moves.
Qed.

(** C34. A SELECT, a set operation or EXPLAIN of one, whatever it returns or throws and
    however its subqueries and views nest, leaves every table with the rows it had, and the
    catalogs, locks, transactions, session and cached plans as they were; its temporary
    tables are gone when it ends.  If it returns, the correlation frames are as before too. *)
Theorem queries_are_read_only st fuel d :
  is_query st → wf d → cleared d →
  let d' := (dispatch fuel st d).1 in
  wf d' ∧ same d d' ∧ cleared d' ∧
  (∀ result, (dispatch fuel st d).2 = Ok result → correlation_context_ d' = correlation_context_ d).
Proof.
  intros Hq W C. destruct (tidy_dispatch st Hq fuel d W) as [R C']. destruct (R W) as (W' & S' & F').
  split_and!; [done|done|auto|]. intros result E. apply F'. by rewrite E.
Qed.

End read_only.


(** ** Joins *)

(** The joins of relational algebra, in the order of the loops; [p] is the condition, [lw]
    and [rw] the widths of the two sides. *)
Section join_spec.
Context (p : vrow → bool) (lw rw : nat).
Definition pairs_of (l : vrow) (rights : list vrow) : list vrow := filter (λ row, p row = true) ((λ r, l ++ r) <$> rights).
Definition inner_join (lefts rights : list vrow) : list vrow := lefts ≫= λ l, pairs_of l rights.
Definition or_null (matched : list vrow) (padded : vrow) : list vrow := match matched with [] => [padded] | _ => matched end.
Definition left_join (lefts rights : list vrow) : list vrow :=
  lefts ≫= λ l, or_null (pairs_of l rights) (l ++ null_vector rw).
Definition right_join (lefts rights : list vrow) : list vrow :=
  rights ≫= λ r, or_null (filter (λ row, p row = true) ((λ l, l ++ r) <$> lefts)) (null_vector lw ++ r).
(** The left join, and the right rows without a partner. *)
Definition full_join (lefts rights : list vrow) : list vrow :=
  left_join lefts rights ++
  ((λ r, null_vector lw ++ r) <$> filter (λ r, forallb (λ l, negb (p (l ++ r))) lefts = true) rights).
End join_spec.

Lemma st_fold_pure {S A B} (f : B → A → ST S B) (g : B → A → B) l s : (∀ b x, x ∈ l → f b x s = (s, Ok (g b x))) →
  ∀ b, st_fold f b l s = (s, Ok (foldl g b l)).
Proof.
  induction l as [|x l IH]; intros Hf b; cbn [st_fold]; [done|]. rewrite ST_bind_eq, Hf by left.
  apply IH. intros. apply Hf. by right.
Qed.
Lemma foldl_app_bind {A B} (f : A → list B) l acc : foldl (λ next x, next ++ f x) acc l = acc ++ (l ≫= f).
Proof. revert acc. induction l as [|x l IH]; intros acc; cbn; [by rewrite app_nil_r|]. by rewrite IH, <- app_assoc. Qed.
Lemma st_filter_pure {S A} (f : A → ST S bool) (b : A → bool) l s : (∀ x, x ∈ l → f x s = (s, Ok (b x))) →
  st_filter f l s = (s, Ok (filter (λ x, b x = true) l)).
Proof.
  intros Hf. unfold st_filter. rewrite (st_fold_pure _ (λ acc x, if b x then acc ++ [x] else acc)).
  - f_equal. f_equal. enough (∀ acc, foldl (λ acc x, if b x then acc ++ [x] else acc) acc l = acc ++ filter (λ x, b x = true) l) as E by apply E.
    clear. induction l as [|x l IH]; intros acc; cbn [foldl]; [by rewrite app_nil_r|].
    rewrite IH, filter_cons. destruct (b x); cbn; [|done]. by rewrite <- app_assoc.
  - intros acc x Hx. by rewrite ST_bind_eq, (Hf x Hx).
Qed.

Section join_loops.
Context {H : Type} {RH : RowHeap H} (on : vrow → ST (Db H) bool) (p : vrow → bool) (lw rw : nat) (d : Db H).
Context (lefts rights : list vrow).
Context (Hon : ∀ l r, l ∈ lefts → r ∈ rights → on (l ++ r) d = (d, Ok (p (l ++ r)))).

Lemma matching_pairs_ok l : l ∈ lefts → matching_pairs on l rights d = (d, Ok (pairs_of p l rights)).
Proof. intros Hl. unfold matching_pairs. apply st_filter_pure. intros row (r & -> & Hr)%list_elem_of_fmap. auto. Qed.
Lemma inner_loop_ok : inner_loop on lefts rights d = (d, Ok (inner_join p lefts rights)).
Proof.
  unfold inner_loop. rewrite (st_fold_pure _ (λ next l, next ++ pairs_of p l rights)).
  - by rewrite foldl_app_bind.
  - intros next l Hl. by rewrite ST_bind_eq, matching_pairs_ok.
Qed.
Lemma or_padded_ok l m : or_padded rw l m = or_null m (l ++ null_vector rw).
Proof. by destruct m. Qed.
Lemma left_loop_ok : left_loop on rw lefts rights d = (d, Ok (left_join p rw lefts rights)).
Proof.
  unfold left_loop. rewrite (st_fold_pure _ (λ next l, next ++ or_null (pairs_of p l rights) (l ++ null_vector rw))).
  - by rewrite foldl_app_bind.
  - intros next l Hl. by rewrite ST_bind_eq, matching_pairs_ok, or_padded_ok.
Qed.
Lemma right_loop_ok : right_loop on lw lefts rights d = (d, Ok (right_join p lw lefts rights)).
Proof.
  unfold right_loop. rewrite (st_fold_pure _ (λ next r, next ++ or_null (filter (λ row, p row = true) ((λ l, l ++ r) <$> lefts)) (null_vector lw ++ r))).
  - by rewrite foldl_app_bind.
  - intros next r Hr. rewrite ST_bind_eq, (st_filter_pure _ p).
    + cbn [mret ST_ret]. by destruct (filter _ _).
    + intros row (l & -> & Hl)%list_elem_of_fmap. auto.
Qed.
End join_loops.

Lemma forallb_negb {A} (f : A → bool) l : forallb (λ x, negb (f x)) l = negb (existsb f l).
Proof. induction l as [|x l IH]; [done|]. cbn. by rewrite IH, negb_orb. Qed.

Section full_join.
Context {H : Type} {RH : RowHeap H} (on : vrow → ST (Db H) bool) (p : vrow → bool) (lw rw : nat) (d : Db H).

(** One row of the left side: its pairs, and the marks of the right side. *)
Definition full_pair_pure (l : vrow) (acc : list vrow * list bool) (ir : nat * vrow) : list vrow * list bool :=
  if p (l ++ ir.2) then (acc.1 ++ [l ++ ir.2], <[ir.1 := true]> acc.2) else acc.
Lemma full_pairs_fold l f : ∀ rights out pre, 
  foldl (full_pair_pure l) (out, pre ++ (f <$> rights)) (imap (λ i r, ((length pre + i)%nat, r)) rights) =
  (out ++ pairs_of p l rights, pre ++ ((λ r, f r || p (l ++ r)) <$> rights)).
Proof.
  induction rights as [|r rights IH]; intros out pre; [unfold pairs_of; cbn; by rewrite !app_nil_r|].
  rewrite imap_cons. cbn [foldl]. unfold full_pair_pure at 2. cbn [fst snd]. rewrite Nat.add_0_r.
  assert (∀ b, imap ((λ i r0, ((length pre + i)%nat, r0)) ∘ S) rights = imap (λ i r0, ((length (pre ++ [b]) + i)%nat, r0)) rights) as E.
  { intros b. apply imap_ext. intros i x _. cbn. rewrite length_app. cbn. by replace (length pre + 1 + i)%nat with (length pre + S i)%nat by lia. }
  assert (pairs_of p l (r :: rights) = (if p (l ++ r) then [l ++ r] else []) ++ pairs_of p l rights) as ->.
  { unfold pairs_of. rewrite fmap_cons, filter_cons. by destruct (p (l ++ r)). }
  rewrite !fmap_cons. destruct (p (l ++ r)).
  - rewrite insert_app_r_alt, Nat.sub_diag by lia. change (<[0%nat := true]> (f r :: (f <$> rights))) with (true :: (f <$> rights)).
    pose proof (IH (out ++ [l ++ r]) (pre ++ [true])) as IH'. rewrite <- !app_assoc in IH'. cbn [app] in IH' |- *.
    by rewrite (E true), IH', orb_true_r.
  - pose proof (IH out (pre ++ [f r])) as IH'. rewrite <- !app_assoc in IH'. cbn [app] in IH' |- *.
    by rewrite (E (f r)), IH', orb_false_r.
Qed.

Context (lefts rights : list vrow).
Context (Hon : ∀ l r, l ∈ lefts → r ∈ rights → on (l ++ r) d = (d, Ok (p (l ++ r)))).
Lemma full_pairs_ok l f : l ∈ lefts →
  st_fold (full_pair on l) ([], f <$> rights) (imap pair rights) d =
  (d, Ok (pairs_of p l rights, (λ r, f r || p (l ++ r)) <$> rights)).
Proof.
  intros Hl. rewrite (st_fold_pure _ (full_pair_pure l)).
  - pose proof (full_pairs_fold l f rights [] []) as E. cbn in E. by rewrite <- E.
  - intros acc [i r] Hin. unfold full_pair, full_pair_pure. cbn [fst snd]. rewrite ST_bind_eq, Hon; [done|done|].
    apply elem_of_lookup_imap in Hin as (j & x & [= _ ->] & Hx). by eapply list_elem_of_lookup_2.
Qed.

Lemma full_lefts_ok ls : ∀ out f, (∀ l, l ∈ ls → l ∈ lefts) →
  st_fold (λ acc l,
    m ← st_fold (full_pair on l) ([], acc.2) (imap pair rights);
    mret (acc.1 ++ or_padded rw l m.1, m.2)) (out, f <$> rights) ls d =
  (d, Ok (out ++ left_join p rw ls rights, (λ r, f r || existsb (λ l, p (l ++ r)) ls) <$> rights)).
Proof.
  induction ls as [|l ls IH]; intros out f Hls; cbn [st_fold].
  - assert ((λ r, f r || existsb (λ l, p (l ++ r)) []) <$> rights = f <$> rights) as ->.
    { apply list_fmap_ext. intros. cbn. by rewrite orb_false_r. }
    unfold left_join. cbn. by rewrite app_nil_r.
  - rewrite !ST_bind_eq. cbn [fst snd]. rewrite full_pairs_ok by (apply Hls; left). cbn [mret ST_ret fst snd].
    rewrite IH by (intros; apply Hls; by right). rewrite or_padded_ok, <- app_assoc.
    assert ((λ r, f r || existsb (λ l, p (l ++ r)) (l :: ls)) <$> rights =
            (λ r, (f r || p (l ++ r)) || existsb (λ l, p (l ++ r)) ls) <$> rights) as ->; [|done].
    apply list_fmap_ext. intros. cbn [existsb]. by rewrite orb_assoc.
Qed.
Lemma full_loop_ok : full_loop on lw rw lefts rights d = (d, Ok (full_join p lw rw lefts rights)).
Proof.
  unfold full_loop. rewrite ST_bind_eq.
  assert (replicate (length rights) false = (λ _, false) <$> rights) as ->. { clear Hon. induction rights; [done|]. cbn. by f_equal. }
  rewrite full_lefts_ok by done. cbn [fst snd orb app]. unfold full_join.
  assert (omap (λ rb : vrow * bool, if rb.2 then None else Some (null_vector lw ++ rb.1))
            (zip rights ((λ r, existsb (λ l, p (l ++ r)) lefts) <$> rights)) =
          (λ r, null_vector lw ++ r) <$> filter (λ r, forallb (λ l, negb (p (l ++ r))) lefts = true) rights) as ->; [|done].
  clear Hon. induction rights as [|r rs IH]; [done|]. rewrite fmap_cons. cbn [zip zip_with omap list_omap fst snd].
  rewrite filter_cons, IH, forallb_negb.
  by destruct (existsb _ _).
Qed.
End full_join.

(** C37. The nested loops of INNER, LEFT, RIGHT and FULL joins compute the joins of
    relational algebra, unmatched rows padded with NULL, whenever the ON condition has a
    value on every pair of rows. *)
Theorem join_loops_are_the_joins {H : Type} {RH : RowHeap H} (on : vrow → ST (Db H) bool) p lw rw d lefts rights :
  (∀ l r, l ∈ lefts → r ∈ rights → on (l ++ r) d = (d, Ok (p (l ++ r)))) →
  inner_loop on lefts rights d = (d, Ok (inner_join p lefts rights)) ∧
  left_loop on rw lefts rights d = (d, Ok (left_join p rw lefts rights)) ∧
  right_loop on lw lefts rights d = (d, Ok (right_join p lw lefts rights)) ∧
  full_loop on lw rw lefts rights d = (d, Ok (full_join p lw rw lefts rights)).
Proof.
  intros Hon. split; [by apply inner_loop_ok|]. split; [by apply left_loop_ok|].
  split; [by apply right_loop_ok|by apply full_loop_ok].
Qed.

(** ** Generated names of CHECK constraints *)

(** The search for a name for a CHECK constraint ends: one of the first candidates, one
    more than there are constraints, is free, and it is the one returned. *)
Theorem allocated_check_name_is_free {H : Type} (t : Table H SelectStatement) :
  check_named t (allocate_check_constraint_name t) = false ∧
  ∃ i, (1 ≤ i ≤ S (length (checks t)))%nat ∧ allocate_check_constraint_name t = check_candidate i.
Proof.
  unfold allocate_check_constraint_name.
  destruct (list_find (λ i, check_named t (check_candidate i) = false) (seq 1 (S (length (checks t))))) as [[j i]|] eqn:E.
  - apply list_find_Some in E as (Hi & Hf & _). apply list_elem_of_lookup_2, elem_of_seq in Hi.
    split; [done|]. exists i. split; [lia|done].
  - exfalso. apply list_find_None in E.
    assert (check_candidate <$> seq 1 (S (length (checks t))) ⊆+ ck_name <$> checks t) as Hsub.
    { apply NoDup_submseteq.
      - apply NoDup_fmap_2, NoDup_seq. intros i j. unfold check_candidate. intros Heq.
        apply append_inj_l in Heq. unfold std_to_string in Heq. apply (inj pretty) in Heq. lia.
      - intros name (i & -> & Hi)%list_elem_of_fmap. rewrite Forall_forall in E. specialize (E i Hi). apply not_false_is_true in E.
        unfold check_named in E. apply existsb_exists in E as (ck & Hin & Hck). apply bool_decide_eq_true in Hck.
        apply list_elem_of_fmap. exists ck. split; [done|]. by apply list_elem_of_In. }
    apply submseteq_length in Hsub. rewrite !length_fmap, length_seq in Hsub. lia.
Qed.

(** ** Rights *)

Section rights.
Context {H : Type} {RH : RowHeap H} {PH : PagedHeap H}.
Context (SH : StdHash) (udf_depth query_fuel : nat) (new_heap : H) (today storage_directory os_message : string).
Implicit Types d : Db H.

Lemma parse_cached_keeps sql d : ∃ c, (parse_cached sql d).1 = with_plan_cache c d.
Proof.
  assert (∀ c c' d, with_plan_cache c' (with_plan_cache c d) = with_plan_cache c' (H := H) d) as Htwice by by intros ?? [].
  unfold parse_cached. rewrite ST_bind_eq. cbn [st_get]. destruct (cache_get sql (plan_cache_ d)) as [c [stmt|]]; rewrite ST_bind_eq;
    cbn [st_modify mret ST_ret fst]; [by eexists|].
  rewrite ST_bind_eq. unfold st_lift at 1. destruct (parse_text sql) as [stmt| |]; [|by eexists..].
  rewrite ST_bind_eq. destruct (cacheable stmt); [|by eexists].
  unfold put_plan. rewrite ST_bind_eq. cbn [st_get]. rewrite ST_bind_eq. unfold st_lift.
  destruct (cache_put sql stmt _) as [c'| |]; cbn; [|by eexists..]. rewrite Htwice. by eexists.
Qed.

(** A statement that the role of an authenticated session does not allow is refused
    before anything is executed: only the plan cache, in which the text was looked up, may
    have changed. *)
Theorem denied_statements_do_not_run fuel sql s r stmt d :
  authenticated s = true → role s = Some r →
  (parse_cached sql (with_active_session (Some s) d)).2 = Ok stmt →
  is_statement_authorized r stmt (Some s) = false →
  ∃ c, execute_query SH udf_depth query_fuel new_heap today storage_directory os_message fuel sql (Some s) d
       = (with_plan_cache c (with_active_session None d), Ok (error_result "permission denied", Some s)).
Proof.
  intros Ha Hr Hp Hd. destruct (parse_cached_keeps sql (with_active_session (Some s) d)) as [c Hc]. exists c.
  unfold execute_query, st_catch. rewrite !ST_bind_eq. cbn [st_modify].
  assert (run_text SH udf_depth query_fuel new_heap today storage_directory os_message fuel sql (with_active_session (Some s) d) =
          (with_plan_cache c (with_active_session (Some s) d), Ok (error_result "permission denied"))) as E.
  { unfold run_text. rewrite ST_bind_eq. destruct (parse_cached _ _) as [d' r']. cbn [fst snd] in Hc, Hp. subst d' r'.
    rewrite ST_bind_eq. cbn [st_get]. unfold denied. cbn [active_session_ with_plan_cache with_active_session].
    by rewrite Ha, Hr, Hd. }
  rewrite !ST_bind_eq, E, !ST_bind_eq. cbn [st_get]. by rewrite !ST_bind_eq.
Qed.
End rights.

(** ** Concrete sessions *)

Definition MemHeap : Type := World (list page) * HeapFile.HeapFile.
Definition empty_heap : MemHeap := (fresh_pool 8 7 ([] : list page), mkHeap 7 0 [] 0 false).
Definition empty_db : Db MemHeap := new_Database (empty_catalogs (good_disk ∅)).
Definition ask (sql : string) (s : option SessionContext) : ST (Db MemHeap) (QueryResult * option SessionContext) :=
  execute_query identity_hash 10 10 empty_heap "2024-01-01" "db" "" 10 sql s.
Definition answer (r : res (QueryResult * option SessionContext)) : option (string * list vrow) :=
  match r with Ok (q, _) => Some (message q, Operators.rows q) | _ => None end.
(** The answers to statements of one session. *)
Fixpoint script (sqls : list string) (s : option SessionContext) (d : Db MemHeap)
    : Db MemHeap * option SessionContext * list (option (string * list vrow)) :=
  match sqls with
  | [] => (d, s, [])
  | sql :: sqls =>
      let '(d, r) := ask sql s d in
      let '(d, s, rs) := script sqls (match r with Ok (_, s) => s | _ => s end) d in (d, s, answer r :: rs)
  end.
Definition answers (sqls : list string) : list (option (string * list vrow)) :=
  (script sqls (Some (new_SessionContext 1).1) empty_db).2.
Definition last_answer (sqls : list string) : option (string * list vrow) := default None (last (answers sqls)).

(** A transaction that is rolled back leaves the rows as they were. *)
Example rolled_back_delete : answers
    ["CREATE TABLE t (id INT PRIMARY KEY, name STRING)"; "INSERT INTO t VALUES (1, 'a'), (2, 'b')";
     "SELECT name FROM t WHERE id = 2"; "BEGIN"; "DELETE FROM t"; "SELECT * FROM t"; "ROLLBACK"; "SELECT * FROM t"]%string =
  [Some ("CREATE TABLE OK", []); Some ("INSERT OK", []); Some ("SELECT OK", [[VString "b"]]); Some ("BEGIN OK", []);
   Some ("DELETE OK", []); Some ("SELECT OK", []); Some ("ROLLBACK OK", []);
   Some ("SELECT OK", [[VInt 1; VString "a"]; [VInt 2; VString "b"]])]%string.
Proof. vm_compute. reflexivity. Qed.

Definition sample_db : Db MemHeap :=
  (script ["CREATE TABLE t (id INT PRIMARY KEY, name STRING)"; "INSERT INTO t VALUES (1, 'a'), (2, 'b')"]%string None empty_db).1.1.

Definition parsed (sql : string) : ParsedStatement := match parse_text sql with Ok st => st | _ => SBegin end.
Lemma sample_wf : wf sample_db ∧ cleared sample_db.
Proof.
  assert (Forall (λ e : string * Z, is_Some (objects sample_db !! e.2) ∧ e.2 < next_address sample_db) (tables_ sample_db)) as Ht.
  { apply (bool_decide_unpack _). vm_compute. exact I. }
  assert (ephemeral_tables_ sample_db = []) as He by (vm_compute; reflexivity).
  assert (0 ≤ ephemeral_scope_depth_ sample_db) as Hd by (apply (bool_decide_unpack _); vm_compute; exact I).
  revert Ht He Hd. generalize sample_db. intros d Ht He Hd. split; [split|].
  - intros name a Hin. rewrite Forall_forall in Ht. exact (Ht (name, a) Hin).
  - rewrite He. by intros ?? ?%not_elem_of_nil.
  - exact Hd.
  - intros _. exact He.
Qed.
(** A correlated subquery in WHERE. *)
Definition correlated_query : ParsedStatement :=
  parsed "SELECT name FROM t a WHERE EXISTS (SELECT id FROM t b WHERE b.id > a.id)".
Lemma queries_are_read_only_witness :
  let '(d', r) := dispatch_statement identity_hash 10 10 empty_heap "2024-01-01" "db" "" 10 correlated_query sample_db in
  (Operators.rows <$> r) = Ok [[VString "a"]] ∧ same sample_db d' ∧ correlation_context_ d' = correlation_context_ sample_db.
Proof.
  destruct (dispatch_statement _ _ _ _ _ _ _ _ _ _) as [d' r] eqn:E.
  assert (rows <$> r = Ok [[VString "a"%string]]) as Hr.
  { assert (rows <$> (d', r).2 = rows <$> r) as <- by done. rewrite <- E. vm_compute. reflexivity. }
  destruct (queries_are_read_only identity_hash 10 10 empty_heap "2024-01-01" "db" "" correlated_query 10 sample_db)
    as (_ & S & _ & F); [|apply sample_wf..|].
  { vm_compute. constructor. }
  rewrite E in S, F. split; [done|]. split; [done|]. destruct r as [q| |]; [|done..]. by apply (F q).
Defined.

(** [(SELECT id FROM t b WHERE b.id > a.id)] on the row [(1, 'a')] of [a]. *)
Lemma evaluation_balances_frames_witness :
  let e := match parsed "SELECT (SELECT id FROM t b WHERE b.id > a.id) FROM t a" with
           | SSelect s => match select_columns s with c :: _ => c.1 | [] => Literal VNull end
           | _ => Literal VNull end in
  let ev := plain_evaluator "2024-01-01" [mkBinding "a" "t" "id"; mkBinding "a" "t" "name"] in
  let bound := bind_evaluator ev (Some (context (execute_select_statement identity_hash 10 empty_heap "2024-01-01" 10) sample_db)) in
  ∃ d', evaluating (evaluate_expression 10 bound (row_of_values [VInt 1; VString "a"]) true e) sample_db = (d', Ok (VInt 2, ""%string)) ∧
    correlation_context_ d' = correlation_context_ sample_db.
Proof.
  intros e ev bound.
  destruct (evaluating (evaluate_expression 10 bound (row_of_values [VInt 1; VString "a"]) true e) sample_db) as [d' r] eqn:E.
  assert (r = Ok (VInt 2, ""%string)) as ->.
  { change r with (d', r).2. rewrite <- E. vm_compute. reflexivity. }
  exists d'. split; [done|].
  destruct (evaluation_balances_frames identity_hash 10 empty_heap "2024-01-01" 10 ev (row_of_values [VInt 1; VString "a"]) true e None sample_db)
    as [F _]; [apply sample_wf|]. by eapply F.
Defined.

(** ON of [t] with itself, as the join executor evaluates it. *)
Definition sample_on (row : vrow) : ST (Db MemHeap) bool :=
  on_eval (evaluate_condition 10
    (plain_evaluator "2024-01-01" [mkBinding "a" "t" "id"; mkBinding "a" "t" "name"; mkBinding "b" "t" "id"; mkBinding "b" "t" "name"])
    (row_of_values row) (where_condition (match parsed "SELECT * FROM t WHERE a.id = b.id" with SSelect s => s | _ => mkSelect [] "" "" None [] None [] [] false 0 0 end))).
Definition same_id (row : vrow) : bool := bool_decide (row !! 0%nat = row !! 2%nat).
Lemma join_loops_are_the_joins_witness :
  let ls := [[VInt 1; VString "x"]; [VInt 2; VString "y"]]%string in
  let rs := [[VInt 2; VString "z"]; [VInt 3; VString "w"]]%string in
  full_loop sample_on 2 2 ls rs empty_db =
    (empty_db, Ok [[VInt 1; VString "x"; VNull; VNull]; [VInt 2; VString "y"; VInt 2; VString "z"];
                   [VNull; VNull; VInt 3; VString "w"]]%string).
Proof.
  intros ls rs. destruct (join_loops_are_the_joins sample_on same_id 2 2 empty_db ls rs) as (_ & _ & _ & E).
  - intros l r Hl Hr. subst ls rs. rewrite !elem_of_cons, elem_of_nil in Hl, Hr.
    destruct Hl as [->|[->|[]]], Hr as [->|[->|[]]]; vm_compute; reflexivity.
  - rewrite E. vm_compute. reflexivity.
Defined.

Definition reader_session : SessionContext := set_auth true "eve" (Some Reader) (new_SessionContext 1).1.
Lemma denied_statements_do_not_run_witness :
  ∃ c, ask "DELETE FROM t" (Some reader_session) sample_db =
       (with_plan_cache c (with_active_session None sample_db), Ok (error_result "permission denied", Some reader_session)).
Proof.
  apply (denied_statements_do_not_run identity_hash 10 10 empty_heap "2024-01-01" "db" "" 10 "DELETE FROM t" reader_session
    Reader (parsed "DELETE FROM t") sample_db); vm_compute; reflexivity.
Defined.

(** ** Restarts *)

(** The files that are directly in a directory. *)
Definition names_in (fs : Fs) (dir : string) : list string :=
  omap (λ p : string * string,
    let name := String.substring (String.length dir + 1) (String.length p.1) p.1 in
    if String.prefix (dir +:+ "/") p.1 && forallb (λ c, negb (Ascii.nat_of_ascii c =? 47)%nat) (String.list_ascii_of_string name)
    then Some name else None) (map_to_list (files fs)).
Definition restart (d : Db MemHeap) : Db MemHeap :=
  (load_from_disk empty_heap "2024-01-01" "db" names_in (new_Database (empty_catalogs (disk (catalogs_ d))))).1.
Definition new_session (id : Z) : option SessionContext := Some (new_SessionContext id).1.

(** Tables, views and partitions are there again. *)
Example database_survives_restart :
  let d := (script ["CREATE TABLE u (n INT)"; "CREATE VIEW v AS SELECT n FROM u WHERE n > 1"; "INSERT INTO u VALUES (1), (2)";
    "CREATE TABLE p (k INT) PARTITION BY RANGE (k)"; "CREATE TABLE p1 PARTITION OF p FOR VALUES FROM (0) TO (10)";
    "INSERT INTO p VALUES (3)"; "BEGIN"; "INSERT INTO u VALUES (4)"; "COMMIT"]%string (new_session 1) empty_db).1.1 in
  (script ["SELECT * FROM v"; "SELECT * FROM p"]%string None (restart d)).2 =
  [Some ("SELECT OK", [[VInt 2]; [VInt 4]]); Some ("SELECT OK", [[VInt 3]])]%string.
Proof. vm_compute. reflexivity. Qed.

Definition table_u : Db MemHeap := (script ["CREATE TABLE u (n INT)"]%string None empty_db).1.1.

(** Restarts break transactions.  A row whose transaction committed while an older
    snapshot was open is gone after a restart; and a row of a transaction that never ended,
    written to disk with the statement of another session, is seen after a restart by the
    first transaction that gets the same number again. *)
Theorem restart_breaks_transactions :
  (let '(d, _, _) := script ["BEGIN"]%string (new_session 1) table_u in
   let '(d, _, before) := script ["BEGIN"; "INSERT INTO u VALUES (99)"; "COMMIT"; "SELECT * FROM u"]%string (new_session 2) d in
   last before = Some (Some ("SELECT OK"%string, [[VInt 99]])) ∧
   (script ["SELECT * FROM u"]%string None (restart d)).2 = [Some ("SELECT OK"%string, [])]) ∧
  (let '(d, _, _) := script ["BEGIN"; "INSERT INTO u VALUES (99)"]%string (new_session 1) table_u in
   let '(d, _, _) := script ["INSERT INTO u VALUES (1)"]%string None d in
   (script ["SELECT * FROM u"; "BEGIN"; "SELECT * FROM u"; "COMMIT"; "SELECT * FROM u"]%string (new_session 1) (restart d)).2 =
   [Some ("SELECT OK", [[VInt 1]]); Some ("BEGIN OK", []); Some ("SELECT OK", [[VInt 99]; [VInt 1]]); Some ("COMMIT OK", []);
    Some ("SELECT OK", [[VInt 99]; [VInt 1]])]%string).
Proof. vm_compute. repeat split; reflexivity. Qed.

(** An exception inside a trigger body leaves the trigger depth and the frame of NEW
    behind: a column that no table has is then found in that frame, and after sixteen
    such statements every trigger of the session is refused. *)
Theorem throwing_trigger_disables_triggers :
  let setup := ["CREATE TABLE t (id INT)"; "CREATE TABLE u (n INT)"; "INSERT INTO u VALUES (1)"; "CREATE TABLE l (m INT)";
    "CREATE TRIGGER g BEFORE INSERT ON t FOR EACH ROW EXECUTE $$ UPDATE u SET n = 1 / 0 $$";
    "CREATE TRIGGER h AFTER INSERT ON u FOR EACH ROW EXECUTE $$ INSERT INTO l VALUES (7) $$"]%string in
  let failing n := replicate n "INSERT INTO t VALUES (1)"%string in
  last_answer (setup ++ ["SELECT n FROM u WHERE id = 1"]%string) = Some ("SELECT OK"%string, []) ∧
  last_answer (setup ++ failing 1%nat ++ ["SELECT n FROM u WHERE id = 1"]%string) = Some ("SELECT OK"%string, [[VInt 1]]) ∧
  last_answer (setup ++ failing 15%nat ++ ["INSERT INTO u VALUES (6)"]%string) = Some ("INSERT OK"%string, []) ∧
  last_answer (setup ++ failing 16%nat ++ ["INSERT INTO u VALUES (6)"]%string) =
    Some ("Trigger recursion depth exceeded (max 16)"%string, []).
Proof. vm_compute. repeat split; reflexivity. Qed.

(** A join that uses an index finds rows that the transaction itself deleted. *)
Example indexed_join_shows_deleted_rows :
  answers ["CREATE TABLE u (n INT PRIMARY KEY)"; "CREATE TABLE w (m INT)"; "INSERT INTO u VALUES (1)"; "INSERT INTO w VALUES (1)";
    "BEGIN"; "DELETE FROM u"; "SELECT * FROM u"; "SELECT * FROM w LEFT JOIN u ON w.m = u.n"]%string !! 7%nat =
  Some (Some ("SELECT OK"%string, [[VInt 1; VInt 1]])).
Proof. vm_compute. reflexivity. Qed.
