(* ===== verification/Protocol.v ===== *)
(** * The wire protocol

    Requests and responses as text (src/network/protocol.cc): the format of results with
    tabs and newlines, the requests between nodes, and their parsing. *)

From Stdlib Require Import ZArith Lia Ascii.
From S2P Require Import Prelude CppNum Values Operators FileSystem Auth.

Definition kWireNull : string := "\N".
Definition tab : ascii := "009".
Definition carriage_return : ascii := "013".
Definition bar : ascii := "|".

Definition split_tabs : string → list string := split_on tab.
Definition encode_wire_cell (v : value) : string := if is_null v then kWireNull else Values.to_string v.
Definition decode_wire_cell (cell : string) : value := if bool_decide (cell = kWireNull) then VNull else VString cell.

(** [s.find(c)]: the text before the first [c] and the one after it. *)
Fixpoint cut_at (c : ascii) (s : string) : option (string * string) :=
  match s with
  | EmptyString => None
  | String x s => if Ascii.eqb x c then Some (""%string, s) else '(a, b) ← cut_at c s; Some (String x a, b)
  end.
(** [s.back() == c] for some [c] of the list. *)
Definition back_is (cs : list ascii) (s : string) : bool :=
  match last (String.list_ascii_of_string s) with Some x => bool_decide (x ∈ cs) | None => false end.
Definition pop_back (s : string) : string := String.string_of_list_ascii (removelast (String.list_ascii_of_string s)).
Definition pop_if (cs : list ascii) (s : string) : string := if back_is cs s then pop_back s else s.

Record Request : Type := mkRequest { req_type : string; req_data : string }.
Record Response : Type := mkResponse {
  resp_success : bool;
  resp_message : string;
  resp_columns : list string;
  resp_rows : list (list string)
}.

Definition parse_request (message : string) : res Request :=
  match cut_at bar message with
  | None => Throw (std_runtime_error "Invalid request format")
  | Some (type, data) => Ok (mkRequest type (pop_if [newline] data))
  end.

(** Fields with a separator between them. *)
Fixpoint join (c : ascii) (fields : list string) : string :=
  match fields with
  | [] => ""
  | [f] => f
  | f :: fields => f +:+ String c (join c fields)
  end.
Definition format_response (r : Response) : string :=
  if negb (resp_success r) then "ERROR|" +:+ resp_message r +:+ String newline ""
  else "OK|" +:+ join tab (resp_columns r) +:+ String newline (unlines (join tab <$> resp_rows r)).
Definition format_query_result (q : QueryResult) : string :=
  format_response (mkResponse (success q) (message q) (column_names q) ((λ row : vrow, encode_wire_cell <$> row) <$> Operators.rows q)).

Definition format_rpc_query (rpc_secret sql : string) : string :=
  "RPC_QUERY|" +:+ rpc_secret +:+ String bar (sql +:+ String newline "").
(** Secret and statement, unless one of them is empty. *)
Definition split_rpc_query (data : string) : option (string * string) :=
  '(secret, sql) ← cut_at bar data;
  if bool_decide (secret = ""%string) || bool_decide (sql = ""%string) then None else Some (secret, sql).

(** The lines of a body: carriage returns are dropped, an empty last line only counts after a
    newline. *)
Definition without_cr (s : string) : string :=
  String.string_of_list_ascii (filter (λ x, x ≠ carriage_return) (String.list_ascii_of_string s)).
Definition body_lines (body : string) : list string :=
  let ws := split_on newline (without_cr body) in
  match last ws with
  | Some "" => if back_is [newline] body then ws else removelast ws
  | _ => ws
  end.
(** An empty line is a row with one empty cell, unless there are no columns. *)
Definition parse_rows (columns : list string) (ls : list string) : list vrow :=
  omap (λ l, if bool_decide (l = ""%string) && bool_decide (length columns = 0%nat) then None
             else Some (decode_wire_cell <$> split_tabs l)) ls.
Definition parse_columns (l : string) : list string :=
  let cs := split_tabs l in if bool_decide (cs = [""%string]) then [] else cs.
Definition parse_query_result (message : string) : QueryResult :=
  if String.prefix "ERROR|" message then
    error_result (pop_if [newline] (String.substring 6 (String.length message) message))
  else if negb (String.prefix "OK|" message) then error_result "invalid RPC response"
  else
    let body := String.substring 3 (String.length message) message in
    let body := pop_if [carriage_return] (pop_if [newline; carriage_return] body) in
    if bool_decide (body = ""%string) then success_result "OK"
    else match body_lines body with
    | [] => success_result "OK"
    | l :: ls => mkResult true "OK" (parse_columns l) (parse_rows (parse_columns l) ls) 0
    end.

Example empty_string_row : parse_query_result (format_query_result (mkResult true "SELECT OK" ["s"] [[VString ""]] 1)) =
  mkResult true "OK" ["s"%string] [[VString ""]] 0.
Proof. reflexivity. Qed.
Example null_is_not_empty : parse_query_result (format_query_result (mkResult true "" ["a"; "b"] [[VNull; VInt 5]] 1)) =
  mkResult true "OK" ["a"; "b"]%string [[VNull; VString "5"]] 0.
Proof. reflexivity. Qed.

(** ** Texts *)

Lemma chars_inj a b : String.list_ascii_of_string a = String.list_ascii_of_string b → a = b.
Proof.
  intros E. rewrite <- (String.string_of_list_ascii_of_string a), <- (String.string_of_list_ascii_of_string b). by rewrite E.
Qed.
Lemma chars_snoc a c : String.list_ascii_of_string (a +:+ String c "") = String.list_ascii_of_string a ++ [c].
Proof. by rewrite chars_app. Qed.
Lemma back_is_snoc cs a c : back_is cs (a +:+ String c "") = bool_decide (c ∈ cs).
Proof. unfold back_is. by rewrite chars_snoc, last_snoc. Qed.
Lemma pop_back_snoc a c : pop_back (a +:+ String c "") = a.
Proof. unfold pop_back. rewrite chars_snoc, removelast_last. apply String.string_of_list_ascii_of_string. Qed.
Lemma pop_if_snoc cs a c : c ∈ cs → pop_if cs (a +:+ String c "") = a.
Proof. intros Hc. unfold pop_if. by rewrite back_is_snoc, bool_decide_true, pop_back_snoc. Qed.
Lemma back_is_free cs a : (∀ c, c ∈ cs → free_of c a) → back_is cs a = false.
Proof.
  intros Hf. unfold back_is. destruct (last (String.list_ascii_of_string a)) as [x|] eqn:E; [|done].
  apply bool_decide_eq_false. intros Hx. apply (Hf x Hx). by apply last_Some_elem_of.
Qed.
Lemma pop_if_free cs a : (∀ c, c ∈ cs → free_of c a) → pop_if cs a = a.
Proof. intros Hf. unfold pop_if. by rewrite back_is_free. Qed.
Lemma cut_at_app c a b : free_of c a → cut_at c (a +:+ String c b) = Some (a, b).
Proof.
  unfold free_of. induction a as [|x a IH].
  - intros _. change ("" +:+ String c b) with (String c b). cbn [cut_at]. by rewrite Ascii.eqb_refl.
  - cbn [String.list_ascii_of_string]. intros [Hx Ha]%not_elem_of_cons.
    change (String x a +:+ String c b) with (String x (a +:+ String c b)). cbn [cut_at].
    rewrite (IH Ha). destruct (Ascii.eqb_spec x c); [by subst|done].
Qed.
Lemma substring_all b n : (String.length b ≤ n)%nat → String.substring 0 n b = b.
Proof.
  revert n. induction b as [|x b IH]; intros [|n] Hn; cbn [String.length] in Hn; try lia; [done..|]. cbn. by rewrite IH by lia.
Qed.
Lemma substring_after a b : String.substring (String.length a) (String.length (a +:+ b)) (a +:+ b) = b.
Proof.
  rewrite length_append. transitivity (String.substring 0 (String.length a + String.length b) b); [|apply substring_all; lia].
  generalize (String.length a + String.length b)%nat. intros n. induction a as [|x a IH]; [done|].
  change (String x a +:+ b) with (String x (a +:+ b)). cbn. apply IH.
Qed.
Lemma without_cr_free a : free_of carriage_return a → without_cr a = a.
Proof.
  unfold without_cr, free_of. intros Ha. rewrite <- (String.string_of_list_ascii_of_string a) at 2. f_equal.
  induction (String.list_ascii_of_string a) as [|x l IH]; [done|]. apply not_elem_of_cons in Ha as [Hx Hl].
  rewrite filter_cons_True by congruence. by rewrite IH.
Qed.

Lemma split_join c fs : Forall (free_of c) fs → fs ≠ [] → split_on c (join c fs) = fs.
Proof.
  intros Hf Hne. induction fs as [|f fs IH]; [done|]. apply Forall_cons in Hf as [Hf Hfs].
  destruct fs as [|g fs]; [by apply split_on_free|].
  change (join c (f :: g :: fs)) with (f +:+ String c (join c (g :: fs))). rewrite split_on_app by done. by rewrite IH.
Qed.
Lemma free_of_cons c x a : x ≠ c → free_of c a → free_of c (String x a).
Proof. unfold free_of. cbn. intros Hx Ha. rewrite not_elem_of_cons. split; congruence. Qed.
Lemma free_of_nil c : free_of c "".
Proof. unfold free_of. apply not_elem_of_nil. Qed.
Lemma join_free c x fs : x ≠ c → Forall (free_of c) fs → free_of c (join x fs).
Proof.
  intros Hx Hf. induction Hf as [|f fs Hf Hfs IH]; [apply free_of_nil|]. destruct fs as [|g fs]; [done|].
  change (join x (f :: g :: fs)) with (f +:+ String x (join x (g :: fs))). apply free_of_app; [done|by apply free_of_cons].
Qed.
(** Lines joined, and one more newline, are the lines each with its newline. *)
Lemma unlines_join l ls : l +:+ String newline (unlines ls) = join newline (l :: ls) +:+ String newline "".
Proof.
  revert l. induction ls as [|m ls IH]; intros l; [done|]. cbn [unlines].
  change (join newline (l :: m :: ls)) with (l +:+ String newline (join newline (m :: ls))).
  rewrite IH, append_assoc. done.
Qed.

(** ** Round trips *)

(** What the other end gets of a result: cells are text, the number of affected rows and
    the message are not sent. *)
Definition wire_value (v : value) : value := if is_null v then VNull else VString (Values.to_string v).
Definition received (q : QueryResult) : QueryResult :=
  if success q then mkResult true "OK" (column_names q) ((λ row : vrow, wire_value <$> row) <$> Operators.rows q) 0
  else error_result (message q).

(** Texts that survive: no separators in them. *)
Definition wire_text (s : string) : Prop := free_of tab s ∧ free_of newline s ∧ free_of carriage_return s.
Definition wire_cell (v : value) : Prop := wire_text (encode_wire_cell v) ∧ (encode_wire_cell v = kWireNull → v = VNull).
Record wire_ok (q : QueryResult) : Prop := {
  columns_ok : Forall wire_text (column_names q) ∧ column_names q ≠ [""%string];
  rows_ok : Forall (λ row, row ≠ [] ∧ Forall wire_cell row) (Operators.rows q);
  headed : column_names q = [] → Operators.rows q = []
}.

Lemma decode_encode v : wire_cell v → decode_wire_cell (encode_wire_cell v) = wire_value v.
Proof.
  intros [_ Hv]. unfold decode_wire_cell. case_bool_decide as E; [by rewrite (Hv E)|].
  unfold encode_wire_cell, wire_value in *. by destruct (is_null v).
Qed.
Lemma row_line_ok row : row ≠ [] → Forall wire_cell row →
  decode_wire_cell <$> split_tabs (join tab (encode_wire_cell <$> row)) = wire_value <$> row.
Proof.
  intros Hne Hr. unfold split_tabs. rewrite split_join.
  - rewrite <- list_fmap_compose. apply Forall_fmap_ext_1. eapply Forall_impl; [exact Hr|]. intros v Hv. by apply decode_encode.
  - apply Forall_fmap. eapply Forall_impl; [exact Hr|]. by intros v [[? _] _].
  - by destruct row.
Qed.
Lemma joined_text fs : Forall wire_text fs → free_of newline (join tab fs) ∧ free_of carriage_return (join tab fs).
Proof.
  intros Hf. split; (apply join_free; [done|]); (eapply Forall_impl; [exact Hf|]); by intros f (? & ? & ?).
Qed.
Lemma back_newline l ls : Forall (free_of newline) (l :: ls) → last (l :: ls) = Some ""%string → join newline (l :: ls) ≠ ""%string →
  back_is [newline] (join newline (l :: ls)) = true.
Proof.
  revert l. induction ls as [|m ls IH]; intros l Hf Hl Hne; [cbn in Hl; injection Hl as ->; done|].
  change (join newline (l :: m :: ls)) with (l +:+ String newline (join newline (m :: ls))).
  destruct ls as [|k ls].
  - cbn in Hl. injection Hl as ->. change (join newline [""%string]) with ""%string. rewrite back_is_snoc. by apply bool_decide_true; left.
  - apply Forall_cons in Hf as [_ Hf].
    assert (back_is [newline] (join newline (m :: k :: ls)) = true) as Hb.
    { apply IH; [done|exact Hl|]. cbn [join]. by destruct m. }
    unfold back_is in *. rewrite chars_app, last_app. cbn [String.list_ascii_of_string].
    rewrite last_cons. by destruct (last (String.list_ascii_of_string (join newline (m :: k :: ls)))).
Qed.
Lemma body_lines_join l ls : Forall (free_of newline) (l :: ls) → Forall (free_of carriage_return) (l :: ls) →
  join newline (l :: ls) ≠ ""%string → body_lines (join newline (l :: ls)) = l :: ls.
Proof.
  intros Hn Hc Hne. unfold body_lines. rewrite without_cr_free by (by apply join_free). rewrite split_join by done. cbv zeta.
  destruct (last (l :: ls)) as [[|x w]|] eqn:El; [|done..]. by rewrite back_newline.
Qed.
Lemma parse_columns_join cs : Forall wire_text cs → cs ≠ [""%string] → parse_columns (join tab cs) = cs.
Proof.
  intros Hc Hne. unfold parse_columns, split_tabs. destruct cs as [|c cs]; [done|].
  rewrite split_join; [by rewrite bool_decide_false| |done]. eapply Forall_impl; [exact Hc|]. by intros ? (? & _).
Qed.
Lemma parse_rows_ok cs rs : cs ≠ [] → Forall (λ row, row ≠ [] ∧ Forall wire_cell row) rs →
  parse_rows cs ((λ row : vrow, join tab (encode_wire_cell <$> row)) <$> rs) = (λ row : vrow, wire_value <$> row) <$> rs.
Proof.
  intros Hcs Hr. unfold parse_rows. rewrite (bool_decide_false (length cs = 0%nat)) by (by destruct cs).
  induction Hr as [|row rs [Hne Hrow] Hr IH]; [done|]. rewrite !fmap_cons. cbn [omap list_omap].
  rewrite andb_false_r, row_line_ok by done. by rewrite IH.
Qed.

Lemma ok_prefixes x : String.prefix "ERROR|" ("OK|" +:+ x) = false ∧ String.prefix "OK|" ("OK|" +:+ x) = true.
Proof. by destruct x. Qed.
Lemma error_prefix x : String.prefix "ERROR|" ("ERROR|" +:+ x) = true.
Proof. by destruct x. Qed.

(** C16. A result sent to a client or a coordinator is read back as it was, with cells as
    text: an error with its message, a table with its columns and rows in which NULL and the
    empty string stay apart, provided that no column name or cell contains a tab or a line
    break, no cell is the text [\N] that stands for NULL, no row is without cells, the
    header is not one empty name, and there are no rows without a header. *)
Theorem wire_round_trip q : wire_ok q → parse_query_result (format_query_result q) = received q.
Proof.
  intros [[Hc Hc1] Hr Hh]. unfold format_query_result, format_response, received. cbn [resp_success resp_message resp_columns resp_rows].
  destruct (success q); cbn [negb].
  - rewrite unlines_join. unfold parse_query_result.
    rewrite (proj1 (ok_prefixes _)), (proj2 (ok_prefixes _)). cbv iota. cbn [negb].
    rewrite (substring_after "OK|"), pop_if_snoc by left.
    rewrite <- list_fmap_compose. change (join tab ∘ _) with (λ row : vrow, join tab (encode_wire_cell <$> row)).
    set (ls := (λ row : vrow, join tab (encode_wire_cell <$> row)) <$> Operators.rows q).
    assert (Forall (free_of newline) (join tab (column_names q) :: ls) ∧ Forall (free_of carriage_return) (join tab (column_names q) :: ls))
      as [Hn Hcr].
    { assert (Forall (λ l, free_of newline l ∧ free_of carriage_return l) (join tab (column_names q) :: ls)) as Hl.
      { constructor; [by apply joined_text|]. apply Forall_fmap. eapply Forall_impl; [exact Hr|]. intros row [_ Hrow].
        apply joined_text, Forall_fmap. eapply Forall_impl; [exact Hrow|]. by intros v [? _]. }
      split; (eapply Forall_impl; [exact Hl|]); by intros ? [? ?]. }
    rewrite pop_if_free by (intros c ->%list_elem_of_singleton; by apply join_free).
    case_bool_decide as Eb.
    + assert (column_names q = []) as Ec.
      { destruct (column_names q) as [|c [|c' cs]]; [done| |]; exfalso.
        - apply Hc1. f_equal. revert Eb. destruct ls; [done|]. by destruct c.
        - revert Eb. destruct ls, c; done. }
      rewrite Ec, (Hh Ec). done.
    + rewrite body_lines_join by done. rewrite parse_columns_join by done.
      destruct (column_names q) as [|c cs] eqn:Ec.
      { subst ls. rewrite (Hh eq_refl) in *. by exfalso. }
      subst ls. by rewrite parse_rows_ok.
  - unfold parse_query_result. rewrite error_prefix. cbv iota.
    rewrite (substring_after "ERROR|"), pop_if_snoc by left. done.
Qed.

(** A statement sent from a coordinator to a worker arrives as it was sent, with the
    secret it was sent with, whatever it contains. *)
Theorem rpc_request_round_trip secret sql :
  free_of bar secret → secret ≠ ""%string → sql ≠ ""%string →
  ∃ r, parse_request (format_rpc_query secret sql) = Ok r ∧ req_type r = "RPC_QUERY"%string ∧
       split_rpc_query (req_data r) = Some (secret, sql).
Proof.
  intros Hf Hs Hq. unfold parse_request, format_rpc_query.
  change ("RPC_QUERY|" +:+ ?x) with ("RPC_QUERY" +:+ String bar x).
  rewrite cut_at_app. 2: { apply (bool_decide_unpack _). by vm_compute. }
  eexists. split; [done|]. split; [done|]. cbn [req_data].
  change (secret +:+ String bar (sql +:+ String newline "")) with (secret +:+ (String bar sql +:+ String newline "")).
  rewrite <- append_assoc, pop_if_snoc by left. unfold split_rpc_query. rewrite cut_at_app by done. cbn.
  by rewrite !bool_decide_false.
Qed.

Lemma wire_round_trip_witness :
  parse_query_result (format_query_result (mkResult true "SELECT OK" ["id"; "s"] [[VInt 7; VString ""]; [VNull; VString "x y"]] 2))
  = mkResult true "OK" ["id"; "s"]%string [[VString "7"; VString ""]; [VNull; VString "x y"]] 0.
Proof.
  rewrite wire_round_trip; [reflexivity|]. split; [split|..].
  - repeat constructor; apply (bool_decide_unpack _); by vm_compute.
  - done.
  - repeat constructor; try done; try (apply (bool_decide_unpack _); by vm_compute).
  - done.
Defined.
Lemma rpc_request_round_trip_witness :
  ∃ r, parse_request (format_rpc_query "k3y" "SELECT a|b FROM t") = Ok r ∧ req_type r = "RPC_QUERY"%string ∧
       split_rpc_query (req_data r) = Some ("k3y", "SELECT a|b FROM t")%string.
Proof. apply rpc_request_round_trip; [apply (bool_decide_unpack _); by vm_compute|done..]. Defined.

(** A tab in a value shifts the columns after it. *)
Example tab_in_a_value_adds_a_column :
  Operators.rows (parse_query_result (format_query_result (mkResult true "" ["a"] [[VString ("x" +:+ String tab "y")]] 1))) =
  [[VString "x"; VString "y"]].
Proof. reflexivity. Qed.
