(* ===== verification/Shards.v ===== *)
(** * Shards

    The static map from child partitions to workers (src/core/shard_map.cc), the router that
    composes it with the partitions of a table (src/core/shard_router.cc) and the merging of
    the answers of workers (src/network/result_merger.cc).  A function of the source that
    returns [nullopt] and writes a reason returns the reason on the left. *)

From Stdlib Require Import ZArith Lia Ascii Sorted.
From S2P Require Import Prelude CppNum Values Rows Expr Evaluator Partition RowHeap Table Operators FileSystem.

(** ** [std::map] with integer keys *)

Abbreviation zmap A := (list (Z * A)).
Fixpoint zm_find {A} (key : Z) (m : zmap A) : option A :=
  match m with
  | [] => None
  | (k, a) :: m => if k =? key then Some a else zm_find key m
  end.
Fixpoint zm_set {A} (key : Z) (a : A) (m : zmap A) : zmap A :=
  match m with
  | [] => [(key, a)]
  | (k, b) :: m' =>
      if k =? key then (key, a) :: m'
      else if key <? k then (key, a) :: m
      else (k, b) :: zm_set key a m'
  end.

(** ** The map *)

Record ShardEndpoint : Type := mkEndpoint { shardId : Z; host : string; port : Z }.
Record ShardMap : Type := mkShardMap { workers_ : zmap ShardEndpoint; placements_ : smap Z }.
#[export] Instance endpoint_eq_dec : EqDecision ShardEndpoint.
Proof. solve_decision. Defined.

Definition trim (text : string) : string :=
  String.string_of_list_ascii (rev (skip_space (rev (skip_space (String.list_ascii_of_string text))))).
(** [text.c_str()]: up to the first NUL. *)
Fixpoint c_str (text : string) : string :=
  match text with
  | EmptyString => ""
  | String c text => if char_code c =? 0 then "" else String c (c_str text)
  end.
(** [strtol] saturates; the conversion to [int] wraps. *)
Definition strtol (text : string) : option (Z * list ascii) :=
  let '(neg, r) := split_sign (skip_space (String.list_ascii_of_string text)) in
  let '(v, n, rest) := digits 10 0 0 r in
  if (n =? 0)%nat then None else Some (Z.max (- 2 ^ 63) (Z.min (2 ^ 63 - 1) (if neg then - v else v)), rest).
Definition parseInt (text : string) : option Z :=
  match strtol (c_str text) with
  | Some (parsed, []) => Some (s_wrap 32 parsed)
  | _ => None
  end.
Definition parsePort (text : string) : option Z :=
  v ← parseInt text; if (v <=? 0) || (65535 <? v) then None else Some v.

(** The first placement, in the order of the names, whose shard is unknown. *)
Fixpoint unknown_shard (workers : zmap ShardEndpoint) (ps : smap Z) : option (string * Z) :=
  match ps with
  | [] => None
  | (child, id) :: ps => if zm_find id workers then unknown_shard workers ps else Some (child, id)
  end.
Definition validate (map : ShardMap) : option string :=
  if bool_decide (workers_ map = []) then Some "shard map has no workers"%string
  else if bool_decide (placements_ map = []) then Some "shard map has no placements"%string
  else match unknown_shard (workers_ map) (placements_ map) with
  | Some (child, id) => Some ("placement for " +:+ child +:+ " references unknown shard " +:+ std_to_string id)
  | None => None
  end.
Definition validated (map : ShardMap) : string + ShardMap :=
  match validate map with Some e => inl e | None => inr map end.

Definition duplicate_shard (id : Z) : string := "duplicate shard id " +:+ std_to_string id.
Definition add_worker (e : ShardEndpoint) (map : ShardMap) : ShardMap :=
  mkShardMap (zm_set (shardId e) e (workers_ map)) (placements_ map).
Fixpoint build_workers (workers : list ShardEndpoint) (map : ShardMap) : string + ShardMap :=
  match workers with
  | [] => inr map
  | e :: workers =>
      if zm_find (shardId e) (workers_ map) then inl (duplicate_shard (shardId e))
      else if bool_decide (host e = ""%string) || (port e =? 0) then inl "invalid worker endpoint"%string
      else build_workers workers (add_worker e map)
  end.
Definition build (workers : list ShardEndpoint) (placements : smap Z) : string + ShardMap :=
  match build_workers workers (mkShardMap [] []) with
  | inl e => inl e
  | inr map => validated (mkShardMap (workers_ map) placements)
  end.

(** ** The file *)

(** [while (stream >> field)]. *)
Fixpoint fields_from (current : list ascii) (l : list ascii) : list (list ascii) :=
  match l with
  | [] => match current with [] => [] | _ => [rev current] end
  | c :: l =>
      if is_space c then match current with [] => fields_from [] l | _ => rev current :: fields_from [] l end
      else fields_from (c :: current) l
  end.
Definition fields (line : string) : list string :=
  String.string_of_list_ascii <$> fields_from [] (String.list_ascii_of_string line).

Definition worker_line (number : Z) (id hostname prt : string) (map : ShardMap) : string + ShardMap :=
  match parseInt id, parsePort prt with
  | Some id, Some p =>
      if zm_find id (workers_ map) then inl (duplicate_shard id) else inr (add_worker (mkEndpoint id hostname p) map)
  | _, _ => inl ("invalid worker line " +:+ std_to_string number)
  end.
Definition placement_line (number : Z) (child id : string) (map : ShardMap) : string + ShardMap :=
  match parseInt id with
  | None => inl ("invalid placement line " +:+ std_to_string number)
  | Some id =>
      if sm_has child (placements_ map) then inl ("duplicate placement for " +:+ child)
      else inr (mkShardMap (workers_ map) (sm_set child id (placements_ map)))
  end.
Definition map_line (number : Z) (line : string) (map : ShardMap) : string + ShardMap :=
  let trimmed := trim line in
  if bool_decide (trimmed = ""%string) || String.prefix "#" trimmed then inr map
  else match fields trimmed with
  | [id; hostname; prt] => worker_line number id hostname prt map
  | [child; id] => placement_line number child id map
  | _ => inl ("invalid shard map line " +:+ std_to_string number)
  end.
Fixpoint map_lines (number : Z) (ls : list string) (map : ShardMap) : string + ShardMap :=
  match ls with
  | [] => inr map
  | l :: ls =>
      match map_line number l map with inl e => inl e | inr map => map_lines (number + 1) ls map end
  end.
Definition loadFromFile (path : string) (fs : Fs) : string + ShardMap :=
  match fs_read path fs with
  | None => inl ("cannot open shard map: " +:+ path)
  | Some text => match map_lines 1 (lines text) (mkShardMap [] []) with inl e => inl e | inr map => validated map end
  end.

(** ** Lookups *)

Definition listWorkers (map : ShardMap) : list ShardEndpoint := (workers_ map).*2.
Definition findEndpoint (id : Z) (map : ShardMap) : option ShardEndpoint := zm_find id (workers_ map).
Definition findShardId (child : string) (map : ShardMap) : option Z := sm_find child (placements_ map).
Definition hasPlacement (child : string) (map : ShardMap) : bool := sm_has child (placements_ map).
Definition firstWorker (map : ShardMap) : option ShardEndpoint := snd <$> head (workers_ map).

Definition resolveChildName (child : string) (map : ShardMap) : string + ShardEndpoint :=
  match findShardId child map with
  | None => inl ("no shard placement for partition " +:+ child)
  | Some id =>
      match findEndpoint id map with
      | None => inl ("unknown shard id " +:+ std_to_string id)
      | Some e => inr e
      end
  end.
(** One loop of [resolveChildren]; it looks a child up the way [resolveChildName] does, and
    keeps the endpoint under the shard id of the placement. *)
Fixpoint collect_shards (children : list string) (map : ShardMap) (unique : zmap ShardEndpoint)
    : string + zmap ShardEndpoint :=
  match children with
  | [] => inr unique
  | child :: children =>
      match findShardId child map with
      | None => inl ("no shard placement for partition " +:+ child)
      | Some id =>
          match findEndpoint id map with
          | None => inl ("unknown shard id " +:+ std_to_string id)
          | Some e => collect_shards children map (zm_set id e unique)
          end
      end
  end.
Definition resolveChildren (children : list string) (map : ShardMap) : string + list ShardEndpoint :=
  match collect_shards children map [] with inl e => inl e | inr unique => inr unique.*2 end.

Definition resolveKey (router : PartitionRouter) (key : value) (map : ShardMap) : string + ShardEndpoint :=
  match resolveChild router key with
  | None => inl ("no partition for key " +:+ Values.to_string key)
  | Some child => resolveChildName child map
  end.
Definition resolvePrune (router : PartitionRouter) (request : list PartitionPruneConstraint) (map : ShardMap)
    : string + list ShardEndpoint :=
  match prune router request with
  | [] => inl "partition prune selected no children"%string
  | children => resolveChildren children map
  end.

(** ** Merging *)

Definition first_failure (results : list QueryResult) : option QueryResult :=
  snd <$> list_find (λ r, success r = false) results.
Fixpoint merge_parts (columns : list string) (parts : list QueryResult) (merged : QueryResult) : QueryResult :=
  match parts with
  | [] => merged
  | part :: parts =>
      if bool_decide (column_names part = columns) then
        merge_parts columns parts
          (mkResult true "OK" columns (Operators.rows merged ++ Operators.rows part) (affected_rows merged + affected_rows part))
      else error_result "scatter-gather column mismatch across shards"
  end.
Definition merge (results : list QueryResult) : QueryResult :=
  match results with
  | [] => error_result "scatter-gather produced no results"
  | first :: _ =>
      match first_failure results with
      | Some r => error_result (if bool_decide (message r = ""%string) then "worker query failed" else message r)
      | None => merge_parts (column_names first) results (mkResult true "OK" (column_names first) [] 0)
      end
  end.

(** ** Lemmas on maps *)

Section zmap.
Context {A : Type}.
Implicit Types m : zmap A.
Definition zm_sorted m : Prop := StronglySorted (λ x y, x.1 < y.1) m.

Lemma zm_find_set k k' a m : zm_find k' (zm_set k a m) = if k =? k' then Some a else zm_find k' m.
Proof.
  induction m as [|[k1 b] m IH]; cbn; [done|]. destruct (Z.eqb_spec k1 k) as [->|Hk]; cbn; [by destruct (k =? k')|].
  destruct (k <? k1); cbn; [done|]. rewrite IH. destruct (Z.eqb_spec k1 k'), (Z.eqb_spec k k'); congruence.
Qed.
Lemma zm_find_elem k a m : zm_find k m = Some a → (k, a) ∈ m.
Proof.
  induction m as [|[k1 b] m IH]; cbn; [done|]. destruct (Z.eqb_spec k1 k) as [->|Hk].
  - intros [= ->]. left.
  - intros H. right. auto.
Qed.
Lemma zm_set_elem k a m x : x ∈ zm_set k a m → x = (k, a) ∨ x ∈ m.
Proof.
  induction m as [|[k1 b] m IH]; cbn; [by intros ->%list_elem_of_singleton; left|].
  destruct (k1 =? k); [|destruct (k <? k1)]; rewrite ?elem_of_cons; naive_solver.
Qed.
Lemma zm_sorted_set k a m : zm_sorted m → zm_sorted (zm_set k a m).
Proof.
  unfold zm_sorted. induction 1 as [|[k1 b] m Hm IH Hf]; cbn; [repeat constructor|].
  destruct (Z.eqb_spec k1 k) as [->|Hk]; [by constructor|]. rewrite Forall_forall in Hf.
  destruct (Z.ltb_spec k k1).
  - constructor; [by constructor; [done|apply Forall_forall]|]. constructor; [done|]. apply Forall_forall.
    intros x Hx%Hf. cbn in *. lia.
  - constructor; [done|]. apply Forall_forall. intros x [->|Hx]%zm_set_elem; [cbn; lia|auto].
Qed.
Lemma zm_elem_find k a m : zm_sorted m → (k, a) ∈ m → zm_find k m = Some a.
Proof.
  induction 1 as [|[k1 b] m Hm IH Hf]; [by intros ?%not_elem_of_nil|]. rewrite elem_of_cons. cbn.
  intros [[= -> ->]|Hin]; [by rewrite Z.eqb_refl|]. rewrite Forall_forall in Hf. specialize (Hf _ Hin). cbn in Hf.
  destruct (Z.eqb_spec k1 k); [lia|auto].
Qed.
End zmap.

(** ** Maps that are built or loaded *)

Definition endpoint_ok (e : Z * ShardEndpoint) : Prop :=
  shardId e.2 = e.1 ∧ host e.2 ≠ ""%string ∧ 0 < port e.2.
(** Workers and placements while a map is being filled. *)
Record filling (map : ShardMap) : Prop := {
  filling_sorted : zm_sorted (workers_ map);
  filling_endpoints : Forall endpoint_ok (workers_ map);
  filling_placements : sm_sorted (placements_ map)
}.
Record map_ok (map : ShardMap) : Prop := {
  map_filling : filling map;
  map_workers : workers_ map ≠ [];
  map_placements : placements_ map ≠ [];
  map_known : ∀ child id, findShardId child map = Some id → is_Some (findEndpoint id map)
}.

Lemma filling_empty : filling (mkShardMap [] []).
Proof. split; constructor. Qed.
Lemma filling_add e map : filling map → host e ≠ ""%string → 0 < port e → filling (add_worker e map).
Proof.
  intros [Hs He Hp] Hh Ht. split; cbn; [by apply zm_sorted_set| |done].
  apply Forall_forall. rewrite Forall_forall in He. intros x [->|Hx]%zm_set_elem; [done|auto].
Qed.
Lemma unknown_shard_None workers ps : unknown_shard workers ps = None →
  ∀ child id, sm_find child ps = Some id → is_Some (zm_find id workers).
Proof.
  induction ps as [|[c i] ps IH]; cbn; [done|]. destruct (zm_find i workers) eqn:E; [|done].
  intros Hu child id. case_bool_decide; [|eauto]. intros [= ->]. by rewrite E.
Qed.
Lemma validated_ok map map' : filling map → validated map = inr map' → map_ok map'.
Proof.
  intros Hf. unfold validated, validate. do 2 (case_bool_decide; [done|]).
  destruct (unknown_shard _ _) as [[??]|] eqn:E; [done|]. intros [= <-]. split; [done..|]. by apply unknown_shard_None.
Qed.
Lemma build_workers_ok ws map map' : Forall (λ e, 0 ≤ port e) ws → filling map → build_workers ws map = inr map' → filling map'.
Proof.
  revert map. induction ws as [|e ws IH]; intros map Hw Hf; cbn; [by intros [= <-]|]. apply Forall_cons in Hw as [Hp Hw].
  destruct (zm_find _ _); [done|]. case_bool_decide; [done|]. cbn. destruct (Z.eqb_spec (port e) 0); [done|].
  apply IH; [done|]. apply filling_add; [done..|lia].
Qed.
Lemma fields_from_nonempty current l : Forall (λ f, f ≠ []) (fields_from current l).
Proof.
  assert (∀ (c : ascii) cs, rev (c :: cs) ≠ []) as Hrev. { intros c cs E. symmetry in E. by apply app_cons_not_nil in E. }
  revert current. induction l as [|c l IH]; intros current; cbn; [|destruct (is_space c)]; [destruct current as [|c' current]..|]; auto;
    repeat constructor; auto.
Qed.
Lemma fields_nonempty line : Forall (λ f, f ≠ ""%string) (fields line).
Proof.
  apply Forall_fmap. eapply Forall_impl; [apply fields_from_nonempty|]. by intros [|].
Qed.
Lemma parsePort_positive text p : parsePort text = Some p → 0 < p ≤ 65535.
Proof.
  unfold parsePort. destruct (parseInt text) as [v|]; cbn; [|done].
  destruct (Z.leb_spec v 0), (Z.ltb_spec 65535 v); cbn; try done. intros [= <-]. lia.
Qed.
Lemma map_line_filling n l map map' : filling map → map_line n l map = inr map' → filling map'.
Proof.
  intros Hf. unfold map_line. destruct (_ || _); [by intros [= <-]|]. pose proof (fields_nonempty (trim l)) as Hne.
  destruct (fields (trim l)) as [|f [|g [|h [|]]]]; try done.
  - unfold placement_line. destruct (parseInt g); [|done]. destruct (sm_has _ _); [done|]. intros [= <-].
    destruct Hf. split; cbn; [done..|]. by apply sm_sorted_set.
  - unfold worker_line. destruct (parseInt f) as [id|]; [|done]. destruct (parsePort h) as [p|] eqn:Ep; [|done].
    destruct (zm_find _ _); [done|]. intros [= <-]. apply parsePort_positive in Ep.
    rewrite !Forall_cons in Hne. apply filling_add; cbn; [done|apply Hne|lia].
Qed.
Lemma map_lines_filling n ls map map' : filling map → map_lines n ls map = inr map' → filling map'.
Proof.
  revert n map. induction ls as [|l ls IH]; intros n map Hf; cbn; [by intros [= <-]|].
  destruct (map_line n l map) eqn:E; [done|]. apply IH. by eapply map_line_filling.
Qed.
Lemma load_ok path fs map : loadFromFile path fs = inr map → map_ok map.
Proof.
  unfold loadFromFile. destruct (fs_read path fs); [|done]. destruct (map_lines _ _ _) eqn:E; [done|].
  apply validated_ok. eapply map_lines_filling; [|exact E]. apply filling_empty.
Qed.

(** ** Where rows are *)

Lemma collect_shards_spec children map unique out : collect_shards children map unique = inr out →
  (∀ id e, zm_find id unique = Some e → findEndpoint id map = Some e) →
  (∀ id e, zm_find id out = Some e → findEndpoint id map = Some e) ∧
  (∀ id, is_Some (zm_find id out) ↔ is_Some (zm_find id unique) ∨ ∃ c, c ∈ children ∧ findShardId c map = Some id).
Proof.
  revert unique. induction children as [|c cs IH]; intros unique; cbn [collect_shards].
  - intros [= <-] Hu. split; [done|]. intros id. split; [by left|]. intros [?|(? & ?%not_elem_of_nil & _)]; done.
  - destruct (findShardId c map) as [i|] eqn:Ei; [|done]. destruct (findEndpoint i map) as [e|] eqn:Ee; [|done].
    intros Hc Hu. destruct (IH _ Hc) as [H1 H2].
    { intros id e'. rewrite zm_find_set. destruct (Z.eqb_spec i id) as [->|]; [congruence|auto]. }
    split; [done|]. intros id. rewrite H2, zm_find_set. setoid_rewrite elem_of_cons. destruct (Z.eqb_spec i id) as [->|]; naive_solver.
Qed.
Lemma collect_shards_sorted children map unique out : zm_sorted unique → collect_shards children map unique = inr out → zm_sorted out.
Proof.
  revert unique. induction children as [|c cs IH]; intros unique Hs; cbn; [by intros [= <-]|].
  do 2 (case_match; [|done]). apply IH. by apply zm_sorted_set.
Qed.
Lemma collect_shards_total children map unique : map_ok map → Forall (λ c, hasPlacement c map = true) children →
  ∃ out, collect_shards children map unique = inr out.
Proof.
  intros Hm Hc. revert unique. induction Hc as [|c cs Hc Hcs IH]; intros unique; cbn [collect_shards]; [eauto|].
  unfold hasPlacement, sm_has in Hc. unfold findShardId in *. destruct (sm_find c (placements_ map)) as [i|] eqn:Ei; [|done].
  destruct (map_known map Hm c i Ei) as [e He]. rewrite He. apply IH.
Qed.

(** The endpoints of children: each on a shard of one of them, in the order of the shards. *)
Definition serves (map : ShardMap) (child : string) (e : ShardEndpoint) : Prop :=
  findShardId child map = Some (shardId e) ∧ findEndpoint (shardId e) map = Some e.
Lemma endpoint_id map id e : map_ok map → findEndpoint id map = Some e → shardId e = id.
Proof.
  intros Hm He. apply zm_find_elem in He. pose proof (filling_endpoints map (map_filling map Hm)) as Hf.
  rewrite Forall_forall in Hf. by destruct (Hf _ He).
Qed.
Lemma resolve_name map child : map_ok map → hasPlacement child map = true →
  ∃ e, resolveChildName child map = inr e ∧ serves map child e.
Proof.
  intros Hm Hc. unfold resolveChildName, hasPlacement, sm_has, serves, findShardId in *.
  destruct (sm_find child (placements_ map)) as [i|] eqn:Ei; [|done]. destruct (map_known map Hm child i Ei) as [e He].
  rewrite He. exists e. by rewrite (endpoint_id map i e Hm He).
Qed.
Lemma strictly_sorted_values {A} (f : A → Z) (m : zmap A) : zm_sorted m → (∀ x, x ∈ m → f x.2 = x.1) →
  StronglySorted Z.lt (f <$> m.*2).
Proof.
  induction 1 as [|x m Hm IH Hf]; intros Hx; [constructor|]. cbn. constructor.
  - apply IH. intros y Hy. apply Hx. by right.
  - apply Forall_forall. intros z (a & -> & (y & -> & Hy)%list_elem_of_fmap)%list_elem_of_fmap.
    rewrite (Hx x ltac:(left)), (Hx y ltac:(by right)). exact (proj1 (Forall_forall _ _) Hf y Hy).
Qed.
Lemma resolve_children map children : map_ok map → Forall (λ c, hasPlacement c map = true) children →
  ∃ es, resolveChildren children map = inr es ∧ StronglySorted Z.lt (shardId <$> es) ∧
        (∀ e, e ∈ es ↔ ∃ c, c ∈ children ∧ serves map c e).
Proof.
  intros Hm Hc. destruct (collect_shards_total children map [] Hm Hc) as [out Hout]. unfold resolveChildren. rewrite Hout.
  pose proof (collect_shards_sorted children map [] out ltac:(constructor) Hout) as Hs.
  destruct (collect_shards_spec _ _ _ _ Hout ltac:(done)) as [H1 H2]. exists out.*2. split; [done|]. split.
  - apply strictly_sorted_values; [done|]. intros [id e] Hin. apply (endpoint_id map id e Hm), H1. by apply zm_elem_find.
  - intros e. rewrite list_elem_of_fmap. unfold serves. split.
    + intros ([id e'] & -> & Hin). cbn. pose proof (zm_elem_find _ _ _ Hs Hin) as Hf. pose proof (H1 _ _ Hf) as He.
      rewrite (endpoint_id map id e' Hm He). destruct (proj1 (H2 id) ltac:(by rewrite Hf)) as [[? ?]|(c & ? & ?)]; [done|eauto].
    + intros (c & Hin & Hi & He). exists (shardId e, e). split; [done|]. apply zm_find_elem.
      destruct (proj2 (H2 (shardId e)) ltac:(eauto)) as [e' He']. rewrite He'. rewrite (H1 _ _ He') in He. by rewrite He.
Qed.

Lemma prune_children md request c : c ∈ prune (createRouter md) request → c ∈ childTableName <$> partitions md.
Proof.
  unfold createRouter. destruct (kind_ md); cbn [prune RangePartitionRouter HashPartitionRouter].
  - intros (p & -> & [_ Hp]%list_elem_of_filter)%list_elem_of_fmap. by apply list_elem_of_fmap_2.
  - destruct (equal_key request) as [key|]; [|done]. destruct (hash_resolve _ _) as [name|] eqn:E; [|by intros ?%not_elem_of_nil].
    intros ->%list_elem_of_singleton. unfold hash_resolve in E. destruct (is_null key || _); [done|].
    apply first_child_Some in E as (p & Hp & _ & <-). by apply list_elem_of_fmap_2.
Qed.

(** C13. A coordinator that loaded a shard map asks the right workers. The key of a row is
    routed to the worker its child is placed on, and if the row satisfies a WHERE condition,
    that worker is among those the pruned query is sent to; they are sent to once each, in
    the order of the shard numbers. Conditions: every child of the partitioned table is
    placed; the bounds of the partitions, the key and the literals it is compared with are
    of one kind (INT, STRING, BOOL, or FLOATs pairwise 1e-9 or more apart), the other
    comparisons of the condition are typed too; and a reference to the key column means the
    key of the row. With a literal of another type the worker can be missed
    ([hash_pruning_loses_rows]). *)
Theorem matching_rows_are_on_the_resolved_shards {Q W} path fs map depth (ev : Evaluator Q W) row s c md k key child :
  loadFromFile path fs = inr map →
  Forall (λ p, hasPlacement (childTableName p) map = true) (partitions md) →
  built md → bounds_typed k md → has_kind k key →
  (∀ preds, extract_index_predicates (Some c) = Some preds →
     Forall (λ p, pred_typed ev row s p ∧ (pred_column p = key_column md →
       column_value ev row s (pred_table p) (pred_column p) = key ∧ has_kind k (pred_literal p))) preds) →
  evaluate_condition depth ev row (Some c) s = (s, Ok true) →
  resolveChild (createRouter md) key = Some child →
  ∃ e es, resolveKey (createRouter md) key map = inr e ∧ serves map child e ∧
    resolvePrune (createRouter md) (buildPartitionPruneRequest (key_column md) (Some c)) map = inr es ∧
    e ∈ es ∧ StronglySorted Z.lt (shardId <$> es).
Proof.
  intros Hm%load_ok Hp Hmd Ht Hk Hpreds Hc Hres.
  pose proof (pruned_row_kept depth ev row s c md k key child Hmd Ht Hk Hpreds Hc Hres) as Hkept.
  set (request := buildPartitionPruneRequest (key_column md) (Some c)) in *.
  assert (Forall (λ c, hasPlacement c map = true) (prune (createRouter md) request)) as Hplaced.
  { apply Forall_forall. intros x (p & -> & Hin)%prune_children%list_elem_of_fmap. rewrite Forall_forall in Hp. auto. }
  destruct (resolve_name map child Hm) as (e & He & Hserves). { rewrite Forall_forall in Hplaced. auto. }
  destruct (resolve_children map _ Hm Hplaced) as (es & Hes & Hsorted & Hin).
  exists e, es. unfold resolveKey, resolvePrune. rewrite Hres. split; [done|]. split; [done|]. split.
  - by destruct (prune (createRouter md) request); [apply not_elem_of_nil in Hkept|].
  - split; [|done]. apply Hin. eauto.
Qed.

Definition sample_map_text : string := "# workers
2 host-b 9002
1 host-a 9001

low 1
high 2
".
Definition sample_map_fs : Fs := mkFs {["shard_map.conf" := sample_map_text]} (λ _, true) (λ _, true) (λ _, true) (λ _, true).
Definition sample_map : ShardMap :=
  mkShardMap [(1, mkEndpoint 1 "host-a" 9001); (2, mkEndpoint 2 "host-b" 9002)] [("high", 2); ("low", 1)]%string.
Lemma matching_rows_are_on_the_resolved_shards_witness :
  ∃ e es, resolveKey (createRouter range_md) (VInt 15) sample_map = inr e ∧ serves sample_map "high" e ∧
    resolvePrune (createRouter range_md) (buildPartitionPruneRequest "x" (Some prune_condition)) sample_map = inr es ∧
    e ∈ es ∧ StronglySorted Z.lt (shardId <$> es).
Proof.
  apply (matching_rows_are_on_the_resolved_shards "shard_map.conf" sample_map_fs sample_map 0 (t_evaluator None) row_15 start
    prune_condition range_md KInt (VInt 15) "high");
    [vm_compute; reflexivity|apply (bool_decide_unpack _); vm_compute; exact I|apply range_md_built|apply range_md_typed|exact I| |
     vm_compute; reflexivity|vm_compute; reflexivity].
  intros preds [= <-]. constructor; [|constructor]. split; [apply prune_pred_typed|].
  intros _. vm_compute. split; [reflexivity|exact I].
Defined.

(** A number that does not fit into an [int] is taken modulo [2^32]: shard 4294967297 is shard
    1, and port 4294967376 is port 80. *)
Example numbers_wrap : parseInt "4294967297" = Some 1 ∧ parsePort "4294967376" = Some 80 ∧ parsePort "65616" = None.
Proof. vm_compute. done. Qed.

(** ** Merged answers *)

Lemma merge_parts_ok columns parts rs n : Forall (λ r, column_names r = columns) parts →
  merge_parts columns parts (mkResult true "OK" columns rs n) =
  mkResult true "OK" columns (rs ++ (parts ≫= Operators.rows)) (n + foldr Z.add 0 (affected_rows <$> parts)).
Proof.
  intros Hc. revert rs n. induction Hc as [|r parts Hr Hc IH]; intros rs n; cbn [merge_parts].
  - cbn. by rewrite app_nil_r, Z.add_0_r.
  - rewrite bool_decide_true by done. cbn [Operators.rows affected_rows]. rewrite IH. cbn. by rewrite <- app_assoc, Z.add_assoc.
Qed.
(** Answers that agree on the columns are concatenated. *)
Lemma merge_ok columns parts : parts ≠ [] → Forall (λ r, success r = true ∧ column_names r = columns) parts →
  merge parts = mkResult true "OK" columns (parts ≫= Operators.rows) (foldr Z.add 0 (affected_rows <$> parts)).
Proof.
  intros Hne Hp. unfold merge. assert (first_failure parts = None) as ->.
  { unfold first_failure. destruct (list_find _ parts) as [[i r]|] eqn:E; [|done].
    apply list_find_Some in E as (Hi & Hs & _). apply list_elem_of_lookup_2 in Hi. rewrite Forall_forall in Hp.
    destruct (Hp r Hi). congruence. }
  destruct parts as [|r parts]; [done|]. pose proof Hp as [[_ ->] _]%Forall_cons.
  rewrite merge_parts_ok; [done|]. eapply Forall_impl; [exact Hp|]. by intros ? [_ ?].
Qed.
(** One failing worker fails the query. *)
Lemma merge_failure parts : (∃ r, r ∈ parts ∧ success r = false) → success (merge parts) = false.
Proof.
  intros (r & Hin & Hr). unfold merge. destruct parts as [|p ps]; [by apply not_elem_of_nil in Hin|].
  unfold first_failure. destruct (list_find _ (p :: ps)) eqn:E; [done|]. apply list_find_None in E.
  rewrite Forall_forall in E. by destruct (E r Hin).
Qed.
