(* ===== verification/Coordinator.v ===== *)
(** * The coordinator

    [CoordinatorQueryRouter] (src/network/coordinator_query_router.cc): statements are parsed,
    the shards they touch are found in the partition metadata of a local database, and the
    text is sent to the workers of those shards.  The client for the workers is an interface
    ([IRpcClient] of include/network/rpc_client.h), a class of operations on the network it
    works over. *)

From Stdlib Require Import ZArith Lia Ascii.
From S2P Require Import Prelude CppNum Values Rows Page PageStore BufferPool HeapFile RowHeap IndexKey BTree Transactions LockManager Expr Evaluator Partition Table TableSpec TableMaint TableProps Operators Lexer Ast Parser SelectAnalysis Grouping Windows Planner Scan FileSystem Auth Sessions Catalogs Wal TableFiles PartitionCatalog DbState Queries QueryProps Dml Ddl Explain Dispatch Shards.
Import Table.

Class IRpcClient (W : Type) : Type := {
  rpc_executeQuery : ShardEndpoint → string → string → ST W QueryResult;
  rpc_ping : ShardEndpoint → ST W bool
}.

(** ** Statements *)

Definition isBroadcastStatement (stmt : ParsedStatement) : bool :=
  match stmt with
  | SCreateTable _ | SDropTable _ | SAlterTable _ | SCreateIndex _ _ _ | SDropIndex _ | SCreateView _ _ _ | SDropView _ _
  | SCreateFunction _ _ _ _ _ | SDropFunction _ _ | SCreateProcedure _ _ _ _ | SDropProcedure _ _
  | SCreateTrigger _ _ _ _ _ _ | SDropTrigger _ _ | SVacuum _ => true
  | _ => false
  end.
Definition tryLiteralFromExpression (e : Expression) : string + value :=
  match e with
  | Literal v => inr v
  | _ => inl "partition key must be a literal for coordinator routing"%string
  end.

Section coordinator.
Context {H : Type} {RH : RowHeap H} {PH : PagedHeap H} {W : Type} {RPC : IRpcClient W}.
Context (SH : StdHash) (udf_depth query_fuel : nat) (new_heap : H) (today storage_directory os_message : string) (fuel : nat).
Context (shard_map_ : ShardMap) (rpc_secret_ : string).
Abbreviation Db := (Db H).

(** The metadata, the session of the client, and what is behind the network. *)
Record Coord : Type := mkCoord { meta_database_ : Db; coord_session : option SessionContext; network : W }.
Definition with_session (s : option SessionContext) (c : Coord) : Coord := mkCoord (meta_database_ c) s (network c).
Definition update_session (f : SessionContext → SessionContext) : ST Coord unit :=
  st_modify (λ c, with_session (f <$> coord_session c) c).
Definition on_network {A} (m : ST W A) : ST Coord A := λ c,
  let '(w, r) := m (network c) in (mkCoord (meta_database_ c) (coord_session c) w, r).
Definition executeRemote (e : ShardEndpoint) (sql : string) : ST Coord QueryResult :=
  on_network (rpc_executeQuery e rpc_secret_ sql).
Definition meta_execute_query (sql : string) : ST Coord QueryResult := λ c,
  let '(d, r) := execute_query SH udf_depth query_fuel new_heap today storage_directory os_message fuel sql (coord_session c)
                   (meta_database_ c) in
  match r with
  | Ok (q, s) => (mkCoord d s (network c), Ok q)
  | Throw e => (mkCoord d (coord_session c) (network c), Throw e)
  | UB => (mkCoord d (coord_session c) (network c), UB)
  end.

Definition session_in_transaction (c : Coord) : bool :=
  match coord_session c with Some s => in_transaction s | None => false end.

(** ** Transactions *)

Definition handleBegin : ST Coord QueryResult :=
  c ← st_get;
  match coord_session c with
  | None => mret (error_result "BEGIN requires a session")
  | Some s =>
      if in_transaction s then mret (error_result "Transaction already active")
      else update_session (λ s, clear_pinned_shard_id (set_in_transaction true s));; mret (success_result "BEGIN OK")
  end.
Definition end_transaction : ST Coord unit := update_session (λ s, clear_pinned_shard_id (set_in_transaction false s)).
(** [handleCommit] and [handleRollback] differ in the word. *)
Definition handle_end (word : string) : ST Coord QueryResult :=
  c ← st_get;
  match coord_session c with
  | Some s =>
      if in_transaction s then
        match pinned_shard_id s with
        | Some id =>
            match findEndpoint id shard_map_ with
            | None => end_transaction;; mret (error_result "pinned shard is unavailable")
            | Some e => remote ← executeRemote e word; end_transaction;; mret remote
            end
        | None => end_transaction;; mret (success_result (word +:+ " OK"))
        end
      else mret (error_result "No active transaction")
  | None => mret (error_result "No active transaction")
  end.
Definition handleCommit : ST Coord QueryResult := handle_end "COMMIT".
Definition handleRollback : ST Coord QueryResult := handle_end "ROLLBACK".

(** ** Forwarding *)

Fixpoint ensureWorkersHealthy (endpoints : list ShardEndpoint) : ST Coord (option string) :=
  match endpoints with
  | [] => mret None
  | e :: endpoints =>
      up ← on_network (rpc_ping e);
      if (up : bool) then ensureWorkersHealthy endpoints
      else mret (Some ("required worker shard " +:+ std_to_string (shardId e) +:+ " is down"))
  end.
Definition ensurePinned (id : Z) : ST Coord (option string) :=
  c ← st_get;
  match coord_session c with
  | None => st_lift UB
  | Some s =>
      match pinned_shard_id s with
      | None => update_session (set_pinned_shard_id id);; mret None
      | Some pinned => mret (if pinned =? id then None else Some "multi-shard transaction is not supported in v1"%string)
      end
  end.
Definition forwardWithTransaction (e : ShardEndpoint) (sql : string) : ST Coord QueryResult :=
  c ← st_get;
  match coord_session c with
  | None => st_lift UB
  | Some s =>
      begun ← (if remote_transaction_started s then mret None
               else r ← executeRemote e "BEGIN";
                    if success r then update_session (set_remote_transaction_started true);; mret None else mret (Some r));
      match begun with
      | Some failed => mret failed
      | None => executeRemote e sql
      end
  end.
Definition proxyToEndpoints (endpoints : list ShardEndpoint) (sql : string) (allowScatter : bool) : ST Coord QueryResult :=
  c ← st_get;
  match endpoints with
  | [] => mret (error_result "no target shards for query")
  | e :: rest =>
      if negb allowScatter && negb (bool_decide (rest = [])) then
        mret (error_result "statement touches multiple shards which is not allowed")
      else if session_in_transaction c && negb (bool_decide (rest = [])) then
        mret (error_result "multi-shard transaction is not supported in v1")
      else
        down ← ensureWorkersHealthy endpoints;
        match down with
        | Some message => mret (error_result message)
        | None =>
            if session_in_transaction c then
              pin ← ensurePinned (shardId e);
              match pin with
              | Some message => mret (error_result message)
              | None => forwardWithTransaction e sql
              end
            else if bool_decide (rest = []) then executeRemote e sql
            else parts ← st_map (λ e, executeRemote e sql) endpoints; mret (merge parts)
        end
  end.

(** DDL: every worker, then the metadata. *)
Fixpoint broadcast (workers : list ShardEndpoint) (sql : string) : ST Coord (option string) :=
  match workers with
  | [] => mret None
  | e :: workers =>
      remote ← executeRemote e sql;
      if success remote then broadcast workers sql
      else mret (Some ("broadcast failed on shard " +:+ std_to_string (shardId e) +:+ ": " +:+ message remote))
  end.
Definition handleBroadcast (sql : string) : ST Coord QueryResult :=
  c ← st_get;
  if session_in_transaction c then mret (error_result "DDL is not allowed inside a coordinator transaction")
  else
    let workers := listWorkers shard_map_ in
    down ← ensureWorkersHealthy workers;
    match down with
    | Some message => mret (error_result message)
    | None =>
        failed ← broadcast workers sql;
        match failed with
        | Some message => mret (error_result message)
        | None => meta_execute_query sql
        end
    end.

(** ** The shards of a table *)

Definition meta_table (name : string) (d : Db) : option (res (Table H SelectStatement)) :=
  match get_table name d with
  | None => None
  | Some a => Some (match objects d !! a with Some t => Ok t | None => UB end)
  end.
Definition placed_or_first (name : string) : string + list ShardEndpoint :=
  if hasPlacement name shard_map_ then
    match resolveChildName name shard_map_ with inl e => inl e | inr e => inr [e] end
  else match firstWorker shard_map_ with None => inl "no workers configured"%string | Some e => inr [e] end.
Definition resolveTableShards (name : string) (where_expr : option Expression) (d : Db) : res (string + list ShardEndpoint) :=
  match meta_table name d with
  | None => Ok (placed_or_first name)
  | Some t =>
      t ← t;
      Ok match partition_meta t with
      | None => placed_or_first name
      | Some md => resolvePrune (createRouter md) (buildPartitionPruneRequest (key_column md) where_expr) shard_map_
      end
  end.

(** The shards of all tables of a join. *)
Fixpoint join_shards (tables : list string) (shardSet : zmap ShardEndpoint) (d : Db) : res (string + zmap ShardEndpoint) :=
  match tables with
  | [] => Ok (inr shardSet)
  | name :: tables =>
      endpoints ← resolveTableShards name None d;
      match endpoints with
      | inl error => Ok (inl error)
      | inr es => join_shards tables (foldl (λ m e, zm_set (shardId e) e m) shardSet es) d
      end
  end.
Definition handleSelect (stmt : SelectStatement) (sql : string) : ST Coord QueryResult :=
  c ← st_get;
  match joins stmt with
  | [] =>
      endpoints ← st_lift (resolveTableShards (from_table stmt) (where_condition stmt) (meta_database_ c));
      match endpoints with
      | inl error => mret (error_result error)
      | inr endpoints => proxyToEndpoints endpoints sql true
      end
  | js =>
      shards ← st_lift (join_shards (from_table stmt :: ((λ j, j.1.1.2) <$> js)) [] (meta_database_ c));
      match shards with
      | inl error => mret (error_result error)
      | inr [] =>
          match firstWorker shard_map_ with
          | None => mret (error_result "no workers configured")
          | Some e => proxyToEndpoints [e] sql false
          end
      | inr [(_, e)] => proxyToEndpoints [e] sql false
      | inr _ => mret (error_result "cross-shard JOIN not supported in v1")
      end
  end.

(** ** INSERT, UPDATE and DELETE *)

Definition extractInsertPartitionKey (stmt : InsertStatement) (t : Table H SelectStatement) (keyColumn : string) (rowIndex : nat)
    : string + value :=
  match ins_values stmt !! rowIndex with
  | None => inl "INSERT row index out of range"%string
  | Some row =>
      let keyIndex := match ins_columns stmt with
                      | [] => get_column_index t keyColumn
                      | cols => fst <$> list_find (λ name, name = keyColumn) cols
                      end in
      match i ← keyIndex; row !! i with
      | None => inl ("INSERT is missing partition key column " +:+ keyColumn)
      | Some e => tryLiteralFromExpression e
      end
  end.
Fixpoint insert_target (stmt : InsertStatement) (t : Table H SelectStatement) (md : PartitionedTableMetadata)
    (rowIndexes : list nat) (target : option ShardEndpoint) : string + option ShardEndpoint :=
  match rowIndexes with
  | [] => inr target
  | i :: rowIndexes =>
      match extractInsertPartitionKey stmt t (key_column md) i with
      | inl error => inl error
      | inr key =>
          match resolveKey (createRouter md) key shard_map_ with
          | inl error => inl error
          | inr e =>
              match target with
              | None => insert_target stmt t md rowIndexes (Some e)
              | Some chosen =>
                  if shardId chosen =? shardId e then insert_target stmt t md rowIndexes target
                  else inl "multi-shard INSERT is not supported in v1"%string
              end
          end
      end
  end.
Definition handleInsert (stmt : InsertStatement) (sql : string) : ST Coord QueryResult :=
  c ← st_get;
  match meta_table (ins_table stmt) (meta_database_ c) with
  | None => mret (error_result ("Table not found: " +:+ ins_table stmt))
  | Some t =>
      t ← st_lift t;
      match partition_meta t with
      | None =>
          match firstWorker shard_map_ with
          | None => mret (error_result "no workers configured")
          | Some e => proxyToEndpoints [e] sql false
          end
      | Some md =>
          match insert_target stmt t md (seq 0 (length (ins_values stmt))) None with
          | inl error => mret (error_result error)
          | inr None => mret (error_result "INSERT has no values")
          | inr (Some e) => proxyToEndpoints [e] sql false
          end
      end
  end.
(** [handleUpdate] and [handleDelete] differ in the word of the message. *)
Definition handle_change (word table_name : string) (where_expr : option Expression) (sql : string) : ST Coord QueryResult :=
  c ← st_get;
  endpoints ← st_lift (resolveTableShards table_name where_expr (meta_database_ c));
  match endpoints with
  | inl error => mret (error_result error)
  | inr [e] => proxyToEndpoints [e] sql false
  | inr _ => mret (error_result ("multi-shard " +:+ word +:+ " is not supported in v1"))
  end.
Definition handleUpdate (stmt : UpdateStatement) (sql : string) : ST Coord QueryResult :=
  handle_change "UPDATE" (upd_table stmt) (upd_where stmt) sql.
Definition handleDelete (stmt : DeleteStatement) (sql : string) : ST Coord QueryResult :=
  handle_change "DELETE" (del_table stmt) (del_where stmt) sql.

Definition route (stmt : ParsedStatement) (sql : string) : ST Coord QueryResult :=
  match stmt with
  | SBegin => handleBegin
  | SCommit => handleCommit
  | SRollback => handleRollback
  | SPrepare _ _ | SExecute _ _ | SDeallocate _ =>
      mret (error_result "prepared statements are not supported on coordinator in v1")
  | SExplain (SSelect select) => handleSelect select sql
  | SExplain _ => handleBroadcast sql
  | SSelect select => handleSelect select sql
  | SSetOperation _ => mret (error_result "set operations are not supported on coordinator in v1")
  | SInsert insert => handleInsert insert sql
  | SUpdate update => handleUpdate update sql
  | SDelete del => handleDelete del sql
  | SCall _ _ => proxyToEndpoints (listWorkers shard_map_) sql false
  | _ =>
      if isBroadcastStatement stmt then handleBroadcast sql
      else mret (error_result "statement type is not supported on coordinator in v1")
  end.
Definition executeQuery (sql : string) : ST Coord QueryResult :=
  match parse_text sql with
  | Ok stmt => route stmt sql
  | Throw e => mret (error_result (what e))
  | UB => st_lift UB
  end.
End coordinator.
Arguments Coord : clear implicits.
Arguments mkCoord {H W}.

(** ** What the workers are asked *)

(** A client that keeps the shard and the text of every query it sends. *)
Definition Logged (W : Type) : Type := W * list (Z * string).
#[export] Instance logged_client {W} {RPC : IRpcClient W} : IRpcClient (Logged W) := {
  rpc_executeQuery e secret sql := λ '(w, log), let '(w, r) := rpc_executeQuery e secret sql w in ((w, log ++ [(shardId e, sql)]), r);
  rpc_ping e := λ '(w, log), let '(w, r) := rpc_ping e w in ((w, log), r)
}.

Section transactions.
Context {H : Type} {RH : RowHeap H} {PH : PagedHeap H} {W : Type} {RPC : IRpcClient W}.
Context (SH : StdHash) (udf_depth query_fuel : nat) (new_heap : H) (today storage_directory os_message : string) (fuel : nat).
Context (map : ShardMap) (secret : string).
Abbreviation Coord := (Coord H (Logged W)).
Abbreviation exec := (executeQuery (W := Logged W) SH udf_depth query_fuel new_heap today storage_directory os_message fuel map secret).
Implicit Types c : Coord.

Definition calls c : list (Z * string) := (network c).2.
Definition pinned c : option Z := s ← coord_session c; pinned_shard_id s.
(** A step inside a transaction: the shard stays the one it is, and is the only one asked. *)
Definition within c c' : Prop :=
  session_in_transaction c = true →
  session_in_transaction c' = true ∧ (∀ id, pinned c = Some id → pinned c' = Some id) ∧
  ∃ new, calls c' = calls c ++ new ∧ Forall (λ call, pinned c' = Some call.1) new.
#[export] Instance within_preorder : PreOrder within.
Proof.
  split.
  - intros c Hc. split; [done|]. split; [done|]. exists []. by rewrite app_nil_r.
  - intros c1 c2 c3 H12 H23 H1. destruct (H12 H1) as (H2 & P2 & n2 & L2 & F2). destruct (H23 H2) as (H3 & P3 & n3 & L3 & F3).
    split; [done|]. split; [auto|]. exists (n2 ++ n3). rewrite L3, L2, app_assoc. split; [done|].
    apply Forall_app. split; [|done]. eapply Forall_impl; [exact F2|]. cbn. auto.
Qed.
Lemma within_same c c' : coord_session c' = coord_session c → calls c' = calls c → within c c'.
Proof.
  intros Hs Hl Hc. unfold session_in_transaction, pinned in *. rewrite Hs. split; [done|]. split; [done|].
  exists []. by rewrite app_nil_r.
Qed.

Lemma remote_effect e sql c :
  let c' := (executeRemote (W := Logged W) secret e sql c).1 in
  coord_session c' = coord_session c ∧ calls c' = calls c ++ [(shardId e, sql)].
Proof.
  unfold executeRemote, on_network, calls. destruct c as [d s [w log]]. cbn. by destruct (rpc_executeQuery e secret sql w).
Qed.
Lemma within_remote e sql c : pinned c = Some (shardId e) → within c (executeRemote (W := Logged W) secret e sql c).1.
Proof.
  intros Hp Hc. destruct (remote_effect e sql c) as [Hs Hl]. unfold session_in_transaction, pinned in *. rewrite Hs.
  split; [done|]. split; [done|]. eexists. split; [exact Hl|]. by constructor.
Qed.
Lemma healthy_effect es c : let c' := (ensureWorkersHealthy (H := H) (W := Logged W) es c).1 in
  coord_session c' = coord_session c ∧ calls c' = calls c.
Proof.
  revert c. induction es as [|e es IH]; intros c; [done|]. cbn [ensureWorkersHealthy]. rewrite ST_bind_eq. unfold on_network.
  destruct c as [d s [w log]]. cbn. destruct (rpc_ping e w) as [w' [[]| |]]; cbn; [|done..].
  apply (IH (mkCoord d s (w', log))).
Qed.
Lemma within_forward e sql c : pinned c = Some (shardId e) → within c (forwardWithTransaction (W := Logged W) secret e sql c).1.
Proof.
  intros Hp. unfold forwardWithTransaction. rewrite ST_bind_eq. cbn [st_get]. destruct (coord_session c) as [s|] eqn:Es; [|done].
  rewrite ST_bind_eq. destruct (remote_transaction_started s); [by apply within_remote|]. rewrite ST_bind_eq.
  pose proof (within_remote e "BEGIN" c Hp) as Hb. destruct (remote_effect e "BEGIN" c) as [Hs _].
  destruct (executeRemote secret e "BEGIN" c) as [c1 [r| |]]; [|done..]. cbn [fst] in *. destruct (success r); [|done].
  rewrite ST_bind_eq. cbn [update_session st_modify mret ST_ret]. etransitivity; [exact Hb|].
  set (c2 := with_session _ c1). assert (pinned c2 = Some (shardId e)) as Hp2.
  { unfold pinned, c2 in *. rewrite Es in Hp. cbn. by rewrite Hs, Es. }
  etransitivity; [|by apply within_remote]. intros H1. unfold session_in_transaction in *. rewrite Hs, Es in H1.
  split; [by unfold c2; cbn; rewrite Hs, Es|]. split; [|exists []; by rewrite app_nil_r].
  intros id. unfold pinned at 1. rewrite Hs, Es, Hp2. cbn. unfold pinned in Hp. rewrite Es in Hp. cbn in Hp. congruence.
Qed.
Lemma within_proxy es sql b c : within c (proxyToEndpoints (W := Logged W) secret es sql b c).1.
Proof.
  unfold proxyToEndpoints. rewrite ST_bind_eq. cbn [st_get]. destruct es as [|e es]; [done|].
  destruct (_ && _); [done|]. destruct (session_in_transaction c) eqn:Etx; [|by intros ?; congruence].
  destruct (_ && _); [done|]. rewrite ST_bind_eq. destruct (healthy_effect (e :: es) c) as [Hs Hl].
  destruct (ensureWorkersHealthy (e :: es) c) as [c1 [[m|]| |]]; cbn [fst] in *; try (by apply within_same).
  transitivity c1; [by apply within_same|]. clear Hs Hl Etx. rewrite ST_bind_eq. unfold ensurePinned. rewrite ST_bind_eq. cbn [st_get].
  destruct (coord_session c1) as [s|] eqn:Es; [|done]. destruct (pinned_shard_id s) as [p|] eqn:Ep.
  - cbn [mret ST_ret]. destruct (Z.eqb_spec p (shardId e)) as [->|]; [|done]. apply within_forward. unfold pinned. by rewrite Es.
  - rewrite ST_bind_eq. cbn [update_session st_modify mret ST_ret]. etransitivity; [|apply within_forward].
    + intros Htx. unfold session_in_transaction, pinned in *. cbn. rewrite Es in *. cbn. split; [done|]. rewrite Ep. split; [done|].
      exists []. by rewrite app_nil_r.
    + unfold pinned. cbn. by rewrite Es.
Qed.
Lemma within_change word name e sql c : within c (handle_change (W := Logged W) map secret word name e sql c).1.
Proof.
  unfold handle_change. rewrite !ST_bind_eq. cbn [st_get]. rewrite ST_bind_eq. unfold st_lift.
  destruct (resolveTableShards _ _ _ _) as [[m|[|x [|]]]| |]; try done. apply within_proxy.
Qed.
Lemma within_select stmt sql c : within c (handleSelect (W := Logged W) map secret stmt sql c).1.
Proof.
  unfold handleSelect. rewrite ST_bind_eq. cbn [st_get]. destruct (joins stmt) as [|j js]; rewrite ST_bind_eq; unfold st_lift.
  - destruct (resolveTableShards _ _ _ _) as [[m|es]| |]; try done. apply within_proxy.
  - destruct (join_shards _ _ _ _) as [[m|[|[i e] [|]]]| |]; try done; [|apply within_proxy].
    destruct (firstWorker map); [apply within_proxy|done].
Qed.
Lemma within_insert stmt sql c : within c (handleInsert (W := Logged W) map secret stmt sql c).1.
Proof.
  unfold handleInsert. rewrite ST_bind_eq. cbn [st_get]. destruct (meta_table _ _) as [t|]; [|done]. rewrite ST_bind_eq. unfold st_lift.
  destruct t as [t| |]; [|done..]. destruct (partition_meta t) as [md|].
  - destruct (insert_target _ _ _ _ _ _) as [m|[e|]]; try done. apply within_proxy.
  - destruct (firstWorker map); [apply within_proxy|done].
Qed.
Lemma within_broadcast sql c :
  within c (handleBroadcast (W := Logged W) SH udf_depth query_fuel new_heap today storage_directory os_message fuel map secret sql c).1.
Proof.
  unfold handleBroadcast. rewrite ST_bind_eq. cbn [st_get]. destruct (session_in_transaction c) eqn:E; [done|].
  intros Htx. congruence.
Qed.

(** The statements that end a transaction send their word to the shard of the transaction. *)
Definition ends c c' : Prop :=
  session_in_transaction c' = false ∧ ∃ new, calls c' = calls c ++ new ∧ Forall (λ call, pinned c = Some call.1) new.
Lemma end_effect c : let c' := (end_transaction (H := H) (W := Logged W) c).1 in
  session_in_transaction c' = false ∧ calls c' = calls c.
Proof. unfold session_in_transaction. cbn. by destruct (coord_session c). Qed.
Lemma handle_end_effect word c : map_ok map →
  let c' := (handle_end (W := Logged W) map secret word c).1 in within c c' ∨ ends c c'.
Proof.
  intros Hm. unfold handle_end. rewrite ST_bind_eq. cbn [st_get]. destruct (coord_session c) as [s|] eqn:Es; [|by left].
  destruct (in_transaction s) eqn:Etx; [|by left].
  assert (∀ q, let c' := ((end_transaction;; mret (M := ST Coord) (A := QueryResult) q) c).1 in ends c c') as Hend.
  { intros q. rewrite ST_bind_eq. destruct (end_effect c) as [H1 H2]. destruct (end_transaction c) as [c1 [[]| |]]; cbn [fst mret ST_ret] in *;
      (split; [done|]; exists []; by rewrite app_nil_r). }
  destruct (pinned_shard_id s) as [id|] eqn:Ep; [|right; apply Hend].
  destruct (findEndpoint id map) as [e|] eqn:Ee; [|right; apply Hend]. rewrite ST_bind_eq.
  assert (pinned c = Some (shardId e)) as Hp.
  { unfold pinned. rewrite Es. cbn. rewrite Ep. by rewrite (endpoint_id map id e Hm Ee). }
  pose proof (within_remote e word c Hp) as Hw. destruct (remote_effect e word c) as [_ Hl].
  destruct (executeRemote secret e word c) as [c1 [r| |]]; cbn [fst] in *; [|by left..]. right. rewrite ST_bind_eq.
  destruct (end_effect c1) as [H1 H2].
  destruct (end_transaction c1) as [c2 [[]| |]]; cbn [fst mret ST_ret] in *;
    (split; [done|]; exists [(shardId e, word)]; rewrite H2; split; [done|]; by constructor).
Qed.
Lemma exec_effect sql c : map_ok map → session_in_transaction c = true →
  let c' := (exec sql c).1 in within c c' ∨ ends c c'.
Proof.
  intros Hm Htx. unfold executeQuery. destruct (parse_text sql) as [stmt| |]; [|by left..].
  destruct stmt as [| | | | | | | | | | | | | | | | | | | | | | | | | | |[]]; cbn [route isBroadcastStatement];
    try (by left); try (by apply handle_end_effect); left;
    first [apply within_select|apply within_insert|apply within_change|apply within_proxy|apply within_broadcast|idtac].
  unfold handleBegin. rewrite ST_bind_eq. cbn [st_get]. unfold session_in_transaction in Htx.
  destruct (coord_session c) as [s|]; [|done]. by rewrite Htx.
Qed.

(** The statements of a session up to the end of its transaction. *)
Fixpoint run_transaction (sqls : list string) c : Coord :=
  match sqls with
  | [] => c
  | sql :: sqls => let c' := (exec sql c).1 in if session_in_transaction c' then run_transaction sqls c' else c'
  end.

(** C14. A transaction of a client of the coordinator stays on one shard: whatever statements
    are sent, until it ends every query that leaves the coordinator for it, COMMIT and
    ROLLBACK included, goes to the same worker, the one the session is pinned to. *)
Theorem one_shard_per_transaction path fs sqls c :
  loadFromFile path fs = inr map → session_in_transaction c = true →
  ∃ id new, calls (run_transaction sqls c) = calls c ++ new ∧ Forall (λ call, call.1 = id) new ∧
    (∀ p, pinned c = Some p → id = p).
Proof.
  intros Hm%load_ok. revert c. induction sqls as [|sql sqls IH]; intros c Htx; cbn [run_transaction].
  - exists (default 0 (pinned c)), []. rewrite app_nil_r. split; [done|]. split; [done|]. by intros p ->.
  - destruct (exec_effect sql c Hm Htx) as [Hw|(He & new & Hl & Hf)].
    + destruct (Hw Htx) as (Htx' & Hp & new & Hl & Hf). rewrite Htx'. destruct (IH _ Htx') as (id & new' & Hl' & Hf' & Hp').
      exists id, (new ++ new'). rewrite Hl', Hl, app_assoc. split; [done|]. split.
      * apply Forall_app. split; [|done]. eapply Forall_impl; [exact Hf|]. cbn. intros x Hx. symmetry. by apply Hp'.
      * intros p Hpin. apply Hp', Hp, Hpin.
    + rewrite He. exists (default 0 (pinned c)), new. split; [done|]. split; [|by intros p ->].
      eapply Forall_impl; [exact Hf|]. cbn. by intros x ->.
Qed.
End transactions.
