(* ===== verification/Server.v ===== *)
(** * Connections

    What a server does with the requests of one client ([Connection] of src/network/server.cc),
    how it is set up ([Server::initialize_auth], [Server::initialize_coordinator]), the client
    of the coordinator over TCP (src/network/tcp_rpc_client.cc), and clusters in which every
    worker is such a server.  A socket is what is read from it and the list of messages sent;
    that sending fails is not modelled. *)

From Stdlib Require Import ZArith Lia Ascii.
From S2P Require Import Prelude CppNum Values Rows Page PageStore BufferPool HeapFile RowHeap IndexKey BTree Transactions LockManager Expr Evaluator Partition Table TableSpec TableMaint TableProps Operators Lexer Ast Parser SelectAnalysis Grouping Windows Planner Scan FileSystem Auth Sessions Catalogs Wal TableFiles PartitionCatalog DbState Queries QueryProps Dml Ddl Explain Dispatch Statements Protocol Shards Coordinator.
Import Table.

(** ** The client of the coordinator *)

(** [platform::tcp_exchange]: connect, send a message, return what one [recv] gives; the
    empty text when any of it fails. *)
Class Network (W : Type) : Type := tcp_exchange : string → Z → string → ST W string.

Definition kReplyBytes : nat := 8191.
Definition occurs_in (needle text : string) : bool :=
  match String.index 0 needle text with Some _ => true | None => false end.
#[export] Instance TcpRpcClient {W} `{Network W} : IRpcClient W := {
  rpc_executeQuery e secret sql :=
    raw ← tcp_exchange (host e) (port e) (format_rpc_query secret sql);
    mret (if bool_decide (raw = ""%string) then error_result ("RPC failed: no response from shard " +:+ std_to_string (shardId e))
          else parse_query_result raw);
  rpc_ping e :=
    raw ← tcp_exchange (host e) (port e) ("PING|" +:+ String newline "");
    mret (occurs_in "PONG" raw)
}.
(** Nobody to talk to. *)
#[export] Instance no_network : Network unit := λ _ _ _, mret ""%string.

(** ** A connection *)

Definition split_auth_payload (data : string) : option (string * string) :=
  '(username, password) ← cut_at bar data; if bool_decide (username = ""%string) then None else Some (username, password).
Definition kMaxRequestBytes : nat := 1048576.
(** [read_message]: what the socket delivers, at most one byte less than the buffer; the rest
    is read next. *)
Definition read_message (chunk : string) : string * string :=
  (String.substring 0 (kMaxRequestBytes - 1) chunk,
   String.substring (kMaxRequestBytes - 1) (String.length chunk) chunk).
Definition line (s : string) : string := s +:+ String newline "".

Section connection.
Context {H : Type} {RH : RowHeap H} {PH : PagedHeap H} {W : Type} {RPC : IRpcClient W}.
Context (SH : StdHash) (udf_depth query_fuel : nat) (new_heap : H) (today storage_directory os_message : string) (fuel : nat).
Context (auth_manager_ : option Users) (require_auth_ : bool) (coordinator_ : option (ShardMap * string)) (rpc_secret_ : option string).

(** The database of the server, which is also the metadata of its coordinator, the session,
    what is behind the network, what was sent, and whether to go on. *)
Record Connection : Type := mkConnection { conn_coord : Coord H W; sent : list string; active_ : bool }.
Definition on_coord {A} (m : ST (Coord H W) A) : ST Connection A := λ c,
  let '(s, r) := m (conn_coord c) in (mkConnection s (sent c) (active_ c), r).
Definition send_message (m : string) : ST Connection unit :=
  st_modify (λ c, mkConnection (conn_coord c) (sent c ++ [m]) (active_ c)).
Definition database_execute (sql : string) : ST Connection QueryResult :=
  on_coord (meta_execute_query SH udf_depth query_fuel new_heap today storage_directory os_message fuel sql).

Definition handle_auth_request (req : Request) : ST Connection unit :=
  match auth_manager_ with
  | None => send_message (line "ERROR|authentication not configured")
  | Some users =>
      match split_auth_payload (req_data req) with
      | None => send_message (line "ERROR|invalid AUTH format")
      | Some (username, password) =>
          match authenticate users username password with
          | None => on_coord (update_session clear_auth);; send_message (line "ERROR|authentication failed")
          | Some r => on_coord (update_session (set_auth true username (Some r)));; send_message (line "OK|authenticated")
          end
      end
  end.
Definition session_authenticated (c : Connection) : bool :=
  match coord_session (conn_coord c) with Some s => authenticated s | None => false end.
Definition handle_query_request (req : Request) : ST Connection unit :=
  c ← st_get;
  if require_auth_ && negb (session_authenticated c) then send_message (line "ERROR|authentication required")
  else
    result ← (match coordinator_ with
              | Some (map, secret) =>
                  on_coord (executeQuery SH udf_depth query_fuel new_heap today storage_directory os_message fuel map secret
                              (req_data req))
              | None => database_execute (req_data req)
              end);
    send_message (format_query_result result).
Definition handle_rpc_query_request (req : Request) : ST Connection unit :=
  match rpc_secret_ with
  | None => send_message (line "ERROR|RPC_QUERY not enabled")
  | Some expected =>
      match split_rpc_query (req_data req) with
      | None => send_message (line "ERROR|invalid RPC_QUERY format")
      | Some (secret, sql) =>
          if bool_decide (secret = expected) then
            result ← database_execute sql; send_message (format_query_result result)
          else send_message (line "ERROR|invalid RPC secret")
      end
  end.
(** The task a request becomes. *)
Definition serve_request (request : string) : ST Connection unit :=
  req ← st_lift (parse_request request);
  if bool_decide (req_type req = "AUTH"%string) then handle_auth_request req
  else if bool_decide (req_type req = "QUERY"%string) then handle_query_request req
  else if bool_decide (req_type req = "RPC_QUERY"%string) then handle_rpc_query_request req
  else if bool_decide (req_type req = "PING"%string) then send_message (line "PONG")
  else if bool_decide (req_type req = "QUIT"%string) then
    send_message (line "OK|Goodbye");; st_modify (λ c, mkConnection (conn_coord c) (sent c) false)
  else send_message (line "ERROR|Unknown command").
Definition handle_request (request : string) : ST Connection unit :=
  st_catch (serve_request request) (λ e, send_message (line ("ERROR|" +:+ what e))).
(** The loop of [run], over what [read_message] returns; nothing more to read ends it. *)
Fixpoint run (requests : list string) : ST Connection unit :=
  c ← st_get;
  if negb (active_ c) then mret tt
  else match requests with
  | [] | ""%string :: _ => mret tt
  | request :: requests => handle_request request;; run requests
  end.
End connection.
Arguments Connection : clear implicits.
Arguments mkConnection {H W}.

(** ** Setting a server up *)

Inductive ServerRole : Type := Standalone | RoleCoordinator | RoleWorker.
Record ServerAuthConfig : Type := mkAuthConfig {
  auth_file : option string;
  require_auth : bool;
  bootstrap_admin_password : option string
}.
Record ServerClusterConfig : Type := mkClusterConfig {
  server_role : ServerRole;
  shard_id : option Z;
  shard_map_path : option string;
  rpc_secret : option string
}.
Definition initialize_auth (config : ServerAuthConfig) (salt : list Z) (listing : Users → list (string * UserRecord))
    : ST Fs (option Users) :=
  match auth_file config, bootstrap_admin_password config with
  | None, None => mret None
  | None, Some _ => st_throw (std_runtime_error "bootstrap admin requires auth file path")
  | Some path, Some password => users ← bootstrap_admin path password salt ∅ listing; mret (Some users)
  | Some path, None =>
      fs ← st_get;
      let '(users, r) := load_from_file path fs ∅ in
      st_lift r;; mret (Some users)
  end.
Definition initialize_coordinator (config : ServerClusterConfig) (fs : Fs) : res (option (ShardMap * string)) :=
  match server_role config with
  | RoleCoordinator =>
      match shard_map_path config, rpc_secret config with
      | Some path, Some secret =>
          match loadFromFile path fs with
          | inl error => Throw (std_runtime_error error)
          | inr map => Ok (Some (map, secret))
          end
      | _, _ => Throw (std_runtime_error "coordinator requires shard map and rpc secret")
      end
  | _ => Ok None
  end.

(** ** Requests and replies *)

Section replies.
Context {H : Type} {RH : RowHeap H} {PH : PagedHeap H} {W : Type} {RPC : IRpcClient W}.
Context (SH : StdHash) (udf_depth query_fuel : nat) (new_heap : H) (today storage_directory os_message : string) (fuel : nat).
Context (auth : option Users) (coordinator : option (ShardMap * string)) (secret : option string).
Implicit Types c : Connection H W.
Abbreviation serve_of required :=
  (serve_request (H := H) (W := W) SH udf_depth query_fuel new_heap today storage_directory os_message fuel auth required coordinator secret).
Abbreviation request_of required :=
  (handle_request (H := H) (W := W) SH udf_depth query_fuel new_heap today storage_directory os_message fuel auth required coordinator secret).
Abbreviation run_of required :=
  (run (H := H) (W := W) SH udf_depth query_fuel new_heap today storage_directory os_message fuel auth required coordinator secret).

(** One message is sent, or none and the call throws. *)
Definition replies (m : ST (Connection H W) unit) : Prop := ∀ c,
  match m c with
  | (c', Ok _) => ∃ reply, sent c' = sent c ++ [reply]
  | (c', Throw _) => sent c' = sent c
  | (_, UB) => True
  end.
Definition silent {A} (m : ST (Connection H W) A) : Prop := ∀ c, sent (m c).1 = sent c.

Lemma replies_send msg : replies (send_message msg).
Proof. intros c. by exists msg. Qed.
Lemma replies_bind {A} (m : ST (Connection H W) A) f : silent m → (∀ a, replies (f a)) → replies (m ≫= f).
Proof.
  intros Hm Hf c. rewrite ST_bind_eq. specialize (Hm c). destruct (m c) as [c' [a| |]]; cbn [fst] in Hm; [|done..].
  specialize (Hf a c'). rewrite Hm in Hf. exact Hf.
Qed.
Lemma silent_on_coord {A} (m : ST (Coord H W) A) : silent (on_coord m).
Proof. intros c. unfold on_coord. by destruct (m (conn_coord c)). Qed.
Lemma silent_get : silent (st_get (S := Connection H W)).
Proof. done. Qed.
Lemma silent_lift {A} (r : res A) : silent (st_lift r).
Proof. done. Qed.
Lemma replies_serve required request : replies (serve_of required request).
Proof.
  unfold serve_request. apply replies_bind; [apply silent_lift|]. intros req. repeat case_bool_decide; try apply replies_send.
  - unfold handle_auth_request. destruct auth; [|apply replies_send]. destruct (split_auth_payload _) as [[u p]|]; [|apply replies_send].
    destruct (authenticate _ _ _); (apply replies_bind; [apply silent_on_coord|intros; apply replies_send]).
  - unfold handle_query_request. apply replies_bind; [apply silent_get|]. intros c'. destruct (_ && _); [apply replies_send|].
    destruct coordinator as [[m s]|]; (apply replies_bind; [apply silent_on_coord|intros; apply replies_send]).
  - unfold handle_rpc_query_request. destruct secret; [|apply replies_send]. destruct (split_rpc_query _) as [[k q]|]; [|apply replies_send].
    case_bool_decide; [|apply replies_send]. apply replies_bind; [apply silent_on_coord|intros; apply replies_send].
Qed.

(** Every request gets one reply: whatever a client sends, and whether the statement
    succeeds, is refused or throws, exactly one message goes back and the connection stays. *)
Theorem every_request_gets_one_reply required request c :
  let '(c', r) := request_of required request c in
  r = UB ∨ (r = Ok tt ∧ ∃ reply, sent c' = sent c ++ [reply]).
Proof.
  unfold handle_request, st_catch. pose proof (replies_serve required request c) as Hr.
  destruct (serve_of required request c) as [c' [[]|e|]]; [by right| |by left]. right. split; [done|]. cbn. rewrite Hr. eauto.
Qed.

(** A request that authenticates, and one that brings the secret of the cluster. *)
Definition has_credentials (request : string) : bool :=
  match parse_request request, auth with
  | Ok req, Some users =>
      bool_decide (req_type req = "AUTH"%string) &&
      match split_auth_payload (req_data req) with
      | Some (username, password) => bool_decide (is_Some (authenticate users username password))
      | None => false
      end
  | _, _ => false
  end.
Definition has_secret (request : string) : bool :=
  match parse_request request with
  | Ok req =>
      bool_decide (req_type req = "RPC_QUERY"%string) &&
      match split_rpc_query (req_data req) with
      | Some (s, _) => bool_decide (secret = Some s)
      | None => false
      end
  | _ => false
  end.
Definition untouched c c' : Prop :=
  meta_database_ (conn_coord c') = meta_database_ (conn_coord c) ∧ network (conn_coord c') = network (conn_coord c) ∧
  session_authenticated c' = false.
Lemma untouched_sent c out a : session_authenticated c = false → untouched c (mkConnection (conn_coord c) out a).
Proof. done. Qed.
Ltac only_sends := cbv beta iota zeta delta [send_message st_modify]; split; [by apply untouched_sent|done].
Lemma stranger_request request c : has_credentials request = false → has_secret request = false → session_authenticated c = false →
  let '(c', r) := request_of true request c in untouched c c' ∧ r = Ok tt.
Proof.
  intros Hc Hs Ha. unfold handle_request, st_catch, serve_request, has_credentials, has_secret in *. rewrite ST_bind_eq. unfold st_lift at 1.
  destruct (parse_request request) as [req|e|] eqn:Er; [|only_sends|].
  2: { exfalso. unfold parse_request in Er. by destruct (cut_at _ _) as [[]|]. }
  destruct (bool_decide (req_type req = "AUTH"%string)).
  { unfold handle_auth_request. destruct auth as [users|]; [|only_sends]. cbn [andb] in Hc.
    destruct (split_auth_payload _) as [[u p]|]; [|only_sends]. destruct (authenticate users u p) eqn:Eauth.
    - rewrite bool_decide_true in Hc by done. done.
    - unfold untouched, session_authenticated in *. cbn. destruct c as [[d [s|] w] out act]; done. }
  destruct (bool_decide (req_type req = "QUERY"%string)).
  { unfold handle_query_request. rewrite ST_bind_eq. cbn [st_get]. rewrite Ha. only_sends. }
  destruct (bool_decide (req_type req = "RPC_QUERY"%string)).
  { unfold handle_rpc_query_request. destruct secret as [expected|]; [|only_sends]. cbn [andb] in Hs.
    destruct (split_rpc_query _) as [[s q]|]; [|only_sends]. apply bool_decide_eq_false in Hs.
    rewrite bool_decide_false by congruence. only_sends. }
  destruct (bool_decide (req_type req = "PING"%string)), (bool_decide (req_type req = "QUIT"%string)); [only_sends..| |only_sends].
  cbv beta iota zeta delta [send_message st_modify mbind ST_bind]. split; [|done]. by apply (untouched_sent c).
Qed.

(** C15. Nothing without credentials: when authentication is required, a client that never
    sends the password of a user nor the secret of the cluster changes neither the database
    nor anything behind the network, whatever it sends. *)
Theorem strangers_change_nothing requests c :
  session_authenticated c = false →
  Forall (λ r, has_credentials r = false ∧ has_secret r = false) requests →
  let '(c', r) := run_of true requests c in untouched c c' ∧ r = Ok tt.
Proof.
  intros Ha Hf. revert c Ha. induction Hf as [|r rs [Hc Hs] Hf IH]; intros c Ha; cbn [run]; rewrite ST_bind_eq; cbn [st_get].
  - by destruct (active_ c).
  - destruct (active_ c); [|done]. cbn [negb]. destruct r as [|x r']; [done|]. set (req := String x r') in *.
    rewrite ST_bind_eq. pose proof (stranger_request req c Hc Hs Ha) as Hr.
    destruct (request_of true req c) as [c1 res]. destruct Hr as [(Hd & Hn & Ha') ->].
    specialize (IH c1 Ha'). destruct (run_of true rs c1) as [c2 r2]. destruct IH as [(? & ? & ?) ->].
    split; [|done]. split; [congruence|]. split; congruence.
Qed.
End replies.
