(* ===== verification/Cluster.v ===== *)
(** * Clusters

    A coordinator and workers, each with its own database, over TCP: every exchange is a new
    connection, and so a new session, on the worker (src/platform/tcp_client.cc and
    src/network/server.cc).  Statements run through [Connection] on the coordinator, the RPC
    client, the wire format and [Connection] on the workers. *)

From Stdlib Require Import ZArith Lia Ascii.
From S2P Require Import Prelude CppNum Values Rows Page PageStore BufferPool HeapFile RowHeap IndexKey BTree Transactions LockManager Expr Evaluator Partition Table TableSpec TableMaint TableProps Operators Lexer Ast Parser SelectAnalysis Grouping Windows Planner Scan FileSystem Auth Sessions Catalogs Wal TableFiles PartitionCatalog DbState Queries QueryProps Dml Ddl Explain Dispatch Statements Protocol Shards Coordinator Server.
Import Table.

Section cluster.
Context {H : Type} {RH : RowHeap H} {PH : PagedHeap H}.
Context (SH : StdHash) (udf_depth query_fuel : nat) (new_heap : H) (today storage_directory os_message : string) (fuel : nat).

(** A server that is not a coordinator, and the counter of its sessions. *)
Record Worker : Type := mkWorker { worker_db : Db H; next_session : Z; worker_secret : option string }.
Abbreviation Workers := (gmap (string * Z) Worker).

(** The messages a client gets for its requests over one connection. *)
Definition worker_connection (requests : list string) (w : Worker) : Worker * res (list string) :=
  let '(session, next) := new_SessionContext (next_session w) in
  let '(c, r) := run (W := unit) SH udf_depth query_fuel new_heap today storage_directory os_message fuel None false None (worker_secret w)
                   requests (mkConnection (mkCoord (worker_db w) (Some session) ()) [] true) in
  (mkWorker (meta_database_ (conn_coord c)) next (worker_secret w),
   match r with Ok _ => Ok (sent c) | Throw e => Throw e | UB => UB end).
Definition cluster_exchange (hostname : string) (prt : Z) (message : string) : ST Workers string := λ ws,
  match ws !! (hostname, prt) with
  | None => (ws, Ok ""%string)
  | Some w =>
      let '(w, r) := worker_connection [message] w in
      (<[(hostname, prt) := w]> ws, out ← r; Ok (String.substring 0 kReplyBytes (foldr String.append "" out)))
  end.
End cluster.
Arguments Worker : clear implicits.
Arguments mkWorker {H}.

(** ** A cluster *)

#[export] Instance mem_cluster : Network (gmap (string * Z) (Worker MemHeap)) :=
  cluster_exchange identity_hash 10 10 empty_heap "2024-01-01" "db" "" 10.
Abbreviation Cluster := (gmap (string * Z) (Worker MemHeap)).
Definition no_workers : Cluster := {[ ("host-a"%string, 9001) := mkWorker empty_db 1 (Some "k3y"%string);
                                      ("host-b"%string, 9002) := mkWorker empty_db 1 (Some "k3y"%string) ]}.
Definition connect (session : SessionContext) (d : Db MemHeap) (ws : Cluster) : Connection MemHeap Cluster :=
  mkConnection (mkCoord d (Some session) ws) [] true.
Definition serve (map : ShardMap) (requests : list string) (c : Connection MemHeap Cluster) : Connection MemHeap Cluster :=
  (run identity_hash 10 10 empty_heap "2024-01-01" "db" "" 10 None false (Some (map, "k3y"%string)) None requests c).1.
Definition query (sql : string) : string := line ("QUERY|" +:+ sql).
Definition kv_map : ShardMap := mkShardMap [(1, mkEndpoint 1 "host-a" 9001); (2, mkEndpoint 2 "host-b" 9002)] [("high", 2); ("low", 1)]%string.
Definition kv_schema : list string :=
  ["CREATE TABLE kv (k INT, v STRING) PARTITION BY RANGE (k)"; "CREATE TABLE low PARTITION OF kv FOR VALUES FROM (0) TO (10)";
   "CREATE TABLE high PARTITION OF kv FOR VALUES FROM (10) TO (20)"].
Definition client (session : SessionContext) (sqls : list string) : list string :=
  sent (serve kv_map (query <$> sqls) (connect session empty_db no_workers)).
Definition client_answers (sqls : list string) : list string := drop (length kv_schema) (client (new_SessionContext 1).1 (kv_schema ++ sqls)).

(** A row goes to the worker of its partition; a query that can be pruned asks one worker, any
    other all of them. *)
Example routed_statements : client_answers
    ["INSERT INTO kv VALUES (1, 'a')"; "INSERT INTO kv (v, k) VALUES ('b', 12)"; "SELECT * FROM kv"; "SELECT v FROM kv WHERE k = 12";
     "INSERT INTO kv VALUES (2, 'c'), (13, 'd')"; "UPDATE kv SET v = 'z'"; "UPDATE kv SET v = 'z' WHERE k = 1"; "SELECT v FROM kv WHERE k < 5"]%string =
  line <$> ["OK|"; "OK|"; "OK|k" +:+ String tab "v" +:+ String newline ("1" +:+ String tab "a") +:+ String newline ("12" +:+ String tab "b");
    "OK|v" +:+ String newline "b"; "ERROR|multi-shard INSERT is not supported in v1"; "ERROR|multi-shard UPDATE is not supported in v1";
    "OK|"; "OK|v" +:+ String newline "z"]%string.
Proof. vm_compute. reflexivity. Qed.

(** A transaction through the coordinator is none.  Every exchange with a worker is a
    connection of its own, so the statements after the BEGIN run outside the transaction
    that it opened: they are visible to others and survive ROLLBACK, COMMIT answers with an
    error, and the transactions that were opened on the worker stay active. *)
Theorem coordinator_transactions_do_not_hold :
  let reply := line "OK|" in
  client_answers ["BEGIN"; "INSERT INTO kv VALUES (2, 'x')"; "ROLLBACK"; "SELECT v FROM kv WHERE k = 2"]%string =
    [reply; reply; line "ERROR|No active transaction"; line ("OK|v" +:+ String newline "x")] ∧
  client_answers ["BEGIN"; "INSERT INTO kv VALUES (2, 'x')"; "COMMIT"]%string = [reply; reply; line "ERROR|No active transaction"] ∧
  (let c := serve kv_map (query <$> (kv_schema ++ ["BEGIN"; "INSERT INTO kv VALUES (2, 'x')"; "COMMIT"]%string))
              (connect (new_SessionContext 1).1 empty_db no_workers) in
   (λ w, elements (active_xids (transaction_manager_ (worker_db w)))) <$> network (conn_coord c) !! ("host-a"%string, 9001) =
   Some [1]).
Proof. vm_compute. repeat split; reflexivity. Qed.

(** Answers of workers are put one after the other: an aggregate, a limit, an order or DISTINCT
    holds within each of them only. *)
Example scattered_queries_are_only_concatenated : client_answers
    ["INSERT INTO kv VALUES (1, 'a')"; "INSERT INTO kv VALUES (12, 'a')"; "SELECT COUNT(*) FROM kv"; "SELECT k FROM kv ORDER BY k DESC LIMIT 1";
     "SELECT DISTINCT v FROM kv"]%string =
  line <$> ["OK|"; "OK|"; "OK|COUNT(*)" +:+ String newline "1" +:+ String newline "1"; "OK|k" +:+ String newline "1" +:+ String newline "12";
    "OK|v" +:+ String newline "a" +:+ String newline "a"]%string.
Proof. vm_compute. reflexivity. Qed.

(** The connection of another client, with a role. *)
Definition reconnect (session : SessionContext) (c : Connection MemHeap Cluster) : Connection MemHeap Cluster :=
  connect session (meta_database_ (conn_coord c)) (network (conn_coord c)).
Definition kv_cluster : Connection MemHeap Cluster :=
  serve kv_map (query <$> kv_schema) (connect (new_SessionContext 1).1 empty_db no_workers).

(** A coordinator does not look at the role of a client.  Workers run what a reader sends;
    a DDL statement is refused only when the workers have run it, by the metadata of the
    coordinator, which then still has the table that they dropped. *)
Theorem coordinator_ignores_roles :
  let eve := set_auth true "eve" (Some Reader) (new_SessionContext 2).1 in
  let c := serve kv_map (query <$> ["INSERT INTO kv VALUES (3, 'e')"; "SELECT v FROM kv"; "DROP TABLE kv"; "SELECT v FROM kv"]%string)
             (reconnect eve kv_cluster) in
  sent c = [line "OK|"; line ("OK|v" +:+ String newline "e"); line "ERROR|permission denied"; line "ERROR|Table 'kv' not found"] ∧
  has_table "kv" (meta_database_ (conn_coord c)) = true.
Proof. vm_compute. split; reflexivity. Qed.

(** A reply longer than the buffer of the client is cut, and what is left of it is taken for the
    answer: here the second of two rows arrives with its text cut short. *)
Definition letters (n : nat) : string := String.string_of_list_ascii (replicate n "x"%char).
Example long_answers_are_cut :
  let c := serve kv_map (query <$> ["INSERT INTO kv VALUES (1, '" +:+ letters 5000 +:+ "'), (2, '" +:+ letters 5000 +:+ "')";
             "SELECT v FROM kv WHERE k < 5"]%string) (reconnect (new_SessionContext 2).1 kv_cluster) in
  last (sent c) = Some (line ("OK|v" +:+ String newline (letters 5000 +:+ String newline (letters 3185)))).
Proof. vm_compute. reflexivity. Qed.

(** A client that goes away inside a transaction leaves it behind: nothing is rolled back,
    the transaction stays active with its locks, and a statement of another client that
    needs one of them waits without end. *)
Theorem disconnected_clients_keep_their_locks :
  let talk (requests : list string) w := worker_connection identity_hash 10 10 empty_heap "2024-01-01" "db" "" 10 (query <$> requests) w in
  let '(w, _) := talk ["CREATE TABLE t (n INT)"; "INSERT INTO t VALUES (1)"; "BEGIN"; "DELETE FROM t"]%string (mkWorker empty_db 1 None) in
  elements (active_xids (transaction_manager_ (worker_db w))) = [1] ∧
  elements (default ∅ (txn_tables (lock_manager_ (worker_db w)) !! 1)) = ["t:#0"%string] ∧
  (acquire_enter (lock_manager_ (worker_db w)) 2 "t:#0" Exclusive).2 = Waiting ∧
  (talk ["SELECT n FROM t"]%string w).2 = Ok [line ("OK|n" +:+ String newline "1")] ∧
  (talk ["DELETE FROM t"]%string w).2 = UB.
Proof. vm_compute. repeat split; reflexivity. Qed.

(** ** Instances of the theorems on coordinators and connections *)

Definition kv_transaction : Coord MemHeap (Logged Cluster) :=
  mkCoord (meta_database_ (conn_coord kv_cluster)) (Some (set_in_transaction true (new_SessionContext 2).1))
    (network (conn_coord kv_cluster), []).
Lemma one_shard_per_transaction_witness :
  ∃ id new, calls (run_transaction identity_hash 10 10 empty_heap "2024-01-01" "db" "" 10 sample_map "k3y"
      ["INSERT INTO kv VALUES (1, 'a')"; "SELECT * FROM kv WHERE k = 12"; "SELECT v FROM kv WHERE k = 1"; "COMMIT"]%string kv_transaction)
    = calls kv_transaction ++ new ∧ Forall (λ call, call.1 = id) new ∧ (∀ p, pinned kv_transaction = Some p → id = p).
Proof.
  apply (one_shard_per_transaction identity_hash 10 10 empty_heap "2024-01-01" "db" "" 10 sample_map "k3y" "shard_map.conf" sample_map_fs);
    vm_compute; reflexivity.
Defined.
Example calls_of_a_transaction :
  calls (run_transaction identity_hash 10 10 empty_heap "2024-01-01" "db" "" 10 sample_map "k3y"
      ["INSERT INTO kv VALUES (1, 'a')"; "SELECT * FROM kv WHERE k = 12"; "SELECT v FROM kv WHERE k = 1"; "COMMIT"]%string kv_transaction) =
  [(1, "BEGIN"); (1, "INSERT INTO kv VALUES (1, 'a')"); (1, "SELECT v FROM kv WHERE k = 1"); (1, "COMMIT")]%string.
Proof. vm_compute. reflexivity. Qed.

Definition ada : Users := {["ada"%string := ada_user]}.
Definition stranger : Connection MemHeap unit := mkConnection (mkCoord sample_db (Some (new_SessionContext 1).1) ()) [] true.
Lemma strangers_change_nothing_witness :
  let '(c, r) := run identity_hash 10 10 empty_heap "2024-01-01" "db" "" 10 (Some ada) true None (Some "k3y"%string)
    [query "DROP TABLE t"; line "AUTH|ada|byron"; query "DROP TABLE t"; line "RPC_QUERY|key|DROP TABLE t"; line "QUIT|"] stranger in
  untouched stranger c ∧ r = Ok tt.
Proof.
  apply (strangers_change_nothing identity_hash 10 10 empty_heap "2024-01-01" "db" "" 10 (Some ada) None (Some "k3y"%string));
    [vm_compute; reflexivity|]. repeat constructor; vm_compute; reflexivity.
Defined.
Example stranger_replies :
  sent (run identity_hash 10 10 empty_heap "2024-01-01" "db" "" 10 (Some ada) true None (Some "k3y"%string)
    [query "DROP TABLE t"; line "AUTH|ada|byron"; "AUTH"%string; line "AUTH|ada|lovelace"; query "SELECT name FROM t WHERE id = 2";
     query "DROP TABLE t"; line "QUIT|"; query "SELECT name FROM t"] stranger).1 =
  line <$> ["ERROR|authentication required"; "ERROR|authentication failed"; "ERROR|Invalid request format"; "OK|authenticated";
    "OK|name" +:+ String newline "b"; "ERROR|permission denied"; "OK|Goodbye"]%string.
Proof. vm_compute. reflexivity. Qed.
