(* ===== verification/Backup.v ===== *)
(** * Backups

    [BackupService] (src/storage/backup_service.cc): checkpoint, copy of the data directory and
    manifest with sizes and SHA-256 digests; check of a backup and replacement of a data
    directory by it.  A directory is the set of files whose path continues its own, and a set
    of directories that were made. *)

From Stdlib Require Import ZArith Lia Ascii.
From S2P Require Import Prelude CppNum Values Rows Page PageStore BufferPool HeapFile RowHeap IndexKey BTree Transactions LockManager Expr Evaluator Partition Table TableSpec TableMaint TableProps Operators Lexer Ast Parser ParserSafe ParserRound SelectAnalysis Grouping Windows Planner Scan FileSystem Auth Sessions Catalogs Wal TableFiles PartitionCatalog DbState Queries QueryProps Dml Ddl Explain Dispatch Statements Protocol.
Import Table.

(** ** Files and directories *)

Record Disk : Type := mkDisk { fs_ : Fs; directories : gset string }.
Definition on_files {A} (m : ST Fs A) : ST Disk A := λ k, let '(fs, r) := m (fs_ k) in (mkDisk fs (directories k), r).
Definition below (dir path : string) : bool := String.prefix (path_join dir "") path.
(** The part of a path after its directory. *)
Definition relative (dir path : string) : string := String.substring (String.length (path_join dir "")) (String.length path) path.
(** The regular files below a directory, by their relative paths. *)
Definition tree_of (fs : Fs) (dir : string) : list string :=
  relative dir <$> filter (λ p, below dir p = true) (map_to_list (files fs)).*1.
Definition exists_directory (dir : string) (k : Disk) : bool :=
  bool_decide (dir ∈ directories k) || existsb (below dir) (map_to_list (files (fs_ k))).*1.
Definition create_directories (dir : string) : ST Disk unit := λ k,
  if places (fs_ k) dir then (mkDisk (fs_ k) ({[dir]} ∪ directories k), Ok tt)
  else (k, Throw (std_runtime_error ("filesystem error: cannot create directory: " +:+ dir))).
Definition remove_all (dir : string) : ST Disk unit := λ k,
  (mkDisk (set_files (filter (λ e, below dir e.1 = false ∧ e.1 ≠ dir) (files (fs_ k))) (fs_ k))
     (filter (λ d, below dir d = false ∧ d ≠ dir) (directories k)), Ok tt).
Definition parent_path (path : string) : string :=
  match last (split_on "/" path) with
  | Some name => String.substring 0 (String.length path - String.length name - 1) path
  | None => ""
  end.
(** [fs::copy_file(source, target, overwrite_existing)]. *)
Definition copy_file (source target : string) : ST Disk unit :=
  k ← st_get;
  match fs_read source (fs_ k) with
  | None => st_throw (std_runtime_error ("filesystem error: cannot copy file: " +:+ source))
  | Some text =>
      ok ← on_files (fs_write target text);
      if bool_decide (ok = Some true) then mret tt else st_throw (std_runtime_error ("filesystem error: cannot copy file: " +:+ target))
  end.

(** ** Requests and manifests *)

Record BackupRequest : Type := mkBackupRequest { bk_data : string; bk_output : string }.
Record RestoreRequest : Type := mkRestoreRequest { rs_backup : string; rs_data : string; force : bool }.
Record ManifestEntry : Type := mkEntry { relativePath : string; entry_size : Z; sha256Hex : string }.
Record BackupManifest : Type := mkManifest { engineVersion : string; createdAt : string; manifest_files : list ManifestEntry }.

Definition kManifestFileName : string := "backup_manifest".
Definition kManifestHeader : string := "nobugdb-backup-manifest-v1".
Definition kEngineVersion : string := "0.1.0".
Definition kWalStagePrefix : string := ".wal_stage_".

(** [s.find("..") != npos] *)
Definition has_dots (s : string) : bool := match String.index 0 ".." s with Some _ => true | None => false end.
Definition isRelativePathSafe (path : string) : bool :=
  negb (bool_decide (path = ""%string) || String.prefix "/" path || has_dots path).

Definition computeFileSha256 (path : string) (k : Disk) : res string :=
  match fs_read path (fs_ k) with
  | None => Throw (StorageException ("cannot read file: " +:+ path))
  | Some text => Ok (to_hex (sha256 (bytes_of_string text)))
  end.

Definition entry_line (e : ManifestEntry) : string := join tab [relativePath e; std_to_string (entry_size e); sha256Hex e].
Definition manifest_lines (m : BackupManifest) : list string :=
  [kManifestHeader; "engine_version=" +:+ engineVersion m; "created_at=" +:+ createdAt m]%string ++ (entry_line <$> manifest_files m).
(** That the text reaches the file is not looked at. *)
Definition writeManifest (dir : string) (m : BackupManifest) : ST Disk unit :=
  let path := path_join dir kManifestFileName in
  ok ← on_files (fs_write path (unlines (manifest_lines m)));
  match ok with
  | None => st_throw (StorageException ("cannot write manifest: " +:+ path))
  | Some _ => mret tt
  end.

(** A field ends at a tab, and something must follow it. *)
Definition next_field (s : string) : option (string * string) :=
  '(a, b) ← cut_at tab s; if bool_decide (b = ""%string) then None else Some (a, b).
Definition read_entry (l : string) : res ManifestEntry :=
  match '(path, rest) ← next_field l; '(size, digest) ← next_field rest; Some (path, size, digest) with
  | None => Throw (StorageException ("invalid backup manifest entry: " +:+ l))
  | Some (path, size, digest) =>
      n ← std_stoull size;
      if isRelativePathSafe path then Ok (mkEntry path n digest)
      else Throw (StorageException ("unsafe path in manifest: " +:+ path))
  end.
Definition after_prefix (prefix l : string) : string := String.substring (String.length prefix) (String.length l) l.
Definition read_manifest_lines (ls : list string) : res BackupManifest :=
  match ls with
  | header :: ls =>
      if negb (bool_decide (header = kManifestHeader)) then Throw (StorageException "invalid backup manifest header")
      else match ls with
      | version :: ls =>
          if negb (String.prefix "engine_version=" version) then Throw (StorageException "invalid backup manifest engine_version")
          else match ls with
          | created :: ls =>
              if negb (String.prefix "created_at=" created) then Throw (StorageException "invalid backup manifest created_at")
              else
                entries ← res_map read_entry (filter (λ l, l ≠ ""%string) ls);
                Ok (mkManifest (after_prefix "engine_version=" version) (after_prefix "created_at=" created) entries)
          | [] => Throw (StorageException "invalid backup manifest created_at")
          end
      | [] => Throw (StorageException "invalid backup manifest engine_version")
      end
  | [] => Throw (StorageException "invalid backup manifest header")
  end.
Definition readManifest (dir : string) (k : Disk) : res BackupManifest :=
  let path := path_join dir kManifestFileName in
  match fs_read path (fs_ k) with
  | None => Throw (StorageException ("missing backup manifest: " +:+ path))
  | Some text => read_manifest_lines (lines text)
  end.

Definition check_entry (dir : string) (k : Disk) (e : ManifestEntry) : res unit :=
  let path := path_join dir (relativePath e) in
  match fs_read path (fs_ k) with
  | None => Throw (StorageException ("missing backup file: " +:+ relativePath e))
  | Some text =>
      if negb (Z.of_nat (String.length text) =? entry_size e) then Throw (StorageException ("size mismatch for " +:+ relativePath e))
      else
        digest ← computeFileSha256 path k;
        if bool_decide (digest = sha256Hex e) then Ok tt else Throw (StorageException ("checksum mismatch for " +:+ relativePath e))
  end.
Definition verifyChecksums (dir : string) (m : BackupManifest) (k : Disk) : res unit :=
  res_fold (λ _ e, check_entry dir k e) tt (manifest_files m).

Definition isDirectoryNonEmpty (dir : string) (k : Disk) : bool :=
  existsb (below dir) ((map_to_list (files (fs_ k))).*1 ++ elements (directories k)).
(** Only the files of the directory itself are looked at. *)
Definition hasWalStagingFiles (dir : string) (k : Disk) : bool :=
  existsb (String.prefix kWalStagePrefix) (names_in (fs_ k) dir).

(** [std::mismatch] with three iterators walks the second range without looking for its end. *)
Fixpoint mismatch_at_end (data output : list string) : res bool :=
  match data, output with
  | [], _ => Ok true
  | _, [] => UB
  | a :: data, b :: output => if bool_decide (a = b) then mismatch_at_end data output else Ok false
  end.

(** ** The service *)

Section service.
Context {H : Type} {RH : RowHeap H} {PH : PagedHeap H} (new_heap : H) (today : string).
(** The order of the iterators, the components of a canonical path, and the time. *)
Context (listing : Fs → string → list string) (tree : Fs → string → list string).
Context (weakly_canonical : string → option (list string)) (formatTimestampUtc : res string).

Definition runCheckpoint (dir : string) : ST Disk unit := on_files (λ fs,
  let '(d, r) := (load_from_disk new_heap today dir listing;; checkpoint dir) (new_Database (H := H) (empty_catalogs fs)) in
  (disk (catalogs_ d), r)).
Definition refuseIfStagingPresent (dir : string) : ST Disk unit :=
  k ← st_get;
  if hasWalStagingFiles dir k then st_throw (StorageException "WAL staging files present; stop the server and retry backup") else mret tt.
Definition refuseIfOutputInsideData (data output : string) : ST Disk unit :=
  match weakly_canonical data, weakly_canonical output with
  | Some a, Some b =>
      at_end ← st_lift (mismatch_at_end a b);
      if (at_end : bool) then st_throw (StorageException "output directory must not be inside data directory") else mret tt
  | _, _ => mret tt
  end.
Definition copy_into (source dest rel : string) : ST Disk unit :=
  let target := path_join dest rel in
  create_directories (parent_path target);; copy_file (path_join source rel) target.
(** Directories are walked into before the files in them; a file makes its own anyway. *)
Definition copyDataDirectory (source dest : string) : ST Disk unit :=
  k ← st_get;
  if exists_directory source k then
    create_directories dest;;
    st_iter (λ d, create_directories (path_join dest (relative source d))) (filter (λ d, below source d = true) (elements (directories k)));;
    st_iter (copy_into source dest) (tree (fs_ k) source)
  else st_throw (StorageException ("data directory does not exist: " +:+ source)).
Definition manifest_entry (dir : string) (k : Disk) (rel : string) : res ManifestEntry :=
  digest ← computeFileSha256 (path_join dir rel) k;
  Ok (mkEntry rel (Z.of_nat (String.length (default ""%string (fs_read (path_join dir rel) (fs_ k))))) digest).
Definition buildManifest (dir : string) : ST Disk (list ManifestEntry) :=
  k ← st_get;
  st_lift (res_map (manifest_entry dir k) (filter (λ rel, rel ≠ kManifestFileName) (tree (fs_ k) dir))).
Definition executeBackup (request : BackupRequest) : ST Disk unit :=
  if bool_decide (bk_data request = ""%string) || bool_decide (bk_output request = ""%string) then
    st_throw (StorageException "backup requires --data-dir and --output-dir")
  else
    refuseIfStagingPresent (bk_data request);;
    refuseIfOutputInsideData (bk_data request) (bk_output request);;
    runCheckpoint (bk_data request);;
    copyDataDirectory (bk_data request) (bk_output request);;
    entries ← buildManifest (bk_output request);
    now ← st_lift formatTimestampUtc;
    writeManifest (bk_output request) (mkManifest kEngineVersion now entries).

Definition replaceDataDirectory (backup data : string) (m : BackupManifest) : ST Disk unit :=
  k ← st_get;
  (if exists_directory data k then remove_all data else mret tt);;
  create_directories data;;
  st_iter (λ e, copy_into backup data (relativePath e)) (manifest_files m).
Definition executeRestore (request : RestoreRequest) : ST Disk unit :=
  if bool_decide (rs_backup request = ""%string) || bool_decide (rs_data request = ""%string) then
    st_throw (StorageException "restore requires --backup-dir and --data-dir")
  else
    k ← st_get;
    manifest ← st_lift (readManifest (rs_backup request) k);
    st_lift (verifyChecksums (rs_backup request) manifest k);;
    if isDirectoryNonEmpty (rs_data request) k && negb (force request) then
      st_throw (StorageException "data directory is not empty; pass --force to replace")
    else replaceDataDirectory (rs_backup request) (rs_data request) manifest.
End service.

(** ** Paths *)

Lemma prefix_app a b : String.prefix a (a +:+ b) = true.
Proof.
  induction a as [|x a IH]; [by destruct b|]. change (String x a +:+ b) with (String x (a +:+ b)). cbn. by destruct (ascii_dec x x).
Qed.
Lemma prefix_inv a s : String.prefix a s = true → ∃ b, s = a +:+ b.
Proof.
  revert s. induction a as [|x a IH]; intros s; [by exists s|]. destruct s as [|y s]; [done|]. cbn.
  destruct (ascii_dec x y) as [->|]; [|done]. intros (b & ->)%IH. by exists b.
Qed.
(** The path of a file of a directory. *)
Definition full (dir rel : string) : string := path_join dir "" +:+ rel.
Lemma full_inj dir a b : full dir a = full dir b → a = b.
Proof. apply append_inj_l. Qed.
Lemma below_full dir rel : below dir (full dir rel) = true.
Proof. apply prefix_app. Qed.
Lemma relative_full dir rel : relative dir (full dir rel) = rel.
Proof. unfold relative, full. apply substring_after. Qed.
Lemma join_full dir rel : isRelativePathSafe rel = true → path_join dir rel = full dir rel.
Proof.
  intros Hs. unfold isRelativePathSafe in Hs. destruct rel as [|c rel]; [done|].
  assert (Ascii.eqb c "/" = false) as Hc.
  { destruct (Ascii.eqb_spec c "/") as [->|]; [|done]. revert Hs. cbn. by destruct rel. }
  unfold full, path_join. rewrite Hc. destruct (ends_with_slash dir); [done|]. by rewrite append_assoc.
Qed.
Lemma elem_tree fs dir rel : rel ∈ tree_of fs dir ↔ is_Some (files fs !! full dir rel).
Proof.
  unfold tree_of. rewrite list_elem_of_fmap. split.
  - intros (p & -> & [Hb ([p' text] & -> & Hin%elem_of_map_to_list)%list_elem_of_fmap]%list_elem_of_filter). cbn [fst] in *.
    apply prefix_inv in Hb as (b & ->). fold (full dir b) in *. rewrite relative_full. eauto.
  - intros [text Ht]. exists (full dir rel). rewrite relative_full. split; [done|]. apply list_elem_of_filter. split; [apply below_full|].
    apply list_elem_of_fmap. exists (full dir rel, text). split; [done|]. by apply elem_of_map_to_list.
Qed.
Lemma nodup_tree fs dir : NoDup (tree_of fs dir).
Proof.
  unfold tree_of. apply NoDup_fmap_2_strong; [|apply NoDup_filter, NoDup_fst_map_to_list].
  intros a b [(x & ->)%prefix_inv _]%list_elem_of_filter [(y & ->)%prefix_inv _]%list_elem_of_filter.
  fold (full dir x) (full dir y). rewrite !relative_full. congruence.
Qed.

(** Directories neither of which is in the other. *)
Definition apart (a b : string) : Prop := ∀ x y, full a x ≠ full b y.
Lemma apart_below a b x : apart a b → below b (full a x) = false.
Proof. intros Ha. destruct (below b (full a x)) eqn:E; [|done]. apply prefix_inv in E as (y & E). by destruct (Ha x y). Qed.
Lemma prefix_apart a b : String.prefix a b = false → String.prefix b a = false → ∀ x y, a +:+ x ≠ b +:+ y.
Proof.
  revert b. induction a as [|c a IH]; intros b; [by destruct b|]. destruct b as [|d b]; [done|]. cbn.
  destruct (ascii_dec c d) as [<-|Hn].
  - destruct (ascii_dec c c); [|done]. intros H1 H2 x y E. injection E. by apply IH.
  - intros _ _ x y E. injection E. congruence.
Qed.
Lemma apart_of a b : String.prefix (path_join a "") (path_join b "") = false → String.prefix (path_join b "") (path_join a "") = false →
  apart a b.
Proof. intros H1 H2 x y. by apply prefix_apart. Qed.

(** ** Copies *)

(** Every file can be written and every directory be made. *)
Definition healthy (fs : Fs) : Prop := ∀ p, opens fs p = true ∧ writes fs p = true ∧ places fs p = true.
Lemma make_directory dir k : healthy (fs_ k) → ∃ ds, create_directories dir k = (mkDisk (fs_ k) ds, Ok tt).
Proof. intros Hh. unfold create_directories. destruct (Hh dir) as (_ & _ & ->). eauto. Qed.
Lemma make_directories {A} (f : A → string) ds k : healthy (fs_ k) →
  ∃ ds', st_iter (λ d, create_directories (f d)) ds k = (mkDisk (fs_ k) ds', Ok tt).
Proof.
  unfold st_iter. intros Hh. revert k Hh. induction ds as [|d ds IH]; intros k Hh; cbn [st_fold]; [by destruct k; eexists|].
  rewrite ST_bind_eq. destruct (make_directory (f d) k Hh) as (ds' & ->). destruct (IH (mkDisk (fs_ k) ds') Hh) as (ds'' & ->). eauto.
Qed.
Lemma copy_one source dest rel text k : healthy (fs_ k) → isRelativePathSafe rel = true →
  files (fs_ k) !! full source rel = Some text →
  ∃ ds, copy_into source dest rel k = (mkDisk (set_files (<[full dest rel := text]> (files (fs_ k))) (fs_ k)) ds, Ok tt).
Proof.
  intros Hh Hs Ht. unfold copy_into. rewrite !join_full by done. rewrite ST_bind_eq.
  destruct (make_directory (parent_path (full dest rel)) k Hh) as (ds & ->). exists ds.
  unfold copy_file. rewrite ST_bind_eq. cbn [st_get]. unfold fs_read. cbn [fs_]. rewrite Ht, ST_bind_eq. unfold on_files, fs_write. cbn [fs_].
  destruct (Hh (full dest rel)) as (-> & -> & _). done.
Qed.
Record copied (source dest : string) (rels : list string) (k k' : Disk) : Prop := {
  copied_healthy : healthy (fs_ k');
  copied_there : ∀ rel, rel ∈ rels → files (fs_ k') !! full dest rel = files (fs_ k) !! full source rel;
  copied_else : ∀ p, (∀ rel, rel ∈ rels → p ≠ full dest rel) → files (fs_ k') !! p = files (fs_ k) !! p
}.
Lemma copy_all source dest rels k : healthy (fs_ k) → apart source dest → NoDup rels →
  Forall (λ rel, isRelativePathSafe rel = true ∧ is_Some (files (fs_ k) !! full source rel)) rels →
  ∃ k', st_iter (copy_into source dest) rels k = (k', Ok tt) ∧ copied source dest rels k k'.
Proof.
  unfold st_iter. intros Hh Ha Hnd Hf. revert k Hh Hf. induction Hnd as [|rel rels Hin Hnd IH]; intros k Hh Hf; cbn [st_fold].
  { exists k. split; [done|]. split; [done|by intros ? ?%not_elem_of_nil|done]. }
  apply Forall_cons in Hf as [[Hs [text Ht]] Hf]. rewrite ST_bind_eq. destruct (copy_one source dest rel text k Hh Hs Ht) as (ds & ->).
  set (k1 := mkDisk _ ds). assert (∀ x, files (fs_ k1) !! full source x = files (fs_ k) !! full source x) as Hsrc.
  { intros x. cbn. apply lookup_insert_ne. intros E. by destruct (Ha x rel). }
  destruct (IH k1) as (k' & E & [H1 H2 H3]). { exact Hh. }
  { eapply Forall_impl; [exact Hf|]. intros x. by rewrite Hsrc. }
  exists k'. split; [exact E|]. split; [done| |].
  - intros x [->|Hx]%elem_of_cons; [|by rewrite (H2 x Hx)].
    rewrite H3; [|by intros y Hy ->%full_inj]. cbn. by rewrite lookup_insert_eq, Ht.
  - intros p Hp. rewrite H3 by (intros y Hy; apply Hp; by right). cbn. apply lookup_insert_ne. symmetry. apply Hp. left.
Qed.

(** ** Manifests *)

Lemma hex_digit_char n : 0 ≤ n < 16 → hex_char (hex_digit n) = true ∧ hex_digit n ≠ tab.
Proof.
  intros Hn. assert (Forall (λ n, hex_char (hex_digit (Z.of_nat n)) = true ∧ hex_digit (Z.of_nat n) ≠ tab) (seq 0 16)) as Hall.
  { apply (bool_decide_unpack _). by vm_compute. }
  rewrite Forall_forall in Hall. specialize (Hall (Z.to_nat n)). rewrite Z2Nat.id in Hall by lia. apply Hall, elem_of_seq. lia.
Qed.
Lemma hex_text bytes : free_of tab (to_hex bytes) ∧ free_of newline (to_hex bytes).
Proof.
  assert (∀ z, 0 ≤ Z.land z 15 < 16) as Hland. { intros z. change 15 with (Z.ones 4). rewrite Z.land_ones by lia. apply Z.mod_pos_bound. lia. }
  assert (∀ z, hex_digit (Z.land z 15) ≠ tab ∧ hex_digit (Z.land z 15) ≠ newline) as Hdigit.
  { intros z. destruct (hex_digit_char (Z.land z 15) (Hland z)) as [Hc Ht]. split; [done|]. intros E. by rewrite E in Hc. }
  induction bytes as [|b bytes [IH1 IH2]]; [split; apply free_of_nil|]. cbn [to_hex].
  split; repeat apply free_of_cons; try done; apply Hdigit.
Qed.
Lemma digest_not_empty data : to_hex (sha256 data) ≠ ""%string.
Proof.
  unfold sha256. destruct (full_blocks _ _ _) as [s rest]. destruct (_ <=? _)%nat; cbv zeta; generalize (process_block : ShaState → _);
    intros pb; unfold digest_bytes, be_bytes, le_bytes; cbn; discriminate.
Qed.

Definition portable (rel : string) : Prop :=
  isRelativePathSafe rel = true ∧ free_of tab rel ∧ free_of newline rel ∧ rel ≠ kManifestFileName.
Definition entry_ok (e : ManifestEntry) : Prop :=
  portable (relativePath e) ∧ 0 ≤ entry_size e < 2 ^ 63 ∧ ∃ data, sha256Hex e = to_hex (sha256 data).
Lemma digits_no_tab z : 0 ≤ z → free_of tab (std_to_string z).
Proof.
  intros Hz. destruct (to_string_digits z Hz) as [Hd _]. unfold free_of, all_chars in *. intros Hin.
  rewrite forallb_forall in Hd. apply list_elem_of_In, Hd in Hin. discriminate Hin.
Qed.
Lemma stoull_to_string z : 0 ≤ z < 2 ^ 63 → std_stoull (std_to_string z) = Ok z.
Proof. intros Hz. pose proof (stoul_to_string z Hz) as Hs. unfold std_stoul in Hs. by destruct (std_stoull _) as [|[]|]. Qed.
Lemma read_entry_line e : entry_ok e →
  read_entry (entry_line e) = Ok e ∧ free_of newline (entry_line e) ∧ entry_line e ≠ ""%string.
Proof.
  destruct e as [rel size digest]. intros ((Hs & Ht & Hn & Hm) & Hz & data & Hd). cbn [relativePath entry_size sha256Hex] in *.
  change (entry_line _) with (rel +:+ String tab (std_to_string size +:+ String tab digest)). split; [|split].
  - unfold read_entry, next_field. rewrite cut_at_app by done. cbn [mbind option_bind].
    rewrite bool_decide_false by (by destruct (std_to_string size)). cbn [mbind option_bind]. rewrite cut_at_app by (apply digits_no_tab; lia). cbn [mbind option_bind].
    subst digest. rewrite bool_decide_false by apply digest_not_empty. cbn [mbind option_bind]. rewrite stoull_to_string by lia. cbn. by rewrite Hs.
  - subst digest. apply (free_of_append newline rel); [done|]. apply free_of_cons; [done|]. apply free_of_append; [apply digits_free; lia|].
    apply free_of_cons; [done|]. apply hex_text.
  - by destruct rel.
Qed.
Lemma read_entries es : Forall entry_ok es → res_map read_entry (filter (λ l, l ≠ ""%string) (entry_line <$> es)) = Ok es.
Proof.
  induction 1 as [|e es He Hes IH]; [done|]. destruct (read_entry_line e He) as (E & _ & Hne).
  rewrite fmap_cons, filter_cons_True by done. cbn [res_map]. rewrite E. cbn [mbind res_bind]. rewrite IH. done.
Qed.
Lemma read_manifest m : free_of newline (engineVersion m) → free_of newline (createdAt m) → Forall entry_ok (manifest_files m) →
  read_manifest_lines (lines (unlines (manifest_lines m))) = Ok m.
Proof.
  intros Hv Hc He. rewrite lines_unlines.
  - unfold manifest_lines, read_manifest_lines. cbn [app]. rewrite bool_decide_true by done. cbn [negb]. rewrite !prefix_app. cbn [negb].
    rewrite read_entries by done. cbn [mbind res_bind]. unfold after_prefix. rewrite !substring_after. by destruct m.
  - unfold manifest_lines. repeat constructor.
    + apply (bool_decide_unpack _). by vm_compute.
    + apply free_of_append; [|done]. apply (bool_decide_unpack _). by vm_compute.
    + apply free_of_append; [|done]. apply (bool_decide_unpack _). by vm_compute.
    + apply Forall_fmap. eapply Forall_impl; [exact He|]. intros e Hok. by apply read_entry_line.
Qed.

(** The entry of a file. *)
Definition entry_for (rel text : string) : ManifestEntry := mkEntry rel (Z.of_nat (String.length text)) (to_hex (sha256 (bytes_of_string text))).
Definition text_at (k : Disk) (dir rel : string) : string := default ""%string (files (fs_ k) !! full dir rel).
Lemma build_entries dir k rels : Forall (λ rel, isRelativePathSafe rel = true ∧ is_Some (files (fs_ k) !! full dir rel)) rels →
  res_map (manifest_entry dir k) rels = Ok ((λ rel, entry_for rel (text_at k dir rel)) <$> rels).
Proof.
  induction 1 as [|rel rels [Hs [text Ht]] Hrs IH]; [done|]. cbn [res_map]. rewrite IH. unfold manifest_entry, computeFileSha256, fs_read, text_at.
  rewrite !join_full by done. cbn [fmap list_fmap]. rewrite Ht. done.
Qed.
Lemma check_entries dir k rels : Forall (λ rel, isRelativePathSafe rel = true ∧ is_Some (files (fs_ k) !! full dir rel)) rels →
  res_fold (λ _ e, check_entry dir k e) tt ((λ rel, entry_for rel (text_at k dir rel)) <$> rels) = Ok tt.
Proof.
  induction 1 as [|rel rels [Hs [text Ht]] Hrs IH]; [done|]. rewrite fmap_cons. cbn [res_fold].
  assert (check_entry dir k (entry_for rel (text_at k dir rel)) = Ok tt) as ->; [|exact IH].
  unfold check_entry, computeFileSha256, fs_read, text_at, entry_for. cbn [relativePath entry_size sha256Hex]. rewrite !join_full by done. rewrite Ht.
  cbn [default]. rewrite Z.eqb_refl. cbn [negb mbind res_bind]. by rewrite bool_decide_true.
Qed.

(** ** A backup that is restored *)

Section round_trip.
Context {H : Type} {RH : RowHeap H} {PH : PagedHeap H} (new_heap : H) (today : string).
Context (listing tree : Fs → string → list string) (canonical : string → option (list string)) (now : string).
Context (Htree : ∀ fs dir, tree fs dir ≡ₚ tree_of fs dir).

Definition present (k : Disk) (dir rel : string) : Prop := is_Some (files (fs_ k) !! full dir rel).
Lemma tree_present k dir rel : rel ∈ tree (fs_ k) dir ↔ present k dir rel.
Proof. by rewrite Htree, elem_tree. Qed.
Lemma tree_nodup k dir : NoDup (tree (fs_ k) dir).
Proof. rewrite Htree. apply nodup_tree. Qed.

Lemma backup_copy data out kc :
  healthy (fs_ kc) → apart data out → exists_directory data kc = true → (∀ rel, present kc data rel → portable rel) →
  (∀ rel, files (fs_ kc) !! full out rel = None) →
  ∃ kb, copyDataDirectory tree data out kc = (kb, Ok tt) ∧ healthy (fs_ kb) ∧
    ∀ rel, files (fs_ kb) !! full out rel = files (fs_ kc) !! full data rel.
Proof.
  intros Hh Ha He Hp Hout. unfold copyDataDirectory. rewrite ST_bind_eq. cbn [st_get]. rewrite He, ST_bind_eq.
  destruct (make_directory out kc Hh) as (ds & ->). rewrite ST_bind_eq.
  destruct (make_directories (λ d, path_join out (relative data d)) (filter (λ d, below data d = true) (elements (directories kc)))
    (mkDisk (fs_ kc) ds) Hh) as (ds' & ->). cbn [fs_].
  destruct (copy_all data out (tree (fs_ kc) data) (mkDisk (fs_ kc) ds')) as (kb & -> & [H1 H2 H3]); [done..|apply tree_nodup| |].
  { apply Forall_forall. intros rel Hrel%tree_present. split; [by apply Hp|done]. }
  exists kb. split; [done|]. split; [done|]. intros rel. destruct (files (fs_ kc) !! full data rel) as [text|] eqn:E.
  - rewrite H2; [done|]. apply tree_present. by eexists.
  - rewrite H3; [apply Hout|]. intros x Hx%tree_present ->%full_inj. destruct Hx. congruence.
Qed.

(** The disk after a backup: the copies, and the manifest for them. *)
Record backed_up (data out : string) (kc k1 : Disk) : Prop := {
  backed_healthy : healthy (fs_ k1);
  backed_files : ∀ rel, rel ≠ kManifestFileName → files (fs_ k1) !! full out rel = files (fs_ kc) !! full data rel;
  backed_manifest : ∃ rels, NoDup rels ∧ (∀ rel, rel ∈ rels ↔ present kc data rel) ∧
    files (fs_ k1) !! full out kManifestFileName =
    Some (unlines (manifest_lines (mkManifest kEngineVersion now ((λ rel, entry_for rel (text_at k1 out rel)) <$> rels))))
}.
Lemma backup_runs data out k kc :
  data ≠ ""%string → out ≠ ""%string → hasWalStagingFiles data k = false →
  (∀ a b, canonical data = Some a → canonical out = Some b → mismatch_at_end a b = Ok false) →
  runCheckpoint new_heap today listing data k = (kc, Ok tt) →
  healthy (fs_ kc) → apart data out → exists_directory data kc = true → (∀ rel, present kc data rel → portable rel) →
  (∀ rel, files (fs_ kc) !! full out rel = None) →
  ∃ k1, executeBackup new_heap today listing tree canonical (Ok now) (mkBackupRequest data out) k = (k1, Ok tt) ∧ backed_up data out kc k1.
Proof.
  intros Hd Ho Hst Hc Hck Hh Ha He Hp Hout. unfold executeBackup. cbn [bk_data bk_output].
  rewrite !bool_decide_false by done. cbn [orb]. rewrite ST_bind_eq. unfold refuseIfStagingPresent. rewrite ST_bind_eq. cbn [st_get].
  rewrite Hst. cbn [mret ST_ret]. rewrite ST_bind_eq.
  assert (refuseIfOutputInsideData canonical data out k = (k, Ok tt)) as ->.
  { unfold refuseIfOutputInsideData. destruct (canonical data) as [a|]; [|done]. destruct (canonical out) as [b|]; [|done].
    rewrite ST_bind_eq. unfold st_lift. by rewrite (Hc a b). }
  rewrite ST_bind_eq, Hck, ST_bind_eq. destruct (backup_copy data out kc Hh Ha He Hp Hout) as (kb & -> & Hb & Hcopy).
  rewrite ST_bind_eq. unfold buildManifest. rewrite ST_bind_eq. cbn [st_get]. set (rels := filter _ (tree (fs_ kb) out)).
  assert (∀ rel, rel ∈ rels ↔ present kc data rel) as Hrels.
  { intros rel. unfold rels. rewrite list_elem_of_filter, tree_present. unfold present. rewrite Hcopy. split; [by intros [_ ?]|].
    intros Hx. split; [|done]. by destruct (Hp rel Hx) as (_ & _ & _ & ?). }
  unfold st_lift. rewrite build_entries.
  2: { apply Forall_forall. intros rel Hrel%Hrels. rewrite Hcopy. split; [by apply Hp|done]. }
  rewrite ST_bind_eq. unfold writeManifest. rewrite ST_bind_eq. unfold on_files, fs_write.
  rewrite (join_full out kManifestFileName) by by vm_compute. destruct (Hb (full out kManifestFileName)) as (-> & -> & _).
  cbn [negb]. eexists. split; [done|]. split; cbn [fs_ files set_files].
  - exact Hb.
  - intros rel Hrel. rewrite lookup_insert_ne by (intros E%full_inj; congruence). apply Hcopy.
  - exists rels. split; [apply NoDup_filter, tree_nodup|]. split; [done|]. rewrite lookup_insert_eq. do 4 f_equal.
    apply Forall_fmap_ext_1, Forall_forall. intros rel Hrel%Hrels. unfold text_at. cbn [fs_ files set_files].
    rewrite lookup_insert_ne; [done|]. intros E%full_inj. destruct (Hp rel Hrel) as (_ & _ & _ & Hne). congruence.
Qed.

Lemma full_not_directory a b x : apart a b → full a x ≠ b.
Proof.
  intros Ha E. destruct (ends_with_slash b) eqn:Es.
  - apply (Ha x ""). unfold full at 2. cbn [path_join]. rewrite Es, E. clear. induction b as [|c b IH]; [done|].
    change (String c b +:+ "") with (String c (b +:+ "")). by rewrite <- IH.
  - apply (Ha (x +:+ "/") ""). unfold full at 2. cbn [path_join]. rewrite Es, <- E. unfold full. rewrite !append_assoc. done.
Qed.
Lemma cleared_directory dir k : ∃ fs ds, (if exists_directory dir k then remove_all dir else mret tt) k = (mkDisk fs ds, Ok tt) ∧
  (healthy (fs_ k) → healthy fs) ∧ (∀ rel, files fs !! full dir rel = None) ∧
  (∀ other rel, apart other dir → files fs !! full other rel = files (fs_ k) !! full other rel).
Proof.
  destruct (exists_directory dir k) eqn:E.
  - do 2 eexists. split; [done|]. cbn [files set_files]. split; [done|]. split.
    + intros rel. apply map_lookup_filter_None_2. right. intros text _ [Hb _]. cbn [fst] in Hb. by rewrite below_full in Hb.
    + intros other rel Ha. destruct (files (fs_ k) !! full other rel) as [text|] eqn:Et.
      * apply map_lookup_filter_Some_2; [done|]. split; [by apply apart_below|by apply full_not_directory].
      * apply map_lookup_filter_None_2. by left.
  - exists (fs_ k), (directories k). split; [by destruct k|]. split; [done|]. split; [|done]. intros rel.
    unfold exists_directory in E. apply orb_false_iff in E as [_ E]. destruct (files (fs_ k) !! full dir rel) as [text|] eqn:Et; [|done].
    exfalso. revert E. apply not_false_iff_true. apply existsb_exists. exists (full dir rel). split; [|apply below_full].
    apply list_elem_of_In, list_elem_of_fmap. exists (full dir rel, text). split; [done|]. by apply elem_of_map_to_list.
Qed.

(** C17. A backup that is restored gives the data back.  With a disk that works, a backup of a
    data directory into a directory without files succeeds, its manifest is read and its
    checksums hold, and a restore of it leaves exactly the files in the data directory that
    the checkpoint before the backup had left there. *)
Theorem restored_backup_is_the_data data out target k kc :
  data ≠ ""%string → out ≠ ""%string → target ≠ ""%string → hasWalStagingFiles data k = false →
  (∀ a b, canonical data = Some a → canonical out = Some b → mismatch_at_end a b = Ok false) →
  runCheckpoint new_heap today listing data k = (kc, Ok tt) →
  healthy (fs_ kc) → apart data out → apart out target → exists_directory data kc = true →
  (∀ rel, present kc data rel → portable rel) → (∀ rel, Z.of_nat (String.length (text_at kc data rel)) < 2 ^ 63) →
  (∀ rel, files (fs_ kc) !! full out rel = None) → free_of newline now →
  ∃ k1 k2, executeBackup new_heap today listing tree canonical (Ok now) (mkBackupRequest data out) k = (k1, Ok tt) ∧
    executeRestore (mkRestoreRequest out target true) k1 = (k2, Ok tt) ∧
    ∀ rel, files (fs_ k2) !! full target rel = files (fs_ kc) !! full data rel.
Proof.
  intros Hd Ho Ht Hst Hc Hck Hh Ha Ha' He Hp Hsize Hout Hnow.
  destruct (backup_runs data out k kc) as (k1 & Hb & [B1 B2 (rels & Hnd & Hrels & B3)]); [done..|].
  exists k1. unfold executeRestore. cbn [rs_backup rs_data force]. rewrite !bool_decide_false by done. cbn [orb].
  rewrite ST_bind_eq. cbn [st_get]. rewrite ST_bind_eq. unfold st_lift at 1, readManifest, fs_read.
  rewrite (join_full out kManifestFileName) by by vm_compute. rewrite B3.
  assert (Forall (λ rel, isRelativePathSafe rel = true ∧ is_Some (files (fs_ k1) !! full out rel)) rels) as Hthere.
  { apply Forall_forall. intros rel Hrel%Hrels. destruct (Hp rel Hrel) as (? & _ & _ & ?). by rewrite B2. }
  rewrite read_manifest; cbn [engineVersion createdAt manifest_files]; [|apply (bool_decide_unpack _); by vm_compute|done|].
  2: { apply Forall_fmap, Forall_forall. intros rel Hrel%Hrels. destruct (Hp rel Hrel) as (Hsafe & Htab & Hnl & Hne).
       split; [done|]. split; [|by eexists]. cbn [entry_for entry_size]. split; [lia|]. unfold text_at. rewrite B2 by done. apply Hsize. }
  rewrite ST_bind_eq. unfold st_lift at 1, verifyChecksums. cbn [manifest_files]. rewrite check_entries by done.
  rewrite andb_false_r. unfold replaceDataDirectory. rewrite ST_bind_eq. cbn [st_get]. rewrite ST_bind_eq.
  destruct (cleared_directory target k1) as (fs & ds & -> & Hh' & Hnone & Hother). specialize (Hh' B1).
  rewrite ST_bind_eq. destruct (make_directory target (mkDisk fs ds) Hh') as (ds' & ->). cbn [manifest_files fs_].
  assert (∀ (l : list string) s, st_iter (λ e, copy_into out target (relativePath e)) ((λ rel, entry_for rel (text_at k1 out rel)) <$> l) s =
     st_iter (copy_into out target) l s) as ->.
  { unfold st_iter. induction l as [|x l IH]; intros s; [done|]. rewrite fmap_cons. cbn [st_fold]. rewrite !ST_bind_eq.
    cbn [relativePath entry_for]. destruct (copy_into out target x s) as [s' [[]| |]]; [apply IH|done..]. }
  destruct (copy_all out target rels (mkDisk fs ds')) as (k2 & E & [_ C2 C3]); [done..| |].
  { eapply Forall_impl; [exact Hthere|]. intros rel [? ?]. split; [done|]. cbn [fs_]. by rewrite Hother. }
  exists k2. split; [done|]. split; [done|]. intros rel. cbn [fs_] in *. destruct (decide (rel ∈ rels)) as [Hin|Hin].
  - rewrite C2, Hother by done. apply B2. apply Hrels in Hin. by destruct (Hp rel Hin) as (_ & _ & _ & ?).
  - rewrite C3 by (by intros x Hx ->%full_inj). rewrite Hnone. symmetry. apply eq_None_not_Some. by rewrite <- (Hrels rel).
Qed.
End round_trip.

(** ** Backups of a database *)

Definition now_text : string := "2024-01-01T00:00:00Z".
(** Relative paths are in /srv. *)
Definition in_srv (path : string) : option (list string) := Some ("/" :: "srv" :: split_on "/" path)%string.
Definition backup_of (data out : string) : ST Disk unit :=
  executeBackup empty_heap "2024-01-01" names_in tree_of in_srv (Ok now_text) (mkBackupRequest data out).
Definition restore_to (data : string) : ST Disk unit := executeRestore (mkRestoreRequest "backup" data true).
Definition one_table : Disk :=
  mkDisk (disk (catalogs_ (script ["CREATE TABLE t (n INT)"; "CREATE VIEW v AS SELECT n FROM t"]%string None empty_db).1.1)) ∅.
Definition no_backup : Disk := Eval vm_compute in one_table.

Lemma no_backup_size rel : Z.of_nat (String.length (text_at no_backup "db" rel)) < 2 ^ 63.
Proof.
  unfold text_at. destruct (files (fs_ no_backup) !! full "db" rel) as [text|] eqn:E; [|by vm_compute].
  assert (Forall (λ t, Z.of_nat (String.length t) < 2 ^ 63) (map_to_list (files (fs_ no_backup))).*2) as Hall.
  { apply (bool_decide_unpack _). by vm_compute. }
  rewrite Forall_forall in Hall. apply Hall, list_elem_of_fmap. exists (full "db" rel, text). split; [done|]. by apply elem_of_map_to_list.
Qed.
Lemma restored_backup_is_the_data_witness :
  ∃ k1 k2, backup_of "db" "backup" no_backup = (k1, Ok tt) ∧ restore_to "db" k1 = (k2, Ok tt) ∧
    ∀ rel, files (fs_ k2) !! full "db" rel = files (fs_ no_backup) !! full "db" rel.
Proof.
  apply (restored_backup_is_the_data empty_heap "2024-01-01" names_in tree_of in_srv now_text (λ fs dir, reflexivity _)).
  1-3: discriminate.
  - vm_compute. reflexivity.
  - intros a b [= <-] [= <-]. vm_compute. reflexivity.
  - vm_compute. reflexivity.
  - intros p. vm_compute. split; [reflexivity|split; reflexivity].
  - apply apart_of; vm_compute; reflexivity.
  - apply apart_of; vm_compute; reflexivity.
  - vm_compute. reflexivity.
  - assert (Forall portable (tree_of (fs_ no_backup) "db")) as Hall.
    { unfold portable, free_of. apply (bool_decide_unpack _). by vm_compute. }
    rewrite Forall_forall in Hall. intros rel Hrel. apply Hall. by apply elem_tree.
  - apply no_backup_size.
  - intros rel. apply eq_None_not_Some. rewrite <- elem_tree. assert (tree_of (fs_ no_backup) "backup" = []) as -> by (vm_compute; reflexivity).
    apply not_elem_of_nil.
  - apply (bool_decide_unpack _). by vm_compute.
Defined.

(** The database in the data directory, its tables, and statements run by a server on it. *)
Definition loaded (k : Disk) : Db MemHeap :=
  (load_from_disk empty_heap "2024-01-01" "db" names_in (new_Database (empty_catalogs (fs_ k)))).1.
Definition tables_in (k : Disk) : list string := list_tables (loaded k).
Definition serve_sql (sqls : list string) (k : Disk) : Disk :=
  mkDisk (disk (catalogs_ (script sqls None (loaded k)).1.1)) (directories k).

(** What an earlier backup left in the output directory becomes part of the next one: a
    table that was backed up and then dropped is in the manifest of the second backup into the
    same directory, and a restore of that backup brings it back. *)
Theorem second_backup_revives_dropped_tables :
  let k := (backup_of "db" "backup" no_backup).1 in
  let k := serve_sql ["DROP VIEW v"; "DROP TABLE t"]%string k in
  tables_in k = [] ∧
  let k := (backup_of "db" "backup" k).1 in
  tables_in (restore_to "db" k).1 = ["t"%string] ∧ (restore_to "db" k).2 = Ok tt.
Proof. vm_compute. repeat split; reflexivity. Qed.

(** A backup into a directory that contains the data directory walks past the end of a path. *)
Example output_above_data_is_undefined : (backup_of "srv/db" "srv" no_backup).2 = UB.
Proof. vm_compute. reflexivity. Qed.

(** A restore from a directory inside the data directory removes the backup before it copies
    it: the data is gone. *)
Example restore_from_inside_loses_the_data :
  let k := (backup_of "db" "backup" no_backup).1 in
  let inside := (st_iter (copy_into "backup" "db/backup") (tree_of (fs_ k) "backup") k).1 in
  let '(k', r) := executeRestore (mkRestoreRequest "db/backup" "db" true) inside in
  r = Throw (std_runtime_error "filesystem error: cannot copy file: db/backup/_views/v.view") ∧ tree_of (fs_ k') "db" = [].
Proof. vm_compute. repeat split; reflexivity. Qed.
