(* ===== verification/Cli.v ===== *)
(** * Command lines

    The options of the server (src/utils/cli_options.cc, main.cc), of the backup tool
    (tools/db_backup.cc), and the client (client/cli_client.cc): its options, the queries of
    a batch file, the loop of the interactive mode and the printing of responses. *)

From Stdlib Require Import ZArith Lia Ascii.
From S2P Require Import Prelude CppNum Values Rows Page PageStore BufferPool HeapFile RowHeap IndexKey BTree Transactions LockManager Expr Evaluator Partition Table TableSpec TableMaint TableProps Operators Lexer Ast Parser SelectAnalysis Grouping Windows Planner Scan FileSystem Auth Sessions Catalogs Wal TableFiles PartitionCatalog DbState Queries QueryProps Dml Ddl Explain Dispatch Statements Protocol Shards Coordinator Server Backup.

(** ** Numbers *)

(** [strtoul]: a minus sign negates the value modulo [2^64]; what is too large saturates. *)
Definition strtoul (text : string) : option (Z * list ascii) :=
  let '(neg, r) := split_sign (skip_space (String.list_ascii_of_string text)) in
  let '(v, n, rest) := digits 10 0 0 r in
  if (n =? 0)%nat then None
  else Some (if 2 ^ 64 <=? v then 2 ^ 64 - 1 else if neg then u_wrap 64 (- v) else v, rest).
Definition parse_positive_int (text : string) : option Z :=
  match strtol text with
  | Some (parsed, []) => if (parsed <=? 0) || (65535 <? parsed) then None else Some parsed
  | _ => None
  end.
Definition parse_non_negative_int (text : string) : option Z :=
  match strtol text with
  | Some (parsed, []) => if (parsed <? 0) || (2147483647 <? parsed) then None else Some parsed
  | _ => None
  end.
Definition parse_positive_size (text : string) : option Z :=
  match strtoul text with
  | Some (parsed, []) => if parsed =? 0 then None else Some parsed
  | _ => None
  end.

(** ** Options of the server *)

Inductive LogLevel : Type := Debug | Info | Warning | Error.
Definition parse_log_level (text : string) : option LogLevel :=
  let upper := str_upper text in
  if bool_decide (upper = "DEBUG"%string) then Some Debug
  else if bool_decide (upper = "INFO"%string) then Some Info
  else if bool_decide (upper = "WARNING"%string) || bool_decide (upper = "WARN"%string) then Some Warning
  else if bool_decide (upper = "ERROR"%string) then Some Error
  else None.
Definition parse_server_role (text : string) : option ServerRole :=
  let lower := str_lower text in
  if bool_decide (lower = "standalone"%string) then Some Standalone
  else if bool_decide (lower = "worker"%string) then Some RoleWorker
  else if bool_decide (lower = "coordinator"%string) then Some RoleCoordinator
  else None.

Record CliOptions : Type := mkOptions {
  o_port : Z;
  o_workers : Z;
  data_directory : string;
  buffer_pool_pages : Z;
  log_level : LogLevel;
  show_help : bool;
  o_auth : ServerAuthConfig;
  o_require_auth : option bool;
  o_cluster : ServerClusterConfig
}.
Definition default_options : CliOptions :=
  mkOptions 9000 4 "data" 64 Info false (mkAuthConfig None false None) None (mkClusterConfig Standalone None None None).
Definition effective_require_auth (o : CliOptions) : bool :=
  match o_require_auth o with Some b => b | None => match auth_file (o_auth o) with Some _ => true | None => false end end.

Definition set_port (p : Z) (o : CliOptions) : CliOptions :=
  mkOptions p (o_workers o) (data_directory o) (buffer_pool_pages o) (log_level o) (show_help o) (o_auth o) (o_require_auth o) (o_cluster o).
Definition set_workers (n : Z) (o : CliOptions) : CliOptions :=
  mkOptions (o_port o) n (data_directory o) (buffer_pool_pages o) (log_level o) (show_help o) (o_auth o) (o_require_auth o) (o_cluster o).
Definition set_data_directory (d : string) (o : CliOptions) : CliOptions :=
  mkOptions (o_port o) (o_workers o) d (buffer_pool_pages o) (log_level o) (show_help o) (o_auth o) (o_require_auth o) (o_cluster o).
Definition set_pool_pages (n : Z) (o : CliOptions) : CliOptions :=
  mkOptions (o_port o) (o_workers o) (data_directory o) n (log_level o) (show_help o) (o_auth o) (o_require_auth o) (o_cluster o).
Definition set_log_level (l : LogLevel) (o : CliOptions) : CliOptions :=
  mkOptions (o_port o) (o_workers o) (data_directory o) (buffer_pool_pages o) l (show_help o) (o_auth o) (o_require_auth o) (o_cluster o).
Definition set_help (o : CliOptions) : CliOptions :=
  mkOptions (o_port o) (o_workers o) (data_directory o) (buffer_pool_pages o) (log_level o) true (o_auth o) (o_require_auth o) (o_cluster o).
Definition set_require_auth (b : bool) (o : CliOptions) : CliOptions :=
  mkOptions (o_port o) (o_workers o) (data_directory o) (buffer_pool_pages o) (log_level o) (show_help o) (o_auth o) (Some b) (o_cluster o).
Definition set_auth_config (a : ServerAuthConfig) (o : CliOptions) : CliOptions :=
  mkOptions (o_port o) (o_workers o) (data_directory o) (buffer_pool_pages o) (log_level o) (show_help o) a (o_require_auth o) (o_cluster o).
Definition set_cluster (c : ServerClusterConfig) (o : CliOptions) : CliOptions :=
  mkOptions (o_port o) (o_workers o) (data_directory o) (buffer_pool_pages o) (log_level o) (show_help o) (o_auth o) (o_require_auth o) c.

Definition is_arg (arg : string) (names : list string) : bool := bool_decide (arg ∈ names).
(** [--flag=value] *)
Definition split_inline (raw : string) : string * string :=
  match cut_at "=" raw with
  | Some (arg, value) => if String.prefix "--" raw then (arg, value) else (raw, ""%string)
  | None => (raw, ""%string)
  end.
(** The value of a flag: after the equals sign unless nothing is there, else the next argument. *)
Definition require_value (inline_value : string) (rest : list string) : option (string * list string) :=
  if bool_decide (inline_value = ""%string) then match rest with [] => None | v :: rest => Some (v, rest) end
  else Some (inline_value, rest).
Definition or_error {A} (what value : string) (r : option A) (f : A → CliOptions) : string + CliOptions :=
  match r with Some a => inr (f a) | None => inl ("Invalid " +:+ what +:+ ": " +:+ value) end.
(** The flags that take a value, and what they do with it. *)
Definition flag_with_value (arg : string) : option (string → CliOptions → string + CliOptions) :=
  if is_arg arg ["-p"; "--port"]%string then Some (λ v o, or_error "port" v (parse_positive_int v) (λ p, set_port p o))
  else if is_arg arg ["-w"; "--workers"]%string then Some (λ v o, or_error "workers" v (parse_positive_size v) (λ n, set_workers n o))
  else if is_arg arg ["-d"; "--data-dir"]%string then Some (λ v o, inr (set_data_directory v o))
  else if is_arg arg ["--buffer-pool-pages"]%string then
    Some (λ v o, or_error "buffer-pool-pages" v (parse_positive_size v) (λ n, set_pool_pages n o))
  else if is_arg arg ["--auth-file"]%string then
    Some (λ v o, inr (set_auth_config (mkAuthConfig (Some v) (require_auth (o_auth o)) (bootstrap_admin_password (o_auth o))) o))
  else if is_arg arg ["--bootstrap-admin"]%string then
    Some (λ v o, inr (set_auth_config (mkAuthConfig (auth_file (o_auth o)) (require_auth (o_auth o)) (Some v)) o))
  else if is_arg arg ["--role"]%string then
    Some (λ v o, or_error "role" v (parse_server_role v) (λ r,
      set_cluster (mkClusterConfig r (shard_id (o_cluster o)) (shard_map_path (o_cluster o)) (rpc_secret (o_cluster o))) o))
  else if is_arg arg ["--shard-id"]%string then
    Some (λ v o, or_error "shard-id" v (parse_non_negative_int v) (λ i,
      set_cluster (mkClusterConfig (server_role (o_cluster o)) (Some i) (shard_map_path (o_cluster o)) (rpc_secret (o_cluster o))) o))
  else if is_arg arg ["--shard-map"]%string then
    Some (λ v o, inr (set_cluster (mkClusterConfig (server_role (o_cluster o)) (shard_id (o_cluster o)) (Some v) (rpc_secret (o_cluster o))) o))
  else if is_arg arg ["--rpc-secret"]%string then
    Some (λ v o, inr (set_cluster (mkClusterConfig (server_role (o_cluster o)) (shard_id (o_cluster o)) (shard_map_path (o_cluster o)) (Some v)) o))
  else if is_arg arg ["--log-level"]%string then Some (λ v o, or_error "log level" v (parse_log_level v) (λ l, set_log_level l o))
  else None.
(** The checks after the loop. *)
Definition check_options (o : CliOptions) : string + CliOptions :=
  let c := o_cluster o in
  match bootstrap_admin_password (o_auth o), auth_file (o_auth o) with
  | Some _, None => inl "--bootstrap-admin requires --auth-file"%string
  | _, _ =>
      match server_role c, shard_map_path c, rpc_secret c with
      | RoleCoordinator, None, _ => inl "coordinator requires --shard-map"%string
      | RoleCoordinator, _, None => inl "coordinator requires --rpc-secret"%string
      | RoleWorker, _, None => inl "worker requires --rpc-secret"%string
      | _, _, _ => inr o
      end
  end.
(** Every turn of the loop takes an argument: [fuel] is their number. *)
Fixpoint parse_args (fuel : nat) (args : list string) (o : CliOptions) : string + CliOptions :=
  match fuel, args with
  | _, [] | O, _ => check_options o
  | S fuel, raw :: rest =>
      let '(arg, inline_value) := split_inline raw in
      if is_arg arg ["-h"; "--help"]%string then inr (set_help o)
      else match flag_with_value arg with
      | Some set =>
          match require_value inline_value rest with
          | None => inl ("Missing value for " +:+ arg)
          | Some (v, rest) => match set v o with inl error => inl error | inr o => parse_args fuel rest o end
          end
      | None =>
          if is_arg arg ["--require-auth"; "--no-require-auth"]%string then
            if bool_decide (inline_value = ""%string) then parse_args fuel rest (set_require_auth (bool_decide (arg = "--require-auth"%string)) o)
            else inl ("Unexpected value for " +:+ arg)
          else inl ("Unknown argument: " +:+ arg)
      end
  end.
Definition parse_cli_options (args : list string) : string + CliOptions := parse_args (length args) args default_options.

(** What [main] makes of them. *)
Definition server_auth (o : CliOptions) : ServerAuthConfig :=
  mkAuthConfig (auth_file (o_auth o)) (effective_require_auth o) (bootstrap_admin_password (o_auth o)).

Record numbers_ok (o : CliOptions) : Prop := {
  port_ok : 0 < o_port o ≤ 65535;
  workers_ok : 0 < o_workers o < 2 ^ 64;
  pages_ok : 0 < buffer_pool_pages o < 2 ^ 64
}.
Lemma positive_int v p : parse_positive_int v = Some p → 0 < p ≤ 65535.
Proof.
  unfold parse_positive_int. destruct (strtol v) as [[z [|]]|]; [|done..].
  destruct (Z.leb_spec z 0), (Z.ltb_spec 65535 z); cbn; try done. intros [= <-]. lia.
Qed.
Lemma digits_nonneg b s : 0 < b → ∀ acc n, 0 ≤ acc → 0 ≤ (digits b acc n s).1.1.
Proof.
  intros Hb. induction s as [|c s IH]; intros acc n Ha; cbn; [done|]. destruct (digit_value c) as [d|] eqn:Ed; [|done].
  destruct (d <? b); [|done]. apply IH. assert (0 ≤ d); [|nia].
  unfold digit_value, is_digit, CppNum.in_range in Ed. repeat case_match; simplify_eq; lia.
Qed.
Lemma positive_size v n : parse_positive_size v = Some n → 0 < n < 2 ^ 64.
Proof.
  unfold parse_positive_size, strtoul. destruct (split_sign _) as [neg r].
  pose proof (digits_nonneg 10 r ltac:(lia) 0 0%nat ltac:(lia)) as Hd.
  destruct (digits 10 0 0 r) as [[z k] rest]. cbn [fst] in Hd. destruct (k =? 0)%nat; [done|].
  assert (0 ≤ (if 2 ^ 64 <=? z then 2 ^ 64 - 1 else if neg then u_wrap 64 (- z) else z) < 2 ^ 64) as Hr.
  { destruct (Z.leb_spec (2 ^ 64) z); [lia|]. destruct neg; [apply Z.mod_pos_bound; lia|lia]. }
  destruct rest; [|done]. destruct (Z.eqb_spec (if 2 ^ 64 <=? z then 2 ^ 64 - 1 else if neg then u_wrap 64 (- z) else z) 0); [done|].
  intros [= <-]. lia.
Qed.
Lemma flag_numbers arg set v o o' : flag_with_value arg = Some set → numbers_ok o → set v o = inr o' → numbers_ok o'.
Proof.
  intros Hf [Hp Hw Hg]. unfold flag_with_value, or_error in Hf. repeat (case_match; [injection Hf as <-|]); [..|done];
    try (by intros [= <-]); try (case_match; [|done]; intros [= <-]; split; cbn; auto using positive_int, positive_size);
    eauto using positive_int, positive_size.
Qed.
Lemma parse_args_ok fuel args o o' : numbers_ok o → parse_args fuel args o = inr o' → numbers_ok o' ∧ (show_help o' = true ∨ check_options o' = inr o').
Proof.
  assert (∀ o o', check_options o = inr o' → o' = o) as Hsame. { intros x y. unfold check_options. repeat case_match; congruence. }
  revert args o. induction fuel as [|fuel IH]; intros args o Ho.
  - assert (parse_args 0 args o = check_options o) as -> by by destruct args. intros Hc. pose proof (Hsame _ _ Hc) as ->. auto.
  - destruct args as [|raw rest]; cbn [parse_args]; [intros Hc; pose proof (Hsame _ _ Hc) as ->; auto|].
    destruct (split_inline raw) as [arg v]. destruct (is_arg arg _); [intros [= <-]; split; [by destruct Ho|by left]|].
    destruct (flag_with_value arg) as [set|] eqn:Ef.
    + destruct (require_value v rest) as [[w rest']|]; [|done]. destruct (set w o) as [|o1] eqn:Es; [done|].
      apply IH. by eapply flag_numbers.
    + destruct (is_arg arg _); [|done]. case_bool_decide; [|done]. apply IH. by destruct Ho.
Qed.
(** The fuel is enough. *)
Lemma parse_args_fuel args : ∀ fuel fuel' o, (length args ≤ fuel)%nat → (length args ≤ fuel')%nat →
  parse_args fuel args o = parse_args fuel' args o.
Proof.
  assert (∀ n args, length args = n → ∀ fuel fuel' o, (n ≤ fuel)%nat → (n ≤ fuel')%nat → parse_args fuel args o = parse_args fuel' args o) as Hn;
    [|eauto].
  clear args. intros n. induction n as [n IH] using lt_wf_ind. intros [|raw rest] Hl fuel fuel' o H1 H2; [by destruct fuel, fuel'|].
  cbn in Hl. destruct fuel as [|fuel], fuel' as [|fuel']; try lia. cbn [parse_args]. destruct (split_inline raw) as [arg v].
  destruct (is_arg arg _); [done|]. destruct (flag_with_value arg) as [set|].
  - destruct (require_value v rest) as [[w rest']|] eqn:Er; [|done]. destruct (set w o) as [|o1]; [done|].
    assert (length rest' ≤ length rest)%nat. { unfold require_value in Er. repeat case_match; simplify_eq; cbn; lia. }
    apply (IH (length rest')); lia || done.
  - destruct (is_arg arg _); [|done]. case_bool_decide; [|done]. apply (IH (length rest)); lia || done.
Qed.

(** C38. Options that are accepted, other than those that ask for help, can be started with:
    the port is between 1 and 65535, the numbers of threads and of buffers are not 0 and fit
    64 bits (nothing else: a negative number wraps around, [negative_workers]), an
    administrator is only created with a file to keep it in, a worker has a secret, and a
    coordinator has a map and a secret, so that setting it up fails only when the map does
    not load. *)
Theorem accepted_options_are_complete args o :
  parse_cli_options args = inr o → show_help o = false →
  numbers_ok o ∧
  (is_Some (bootstrap_admin_password (server_auth o)) → is_Some (auth_file (server_auth o))) ∧
  (server_role (o_cluster o) = RoleWorker → is_Some (rpc_secret (o_cluster o))) ∧
  (server_role (o_cluster o) = RoleCoordinator → ∃ path secret, ∀ fs,
     initialize_coordinator (o_cluster o) fs =
     match loadFromFile path fs with inl e => Throw (std_runtime_error e) | inr map => Ok (Some (map, secret)) end).
Proof.
  intros Hp Hh. assert (numbers_ok default_options) as Hdef by (split; cbn; lia).
  destruct (parse_args_ok _ _ _ o Hdef Hp) as [Hn [Hc|Hc]]; [congruence|]. split; [done|].
  unfold check_options in Hc. cbn [server_auth bootstrap_admin_password auth_file].
  unfold initialize_coordinator. split; [|split].
  - intros [pw Hpw]. rewrite Hpw in Hc. by destruct (auth_file (o_auth o)).
  - intros Hr. rewrite Hr in Hc. by destruct (bootstrap_admin_password (o_auth o)), (auth_file (o_auth o)), (rpc_secret (o_cluster o)).
  - intros Hr. rewrite Hr in *. destruct (shard_map_path (o_cluster o)) as [path|], (rpc_secret (o_cluster o)) as [secret|];
      [by exists path, secret|by destruct (bootstrap_admin_password (o_auth o)), (auth_file (o_auth o))..].
Qed.
Lemma accepted_options_are_complete_witness :
  ∃ o, parse_cli_options ["--role=Coordinator"; "-p"; "9100"; "--shard-map"; "m.conf"; "--rpc-secret=k"]%string = inr o ∧
    numbers_ok o ∧ (server_role (o_cluster o) = RoleCoordinator → ∃ path secret, ∀ fs,
      initialize_coordinator (o_cluster o) fs =
      match loadFromFile path fs with inl e => Throw (std_runtime_error e) | inr map => Ok (Some (map, secret)) end).
Proof.
  eexists. split; [vm_compute; reflexivity|].
  destruct (accepted_options_are_complete ["--role=Coordinator"; "-p"; "9100"; "--shard-map"; "m.conf"; "--rpc-secret=k"]%string
    (mkOptions 9100 4 "data" 64 Info false (mkAuthConfig None false None) None (mkClusterConfig RoleCoordinator None (Some "m.conf") (Some "k"))%string))
    as (? & _ & _ & ?); [vm_compute; reflexivity|reflexivity|done].
Defined.

(** A negative number of threads is accepted and becomes almost [2^64]; an empty value after an
    equals sign takes the next argument. *)
Example negative_workers : o_workers <$> (match parse_cli_options ["--workers=-1"]%string with inr o => Some o | inl _ => None end) = Some (2 ^ 64 - 1).
Proof. vm_compute. reflexivity. Qed.
Example empty_inline_value :
  (λ o, (data_directory o, o_require_auth o)) <$> (match parse_cli_options ["--data-dir="; "--require-auth"]%string with inr o => Some o | inl _ => None end) =
  Some ("--require-auth"%string, None).
Proof. vm_compute. reflexivity. Qed.

(** ** The backup tool *)

Fixpoint backup_args (args : list string) (request : BackupRequest) : string + BackupRequest :=
  match args with
  | [] => inr request
  | arg :: rest =>
      let incomplete := inl ("Unknown or incomplete backup argument: " +:+ arg) in
      match rest with
      | value :: rest =>
          if bool_decide (arg = "--data-dir"%string) then backup_args rest (mkBackupRequest value (bk_output request))
          else if bool_decide (arg = "--output-dir"%string) then backup_args rest (mkBackupRequest (bk_data request) value)
          else incomplete
      | [] => incomplete
      end
  end.
Fixpoint restore_args (args : list string) (request : RestoreRequest) : string + RestoreRequest :=
  match args with
  | [] => inr request
  | arg :: rest =>
      let incomplete := inl ("Unknown or incomplete restore argument: " +:+ arg) in
      if bool_decide (arg = "--force"%string) then restore_args rest (mkRestoreRequest (rs_backup request) (rs_data request) true)
      else match rest with
      | value :: rest =>
          if bool_decide (arg = "--data-dir"%string) then restore_args rest (mkRestoreRequest (rs_backup request) value (force request))
          else if bool_decide (arg = "--backup-dir"%string) then restore_args rest (mkRestoreRequest value (rs_data request) (force request))
          else incomplete
      | [] => incomplete
      end
  end.
Fixpoint checkpoint_args (args : list string) (dir : string) : string + string :=
  match args with
  | [] => if bool_decide (dir = ""%string) then inl "checkpoint requires --data-dir"%string else inr dir
  | arg :: rest =>
      let incomplete := inl ("Unknown or incomplete checkpoint argument: " +:+ arg) in
      match rest with
      | value :: rest => if bool_decide (arg = "--data-dir"%string) then checkpoint_args rest value else incomplete
      | [] => incomplete
      end
  end.

Section tool.
Context {H : Type} {RH : RowHeap H} {PH : PagedHeap H} (new_heap : H) (today : string).
Context (listing tree : Fs → string → list string) (canonical : string → option (list string)) (timestamp : res string).
Definition run_with {A} (args : string + A) (act : A → ST Disk unit) : ST Disk Z :=
  match args with inl _ => mret 1 | inr a => act a;; mret 0 end.
(** The exit code: an exception is printed. *)
Definition db_backup (command : string) (args : list string) : ST Disk Z :=
  st_catch
    (if bool_decide (command = "backup"%string) then
       run_with (backup_args args (mkBackupRequest "" "")) (executeBackup new_heap today listing tree canonical timestamp)
     else if bool_decide (command = "restore"%string) then run_with (restore_args args (mkRestoreRequest "" "" false)) executeRestore
     else if bool_decide (command = "checkpoint"%string) then run_with (checkpoint_args args "") (runCheckpoint new_heap today listing)
     else mret (if is_arg command ["-h"; "--help"]%string then 0 else 1))
    (λ _, mret 1).
End tool.

(** ** The client *)

Record ClientOptions : Type := mkClientOptions {
  cl_host : string;
  cl_port : Z;
  cl_username : string;
  cl_password : string;
  batch_file : string;
  cl_show_help : bool
}.
(** [std::atoi]: what follows the digits is ignored; no digits are zero. *)
Definition atoi (text : string) : Z := match strtol text with Some (v, _) => s_wrap 32 v | None => 0 end.
(** After the loop: the password may come from the environment. *)
Definition check_client (env_password : option string) (o : ClientOptions) : string + ClientOptions :=
  let password := if bool_decide (cl_username o ≠ ""%string) && bool_decide (cl_password o = ""%string) then default ""%string env_password
                  else cl_password o in
  if bool_decide (cl_username o ≠ ""%string) && bool_decide (password = ""%string) then inl "--user requires --password or NOBUGDB_PASSWORD"%string
  else inr (mkClientOptions (cl_host o) (cl_port o) (cl_username o) password (batch_file o) (cl_show_help o)).
Definition client_flag (arg value : string) (o : ClientOptions) : string + ClientOptions :=
  if is_arg arg ["-H"; "--host"]%string then
    inr (mkClientOptions value (cl_port o) (cl_username o) (cl_password o) (batch_file o) (cl_show_help o))
  else if is_arg arg ["-p"; "--port"]%string then
    if (atoi value <=? 0) || (65535 <? atoi value) then inl "Invalid port"%string
    else inr (mkClientOptions (cl_host o) (atoi value) (cl_username o) (cl_password o) (batch_file o) (cl_show_help o))
  else if is_arg arg ["-u"; "--user"]%string then
    inr (mkClientOptions (cl_host o) (cl_port o) value (cl_password o) (batch_file o) (cl_show_help o))
  else inr (mkClientOptions (cl_host o) (cl_port o) (cl_username o) value (batch_file o) (cl_show_help o)).
Fixpoint client_args (env_password : option string) (args : list string) (o : ClientOptions) : string + ClientOptions :=
  match args with
  | [] => check_client env_password o
  | arg :: rest =>
      if is_arg arg ["-h"; "--help"]%string then
        inr (mkClientOptions (cl_host o) (cl_port o) (cl_username o) (cl_password o) (batch_file o) true)
      else if is_arg arg ["-H"; "--host"; "-p"; "--port"; "-u"; "--user"; "--password"]%string then
        match rest with
        | [] => inl ("Missing value for " +:+ arg)
        | value :: rest => match client_flag arg value o with inl error => inl error | inr o => client_args env_password rest o end
        end
      else if String.prefix "-" arg then inl ("Unknown argument: " +:+ arg)
      else if bool_decide (batch_file o ≠ ""%string) then inl "Multiple batch files specified"%string
      else client_args env_password rest (mkClientOptions (cl_host o) (cl_port o) (cl_username o) (cl_password o) arg (cl_show_help o))
  end.
Definition parse_client_options (env_password : option string) (args : list string) : string + ClientOptions :=
  client_args env_password args (mkClientOptions "127.0.0.1" 9000 "" "" "" false).

(** The queries of a batch file: lines up to one that ends with a semicolon. *)
Fixpoint batch_queries (query : string) (ls : list string) : list string :=
  match ls with
  | [] => if bool_decide (query = ""%string) then [] else [query]
  | l :: ls =>
      if bool_decide (l = ""%string) || String.prefix "#" l then batch_queries query ls
      else if back_is [";"%char] l then (query +:+ l) :: batch_queries "" ls
      else batch_queries (query +:+ l +:+ " ") ls
  end.
Definition run_batch_file (text : string) : list string := batch_queries "" (lines text).

(** Standard input: what is left of it, and whether its end was met.  At the end [getline] does
    not touch the string it is given. *)
Record Input : Type := mkInput { left_over : string; eof : bool }.
Definition std_getline (input : Input) (query : string) : Input * string :=
  if eof input then (input, query)
  else match cut_at newline (left_over input) with
  | Some (l, rest) => (mkInput rest false, l)
  | None => (mkInput "" true, left_over input)
  end.
(** [fuel] turns of the loop: the queries sent, and whether the loop has ended. *)
Fixpoint interactive_mode (fuel : nat) (input : Input) (query : string) : list string * bool :=
  match fuel with
  | O => ([], false)
  | S fuel =>
      let '(input, query) := std_getline input query in
      if is_arg query ["quit"; "exit"]%string then ([], true)
      else if is_arg query ["help"; ""]%string then interactive_mode fuel input query
      else let '(sent, ended) := interactive_mode fuel input query in (query :: sent, ended)
  end.

(** What is printed for a response, and whether it is a success. *)
Definition spaces_for_tabs (l : string) : string := string_map (λ c, if Ascii.eqb c tab then " "%char else c) l.
Definition read_response (username response : string) : res (list string * bool) :=
  let response := c_str response in
  if String.prefix "ERROR" response then
    if (String.length response <? 6)%nat then Throw (std_out_of_range "basic_string::substr")
    else Ok (["Error: " +:+ String.substring 6 (String.length response) response]%string, false)
  else if String.prefix "OK|" response then
    let data := String.substring 3 (String.length response) response in
    if bool_decide (data = line "Goodbye") then Ok (["Disconnected"%string], true)
    else if String.prefix "authenticated" data then Ok (["Authenticated as " +:+ username]%string, true)
    else match filter (λ l, l ≠ ""%string) (lines data) with
    | [] => Ok (["Query executed successfully"%string], true)
    | ls => Ok (spaces_for_tabs <$> ls, true)
    end
  else if bool_decide (response = line "PONG") then Ok (["Server is alive"%string], true)
  else Ok ([response], true).

(** The end of standard input does not end the interactive mode: a last line that no newline
    follows is sent again and again, and otherwise the loop spins. *)
Lemma after_the_end query : is_arg query ["quit"; "exit"; "help"; ""]%string = false →
  ∀ fuel, interactive_mode fuel (mkInput "" true) query = (replicate fuel query, false).
Proof.
  intros Hq fuel. unfold is_arg in Hq. apply bool_decide_eq_false in Hq. rewrite !not_elem_of_cons in Hq. destruct Hq as (H1 & H2 & H3 & H4 & _).
  induction fuel as [|fuel IH]; [done|]. cbn [interactive_mode std_getline eof]. unfold is_arg.
  rewrite !bool_decide_false by (rewrite !not_elem_of_cons; split_and!; try done; apply not_elem_of_nil). by rewrite IH.
Qed.
Theorem interactive_mode_repeats_the_last_line query fuel :
  is_arg query ["quit"; "exit"; "help"; ""]%string = false → free_of newline query →
  interactive_mode fuel (mkInput query false) "" = (replicate fuel query, false).
Proof.
  intros Hq Hf. destruct fuel as [|fuel]; [done|]. pose proof (after_the_end query Hq (S fuel)) as E. rewrite <- E.
  cbn [interactive_mode]. assert (std_getline (mkInput query false) "" = (mkInput "" true, query)) as ->; [|done].
  unfold std_getline. cbn [eof left_over]. destruct (cut_at newline query) as [[a b]|] eqn:Ec; [|done]. exfalso. clear E Hq.
  revert a b Ec Hf. unfold free_of. induction query as [|x q IH]; intros a b; cbn [cut_at]; [done|].
  destruct (Ascii.eqb_spec x newline) as [->|]; [intros _ Hf; apply Hf; cbn; left|].
  destruct (cut_at newline q) as [[a' b']|]; [|done]. intros _ Hf. apply (IH a' b' eq_refl). intros Hin. apply Hf. cbn. by right.
Qed.
Lemma interactive_mode_repeats_witness :
  interactive_mode 3 (mkInput "INSERT INTO t VALUES (1)" false) "" = (replicate 3 "INSERT INTO t VALUES (1)"%string, false).
Proof.
  apply interactive_mode_repeats_the_last_line; [reflexivity|]. apply (bool_decide_unpack _). by vm_compute.
Defined.
Example interactive_mode_spins : interactive_mode 100 (mkInput (line "SELECT 1") false) "" = (["SELECT 1"%string], false).
Proof. vm_compute. reflexivity. Qed.
Example batch_of_two : run_batch_file "# setup
CREATE TABLE t
(n INT);
INSERT INTO t VALUES (1);
" = ["CREATE TABLE t (n INT);"; "INSERT INTO t VALUES (1);"]%string.
Proof. vm_compute. reflexivity. Qed.
