(* ===== verification/ThreadPool.v ===== *)
(** * The thread pool

    [ThreadPool] (src/threading/thread_pool.cc) over [WorkQueue] (include/threading/work_queue.h)
    as a step relation.  A call is cut where it holds no mutex: [submit] tests the flag and
    enqueues in two steps, [shutdown] sets the flag and then enqueues one sentinel after the
    other, a worker dequeues and runs what it got.  The queue keeps its history: everything
    that was enqueued, and how much of it was taken. *)

From Stdlib Require Import ZArith Lia.
From S2P Require Import Prelude.

Section pool.
Context {Task : Type}.

Inductive Worker : Type := Idle | Running (t : Task) | Ended.
Record Pool : Type := mkPool {
  enqueued : list (option Task);  (* [None] is the sentinel [nullptr] *)
  taken : nat;
  shutdown_flag_ : bool;
  pool_workers : list Worker;
  between : list Task;            (* calls of submit between the test of the flag and the queue *)
  sentinels : nat;                (* sentinels that shutdown has still to enqueue *)
  accepted : nat;                 (* how much had been enqueued when the flag was set *)
  finished : list Task;
  dropped : list Task
}.
Implicit Types p : Pool.
Definition new_ThreadPool (thread_count : nat) : Pool := mkPool [] 0 false (replicate thread_count Idle) [] 0 0 [] [].
Definition task_queue_ p : list (option Task) := drop (taken p) (enqueued p).
Definition get_thread_count p : nat := length (pool_workers p).
Definition get_pending_task_count p : nat := length (task_queue_ p).

Definition enqueue (x : option Task) p : Pool :=
  mkPool (enqueued p ++ [x]) (taken p) (shutdown_flag_ p) (pool_workers p) (between p) (sentinels p) (accepted p) (finished p) (dropped p).
Definition with_between (ts : list Task) p : Pool :=
  mkPool (enqueued p) (taken p) (shutdown_flag_ p) (pool_workers p) ts (sentinels p) (accepted p) (finished p) (dropped p).
Definition with_sentinels (n : nat) p : Pool :=
  mkPool (enqueued p) (taken p) (shutdown_flag_ p) (pool_workers p) (between p) n (accepted p) (finished p) (dropped p).

(** [submit], first part: a pool that was shut down drops the task with a warning. *)
Definition submit_test (t : Task) p : Pool :=
  if shutdown_flag_ p then
    mkPool (enqueued p) (taken p) true (pool_workers p) (between p) (sentinels p) (accepted p) (finished p) (dropped p ++ [t])
  else with_between (t :: between p) p.
(** [shutdown], first part; a second call returns at once. *)
Definition shutdown_begin p : Pool :=
  if shutdown_flag_ p then p
  else mkPool (enqueued p) (taken p) true (pool_workers p) (between p) (length (pool_workers p)) (length (enqueued p)) (finished p) (dropped p).
(** [worker_loop]: a sentinel ends the worker. *)
Definition take_task (i : nat) (x : option Task) p : Pool :=
  mkPool (enqueued p) (S (taken p)) (shutdown_flag_ p) (<[i := match x with Some t => Running t | None => Ended end]> (pool_workers p))
    (between p) (sentinels p) (accepted p) (finished p) (dropped p).
Definition finish_task (i : nat) (t : Task) p : Pool :=
  mkPool (enqueued p) (taken p) (shutdown_flag_ p) (<[i := Idle]> (pool_workers p)) (between p) (sentinels p) (accepted p)
    (t :: finished p) (dropped p).

Inductive step : Pool → Pool → Prop :=
  | step_submit_test t p : step p (submit_test t p)
  | step_submit_enqueue t l r p : between p = l ++ t :: r → step p (enqueue (Some t) (with_between (l ++ r) p))
  | step_shutdown p : step p (shutdown_begin p)
  | step_sentinel n p : sentinels p = S n → step p (enqueue None (with_sentinels n p))
  | step_take i x p : pool_workers p !! i = Some Idle → enqueued p !! taken p = Some x → step p (take_task i x p)
  | step_finish i t p : pool_workers p !! i = Some (Running t) → step p (finish_task i t p).
Inductive reachable (n : nat) : Pool → Prop :=
  | reachable_new : reachable n (new_ThreadPool n)
  | reachable_step p p' : reachable n p → step p p' → reachable n p'.

(** [shutdown] has returned: it enqueued its sentinels and joined the workers. *)
Definition shut_down p : Prop :=
  shutdown_flag_ p = true ∧ sentinels p = 0%nat ∧ Forall (λ w, w = Ended) (pool_workers p).

(** ** The invariant *)

Definition started p : list Task := omap id (take (taken p) (enqueued p)).
Definition running (ws : list Worker) : list Task := omap (λ w, match w with Running t => Some t | _ => None end) ws.
Definition is_ended (w : Worker) : bool := match w with Ended => true | _ => false end.
Definition is_null (x : option Task) : bool := match x with None => true | _ => false end.
Definition count {A} (f : A → bool) (l : list A) : nat := length (filter (λ x, f x = true) l).
Lemma count_app {A} (f : A → bool) l r : count f (l ++ r) = (count f l + count f r)%nat.
Proof. unfold count. by rewrite filter_app, length_app. Qed.
Lemma count_cons {A} (f : A → bool) x l : count f (x :: l) = ((if f x then 1 else 0) + count f l)%nat.
Proof. unfold count. rewrite filter_cons. by destruct (f x). Qed.
Lemma count_one {A} (f : A → bool) x : count f [x] = if f x then 1%nat else 0%nat.
Proof. rewrite count_cons. by destruct (f x). Qed.
Lemma count_zero {A} (f : A → bool) l : count f l = 0%nat → Forall (λ x, f x = false) l.
Proof.
  unfold count. induction l as [|x l IH]; [constructor|]. rewrite filter_cons. destruct (f x) eqn:E; cbn; [done|]. intros H. constructor; auto.
Qed.
Lemma count_full {A} (f : A → bool) l : count f l = length l → Forall (λ x, f x = true) l.
Proof.
  induction l as [|x l IH]; [constructor|]. rewrite count_cons. cbn. pose proof (length_filter (λ x, f x = true) l). fold (count f l) in *.
  destruct (f x) eqn:E; intros Hc; [constructor; [done|apply IH; lia]|lia].
Qed.

Record inv (n : nat) p : Prop := {
  inv_taken : (taken p ≤ length (enqueued p))%nat;
  inv_workers : length (pool_workers p) = n;
  inv_tasks : finished p ++ running (pool_workers p) ≡ₚ started p;
  inv_ended : count is_ended (pool_workers p) = count is_null (take (taken p) (enqueued p));
  inv_open : shutdown_flag_ p = false → sentinels p = 0%nat ∧ count is_null (enqueued p) = 0%nat;
  inv_closed : shutdown_flag_ p = true →
    (count is_null (enqueued p) + sentinels p)%nat = n ∧ (accepted p ≤ length (enqueued p))%nat ∧
    count is_null (take (accepted p) (enqueued p)) = 0%nat
}.
Lemma count_take {A} (f : A → bool) k l : (count f (take k l) ≤ count f l)%nat.
Proof. rewrite <- (take_drop k l) at 2. rewrite count_app. lia. Qed.
Lemma worker_split (ws : list Worker) i w : ws !! i = Some w →
  ∃ l r, ws = l ++ w :: r ∧ ∀ w', <[i := w']> ws = l ++ w' :: r.
Proof.
  intros Hi. exists (take i ws), (drop (S i) ws). split; [by rewrite take_drop_middle|]. intros w'.
  rewrite insert_take_drop; [done|]. by eapply lookup_lt_Some.
Qed.
Lemma running_app l r : running (l ++ r) = running l ++ running r.
Proof. apply omap_app. Qed.
Lemma take_snoc p x : enqueued p !! taken p = Some x → take (S (taken p)) (enqueued p) = take (taken p) (enqueued p) ++ [x].
Proof. intros Hx. by rewrite (take_S_r _ _ x). Qed.

Lemma inv_enqueue n x p : inv n p → (x = None → shutdown_flag_ p = true) →
  (shutdown_flag_ p = true → (count is_null (enqueued p) + (if is_null x then 1 else 0) + sentinels p)%nat = n) →
  inv n (enqueue x p).
Proof.
  intros [H1 H2 H3 H4 H5 H6] Hx Hn. unfold started in H3. split; unfold started; cbn [enqueue enqueued taken pool_workers finished shutdown_flag_ sentinels accepted].
  - rewrite length_app. lia.
  - done.
  - by rewrite take_app_le.
  - by rewrite take_app_le.
  - intros Hf. destruct (H5 Hf) as [-> Hz]. split; [done|]. rewrite count_app, Hz. destruct x; [done|]. by rewrite Hx in Hf.
  - intros Hf. destruct (H6 Hf) as (Hs & Ha & Hz). rewrite take_app_le, count_app, length_app by done. split; [|split; [lia|done]].
    specialize (Hn Hf). rewrite count_one. lia.
Qed.
Lemma inv_step n p p' : inv n p → step p p' → inv n p'.
Proof.
  intros I Hs. destruct Hs as [t p|t l r p Hb|p|k p Hk|i x p Hi Hx|i t p Hi].
  - destruct I. unfold submit_test. destruct (shutdown_flag_ p) eqn:E; split; done || (cbn; by rewrite E).
  - apply inv_enqueue; [by destruct I|done|]. cbn [is_null with_between enqueued sentinels shutdown_flag_]. intros Hf. destruct (inv_closed _ _ I Hf). lia.
  - destruct I as [H1 H2 H3 H4 H5 H6]. unfold shutdown_begin. destruct (shutdown_flag_ p) eqn:E; [by split; rewrite ?E|].
    destruct (H5 eq_refl) as [_ Hz]. split; cbn [enqueued taken pool_workers finished shutdown_flag_ sentinels accepted]; try done.
    intros _. rewrite take_ge by done. split; [lia|done].
  - assert (shutdown_flag_ p = true) as Hf. { destruct (shutdown_flag_ p) eqn:E; [done|]. destruct (inv_open _ _ I E). lia. }
    destruct (inv_closed _ _ I Hf) as (Hs & Ha & Hz). unfold with_sentinels.
    destruct I as [H1 H2 H3 H4 H5 H6]. unfold started in H3.
    split; unfold started; cbn [enqueue enqueued taken pool_workers finished shutdown_flag_ sentinels accepted].
    + rewrite length_app. lia.
    + done.
    + by rewrite take_app_le.
    + by rewrite take_app_le.
    + congruence.
    + intros _. rewrite take_app_le, count_app, length_app by done. rewrite count_one. cbn [is_null]. split; [lia|]. split; [lia|done].
  - destruct I as [H1 H2 H3 H4 H5 H6]. destruct (worker_split _ _ _ Hi) as (l & r & Hw & Hins).
    pose proof (take_snoc p x Hx) as Ht. split; unfold take_task, started; cbn [enqueued taken pool_workers finished shutdown_flag_ sentinels accepted];
      rewrite ?Ht; try done.
    + apply lookup_lt_Some in Hx. lia.
    + by rewrite length_insert.
    + rewrite Hins, omap_app. rewrite Hw in H3. unfold started in H3. rewrite <- H3, !running_app. destruct x as [t|]; cbn.
      * by rewrite <- !app_assoc, <- Permutation_cons_append.
      * by rewrite app_nil_r.
    + rewrite Hins, Hw in *. rewrite !count_app in *. rewrite <- H4, count_one, !count_cons. destruct x; cbn [is_ended is_null]; lia.
  - destruct I as [H1 H2 H3 H4 H5 H6]. destruct (worker_split _ _ _ Hi) as (l & r & Hw & Hins).
    split; unfold finish_task, started; cbn [enqueued taken pool_workers finished shutdown_flag_ sentinels accepted]; try done.
    + by rewrite length_insert.
    + unfold started in H3. rewrite <- H3, Hins, Hw, !running_app. cbn. by rewrite <- !Permutation_middle.
    + rewrite Hins, Hw in *. rewrite !count_app in *. rewrite <- H4, !count_cons. done.
Qed.
Lemma reachable_inv n p : reachable n p → inv n p.
Proof.
  induction 1 as [|p p' _ IH Hs]; [|by eapply inv_step].
  assert (running (replicate n Idle) = [] ∧ count is_ended (replicate n Idle) = 0%nat) as [E1 E2].
  { induction n as [|n [IH1 IH2]]; [done|]. split; [done|]. cbn [replicate]. by rewrite count_cons. }
  split; cbn [new_ThreadPool enqueued taken pool_workers finished shutdown_flag_ sentinels accepted started]; rewrite ?length_replicate, ?E1, ?E2; done.
Qed.

(** ** Shutdown *)

(** Steps of the pool itself: sentinels and workers. *)
Definition internal p p' : Prop :=
  (∃ n, sentinels p = S n ∧ p' = enqueue None (with_sentinels n p)) ∨
  (∃ i x, pool_workers p !! i = Some Idle ∧ enqueued p !! taken p = Some x ∧ p' = take_task i x p) ∨
  (∃ i t, pool_workers p !! i = Some (Running t) ∧ p' = finish_task i t p).
Lemma some_worker (ws : list Worker) : ¬ Forall (λ w, w = Ended) ws →
  (∃ i, ws !! i = Some Idle) ∨ (∃ i t, ws !! i = Some (Running t)).
Proof.
  induction ws as [|w ws IH]; intros Hn; [by destruct Hn|]. destruct w as [|t|]; [left; by exists 0%nat|right; by exists 0%nat, t|].
  destruct IH as [[i Hi]|(i & t & Hi)]; [|left; by exists (S i)|right; by exists (S i), t].
  intros Hf. apply Hn. by constructor.
Qed.
Lemma not_all_ended (ws : list Worker) : ¬ Forall (λ w, w = Ended) ws → (count is_ended ws < length ws)%nat.
Proof.
  intros Hn. pose proof (length_filter (λ w, is_ended w = true) ws). fold (count is_ended ws) in *.
  destruct (decide (count is_ended ws = length ws)) as [E|]; [|lia]. destruct Hn. apply count_full in E.
  eapply Forall_impl; [exact E|]. by intros [].
Qed.

(** C18. Shutting the pool down loses nothing that was in the queue.  While it shuts down some
    thread can always go on, so it does not hang; and when it has, every task that was
    enqueued before the shutdown began has been run, each of them once. *)
Theorem shutdown_runs_the_queue n p :
  reachable n p → (0 < n)%nat → shutdown_flag_ p = true →
  (¬ shut_down p → ∃ p', internal p p') ∧
  (shut_down p → finished p ≡ₚ started p ∧ omap id (take (accepted p) (enqueued p)) ⊆+ finished p).
Proof.
  intros [H1 H2 H3 H4 H5 H6]%reachable_inv Hn Hf. destruct (H6 Hf) as (Hs & Ha & Hz). split.
  - intros Hdown. destruct (sentinels p) as [|k] eqn:Ek; [|eexists; left; eauto].
    assert (¬ Forall (λ w, w = Ended) (pool_workers p)) as Hw. { intros Hall. by apply Hdown. }
    destruct (some_worker _ Hw) as [[i Hi]|(i & t & Hi)]; [|eexists; right; right; eauto].
    pose proof (not_all_ended _ Hw) as Hlt. destruct (enqueued p !! taken p) as [x|] eqn:Ex; [eexists; right; left; eauto|].
    exfalso. apply lookup_ge_None in Ex. rewrite take_ge in H4 by done. lia.
  - intros (_ & Hk & Hw). rewrite Hk in Hs.
    assert (running (pool_workers p) = []) as Hr. { clear -Hw. induction Hw as [|w ws -> _ IH]; [done|exact IH]. }
    rewrite Hr, app_nil_r in H3. split; [done|]. rewrite H3. unfold started.
    assert (accepted p ≤ taken p)%nat as Hat.
    { destruct (decide (taken p < accepted p)%nat) as [Hlt|]; [|lia]. exfalso.
      assert (count is_ended (pool_workers p) = n) as He.
      { rewrite <- H2. clear -Hw. induction Hw as [|w ws -> _ IH]; [done|]. rewrite count_cons. cbn [is_ended length]. lia. }
      replace (take (taken p) (enqueued p)) with (take (taken p) (take (accepted p) (enqueued p))) in H4 by (rewrite take_take; f_equal; lia).
      pose proof (count_take is_null (taken p) (take (accepted p) (enqueued p))). lia. }
    replace (take (accepted p) (enqueued p)) with (take (accepted p) (take (taken p) (enqueued p))) by (rewrite take_take; f_equal; lia).
    rewrite <- (take_drop (accepted p) (take (taken p) (enqueued p))) at 2. rewrite omap_app. apply submseteq_inserts_r. done.
Qed.
End pool.
Arguments Pool : clear implicits.

(** A pool of one thread that was given a task and shut down. *)
Definition closed_pool : Pool string :=
  mkPool [Some "a"%string; None] 2 true [Ended] [] 0 1 ["a"%string] [].
Lemma closed_pool_reachable : reachable 1 closed_pool.
Proof.
  pose proof (reachable_new (Task := string) 1) as R.
  eapply reachable_step in R; [|apply (step_submit_test "a"%string)].
  eapply reachable_step in R; [|by apply (step_submit_enqueue "a"%string [] [])].
  eapply reachable_step in R; [|apply step_shutdown].
  eapply reachable_step in R; [|by apply (step_take 0 (Some "a"%string))].
  eapply reachable_step in R; [|by apply (step_finish 0 "a"%string)].
  eapply reachable_step in R; [|by apply (step_sentinel 0)].
  eapply reachable_step in R; [|by apply (step_take 0 None)].
  exact R.
Qed.
Lemma shutdown_runs_the_queue_witness :
  shut_down closed_pool ∧ finished closed_pool ≡ₚ started closed_pool ∧ omap id (take 1 (enqueued closed_pool)) ⊆+ finished closed_pool.
Proof.
  assert (shut_down closed_pool) as Hd. { split; [reflexivity|]. split; [reflexivity|]. by repeat constructor. }
  split; [exact Hd|]. apply (shutdown_runs_the_queue 1 closed_pool closed_pool_reachable); [lia|reflexivity|exact Hd].
Defined.

(** A call of [submit] that tested the flag before the shutdown enqueues after the sentinels: the
    call returns as usual and its task is never run. *)
Example late_task_is_never_run : ∃ p : Pool string,
  reachable 1 p ∧ shut_down p ∧ task_queue_ p = [Some "late"%string] ∧ finished p = [] ∧ dropped p = [] ∧ between p = [].
Proof.
  eexists. split; [|].
  { pose proof (reachable_new (Task := string) 1) as R.
    eapply reachable_step in R; [|apply (step_submit_test "late"%string)].
    eapply reachable_step in R; [|apply step_shutdown].
    eapply reachable_step in R; [|by apply (step_sentinel 0)].
    eapply reachable_step in R; [|by apply (step_take 0 None)].
    eapply reachable_step in R; [|by apply (step_submit_enqueue "late"%string [] [])].
    exact R. }
  split; [split; [reflexivity|]; split; [reflexivity|]; by repeat constructor|]. vm_compute. done.
Qed.
